(* ===== verification/_CoqProject ===== *)
-Q . S2P
Prelude.v
Doubles.v
Base.v
Geo.v
Los.v
Fov.v
Entity.v
Timers.v
Board.v
Vision.v
BoardInv.v
Rules.v
InitBoard.v
Game.v
GameInv.v
Render.v
BoardSpec.v
GameSpec.v
Keys.v
Display.v
Timing.v
Terminal.v
TerminalSpec.v
Word.v
Bits.v
City.v
Uint128.v
Int128.v
Int128Inv.v
Int128Format.v
LowLevelHash.v
Hash.v
HashValues.v
Int128Hash.v
Int128Spec.v
BitMask.v
Group.v
Capacity.v
Probe.v
Table.v
CellsInv.v
TableFind.v
TableRep.v
TableDrop.v
TableErase.v
TableBulk.v
TableMerge.v
FlatMap.v
TableSample.v
TableSpec.v
FlatMapSpec.v
TableIter.v
TableIterSpec.v
FlatMapStore.v
GameKeys.v
GameTables.v
GameTablesSpec.v
Int64.v
Gregorian.v
Civil.v
CivilInv.v
CivilSpec.v
Duration.v
DurationInv.v
TimeConv.v
TimeSpec.v
BtreeNode.v
Btree.v
HeapLogic.v
BtreeTree.v
BtreeFree.v
BtreeMove.v
BtreeZip.v
BtreeSearch.v
BtreeLookup.v
BtreePair.v
BtreeInsert.v
BtreeHint.v
BtreeErase.v
BtreeSpec.v
