(* ===== verification/Prelude.v ===== *)
(** * tty-anim: a verification development

    tty-anim is a small turn-based game for a terminal (src/base.h, entity.h,
    entity.cpp, game.h, game.cpp, geo.h, geo.cpp, main.cpp). It keeps its maps
    in [HashMap], which is [absl::flat_hash_map] of the copy of Abseil under
    src/abseil-cpp. The development models the whole game and, of Abseil, what
    the game runs on: the bit and byte order functions, the hash functions and
    the SwissTable hash map; Abseil's civil time and durations, whose
    arithmetic stands on its 128-bit integers; and its B-trees.

    ** The game, from the inside out

    - Base.v (base.h): [Color], [Glyph], [RGB], [Wide], [Input] and [show].
    - Geo.v (geo.h): [Point] and [Matrix]. Los.v (geo.cpp): [LOS]. Fov.v
      (geo.h): [FOV], the trie of cut lines of sight, and [fieldOfVision]. The
      cut compares doubles; Doubles.v shows what such operations compute, and
      so that the circle is exact up to the radius where [int32_t] overflows.
    - Entity.v (entity.h, entity.cpp): entities, attacks and species. An object
      has an address ([loc]); a heap maps addresses to objects, and an operation
      that writes through a pointer takes and returns the heap.
    - Timers.v, Rules.v, InitBoard.v, Board.v, Game.v (game.h,
      game.cpp): in the order of the file the timers, [die], [plan] and [act],
      [initBoard], the class [Board] with its cache of fields of vision, and
      [State], [processInput], [updateState], [render], [IO]. A function of the
      source is a definition of the same name; a loop has one of its own
      ([turn_loop], [fov_loop], [seed_loop]).
    - Keys.v, Display.v, Timing.v, Terminal.v (main.cpp): [getKeyInputs], the
      drawing part of [Terminal::tick], the frame clock with the text of its
      statistics, [Terminal] and the main loop, which is the step relation
      [main_step].

    [State] holds a heap and a [Board]; [Board] calls [Fov] for the vision it
    caches; [updateState] calls [plan], [act], [charge] and [wait] until it is
    the player's turn; [Terminal.tick] reads keys, calls [IO.tick], which calls
    [updateState] and [render], and draws the cells that differ from
    [lastFrame].

    Vision.v, BoardInv.v, GameInv.v, Render.v (with a concrete state) and the
    second parts of InitBoard.v, Display.v and Terminal.v hold the invariants and the lemmas;
    BoardSpec.v, GameSpec.v and TerminalSpec.v the theorems: the field of vision
    solves the equations of light and the cache of it is coherent; every
    operation of the board keeps [board_wf] and does what its branch says;
    [updateState] always ends; [render] shows the player's view; the decoder of
    keys inverts the bytes of a terminal; after a tick the screen shows the
    frame; the main loop keeps the invariants of the terminal and of the clock,
    its line of statistics always fits on the screen, and it empties the queue
    of the terminal and hands every decoded input to the game.

    ** Abseil

    - Word.v (base/internal/endian.h, unaligned_access.h): words, memory with
      checked loads and stores, byte orders. Bits.v (numeric/bits.h and its
      internal header): counting and rotating, against reference functions.
    - Uint128.v (numeric/int128.h, int128.cc): [uint128] in its three builds.
      Int128.v (with int128_no_intrinsic.inc, int128_have_intrinsic.inc): the
      two representations of [int128] behind the classes [Int128Rep] and
      [Int128Type] with the laws [Int128Laws]. Int128Format.v: printing, with
      what the standard says of the insertion of integers as the reference.
      Int128Hash.v: the hash functions on [absl::uint128]. Uint128.v, after the code, and
      Int128Inv.v hold the lemmas, Int128Spec.v the theorems:
      arithmetic modulo 2^128, expressions of signed integers, printing as the
      standard does, hashing that does not depend on the compiler.
    - City.v, LowLevelHash.v (hash/internal/city.cc, low_level_hash.cc): the
      functions over buffers. Hash.v (hash/internal/hash.h, hash.cc): the state
      of a hash and the piecewise combiner. HashValues.v (hash.h): the overloads
      of [AbslHashValue]. The theorems: no read outside of a buffer, a buffer in
      pieces hashes like the whole, equal values hash equally, the fast path for
      integers agrees with the general one.
    - BitMask.v, Group.v, Capacity.v, Probe.v, Table.v (container/internal/
      raw_hash_set.h, raw_hash_set.cc): masks, control bytes and the three
      implementations of a group behind the class [Group] with the laws
      [GroupLaws]; capacities and the layout of the backing array; the probe
      sequence; the table itself, [common_fields] being [CommonFields] with the
      array it owns. FlatMap.v (raw_hash_map.h, flat_hash_map.h,
      flat_hash_set.h): the policies and the operations of a map.
    - CellsInv.v, TableFind.v, TableRep.v, TableDrop.v, TableErase.v,
      TableBulk.v, TableMerge.v: the invariant of the table and its lemmas, in
      layers. The control array shows cells ([view]); every element is reached
      by its probe sequence before a group with an empty byte ([reach],
      [lookup_inv]); the counters agree with the cells ([counts_ok]); the slots
      hold the elements of a finite map ([represents]). [rep t mp] puts these
      together and is the refinement relation of TableSpec.v, whose theorems
      say that each operation of the table does to [mp] what the operation of a
      finite map does. FlatMapSpec.v composes them: any sequence of operations
      on a [flat_hash_map] gives the answers of the same sequence on a [gmap],
      for each group, with and without assertions and generations. TableSample.v
      has the parameters of the witnesses.
    - TableIter.v (raw_hash_set.h): Table.v works with positions; here are the
      iterators with their pointers, read in a memory of live tables, and the
      checks of debug and sanitizer builds. Its second part simulates them by
      positions ([visible], [stands]); the theorems of TableIterSpec.v say that
      they pass their checks and do what positions do, and that the checks
      catch end, default, erased, stale and foreign iterators.

    - Int64.v: checked [int64_t] arithmetic, undefined on overflow. Gregorian.v:
      the calendar, from the successor of a date, as the reference. Civil.v
      (time/internal/cctz/include/cctz/civil_time_detail.h): civil times.
      CivilInv.v holds the lemmas, a civil time being the number of
      its unit ([number]); the theorems of CivilSpec.v: the constructor
      normalises any fields as the calendar does, arithmetic is that of the
      numbers, weekdays are right.
    - Duration.v (time/time.h, duration.cc) and TimeConv.v (with time.cc):
      durations, their arithmetic and conversions. DurationInv.v has the
      specification: a duration stands for an integer of ticks or an infinity
      ([span], [spans]), and shows with TimeConv.v
      that each operation computes that of [span]s; TimeSpec.v puts them
      together: saturating arithmetic, division with remainder, rounding,
      conversions there and back.

    - BtreeNode.v, Btree.v (container/internal/btree.h): the nodes of a B-tree
      as objects in a heap, with slots that are raw, live or moved from; its
      iterators; the tree. A function of the source that works on nodes is a
      computation of the monad [M], which threads the heap and can fail.
      HeapLogic.v is a separation logic for these heaps, on which the proof mode
      of Iris works: [wp m P] says that [m] runs on any heap around what it owns.
      BtreeTree.v describes a tree of nodes ([own_tree]) and BtreeZip.v a node
      with the way to it ([focus]) and positions in the sequence of the values
      ([iter_at]); BtreeFree.v, BtreeMove.v, BtreeSearch.v and BtreeLookup.v have
      the lemmas on freeing, on moving values between siblings, on search, and
      on the container as a whole ([btree_own]); BtreePair.v puts two siblings
      of a tree next to each other and shows that a full node gets room for a
      value at a position ([made_room]) by its siblings, by a split or by a new
      root, and BtreeInsert.v that a value can then be put in; BtreeHint.v
      is on the comparison of iterators and on hints; BtreeErase.v follows a
      node that has lost a value up to the root, through merges and rebalances,
      and with it the position to return ([sits], [near]). The theorems
      of BtreeSpec.v speak of ordinary executions: search stops where the sorted
      sequence says, iterators move by one value, insertion and erasure are those
      of a sorted list ([set_insert], [multi_insert], [set_erase]), [clear]
      leaves an empty heap, and so for any sequence of them.

    ** The two together

    The game's model above uses [gmap] for its [HashMap]s. GameKeys.v has the
    hash functions and equalities of the keys the game uses, GameTables.v the
    class [Board] and the static tables again, on [flat_hash_map], with
    positions and owners that are moved through slots. FlatMapStore.v and
    GameTables.v relate the two operation by operation, with the rules of
    [refines] below; GameTablesSpec.v composes them: for any sequence of
    operations the two boards answer and fail alike, and the static tables
    answer every lookup as finite maps. So the theorems about the game hold of
    the game on its hash tables.

    ** Conventions

    A function of the source that can fail returns [result]; see [failure]
    below. Unsigned integers are [Z] with the wrap-around written out ([u8] to
    [u64], the operators of Word.v); [int] is [Z], and the theorems bound it,
    or it is checked where it can overflow ([checked_i32], [i64]).
    A double is Rocq's specification of binary64 ([SpecFloat]). Assertions are
    on, as the build of the game has them; in Table.v the class [Build] says
    whether [NDEBUG] is set and whether generations are compiled in.

    Loops whose recursion is not structural run on fuel, and running out is the
    value [Err OutOfFuel], which the theorems exclude: [update_fuel] of the turn
    loop is 482 iterations for each entity and one more, which the timers need at
    most; the walk of [fieldOfVision] takes the number of nodes of the trie; the
    key loop the length of the queue; a row of the screen its columns; the
    hash loops the length of the buffer by their step; probing the capacity and
    one more, since the index of a probe sequence may not pass the capacity;
    the rehash in place twice the capacity and one more, since each turn places
    an element or moves on; the long division one turn for each bit of the
    shift that aligns the operands; the digits of a number its binary logarithm
    and one more; an iterator the control bytes that are left; the
    indices of a mask its bits; the loops of [n_day] over centuries, over four
    years, years and months 4, 25, 4 and 13 turns, since the days left are fewer
    than those of a cycle of 400 years; the walks in a B-tree the nodes in the heap and one
    more, the loops in a node its slots.

    ** Parameters

    What the program takes from elsewhere is a class or an argument, with what
    is relied on as named laws: the random engine and its distributions
    ([RandomEngine], [RandomLaws]); a terminal that follows the escape sequences
    ([Display], [DisplayLaws]); the size of the buffer of [stdin], the size of
    the window and the readings of the clock; the size of [size_t] and the seed of the hashes ([Platform]); the compiler's
    128-bit type and whether assertions are on for 128-bit integers ([Compiler]);
    the addresses that the allocator returns and the answers of the sampler
    ([Memory], [MemoryLaws]) and where the zeros of [kEmptyGenerations] are
    ([EmptyGenerations], [IterLaws]); hash and equality of the keys of a table
    ([SetPolicy], [PolicyLaws]; [KeyTraits], [KeyLaws] for the flat containers);
    the addresses of objects, which differ ([Abi], [AbiLaws]);
    for a B-tree, the comparison, the number of slots and the kind of search
    ([BtreeParams], [BtreeLaws], a strict weak order by the [KeyLaws] of
    BtreeSearch.v) and an allocator of unused addresses ([Allocator]);
    the SSSE3 and [-funsigned-char] variants ([SseConfig]). The vector
    instructions in Group.v are written out by their documentation.

    ** Not modelled

    Of the game: [segfaultHandler] with its backtrace, and the system calls
    [ioctl] and [tcsetattr], whose results are arguments. Of the table: failing
    allocations, the statistics of sampled tables, memory poisoning and
    prefetching, heterogeneous keys, allocators that differ between tables, the
    texts of fatal messages, the destructor and the
    access of the debugger to probe counts. The tables overflow [size_t] only
    above 2^58 elements, which the theorems exclude by hypothesis. Of the hashes:
    [long double], pointers to members and [vector<bool>]. Of the 128-bit
    integers: conversions from and to floating point. Of time: durations and
    [double]s, formatting and parsing, time zones, the clock; [time_t] has 64
    bits. Of the B-trees: the generations of sanitizer builds, heterogeneous
    lookup, moves and swaps of whole trees, node handles, the containers
    [btree_map] and [btree_set] around the tree; erasure of ranges,
    [equal_range], copies and [verify] are translated, but no theorem covers
    them.
    The rest of Abseil (other containers, strings,
    synchronization, random numbers, debugging, flags, logging, status) is not
    called by the game. *)

From stdpp Require Export base gmap list strings sets pretty.
From Corelib Require Import SpecFloat.
From Stdlib Require Export ZArith.
From Stdlib Require Import Lia.

#[export] Set Default Goal Selector "!".
#[global] Open Scope Z_scope.

(** ** Failures of the program

    [AssertFailed]: an [assert] whose condition is false (the build does not
    define [NDEBUG]). [OutOfRange]: the exception of [HashMap::at].
    [LengthError]: the exception of a [std::vector] of negative size.
    [Undefined]: undefined behaviour (a pointer to a destroyed object, a null
    dereference, a [static_cast] to the wrong class, a conversion of a double
    outside the range of [int]). [Blocked]: a read that waits for input.
    [OutOfFuel] is not a failure of the program: it marks a loop
    that was cut by the bound the model gives to it, and the termination theorems rule it out. *)
Inductive failure := AssertFailed | OutOfRange | LengthError | Undefined | Blocked | OutOfFuel.

#[export] Instance failure_eq_dec : EqDecision failure.
Proof. solve_decision. Defined.

Inductive result (A : Type) := Ok (a : A) | Err (e : failure).
Arguments Ok {A} a.
Arguments Err {A} e.

#[export] Instance result_eq_dec `{EqDecision A} : EqDecision (result A).
Proof. solve_decision. Defined.

Definition rbind {A B} (m : result A) (f : A -> result B) : result B :=
  match m with Ok a => f a | Err e => Err e end.

Declare Scope cpp_scope.
Delimit Scope cpp_scope with cpp.
Notation "'let*' x ':=' m 'in' k" := (rbind m (fun x => k))
  (at level 10, x pattern, m at level 100, k at level 200) : cpp_scope.
#[global] Open Scope cpp_scope.

(** [assert(c)]: continue with [k] or abort. *)
Definition cpp_assert {A} (c : bool) (k : result A) : result A :=
  if c then k else Err AssertFailed.

(** Reading through a pointer, or an element that has to be there. *)
Definition deref {A} (o : option A) : result A :=
  match o with Some a => Ok a | None => Err Undefined end.

(** [map.at(key)]. *)
Definition at_key {A} (o : option A) : result A :=
  match o with Some a => Ok a | None => Err OutOfRange end.

Section result.
Context {A B : Type}.

Lemma rbind_ok (m : result A) (f : A -> result B) b :
  rbind m f = Ok b <-> exists a, m = Ok a /\ f a = Ok b.
Proof.
  destruct m as [a|e]; simpl; split; [eauto|by intros (? & [= ->] & ?)|done|by intros (? & ? & ?)].
Qed.

Lemma rbind_err (m : result A) (f : A -> result B) e :
  rbind m f = Err e <-> m = Err e \/ exists a, m = Ok a /\ f a = Err e.
Proof.
  destruct m as [a|e']; simpl; split.
  - eauto.
  - by intros [?|(? & [= ->] & ?)].
  - intros [= ->]. by left.
  - by intros [[= ->]|(? & ? & ?)].
Qed.

Lemma cpp_assert_ok c (k : result A) a : cpp_assert c k = Ok a <-> c = true /\ k = Ok a.
Proof. destruct c; simpl; [tauto|]. split; [done|by intros [? ?]]. Qed.

Lemma deref_ok (o : option A) a : deref o = Ok a <-> o = Some a.
Proof. destruct o; simpl; split; by intros [= ->]. Qed.

Lemma at_key_ok (o : option A) a : at_key o = Ok a <-> o = Some a.
Proof. destruct o; simpl; split; by intros [= ->]. Qed.
End result.

(** Decompose hypotheses that say that a monadic computation succeeded. *)
Ltac inv_ok :=
  repeat match goal with
  | H : rbind _ _ = Ok _ |- _ => apply rbind_ok in H; destruct H as (? & ? & H)
  | H : cpp_assert _ _ = Ok _ |- _ => apply cpp_assert_ok in H; destruct H as (? & H)
  | H : deref _ = Ok _ |- _ => apply deref_ok in H
  | H : at_key _ = Ok _ |- _ => apply at_key_ok in H
  | H : Ok _ = Ok _ |- _ => injection H as H; try subst
  | H : Err _ = Ok _ |- _ => discriminate H
  | H : Ok _ = Err _ |- _ => discriminate H
  end.

(** ** Machine integers

    Unsigned types wrap; [int] and [int32_t] do not (overflow is undefined),
    so signed arithmetic is written on [Z] and the bounds theorems say where
    it stays in range. [char] is signed on the platform of the build. *)
Definition u8 (z : Z) : Z := z mod 2 ^ 8.
Definition u16 (z : Z) : Z := z mod 2 ^ 16.
Definition u32 (z : Z) : Z := z mod 2 ^ 32.
Definition u64 (z : Z) : Z := z mod 2 ^ 64.

(** [static_cast<char>] of an integer. *)
Definition i8 (z : Z) : Z := (z + 2 ^ 7) mod 2 ^ 8 - 2 ^ 7.

(** [static_cast<int>] of an unsigned integer. *)
Definition i32 (z : Z) : Z := (z + 2 ^ 31) mod 2 ^ 32 - 2 ^ 31.

Definition in_u8 (z : Z) : Prop := 0 <= z < 2 ^ 8.
Definition in_i32 (z : Z) : Prop := - 2 ^ 31 <= z < 2 ^ 31.

Lemma u8_id z : in_u8 z -> u8 z = z.
Proof. apply Z.mod_small. Qed.
Lemma u16_id z : 0 <= z < 2 ^ 16 -> u16 z = z.
Proof. apply Z.mod_small. Qed.
Lemma u64_id z : 0 <= z < 2 ^ 64 -> u64 z = z.
Proof. apply Z.mod_small. Qed.
Lemma u64_range z : 0 <= u64 z < 2 ^ 64.
Proof. by apply Z.mod_pos_bound. Qed.

Lemma i8_id z : - 2 ^ 7 <= z < 2 ^ 7 -> i8 z = z.
Proof. intros. unfold i8. rewrite Z.mod_small; lia. Qed.

Lemma i32_id z : in_i32 z -> i32 z = z.
Proof. unfold in_i32. intros. unfold i32. rewrite Z.mod_small; lia. Qed.

(** The value of an operation on [int32_t]: undefined when it does not fit. *)
Definition checked_i32 (z : Z) : result Z :=
  if (- 2 ^ 31 <=? z) && (z <? 2 ^ 31) then Ok z else Err Undefined.

Lemma checked_i32_ok z : in_i32 z -> checked_i32 z = Ok z.
Proof.
  intros [? ?]. unfold checked_i32. by rewrite (proj2 (Z.leb_le _ _)), (proj2 (Z.ltb_lt _ _)) by done.
Qed.

Lemma checked_i32_overflow z : 2 ^ 31 <= z -> checked_i32 z = Err Undefined.
Proof. intros. unfold checked_i32. by rewrite (proj2 (Z.ltb_ge _ _)), andb_false_r by done. Qed.

(** Sums modulo [2^64] may be reduced at any point. *)
Lemma u64_add_l a b : u64 (u64 a + b) = u64 (a + b).
Proof. unfold u64. by rewrite Zplus_mod_idemp_l. Qed.
Lemma u64_add_r a b : u64 (a + u64 b) = u64 (a + b).
Proof. unfold u64. by rewrite Zplus_mod_idemp_r. Qed.
Lemma u64_sub_l a b : u64 (u64 a - b) = u64 (a - b).
Proof. unfold u64. by rewrite Zminus_mod_idemp_l. Qed.
Lemma u64_sub_r a b : u64 (a - u64 b) = u64 (a - b).
Proof. unfold u64. by rewrite Zminus_mod_idemp_r. Qed.

(** ** Doubles

    IEEE binary64, in the executable specification of the Standard Library
    (53 bits of precision, round to nearest even). *)
Definition double := spec_float.
Definition double_of_Z (z : Z) : double := binary_normalize 53 1024 z 0 false.
Definition double_mul : double -> double -> double := SFmul 53 1024.
Definition double_div : double -> double -> double := SFdiv 53 1024.
Definition double_sub : double -> double -> double := SFsub 53 1024.
(** The literal [0.5]. *)
Definition double_half : double := double_div (double_of_Z 1) (double_of_Z 2).
Definition double_sqrt : double -> double := SFsqrt 53 1024.
Definition double_ltb : double -> double -> bool := SFltb.

(** [round]: to the nearest integer, halves away from zero; [None] for the
    values that are no integer. *)
Definition double_round (d : double) : option Z :=
  match d with
  | S754_zero _ => Some 0
  | S754_finite s m e =>
      let n := if 0 <=? e then Z.pos m * 2 ^ e
               else (2 * Z.pos m + 2 ^ (- e)) / 2 ^ (- e + 1) in
      Some (if s then - n else n)
  | _ => None
  end.

(** [static_cast<int>(round(d))]: undefined when the value does not fit. *)
Definition int_of_round (d : double) : result Z :=
  match double_round d with
  | Some z => checked_i32 z
  | None => Err Undefined
  end.

(** ** Counted loops

    [for (auto i = lo; i < hi; i++)] with a state that the body updates. *)
Definition for_range {S : Type} (lo hi : Z) (body : S -> Z -> S) (s : S) : S :=
  foldl body s (seqZ lo (hi - lo)).

Section for_range.
Context {S : Type}.

(** The loop rule: an invariant indexed by the counter. *)
Lemma for_range_ind (P : Z -> S -> Prop) lo hi body s :
  lo <= hi -> P lo s ->
  (forall i s, lo <= i < hi -> P i s -> P (i + 1) (body s i)) ->
  P hi (for_range lo hi body s).
Proof.
  intros Hle H0 Hstep. unfold for_range.
  remember (Z.to_nat (hi - lo)) as n eqn:Hn.
  revert lo s Hle H0 Hstep Hn. induction n as [|n IH]; intros lo s Hle H0 Hstep Hn.
  - rewrite seqZ_nil by lia. by replace hi with lo by lia.
  - rewrite seqZ_cons by lia. simpl.
    replace (Z.pred (hi - lo)) with (hi - Z.succ lo) by lia.
    apply IH; [lia| |intros; apply Hstep; [lia|done]|lia].
    apply Hstep; [lia|done].
Qed.

(** The same with an invariant that does not depend on the counter. *)
Lemma for_range_inv (P : S -> Prop) lo hi body s :
  P s -> (forall i s, lo <= i < hi -> P s -> P (body s i)) ->
  P (for_range lo hi body s).
Proof.
  intros H0 Hstep. destruct (decide (lo <= hi)).
  - by apply (for_range_ind (fun _ => P)).
  - unfold for_range. by rewrite seqZ_nil by lia.
Qed.

Lemma for_range_nil lo hi body (s : S) : hi <= lo -> for_range lo hi body s = s.
Proof. intros. unfold for_range. by rewrite seqZ_nil by lia. Qed.

Lemma for_range_S lo hi body (s : S) :
  lo <= hi -> for_range lo (hi + 1) body s = body (for_range lo hi body s) hi.
Proof.
  intros. unfold for_range. replace (hi + 1 - lo) with ((hi - lo) + 1) by lia.
  rewrite seqZ_app, foldl_app by lia.
  replace (lo + (hi - lo)) with hi by lia.
  by rewrite (seqZ_cons hi 1), (seqZ_nil (Z.succ hi)) by lia.
Qed.
End for_range.

(** Two nested loops as one loop over the pairs. *)
Lemma foldl_nested {A B C S : Type} (body : S -> C -> S) (f : A -> B -> C) (xs : list A) (ys : list B) (s : S) :
  foldl (fun s y => foldl (fun s x => body s (f x y)) s xs) s ys =
  foldl body s (ys ≫= fun y => (fun x => f x y) <$> xs).
Proof.
  revert s. induction ys as [|y ys IH]; intros s; [done|].
  cbn [foldl mbind list_bind]. rewrite foldl_app, IH. f_equal.
  clear IH. revert s. induction xs as [|x xs IHx]; intros s; [done|]. cbn [foldl fmap list_fmap]. apply IHx.
Qed.

(** Loops whose body can fail. *)
Fixpoint foldM {A S : Type} (body : S -> A -> result S) (s : S) (l : list A) : result S :=
  match l with
  | [] => Ok s
  | a :: l => let* s := body s a in foldM body s l
  end.

Section foldM.
Context {A S : Type}.

Lemma foldM_inv (P : S -> Prop) (body : S -> A -> result S) l s s' :
  P s -> (forall a s s', a ∈ l -> P s -> body s a = Ok s' -> P s') ->
  foldM body s l = Ok s' -> P s'.
Proof.
  revert s. induction l as [|a l IH]; intros s H0 Hstep Hf; simpl in Hf; inv_ok; [done|].
  eapply IH; [| |done].
  - eapply Hstep; [by left|done|done].
  - intros. eapply Hstep; [by right|done|done].
Qed.

(** Total correctness: when the body never fails under the invariant,
    the loop does not fail and the invariant holds at the end. *)
Lemma foldM_total (P : S -> Prop) (body : S -> A -> result S) l s :
  P s -> (forall a s, a ∈ l -> P s -> exists s', body s a = Ok s' /\ P s') ->
  exists s', foldM body s l = Ok s' /\ P s'.
Proof.
  revert s. induction l as [|a l IH]; intros s H0 Hstep; simpl.
  - by exists s.
  - destruct (Hstep a s) as (s1 & -> & H1); [by left|done|]. simpl.
    apply IH; [done|]. intros. apply Hstep; [by right|done].
Qed.

Lemma foldM_app (body : S -> A -> result S) l1 l2 s :
  foldM body s (l1 ++ l2) = rbind (foldM body s l1) (fun s => foldM body s l2).
Proof.
  revert s. induction l1 as [|a l1 IH]; intros s; simpl; [done|].
  destruct (body s a); simpl; [apply IH|done].
Qed.
End foldM.

(** ** Refinement of results

    [refines R c a]: the computation [c] fails as [a] does, and gives a result
    related to the result of [a] where [a] succeeds. *)
Definition refines {A B} (R : A -> B -> Prop) (c : result A) (a : result B) : Prop :=
  match a with Ok y => exists x, c = Ok x /\ R x y | Err e => c = Err e end.

Section refines.
Context {A B A' B' : Type}.

Lemma refines_ok (R : A -> B -> Prop) x y : R x y -> refines R (Ok x) (Ok y).
Proof. intros H. by exists x. Qed.

Lemma refines_bind (R : A -> B -> Prop) (S : A' -> B' -> Prop) c a f g :
  refines R c a -> (forall x y, R x y -> refines S (f x) (g y)) -> refines S (rbind c f) (rbind a g).
Proof.
  unfold refines at 1. destruct a as [y|e]; [intros (x & -> & H) Hf; by apply Hf|by intros -> _].
Qed.

Lemma refines_inv (R : A -> B -> Prop) c a y : refines R c a -> a = Ok y -> exists x, c = Ok x /\ R x y.
Proof. by intros H ->. Qed.

(** A step that both take. *)
Lemma refines_same (S : A' -> B' -> Prop) (m : result A) f g :
  (forall x, m = Ok x -> refines S (f x) (g x)) -> refines S (rbind m f) (rbind m g).
Proof. destruct m as [x|e]; intros H; [by apply H|done]. Qed.

Lemma refines_assert (S : A' -> B' -> Prop) b b' (k : result A') (k' : result B') :
  b = b' -> (b = true -> refines S k k') -> refines S (cpp_assert b k) (cpp_assert b' k').
Proof. intros <- H. destruct b; [by apply H|done]. Qed.

Lemma refines_mono (R S : A -> B -> Prop) c a : refines R c a -> (forall x y, R x y -> S x y) -> refines S c a.
Proof. unfold refines. destruct a; [intros (x & -> & H) HS; eauto|done]. Qed.

(** A loop whose abstract body cannot fail. *)
Lemma refines_foldM (R : A -> B -> Prop) (body : A -> A' -> result A) (step : B -> A' -> B) l x y :
  R x y -> (forall x y a, R x y -> refines R (body x a) (Ok (step y a))) -> refines R (foldM body x l) (Ok (foldl step y l)).
Proof.
  intros HR Hstep. revert x y HR. induction l as [|a l IH]; intros x y HR; [by apply refines_ok|].
  destruct (Hstep x y a HR) as (x' & Hx & HR'). cbn [foldM foldl]. rewrite Hx. by apply IH.
Qed.
End refines.

(** ** Lists *)

(** [a[i]] for an index that may be out of range (then undefined). *)
Definition at_index {A} (l : list A) (i : Z) : result A :=
  if 0 <=? i then deref (l !! Z.to_nat i) else Err Undefined.

Lemma at_index_ok {A} (l : list A) i :
  0 <= i < Z.of_nat (length l) -> exists a, at_index l i = Ok a /\ a ∈ l.
Proof.
  intros Hi. unfold at_index. rewrite (proj2 (Z.leb_le 0 i)) by lia.
  destruct (lookup_lt_is_Some_2 l (Z.to_nat i)) as [a Ha]; [lia|].
  exists a. rewrite Ha. split; [done|]. by eapply list_elem_of_lookup_2.
Qed.

Lemma elem_of_insert_inv {A} (l : list A) k x y : y ∈ <[k := x]> l -> y ∈ l \/ y = x.
Proof.
  intros (i & Hi)%list_elem_of_lookup. apply list_lookup_insert_Some in Hi.
  destruct Hi as [(_ & -> & _)|(_ & Hi)]; [by right|]. left. by eapply list_elem_of_lookup_2.
Qed.

(** Checking a decidable statement on every element of an integer range. *)
Lemma forallb_range (P : Z -> bool) lo hi i :
  forallb P (seqZ lo (hi - lo)) = true -> lo <= i < hi -> P i = true.
Proof.
  intros Hall Hi. rewrite forallb_forall in Hall. apply Hall, list_elem_of_In, elem_of_seqZ. lia.
Qed.

(** ** The hint database of the development *)
Create HintDb tty.
Create Rewrite HintDb u64.
#[export] Hint Resolve u64_range : tty.
#[export] Hint Rewrite @u64_add_l @u64_add_r @u64_sub_l @u64_sub_r : u64.

(** Booleans of integer comparisons to propositions. *)
Ltac bools :=
  repeat match goal with
  | H : (_ && _) = true |- _ => apply andb_true_iff in H; destruct H
  | H : (_ && _) = false |- _ => apply andb_false_iff in H
  | H : (_ || _) = false |- _ => apply orb_false_iff in H; destruct H
  | H : (_ || _) = true |- _ => apply orb_true_iff in H
  | H : (_ <=? _) = true |- _ => apply Z.leb_le in H
  | H : (_ <=? _) = false |- _ => apply Z.leb_gt in H
  | H : (_ <? _) = true |- _ => apply Z.ltb_lt in H
  | H : (_ <? _) = false |- _ => apply Z.ltb_ge in H
  | H : (_ =? _) = true |- _ => apply Z.eqb_eq in H
  | H : (_ =? _) = false |- _ => apply Z.eqb_neq in H
  | H : negb _ = true |- _ => apply negb_true_iff in H
  | H : negb _ = false |- _ => apply negb_false_iff in H
  end.
