(* ===== verification/Doubles.v ===== *)
(** * Doubles: what the operations on doubles compute

    Prelude.v takes the operations of binary64 from [SpecFloat]. Here is what
    rounding does to the order of magnitude of a result, which values are
    exact, and the comparison of a square root with half less than an integer
    ([double_sqrt_gt]), the circle of src/geo.h. *)

From Corelib Require Import SpecFloat.
From Stdlib Require Import Lia.
From S2P Require Import Prelude.

(** ** What rounding does

    [log2 m + 1 + e] is the binary order of magnitude of [m * 2^e]. *)

Lemma digits2_log2 p : Z.pos (digits2_pos p) = Z.log2 (Z.pos p) + 1.
Proof.
  induction p as [p IH|p IH|]; cbn [digits2_pos]; [..|done]; rewrite Pos2Z.inj_succ, IH.
  - rewrite Pos2Z.inj_xI, Z.log2_succ_double by lia. lia.
  - rewrite Pos2Z.inj_xO, Z.log2_double by lia. lia.
Qed.

Lemma Zdigits2_log2 m : 0 < m -> Zdigits2 m = Z.log2 m + 1.
Proof. destruct m; [lia| |lia]. intros _. apply digits2_log2. Qed.

Lemma fexp_normal D : -1021 <= D -> fexp 53 1024 D = D - 53.
Proof. intros HD. unfold fexp, emin. lia. Qed.

Lemma iter_pos_iter {A} (f : A -> A) n x : SpecFloat.iter_pos f n x = Nat.iter (Pos.to_nat n) f x.
Proof.
  revert x. induction n as [n IH|n IH|]; intros x; cbn [SpecFloat.iter_pos].
  - rewrite !IH, <- Nat.iter_add, Pos2Nat.inj_xI, <- Nat.iter_succ_r. f_equal. lia.
  - rewrite !IH, <- Nat.iter_add, Pos2Nat.inj_xO. f_equal. lia.
  - done.
Qed.

Lemma shr_1_m r : 0 <= shr_m r -> shr_m (shr_1 r) = shr_m r / 2.
Proof.
  destruct r as [m r s]. cbn [shr_m]. intros Hm. unfold shr_1. destruct m as [|[p|p|]|]; cbn [shr_m]; try lia; try done.
  - rewrite Pos2Z.inj_xI. by apply (Z.div_unique _ _ _ 1); [lia|].
  - rewrite Pos2Z.inj_xO. apply (Z.div_unique _ _ _ 0); lia.
Qed.

Lemma shr_1_even m : 0 <= m -> shr_1 (Build_shr_record (m * 2) false false) = Build_shr_record m false false.
Proof. intros Hm. destruct m as [|p|]; [done| |lia]. rewrite Z.mul_comm, <- Pos2Z.inj_xO. done. Qed.

(** The shift of [n] bits, none for a negative [n]. *)
Lemma shr_m_div r e n : 0 <= shr_m r ->
  shr_m (fst (shr r e n)) = shr_m r / 2 ^ Z.max 0 n /\ snd (shr r e n) = e + Z.max 0 n.
Proof.
  intros Hr. unfold shr. destruct n as [|p|p]; cbn [fst snd]; [rewrite Z.div_1_r; lia| |rewrite Z.div_1_r; lia].
  split; [|lia]. rewrite iter_pos_iter, Z.max_r by lia. rewrite <- (positive_nat_Z p).
  generalize (Pos.to_nat p). intros k. enough (H : 0 <= shr_m (Nat.iter k shr_1 r) /\ shr_m (Nat.iter k shr_1 r) = shr_m r / 2 ^ Z.of_nat k) by apply H.
  induction k as [|k [IH0 IH]]; [by rewrite Z.div_1_r|]. change (Nat.iter (S k) shr_1 r) with (shr_1 (Nat.iter k shr_1 r)). rewrite shr_1_m by done.
  rewrite IH, Nat2Z.inj_succ, Z.pow_succ_r, (Z.mul_comm 2), <- Z.div_div by lia. split; [|done]. rewrite <- IH. by apply Z.div_pos.
Qed.

Lemma shr_exact m e n : 0 <= m -> 0 <= n -> shr (Build_shr_record (m * 2 ^ n) false false) e n = (Build_shr_record m false false, e + n).
Proof.
  intros Hm Hn. unfold shr. destruct n as [|p|p]; [by rewrite Z.mul_1_r, Z.add_0_r| |lia]. f_equal.
  rewrite iter_pos_iter, <- (positive_nat_Z p). generalize (Pos.to_nat p). intros k. revert m Hm.
  induction k as [|k IH]; intros m Hm; [by rewrite Z.mul_1_r|]. rewrite Nat.iter_succ_r, Nat2Z.inj_succ, Z.pow_succ_r by lia.
  replace (m * (2 * 2 ^ Z.of_nat k)) with (m * 2 ^ Z.of_nat k * 2) by ring. rewrite shr_1_even by nia. by apply IH.
Qed.

Lemma log2_div_pow2 m n : 0 < m -> 0 <= n <= Z.log2 m -> 0 < m / 2 ^ n /\ Z.log2 (m / 2 ^ n) = Z.log2 m - n.
Proof.
  intros Hm Hn. rewrite <- Z.shiftr_div_pow2, Z.log2_shiftr by lia. split; [|lia].
  rewrite Z.shiftr_div_pow2 by lia. apply Z.div_str_pos. split; [lia|].
  apply Z.log2_spec in Hm as [Hm _]. etransitivity; [|exact Hm]. apply Z.pow_le_mono_r; lia.
Qed.

Lemma log2_round m l : 0 < m -> let r := round_nearest_even m l in 0 < r /\ Z.log2 m <= Z.log2 r <= Z.log2 m + 1.
Proof.
  intros Hm r. assert (Hr : r = m \/ r = m + 1) by (unfold r, round_nearest_even; destruct l as [|[]]; [..|destruct (Z.even m)| |]; auto).
  destruct Hr as [-> | ->]; [lia|]. pose proof (Z.log2_le_mono m (m + 1) ltac:(lia)). pose proof (Z.log2_succ_le m). unfold Z.succ in *. lia.
Qed.

(** Rounding changes the order of magnitude by one at most. *)
Lemma round_aux_order s m e l : 0 < m -> -1021 <= Z.log2 m + 1 + e <= 900 ->
  exists m' e', binary_round_aux 53 1024 s m e l = S754_finite s m' e' /\
    Z.log2 m + 1 + e <= Z.log2 (Z.pos m') + 1 + e' <= Z.log2 m + 2 + e.
Proof.
  intros Hm HD. unfold binary_round_aux, shr_fexp. rewrite Zdigits2_log2, fexp_normal by lia.
  pose proof (Z.log2_nonneg m) as Hlog.
  set (rec := shr_record_of_loc m l). assert (Hrec : shr_m rec = m) by (unfold rec; destruct l as [|[]]; done).
  destruct (shr_m_div rec e (Z.log2 m + 1 + e - 53 - e)) as [Hm1 He1]; [rewrite Hrec; lia|]. rewrite Hrec in Hm1.
  destruct (shr rec e _) as [mrs1 e1]. cbn [fst snd] in Hm1, He1.
  destruct (log2_div_pow2 m (Z.max 0 (Z.log2 m + 1 + e - 53 - e)) Hm) as [Hp1 Hl1]; [lia|]. rewrite <- Hm1 in Hp1, Hl1.
  destruct (log2_round (shr_m mrs1) (loc_of_shr_record mrs1) Hp1) as [Hp2 Hl2]. set (r := round_nearest_even _ _) in *.
  rewrite Zdigits2_log2, fexp_normal by lia. pose proof (Z.log2_nonneg r) as Hlogr.
  destruct (shr_m_div (shr_record_of_loc r loc_Exact) e1 (Z.log2 r + 1 + e1 - 53 - e1)) as [Hm2 He2]; [cbn; lia|].
  change (shr_m (shr_record_of_loc r loc_Exact)) with r in Hm2. destruct (shr _ e1 _) as [mrs2 e2]. cbn [fst snd] in Hm2, He2.
  destruct (log2_div_pow2 r (Z.max 0 (Z.log2 r + 1 + e1 - 53 - e1)) Hp2) as [Hp3 Hl3]; [lia|]. rewrite <- Hm2 in Hp3, Hl3.
  destruct (shr_m mrs2) as [|m'|] eqn:Em; [lia| |lia]. rewrite (proj2 (Z.leb_le e2 _)) by lia.
  exists m', e2. split; [done|]. lia.
Qed.

(** A value of 53 bits is kept. *)
Lemma round_aux_exact s k n e : 0 < k -> 0 <= n -> n = Z.max 0 (Z.log2 k + 1 + n - 53) -> -1021 <= Z.log2 k + 1 + n + e -> e + n <= 971 ->
  binary_round_aux 53 1024 s (k * 2 ^ n) e loc_Exact = S754_finite s (Z.to_pos k) (e + n).
Proof.
  intros Hk Hn Heq HD He. assert (Hkn : 0 < k * 2 ^ n) by (apply Z.mul_pos_pos; lia).
  assert (Hsh : forall e0 m0, shr (Build_shr_record m0 false false) e0 (Z.max 0 n) = shr (Build_shr_record m0 false false) e0 n) by (intros; by rewrite Z.max_r by lia).
  unfold binary_round_aux, shr_fexp. rewrite Zdigits2_log2, Z.log2_mul_pow2, fexp_normal by lia. cbn [shr_record_of_loc].
  assert (Hd : forall m0 e0 d, Z.max 0 d = n -> m0 = k * 2 ^ n -> shr (Build_shr_record m0 false false) e0 d = (Build_shr_record k false false, e0 + n)).
  { intros m0 e0 d Hd ->. destruct (decide (0 <= d)); [rewrite Z.max_r in Hd by lia; subst d; apply shr_exact; lia|].
    rewrite Z.max_l in Hd by lia. subst n. rewrite Z.mul_1_r, Z.add_0_r. destruct d; [done|lia|done]. }
  rewrite Hd by (lia || done). cbn [loc_of_shr_record round_nearest_even shr_m]. rewrite Zdigits2_log2, fexp_normal by lia.
  assert (Hz : shr (Build_shr_record k false false) (e + n) (Z.log2 k + 1 + (e + n) - 53 - (e + n)) = (Build_shr_record k false false, e + n)).
  { destruct (Z.log2 k + 1 + (e + n) - 53 - (e + n)) eqn:Ed; [done|lia|done]. }
  rewrite Hz. cbn [shr_m]. destruct k as [|k|k]; [lia| |lia]. by rewrite (proj2 (Z.leb_le (e + n) _)) by lia.
Qed.

Lemma shl_align_fst m e e' : Z.pos (fst (shl_align m e e')) = Z.pos m * 2 ^ Z.max 0 (e - e') /\ snd (shl_align m e e') = e - Z.max 0 (e - e').
Proof.
  unfold shl_align. destruct (e' - e) as [|d|d] eqn:E; cbn [fst snd].
  - rewrite Z.max_l by lia. lia.
  - rewrite Z.max_l by lia. lia.
  - rewrite Z.max_r by lia. split; [|lia]. replace (e - e') with (Z.pos d) by lia.
    rewrite <- Z.shiftl_mul_pow2 by lia. by apply (Pos.iter_swap_gen _ _ Z.pos).
Qed.

Lemma binary_round_order s p e : -1021 <= Z.log2 (Z.pos p) + 1 + e <= 900 ->
  exists m' e', binary_round 53 1024 s p e = S754_finite s m' e' /\
    Z.log2 (Z.pos p) + 1 + e <= Z.log2 (Z.pos m') + 1 + e' <= Z.log2 (Z.pos p) + 2 + e.
Proof.
  intros HD. unfold binary_round. rewrite digits2_log2. set (e0 := fexp _ _ _).
  destruct (shl_align_fst p e e0) as [Hm He]. destruct (shl_align p e e0) as [mz ez]. cbn [fst snd] in Hm, He.
  assert (Hl : Z.log2 (Z.pos mz) = Z.log2 (Z.pos p) + Z.max 0 (e - e0)) by (rewrite Hm, Z.log2_mul_pow2; lia).
  destruct (round_aux_order s (Z.pos mz) ez loc_Exact) as (m' & e' & -> & Hr); [done|lia|]. exists m', e'. split; [done|lia].
Qed.

(** An integer of 53 bits, and its odd multiples of a power of two. *)
Lemma binary_round_exact s k n e : 0 < k -> 0 <= n -> Z.log2 k < 53 -> -1021 <= Z.log2 k + 1 + n + e <= 900 ->
  exists m, binary_round 53 1024 s (Z.to_pos (k * 2 ^ n)) e = S754_finite s m (Z.log2 k + 1 + n + e - 53) /\
    Z.pos m = k * 2 ^ (52 - Z.log2 k).
Proof.
  intros Hk Hn Hlk HD. assert (Hkn : 0 < k * 2 ^ n) by (apply Z.mul_pos_pos; lia).
  unfold binary_round. rewrite digits2_log2, Z2Pos.id, Z.log2_mul_pow2, fexp_normal by lia.
  destruct (shl_align_fst (Z.to_pos (k * 2 ^ n)) e (n + Z.log2 k + 1 + e - 53)) as [Hm He]. rewrite Z2Pos.id in Hm by lia.
  destruct (shl_align _ e _) as [mz ez]. cbn [fst snd] in Hm, He. exists (Z.to_pos (k * 2 ^ (52 - Z.log2 k))).
  set (d := 52 - Z.log2 k) in *. assert (0 < k * 2 ^ d) by (apply Z.mul_pos_pos; lia). rewrite Z2Pos.id by done. split; [|done].
  assert (Hmz : Z.pos mz = k * 2 ^ d * 2 ^ Z.max 0 (n - d)).
  { rewrite Hm, <- !Z.mul_assoc, <- !Z.pow_add_r by lia. do 2 f_equal. lia. }
  rewrite Hmz, round_aux_exact.
  - f_equal. lia.
  - done.
  - lia.
  - rewrite Z.log2_mul_pow2 by lia. lia.
  - rewrite Z.log2_mul_pow2 by lia. lia.
  - lia.
Qed.

(** ** The order of magnitude of computed values *)

(** [d] is positive, and its order of magnitude is between [lo] and [hi]. *)
Definition order_in (lo hi : Z) (d : double) : Prop :=
  match d with S754_finite false m e => lo <= Z.log2 (Z.pos m) + 1 + e <= hi | _ => False end.

Lemma order_of_Z z lo hi : 2 ^ lo <= z < 2 ^ hi -> 0 <= lo -> hi <= 900 -> order_in (lo + 1) (hi + 1) (double_of_Z z).
Proof.
  intros Hz Hlo Hhi. assert (0 < 2 ^ lo) by lia. destruct z as [|p|]; [lia| |lia].
  assert (lo <= Z.log2 (Z.pos p) < hi).
  { split; [apply Z.log2_le_pow2; lia|apply Z.log2_lt_pow2; lia]. }
  unfold double_of_Z, binary_normalize.
  destruct (binary_round_order false p 0) as (m & e & -> & Hr); [lia|]. cbn [order_in]. lia.
Qed.

Lemma order_mul a b lo1 hi1 lo2 hi2 : order_in lo1 hi1 a -> order_in lo2 hi2 b -> -1000 <= lo1 + lo2 -> hi1 + hi2 <= 900 ->
  order_in (lo1 + lo2 - 1) (hi1 + hi2 + 1) (double_mul a b).
Proof.
  unfold order_in. destruct a as [| | |[] m1 e1]; try done. destruct b as [| | |[] m2 e2]; try done. intros Ha Hb Hlo Hhi.
  unfold double_mul, SFmul. pose proof (Z.log2_mul_below (Z.pos m1) (Z.pos m2)). pose proof (Z.log2_mul_above (Z.pos m1) (Z.pos m2)).
  rewrite Pos2Z.inj_mul. destruct (round_aux_order (xorb false false) (Z.pos m1 * Z.pos m2) (e1 + e2) loc_Exact) as (m & e & -> & Hr); [lia|lia|]. cbn [xorb]. lia.
Qed.

Lemma order_div a b lo1 hi1 lo2 hi2 : order_in lo1 hi1 a -> order_in lo2 hi2 b -> -900 <= lo1 - hi2 -> hi1 - lo2 <= 800 ->
  order_in (lo1 - hi2) (hi1 - lo2 + 2) (double_div a b).
Proof.
  unfold order_in. destruct a as [| | |[] m1 e1]; try done. destruct b as [| | |[] m2 e2]; try done. intros Ha Hb Hlo Hhi.
  unfold double_div, SFdiv, SFdiv_core_binary. rewrite !Zdigits2_log2, fexp_normal by lia.
  set (e' := Z.min _ _). set (s := e1 - e2 - e').
  assert (Hs : 0 <= s) by lia. assert (Hm : (match s with Z0 => Z.pos m1 | Z.pos _ => Z.shiftl (Z.pos m1) s | Z.neg _ => 0 end) = Z.pos m1 * 2 ^ s).
  { destruct s as [|p|]; [lia|by apply Z.shiftl_mul_pow2|lia]. }
  rewrite Hm. pose proof (Z_div_mod (Z.pos m1 * 2 ^ s) (Z.pos m2) ltac:(lia)) as Hdiv. destruct (Z.div_eucl _ _) as [q r].
  destruct Hdiv as [Hdiv Hr]. set (L1 := Z.log2 (Z.pos m1)) in *. set (L2 := Z.log2 (Z.pos m2)) in *.
  assert (Hl : Z.log2 (Z.pos m1 * 2 ^ s) = L1 + s) by (rewrite Z.log2_mul_pow2; lia).
  assert (H0L : 0 <= L1 /\ 0 <= L2) by (split; apply Z.log2_nonneg).
  destruct (Z.log2_spec (Z.pos m2)) as [H2a H2b]; [lia|]. fold L2 in H2a, H2b.
  destruct (Z.log2_spec (Z.pos m1 * 2 ^ s)) as [H1a H1b]; [lia|]. rewrite Hl in H1a, H1b.
  assert (Hbig : L2 + 52 <= L1 + s) by lia.
  assert (Hq1 : 2 ^ (L1 + s - L2 - 1) <= q).
  { apply Z.lt_succ_r. apply (Z.mul_lt_mono_pos_r (2 ^ Z.succ L2)); [lia|]. rewrite <- Z.pow_add_r by lia.
    replace (L1 + s - L2 - 1 + Z.succ L2) with (L1 + s) by lia. nia. }
  assert (Hq2 : q < 2 ^ (L1 + s - L2 + 1)).
  { apply (Z.mul_lt_mono_pos_r (2 ^ L2)); [lia|]. rewrite <- Z.pow_add_r by lia.
    replace (L1 + s - L2 + 1 + L2) with (Z.succ (L1 + s)) by lia. nia. }
  assert (0 < 2 ^ (L1 + s - L2 - 1)) by lia.
  assert (Hlq : L1 + s - L2 - 1 <= Z.log2 q < L1 + s - L2 + 1) by (split; [apply Z.log2_le_pow2; lia|apply Z.log2_lt_pow2; lia]).
  destruct (round_aux_order (xorb false false) q e' (new_location (Z.pos m2) r)) as (m & e & -> & Hro); [lia|lia|]. cbn [xorb]. lia.
Qed.

(** ** Exact values *)

(** An integer of 53 bits is converted exactly, to 53 digits. *)
Lemma double_of_Z_exact z : 0 < z < 2 ^ 53 ->
  exists m, double_of_Z z = S754_finite false m (Z.log2 z - 52) /\ Z.pos m = z * 2 ^ (52 - Z.log2 z).
Proof.
  intros Hz. assert (Hl : 0 <= Z.log2 z < 53) by (split; [apply Z.log2_nonneg|apply Z.log2_lt_pow2; lia]).
  destruct (binary_round_exact false z 0 0) as (m & Hm & Hv); [lia..|]. exists m. split; [|done].
  rewrite Z.mul_1_r in Hm. destruct z as [|p|]; [lia| |lia]. cbn [Z.to_pos] in Hm. unfold double_of_Z, binary_normalize. rewrite Hm.
  f_equal. lia.
Qed.

(** Half less than an integer. *)
Lemma double_sub_half z : 0 < z < 2 ^ 52 -> let k := 2 * z - 1 in
  exists m, double_sub (double_of_Z z) double_half = S754_finite false m (Z.log2 k - 53) /\ Z.pos m = k * 2 ^ (52 - Z.log2 k).
Proof.
  intros Hz k. assert (Hl : 0 <= Z.log2 z < 52) by (split; [apply Z.log2_nonneg|apply Z.log2_lt_pow2; lia]).
  assert (Hk : 0 <= Z.log2 k < 53) by (split; [apply Z.log2_nonneg|apply Z.log2_lt_pow2; lia]).
  destruct (double_of_Z_exact z) as (mz & -> & Hmz); [lia|]. change double_half with (S754_finite false 4503599627370496 (-53)).
  unfold double_sub, SFsub. rewrite Z.min_r by lia. cbn [cond_Zopp].
  destruct (shl_align_fst mz (Z.log2 z - 52) (-53)) as [-> _]. change (Z.pos (fst (shl_align 4503599627370496 (-53) (-53)))) with (2 ^ 52).
  assert (Heq : Z.pos mz * 2 ^ Z.max 0 (Z.log2 z - 52 - -53) - 2 ^ 52 = k * 2 ^ 52).
  { rewrite Hmz, <- Z.mul_assoc, <- Z.pow_add_r by lia. replace (52 - Z.log2 z + Z.max 0 (Z.log2 z - 52 - -53)) with 53 by lia. lia. }
  rewrite Heq. destruct (binary_round_exact false k 52 (-53)) as (m & Hm & Hv); [lia..|]. exists m. split; [|done].
  destruct (k * 2 ^ 52) as [|p|] eqn:Ep; [lia| |lia]. cbn [Z.to_pos] in Hm. unfold binary_normalize. rewrite Hm. f_equal. lia.
Qed.

(** Rounding 53 digits: down, or up by one. *)
Lemma round_aux_53 s q e l : 2 ^ 52 <= q < 2 ^ 53 -> -1021 <= 53 + e <= 900 ->
  exists m' e' R, binary_round_aux 53 1024 s q e l = S754_finite s m' e' /\ (R = q \/ R = q + 1) /\
    Z.log2 (Z.pos m') = 52 /\ e <= e' /\ Z.pos m' * 2 ^ (e' - e) = R.
Proof.
  intros Hq He. assert (Hl : Z.log2 q = 52) by (apply Z.log2_unique; lia).
  unfold binary_round_aux, shr_fexp. rewrite Zdigits2_log2, fexp_normal, Hl by lia.
  replace (52 + 1 + e - 53 - e) with 0 by lia. cbn [shr]. set (rec := shr_record_of_loc q l).
  assert (Hrec : shr_m rec = q) by (unfold rec; destruct l as [|[]]; done). rewrite Hrec. set (R := round_nearest_even q _).
  assert (HR : R = q \/ R = q + 1) by (unfold R, round_nearest_even; destruct (loc_of_shr_record rec) as [|[]]; [..|destruct (Z.even q)| |]; auto).
  assert (HRp : 0 < R) by lia. assert (HRl : 52 <= Z.log2 R) by (apply Z.log2_le_pow2; lia). rewrite Zdigits2_log2, fexp_normal by lia.
  destruct (decide (R < 2 ^ 53)) as [Hs|Hs].
  - assert (HlR : Z.log2 R = 52) by (apply Z.log2_unique; lia). rewrite HlR. replace (52 + 1 + e - 53 - e) with 0 by lia. cbn [shr shr_record_of_loc shr_m].
    destruct R as [|m|] eqn:ER; [lia| |lia]. rewrite (proj2 (Z.leb_le e _)) by lia. exists m, e, (Z.pos m).
    split; [done|]. split; [done|]. split; [done|]. split; [lia|]. rewrite Z.sub_diag. lia.
  - assert (HR2 : R = 2 ^ 52 * 2 ^ 1) by lia. rewrite HR2. change (Z.log2 (2 ^ 52 * 2 ^ 1)) with 53. replace (53 + 1 + e - 53 - e) with 1 by lia.
    cbn [shr_record_of_loc]. rewrite shr_exact by lia. cbn [shr_m]. change (2 ^ 52) with (Z.pos 4503599627370496). rewrite (proj2 (Z.leb_le (e + 1) _)) by lia.
    exists 4503599627370496%positive, (e + 1), R. split; [done|]. split; [done|]. split; [done|]. split; [lia|]. replace (e + 1 - e) with 1 by lia. lia.
Qed.

(** Comparing values of 53 digits. *)
Lemma double_ltb_53 b m1 e1 m2 e2 : Z.log2 (Z.pos m1) = 52 -> Z.log2 (Z.pos m2) = 52 -> b <= e1 -> b <= e2 ->
  double_ltb (S754_finite false m1 e1) (S754_finite false m2 e2) = (Z.pos m1 * 2 ^ (e1 - b) <? Z.pos m2 * 2 ^ (e2 - b)).
Proof.
  intros H1 H2 Hb1 Hb2. destruct (Z.log2_spec (Z.pos m1) ltac:(lia)) as [L1 U1], (Z.log2_spec (Z.pos m2) ltac:(lia)) as [L2 U2].
  rewrite H1 in L1, U1. rewrite H2 in L2, U2. change (Z.succ 52) with 53 in *.
  assert (Hscale : forall m e m' e', 2 ^ 52 <= m' -> m < 2 ^ 53 -> b <= e -> e < e' -> m * 2 ^ (e - b) < m' * 2 ^ (e' - b)).
  { intros m e m' e' Hm' Hm Hb He. replace (e' - b) with ((e' - e - 1) + 1 + (e - b)) by lia. rewrite !Z.pow_add_r by lia.
    assert (HP : 0 < 2 ^ (e - b)) by lia. assert (HQ : 0 < 2 ^ (e' - e - 1)) by lia.
    set (P := 2 ^ (e - b)) in *. set (Q := 2 ^ (e' - e - 1)) in *. apply Z.lt_le_trans with (2 ^ 53 * P); [by apply Z.mul_lt_mono_pos_r|].
    replace (m' * (Q * 2 ^ 1 * P)) with (m' * 2 * Q * P) by ring. apply Z.mul_le_mono_nonneg_r; nia. }
  unfold double_ltb, SFltb, SFcompare. apply eq_true_iff_eq. rewrite Z.ltb_lt. destruct (e1 ?= e2) eqn:E.
  - apply Z.compare_eq_iff in E as ->. rewrite Pos.compare_cont_spec. change (Pos.compare m1 m2) with (Z.pos m1 ?= Z.pos m2).
    assert (0 < 2 ^ (e2 - b)) by lia. rewrite <- Z.mul_lt_mono_pos_r by done.
    destruct (Z.compare_spec (Z.pos m1) (Z.pos m2)); cbn; split; try done; lia.
  - apply Z.compare_lt_iff in E. split; [|done]. intros _. by apply Hscale.
  - apply Z.compare_gt_iff in E. split; [done|]. pose proof (Hscale (Z.pos m2) e2 (Z.pos m1) e1 L1 U2 Hb2 E). lia.
Qed.

(** The square root of an integer. *)
Lemma double_sqrt_Z n : 0 < n < 2 ^ 31 -> let h := Z.log2 n / 2 + 1 in let K := 2 ^ (53 - h) in
  exists m e R q, double_sqrt (double_of_Z n) = S754_finite false m e /\ Z.log2 (Z.pos m) = 52 /\ h - 53 <= e /\
    Z.pos m * 2 ^ (e - (h - 53)) = R /\ (R = q \/ R = q + 1) /\ 0 <= q /\ q * q <= n * (K * K) < (q + 1) * (q + 1).
Proof.
  intros Hn h K. set (L := Z.log2 n) in *.
  assert (Hl : 0 <= L < 31) by (split; [apply Z.log2_nonneg|apply Z.log2_lt_pow2; lia]).
  destruct (Z.log2_spec n) as [Ln Un]; [lia|]. fold L in Ln, Un.
  destruct (double_of_Z_exact n) as (mz & -> & Hmz); [lia|]. fold L in Hmz |- *.
  assert (Hmlog : Z.log2 (Z.pos mz) = 52). { rewrite Hmz, Z.log2_mul_pow2 by lia. fold L. lia. }
  assert (Hh : 2 * h = L + 1 \/ 2 * h = L + 2).
  { unfold h. pose proof (Z.div_mod L 2 ltac:(done)). pose proof (Z.mod_pos_bound L 2 ltac:(done)). lia. }
  unfold double_sqrt, SFsqrt, SFsqrt_core_binary. rewrite Zdigits2_log2, Hmlog, !Z.div2_div by lia.
  replace (52 + 1 + (L - 52) + 1) with (L + 2) by lia.
  assert (Hh2 : (L + 2) / 2 = h) by (unfold h; rewrite <- Z.div_add by done; f_equal; lia). assert (Hd : h - 53 <= (L - 52) / 2) by (apply Z.div_le_lower_bound; lia).
  rewrite Hh2, fexp_normal, Z.min_l by lia.
  set (s := L - 52 - 2 * (h - 53)). assert (Hs : 0 < s) by lia.
  assert (Hm : (match s with Z0 => Z.pos mz | Z.pos _ => Z.shiftl (Z.pos mz) s | Z.neg _ => 0 end) = n * (K * K)).
  { assert (Hsh : Z.pos mz * 2 ^ s = n * (K * K)).
    { unfold K. rewrite Hmz, <- Z.mul_assoc, <- !Z.pow_add_r by lia. do 2 f_equal. lia. }
    rewrite <- Hsh. destruct s as [|p|]; [lia|by apply Z.shiftl_mul_pow2|lia]. }
  rewrite Hm. pose proof (Z.sqrtrem_spec (n * (K * K)) ltac:(nia)) as Hsq. destruct (Z.sqrtrem _) as [q r]. destruct Hsq as [Hq Hr].
  assert (HKK : K * K = 2 ^ (106 - 2 * h)) by (unfold K; rewrite <- Z.pow_add_r by lia; f_equal; lia).
  assert (Hq0 : 0 <= q) by (destruct (decide (0 <= q)); [done|lia]).
  assert (Hqb : 2 ^ 52 <= q < 2 ^ 53).
  { assert (Hlo : 2 ^ 104 <= n * (K * K)).
    { rewrite HKK. transitivity (2 ^ L * 2 ^ (106 - 2 * h)); [rewrite <- Z.pow_add_r by lia; apply Z.pow_le_mono_r; lia|].
      apply Z.mul_le_mono_nonneg_r; lia. }
    assert (Hhi : n * (K * K) < 2 ^ 106).
    { rewrite HKK. apply Z.lt_le_trans with (2 ^ (Z.succ L) * 2 ^ (106 - 2 * h)); [apply Z.mul_lt_mono_pos_r; lia|].
      rewrite <- Z.pow_add_r by lia. apply Z.pow_le_mono_r; lia. }
    split; nia. }
  destruct (round_aux_53 false q (h - 53) (if r =? 0 then loc_Exact else loc_Inexact (if r <=? q then Lt else Gt)) Hqb)
    as (m & e & R & -> & HR & Hm52 & He & Hval); [lia|].
  exists m, e, R, q. split_and!; try done; lia.
Qed.

(** The circle around a point: a root exceeds [r - 1/2] exactly where its
    square exceeds [r * (r - 1)]. *)
Lemma double_sqrt_gt r n : 0 < r < 2 ^ 31 -> 0 <= n < 2 ^ 31 ->
  double_ltb (double_sub (double_of_Z r) double_half) (double_sqrt (double_of_Z n)) = (r * (r - 1) <? n).
Proof.
  intros Hr Hn. set (k := 2 * r - 1). destruct (double_sub_half r) as (mc & -> & Hmc); [lia|]. fold k in Hmc |- *.
  assert (Hk : 0 <= Z.log2 k < 32) by (split; [apply Z.log2_nonneg|apply Z.log2_lt_pow2; lia]).
  destruct (decide (n = 0)) as [->|Hn0].
  { cbn. symmetry. apply Z.ltb_ge. nia. }
  destruct (double_sqrt_Z n) as (m & e & R & q & -> & Hm & He & HR & HRq & Hq0 & Hq); [lia|].
  set (h := Z.log2 n / 2 + 1) in *. assert (Hh : 1 <= h <= 16).
  { assert (0 <= Z.log2 n < 31) by (split; [apply Z.log2_nonneg|apply Z.log2_lt_pow2; lia]).
    unfold h. pose proof (Z.div_mod (Z.log2 n) 2 ltac:(done)). pose proof (Z.mod_pos_bound (Z.log2 n) 2 ltac:(done)). lia. }
  rewrite (double_ltb_53 (-53)); [|rewrite Hmc, Z.log2_mul_pow2 by lia; lia|done|lia|lia].
  set (K1 := 2 ^ (52 - h)). assert (HK : 2 ^ (53 - h) = 2 * K1) by (unfold K1; rewrite <- Z.pow_succ_r by lia; f_equal; lia).
  assert (HK1 : 2 ^ 36 <= K1) by (apply Z.pow_le_mono_r; lia). rewrite HK in Hq.
  assert (Hleft : Z.pos mc * 2 ^ (Z.log2 k - 53 - -53) = k * K1 * 2 ^ h).
  { rewrite Hmc, <- !Z.mul_assoc. unfold K1. rewrite <- !Z.pow_add_r by lia. do 2 f_equal. lia. }
  assert (Hright : Z.pos m * 2 ^ (e - -53) = R * 2 ^ h).
  { rewrite <- HR, <- Z.mul_assoc, <- Z.pow_add_r by lia. do 2 f_equal. lia. }
  rewrite Hleft, Hright. apply eq_true_iff_eq. rewrite !Z.ltb_lt. rewrite <- Z.mul_lt_mono_pos_r by lia.
  assert (Hsq : k * k = 4 * (r * (r - 1)) + 1) by (unfold k; ring). set (X := k * K1) in *.
  assert (HXX : X * X = (4 * (r * (r - 1)) + 1) * (K1 * K1)) by (unfold X; rewrite <- Hsq; ring).
  assert (Hnk : n * (2 * K1 * (2 * K1)) = 4 * n * (K1 * K1)) by ring. rewrite Hnk in Hq. split.
  - intros HX. apply Z.nle_gt. intros Hle. set (KK := K1 * K1) in *. assert (HKK : 0 < KK) by (apply Z.mul_pos_pos; lia).
    assert (H4 : 4 * n * KK <= 4 * (r * (r - 1)) * KK) by (apply Z.mul_le_mono_nonneg_r; lia).
    assert (HX0 : 0 <= X) by (apply Z.mul_nonneg_nonneg; lia).
    assert (Hqq : X * X <= q * q) by (apply Z.square_le_mono_nonneg; lia). lia.
  - intros Hgt. assert (H4 : (4 * (r * (r - 1)) + 4) * (K1 * K1) <= 4 * n * (K1 * K1)) by (apply Z.mul_le_mono_nonneg_r; lia).
    assert (HX0 : 0 <= X) by (apply Z.mul_nonneg_nonneg; lia).
    assert (HXk : X <= 2 ^ 32 * K1) by (apply Z.mul_le_mono_nonneg_r; lia).
    assert (HKk : 2 ^ 36 * K1 <= K1 * K1) by (apply Z.mul_le_mono_nonneg_r; lia).
    assert (Hqq : (X + 1) * (X + 1) < (q + 1) * (q + 1)) by lia.
    assert (X + 1 < q + 1) by (apply Z.square_lt_simpl_nonneg; lia). lia.
Qed.
