(* ===== verification/Base.v ===== *)
(** * Base: colours, glyphs and input codes (src/base.h)

    The [Color] and [Glyph] records with their comparisons, the constructors
    [RGB], [Wide] and [Empty], and the [Input] enumeration with its [show]. *)

From S2P Require Import Prelude.

Record Color := mkColor { value : Z }.
Record Glyph := mkGlyph { ch : Z; fg : Color; bg : Color }.

#[export] Instance Color_eq_dec : EqDecision Color.
Proof. solve_decision. Defined.
#[export] Instance Glyph_eq_dec : EqDecision Glyph.
Proof. solve_decision. Defined.

(** [operator==] of the two classes; [operator!=] is its negation. *)
Definition color_eqb (a b : Color) : bool := value a =? value b.
Definition color_neqb (a b : Color) : bool := negb (color_eqb a b).

Definition glyph_eqb (a b : Glyph) : bool :=
  (ch a =? ch b) && color_eqb (fg a) (fg b) && color_eqb (bg a) (bg b).
Definition glyph_neqb (a b : Glyph) : bool := negb (glyph_eqb a b).

Definition kBlack : Color := mkColor 0.
Definition kNone : Color := mkColor 255.
Definition kGray : Color := mkColor (16 + 216 + 5).

(** [code] is an [int] with one hexadecimal digit per channel. *)
Definition RGB (code : Z) : Color :=
  let r := Z.land (Z.shiftr code 8) 15 in
  let g := Z.land (Z.shiftr code 4) 15 in
  let b := Z.land (Z.shiftr code 0) 15 in
  mkColor (u8 (16 + b + 6 * g + 36 * r)).

(** [c] is a [char]; [offset] is an [int], so the sum is taken in
    [uint32_t] before it is narrowed to [char16_t]. *)
Definition Wide (c : Z) (code : Z) : Glyph :=
  let offset := 65280 - 32 in
  let wide := u16 (u32 (u32 c + offset)) in
  mkGlyph wide (if code =? 255 then kNone else RGB code) kNone.

(** The default argument [code = 255]. *)
Definition Wide_ (c : Z) : Glyph := Wide c 255.

Definition Empty : Glyph := Wide_ 32.

(** The value-initialised glyph, [Glyph{}]. *)
Definition Glyph0 : Glyph := mkGlyph 0 kBlack kBlack.

(** ** Inputs

    [Input] has the underlying type [uint8_t]: the enumerators are the first
    twelve values, and a printable key is stored as its own code. *)
Module Input.
Definition Esc : Z := 0.
Definition Tab : Z := 1.
Definition Enter : Z := 2.
Definition Up : Z := 3.
Definition Down : Z := 4.
Definition Right : Z := 5.
Definition Left : Z := 6.
Definition ShiftTab : Z := 7.
Definition ShiftUp : Z := 8.
Definition ShiftDown : Z := 9.
Definition ShiftRight : Z := 10.
Definition ShiftLeft : Z := 11.

(** The list that the macro [INPUTS] expands to. *)
Definition names : list (Z * string) :=
  [(Esc, "Esc"); (Tab, "Tab"); (Enter, "Enter"); (Up, "Up"); (Down, "Down");
   (Right, "Right"); (Left, "Left"); (ShiftTab, "ShiftTab"); (ShiftUp, "ShiftUp");
   (ShiftDown, "ShiftDown"); (ShiftRight, "ShiftRight"); (ShiftLeft, "ShiftLeft")]%string.
End Input.

(** [Input(c)]: the conversion to the underlying type. *)
Definition to_Input (c : Z) : Z := u8 c.

(** The static table of [show]: two bytes, the character and a terminator,
    for each printable code. The elements after those are indeterminate
    ([None]). *)
Definition show_start : Z := 32.
Definition show_limit : Z := 127.

Definition show_cache : list (option Z) :=
  for_range show_start show_limit
    (fun result i =>
       <[Z.to_nat (2 * (i - show_start) + 1) := Some 0]>
         (<[Z.to_nat (2 * (i - show_start) + 0) := Some i]> result))
    (replicate 256 None).

(** Reading a C string from a table at an index: the bytes up to the
    terminator. [fuel] bounds the reads by the length of the table; running
    into an indeterminate byte or off the end is undefined. *)
Fixpoint read_cstring (fuel : nat) (table : list (option Z)) (i : nat) : result string :=
  match fuel with
  | O => Err Undefined
  | S fuel =>
      let* c := deref (mjoin (table !! i)) in
      if c =? 0 then Ok EmptyString
      else let* s := read_cstring fuel table (S i) in
           Ok (String (Ascii.ascii_of_N (Z.to_N c)) s)
  end.

Definition show (input : Z) : result string :=
  let i := input in
  if (show_start <=? i) && (i <? show_limit)
  then read_cstring (length show_cache) show_cache (Z.to_nat (2 * (i - show_start)))
  else match list_find (fun e => fst e = input) Input.names with
       | Some (_, (_, name)) => Ok name
       | None => Ok "<unknown>"%string
       end.

(** ** Lemmas *)

Lemma color_eqb_eq a b : color_eqb a b = true <-> a = b.
Proof.
  destruct a, b. unfold color_eqb. simpl. rewrite Z.eqb_eq. split; congruence.
Qed.

Lemma glyph_eqb_eq a b : glyph_eqb a b = true <-> a = b.
Proof.
  destruct a, b. unfold glyph_eqb. simpl.
  rewrite !andb_true_iff, !color_eqb_eq, Z.eqb_eq.
  split; [intros [[-> ->] ->]|intros [= -> -> ->]]; done.
Qed.

Lemma glyph_eqb_refl g : glyph_eqb g g = true.
Proof. by apply glyph_eqb_eq. Qed.

Lemma color_neqb_false a b : color_neqb a b = false <-> a = b.
Proof. unfold color_neqb. rewrite negb_false_iff. apply color_eqb_eq. Qed.

(** The colour code as its three digits. *)
Lemma RGB_digits r g b :
  0 <= r < 16 -> 0 <= g < 16 -> 0 <= b < 16 ->
  RGB (256 * r + 16 * g + b) = mkColor (u8 (16 + b + 6 * g + 36 * r)).
Proof.
  intros Hr Hg Hb. unfold RGB.
  change 15 with (Z.ones 4). rewrite !Z.land_ones, !Z.shiftr_div_pow2 by lia.
  change (2 ^ 8) with 256. change (2 ^ 4) with 16. change (2 ^ 0) with 1.
  replace ((256 * r + 16 * g + b) / 256) with r by (apply (Z.div_unique _ _ _ (16 * g + b)); lia).
  replace ((256 * r + 16 * g + b) / 16) with (16 * r + g) by (apply (Z.div_unique _ _ _ b); lia).
  rewrite Z.div_1_r, (Z.mod_small r) by lia.
  replace ((16 * r + g) mod 16) with g by (apply (Z.mod_unique _ _ r); lia).
  replace ((256 * r + 16 * g + b) mod 16) with b by (apply (Z.mod_unique _ _ (16 * r + g)); lia).
  done.
Qed.

(** A wide glyph of a printable character is its fullwidth form. *)
Lemma Wide_ch c code : 32 <= c < 127 -> ch (Wide c code) = 65280 + (c - 32).
Proof.
  intros. unfold Wide, u32, u16. simpl ch.
  rewrite (Z.mod_small c), (Z.mod_small (c + _)) by lia. rewrite Z.mod_small; lia.
Qed.

(** The fullwidth forms whose last six bits come from the character itself:
    what the tables of the game use, and what the terminal can print. *)
Definition wide_glyph (g : Glyph) : Prop :=
  65280 <= ch g < 65344 /\ in_u8 (value (fg g)) /\ in_u8 (value (bg g)).

Lemma Wide_wide c code : 32 <= c < 96 -> wide_glyph (Wide c code).
Proof.
  intros. unfold wide_glyph. rewrite Wide_ch by lia. split; [lia|]. unfold Wide. cbn [fg bg].
  split; [|done]. case_match; [done|]. apply Z.mod_pos_bound. lia.
Qed.

(** ** Properties *)

(** the colours [RGB] builds from three digits of at most 5 are exactly
    the 6x6x6 cube of the 256-colour palette: they lie between 16 and 231 and
    two codes give the same colour only when their digits agree. *)
Theorem RGB_cube r g b r' g' b' :
  0 <= r <= 5 -> 0 <= g <= 5 -> 0 <= b <= 5 ->
  0 <= r' <= 5 -> 0 <= g' <= 5 -> 0 <= b' <= 5 ->
  16 <= value (RGB (256 * r + 16 * g + b)) <= 231 /\
  (RGB (256 * r + 16 * g + b) = RGB (256 * r' + 16 * g' + b') ->
   r = r' /\ g = g' /\ b = b').
Proof.
  intros. rewrite !RGB_digits by lia. rewrite !u8_id by (unfold in_u8; lia).
  simpl. split; [lia|]. intros [= Heq]. lia.
Qed.

Theorem RGB_cube_witness :
  16 <= value (RGB (256 * 2 + 16 * 3 + 1)) <= 231 /\
  (RGB (256 * 2 + 16 * 3 + 1) = RGB (256 * 2 + 16 * 3 + 1) -> 2 = 2 /\ 3 = 3 /\ 1 = 1).
Proof. apply (RGB_cube 2 3 1 2 3 1); lia. Defined.

(** What [show] promises: the reference it is compared with. *)
Definition show_spec (i : Z) : string :=
  if (32 <=? i) && (i <? 127) then String (Ascii.ascii_of_N (Z.to_N i)) EmptyString
  else nth (Z.to_nat i)
    ["Esc"; "Tab"; "Enter"; "Up"; "Down"; "Right"; "Left"; "ShiftTab"; "ShiftUp";
     "ShiftDown"; "ShiftRight"; "ShiftLeft"]%string "<unknown>"%string.

(** [show] is defined on every value of [Input]: it never reads an
    indeterminate byte or past the table, it maps a printable code to the
    one-character string of that code, an enumerator to its name and every
    other value to ["<unknown>"]. *)
Theorem show_correct i : in_u8 i -> show i = Ok (show_spec i).
Proof.
  intros Hi. unfold in_u8 in Hi.
  pose proof (forallb_range (fun i => bool_decide (show i = Ok (show_spec i))) 0 256 i) as H.
  apply (bool_decide_eq_true_1 _), H; [vm_compute; reflexivity|lia].
Qed.

Theorem show_correct_witness : in_u8 104 /\ show 104 = Ok "h"%string.
Proof. split; [unfold in_u8; lia|]. apply (show_correct 104). unfold in_u8. lia. Defined.
