(* ===== verification/Geo.v ===== *)
(** * Geo: points and matrices (src/geo.h)

    [Point] is a pair of [int32_t]. [lenL2Squared] checks each product and
    the sum; the other operations are on [Z], and [Point.ops_bounded] gives
    coordinates on which none of them overflows.
    [Matrix] is a row-major vector with a value for the cells outside. *)

From S2P Require Import Prelude.

Module Point.
Record t := mk { x : Z; y : Z }.

#[export] Instance t_eq_dec : EqDecision t.
Proof. solve_decision. Defined.
#[export] Instance t_countable : Countable t.
Proof.
  apply (inj_countable' (fun p => (x p, y p)) (fun '(a, b) => mk a b)).
  by intros [].
Defined.

Definition origin : t := mk 0 0.
Definition add (p o : t) : t := mk (x p + x o) (y p + y o).
Definition sub (p o : t) : t := mk (x p - x o) (y p - y o).
Definition eqb (p o : t) : bool := (x p =? x o) && (y p =? y o).
Definition neqb (p o : t) : bool := negb (x p =? x o) || negb (y p =? y o).

(** [x * x + y * y] in [int32_t] *)
Definition lenL2Squared (p : t) : result Z :=
  let* xx := checked_i32 (x p * x p) in
  let* yy := checked_i32 (y p * y p) in
  checked_i32 (xx + yy).

Definition lenL2 (p : t) : result double :=
  let* n := lenL2Squared p in
  Ok (double_sqrt (double_of_Z n)).

Definition lenNethack (p : t) : Z :=
  let ax := Z.abs (x p) in
  let ay := Z.abs (y p) in
  Z.quot (46 * Z.min ax ay + 95 * Z.max ax ay + 25) 100.

Definition lenTaxicab (p : t) : Z := Z.abs (x p) + Z.abs (y p).
Definition lenWalking (p : t) : Z := Z.max (Z.abs (x p)) (Z.abs (y p)).

Lemma eq_iff p o : p = o <-> x p = x o /\ y p = y o.
Proof. destruct p, o; simpl. split; [by intros [= -> ->]|by intros [-> ->]]. Qed.

Lemma eqb_eq p o : eqb p o = true <-> p = o.
Proof. unfold eqb. rewrite andb_true_iff, !Z.eqb_eq. symmetry. apply eq_iff. Qed.

Lemma neqb_negb p o : neqb p o = negb (eqb p o).
Proof. unfold neqb, eqb. by rewrite negb_andb. Qed.

Lemma eqb_refl p : eqb p p = true.
Proof. by apply eqb_eq. Qed.

Lemma eqb_false p o : eqb p o = false <-> p <> o.
Proof. rewrite <- not_true_iff_false, eqb_eq. done. Qed.

Lemma add_comm p o : add p o = add o p.
Proof. apply eq_iff; simpl; lia. Qed.
Lemma add_assoc p o r : add p (add o r) = add (add p o) r.
Proof. apply eq_iff; simpl; lia. Qed.
Lemma add_origin p : add p origin = p.
Proof. apply eq_iff; simpl; lia. Qed.
Lemma add_sub p o : sub (add p o) o = p.
Proof. apply eq_iff; simpl; lia. Qed.
Lemma sub_add p o : add (sub p o) o = p.
Proof. apply eq_iff; simpl; lia. Qed.
Lemma add_inj_r p o r : add p r = add o r -> p = o.
Proof. rewrite !eq_iff; simpl; lia. Qed.

(** Adjacent in one of the eight directions, or equal. *)
Definition adjacent (p o : t) : Prop := lenWalking (sub p o) <= 1.

(** The square of the distance from the origin. *)
Definition norm2 (p : t) : Z := x p * x p + y p * y p.

Lemma lenL2Squared_ok p : norm2 p < 2 ^ 31 -> lenL2Squared p = Ok (norm2 p).
Proof.
  unfold norm2, lenL2Squared. intros H. pose proof (Z.square_nonneg (x p)). pose proof (Z.square_nonneg (y p)).
  rewrite !checked_i32_ok; cbn [rbind]; [|unfold in_i32; lia..]. apply checked_i32_ok. unfold in_i32. lia.
Qed.

Lemma lenL2Squared_overflow p : 2 ^ 31 <= norm2 p -> lenL2Squared p = Err Undefined.
Proof.
  unfold norm2, lenL2Squared. intros H. pose proof (Z.square_nonneg (x p)). pose proof (Z.square_nonneg (y p)).
  destruct (Z_lt_le_dec (x p * x p) (2 ^ 31)); [|by rewrite checked_i32_overflow].
  rewrite checked_i32_ok by (unfold in_i32; lia). cbn [rbind].
  destruct (Z_lt_le_dec (y p * y p) (2 ^ 31)); [|by rewrite checked_i32_overflow].
  rewrite checked_i32_ok by (unfold in_i32; lia). by apply checked_i32_overflow.
Qed.

(** A board and its vision stay far below this bound. *)
Definition small (p : t) : Prop := Z.abs (x p) <= 2 ^ 14 /\ Z.abs (y p) <= 2 ^ 14.

(** No operation overflows [int32_t] on such points, and sums and
    differences are in the range of the fields. *)
Lemma ops_bounded p o : small p -> small o ->
  in_i32 (x (add p o)) /\ in_i32 (y (add p o)) /\ in_i32 (x (sub p o)) /\ in_i32 (y (sub p o)) /\
  lenL2Squared p = Ok (norm2 p) /\ in_i32 (46 * Z.min (Z.abs (x p)) (Z.abs (y p)) + 95 * Z.max (Z.abs (x p)) (Z.abs (y p)) + 25) /\
  in_i32 (lenTaxicab p) /\ in_i32 (lenWalking p).
Proof.
  unfold small, in_i32, add, sub, lenTaxicab, lenWalking. simpl. intros.
  split_and!; try nia. apply lenL2Squared_ok. unfold norm2. nia.
Qed.
End Point.
Export (hints) Point.

Abbreviation Point := Point.t.

(** ** Matrix *)
Module Matrix.
Record t (V : Type) := mk { m_size : Point; m_init : V; m_data : list V }.
Arguments mk {V}.
Arguments m_size {V}.
Arguments m_init {V}.
Arguments m_data {V}.

Section matrix.
Context {V : Type}.
Implicit Types (m : t V) (p q : Point) (v : V).

(** The constructor: [std::vector(size.x * size.y, init)] throws when
    the product, converted to [size_t], exceeds what a vector holds. *)
Definition make (size : Point) (init : V) : result (t V) :=
  let n := Point.x size * Point.y size in
  if n <? 0 then Err LengthError
  else Ok (mk size init (replicate (Z.to_nat n) init)).

Definition size m : Point := m_size m.

Definition contains m p : bool :=
  (0 <=? Point.x p) && (Point.x p <? Point.x (m_size m)) &&
  (0 <=? Point.y p) && (Point.y p <? Point.y (m_size m)).

(** The index into [m_data], [p.x + m_size.x * p.y]. *)
Definition index m p : Z := Point.x p + Point.x (m_size m) * Point.y p.

Definition get m p : V :=
  if contains m p then default (m_init m) (m_data m !! Z.to_nat (index m p))
  else m_init m.

Definition set m p v : t V :=
  if contains m p
  then mk (m_size m) (m_init m) (<[Z.to_nat (index m p) := v]> (m_data m))
  else m.

Definition fill m v : t V :=
  mk (m_size m) (m_init m) ((fun _ => v) <$> m_data m).

(** The representation invariant: one element per cell. With it the
    accesses to [m_data] are in bounds ([index_bounds]) and the [default]
    in [get] is never taken. *)
Definition wf m : Prop :=
  0 <= Point.x (m_size m) /\ 0 <= Point.y (m_size m) /\
  Z.of_nat (length (m_data m)) = Point.x (m_size m) * Point.y (m_size m).

Lemma contains_spec m p :
  contains m p = true <->
  (0 <= Point.x p < Point.x (m_size m)) /\ (0 <= Point.y p < Point.y (m_size m)).
Proof.
  unfold contains. rewrite !andb_true_iff, !Z.leb_le, !Z.ltb_lt. lia.
Qed.

Lemma index_range m p :
  contains m p = true ->
  0 <= index m p < Point.x (m_size m) * Point.y (m_size m).
Proof. rewrite contains_spec. unfold index. intros [? ?]. nia. Qed.

Lemma index_bounds m p :
  wf m -> contains m p = true -> (Z.to_nat (index m p) < length (m_data m))%nat.
Proof. intros (? & ? & Hlen) Hc%index_range. lia. Qed.

Lemma index_inj m p q :
  contains m p = true -> contains m q = true ->
  Z.to_nat (index m p) = Z.to_nat (index m q) -> p = q.
Proof.
  intros Hp Hq Heq. pose proof (index_range m p Hp). pose proof (index_range m q Hq).
  apply contains_spec in Hp, Hq. destruct Hp, Hq. unfold index in *.
  assert (Point.y p = Point.y q) by nia. apply Point.eq_iff. nia.
Qed.

Lemma make_ok sz v m :
  make sz v = Ok m -> m_size m = sz /\ m_init m = v /\
  m_data m = replicate (Z.to_nat (Point.x sz * Point.y sz)) v.
Proof. unfold make. case_match; [done|]. by intros [= <-]. Qed.

Lemma make_wf sz v m :
  0 <= Point.x sz -> 0 <= Point.y sz -> make sz v = Ok m -> wf m.
Proof.
  intros ? ? (Hs & _ & Hd)%make_ok. unfold wf. rewrite Hs, Hd, length_replicate. nia.
Qed.

Lemma make_defined sz v :
  0 <= Point.x sz -> 0 <= Point.y sz -> exists m, make sz v = Ok m.
Proof. intros. unfold make. case_match eqn:E; [bools; nia|eauto]. Qed.

Lemma set_size m p v : m_size (set m p v) = m_size m.
Proof. unfold set. by case_match. Qed.
Lemma set_init m p v : m_init (set m p v) = m_init m.
Proof. unfold set. by case_match. Qed.
Lemma set_contains m p v q : contains (set m p v) q = contains m q.
Proof. unfold contains. by rewrite set_size. Qed.
Lemma set_wf m p v : wf m -> wf (set m p v).
Proof.
  unfold wf, set. case_match; [|done]. simpl. by rewrite length_insert.
Qed.
Lemma fill_wf m v : wf m -> wf (fill m v).
Proof. unfold wf, fill. simpl. by rewrite length_fmap. Qed.
Lemma fill_contains m v q : contains (fill m v) q = contains m q.
Proof. done. Qed.

Lemma get_outside m p : contains m p = false -> get m p = m_init m.
Proof. unfold get. by intros ->. Qed.

(** [get] and [set] as a map with a default. *)
Lemma get_set m p q v :
  wf m -> get (set m p v) q =
    if bool_decide (p = q) && contains m p then v else get m q.
Proof.
  intros Hwf. destruct (contains m p) eqn:Hp; [|rewrite andb_false_r; unfold set; by rewrite Hp].
  rewrite andb_true_r. unfold get. rewrite set_contains.
  case_bool_decide as Hpq; [subst q|].
  - rewrite Hp. unfold set. rewrite Hp. unfold index; simpl.
    rewrite list_lookup_insert_eq; [done|]. by apply index_bounds.
  - destruct (contains m q) eqn:Hq; [|apply set_init].
    unfold set. rewrite Hp. unfold index at 1; simpl.
    rewrite list_lookup_insert_ne; [done|].
    intros Heq. apply Hpq. by apply (index_inj m).
Qed.

Lemma get_set_eq m p v : wf m -> contains m p = true -> get (set m p v) p = v.
Proof. intros Hwf Hp. rewrite get_set by done. by rewrite bool_decide_true, Hp. Qed.
Lemma get_set_ne m p q v : wf m -> p <> q -> get (set m p v) q = get m q.
Proof. intros. rewrite get_set by done. by rewrite bool_decide_false. Qed.

Lemma get_fill m p v :
  wf m -> get (fill m v) p = if contains m p then v else m_init m.
Proof.
  intros Hwf. unfold get. rewrite fill_contains. destruct (contains m p) eqn:Hp; [|done].
  unfold index, fill; simpl. rewrite list_lookup_fmap.
  destruct (lookup_lt_is_Some_2 (m_data m) (Z.to_nat (index m p))) as [w Hw].
  { by apply index_bounds. }
  unfold index in Hw. by rewrite Hw.
Qed.

Lemma get_make sz v m p : make sz v = Ok m -> get m p = v.
Proof.
  intros (Hs & Hi & Hd)%make_ok. unfold get. rewrite Hd, Hi.
  case_match; [|done]. destruct (_ !! _) as [w|] eqn:Hw; [|done].
  simpl. apply lookup_replicate in Hw. naive_solver.
Qed.

(** Equality of matrices is equality of what they hold. *)
Lemma wf_ext m1 m2 :
  wf m1 -> wf m2 -> m_size m1 = m_size m2 -> m_init m1 = m_init m2 ->
  (forall p, contains m1 p = true -> get m1 p = get m2 p) -> m1 = m2.
Proof.
  destruct m1 as [s1 i1 d1], m2 as [s2 i2 d2]. simpl. intros Hw1 Hw2 <- <- Hget.
  f_equal. destruct Hw1 as (? & ? & Hl1), Hw2 as (_ & _ & Hl2); simpl in *.
  apply list_eq_same_length with (length d1); [lia|lia|].
  intros i v1 v2 Hi H1 H2.
  set (p := Point.mk (Z.of_nat i mod Point.x s1) (Z.of_nat i / Point.x s1)).
  assert (0 < Point.x s1) by nia.
  assert (Hp : contains (mk s1 i1 d1) p = true).
  { apply contains_spec. simpl. split; [by apply Z.mod_pos_bound|].
    split; [apply Z.div_pos; lia|]. apply Z.div_lt_upper_bound; nia. }
  assert (Hix : forall d, Z.to_nat (index (mk s1 i1 d) p) = i).
  { intros d. unfold index, p; simpl. rewrite Z.add_comm, <- Z.div_mod by lia. lia. }
  pose proof (Hget p Hp) as Hg. unfold get in Hg.
  replace (contains (mk s1 i1 d2) p) with true in Hg by (symmetry; apply Hp).
  rewrite Hp, !Hix in Hg. simpl in Hg. by rewrite H1, H2 in Hg.
Qed.
End matrix.
End Matrix.

Abbreviation Matrix := Matrix.t.

#[export] Hint Resolve Matrix.set_wf Matrix.fill_wf : tty.

(** ** Properties *)

(** The writes of a matrix, and what they do to a map of all points with a
    default outside the rectangle. *)
Inductive matrix_op (V : Type) := OpSet (p : Point) (v : V) | OpFill (v : V).
Arguments OpSet {V}.
Arguments OpFill {V}.

Definition matrix_run {V} (m : Matrix V) (op : matrix_op V) : Matrix V :=
  match op with OpSet p v => Matrix.set m p v | OpFill v => Matrix.fill m v end.

Definition inside (size p : Point) : bool :=
  bool_decide (0 <= Point.x p < Point.x size /\ 0 <= Point.y p < Point.y size).

Definition map_run {V} (size : Point) (f : Point -> V) (op : matrix_op V) : Point -> V :=
  fun q => if inside size q then
    match op with OpSet p v => if decide (p = q) then v else f q | OpFill v => v end else f q.

(** [Matrix] implements a total map with a default. After any sequence of
    [set] and [fill] on a matrix of a size that is not negative, [get] at every
    point, inside or outside, is what the map holds; a write outside changes
    nothing. Every access to [m_data] is in bounds: the index of a contained
    point lies below the length of the vector, and when the size fits an [int]
    product it never overflows one. *)
Theorem matrix_refines {V} (size : Point) (init : V) (ops : list (matrix_op V)) :
  0 <= Point.x size -> 0 <= Point.y size -> Point.x size * Point.y size < 2 ^ 31 ->
  exists m0, Matrix.make size init = Ok m0 /\
    let m := foldl matrix_run m0 ops in
    Matrix.size m = size /\
    (forall p, Matrix.get m p = foldl (map_run size) (fun _ => init) ops p) /\
    forall p, Matrix.contains m p = true ->
      (Z.to_nat (Matrix.index m p) < length (Matrix.m_data m))%nat /\ in_i32 (Matrix.index m p).
Proof.
  intros Hx Hy Hmax. destruct (Matrix.make_defined size init Hx Hy) as [m0 Hm0]. exists m0. split; [done|].
  destruct (Matrix.make_ok _ _ _ Hm0) as (Hs0 & _). pose proof (Matrix.make_wf _ _ _ Hx Hy Hm0) as Hwf0.
  assert (Hgen : let m := foldl matrix_run m0 ops in
    Matrix.wf m /\ Matrix.m_size m = size /\
    forall p, Matrix.get m p = foldl (map_run size) (fun _ => init) ops p).
  { assert (H0 : forall p, Matrix.get m0 p = (fun _ => init) p) by (intros p; by apply (Matrix.get_make size)).
    revert Hwf0 Hs0 H0. clear Hm0. generalize (fun _ : Point => init) as f. revert m0.
    induction ops as [|op ops IH]; intros m f Hwf Hs Hf; cbn [foldl]; [done|].
    assert (Hin : forall q, Matrix.contains m q = inside size q).
    { intros q. unfold inside. apply eq_true_iff_eq. rewrite bool_decide_eq_true, Matrix.contains_spec.
      by rewrite Hs. }
    apply IH.
    - destruct op; [by apply Matrix.set_wf|by apply Matrix.fill_wf].
    - destruct op; cbn [matrix_run]; [by rewrite Matrix.set_size|done].
    - intros q. destruct op as [p v|v]; cbn [matrix_run]; unfold map_run.
      + rewrite Matrix.get_set by done. rewrite Hf, Hin. case_decide as Hpq.
        * subst q. rewrite bool_decide_true by done. done.
        * rewrite bool_decide_false by done. cbn [andb]. by destruct (inside size q).
      + rewrite Matrix.get_fill by done. rewrite Hin. destruct (inside size q) eqn:E; [done|].
        rewrite <- Hf. symmetry. apply Matrix.get_outside. by rewrite Hin. }
  destruct Hgen as (Hwf & Hs & Hget). split; [done|]. split; [done|].
  intros p Hp. split; [by apply Matrix.index_bounds|].
  pose proof (Matrix.index_range _ p Hp) as Hr. rewrite Hs in Hr. unfold in_i32. lia.
Qed.

Theorem matrix_refines_witness : exists m0, Matrix.make (Point.mk 2 2) 7 = Ok m0 /\
  Matrix.get (Matrix.set (Matrix.fill m0 1) (Point.mk 1 0) 5) (Point.mk 1 0) = 5.
Proof.
  destruct (matrix_refines (Point.mk 2 2) 7 [OpFill 1; OpSet (Point.mk 1 0) 5]) as (m0 & Hm & _ & Hget & _);
    [vm_compute; congruence|vm_compute; congruence|reflexivity|].
  exists m0. split; [exact Hm|]. exact (Hget (Point.mk 1 0)).
Defined.
