(* ===== verification/Los.v ===== *)
(** * Los: the line of sight (src/geo.cpp)

    [LOS] is the loop of the source; [LOS_spec] shows that it produces the
    points [los_point a b 0], ..., [los_point a b n] of a closed form, where
    [n] is the larger of the two coordinate differences, and the properties
    of the line are read off the closed form. *)

From S2P Require Import Prelude.
From S2P Require Import Geo.

Definition sign_of (a b : Z) : Z := if b <? a then -1 else 1.

(** One iteration of the loop over the x axis ([x_diff >= y_diff]). The
    state is [current], [test] and [result]. *)
Definition los_step_x (x_diff y_diff x_sign y_sign : Z)
    (s : Point * Z * list Point) (i : Z) : Point * Z * list Point :=
  let '(current, test, result) := s in
  let current := Point.mk (Point.x current + x_sign) (Point.y current) in
  let test := test - y_diff in
  let '(current, test) :=
    if test <? 0
    then (Point.mk (Point.x current) (Point.y current + y_sign), test + x_diff)
    else (current, test) in
  (current, test, result ++ [current]).

(** One iteration of the loop over the y axis. *)
Definition los_step_y (x_diff y_diff x_sign y_sign : Z)
    (s : Point * Z * list Point) (i : Z) : Point * Z * list Point :=
  let '(current, test, result) := s in
  let current := Point.mk (Point.x current) (Point.y current + y_sign) in
  let test := test - x_diff in
  let '(current, test) :=
    if test <? 0
    then (Point.mk (Point.x current + x_sign) (Point.y current), test + y_diff)
    else (current, test) in
  (current, test, result ++ [current]).

Definition LOS (a b : Point) : result (list Point) :=
  let x_diff := Z.abs (Point.x a - Point.x b) in
  let y_diff := Z.abs (Point.y a - Point.y b) in
  let x_sign := sign_of (Point.x a) (Point.x b) in
  let y_sign := sign_of (Point.y a) (Point.y b) in
  let size := Z.max x_diff y_diff + 1 in
  let test := 0 in
  let '(_, _, res) :=
    if y_diff <=? x_diff
    then for_range 0 x_diff (los_step_x x_diff y_diff x_sign y_sign)
           (a, Z.quot (x_diff + test) 2, [a])
    else for_range 0 y_diff (los_step_y x_diff y_diff x_sign y_sign)
           (a, Z.quot (y_diff + test) 2, [a]) in
  cpp_assert (Z.of_nat (length res) =? size) (Ok res).

(** ** The closed form *)

(** How often the minor coordinate has moved after [i] steps along the major
    axis: [i * dm / dM] rounded to the nearest integer, halves down. *)
Definition minor_steps (dM dm i : Z) : Z := (i * dm + (dM - 1) / 2) / dM.

Definition los_len (a b : Point) : Z := Point.lenWalking (Point.sub a b).

Definition los_point (a b : Point) (i : Z) : Point :=
  let dx := Z.abs (Point.x a - Point.x b) in
  let dy := Z.abs (Point.y a - Point.y b) in
  let sx := sign_of (Point.x a) (Point.x b) in
  let sy := sign_of (Point.y a) (Point.y b) in
  if dy <=? dx
  then Point.mk (Point.x a + sx * i) (Point.y a + sy * minor_steps dx dy i)
  else Point.mk (Point.x a + sx * minor_steps dy dx i) (Point.y a + sy * i).

Definition los_points (a b : Point) : list Point :=
  los_point a b <$> seqZ 0 (los_len a b + 1).

Section minor_steps.
Context (dM dm : Z) (Hdm : 0 <= dm <= dM).

Lemma minor_steps_0 : minor_steps dM dm 0 = 0.
Proof using Hdm.
  unfold minor_steps. destruct (decide (dM = 0)) as [->|]; [by rewrite Z.div_0_r|].
  apply Z.div_small. split; [apply Z.div_pos; lia|].
  pose proof (Z.mul_div_le (dM - 1) 2). lia.
Qed.

Lemma minor_steps_end : minor_steps dM dm dM = dm.
Proof using Hdm.
  unfold minor_steps. destruct (decide (dM = 0)) as [->|]; [rewrite Z.div_0_r; lia|].
  rewrite (Z.mul_comm dM), Z.div_add_l by lia.
  pose proof minor_steps_0 as H0. unfold minor_steps in H0.
  rewrite Z.mul_0_l, Z.add_0_l in H0. lia.
Qed.

Context (Hpos : 0 < dM).

(** The error term of the loop: [test] is the distance to the next step
    of the minor coordinate. *)
Definition minor_test (i : Z) : Z := dM / 2 - i * dm + minor_steps dM dm i * dM.

Lemma half_split : dM / 2 + (dM - 1) / 2 = dM - 1.
Proof using Hpos.
  Z.to_euclidean_division_equations. lia.
Qed.

Lemma minor_test_range i : 0 <= minor_test i < dM.
Proof using Hpos.
  unfold minor_test, minor_steps. pose proof half_split.
  pose proof (Z.div_mod (i * dm + (dM - 1) / 2) dM).
  pose proof (Z.mod_pos_bound (i * dm + (dM - 1) / 2) dM). lia.
Qed.

(** One iteration of the error term. *)
Lemma minor_steps_S i :
  minor_steps dM dm (i + 1) =
    minor_steps dM dm i + (if minor_test i - dm <? 0 then 1 else 0).
Proof using Hdm Hpos.
  pose proof (minor_test_range i). pose proof (minor_test_range (i + 1)).
  unfold minor_test in *. case_match eqn:E; bools; nia.
Qed.

Lemma minor_test_S i :
  minor_test (i + 1) =
    minor_test i - dm + (if minor_test i - dm <? 0 then dM else 0).
Proof using Hdm Hpos.
  unfold minor_test at 1. rewrite minor_steps_S.
  destruct (_ <? 0); unfold minor_test; lia.
Qed.

Lemma minor_steps_nearest i :
  Z.abs (2 * (minor_steps dM dm i * dM - i * dm)) <= dM.
Proof using Hpos.
  pose proof (minor_test_range i). unfold minor_test in *.
  pose proof (Z.div_mod dM 2). pose proof (Z.mod_pos_bound dM 2). lia.
Qed.

Lemma minor_steps_range i : 0 <= i <= dM -> 0 <= minor_steps dM dm i <= dm.
Proof using Hdm Hpos.
  intros Hi. split.
  - apply Z.div_pos; [|lia]. pose proof (Z.div_pos (dM - 1) 2). nia.
  - rewrite <- minor_steps_end at 2. apply Z.div_le_mono; nia.
Qed.

Lemma minor_steps_le i : 0 <= i -> 0 <= minor_steps dM dm i <= i.
Proof using Hdm Hpos.
  intros Hi. unfold minor_steps.
  assert (0 <= (dM - 1) / 2 < dM) by (Z.to_euclidean_division_equations; lia).
  split; [apply Z.div_pos; nia|]. apply Z.lt_succ_r, Z.div_lt_upper_bound; nia.
Qed.

(** Walking back counts the same steps when no half has to be rounded. *)
Lemma minor_steps_reverse i :
  dM mod 2 = 1 -> dm - minor_steps dM dm (dM - i) = minor_steps dM dm i.
Proof using Hdm Hpos.
  intros Hodd. pose proof (Z.div_mod dM 2).
  unfold minor_steps. assert (Hh : (dM - 1) / 2 = dM / 2).
  { pose proof half_split. lia. }
  rewrite Hh. set (h := dM / 2) in *.
  pose proof (Z.div_mod (i * dm + h) dM). pose proof (Z.mod_pos_bound (i * dm + h) dM).
  assert (((dM - i) * dm + h) / dM = dm - (i * dm + h) / dM); [|lia].
  symmetry. apply (Z.div_unique _ _ _ (2 * h - (i * dm + h) mod dM)); nia.
Qed.
End minor_steps.

Lemma quot_half d : 0 <= d -> Z.quot (d + 0) 2 = d / 2.
Proof. intros. rewrite Z.add_0_r. apply Z.quot_div_nonneg; lia. Qed.

Lemma seqZ_snoc lo n : 0 <= n -> seqZ lo (n + 1) = seqZ lo n ++ [lo + n].
Proof.
  intros. rewrite seqZ_app by lia. by rewrite (seqZ_cons (lo + n) 1), (seqZ_nil (Z.succ _)) by lia.
Qed.

Section loop.
Context (a b : Point).
Let dx := Z.abs (Point.x a - Point.x b).
Let dy := Z.abs (Point.y a - Point.y b).
Let sx := sign_of (Point.x a) (Point.x b).
Let sy := sign_of (Point.y a) (Point.y b).

Lemma los_len_max : los_len a b = Z.max dx dy.
Proof. done. Qed.

Lemma los_point_0 : los_point a b 0 = a.
Proof.
  unfold los_point. case_match; bools; rewrite minor_steps_0 by lia; apply Point.eq_iff; simpl; lia.
Qed.

Lemma los_points_0 : los_len a b = 0 -> los_points a b = [a].
Proof.
  intros H. unfold los_points. rewrite H. rewrite (seqZ_cons 0 (0 + 1)), seqZ_nil by lia.
  simpl. by rewrite los_point_0.
Qed.

(** The loop invariant, the same for the two branches up to [body]: after
    [i] iterations the state is the [i]-th point, its error term and the
    first [i + 1] points. *)
Lemma los_loop dM dm body :
  0 <= dm <= dM -> los_len a b = dM ->
  (forall i, 0 <= i < dM -> 0 < dM ->
     body (los_point a b i, minor_test dM dm i, los_point a b <$> seqZ 0 (i + 1)) i =
       (los_point a b (i + 1), minor_test dM dm (i + 1),
        (los_point a b <$> seqZ 0 (i + 1)) ++ [los_point a b (i + 1)])) ->
  (for_range 0 dM body (a, Z.quot (dM + 0) 2, [a])).2 = los_points a b.
Proof.
  intros Hd Hlen Hbody. destruct (decide (dM = 0)) as [->|Hne].
  { rewrite for_range_nil by lia. by rewrite los_points_0. }
  assert (Hinv : for_range 0 dM body (a, Z.quot (dM + 0) 2, [a]) =
    (los_point a b dM, minor_test dM dm dM, los_point a b <$> seqZ 0 (dM + 1))).
  { apply (for_range_ind (fun i s => s = (los_point a b i, minor_test dM dm i,
      los_point a b <$> seqZ 0 (i + 1)))); [lia| |].
    - rewrite quot_half by lia. unfold minor_test. rewrite minor_steps_0 by lia.
      rewrite (seqZ_cons 0 (0 + 1)), seqZ_nil by lia. simpl. rewrite los_point_0.
      by rewrite !Z.sub_0_r, Z.add_0_r.
    - intros i s Hi ->. rewrite Hbody by lia. f_equal.
      rewrite (seqZ_snoc 0 (i + 1)) by lia. by rewrite fmap_app. }
  rewrite Hinv. unfold los_points. by rewrite Hlen.
Qed.

Lemma los_points_length : Z.of_nat (length (los_points a b)) = los_len a b + 1.
Proof.
  unfold los_points. rewrite length_fmap, length_seqZ, los_len_max. lia.
Qed.

Lemma los_body_x i : dy <= dx -> 0 <= i < dx ->
  los_step_x dx dy sx sy
    (los_point a b i, minor_test dx dy i, los_point a b <$> seqZ 0 (i + 1)) i =
  (los_point a b (i + 1), minor_test dx dy (i + 1),
   (los_point a b <$> seqZ 0 (i + 1)) ++ [los_point a b (i + 1)]).
Proof.
  intros Hd Hi. unfold los_step_x. rewrite (minor_test_S dx dy) by lia.
  assert (los_point a b (i + 1) = Point.mk (Point.x (los_point a b i) + sx)
    (if minor_test dx dy i - dy <? 0 then Point.y (los_point a b i) + sy
     else Point.y (los_point a b i))) as ->.
  { unfold los_point. fold dx dy sx sy. rewrite (proj2 (Z.leb_le dy dx)) by lia.
    rewrite minor_steps_S by lia. apply Point.eq_iff; simpl. case_match; simpl; lia. }
  destruct (_ <? 0); simpl; by rewrite ?Z.add_0_r.
Qed.

Lemma los_body_y i : dx < dy -> 0 <= i < dy ->
  los_step_y dx dy sx sy
    (los_point a b i, minor_test dy dx i, los_point a b <$> seqZ 0 (i + 1)) i =
  (los_point a b (i + 1), minor_test dy dx (i + 1),
   (los_point a b <$> seqZ 0 (i + 1)) ++ [los_point a b (i + 1)]).
Proof.
  intros Hd Hi. unfold los_step_y. rewrite (minor_test_S dy dx) by lia.
  assert (los_point a b (i + 1) = Point.mk
    (if minor_test dy dx i - dx <? 0 then Point.x (los_point a b i) + sx
     else Point.x (los_point a b i)) (Point.y (los_point a b i) + sy)) as ->.
  { unfold los_point. fold dx dy sx sy. rewrite (proj2 (Z.leb_gt dy dx)) by lia.
    rewrite minor_steps_S by lia. apply Point.eq_iff; simpl. case_match; simpl; lia. }
  destruct (_ <? 0); simpl; by rewrite ?Z.add_0_r.
Qed.

Lemma LOS_spec : LOS a b = Ok (los_points a b).
Proof.
  pose proof los_points_length as Hlen. rewrite los_len_max in Hlen.
  unfold LOS. fold dx dy sx sy. destruct (dy <=? dx) eqn:E; bools.
  - pose proof (los_loop dx dy (los_step_x dx dy sx sy)) as Hr.
    destruct (for_range 0 dx _ _) as [[c t] res]. simpl in Hr. rewrite Hr.
    + unfold cpp_assert. by rewrite Hlen, Z.eqb_refl.
    + lia.
    + rewrite los_len_max; lia.
    + intros. by apply los_body_x.
  - pose proof (los_loop dy dx (los_step_y dx dy sx sy)) as Hr.
    destruct (for_range 0 dy _ _) as [[c t] res]. simpl in Hr. rewrite Hr.
    + unfold cpp_assert. by rewrite Hlen, Z.eqb_refl.
    + lia.
    + rewrite los_len_max; lia.
    + intros. by apply los_body_y.
Qed.

Lemma los_point_end : los_point a b (los_len a b) = b.
Proof.
  rewrite los_len_max. unfold los_point. fold dx dy sx sy.
  destruct (dy <=? dx) eqn:E; bools.
  - rewrite Z.max_l by lia. rewrite minor_steps_end by lia.
    apply Point.eq_iff; simpl. unfold sx, sy, dx, dy, sign_of. repeat case_match; bools; lia.
  - rewrite Z.max_r by lia. rewrite minor_steps_end by lia.
    apply Point.eq_iff; simpl. unfold sx, sy, dx, dy, sign_of. repeat case_match; bools; lia.
Qed.

Lemma los_points_lookup (i : nat) p :
  los_points a b !! i = Some p <-> p = los_point a b (Z.of_nat i) /\ Z.of_nat i <= los_len a b.
Proof.
  unfold los_points. rewrite list_lookup_fmap, fmap_Some. setoid_rewrite lookup_seqZ.
  rewrite Z.add_0_l. split; [intros (? & [-> ?] & ->); split; [done|lia]|].
  intros [-> ?]. eexists. split; [split; [done|lia]|done].
Qed.

(** The point moves one step along the major axis and at most one along the
    other. *)
Lemma los_point_S i : 0 <= i < los_len a b ->
  Point.lenWalking (Point.sub (los_point a b (i + 1)) (los_point a b i)) = 1.
Proof.
  rewrite los_len_max. intros Hi. unfold los_point, Point.lenWalking. fold dx dy sx sy.
  assert (sx = 1 \/ sx = -1) by (unfold sx, sign_of; case_match; lia).
  assert (sy = 1 \/ sy = -1) by (unfold sy, sign_of; case_match; lia).
  destruct (dy <=? dx) eqn:E; bools; rewrite minor_steps_S by lia; simpl; case_match; lia.
Qed.

(** After [i] steps the line is at walking distance [i] from its start. *)
Lemma los_point_dist i : 0 <= i <= los_len a b ->
  Point.lenWalking (Point.sub (los_point a b i) a) = i.
Proof.
  intros Hi. destruct (decide (los_len a b = 0)) as [H0|H0].
  { replace i with 0 by lia. rewrite los_point_0. unfold Point.lenWalking. simpl. lia. }
  rewrite los_len_max in *. unfold los_point, Point.lenWalking. fold dx dy sx sy.
  assert (sx = 1 \/ sx = -1) by (unfold sx, sign_of; case_match; lia).
  assert (sy = 1 \/ sy = -1) by (unfold sy, sign_of; case_match; lia).
  destruct (dy <=? dx) eqn:E; bools; simpl.
  - pose proof (minor_steps_le dx dy ltac:(lia) ltac:(lia) i ltac:(lia)). lia.
  - pose proof (minor_steps_le dy dx ltac:(lia) ltac:(lia) i ltac:(lia)). lia.
Qed.

(** The line stays in the box that its ends span. *)
Lemma los_point_box i : 0 <= i <= los_len a b ->
  Z.min (Point.x a) (Point.x b) <= Point.x (los_point a b i) <= Z.max (Point.x a) (Point.x b) /\
  Z.min (Point.y a) (Point.y b) <= Point.y (los_point a b i) <= Z.max (Point.y a) (Point.y b).
Proof.
  intros Hi. destruct (decide (los_len a b = 0)) as [H0|H0].
  { replace i with 0 by lia. rewrite los_point_0. lia. }
  rewrite los_len_max in *. unfold los_point. fold dx dy sx sy.
  destruct (dy <=? dx) eqn:E; bools; simpl.
  - pose proof (minor_steps_range dx dy ltac:(lia) ltac:(lia) i ltac:(lia)).
    unfold sx, sy, sign_of. repeat case_match; bools; lia.
  - pose proof (minor_steps_range dy dx ltac:(lia) ltac:(lia) i ltac:(lia)).
    unfold sx, sy, sign_of. repeat case_match; bools; lia.
Qed.
End loop.

(** ** Symmetries *)

(** The isometries of the grid: translations, mirrors, the transposition and
    their compositions. *)
Inductive isometry : (Point -> Point) -> Prop :=
| iso_translate v : isometry (fun p => Point.add p v)
| iso_mirror_x : isometry (fun p => Point.mk (- Point.x p) (Point.y p))
| iso_mirror_y : isometry (fun p => Point.mk (Point.x p) (- Point.y p))
| iso_swap : isometry (fun p => Point.mk (Point.y p) (Point.x p))
| iso_compose f g : isometry f -> isometry g -> isometry (fun p => f (g p)).

Definition commutes (f : Point -> Point) : Prop :=
  forall a b, los_points (f a) (f b) = f <$> los_points a b.

(** It is enough to compare the closed forms point by point. *)
Lemma commutes_intro f :
  (forall a b, los_len (f a) (f b) = los_len a b) ->
  (forall a b i, 0 <= i <= los_len a b -> los_point (f a) (f b) i = f (los_point a b i)) ->
  commutes f.
Proof.
  intros Hlen Hpt a b. unfold los_points. rewrite Hlen, <- list_fmap_compose.
  apply list_fmap_ext. intros j i (-> & Hi)%lookup_seqZ. simpl. apply Hpt. lia.
Qed.

Lemma minor_steps_same d i : 0 <= i <= d -> minor_steps d d i = i.
Proof.
  intros Hi. unfold minor_steps. destruct (decide (d = 0)) as [->|].
  { rewrite Z.div_0_r. lia. }
  symmetry. apply (Z.div_unique _ _ _ ((d - 1) / 2)); [|lia].
  left. Z.to_euclidean_division_equations. lia.
Qed.

Lemma minor_steps_zero d i : 0 <= d -> minor_steps d 0 i = 0.
Proof.
  intros Hd. unfold minor_steps. destruct (decide (d = 0)) as [->|]; [by rewrite Z.div_0_r|].
  rewrite Z.mul_0_r, Z.add_0_l. apply Z.div_small. Z.to_euclidean_division_equations. lia.
Qed.

Lemma commutes_translate v : commutes (fun p => Point.add p v).
Proof.
  apply commutes_intro.
  - intros. unfold los_len, Point.lenWalking. simpl. lia.
  - intros a b i Hi. unfold los_point, sign_of. simpl.
    replace (Point.x a + Point.x v - (Point.x b + Point.x v)) with (Point.x a - Point.x b) by lia.
    replace (Point.y a + Point.y v - (Point.y b + Point.y v)) with (Point.y a - Point.y b) by lia.
    destruct (_ <=? _), (Point.x b <? Point.x a) eqn:E1, (Point.y b <? Point.y a) eqn:E2; bools;
      repeat case_match; bools; try lia; apply Point.eq_iff; simpl; lia.
Qed.

Lemma commutes_mirror_x : commutes (fun p => Point.mk (- Point.x p) (Point.y p)).
Proof.
  apply commutes_intro.
  - intros. unfold los_len, Point.lenWalking. simpl. lia.
  - intros a b i Hi. rewrite los_len_max in Hi. unfold los_point. simpl.
    replace (Z.abs (- Point.x a - - Point.x b)) with (Z.abs (Point.x a - Point.x b)) by lia.
    destruct (decide (Point.x a = Point.x b)) as [Heq|Hne].
    + rewrite Heq in *. replace (Z.abs (Point.x b - Point.x b)) with 0 in * by lia.
      rewrite minor_steps_zero, !Z.mul_0_r by lia. case_match; bools; [|apply Point.eq_iff; simpl; lia].
      replace i with 0 by lia. apply Point.eq_iff; simpl; lia.
    + unfold sign_of. repeat case_match; bools; try lia; apply Point.eq_iff; simpl; lia.
Qed.

Lemma commutes_swap : commutes (fun p => Point.mk (Point.y p) (Point.x p)).
Proof.
  apply commutes_intro.
  - intros. unfold los_len, Point.lenWalking. simpl. lia.
  - intros a b i Hi. rewrite los_len_max in Hi. unfold los_point. simpl.
    destruct (decide (Z.abs (Point.x a - Point.x b) = Z.abs (Point.y a - Point.y b))) as [Heq|Hne].
    + rewrite Heq, Z.leb_refl in *. rewrite minor_steps_same by lia. done.
    + repeat case_match; bools; try lia; done.
Qed.

Lemma commutes_ext f g : (forall p, f p = g p) -> commutes f -> commutes g.
Proof.
  intros Hext Hf a b. rewrite <- !Hext, Hf. by apply list_fmap_ext.
Qed.

Lemma commutes_compose f g : commutes f -> commutes g -> commutes (fun p => f (g p)).
Proof. intros Hf Hg a b. by rewrite Hf, Hg, <- list_fmap_compose. Qed.

Lemma isometry_commutes f : isometry f -> commutes f.
Proof.
  induction 1.
  - apply commutes_translate.
  - apply commutes_mirror_x.
  - (* the other mirror is the first one, transposed *)
    apply (commutes_ext (fun p => Point.mk (Point.y (Point.mk (- Point.y p) (Point.x p)))
      (Point.x (Point.mk (- Point.y p) (Point.x p))))); [done|].
    apply (commutes_compose (fun p => Point.mk (Point.y p) (Point.x p))
      (fun p => Point.mk (- Point.y p) (Point.x p))); [apply commutes_swap|].
    apply (commutes_compose (fun p => Point.mk (- Point.x p) (Point.y p))
      (fun p => Point.mk (Point.y p) (Point.x p))); [apply commutes_mirror_x|apply commutes_swap].
  - apply commutes_swap.
  - by apply commutes_compose.
Qed.

(** Walking the line backwards, for an odd distance. *)
Lemma los_len_sym a b : los_len b a = los_len a b.
Proof. unfold los_len, Point.lenWalking. simpl. lia. Qed.

Lemma sign_of_dist a b : sign_of a b * Z.abs (a - b) = b - a.
Proof. unfold sign_of. case_match; bools; lia. Qed.

Lemma sign_of_opp a b z : (a = b -> z = 0) -> sign_of b a * z = - (sign_of a b * z).
Proof.
  intros Hz. destruct (decide (a = b)) as [Heq|]; [rewrite Hz by done; lia|].
  unfold sign_of. repeat case_match; bools; lia.
Qed.

Lemma los_point_reverse a b i :
  los_len a b mod 2 = 1 -> 0 <= i <= los_len a b ->
  los_point b a i = los_point a b (los_len a b - i).
Proof.
  rewrite los_len_max. intros Hodd Hi. unfold los_point.
  replace (Z.abs (Point.x b - Point.x a)) with (Z.abs (Point.x a - Point.x b)) by lia.
  replace (Z.abs (Point.y b - Point.y a)) with (Z.abs (Point.y a - Point.y b)) by lia.
  pose proof (sign_of_dist (Point.x a) (Point.x b)).
  pose proof (sign_of_dist (Point.y a) (Point.y b)).
  set (dx := Z.abs (Point.x a - Point.x b)) in *.
  set (dy := Z.abs (Point.y a - Point.y b)) in *.
  destruct (dy <=? dx) eqn:E; bools; apply Point.eq_iff; simpl.
  - rewrite Z.max_l in * by lia.
    assert (0 < dx) by (destruct (decide (dx = 0)) as [Hz|]; [by rewrite Hz in Hodd|lia]).
    pose proof (minor_steps_reverse dx dy ltac:(lia) ltac:(lia) i Hodd).
    rewrite (sign_of_opp (Point.x a)), (sign_of_opp (Point.y a)); [split; nia| |lia].
    intros. assert (Hz : dy = 0) by lia. rewrite Hz. apply minor_steps_zero. lia.
  - rewrite Z.max_r in * by lia. assert (0 < dy) by lia.
    pose proof (minor_steps_reverse dy dx ltac:(lia) ltac:(lia) i Hodd).
    rewrite (sign_of_opp (Point.x a)), (sign_of_opp (Point.y a)); [split; nia|lia|].
    intros. assert (Hz : dx = 0) by lia. rewrite Hz. apply minor_steps_zero. lia.
Qed.

Lemma los_points_reverse a b :
  los_len a b mod 2 = 1 -> los_points b a = reverse (los_points a b).
Proof.
  intros Hodd. pose proof (los_points_length a b). pose proof (los_points_length b a).
  pose proof (los_len_sym a b).
  eapply list_eq_same_length; [done|rewrite length_reverse; lia|]. intros i p q Hi Hp Hq.
  apply los_points_lookup in Hp as [-> Hib].
  apply reverse_lookup_Some in Hq as [[-> _]%los_points_lookup Hlt].
  rewrite los_point_reverse by lia. f_equal. lia.
Qed.

(** ** Properties *)

(** [LOS] never fails its assertion: it returns one point more than the
    walking distance of its arguments, the first is [a] and the last is [b]. *)
Theorem LOS_endpoints a b :
  exists l, LOS a b = Ok l /\
    Z.of_nat (length l) = Point.lenWalking (Point.sub a b) + 1 /\
    head l = Some a /\ last l = Some b.
Proof.
  exists (los_points a b). pose proof (los_points_length a b) as Hlen.
  assert (0 <= los_len a b) by (rewrite los_len_max; lia).
  split; [apply LOS_spec|]. split; [done|]. split.
  - rewrite head_lookup. apply los_points_lookup. by rewrite los_point_0.
  - rewrite last_lookup. apply los_points_lookup.
    replace (Z.of_nat (Init.Nat.pred (length (los_points a b)))) with (los_len a b) by lia.
    by rewrite los_point_end.
Qed.

(** the line is a walk of king's moves inside the box its ends span:
    each point differs from the one before it by exactly one in the larger
    coordinate, so no point repeats its neighbour. *)
Theorem LOS_walk a b l i p :
  LOS a b = Ok l -> l !! i = Some p ->
  (Z.min (Point.x a) (Point.x b) <= Point.x p <= Z.max (Point.x a) (Point.x b)) /\
  (Z.min (Point.y a) (Point.y b) <= Point.y p <= Z.max (Point.y a) (Point.y b)) /\
  forall q, l !! S i = Some q -> Point.lenWalking (Point.sub q p) = 1.
Proof.
  rewrite LOS_spec. intros [= <-] [-> Hi]%los_points_lookup.
  pose proof (los_point_box a b (Z.of_nat i) ltac:(lia)).
  split; [tauto|]. split; [tauto|]. intros q [-> Hq]%los_points_lookup.
  rewrite Nat2Z.inj_succ in *. apply los_point_S. lia.
Qed.

Theorem LOS_walk_witness :
  Point.lenWalking (Point.sub (Point.mk 2 1) (Point.mk 1 0)) = 1.
Proof.
  apply (LOS_walk (Point.mk 0 0) (Point.mk 3 1)
    [Point.mk 0 0; Point.mk 1 0; Point.mk 2 1; Point.mk 3 1] 1); reflexivity.
Defined.

(** every point of the line is a lattice point nearest to the ideal
    segment: along the minor axis its distance from the segment is at most
    half a cell (twice the cross product is at most the walking distance). *)
Theorem LOS_nearest a b l i p :
  LOS a b = Ok l -> l !! i = Some p ->
  Z.abs (2 * ((Point.x p - Point.x a) * (Point.y b - Point.y a) -
              (Point.y p - Point.y a) * (Point.x b - Point.x a)))
    <= Point.lenWalking (Point.sub b a).
Proof.
  rewrite LOS_spec. intros [= <-] [-> Hi]%los_points_lookup.
  change (Point.lenWalking (Point.sub b a)) with (los_len b a).
  rewrite (los_len_sym a b), los_len_max in *. unfold los_point.
  rewrite <- (sign_of_dist (Point.x a) (Point.x b)), <- (sign_of_dist (Point.y a) (Point.y b)).
  set (dx := Z.abs (Point.x a - Point.x b)) in *.
  set (dy := Z.abs (Point.y a - Point.y b)) in *.
  set (sx := sign_of (Point.x a) (Point.x b)).
  set (sy := sign_of (Point.y a) (Point.y b)).
  assert (Hs : forall z, Z.abs (2 * (sx * sy * z)) = Z.abs (2 * z)).
  { intros. unfold sx, sy, sign_of. repeat case_match; lia. }
  destruct (decide (Z.max dx dy = 0)) as [Hz|Hz].
  { replace dx with 0 by lia. replace dy with 0 by lia. rewrite !Z.mul_0_r. simpl. lia. }
  destruct (dy <=? dx) eqn:E; bools; simpl.
  - pose proof (minor_steps_nearest dx dy ltac:(lia) (Z.of_nat i)).
    etrans; [|etrans; [exact H|lia]]. apply Z.eq_le_incl.
    rewrite <- (Hs (minor_steps _ _ _ * _ - _)), <- Z.abs_opp. f_equal. ring.
  - pose proof (minor_steps_nearest dy dx ltac:(lia) (Z.of_nat i)).
    etrans; [|etrans; [exact H|lia]]. apply Z.eq_le_incl.
    rewrite <- (Hs (minor_steps _ _ _ * _ - _)). f_equal. ring.
Qed.

Theorem LOS_nearest_witness :
  Z.abs (2 * ((2 - 0) * (1 - 0) - (1 - 0) * (3 - 0))) <= 3.
Proof.
  apply (LOS_nearest (Point.mk 0 0) (Point.mk 3 1)
    [Point.mk 0 0; Point.mk 1 0; Point.mk 2 1; Point.mk 3 1] 2 (Point.mk 2 1)); reflexivity.
Defined.

(** the line commutes with the symmetries of the grid: translating,
    mirroring or transposing the ends gives the image of the line, so the
    eight octants are treated alike. *)
Theorem LOS_isometry f a b l :
  isometry f -> LOS a b = Ok l -> LOS (f a) (f b) = Ok (f <$> l).
Proof.
  rewrite !LOS_spec. intros Hf [= <-]. by rewrite (isometry_commutes f Hf).
Qed.

Theorem LOS_isometry_witness :
  LOS (Point.mk 0 0) (Point.mk (-1) 3) =
    Ok [Point.mk 0 0; Point.mk 0 1; Point.mk (-1) 2; Point.mk (-1) 3].
Proof.
  apply (LOS_isometry (fun p => Point.mk (- Point.x (Point.mk (Point.y p) (Point.x p)))
      (Point.y (Point.mk (Point.y p) (Point.x p))))
    (Point.mk 0 0) (Point.mk 3 1) [Point.mk 0 0; Point.mk 1 0; Point.mk 2 1; Point.mk 3 1]).
  - apply (iso_compose (fun p => Point.mk (- Point.x p) (Point.y p))
      (fun p => Point.mk (Point.y p) (Point.x p))); constructor.
  - reflexivity.
Defined.

(** when the distance is odd the line from [b] to [a] is the line from
    [a] to [b] reversed; for an even distance it need not be, for the halves
    are rounded towards the start. *)
Theorem LOS_reverse :
  (forall a b l, LOS a b = Ok l -> Point.lenWalking (Point.sub a b) mod 2 = 1 ->
     LOS b a = Ok (reverse l)) /\
  (exists a b l, LOS a b = Ok l /\ LOS b a <> Ok (reverse l)).
Proof.
  split.
  - intros a b l. rewrite !LOS_spec. intros [= <-] Hodd. by rewrite los_points_reverse.
  - exists (Point.mk 0 0), (Point.mk 2 1), [Point.mk 0 0; Point.mk 1 0; Point.mk 2 1].
    split; [reflexivity|]. vm_compute. discriminate.
Qed.
