(* ===== verification/Fov.v ===== *)
(** * Fov: the field-of-vision trie (src/geo.h)

    [FOV] keeps the lines of sight from the origin to the border of a square
    as a trie of points, cut at the circle of the radius; [fieldOfVision]
    walks it breadth first and lets the caller prune it. A node holds its
    [children]; its [parent] pointer is only read for the parent's constant
    [point], so the model keeps that point. *)

From S2P Require Import Prelude.
From S2P Require Import Doubles.
From S2P Require Import Geo.
From S2P Require Import Los.

#[warnings="-register-all"]
Inductive FOVNode := mkNode {
  node_point : Point;
  node_parent : option Point;
  node_children : list FOVNode }.

Module FOV.
Record t := mk { radius : Z; root : FOVNode }.

(** [node.point.lenL2() > radius - 0.5] *)
Definition beyond (radius : Z) (p : Point) : result bool :=
  let* len := Point.lenL2 p in
  Ok (double_ltb (double_sub (double_of_Z radius) double_half) len).

(** [fuel] bounds the recursion by the points of the line that are left. *)
Fixpoint trieUpdate_ (radius : Z) (fuel : nat) (node : FOVNode) (line : list Point) (i : nat)
    : result FOVNode :=
  match fuel with
  | O => Err OutOfFuel
  | S fuel =>
    let* here := deref (line !! i) in
    cpp_assert (Point.eqb here (node_point node)) (
    let* out := beyond radius (node_point node) in
    if out then Ok node else
    if negb (S i <? length line)%nat then Ok node else
    let* next := deref (line !! S i) in
    match list_find (fun x => Point.eqb (node_point x) next = true) (node_children node) with
    | Some (k, child) =>
        cpp_assert (Point.eqb next (node_point child)) (
        let* child := trieUpdate_ radius fuel child line (S i) in
        Ok (mkNode (node_point node) (node_parent node) (<[k := child]> (node_children node))))
    | None =>
        let child := mkNode next (Some (node_point node)) [] in
        cpp_assert (Point.eqb next (node_point child)) (
        let* child := trieUpdate_ radius fuel child line (S i) in
        Ok (mkNode (node_point node) (node_parent node) (node_children node ++ [child])))
    end)
  end.

Definition trieUpdate (radius : Z) (node : FOVNode) (line : list Point) (i : nat)
    : result FOVNode :=
  trieUpdate_ radius (length line - i) node line i.

(** The end point of the line that the constructor draws for [(i, j)]. *)
Definition target (radius i j : Z) : Point :=
  let '(xa, ya) := if Z.testbit j 0 then (radius, i) else (i, radius) in
  let xb := xa * (if Z.testbit j 1 then 1 else -1) in
  let yb := ya * (if Z.testbit j 2 then 1 else -1) in
  Point.mk xb yb.

Definition make (r : Z) : result t :=
  let* root :=
    foldM (fun root i =>
      foldM (fun root j =>
        let* line := LOS Point.origin (target r i j) in
        trieUpdate r root line 0) root (seqZ 0 8))
      (mkNode Point.origin None []) (seqZ 0 (r + 1)) in
  Ok (mk r root).

(** The loop over [cache], with the state that the callback updates. *)
Section fieldOfVision.
Context {S : Type} (blocked : S -> Point -> option Point -> S * bool).

Fixpoint fov_loop (fuel : nat) (cache : list FOVNode) (i : nat) (s : S)
    : result (S * list FOVNode) :=
  match fuel with
  | O => if (i <? length cache)%nat then Err OutOfFuel else Ok (s, cache)
  | Datatypes.S fuel =>
    if (i <? length cache)%nat then
      let* node := deref (cache !! i) in
      let prev := node_parent node in
      let '(s, b) := blocked s (node_point node) prev in
      if b then fov_loop fuel cache (Datatypes.S i) s
      else fov_loop fuel (cache ++ node_children node) (Datatypes.S i) s
    else Ok (s, cache)
  end.
End fieldOfVision.

Fixpoint count (n : FOVNode) : nat :=
  match n with
  | mkNode _ _ cs => Datatypes.S (foldr (fun c acc => count c + acc)%nat O cs)
  end.

(** The trie is finite and each node enters [cache] at most once, so its
    size is fuel enough ([fieldOfVision_total]). *)
Definition fieldOfVision {S} (f : t) (blocked : S -> Point -> option Point -> S * bool) (s : S)
    : result S :=
  let* r := fov_loop blocked (count (root f)) [root f] 0 s in
  Ok (fst r).
End FOV.

(** ** The trie as a set of paths *)

Abbreviation child_at p := (fun x => Point.eqb (node_point x) p = true).

(** The path [ps] of points can be followed down from the node. *)
Fixpoint has_path (n : FOVNode) (ps : list Point) : bool :=
  match ps with
  | [] => true
  | p :: ps =>
      match list_find (child_at p) (node_children n) with
      | Some (_, c) => has_path c ps
      | None => false
      end
  end.

(** The radius lets a line go on behind the points inside of the circle
    [norm2 p = (radius - 1/2)^2], and behind no other; the square is
    [radius * (radius - 1) + 1/4]. *)
Definition within (radius : Z) (p : Point) : Prop := Point.norm2 p <= radius * (radius - 1).

#[export] Instance within_dec radius p : Decision (within radius p).
Proof. unfold within. apply _. Defined.

(** The part of a line that the radius lets in, below a node at [p]. *)
Fixpoint cut_line (radius : Z) (p : Point) (rest : list Point) : list Point :=
  match rest with
  | [] => []
  | q :: rest => if decide (within radius p) then q :: cut_line radius q rest else []
  end.

(** The double comparison draws the circle exactly. At radius 0 even the
    origin is beyond. *)
Lemma beyond_within r p : 0 <= r < 2 ^ 31 -> Point.norm2 p < 2 ^ 31 ->
  FOV.beyond r p = Ok (bool_decide (r = 0 \/ ~ within r p)).
Proof.
  intros Hr Hp. unfold FOV.beyond, Point.lenL2. rewrite Point.lenL2Squared_ok by done. cbn [rbind]. f_equal.
  assert (H0 : 0 <= Point.norm2 p) by (unfold Point.norm2; nia). symmetry. destruct (decide (r = 0)) as [->|Hr0].
  - rewrite bool_decide_true by (by left). destruct (decide (Point.norm2 p = 0)) as [->|Hn]; [done|].
    destruct (double_sqrt_Z (Point.norm2 p)) as (m & e & ? & ? & -> & _); [lia|]. done.
  - rewrite double_sqrt_gt by lia. apply eq_true_iff_eq. rewrite bool_decide_eq_true, Z.ltb_lt. unfold within. lia.
Qed.

Lemma beyond_overflow r p : 2 ^ 31 <= Point.norm2 p -> FOV.beyond r p = Err Undefined.
Proof. intros. unfold FOV.beyond, Point.lenL2. by rewrite Point.lenL2Squared_overflow. Qed.

(** The largest radius of which no point that is looked at overflows. *)
Definition max_radius : Z := 46340.

(** A step from a point within leads to one that does not overflow. *)
Lemma within_step r p q : 0 <= r <= max_radius -> within r p ->
  Point.lenWalking (Point.sub q p) = 1 -> Point.norm2 q < 2 ^ 31.
Proof.
  unfold within, max_radius, Point.norm2, Point.lenWalking, Point.sub. cbn [Point.x Point.y]. intros Hr Hp Hq.
  assert (Hx : Point.x q - 1 <= Point.x p <= Point.x q + 1) by lia. assert (Hy : Point.y q - 1 <= Point.y p <= Point.y q + 1) by lia.
  clear Hq. generalize dependent (Point.x p). generalize dependent (Point.y p). intros py Hy px Hp Hx.
  assert (Hb : px * px + py * py <= 46340 * 46339) by nia.
  assert (Hs : Z.abs px + Z.abs py <= 65534).
  { rewrite <- (Z.abs_square px), <- (Z.abs_square py) in Hb. pose proof (Z.square_nonneg (Z.abs px - Z.abs py)).
    apply Z.nlt_ge. intros Hlt. assert (65535 * 65535 <= (Z.abs px + Z.abs py) * (Z.abs px + Z.abs py)) by (apply Z.square_le_mono_nonneg; lia). lia. }
  assert (Point.x q * Point.x q <= px * px + 2 * Z.abs px + 1) by nia.
  assert (Point.y q * Point.y q <= py * py + 2 * Z.abs py + 1) by nia. lia.
Qed.

(** What the radius lets in of a line: the prefixes all of whose points but
    the last, from [p] on, are within. *)
Lemma cut_line_prefix r p ps rest :
  ps `prefix_of` cut_line r p rest <->
  ps `prefix_of` rest /\ forall k q, (k < length ps)%nat -> (p :: rest) !! k = Some q -> within r q.
Proof.
  revert p ps. induction rest as [|q rest IH]; intros p ps; cbn [cut_line].
  - split; [|by intros [? _]]. intros ->%prefix_nil_inv. split; [done|]. cbn [length]. lia.
  - destruct ps as [|p1 ps]; [split; [intros _; split; [apply prefix_nil|cbn [length]; lia]|intros _; apply prefix_nil]|].
    destruct (decide (within r p)) as [Hw|Hw].
    + split.
      * intros H. pose proof (prefix_cons_inv_1 _ _ _ _ H) as ->. apply prefix_cons_inv_2, IH in H as [H Hin].
        split; [by apply prefix_cons|]. intros [|k] q' Hk Hq'; [by injection Hq' as <-|]. cbn [length] in Hk.
        apply (Hin k); [lia|done].
      * intros [H Hin]. pose proof (prefix_cons_inv_1 _ _ _ _ H) as ->. apply prefix_cons, IH.
        split; [by apply prefix_cons_inv_2 in H|]. intros k q' Hk Hq'. apply (Hin (S k)); [cbn [length]; lia|done].
    + split; [by intros ?%prefix_nil_inv|]. intros [_ Hin]. destruct Hw. apply (Hin O); [cbn [length]; lia|done].
Qed.

(** A node at depth [d]: its point is at distance [d], its children have
    distinct points next to it, know it as their parent and are at depth
    [d + 1]. *)
#[warnings="-register-all"]
Inductive trie_wf (r : Z) (d : Z) (n : FOVNode) : Prop := trie_wf_intro {
  wf_dist : Point.lenWalking (node_point n) = d;
  wf_depth : 0 <= d <= r;
  wf_distinct : NoDup (node_point <$> node_children n);
  wf_child : forall c, c ∈ node_children n ->
    node_parent c = Some (node_point n) /\
    Point.lenWalking (Point.sub (node_point c) (node_point n)) = 1 /\
    trie_wf r (d + 1) c }.

(** A line from the origin of [r] steps. *)
Definition line_wf (r : Z) (line : list Point) : Prop :=
  Z.of_nat (length line) = r + 1 /\
  (forall i p, line !! i = Some p -> Point.lenWalking p = Z.of_nat i) /\
  (forall i p q, line !! i = Some p -> line !! S i = Some q ->
     Point.lenWalking (Point.sub q p) = 1).

Section find.
Implicit Types (cs : list FOVNode).

Lemma find_point cs p k c :
  list_find (child_at p) cs = Some (k, c) -> cs !! k = Some c /\ node_point c = p.
Proof. intros (Hk & Hp & _)%list_find_Some. by apply Point.eqb_eq in Hp. Qed.

Lemma find_insert cs k c c' p q :
  list_find (child_at q) cs = Some (k, c) -> node_point c' = q ->
  list_find (child_at p) (<[k := c']> cs) =
    if decide (p = q) then Some (k, c') else list_find (child_at p) cs.
Proof.
  revert k. induction cs as [|c0 cs IH]; intros k Hf Hc; [done|]. simpl in Hf |- *.
  destruct (decide (Point.eqb (node_point c0) q = true)) as [Hq|Hq].
  - injection Hf as <- <-. apply Point.eqb_eq in Hq. simpl. rewrite Hc, Hq.
    destruct (decide (p = q)) as [->|Hne]; [by rewrite decide_True by by apply Point.eqb_eq|].
    rewrite !decide_False; [done|by rewrite Point.eqb_eq..].
  - destruct (list_find _ cs) as [[k' c1]|] eqn:Hf'; [|done]. injection Hf as <- <-. simpl.
    rewrite (IH k') by done. destruct (decide (p = q)) as [->|Hne]; [|done].
    by rewrite decide_False by done.
Qed.

Lemma find_snoc cs c p q :
  list_find (child_at q) cs = None -> node_point c = q ->
  list_find (child_at p) (cs ++ [c]) =
    if decide (p = q) then Some (length cs, c) else list_find (child_at p) cs.
Proof.
  induction cs as [|c0 cs IH]; intros Hf Hc; simpl in *.
  - rewrite Hc. destruct (decide (p = q)) as [->|Hne];
      [by rewrite decide_True by by apply Point.eqb_eq|].
    rewrite decide_False; [done|by rewrite Point.eqb_eq].
  - destruct (decide (Point.eqb (node_point c0) q = true)) as [Hq|Hq]; [done|].
    destruct (list_find (child_at q) cs) as [[k' c1]|] eqn:Hf'; [done|].
    rewrite IH by done. destruct (decide (p = q)) as [->|Hne]; [|done].
    by rewrite decide_False by done.
Qed.

Lemma find_none cs q :
  list_find (child_at q) cs = None -> q ∉ node_point <$> cs.
Proof.
  intros Hf%list_find_None (c & -> & Hc)%list_elem_of_fmap.
  rewrite Forall_forall in Hf. apply (Hf c Hc). apply Point.eqb_refl.
Qed.
End find.

Section trieUpdate.
Context (r : Z).

(** The new node of a branch is well formed. *)
Lemma leaf_wf d p par :
  Point.lenWalking p = d -> 0 <= d <= r -> trie_wf r d (mkNode p par []).
Proof. intros. constructor; simpl; [done|done|constructor|]. by intros ? ?%elem_of_nil. Qed.

(** Replacing or appending the child of a well-formed node. *)
Lemma node_wf_update d n cs :
  trie_wf r d n -> NoDup (node_point <$> cs) ->
  (forall c, c ∈ cs -> c ∈ node_children n \/
     (node_parent c = Some (node_point n) /\
      Point.lenWalking (Point.sub (node_point c) (node_point n)) = 1 /\ trie_wf r (d + 1) c)) ->
  trie_wf r d (mkNode (node_point n) (node_parent n) cs).
Proof.
  intros [Hd Hr Hnd Hc] Hnd' Hcs. constructor; simpl; [done|done|done|].
  intros c [Hin|?]%Hcs; auto.
Qed.

Lemma prefix_cons_bool (p q : Point) ps rest :
  bool_decide (p :: ps `prefix_of` q :: rest) =
  bool_decide (p = q) && bool_decide (ps `prefix_of` rest).
Proof.
  apply eq_true_iff_eq. rewrite andb_true_iff, !bool_decide_eq_true. split.
  - intros H. split; [by eapply prefix_cons_inv_1|by eapply prefix_cons_inv_2].
  - intros [-> ?]. by apply prefix_cons.
Qed.

Lemma has_path_stop n (ps : list Point) :
  has_path n ps = has_path n ps || bool_decide (ps `prefix_of` []).
Proof. destruct ps; simpl; [done|]. by rewrite orb_false_r. Qed.

(** The paths after the child for [q] was replaced by, or appended as,
    [c'], whose paths are those that were there and the prefixes of [rest]. *)
Lemma has_path_update n par q c' k cs rest ps :
  (forall p, list_find (child_at p) cs =
     if decide (p = q) then Some (k, c') else list_find (child_at p) (node_children n)) ->
  (forall ps, has_path c' ps = has_path n (q :: ps) || bool_decide (ps `prefix_of` rest)) ->
  has_path (mkNode (node_point n) par cs) ps =
    has_path n ps || bool_decide (ps `prefix_of` q :: rest).
Proof.
  intros Hcs Hc'. destruct ps as [|p ps]; [done|]. rewrite prefix_cons_bool.
  simpl. rewrite Hcs. destruct (decide (p = q)) as [->|Hne].
  - rewrite Hc'. simpl. by rewrite (bool_decide_true (q = q)).
  - rewrite (bool_decide_false (p = q)) by done. simpl. by rewrite orb_false_r.
Qed.

Lemma node_wf_replace d n k c c' q :
  trie_wf r d n -> list_find (child_at q) (node_children n) = Some (k, c) ->
  node_point c' = node_point c -> node_parent c' = node_parent c -> trie_wf r (d + 1) c' ->
  trie_wf r d (mkNode (node_point n) (node_parent n) (<[k := c']> (node_children n))).
Proof.
  intros Hwf [Hk Hq]%find_point Hp Hpar Hc'. apply node_wf_update; [done| |].
  - rewrite list_fmap_insert, list_insert_id; [by destruct Hwf|].
    rewrite list_lookup_fmap, Hk. simpl. by rewrite Hp.
  - intros c0 [Hin| ->]%elem_of_insert_inv; [by left|]. right.
    destruct (wf_child _ _ _ Hwf c) as (H1 & H2 & _); [by eapply list_elem_of_lookup_2|].
    by rewrite Hp, Hpar.
Qed.

Lemma node_wf_append d n c :
  trie_wf r d n -> list_find (child_at (node_point c)) (node_children n) = None ->
  node_parent c = Some (node_point n) ->
  Point.lenWalking (Point.sub (node_point c) (node_point n)) = 1 -> trie_wf r (d + 1) c ->
  trie_wf r d (mkNode (node_point n) (node_parent n) (node_children n ++ [c])).
Proof.
  intros Hwf Hf%find_none Hpar Hadj Hc. apply node_wf_update; [done| |].
  - rewrite fmap_app. apply NoDup_app. split; [by destruct Hwf|]. split.
    + intros p Hp ->%list_elem_of_singleton. done.
    + apply NoDup_singleton.
  - intros c0 [?|Hc0%list_elem_of_singleton]%elem_of_app; [by left|]. subst c0. by right.
Qed.

(** What one call of [trieUpdate] does to a node. *)
Definition updated (n n' : FOVNode) (d : Z) (rest : list Point) : Prop :=
  trie_wf r d n' /\ node_point n' = node_point n /\ node_parent n' = node_parent n /\
  forall ps, has_path n' ps =
    has_path n ps || bool_decide (ps `prefix_of` cut_line r (node_point n) rest).

Lemma updated_stop n d rest :
  trie_wf r d n -> cut_line r (node_point n) rest = [] -> updated n n d rest.
Proof.
  intros Hwf Hcut. split_and!; [done|done|done|]. rewrite Hcut. apply has_path_stop.
Qed.

(** [trieUpdate] never fails on a line that continues the path to the node;
    it keeps the trie well formed and adds exactly the prefixes of the cut
    line to its paths. *)
Lemma trieUpdate_correct fuel n line i d :
  0 <= r <= max_radius ->
  line_wf r line -> trie_wf r d n -> line !! i = Some (node_point n) ->
  Point.norm2 (node_point n) < 2 ^ 31 -> (length line - i <= fuel)%nat ->
  exists n', FOV.trieUpdate_ r fuel n line i = Ok n' /\ updated n n' d (drop (S i) line).
Proof.
  intros Hr Hl. revert n i d. induction fuel as [|fuel IH]; intros n i d Hwf Hi Hn Hfuel.
  { apply lookup_lt_Some in Hi. lia. }
  simpl. rewrite Hi. simpl. rewrite Point.eqb_refl. simpl.
  rewrite beyond_within by (unfold max_radius in Hr; lia). cbn [rbind]. case_bool_decide as Hb.
  { exists n. split; [done|]. apply updated_stop; [done|]. destruct (drop (S i) line) as [|q rest] eqn:Ed; [done|].
    cbn [cut_line]. rewrite decide_False; [done|]. destruct Hb as [->|Hb]; [|done]. exfalso.
    destruct Hl as [Hlen _]. apply (f_equal length) in Ed. rewrite length_drop in Ed. cbn [length] in Ed. lia. }
  assert (Hin : within r (node_point n)) by (destruct (decide (within r (node_point n))); [done|by destruct Hb; right]).
  destruct (S i <? length line)%nat eqn:Hlt; simpl.
  2:{ exists n. split; [done|]. apply updated_stop; [done|].
      apply Nat.ltb_ge in Hlt. by rewrite drop_ge. }
  apply Nat.ltb_lt in Hlt. destruct (lookup_lt_is_Some_2 line (S i) Hlt) as [q Hq].
  rewrite Hq. simpl. destruct Hl as (Hlen & Hdist & Hadj) eqn:Hl'. clear Hl'.
  pose proof (Hadj _ _ _ Hi Hq) as Hstep. pose proof (Hdist _ _ Hq) as Hqd.
  pose proof (Hdist _ _ Hi) as Hid. pose proof (wf_dist _ _ _ Hwf) as Hd.
  assert (Hcut : cut_line r (node_point n) (drop (S i) line) =
    q :: cut_line r q (drop (S (S i)) line)).
  { rewrite (drop_S _ q) by done. simpl. by rewrite decide_True. }
  pose proof (within_step _ _ _ Hr Hin Hstep) as Hqn.
  unfold updated. rewrite Hcut.
  destruct (list_find (child_at q) (node_children n)) as [[k c]|] eqn:Hf.
  - destruct (find_point _ _ _ _ Hf) as [Hk Hcq]. rewrite Hcq, Point.eqb_refl. simpl.
    destruct (wf_child _ _ _ Hwf c) as (_ & _ & Hcwf); [by eapply list_elem_of_lookup_2|].
    destruct (IH c (S i) (d + 1) Hcwf) as (c' & -> & Hwf' & Hp' & Hpar' & Hpath');
      [by rewrite Hcq|by rewrite Hcq|lia|]. simpl.
    eexists; split; [done|]. split; [by eapply node_wf_replace|]. split; [done|]. split; [done|].
    intros ps. apply (has_path_update _ _ _ c' k).
    + intros p. apply (find_insert _ _ c); [done|]. by rewrite Hp'.
    + intros ps'. rewrite Hpath'. simpl. by rewrite Hf, Hcq.
  - rewrite Point.eqb_refl. simpl.
    destruct (IH (mkNode q (Some (node_point n)) []) (S i) (d + 1)) as
      (c' & -> & Hwf' & Hp' & Hpar' & Hpath'); [apply leaf_wf; lia|done|done|lia|]. simpl in *.
    eexists; split; [done|].
    split; [apply node_wf_append; rewrite ?Hp'; done|]. split; [done|]. split; [done|].
    intros ps. apply (has_path_update _ _ _ c' (length (node_children n))).
    + intros p. by apply find_snoc.
    + intros [|p ps']; rewrite Hpath'; simpl; rewrite Hf; [by destruct (drop _ _)|done].
Qed.

(** On a line straight up, of more than [max_radius] steps, the square of
    the length overflows. *)
Lemma trieUpdate_overflow fuel par line i :
  max_radius < r -> r < 2 ^ 31 -> (length line <= fuel + i)%nat -> Z.of_nat i <= max_radius + 1 < Z.of_nat (length line) ->
  (forall k p, line !! k = Some p -> p = Point.mk 0 (- Z.of_nat k)) ->
  FOV.trieUpdate_ r fuel (mkNode (Point.mk 0 (- Z.of_nat i)) par []) line i = Err Undefined.
Proof.
  intros Hr Hr31 Hfuel Hi Hline. revert par i Hfuel Hi. induction fuel as [|fuel IH]; intros par i Hfuel Hi; [lia|].
  cbn [FOV.trieUpdate_ node_point node_children node_parent list_find].
  destruct (lookup_lt_is_Some_2 line i) as [p Hp]; [lia|]. rewrite Hp, (Hline _ _ Hp). cbn [deref rbind].
  rewrite Point.eqb_refl. cbn [cpp_assert].
  assert (Hn : Point.norm2 (Point.mk 0 (- Z.of_nat i)) = Z.of_nat i * Z.of_nat i) by (unfold Point.norm2; cbn [Point.x Point.y]; lia).
  unfold max_radius in *. destruct (decide (Z.of_nat i = 46341)) as [Hlast|Hlast].
  { rewrite beyond_overflow; [done|]. rewrite Hn, Hlast. lia. }
  rewrite beyond_within by nia. cbn [rbind]. rewrite bool_decide_false; [|unfold within; rewrite Hn; nia].
  rewrite (proj2 (Nat.ltb_lt (S i) _)) by lia. cbn [negb].
  destruct (lookup_lt_is_Some_2 line (S i)) as [q Hq]; [lia|]. rewrite Hq, (Hline _ _ Hq). cbn [deref rbind].
  rewrite Point.eqb_refl. cbn [cpp_assert]. rewrite IH by lia. done.
Qed.
End trieUpdate.

(** ** The walk *)

(** The nodes of a list of tries. *)
Definition total (ns : list FOVNode) : nat :=
  foldr (fun c acc => FOV.count c + acc)%nat O ns.

Lemma count_children n : FOV.count n = S (total (node_children n)).
Proof. by destruct n. Qed.

Lemma total_app ns1 ns2 : total (ns1 ++ ns2) = (total ns1 + total ns2)%nat.
Proof. induction ns1; simpl; [done|]. lia. Qed.

Section walk.
Context {S : Type} (blocked : S -> Point -> option Point -> S * bool).

(** The equations of the loop. *)
Lemma fov_loop_next fuel cache i s n s' b :
  cache !! i = Some n -> blocked s (node_point n) (node_parent n) = (s', b) ->
  FOV.fov_loop blocked (Datatypes.S fuel) cache i s =
    FOV.fov_loop blocked fuel (if b then cache else cache ++ node_children n) (Datatypes.S i) s'.
Proof.
  intros Hn Hb. simpl. pose proof (lookup_lt_Some _ _ _ Hn) as Hlt%Nat.ltb_lt.
  rewrite Hlt, Hn. simpl. rewrite Hb. by destruct b.
Qed.

Lemma fov_loop_end fuel cache i s :
  (length cache <= i)%nat -> FOV.fov_loop blocked fuel cache i s = Ok (s, cache).
Proof. intros Hge%Nat.ltb_ge. destruct fuel; simpl; by rewrite Hge. Qed.

Lemma fov_loop_ok fuel cache i s r :
  FOV.fov_loop blocked fuel cache i s = Ok r ->
  (length cache <= i)%nat /\ r = (s, cache) \/
  exists fuel' n, fuel = Datatypes.S fuel' /\ cache !! i = Some n.
Proof.
  intros Hrun. destruct (decide (length cache <= i)%nat) as [Hge|Hlt].
  { left. rewrite fov_loop_end in Hrun by done. by injection Hrun. }
  right. destruct (lookup_lt_is_Some_2 cache i) as [n Hn]; [lia|].
  destruct fuel as [|fuel]; [|by exists fuel, n].
  simpl in Hrun. rewrite (proj2 (Nat.ltb_lt i (length cache))) in Hrun by lia. done.
Qed.

Lemma drop_next (cache : list FOVNode) i n (b : bool) :
  cache !! i = Some n ->
  drop (Datatypes.S i) (if b then cache else cache ++ node_children n) =
    if b then drop (Datatypes.S i) cache else drop (Datatypes.S i) cache ++ node_children n.
Proof.
  intros Hn%lookup_lt_Some. destruct b; [done|]. by rewrite drop_app_le by lia.
Qed.

(** The rule for [fov_loop]: the loop is a queue. With fuel for the nodes
    that can still enter the queue it ends with the queue empty, and what
    every step preserves holds of the final state. *)
Lemma fov_loop_rule (Inv : list FOVNode -> S -> Prop) fuel cache i s :
  (total (drop i cache) <= fuel)%nat ->
  Inv (drop i cache) s ->
  (forall n q s s' b, Inv (n :: q) s -> blocked s (node_point n) (node_parent n) = (s', b) ->
     Inv (if b then q else q ++ node_children n) s') ->
  exists s' cache', FOV.fov_loop blocked fuel cache i s = Ok (s', cache') /\ Inv [] s'.
Proof.
  intros Hfuel Hinv Hstep. revert cache i s Hfuel Hinv.
  induction fuel as [|fuel IH]; intros cache i s Hfuel Hinv; simpl.
  - destruct (i <? length cache)%nat eqn:Hlt.
    + apply Nat.ltb_lt in Hlt. destruct (lookup_lt_is_Some_2 cache i Hlt) as [n Hn].
      rewrite (drop_S _ n) in Hfuel by done. simpl in Hfuel. rewrite count_children in Hfuel. lia.
    + apply Nat.ltb_ge in Hlt. rewrite drop_ge in Hinv by done. eauto.
  - destruct (i <? length cache)%nat eqn:Hlt.
    + apply Nat.ltb_lt in Hlt. destruct (lookup_lt_is_Some_2 cache i Hlt) as [n Hn].
      rewrite (drop_S _ n) in Hfuel, Hinv by done. simpl in Hfuel.
      rewrite count_children in Hfuel. rewrite Hn. simpl.
      destruct (blocked s (node_point n) (node_parent n)) as [s' b] eqn:Hb.
      pose proof (Hstep _ _ _ _ _ Hinv Hb) as Hinv'. destruct b.
      * apply IH; [lia|done].
      * apply IH; rewrite drop_app_le by lia; [|done].
        rewrite total_app. lia.
    + apply Nat.ltb_ge in Hlt. rewrite drop_ge in Hinv by done. eauto.
Qed.

(** The same for the whole walk. *)
Lemma fieldOfVision_rule (Inv : list FOVNode -> S -> Prop) f s :
  Inv [FOV.root f] s ->
  (forall n q s s' b, Inv (n :: q) s -> blocked s (node_point n) (node_parent n) = (s', b) ->
     Inv (if b then q else q ++ node_children n) s') ->
  exists s', FOV.fieldOfVision f blocked s = Ok s' /\ Inv [] s'.
Proof.
  intros Hinv Hstep. unfold FOV.fieldOfVision.
  destruct (fov_loop_rule Inv (FOV.count (FOV.root f)) [FOV.root f] 0 s)
    as (s' & c & -> & H); [simpl; lia|done|done|].
  simpl. eauto.
Qed.
End walk.

(** Two callbacks that agree on the states and nodes that occur. *)
Lemma fov_loop_ext {S} (b1 b2 : S -> Point -> option Point -> S * bool)
    (Inv : list FOVNode -> S -> Prop) fuel cache i s :
  Inv (drop i cache) s ->
  (forall n q s s' b, Inv (n :: q) s -> b1 s (node_point n) (node_parent n) = (s', b) ->
     Inv (if b then q else q ++ node_children n) s' /\
     b2 s (node_point n) (node_parent n) = (s', b)) ->
  FOV.fov_loop b2 fuel cache i s = FOV.fov_loop b1 fuel cache i s.
Proof.
  intros Hinv Hstep. revert cache i s Hinv.
  induction fuel as [|fuel IH]; intros cache i s Hinv; simpl; [done|].
  destruct (i <? length cache)%nat eqn:Hlt; [|done].
  apply Nat.ltb_lt in Hlt. destruct (lookup_lt_is_Some_2 cache i Hlt) as [n Hn].
  rewrite (drop_S _ n) in Hinv by done. rewrite Hn. simpl.
  destruct (b1 s (node_point n) (node_parent n)) as [s' b] eqn:Hb.
  destruct (Hstep _ _ _ _ _ Hinv Hb) as [Hinv' ->]. destruct b.
  - by apply IH.
  - apply IH. by rewrite drop_app_le by lia.
Qed.

(** ** Level order

    The reference for a callback without state: level by level, the points of
    a level, then the children of its nodes that are not blocked. *)
Section level_order.
Context (blocked : Point -> option Point -> bool).

Definition open_node (n : FOVNode) : bool := negb (blocked (node_point n) (node_parent n)).
Definition expand (ns : list FOVNode) : list FOVNode :=
  mjoin (node_children <$> filter (fun n => open_node n = true) ns).

Fixpoint level_order (depth : nat) (level : list FOVNode) : list Point :=
  match depth with
  | O => []
  | S depth => (node_point <$> level) ++ level_order depth (expand level)
  end.

(** The callback that records its calls. *)
Definition record (s : list Point) (p : Point) (parent : option Point) : list Point * bool :=
  (s ++ [p], blocked p parent).

Lemma expand_nil : expand [] = [].
Proof. done. Qed.

Lemma expand_cons n ns :
  expand (n :: ns) = (if open_node n then node_children n else []) ++ expand ns.
Proof. unfold expand. rewrite filter_cons. by destruct (open_node n). Qed.

Lemma expand_app ns1 ns2 : expand (ns1 ++ ns2) = expand ns1 ++ expand ns2.
Proof. unfold expand. by rewrite filter_app, fmap_app, join_app. Qed.

Lemma level_order_nil depth : level_order depth [] = [].
Proof. induction depth as [|d IH]; simpl; [done|]. by rewrite expand_nil. Qed.

Lemma total_expand ns : (total (expand ns) + length ns <= total ns)%nat.
Proof.
  induction ns as [|n ns IH]; [done|]. rewrite expand_cons, total_app. simpl.
  rewrite count_children. destruct (open_node n); simpl; lia.
Qed.

(** What is left to visit when [cur] is the rest of a level and [next] the
    part of the next level that is already in the queue. *)
Definition pending (depth : nat) (cur next : list FOVNode) : list Point :=
  (node_point <$> cur) ++ level_order depth (next ++ expand cur).

Lemma pending_step depth n cur next :
  pending depth (n :: cur) next =
    node_point n :: pending depth cur (next ++ (if open_node n then node_children n else [])).
Proof. unfold pending. by rewrite expand_cons, <- app_assoc. Qed.

Lemma pending_turn depth next :
  pending (S depth) [] next = pending depth next [].
Proof. unfold pending. rewrite expand_nil, app_nil_r. done. Qed.
End level_order.

(** ** The constructor *)

Lemma target_dist r i j : 0 <= i <= r -> Point.lenWalking (FOV.target r i j) = r.
Proof.
  intros Hi. unfold FOV.target, Point.lenWalking.
  destruct (Z.testbit j 0), (Z.testbit j 1), (Z.testbit j 2); simpl; lia.
Qed.

(** A line from the origin is at distance [k] after [k] steps. *)
Lemma los_from_origin r p :
  Point.lenWalking p = r -> line_wf r (los_points Point.origin p).
Proof.
  intros Hr. assert (Hlen : los_len Point.origin p = r).
  { unfold los_len, Point.lenWalking in *. simpl. lia. }
  split; [by rewrite los_points_length, Hlen|]. split.
  - intros k q [-> Hk]%los_points_lookup.
    pose proof (los_point_dist Point.origin p (Z.of_nat k) ltac:(lia)) as Hd.
    unfold Point.lenWalking in *. simpl in Hd. by rewrite !Z.sub_0_r in Hd.
  - intros k q q' [-> Hk]%los_points_lookup [-> Hk']%los_points_lookup.
    rewrite Nat2Z.inj_succ in *. apply los_point_S. lia.
Qed.

(** The targets are the border of the square. *)
Lemma target_all r q : Z.max (Z.abs (Point.x q)) (Z.abs (Point.y q)) = r ->
  exists i j, 0 <= i <= r /\ 0 <= j < 8 /\ q = FOV.target r i j.
Proof.
  destruct q as [x y]. cbn [Point.x Point.y]. intros Hq.
  assert (Hj : exists j, 0 <= j < 8 /\ Z.testbit j 0 = bool_decide (Z.abs x = r) /\
    Z.testbit j 1 = bool_decide (0 <= x) /\ Z.testbit j 2 = bool_decide (0 <= y)).
  { destruct (bool_decide (Z.abs x = r)), (bool_decide (0 <= x)), (bool_decide (0 <= y));
      [exists 7|exists 3|exists 5|exists 1|exists 6|exists 2|exists 4|exists 0]; done. }
  destruct Hj as (j & Hj & H0 & H1 & H2). exists (if bool_decide (Z.abs x = r) then Z.abs y else Z.abs x), j.
  unfold FOV.target. rewrite H0, H1, H2. repeat case_bool_decide; (split; [lia|split; [lia|apply Point.eq_iff; cbn [Point.x Point.y]; lia]]).
Qed.

Lemma los_points_origin q : los_points Point.origin q = Point.origin :: drop 1 (los_points Point.origin q).
Proof.
  assert (H0 : los_points Point.origin q !! O = Some Point.origin).
  { apply los_points_lookup. rewrite los_point_0. split; [done|]. rewrite los_len_max. lia. }
  by rewrite <- (drop_S _ Point.origin O) by done.
Qed.

(** The lines of the constructor, in its order, each cut at the radius. *)
Definition fov_line (r i j : Z) : list Point :=
  cut_line r Point.origin (drop 1 (los_points Point.origin (FOV.target r i j))).

Definition fov_root (r : Z) (n : FOVNode) : Prop :=
  trie_wf r 0 n /\ node_point n = Point.origin /\ node_parent n = None.

Section make.
Context (r : Z) (Hr : 0 <= r <= max_radius).

(** One iteration of the inner loop. *)
Lemma make_step n i j :
  0 <= i <= r -> fov_root r n ->
  exists n', rbind (LOS Point.origin (FOV.target r i j))
      (fun line => FOV.trieUpdate r n line 0) = Ok n' /\
    fov_root r n' /\
    forall ps, has_path n' ps = has_path n ps || bool_decide (ps `prefix_of` fov_line r i j).
Proof.
  intros Hi (Hwf & Hp & Hpar). rewrite LOS_spec. simpl.
  destruct (trieUpdate_correct r (length (los_points Point.origin (FOV.target r i j)) - 0) n
    (los_points Point.origin (FOV.target r i j)) 0 0) as (n' & Hn' & Hw & Hp' & Hpar' & Hpath).
  - done.
  - apply los_from_origin. by apply target_dist.
  - done.
  - rewrite Hp. apply los_points_lookup. rewrite los_point_0. split; [done|].
    rewrite los_len_max. lia.
  - by rewrite Hp.
  - lia.
  - exists n'. unfold FOV.trieUpdate. split; [done|].
    split; [split_and!; [done|by rewrite Hp', Hp|by rewrite Hpar', Hpar]|].
    intros ps. by rewrite Hpath, Hp.
Qed.

(** Both loops, with the set of lines that were inserted. *)
Lemma make_inner js i n :
  0 <= i <= r -> fov_root r n ->
  exists n', foldM (fun n j => rbind (LOS Point.origin (FOV.target r i j))
      (fun line => FOV.trieUpdate r n line 0)) n js = Ok n' /\
    fov_root r n' /\
    forall ps, has_path n' ps = true <->
      has_path n ps = true \/ exists j, j ∈ js /\ ps `prefix_of` fov_line r i j.
Proof using Hr.
  intros Hi. revert n. induction js as [|j js IH]; intros n Hn; simpl.
  - exists n. split; [done|]. split; [done|]. intros ps. split; [by left|].
    intros [?|(? & ?%elem_of_nil & _)]; done.
  - destruct (make_step n i j Hi Hn) as (n1 & -> & Hn1 & Hp1). simpl.
    destruct (IH n1 Hn1) as (n2 & -> & Hn2 & Hp2). exists n2.
    split; [done|]. split; [done|]. intros ps.
    rewrite Hp2, Hp1, orb_true_iff, bool_decide_eq_true. setoid_rewrite elem_of_cons.
    split; [intros [[?|?]|(j' & ? & ?)]; eauto|].
    intros [?|(j' & [->|?] & ?)]; eauto.
Qed.

Lemma make_outer js rows n :
  (forall i, i ∈ rows -> 0 <= i <= r) -> fov_root r n ->
  exists n', foldM (fun n i => foldM (fun n j => rbind (LOS Point.origin (FOV.target r i j))
      (fun line => FOV.trieUpdate r n line 0)) n js) n rows = Ok n' /\
    fov_root r n' /\
    forall ps, has_path n' ps = true <->
      has_path n ps = true \/
      exists i j, i ∈ rows /\ j ∈ js /\ ps `prefix_of` fov_line r i j.
Proof using Hr.
  intros His. revert n His. induction rows as [|i rows IH]; intros n His Hn; simpl.
  - exists n. split; [done|]. split; [done|]. intros ps. split; [by left|].
    intros [?|(? & ? & ?%elem_of_nil & _)]; done.
  - destruct (make_inner js i n) as (n1 & -> & Hn1 & Hp1);
      [apply His; by left|done|]. simpl.
    destruct (IH n1) as (n2 & -> & Hn2 & Hp2); [intros; apply His; by right|done|].
    exists n2. split; [done|]. split; [done|]. intros ps. rewrite Hp2, Hp1.
    setoid_rewrite elem_of_cons. split.
    + intros [[?|(j & ? & ?)]|(i' & j & ? & ? & ?)]; eauto 10.
    + intros [?|(i' & j & [->|?] & ? & ?)]; eauto 10.
Qed.

Lemma make_spec :
  exists f, FOV.make r = Ok f /\ FOV.radius f = r /\ fov_root r (FOV.root f) /\
    forall ps, has_path (FOV.root f) ps = true <->
      ps = [] \/ exists i j, 0 <= i <= r /\ 0 <= j < 8 /\ ps `prefix_of` fov_line r i j.
Proof using Hr.
  unfold FOV.make. destruct (make_outer (seqZ 0 8) (seqZ 0 (r + 1)) (mkNode Point.origin None []))
    as (n & Hn & Hroot & Hpath).
  - intros i ?%elem_of_seqZ. lia.
  - split_and!; [apply leaf_wf; [done|lia]|done|done].
  - rewrite Hn. simpl. eexists; split; [done|]. simpl. split; [done|]. split; [done|].
    intros ps. rewrite Hpath. setoid_rewrite elem_of_seqZ. destruct ps as [|p ps]; simpl.
    + split; [by left|]. by left.
    + split.
      * intros [?|(i & j & ? & ? & ?)]; [done|]. right. exists i, j. split_and!; [lia..|done].
      * intros [?|(i & j & ? & ? & ?)]; [done|]. right. exists i, j. split_and!; [lia..|done].
Qed.
End make.

(** The first line of the constructor is straight up. *)
Lemma make_overflow r : max_radius < r < 2 ^ 31 -> FOV.make r = Err Undefined.
Proof.
  intros Hr. unfold max_radius in Hr. unfold FOV.make. rewrite (seqZ_cons 0 (r + 1)), (seqZ_cons 0 8) by lia. cbn [foldM].
  change (FOV.target r 0 0) with (Point.mk 0 (r * -1)). rewrite LOS_spec. cbn [rbind]. unfold FOV.trieUpdate.
  set (line := los_points _ _). change Point.origin with (Point.mk 0 (- Z.of_nat 0)).
  assert (Hlen : Z.of_nat (length line) = r + 1).
  { unfold line. rewrite los_points_length, los_len_max. cbn [Point.origin Point.x Point.y]. lia. }
  rewrite trieUpdate_overflow; [done|unfold max_radius; lia|lia|lia|unfold max_radius; lia|].
  intros k p [-> Hk]%los_points_lookup. unfold los_point. cbn [Point.origin Point.x Point.y].
  destruct (Z.leb_spec (Z.abs (0 - r * -1)) (Z.abs (0 - 0))); [lia|].
  rewrite minor_steps_zero by lia. apply Point.eq_iff. cbn [Point.x Point.y].
  unfold sign_of. rewrite (proj2 (Z.ltb_lt (r * -1) 0)) by lia. lia.
Qed.

(** ** Properties *)

(** C29: the constructor draws the lines of sight from the origin to all
    points of the border of the square, each up to the first point outside of
    the circle. For a radius up to 46340 it fails none of its assertions, no
    [int32_t] overflows, and it builds a well-formed trie: the points of a
    node's children are distinct neighbours of its own, at the depth that is
    their distance from the origin. The paths of the trie are the prefixes of
    those lines of sight, to any point at distance [r], whose points, the last
    one excepted, are at most [r - 1/2] away: the comparison of doubles decides
    [x * x + y * y <= r * (r - 1)] exactly. For a larger radius, the square of
    the length of a point overflows. *)
Theorem FOV_make_paths r :
  0 <= r < 2 ^ 31 ->
  if decide (r <= 46340) then
    exists f, FOV.make r = Ok f /\ FOV.radius f = r /\ trie_wf r 0 (FOV.root f) /\
      forall ps, has_path (FOV.root f) ps = true <->
        ps = [] \/ exists q line, Z.max (Z.abs (Point.x q)) (Z.abs (Point.y q)) = r /\
          LOS Point.origin q = Ok line /\ ps `prefix_of` drop 1 line /\
          forall k p, (k < length ps)%nat -> line !! k = Some p ->
            Point.x p * Point.x p + Point.y p * Point.y p <= r * (r - 1)
  else FOV.make r = Err Undefined.
Proof.
  intros Hr. case_decide as Hm; [|apply make_overflow; unfold max_radius; lia].
  destruct (make_spec r) as (f & Hf & Hfr & (Hwf & _) & Hp); [unfold max_radius; lia|].
  exists f. split_and!; [done|done|done|]. intros ps. rewrite Hp. apply or_iff_compat_l. split.
  - intros (i & j & Hi & Hj & Hps). apply cut_line_prefix in Hps as [Hpre Hin]. exists (FOV.target r i j), (los_points Point.origin (FOV.target r i j)).
    split_and!; [by apply target_dist|apply LOS_spec|done|]. intros k p Hk Hpk. apply (Hin k); [done|]. by rewrite <- los_points_origin.
  - intros (q & line & Hq & Hline & Hpre & Hin). rewrite LOS_spec in Hline. injection Hline as <-.
    destruct (target_all r q Hq) as (i & j & Hi & Hj & ->). exists i, j. split_and!; [lia..|].
    apply cut_line_prefix. split; [done|]. intros k p Hk Hpk. apply (Hin k); [done|]. by rewrite los_points_origin.
Qed.

Theorem FOV_make_paths_witness :
  (exists f, FOV.make 3 = Ok f /\ FOV.radius f = 3) /\ FOV.make 50000 = Err Undefined.
Proof.
  split; [|exact (FOV_make_paths 50000 ltac:(split; [done|reflexivity]))].
  destruct (FOV_make_paths 3 ltac:(split; [done|reflexivity])) as (f & ? & ? & _). exists f. split; assumption.
Defined.

(** C30: [fieldOfVision] terminates for every callback, whatever state it
    keeps; the size of the trie bounds its iterations. *)
Theorem fieldOfVision_total {S} (f : FOV.t) (blocked : S -> Point -> option Point -> S * bool) s :
  exists s', FOV.fieldOfVision f blocked s = Ok s'.
Proof.
  destruct (fieldOfVision_rule blocked (fun _ _ => True) f s) as (s' & ? & _); eauto.
Qed.

(** C31: for a callback without state, [fieldOfVision] visits the trie level
    by level: the calls are those of the reference [level_order], which takes
    the points of a level in order and goes on to the children of its nodes
    that are not blocked. *)
Theorem fieldOfVision_level_order f blocked :
  FOV.fieldOfVision f (record blocked) [] =
    Ok (level_order blocked (FOV.count (FOV.root f)) [FOV.root f]).
Proof.
  set (goal := level_order blocked (FOV.count (FOV.root f)) [FOV.root f]).
  destruct (fieldOfVision_rule (record blocked) (fun q s => exists cur next depth,
      q = cur ++ next /\ (total (next ++ expand blocked cur) <= depth)%nat /\
      s ++ pending blocked depth cur next = goal) f []) as (s' & -> & Hend).
  - exists [FOV.root f], [], (total (node_children (FOV.root f))). split; [done|]. split.
    + rewrite expand_cons, app_nil_r. destruct (open_node _ _); simpl; lia.
    + unfold goal. by rewrite count_children.
  - intros n q s s' b (cur & next & depth & Hq & Hdepth & Hgoal) Hrec.
    unfold record in Hrec. injection Hrec as <- <-.
    assert (Hone : forall cur next depth, n :: q = (n :: cur) ++ next ->
      (total (next ++ expand blocked (n :: cur)) <= depth)%nat ->
      s ++ pending blocked depth (n :: cur) next = goal ->
      exists cur' next' depth', (if blocked (node_point n) (node_parent n) then q
          else q ++ node_children n) = cur' ++ next' /\
        (total (next' ++ expand blocked cur') <= depth')%nat /\
        (s ++ [node_point n]) ++ pending blocked depth' cur' next' = goal).
    { clear. intros cur next depth [= ->] Hdepth Hgoal.
      exists cur, (next ++ if open_node blocked n then node_children n else []), depth.
      rewrite expand_cons, app_assoc in Hdepth. split; [|split; [done|]].
      - unfold open_node. destruct (blocked _ _); simpl; [by rewrite app_nil_r|].
        by rewrite app_assoc.
      - rewrite <- Hgoal, pending_step, <- app_assoc. done. }
    destruct cur as [|n' cur]; [|injection Hq as <- ->; by apply (Hone cur next depth)].
    simpl in Hq. subst next. simpl in Hdepth. rewrite expand_nil, app_nil_r in Hdepth.
    simpl in Hdepth. rewrite count_children in Hdepth. destruct depth as [|depth]; [lia|].
    rewrite pending_turn in Hgoal. apply (Hone q [] depth); [by rewrite app_nil_r| |done].
    pose proof (total_expand blocked (n :: q)). simpl in *. rewrite count_children in *. lia.
  - destruct Hend as (cur & next & depth & [-> ->]%eq_sym%app_eq_nil & _ & Hgoal).
    f_equal. rewrite <- Hgoal. unfold pending. simpl.
    by rewrite level_order_nil, app_nil_r.
Qed.
