(* ===== verification/Entity.v ===== *)
(** * Entity: entities and the species tables (src/entity.h, src/entity.cpp)

    An [Entity] holds its common fields and, in [sub], the fields of its
    dynamic class. [type_] is the tag that [match] switches on before it
    casts: the cast is undefined when tag and class disagree. Objects are
    named by addresses ([loc]); the heap maps an address to the object that
    lives there. *)

From S2P Require Import Prelude.
From S2P Require Import Base.
From S2P Require Import Geo.
#[local] Open Scope string_scope.

Abbreviation loc := positive.

Record Attack := mkAttack { attack_name : string; range : Z; damage : Z }.

(** [std::array<const Attack*, 4>], with null pointers as [None]. *)
Definition Attacks := list (option Attack).

Record PokemonSpeciesData := mkSpecies {
  species_name : string;
  species_glyph : Glyph;
  species_hp : Z;
  species_speed : double }.

(** [trainer] is a weak pointer, empty or the address of a trainer. *)
Record PokemonIndividualData := mkIndividual {
  attacks : Attacks;
  species : PokemonSpeciesData;
  trainer : option loc }.

Inductive EntityType := TypePokemon | TypeTrainer.

(** The fields of the two derived classes. *)
Inductive Subobject :=
| SubPokemon (self : PokemonIndividualData)
| SubTrainer (name : string) (player : bool).

Record Entity := mkEntity {
  type_ : EntityType;
  removed : bool;
  pos : Point;
  glyph : Glyph;
  move_timer : Z;
  turn_timer : Z;
  cur_hp : Z;
  max_hp : Z;
  speed : double;
  sub : Subobject }.

(** [Entity::match], const or not. *)
Definition entity_match {A} (e : Entity) (p : PokemonIndividualData -> A)
    (t : string -> bool -> A) : result A :=
  match type_ e with
  | TypePokemon => match sub e with SubPokemon self => Ok (p self) | _ => Err Undefined end
  | TypeTrainer => match sub e with SubTrainer name player => Ok (t name player) | _ => Err Undefined end
  end.

(** ** The tables *)

Definition attack_list : list Attack :=
  [ mkAttack "Ember" 12 40;
    mkAttack "Ice Beam" 12 60;
    mkAttack "Blizzard" 12 80;
    mkAttack "Headbutt" 8 80;
    mkAttack "Tackle" 4 40 ].

(** [result[attack.name] = attack]: a later entry replaces an earlier one. *)
Definition attack_table : gmap string Attack :=
  foldl (fun result attack => <[attack_name attack := attack]> result) ∅ attack_list.

Definition getAttack (name : string) : result Attack := at_key (attack_table !! name).

Definition double_lit (n d : Z) : double := double_div (double_of_Z n) (double_of_Z d).

Definition species_list : list (PokemonSpeciesData * list string) :=
  [ (mkSpecies "Ratatta" (Wide_ 82) 60 (double_lit 1 4), ["Headbutt"; "Tackle"]);
    (mkSpecies "Pidgey" (Wide_ 80) 30 (double_lit 1 3), ["Tackle"]) ].

(** The lambda [getAttacks]: an array of four null pointers whose first
    elements are overwritten. *)
Definition getAttacks (names : list string) : result Attacks :=
  let res := replicate 4 None in
  cpp_assert (length names <=? length res)%nat (
  foldM (fun res i =>
      let* name := deref (names !! i) in
      let* a := getAttack name in
      Ok (<[i := Some a]> res)) res (seq 0 (length names))).

(** [result.emplace(species.name, data)]: an earlier entry stays. *)
Definition species_table : result (gmap string (PokemonSpeciesData * Attacks)) :=
  foldM (fun res '(species, attacks) =>
      let* attacks := getAttacks attacks in
      let data := (species, attacks) in
      Ok (match res !! species_name species with
          | Some _ => res
          | None => <[species_name species := data]> res
          end)) ∅ species_list.

Definition getSpecies (name : string) : result (PokemonSpeciesData * Attacks) :=
  let* result := species_table in
  at_key (result !! name).

Definition getIndividual (name : string) : result PokemonIndividualData :=
  let* data := getSpecies name in
  let '(species, attacks) := data in
  Ok (mkIndividual attacks species None).

(** ** Constructors *)

Definition Entity_ctor (type : EntityType) (pos : Point) (glyph : Glyph) (hp : Z) (speed : double)
    (sub : Subobject) : Entity :=
  mkEntity type false pos glyph 0 0 hp hp speed sub.

Definition Trainer_ctor (name : string) (pos : Point) (player : bool) (hp : Z) (speed : double)
    : Entity :=
  Entity_ctor TypeTrainer pos (Wide_ 64) hp speed (SubTrainer name player).

Definition Pokemon_of_individual (self : PokemonIndividualData) (pos : Point) : Entity :=
  Entity_ctor TypePokemon pos (species_glyph (species self)) (species_hp (species self))
    (species_speed (species self)) (SubPokemon self).

Definition Pokemon_ctor (species : string) (pos : Point) : result Entity :=
  let* self := getIndividual species in
  Ok (Pokemon_of_individual self pos).

(** Assignments to single fields of an object. *)
Definition set_pos (e : Entity) (p : Point) : Entity :=
  mkEntity (type_ e) (removed e) p (glyph e) (move_timer e) (turn_timer e)
    (cur_hp e) (max_hp e) (speed e) (sub e).
Definition set_timers (e : Entity) (move turn : Z) : Entity :=
  mkEntity (type_ e) (removed e) (pos e) (glyph e) move turn
    (cur_hp e) (max_hp e) (speed e) (sub e).

(** ** Lemmas *)

(** The tag names the dynamic class. *)
Definition tag_ok (e : Entity) : Prop :=
  match type_ e, sub e with
  | TypePokemon, SubPokemon _ => True
  | TypeTrainer, SubTrainer _ _ => True
  | _, _ => False
  end.

Lemma entity_match_ok {A} e (p : _ -> A) t : tag_ok e -> exists a, entity_match e p t = Ok a.
Proof. unfold tag_ok, entity_match. destruct (type_ e), (sub e); naive_solver. Qed.

Lemma Trainer_tag name pos player hp speed : tag_ok (Trainer_ctor name pos player hp speed).
Proof. done. Qed.

Lemma Pokemon_tag name pos e : Pokemon_ctor name pos = Ok e -> tag_ok e.
Proof. unfold Pokemon_ctor. intros H. by inv_ok. Qed.

Lemma Pokemon_fields name pos0 e :
  Pokemon_ctor name pos0 = Ok e -> pos e = pos0 /\ removed e = false /\ turn_timer e = 0 /\ move_timer e = 0.
Proof. unfold Pokemon_ctor. intros H. by inv_ok. Qed.

(** The two tables, as maps. *)
Lemma species_table_eq :
  species_table = Ok (
    <["Pidgey" := (mkSpecies "Pidgey" (Wide_ 80) 30 (double_lit 1 3),
        [Some (mkAttack "Tackle" 4 40); None; None; None])]>
    (<["Ratatta" := (mkSpecies "Ratatta" (Wide_ 82) 60 (double_lit 1 4),
        [Some (mkAttack "Headbutt" 8 80); Some (mkAttack "Tackle" 4 40); None; None])]> ∅)).
Proof. vm_compute. reflexivity. Qed.

(** ** Properties *)

(** building the species table fails neither its assertion nor an attack
    lookup; each species of the list is found under its name with its attacks
    resolved in order and padded with null pointers, and every other name is
    an out-of-range error. *)
Theorem getIndividual_correct name :
  getIndividual name =
    if decide (name = "Ratatta") then
      Ok (mkIndividual [Some (mkAttack "Headbutt" 8 80); Some (mkAttack "Tackle" 4 40); None; None]
        (mkSpecies "Ratatta" (Wide_ 82) 60 (double_lit 1 4)) None)
    else if decide (name = "Pidgey") then
      Ok (mkIndividual [Some (mkAttack "Tackle" 4 40); None; None; None]
        (mkSpecies "Pidgey" (Wide_ 80) 30 (double_lit 1 3)) None)
    else Err OutOfRange.
Proof.
  unfold getIndividual, getSpecies. rewrite species_table_eq. simpl.
  rewrite !lookup_insert, lookup_empty. repeat case_decide; by subst.
Qed.
