(* ===== verification/Timers.v ===== *)
(** * Timers: the constants of the game and the timers of an entity
    (src/game.cpp, the first namespace)

    [charge] and [wait] move the two timers of an entity; the amounts are
    doubles rounded to [int]. *)

From S2P Require Import Prelude.
From S2P Require Import Base.
From S2P Require Import Geo.
From S2P Require Import Entity.

Definition kMapSize : Z := 31.
Definition kFOVRadius : Z := 15.
Definition kVisionRadius : Z := 3.

Definition kMoveTimer : Z := 960.
Definition kTurnTimer : Z := 120.

Definition kTrainerHP : Z := 8.
Definition kTrainerSpeed : double := double_lit 1 10.

Definition kSteps : list Point :=
  [Point.mk (-1) 0; Point.mk 0 1; Point.mk 0 (-1); Point.mk 1 0;
   Point.mk (-1) (-1); Point.mk 1 (-1); Point.mk (-1) 1; Point.mk 1 1].

(** [static_cast<int>(round(kTurnTimer * entity.speed))] *)
Definition charge_of (speed : double) : result Z :=
  int_of_round (double_mul (double_of_Z kTurnTimer) speed).

Definition charge (e : Entity) : result Entity :=
  let* charge := charge_of (speed e) in
  Ok (set_timers e
        (if 0 <? move_timer e then move_timer e - charge else move_timer e)
        (if 0 <? turn_timer e then turn_timer e - charge else turn_timer e)).

Definition turnReady (e : Entity) : bool := turn_timer e <=? 0.

(** [moves] and [turns] are doubles, converted from the [int]s of a
    [Result]. *)
Definition wait (e : Entity) (moves turns : double) : result Entity :=
  let* m := int_of_round (double_mul (double_of_Z kMoveTimer) moves) in
  let* t := int_of_round (double_mul (double_of_Z kTurnTimer) turns) in
  Ok (set_timers e (move_timer e + m) (turn_timer e + t)).

(** ** Lemmas *)

(** The timers of a running game: no move is ever charged, and a turn costs
    [kTurnTimer]. An entity with these timers overflows nowhere. *)
Definition timers_ok (e : Entity) : Prop :=
  move_timer e = 0 /\ - kTurnTimer < turn_timer e <= kTurnTimer.

(** The speeds for which the scheduler makes progress. *)
Definition speed_ok (s : double) : Prop := exists c, charge_of s = Ok c /\ 1 <= c <= kTurnTimer.

Lemma charge_spec e c :
  charge_of (speed e) = Ok c ->
  charge e = Ok (set_timers e
    (if 0 <? move_timer e then move_timer e - c else move_timer e)
    (if 0 <? turn_timer e then turn_timer e - c else turn_timer e)).
Proof. unfold charge. by intros ->. Qed.

Lemma wait_turn e :
  wait e (double_of_Z 0) (double_of_Z 1) = Ok (set_timers e (move_timer e) (turn_timer e + kTurnTimer)).
Proof.
  unfold wait. replace (int_of_round (double_mul (double_of_Z kMoveTimer) (double_of_Z 0))) with (Ok 0) by done.
  replace (int_of_round (double_mul (double_of_Z kTurnTimer) (double_of_Z 1))) with (Ok kTurnTimer) by done.
  simpl. by rewrite Z.add_0_r.
Qed.

Lemma charge_timers_ok e e' :
  speed_ok (speed e) -> timers_ok e -> charge e = Ok e' -> timers_ok e'.
Proof.
  intros (c & Hc & Hr) [Hm Ht]. rewrite (charge_spec e c Hc). intros [= <-].
  unfold timers_ok; simpl. rewrite Hm. split; [done|]. case_match; bools; lia.
Qed.

Lemma wait_timers_ok e e' :
  timers_ok e -> turnReady e = true ->
  wait e (double_of_Z 0) (double_of_Z 1) = Ok e' -> timers_ok e'.
Proof.
  intros [Hm Ht] Hready. rewrite wait_turn. intros [= <-].
  unfold timers_ok, turnReady in *; simpl. bools. unfold kTurnTimer in *. lia.
Qed.

Lemma speed_ok_trainer : speed_ok kTrainerSpeed.
Proof. exists 12. split; [reflexivity|unfold kTurnTimer; lia]. Qed.

Lemma speed_ok_pidgey : speed_ok (double_lit 1 3).
Proof. exists 40. split; [reflexivity|unfold kTurnTimer; lia]. Qed.
