(* ===== verification/Board.v ===== *)
(** * Board: the map, the entities on it and the cached field of vision
    (src/game.h, src/game.cpp)

    The board owns its entities through [m_entityAtPos] and lists their
    addresses in [m_entities]; the objects live in a [heap], which the
    operations that touch an entity take and return. [m_vision] is a mutable
    cache, so the [const] operations that fill it return the board too. *)

From S2P Require Import Prelude.
From S2P Require Import Base.
From S2P Require Import Geo.
From S2P Require Import Los.
From S2P Require Import Fov.
From S2P Require Import Entity.
From S2P Require Import Timers.

(** Characters in the maps of [tileType]. *)
Definition ch_dot : Z := 46.
Definition ch_quote : Z := 34.
Definition ch_hash : Z := 35.

Inductive Status := Free | Blocked | Occupied.

#[export] Instance Status_eq_dec : EqDecision Status.
Proof. solve_decision. Defined.

Definition FlagNone : Z := 0.
Definition FlagBlocked : Z := 1.
Definition FlagObscure : Z := 2.

Record Tile := mkTile { tile_glyph : Glyph; flags : Z; description : string }.

Definition tile_table : gmap Z Tile :=
  list_to_map
    [ (ch_dot, mkTile (Wide_ ch_dot) FlagNone "grass");
      (ch_quote, mkTile (Wide ch_quote 561) FlagObscure "tall grass");
      (ch_hash, mkTile (Wide ch_hash 16) FlagBlocked "a tree") ].

Definition tileType (ch : Z) : result Tile := at_key (tile_table !! ch).

(** [flags & mask] as a condition. *)
Definition has_flag (t : Tile) (mask : Z) : bool := negb (Z.land (flags t) mask =? 0).

Record Vision := mkVision { offset : Point; dirty : bool; visibility : Matrix Z }.

Abbreviation heap := (gmap loc Entity).

Module Board.
Record t := mk {
  m_fov : FOV.t;
  m_entityIndex : nat;
  m_map : Matrix Tile;
  m_entities : list loc;
  m_entityAtPos : gmap Point loc;
  m_vision : gmap loc Vision }.

Definition with_index (b : t) i :=
  mk (m_fov b) i (m_map b) (m_entities b) (m_entityAtPos b) (m_vision b).
Definition with_map (b : t) m :=
  mk (m_fov b) (m_entityIndex b) m (m_entities b) (m_entityAtPos b) (m_vision b).
Definition with_entities (b : t) es at_pos :=
  mk (m_fov b) (m_entityIndex b) (m_map b) es at_pos (m_vision b).
Definition with_vision (b : t) v :=
  mk (m_fov b) (m_entityIndex b) (m_map b) (m_entities b) (m_entityAtPos b) v.

Definition make (size : Point) : result t :=
  let* fov := FOV.make kFOVRadius in
  let* tile := tileType ch_hash in
  let* map := Matrix.make size tile in
  Ok (mk fov 0 map [] ∅ ∅).

(** ** Reads *)

Definition getSize (b : t) : Point := Matrix.size (m_map b).
Definition getTile (b : t) (p : Point) : Tile := Matrix.get (m_map b) p.

Definition getStatus (b : t) (p : Point) : Status :=
  if has_flag (getTile b p) FlagBlocked then Blocked
  else if bool_decide (is_Some (m_entityAtPos b !! p)) then Occupied
  else Free.

Definition getActiveEntity (b : t) : result loc :=
  cpp_assert (m_entityIndex b <? length (m_entities b))%nat
    (deref (m_entities b !! m_entityIndex b)).

(** A null pointer is [None]. *)
Definition getEntity (b : t) (p : Point) : option loc := m_entityAtPos b !! p.
Definition getEntities (b : t) : list loc := m_entities b.

(** ** The field of vision *)

(** The lambda [blocked] of [getVision], with the matrix it updates. *)
Definition vision_step (m : Matrix Tile) (pos offset : Point) (map : Matrix Z)
    (p : Point) (parent : option Point) : Matrix Z * bool :=
  let q := Point.add p pos in
  let visibility :=
    match parent with
    | None => 100 * (kVisionRadius + 1) - 95 - 46 - 25
    | Some parent =>
        let tile := Matrix.get m q in
        if has_flag tile FlagBlocked then 0 else
        let obscure := has_flag tile FlagObscure in
        let diagonal := negb (Point.x p =? Point.x parent) && negb (Point.y p =? Point.y parent) in
        let loss := if obscure then 95 + (if diagonal then 46 else 0) else 0 in
        let prev := Matrix.get map (Point.add (Point.add parent pos) offset) in
        Z.max (prev - loss) 0
    end in
  let key := Point.add q offset in
  (Matrix.set map key (Z.max visibility (Matrix.get map key)), visibility <=? 0).

Definition radius_point : Point := Point.mk kFOVRadius kFOVRadius.

(** [m_vision[&entity]], with a new [Vision] when the entry is null. *)
Definition vision_entry (b : t) (e : loc) : result Vision :=
  match m_vision b !! e with
  | Some v => Ok v
  | None =>
      let side := 2 * kFOVRadius + 1 in
      let* m := Matrix.make (Point.mk side side) (-1) in
      Ok (mkVision (Point.mk 0 0) true m)
  end.

Definition getVision (h : heap) (b : t) (e : loc) : result (t * Vision) :=
  let* result := vision_entry b e in
  if dirty result then
    let* entity := deref (h !! e) in
    let pos := pos entity in
    let offset := Point.sub radius_point pos in
    let map := Matrix.fill (visibility result) (-1) in
    let* map := FOV.fieldOfVision (m_fov b) (vision_step (m_map b) pos offset) map in
    let result := mkVision offset false map in
    Ok (with_vision b (<[e := result]> (m_vision b)), result)
  else Ok (with_vision b (<[e := result]> (m_vision b)), result).

(** [visibilityAt] and [canSee] of a [Vision]. *)
Definition visibilityAt (v : Vision) (p : Point) : Z :=
  Matrix.get (visibility v) (Point.add p (offset v)).
Definition canSee (v : Vision) (p : Point) : bool := 0 <=? visibilityAt v p.

(** The same of an [Entity]. *)
Definition visibilityAt_entity (h : heap) (b : t) (e : loc) (p : Point) : result (t * Z) :=
  let* r := getVision h b e in
  let '(b, v) := r in Ok (b, visibilityAt v p).
Definition canSee_entity (h : heap) (b : t) (e : loc) (p : Point) : result (t * bool) :=
  let* r := getVision h b e in
  let '(b, v) := r in Ok (b, canSee v p).

(** A null [target] is [None]. *)
Definition dirtyVision (b : t) (e : loc) (target : option Point) : t :=
  match m_vision b !! e with
  | None => b
  | Some v =>
      if dirty v then b else
      if (match target with Some p => negb (canSee v p) | None => false end) then b else
      with_vision b (<[e := mkVision (offset v) true (visibility v)]> (m_vision b))
  end.

(** ** Writes *)

Definition clearAllTiles (b : t) : result t :=
  let* tile := tileType ch_dot in
  Ok (with_map b (Matrix.fill (m_map b) tile)).

Definition setTile (b : t) (p : Point) (tile : Tile) : t :=
  if negb (Matrix.contains (m_map b) p) then b else
  let prev := Matrix.get (m_map b) p in
  let b := with_map b (Matrix.set (m_map b) p tile) in
  let mask := Z.lor FlagBlocked FlagObscure in
  let dirty := negb (Z.land (flags prev) mask =? Z.land (flags tile) mask) in
  if dirty
  then foldl (fun b entity => dirtyVision b entity (Some p)) b (m_entities b)
  else b.

Definition addEntity (h : heap) (b : t) (e : loc) : result t :=
  let es := m_entities b ++ [e] in
  let* entity := deref (h !! e) in
  cpp_assert (bool_decide (m_entityAtPos b !! pos entity = None))
    (Ok (with_entities b es (<[pos entity := e]> (m_entityAtPos b)))).

Definition moveEntity (h : heap) (b : t) (e : loc) (to : Point) : result (heap * t) :=
  let* entity := deref (h !! e) in
  let it := m_entityAtPos b !! pos entity in
  cpp_assert (bool_decide (is_Some it)) (
  cpp_assert (bool_decide (it = Some e)) (
  let at_pos := delete (pos entity) (m_entityAtPos b) in
  cpp_assert (bool_decide (at_pos !! to = None)) (
  let b := with_entities b (m_entities b) (<[to := e]> at_pos) in
  let h := <[e := set_pos entity to]> h in
  Ok (h, dirtyVision b e None)))).

(** Erasing the entry destroys the object: the entry is its only owner. *)
Definition removeEntity (h : heap) (b : t) (e : loc) : result (heap * t) :=
  let* entity := deref (h !! e) in
  let it := m_entityAtPos b !! pos entity in
  cpp_assert (bool_decide (is_Some it)) (
  cpp_assert (bool_decide (it = Some e)) (
  let b := with_entities b (m_entities b) (delete (pos entity) (m_entityAtPos b)) in
  let b := with_vision b (delete e (m_vision b)) in
  Ok (delete e h, b))).

Definition advanceEntity (h : heap) (b : t) : result (heap * t) :=
  let* e := getActiveEntity b in
  let* entity := deref (h !! e) in
  let* entity := charge entity in
  let h := <[e := entity]> h in
  let i := S (m_entityIndex b) in
  Ok (h, with_index b (if (length (m_entities b) <=? i)%nat then O else i)).
End Board.

Abbreviation Board := Board.t.
