(* ===== verification/Vision.v ===== *)
(** * Vision: what the field of vision computes

    Lemmas on [Board.vision_step], the callback that [Board::getVision] gives
    to the trie walk: the matrix it fills stays in range and only grows, it
    depends on the map through the flags of the tiles it visits, and a tile
    that ends up unseen was never read. *)

From S2P Require Import Prelude.
From S2P Require Import Base.
From S2P Require Import Geo.
From S2P Require Import Los.
From S2P Require Import Fov.
From S2P Require Import Entity.
From S2P Require Import Timers.
From S2P Require Import Board.

(** The matrix of a [Vision]: a square of side [2 * kFOVRadius + 1] around
    the entity, with -1 outside. *)
Definition side : Point := Point.mk (2 * kFOVRadius + 1) (2 * kFOVRadius + 1).
Definition vis_shape (v : Matrix Z) : Prop :=
  Matrix.wf v /\ Matrix.m_size v = side /\ Matrix.m_init v = -1.

Definition blank : Matrix Z := Matrix.mk side (-1) (replicate 961 (-1)).

(** The vision computed afresh for an entity at [pos]. *)
Definition fresh_vision (f : FOV.t) (m : Matrix Tile) (pos : Point) : result (Matrix Z) :=
  FOV.fieldOfVision f (Board.vision_step m pos (Point.sub Board.radius_point pos)) blank.

Lemma blank_shape : vis_shape blank.
Proof. split; [|done]. split_and!; vm_compute; congruence. Qed.

Lemma make_blank : Matrix.make side (-1) = Ok blank.
Proof. reflexivity. Qed.

Lemma fill_blank v : vis_shape v -> Matrix.fill v (-1) = blank.
Proof.
  destruct v as [s i d]. intros ((_ & _ & Hlen) & Hs & Hi); simpl in *. subst.
  unfold Matrix.fill, blank. cbn [Matrix.m_size Matrix.m_init Matrix.m_data]. f_equal.
  apply list_eq_same_length with 961%nat.
  - by rewrite length_replicate.
  - rewrite length_fmap. unfold side, kFOVRadius in Hlen. simpl in Hlen. lia.
  - intros k x y _ Hx Hy. rewrite list_lookup_fmap in Hx.
    apply lookup_replicate in Hy as [-> _]. apply fmap_Some in Hx as (? & _ & ->). done.
Qed.

Lemma set_shape v p z : vis_shape v -> vis_shape (Matrix.set v p z).
Proof.
  intros (Hwf & Hs & Hi). split; [by apply Matrix.set_wf|].
  by rewrite Matrix.set_size, Matrix.set_init.
Qed.

(** Keys of the square, relative to the entity. *)
Lemma key_contains v p :
  vis_shape v -> Point.lenWalking p <= kFOVRadius ->
  Matrix.contains v (Point.add p Board.radius_point) = true.
Proof.
  intros (_ & Hs & _) Hp. apply Matrix.contains_spec. rewrite Hs.
  unfold Point.lenWalking, side, kFOVRadius in *. simpl. unfold kFOVRadius. lia.
Qed.

Lemma add_key pos p :
  Point.add (Point.add p pos) (Point.sub Board.radius_point pos) = Point.add p Board.radius_point.
Proof. apply Point.eq_iff. simpl. lia. Qed.

(** ** The step relative to the entity

    [tile] gives the tile at a relative position. *)
Definition light_at (tile : Point -> Tile) (v : Matrix Z) (p : Point) (parent : option Point) : Z :=
  match parent with
  | None => 234
  | Some parent =>
      if has_flag (tile p) FlagBlocked then 0 else
      let loss :=
        if has_flag (tile p) FlagObscure
        then 95 + (if negb (Point.x p =? Point.x parent) && negb (Point.y p =? Point.y parent)
                   then 46 else 0)
        else 0 in
      Z.max (Matrix.get v (Point.add parent Board.radius_point) - loss) 0
  end.

Definition light_step (tile : Point -> Tile) (v : Matrix Z) (p : Point) (parent : option Point)
    : Matrix Z * bool :=
  let l := light_at tile v p parent in
  let key := Point.add p Board.radius_point in
  (Matrix.set v key (Z.max l (Matrix.get v key)), l <=? 0).

Lemma vision_step_light m pos v p parent :
  Board.vision_step m pos (Point.sub Board.radius_point pos) v p parent =
  light_step (fun p => Matrix.get m (Point.add p pos)) v p parent.
Proof.
  unfold Board.vision_step, light_step, light_at. rewrite add_key.
  destruct parent as [par|]; [|done]. by rewrite add_key.
Qed.

(** Two maps whose flags agree at [p] give the same step. *)
Lemma light_step_ext t1 t2 v p parent :
  Z.land (flags (t1 p)) (Z.lor FlagBlocked FlagObscure) =
    Z.land (flags (t2 p)) (Z.lor FlagBlocked FlagObscure) ->
  light_step t1 v p parent = light_step t2 v p parent.
Proof.
  intros Heq.
  assert (Hf : forall k, k = FlagBlocked \/ k = FlagObscure ->
    has_flag (t1 p) k = has_flag (t2 p) k).
  { intros k Hk. unfold has_flag. f_equal. f_equal.
    replace k with (Z.land (Z.lor FlagBlocked FlagObscure) k) by (destruct Hk as [->| ->]; done).
    by rewrite !Z.land_assoc, Heq. }
  unfold light_step, light_at. destruct parent as [par|]; [|done].
  by rewrite !Hf by auto.
Qed.

(** ** What a step does to the matrix *)
Section step.
Context (tile : Point -> Tile).

Definition bounded (v : Matrix Z) : Prop := forall p, -1 <= Matrix.get v p <= 234.

Lemma blank_get p : Matrix.get blank p = -1.
Proof. apply (Matrix.get_make side). apply make_blank. Qed.

Lemma light_at_bounds v p parent :
  bounded v -> 0 <= light_at tile v p parent <= 234.
Proof.
  intros Hb. unfold light_at. destruct parent as [par|]; [|lia].
  specialize (Hb (Point.add par Board.radius_point)). repeat case_match; lia.
Qed.

Lemma step_get v p parent v' b q :
  vis_shape v -> Point.lenWalking p <= kFOVRadius ->
  light_step tile v p parent = (v', b) ->
  Matrix.get v' q =
    if bool_decide (q = Point.add p Board.radius_point)
    then Z.max (light_at tile v p parent) (Matrix.get v q) else Matrix.get v q.
Proof.
  intros Hs Hp [= <- _]. destruct Hs as (Hwf & Hsz & Hi) eqn:Hs'.
  rewrite Matrix.get_set, key_contains by done. rewrite andb_true_r.
  case_bool_decide as H1; case_bool_decide as H2; subst; done.
Qed.

(** A step keeps the shape and the bounds, never lowers a cell, and leaves
    the cell it visits visible. *)
Lemma step_effect v p parent v' b :
  vis_shape v -> bounded v -> Point.lenWalking p <= kFOVRadius ->
  light_step tile v p parent = (v', b) ->
  vis_shape v' /\ bounded v' /\
  (forall q, Matrix.get v q <= Matrix.get v' q) /\
  0 <= Matrix.get v' (Point.add p Board.radius_point).
Proof.
  intros Hs Hb Hp Hstep.
  pose proof (light_at_bounds v p parent Hb).
  split; [injection Hstep as <- _; by apply set_shape|].
  split_and!.
  - intros q. rewrite (step_get v p parent v' b q) by done. specialize (Hb q).
    case_bool_decide; lia.
  - intros q. rewrite (step_get v p parent v' b q) by done. case_bool_decide; lia.
  - rewrite (step_get v p parent v' b _) by done. rewrite bool_decide_true by done. lia.
Qed.
End step.

(** ** The walk *)

(** A node of a trie of the radius of the board. *)
Definition node_ok (n : FOVNode) : Prop := trie_wf kFOVRadius (Point.lenWalking (node_point n)) n.
Definition fov_ok (f : FOV.t) : Prop := fov_root kFOVRadius (FOV.root f).

Lemma wf_node_ok d n : trie_wf kFOVRadius d n -> node_ok n.
Proof. intros H. unfold node_ok. by rewrite (wf_dist _ _ _ H). Qed.

Lemma node_ok_dist n : node_ok n -> Point.lenWalking (node_point n) <= kFOVRadius.
Proof. intros []. lia. Qed.

Lemma node_ok_children n : node_ok n -> Forall node_ok (node_children n).
Proof.
  intros [_ _ _ Hc]. apply Forall_forall. intros c (_ & _ & Hwf)%Hc. by eapply wf_node_ok.
Qed.

Lemma fov_ok_root f : fov_ok f -> node_ok (FOV.root f).
Proof. intros (H & _). by eapply wf_node_ok. Qed.

Lemma queue_step n q (b : bool) :
  Forall node_ok (n :: q) -> Forall node_ok (if b then q else q ++ node_children n).
Proof.
  intros [Hn Hq]%Forall_cons. destruct b; [done|].
  apply Forall_app. split; [done|by apply node_ok_children].
Qed.

#[export] Hint Resolve node_ok_dist queue_step : tty.

(** Two callbacks that are the same function. *)
Lemma fieldOfVision_ext {S} f (b1 b2 : S -> Point -> option Point -> S * bool) s :
  (forall s p parent, b1 s p parent = b2 s p parent) ->
  FOV.fieldOfVision f b1 s = FOV.fieldOfVision f b2 s.
Proof.
  intros Hext. unfold FOV.fieldOfVision.
  rewrite (fov_loop_ext b2 b1 (fun _ _ => True)); [done|done|].
  intros n q st s' b _ Hb. by rewrite Hext.
Qed.

Lemma fresh_vision_light f m pos :
  fresh_vision f m pos =
    FOV.fieldOfVision f (light_step (fun p => Matrix.get m (Point.add p pos))) blank.
Proof. apply fieldOfVision_ext. intros. apply vision_step_light. Qed.

Section light_walk.
Context (tile : Point -> Tile).

(** The matrix during the walk, and what the rest of the walk does to it. *)
Definition vis_inv (q : list FOVNode) (v : Matrix Z) : Prop :=
  Forall node_ok q /\ vis_shape v /\ bounded v.

Lemma vis_inv_step n q v v' b :
  vis_inv (n :: q) v -> light_step tile v (node_point n) (node_parent n) = (v', b) ->
  vis_inv (if b then q else q ++ node_children n) v' /\
  (forall k, Matrix.get v k <= Matrix.get v' k) /\
  0 <= Matrix.get v' (Point.add (node_point n) Board.radius_point).
Proof.
  intros (Hq & Hs & Hb) Hstep. pose proof Hq as [Hn _]%Forall_cons.
  destruct (step_effect tile v (node_point n) (node_parent n) v' b) as (? & ? & ? & ?);
    [done|done|by apply node_ok_dist|done|].
  split; [|done]. split; [by apply queue_step|done].
Qed.

Lemma vis_inv_start f : fov_ok f -> vis_inv [FOV.root f] blank.
Proof.
  intros Hf. split; [|split; [apply blank_shape|]].
  - apply Forall_singleton. by apply fov_ok_root.
  - intros p. rewrite blank_get. lia.
Qed.

Lemma light_walk_inv f :
  fov_ok f -> exists v, FOV.fieldOfVision f (light_step tile) blank = Ok v /\
    vis_shape v /\ bounded v.
Proof.
  intros Hf. destruct (fieldOfVision_rule (light_step tile) vis_inv f blank) as (v & Hv & _ & H).
  - by apply vis_inv_start.
  - intros n q s s' b Hinv Hstep. by apply (vis_inv_step n q s s' b).
  - by exists v.
Qed.

(** Nothing that was seen is forgotten. *)
Lemma light_loop_mono fuel cache i v v' cache' k :
  vis_inv (drop i cache) v ->
  FOV.fov_loop (light_step tile) fuel cache i v = Ok (v', cache') ->
  Matrix.get v k <= Matrix.get v' k.
Proof.
  revert cache i v. induction fuel as [|fuel IH]; intros cache i v Hinv Hrun;
    destruct (fov_loop_ok _ _ _ _ _ _ Hrun) as [[_ [= -> ->]]|(? & n & [= <-] & Hn)]; try lia.
  destruct (light_step tile v (node_point n) (node_parent n)) as [v1 b] eqn:Hstep.
  rewrite (fov_loop_next _ _ _ _ _ n v1 b) in Hrun by done.
  rewrite (drop_S _ n) in Hinv by done.
  destruct (vis_inv_step _ _ _ _ _ Hinv Hstep) as (Hinv' & Hmono & _).
  etrans; [apply Hmono|]. eapply IH; [|exact Hrun]. by rewrite drop_next.
Qed.
End light_walk.

(** Changing the tile at a relative position [c] that ends up unseen changes
    nothing: the walk never read it. *)
Lemma light_loop_stale t1 t2 c fuel cache i v v' cache' :
  (forall p, p <> c -> Z.land (flags (t1 p)) (Z.lor FlagBlocked FlagObscure) =
                    Z.land (flags (t2 p)) (Z.lor FlagBlocked FlagObscure)) ->
  vis_inv (drop i cache) v ->
  FOV.fov_loop (light_step t1) fuel cache i v = Ok (v', cache') ->
  Matrix.get v' (Point.add c Board.radius_point) < 0 ->
  FOV.fov_loop (light_step t2) fuel cache i v = Ok (v', cache').
Proof.
  intros Hsame Hinv Hrun Hdark. revert cache i v Hinv Hrun.
  induction fuel as [|fuel IH]; intros cache i v Hinv Hrun;
    destruct (fov_loop_ok _ _ _ _ _ _ Hrun) as [[Hge [= -> ->]]|(? & n & [= <-] & Hn)];
    try by rewrite fov_loop_end.
  destruct (light_step t1 v (node_point n) (node_parent n)) as [v1 b] eqn:Hstep.
  rewrite (fov_loop_next _ _ _ _ _ n v1 b) in Hrun by done.
  rewrite (drop_S _ n) in Hinv by done.
  destruct (vis_inv_step _ _ _ _ _ _ Hinv Hstep) as (Hinv' & _ & Hseen).
  rewrite <- (drop_next _ _ _ b Hn) in Hinv'.
  pose proof (light_loop_mono t1 _ _ _ _ _ _ (Point.add (node_point n) Board.radius_point)
    Hinv' Hrun).
  destruct (decide (node_point n = c)) as [Heq|Hne]; [rewrite Heq in *; lia|].
  rewrite (fov_loop_next _ _ _ _ _ n v1 b); [by apply IH|done|].
  rewrite <- Hstep. symmetry. apply light_step_ext. by apply Hsame.
Qed.

Lemma light_stale t1 t2 c f v :
  (forall p, p <> c -> Z.land (flags (t1 p)) (Z.lor FlagBlocked FlagObscure) =
                    Z.land (flags (t2 p)) (Z.lor FlagBlocked FlagObscure)) ->
  fov_ok f -> FOV.fieldOfVision f (light_step t1) blank = Ok v ->
  Matrix.get v (Point.add c Board.radius_point) < 0 ->
  FOV.fieldOfVision f (light_step t2) blank = Ok v.
Proof.
  intros Hsame Hf Hrun Hdark. unfold FOV.fieldOfVision in *. inv_ok.
  destruct x as [v1 cache']. simpl in *. 
  rewrite (light_loop_stale t1 t2 c _ _ _ _ v1 cache' Hsame); [done| |done|done].
  by apply vis_inv_start.
Qed.

(** ** Changing one tile of the map *)

Abbreviation mask := (Z.lor FlagBlocked FlagObscure).

(** A change of a tile that keeps its flags, or that is out of sight, keeps
    the vision. *)
Lemma fresh_vision_set f m pos p t v :
  fov_ok f -> Matrix.wf m -> fresh_vision f m pos = Ok v ->
  Z.land (flags (Matrix.get m p)) mask = Z.land (flags t) mask \/
  Matrix.get v (Point.add p (Point.sub Board.radius_point pos)) < 0 ->
  fresh_vision f (Matrix.set m p t) pos = Ok v.
Proof.
  rewrite !fresh_vision_light. intros Hf Hm Hrun [Hflags|Hdark].
  - rewrite <- Hrun. apply fieldOfVision_ext. intros s q parent. apply light_step_ext.
    rewrite Matrix.get_set by done. case_bool_decide as Heq; [|done].
    subst p. destruct (Matrix.contains m _); [by symmetry|done].
  - eapply (light_stale _ _ (Point.sub p pos)); [|done|done|].
    + intros q Hq. rewrite Matrix.get_set by done. rewrite bool_decide_false; [done|].
      intros Heq. apply Hq. rewrite Heq. by rewrite Point.add_sub.
    + replace (Point.add (Point.sub p pos) Board.radius_point) with
        (Point.add p (Point.sub Board.radius_point pos)); [done|].
      apply Point.eq_iff; simpl; lia.
Qed.

(** * a declarative reading of the field of vision

    The walk of [Board::getVision] updates one matrix while it prunes the
    trie, so what it computes could depend on the order of its steps. It does
    not: the final matrix solves the equations below, in which the light of a
    node is computed from the final light of its parent's cell, a node is lit
    when its parent lets light through, and a cell holds the largest light of
    the lit nodes on it. *)

Section light.
Context (tile : Point -> Tile) (root : FOVNode).

(** The light at a node, given the light of the cells. *)
Definition node_light (v : Matrix Z) (n : FOVNode) : Z :=
  light_at tile v (node_point n) (node_parent n).

Inductive lit (v : Matrix Z) : FOVNode -> Prop :=
| lit_root : lit v root
| lit_child n c : lit v n -> 0 < node_light v n -> c ∈ node_children n -> lit v c.

Definition cell (v : Matrix Z) (p : Point) : Z := Matrix.get v (Point.add p Board.radius_point).

(** The equations: a lit node's cell is at least as bright as the node, and
    a cell is either dark or exactly as bright as some lit node on it. *)
Record light_solution (v : Matrix Z) : Prop := {
  solution_lower : forall n, lit v n -> node_light v n <= cell v (node_point n);
  solution_attained : forall p, cell v p = -1 \/
    exists n, lit v n /\ node_point n = p /\ cell v p = node_light v n }.

Definition depth (n : FOVNode) : Z := Point.lenWalking (node_point n).

(** A node of the trie knows its parent. *)
Definition node_in (n : FOVNode) : Prop :=
  node_ok n /\ forall pp, node_parent n = Some pp -> Point.lenWalking pp + 1 = depth n.

Lemma node_in_child n c : node_in n -> c ∈ node_children n -> node_in c /\ depth c = depth n + 1.
Proof.
  intros [Hn _] Hc. destruct (wf_child _ _ _ Hn c Hc) as (Hpar & _ & Hwf).
  pose proof (wf_dist _ _ _ Hwf) as Hd. split; [split; [by eapply wf_node_ok|]|done].
  intros pp. rewrite Hpar. intros [= <-]. unfold depth. lia.
Qed.

Context (Hroot : fov_root kFOVRadius root).

Lemma root_in : node_in root /\ depth root = 0.
Proof using Hroot.
  destruct Hroot as (Hwf & Hp & Hpar). split; [split; [by eapply wf_node_ok|]|].
  - by rewrite Hpar.
  - unfold depth. by rewrite Hp.
Qed.

Lemma lit_in v n : lit v n -> node_in n.
Proof using Hroot.
  induction 1 as [|n c _ IH _ Hc]; [apply root_in|]. by apply (node_in_child n).
Qed.

(** The light of a node depends on the cells one step nearer only. *)
Lemma node_light_frame v v' n k :
  node_in n -> depth n <= k ->
  (forall p, Point.lenWalking p < k -> cell v' p = cell v p) ->
  node_light v' n = node_light v n.
Proof.
  intros [_ Hpar] Hk Hframe. unfold node_light, light_at.
  destruct (node_parent n) as [pp|]; [|done].
  specialize (Hpar pp eq_refl). unfold cell in Hframe. by rewrite Hframe by lia.
Qed.

Lemma lit_frame v v' n k :
  lit v n -> depth n <= k + 1 ->
  (forall p, Point.lenWalking p < k -> cell v' p = cell v p) -> lit v' n.
Proof using Hroot.
  intros Hlit Hk Hframe. induction Hlit as [|n c Hn IH Hpos Hc]; [constructor|].
  pose proof (lit_in _ _ Hn) as Hin. destruct (node_in_child n c Hin Hc) as [_ Hd].
  apply (lit_child _ n); [apply IH; lia| |done].
  by rewrite (node_light_frame v v' n k) by (done || lia).
Qed.

(** The invariant of the walk. [ds] are the nodes that were processed, in
    order of distance; [k] is the distance of the head of the queue. *)
Record walk_inv (q : list FOVNode) (v : Matrix Z) (ds : list FOVNode) (k : Z) : Prop := {
  wi_vis : vis_inv q v;
  wi_root : root ∈ ds ++ q;
  wi_lit : forall n, n ∈ ds ++ q -> lit v n;
  wi_closed : forall n c, n ∈ ds -> 0 < node_light v n -> c ∈ node_children n -> c ∈ ds ++ q;
  wi_done : forall n, n ∈ ds -> depth n <= k;
  wi_queue : exists cur next, q = cur ++ next /\ Forall (fun n => depth n = k) cur /\
    Forall (fun n => depth n = k + 1) next;
  wi_lower : forall n, n ∈ ds -> node_light v n <= cell v (node_point n);
  wi_attained : forall p, cell v p = -1 \/
    exists n, n ∈ ds /\ node_point n = p /\ cell v p = node_light v n }.

Definition walked (q : list FOVNode) (v : Matrix Z) : Prop := exists ds k, walk_inv q v ds k.

(** The head of a non-empty queue can be taken to be at distance [k]. *)
Lemma walk_inv_head n q v ds k :
  walk_inv (n :: q) v ds k ->
  exists k', walk_inv (n :: q) v ds k' /\ depth n = k' /\
    exists cur next, q = cur ++ next /\ Forall (fun n => depth n = k') cur /\
      Forall (fun n => depth n = k' + 1) next.
Proof.
  intros Hw. destruct (wi_queue _ _ _ _ Hw) as (cur & next & Hq & Hcur & Hnext).
  destruct cur as [|n' cur].
  - simpl in Hq. subst next. exists (k + 1). apply Forall_cons in Hnext as [Hn Hnext].
    split; [|split; [done|]].
    + destruct Hw. constructor; try done.
      * intros m Hm. specialize (wi_done0 m Hm). lia.
      * exists (n :: q), []. rewrite app_nil_r. split; [done|]. by split; [constructor|].
    + exists q, []. rewrite app_nil_r. by split_and!.
  - injection Hq as <- Hq. apply Forall_cons in Hcur as [Hn Hcur]. exists k.
    split; [done|]. split; [done|]. by exists cur, next.
Qed.

(** One step of the walk, on the cells. *)
Lemma step_cell v n v' b q :
  vis_inv (n :: q) v -> light_step tile v (node_point n) (node_parent n) = (v', b) ->
  b = (node_light v n <=? 0) /\
  forall p, cell v' p =
    if bool_decide (p = node_point n) then Z.max (node_light v n) (cell v p) else cell v p.
Proof.
  intros ([Hn _]%Forall_cons & Hs & _) Hstep. split; [by injection Hstep|].
  intros p. unfold cell. rewrite (step_get tile v (node_point n) (node_parent n) v' b)
    by auto with tty.
  case_bool_decide as H1; case_bool_decide as H2; try done.
  - by apply Point.add_inj_r in H1.
  - by subst.
Qed.

(** One step from a state of the walk whose head is at distance [k]. *)
Section step.
Context (n : FOVNode) (q : list FOVNode) (v v' : Matrix Z) (ds : list FOVNode) (k : Z) (b : bool).
Context (Hw : walk_inv (n :: q) v ds k) (Hk : depth n = k).
Context (Hsplit : exists cur next, q = cur ++ next /\ Forall (fun n => depth n = k) cur /\
    Forall (fun n => depth n = k + 1) next).
Context (Hstep : light_step tile v (node_point n) (node_parent n) = (v', b)).

Lemma head_cell : b = (node_light v n <=? 0) /\
  forall p, cell v' p =
    if bool_decide (p = node_point n) then Z.max (node_light v n) (cell v p) else cell v p.
Proof using Hw Hstep. eapply step_cell; [|done]. by destruct Hw. Qed.

Lemma head_frame p : Point.lenWalking p < k -> cell v' p = cell v p.
Proof using Hw Hk Hstep.
  intros Hp. rewrite (proj2 head_cell), bool_decide_false; [done|].
  intros ->. unfold depth in Hk. lia.
Qed.

Lemma head_light m : m ∈ ds \/ m = n -> node_light v' m = node_light v m.
Proof using Hroot Hw Hk Hsplit Hstep.
  intros Hm. apply (node_light_frame _ _ _ k); [| |apply head_frame].
  - eapply lit_in, (wi_lit _ _ _ _ Hw). destruct Hm as [?| ->]; set_solver.
  - destruct Hm as [Hm| ->]; [|lia]. by apply (wi_done _ _ _ _ Hw).
Qed.

Lemma head_depth m : m ∈ ds ++ n :: q -> depth m <= k + 1.
Proof using Hw Hk Hsplit.
  destruct Hsplit as (cur & next & -> & Hcur & Hnext). rewrite Forall_forall in Hcur, Hnext.
  rewrite elem_of_app, elem_of_cons, elem_of_app.
  intros [Hm|[->|[Hm|Hm]]]; [|lia|specialize (Hcur m Hm); lia|specialize (Hnext m Hm); lia].
  pose proof (wi_done _ _ _ _ Hw m Hm). lia.
Qed.

Lemma head_lit m : m ∈ ds ++ n :: q -> lit v' m.
Proof using Hroot Hw Hk Hsplit Hstep.
  intros Hm. apply (lit_frame v _ _ k); [by apply (wi_lit _ _ _ _ Hw)|by apply head_depth|].
  apply head_frame.
Qed.

(** The nodes known after the step: those known before and, when the
    head lets light through, its children. *)
Lemma head_members m :
  m ∈ (ds ++ [n]) ++ (if b then q else q ++ node_children n) <->
  m ∈ ds ++ n :: q \/ (0 < node_light v n /\ m ∈ node_children n).
Proof using Hw Hstep.
  destruct head_cell as [Hb _]. destruct b; symmetry in Hb; bools.
  - rewrite <- app_assoc. simpl. split; [by left|]. intros [?|[? ?]]; [done|lia].
  - rewrite !elem_of_app, !elem_of_cons, elem_of_nil. tauto.
Qed.

Lemma head_attained p : cell v' p = -1 \/
  exists m, m ∈ ds ++ [n] /\ node_point m = p /\ cell v' p = node_light v' m.
Proof using Hroot Hw Hk Hsplit Hstep.
  destruct (wi_vis _ _ _ _ Hw) as (_ & _ & Hbd).
  pose proof (light_at_bounds tile v (node_point n) (node_parent n) Hbd) as Hn.
  rewrite (proj2 head_cell).
  assert (Hold : cell v p = -1 \/
    exists m, m ∈ ds ++ [n] /\ node_point m = p /\ cell v p = node_light v' m).
  { destruct (wi_attained _ _ _ _ Hw p) as [?|(m & Hm & Hp & Hv)]; [by left|]. right.
    exists m. rewrite head_light by auto. split_and!; [set_solver|done|done]. }
  case_bool_decide as Hp; [|done]. unfold node_light in *.
  destruct (decide (cell v p <= light_at tile v (node_point n) (node_parent n))) as [Hle|Hgt].
  - right. exists n. split_and!; [set_solver|done|]. fold (node_light v' n).
    rewrite head_light by auto. unfold node_light. lia.
  - rewrite Z.max_r by lia. done.
Qed.

Lemma head_step : walk_inv (if b then q else q ++ node_children n) v' (ds ++ [n]) k.
Proof using All.
  destruct Hw as [Hvis Hrt Hlit Hclosed Hdone _ Hlower _]. constructor.
  - by eapply (vis_inv_step tile).
  - apply head_members. by left.
  - intros m [Hm|[Hpos Hm]]%head_members; [by apply head_lit|].
    apply (lit_child _ n); [apply head_lit; set_solver| |done]. by rewrite head_light by auto.
  - intros m c [Hm|Hm%list_elem_of_singleton]%elem_of_app Hpos Hc; apply head_members.
    + rewrite head_light in Hpos by auto. left. by apply (Hclosed m).
    + subst m. rewrite head_light in Hpos by auto. by right.
  - intros m [Hm|Hm%list_elem_of_singleton]%elem_of_app; [by apply Hdone|]. subst m. lia.
  - destruct Hsplit as (cur & next & -> & Hcur & Hnext).
    exists cur, (if b then next else next ++ node_children n).
    split_and!; [destruct b; [done|by rewrite app_assoc]|done|].
    destruct b; [done|]. apply Forall_app. split; [done|]. apply Forall_forall.
    intros c Hc. destruct (node_in_child n c) as [_ ->]; [|done|lia].
    eapply lit_in, Hlit. set_solver.
  - intros m Hm. rewrite head_light, (proj2 head_cell) by set_solver.
    apply elem_of_app in Hm as [Hm|Hm%list_elem_of_singleton].
    + specialize (Hlower m Hm). case_bool_decide; lia.
    + subst m. rewrite bool_decide_true by done. lia.
  - apply head_attained.
Qed.
End step.

Lemma walked_step n q v v' b :
  walked (n :: q) v -> light_step tile v (node_point n) (node_parent n) = (v', b) ->
  walked (if b then q else q ++ node_children n) v'.
Proof using Hroot.
  intros (ds & k0 & (k & Hw & Hk & Hsplit)%walk_inv_head) Hstep.
  exists (ds ++ [n]), k. by eapply head_step.
Qed.

Lemma walked_start : walked [root] blank.
Proof using Hroot.
  exists [], 0. constructor; simpl.
  - split; [|split; [apply blank_shape|]].
    + apply Forall_singleton. apply root_in.
    + intros p. rewrite blank_get. lia.
  - set_solver.
  - intros n ->%list_elem_of_singleton. constructor.
  - by intros ? ? ?%elem_of_nil.
  - by intros ? ?%elem_of_nil.
  - exists [root], []. split_and!; [done| |done]. apply Forall_singleton. apply root_in.
  - by intros ? ?%elem_of_nil.
  - intros p. left. apply blank_get.
Qed.

(** When the queue is empty every lit node was processed. *)
Lemma walked_end v : walked [] v -> light_solution v.
Proof using.
  intros (ds & k & [_ Hrt Hlit Hclosed _ _ Hlower Hatt]).
  rewrite app_nil_r in Hrt. setoid_rewrite app_nil_r in Hclosed.
  setoid_rewrite app_nil_r in Hlit. split.
  - intros n Hn. apply Hlower. induction Hn as [|n c _ IH Hpos Hc]; [done|].
    by apply (Hclosed n c).
  - intros p. destruct (Hatt p) as [?|(n & Hn & ? & ?)]; [by left|]. right.
    exists n. auto.
Qed.
End light.

(** The walk computes a solution of the equations. *)
Lemma light_walk_solution tile f :
  fov_ok f -> exists v, FOV.fieldOfVision f (light_step tile) blank = Ok v /\
    vis_shape v /\ bounded v /\ light_solution tile (FOV.root f) v.
Proof.
  intros Hf. destruct (fieldOfVision_rule (light_step tile)
    (walked tile (FOV.root f)) f blank) as (v & Hv & Hend).
  - by apply walked_start.
  - intros n q s s' b Hinv Hstep. by apply (walked_step tile _ Hf n q s s').
  - destruct (light_walk_inv tile f Hf) as (v' & Hv' & ? & ?).
    rewrite Hv in Hv'. injection Hv' as <-. exists v. split_and!; try done. by apply walked_end.
Qed.

(** The equations have at most one solution: the cells of two solutions agree,
    by induction on the distance. *)
Lemma solution_le tile root v1 v2 d :
  fov_root kFOVRadius root -> light_solution tile root v1 -> light_solution tile root v2 ->
  (forall p, Point.lenWalking p < d -> cell v1 p = cell v2 p) ->
  forall p, Point.lenWalking p = d -> cell v1 p <= cell v2 p.
Proof.
  intros Hroot [_ Hatt1] [Hlow2 Hatt2] Hframe p Hp.
  destruct (Hatt1 p) as [->|(n & Hn & <- & ->)].
  - destruct (Hatt2 p) as [->|(m & _ & _ & ->)]; [lia|].
    unfold node_light, light_at. repeat case_match; lia.
  - pose proof (lit_in tile root Hroot _ _ Hn) as Hin.
    rewrite (node_light_frame tile v2 v1 n d); [|done|unfold depth; lia|done].
    apply Hlow2. apply (lit_frame tile root Hroot v1 v2 n d); [done|unfold depth; lia|].
    intros q Hq. symmetry. by apply Hframe.
Qed.

Lemma light_solution_unique tile root v1 v2 p :
  fov_root kFOVRadius root -> light_solution tile root v1 -> light_solution tile root v2 ->
  cell v1 p = cell v2 p.
Proof.
  intros Hroot H1 H2. remember (Z.to_nat (Point.lenWalking p)) as d eqn:Hd.
  revert p Hd. induction d as [d IH] using lt_wf_ind. intros p Hd.
  assert (0 <= Point.lenWalking p) by (unfold Point.lenWalking; lia).
  assert (Hframe : forall q, Point.lenWalking q < Point.lenWalking p -> cell v1 q = cell v2 q).
  { intros q Hq. assert (0 <= Point.lenWalking q) by (unfold Point.lenWalking; lia).
    apply (IH (Z.to_nat (Point.lenWalking q))); lia. }
  apply Z.le_antisymm.
  - by apply (solution_le tile root v1 v2 (Point.lenWalking p)).
  - apply (solution_le tile root v2 v1 (Point.lenWalking p)); try done.
    intros q Hq. symmetry. by apply Hframe.
Qed.
