(* ===== verification/BoardInv.v ===== *)
(** * BoardInv: the invariant of the board

    [board_wf] relates the heap and the board: [m_entityAtPos] and the
    positions of the listed entities are inverse to each other, and every
    cached vision that is not marked dirty is the one that would be computed
    afresh. The operations of the board preserve it. *)

From S2P Require Import Prelude.
From S2P Require Import Base.
From S2P Require Import Geo.
From S2P Require Import Los.
From S2P Require Import Fov.
From S2P Require Import Entity.
From S2P Require Import Timers.
From S2P Require Import Board.
From S2P Require Import Vision.

(** A vision that may be used without recomputing it. *)
Definition vision_fresh (b : Board) (entity : Entity) (v : Vision) : Prop :=
  offset v = Point.sub Board.radius_point (pos entity) /\
  fresh_vision (Board.m_fov b) (Board.m_map b) (pos entity) = Ok (visibility v).

Record board_wf (h : heap) (b : Board) : Prop := {
  bw_fov : fov_ok (Board.m_fov b);
  bw_map : Matrix.wf (Board.m_map b);
  bw_edge : has_flag (Matrix.m_init (Board.m_map b)) FlagBlocked = true;
  bw_nodup : NoDup (Board.m_entities b);
  bw_index : (Board.m_entityIndex b < length (Board.m_entities b))%nat \/
    Board.m_entityIndex b = O /\ Board.m_entities b = [];
  bw_pos : forall p e, Board.m_entityAtPos b !! p = Some e ->
    e ∈ Board.m_entities b /\ exists entity, h !! e = Some entity /\ pos entity = p;
  bw_live : forall e, e ∈ Board.m_entities b ->
    exists entity, h !! e = Some entity /\ Board.m_entityAtPos b !! pos entity = Some e;
  bw_vision : forall e v, Board.m_vision b !! e = Some v ->
    e ∈ Board.m_entities b /\ vis_shape (visibility v) /\
    (dirty v = false -> exists entity, h !! e = Some entity /\ vision_fresh b entity v) }.

(** No entity stands on a blocked tile. *)
Definition standing (h : heap) (b : Board) : Prop :=
  forall e entity, e ∈ Board.m_entities b -> h !! e = Some entity ->
    has_flag (Board.getTile b (pos entity)) FlagBlocked = false.

(** ** Reads *)

Lemma getStatus_free h b p :
  board_wf h b -> Board.getStatus b p = Free <->
    has_flag (Board.getTile b p) FlagBlocked = false /\ Board.m_entityAtPos b !! p = None.
Proof.
  intros _. unfold Board.getStatus. destruct (has_flag _ _); [naive_solver|].
  case_bool_decide as H.
  - split; [done|]. intros [_ Hn]. rewrite Hn in H. by destruct H.
  - split; [|done]. intros _. split; [done|]. by apply eq_None_not_Some.
Qed.

(** Outside the map everything is blocked. *)
Lemma getStatus_outside h b p :
  board_wf h b -> Matrix.contains (Board.m_map b) p = false -> Board.getStatus b p = Blocked.
Proof.
  intros Hwf Hp. unfold Board.getStatus, Board.getTile.
  rewrite Matrix.get_outside by done. by rewrite (bw_edge _ _ Hwf).
Qed.

(** An entity stands inside the map. *)
Lemma standing_inside h b e entity :
  board_wf h b -> standing h b -> e ∈ Board.m_entities b -> h !! e = Some entity ->
  Matrix.contains (Board.m_map b) (pos entity) = true.
Proof.
  intros Hwf Hst He Hh. specialize (Hst e entity He Hh).
  destruct (Matrix.contains _ _) eqn:Hc; [done|]. unfold Board.getTile in Hst.
  rewrite Matrix.get_outside, (bw_edge _ _ Hwf) in Hst by done. done.
Qed.

(** Two entities that are on the board are at different positions. *)
Lemma positions_distinct h b e1 e2 ent1 ent2 :
  board_wf h b -> e1 ∈ Board.m_entities b -> e2 ∈ Board.m_entities b ->
  h !! e1 = Some ent1 -> h !! e2 = Some ent2 -> pos ent1 = pos ent2 -> e1 = e2.
Proof.
  intros Hwf H1 H2 Hh1 Hh2 Hpos.
  destruct (bw_live _ _ Hwf e1 H1) as (? & Hh1' & Hp1).
  destruct (bw_live _ _ Hwf e2 H2) as (? & Hh2' & Hp2). simplify_eq. congruence.
Qed.

(** ** Updating an object without moving it *)

Lemma board_wf_heap h b e entity entity' :
  board_wf h b -> h !! e = Some entity -> pos entity' = pos entity ->
  board_wf (<[e := entity']> h) b.
Proof.
  intros [Hf Hm He Hn Hi Hp Hl Hv] Hh Hpos. constructor; try done.
  - intros p e' [Hin (ent & He' & Hpe)]%Hp. split; [done|]. rewrite lookup_insert.
    case_decide; simplify_eq; eauto.
  - intros e' (ent & He' & Hpe)%Hl. rewrite lookup_insert.
    case_decide; simplify_eq; [|eauto]. exists entity'. by rewrite Hpos.
  - intros e' v (Hin & Hs & Hfr)%Hv. split; [done|]. split; [done|]. intros Hd.
    destruct (Hfr Hd) as (ent & He' & Hfresh). rewrite lookup_insert.
    case_decide; simplify_eq; [|eauto]. exists entity'. split; [done|].
    unfold vision_fresh. by rewrite Hpos.
Qed.

Lemma standing_heap h b e entity entity' :
  standing h b -> h !! e = Some entity -> pos entity' = pos entity ->
  standing (<[e := entity']> h) b.
Proof.
  intros Hst Hh Hpos e' ent Hin. rewrite lookup_insert. case_decide; simplify_eq.
  - intros [= <-]. rewrite Hpos. by apply (Hst e').
  - by apply Hst.
Qed.

(** ** The cache *)

Lemma dirtyVision_fields b e target :
  Board.m_fov (Board.dirtyVision b e target) = Board.m_fov b /\
  Board.m_map (Board.dirtyVision b e target) = Board.m_map b /\
  Board.m_entities (Board.dirtyVision b e target) = Board.m_entities b /\
  Board.m_entityIndex (Board.dirtyVision b e target) = Board.m_entityIndex b /\
  Board.m_entityAtPos (Board.dirtyVision b e target) = Board.m_entityAtPos b.
Proof. unfold Board.dirtyVision. repeat case_match; done. Qed.

(** What [dirtyVision] does to the cache: the entry of [e] may get dirty, and
    stays clean only if [target] is out of its sight. *)
Lemma dirtyVision_lookup b e target e' v' :
  Board.m_vision (Board.dirtyVision b e target) !! e' = Some v' ->
  exists v, Board.m_vision b !! e' = Some v /\ offset v' = offset v /\
    visibility v' = visibility v /\
    (dirty v' = false -> dirty v = false /\
       (e' = e -> exists p, target = Some p /\ Board.canSee v p = false)).
Proof.
  unfold Board.dirtyVision. destruct (Board.m_vision b !! e) as [v|] eqn:Hv.
  2:{ intros H. exists v'. split_and!; try done. intros Hd. split; [done|]. intros ->. congruence. }
  destruct (dirty v) eqn:Hdirty.
  { intros H. exists v'. split_and!; try done. intros Hd. split; [done|]. intros ->. congruence. }
  destruct (match target with Some p => _ | None => _ end) eqn:Ht.
  - intros H. exists v'. split_and!; try done. intros Hd. split; [done|]. intros ->.
    destruct target as [p|]; [|done]. exists p. rewrite Hv in H. injection H as <-.
    by apply negb_true_iff in Ht.
  - simpl. rewrite lookup_insert. case_decide as Heq.
    + subst e'. intros [= <-]. simpl. by exists v.
    + intros H. exists v'. split_and!; [done..|]. intros Hd. split; [done|]. congruence.
Qed.

(** [getVision] fails for no entity on the board; it returns a clean vision
    that is the fresh one, and stores it. *)
Lemma getVision_ok h b e :
  board_wf h b -> e ∈ Board.m_entities b ->
  exists v entity,
    Board.getVision h b e = Ok (Board.with_vision b (<[e := v]> (Board.m_vision b)), v) /\
    h !! e = Some entity /\ dirty v = false /\ vis_shape (visibility v) /\ vision_fresh b entity v.
Proof.
  intros Hwf He. destruct (bw_live _ _ Hwf e He) as (entity & Hent & _).
  unfold Board.getVision.
  assert (exists v0, Board.vision_entry b e = Ok v0 /\ vis_shape (visibility v0) /\
      (dirty v0 = false -> vision_fresh b entity v0)) as (v0 & -> & Hshape & Hfr).
  { unfold Board.vision_entry. destruct (Board.m_vision b !! e) as [v0|] eqn:Hv.
    - destruct (bw_vision _ _ Hwf e v0 Hv) as (_ & Hs & Hfr). exists v0.
      split; [done|]. split; [done|]. intros Hd. destruct (Hfr Hd) as (ent & He' & ?).
      rewrite Hent in He'. by injection He' as <-.
    - exists (mkVision (Point.mk 0 0) true blank). split; [done|]. split; [apply blank_shape|done]. }
  cbn [rbind]. destruct (dirty v0) eqn:Hd.
  - rewrite Hent. cbn [deref rbind]. rewrite fill_blank by done.
    destruct (light_walk_inv (fun p => Matrix.get (Board.m_map b) (Point.add p (pos entity)))
      (Board.m_fov b) (bw_fov _ _ Hwf)) as (m & Hm & Hs & _).
    rewrite <- fresh_vision_light in Hm. pose proof Hm as Hm'. unfold fresh_vision in Hm'.
    rewrite Hm'. cbn [rbind]. eexists _, entity. split; [done|]. by split_and!.
  - exists v0, entity. split_and!; auto.
Qed.

Lemma board_wf_vision h b e v entity :
  board_wf h b -> e ∈ Board.m_entities b -> h !! e = Some entity ->
  vis_shape (visibility v) -> vision_fresh b entity v ->
  board_wf h (Board.with_vision b (<[e := v]> (Board.m_vision b))).
Proof.
  intros [Hf Hm He Hn Hi Hp Hl Hv] Hin Hh Hs Hfr. constructor; try done. simpl.
  intros e' v'. rewrite lookup_insert. case_decide; [|by apply Hv].
  intros [= <-]. subst e'. eauto.
Qed.

Lemma getVision_wf h b e b' v :
  board_wf h b -> e ∈ Board.m_entities b -> Board.getVision h b e = Ok (b', v) -> board_wf h b'.
Proof.
  intros Hwf He Hget.
  destruct (getVision_ok h b e Hwf He) as (v' & entity & Hget' & Hh & _ & Hs & Hfr).
  rewrite Hget in Hget'. injection Hget' as -> <-. by apply (board_wf_vision h b e v entity).
Qed.

(** ** Writes *)

(** Marking entries dirty is always allowed. *)
Definition cache_le (b b' : Board) : Prop :=
  Board.m_fov b' = Board.m_fov b /\ Board.m_map b' = Board.m_map b /\
  Board.m_entities b' = Board.m_entities b /\
  Board.m_entityIndex b' = Board.m_entityIndex b /\
  Board.m_entityAtPos b' = Board.m_entityAtPos b /\
  forall e v', Board.m_vision b' !! e = Some v' ->
    exists v, Board.m_vision b !! e = Some v /\ offset v' = offset v /\
      visibility v' = visibility v /\ (dirty v' = false -> dirty v = false).

#[export] Instance cache_le_preorder : PreOrder cache_le.
Proof.
  split.
  - intros b. split_and!; try done. intros e v Hv. exists v. by split_and!.
  - intros b1 b2 b3 (Hf & Hm & He & Hi & Hp & Hv) (Hf' & Hm' & He' & Hi' & Hp' & Hv').
    split_and!; try congruence. intros e v3 (v2 & H2 & Ho & Hs & Hd)%Hv'.
    apply Hv in H2 as (v1 & H1 & Ho' & Hs' & Hd'). exists v1.
    split_and!; [done|congruence|congruence|auto].
Qed.

Lemma dirtyVision_le b e target : cache_le b (Board.dirtyVision b e target).
Proof.
  destruct (dirtyVision_fields b e target) as (? & ? & ? & ? & ?). split_and!; try done.
  intros e' v' (v & ? & ? & ? & Hd)%dirtyVision_lookup. exists v. split_and!; try done.
  intros ?. by apply Hd.
Qed.

(** The loop of [setTile] over the entities. *)
Lemma dirty_all_le p es b :
  cache_le b (foldl (fun b e => Board.dirtyVision b e (Some p)) b es).
Proof.
  revert b. induction es as [|e es IH]; intros b; simpl; [done|].
  etrans; [apply dirtyVision_le|apply IH].
Qed.

Lemma dirty_all_unseen p es b e v :
  e ∈ es ->
  Board.m_vision (foldl (fun b e => Board.dirtyVision b e (Some p)) b es) !! e = Some v ->
  dirty v = false -> Board.canSee v p = false.
Proof.
  revert b. induction es as [|e' es IH]; intros b Hin Hv Hd; [by apply elem_of_nil in Hin|].
  simpl in Hv. destruct (decide (e = e')) as [<-|Hne].
  - destruct (dirty_all_le p es (Board.dirtyVision b e (Some p))) as (_ & _ & _ & _ & _ & Hle).
    destruct (Hle _ _ Hv) as (v1 & Hv1 & Ho & Hvis & Hd1).
    destruct (dirtyVision_lookup _ _ _ _ _ Hv1) as (v0 & _ & Ho0 & Hvis0 & Hd0).
    destruct (Hd0 (Hd1 Hd)) as [_ Hsee]. destruct (Hsee eq_refl) as (p' & [= <-] & Hc).
    unfold Board.canSee, Board.visibilityAt in *. by rewrite Hvis, Ho, Hvis0, Ho0.
  - apply (IH (Board.dirtyVision b e' (Some p))); [|done|done]. set_solver.
Qed.

(** The parts of the invariant that do not look at the cache. *)
Lemma board_wf_cache h b b' :
  board_wf h b -> cache_le b b' -> board_wf h b'.
Proof.
  intros [Hf Hm He Hn Hi Hp Hl Hv] (Hf' & Hm' & He' & Hi' & Hp' & Hv').
  constructor; rewrite ?Hf', ?Hm', ?He', ?Hi', ?Hp'; try done.
  intros e v' (v & (Hin & Hs & Hfr)%Hv & Ho & Hvis & Hd)%Hv'.
  split; [done|]. split; [by rewrite Hvis|]. intros (ent & Hh & [Ho1 Hr1])%Hd%Hfr.
  exists ent. split; [done|]. unfold vision_fresh. by rewrite Ho, Hvis, Hf', Hm'.
Qed.

Lemma board_wf_dirtyVision h b e target :
  board_wf h b -> board_wf h (Board.dirtyVision b e target).
Proof. intros Hwf. eapply board_wf_cache; [done|apply dirtyVision_le]. Qed.

Lemma setTile_fields b p t :
  Board.m_entities (Board.setTile b p t) = Board.m_entities b /\
  Board.m_entityAtPos (Board.setTile b p t) = Board.m_entityAtPos b /\
  Board.m_entityIndex (Board.setTile b p t) = Board.m_entityIndex b /\
  Board.m_fov (Board.setTile b p t) = Board.m_fov b /\
  Board.m_map (Board.setTile b p t) = Matrix.set (Board.m_map b) p t.
Proof.
  unfold Board.setTile. destruct (Matrix.contains _ _) eqn:Hc; simpl.
  2:{ unfold Matrix.set. by rewrite Hc. }
  case_match; [|done].
  destruct (dirty_all_le p (Board.m_entities b) (Board.with_map b (Matrix.set (Board.m_map b) p t)))
    as (? & ? & ? & ? & ? & _). split_and!; done.
Qed.

(** [setTile] keeps the cache coherent: a vision that stays clean cannot see
    the tile, or the change does not touch its flags. *)
Lemma setTile_wf h b p t : board_wf h b -> board_wf h (Board.setTile b p t).
Proof.
  intros Hwf. destruct (setTile_fields b p t) as (He' & Hp' & Hi' & Hf' & Hm').
  pose proof Hwf as [Hf Hm He Hn Hi Hp Hl Hv].
  constructor; rewrite ?He', ?Hp', ?Hi', ?Hf', ?Hm', ?Matrix.set_init; try done;
    [by apply Matrix.set_wf|].
  assert (Hkeep : forall e v v', Board.m_vision b !! e = Some v -> offset v' = offset v ->
    visibility v' = visibility v -> (dirty v' = false -> dirty v = false) ->
    (dirty v' = false ->
      Z.land (flags (Matrix.get (Board.m_map b) p)) mask = Z.land (flags t) mask \/
      Board.canSee v' p = false) ->
    e ∈ Board.m_entities b /\ vis_shape (visibility v') /\
    (dirty v' = false -> exists entity, h !! e = Some entity /\
      vision_fresh (Board.setTile b p t) entity v')).
  { intros e v v' (Hin & Hs & Hfr)%Hv Ho Hvis Hd Hor. split; [done|]. split; [by rewrite Hvis|].
    intros Hd'. destruct (Hfr (Hd Hd')) as (ent & Hh & [Ho1 Hr1]). exists ent. split; [done|].
    split; [by rewrite Ho|]. rewrite Hf', Hm', Hvis. apply fresh_vision_set; [done..|].
    destruct (Hor Hd') as [?|Hc]; [by left|]. right.
    unfold Board.canSee, Board.visibilityAt in Hc. rewrite Hvis, Ho, Ho1 in Hc. by bools. }
  intros e v'. unfold Board.setTile at 1.
  destruct (Matrix.contains (Board.m_map b) p) eqn:Hc; simpl.
  2:{ intros Hv'. destruct (Hv e v' Hv') as (Hin & Hs & Hfr). split; [done|]. split; [done|].
      intros (ent & Hh & [Ho1 Hr1])%Hfr. exists ent. split; [done|]. split; [done|].
      rewrite Hf', Hm'. unfold Matrix.set. by rewrite Hc. }
  case_match eqn:Hmask; simpl.
  - intros Hv'. destruct (dirty_all_le p (Board.m_entities b)
      (Board.with_map b (Matrix.set (Board.m_map b) p t))) as (_ & _ & _ & _ & _ & Hle).
    destruct (Hle _ _ Hv') as (v & Hv0 & Ho & Hvis & Hd). apply (Hkeep e v v'); try done.
    intros Hd'. right. eapply dirty_all_unseen; [|done|done]. by apply (Hv e v).
  - intros Hv'. apply (Hkeep e v' v'); try done. intros _. left. by bools.
Qed.

Lemma setTile_standing h b p t :
  board_wf h b -> standing h b -> has_flag t FlagBlocked = false -> standing h (Board.setTile b p t).
Proof.
  intros Hwf Hst Ht e entity. destruct (setTile_fields b p t) as (He & _ & _ & _ & Hm).
  unfold Board.getTile. rewrite He, Hm, Matrix.get_set by apply Hwf.
  intros. case_match; [done|]. by apply (Hst e).
Qed.

Lemma addEntity_ok h b e entity :
  board_wf h b -> h !! e = Some entity -> e ∉ Board.m_entities b ->
  Board.m_entityAtPos b !! pos entity = None ->
  exists b', Board.addEntity h b e = Ok b' /\ board_wf h b' /\
    Board.m_entities b' = Board.m_entities b ++ [e] /\ Board.m_map b' = Board.m_map b /\
    Board.m_entityAtPos b' = <[pos entity := e]> (Board.m_entityAtPos b).
Proof.
  intros [Hf Hm He Hn Hi Hp Hl Hv] Hh Hnew Hfree. unfold Board.addEntity. rewrite Hh. simpl.
  rewrite bool_decide_true by done. eexists. split; [done|]. split; [|done].
  constructor; simpl; try done.
  - apply NoDup_app. split; [done|]. split; [|apply NoDup_singleton].
    intros e' Hin ->%list_elem_of_singleton. done.
  - left. rewrite length_app. simpl. destruct Hi as [?|[-> ->]]; simpl; lia.
  - intros p e'. rewrite lookup_insert. case_decide.
    + intros [= <-]. split; [set_solver|eauto].
    + intros [? ?]%Hp. split; [set_solver|done].
  - intros e' [Hin| ->%list_elem_of_singleton]%elem_of_app.
    + destruct (Hl e' Hin) as (ent & ? & Hpe). exists ent. split; [done|].
      rewrite lookup_insert_ne; [done|]. congruence.
    + exists entity. split; [done|]. apply lookup_insert_eq.
  - intros e' v' (? & ? & ?)%Hv. split; [set_solver|done].
Qed.

(** Moving an entity to a free position: the other entities, the map and the
    order of the entities do not change. *)
Lemma moveEntity_ok h b e entity to :
  board_wf h b -> e ∈ Board.m_entities b -> h !! e = Some entity ->
  Board.m_entityAtPos b !! to = None ->
  exists b', Board.moveEntity h b e to = Ok (<[e := set_pos entity to]> h, b') /\
    board_wf (<[e := set_pos entity to]> h) b' /\
    Board.m_map b' = Board.m_map b /\ Board.m_entities b' = Board.m_entities b /\
    Board.m_entityIndex b' = Board.m_entityIndex b /\ Board.m_fov b' = Board.m_fov b /\
    Board.m_entityAtPos b' = <[to := e]> (delete (pos entity) (Board.m_entityAtPos b)).
Proof.
  intros Hwf Hin Hh Hfree. pose proof Hwf as [Hf Hm He Hn Hi Hp Hl Hv].
  destruct (Hl e Hin) as (ent & Hh' & Hpe). rewrite Hh in Hh'. injection Hh' as <-.
  unfold Board.moveEntity. rewrite Hh. simpl. rewrite Hpe.
  rewrite (bool_decide_true (is_Some _)) by eauto. rewrite (bool_decide_true (Some e = Some e)) by done.
  simpl. rewrite bool_decide_true.
  2:{ rewrite lookup_delete. by case_decide. }
  simpl. eexists. split; [done|].
  set (b1 := Board.with_entities b _ _).
  destruct (dirtyVision_fields b1 e None) as (Hf1 & Hm1 & He1 & Hi1 & Hp1).
  split; [|by rewrite Hm1, He1, Hi1, Hf1, Hp1].
  constructor; rewrite ?Hf1, ?Hm1, ?He1, ?Hi1, ?Hp1; simpl; try done.
  - intros p e'. rewrite lookup_insert. case_decide as Hpt.
    + intros [= <-]. split; [done|]. eexists. by rewrite lookup_insert_eq.
    + rewrite lookup_delete. case_decide as Hpp; [done|].
      intros Hpe'. pose proof (Hp _ _ Hpe') as (Hin' & ent & Hh' & Hpos'). split; [done|].
      rewrite lookup_insert_ne; [eauto|]. intros ->. simplify_eq.
  - intros e' Hin'. destruct (Hl e' Hin') as (ent & Hh' & Hpe').
    destruct (decide (e = e')) as [<-|Hne].
    + eexists. rewrite lookup_insert_eq. split; [done|]. simpl. apply lookup_insert_eq.
    + exists ent. rewrite lookup_insert_ne by done. split; [done|].
      rewrite lookup_insert_ne by congruence. rewrite lookup_delete_ne; [done|].
      intros Heq. rewrite Heq in Hpe. congruence.
  - intros e' v' (v & Hv1 & Ho & Hvis & Hd)%dirtyVision_lookup.
    destruct (Hv e' v Hv1) as (Hin' & Hs & Hfr). split; [done|]. split; [by rewrite Hvis|].
    intros Hd'. destruct (Hd Hd') as [Hd0 Hne].
    destruct (decide (e' = e)) as [->|Hne']; [by destruct (Hne eq_refl) as (? & ? & _)|].
    destruct (Hfr Hd0) as (ent & Hh' & [Ho1 Hr1]). exists ent.
    rewrite lookup_insert_ne by done. split; [done|]. split; [by rewrite Ho|].
    rewrite Hf1, Hm1, Hvis. done.
Qed.

Lemma moveEntity_standing h b e entity to b' :
  standing h b -> has_flag (Board.getTile b to) FlagBlocked = false ->
  Board.m_map b' = Board.m_map b -> Board.m_entities b' = Board.m_entities b ->
  standing (<[e := set_pos entity to]> h) b'.
Proof.
  intros Hst Hto Hm He e' ent. unfold Board.getTile. rewrite Hm, He, lookup_insert. intros Hin.
  case_decide as Heq; [|by apply Hst]. by intros [= <-].
Qed.

Lemma getActiveEntity_ok h b :
  board_wf h b -> Board.m_entities b <> [] ->
  exists e, Board.getActiveEntity b = Ok e /\ e ∈ Board.m_entities b /\
    Board.m_entities b !! Board.m_entityIndex b = Some e.
Proof.
  intros Hwf Hne. destruct (bw_index _ _ Hwf) as [Hi|[_ ?]]; [|done].
  destruct (lookup_lt_is_Some_2 _ _ Hi) as [e He]. exists e. unfold Board.getActiveEntity.
  rewrite (proj2 (Nat.ltb_lt _ _) Hi). simpl. rewrite He. split; [done|].
  split; [by eapply list_elem_of_lookup_2|done].
Qed.

(** The next index, in a cycle. *)
Definition next_index (b : Board) : nat :=
  if (length (Board.m_entities b) <=? S (Board.m_entityIndex b))%nat then O
  else S (Board.m_entityIndex b).

Lemma advanceEntity_ok h b e entity entity' :
  board_wf h b -> Board.getActiveEntity b = Ok e -> h !! e = Some entity ->
  charge entity = Ok entity' ->
  Board.advanceEntity h b = Ok (<[e := entity']> h, Board.with_index b (next_index b)).
Proof.
  intros Hwf He Hh Hc. unfold Board.advanceEntity. rewrite He. simpl. rewrite Hh. simpl.
  by rewrite Hc.
Qed.

Lemma board_wf_index h b :
  board_wf h b -> Board.m_entities b <> [] -> board_wf h (Board.with_index b (next_index b)).
Proof.
  intros [Hf Hm He Hn Hi Hp Hl Hv] Hne. constructor; try done. simpl. left.
  unfold next_index. destruct (_ <=? _)%nat eqn:E.
  - destruct (Board.m_entities b); [done|simpl; lia].
  - apply Nat.leb_gt in E. lia.
Qed.

Lemma charge_pos entity entity' : charge entity = Ok entity' -> pos entity' = pos entity.
Proof. unfold charge. intros H. by inv_ok. Qed.

Lemma wait_pos entity m t entity' : wait entity m t = Ok entity' -> pos entity' = pos entity.
Proof. unfold wait. intros H. by inv_ok. Qed.

(** ** The constructor *)

Lemma fov_make_ok : exists f, FOV.make kFOVRadius = Ok f /\ fov_ok f.
Proof.
  destruct (make_spec kFOVRadius) as (f & ? & _ & ? & _); [unfold kFOVRadius, max_radius; lia|]. eauto.
Qed.

Lemma tileType_hash : tileType ch_hash = Ok (mkTile (Wide ch_hash 16) FlagBlocked "a tree").
Proof. reflexivity. Qed.
Lemma tileType_dot : tileType ch_dot = Ok (mkTile (Wide_ ch_dot) FlagNone "grass").
Proof. reflexivity. Qed.
Lemma tileType_quote : tileType ch_quote = Ok (mkTile (Wide ch_quote 561) FlagObscure "tall grass").
Proof. reflexivity. Qed.

Lemma board_make_ok size :
  0 <= Point.x size -> 0 <= Point.y size ->
  exists b, Board.make size = Ok b /\ (forall h, board_wf h b) /\ Board.getSize b = size /\
    Board.m_entities b = [] /\ Board.m_entityAtPos b = ∅ /\ Board.m_vision b = ∅ /\
    Board.m_entityIndex b = O.
Proof.
  intros Hx Hy. unfold Board.make. destruct fov_make_ok as (f & -> & Hf).
  rewrite tileType_hash. cbn [rbind].
  destruct (Matrix.make_defined size (mkTile (Wide ch_hash 16) FlagBlocked "a tree") Hx Hy) as [m Hm].
  rewrite Hm. cbn [rbind]. eexists. split; [done|].
  destruct (Matrix.make_ok _ _ _ Hm) as (Hs & Hi & _).
  split; [|split; [done|by split_and!]].
  intros h. constructor; simpl; try done.
  - by eapply Matrix.make_wf.
  - by rewrite Hi.
  - constructor.
  - by right.
  - by intros e ?%elem_of_nil.
Qed.

Lemma make_fov size b : Board.make size = Ok b -> FOV.make kFOVRadius = Ok (Board.m_fov b).
Proof.
  unfold Board.make. generalize (FOV.make kFOVRadius). intros fov H. inv_ok. done.
Qed.

Lemma addEntity_fov h b e b' : Board.addEntity h b e = Ok b' -> Board.m_fov b' = Board.m_fov b.
Proof. unfold Board.addEntity. intros H. inv_ok. done. Qed.

Lemma make_tiles size b p : Board.make size = Ok b -> tileType ch_hash = Ok (Board.getTile b p).
Proof.
  unfold Board.make. intros H. inv_ok.
  match goal with Hm : Matrix.make _ _ = Ok _, Ht : tileType _ = Ok _ |- _ =>
    rewrite Ht; unfold Board.getTile; cbn [Board.m_map]; by rewrite (Matrix.get_make _ _ _ p Hm) end.
Qed.

(** [clearAllTiles] marks no vision dirty; it is called on boards without
    cached visions. *)
Lemma clearAllTiles_wf h b :
  board_wf h b -> Board.m_vision b = ∅ ->
  exists b' tile, Board.clearAllTiles b = Ok b' /\ board_wf h b' /\
    tileType ch_dot = Ok tile /\ b' = Board.with_map b (Matrix.fill (Board.m_map b) tile).
Proof.
  intros [Hf Hm He Hn Hi Hp Hl Hv] Hcache. unfold Board.clearAllTiles. rewrite tileType_dot.
  cbn [rbind]. eexists _, _. split; [done|]. split; [|done]. constructor; simpl; try done.
  - by apply Matrix.fill_wf.
  - intros e v. by rewrite Hcache.
Qed.
