(* ===== verification/Rules.v ===== *)
(** * Rules: chance, planning and acting (src/game.h, src/game.cpp)

    The program draws from [std::mt19937] through
    [std::uniform_int_distribution<>]; the standard does not fix the sequence
    of the distribution, so the model takes the generator as an instance of
    [RandomEngine] and relies on [RandomLaws]: a draw lies between the bounds
    of its distribution.

    [plan] chooses the action of an entity: a random step, or the pending
    input for the player. [act] applies an action to the board. *)

From S2P Require Import Prelude.
From S2P Require Import Base.
From S2P Require Import Geo.
From S2P Require Import Entity.
From S2P Require Import Timers.
From S2P Require Import Board.

(** ** The random number generator *)

Class RandomEngine (G : Type) := {
  (** [RNG(seed)] *)
  rng_seed : Z -> G;
  (** [uniform_int_distribution<>{a, b}(rng)]: the draw and the new state *)
  rng_uniform : Z -> Z -> G -> Z * G }.

Class RandomLaws (G : Type) `{RandomEngine G} :=
  uniform_range a b g : a <= b -> a <= fst (rng_uniform a b g) <= b.

(** A distribution object holds its bounds. *)
Definition distribution := (Z * Z)%type.

(** [die(n)] of src/game.cpp: [n] is a [size_t], so [n - 1] wraps. *)
Definition die (n : Z) : distribution := (0, i32 (u64 (n - 1))).

Definition roll {G} `{RandomEngine G} (d : distribution) (g : G) : Z * G :=
  rng_uniform (fst d) (snd d) g.

Lemma die_range {G} `{RandomLaws G} n g :
  0 < n <= 2 ^ 31 -> 0 <= fst (roll (die n) g) < n.
Proof.
  intros Hn. unfold roll, die. cbn [fst snd].
  rewrite u64_id, i32_id by (unfold in_i32; lia).
  pose proof (uniform_range 0 (n - 1) g ltac:(lia)). lia.
Qed.

(** An instance: a linear congruential generator, for executing the model. *)
Definition lcg_next (g : Z) : Z := (1103515245 * g + 12345) mod 2 ^ 31.

#[export] Instance lcg : RandomEngine Z := {|
  rng_seed := fun s => lcg_next s;
  rng_uniform := fun a b g => (a + (g / 2 ^ 16) mod (b - a + 1), lcg_next g) |}.

#[export] Instance lcg_laws : RandomLaws Z.
Proof.
  intros a b g Hab. simpl. pose proof (Z.mod_pos_bound (g / 2 ^ 16) (b - a + 1) ltac:(lia)). lia.
Qed.

(** ** Planning and acting *)

Inductive Action :=
| IdleAction
| MoveAction (step : Point)
| WaitForInputAction.

(** [std::optional<Action>] *)
Abbreviation MaybeAction := (option Action).

Record Result := mkResult { success : bool; moves : Z; turns : Z }.
Definition kSuccess : Result := mkResult true 0 1.
Definition kFailure : Result := mkResult false 0 1.

Definition player_flag (e : Entity) : result bool :=
  entity_match e (fun _ => false) (fun _ player => player).

(** The action, what is left of the input, and the generator. *)
Definition plan {G} `{RandomEngine G} (e : Entity) (input : MaybeAction) (rng : G)
    : result (Action * MaybeAction * G) :=
  let* p := player_flag e in
  if negb p then
    let '(i, rng) := roll (die (Z.of_nat (length kSteps))) rng in
    let* step := at_index kSteps i in
    Ok (MoveAction step, input, rng)
  else
    match input with
    | None => Ok (WaitForInputAction, input, rng)
    | Some action => Ok (action, None, rng)
    end.

Definition act (h : heap) (b : Board) (e : loc) (action : Action) : result (heap * Board * Result) :=
  match action with
  | IdleAction => Ok (h, b, kSuccess)
  | MoveAction step =>
      let* entity := deref (h !! e) in
      let pos0 := Point.add (pos entity) step in
      if Point.eqb pos0 (pos entity) then Ok (h, b, kSuccess) else
      if negb (bool_decide (Board.getStatus b pos0 = Free)) then Ok (h, b, kFailure) else
      let* r := Board.moveEntity h b e pos0 in
      let '(h, b) := r in
      Ok (h, b, kSuccess)
  | WaitForInputAction => Ok (h, b, kFailure)
  end.
