(* ===== verification/InitBoard.v ===== *)
(** * InitBoard: the map generator (src/game.cpp, [initBoard])

    Two runs of a cellular automaton, one for the trees and one for the tall
    grass; the automaton starts from a full border and random cells and is
    smoothed three times. *)

From S2P Require Import Prelude.
From S2P Require Import Base.
From S2P Require Import Geo.
From S2P Require Import Entity.
From S2P Require Import Timers.
From S2P Require Import Board.
From S2P Require Import Rules.
From S2P Require Import Fov.
From S2P Require Import Vision.
From S2P Require Import BoardInv.

(** The neighbour counts [adj1] and [adj2] of a cell. *)
Definition count_step (result : Matrix bool) (x y dy : Z) (adj : Z * Z) (dx : Z) : Z * Z :=
  let '(adj1, adj2) := adj in
  if (dx =? 0) && (dy =? 0) then (adj1, adj2) else
  if Z.min (Z.abs dx) (Z.abs dy) =? 2 then (adj1, adj2) else
  let next := Point.mk (x + dx) (y + dy) in
  if negb (Matrix.contains result next && Matrix.get result next) then (adj1, adj2) else
  let distance := Z.max (Z.abs dx) (Z.abs dy) in
  let adj1 := if distance <=? 1 then adj1 + 1 else adj1 in
  let adj2 := if distance <=? 2 then adj2 + 1 else adj2 in
  (adj1, adj2).

Definition count_adj (result : Matrix bool) (x y : Z) : Z * Z :=
  for_range (-2) 3 (fun adj dy => for_range (-2) 3 (count_step result x y dy) adj) (0, 0).

(** The rule of generation [i]. *)
Definition cell_blocked (i : Z) (adj : Z * Z) : bool :=
  let '(adj1, adj2) := adj in
  (5 <=? adj1) || ((i <? 2) && (adj2 <=? 1)).

Definition smooth (size : Point) (result : Matrix bool) (i : Z) : Matrix bool :=
  for_range 1 (Point.y size - 1)
    (fun next y =>
       for_range 1 (Point.x size - 1)
         (fun next x => Matrix.set next (Point.mk x y) (cell_blocked i (count_adj result x y)))
         next)
    result.

Definition border (size : Point) (result : Matrix bool) : Matrix bool :=
  let result :=
    for_range 0 (Point.x size)
      (fun r x => Matrix.set (Matrix.set r (Point.mk x 0) true) (Point.mk x (Point.y size - 1)) true)
      result in
  for_range 0 (Point.y size)
    (fun r y => Matrix.set (Matrix.set r (Point.mk 0 y) true) (Point.mk (Point.x size - 1) y) true)
    result.

Section generator.
Context {G : Type} `{RandomEngine G}.

Definition noise_cell (y : Z) (s : Matrix bool * G) (x : Z) : Matrix bool * G :=
  let '(result, rng) := s in
  let '(d, rng) := roll (die 100) rng in
  (if d <? 45 then Matrix.set result (Point.mk x y) true else result, rng).

Definition noise (size : Point) (result : Matrix bool) (rng : G) : Matrix bool * G :=
  for_range 0 (Point.y size) (fun s y => for_range 0 (Point.x size) (noise_cell y) s) (result, rng).

(** The lambda [automata]. *)
Definition automata (size : Point) (rng : G) : result (Matrix bool * G) :=
  let* result := Matrix.make size false in
  let '(result, rng) := noise size (border size result) rng in
  Ok (for_range 0 3 (smooth size) result, rng).

(** The loop that writes the tiles. *)
Definition paint (size : Point) (walls grass : Matrix bool) (wt gt : Tile) (b : Board) : Board :=
  for_range 0 (Point.y size)
    (fun b y =>
       for_range 0 (Point.x size)
         (fun b x =>
            let p := Point.mk x y in
            if Matrix.get walls p then Board.setTile b p wt
            else if Matrix.get grass p then Board.setTile b p gt
            else b) b) b.

Definition initBoard (b : Board) (rng : G) : result (Board * G) :=
  let* b := Board.clearAllTiles b in
  let size := Board.getSize b in
  let* r1 := automata size rng in
  let '(walls, rng) := r1 in
  let* r2 := automata size rng in
  let '(grass, rng) := r2 in
  let* wt := tileType ch_hash in
  let* gt := tileType ch_quote in
  Ok (paint size walls grass wt gt b, rng).
End generator.

(** * what the map generator builds *)

(** ** Loops that write a rectangle of a matrix *)

Definition in_rect (x0 x1 y0 y1 : Z) (p : Point) : bool :=
  bool_decide (x0 <= Point.x p < x1 /\ y0 <= Point.y p < y1).

Lemma in_rect_true x0 x1 y0 y1 p :
  in_rect x0 x1 y0 y1 p = true <-> x0 <= Point.x p < x1 /\ y0 <= Point.y p < y1.
Proof. apply bool_decide_eq_true. Qed.

Lemma in_rect_false x0 x1 y0 y1 p :
  in_rect x0 x1 y0 y1 p = false <-> ~ (x0 <= Point.x p < x1 /\ y0 <= Point.y p < y1).
Proof. apply bool_decide_eq_false. Qed.

(** Case analysis on the rectangles in the goal. *)
Ltac case_rect :=
  repeat match goal with
  | |- context [in_rect ?a ?b ?c ?d ?p] =>
      let E := fresh "E" in destruct (in_rect a b c d p) eqn:E;
      [apply in_rect_true in E|apply in_rect_false in E]
  end.

Section rect.
Context {V : Type} (f : Z -> Z -> option V).

Definition put (m : Matrix V) (x y : Z) : Matrix V :=
  match f x y with Some v => Matrix.set m (Point.mk x y) v | None => m end.

Definition put_row (x0 x1 : Z) (m : Matrix V) (y : Z) : Matrix V :=
  for_range x0 x1 (fun m x => put m x y) m.
Definition put_rect (x0 x1 y0 y1 : Z) (m : Matrix V) : Matrix V :=
  for_range y0 y1 (put_row x0 x1) m.

(** The same cells, as a bounded map. *)
Definition same_frame (m m' : Matrix V) : Prop :=
  Matrix.wf m' /\ Matrix.m_size m' = Matrix.m_size m /\ Matrix.m_init m' = Matrix.m_init m.

Lemma same_frame_refl m : Matrix.wf m -> same_frame m m.
Proof. done. Qed.

Lemma same_frame_trans m1 m2 m3 : same_frame m1 m2 -> same_frame m2 m3 -> same_frame m1 m3.
Proof. intros (? & ? & ?) (? & ? & ?). split_and!; congruence. Qed.

Lemma same_frame_set m m' p v : same_frame m m' -> same_frame m (Matrix.set m' p v).
Proof.
  intros (? & ? & ?). split_and!; [by apply Matrix.set_wf| |].
  - by rewrite Matrix.set_size.
  - by rewrite Matrix.set_init.
Qed.

Lemma same_frame_contains m m' p : same_frame m m' -> Matrix.contains m' p = Matrix.contains m p.
Proof. intros (_ & Hs & _). unfold Matrix.contains. by rewrite Hs. Qed.

Lemma put_frame m m' x y : same_frame m m' -> same_frame m (put m' x y).
Proof. unfold put. case_match; [|done]. apply same_frame_set. Qed.

(** What a cell holds after it was written with [f]. *)
Definition written (m : Matrix V) (p : Point) : V :=
  if Matrix.contains m p then default (Matrix.get m p) (f (Point.x p) (Point.y p))
  else Matrix.get m p.

Lemma put_get m x y p :
  Matrix.wf m -> Matrix.get (put m x y) p =
    if bool_decide (p = Point.mk x y) then written m p else Matrix.get m p.
Proof.
  intros Hm. unfold put, written. case_bool_decide as Hp.
  - subst p. simpl. destruct (f x y); simpl; [|by case_match].
    rewrite Matrix.get_set by done. rewrite bool_decide_true by done. simpl. done.
  - destruct (f x y); [|done]. by rewrite Matrix.get_set_ne by done.
Qed.

Lemma put_row_spec x0 x1 y m :
  Matrix.wf m -> same_frame m (put_row x0 x1 m y) /\
  forall p, Matrix.get (put_row x0 x1 m y) p =
    if in_rect x0 x1 y (y + 1) p then written m p else Matrix.get m p.
Proof.
  intros Hm. destruct (decide (x0 <= x1)) as [Hle|Hgt].
  2:{ unfold put_row. rewrite for_range_nil by lia. split; [done|]. intros p.
      case_rect; [lia|done]. }
  apply (for_range_ind (fun i m' => same_frame m m' /\ forall p, Matrix.get m' p =
    if in_rect x0 i y (y + 1) p then written m p else Matrix.get m p));
    [done| |].
  - split; [done|]. intros p. case_rect; [lia|done].
  - intros i m' Hi [Hfr Hget]. split; [by apply put_frame|]. intros p.
    rewrite put_get by apply Hfr. unfold written. rewrite (same_frame_contains m m'), !Hget by done.
    fold (written m p). case_bool_decide as Hp; [subst p|].
    + case_rect; simpl in *; done || lia.
    + case_rect; try done; try lia. exfalso. apply Hp, Point.eq_iff. simpl. lia.
Qed.

Lemma put_rect_spec x0 x1 y0 y1 m :
  Matrix.wf m -> same_frame m (put_rect x0 x1 y0 y1 m) /\
  forall p, Matrix.get (put_rect x0 x1 y0 y1 m) p =
    if in_rect x0 x1 y0 y1 p
    then written m p else Matrix.get m p.
Proof.
  intros Hm. destruct (decide (y0 <= y1)) as [Hle|Hgt].
  2:{ unfold put_rect. rewrite for_range_nil by lia. split; [done|]. intros p.
      case_rect; [lia|done]. }
  apply (for_range_ind (fun i m' => same_frame m m' /\ forall p, Matrix.get m' p =
    if in_rect x0 x1 y0 i p
    then written m p else Matrix.get m p)); [done| |].
  - split; [done|]. intros p. case_rect; [lia|done].
  - intros i m' Hi [Hfr Hget]. destruct (put_row_spec x0 x1 i m') as [Hfr' Hget']; [apply Hfr|].
    split; [by eapply same_frame_trans|]. intros p. rewrite Hget'. unfold written.
    rewrite (same_frame_contains m m'), !Hget by done. fold (written m p).
    case_rect; try done; lia.
Qed.
End rect.

(** ** The automaton *)

Lemma smooth_put size m i :
  smooth size m i = put_rect (fun x y => Some (cell_blocked i (count_adj m x y)))
    1 (Point.x size - 1) 1 (Point.y size - 1) m.
Proof. done. Qed.

(** A generation is computed from the one before it: interior cells by the
    rule, the border and the outside are kept. *)
Lemma smooth_get size m i p :
  Matrix.wf m -> Matrix.m_size m = size ->
  Matrix.get (smooth size m i) p =
    if in_rect 1 (Point.x size - 1) 1 (Point.y size - 1) p
    then cell_blocked i (count_adj m (Point.x p) (Point.y p)) else Matrix.get m p.
Proof.
  intros Hm Hs. rewrite smooth_put. destruct (put_rect_spec (fun x y =>
    Some (cell_blocked i (count_adj m x y))) 1 (Point.x size - 1) 1 (Point.y size - 1) m Hm)
    as [_ ->].
  case_rect; [|done]. unfold written.
  rewrite (proj2 (Matrix.contains_spec m p)); [done|]. rewrite Hs. lia.
Qed.

Lemma smooth_frame size m i : Matrix.wf m -> same_frame m (smooth size m i).
Proof. intros Hm. rewrite smooth_put. by apply put_rect_spec. Qed.

Definition on_border (size p : Point) : Prop :=
  0 <= Point.x p < Point.x size /\ 0 <= Point.y p < Point.y size /\
  (Point.x p = 0 \/ Point.x p = Point.x size - 1 \/ Point.y p = 0 \/ Point.y p = Point.y size - 1).

(** A matrix of the size of the board whose border is set. *)
Definition walled (size : Point) (m : Matrix bool) : Prop :=
  Matrix.wf m /\ Matrix.m_size m = size /\ forall p, on_border size p -> Matrix.get m p = true.

Lemma walled_smooth size m i : walled size m -> walled size (smooth size m i).
Proof.
  intros (Hwf & Hs & Hb). destruct (smooth_frame size m i Hwf) as (Hwf' & Hs' & _).
  split; [done|]. split; [congruence|]. intros p Hp. rewrite smooth_get by done.
  case_rect; [|by apply Hb]. unfold on_border in Hp. lia.
Qed.

Lemma walled_set size m p : walled size m -> walled size (Matrix.set m p true).
Proof.
  intros (Hwf & Hs & Hb). split; [by apply Matrix.set_wf|]. rewrite Matrix.set_size.
  split; [done|]. intros q Hq. rewrite Matrix.get_set by done. case_match; [done|by apply Hb].
Qed.

(** The two loops of the border. *)
Definition set_only (size : Point) (m : Matrix bool) (done : Point -> Prop) : Prop :=
  Matrix.wf m /\ Matrix.m_size m = size /\
  forall p, 0 <= Point.x p < Point.x size -> 0 <= Point.y p < Point.y size -> done p ->
    Matrix.get m p = true.

Lemma set_only_set size m (P Q : Point -> Prop) q :
  set_only size m P -> (forall p, Q p -> p = q \/ P p) -> set_only size (Matrix.set m q true) Q.
Proof.
  intros (Hwf & Hs & Hm) HQ. split; [by apply Matrix.set_wf|]. rewrite Matrix.set_size.
  split; [done|]. intros p Hx Hy Hp. rewrite Matrix.get_set by done.
  destruct (HQ p Hp) as [->|HP].
  - rewrite bool_decide_true by done. rewrite (proj2 (Matrix.contains_spec m q)); [done|].
    rewrite Hs. lia.
  - case_match; [done|by apply Hm].
Qed.

Lemma border_walled size m :
  0 <= Point.x size -> 0 <= Point.y size ->
  Matrix.wf m -> Matrix.m_size m = size -> walled size (border size m).
Proof.
  intros Hx Hy Hwf Hs. unfold border.
  set (m1 := for_range 0 (Point.x size) _ m).
  assert (H1 : set_only size m1 (fun p => Point.x p < Point.x size /\
    (Point.y p = 0 \/ Point.y p = Point.y size - 1))).
  { apply (for_range_ind (fun i m => set_only size m (fun p => Point.x p < i /\
      (Point.y p = 0 \/ Point.y p = Point.y size - 1)))); [done| |].
    - split_and!; [done|done|]. intros p ? _ [? _]. lia.
    - intros i m' Hi Hm'. eapply set_only_set; [eapply (set_only_set _ _ _
        (fun p => p = Point.mk i 0 \/ Point.x p < i /\ (Point.y p = 0 \/ Point.y p = Point.y size - 1)));
        [exact Hm'|tauto]|].
      intros p [Hp Hp']. destruct (decide (Point.x p < i)); [tauto|].
      destruct Hp' as [Hp'|Hp']; [right; left|left]; apply Point.eq_iff; simpl; lia. }
  assert (H2 : set_only size (for_range 0 (Point.y size) (fun r y =>
      Matrix.set (Matrix.set r (Point.mk 0 y) true) (Point.mk (Point.x size - 1) y) true) m1)
    (fun p => on_border size p)).
  { set (P := fun i (p : Point) => (Point.x p < Point.x size /\
        (Point.y p = 0 \/ Point.y p = Point.y size - 1)) \/
      Point.y p < i /\ (Point.x p = 0 \/ Point.x p = Point.x size - 1)).
    assert (Hgoal : set_only size (for_range 0 (Point.y size) (fun r y =>
      Matrix.set (Matrix.set r (Point.mk 0 y) true) (Point.mk (Point.x size - 1) y) true) m1)
      (P (Point.y size))).
    { apply (for_range_ind (fun i m => set_only size m (P i))); [done| |].
      - destruct H1 as (? & ? & Hp). split_and!; [done|done|]. intros p ? ? [?|[? _]]; [auto|lia].
      - intros i m' Hi Hm'. eapply set_only_set; [eapply (set_only_set _ _ _
          (fun p => p = Point.mk 0 i \/ P i p)); [exact Hm'|tauto]|].
        intros p [Hp|[Hp Hp']]; [right; right; by left|].
        destruct (decide (Point.y p < i)); [right; right; by right|].
        destruct Hp' as [Hp'|Hp']; [right; left|left]; apply Point.eq_iff; simpl; lia. }
    destruct Hgoal as (? & ? & Hp). split_and!; [done|done|]. intros p ? ? Hb.
    apply Hp; [done|done|]. unfold on_border, P in *. lia. }
  destruct H2 as (? & ? & Hp). split_and!; [done|done|]. intros p Hb.
  apply Hp; [apply Hb|apply Hb|done].
Qed.

Section generator.
Context {G : Type} `{RandomEngine G}.

Lemma noise_walled size m (g : G) :
  walled size m -> walled size (fst (noise size m g)).
Proof.
  intros Hm. unfold noise.
  apply (for_range_inv (fun s : Matrix bool * G => walled size (fst s))); [done|].
  intros y s _ Hs.
  apply (for_range_inv (fun s : Matrix bool * G => walled size (fst s))); [done|].
  intros x [m' g'] _ Hs'. simpl in *. unfold noise_cell.
  destruct (roll (die 100) g') as [d g'']. simpl. case_match; [by apply walled_set|done].
Qed.

Lemma automata_ok size (g : G) :
  0 <= Point.x size -> 0 <= Point.y size ->
  exists m g', automata size g = Ok (m, g') /\ walled size m.
Proof.
  intros Hx Hy. unfold automata. destruct (Matrix.make_defined size false Hx Hy) as [m Hm].
  rewrite Hm. simpl. destruct (Matrix.make_ok _ _ _ Hm) as (Hs & _).
  pose proof (noise_walled size (border size m) g
    (border_walled size m Hx Hy (Matrix.make_wf _ _ _ Hx Hy Hm) Hs)) as Hn.
  destruct (noise size (border size m) g) as [m' g']. simpl in Hn.
  eexists _, _. split; [done|]. apply (for_range_inv (walled size)); [done|].
  intros i s _. apply walled_smooth.
Qed.
End generator.

(** ** Painting the board *)

Section paint.
Context (size : Point) (walls grass : Matrix bool) (wt gt : Tile).

Definition paint_tile (x y : Z) : option Tile :=
  if Matrix.get walls (Point.mk x y) then Some wt
  else if Matrix.get grass (Point.mk x y) then Some gt
  else None.

(** Boards that differ in their map only. *)
Definition same_but_map (b b' : Board) : Prop :=
  Board.m_fov b' = Board.m_fov b /\ Board.m_entities b' = Board.m_entities b /\
  Board.m_entityAtPos b' = Board.m_entityAtPos b /\
  Board.m_entityIndex b' = Board.m_entityIndex b.

(** The matrix of the painted board is written by a rectangle loop. *)
Lemma paint_map b :
  Board.m_map (paint size walls grass wt gt b) =
    put_rect paint_tile 0 (Point.x size) 0 (Point.y size) (Board.m_map b) /\
  same_but_map b (paint size walls grass wt gt b).
Proof.
  unfold paint, put_rect, put_row, for_range.
  assert (Hcell : forall b' x y, same_but_map b b' ->
    let b'' := (if Matrix.get walls (Point.mk x y) then Board.setTile b' (Point.mk x y) wt
      else if Matrix.get grass (Point.mk x y) then Board.setTile b' (Point.mk x y) gt else b') in
    Board.m_map b'' = put paint_tile (Board.m_map b') x y /\ same_but_map b b'').
  { intros b' x y (H1 & H2 & H3 & H4). unfold put, paint_tile, same_but_map.
    destruct (Matrix.get walls _); [|destruct (Matrix.get grass _); [|done]]; simpl.
    - destruct (setTile_fields b' (Point.mk x y) wt) as (? & ? & ? & ? & ?).
      split_and!; congruence.
    - destruct (setTile_fields b' (Point.mk x y) gt) as (? & ? & ? & ? & ?).
      split_and!; congruence. }
  assert (Hrow : forall xs y b', same_but_map b b' ->
    let b'' := foldl (fun b x => let p := Point.mk x y in
      if Matrix.get walls p then Board.setTile b p wt
      else if Matrix.get grass p then Board.setTile b p gt else b) b' xs in
    Board.m_map b'' = foldl (fun m x => put paint_tile m x y) (Board.m_map b') xs /\
    same_but_map b b'').
  { intros xs y. induction xs as [|x xs IH]; intros b' Hb'; simpl; [done|].
    destruct (Hcell b' x y Hb') as [<- Hb'']. by apply IH. }
  generalize (seqZ 0 (Point.y size - 0)) as ys. intros ys.
  assert (Hgen : forall b', same_but_map b b' ->
    let b'' := foldl (fun b y => foldl (fun b x => let p := Point.mk x y in
      if Matrix.get walls p then Board.setTile b p wt
      else if Matrix.get grass p then Board.setTile b p gt else b) b
        (seqZ 0 (Point.x size - 0))) b' ys in
    Board.m_map b'' = foldl (fun m y => foldl (fun m x => put paint_tile m x y) m
      (seqZ 0 (Point.x size - 0))) (Board.m_map b') ys /\ same_but_map b b'').
  { induction ys as [|y ys IH]; intros b' Hb'; simpl; [done|].
    destruct (Hrow (seqZ 0 (Point.x size - 0)) y b' Hb') as [<- Hb'']. by apply IH. }
  by apply Hgen.
Qed.

Lemma paint_wf h b : board_wf h b -> board_wf h (paint size walls grass wt gt b).
Proof.
  intros Hb. apply (for_range_inv (board_wf h)); [done|]. intros y b1 _ Hb1.
  apply (for_range_inv (board_wf h)); [done|]. intros x b2 _ Hb2. simpl.
  repeat case_match; [by apply setTile_wf..|done].
Qed.
End paint.

(** An empty cache stays empty when there are no entities. *)
Lemma cache_empty h b : board_wf h b -> Board.m_entities b = [] -> Board.m_vision b = ∅.
Proof.
  intros Hwf He. apply map_eq. intros e. rewrite lookup_empty.
  destruct (Board.m_vision b !! e) as [v|] eqn:Hv; [|done].
  destruct (bw_vision _ _ Hwf e v Hv) as [Hin _]. rewrite He in Hin. by apply elem_of_nil in Hin.
Qed.

(** The tiles of a generated board. *)
Definition generated (size : Point) (b : Board) : Prop :=
  exists walls grass, walled size walls /\ walled size grass /\
    forall p, Matrix.contains (Board.m_map b) p = true ->
      Ok (Board.getTile b p) =
        if Matrix.get walls p then tileType ch_hash
        else if Matrix.get grass p then tileType ch_quote else tileType ch_dot.

Section initBoard.
Context {G : Type} `{RandomEngine G}.

Lemma initBoard_ok h b (g : G) :
  board_wf h b -> Board.m_entities b = [] ->
  exists b' g', initBoard b g = Ok (b', g') /\ board_wf h b' /\
    Board.getSize b' = Board.getSize b /\ same_but_map b b' /\
    generated (Board.getSize b) b'.
Proof.
  intros Hwf He. unfold initBoard.
  destruct (clearAllTiles_wf h b Hwf (cache_empty h b Hwf He)) as (b1 & dot & -> & Hwf1 & Hdot & Hb1).
  cbn [rbind]. assert (Hsz : Board.getSize b1 = Board.getSize b) by by subst b1.
  rewrite Hsz. set (size := Board.getSize b) in *.
  pose proof (bw_map _ _ Hwf) as (Hx & Hy & _).
  destruct (automata_ok size g Hx Hy) as (walls & g1 & -> & Hwalls). cbn [rbind].
  destruct (automata_ok size g1 Hx Hy) as (grass & g2 & -> & Hgrass). cbn [rbind].
  rewrite tileType_hash, tileType_quote. cbn [rbind]. eexists _, _. split; [done|].
  set (wt := mkTile _ FlagBlocked _). set (gt := mkTile _ FlagObscure _).
  split; [by apply paint_wf|].
  destruct (paint_map size walls grass wt gt b1) as [Hmap Hsame].
  destruct (put_rect_spec (paint_tile walls grass wt gt) 0 (Point.x size) 0 (Point.y size)
    (Board.m_map b1) (bw_map _ _ Hwf1)) as [(Hpw & Hps & Hpi) Hget].
  split; [|split].
  - unfold Board.getSize, Matrix.size. rewrite Hmap, Hps. by subst b1.
  - subst b1. apply Hsame.
  - exists walls, grass. split; [done|]. split; [done|]. intros p Hp.
    unfold Board.getTile. rewrite Hmap, Hget. unfold Matrix.contains in Hp.
    rewrite Hmap, Hps in Hp. fold (Matrix.contains (Board.m_map b1) p) in Hp.
    pose proof Hp as Hrange. apply Matrix.contains_spec in Hrange.
    replace (Matrix.m_size (Board.m_map b1)) with size in Hrange by by subst b1.
    case_rect; [|lia]. unfold written. rewrite Hp. unfold paint_tile.
    destruct p as [px py]. cbn [Point.x Point.y].
    destruct (Matrix.get walls _); [by rewrite tileType_hash|].
    destruct (Matrix.get grass _); [by rewrite tileType_quote|]. cbn [default].
    rewrite Hdot. f_equal. subst b1. cbn [Board.m_map Board.with_map] in *.
    rewrite Matrix.get_fill by apply Hwf. rewrite Matrix.fill_contains in Hp. by rewrite Hp.
Qed.
End initBoard.
