(* ===== verification/Game.v ===== *)
(** * Game: the state of the game, its turns and its frames
    (src/game.h, src/game.cpp)

    [State] holds the heap of the entities next to the fields of the source.
    [turn_loop] is the second loop of [updateState]; its fuel is the bound
    [update_fuel], which [updateState_total] shows to be enough. *)

From S2P Require Import Prelude.
From S2P Require Import Base.
From S2P Require Import Geo.
From S2P Require Import Entity.
From S2P Require Import Timers.
From S2P Require Import Board.
From S2P Require Import Rules.
From S2P Require Import InitBoard.

Record State (G : Type) := mkState {
  objects : heap;
  rng : G;
  board : Board;
  player : loc;
  input : MaybeAction }.
Arguments mkState {G}.
Arguments objects {G}.
Arguments rng {G}.
Arguments board {G}.
Arguments player {G}.
Arguments input {G}.

(** A new object, at an address that is not in use. *)
Definition alloc (h : heap) (e : Entity) : heap * loc :=
  let l := fresh (dom h) in (<[l := e]> h, l).

Section game.
Context {G : Type} `{RandomEngine G}.

Definition with_input (s : State G) (i : MaybeAction) : State G :=
  mkState (objects s) (rng s) (board s) (player s) i.
Definition with_board (s : State G) (h : heap) (b : Board) : State G :=
  mkState h (rng s) b (player s) (input s).

(** ** The constructor of [State] *)

(** The loop that seeds the generator from the clock until the start is
    free; [clock] lists the readings of [epochTimeNanos]. *)
Fixpoint seed_loop (clock : list Z) (start : Point) (b : Board) : result (Board * G) :=
  match clock with
  | [] => Err OutOfFuel
  | t :: clock =>
      let* r := initBoard b (rng_seed t) in
      let '(b, g) := r in
      if bool_decide (Board.getStatus b start = Free) then Ok (b, g)
      else seed_loop clock start b
  end.

(** The lambda [pos]: at most [tries] draws. *)
Fixpoint find_free (tries : nat) (b : Board) (dx dy : distribution) (g : G)
    : option Point * G :=
  match tries with
  | O => (None, g)
  | S tries =>
      let '(x, g) := roll dx g in
      let '(y, g) := roll dy g in
      let result := Point.mk x y in
      if bool_decide (Board.getStatus b result = Free) then (Some result, g)
      else find_free tries b dx dy g
  end.

Definition add_pokemon (s : heap * Board * G) (i : Z) : result (heap * Board * G) :=
  let '(h, b, g) := s in
  let dx := die (Point.x (Board.getSize b)) in
  let dy := die (Point.y (Board.getSize b)) in
  let '(pos, g) := find_free 100 b dx dy g in
  match pos with
  | None => Ok (h, b, g)
  | Some pos =>
      let* pokemon := Pokemon_ctor "Pidgey" pos in
      let '(h, l) := alloc h pokemon in
      let* b := Board.addEntity h b l in
      Ok (h, b, g)
  end.

Definition State_ctor (clock : list Z) : result (State G) :=
  let* b := Board.make (Point.mk kMapSize kMapSize) in
  let size := Board.getSize b in
  let start := Point.mk (Z.quot (Point.x size) 2) (Z.quot (Point.y size) 2) in
  let* r := seed_loop clock start b in
  let '(b, g) := r in
  let '(h, player) := alloc ∅ (Trainer_ctor "" start true kTrainerHP kTrainerSpeed) in
  let* b := Board.addEntity h b player in
  let* r := foldM add_pokemon (h, b, g) (seqZ 0 5) in
  let '(h, b, g) := r in
  Ok (mkState h g b player None).

(** ** Input *)

(** The step that a key stands for; the keys are compared as [char]s. *)
Definition key_dir (ch : Z) : option Point :=
  if ch =? 104 then Some (Point.mk (-1) 0) else
  if ch =? 106 then Some (Point.mk 0 1) else
  if ch =? 107 then Some (Point.mk 0 (-1)) else
  if ch =? 108 then Some (Point.mk 1 0) else
  if ch =? 121 then Some (Point.mk (-1) (-1)) else
  if ch =? 117 then Some (Point.mk 1 (-1)) else
  if ch =? 98 then Some (Point.mk (-1) 1) else
  if ch =? 110 then Some (Point.mk 1 1) else
  if ch =? 46 then Some (Point.mk 0 0) else
  None.

Definition processInput (s : State G) (i : Z) : State G :=
  match key_dir (i8 i) with
  | Some dir => with_input s (Some (MoveAction dir))
  | None => s
  end.

(** The loop over the queue, which stops at the first action. *)
Fixpoint drain (s : State G) (inputs : list Z) : State G * list Z :=
  match inputs with
  | [] => (s, [])
  | i :: rest =>
      match input s with
      | Some _ => (s, inputs)
      | None => drain (processInput s i) rest
      end
  end.

(** ** Turns *)

(** One iteration of the loop: [inl] to go on, [inr] when the loop ends. *)
Definition turn (s : State G) : result (State G + State G) :=
  let* p := deref (objects s !! player s) in
  if removed p then Ok (inr s) else
  let* e := Board.getActiveEntity (board s) in
  let* entity := deref (objects s !! e) in
  if negb (turnReady entity) then
    let* r := Board.advanceEntity (objects s) (board s) in
    let '(h, b) := r in
    Ok (inl (with_board s h b))
  else
    let* r := plan entity (input s) (rng s) in
    let '(action, i, g) := r in
    let* r := act (objects s) (board s) e action in
    let '(h, b, result) := r in
    let s := mkState h g b (player s) i in
    if negb (success result) && bool_decide (e = player s) then Ok (inr s) else
    let* entity := deref (objects s !! e) in
    let* entity := wait entity (double_of_Z (moves result)) (double_of_Z (turns result)) in
    Ok (inl (with_board s (<[e := entity]> (objects s)) (board s))).

Fixpoint turn_loop (fuel : nat) (s : State G) : result (State G) :=
  match fuel with
  | O => Err OutOfFuel
  | S fuel =>
      let* r := turn s in
      match r with
      | inl s => turn_loop fuel s
      | inr s => Ok s
      end
  end.

(** Fuel for the turns: [kTurnTimer] rounds over the entities before and
    after the player's action, two iterations for each entity. *)
Definition update_fuel (s : State G) : nat :=
  (482 * length (Board.m_entities (board s)) + 1)%nat.

Definition updateState (s : State G) (inputs : list Z) : result (State G * list Z) :=
  let* p := deref (objects s !! player s) in
  let* r :=
    if removed p then Ok (s, inputs) else
    let* e := Board.getActiveEntity (board s) in
    if bool_decide (player s = e) then Ok (drain s inputs) else Ok (s, inputs) in
  let '(s, inputs) := r in
  let* s := turn_loop (update_fuel s) s in
  Ok (s, inputs).

Definition update (s : State G) (inputs : list Z) : result (State G * list Z) :=
  updateState s inputs.

(** ** Frames *)

(** The lambda [map] of [render], with [offset] the origin. *)
Definition frame_pos (p : Point) : Point :=
  Point.add Point.origin (Point.mk (2 * Point.x p) (Point.y p)).

Definition render_tile (b : Board) (v : Vision) (frame : Matrix Glyph) (p : Point) : Matrix Glyph :=
  let seen := Board.canSee v p in
  Matrix.set frame (frame_pos p) (if seen then tile_glyph (Board.getTile b p) else Empty).

Definition render_entity (h : heap) (v : Vision) (frame : Matrix Glyph) (e : loc)
    : result (Matrix Glyph) :=
  let* entity := deref (h !! e) in
  let seen := Board.canSee v (pos entity) in
  Ok (if seen then Matrix.set frame (frame_pos (pos entity)) (glyph entity) else frame).

(** [render] fills the mutable cache of the board, so the state comes back. *)
Definition render (s : State G) (frame : Matrix Glyph) : result (State G * Matrix Glyph) :=
  let* r := Board.getVision (objects s) (board s) (player s) in
  let '(b, vision) := r in
  let size := Board.getSize b in
  let frame :=
    for_range 0 (Point.y size)
      (fun frame y =>
         for_range 0 (Point.x size)
           (fun frame x => render_tile b vision frame (Point.mk x y)) frame) frame in
  let* frame := foldM (render_entity (objects s) vision) frame (Board.getEntities b) in
  Ok (with_board s (objects s) b, frame).
End game.

(** ** IO *)
Module IO.
Record t (G : Type) := mk { state : State G; frame : Matrix Glyph; inputs : list Z }.
Arguments mk {G}.
Arguments state {G}.
Arguments frame {G}.
Arguments inputs {G}.

Section io.
Context {G : Type} `{RandomEngine G}.

Definition make (clock : list Z) : result (t G) :=
  let* state := State_ctor clock in
  let* frame := Matrix.make (Point.mk (2 * kMapSize) kMapSize) Glyph0 in
  Ok (mk state frame []).

Definition tick (io : t G) : result (t G) :=
  let* r := update (state io) (inputs io) in
  let '(state, inputs) := r in
  let* r := render state (frame io) in
  let '(state, frame) := r in
  Ok (mk state frame inputs).
End io.
End IO.

Abbreviation IO := IO.t.
