(* ===== verification/GameInv.v ===== *)
(** * GameInv: the invariant of the game and the termination of its turns

    [state_wf] is the invariant of [State] between two calls; [turn] keeps
    it, and as long as the loop goes on the measure [turn_measure] goes down. *)

From S2P Require Import Prelude.
From S2P Require Import Base.
From S2P Require Import Geo.
From S2P Require Import Fov.
From S2P Require Import Entity.
From S2P Require Import Timers.
From S2P Require Import Board.
From S2P Require Import Vision.
From S2P Require Import BoardInv.
From S2P Require Import Rules.
From S2P Require Import InitBoard.
From S2P Require Import Game.

(** What holds of every object on the board. *)
Definition entity_ok (e : Entity) : Prop :=
  (tag_ok e /\ wide_glyph (glyph e)) /\ timers_ok e /\ speed_ok (speed e).

Record state_wf {G} (s : State G) : Prop := {
  sw_board : board_wf (objects s) (board s);
  sw_standing : standing (objects s) (board s);
  sw_player : player s ∈ Board.m_entities (board s);
  sw_alive : forall p, objects s !! player s = Some p -> removed p = false /\ player_flag p = Ok true;
  sw_entities : forall e entity, e ∈ Board.m_entities (board s) -> objects s !! e = Some entity ->
    entity_ok entity /\ (e <> player s -> player_flag entity = Ok false) }.

(** What a turn does not change. *)
Definition same_game {G} (s s' : State G) : Prop :=
  player s' = player s /\ Board.m_entities (board s') = Board.m_entities (board s) /\
  Board.m_map (board s') = Board.m_map (board s) /\ Board.m_fov (board s') = Board.m_fov (board s).

#[export] Instance same_game_preorder {G} : PreOrder (@same_game G).
Proof.
  split; [done|]. intros s1 s2 s3 (? & ? & ? & ?) (? & ? & ? & ?). split_and!; congruence.
Qed.

(** ** Single objects *)

Lemma set_pos_ok e p : entity_ok e -> entity_ok (set_pos e p).
Proof. done. Qed.

Lemma set_pos_flag e p : player_flag (set_pos e p) = player_flag e.
Proof. done. Qed.

Lemma charge_ok e : entity_ok e ->
  exists c, 1 <= c <= kTurnTimer /\ charge e = Ok (set_timers e (move_timer e)
    (if 0 <? turn_timer e then turn_timer e - c else turn_timer e)).
Proof.
  intros (_ & [Hm _] & (c & Hc & Hr)). exists c. split; [done|].
  rewrite (charge_spec e c Hc), Hm. done.
Qed.

Lemma set_timers_ok e t :
  entity_ok e -> - kTurnTimer < t <= kTurnTimer -> entity_ok (set_timers e (move_timer e) t).
Proof. intros ([? ?] & [? _] & ?) ?. split_and!; done. Qed.

(** ** Updating one object of a state *)

Section update.
Context {G : Type} (s : State G) (Hwf : state_wf s).

(** The object of an entity on the board. *)
Lemma entity_at e : e ∈ Board.m_entities (board s) ->
  exists entity, objects s !! e = Some entity /\ entity_ok entity.
Proof using Hwf.
  intros He. destruct (bw_live _ _ (sw_board _ Hwf) e He) as (entity & Hh & _).
  exists entity. split; [done|]. by apply (sw_entities _ Hwf e).
Qed.

Lemma player_at : exists p, objects s !! player s = Some p /\ entity_ok p /\
  removed p = false /\ player_flag p = Ok true.
Proof using Hwf.
  destruct (entity_at (player s) (sw_player _ Hwf)) as (p & Hp & Hok). exists p.
  destruct (sw_alive _ Hwf p Hp). done.
Qed.

Lemma entities_nonempty : Board.m_entities (board s) <> [].
Proof using Hwf.
  intros Hnil. pose proof (sw_player _ Hwf) as Hp. rewrite Hnil in Hp. by apply elem_of_nil in Hp.
Qed.

(** New timers for an entity keep the invariant. *)
Lemma state_wf_timers e entity t g i b' :
  e ∈ Board.m_entities (board s) -> objects s !! e = Some entity ->
  - kTurnTimer < t <= kTurnTimer ->
  board_wf (objects s) b' -> Board.m_entities b' = Board.m_entities (board s) ->
  Board.m_map b' = Board.m_map (board s) ->
  state_wf (mkState (<[e := set_timers entity (move_timer entity) t]> (objects s)) g b' (player s) i : State G).
Proof using Hwf.
  intros He Hh Ht Hb' Hes Hmap.
  pose proof (sw_entities _ Hwf e entity He Hh) as [Hok Hflag]. constructor; simpl.
  - by apply (board_wf_heap _ _ e entity).
  - apply (standing_heap _ _ e entity); [|done|done]. intros e' ent.
    unfold Board.getTile. rewrite Hes, Hmap. apply (sw_standing _ Hwf).
  - rewrite Hes. apply Hwf.
  - intros p. rewrite lookup_insert. case_decide as Heq; [|apply Hwf].
    intros [= <-]. subst e. by apply (sw_alive _ Hwf entity).
  - intros e' ent. rewrite Hes, lookup_insert. intros Hin. case_decide as Heq.
    + intros [= <-]. subst e'. split; [by apply set_timers_ok|]. intros Hne. by apply Hflag.
    + by apply (sw_entities _ Hwf).
Qed.

(** A new position, with what [moveEntity] establishes. *)
Lemma state_wf_moved e entity to g i b' :
  e ∈ Board.m_entities (board s) -> objects s !! e = Some entity ->
  has_flag (Board.getTile (board s) to) FlagBlocked = false ->
  board_wf (<[e := set_pos entity to]> (objects s)) b' ->
  Board.m_entities b' = Board.m_entities (board s) ->
  Board.m_map b' = Board.m_map (board s) ->
  state_wf (mkState (<[e := set_pos entity to]> (objects s)) g b' (player s) i : State G).
Proof using Hwf.
  intros He Hh Hto Hb' Hes Hmap.
  pose proof (sw_entities _ Hwf e entity He Hh) as [Hok Hflag]. constructor; simpl.
  - done.
  - apply (moveEntity_standing _ (board s)); [apply Hwf|done|done|done].
  - rewrite Hes. apply Hwf.
  - intros p. rewrite lookup_insert. case_decide as Heq; [|apply Hwf].
    intros [= <-]. subst e. by apply (sw_alive _ Hwf entity).
  - intros e' ent. rewrite Hes, lookup_insert. intros Hin. case_decide as Heq.
    + intros [= <-]. subst e'. done.
    + by apply (sw_entities _ Hwf).
Qed.

Lemma state_wf_input i (g : G) :
  state_wf (mkState (objects s) g (board s) (player s) i : State G).
Proof using Hwf. by destruct Hwf. Qed.

(** [act] fails for no action of an entity on the board, and keeps the
    invariant, the timers and the order of play. *)
Lemma act_ok e entity action (g : G) i :
  e ∈ Board.m_entities (board s) -> objects s !! e = Some entity ->
  exists h b r entity', act (objects s) (board s) e action = Ok (h, b, r) /\
    (r = kSuccess \/ r = kFailure) /\
    h = <[e := entity']> (objects s) /\ (exists p, entity' = set_pos entity p) /\
    state_wf (mkState h g b (player s) i) /\
    same_game s (mkState h g b (player s) i) /\
    Board.m_entityIndex b = Board.m_entityIndex (board s) /\
    (action = WaitForInputAction -> r = kFailure).
Proof using Hwf.
  intros He Hh.
  assert (Hstay : <[e := entity]> (objects s) = objects s) by by apply insert_id.
  assert (Hself : entity = set_pos entity (pos entity)) by by destruct entity.
  pose proof (state_wf_input i g) as Hwf'.
  destruct action as [|step|]; simpl.
  - exists (objects s), (board s), kSuccess, entity. rewrite Hstay. split_and!; eauto; done.
  - rewrite Hh. simpl. destruct (Point.eqb _ _).
    { exists (objects s), (board s), kSuccess, entity. rewrite Hstay. split_and!; eauto; done. }
    case_bool_decide as Hfree; simpl.
    2:{ exists (objects s), (board s), kFailure, entity. rewrite Hstay. split_and!; eauto; done. }
    apply (getStatus_free (objects s)) in Hfree as [Htile Hpos]; [|apply Hwf].
    destruct (moveEntity_ok _ _ e entity _ (sw_board _ Hwf) He Hh Hpos)
      as (b' & -> & Hb' & Hm & Hes & Hi & Hf & _).
    simpl. eexists _, _, kSuccess, _.
    split; [done|]. split; [by left|]. split; [done|]. split; [eauto|].
    split; [by apply state_wf_moved|]. done.
  - exists (objects s), (board s), kFailure, entity. rewrite Hstay. split_and!; eauto; done.
Qed.
End update.

(** ** One turn *)

(** The number of advances until it is the player's turn. *)
Definition turn_distance {G} (s : State G) : Z :=
  let ip := match list_find (eq (player s)) (Board.m_entities (board s)) with
            | Some (ip, _) => Z.of_nat ip | None => 0 end in
  let i := Z.of_nat (Board.m_entityIndex (board s)) in
  if i <=? ip then ip - i else ip + Z.of_nat (length (Board.m_entities (board s))) - i.

(** What is left on the player's timer. *)
Definition player_timer {G} (s : State G) : Z :=
  match objects s !! player s with Some p => Z.max 0 (turn_timer p) | None => 0 end.

Definition active_ready {G} (s : State G) : Z :=
  match Board.m_entities (board s) !! Board.m_entityIndex (board s) with
  | Some e => match objects s !! e with
              | Some entity => if turnReady entity then 1 else 0 | None => 0 end
  | None => 0
  end.

Definition pending_input {G} (s : State G) : Z :=
  match input s with Some _ => 1 | None => 0 end.

(** The measure of the loop: pending input is worth two full charges of the
    player's timer, a unit of the timer is worth a round over the entities,
    and an entity that is ready is worth one iteration. *)
Definition turn_measure {G} (s : State G) : Z :=
  let n := Z.of_nat (length (Board.m_entities (board s))) in
  pending_input s * (240 * n) + 2 * (player_timer s * n + turn_distance s) + active_ready s.

(** The state in which the loop stops: the player is to act, and there is no
    input. *)
Definition awaiting_input {G} (s : State G) : Prop :=
  Board.getActiveEntity (board s) = Ok (player s) /\ input s = None /\
  exists p, objects s !! player s = Some p /\ turnReady p = true.

Section turn.
Context {G : Type} `{RandomLaws G}.
Implicit Types (s : State G).

Lemma player_index s : state_wf s ->
  exists ip, list_find (eq (player s)) (Board.m_entities (board s)) = Some (ip, player s) /\
    Board.m_entities (board s) !! ip = Some (player s) /\
    (ip < length (Board.m_entities (board s)))%nat.
Proof.
  intros Hwf. destruct (list_find_elem_of (eq (player s)) (Board.m_entities (board s)) (player s))
    as [[ip e] Hf]; [apply Hwf|done|].
  pose proof Hf as Hf'. apply list_find_Some in Hf' as (Hl & <- & _). exists ip.
  split; [done|]. split; [done|]. by eapply lookup_lt_Some.
Qed.

Lemma active_at s : state_wf s ->
  exists e, Board.getActiveEntity (board s) = Ok e /\ e ∈ Board.m_entities (board s) /\
    Board.m_entities (board s) !! Board.m_entityIndex (board s) = Some e.
Proof.
  intros Hwf. apply (getActiveEntity_ok (objects s)); [apply Hwf|by apply entities_nonempty].
Qed.

Lemma active_index s e : state_wf s ->
  Board.m_entities (board s) !! Board.m_entityIndex (board s) = Some e ->
  (e = player s <-> turn_distance s = 0) /\
  0 <= turn_distance s < Z.of_nat (length (Board.m_entities (board s))).
Proof.
  intros Hwf He. destruct (player_index s Hwf) as (ip & Hf & Hip & Hlt).
  pose proof (lookup_lt_Some _ _ _ He) as Hi.
  unfold turn_distance. rewrite Hf. split; [|case_match; bools; lia].
  pose proof (bw_nodup _ _ (sw_board _ Hwf)) as Hnd. split.
  - intros ->. assert (ip = Board.m_entityIndex (board s)) as -> by by eapply NoDup_lookup.
    rewrite Z.leb_refl. lia.
  - intros Hd. case_match; bools; [|lia].
    replace ip with (Board.m_entityIndex (board s)) in Hip by lia. congruence.
Qed.

(** Advancing brings the player's turn one step nearer, or a round away. *)
Lemma turn_distance_next s h : state_wf s ->
  turn_distance (with_board s h (Board.with_index (board s) (next_index (board s)))) =
    (if turn_distance s =? 0 then Z.of_nat (length (Board.m_entities (board s))) else turn_distance s) - 1.
Proof.
  intros Hwf. destruct (player_index s Hwf) as (ip & Hf & _ & Hlt).
  destruct (bw_index _ _ (sw_board _ Hwf)) as [Hi|[_ Hnil]];
    [|by apply entities_nonempty in Hnil].
  unfold turn_distance. simpl. rewrite Hf. unfold next_index.
  destruct (length _ <=? _)%nat eqn:E; [apply Nat.leb_le in E|apply Nat.leb_gt in E];
    repeat case_match; bools; lia.
Qed.

Lemma plan_ok s entity : state_wf s -> 
  (exists b, player_flag entity = Ok b) ->
  exists action i g, plan entity (input s) (rng s) = Ok (action, i, g) /\
    (player_flag entity = Ok false -> i = input s) /\
    (player_flag entity = Ok true -> i = None /\ (input s = None -> action = WaitForInputAction)).
Proof.
  intros Hwf [b Hb]. unfold plan. rewrite Hb. cbn [rbind]. destruct b; cbn [negb].
  - destruct (input s) as [a|].
    + exists a, None, (rng s). by split_and!.
    + exists WaitForInputAction, None, (rng s). by split_and!.
  - pose proof (die_range 8 (rng s) ltac:(lia)) as Hr.
    change (Z.of_nat (length kSteps)) with 8.
    destruct (roll (die 8) (rng s)) as [i g]. cbn [fst] in Hr. cbv beta iota.
    destruct (at_index_ok kSteps i) as (step & -> & _); [simpl; lia|]. cbn [rbind].
    exists (MoveAction step), (input s), g. by split_and!.
Qed.

(** The iteration that advances to the next entity. *)
Lemma turn_advance s e entity :
  state_wf s -> Board.getActiveEntity (board s) = Ok e ->
  Board.m_entities (board s) !! Board.m_entityIndex (board s) = Some e ->
  objects s !! e = Some entity -> turnReady entity = false ->
  exists s', turn s = Ok (inl s') /\ state_wf s' /\ same_game s s' /\
    turn_measure s' < turn_measure s.
Proof.
  intros Hwf Hact Hidx Hh Hready.
  assert (He : e ∈ Board.m_entities (board s)) by by eapply list_elem_of_lookup_2.
  destruct (player_at s Hwf) as (p & Hp & Hpok & Hrem & _).
  destruct (sw_entities _ Hwf e entity He Hh) as [Hok _].
  destruct (charge_ok entity Hok) as (c & Hc & Hcharge).
  assert (Hpos : 0 < turn_timer entity) by (unfold turnReady in Hready; by bools).
  rewrite (proj2 (Z.ltb_lt 0 (turn_timer entity)) Hpos) in Hcharge.
  destruct Hok as (_ & [_ Htm] & _).
  unfold turn. rewrite Hp. cbn [deref rbind]. rewrite Hrem, Hact. cbn [rbind].
  rewrite Hh. cbn [deref rbind]. rewrite Hready. cbn [negb].
  rewrite (advanceEntity_ok _ _ e entity _ (sw_board _ Hwf) Hact Hh Hcharge). cbn [rbind].
  eexists. split; [done|]. set (h' := <[e := _]> (objects s)).
  split; [|split; [done|]].
  - apply (state_wf_timers s Hwf e entity); [done|done|lia| |done|done].
    apply board_wf_index; [apply Hwf|by apply entities_nonempty].
  - destruct (active_index s e Hwf Hidx) as [Hplayer Hdist].
    unfold turn_measure. rewrite turn_distance_next by done.
    cbn [board with_board Board.m_entities Board.with_index].
    assert (Hs0 : active_ready s = 0).
    { unfold active_ready. by rewrite Hidx, Hh, Hready. }
    assert (Hs1 : 0 <= active_ready (with_board s h' (Board.with_index (board s)
      (next_index (board s)))) <= 1).
    { unfold active_ready. repeat case_match; lia. }
    assert (Hpt : player_timer (with_board s h' (Board.with_index (board s) (next_index (board s)))) =
      if bool_decide (e = player s) then Z.max 0 (turn_timer entity - c) else player_timer s).
    { unfold player_timer. simpl. unfold h'. rewrite lookup_insert.
      case_bool_decide; case_decide; congruence || done. }
    change (pending_input (with_board s h' _)) with (pending_input s).
    rewrite Hpt, Hs0. set (n := Z.of_nat _) in *.
    case_bool_decide as Heq.
    + rewrite (proj2 (Z.eqb_eq (turn_distance s) 0)) by tauto.
      assert (player_timer s = turn_timer entity) as ->.
      { unfold player_timer. rewrite <- Heq, Hh. lia. }
      assert (Z.max 0 (turn_timer entity - c) <= turn_timer entity - 1) by lia.
      assert (turn_distance s = 0) by tauto. nia.
    + rewrite (proj2 (Z.eqb_neq (turn_distance s) 0)) by tauto. lia.
Qed.

(** The measure after an entity has acted and waits for its next turn. *)
Lemma measure_acted s s' e entity :
  state_wf s -> same_game s s' ->
  Board.m_entities (board s) !! Board.m_entityIndex (board s) = Some e ->
  Board.m_entityIndex (board s') = Board.m_entityIndex (board s) ->
  objects s !! e = Some entity -> turnReady entity = true -> timers_ok entity ->
  (exists entity', objects s' !! e = Some entity' /\
     turn_timer entity' = turn_timer entity + kTurnTimer) ->
  (forall e', e' <> e -> objects s' !! e' = objects s !! e') ->
  (e = player s -> input s <> None /\ input s' = None) ->
  (e <> player s -> input s' = input s) ->
  turn_measure s' < turn_measure s.
Proof.
  intros Hwf (Hpl & Hes & Hmap & _) Hidx Hidx' Hh Hready [_ Ht] (entity' & Hh' & Ht') Hother Hin Hin'.
  pose proof (active_index s e Hwf Hidx) as [Hplayer Hdist].
  unfold turnReady in Hready. bools.
  assert (Hd : turn_distance s' = turn_distance s).
  { unfold turn_distance. by rewrite Hpl, Hes, Hidx'. }
  assert (Hr : active_ready s = 1).
  { unfold active_ready, turnReady. rewrite Hidx, Hh. by rewrite (proj2 (Z.leb_le _ _)). }
  assert (Hr' : active_ready s' = 0).
  { unfold active_ready, turnReady. rewrite Hes, Hidx', Hidx, Hh'.
    rewrite (proj2 (Z.leb_gt _ _)); [done|]. lia. }
  unfold turn_measure. rewrite Hd, Hr, Hr', Hes. set (n := Z.of_nat _) in *.
  destruct (decide (e = player s)) as [Heq|Hne].
  - destruct (Hin Heq) as [Hsome Hnone]. unfold pending_input. rewrite Hnone.
    destruct (input s); [|done]. assert (turn_distance s = 0) as -> by tauto.
    assert (player_timer s = 0) as ->.
    { unfold player_timer. rewrite <- Heq, Hh. lia. }
    assert (player_timer s' <= kTurnTimer).
    { unfold player_timer. rewrite Hpl, <- Heq, Hh'. unfold kTurnTimer in *. lia. }
    unfold kTurnTimer in *. nia.
  - unfold pending_input. rewrite Hin' by done.
    assert (player_timer s' = player_timer s) as ->; [|lia].
    unfold player_timer. rewrite Hpl, Hother by done. done.
Qed.

(** The iteration in which an entity acts. *)
Lemma turn_act s e entity :
  state_wf s -> Board.getActiveEntity (board s) = Ok e ->
  Board.m_entities (board s) !! Board.m_entityIndex (board s) = Some e ->
  objects s !! e = Some entity -> turnReady entity = true ->
  exists s', state_wf s' /\ same_game s s' /\
    (turn s = Ok (inl s') /\ turn_measure s' < turn_measure s \/
     turn s = Ok (inr s') /\ awaiting_input s').
Proof.
  intros Hwf Hact Hidx Hh Hready.
  assert (He : e ∈ Board.m_entities (board s)) by by eapply list_elem_of_lookup_2.
  destruct (player_at s Hwf) as (p & Hp & _ & Hrem & Hpflag).
  destruct (sw_entities _ Hwf e entity He Hh) as [Hok Hflag].
  assert (Hflag' : exists b, player_flag entity = Ok b) by apply entity_match_ok, Hok.
  destruct (plan_ok s entity Hwf Hflag') as (action & i & g & Hplan & Hi & Hi').
  destruct (act_ok s Hwf e entity action g i He Hh)
    as (h & b & r & entity' & Hactr & Hr & -> & [q ->] & Hwf1 & Hsame1 & Hbi & Hwait).
  unfold turn. rewrite Hp. cbn [deref rbind]. rewrite Hrem, Hact. cbn [rbind].
  rewrite Hh. cbn [deref rbind]. rewrite Hready. cbn [negb]. rewrite Hplan. cbn [rbind].
  rewrite Hactr. cbn [rbind player objects board].
  assert (Hflagp : e = player s -> player_flag entity = Ok true).
  { intros ->. rewrite Hp in Hh. by injection Hh as <-. }
  destruct (negb (success r) && bool_decide (e = player s)) eqn:Hstop.
  - bools. apply bool_decide_eq_true in H2. eexists.
    split; [exact Hwf1|]. split; [exact Hsame1|]. right. split; [done|].
    destruct Hsame1 as (_ & Hes & _). cbn [board] in Hes. split_and!.
    + cbn [board player]. unfold Board.getActiveEntity in *. by rewrite Hes, Hbi, Hact, H2.
    + cbn [input]. by apply Hi', Hflagp.
    + cbn [objects player]. rewrite <- H2, lookup_insert_eq. by eexists.
  - cbn [objects]. rewrite lookup_insert_eq. cbn [deref rbind].
    assert (moves r = 0 /\ turns r = 1) as [-> ->] by (destruct Hr as [-> | ->]; done).
    rewrite wait_turn. cbn [rbind]. eexists.
    assert (Hin1 : e ∈ Board.m_entities b).
    { destruct Hsame1 as (_ & Hes & _). cbn [board] in Hes. by rewrite Hes. }
    split; [|split; [|left; split; [done|]]].
    + apply (state_wf_timers _ Hwf1 e (set_pos entity q)); cbn [objects board].
      * exact Hin1.
      * apply lookup_insert_eq.
      * destruct Hok as (_ & [_ Ht] & _). unfold turnReady in Hready. bools.
        cbn [turn_timer set_pos]. unfold kTurnTimer in *. lia.
      * apply Hwf1.
      * reflexivity.
      * reflexivity.
    + exact Hsame1.
    + eapply measure_acted; try done; cbn [objects board input with_board].
      * apply Hok.
      * eexists. split; [apply lookup_insert_eq|done].
      * intros e' Hne. by rewrite !lookup_insert_ne by done.
      * intros Heq. destruct (Hi' (Hflagp Heq)) as [-> Hw]. split; [|done]. intros Hnone.
        specialize (Hwait (Hw Hnone)). subst r. rewrite bool_decide_true in Hstop by done. done.
      * intros Hne. by apply Hi, Hflag.
Qed.

Lemma turn_ok s : state_wf s ->
  exists s', state_wf s' /\ same_game s s' /\
    (turn s = Ok (inl s') /\ turn_measure s' < turn_measure s \/
     turn s = Ok (inr s') /\ awaiting_input s').
Proof.
  intros Hwf. destruct (active_at s Hwf) as (e & Hact & He & Hidx).
  destruct (entity_at s Hwf e He) as (entity & Hh & _).
  destruct (turnReady entity) eqn:Hready; [by apply (turn_act s e entity)|].
  destruct (turn_advance s e entity) as (s' & ? & ? & ? & ?); try done.
  exists s'. eauto.
Qed.

Lemma turn_measure_bounds s : state_wf s ->
  0 <= turn_measure s < Z.of_nat (update_fuel s).
Proof.
  intros Hwf. destruct (active_at s Hwf) as (e & _ & _ & Hidx).
  destruct (active_index s e Hwf Hidx) as [_ Hdist].
  destruct (player_at s Hwf) as (p & Hp & (_ & [_ Ht] & _) & _).
  assert (0 <= player_timer s <= kTurnTimer).
  { unfold player_timer. rewrite Hp. unfold kTurnTimer in *. lia. }
  assert (0 <= active_ready s <= 1) by (unfold active_ready; repeat case_match; lia).
  assert (0 <= pending_input s <= 1) by (unfold pending_input; case_match; lia).
  unfold turn_measure, update_fuel, kTurnTimer in *. set (n := Z.of_nat (length _)) in *.
  replace (Z.of_nat _) with (482 * n + 1) by lia. nia.
Qed.

(** The loop ends within its fuel, in a state that waits for input. *)
Lemma turn_loop_ok fuel s : state_wf s -> turn_measure s < Z.of_nat fuel ->
  exists s', turn_loop fuel s = Ok s' /\ state_wf s' /\ same_game s s' /\ awaiting_input s'.
Proof.
  revert s. induction fuel as [|fuel IH]; intros s Hwf Hm.
  { pose proof (turn_measure_bounds s Hwf). lia. }
  destruct (turn_ok s Hwf) as (s1 & Hwf1 & Hsame1 & [[Hturn Hless]|[Hturn Hend]]); simpl;
    rewrite Hturn; cbn [rbind].
  - destruct (IH s1 Hwf1) as (s2 & ? & ? & ? & ?); [lia|].
    exists s2. split_and!; try done. by etrans.
  - by exists s1.
Qed.

(** ** Input *)

Lemma processInput_ok s i : state_wf s -> state_wf (processInput s i) /\ same_game s (processInput s i).
Proof.
  intros Hwf. unfold processInput. case_match; [|done]. split; [|done].
  apply (state_wf_input s Hwf).
Qed.

Lemma drain_ok s inputs : state_wf s ->
  state_wf (fst (drain s inputs)) /\ same_game s (fst (drain s inputs)).
Proof.
  revert s. induction inputs as [|i inputs IH]; intros s Hwf; simpl; [done|].
  destruct (input s); [done|]. destruct (processInput_ok s i Hwf) as [Hwf1 Hs1].
  destruct (IH _ Hwf1). split; [done|]. by etrans.
Qed.

(** A state that waits takes at least one of the inputs there are. *)
Lemma drain_rest s inputs :
  (length (snd (drain s inputs)) <= length inputs)%nat /\
  (input s = None -> inputs <> [] -> length (snd (drain s inputs)) < length inputs)%nat.
Proof.
  revert s. induction inputs as [|i inputs IH]; intros s; simpl; [done|].
  destruct (input s); simpl; [split; [lia|done]|]. destruct (IH (processInput s i)) as [? _]. split; lia.
Qed.

Lemma updateState_rest s inputs s' rest :
  updateState s inputs = Ok (s', rest) ->
  (length rest <= length inputs)%nat /\
  (state_wf s -> awaiting_input s -> inputs <> [] -> length rest < length inputs)%nat.
Proof.
  destruct (drain_rest s inputs) as [Hle Hlt]. unfold updateState.
  destruct (objects s !! player s) as [p|] eqn:Hp; [|done]. cbn [deref rbind].
  destruct (removed p) eqn:Hrem; cbn [rbind].
  - destruct (turn_loop _ _); [|done]. intros [= <- <-]. split; [done|]. intros Hwf.
    destruct (sw_alive _ Hwf p Hp). congruence.
  - destruct (Board.getActiveEntity _) as [e|] eqn:Hact; [|done]. cbn [rbind]. case_bool_decide as He; cbn [rbind].
    + destruct (drain s inputs) as [s1 rest1]. destruct (turn_loop _ _); [|done]. intros [= <- <-].
      split; [done|]. intros _ (_ & Hnone & _). by apply Hlt.
    + destruct (turn_loop _ _); [|done]. intros [= <- <-]. split; [done|]. intros _ (Ha & _). congruence.
Qed.

Lemma updateState_ok s inputs : state_wf s ->
  exists s' inputs', updateState s inputs = Ok (s', inputs') /\
    state_wf s' /\ same_game s s' /\ awaiting_input s'.
Proof.
  intros Hwf. destruct (player_at s Hwf) as (p & Hp & _ & Hrem & _).
  destruct (active_at s Hwf) as (e & Hact & _).
  unfold updateState. rewrite Hp. cbn [deref rbind]. rewrite Hrem, Hact. cbn [rbind].
  case_bool_decide as Heq; cbn [rbind].
  - destruct (drain s inputs) as [s1 rest] eqn:Hdrain.
    destruct (drain_ok s inputs Hwf) as [Hwf1 Hs1]. rewrite Hdrain in Hwf1, Hs1. simpl in *.
    destruct (turn_loop_ok (update_fuel s1) s1 Hwf1) as (s2 & -> & ? & ? & ?);
      [by apply turn_measure_bounds|]. cbn [rbind].
    exists s2, rest. split_and!; try done. by etrans.
  - destruct (turn_loop_ok (update_fuel s) s Hwf) as (s2 & -> & ? & ? & ?);
      [by apply turn_measure_bounds|]. cbn [rbind]. by exists s2, inputs.
Qed.
End turn.

(** * what the constructor of [State] and a tick of [IO] establish *)

(** ** The starting position *)

Definition start_point : Point := Point.mk 15 15.

Section init.
Context {G : Type} `{RandomLaws G}.

(** Generating a board forgets the map it had. *)
Lemma initBoard_again h b b1 (g g1 g2 : G) :
  board_wf h b -> Board.m_entities b = [] -> initBoard b g = Ok (b1, g1) ->
  initBoard b1 g2 = initBoard b g2.
Proof.
  intros Hwf He Hinit. destruct (initBoard_ok h b g Hwf He) as (b' & g' & Hi & Hwf' & Hsz & Hsame & _).
  rewrite Hinit in Hi. injection Hi as <- <-.
  pose proof (cache_empty h b Hwf He) as Hc.
  destruct Hsame as (Hf & Hes & Hp & Hx).
  pose proof (cache_empty h b1 Hwf' ltac:(congruence)) as Hc'.
  assert (Hclear : Board.clearAllTiles b1 = Board.clearAllTiles b); [|unfold initBoard; by rewrite Hclear].
  assert (Hinitm : Matrix.m_init (Board.m_map b1) = Matrix.m_init (Board.m_map b)).
  { unfold initBoard in Hinit.
    destruct (clearAllTiles_wf h b Hwf Hc) as (b2 & dot & Hb2 & Hwf2 & _ & ->).
    rewrite Hb2 in Hinit. cbn [rbind] in Hinit.
    destruct (automata _ g) as [[walls g3]|]; [|done]. cbn [rbind] in Hinit.
    destruct (automata _ g3) as [[grass g4]|]; [|done]. cbn [rbind] in Hinit.
    rewrite tileType_hash, tileType_quote in Hinit. cbn [rbind] in Hinit.
    injection Hinit as <- _.
    match goal with |- context [paint ?s ?w ?gr ?wt ?gt ?bb] =>
      destruct (paint_map s w gr wt gt bb) as [-> _];
      destruct (put_rect_spec (paint_tile w gr wt gt) 0 (Point.x s) 0 (Point.y s)
        (Board.m_map bb) (bw_map _ _ Hwf2)) as [(_ & _ & ->) _]
    end. done. }
  assert (Hfill : forall v : Tile, Matrix.fill (Board.m_map b1) v = Matrix.fill (Board.m_map b) v).
  { intros v. apply Matrix.wf_ext; try (apply Matrix.fill_wf; by apply bw_map with h).
    - exact Hsz.
    - exact Hinitm.
    - intros p _. rewrite !Matrix.get_fill by (by apply bw_map with h).
      unfold Matrix.contains. change (Matrix.m_size (Board.m_map b1)) with (Board.getSize b1).
      rewrite Hsz, Hinitm. done. }
  unfold Board.clearAllTiles. destruct (tileType ch_dot) as [dot|]; [|done]. cbn [rbind].
  f_equal. unfold Board.with_map. rewrite Hfill, Hf, Hes, Hp, Hx, Hc, Hc'. done.
Qed.

(** A clock reading from which the generated board leaves [start] free. *)
Definition start_free (b : Board) (start : Point) (t : Z) : bool :=
  match initBoard b (rng_seed t : G) with
  | Ok (b, _) => bool_decide (Board.getStatus b start = Free)
  | Err _ => false
  end.

(** The loop stops at the first reading that leaves the start free. *)
Lemma seed_loop_first h b0 b start clock :
  board_wf h b0 -> Board.m_entities b0 = [] ->
  (forall g : G, initBoard b g = initBoard b0 g) ->
  seed_loop clock start b =
    match list_find (fun t => start_free b0 start t = true) clock with
    | Some (_, t) => initBoard b0 (rng_seed t)
    | None => Err OutOfFuel
    end.
Proof.
  intros Hwf He. revert b. induction clock as [|t clock IH]; intros b Hb; [done|].
  cbn [seed_loop]. rewrite Hb.
  destruct (initBoard_ok h b0 (rng_seed t) Hwf He) as (b1 & g1 & Hi & _).
  assert (Hst : start_free b0 start t = bool_decide (Board.getStatus b1 start = Free)).
  { unfold start_free. by rewrite Hi. }
  rewrite Hi. cbn [rbind list_find].
  destruct (bool_decide (Board.getStatus b1 start = Free)).
  - by rewrite decide_True by done.
  - rewrite decide_False by (by rewrite Hst). rewrite IH.
    + by destruct (list_find _ clock) as [[? ?]|].
    + intros g. by rewrite (initBoard_again h b0 b1 (rng_seed t) g1 g).
Qed.

(** ** Placing entities *)

(** A new object leaves the board as it was. *)
Lemma board_wf_alloc h b l ent :
  board_wf h b -> h !! l = None -> board_wf (<[l := ent]> h) b.
Proof using Type.
  intros [Hf Hm He Hn Hi Hp Hl Hv] Hnew.
  assert (Hkeep : forall e x, h !! e = Some x -> <[l := ent]> h !! e = Some x).
  { intros e x Hx. rewrite lookup_insert_ne; [done|]. congruence. }
  constructor; try done.
  - intros p e Hpe. destruct (Hp p e Hpe) as (? & x & ? & ?). eauto 6.
  - intros e Hin. destruct (Hl e Hin) as (x & ? & ?). eauto.
  - intros e v Hev. destruct (Hv e v Hev) as (? & ? & Hd). split_and!; [done..|].
    intros Hdirty. destruct (Hd Hdirty) as (x & ? & ?). eauto.
Qed.

Lemma alloc_ok (h : heap) ent : exists l, alloc h ent = (<[l := ent]> h, l) /\ h !! l = None.
Proof using Type.
  eexists. split; [done|]. apply not_elem_of_dom, is_fresh.
Qed.

Lemma fresh_entity h b l : board_wf h b -> h !! l = None -> l ∉ Board.m_entities b.
Proof using Type. intros Hwf Hl Hin. destruct (bw_live _ _ Hwf l Hin) as (? & ? & _). congruence. Qed.

(** A new entity on a free cell keeps the two invariants of the board. *)
Lemma place_ok h b l ent :
  board_wf h b -> standing h b -> h !! l = None -> Board.getStatus b (pos ent) = Free ->
  exists b', Board.addEntity (<[l := ent]> h) b l = Ok b' /\
    board_wf (<[l := ent]> h) b' /\ standing (<[l := ent]> h) b' /\
    Board.m_entities b' = Board.m_entities b ++ [l] /\ Board.m_map b' = Board.m_map b /\
    Board.m_entityIndex b' = Board.m_entityIndex b.
Proof using Type.
  intros Hwf Hst Hl Hfree. apply (getStatus_free h) in Hfree as [Htile Hpos]; [|done].
  destruct (addEntity_ok (<[l := ent]> h) b l ent) as (b' & Hadd & Hwf' & Hes & Hmap & _).
  { by apply board_wf_alloc. } { apply lookup_insert_eq. } { by eapply fresh_entity. } { done. }
  exists b'. rewrite Hadd. split; [done|]. split; [done|]. split; [|split; [done|split; [done|]]].
  - intros e x. rewrite Hes, lookup_insert. unfold Board.getTile. rewrite Hmap.
    intros [He| ->%list_elem_of_singleton]%elem_of_app.
    + case_decide; [subst|by apply Hst]. by intros [= <-].
    + rewrite decide_True by done. by intros [= <-].
  - unfold Board.addEntity in Hadd. rewrite lookup_insert_eq in Hadd. inv_ok. done.
Qed.

Lemma find_free_spec tries b dx dy (g g' : G) p :
  find_free tries b dx dy g = (Some p, g') -> Board.getStatus b p = Free.
Proof using Type.
  revert g. induction tries as [|tries IH]; intros g; [done|]. cbn [find_free].
  destruct (roll dx g) as [x g1], (roll dy g1) as [y g2].
  case_bool_decide; [by intros [= <- _]|]. apply IH.
Qed.

(** ** The initial state *)

(** The player on [start], then at most [n] Pidgeys, in the order of play. *)
Record populated (h : heap) (b : Board) (pl : loc) (n : Z) : Prop := {
  pop_board : board_wf h b;
  pop_standing : standing h b;
  pop_player : h !! pl = Some (Trainer_ctor "" start_point true kTrainerHP kTrainerSpeed);
  pop_entities : exists others, Board.m_entities b = pl :: others /\
    Z.of_nat (length others) <= n /\
    forall e, e ∈ others -> exists p pidgey, h !! e = Some pidgey /\ Pokemon_ctor "Pidgey" p = Ok pidgey;
  pop_index : Board.m_entityIndex b = O }.

Lemma Pidgey_ctor p : exists pidgey, Pokemon_ctor "Pidgey" p = Ok pidgey /\
  pos pidgey = p /\ entity_ok pidgey /\ player_flag pidgey = Ok false.
Proof using Type.
  assert (Hd : exists self, getIndividual "Pidgey" = Ok self /\
    species_speed (species self) = double_lit 1 3 /\ species_glyph (species self) = Wide_ 80).
  { unfold getIndividual, getSpecies. rewrite species_table_eq. cbn [rbind].
    rewrite lookup_insert_eq. cbn [at_key rbind]. eauto. }
  destruct Hd as (self & Hself & Hspeed & Hglyph). exists (Pokemon_of_individual self p).
  unfold Pokemon_ctor. rewrite Hself. cbn [rbind].
  split; [done|]. split; [done|]. split; [|done].
  split; [split; [done|]|split].
  - unfold Pokemon_of_individual, Entity_ctor. cbn [glyph]. rewrite Hglyph. by apply Wide_wide.
  - unfold timers_ok. cbn [move_timer turn_timer Pokemon_of_individual Entity_ctor].
    unfold kTurnTimer. lia.
  - unfold Pokemon_of_individual, Entity_ctor. cbn [speed]. rewrite Hspeed. apply speed_ok_pidgey.
Qed.

Lemma populated_wf h b pl n (g : G) :
  populated h b pl n -> state_wf (mkState h g b pl None).
Proof using Type.
  intros [Hwf Hst Hpl (others & Hes & _ & Hothers) _]. constructor; cbn [objects board player]; try done.
  - rewrite Hes. by left.
  - intros p. rewrite Hpl. by intros [= <-].
  - intros e entity Hin He. destruct (decide (e = pl)) as [->|Hne].
    + rewrite Hpl in He. injection He as <-. split; [|done]. split; [split; [done|by apply Wide_wide]|split].
      * unfold timers_ok. cbn [move_timer turn_timer Trainer_ctor Entity_ctor]. unfold kTurnTimer. lia.
      * apply speed_ok_trainer.
    + rewrite Hes in Hin. apply elem_of_cons in Hin as [?|Hin]; [done|].
      destruct (Hothers e Hin) as (p & pidgey & Hp & Hctor). rewrite He in Hp. injection Hp as <-.
      destruct (Pidgey_ctor p) as (pidgey & Hctor' & _ & Hok & Hflag).
      rewrite Hctor in Hctor'. by injection Hctor' as <-.
Qed.

Lemma add_pokemon_ok h b pl n (g : G) i :
  populated h b pl n ->
  exists h' b' g', add_pokemon (h, b, g) i = Ok (h', b', g') /\ populated h' b' pl (n + 1) /\
    Board.m_map b' = Board.m_map b.
Proof using Type.
  intros [Hwf Hst Hpl (others & Hes & Hlen & Hothers) Hidx]. unfold add_pokemon.
  destruct (find_free 100 b _ _ g) as [[p|] g'] eqn:Hfind.
  - apply find_free_spec in Hfind. destruct (Pidgey_ctor p) as (pidgey & Hctor & Hpos & _).
    rewrite Hctor. cbn [rbind]. destruct (alloc_ok h pidgey) as (l & -> & Hl).
    destruct (place_ok h b l pidgey) as (b' & -> & Hwf' & Hst' & Hes' & Hmap' & Hidx'); try done.
    { by rewrite Hpos. }
    cbn [rbind]. eexists _, _, _. split; [done|]. split; [|done]. constructor; try done.
    + rewrite lookup_insert_ne; [done|]. congruence.
    + exists (others ++ [l]). rewrite Hes', Hes. split; [done|]. split.
      { rewrite length_app. simpl. lia. }
      intros e [He| ->%list_elem_of_singleton]%elem_of_app.
      * destruct (Hothers e He) as (q & x & Hx & Hc). exists q, x.
        rewrite lookup_insert_ne; [done|]. congruence.
      * exists p, pidgey. rewrite lookup_insert_eq. done.
    + by rewrite Hidx'.
  - eexists _, _, _. split; [done|]. split; [|done]. constructor; try done.
    exists others. split_and!; [done|lia|done].
Qed.

Definition initial (s : State G) : Prop :=
  populated (objects s) (board s) (player s) 5 /\ input s = None /\
  Board.getSize (board s) = Point.mk kMapSize kMapSize /\
  generated (Point.mk kMapSize kMapSize) (board s).

Lemma add_pokemons_ok ks h b pl n (g : G) :
  populated h b pl n ->
  exists h' b' g', foldM add_pokemon (h, b, g) ks = Ok (h', b', g') /\
    populated h' b' pl (n + Z.of_nat (length ks)) /\ Board.m_map b' = Board.m_map b.
Proof using Type.
  revert h b n g. induction ks as [|i ks IH]; intros h b n g Hpop.
  - exists h, b, g. split; [done|]. split; [|done]. by rewrite Z.add_0_r.
  - destruct (add_pokemon_ok h b pl n g i Hpop) as (h1 & b1 & g1 & Hadd & Hpop1 & Hm1).
    destruct (IH h1 b1 (n + 1) g1 Hpop1) as (h2 & b2 & g2 & Hrest & Hpop2 & Hm2).
    exists h2, b2, g2. cbn [foldM]. rewrite Hadd. cbn [rbind]. split; [done|].
    split; [|congruence]. replace (n + Z.of_nat (length (i :: ks)))
      with (n + 1 + Z.of_nat (length ks)) by (simpl; lia). done.
Qed.

Lemma State_ctor_ok clock :
  exists b0, Board.make (Point.mk kMapSize kMapSize) = Ok b0 /\
    match list_find (fun t => start_free b0 start_point t = true) clock with
    | Some _ => exists s, State_ctor clock = Ok s /\ initial s
    | None => State_ctor clock = Err OutOfFuel
    end.
Proof using Type.
  destruct (board_make_ok (Point.mk kMapSize kMapSize)) as (b0 & Hmake & Hwf0 & Hsz & Hes & Hap & _ & Hidx);
    [done|done|].
  exists b0. split; [done|]. unfold State_ctor. rewrite Hmake. cbn [rbind]. rewrite Hsz.
  change (Point.mk (Z.quot _ 2) (Z.quot _ 2)) with start_point.
  rewrite (seed_loop_first ∅ b0) by done.
  destruct (list_find _ clock) as [[k t]|] eqn:Hfind; [|done].
  apply list_find_Some in Hfind as (_ & Hfree & _).
  destruct (initBoard_ok ∅ b0 (rng_seed t) (Hwf0 ∅) Hes) as (b & g & Hinit & Hwf & Hszb & Hsame & Hgen).
  unfold start_free in Hfree. rewrite Hinit in Hfree |- *. apply bool_decide_eq_true in Hfree.
  cbn [rbind]. destruct Hsame as (_ & Hesb & _ & Hidxb). rewrite Hes in Hesb.
  remember (Trainer_ctor "" start_point true kTrainerHP kTrainerSpeed) as trainer eqn:Ht.
  destruct (alloc_ok ∅ trainer) as (l & -> & Hl).
  destruct (place_ok ∅ b l trainer) as (b1 & -> & Hwf1 & Hst1 & Hes1 & Hm1 & Hidx1).
  { exact Hwf. } { intros e x. rewrite Hesb. intros He%elem_of_nil; destruct He. }
  { apply lookup_empty. } { rewrite Ht. exact Hfree. }
  cbn [rbind]. rewrite Hesb in Hes1.
  destruct (add_pokemons_ok (seqZ 0 5) (<[l := trainer]> ∅) b1 l 0 g) as (h2 & b2 & g2 & -> & Hpop & Hm2).
  { constructor; [exact Hwf1|exact Hst1|rewrite <- Ht; apply lookup_insert_eq| |rewrite Hidx1, Hidxb; exact Hidx].
    exists []. split; [exact Hes1|]. split; [apply Z.le_refl|]. intros e He%elem_of_nil. destruct He. }
  cbn [rbind]. eexists. split; [reflexivity|]. split; [exact Hpop|]. split; [reflexivity|].
  cbn [board]. assert (Hm : Board.m_map b2 = Board.m_map b) by congruence.
  unfold Board.getSize, generated, Board.getTile. rewrite Hm. rewrite Hsz in Hszb, Hgen.
  split; [exact Hszb|exact Hgen].
Qed.

Lemma initial_wf s : initial s -> state_wf s.
Proof using Type.
  intros (Hpop & Hin & _). destruct s as [h g b pl i]. simpl in *. subst i. by eapply populated_wf.
Qed.
End init.
