(* ===== verification/Render.v ===== *)
(** * Render: what a frame shows (src/game.cpp, [State::render] and [IO])

    The even columns of a frame show the board through the player's vision;
    the odd columns, which a wide glyph covers, are never written. *)

From S2P Require Import Prelude.
From S2P Require Import Base.
From S2P Require Import Geo.
From S2P Require Import Fov.
From S2P Require Import Entity.
From S2P Require Import Timers.
From S2P Require Import Board.
From S2P Require Import Vision.
From S2P Require Import BoardInv.
From S2P Require Import Rules.
From S2P Require Import InitBoard.
From S2P Require Import Game.
From S2P Require Import GameInv.

(** ** Writing glyphs at the cells of a list of points *)

Definition write_all (value : Point -> Glyph) (frame : Matrix Glyph) (ps : list Point) : Matrix Glyph :=
  foldl (fun frame p => Matrix.set frame (frame_pos p) (value p)) frame ps.

Lemma frame_pos_inj p q : frame_pos p = frame_pos q -> p = q.
Proof. unfold frame_pos, Point.add. destruct p, q. cbn. intros [= ? ?]. f_equal; lia. Qed.

Lemma frame_pos_odd p q : Z.odd (Point.x q) = true -> frame_pos p <> q.
Proof.
  intros Hodd <-. unfold frame_pos, Point.add in Hodd. cbn in Hodd.
  change (Z.odd (2 * Point.x p) = true) in Hodd. by rewrite Z.odd_mul in Hodd.
Qed.

Section write_all.
Context (value : Point -> Glyph).

Lemma write_all_same frame0 frame ps : same_frame frame0 frame -> same_frame frame0 (write_all value frame ps).
Proof.
  revert frame. induction ps as [|p ps IH]; intros frame Hs; [done|].
  unfold write_all in *. cbn [foldl]. apply IH. by apply same_frame_set.
Qed.

Lemma write_all_frame frame ps : Matrix.wf frame -> same_frame frame (write_all value frame ps).
Proof. intros. by apply write_all_same, same_frame_refl. Qed.

Lemma write_all_other frame ps q :
  Matrix.wf frame -> (forall p, p ∈ ps -> frame_pos p <> q) ->
  Matrix.get (write_all value frame ps) q = Matrix.get frame q.
Proof.
  revert frame. induction ps as [|p ps IH]; intros frame Hf Hq; [done|].
  unfold write_all in *. cbn [foldl]. rewrite IH.
  - apply Matrix.get_set_ne; [done|]. apply Hq. by left.
  - by apply Matrix.set_wf.
  - intros p' Hp'. apply Hq. by right.
Qed.

Lemma write_all_get frame ps p :
  Matrix.wf frame -> Matrix.contains frame (frame_pos p) = true ->
  Matrix.get (write_all value frame ps) (frame_pos p) =
    if bool_decide (p ∈ ps) then value p else Matrix.get frame (frame_pos p).
Proof.
  revert frame. induction ps as [|p' ps IH] using rev_ind; intros frame Hf Hp; [done|].
  unfold write_all in *. rewrite foldl_snoc. rewrite Matrix.get_set by apply (write_all_frame frame ps Hf).
  change (foldl _ frame ps) with (write_all value frame ps).
  rewrite (same_frame_contains frame) by (by apply write_all_frame).
  destruct (decide (p' = p)) as [->|Hne].
  - rewrite bool_decide_true by done. rewrite Hp. cbn [andb].
    rewrite bool_decide_true; [done|]. set_solver.
  - rewrite bool_decide_false by (intros Heq; by apply Hne, frame_pos_inj). cbn [andb].
    unfold write_all. rewrite IH by done. apply (f_equal (fun b : bool => if b then _ else _)).
    apply bool_decide_ext. set_solver.
Qed.
End write_all.

(** The cells of a rectangle in the order of the two nested loops. *)
Definition raster (size : Point) : list Point :=
  y ← seqZ 0 (Point.y size); (fun x => Point.mk x y) <$> seqZ 0 (Point.x size).

Lemma elem_of_raster size p :
  p ∈ raster size <-> 0 <= Point.x p < Point.x size /\ 0 <= Point.y p < Point.y size.
Proof.
  unfold raster. rewrite list_elem_of_bind. split.
  - intros (y & (x & -> & Hx)%list_elem_of_fmap & Hy). rewrite elem_of_seqZ in Hx, Hy. simpl. lia.
  - intros [Hx Hy]. exists (Point.y p). rewrite elem_of_seqZ. split; [|lia].
    apply list_elem_of_fmap. exists (Point.x p). rewrite elem_of_seqZ. split; [by destruct p|lia].
Qed.

Lemma raster_loop {S} (body : S -> Point -> S) size s :
  for_range 0 (Point.y size) (fun s y => for_range 0 (Point.x size) (fun s x => body s (Point.mk x y)) s) s =
  foldl body s (raster size).
Proof. unfold for_range, raster. rewrite !Z.sub_0_r. apply (foldl_nested body Point.mk). Qed.

(** ** The frame *)

Definition tile_shown (b : Board) (v : Vision) (p : Point) : Glyph :=
  if Board.canSee v p then tile_glyph (Board.getTile b p) else Empty.

Definition entity_at_pos (h : heap) (b : Board) (p : Point) : option Entity :=
  e ← Board.getEntity b p; h !! e.

(** The glyph of a cell: of the entity on it, else of its tile, if the cell
    is seen. *)
Definition shown (h : heap) (b : Board) (v : Vision) (p : Point) : Glyph :=
  if Board.canSee v p then
    match entity_at_pos h b p with
    | Some entity => glyph entity
    | None => tile_glyph (Board.getTile b p)
    end
  else Empty.

Definition entity_shown (h : heap) (b : Board) (p : Point) : Glyph :=
  match entity_at_pos h b p with Some entity => glyph entity | None => Empty end.

Definition seen_positions (h : heap) (v : Vision) (es : list loc) : list Point :=
  omap (fun e => entity ← h !! e; if Board.canSee v (pos entity) then Some (pos entity) else None) es.

Section frame.
Context (h : heap) (b : Board) (v : Vision) (Hwf : board_wf h b).

Lemma entity_at_pos_spec p entity :
  entity_at_pos h b p = Some entity <->
  exists e, e ∈ Board.m_entities b /\ h !! e = Some entity /\ pos entity = p.
Proof using Hwf.
  unfold entity_at_pos, Board.getEntity. rewrite bind_Some. split.
  - intros (e & Hp & Hh). destruct (bw_pos _ _ Hwf p e Hp) as (He & ent & Hh' & Hpos).
    exists e. split; [done|]. rewrite Hh in Hh'. by injection Hh' as <-.
  - intros (e & He & Hh & <-). exists e. split; [|done].
    destruct (bw_live _ _ Hwf e He) as (ent & Hh' & Hpos). rewrite Hh in Hh'.
    by injection Hh' as <-.
Qed.

Lemma elem_of_seen_positions p :
  p ∈ seen_positions h v (Board.m_entities b) <->
  Board.canSee v p = true /\ is_Some (entity_at_pos h b p).
Proof using Hwf.
  unfold seen_positions. rewrite list_elem_of_omap. split.
  - intros (e & He & (entity & Hh & Hif)%bind_Some). destruct (Board.canSee v _) eqn:Hsee; [|done].
    injection Hif as <-. split; [done|]. exists entity. apply entity_at_pos_spec. eauto.
  - intros (Hsee & entity & (e & He & Hh & <-)%entity_at_pos_spec). exists e. split; [done|].
    apply bind_Some. exists entity. by rewrite Hsee.
Qed.

Lemma render_entities_ok frame :
  foldM (render_entity h v) frame (Board.m_entities b) =
    Ok (write_all (entity_shown h b) frame (seen_positions h v (Board.m_entities b))).
Proof using Hwf.
  assert (Hall : forall e, e ∈ Board.m_entities b -> exists entity, h !! e = Some entity /\
    entity_shown h b (pos entity) = glyph entity).
  { intros e He. destruct (bw_live _ _ Hwf e He) as (entity & Hh & _). exists entity. split; [done|].
    unfold entity_shown. by rewrite (proj2 (entity_at_pos_spec (pos entity) entity)) by eauto. }
  revert Hall frame. generalize (Board.m_entities b) as es.
  induction es as [|e es IH]; intros Hall frame; [done|]. cbn [foldM].
  destruct (Hall e) as (entity & Hh & Hg); [by left|].
  unfold render_entity at 1, seen_positions. rewrite Hh. cbn [deref rbind omap list_omap].
  rewrite Hh. cbn [mbind option_bind].
  rewrite IH by (intros; apply Hall; by right).
  destruct (Board.canSee v (pos entity)); [|done].
  unfold write_all. cbn [foldl]. by rewrite Hg.
Qed.

(** The loops of [render] write [shown] into the even columns. *)
Lemma render_loops frame :
  Matrix.wf frame ->
  exists frame',
    foldM (render_entity h v)
      (for_range 0 (Point.y (Board.getSize b))
        (fun frame y => for_range 0 (Point.x (Board.getSize b))
          (fun frame x => render_tile b v frame (Point.mk x y)) frame) frame)
      (Board.getEntities b) = Ok frame' /\
    same_frame frame frame' /\
    (forall p, Matrix.contains (Board.m_map b) p = true -> Matrix.contains frame (frame_pos p) = true ->
      Matrix.get frame' (frame_pos p) = shown h b v p) /\
    (forall q, Z.odd (Point.x q) = true -> Matrix.get frame' q = Matrix.get frame q).
Proof using Hwf.
  intros Hf. rewrite (raster_loop (render_tile b v)).
  change (foldl (render_tile b v) frame (raster (Board.getSize b)))
    with (write_all (tile_shown b v) frame (raster (Board.getSize b))).
  unfold Board.getEntities. rewrite render_entities_ok. eexists. split; [done|].
  pose proof (write_all_frame (tile_shown b v) frame (raster (Board.getSize b)) Hf) as Hs1.
  set (frame1 := write_all _ frame _) in *. split; [by apply write_all_same|]. split.
  - intros p Hp Hfp. rewrite write_all_get; [|apply Hs1|by rewrite (same_frame_contains frame)].
    unfold shown, entity_shown. case_bool_decide as Hseen; rewrite elem_of_seen_positions in Hseen.
    + destruct Hseen as [Hsee [entity He]]. by rewrite Hsee, He.
    + unfold frame1. rewrite write_all_get by done. rewrite bool_decide_true.
      * unfold tile_shown. destruct (Board.canSee v p); [|done].
        destruct (entity_at_pos h b p) eqn:He; [|done]. destruct Hseen. split; [done|]. eauto.
      * apply elem_of_raster. apply Matrix.contains_spec in Hp. done.
  - intros q Hq. rewrite write_all_other; [|apply Hs1|intros p _; by apply frame_pos_odd].
    apply write_all_other; [done|]. intros p _. by apply frame_pos_odd.
Qed.
End frame.

(** ** [State::render], [IO] *)

(** The player's vision of the state: up to date and in the cache. *)
Definition player_vision {G} (s : State G) (v : Vision) : Prop :=
  Board.m_vision (board s) !! player s = Some v /\ dirty v = false /\
  exists p, objects s !! player s = Some p /\ vision_fresh (board s) p v.

(** A frame that shows the state in its even columns, and [old] in the odd
    ones. *)
Definition frame_shows {G} (s : State G) (v : Vision) (old frame : Matrix Glyph) : Prop :=
  (forall p, Matrix.contains (Board.m_map (board s)) p = true ->
    Matrix.contains old (frame_pos p) = true ->
    Matrix.get frame (frame_pos p) = shown (objects s) (board s) v p) /\
  (forall q, Z.odd (Point.x q) = true -> Matrix.get frame q = Matrix.get old q).

Definition frame_size : Point := Point.mk (2 * kMapSize) kMapSize.

(** The invariant of [IO]. *)
Record io_wf {G} (io : IO G) : Prop := {
  io_state : state_wf (IO.state io);
  io_frame : Matrix.wf (IO.frame io);
  io_frame_size : Matrix.size (IO.frame io) = frame_size;
  io_board_size : Board.getSize (board (IO.state io)) = Point.mk kMapSize kMapSize;
  io_tiles : generated (Point.mk kMapSize kMapSize) (board (IO.state io)) }.

(** What is shown is a wide glyph. *)
Lemma generated_wide size b p :
  generated size b -> Matrix.contains (Board.m_map b) p = true -> wide_glyph (tile_glyph (Board.getTile b p)).
Proof.
  intros (walls & grass & _ & _ & Htile) Hp. specialize (Htile p Hp).
  rewrite tileType_hash, tileType_quote, tileType_dot in Htile.
  repeat case_match; injection Htile as ->; by apply Wide_wide.
Qed.

Lemma shown_wide {G} (s : State G) size v p :
  state_wf s -> generated size (board s) -> Matrix.contains (Board.m_map (board s)) p = true ->
  wide_glyph (shown (objects s) (board s) v p).
Proof.
  intros Hwf Hgen Hp. unfold shown. destruct (Board.canSee v p); [|by apply Wide_wide].
  destruct (entity_at_pos _ _ p) as [entity|] eqn:He; [|by eapply generated_wide].
  apply (entity_at_pos_spec _ _ (sw_board _ Hwf)) in He as (e & Hin & Hh & _).
  destruct (sw_entities _ Hwf e entity Hin Hh) as [[[_ Hw] _] _]. done.
Qed.

Section render.
Context {G : Type} `{RandomLaws G}.
Implicit Types (s : State G) (io : IO G).

Lemma render_ok s frame :
  state_wf s -> Matrix.wf frame ->
  exists s' frame' v, render s frame = Ok (s', frame') /\ state_wf s' /\ same_game s s' /\
    objects s' = objects s /\ input s' = input s /\
    Board.m_entityIndex (board s') = Board.m_entityIndex (board s) /\
    player_vision s' v /\ same_frame frame frame' /\ frame_shows s' v frame frame'.
Proof.
  intros Hwf Hf. unfold render.
  destruct (getVision_ok _ _ _ (sw_board _ Hwf) (sw_player _ Hwf))
    as (v & p & Hget & Hp & Hd & Hs & Hfr).
  pose proof (getVision_wf _ _ _ _ _ (sw_board _ Hwf) (sw_player _ Hwf) Hget) as Hwf'.
  rewrite Hget. cbn [rbind]. set (b' := Board.with_vision _ _) in *.
  destruct (render_loops (objects s) b' v Hwf' frame Hf) as (frame' & -> & Hsame & Hshow & Hodd).
  cbn [rbind]. exists (with_board s (objects s) b'), frame', v.
  split; [done|]. split; [|split_and!; try done].
  - destruct Hwf. by constructor.
  - split; [apply lookup_insert_eq|]. split; [done|]. exists p. split; [done|exact Hfr].
Qed.

Lemma awaiting_same s s' :
  same_game s s' -> objects s' = objects s -> input s' = input s ->
  Board.m_entityIndex (board s') = Board.m_entityIndex (board s) ->
  awaiting_input s -> awaiting_input s'.
Proof.
  unfold awaiting_input, Board.getActiveEntity. intros (-> & -> & _) -> -> ->. done.
Qed.

Lemma generated_same size b b' : Board.m_map b' = Board.m_map b -> generated size b -> generated size b'.
Proof. unfold generated, Board.getTile. by intros ->. Qed.

Lemma tick_ok io : io_wf io ->
  exists io' v, IO.tick io = Ok io' /\ io_wf io' /\ same_game (IO.state io) (IO.state io') /\
    awaiting_input (IO.state io') /\ player_vision (IO.state io') v /\
    frame_shows (IO.state io') v (IO.frame io) (IO.frame io').
Proof.
  intros [Hs Hf Hfs Hbs Hgen]. unfold IO.tick, update.
  destruct (updateState_ok (IO.state io) (IO.inputs io) Hs)
    as (s1 & inputs' & -> & Hs1 & Hsame1 & Hend1). cbn [rbind].
  destruct (render_ok s1 (IO.frame io) Hs1 Hf)
    as (s2 & frame' & v & -> & Hs2 & Hsame2 & Ho & Hi & Hx & Hv & (Hfw & Hfsz & _) & Hshow).
  cbn [rbind]. eexists _, v. split; [done|].
  assert (Hsame : same_game (IO.state io) s2) by by etrans.
  split; [|split; [done|split; [by apply (awaiting_same s1)|done]]].
  constructor; cbn [IO.state IO.frame]; [done|done|..].
  - unfold Matrix.size in *. congruence.
  - destruct Hsame as (_ & _ & Hm & _). unfold Board.getSize. by rewrite Hm.
  - destruct Hsame as (_ & _ & Hm & _). by eapply generated_same.
Qed.

Lemma io_make_ok clock s :
  State_ctor clock = Ok s -> initial s ->
  exists io, IO.make clock = Ok io /\ IO.state io = s /\ IO.inputs io = [] /\ io_wf io /\
    forall q, Matrix.get (IO.frame io) q = Glyph0.
Proof.
  intros Hs Hinit. unfold IO.make. rewrite Hs. cbn [rbind].
  destruct (Matrix.make_defined frame_size Glyph0) as [m Hm]; [done|done|].
  pose proof Hm as Hm'. unfold frame_size in Hm'. rewrite Hm'. cbn [rbind].
  destruct (Matrix.make_ok _ _ _ Hm) as (Hsz & _).
  eexists. split; [done|]. split; [done|]. split; [done|]. split.
  - constructor; cbn [IO.state IO.frame].
    + by apply initial_wf.
    + by apply (Matrix.make_wf frame_size Glyph0).
    + done.
    + by destruct Hinit as (_ & _ & ? & _).
    + by destruct Hinit as (_ & _ & _ & ?).
  - intros q. by apply (Matrix.get_make frame_size).
Qed.
End render.

(** * a concrete state for the witnesses

    The smallest board that satisfies the invariants: trees everywhere but on
    the starting cell, which holds tall grass and the player. *)

Lemma sample_initial : exists s : State Z, initial s.
Proof.
  set (size := Point.mk kMapSize kMapSize).
  destruct (board_make_ok size) as (b0 & Hmake & Hwf0 & Hsz & Hes & Hap & _ & Hidx); [done|done|].
  pose proof (fun p => make_tiles size b0 p Hmake) as Htiles. clear Hmake.
  set (gt := mkTile (Wide ch_quote 561) FlagObscure "tall grass").
  destruct (setTile_fields b0 start_point gt) as (Hes1 & Hap1 & Hidx1 & _ & Hm1).
  pose proof (setTile_wf ∅ b0 start_point gt (Hwf0 ∅)) as Hwf1. set (b1 := Board.setTile b0 _ _) in *.
  assert (Hget : forall p, Board.getTile b1 p = if bool_decide (start_point = p) then gt
    else Matrix.get (Board.m_map b0) p).
  { intros p. unfold Board.getTile. rewrite Hm1, Matrix.get_set by apply (Hwf0 ∅).
    replace (Matrix.contains (Board.m_map b0) start_point) with true; [by rewrite andb_true_r|].
    symmetry. apply Matrix.contains_spec. unfold Board.getSize, Matrix.size in Hsz. rewrite Hsz.
    unfold size, start_point, kMapSize. cbn [Point.x Point.y]. lia. }
  remember (Trainer_ctor "" start_point true kTrainerHP kTrainerSpeed) as trainer eqn:Ht.
  destruct (place_ok ∅ b1 1%positive trainer) as (b2 & _ & Hwf2 & Hst2 & Hes2 & Hm2 & Hidx2).
  { done. } { intros e x. rewrite Hes1, Hes. by intros ?%elem_of_nil. } { done. }
  { apply (getStatus_free ∅); [done|]. rewrite Ht. cbn [pos Trainer_ctor Entity_ctor].
    rewrite Hget, Hap1, Hap. by rewrite bool_decide_true. }
  exists (mkState (<[1%positive := trainer]> ∅) 0 b2 1%positive None).
  split; [|split; [done|split]]; cbn [objects board player].
  - constructor; [done|done|rewrite <- Ht; apply lookup_insert_eq| |by rewrite Hidx2, Hidx1, Hidx].
    exists []. rewrite Hes2, Hes1, Hes. split_and!; [done|done|]. intros e He%elem_of_nil. destruct He.
  - unfold Board.getSize, Matrix.size. rewrite Hm2, Hm1, Matrix.set_size. exact Hsz.
  - destruct (Matrix.make_defined size true) as [grass Hgrass]; [done|done|].
    destruct (Matrix.make_ok _ _ _ Hgrass) as (Hgs & _).
    pose proof (Matrix.make_wf size true grass ltac:(done) ltac:(done) Hgrass) as Hgwf.
    exists (Matrix.set grass start_point false), grass. split; [|split].
    + split; [by apply Matrix.set_wf|]. rewrite Matrix.set_size. split; [done|].
      intros p Hp. rewrite Matrix.get_set_ne; [by apply (Matrix.get_make size)|done|].
      intros <-. unfold on_border in Hp. cbn in Hp. unfold kMapSize in Hp. lia.
    + split; [done|]. split; [done|]. intros p _. by apply (Matrix.get_make size).
    + intros p _. unfold Board.getTile. rewrite Hm2. fold (Board.getTile b1 p). rewrite Hget.
      rewrite Matrix.get_set, (Matrix.get_make size _ _ _ Hgrass) by done.
      replace (Matrix.contains grass start_point) with true.
      2:{ symmetry. apply Matrix.contains_spec. rewrite Hgs.
          unfold size, start_point, kMapSize. cbn [Point.x Point.y]. lia. }
      rewrite andb_true_r. case_bool_decide; [done|]. symmetry. apply Htiles.
Qed.

Lemma sample_state : exists s : State Z, state_wf s /\ initial s.
Proof. destruct sample_initial as (s & Hs). exists s. split; [by apply initial_wf|done]. Qed.

Lemma sample_io : exists io : IO Z, io_wf io.
Proof.
  destruct sample_initial as (s & Hinit).
  destruct (Matrix.make_defined frame_size Glyph0) as [frame Hframe]; [done|done|].
  exists (IO.mk s frame []). destruct (Matrix.make_ok _ _ _ Hframe) as (Hs & _).
  constructor; cbn [IO.state IO.frame].
  - by apply initial_wf.
  - by apply (Matrix.make_wf frame_size Glyph0).
  - done.
  - by destruct Hinit as (_ & _ & ? & _).
  - by destruct Hinit as (_ & _ & _ & ?).
Qed.
