(* ===== verification/BoardSpec.v ===== *)
(** * BoardSpec: the properties of the board *)

From S2P Require Import Prelude.
From S2P Require Import Base.
From S2P Require Import Geo.
From S2P Require Import Los.
From S2P Require Import Fov.
From S2P Require Import Entity.
From S2P Require Import Timers.
From S2P Require Import Board.
From S2P Require Import Vision.
From S2P Require Import BoardInv.
From S2P Require Import Rules.
From S2P Require Import InitBoard.
From S2P Require Import Game.
From S2P Require Import GameInv.
From S2P Require Import Render.

(** The tiles around an entity. *)
Definition tiles_around (b : Board) (entity : Entity) (p : Point) : Tile :=
  Board.getTile b (Point.add p (pos entity)).

Lemma visibilityAt_cell v entity q :
  offset v = Point.sub Board.radius_point (pos entity) ->
  Board.visibilityAt v q = cell (visibility v) (Point.sub q (pos entity)).
Proof.
  intros Ho. unfold Board.visibilityAt, cell. rewrite Ho. f_equal. apply Point.eq_iff.
  simpl. lia.
Qed.

(** C3: the vision of an entity on the board can always be computed; filling
    the cache keeps the invariant of the board. The light that
    [visibilityAt] reports solves the equations of [light_solution] and is
    their only solution: a cell is as bright as its brightest lit node of the
    trie, and a node passes on the light of its parent less the loss in tall
    grass. The entity's own cell has light 234 and no cell has more. *)
Theorem getVision_light h b e entity :
  board_wf h b -> e ∈ Board.m_entities b -> h !! e = Some entity ->
  exists b' v, Board.getVision h b e = Ok (b', v) /\ board_wf h b' /\
    Board.m_map b' = Board.m_map b /\ Board.m_vision b' !! e = Some v /\
    (forall q, Board.visibilityAt v q = cell (visibility v) (Point.sub q (pos entity))) /\
    light_solution (tiles_around b entity) (FOV.root (Board.m_fov b)) (visibility v) /\
    (forall v', light_solution (tiles_around b entity) (FOV.root (Board.m_fov b)) v' ->
      forall p, cell v' p = cell (visibility v) p) /\
    (forall q, -1 <= Board.visibilityAt v q <= 234) /\ Board.visibilityAt v (pos entity) = 234.
Proof.
  intros Hwf He Hh. destruct (getVision_ok h b e Hwf He) as (v & ent & Hget & Hh' & Hd & Hs & Ho & Hfr).
  rewrite Hh in Hh'. injection Hh' as <-.
  pose proof (getVision_wf _ _ _ _ _ Hwf He Hget) as Hwf'. pose proof (bw_fov _ _ Hwf) as Hfov.
  rewrite fresh_vision_light in Hfr.
  destruct (light_walk_solution (tiles_around b entity) _ Hfov) as (m & Hm & _ & Hbound & Hsol).
  change (fun p => Matrix.get (Board.m_map b) (Point.add p (pos entity))) with (tiles_around b entity) in Hfr.
  rewrite Hm in Hfr. injection Hfr as ->.
  pose proof (fun q => visibilityAt_cell v entity q Ho) as Hcell.
  assert (Hb : forall q, -1 <= Board.visibilityAt v q <= 234) by (intros q; apply Hbound).
  eexists _, v. split; [exact Hget|]. split; [done|]. split; [done|].
  split; [apply lookup_insert_eq|]. split; [done|]. split; [done|]. split; [|split; [done|]].
  - intros v' Hv' p. by apply (light_solution_unique (tiles_around b entity) (FOV.root (Board.m_fov b))).
  - pose proof (solution_lower _ _ _ Hsol _ (lit_root _ _ _)) as Hroot.
    destruct Hfov as (_ & Hrp & Hrpar). unfold node_light, light_at in Hroot. rewrite Hrpar, Hrp in Hroot.
    specialize (Hb (pos entity)). rewrite Hcell in *.
    replace (Point.sub (pos entity) (pos entity)) with Point.origin in *; [lia|].
    apply Point.eq_iff. simpl. lia.
Qed.

Theorem getVision_light_witness :
  exists (s : State Z) b' v, Board.getVision (objects s) (board s) (player s) = Ok (b', v) /\
    board_wf (objects s) b'.
Proof.
  destruct sample_state as (s & Hs & _). destruct (player_at s Hs) as (p & Hp & _).
  destruct (getVision_light (objects s) (board s) (player s) p (sw_board _ Hs) (sw_player _ Hs) Hp)
    as (b' & v & Hv & Hwf & _).
  exists s, b', v. split; assumption.
Defined.

(** C8: [setTile] keeps the cache coherent: after it, the vision that
    [getVision] returns for an entity is still the one that would be computed
    from the new map, whether it was cached or not. The tile changes only when
    the position is on the map, and no other tile changes. *)
Theorem setTile_coherent h b p tile e entity :
  board_wf h b -> e ∈ Board.m_entities b -> h !! e = Some entity ->
  let b1 := Board.setTile b p tile in
  board_wf h b1 /\
  (forall q, Board.getTile b1 q =
    if bool_decide (p = q) && Matrix.contains (Board.m_map b) p then tile else Board.getTile b q) /\
  exists b2 v, Board.getVision h b1 e = Ok (b2, v) /\
    fresh_vision (Board.m_fov b1) (Board.m_map b1) (pos entity) = Ok (visibility v).
Proof.
  intros Hwf He Hh b1. pose proof (setTile_wf h b p tile Hwf) as Hwf1.
  destruct (setTile_fields b p tile) as (He1 & _ & _ & _ & Hm1).
  split; [done|]. split.
  - intros q. unfold Board.getTile, b1. rewrite Hm1. apply Matrix.get_set, Hwf.
  - assert (He' : e ∈ Board.m_entities b1) by (unfold b1; by rewrite He1).
    destruct (getVision_ok h b1 e Hwf1 He') as (v & ent & Hget & Hh' & _ & _ & _ & Hfr).
    rewrite Hh in Hh'. injection Hh' as <-. by eexists _, v.
Qed.

Theorem setTile_coherent_witness :
  exists (s : State Z) tile, board_wf (objects s) (Board.setTile (board s) (Point.mk 3 3) tile).
Proof.
  destruct sample_state as (s & Hs & _). destruct (player_at s Hs) as (p & Hp & _).
  exists s, (mkTile Empty FlagNone "").
  destruct (setTile_coherent (objects s) (board s) (Point.mk 3 3) (mkTile Empty FlagNone "")
    (player s) p (sw_board _ Hs) (sw_player _ Hs) Hp) as (Hwf & _).
  exact Hwf.
Defined.

(** C26: [moveEntity] on a board that satisfies the invariant: to a cell
    without an entity it moves the entity, and afterwards [getEntity] finds it
    at the new position and nothing at the old one, every other entity and the
    order of play stay as they were, and the mover's cached vision is out of
    date; to an occupied cell it fails its last assertion, unless the entity
    stands there itself. *)
Theorem moveEntity_correct h b e entity to :
  board_wf h b -> e ∈ Board.m_entities b -> h !! e = Some entity ->
  match Board.m_entityAtPos b !! to with
  | Some other =>
      to <> pos entity -> other <> e /\ Board.moveEntity h b e to = Err AssertFailed
  | None =>
      exists b', Board.moveEntity h b e to = Ok (<[e := set_pos entity to]> h, b') /\
        board_wf (<[e := set_pos entity to]> h) b' /\
        Board.m_entities b' = Board.m_entities b /\ Board.m_map b' = Board.m_map b /\
        (forall p, Board.getEntity b' p =
          if bool_decide (p = to) then Some e
          else if bool_decide (p = pos entity) then None else Board.getEntity b p) /\
        forall v, Board.m_vision b' !! e = Some v -> dirty v = true
  end.
Proof.
  intros Hwf He Hh. destruct (bw_live _ _ Hwf e He) as (ent & Hh' & Hpe).
  rewrite Hh in Hh'. injection Hh' as <-.
  destruct (Board.m_entityAtPos b !! to) as [other|] eqn:Hto.
  - intros Hne. destruct (bw_pos _ _ Hwf to other Hto) as (_ & ent & Hho & Hpo). split.
    + intros ->. congruence.
    + unfold Board.moveEntity. rewrite Hh. cbn [deref rbind]. rewrite Hpe.
      rewrite (bool_decide_true (is_Some (Some e))) by eauto.
      rewrite (bool_decide_true (Some e = Some e)) by done. cbn [cpp_assert].
      rewrite lookup_delete_ne by congruence. rewrite Hto.
      by rewrite bool_decide_false.
  - destruct (moveEntity_ok h b e entity to Hwf He Hh Hto) as (b' & Hmove & Hwf' & Hm & Hes & _ & _ & Hap).
    exists b'. split; [done|]. split; [done|]. split; [done|]. split; [done|]. split.
    + intros p. unfold Board.getEntity. rewrite Hap, lookup_insert, lookup_delete.
      repeat case_decide; repeat case_bool_decide; congruence.
    + unfold Board.moveEntity in Hmove. rewrite Hh in Hmove. cbn [deref rbind] in Hmove. inv_ok.
      intros v (v0 & Hv0 & _ & _ & Hd)%dirtyVision_lookup.
      destruct (dirty v) eqn:E; [done|]. destruct (Hd eq_refl) as [_ Hx]. by destruct (Hx eq_refl) as (? & ? & _).
Qed.

Theorem moveEntity_correct_witness :
  exists (s : State Z) p, objects s !! player s = Some p /\
    match Board.m_entityAtPos (board s) !! Point.mk 1 1 with
    | Some other => Point.mk 1 1 <> pos p -> other <> player s
    | None => exists r, Board.moveEntity (objects s) (board s) (player s) (Point.mk 1 1) = Ok r
    end.
Proof.
  destruct sample_state as (s & Hs & _). destruct (player_at s Hs) as (p & Hp & _).
  exists s, p. split; [exact Hp|].
  pose proof (moveEntity_correct (objects s) (board s) (player s) p (Point.mk 1 1)
    (sw_board _ Hs) (sw_player _ Hs) Hp) as Hmove.
  destruct (Board.m_entityAtPos (board s) !! Point.mk 1 1) as [other|].
  - intros Hne. exact (proj1 (Hmove Hne)).
  - destruct Hmove as (b' & Hmove & _). eexists. exact Hmove.
Defined.

(** [addEntity] puts a new object at the end of the order of play when no
    entity stands at its position, and otherwise fails its assertion. *)
Theorem addEntity_correct h b e entity :
  board_wf h b -> h !! e = Some entity -> e ∉ Board.m_entities b ->
  match Board.getEntity b (pos entity) with
  | Some _ => Board.addEntity h b e = Err AssertFailed
  | None =>
      exists b', Board.addEntity h b e = Ok b' /\ board_wf h b' /\
        Board.getEntities b' = Board.getEntities b ++ [e] /\
        Board.getEntity b' (pos entity) = Some e /\
        forall p, p <> pos entity -> Board.getEntity b' p = Board.getEntity b p
  end.
Proof.
  intros Hwf Hh Hnew. unfold Board.getEntity. destruct (Board.m_entityAtPos b !! pos entity) eqn:Hp.
  - unfold Board.addEntity. rewrite Hh. cbn [deref rbind]. by rewrite Hp.
  - destruct (addEntity_ok h b e entity Hwf Hh Hnew Hp) as (b' & Hadd & Hwf' & Hes & _ & Hap).
    exists b'. split_and!; [done|done|done|..]; rewrite Hap; [apply lookup_insert_eq|].
    intros q Hq. by rewrite lookup_insert_ne.
Qed.

Theorem addEntity_correct_witness :
  exists (b b' : Board), Board.make (Point.mk 5 5) = Ok b /\
    Board.addEntity {[ 1%positive := Trainer_ctor "" (Point.mk 2 2) true 8 kTrainerSpeed ]} b 1%positive = Ok b'.
Proof.
  destruct (board_make_ok (Point.mk 5 5)) as (b & Hmake & Hwf & _ & Hes & Hap & _ & _); [vm_compute; congruence..|].
  pose proof (addEntity_correct {[ 1%positive := Trainer_ctor "" (Point.mk 2 2) true 8 kTrainerSpeed ]} b 1%positive
    (Trainer_ctor "" (Point.mk 2 2) true 8 kTrainerSpeed) (Hwf _) (lookup_singleton_eq _ _)) as Hadd.
  rewrite Hes in Hadd. specialize (Hadd (not_elem_of_nil _)). unfold Board.getEntity in Hadd.
  rewrite Hap, lookup_empty in Hadd. destruct Hadd as (b' & Hadd & _).
  exists b, b'. split; [exact Hmake|exact Hadd].
Defined.

(** [removeEntity] destroys the entity and forgets its position and its
    vision, but leaves its address in [m_entities]: the invariant of the board
    is lost, and when it is the turn of that entry again, reading the active
    entity's timers is undefined. *)
Theorem removeEntity_dangles {G} `{RandomEngine G} h b e entity (s : State G) pl p :
  board_wf h b -> e ∈ Board.m_entities b -> h !! e = Some entity ->
  exists h' b', Board.removeEntity h b e = Ok (h', b') /\
    h' !! e = None /\ Board.getEntity b' (pos entity) = None /\ Board.m_vision b' !! e = None /\
    e ∈ Board.getEntities b' /\ ~ board_wf h' b' /\
    (Board.getActiveEntity b = Ok e -> pl <> e -> h !! pl = Some p -> removed p = false ->
      turn (mkState h' (rng s) b' pl (input s)) = Err Undefined).
Proof.
  intros Hwf He Hh. destruct (bw_live _ _ Hwf e He) as (ent & Hh' & Hpe).
  rewrite Hh in Hh'. injection Hh' as <-. unfold Board.removeEntity. rewrite Hh. cbn [deref rbind].
  rewrite Hpe. rewrite (bool_decide_true (is_Some (Some e))) by eauto.
  rewrite (bool_decide_true (Some e = Some e)) by done. cbn [cpp_assert].
  eexists _, _. split; [done|]. split; [apply lookup_delete_eq|].
  split; [apply lookup_delete_eq|]. split; [apply lookup_delete_eq|]. split; [done|]. split.
  - intros Hwf'. destruct (bw_live _ _ Hwf' e He) as (ent & Hde & _). by rewrite lookup_delete_eq in Hde.
  - intros Hact Hne Hpl Hrem. unfold turn. cbn [objects player board].
    rewrite lookup_delete_ne by done. rewrite Hpl. cbn [deref rbind]. rewrite Hrem.
    unfold Board.getActiveEntity in *. cbn [Board.m_entityIndex Board.m_entities Board.with_vision Board.with_entities]. rewrite Hact. cbn [rbind].
    by rewrite lookup_delete_eq.
Qed.

Theorem removeEntity_dangles_witness :
  exists (s : State Z) h' b', Board.removeEntity (objects s) (board s) (player s) = Ok (h', b') /\
    ~ board_wf h' b'.
Proof.
  destruct sample_state as (s & Hs & _). destruct (player_at s Hs) as (p & Hp & _).
  destruct (removeEntity_dangles (objects s) (board s) (player s) p s (player s) p
    (sw_board _ Hs) (sw_player _ Hs) Hp) as (h' & b' & Hrem & _ & _ & _ & _ & Hbad & _).
  exists s, h', b'. split; [exact Hrem|exact Hbad].
Defined.

(** ** The range of sight *)

(** The light in a meadow of tall grass, computed once. *)
Definition grass_tile : Tile := mkTile (Wide ch_quote 561) FlagObscure "tall grass".

Definition meadow_light : result (Matrix Z) :=
  let* f := FOV.make kFOVRadius in
  FOV.fieldOfVision f (light_step (fun _ => grass_tile)) blank.

Definition meadow_ok (m : Matrix Z) : bool :=
  forallb (fun x => forallb (fun y =>
    Bool.eqb (0 <=? cell m (Point.mk x y)) (Point.lenNethack (Point.mk x y) <=? kVisionRadius))
    (seqZ (- kFOVRadius) (2 * kFOVRadius + 1))) (seqZ (- kFOVRadius) (2 * kFOVRadius + 1)).

Lemma meadow_light_ok : match meadow_light with Ok m => meadow_ok m = true | Err _ => False end.
Proof. vm_compute. reflexivity. Qed.

Lemma meadow_elim f m :
  FOV.make kFOVRadius = Ok f -> FOV.fieldOfVision f (light_step (fun _ => grass_tile)) blank = Ok m ->
  forall x y, Z.abs x <= kFOVRadius -> Z.abs y <= kFOVRadius ->
    (0 <=? cell m (Point.mk x y)) = (Point.lenNethack (Point.mk x y) <=? kVisionRadius).
Proof.
  intros Hf Hm x y Hx Hy.
  assert (E : meadow_light = Ok m) by (unfold meadow_light; rewrite Hf; exact Hm).
  pose proof meadow_light_ok as Hok. rewrite E in Hok. clear E Hf Hm. unfold meadow_ok in Hok.
  apply (forallb_range _ (- kFOVRadius) (kFOVRadius + 1) x) in Hok; [|lia].
  apply (forallb_range _ (- kFOVRadius) (kFOVRadius + 1) y) in Hok; [|lia].
  by apply eqb_prop.
Qed.

(** The equations look at the flags of the tiles within the radius. *)
Lemma light_solution_ext t1 t2 root v :
  fov_root kFOVRadius root ->
  (forall p k, Point.lenWalking p <= kFOVRadius -> has_flag (t1 p) k = has_flag (t2 p) k) ->
  light_solution t1 root v -> light_solution t2 root v.
Proof.
  intros Hroot Hflags [Hlow Hatt].
  assert (Hlight : forall n, node_in n -> node_light t1 v n = node_light t2 v n).
  { intros n [Hn _]. unfold node_light, light_at. by rewrite !Hflags by by apply node_ok_dist. }
  assert (Hlit : forall n, lit t1 root v n <-> lit t2 root v n).
  { intros n. split; induction 1 as [|n c Hn IH Hpos Hc]; try constructor 1;
      apply (lit_child _ _ v n); try done; pose proof (lit_in _ _ Hroot v n Hn) as Hin;
      by rewrite ?Hlight in * by done || rewrite <- ?Hlight by done. }
  split.
  - intros n Hn%Hlit. rewrite <- Hlight by by eapply lit_in. by apply Hlow.
  - intros p. destruct (Hatt p) as [?|(n & Hn & Hp & Hv)]; [by left|right]. exists n.
    rewrite <- Hlight by by eapply lit_in. split; [by apply Hlit|done].
Qed.

(** in a meadow of tall grass an entity sees exactly the cells at a
    [lenNethack] distance of at most [kVisionRadius], which is what the
    constants of [getVision] are chosen for. *)
Theorem tall_grass_range h b e entity q :
  board_wf h b -> e ∈ Board.m_entities b -> h !! e = Some entity ->
  FOV.make kFOVRadius = Ok (Board.m_fov b) ->
  (forall p, Point.lenWalking p <= kFOVRadius -> flags (tiles_around b entity p) = FlagObscure) ->
  Point.lenWalking (Point.sub q (pos entity)) <= kFOVRadius ->
  exists b', Board.canSee_entity h b e q =
    Ok (b', Point.lenNethack (Point.sub q (pos entity)) <=? kVisionRadius).
Proof.
  intros Hwf He Hh Hmake Hgrass Hq.
  destruct (getVision_ok h b e Hwf He) as (v & ent & Hget & Hh' & _ & _ & Ho & Hfr).
  rewrite Hh in Hh'. injection Hh' as <-.
  unfold Board.canSee_entity. rewrite Hget. cbn [rbind]. eexists. do 2 f_equal.
  unfold Board.canSee. rewrite (visibilityAt_cell v entity q Ho).
  pose proof (bw_fov _ _ Hwf) as Hfov. rewrite fresh_vision_light in Hfr.
  destruct (light_walk_solution (tiles_around b entity) _ Hfov) as (m & Hm & _ & _ & Hsol).
  change (fun p => Matrix.get (Board.m_map b) (Point.add p (pos entity))) with (tiles_around b entity) in Hfr.
  rewrite Hm in Hfr. injection Hfr as ->.
  destruct (light_walk_solution (fun _ => grass_tile) _ Hfov) as (m2 & Hm2 & _ & _ & Hsol2).
  assert (Hsame : cell (visibility v) (Point.sub q (pos entity)) = cell m2 (Point.sub q (pos entity))).
  { apply (light_solution_unique (tiles_around b entity) (FOV.root (Board.m_fov b))); [done|done|].
    apply (light_solution_ext (fun _ => grass_tile)); [done| |done].
    intros p k Hp. unfold has_flag. by rewrite Hgrass. }
  rewrite Hsame. unfold Point.lenWalking in Hq.
  destruct (Point.sub q (pos entity)) as [x y]. cbn [Point.x Point.y] in Hq.
  apply (meadow_elim (Board.m_fov b) m2 Hmake Hm2); lia.
Qed.

(** A meadow with one entity in its middle. *)
Lemma sample_meadow : exists h b e entity,
  board_wf h b /\ e ∈ Board.m_entities b /\ h !! e = Some entity /\ pos entity = start_point /\
  FOV.make kFOVRadius = Ok (Board.m_fov b) /\
  forall p, Point.lenWalking p <= kFOVRadius -> flags (tiles_around b entity p) = FlagObscure.
Proof.
  set (size := Point.mk kMapSize kMapSize).
  destruct (board_make_ok size) as (b0 & Hmake & Hwf0 & Hsz & Hes & Hap & _ & Hidx); [done|done|].
  pose proof (make_fov size b0 Hmake) as Hfov. revert Hfov.
  clear Hmake. set (b1 := Board.with_map b0 (Matrix.fill (Board.m_map b0) grass_tile)).
  assert (exists trainer, pos trainer = start_point) as [trainer Hpos].
  { by exists (Trainer_ctor "" start_point true kTrainerHP kTrainerSpeed). }
  assert (Hwf1 : board_wf (<[1%positive := trainer]> ∅) b1).
  { destruct (Hwf0 (<[1%positive := trainer]> ∅)) as [? ? ? ? ? ? ? Hv].
    constructor; try assumption; [by apply Matrix.fill_wf|]. cbn [Board.m_vision b1 Board.with_map Board.m_entities].
    intros e v Hev. destruct (Hv e v Hev) as [Hin _]. rewrite Hes in Hin. apply elem_of_nil in Hin. destruct Hin. }
  destruct (addEntity_ok _ b1 1%positive trainer Hwf1 (lookup_insert_eq _ _ _)) as (b2 & Hadd & Hwf2 & Hes2 & Hm2 & _).
  { cbn [b1 Board.with_map Board.m_entities]. rewrite Hes. apply not_elem_of_nil. }
  { cbn [b1 Board.with_map Board.m_entityAtPos]. rewrite Hap. apply lookup_empty. }
  replace (Board.m_fov b0) with (Board.m_fov b2) by apply (addEntity_fov _ _ _ _ Hadd). intros Hfov.
  exists (<[1%positive := trainer]> ∅), b2, 1%positive, trainer. split; [exact Hwf2|].
  split; [rewrite Hes2; apply elem_of_app; right; apply list_elem_of_singleton; reflexivity|].
  split; [apply lookup_insert_eq|]. split; [exact Hpos|]. split; [exact Hfov|].
  intros p Hp. clear Hfov. unfold tiles_around, Board.getTile. rewrite Hm2.
    cbn [b1 Board.with_map Board.m_map]. rewrite Matrix.get_fill by apply (Hwf0 ∅).
    assert (Matrix.contains (Board.m_map b0) (Point.add p (pos trainer)) = true) as ->; [|reflexivity].
    apply Matrix.contains_spec. unfold Board.getSize, Matrix.size in Hsz. rewrite Hsz.
    unfold Point.lenWalking, kFOVRadius in Hp.
    rewrite Hpos. cbn [Point.add Point.x Point.y start_point size]. unfold kMapSize. lia.
Qed.

Theorem tall_grass_range_witness : exists h b e b1 b2,
  Board.canSee_entity h b e (Point.mk 18 15) = Ok (b1, true) /\
  Board.canSee_entity h b e (Point.mk 18 18) = Ok (b2, false).
Proof.
  destruct sample_meadow as (h & b & e & entity & Hwf & He & Hh & Hpos & Hmake & Hgrass).
  destruct (tall_grass_range h b e entity (Point.mk 18 15) Hwf He Hh Hmake Hgrass) as (b1 & H1).
  { rewrite Hpos. vm_compute. congruence. }
  destruct (tall_grass_range h b e entity (Point.mk 18 18) Hwf He Hh Hmake Hgrass) as (b2 & H2).
  { rewrite Hpos. vm_compute. congruence. }
  rewrite Hpos in H1, H2. exists h, b, e, b1, b2. split; assumption.
Defined.
