(* ===== verification/GameSpec.v ===== *)
(** * GameSpec: the properties of the game *)

From S2P Require Import Prelude.
From S2P Require Import Base.
From S2P Require Import Geo.
From S2P Require Import Fov.
From S2P Require Import Entity.
From S2P Require Import Timers.
From S2P Require Import Board.
From S2P Require Import Vision.
From S2P Require Import BoardInv.
From S2P Require Import Rules.
From S2P Require Import InitBoard.
From S2P Require Import Game.
From S2P Require Import GameInv.
From S2P Require Import Render.

(** ** Turns *)

(** C2: [updateState] never fails and its loop over the turns ends within the
    fuel of the model, from every state that satisfies the invariant and for
    every generator whose draws stay between their bounds. It keeps the
    invariant, the map and the order of play, it takes inputs from the front
    of the queue only, and it stops when the player is to act and there is no
    pending input. *)
Theorem updateState_total {G} `{RandomLaws G} (s : State G) inputs :
  state_wf s ->
  exists s' taken rest, updateState s inputs = Ok (s', rest) /\ inputs = taken ++ rest /\
    state_wf s' /\ same_game s s' /\ awaiting_input s'.
Proof.
  intros Hwf. destruct (updateState_ok s inputs Hwf) as (s' & rest & Hrun & Hwf' & Hsame & Hend).
  assert (Hdrain : forall l (s0 : State G), exists taken, l = taken ++ snd (drain s0 l)).
  { induction l as [|i l IH]; intros s0; cbn [drain]; [by exists []|].
    destruct (input s0); [by exists []|]. destruct (IH (processInput s0 i)) as [taken Ht].
    exists (i :: taken). cbn [app]. by rewrite <- Ht. }
  assert (exists taken, inputs = taken ++ rest) as [taken Htaken].
  { unfold updateState in Hrun. inv_ok. destruct (removed _); inv_ok; [by exists []|].
    case_bool_decide; inv_ok; [|by exists []]. destruct (drain s inputs) as [s1 l1] eqn:E. inv_ok.
    destruct (Hdrain inputs s) as [taken Ht]. rewrite E in Ht. by exists taken. }
  by exists s', taken, rest.
Qed.

Theorem updateState_total_witness : exists (s s' : State Z) rest, state_wf s /\
  updateState s [104; 106] = Ok (s', rest).
Proof.
  destruct sample_state as (s & Hs & _).
  destruct (updateState_total s [104; 106] Hs) as (s' & taken & rest & Hrun & _).
  exists s, s', rest. split; [exact Hs|exact Hrun].
Defined.

(** reading input: while no action is pending, [updateState] skips the
    keys that mean nothing and stops behind the first that names a direction,
    which becomes the pending action; with an action pending it takes none. *)
Theorem drain_first_action {G} `{RandomEngine G} (s : State G) inputs :
  match input s with
  | Some _ => drain s inputs = (s, inputs)
  | None =>
      exists skipped, Forall (fun i => key_dir (i8 i) = None) skipped /\
        (inputs = skipped /\ drain s inputs = (s, []) \/
         exists i rest dir, inputs = skipped ++ i :: rest /\ key_dir (i8 i) = Some dir /\
           drain s inputs = (with_input s (Some (MoveAction dir)), rest))
  end.
Proof.
  destruct (input s) eqn:Hin; [by destruct inputs; cbn [drain]; rewrite ?Hin|].
  induction inputs as [|i inputs IH]; [by exists []; split; [done|left]|].
  cbn [drain]. rewrite Hin. destruct (key_dir (i8 i)) as [dir|] eqn:Hdir.
  - exists []. split; [done|]. right. exists i, inputs, dir. split; [done|]. split; [done|].
    unfold processInput. rewrite Hdir. by destruct inputs.
  - assert (processInput s i = s) as -> by by unfold processInput; rewrite Hdir.
    destruct IH as (skipped & Hsk & Hor). exists (i :: skipped). split; [by constructor|].
    destruct Hor as [[-> ->]|(j & rest & dir & -> & Hj & ->)]; [by left|right].
    by exists j, rest, dir.
Qed.

(** C27: [act] on an entity of a well-formed state never fails. A step moves
    the entity exactly when it is not the zero step and the cell it leads to
    is free; a step to a blocked or occupied cell, or waiting for input, is
    the failure result and changes nothing; the invariant of the game holds
    again afterwards. *)
Theorem act_correct {G} (s : State G) e entity action :
  state_wf s -> e ∈ Board.m_entities (board s) -> objects s !! e = Some entity ->
  exists h b r, act (objects s) (board s) e action = Ok (h, b, r) /\
    state_wf (mkState h (rng s) b (player s) (input s)) /\
    match action with
    | IdleAction => h = objects s /\ b = board s /\ r = kSuccess
    | WaitForInputAction => h = objects s /\ b = board s /\ r = kFailure
    | MoveAction step =>
        let to := Point.add (pos entity) step in
        if decide (step = Point.origin) then h = objects s /\ b = board s /\ r = kSuccess
        else if decide (Board.getStatus (board s) to = Free) then
          h = <[e := set_pos entity to]> (objects s) /\ r = kSuccess /\
          Board.getEntity b to = Some e /\ Board.getEntity b (pos entity) = None
        else h = objects s /\ b = board s /\ r = kFailure
    end.
Proof.
  intros Hwf He Hh. destruct (act_ok s Hwf e entity action (rng s) (input s) He Hh)
    as (h & b & r & entity' & Hact & _ & Hheq & _ & Hwf' & _ & _ & _).
  exists h, b, r. split; [done|]. split; [done|]. clear Hwf' Hheq. revert Hact.
  destruct action as [|step|]; cbn [act]; [by intros [= <- <- <-]| |by intros [= <- <- <-]].
  rewrite Hh. cbn [deref rbind]. case_decide as Hstep.
  { subst step. rewrite Point.add_origin, Point.eqb_refl. by intros [= <- <- <-]. }
  assert (Point.eqb (Point.add (pos entity) step) (pos entity) = false) as ->.
  { apply Point.eqb_false. intros Heq. apply Hstep. apply (Point.add_inj_r _ _ (pos entity)).
    rewrite (Point.add_comm step), Heq. apply Point.eq_iff. simpl. lia. }
  set (to := Point.add (pos entity) step) in *. case_decide as Hfree.
  - rewrite bool_decide_true by done. cbn [negb].
    apply (getStatus_free (objects s)) in Hfree as [_ Hpos]; [|apply Hwf].
    destruct (moveEntity_ok _ _ e entity to (sw_board _ Hwf) He Hh Hpos)
      as (b' & -> & _ & _ & _ & _ & _ & Hap). cbn [rbind]. intros [= <- <- <-].
    split; [done|]. split; [done|]. unfold Board.getEntity. rewrite Hap.
    split; [apply lookup_insert_eq|]. rewrite lookup_insert_ne, lookup_delete_eq; [done|].
    intros Heq. apply Hstep. apply (Point.add_inj_r _ _ (pos entity)).
    rewrite (Point.add_comm step). change (Point.add (pos entity) step) with to. rewrite Heq.
    apply Point.eq_iff. simpl. lia.
  - rewrite bool_decide_false by done. cbn [negb]. by intros [= <- <- <-].
Qed.

Theorem act_correct_witness : exists (s : State Z) h b r,
  act (objects s) (board s) (player s) (MoveAction (Point.mk 1 0)) = Ok (h, b, r).
Proof.
  destruct sample_state as (s & Hs & _). destruct (player_at s Hs) as (p & Hp & _).
  destruct (act_correct s (player s) p (MoveAction (Point.mk 1 0)) Hs (sw_player _ Hs) Hp)
    as (h & b & r & Hact & _).
  exists s, h, b, r. exact Hact.
Defined.

(** ** Frames *)

(** C25: [render] never fails. In the frame the even column of each cell of the
    board holds what the player sees there: the glyph of the entity on the
    cell, else the glyph of its tile, and the empty glyph where the player's
    vision, computed afresh or cached, has no light. The odd columns are left
    as they were, and the game has not changed but for its cache. *)
Theorem render_correct {G} `{RandomLaws G} (s : State G) frame :
  state_wf s -> Matrix.wf frame ->
  exists s' frame' v, render s frame = Ok (s', frame') /\
    state_wf s' /\ same_game s s' /\ objects s' = objects s /\ input s' = input s /\
    player_vision s' v /\ Matrix.size frame' = Matrix.size frame /\
    (forall p, Matrix.contains (Board.m_map (board s)) p = true ->
      Matrix.contains frame (frame_pos p) = true ->
      Matrix.get frame' (frame_pos p) =
        if Board.canSee v p then
          match entity_at_pos (objects s) (board s) p with
          | Some entity => glyph entity
          | None => tile_glyph (Board.getTile (board s) p)
          end
        else Empty) /\
    forall q, Z.odd (Point.x q) = true -> Matrix.get frame' q = Matrix.get frame q.
Proof.
  intros Hwf Hf. destruct (render_ok s frame Hwf Hf)
    as (s' & frame' & v & Hrender & Hwf' & Hsame & Hobj & Hin & _ & Hv & (_ & Hsz & _) & Hshow & Hodd).
  exists s', frame', v. do 7 (split; [done|]). split; [|done].
  intros p Hp Hfp. pose proof Hsame as (_ & Hes & Hm & _).
  rewrite Hshow; [|by rewrite Hm|done]. unfold shown, Board.getTile. rewrite Hm.
  destruct (Board.canSee v p); [|done].
  assert (entity_at_pos (objects s') (board s') p = entity_at_pos (objects s) (board s) p) as ->; [|done].
  apply option_eq. intros entity. rewrite !entity_at_pos_spec by apply sw_board, Hwf || apply sw_board, Hwf'.
  by rewrite Hes, Hobj.
Qed.

Theorem render_correct_witness : exists (s s' : State Z) frame frame', render s frame = Ok (s', frame').
Proof.
  destruct sample_io as (io & [Hs Hf _ _ _]).
  destruct (render_correct (IO.state io) (IO.frame io) Hs Hf) as (s' & frame' & v & Hrender & _).
  exists (IO.state io), s', (IO.frame io), frame'. exact Hrender.
Defined.

(** ** The initial state *)

(** C23: the constructor of [State] stops at the first reading of the clock
    whose board leaves the start free (and runs on when there is none). The
    state it builds satisfies the invariant of the game: the player stands on
    the start, followed in the order of play by at most five Pidgeys, each on a
    free cell of its own, the player's entry is the active one and no input is
    pending. *)
Theorem State_ctor_initial {G} `{RandomEngine G} clock :
  exists b0, Board.make (Point.mk kMapSize kMapSize) = Ok b0 /\
    match list_find (fun t => start_free (G := G) b0 start_point t = true) clock with
    | None => State_ctor (G := G) clock = Err OutOfFuel
    | Some _ =>
        exists s : State G, State_ctor clock = Ok s /\ state_wf s /\
          input s = None /\ Board.getActiveEntity (board s) = Ok (player s) /\
          objects s !! player s = Some (Trainer_ctor "" start_point true kTrainerHP kTrainerSpeed) /\
          exists others, Board.getEntities (board s) = player s :: others /\
            (length others <= 5)%nat /\ NoDup (player s :: others) /\
            forall e, e ∈ others -> exists p pidgey, Pokemon_ctor "Pidgey" p = Ok pidgey /\
              objects s !! e = Some pidgey /\ p <> start_point /\
              Board.getStatus (board s) p = Occupied
    end.
Proof.
  destruct (State_ctor_ok clock) as (b0 & Hb0 & Hctor). exists b0. split; [exact Hb0|].
  clear Hb0. destruct (list_find _ clock) as [found|]; [|exact Hctor].
  destruct Hctor as (s & Hs & Hinit). exists s. split; [done|].
  pose proof (initial_wf s Hinit) as Hwf. split; [done|].
  destruct Hinit as ([Hb Hst Hpl (others & Hes & Hlen & Hothers) Hidx] & Hin & _).
  split; [done|]. split; [unfold Board.getActiveEntity; by rewrite Hidx, Hes|]. split; [exact Hpl|].
  exists others. split; [done|]. split; [lia|]. split; [rewrite <- Hes; apply Hb|].
  intros e He. destruct (Hothers e He) as (p & pidgey & Hh & Hctor). exists p, pidgey.
  split; [done|]. split; [done|]. destruct (Pokemon_fields _ _ _ Hctor) as (Hpos & _).
  assert (Hin' : e ∈ Board.m_entities (board s)) by (rewrite Hes; by right).
  assert (Hne : e <> player s).
  { intros ->. pose proof (bw_nodup _ _ Hb) as Hnd. rewrite Hes in Hnd. apply NoDup_cons in Hnd as [Hnin _].
    exact (Hnin He). }
  clear Hctor. destruct (bw_live _ _ Hb e Hin') as (ent & Hh' & Hat). rewrite Hh in Hh'. injection Hh' as <-.
  rewrite Hpos in Hat. split.
  - intros ->. apply Hne. apply (positions_distinct _ _ e (player s) pidgey
      (Trainer_ctor "" start_point true kTrainerHP kTrainerSpeed) Hb); [done| |done|exact Hpl|exact Hpos].
    rewrite Hes. by left.
  - unfold Board.getStatus. pose proof (Hst e pidgey Hin' Hh) as Hfree. rewrite Hpos in Hfree.
    rewrite Hfree, Hat. by rewrite bool_decide_true.
Qed.

(** ** The map *)

(** The cells that the automaton counts: the eight neighbours, and those of
    the square of side five but for its corners. *)
Definition square : list Point := dy ← seqZ (-2) 5; (fun dx => Point.mk dx dy) <$> seqZ (-2) 5.
Definition near1 (d : Point) : Prop := Point.lenWalking d = 1.
Definition near2 (d : Point) : Prop :=
  1 <= Point.lenWalking d <= 2 /\ ~ (Z.abs (Point.x d) = 2 /\ Z.abs (Point.y d) = 2).

#[export] Instance near1_dec d : Decision (near1 d).
Proof. unfold near1. apply _. Defined.
#[export] Instance near2_dec d : Decision (near2 d).
Proof. unfold near2. apply _. Defined.

(** A set cell of the matrix; there is none outside. *)
Definition is_set (m : Matrix bool) (p : Point) : Prop := Matrix.contains m p && Matrix.get m p = true.

#[export] Instance is_set_dec m p : Decision (is_set m p).
Proof. unfold is_set. apply _. Defined.

Definition count_near (near : Point -> Prop) `{forall d, Decision (near d)} (m : Matrix bool) (p : Point) : Z :=
  Z.of_nat (length (filter (fun d => near d /\ is_set m (Point.add p d)) square)).

Lemma count_step_near m x y d adj :
  d ∈ square ->
  count_step m x y (Point.y d) adj (Point.x d) =
    (fst adj + (if decide (near1 d /\ is_set m (Point.add (Point.mk x y) d)) then 1 else 0),
     snd adj + (if decide (near2 d /\ is_set m (Point.add (Point.mk x y) d)) then 1 else 0)).
Proof.
  destruct d as [dx dy], adj as [a1 a2]. cbn [Point.x Point.y fst snd]. intros Hd.
  assert (Hr : -2 <= dx <= 2 /\ -2 <= dy <= 2).
  { unfold square in Hd. apply list_elem_of_bind in Hd as (y0 & (x0 & [= -> ->] & Hx)%list_elem_of_fmap & Hy).
    rewrite elem_of_seqZ in Hx, Hy. lia. }
  change (Point.add (Point.mk x y) (Point.mk dx dy)) with (Point.mk (x + dx) (y + dy)).
  unfold count_step. set (next := Point.mk (x + dx) (y + dy)).
  destruct (decide (is_set m next)) as [Hset|Hset].
  - assert (Hif : forall (P : Prop) (dec : Decision P) (dec' : Decision (P /\ is_set m next)),
      (if @decide _ dec' then 1 else 0) = (if @decide _ dec then 1 else 0)).
    { intros. repeat case_decide; tauto. }
    rewrite !(Hif _ _ _). unfold is_set in Hset. rewrite Hset. cbn [negb].
    repeat case_decide; unfold near1, near2, Point.lenWalking in *; cbn [Point.x Point.y] in *;
      repeat case_match; bools; try (f_equal; lia); exfalso; lia.
  - assert (Hif : forall (P : Prop) (dec : Decision (P /\ is_set m next)),
      (if @decide _ dec then 1 else 0) = 0) by (intros; case_decide; tauto).
    rewrite !Hif. unfold is_set in Hset. apply not_true_is_false in Hset. rewrite Hset. cbn [negb].
    repeat case_match; f_equal; lia.
Qed.

Lemma count_adj_near m x y :
  count_adj m x y = (count_near near1 m (Point.mk x y), count_near near2 m (Point.mk x y)).
Proof.
  unfold count_adj, for_range.
  change (3 - -2) with 5.
  rewrite (foldl_nested (fun adj d => count_step m x y (Point.y d) adj (Point.x d)) Point.mk).
  fold square. unfold count_near.
  assert (Hgen : forall l a, (forall d, d ∈ l -> d ∈ square) ->
    foldl (fun adj d => count_step m x y (Point.y d) adj (Point.x d)) a l =
    (fst a + Z.of_nat (length (filter (fun d => near1 d /\ is_set m (Point.add (Point.mk x y) d)) l)),
     snd a + Z.of_nat (length (filter (fun d => near2 d /\ is_set m (Point.add (Point.mk x y) d)) l)))).
  { induction l as [|d l IH]; intros a Hl; cbn [foldl].
    - rewrite !filter_nil. destruct a. cbn. f_equal; lia.
    - rewrite IH by (intros; apply Hl; by right). rewrite count_step_near by (apply Hl; by left).
      cbn [fst snd]. rewrite !filter_cons. repeat case_decide; cbn [length]; f_equal; lia. }
  rewrite Hgen by done. done.
Qed.

#[export] Instance on_border_dec size p : Decision (on_border size p).
Proof. unfold on_border. apply _. Defined.

(** one generation of the automaton, against its rule: a cell on the
    border keeps its value; an inner cell becomes set when at least five of
    its eight neighbours are, or, in the first two generations, when at most
    one of the twenty cells around it is. *)
Theorem smooth_correct size m i p :
  Matrix.wf m -> Matrix.m_size m = size -> Matrix.contains m p = true ->
  Matrix.get (smooth size m i) p =
    if bool_decide (on_border size p) then Matrix.get m p
    else bool_decide (5 <= count_near near1 m p \/ i < 2 /\ count_near near2 m p <= 1).
Proof.
  intros Hm Hs Hp. rewrite smooth_get by done. apply Matrix.contains_spec in Hp. rewrite Hs in Hp.
  rewrite count_adj_near. destruct p as [x y]. cbn [Point.x Point.y] in *. unfold cell_blocked.
  case_rect; cbn [Point.x Point.y] in *; case_bool_decide as Hb; unfold on_border in Hb; cbn [Point.x Point.y] in Hb;
    try lia; [|done].
  apply eq_true_iff_eq. rewrite orb_true_iff, andb_true_iff, bool_decide_eq_true, !Z.leb_le, Z.ltb_lt. done.
Qed.

Theorem smooth_correct_witness :
  Matrix.get (smooth (Point.mk 3 3) (Matrix.mk (Point.mk 3 3) false
    [true; true; true; true; false; true; false; false; false]) 2) (Point.mk 1 1) = true.
Proof.
  rewrite (smooth_correct (Point.mk 3 3) (Matrix.mk (Point.mk 3 3) false
    [true; true; true; true; false; true; false; false; false]) 2 (Point.mk 1 1));
    [vm_compute; reflexivity|split_and!; vm_compute; congruence|reflexivity|reflexivity].
Defined.

(** C28: [initBoard] on a board without entities never fails, whatever the
    generator draws. It keeps the size, the invariant and the (empty) order of
    play; every tile of the new map is one of the three of [tileType], and
    every tile on the border is a tree. *)
Theorem initBoard_correct {G} `{RandomEngine G} h b (g : G) :
  board_wf h b -> Board.m_entities b = [] ->
  exists b' g', initBoard b g = Ok (b', g') /\ board_wf h b' /\
    Board.getSize b' = Board.getSize b /\ Board.getEntities b' = [] /\
    (forall p, Matrix.contains (Board.m_map b') p = true ->
      Ok (Board.getTile b' p) ∈ [tileType ch_dot; tileType ch_quote; tileType ch_hash] /\
      (on_border (Board.getSize b) p -> Ok (Board.getTile b' p) = tileType ch_hash)).
Proof.
  intros Hwf Hes. destruct (initBoard_ok h b g Hwf Hes)
    as (b' & g' & Hinit & Hwf' & Hsz & (_ & Hes' & _) & walls & grass & (_ & _ & Hwalls) & _ & Htile).
  exists b', g'. split; [done|]. split; [done|]. split; [done|].
  split; [unfold Board.getEntities; by rewrite Hes'|]. intros p Hp. specialize (Htile p Hp). split.
  - rewrite Htile. repeat case_match; set_solver.
  - intros Hb. by rewrite Htile, (Hwalls p Hb).
Qed.

Theorem initBoard_correct_witness : exists (b b' : Board) (g' : Z),
  initBoard b 5 = Ok (b', g') /\ Board.getSize b' = Point.mk 4 4.
Proof.
  destruct (board_make_ok (Point.mk 4 4)) as (b & _ & Hwf & Hsz & Hes & _); [vm_compute; congruence..|].
  destruct (initBoard_correct ∅ b 5 (Hwf ∅) Hes) as (b' & g' & Hinit & _ & Hsz' & _).
  exists b, b', g'. split; [exact Hinit|]. rewrite Hsz'. exact Hsz.
Defined.

