(* ===== verification/Keys.v ===== *)
(** * Keys: reading the keyboard (src/main.cpp, [Terminal::getKeyInputs])

    The bytes that were typed wait in the queue of the terminal; [getchar]
    takes them from the buffer of [stdin], which it fills from the queue when
    it is empty. [FIONREAD] counts the queue only. *)

From S2P Require Import Prelude.
From S2P Require Import Base.

Record Stdin := mkStdin { buffer : list Z; queue : list Z }.

(** What [getchar] will return, in order. *)
Definition unread (s : Stdin) : list Z := buffer s ++ queue s.

(** ** Keys, for the specification

    What a terminal sends for a key, and the input that stands for it. *)
Inductive key :=
| KeyChar (c : Z) | KeyTab | KeyEnter | KeyArrow (d : Z) | KeyShiftTab | KeyShiftArrow (d : Z).

Definition key_ok (k : key) : Prop :=
  match k with
  | KeyChar c => 32 <= c < 127
  | KeyArrow d | KeyShiftArrow d => 0 <= d <= 3
  | _ => True
  end.

Definition key_bytes (k : key) : list Z :=
  match k with
  | KeyChar c => [c]
  | KeyTab => [9]
  | KeyEnter => [10]
  | KeyArrow d => [27; 91; 65 + d]
  | KeyShiftTab => [27; 91; 90]
  | KeyShiftArrow d => [27; 91; 49; 59; 50; 65 + d]
  end.

Definition key_input (k : key) : Z :=
  match k with
  | KeyChar c => c
  | KeyTab => Input.Tab
  | KeyEnter => Input.Enter
  | KeyArrow d => Input.Up + d
  | KeyShiftTab => Input.ShiftTab
  | KeyShiftArrow d => Input.ShiftUp + d
  end.

Section keys.
(** The capacity of the buffer of [stdin]. *)
Context (bufsize : nat).

(** A read from an empty queue waits. *)
Definition getchar (s : Stdin) : result (Z * Stdin) :=
  match buffer s with
  | c :: rest => Ok (c, mkStdin rest (queue s))
  | [] =>
      match take bufsize (queue s) with
      | c :: rest => Ok (c, mkStdin rest (drop bufsize (queue s)))
      | [] => Err Blocked
      end
  end.

(** The lambda [getch], with the counter it increments. *)
Definition getch (r : Stdin * Z) : result (Z * (Stdin * Z)) :=
  let '(s, i) := r in
  let* c := getchar s in
  let '(ch, s) := c in
  Ok (ch, (s, i + 1)).

(** [i < count ? getch() : '\0'] *)
Definition getch_or_zero (count : Z) (r : Stdin * Z) : result (Z * (Stdin * Z)) :=
  if snd r <? count then getch r else Ok (0, r).

(** [while (semi != ';' && i < count) semi = getch();] *)
Fixpoint skip_semi (fuel : nat) (count semi : Z) (r : Stdin * Z) : result (Stdin * Z) :=
  if negb (semi =? 59) && (snd r <? count) then
    match fuel with
    | O => Err OutOfFuel
    | S fuel =>
        let* c := getch r in
        let '(semi, r) := c in
        skip_semi fuel count semi r
    end
  else Ok r.

(** The body of the loop. *)
Definition read_key (count : Z) (r : Stdin * Z) (inputs : list Z) : result ((Stdin * Z) * list Z) :=
  let* c := getch r in
  let '(ch, r) := c in
  if negb (ch =? 27) || (count <=? snd r) then
    if (32 <=? ch) && (ch <? 127) then Ok (r, inputs ++ [to_Input ch])
    else if ch =? 9 then Ok (r, inputs ++ [Input.Tab])
    else if ch =? 10 then Ok (r, inputs ++ [Input.Enter])
    else if count <=? snd r then Ok (r, inputs ++ [Input.Esc])
    else Ok (r, inputs)
  else
    let* c := getch r in
    let '(next, r) := c in
    if next =? 27 then Ok (r, inputs ++ [to_Input ch])
    else if negb (next =? 91) || (count <=? snd r) then Ok ((fst r, count), inputs)
    else
      let* c := getch r in
      let '(code, r) := c in
      if (65 <=? code) && (code <=? 68) then
        Ok (r, inputs ++ [to_Input (Input.Up + (code - 65))])
      else if code =? 90 then Ok (r, inputs ++ [Input.ShiftTab])
      else
        let* r := skip_semi (Z.to_nat count) count code r in
        let* m := getch_or_zero count r in
        let '(modifier, r) := m in
        let* l := getch_or_zero count r in
        let '(last, r) := l in
        if (modifier =? 50) && ((65 <=? last) && (last <=? 68))
        then Ok (r, inputs ++ [to_Input (Input.ShiftUp + (last - 65))])
        else Ok (r, inputs).

Fixpoint key_loop (fuel : nat) (count : Z) (r : Stdin * Z) (inputs : list Z)
    : result (Stdin * list Z) :=
  if snd r <? count then
    match fuel with
    | O => Err OutOfFuel
    | S fuel =>
        let* k := read_key count r inputs in
        let '(r, inputs) := k in
        key_loop fuel count r inputs
    end
  else Ok (fst r, inputs).

(** [count] is an [int] that the call of [ioctl] fills. *)
Definition getKeyInputs (s : Stdin) (inputs : list Z) : result (Stdin * list Z) :=
  let count := Z.of_nat (length (queue s)) in
  key_loop (length (queue s)) count (s, 0) inputs.

(** ** Reading never blocks *)

Context (Hbuf : (0 < bufsize)%nat).

Lemma getch_ok s i c rest :
  unread s = c :: rest -> exists s', getch (s, i) = Ok (c, (s', i + 1)) /\ unread s' = rest.
Proof using Hbuf bufsize.
  destruct s as [[|b bs] q]; unfold unread, getch, getchar; simpl.
  - intros ->. destruct bufsize as [|n]; [lia|]. simpl. eexists. split; [done|].
    simpl. apply take_drop.
  - intros [= -> <-]. by eexists.
Qed.

(** [n] more bytes may be read: they are there. *)
Definition available (count : Z) (r : Stdin * Z) : Prop :=
  count - snd r <= Z.of_nat (length (unread (fst r))).

Lemma getch_available count r :
  available count r -> snd r < count ->
  exists c s', getch r = Ok (c, (s', snd r + 1)) /\ unread (fst r) = c :: unread s' /\
    available count (s', snd r + 1).
Proof using Hbuf bufsize.
  destruct r as [s i]. unfold available. cbn [fst snd]. intros Ha Hi.
  destruct (unread s) as [|c rest] eqn:Hs; [simpl in Ha; lia|].
  destruct (getch_ok s i c rest Hs) as (s' & -> & Hs'). exists c, s'.
  rewrite Hs'. simpl length in Ha. split_and!; [done|done|lia].
Qed.

(** A step of the reader: from [r] to [r'] it consumed some bytes and kept
    within the count. *)
Definition consumes (count : Z) (r r' : Stdin * Z) : Prop :=
  exists bytes, unread (fst r) = bytes ++ unread (fst r') /\
    snd r <= snd r' <= count /\ available count r' /\
    Z.of_nat (length bytes) <= snd r' - snd r.

Lemma consumes_refl count r : available count r -> snd r <= count -> consumes count r r.
Proof using Hbuf bufsize. intros. exists []. split_and!; simpl; try done; lia. Qed.

Lemma consumes_trans count r1 r2 r3 : consumes count r1 r2 -> consumes count r2 r3 -> consumes count r1 r3.
Proof using Hbuf bufsize.
  intros (b1 & Hb1 & ? & ? & ?) (b2 & Hb2 & ? & ? & ?). exists (b1 ++ b2). rewrite Hb1, Hb2.
  rewrite length_app. rewrite <- app_assoc. split_and!; try done; lia.
Qed.

Lemma consumes_length count r r' :
  consumes count r r' -> (length (unread (fst r')) <= length (unread (fst r)))%nat.
Proof using Hbuf bufsize. intros (bytes & -> & _). rewrite length_app. lia. Qed.

Lemma getch_consumes count r :
  available count r -> snd r < count ->
  exists c r', getch r = Ok (c, r') /\ consumes count r r' /\ snd r' = snd r + 1 /\
    (length (unread (fst r')) < length (unread (fst r)))%nat.
Proof using Hbuf bufsize.
  intros Ha Hi. destruct (getch_available count r Ha Hi) as (c & s' & -> & Hu & Ha').
  exists c, (s', snd r + 1). split; [done|]. cbn [fst snd]. rewrite Hu. split; [|by split; [|simpl; lia]].
  exists [c]. cbn [fst snd]. rewrite Hu. split_and!; simpl; try done; lia.
Qed.

Lemma getch_or_zero_consumes count r :
  available count r -> snd r <= count ->
  exists c r', getch_or_zero count r = Ok (c, r') /\ consumes count r r'.
Proof using Hbuf bufsize.
  intros Ha Hi. unfold getch_or_zero. destruct (Z.ltb_spec (snd r) count).
  - destruct (getch_consumes count r) as (c & r' & ? & ? & _); [done|done|]. eauto.
  - eexists _, r. split; [done|]. by apply consumes_refl.
Qed.

Lemma skip_semi_consumes fuel count semi r :
  available count r -> snd r <= count -> count - snd r <= Z.of_nat fuel ->
  exists r', skip_semi fuel count semi r = Ok r' /\ consumes count r r'.
Proof using Hbuf bufsize.
  revert semi r. induction fuel as [|fuel IH]; intros semi r Ha Hi Hf; simpl skip_semi.
  - destruct (Z.ltb_spec (snd r) count); [lia|]. rewrite andb_false_r.
    exists r. split; [done|]. by apply consumes_refl.
  - destruct (Z.ltb_spec (snd r) count).
    2:{ rewrite andb_false_r. exists r. split; [done|]. by apply consumes_refl. }
    rewrite andb_true_r. destruct (negb _).
    2:{ exists r. split; [done|]. by apply consumes_refl. }
    destruct (getch_consumes count r) as (c & r1 & -> & Hc & Hn & _); [done|done|]. cbn [rbind].
    pose proof Hc as (_ & _ & Hi1 & Ha1 & _).
    destruct (IH c r1) as (r2 & -> & Hc2); [done|lia|lia|].
    exists r2. split; [done|]. by eapply consumes_trans.
Qed.

(** One key is read within the count: some bytes are taken, and at most one
    input is added. *)
Definition reads_key (count : Z) (r : Stdin * Z) (inputs : list Z) (out : result ((Stdin * Z) * list Z)) : Prop :=
  exists r' new, out = Ok (r', inputs ++ new) /\ consumes count r r' /\
    snd r < snd r' /\ (length (unread (fst r')) < length (unread (fst r)))%nat /\
    (length new <= 1)%nat /\ Forall in_u8 new.

Lemma reads_key_from count r r1 r' inputs new :
  consumes count r r1 -> snd r < snd r1 -> (length (unread (fst r1)) < length (unread (fst r)))%nat ->
  (length new <= 1)%nat -> Forall in_u8 new -> consumes count r1 r' ->
  reads_key count r inputs (Ok (r', inputs ++ new)).
Proof using Hbuf bufsize.
  intros Hc1 ? ? ? ? Hc'. exists r', new. pose proof (consumes_length _ _ _ Hc').
  pose proof Hc' as (_ & _ & [? _] & _). pose proof (consumes_trans _ _ _ _ Hc1 Hc').
  split_and!; auto; lia.
Qed.

Lemma read_key_consumes count r inputs :
  available count r -> 0 <= snd r < count -> reads_key count r inputs (read_key count r inputs).
Proof using Hbuf bufsize.
  intros Ha [Hi0 Hi]. unfold read_key.
  destruct (getch_consumes count r Ha Hi) as (ch & r1 & -> & Hc1 & Hn1 & Hl1). cbn [rbind].
  pose proof Hc1 as (_ & _ & [_ Hi1] & Ha1 & _).
  assert (Hone : forall r' z, in_u8 z -> consumes count r1 r' -> reads_key count r inputs (Ok (r', inputs ++ [z]))) by
    (intros r' z Hz; apply (reads_key_from count r r1); auto; lia).
  assert (Hnone : forall r', consumes count r1 r' -> reads_key count r inputs (Ok (r', inputs))) by
    (intros r' ?; rewrite <- (app_nil_r inputs) at 2; apply (reads_key_from count r r1); auto; lia).
  assert (Hu8 : forall z, in_u8 (u8 z)) by (intros z; apply Z.mod_pos_bound; lia).
  pose proof (consumes_refl count r1 Ha1 Hi1) as Hc0.
  destruct (negb (ch =? 27) || (count <=? snd r1)) eqn:Hplain.
  { repeat case_match; (apply Hone; [try apply Hu8; unfold in_u8; done|done]) || by apply Hnone. }
  apply orb_false_iff in Hplain as [_ Hmore]. apply Z.leb_gt in Hmore.
  destruct (getch_consumes count r1 Ha1 Hmore) as (next & r2 & -> & Hc2 & _). cbn [rbind].
  pose proof Hc2 as (_ & _ & [Hi12 Hi2] & Ha2 & _).
  destruct (next =? 27); [by apply Hone|].
  destruct (negb (next =? 91) || (count <=? snd r2)) eqn:Hcsi.
  { apply Hnone. destruct Hc2 as (bytes & Hb & ? & ? & ?). exists bytes.
    unfold available in *. cbn [fst snd]. split_and!; try done; lia. }
  apply orb_false_iff in Hcsi as [_ Hmore2]. apply Z.leb_gt in Hmore2.
  destruct (getch_consumes count r2 Ha2 Hmore2) as (code & r3 & -> & Hc3 & _). cbn [rbind].
  pose proof Hc3 as (_ & _ & [Hi13 Hi3] & Ha3 & _).
  pose proof (consumes_trans _ _ _ _ Hc2 Hc3) as Hc13.
  destruct ((65 <=? code) && (code <=? 68)); [by apply Hone|].
  destruct (code =? 90); [by apply Hone|].
  destruct (skip_semi_consumes (Z.to_nat count) count code r3) as (r4 & -> & Hc4);
    [done|done|lia|]. cbn [rbind].
  pose proof Hc4 as (_ & _ & [_ Hi4] & Ha4 & _).
  destruct (getch_or_zero_consumes count r4 Ha4 Hi4) as (modifier & r5 & -> & Hc5). cbn [rbind].
  pose proof Hc5 as (_ & _ & [_ Hi5] & Ha5 & _).
  destruct (getch_or_zero_consumes count r5 Ha5 Hi5) as (last & r6 & -> & Hc6). cbn [rbind].
  pose proof (consumes_trans _ _ _ _ Hc13 (consumes_trans _ _ _ _ Hc4
    (consumes_trans _ _ _ _ Hc5 Hc6))) as Hc16.
  destruct (_ && _); [by apply Hone|by apply Hnone].
Qed.

Lemma key_loop_consumes fuel count r inputs :
  available count r -> 0 <= snd r <= count -> count - snd r <= Z.of_nat fuel ->
  exists s' new bytes, key_loop fuel count r inputs = Ok (s', inputs ++ new) /\
    Forall in_u8 new /\ unread (fst r) = bytes ++ unread s' /\
    (length new <= length bytes)%nat /\ Z.of_nat (length bytes) <= count - snd r /\
    (snd r < count -> (0 < length bytes)%nat) /\ (count <= snd r -> s' = fst r).
Proof using Hbuf bufsize.
  revert r inputs. induction fuel as [|fuel IH]; intros r inputs Ha Hi Hf; simpl key_loop;
    destruct (Z.ltb_spec (snd r) count); try lia.
  2:{ destruct (read_key_consumes count r inputs) as (r1 & new1 & -> & Hc & Hlt & Hl & Hn & Hu8); [done|lia|].
      cbn [rbind]. pose proof Hc as (b1 & Hb1 & [_ Hi1] & Ha1 & Hl1).
      destruct (IH r1 (inputs ++ new1)) as (s' & new2 & b2 & -> & ? & Hb2 & ? & ? & _); [done|lia|lia|].
      exists s', (new1 ++ new2), (b1 ++ b2). rewrite Hb1, Hb2, <- !app_assoc, !length_app.
      rewrite Hb1, length_app in Hl. split_and!; try done; try lia. by apply Forall_app. }
  all: exists (fst r), [], []; rewrite app_nil_r; split_and!; try done; simpl; lia.
Qed.

(** Reading never blocks, and takes bytes while the queue holds some, but
    never more than it held; an input takes a byte at least. *)
Lemma getKeyInputs_ok s inputs :
  exists s' new bytes, getKeyInputs s inputs = Ok (s', inputs ++ new) /\
    Forall in_u8 new /\ unread s = bytes ++ unread s' /\
    (length new <= length bytes <= length (queue s))%nat /\
    (queue s <> [] -> (0 < length bytes)%nat) /\ (queue s = [] -> s' = s).
Proof using Hbuf bufsize.
  unfold getKeyInputs. set (count := Z.of_nat (length (queue s))).
  destruct (key_loop_consumes (length (queue s)) count (s, 0) inputs)
    as (s' & new & bytes & -> & ? & ? & ? & ? & Hpos & Hnil); cbn [fst snd] in *; subst count.
  - unfold available, unread. cbn [fst snd]. rewrite length_app. lia.
  - lia.
  - lia.
  - exists s', new, bytes. split_and!; try done; try lia.
    + intros Hq. apply Hpos. destruct (queue s); [done|]. simpl length. lia.
    + intros Hq. apply Hnil. by rewrite Hq.
Qed.

(** ** Decoding *)

(** One more byte, known to be [c]. *)
Ltac next_byte :=
  match goal with
  | Hs : unread ?s = ?c :: ?rest |- context [getch (?s, ?i)] =>
      let s' := fresh "s" in let Hs' := fresh "Hu" in
      destruct (getch_ok s i c rest Hs) as (s' & -> & Hs'); cbn [rbind fst snd]
  end.

Lemma key_read (s : Stdin) (i i' : Z) (inputs : list Z) (z z' : Z) :
  i = i' -> z = z' -> Ok ((s, i), inputs ++ [z]) = Ok ((s, i'), inputs ++ [z']).
Proof using Type. by intros -> ->. Qed.

Lemma read_key_key k count s i rest inputs :
  key_ok k -> unread s = key_bytes k ++ rest ->
  0 <= i -> i + Z.of_nat (length (key_bytes k)) <= count ->
  exists s', read_key count (s, i) inputs =
      Ok ((s', i + Z.of_nat (length (key_bytes k))), inputs ++ [key_input k]) /\
    unread s' = rest.
Proof using Hbuf bufsize.
  destruct k as [c| | |d| |d]; simpl; intros Hk Hs Hi0 Hi; unfold read_key; next_byte.
  - eexists. split; [|done]. rewrite (proj2 (Z.eqb_neq c 27)) by lia. cbn [negb orb].
    rewrite (proj2 (Z.leb_le 32 c)), (proj2 (Z.ltb_lt c 127)) by lia. cbn [andb].
    unfold to_Input. by rewrite u8_id by (unfold in_u8; lia).
  - by eexists.
  - by eexists.
  - rewrite (proj2 (Z.leb_gt count (i + 1))) by lia. cbn [negb orb Z.eqb Pos.eqb].
    next_byte. rewrite (proj2 (Z.leb_gt count (i + 1 + 1))) by lia. cbn [negb orb Z.eqb Pos.eqb].
    next_byte. rewrite (proj2 (Z.leb_le 65 _)), (proj2 (Z.leb_le _ 68)) by lia. cbn [andb].
    eexists. split; [|done]. apply key_read; [lia|]. unfold to_Input, Input.Up.
    rewrite u8_id by (unfold in_u8; lia). lia.
  - rewrite (proj2 (Z.leb_gt count (i + 1))) by lia. cbn [negb orb Z.eqb Pos.eqb].
    next_byte. rewrite (proj2 (Z.leb_gt count (i + 1 + 1))) by lia. cbn [negb orb Z.eqb Pos.eqb].
    next_byte. eexists. split; [|done]. apply key_read; [lia|done].
  - rewrite (proj2 (Z.leb_gt count (i + 1))) by lia. cbn [negb orb Z.eqb Pos.eqb].
    next_byte. rewrite (proj2 (Z.leb_gt count (i + 1 + 1))) by lia. cbn [negb orb Z.eqb Pos.eqb].
    next_byte. destruct (Z.to_nat count) as [|fuel] eqn:Hfuel; [lia|].
    cbn [andb Z.leb Z.eqb Z.compare Pos.compare Pos.compare_cont Pos.eqb skip_semi negb snd].
    rewrite (proj2 (Z.ltb_lt (i + 1 + 1 + 1) count)) by lia. cbn [rbind].
    next_byte. assert (Hskip : forall f r, skip_semi f count 59 r = Ok r) by by intros [|].
    rewrite Hskip. cbn [rbind]. unfold getch_or_zero. cbn [snd].
    rewrite (proj2 (Z.ltb_lt _ count)) by lia. next_byte.
    rewrite (proj2 (Z.ltb_lt _ count)) by lia. next_byte.
    rewrite (proj2 (Z.leb_le 65 _)), (proj2 (Z.leb_le _ 68)) by lia. cbn [andb Z.eqb Pos.eqb].
    eexists. split; [|done]. apply key_read; [lia|]. unfold to_Input, Input.ShiftUp.
    rewrite u8_id by (unfold in_u8; lia). lia.
Qed.

Lemma key_loop_keys ks fuel count s i rest inputs :
  Forall key_ok ks -> unread s = (ks ≫= key_bytes) ++ rest ->
  0 <= i -> i + Z.of_nat (length (ks ≫= key_bytes)) <= count -> count - i <= Z.of_nat fuel ->
  exists s' fuel', key_loop fuel count (s, i) inputs =
      key_loop fuel' count (s', i + Z.of_nat (length (ks ≫= key_bytes))) (inputs ++ (key_input <$> ks)) /\
    unread s' = rest /\ count - (i + Z.of_nat (length (ks ≫= key_bytes))) <= Z.of_nat fuel'.
Proof using Hbuf bufsize.
  intros Hok. revert fuel s i inputs. induction Hok as [|k ks Hk Hks IH]; intros fuel s i inputs.
  - cbn. intros Hs Hi0 Hi Hf. exists s, fuel. rewrite app_nil_r, Z.add_0_r. split_and!; [done|done|lia].
  - rewrite bind_cons, length_app, <- app_assoc. intros Hs Hi0 Hi Hf.
    assert (Hpos : (1 <= length (key_bytes k))%nat) by (destruct k; simpl; lia).
    destruct fuel as [|fuel]; [lia|]. cbn [key_loop snd]. rewrite (proj2 (Z.ltb_lt i count)) by lia.
    destruct (read_key_key k count s i _ inputs Hk Hs) as (s1 & -> & Hs1); [lia|lia|]. cbn [rbind].
    destruct (IH fuel s1 (i + Z.of_nat (length (key_bytes k))) (inputs ++ [key_input k]) Hs1)
      as (s2 & fuel' & -> & Hs2 & Hf2); [lia|lia|lia|].
    exists s2, fuel'. rewrite <- app_assoc. rewrite fmap_cons. split_and!; [|done|lia].
    f_equal. f_equal. lia.
Qed.

(** What the terminal sends for a sequence of keys, with an escape key as
    its last one or without, is read as these keys. *)
Lemma getKeyInputs_keys ks (esc : bool) inputs :
  Forall key_ok ks ->
  exists s', getKeyInputs (mkStdin [] ((ks ≫= key_bytes) ++ (if esc then [27] else []))) inputs =
      Ok (s', inputs ++ (key_input <$> ks) ++ (if esc then [Input.Esc] else [])) /\
    unread s' = [].
Proof using Hbuf bufsize.
  intros Hks. unfold getKeyInputs. cbn [queue].
  set (q := (ks ≫= key_bytes) ++ _). set (count := Z.of_nat (length q)).
  assert (Hcount : count = Z.of_nat (length (ks ≫= key_bytes)) + (if esc then 1 else 0)).
  { subst count q. rewrite length_app. destruct esc; simpl; lia. }
  destruct (key_loop_keys ks (length q) count (mkStdin [] q) 0 (if esc then [27] else []) inputs)
    as (s1 & fuel & -> & Hs1 & Hf); [done|done|lia|destruct esc; lia|lia|].
  rewrite Z.add_0_l in *. destruct esc.
  - destruct fuel as [|fuel]; [lia|]. cbn [key_loop snd].
    rewrite (proj2 (Z.ltb_lt _ count)) by lia. unfold read_key. next_byte.
    rewrite (proj2 (Z.leb_le count _)) by lia. rewrite orb_true_r.
    cbn [andb Z.leb Z.ltb Z.eqb Z.compare Pos.compare Pos.compare_cont Pos.eqb rbind].
    exists s. rewrite <- app_assoc. split; [|done].
    destruct fuel; cbn [key_loop snd fst]; by rewrite (proj2 (Z.ltb_ge _ count)) by lia.
  - exists s1. rewrite app_nil_r. split; [|done].
    destruct fuel; cbn [key_loop snd fst]; by rewrite (proj2 (Z.ltb_ge _ count)) by lia.
Qed.
End keys.
