(* ===== verification/Display.v ===== *)
(** * Display: drawing a frame on the terminal (src/main.cpp, [Terminal::tick])

    What the program writes to [std::cout] is a list of chunks, one for each
    escape sequence or text; [chunk_bytes] gives the bytes of a chunk. A
    terminal that follows these sequences is an instance of [Display] with
    the laws [DisplayLaws]. *)

From S2P Require Import Prelude.
From S2P Require Import Base.
From S2P Require Import Geo.
From S2P Require Import Board.
From S2P Require Import InitBoard.

(** ** Output *)

Inductive chunk :=
| CursorTo (row col : Z)     (** ESC [ row ; col H *)
| Sgr (params : list Z)      (** ESC [ params m *)
| EraseLine                  (** ESC [ 2 K *)
| PrivateMode (mode : Z) (set : bool)  (** ESC [ ? mode h or l *)
| Text (bytes : list Z).

Definition bytes_of_string (s : string) : list Z :=
  (fun a => Z.of_N (Ascii.N_of_ascii a)) <$> String.list_ascii_of_string s.

(** [std::cout << n] for an [int]. *)
Definition decimal (n : Z) : list Z := bytes_of_string (pretty n).

Definition esc (rest : list Z) : list Z := 27 :: 91 :: rest.

Fixpoint params_bytes (params : list Z) : list Z :=
  match params with
  | [] => []
  | [p] => decimal p
  | p :: ps => decimal p ++ 59 :: params_bytes ps
  end.

Definition chunk_bytes (c : chunk) : list Z :=
  match c with
  | CursorTo row col => esc (decimal row ++ 59 :: decimal col ++ [72])
  | Sgr params => esc (params_bytes params ++ [109])
  | EraseLine => esc [50; 75]
  | PrivateMode mode set => esc (63 :: decimal mode ++ [if set then 104 else 108])
  | Text bytes => bytes
  end.

Definition out_bytes (out : list chunk) : list Z := out ≫= chunk_bytes.

Definition moveCursor (point : Point) : list chunk :=
  [CursorTo (Point.y point + 1) (Point.x point + 1)].

Definition setForegroundColor (color : Color) : list chunk :=
  if color_eqb color kNone then [Sgr [39]] else [Sgr [38; 5; value color]].

Definition setBackgroundColor (color : Color) : list chunk :=
  if color_eqb color kNone then [Sgr [49]] else [Sgr [48; 5; value color]].

Definition setColors (fg bg : Color) : list chunk :=
  setForegroundColor fg ++ setBackgroundColor bg.

(** The bytes of a glyph and the columns it takes. *)
Definition print_glyph (ch : Z) : list Z * Z :=
  if ch =? 65280 then ([32; 32], 2)
  else if 65280 <? ch then
    let ch0 := u8 (Z.lor (Z.land ch 63) 128) in
    let ch1 := 188 in
    let ch2 := 239 in
    ([ch2; ch1; ch0], 2)
  else ([u8 ch], 1).

(** ** The difference of two frames *)

(** The columns of a row between which the frames differ, [min_col] and
    [max_col]. *)
Definition span_step (last frame : Matrix Glyph) (row : Z) (span : Z * Z) (col : Z) : Z * Z :=
  let '(min_col, max_col) := span in
  let point := Point.mk col row in
  let old_glyph := Matrix.get last point in
  let new_glyph := Matrix.get frame point in
  if glyph_eqb old_glyph new_glyph then (min_col, max_col)
  else (Z.min min_col col, Z.max max_col col).

Definition row_span (last frame : Matrix Glyph) (row : Z) : Z * Z :=
  let size := Matrix.size last in
  for_range 0 (Point.x size) (span_step last frame row) (Point.x size, 0).

(** The loop over the columns of a row; [prev] is the last glyph drawn. *)
Fixpoint paint_cols (fuel : nat) (frame : Matrix Glyph) (row max_col col : Z) (prev : Glyph)
    (last : Matrix Glyph) (out : list chunk) : result (Matrix Glyph * list chunk) :=
  if col <=? max_col then
    match fuel with
    | O => Err OutOfFuel
    | S fuel =>
        let point := Point.mk col row in
        let glyph := Matrix.get frame point in
        let out := out ++ (if color_neqb (fg glyph) (fg prev) then setForegroundColor (fg glyph) else []) in
        let out := out ++ (if color_neqb (bg glyph) (bg prev) then setBackgroundColor (bg glyph) else []) in
        let last := Matrix.set last point glyph in
        let '(bytes, width) := print_glyph (ch glyph) in
        paint_cols fuel frame row max_col (col + width) glyph last (out ++ [Text bytes])
    end
  else Ok (last, out).

Definition paint_row (frame : Matrix Glyph) (offset : Point)
    (s : Matrix Glyph * list chunk) (row : Z) : result (Matrix Glyph * list chunk) :=
  let '(last, out) := s in
  let '(min_col, max_col) := row_span last frame row in
  if max_col <? min_col then Ok (last, out) else
  let point := Point.mk min_col row in
  let glyph := Matrix.get frame point in
  let out := out ++ moveCursor (Point.add offset point) in
  let out := out ++ setColors (fg glyph) (bg glyph) in
  paint_cols (Z.to_nat (Point.x (Matrix.size last))) frame row max_col min_col glyph last out.

(** The part of [Terminal::tick] that draws; [status] is the line at the
    bottom. *)
Definition draw (terminalSize : Point) (frame last : Matrix Glyph) (status : list Z)
    : result (Matrix Glyph * list chunk) :=
  let size := Matrix.size last in
  cpp_assert (Point.eqb size (Matrix.size frame)) (
  let offset := Point.mk (Z.quot (Point.x terminalSize - Point.x size) 2)
                         (Z.quot (Point.y terminalSize - Point.y size) 2) in
  let* r := foldM (paint_row frame offset) (last, []) (seqZ 0 (Point.y size)) in
  let '(last, out) := r in
  let col := Point.x terminalSize - Z.of_nat (length status) in
  let out := out ++ moveCursor (Point.mk (col - 1) (Point.y terminalSize - 1)) in
  let out := out ++ setColors kNone kNone in
  Ok (last, out ++ [EraseLine; Text status])).

(** ** Terminals *)

(** [d_image d p] is what the two columns from [p] on show, named by the wide
    glyph that looks like it. *)
Class Display (D : Type) := {
  d_size : D -> Point;
  d_cursor : D -> Point;
  d_fg : D -> Color;
  d_bg : D -> Color;
  d_image : D -> Point -> Glyph;
  d_step : D -> chunk -> D }.

(** Everything but the cursor. *)
Definition same_image {D} `{Display D} (d d' : D) : Prop :=
  d_size d' = d_size d /\ forall p, d_image d' p = d_image d p.

(** The text of a wide glyph: two spaces, or the UTF-8 form. *)
Definition wide_text (c : Z) : list Z :=
  if c =? 65280 then [32; 32] else [239; 188; 128 + (c - 65280)].

(** What the program relies on, within the bounds of the screen. *)
Class DisplayLaws (D : Type) `{Display D} := {
  law_cursor d row col : 1 <= row <= Point.y (d_size d) -> 1 <= col <= Point.x (d_size d) ->
    let d' := d_step d (CursorTo row col) in
    same_image d d' /\ d_cursor d' = Point.mk (col - 1) (row - 1) /\
    d_fg d' = d_fg d /\ d_bg d' = d_bg d;
  law_fg_default d : let d' := d_step d (Sgr [39]) in
    same_image d d' /\ d_cursor d' = d_cursor d /\ d_fg d' = kNone /\ d_bg d' = d_bg d;
  law_fg d n : 0 <= n < 256 -> let d' := d_step d (Sgr [38; 5; n]) in
    same_image d d' /\ d_cursor d' = d_cursor d /\ d_fg d' = mkColor n /\ d_bg d' = d_bg d;
  law_bg_default d : let d' := d_step d (Sgr [49]) in
    same_image d d' /\ d_cursor d' = d_cursor d /\ d_fg d' = d_fg d /\ d_bg d' = kNone;
  law_bg d n : 0 <= n < 256 -> let d' := d_step d (Sgr [48; 5; n]) in
    same_image d d' /\ d_cursor d' = d_cursor d /\ d_fg d' = d_fg d /\ d_bg d' = mkColor n;
  law_wide d c : 65280 <= c < 65344 -> Point.x (d_cursor d) + 2 <= Point.x (d_size d) ->
    let d' := d_step d (Text (wide_text c)) in
    d_size d' = d_size d /\ d_fg d' = d_fg d /\ d_bg d' = d_bg d /\
    (Point.x (d_cursor d) + 2 < Point.x (d_size d) ->
      d_cursor d' = Point.mk (Point.x (d_cursor d) + 2) (Point.y (d_cursor d))) /\
    d_image d' (d_cursor d) = mkGlyph c (d_fg d) (d_bg d) /\
    forall p, Point.y p <> Point.y (d_cursor d) \/ 2 <= Z.abs (Point.x p - Point.x (d_cursor d)) ->
      d_image d' p = d_image d p;
  law_erase d : let d' := d_step d EraseLine in
    d_size d' = d_size d /\ d_cursor d' = d_cursor d /\
    forall p, Point.y p <> Point.y (d_cursor d) -> d_image d' p = d_image d p;
  law_text d bytes : Forall (fun b => 32 <= b < 127) bytes ->
    Point.x (d_cursor d) + Z.of_nat (length bytes) <= Point.x (d_size d) ->
    let d' := d_step d (Text bytes) in
    d_size d' = d_size d /\
    forall p, Point.y p <> Point.y (d_cursor d) -> d_image d' p = d_image d p }.

Definition d_run {D} `{Display D} (d : D) (out : list chunk) : D := foldl d_step d out.

(** * drawing keeps the screen and [lastFrame] in step

    For frames whose even columns hold wide glyphs, [draw] sends only what
    changed, and afterwards both [lastFrame] and the screen show the frame. *)

(** ** Bytes *)

Lemma print_wide c : 65280 <= c < 65344 -> print_glyph c = (wide_text c, 2).
Proof.
  intros Hc. unfold print_glyph, wide_text. destruct (Z.eqb_spec c 65280); [done|].
  rewrite (proj2 (Z.ltb_lt 65280 c)) by lia. do 2 f_equal.
  assert (Hall : forallb (fun c => u8 (Z.lor (Z.land c 63) 128) =? 128 + (c - 65280))
    (seqZ 65280 (65344 - 65280)) = true) by (vm_compute; reflexivity).
  apply (forallb_range _ _ _ c), Z.eqb_eq in Hall; [|lia]. by rewrite Hall.
Qed.

(** ** Colours *)

Section display.
Context {D : Type} `{DisplayLaws D}.
Implicit Types (d : D).

Lemma d_run_app d out out' : d_run d (out ++ out') = d_run (d_run d out) out'.
Proof. apply foldl_app. Qed.

#[export] Instance same_image_preorder : PreOrder (same_image (D := D)).
Proof.
  split; [done|]. intros d1 d2 d3 [? E1] [? E2]. split; [congruence|]. intros p. by rewrite E2, E1.
Qed.

Lemma setForegroundColor_ok d c :
  in_u8 (value c) -> let d' := d_run d (setForegroundColor c) in
  same_image d d' /\ d_cursor d' = d_cursor d /\ d_fg d' = c /\ d_bg d' = d_bg d.
Proof.
  intros Hc. unfold setForegroundColor. destruct (color_eqb c kNone) eqn:E; simpl.
  - apply color_eqb_eq in E as ->. apply law_fg_default.
  - destruct c. by apply law_fg.
Qed.

Lemma setBackgroundColor_ok d c :
  in_u8 (value c) -> let d' := d_run d (setBackgroundColor c) in
  same_image d d' /\ d_cursor d' = d_cursor d /\ d_fg d' = d_fg d /\ d_bg d' = c.
Proof.
  intros Hc. unfold setBackgroundColor. destruct (color_eqb c kNone) eqn:E; simpl.
  - apply color_eqb_eq in E as ->. apply law_bg_default.
  - destruct c. by apply law_bg.
Qed.

Lemma setColors_ok d f b :
  in_u8 (value f) -> in_u8 (value b) -> let d' := d_run d (setColors f b) in
  same_image d d' /\ d_cursor d' = d_cursor d /\ d_fg d' = f /\ d_bg d' = b.
Proof.
  intros Hf Hb. unfold setColors. rewrite d_run_app. simpl.
  destruct (setForegroundColor_ok d f Hf) as (H1 & H2 & H3 & H4).
  destruct (setBackgroundColor_ok (d_run d (setForegroundColor f)) b Hb) as (K1 & K2 & K3 & K4).
  split; [by etrans|]. split_and!; congruence.
Qed.

(** The colour changes before a glyph: sent only when they are needed. *)
Lemma change_colors_ok d prev g :
  wide_glyph g -> d_fg d = fg prev -> d_bg d = bg prev ->
  let d' := d_run (d_run d (if color_neqb (fg g) (fg prev) then setForegroundColor (fg g) else []))
              (if color_neqb (bg g) (bg prev) then setBackgroundColor (bg g) else []) in
  same_image d d' /\ d_cursor d' = d_cursor d /\ d_fg d' = fg g /\ d_bg d' = bg g.
Proof.
  intros (_ & Hf & Hb) Hdf Hdb.
  assert (H1 : let d1 := d_run d (if color_neqb (fg g) (fg prev) then setForegroundColor (fg g) else []) in
    same_image d d1 /\ d_cursor d1 = d_cursor d /\ d_fg d1 = fg g /\ d_bg d1 = d_bg d).
  { destruct (color_neqb (fg g) (fg prev)) eqn:E; [by apply setForegroundColor_ok|].
    apply color_neqb_false in E. simpl. split_and!; congruence || done. }
  revert H1. set (d1 := d_run d _). simpl. intros (S1 & C1 & F1 & B1).
  destruct (color_neqb (bg g) (bg prev)) eqn:E.
  - destruct (setBackgroundColor_ok d1 (bg g) Hb) as (S2 & C2 & F2 & B2).
    split; [by etrans|]. split_and!; congruence.
  - apply color_neqb_false in E. simpl. split_and!; congruence || done.
Qed.
End display.

(** ** The span of a row *)

Section span.
Context (last frame : Matrix Glyph) (row : Z).

Definition differs (col : Z) : Prop :=
  Matrix.get last (Point.mk col row) <> Matrix.get frame (Point.mk col row).

Lemma row_span_spec :
  0 < Point.x (Matrix.size last) ->
  let '(mn, mx) := row_span last frame row in
  (mn = Point.x (Matrix.size last) /\ mx = 0 /\
    forall col, 0 <= col < Point.x (Matrix.size last) -> ~ differs col) \/
  (0 <= mn <= mx /\ mx < Point.x (Matrix.size last) /\ differs mn /\ differs mx /\
    forall col, 0 <= col < Point.x (Matrix.size last) -> differs col -> mn <= col <= mx).
Proof.
  intros Hx. unfold row_span. set (X := Point.x (Matrix.size last)) in *.
  pose (P := fun (i : Z) (span : Z * Z) => let '(mn, mx) := span in
    (mn = X /\ mx = 0 /\ forall col, 0 <= col < i -> ~ differs col) \/
    (0 <= mn <= mx /\ mx < i /\ i <= X /\ differs mn /\ differs mx /\
      forall col, 0 <= col < i -> differs col -> mn <= col <= mx)).
  assert (HP : P X (for_range 0 X (span_step last frame row) (X, 0))).
  { apply for_range_ind; [lia| |].
    - left. split_and!; [done|done|lia].
    - intros i [mn mx] Hi Hold. unfold span_step.
      assert (Hlt : forall col, 0 <= col < i + 1 -> col = i \/ 0 <= col < i) by lia.
      destruct (glyph_eqb _ _) eqn:E.
      + apply glyph_eqb_eq in E. assert (Hi' : ~ differs i) by (intros Hd; by apply Hd).
        destruct Hold as [(-> & -> & Hno)|(? & ? & ? & ? & ? & Hall)]; [left|right].
        * split_and!; try done. intros col [-> | ?]%Hlt; [done|by apply Hno].
        * split_and!; try done; try lia. intros col [-> | ?]%Hlt Hd; [done|by apply Hall].
      + assert (Hi' : differs i).
        { intros Heq. rewrite Heq, glyph_eqb_refl in E. done. }
        right. destruct Hold as [(-> & -> & Hno)|(? & ? & ? & ? & ? & Hall)].
        * rewrite Z.min_r, Z.max_r by lia. split_and!; try done; try lia.
          intros col [-> | ?]%Hlt Hd; [lia|by destruct (Hno col)].
        * rewrite Z.min_l, Z.max_r by lia. split_and!; try done; try lia.
          intros col [-> | ?]%Hlt Hd; [lia|]. specialize (Hall col ltac:(done) Hd). lia. }
  destruct (for_range 0 X _ _) as [mn mx]. destruct HP as [?|(? & ? & ? & ?)]; [by left|right].
  done.
Qed.
End span.

(** ** Painting *)

(** The wide glyphs stand in the even columns. *)
Definition even_cell (m : Matrix Glyph) (q : Point) : Prop :=
  Z.even (Point.x q) = true /\ Matrix.contains m q = true.

Definition wide_frame (m : Matrix Glyph) : Prop :=
  forall q, even_cell m q -> wide_glyph (Matrix.get m q).

Section paint.
Context {D : Type} `{DisplayLaws D}.
Context (frame last0 : Matrix Glyph) (offset : Point).
Context (Hlast0 : Matrix.wf last0) (Hframe : same_frame last0 frame) (Hwide : wide_frame frame).
Context (Heven : Z.even (Point.x (Matrix.size last0)) = true).
Implicit Types (d : D) (last : Matrix Glyph) (q : Point).

(** The image of a cell of the frame. *)
Definition image d q : Glyph := d_image d (Point.add offset q).

(** The screen has room for the frame. *)
Definition fits d : Prop :=
  0 <= Point.x offset /\ Point.x offset + Point.x (Matrix.size last0) <= Point.x (d_size d) /\
  0 <= Point.y offset /\ Point.y offset + Point.y (Matrix.size last0) <= Point.y (d_size d).

(** [d'] and [last'] show the frame on the cells of [P], the rest is as it
    was. *)
Definition painted (P : Point -> bool) d last d' last' : Prop :=
  same_frame last0 last' /\ d_size d' = d_size d /\
  (forall q, Z.even (Point.x q) = false -> Matrix.get last' q = Matrix.get last q) /\
  forall q, even_cell last0 q ->
    Matrix.get last' q = (if P q then Matrix.get frame q else Matrix.get last q) /\
    image d' q = (if P q then Matrix.get frame q else image d q).

Definition in_cols (row lo hi : Z) q : bool :=
  (Point.y q =? row) && (lo <=? Point.x q) && (Point.x q <=? hi).

Lemma painted_none P d last d' :
  same_frame last0 last -> same_image d d' -> (forall q, even_cell last0 q -> P q = false) -> painted P d last d' last.
Proof using Type.
  intros Hs [Hsz Him] HP. split_and!; try done. intros q Hq. rewrite HP by done.
  split; [done|]. apply Him.
Qed.

Lemma painted_trans P Q R d1 last1 d2 last2 d3 last3 :
  painted P d1 last1 d2 last2 -> painted Q d2 last2 d3 last3 ->
  (forall q, even_cell last0 q -> R q = P q || Q q) -> painted R d1 last1 d3 last3.
Proof using Type.
  intros (_ & Hd1 & Ho1 & He1) (Hs & Hd2 & Ho2 & He2) HR. split; [done|]. split; [congruence|]. split.
  - intros q Hq. rewrite Ho2, Ho1 by done. done.
  - intros q Hq. rewrite HR by done. destruct (He1 q Hq) as [L1 I1], (He2 q Hq) as [L2 I2].
    rewrite L2, I2, L1, I1. destruct (P q), (Q q); done.
Qed.

Lemma even_next col : Z.even col = true -> Z.even (col + 2) = true.
Proof using Type. intros Hc. by rewrite Z.even_add, Hc. Qed.

Lemma even_gap a b : Z.even a = true -> Z.even b = true -> a <> b -> 2 <= Z.abs (a - b).
Proof using Type.
  rewrite !Z.even_spec. intros [x ->] [y ->] Hne. lia.
Qed.

Lemma even_cell_frame last q : same_frame last0 last -> even_cell last0 q -> even_cell last q.
Proof using Type. intros Hs [? ?]. split; [done|]. by rewrite (same_frame_contains last0). Qed.

(** One glyph: the display and [lastFrame] are painted on its cell. *)
Lemma paint_glyph_ok d last g col row :
  fits d -> same_frame last0 last -> even_cell last0 (Point.mk col row) ->
  g = Matrix.get frame (Point.mk col row) ->
  d_cursor d = Point.add offset (Point.mk col row) -> d_fg d = fg g -> d_bg d = bg g ->
  let d' := d_step d (Text (wide_text (ch g))) in
  painted (in_cols row col col) d last d' (Matrix.set last (Point.mk col row) g) /\
  d_fg d' = fg g /\ d_bg d' = bg g /\
  (col + 2 < Point.x (Matrix.size last0) ->
    d_cursor d' = Point.add offset (Point.mk (col + 2) row)).
Proof using All.
  intros (Hx & Hw & _) Hs Hcell -> Hcur Hf Hb. set (g := Matrix.get frame _) in *.
  assert (Hg : wide_glyph g) by (by apply Hwide, even_cell_frame).
  destruct Hcell as [Hev Hin]. cbn [Point.x] in Hev. pose proof (proj1 (Matrix.contains_spec _ _) Hin) as [Hcol Hrow].
  cbn [Point.x Point.y] in Hcol, Hrow. destruct Hg as [Hch _].
  assert (Hcol2 : col + 2 <= Point.x (Matrix.size last0)).
  { unfold Matrix.size in *. rewrite Z.even_spec in Hev, Heven. destruct Hev as [a ->], Heven as [w Hw2]. lia. }
  destruct (law_wide d (ch g) Hch) as (Hsz & Hf' & Hb' & Hcur' & Him & Hother).
  { rewrite Hcur. cbn. lia. }
  cbv zeta in *. set (d' := d_step d _) in *. rewrite Hcur in Hcur', Him, Hother.
  split; [|split; [congruence|split; [congruence|]]].
  2:{ intros Hlt. rewrite Hcur' by (cbn; lia). unfold Point.add. cbn. f_equal; lia. }
  split; [by apply same_frame_set|]. split; [done|]. split.
  - intros q Hq. apply Matrix.get_set_ne; [apply Hs|]. intros <-. cbn in Hq. congruence.
  - intros q [Hqe Hqi]. rewrite Matrix.get_set by apply Hs. unfold in_cols, image.
    rewrite (same_frame_contains last0) by done. rewrite Hin, andb_true_r.
    destruct q as [qx qy]. cbn [Point.x Point.y] in *.
    case_bool_decide as Heq.
    + injection Heq as -> ->. rewrite Z.eqb_refl, Z.leb_refl. cbn [andb]. split; [done|].
      rewrite Him. rewrite Hf, Hb. subst g; by destruct (Matrix.get frame _).
    + assert (Hne : qy <> row \/ qx <> col) by (destruct (decide (qy = row)), (decide (qx = col)); subst; auto).
      assert ((qy =? row) && (col <=? qx) && (qx <=? col) = false) as ->.
      { destruct (Z.eqb_spec qy row), (Z.leb_spec col qx), (Z.leb_spec qx col); try done. lia. }
      split; [done|]. apply Hother. cbn. destruct (decide (qy = row)) as [->|]; [right|left; lia].
      assert (qx <> col) by (by destruct Hne). pose proof (even_gap qx col Hqe Hev ltac:(done)). lia.
Qed.

Lemma fits_size d d' : d_size d' = d_size d -> fits d -> fits d'.
Proof using Type. unfold fits. by intros ->. Qed.

Lemma cols_split row col mx q :
  Z.even col = true -> Z.even (Point.x q) = true -> col <= mx ->
  in_cols row col mx q = in_cols row col col q || in_cols row (col + 2) mx q.
Proof using Type.
  intros Hc Hq Hle. unfold in_cols. destruct (Point.y q =? row); [|done]. cbn [andb].
  destruct (decide (Point.x q = col)) as [->|Hne].
  - rewrite Z.leb_refl, (proj2 (Z.leb_le col mx)) by done. done.
  - pose proof (even_gap (Point.x q) col Hq Hc Hne).
    destruct (Z.leb_spec col (Point.x q)), (Z.leb_spec (Point.x q) mx), (Z.leb_spec (Point.x q) col),
      (Z.leb_spec (col + 2) (Point.x q)); try done; lia.
Qed.

Lemma paint_cols_ok fuel row mx col prev last out d0 :
  fits (d_run d0 out) -> same_frame last0 last ->
  0 <= row < Point.y (Matrix.size last0) -> Z.even col = true -> Z.even mx = true ->
  0 <= col -> mx < Point.x (Matrix.size last0) -> mx - col < 2 * Z.of_nat fuel ->
  (col <= mx -> d_cursor (d_run d0 out) = Point.add offset (Point.mk col row) /\
    d_fg (d_run d0 out) = fg prev /\ d_bg (d_run d0 out) = bg prev) ->
  exists last' out', paint_cols fuel frame row mx col prev last out = Ok (last', out') /\
    painted (in_cols row col mx) (d_run d0 out) last (d_run d0 out') last'.
Proof using All.
  revert col prev last out. induction fuel as [|fuel IH];
    intros col prev last out Hfit Hs Hrow Hcol Hmx Hc0 Hlt Hfuel Hcur; cbn [paint_cols];
    destruct (Z.leb_spec col mx) as [Hle|Hgt]; try lia.
  2:{ destruct (Hcur Hle) as (Hpos & Hf & Hb).
      assert (Hcell : even_cell last0 (Point.mk col row)).
      { split; [done|]. apply Matrix.contains_spec. cbn. unfold Matrix.size in *. lia. }
      set (g := Matrix.get frame (Point.mk col row)).
      assert (Hg : wide_glyph g) by (by apply Hwide, even_cell_frame).
      destruct (change_colors_ok (d_run d0 out) prev g Hg Hf Hb) as (Hs1 & C1 & F1 & B1).
      cbv zeta. rewrite print_wide by apply Hg.
      set (out1 := (out ++ _) ++ _).
      assert (Hrun : d_run d0 out1 = d_run (d_run (d_run d0 out)
        (if color_neqb (fg g) (fg prev) then setForegroundColor (fg g) else []))
        (if color_neqb (bg g) (bg prev) then setBackgroundColor (bg g) else [])).
      { unfold out1. by rewrite !d_run_app. }
      rewrite <- Hrun in Hs1, C1, F1, B1.
      assert (Hfit1 : fits (d_run d0 out1)) by (eapply fits_size; [apply Hs1|done]).
      destruct (paint_glyph_ok (d_run d0 out1) last g col row Hfit1 Hs Hcell eq_refl)
        as (Hp & F2 & B2 & C2); [congruence..|].
      assert (Hrun2 : d_step (d_run d0 out1) (Text (wide_text (ch g))) =
        d_run d0 (out1 ++ [Text (wide_text (ch g))])) by by rewrite d_run_app.
      rewrite Hrun2 in Hp, F2, B2, C2.
      destruct (IH (col + 2) g (Matrix.set last (Point.mk col row) g)
        (out1 ++ [Text (wide_text (ch g))])) as (last' & out' & -> & Hp'); try done; try lia.
      - eapply fits_size; [apply Hp|done].
      - by apply same_frame_set.
      - by apply even_next.
      - intros Hle2. split_and!; [apply C2; lia|done|done].
      - exists last', out'. split; [done|].
        eapply (painted_trans (fun _ => false) (in_cols row col mx)); [by apply painted_none| |done].
        eapply painted_trans; [exact Hp|exact Hp'|]. intros q [Hq _]. by apply cols_split. }
  all: exists last, out; split; [done|]; apply painted_none; [done|done|];
    intros q _; unfold in_cols; destruct (Z.leb_spec col (Point.x q)), (Z.leb_spec (Point.x q) mx);
    rewrite ?andb_false_r; try done; lia.
Qed.

(** What is on the screen before: each even cell shows [lastFrame], or
    [lastFrame] is known to differ from the frame there. *)
Definition in_step d last : Prop :=
  forall q, even_cell last0 q ->
    image d q = Matrix.get last q \/ Matrix.get last q <> Matrix.get frame q.

Definition odd_agree last : Prop :=
  forall q, Z.even (Point.x q) = false -> Matrix.get last q = Matrix.get frame q.

Lemma in_step_painted P d last d' last' :
  painted P d last d' last' -> in_step d last -> in_step d' last'.
Proof using Type.
  intros (_ & _ & _ & He) Hin q Hq. destruct (He q Hq) as [-> ->]. destruct (P q); [by left|auto].
Qed.

Lemma odd_agree_painted P d last d' last' :
  painted P d last d' last' -> odd_agree last -> odd_agree last'.
Proof using Type. intros (_ & _ & Ho & _) Hag q Hq. rewrite Ho by done. by apply Hag. Qed.

(** Drawing the cells [P] of a row draws the row, where the other cells of
    the row already show the frame. *)
Lemma painted_row row d last d' last' P : in_step d last -> painted P d last d' last' ->
  (forall q, even_cell last0 q -> P q = true -> Point.y q = row) ->
  (forall q, even_cell last0 q -> Point.y q = row -> P q = true \/ Matrix.get last q = Matrix.get frame q) ->
  painted (fun q => Point.y q =? row) d last d' last'.
Proof using All.
  intros Hstep (Hs' & Hd' & Ho & He) Hin Hout. split_and!; try done.
  intros q Hq. destruct (He q Hq) as [-> ->]. destruct (P q) eqn:E.
  - rewrite (proj2 (Z.eqb_eq _ _)) by auto. done.
  - destruct (Z.eqb_spec (Point.y q) row) as [Hr|]; [|done].
    destruct (Hout q Hq Hr) as [|Hsame]; [congruence|]. split; [done|].
    destruct (Hstep q Hq) as [-> | Hne]; [done|by destruct Hne].
Qed.

(** The cursor is moved to the first cell that differs, the colours are set
    and the columns of the span are drawn. *)
Lemma paint_span_ok row mn mx last out d0 :
  fits (d_run d0 out) -> same_frame last0 last -> 0 <= row < Point.y (Matrix.size last0) ->
  0 <= mn <= mx -> mx < Point.x (Matrix.size last0) -> Z.even mn = true -> Z.even mx = true ->
  let g := Matrix.get frame (Point.mk mn row) in
  exists last' out',
    paint_cols (Z.to_nat (Point.x (Matrix.size last0))) frame row mx mn g last
      ((out ++ moveCursor (Point.add offset (Point.mk mn row))) ++ setColors (fg g) (bg g)) = Ok (last', out') /\
    painted (in_cols row mn mx) (d_run d0 out) last (d_run d0 out') last'.
Proof using All.
  intros Hfit Hs Hrow Hle Hmx Hemn Hemx g.
  assert (Hcell : even_cell last0 (Point.mk mn row)).
  { split; [done|]. apply Matrix.contains_spec. cbn. unfold Matrix.size in *. lia. }
  assert (Hg : wide_glyph g) by (by apply Hwide, even_cell_frame).
  set (d1 := d_run d0 (out ++ moveCursor (Point.add offset (Point.mk mn row)))).
  assert (Hd1 : d1 = d_step (d_run d0 out) (CursorTo (Point.y offset + row + 1) (Point.x offset + mn + 1))).
  { unfold d1. by rewrite d_run_app. }
  pose proof Hfit as (Hfx & Hfw & Hfy & Hfh).
  destruct (law_cursor (d_run d0 out) (Point.y offset + row + 1) (Point.x offset + mn + 1))
    as (S1 & C1 & _ & _); [lia|unfold Matrix.size in *; lia|]. rewrite <- Hd1 in S1, C1.
  destruct Hg as (Hch & Hgf & Hgb).
  destruct (setColors_ok d1 (fg g) (bg g) Hgf Hgb) as (S2 & C2 & F2 & B2).
  unfold d1 in S2, C2, F2, B2. rewrite <- d_run_app in S2, C2, F2, B2. fold d1 in S2, C2.
  set (out1 := (out ++ _) ++ _) in *.
  assert (S12 : same_image (d_run d0 out) (d_run d0 out1)) by by etrans.
  destruct (paint_cols_ok (Z.to_nat (Point.x (Matrix.size last0))) row mx mn g last out1 d0)
    as (last' & out' & Hpaint & Hp); try done; try lia.
  - eapply fits_size; [apply S12|done].
  - intros _. split; [|done]. rewrite C2, C1. unfold Point.add. cbn. f_equal; lia.
  - exists last', out'. split; [done|].
    eapply (painted_trans (fun _ => false)); [by apply painted_none|exact Hp|done].
Qed.

(** A cell of the row that is not drawn has not changed. *)
Lemma undrawn_cell row last (P : Point -> bool) : Matrix.size last = Matrix.size last0 ->
  (forall col, 0 <= col < Point.x (Matrix.size last) -> differs last frame row col -> P (Point.mk col row) = true) ->
  forall q, even_cell last0 q -> Point.y q = row -> P q = true \/ Matrix.get last q = Matrix.get frame q.
Proof using All.
  intros Hsz Hall [qx qy] [_ Hin] Hr. cbn in Hr. subst qy. apply Matrix.contains_spec in Hin. cbn in Hin.
  destruct (decide (Matrix.get last (Point.mk qx row) = Matrix.get frame (Point.mk qx row))); [by right|left].
  apply Hall; [rewrite Hsz; unfold Matrix.size; lia|done].
Qed.

(** After its row has been painted, a cell shows the frame. *)
Lemma paint_row_ok row last out d0 :
  fits (d_run d0 out) -> same_frame last0 last -> 0 <= row < Point.y (Matrix.size last0) ->
  0 < Point.x (Matrix.size last0) -> in_step (d_run d0 out) last -> odd_agree last ->
  exists last' out', paint_row frame offset (last, out) row = Ok (last', out') /\
    painted (fun q => Point.y q =? row) (d_run d0 out) last (d_run d0 out') last'.
Proof using All.
  intros Hfit Hs Hrow Hx Hstep Hodd. unfold paint_row.
  assert (Hsz : Matrix.size last = Matrix.size last0) by apply Hs.
  pose proof (row_span_spec last frame row) as Hspan. specialize (Hspan ltac:(by rewrite Hsz)).
  destruct (row_span last frame row) as [mn mx].
  assert (Hev : forall col, differs last frame row col -> Z.even col = true).
  { intros col Hd. destruct (Z.even col) eqn:E; [done|]. by destruct Hd; apply Hodd. }
  destruct Hspan as [(-> & -> & Hno)|(Hle & Hmx & Hdmn & Hdmx & Hall)].
  - rewrite (proj2 (Z.ltb_lt 0 _)) by (by rewrite Hsz). eexists _, _. split; [done|].
    apply (painted_row row _ _ _ _ (fun _ => false)); [done|by apply painted_none|done|].
    apply (undrawn_cell row last); [done|]. intros col Hcol Hd. by destruct (Hno col).
  - rewrite (proj2 (Z.ltb_ge mx mn)) by lia. rewrite Hsz in Hmx |- *.
    destruct (paint_span_ok row mn mx last out d0 Hfit Hs Hrow Hle Hmx (Hev _ Hdmn) (Hev _ Hdmx)) as (last' & out' & -> & Hp).
    exists last', out'. split; [done|]. apply (painted_row row _ _ _ _ (in_cols row mn mx)); [done|done| |].
    + intros q _. unfold in_cols. intros Hq. bools. done.
    + apply undrawn_cell; [done|]. intros col Hcol Hd. destruct (Hall col Hcol Hd). unfold in_cols. cbn.
      by rewrite Z.eqb_refl, (proj2 (Z.leb_le _ _)), (proj2 (Z.leb_le _ _)) by done.
Qed.

Lemma paint_rows_ok lo n last out d0 :
  fits (d_run d0 out) -> same_frame last0 last -> 0 <= lo ->
  lo + Z.of_nat n <= Point.y (Matrix.size last0) -> 0 < Point.x (Matrix.size last0) ->
  in_step (d_run d0 out) last -> odd_agree last ->
  exists last' out', foldM (paint_row frame offset) (last, out) (seqZ lo (Z.of_nat n)) = Ok (last', out') /\
    painted (fun q => (lo <=? Point.y q) && (Point.y q <? lo + Z.of_nat n))
      (d_run d0 out) last (d_run d0 out') last'.
Proof using All.
  revert lo last out. induction n as [|n IH]; intros lo last out Hfit Hs Hlo Hle Hx Hstep Hodd.
  - exists last, out. split; [done|]. apply painted_none; [done|done|]. intros q _.
    destruct (Z.leb_spec lo (Point.y q)), (Z.ltb_spec (Point.y q) (lo + Z.of_nat 0)); try done; lia.
  - rewrite seqZ_cons by lia. cbn [foldM].
    destruct (paint_row_ok lo last out d0 Hfit Hs ltac:(lia) Hx Hstep Hodd)
      as (last1 & out1 & -> & Hp1). cbn [rbind].
    replace (Z.pred (Z.of_nat (S n))) with (Z.of_nat n) by lia.
    destruct (IH (Z.succ lo) last1 out1) as (last2 & out2 & -> & Hp2); try lia.
    + eapply fits_size; [apply Hp1|done].
    + apply Hp1.
    + by eapply in_step_painted.
    + by eapply odd_agree_painted.
    + exists last2, out2. split; [done|]. eapply painted_trans; [exact Hp1|exact Hp2|].
      intros q _. cbv beta.
      destruct (Z.leb_spec lo (Point.y q)), (Z.ltb_spec (Point.y q) (lo + Z.of_nat (S n))),
        (Z.eqb_spec (Point.y q) lo), (Z.leb_spec (Z.succ lo) (Point.y q)),
        (Z.ltb_spec (Point.y q) (Z.succ lo + Z.of_nat n)); try done; lia.
Qed.
End paint.

(** The status line leaves the other rows alone. *)
Lemma status_ok {D} `{DisplayLaws D} (d : D) (status : list Z) :
  Forall (fun b => 32 <= b < 127) status ->
  Z.of_nat (length status) < Point.x (d_size d) -> 0 < Point.y (d_size d) ->
  let d' := d_run d (moveCursor (Point.mk (Point.x (d_size d) - Z.of_nat (length status) - 1)
    (Point.y (d_size d) - 1)) ++ setColors kNone kNone ++ [EraseLine; Text status]) in
  d_size d' = d_size d /\
  forall p, Point.y p < Point.y (d_size d) - 1 -> d_image d' p = d_image d p.
Proof.
  intros Htext Hw Hh. rewrite !d_run_app. unfold moveCursor. cbn [d_run foldl Point.x Point.y].
  set (w := Point.x (d_size d)) in *. set (h := Point.y (d_size d)) in *. set (n := Z.of_nat (length status)) in *.
  destruct (law_cursor d (h - 1 + 1) (w - n - 1 + 1)) as ([S1 I1] & C1 & _); [lia|lia|].
  set (d1 := d_step d _) in *.
  destruct (setColors_ok d1 kNone kNone) as ([S2 I2] & C2 & _); [done|done|].
  change (foldl d_step d1 (setColors kNone kNone)) with (d_run d1 (setColors kNone kNone)).
  set (d2 := d_run d1 _) in *.
  destruct (law_erase d2) as (S3 & C3 & I3). set (d3 := d_step d2 _) in *.
  destruct (law_text d3 status Htext) as (S4 & I4).
  { rewrite C3, C2, C1, S3, S2, S1. cbn. fold w. lia. }
  set (d4 := d_step d3 _) in *. split; [congruence|]. intros p Hp.
  assert (Hrow : Point.y p <> Point.y (d_cursor d3)) by (rewrite C3, C2, C1; cbn; lia).
  rewrite I4 by done. rewrite I3 by (rewrite <- C3; done). by rewrite I2, I1.
Qed.

(** [draw] brings [lastFrame] and the screen up to the frame. *)
Lemma draw_ok {D} `{DisplayLaws D} (d : D) (frame last : Matrix Glyph) (status : list Z) :
  let size := Matrix.size last in
  let offset := Point.mk (Z.quot (Point.x (d_size d) - Point.x size) 2)
                         (Z.quot (Point.y (d_size d) - Point.y size) 2) in
  Matrix.wf last -> same_frame last frame -> wide_frame frame ->
  Z.even (Point.x size) = true -> 0 < Point.x size <= Point.x (d_size d) ->
  0 <= Point.y size < Point.y (d_size d) ->
  in_step frame last offset d last -> odd_agree frame last ->
  Forall (fun b => 32 <= b < 127) status -> Z.of_nat (length status) < Point.x (d_size d) ->
  exists out, draw (d_size d) frame last status = Ok (frame, out) /\
    d_size (d_run d out) = d_size d /\
    forall q, even_cell frame q -> image offset (d_run d out) q = Matrix.get frame q.
Proof.
  intros size offset Hwf Hframe Hwide Heven [Hx Hw] [Hy Hh] Hstep Hodd Htext Hlen.
  assert (Hfit : fits last offset d).
  { unfold fits, offset. cbn [Point.x Point.y]. fold size. rewrite !Z.quot_div_nonneg by lia.
    pose proof (Z.mod_pos_bound (Point.x (d_size d) - Point.x size) 2 ltac:(lia)).
    pose proof (Z.mod_pos_bound (Point.y (d_size d) - Point.y size) 2 ltac:(lia)).
    pose proof (Z.div_mod (Point.x (d_size d) - Point.x size) 2 ltac:(lia)).
    pose proof (Z.div_mod (Point.y (d_size d) - Point.y size) 2 ltac:(lia)). lia. }
  unfold draw. fold size.
  assert (Hsz : Matrix.size frame = size) by apply Hframe.
  assert (Point.eqb size (Matrix.size frame) = true) as ->.
  { rewrite Hsz. unfold Point.eqb. by rewrite !Z.eqb_refl. }
  cbn [cpp_assert]. fold offset.
  destruct (paint_rows_ok frame last offset Hwf Hframe Hwide Heven 0 (Z.to_nat (Point.y size)) last [] d)
    as (last' & out & Hrun & Hp); try done; [fold size; lia|].
  rewrite Z2Nat.id in Hrun, Hp by done. rewrite Hrun. cbn [rbind].
  destruct Hp as (Hs' & Hd' & Ho & He). change (d_run d []) with d in Hd'.
  assert (Hfinal : forall q, even_cell last q -> Matrix.get last' q = Matrix.get frame q /\
    image offset (d_run d out) q = Matrix.get frame q).
  { intros q Hq. destruct (He q Hq) as [-> ->].
    destruct Hq as [_ Hin]. apply Matrix.contains_spec in Hin.
    rewrite (proj2 (Z.leb_le _ _)), (proj2 (Z.ltb_lt _ _)) by (unfold size, Matrix.size in *; lia). done. }
  assert (last' = frame) as ->.
  { destruct Hs' as (? & Hs1 & Hi1), Hframe as (? & Hs2 & Hi2).
    apply Matrix.wf_ext; [done|done|congruence|congruence|]. intros q Hq.
    destruct (Z.even (Point.x q)) eqn:E; [|rewrite Ho by done; by apply Hodd].
    apply Hfinal. split; [done|]. unfold Matrix.contains in *. by rewrite <- Hs1. }
  assert (Hgrow : Point.y offset + Point.y size <= Point.y (d_size d) - 1).
  { unfold offset. cbn [Point.y]. rewrite Z.quot_div_nonneg by lia.
    pose proof (Z.div_le_upper_bound (Point.y (d_size d) - Point.y size) 2
      (Point.y (d_size d) - Point.y size - 1)). destruct (decide (Point.y (d_size d) - Point.y size = 1)) as [E|].
    - rewrite E. change (1 / 2) with 0. lia.
    - lia. }
  destruct (status_ok (d_run d out) status Htext) as [Hds Him]; [by rewrite Hd'|rewrite Hd'; lia|].
  rewrite Hd' in Hds, Him.
  eexists. split; [done|]. rewrite <- !app_assoc, d_run_app.
  split; [exact Hds|]. intros q Hq.
  assert (Hq' : even_cell last q) by (destruct Hq; split; [done|]; by rewrite <- (same_frame_contains last frame)).
  destruct (Hfinal q Hq') as [_ <-]. unfold image. apply Him.
  destruct Hq' as [_ Hin]. apply Matrix.contains_spec in Hin. cbn [Point.add Point.y].
  unfold size, Matrix.size in *. lia.
Qed.
