(* ===== verification/Timing.v ===== *)
(** * Timing: the frame clock (src/main.cpp, [Timing])

    A ring of the last [kFPS] frames, each with its start and end, and the
    sum of their durations; times are [uint64_t] and wrap. [show_stats] is the
    text of the statistics that [main] prints, as far as the standard library
    prints doubles for it; [show_stats_fits] bounds its length. *)

From Corelib Require Import SpecFloat.
From S2P Require Import Prelude.
From S2P Require Import Doubles.
From S2P Require Import Display.

Definition kFPS : Z := 60.
Definition kNanosPerSecond : Z := 1000000000.
Definition kNanosPerFrame : Z := kNanosPerSecond / kFPS.

(** [int(0.9 * kNanosPerFrame)]: the conversion truncates. *)
Definition double_trunc (d : double) : Z :=
  match d with
  | S754_finite s m e =>
      let n := if 0 <=? e then Z.pos m * 2 ^ e else Z.pos m / 2 ^ (- e) in
      if s then - n else n
  | _ => 0
  end.
Definition kNanosMinDelay : Z :=
  double_trunc (double_mul (double_div (double_of_Z 9) (double_of_Z 10)) (double_of_Z kNanosPerFrame)).

Abbreviation Frame := (Z * Z)%type.

Record Stats := mkStats { cpu : double; fps : double }.

Record Timing := mkTiming { frames : list Frame; used : Z; index : Z }.

Definition Timing_ctor (ts : Z) : Timing :=
  mkTiming (for_range 0 kFPS (fun frames i => <[Z.to_nat i := (ts, ts)]> frames)
    (replicate (Z.to_nat kFPS) (0, 0))) 0 0.

(** [frames[index % kFPS]] and [frames[(index + kFPS - 1) % kFPS]]. *)
Definition current (t : Timing) : nat := Z.to_nat (index t mod kFPS).
Definition previous (t : Timing) : nat := Z.to_nat (u64 (u64 (index t + kFPS) - 1) mod kFPS).

(** [prev] is the reading of the clock; the result is the time to sleep. *)
Definition block (t : Timing) (prev : Z) : result (option Z) :=
  let* a := deref (frames t !! current t) in
  let* b := deref (frames t !! previous t) in
  let next := Z.max (u64 (fst a + kNanosPerSecond)) (u64 (fst b + kNanosMinDelay)) in
  if next <=? prev then Ok None
  else Ok (Some (Z.min (u64 (next - prev)) kNanosPerFrame)).

Definition stats (t : Timing) : result Stats :=
  let* a := deref (frames t !! current t) in
  let* b := deref (frames t !! previous t) in
  let total := Z.max (u64 (snd b - fst a)) 1 in
  let cpu := double_div (double_mul (double_of_Z (used t)) (double_of_Z 100)) (double_of_Z total) in
  let fps := double_div (double_mul (double_of_Z kFPS) (double_of_Z kNanosPerSecond)) (double_of_Z total) in
  Ok (mkStats cpu fps).

Definition start (t : Timing) (now : Z) : result Timing :=
  let* frame := deref (frames t !! current t) in
  let used := u64 (used t - u64 (snd frame - fst frame)) in
  Ok (mkTiming (<[current t := (now, snd frame)]> (frames t)) used (index t)).

Definition end_ (t : Timing) (now : Z) : result Timing :=
  let* frame := deref (frames t !! current t) in
  let frame := (fst frame, now) in
  let used := u64 (used t + u64 (snd frame - fst frame)) in
  Ok (mkTiming (<[current t := frame]> (frames t)) used (u64 (index t + 1))).

(** One iteration of the main loop, with the two readings of the clock. *)
Definition iterate (t : Timing) (readings : Frame) : result Timing :=
  let* t := start t (fst readings) in end_ t (snd readings).

(** ** The status line

    [std::fixed << std::setprecision(2)] prints a double as [%.2f] does: the
    exact value, rounded to hundredths with ties to even. *)

(** [100 * m * 2^e], rounded. *)
Definition hundredths (m e : Z) : Z :=
  if 0 <=? e then 100 * m * 2 ^ e
  else
    let q := 100 * m / 2 ^ (- e) in
    match 2 * ((100 * m) mod 2 ^ (- e)) ?= 2 ^ (- e) with
    | Lt => q
    | Eq => if Z.even q then q else q + 1
    | Gt => q + 1
    end.

(** [SpecFloat] has one NaN, without a sign; [stats] never computes it. *)
Definition fixed2 (d : double) : list Z :=
  let minus (s : bool) := if s then bytes_of_string "-" else [] in
  match d with
  | S754_zero s => minus s ++ bytes_of_string "0.00"
  | S754_infinity s => minus s ++ bytes_of_string "inf"
  | S754_nan => bytes_of_string "nan"
  | S754_finite s m e =>
      let n := hundredths (Z.pos m) e in
      minus s ++ decimal (n / 100) ++ bytes_of_string "." ++ [48 + n / 10 mod 10; 48 + n mod 10]
  end.

(** The [ostringstream] of [main]. *)
Definition show_stats (stats : Stats) : list Z :=
  bytes_of_string "CPU: " ++ fixed2 (cpu stats) ++ bytes_of_string "%; FPS: " ++ fixed2 (fps stats).

(** ** The constants *)

Lemma kNanosPerFrame_eq : kNanosPerFrame = 16666666.
Proof. reflexivity. Qed.
Lemma kNanosMinDelay_eq : kNanosMinDelay = 14999999.
Proof. vm_compute. reflexivity. Qed.

(** ** The ring *)

Definition duration (f : Frame) : Z := snd f - fst f.
Definition total_duration (fs : list Frame) : Z := foldr (fun f n => duration f + n) 0 fs.

Lemma total_duration_app l k : total_duration (l ++ k) = total_duration l + total_duration k.
Proof. induction l as [|f l IH]; simpl; [done|]. fold (total_duration (l ++ k)). rewrite IH.
  change (foldr _ 0 l) with (total_duration l). lia. Qed.

Lemma total_duration_insert l i f g :
  l !! i = Some g -> total_duration (<[i := f]> l) = total_duration l - duration g + duration f.
Proof.
  intros Hi. rewrite <- (take_drop_middle l i g Hi) at 2.
  rewrite insert_take_drop by (by eapply lookup_lt_Some).
  rewrite !total_duration_app. cbn [total_duration foldr]. lia.
Qed.

(** The invariant, against the list of all frames so far: the frame of
    iteration [k] is in slot [k mod 60], the last sixty are in the ring, and
    [used] is the sum of their durations. *)
Record ring (t : Timing) (past : list Frame) : Prop := {
  ring_length : length past = (60 + Z.to_nat (index t))%nat;
  ring_index : 0 <= index t < 2 ^ 64 - 60;
  ring_frames : length (frames t) = 60%nat;
  ring_slot : forall j, (j < 60)%nat ->
    frames t !! ((Z.to_nat (index t) + j) mod 60)%nat = past !! (Z.to_nat (index t) + j)%nat;
  ring_used : used t = u64 (total_duration (frames t)) }.

Lemma ctor_ring ts : ring (Timing_ctor ts) (replicate 60 (ts, ts)).
Proof.
  assert (Hf : frames (Timing_ctor ts) = replicate 60 (ts, ts)) by reflexivity.
  constructor; try done.
  - intros j Hj. rewrite Hf. change (Z.to_nat (index (Timing_ctor ts))) with O. cbn [plus].
    by rewrite Nat.mod_small.
  - rewrite Hf. cbn [used Timing_ctor]. cbn. unfold duration. cbn. rewrite Z.sub_diag. done.
Qed.

Lemma current_slot t past : ring t past -> current t = (Z.to_nat (index t) mod 60)%nat.
Proof.
  intros [_ Hi _ _ _]. unfold current, kFPS. rewrite Z2Nat.inj_mod by lia. done.
Qed.

Lemma previous_slot t past : ring t past -> previous t = ((Z.to_nat (index t) + 59) mod 60)%nat.
Proof.
  intros [_ Hi _ _ _]. unfold previous, kFPS. rewrite (u64_id (index t + 60)) by lia.
  rewrite u64_id by lia. rewrite Z2Nat.inj_mod by lia. f_equal. lia.
Qed.

(** The current slot holds the frame of sixty iterations ago, the one before
    it the last frame. *)
Lemma ring_current t past : ring t past ->
  exists f, frames t !! current t = Some f /\ past !! (Z.to_nat (index t)) = Some f.
Proof.
  intros Hr. destruct (lookup_lt_is_Some_2 past (Z.to_nat (index t))) as [f Hf].
  { rewrite (ring_length _ _ Hr). lia. }
  exists f. split; [|done]. rewrite (current_slot t past Hr), <- Hf.
  pose proof (ring_slot _ _ Hr O ltac:(lia)) as Hs. by rewrite !Nat.add_0_r in Hs.
Qed.

Lemma ring_previous t past : ring t past ->
  exists f, frames t !! previous t = Some f /\ last past = Some f.
Proof.
  intros Hr. destruct (lookup_lt_is_Some_2 past (Z.to_nat (index t) + 59)%nat) as [f Hf].
  { rewrite (ring_length _ _ Hr). lia. }
  exists f. split.
  - rewrite (previous_slot t past Hr), <- Hf. apply (ring_slot _ _ Hr). lia.
  - rewrite last_lookup, (ring_length _ _ Hr). rewrite <- Hf. f_equal. lia.
Qed.

Lemma iterate_ring t past s e :
  ring t past -> index t + 1 < 2 ^ 64 - 60 ->
  exists t', iterate t (s, e) = Ok t' /\ ring t' (past ++ [(s, e)]) /\ index t' = index t + 1.
Proof.
  intros Hr Hmax. destruct (ring_current t past Hr) as (f & Hcur & Hf).
  pose proof (current_slot t past Hr) as Hslot. destruct Hr as [Hlen Hi Hfl Hsl Hu].
  unfold iterate, start. rewrite Hcur. cbn [deref rbind fst snd].
  unfold end_. cbn [frames current index used]. change (current (mkTiming _ _ _)) with (current t).
  assert (Hlt : (current t < length (frames t))%nat) by (by eapply lookup_lt_Some).
  rewrite list_lookup_insert_eq by done. cbn [deref rbind fst snd].
  eexists. split; [done|]. rewrite list_insert_insert_eq. cbn [index].
  rewrite (u64_id (index t + 1)) by lia. split; [|done]. constructor; cbn [frames index used].
  - rewrite length_app, Hlen. simpl. lia.
  - lia.
  - by rewrite length_insert.
  - intros j Hj. replace (Z.to_nat (index t + 1) + j)%nat with (Z.to_nat (index t) + S j)%nat by lia.
    set (k := Z.to_nat (index t)) in *. rewrite Hslot.
    destruct (decide (S j = 60%nat)) as [E|Hne].
    + replace (k + S j)%nat with (k + 1 * 60)%nat by lia.
      rewrite Nat.Div0.mod_add. rewrite list_lookup_insert_eq by (by rewrite <- Hslot).
      rewrite lookup_app_r by lia. rewrite Hlen. by replace (k + 1 * 60 - (60 + k))%nat with O by lia.
    + rewrite list_lookup_insert_ne.
      * rewrite Hsl by lia. by rewrite lookup_app_l by lia.
      * intros Heq. pose proof (Nat.div_mod_eq k 60). pose proof (Nat.div_mod_eq (k + S j) 60).
        pose proof (Nat.mod_upper_bound k 60 ltac:(lia)). lia.
  - rewrite (total_duration_insert _ _ _ f Hcur). rewrite Hu. autorewrite with u64.
    reflexivity.
Qed.

(** The ring is a rotation of the last sixty frames. *)
Lemma ring_rotation t past : ring t past ->
  drop (Z.to_nat (index t)) past =
    drop (current t) (frames t) ++ take (current t) (frames t).
Proof.
  intros Hr. pose proof (current_slot t past Hr) as Hslot. destruct Hr as [Hlen Hi Hfl Hsl _].
  set (k := Z.to_nat (index t)) in *. assert (Hc : (current t < 60)%nat).
  { rewrite Hslot. apply Nat.mod_upper_bound. lia. }
  apply list_eq_same_length with 60%nat.
  - by rewrite length_app, length_drop, length_take_le, Hfl by lia; lia.
  - rewrite length_drop, Hlen. lia.
  - intros j x y Hj Hx Hy. rewrite lookup_drop in Hx. rewrite <- Hsl in Hx by done.
    assert (Hrot : (drop (current t) (frames t) ++ take (current t) (frames t)) !! j =
      frames t !! ((k + j) mod 60)%nat); [|rewrite Hrot in Hy; congruence].
    assert (Hmod : ((k + j) mod 60 = (current t + j) mod 60)%nat).
    { rewrite Hslot. by rewrite Nat.Div0.add_mod_idemp_l. }
    rewrite Hmod. destruct (decide (current t + j < 60)%nat).
    + rewrite Nat.mod_small by done. rewrite lookup_app_l by (rewrite length_drop, Hfl; lia).
      by rewrite lookup_drop.
    + rewrite lookup_app_r by (rewrite length_drop, Hfl; lia). rewrite length_drop, Hfl.
      rewrite lookup_take_lt by lia. f_equal.
      replace (current t + j)%nat with ((current t + j - 60) + 1 * 60)%nat by lia.
      rewrite Nat.Div0.mod_add, Nat.mod_small by lia. lia.
Qed.

(** All iterations, from the constructor. *)
Definition run (ts : Z) (history : list Frame) : result Timing := foldM iterate (Timing_ctor ts) history.

Lemma run_ring ts history :
  Z.of_nat (length history) < 2 ^ 64 - 60 ->
  exists t, run ts history = Ok t /\ ring t (replicate 60 (ts, ts) ++ history) /\
    index t = Z.of_nat (length history).
Proof.
  unfold run. induction history as [|[s e] history IH] using rev_ind; intros Hlen.
  - exists (Timing_ctor ts). rewrite app_nil_r. split_and!; [done|apply ctor_ring|done].
  - rewrite length_app in *. cbn [length] in Hlen |- *. destruct IH as (t & Ht & Hr & Hi); [lia|].
    rewrite foldM_app, Ht. cbn [rbind foldM].
    destruct (iterate_ring t _ s e Hr) as (t' & -> & Hr' & Hi'); [lia|]. cbn [rbind].
    exists t'. rewrite app_assoc. split_and!; [done|done|]. rewrite Hi', Hi. lia.
Qed.

(** [stats] and [block] read frames that are there. *)
Lemma stats_ok tm past : ring tm past -> exists st, stats tm = Ok st.
Proof.
  intros Hr. unfold stats. destruct (ring_current _ _ Hr) as (a & -> & _), (ring_previous _ _ Hr) as (b & -> & _).
  cbn [deref rbind]. by eexists.
Qed.

Lemma block_ok tm past now : ring tm past ->
  exists delay, block tm now = Ok delay /\ forall n, delay = Some n -> 0 <= n <= kNanosPerFrame.
Proof.
  intros Hr. unfold block. destruct (ring_current _ _ Hr) as (a & -> & _), (ring_previous _ _ Hr) as (b & -> & _).
  cbn [deref rbind]. case_match; (eexists; split; [done|]); [done|]. intros n [= <-].
  pose proof (u64_range (Z.max (u64 (fst a + kNanosPerSecond)) (u64 (fst b + kNanosMinDelay)) - now)).
  rewrite kNanosPerFrame_eq. lia.
Qed.

(** ** The length of the status line *)

Definition printable (bytes : list Z) : Prop := Forall (fun b => 32 <= b < 127) bytes.

Lemma printable_literal l : forallb (fun b => (32 <=? b) && (b <? 127)) l = true -> printable l.
Proof.
  intros H. apply Forall_forall. intros b Hb. rewrite forallb_forall in H. apply list_elem_of_In, H in Hb. bools. lia.
Qed.

Lemma bytes_of_string_cons a s : bytes_of_string (String a s) = Z.of_N (Ascii.N_of_ascii a) :: bytes_of_string s.
Proof. done. Qed.

Lemma pretty_char d : (d < 10)%N -> 32 <= Z.of_N (Ascii.N_of_ascii (pretty_N_char d)) < 127.
Proof.
  intros Hd. assert (d = 0 \/ d = 1 \/ d = 2 \/ d = 3 \/ d = 4 \/ d = 5 \/ d = 6 \/ d = 7 \/ d = 8 \/ d = 9)%N as Hcases by lia.
  repeat (destruct Hcases as [->|Hcases]; [done|]). by subst.
Qed.

Lemma decimal_go k n s : Z.of_N n < 10 ^ Z.of_nat k -> printable (bytes_of_string s) ->
  printable (bytes_of_string (pretty_N_go n s)) /\
  (length (bytes_of_string (pretty_N_go n s)) <= k + length (bytes_of_string s))%nat.
Proof.
  revert n s. induction k as [|k IH]; intros n s Hn Hs.
  - assert (n = 0%N) as -> by lia. rewrite pretty_N_go_0. by split.
  - destruct (decide (n = 0%N)) as [->|Hn0]; [rewrite pretty_N_go_0; split; [done|lia]|].
    rewrite pretty_N_go_step by lia. rewrite Nat2Z.inj_succ, Z.pow_succ_r in Hn by lia.
    destruct (IH (n / 10)%N (String (pretty_N_char (n mod 10)) s)) as [Hp Hl].
    + rewrite N2Z.inj_div. apply Z.div_lt_upper_bound; lia.
    + rewrite bytes_of_string_cons. constructor; [|done]. apply pretty_char. by apply N.mod_lt.
    + split; [done|]. rewrite bytes_of_string_cons in Hl. cbn [length] in Hl. lia.
Qed.

Lemma decimal_length k n : 0 <= n < 10 ^ Z.of_nat k -> (0 < k)%nat -> printable (decimal n) /\ (length (decimal n) <= k)%nat.
Proof.
  intros Hn Hk. destruct (decide (n = 0)) as [->|Hn0].
  { change (decimal 0) with [48]. split; [repeat constructor; lia|exact Hk]. }
  unfold decimal. destruct n as [|p|p]; [done| |lia]. change (pretty (Z.pos p)) with (pretty (N.pos p)).
  destruct (decimal_go k (N.pos p) "") as [Hp Hl]; [lia|constructor|]. cbn [bytes_of_string] in Hl.
  rewrite Nat.add_0_r in Hl. by split.
Qed.

Lemma decimal_printable n : 0 <= n -> printable (decimal n).
Proof.
  intros Hn. apply (decimal_length (S (Z.to_nat n)) n); [|lia]. split; [done|].
  pose proof (Z.pow_gt_lin_r 10 (Z.of_nat (S (Z.to_nat n)))). lia.
Qed.

Lemma printable_app l k : printable (l ++ k) <-> printable l /\ printable k.
Proof. apply Forall_app. Qed.

Lemma hundredths_bounds m e h : 0 < m -> Z.log2 m + 1 + e <= h -> 0 <= h -> 0 <= hundredths m e <= 100 * 2 ^ h.
Proof.
  intros Hm He Hh. assert (HL : 0 <= Z.log2 m) by apply Z.log2_nonneg. destruct (Z.log2_spec m Hm) as [_ Hlt].
  unfold hundredths. destruct (Z.leb_spec 0 e).
  - split; [lia|]. rewrite <- Z.mul_assoc. apply Z.mul_le_mono_nonneg_l; [done|].
    transitivity (2 ^ Z.succ (Z.log2 m) * 2 ^ e); [apply Z.mul_le_mono_nonneg_r; lia|].
    rewrite <- Z.pow_add_r by lia. apply Z.pow_le_mono_r; lia.
  - assert (Hd : 0 < 2 ^ (- e)) by lia.
    assert (Hq : 100 * m / 2 ^ (- e) < 100 * 2 ^ h).
    { apply Z.div_lt_upper_bound; [done|]. rewrite (Z.mul_comm (2 ^ _)), <- Z.mul_assoc. apply Z.mul_lt_mono_pos_l; [done|].
      apply Z.lt_le_trans with (2 ^ Z.succ (Z.log2 m)); [done|]. rewrite <- Z.pow_add_r by lia. apply Z.pow_le_mono_r; lia. }
    assert (0 <= 100 * m / 2 ^ (- e)) by (apply Z.div_pos; lia).
    repeat case_match; lia.
Qed.

Lemma fixed2_printable d : printable (fixed2 d).
Proof.
  assert (Hminus : forall s : bool, printable (if s then bytes_of_string "-" else [])) by (by intros []; apply printable_literal).
  destruct d as [s|s| |s m e]; cbn [fixed2]; try (apply printable_app; split; [done|]); try by apply printable_literal.
  pose proof (hundredths_bounds (Z.pos m) e (Z.max 0 (Z.log2 (Z.pos m) + 1 + e)) ltac:(lia) ltac:(lia) ltac:(lia)) as [Hn _].
  set (n := hundredths _ _) in *. apply printable_app. split; [apply decimal_printable, Z.div_pos; lia|].
  pose proof (Z.mod_pos_bound n 10 ltac:(lia)). pose proof (Z.mod_pos_bound (n / 10) 10 ltac:(lia)).
  apply printable_app. split; [by apply printable_literal|]. repeat constructor; lia.
Qed.

Lemma fixed2_length lo h k d : order_in lo h d -> 0 <= h -> 2 ^ h < 10 ^ Z.of_nat k -> (0 < k)%nat -> (length (fixed2 d) <= k + 3)%nat.
Proof.
  intros Hd Hh Hk Hk0. destruct d as [| | |[] m e]; try done. cbn [order_in] in Hd.
  destruct (hundredths_bounds (Z.pos m) e h) as [Hn Hle]; [lia|lia|done|]. cbn [fixed2]. set (n := hundredths _ _) in *.
  destruct (decimal_length k (n / 100)) as [_ Hl]; [|done|].
  - split; [by apply Z.div_pos|]. apply Z.le_lt_trans with (2 ^ h); [|done]. apply Z.div_le_upper_bound; lia.
  - rewrite !length_app. cbn [length]. change (length (bytes_of_string ".")) with 1%nat. lia.
Qed.

Lemma fps_length total : 1 <= total < 2 ^ 64 ->
  (length (fixed2 (double_div (double_mul (double_of_Z kFPS) (double_of_Z kNanosPerSecond)) (double_of_Z total))) <= 16)%nat.
Proof.
  intros Ht. apply (fixed2_length (35 - 65) (39 - 1 + 2) 13); [|lia..]. apply (order_div _ _ 35 39 1 65); [|by apply (order_of_Z _ 0 64)|lia..].
  apply (order_mul _ _ 6 7 30 31); [apply (order_of_Z _ 5 6)|apply (order_of_Z _ 29 30)|lia..]; unfold kFPS, kNanosPerSecond; lia.
Qed.

Lemma cpu_length used total : 0 <= used < 2 ^ 64 -> 1 <= total < 2 ^ 64 ->
  (length (fixed2 (double_div (double_mul (double_of_Z used) (double_of_Z 100)) (double_of_Z total))) <= 26)%nat.
Proof.
  intros Hu Ht. pose proof (order_of_Z total 0 64 Ht ltac:(lia) ltac:(lia)) as Htotal. destruct (decide (used = 0)) as [->|Hu0].
  - destruct (double_of_Z total) as [| | |[] m e]; try done. change (length (bytes_of_string "0.00") <= 26)%nat.
    change (length (bytes_of_string "0.00")) with 4%nat. lia.
  - apply (fixed2_length (7 - 65) (74 - 1 + 2) 23); [|lia..]. apply (order_div _ _ 7 74 1 65); [|done|lia..].
    apply (order_mul _ _ 1 65 7 8); [apply (order_of_Z _ 0 64)|apply (order_of_Z _ 6 7)|lia..]; lia.
Qed.

(** The text of the statistics is printable and has at most 55 characters,
    since [used] and [total] have 64 bits. *)
Lemma show_stats_fits t past st : ring t past -> stats t = Ok st ->
  printable (show_stats st) /\ (length (show_stats st) <= 55)%nat.
Proof.
  intros Hr Hst. split.
  { unfold show_stats. rewrite !printable_app. split_and!; try apply fixed2_printable; by apply printable_literal. }
  unfold stats in Hst. destruct (deref _) as [a|]; [|done]. destruct (deref _) as [b|]; [|done]. cbn [rbind] in Hst.
  pose proof (u64_range (total_duration (frames t))) as Hu. rewrite <- (ring_used _ _ Hr) in Hu.
  assert (Ht : 1 <= Z.max (u64 (snd b - fst a)) 1 < 2 ^ 64) by (pose proof (u64_range (snd b - fst a)); lia).
  revert Hst. generalize (cpu_length _ _ Hu Ht) (fps_length _ Ht). generalize (double_div (double_mul (double_of_Z kFPS) (double_of_Z kNanosPerSecond)) (double_of_Z (Z.max (u64 (snd b - fst a)) 1))) as f.
  generalize (double_div (double_mul (double_of_Z (used t)) (double_of_Z 100)) (double_of_Z (Z.max (u64 (snd b - fst a)) 1))) as c.
  intros c f Hc Hf [= <-]. unfold show_stats. rewrite !length_app. cbn [cpu fps].
  change (length (bytes_of_string "CPU: ")) with 5%nat. change (length (bytes_of_string "%; FPS: ")) with 8%nat. lia.
Qed.

(** A tie goes to the even digit. *)
Example show_stats_sample :
  show_stats (mkStats (double_div (double_of_Z 1) (double_of_Z 8)) (double_div (double_of_Z 60000) (double_of_Z 1001))) =
    bytes_of_string "CPU: 0.12%; FPS: 59.94".
Proof. vm_compute. reflexivity. Qed.
