(* ===== verification/Terminal.v ===== *)
(** * Terminal: one frame from the keyboard to the screen (src/main.cpp)

    [Terminal::tick] reads the keys, advances the game and draws the
    difference; [main_step] is the main loop with the signals that may arrive
    between its iterations. *)

From S2P Require Import Prelude.
From S2P Require Import Base.
From S2P Require Import Geo.
From S2P Require Import Entity.
From S2P Require Import Timers.
From S2P Require Import Board.
From S2P Require Import BoardInv.
From S2P Require Import Rules.
From S2P Require Import InitBoard.
From S2P Require Import Game.
From S2P Require Import GameInv.
From S2P Require Import Render.
From S2P Require Import Keys.
From S2P Require Import Display.
From S2P Require Import Timing.

(** [ColorIndex] of the two colours; [short] has sixteen bits. *)
Definition i16 (z : Z) : Z := (z + 2 ^ 15) mod 2 ^ 16 - 2 ^ 15.
Definition ColorIndex (fg bg : Z) : Z := i16 (Z.lor (Z.shiftl (i16 fg) 8) (i16 bg) + 1).

(** The flags of [termios], as Linux defines them. *)
Definition ICANON : Z := 2.
Definition ECHO : Z := 8.

Record Terminal (G : Type) := mkTerminal {
  io : IO G; terminalSize : Point; lastFrame : Matrix Glyph }.
Arguments mkTerminal {G}.
Arguments io {G}.
Arguments terminalSize {G}.
Arguments lastFrame {G}.

(** The chunks written, and the new value of [c_lflag]. *)
Definition initTerminal (enabled : bool) (c_lflag : Z) : list chunk * Z :=
  let code := if enabled then [PrivateMode 1049 true; PrivateMode 25 false]
              else [PrivateMode 1049 false; PrivateMode 25 true] in
  let flags := Z.lor ICANON ECHO in
  (code, if enabled then Z.land c_lflag (Z.lnot flags) else Z.lor c_lflag flags).

(** [~Terminal] calls [exit]. *)
Definition exit (c_lflag : Z) : list chunk * Z := initTerminal false c_lflag.

Section terminal.
Context {G : Type} `{RandomEngine G} (bufsize : nat).

(** [w] is the size that [ioctl] reports. *)
Definition Terminal_ctor (clock : list Z) (w : Point) (c_lflag : Z)
    : result (Terminal G * list chunk * Z) :=
  let* io := IO.make clock in
  let '(out, c_lflag) := initTerminal true c_lflag in
  Ok (mkTerminal io w (IO.frame io), out, c_lflag).

Definition tick (t : Terminal G) (s : Stdin) (status : list Z)
    : result (Terminal G * Stdin * list chunk) :=
  let* k := getKeyInputs bufsize s (IO.inputs (io t)) in
  let '(s, inputs) := k in
  let* io := IO.tick (IO.mk (IO.state (io t)) (IO.frame (io t)) inputs) in
  let* r := draw (terminalSize t) (IO.frame io) (lastFrame t) status in
  let '(last, out) := r in
  Ok (mkTerminal io (terminalSize t) last, s, out).

(** ** The main loop *)

Record Main := mkMain {
  terminal : Terminal G;
  stdin : Stdin;
  timing : Timing;
  g_done : bool;
  written : list chunk;
  slept : option Z }.

(** One iteration; [ts1] to [ts3] are the readings of the clock in [block],
    [start] and [end], [typed] the bytes that arrived before [tick]. *)
Definition iteration (m : Main) (typed : list Z) (ts1 ts2 ts3 : Z) : result Main :=
  let* stats := stats (timing m) in
  let* delay := block (timing m) ts1 in
  let* timing1 := start (timing m) ts2 in
  let ss := show_stats stats in
  let s := mkStdin (buffer (stdin m)) (queue (stdin m) ++ typed) in
  let* r := tick (terminal m) s ss in
  let '(terminal, s, out) := r in
  let* timing2 := end_ timing1 ts3 in
  Ok (mkMain terminal s timing2 (g_done m) (written m ++ out) delay).

(** The loop and the handler of [SIGINT], which only sets [g_done]. *)
Inductive main_step : Main -> Main -> Prop :=
| step_iteration m m' typed ts1 ts2 ts3 :
    g_done m = false -> iteration m typed ts1 ts2 ts3 = Ok m' -> main_step m m'
| step_sigint m :
    main_step m (mkMain (terminal m) (stdin m) (timing m) true (written m) (slept m)).
End terminal.
Arguments mkMain {G}.
Arguments terminal {G}.
Arguments stdin {G}.
Arguments timing {G}.
Arguments g_done {G}.
Arguments written {G}.
Arguments slept {G}.

(** ** The invariant of the terminal *)

(** Where [tick] puts the frame. *)
Definition frame_offset (size : Point) : Point :=
  Point.mk (Z.quot (Point.x size - Point.x frame_size) 2) (Z.quot (Point.y size - Point.y frame_size) 2).

(** The odd columns hold the initial glyph. *)
Definition odd_blank (m : Matrix Glyph) : Prop :=
  forall q, Z.even (Point.x q) = false -> Matrix.get m q = Glyph0.

(** A cell of the board on the screen. *)
Definition on_board (p : Point) : Prop := 0 <= Point.x p < kMapSize /\ 0 <= Point.y p < kMapSize.

Record terminal_wf {G D} `{Display D} (t : Terminal G) (d : D) : Prop := {
  tw_io : io_wf (io t);
  tw_last : same_frame (IO.frame (io t)) (lastFrame t);
  tw_odd : odd_blank (IO.frame (io t)) /\ odd_blank (lastFrame t);
  tw_size : d_size d = terminalSize t;
  tw_room : Point.x frame_size <= Point.x (terminalSize t) /\ Point.y frame_size < Point.y (terminalSize t);
  tw_screen : forall p, on_board p ->
    Matrix.get (lastFrame t) (frame_pos p) = Glyph0 \/
    image (frame_offset (terminalSize t)) d (frame_pos p) = Matrix.get (lastFrame t) (frame_pos p) }.

Lemma even_cell_frame_pos (m : Matrix Glyph) q :
  Matrix.size m = frame_size -> even_cell m q <-> exists p, on_board p /\ q = frame_pos p.
Proof.
  intros Hs. unfold even_cell, on_board. rewrite Matrix.contains_spec.
  unfold Matrix.size in Hs. rewrite Hs. unfold frame_pos, Point.add, frame_size. cbn [Point.x Point.y Point.origin].
  unfold kMapSize in *. split.
  - intros [[x Hx]%Z.even_spec [? ?]]. exists (Point.mk x (Point.y q)). cbn [Point.x Point.y].
    split; [lia|]. destruct q. cbn in *. f_equal; lia.
  - intros (p & ? & ->). cbn [Point.x Point.y]. split; [|lia].
    apply Z.even_spec. exists (Point.x p). lia.
Qed.

Lemma on_board_map (b : Board) p :
  Board.getSize b = Point.mk kMapSize kMapSize -> on_board p -> Matrix.contains (Board.m_map b) p = true.
Proof.
  intros Hs [? ?]. apply Matrix.contains_spec. unfold Board.getSize, Matrix.size in Hs. rewrite Hs. done.
Qed.

Section terminal_inv.
Context {G D : Type} `{RandomLaws G} `{DisplayLaws D} (bufsize : nat) (Hbuf : (0 < bufsize)%nat).
Implicit Types (t : Terminal G) (d : D).

(** The frame after a tick of the game. *)
Lemma tick_frame (io0 io1 : IO G) v :
  io_wf io0 -> io_wf io1 -> frame_shows (IO.state io1) v (IO.frame io0) (IO.frame io1) ->
  odd_blank (IO.frame io0) -> wide_frame (IO.frame io1) /\ odd_blank (IO.frame io1).
Proof.
  intros Hio0 Hio1 [Hev Hodd] Hblank. split.
  - intros q Hq. apply even_cell_frame_pos in Hq as (p & Hp & ->); [|apply Hio1].
    pose proof (on_board_map _ p (io_board_size _ Hio1) Hp) as Hmap.
    rewrite Hev; [|done|].
    + apply (shown_wide _ (Point.mk kMapSize kMapSize)); [apply Hio1|apply Hio1|done].
    + apply (even_cell_frame_pos _ (frame_pos p) (io_frame_size _ Hio0)). eauto.
  - intros q Hq. rewrite Hodd; [by apply Hblank|]. by rewrite <- Z.negb_even, Hq.
Qed.

(** A tick neither blocks nor fails; afterwards [lastFrame] is the frame,
    and the screen shows it. *)
Lemma terminal_tick_ok t d s status :
  terminal_wf t d -> Forall (fun b => 32 <= b < 127) status ->
  Z.of_nat (length status) < Point.x (terminalSize t) ->
  exists t' s' out v, tick bufsize t s status = Ok (t', s', out) /\
    terminal_wf t' (d_run d out) /\ lastFrame t' = IO.frame (io t') /\
    same_game (IO.state (io t)) (IO.state (io t')) /\
    awaiting_input (IO.state (io t')) /\ player_vision (IO.state (io t')) v /\
    forall p, on_board p ->
      image (frame_offset (terminalSize t)) (d_run d out) (frame_pos p) =
        shown (objects (IO.state (io t'))) (board (IO.state (io t'))) v p.
Proof using All.
  intros [Hio Hlast [Hodd Hoddl] Hsz [Hw Hh] Hscr] Htext Hlen. unfold tick.
  destruct (getKeyInputs_ok bufsize Hbuf s (IO.inputs (io t))) as (s' & new & _ & -> & _). cbn [rbind].
  set (io0 := IO.mk _ _ _). assert (Hio0 : io_wf io0) by (destruct Hio; by constructor).
  destruct (tick_ok io0 Hio0) as (io1 & v & -> & Hio1 & Hsame & Hend & Hv & Hshow). cbn [rbind].
  destruct (tick_frame io0 io1 v Hio0 Hio1 Hshow Hodd) as [Hwide Hblank].
  assert (Hsl : Matrix.size (lastFrame t) = frame_size).
  { unfold Matrix.size. destruct Hlast as (_ & -> & _). apply Hio. }
  assert (Hinit : Matrix.m_init (IO.frame io1) = Matrix.m_init (lastFrame t)).
  { destruct Hlast as (_ & _ & ->). rewrite <- !(Matrix.get_outside _ (Point.mk (-1) 0)) by done.
    rewrite Hblank by done. symmetry. by apply Hodd. }
  assert (Hsf : same_frame (lastFrame t) (IO.frame io1)).
  { split_and!; [apply Hio1| |done]. pose proof (io_frame_size _ Hio1) as E. unfold Matrix.size in *. congruence. }
  rewrite <- Hsz in *.
  destruct (draw_ok d (IO.frame io1) (lastFrame t) status) as (out & -> & Hds & Him);
    rewrite ?Hsl; try done.
  - apply Hlast.
  - intros q Hq. pose proof Hq as Hq'. apply even_cell_frame_pos in Hq' as (p & Hp & ->); [|done].
    destruct (Hscr p Hp) as [Hg|?]; [right|by left]. rewrite Hg. intros Heq.
    assert (Hwq : wide_glyph (Matrix.get (IO.frame io1) (frame_pos p))).
    { apply Hwide, (even_cell_frame_pos _ _ (io_frame_size _ Hio1)). eauto. }
    rewrite <- Heq in Hwq. destruct Hwq as [Hwq _]. cbn in Hwq. lia.
  - intros q Hq. rewrite Hoddl, Hblank by done. done.
  - cbn [rbind]. eexists _, s', out, v. split; [done|].
    assert (Hcell : forall p, on_board p -> image (frame_offset (d_size d)) (d_run d out) (frame_pos p) =
      Matrix.get (IO.frame io1) (frame_pos p)).
    { intros p Hp. rewrite Hsl in Him. apply Him, (even_cell_frame_pos _ _ (io_frame_size _ Hio1)). eauto. }
    split; [|split; [done|split; [done|split; [done|split; [done|]]]]].
    + constructor; cbn [io terminalSize lastFrame].
      * done.
      * apply same_frame_refl, Hio1.
      * done.
      * done.
      * done.
      * intros p Hp. right. by apply Hcell.
    + intros p Hp. cbn [io]. rewrite Hcell by done. apply Hshow.
      * by apply (on_board_map _ p (io_board_size _ Hio1)).
      * apply (even_cell_frame_pos _ (frame_pos p) (io_frame_size _ Hio0)). eauto.
Qed.
End terminal_inv.

(** ** The main loop *)

Section main_inv.
Context {G D : Type} `{RandomLaws G} `{DisplayLaws D} (bufsize : nat) (Hbuf : (0 < bufsize)%nat).
Context (d0 : D).

Record main_wf (m : Main (G := G)) (past : list Frame) : Prop := {
  mw_terminal : terminal_wf (terminal m) (d_run d0 (written m));
  mw_ring : ring (timing m) past;
  mw_slept : forall delay, slept m = Some delay -> 0 <= delay <= kNanosPerFrame }.

Lemma iteration_ok m past typed ts1 ts2 ts3 :
  main_wf m past ->  index (timing m) + 1 < 2 ^ 64 - 60 ->
  exists m', iteration bufsize m typed ts1 ts2 ts3 = Ok m' /\
    main_wf m' (past ++ [(ts2, ts3)]) /\ g_done m' = g_done m /\
    index (timing m') = index (timing m) + 1 /\
    terminalSize (terminal m') = terminalSize (terminal m).
Proof using All.
  intros [Ht Hr _] Hmax. unfold iteration.
  destruct (stats_ok _ _ Hr) as (st & Hst). rewrite Hst. cbn [rbind].
  destruct (block_ok _ _ ts1 Hr) as (delay & -> & Hdelay). cbn [rbind].
  destruct (iterate_ring _ _ ts2 ts3 Hr Hmax) as (tm & Hit & Hr' & Hidx).
  unfold iterate in Hit. cbn [fst snd] in Hit.
  destruct (start (timing m) ts2) as [tm1|] eqn:Hstart; [|done]. cbn [rbind] in Hit |- *.
  destruct (show_stats_fits _ _ _ Hr Hst) as [Htext Hshort].
  assert (Hlen : Z.of_nat (length (show_stats st)) < Point.x (terminalSize (terminal m))).
  { destruct (tw_room _ _ Ht) as [Hw _]. change (Point.x frame_size) with 62 in Hw. lia. }
  destruct (terminal_tick_ok bufsize Hbuf (terminal m) (d_run d0 (written m))
    (mkStdin (buffer (stdin m)) (queue (stdin m) ++ typed)) (show_stats st) Ht Htext Hlen)
    as (t' & s' & out & v & Htick & Ht' & _).
  pose proof Htick as Hsize. rewrite Htick. cbn [rbind]. rewrite Hit. cbn [rbind].
  eexists. split; [done|]. split; [|split; [done|split; [done|]]].
  - constructor; cbn [terminal written timing slept]; [by rewrite d_run_app|done|done].
  - unfold tick in Hsize. inv_ok. cbn [terminal].
    repeat (case_match; inv_ok). done.
Qed.

Lemma main_step_wf m m' past :
  main_wf m past ->  index (timing m) + 1 < 2 ^ 64 - 60 -> main_step bufsize m m' ->
  exists past', main_wf m' past' /\ terminalSize (terminal m') = terminalSize (terminal m) /\
    index (timing m) <= index (timing m') <= index (timing m) + 1.
Proof using All.
  intros Hwf Hmax Hstep. destruct Hstep as [m m' typed ts1 ts2 ts3 _ Hit|m].
  - destruct (iteration_ok m past typed ts1 ts2 ts3 Hwf Hmax) as (m1 & Hit1 & Hwf1 & _ & Hi & Hs).
    rewrite Hit in Hit1. injection Hit1 as <-. eexists. split; [done|]. split; [done|lia].
  - exists past. split; [by destruct Hwf|]. split; [done|]. cbn [timing]. lia.
Qed.

(** As many steps as the counter of frames allows. *)
Lemma main_steps_wf n m m' past :
  main_wf m past ->  index (timing m) + Z.of_nat n < 2 ^ 64 - 60 -> nsteps (main_step bufsize) n m m' ->
  exists past', main_wf m' past' /\ terminalSize (terminal m') = terminalSize (terminal m) /\
    index (timing m') <= index (timing m) + Z.of_nat n.
Proof using All.
  revert m past. induction n as [|n IH]; intros m past Hwf Hmax Hsteps.
  - inversion Hsteps; subst. exists past. split_and!; [done|done|lia].
  - inversion Hsteps as [|? ? m1 ? Hstep Hrest]; subst.
    destruct (main_step_wf m m1 past) as (past1 & Hwf1 & Hs1 & Hi1); [done|lia|done|].
    destruct (IH m1 past1) as (past' & ? & Hs' & ?); [done|lia|done|].
    exists past'. split_and!; [done|congruence|lia].
Qed.

(** The terminal as it is constructed. *)
Lemma terminal_ctor_ok clock c_lflag s :
  State_ctor clock = Ok s -> initial s ->
  Point.x frame_size <= Point.x (d_size d0) -> Point.y frame_size < Point.y (d_size d0) ->
  exists t out, Terminal_ctor clock (d_size d0) c_lflag = Ok (t, out, snd (initTerminal true c_lflag)) /\
    terminal_wf t d0 /\ IO.state (io t) = s /\ terminalSize t = d_size d0.
Proof using Type.
  intros Hs Hinit Hw Hh. destruct (io_make_ok clock s Hs Hinit) as (io & Hmake & Hst & _ & Hio & Hblank).
  unfold Terminal_ctor. rewrite Hmake. cbn [rbind].
  destruct (initTerminal true c_lflag) as [out fl] eqn:E. eexists _, out. split; [reflexivity|].
  split; [|by split]. constructor; cbn [Terminal.io lastFrame terminalSize].
  - done.
  - apply same_frame_refl, Hio.
  - split; intros q _; apply Hblank.
  - reflexivity.
  - by split.
  - intros p _. left. apply Hblank.
Qed.
End main_inv.

(** * progress of the main loop (src/main.cpp)

    While nothing is typed, every iteration of the main loop works off a part
    of what is waiting: bytes of the keyboard, or decoded inputs. The measure
    [backlog] bounds the number of iterations until nothing is left. *)

Section live.
Context {G D : Type} `{RandomLaws G} `{DisplayLaws D} (bufsize : nat) (Hbuf : (0 < bufsize)%nat).
Context (d0 : D).
Implicit Types (t : Terminal G) (m : Main (G := G)).

(** What waits to be worked off: a byte may still become an input. *)
Definition waiting t (s : Stdin) : nat := length (IO.inputs (io t)) + 2 * length (unread s).

(** Every byte the queue offered has been read, every input handled. *)
Definition served t (s : Stdin) : Prop := queue s = [] /\ IO.inputs (io t) = [].

Lemma tick_progress t s status t' s' out :
  io_wf (io t) -> tick bufsize t s status = Ok (t', s', out) ->
  awaiting_input (IO.state (io t')) /\
  (waiting t' s' <= waiting t s)%nat /\ (served t s -> served t' s') /\
  (awaiting_input (IO.state (io t)) -> served t s \/ waiting t' s' < waiting t s)%nat.
Proof using All.
  intros Hio. unfold tick, served, waiting.
  destruct (getKeyInputs_ok bufsize Hbuf s (IO.inputs (io t)))
    as (s1 & new & bytes & -> & _ & Hunread & [Hnew Hlen] & Hpos & Hnil). cbn [rbind].
  set (io0 := IO.mk _ _ _). assert (Hio0 : io_wf io0) by (destruct Hio; by constructor).
  destruct (tick_ok io0 Hio0) as (io1 & v & Htick & _ & _ & Hend & _). rewrite Htick. cbn [rbind].
  destruct (draw _ _ _ _) as [[last out1]|]; [|done]. cbn [rbind]. intros [= <- <- <-]. cbn [io].
  split; [exact Hend|]. unfold IO.tick, update in Htick. subst io0. cbn [IO.state IO.inputs IO.frame] in Htick.
  destruct (updateState _ _) as [[s2 rest]|] eqn:Hup; [|done]. cbn [rbind] in Htick.
  destruct (render _ _) as [[s3 frame]|]; [|done]. injection Htick as <-. cbn [IO.inputs].
  apply updateState_rest in Hup as [Hle Hlt]. rewrite length_app in Hle, Hlt.
  rewrite Hunread, length_app. split; [lia|]. split.
  - intros [Hq Hin]. rewrite Hnil by done. split; [done|]. apply nil_length_inv.
    rewrite Hin in Hle. rewrite Hq in Hlen. simpl in *. lia.
  - intros Hawait. destruct (decide (queue s = [])) as [Hq|Hq]; [|right; specialize (Hpos Hq); lia].
    assert (bytes = []) as -> by (apply nil_length_inv; rewrite Hq in Hlen; simpl in Hlen; lia).
    assert (new = []) as -> by (apply nil_length_inv; simpl in Hnew; lia).
    destruct (decide (IO.inputs (io t) = [])) as [|Hin]; [by left|right].
    specialize (Hlt (io_state _ Hio) Hawait). rewrite app_nil_r in Hlt. specialize (Hlt Hin). simpl in *. lia.
Qed.

(** ** The main loop without new input *)

Definition idle_step m m' : Prop :=
  g_done m = false /\ exists ts1 ts2 ts3, iteration bufsize m [] ts1 ts2 ts3 = Ok m'.

Definition backlog m : nat := waiting (terminal m) (stdin m).

Definition main_served m : Prop := served (terminal m) (stdin m).

Lemma idle_step_main m m' : idle_step m m' -> main_step bufsize m m'.
Proof using Type. intros (Hd & ts1 & ts2 & ts3 & Hit). by apply (step_iteration _ m m' [] ts1 ts2 ts3). Qed.

(** The tick of an idle iteration. *)
Lemma iteration_tick m ts1 ts2 ts3 m' :
  iteration bufsize m [] ts1 ts2 ts3 = Ok m' ->
  exists status out, tick bufsize (terminal m) (stdin m) status = Ok (terminal m', stdin m', out).
Proof using Type.
  unfold iteration. rewrite app_nil_r. destruct m as [t [buf q] tm dn wr sl]. cbn [stdin terminal timing buffer queue].
  destruct (stats tm) as [st|]; [|done]. destruct (block tm ts1); [|done]. destruct (start tm ts2); [|done].
  cbn [rbind]. destruct (tick _ _ _ _) as [[[t' s'] out]|] eqn:Ht; [|done]. cbn [rbind].
  destruct (end_ _ _); [|done]. intros [= <-]. by eexists _, _.
Qed.

Lemma idle_step_progress m m' past :
  main_wf d0 m past -> idle_step m m' ->
  awaiting_input (IO.state (io (terminal m'))) /\
  (backlog m' <= backlog m)%nat /\ (main_served m -> main_served m') /\
  (awaiting_input (IO.state (io (terminal m))) -> main_served m \/ backlog m' < backlog m)%nat.
Proof using All.
  intros [Ht _ _] (_ & ts1 & ts2 & ts3 & Hit). apply iteration_tick in Hit as (status & out & Htick).
  exact (tick_progress _ _ _ _ _ _ (tw_io _ _ Ht) Htick).
Qed.

Lemma idle_step_ok m past :
  main_wf d0 m past ->  index (timing m) + 1 < 2 ^ 64 - 60 -> g_done m = false ->
  (exists m', idle_step m m') /\
  forall m', idle_step m m' -> (exists past', main_wf d0 m' past') /\ g_done m' = false /\
    index (timing m') = index (timing m) + 1 /\ terminalSize (terminal m') = terminalSize (terminal m).
Proof using All.
  intros Hwf Hmax Hdone. split.
  - destruct (iteration_ok bufsize Hbuf d0 m past [] 0 0 0 Hwf Hmax) as (m' & Hit & _).
    exists m'. split; [done|]. by exists 0, 0, 0.
  - intros m' (_ & ts1 & ts2 & ts3 & Hit).
    destruct (iteration_ok bufsize Hbuf d0 m past [] ts1 ts2 ts3 Hwf Hmax)
      as (m1 & Hit1 & Hwf1 & Hd & Hi & Hs).
    rewrite Hit in Hit1. injection Hit1 as <-. split; [by eexists|]. split; [congruence|done].
Qed.

Lemma idle_run_exists n m past :
  main_wf d0 m past ->  index (timing m) + Z.of_nat n < 2 ^ 64 - 60 -> g_done m = false ->
  exists m', nsteps idle_step n m m'.
Proof using All.
  revert m past. induction n as [|n IH]; intros m past Hwf Hmax Hdone.
  { exists m. constructor. }
  destruct (idle_step_ok m past Hwf) as [(m1 & Hstep) Hall]; [lia|done|].
  destruct (Hall m1 Hstep) as ([past1 Hwf1] & Hd1 & Hi1 & Hs1).
  destruct (IH m1 past1) as (m' & Hrun); [done|lia|done|].
  exists m'. by apply (nsteps_l _ _ m m1).
Qed.

(** A run keeps what is served so, and otherwise each step from a state that
    waits for input takes something off the backlog. *)
Lemma idle_run_progress n m m' past :
  main_wf d0 m past ->  index (timing m) + Z.of_nat n < 2 ^ 64 - 60 -> nsteps idle_step n m m' ->
  (main_served m -> main_served m') /\
  (awaiting_input (IO.state (io (terminal m))) -> main_served m' \/ backlog m' + n <= backlog m)%nat.
Proof using All.
  revert m past. induction n as [|n IH]; intros m past Hwf Hmax Hrun.
  { inversion Hrun; subst. split; [done|]. right. lia. }
  inversion Hrun as [|? ? m1 ? Hstep Hrest]; subst. pose proof Hstep as [Hdone _].
  destruct (idle_step_progress m m1 past Hwf Hstep) as (Hwait1 & _ & Hkeep & Hless).
  destruct (idle_step_ok m past Hwf) as [_ Hall]; [lia|done|].
  destruct (Hall m1 Hstep) as ([past1 Hwf1] & _ & Hi1 & Hs1).
  destruct (IH m1 past1) as [Hkeep' Hless']; [done|lia|done|].
  split; [auto|]. intros Hwait. destruct (Hless Hwait) as [?|?]; [auto|].
  destruct (Hless' Hwait1); [by left|right; lia].
Qed.

Lemma no_backlog m : backlog m = 0%nat -> main_served m.
Proof using Hbuf bufsize.
  unfold backlog, waiting, unread, main_served, served. rewrite length_app. intros Hz.
  split; apply nil_length_inv; lia.
Qed.

(** The first step reaches a state that waits for input. *)
Lemma idle_run_serves n m m' past :
  main_wf d0 m past ->  index (timing m) + Z.of_nat n < 2 ^ 64 - 60 -> nsteps idle_step n m m' ->
  (backlog m < n)%nat -> main_served m' /\ awaiting_input (IO.state (io (terminal m'))).
Proof using All.
  intros Hwf Hmax Hrun Hn. split.
  - destruct n as [|n]; [lia|]. inversion Hrun as [|? ? m1 ? Hstep Hrest]; subst. pose proof Hstep as [Hdone _].
    destruct (idle_step_progress m m1 past Hwf Hstep) as (Hwait1 & Hle & _).
    destruct (idle_step_ok m past Hwf) as [_ Hall]; [lia|done|].
    destruct (Hall m1 Hstep) as ([past1 Hwf1] & _ & Hi1 & Hs1).
    destruct (idle_run_progress n m1 m' past1) as [_ Hless]; [done|lia|done|].
    destruct (Hless Hwait1); [done|]. apply no_backlog. lia.
  - destruct n as [|n]; [lia|]. apply nsteps_inv_r in Hrun as (m1 & Hrest & Hstep).
    destruct (main_steps_wf bufsize Hbuf d0 n m m1 past) as (past1 & Hwf1 & _); [done|lia| |].
    + revert Hrest. apply nsteps_congruence with (f := id). apply idle_step_main.
    + by apply (idle_step_progress m1 m' past1).
Qed.

(** What becomes of the unread bytes: they are taken in order; those of keys
    are all taken by the first iteration; with nothing in the queue, none is. *)
Lemma idle_step_stdin m m' : idle_step m m' ->
  (exists bytes, unread (stdin m) = bytes ++ unread (stdin m')) /\
  (queue (stdin m) = [] -> stdin m' = stdin m) /\
  forall ks (esc : bool), Forall key_ok ks -> buffer (stdin m) = [] ->
    queue (stdin m) = (ks ≫= key_bytes) ++ (if esc then [27] else []) -> unread (stdin m') = [].
Proof using Hbuf bufsize.
  intros (_ & ts1 & ts2 & ts3 & Hit). apply iteration_tick in Hit as (status & out & Htick). unfold tick in Htick.
  destruct (getKeyInputs_ok bufsize Hbuf (stdin m) (IO.inputs (io (terminal m)))) as (s1 & new & bytes & Hkeys & _ & Hunread & _ & _ & Hnil).
  rewrite Hkeys in Htick. cbn [rbind] in Htick. destruct (IO.tick _) as [io1|]; [|done]. cbn [rbind] in Htick.
  destruct (draw _ _ _ _) as [[last out1]|]; [|done]. cbn [rbind] in Htick.
  assert (stdin m' = s1) as -> by (by injection Htick). clear Htick. split; [by exists bytes|]. split; [done|].
  intros ks esc Hks Hb Hq. destruct (getKeyInputs_keys bufsize Hbuf ks esc (IO.inputs (io (terminal m))) Hks) as (s2 & Hrun & Hs2).
  destruct (stdin m) as [b q]. cbn [buffer queue] in Hb, Hq. subst b q. rewrite Hkeys in Hrun. by injection Hrun as -> _.
Qed.

Lemma idle_run_stdin n m m' : nsteps idle_step n m m' ->
  (exists bytes, unread (stdin m) = bytes ++ unread (stdin m')) /\
  ((0 < n)%nat -> forall ks (esc : bool), Forall key_ok ks -> buffer (stdin m) = [] ->
    queue (stdin m) = (ks ≫= key_bytes) ++ (if esc then [27] else []) -> unread (stdin m') = []).
Proof using Hbuf bufsize.
  intros Hrun. induction Hrun as [m|n m m1 m' Hstep Hrun [[bytes' Hb'] _]]; [split; [by exists []|lia]|].
  destruct (idle_step_stdin m m1 Hstep) as ([bytes Hb] & _ & Hkeys). split.
  - exists (bytes ++ bytes'). by rewrite Hb, Hb', app_assoc.
  - intros _ ks esc Hks Hbuffer Hq. rewrite (Hkeys ks esc Hks Hbuffer Hq) in Hb'. by apply eq_sym, app_nil in Hb' as [_ ?].
Qed.

(** The handler has run: the loop condition fails, and a further signal
    changes nothing. *)
Lemma main_step_done m m' : g_done m = true -> main_step bufsize m m' -> m' = m.
Proof using Type.
  intros Hdone Hstep. inversion Hstep; subst; [congruence|]. destruct m; cbn in *. congruence.
Qed.
End live.
