(* ===== verification/TerminalSpec.v ===== *)
(** * TerminalSpec: the properties of the terminal *)

From S2P Require Import Prelude.
From S2P Require Import Base.
From S2P Require Import Geo.
From S2P Require Import Entity.
From S2P Require Import Timers.
From S2P Require Import Board.
From S2P Require Import BoardInv.
From S2P Require Import Rules.
From S2P Require Import InitBoard.
From S2P Require Import Game.
From S2P Require Import GameInv.
From S2P Require Import Render.
From S2P Require Import Keys.
From S2P Require Import Display.
From S2P Require Import Timing.
From S2P Require Import Terminal.

(** ** A terminal for the witnesses *)

Record Grid := mkGrid {
  g_size : Point; g_cursor : Point; g_fg : Color; g_bg : Color; g_cells : Point -> Glyph }.

Definition grid_put (g : Grid) (c : Z) : Grid :=
  mkGrid (g_size g) (Point.mk (Point.x (g_cursor g) + 2) (Point.y (g_cursor g))) (g_fg g) (g_bg g)
    (fun p => if decide (p = g_cursor g) then mkGlyph c (g_fg g) (g_bg g) else g_cells g p).

Definition grid_step (g : Grid) (c : chunk) : Grid :=
  match c with
  | CursorTo row col => mkGrid (g_size g) (Point.mk (col - 1) (row - 1)) (g_fg g) (g_bg g) (g_cells g)
  | Sgr [39] => mkGrid (g_size g) (g_cursor g) kNone (g_bg g) (g_cells g)
  | Sgr [38; 5; n] => mkGrid (g_size g) (g_cursor g) (mkColor n) (g_bg g) (g_cells g)
  | Sgr [49] => mkGrid (g_size g) (g_cursor g) (g_fg g) kNone (g_cells g)
  | Sgr [48; 5; n] => mkGrid (g_size g) (g_cursor g) (g_fg g) (mkColor n) (g_cells g)
  | Text [32; 32] => grid_put g 65280
  | Text [239; 188; b] => grid_put g (65280 + (b - 128))
  | _ => g
  end.

#[export] Instance Grid_display : Display Grid := {|
  d_size := g_size; d_cursor := g_cursor; d_fg := g_fg; d_bg := g_bg; d_image := g_cells;
  d_step := grid_step |}.

Lemma grid_put_law g c :
  let g' := grid_put g c in
  d_size g' = d_size g /\ d_fg g' = d_fg g /\ d_bg g' = d_bg g /\
  d_cursor g' = Point.mk (Point.x (d_cursor g) + 2) (Point.y (d_cursor g)) /\
  d_image g' (d_cursor g) = mkGlyph c (d_fg g) (d_bg g) /\
  forall p, p <> d_cursor g -> d_image g' p = d_image g p.
Proof.
  split_and!; try done; cbn.
  - by rewrite decide_True.
  - intros p Hp. by rewrite decide_False.
Qed.

#[export] Instance Grid_laws : DisplayLaws Grid.
Proof.
  split; try done.
  - intros g c Hc _.
    assert (d_step g (Text (wide_text c)) = grid_put g c) as ->.
    { unfold wide_text. destruct (Z.eqb_spec c 65280) as [->|Hne]; [done|].
      cbn [d_step Grid_display grid_step]. f_equal. lia. }
    destruct (grid_put_law g c) as (? & ? & ? & ? & ? & Hother).
    split_and!; try done. intros p Hp. apply Hother. intros ->. lia.
  - intros g bytes Htext _. cbn zeta.
    destruct (decide (bytes = [32; 32])) as [->|Hne].
    { destruct (grid_put_law g 65280) as (? & _ & _ & _ & _ & Hother).
      split; [done|]. intros p Hp. apply Hother. congruence. }
    assert (d_step g (Text bytes) = g) as ->; [|done]. cbn.
    destruct bytes as [|b1 bytes]; [done|]. apply Forall_cons in Htext as [Hb1 Htext].
    repeat (case_match; try done; subst); try (exfalso; lia); by destruct Hne.
Qed.

Definition sample_grid : Grid :=
  mkGrid (Point.mk 80 40) Point.origin kNone kNone (fun _ => Glyph0).

Lemma sample_terminal : exists t : Terminal Z,
  terminal_wf t sample_grid /\ IO.inputs (io t) = [] /\ terminalSize t = Point.mk 80 40.
Proof.
  destruct sample_initial as (s & Hinit).
  destruct (Matrix.make_defined frame_size Glyph0) as [frame Hframe]; [done|done|].
  destruct (Matrix.make_ok _ _ _ Hframe) as (Hs & _).
  pose proof (Matrix.make_wf frame_size Glyph0 frame ltac:(done) ltac:(done) Hframe) as Hwf.
  pose proof (fun q => Matrix.get_make frame_size Glyph0 frame q Hframe) as Hget. clear Hframe.
  exists (mkTerminal (IO.mk s frame []) (Point.mk 80 40) frame). split; [|done].
  constructor; cbn [io lastFrame terminalSize IO.state IO.frame].
  - constructor; cbn [IO.state IO.frame]; [by apply initial_wf|done|done|apply Hinit|apply Hinit].
  - by apply same_frame_refl.
  - split; intros q _; apply Hget.
  - done.
  - vm_compute. split; congruence.
  - intros p _. left. apply Hget.
Qed.

(** ** A tick *)

(** C1: a tick of the terminal. From a state in which [lastFrame] and the
    screen agree (or were never drawn) it neither blocks nor fails: it reads
    the waiting keys, runs the game until it needs the player again, and sends
    what changed. Afterwards [lastFrame] is the frame, and every cell of the
    board shows on the screen what the player sees there; the invariant holds
    again, so the next tick starts from such a state. The terminal has to be
    as wide as the frame and higher by the status line. *)
Theorem terminal_tick_shows {G D} `{RandomLaws G} `{DisplayLaws D} (bufsize : nat)
    (t : Terminal G) (d : D) (s : Stdin) (status : list Z) :
  (0 < bufsize)%nat -> terminal_wf t d ->
  Forall (fun b => 32 <= b < 127) status -> Z.of_nat (length status) < Point.x (terminalSize t) ->
  exists t' s' out v, tick bufsize t s status = Ok (t', s', out) /\
    terminal_wf t' (d_run d out) /\ lastFrame t' = IO.frame (io t') /\
    same_game (IO.state (io t)) (IO.state (io t')) /\ awaiting_input (IO.state (io t')) /\
    player_vision (IO.state (io t')) v /\
    forall p, on_board p ->
      image (frame_offset (terminalSize t)) (d_run d out) (frame_pos p) =
        shown (objects (IO.state (io t'))) (board (IO.state (io t'))) v p.
Proof. intros Hbuf Hwf Htext Hlen. by apply terminal_tick_ok. Qed.

Theorem terminal_tick_shows_witness : exists (t t' : Terminal Z) s' out,
  tick 1024 t (mkStdin [] [104; 27; 91; 65]) [67; 80; 85] = Ok (t', s', out) /\
  lastFrame t' = IO.frame (io t').
Proof.
  destruct sample_terminal as (t & Hwf & _ & Hsize).
  destruct (terminal_tick_shows 1024 t sample_grid (mkStdin [] [104; 27; 91; 65]) [67; 80; 85])
    as (t' & s' & out & v & Htick & _ & Hlast & _).
  - lia.
  - exact Hwf.
  - repeat constructor; lia.
  - rewrite Hsize. reflexivity.
  - exists t, t', s', out. split; [exact Htick|exact Hlast].
Defined.

(** ** The main loop *)

(** C6: the main loop is safe: whatever is typed, whatever the clock says and
    whenever the signal arrives, every state reached in fewer steps than the
    counter of frames has room for satisfies the invariant of the terminal;
    its ring holds the last sixty frames with [used] the sum of their
    durations, and no sleep is longer than a frame. While the loop has not
    been asked to stop, the next iteration runs to its end; that takes that
    the line of statistics, whose doubles are printed as they come, is
    printable and fits on a terminal which is as wide as the frame. *)
Theorem main_loop_safe {G D} `{RandomLaws G} `{DisplayLaws D} (bufsize : nat)
    (d0 : D) (n : nat) (m m' : Main (G := G)) past :
  (0 < bufsize)%nat -> main_wf d0 m past ->
  index (timing m) + Z.of_nat n + 1 < 2 ^ 64 - 60 ->
  nsteps (main_step bufsize) n m m' ->
  exists past', main_wf d0 m' past' /\
    forall typed ts1 ts2 ts3, exists m'', iteration bufsize m' typed ts1 ts2 ts3 = Ok m''.
Proof.
  intros Hbuf Hwf Hmax Hsteps.
  destruct (main_steps_wf bufsize Hbuf d0 n m m' past Hwf) as (past' & Hwf' & Hsz' & Hi'); [lia|done|].
  exists past'. split; [done|]. intros typed ts1 ts2 ts3.
  destruct (iteration_ok bufsize Hbuf d0 m' past' typed ts1 ts2 ts3 Hwf') as (m'' & Hit & _); [lia|]. by exists m''.
Qed.

Theorem main_loop_safe_witness : exists m m'' : Main (G := Z),
  iteration 1024 m [104] 5 6 7 = Ok m''.
Proof.
  destruct sample_terminal as (t & Hwf & _ & _).
  set (m := mkMain t (mkStdin [] []) (Timing_ctor 3) false [] None).
  destruct (main_loop_safe 1024 sample_grid 0 m m (replicate 60 (3, 3)))
    as (past' & _ & Hit).
  - lia.
  - constructor; [exact Hwf|apply ctor_ring|intros delay Hdelay; discriminate Hdelay].
  - vm_compute. reflexivity.
  - constructor.
  - destruct (Hit [104] 5 6 7) as (m'' & Hm''). exists m, m''. exact Hm''.
Defined.



(** ** The keyboard *)

(** reading the keys never waits for input, whatever bytes are in the
    buffer and the queue: it takes a prefix of the unread bytes that is no
    longer than the queue was, and appends at most one valid input per byte.
    So bytes that an unknown sequence has left in the buffer are never made up
    for: as many bytes stay unread as the buffer held before. *)
Theorem getKeyInputs_never_blocks bufsize s inputs :
  (0 < bufsize)%nat ->
  exists s' new, getKeyInputs bufsize s inputs = Ok (s', inputs ++ new) /\
    Forall in_u8 new /\
    exists bytes, unread s = bytes ++ unread s' /\ (length new <= length (queue s))%nat /\
      (length bytes <= length (queue s))%nat /\ (length (buffer s) <= length (unread s'))%nat.
Proof.
  intros Hbuf. destruct (getKeyInputs_ok bufsize Hbuf s inputs) as (s' & new & bytes & Hrun & Hu8 & Hb & [Hl ?] & _).
  exists s', new. split; [done|]. split; [done|]. exists bytes. split; [done|]. split; [lia|]. split; [done|].
  assert (Htotal : length (unread s) = (length bytes + length (unread s'))%nat) by (by rewrite Hb, length_app).
  unfold unread at 1 in Htotal. rewrite length_app in Htotal. lia.
Qed.

Theorem getKeyInputs_never_blocks_witness : exists s' new,
  getKeyInputs 1024 (mkStdin [] [27; 79; 80; 81; 82]) [] = Ok (s', new) /\ unread s' = [80; 81; 82].
Proof.
  destruct (getKeyInputs_never_blocks 1024 (mkStdin [] [27; 79; 80; 81; 82]) []) as (s' & new & Hrun & _); [lia|].
  exists s', new. split; [exact Hrun|]. vm_compute in Hrun. injection Hrun as <- _. reflexivity.
Defined.

(** C24: the decoder inverts what a terminal sends: printable characters, tab,
    enter, the four arrows, shifted tab and the shifted arrows, in any order
    and number, come back as their inputs in order; a final escape key, which
    only the end of the bytes tells from the start of a sequence, is read as
    [Esc]. No byte is left over. *)
Theorem getKeyInputs_roundtrip bufsize ks (esc : bool) inputs :
  (0 < bufsize)%nat -> Forall key_ok ks ->
  exists s', getKeyInputs bufsize (mkStdin [] ((ks ≫= key_bytes) ++ (if esc then [27] else []))) inputs =
      Ok (s', inputs ++ (key_input <$> ks) ++ (if esc then [Input.Esc] else [])) /\
    unread s' = [].
Proof. intros Hbuf Hks. by apply getKeyInputs_keys. Qed.

Theorem getKeyInputs_roundtrip_witness : exists s',
  getKeyInputs 4 (mkStdin [] [104; 27; 91; 66; 27; 91; 49; 59; 50; 68; 27]) [] =
    Ok (s', [104; Input.Down; Input.ShiftLeft; Input.Esc]).
Proof.
  destruct (getKeyInputs_roundtrip 4 [KeyChar 104; KeyArrow 1; KeyShiftArrow 3] true []) as (s' & Hrun & _).
  - lia.
  - repeat constructor; simpl; lia.
  - exists s'. exact Hrun.
Defined.

(** ** The screen *)

(** [draw] on any two frames of one size whose even columns hold wide
    glyphs in the new one and whose odd columns agree: if the screen shows
    [lastFrame] wherever the two frames agree, then after the bytes have been
    sent the screen shows the new frame and [lastFrame] equals it. It sends
    cells of the span that changed only, and fails no assertion. *)
Theorem draw_correct {D} `{DisplayLaws D} (d : D) (frame last : Matrix Glyph) (status : list Z) :
  let size := Matrix.size last in
  let offset := Point.mk (Z.quot (Point.x (d_size d) - Point.x size) 2)
                         (Z.quot (Point.y (d_size d) - Point.y size) 2) in
  Matrix.wf last -> same_frame last frame -> wide_frame frame ->
  Z.even (Point.x size) = true -> 0 < Point.x size <= Point.x (d_size d) ->
  0 <= Point.y size < Point.y (d_size d) ->
  in_step frame last offset d last -> odd_agree frame last ->
  Forall (fun b => 32 <= b < 127) status -> Z.of_nat (length status) < Point.x (d_size d) ->
  exists out, draw (d_size d) frame last status = Ok (frame, out) /\
    d_size (d_run d out) = d_size d /\
    forall q, even_cell frame q -> image offset (d_run d out) q = Matrix.get frame q.
Proof. apply draw_ok. Qed.

(** A frame of one row. *)
Definition row_frame (a b : Glyph) : Matrix Glyph := Matrix.mk (Point.mk 4 1) Glyph0 [a; Glyph0; b; Glyph0].

Lemma row_frame_get a b q :
  Matrix.get (row_frame a b) q =
    if decide (q = Point.mk 0 0) then a else if decide (q = Point.mk 2 0) then b else Glyph0.
Proof.
  destruct (Matrix.contains (row_frame a b) q) eqn:Hq.
  - pose proof Hq as Hr. apply Matrix.contains_spec in Hr. destruct q as [x y]. cbn in Hr.
    assert (y = 0) as -> by lia. assert (x = 0 \/ x = 1 \/ x = 2 \/ x = 3) as [->|[->|[->| ->]]] by lia; reflexivity.
  - rewrite Matrix.get_outside by done. repeat case_decide; subst; done.
Qed.

Theorem draw_correct_witness : exists out,
  draw (d_size sample_grid) (row_frame (Wide_ 64) (Wide_ 46)) (row_frame (Wide_ 46) (Wide_ 46)) [67] =
    Ok (row_frame (Wide_ 64) (Wide_ 46), out).
Proof.
  set (d := mkGrid (Point.mk 80 40) Point.origin kNone kNone (fun _ => Wide_ 46)).
  destruct (draw_correct d (row_frame (Wide_ 64) (Wide_ 46)) (row_frame (Wide_ 46) (Wide_ 46)) [67])
    as (out & Hdraw & _).
  - repeat split; vm_compute; congruence.
  - repeat split; vm_compute; congruence.
  - intros q [Heven Hq]. apply Matrix.contains_spec in Hq. cbn in Hq. rewrite row_frame_get.
    destruct q as [x y]. cbn in Hq, Heven. assert (y = 0) as -> by lia.
    assert (x = 0 \/ x = 1 \/ x = 2 \/ x = 3) as [->|[->|[->| ->]]] by lia; try discriminate Heven; by apply Wide_wide.
  - reflexivity.
  - vm_compute. split; congruence.
  - vm_compute. split; congruence.
  - intros q [Heven Hq]. apply Matrix.contains_spec in Hq. cbn in Hq. left. rewrite row_frame_get.
    destruct q as [x y]. cbn in Hq, Heven. assert (y = 0) as -> by lia.
    assert (x = 0 \/ x = 1 \/ x = 2 \/ x = 3) as [->|[->|[->| ->]]] by lia; try discriminate Heven; reflexivity.
  - intros q Hq. rewrite !row_frame_get. repeat case_decide; subst; try discriminate Hq; reflexivity.
  - repeat constructor; lia.
  - reflexivity.
  - exists out. exact Hdraw.
Defined.

(** The UTF-8 form of a code point between 0x800 and 0xffff. *)
Definition utf8_3 (c : Z) : list Z :=
  [224 + c / 2 ^ 12; 128 + c / 2 ^ 6 mod 2 ^ 6; 128 + c mod 2 ^ 6].

(** the bytes printed for a fullwidth glyph are the UTF-8 form of its
    character exactly when the glyph is below 0xff40, that is, for the
    fullwidth forms of the characters up to the underscore; the second byte
    is written as a constant, so a lower-case letter is printed as another
    character. *)
Theorem print_glyph_utf8 c :
  65280 < c < 65536 -> snd (print_glyph c) = 2 /\ (fst (print_glyph c) = utf8_3 c <-> c < 65344).
Proof.
  intros Hc.
  assert (Hall : forallb (fun c => (snd (print_glyph c) =? 2) &&
    Bool.eqb (bool_decide (fst (print_glyph c) = utf8_3 c)) (c <? 65344)) (seqZ 65281 (65536 - 65281)) = true)
    by (vm_compute; reflexivity).
  apply (forallb_range _ 65281 65536 c) in Hall; [|lia].
  apply andb_true_iff in Hall as [Hw Heq]. apply Z.eqb_eq in Hw. apply eqb_prop in Heq. split; [done|].
  rewrite <- Z.ltb_lt, <- Heq. symmetry. apply bool_decide_eq_true.
Qed.

Theorem print_glyph_utf8_witness :
  fst (print_glyph (ch (Wide_ 64))) = utf8_3 (ch (Wide_ 64)) /\
  fst (print_glyph (ch (Wide_ 97))) <> utf8_3 (ch (Wide_ 97)).
Proof.
  destruct (print_glyph_utf8 (ch (Wide_ 64))) as [_ [_ H1]]; [vm_compute; split; reflexivity|].
  destruct (print_glyph_utf8 (ch (Wide_ 97))) as [_ [H2 _]]; [vm_compute; split; reflexivity|].
  split; [apply H1; reflexivity|]. intros Heq. specialize (H2 Heq). vm_compute in H2. discriminate H2.
Defined.

(** ** The clock *)

(** after any history of frames (fewer than the counter has room for) the
    ring holds the last sixty of them, counting the sixty of the constructor:
    [block] and [stats] look at the frame of sixty iterations ago and at the
    last one, and [used] is the sum of the durations of the sixty, modulo
    2^64. *)
Theorem timing_window ts history :
  Z.of_nat (length history) < 2 ^ 64 - 60 ->
  let past := replicate 60 (ts, ts) ++ history in
  exists t, run ts history = Ok t /\
    frames t !! current t = past !! length history /\
    frames t !! previous t = last past /\
    used t = u64 (total_duration (drop (length history) past)) /\
    forall now, exists delay, block t now = Ok delay /\
      forall n, delay = Some n -> 0 <= n <= kNanosPerFrame.
Proof.
  intros Hlen past. destruct (run_ring ts history Hlen) as (t & Hrun & Hr & Hi). fold past in Hr.
  exists t. split; [done|].
  destruct (ring_current t past Hr) as (a & -> & Ha), (ring_previous t past Hr) as (b & -> & Hb).
  rewrite Hi, Nat2Z.id in Ha. split; [done|]. split; [done|]. split.
  - rewrite (ring_used _ _ Hr). f_equal. pose proof (ring_rotation t past Hr) as Hrot.
    rewrite Hi, Nat2Z.id in Hrot. rewrite Hrot, total_duration_app.
    rewrite <- (take_drop (current t) (frames t)) at 1. rewrite total_duration_app. lia.
  - intros now. destruct (block_ok t past now Hr) as (delay & ? & ?). eauto.
Qed.

Theorem timing_window_witness : exists t,
  run 100 [(110, 120); (130, 150)] = Ok t /\ used t = 30.
Proof.
  destruct (timing_window 100 [(110, 120); (130, 150)]) as (t & Hrun & _ & _ & Hused & _).
  - vm_compute. reflexivity.
  - exists t. split; [exact Hrun|]. rewrite Hused. vm_compute. reflexivity.
Defined.
