(* ===== verification/Word.v ===== *)
(** * Word: unsigned words and memory (src/abseil-cpp/absl/base/internal)

    Arithmetic of [uint32_t] and [uint64_t] as infix operations, memory as a
    list of bytes with checked loads and stores (unaligned_access.h), and the
    byte order conversions of endian.h. The machine is little endian; a
    pointer into a buffer is the buffer and an offset. *)

From S2P Require Import Prelude.

(** ** Arithmetic that wraps *)

Infix "^^" := Z.lxor (at level 54, left associativity) : Z_scope.
Notation "a +64 b" := (u64 (a + b)) (at level 50, left associativity) : Z_scope.
Notation "a -64 b" := (u64 (a - b)) (at level 50, left associativity) : Z_scope.
Notation "a *64 b" := (u64 (a * b)) (at level 40, left associativity) : Z_scope.
Notation "a <<64 b" := (u64 (Z.shiftl a b)) (at level 52, left associativity) : Z_scope.
Notation "a +32 b" := (u32 (a + b)) (at level 50, left associativity) : Z_scope.
Notation "a -32 b" := (u32 (a - b)) (at level 50, left associativity) : Z_scope.
Notation "a *32 b" := (u32 (a * b)) (at level 40, left associativity) : Z_scope.
Notation "a <<32 b" := (u32 (Z.shiftl a b)) (at level 52, left associativity) : Z_scope.
Infix ">>" := Z.shiftr (at level 52, left associativity) : Z_scope.

(** The range of a word of [w] bits. *)
Definition word (w z : Z) : Prop := 0 <= z < 2 ^ w.

Lemma word_u64 z : word 64 (u64 z).
Proof. apply u64_range. Qed.
Lemma word_u32 z : word 32 (u32 z).
Proof. by apply Z.mod_pos_bound. Qed.

Lemma word_bits w z : 0 <= w -> word w z <-> 0 <= z /\ forall i, w <= i -> Z.testbit z i = false.
Proof.
  intros Hw. unfold word. split.
  - intros [H0 H1]. split; [done|]. intros i Hi. destruct (decide (z = 0)) as [->|]; [apply Z.bits_0|].
    apply Z.bits_above_log2; [done|]. apply Z.log2_lt_pow2; [lia|].
    apply (Z.lt_le_trans _ _ _ H1). by apply Z.pow_le_mono_r.
  - intros [H0 H1]. split; [done|]. destruct (Z.lt_ge_cases z (2 ^ w)) as [|Hge]; [done|].
    assert (Hp : 0 < 2 ^ w) by (apply Z.pow_pos_nonneg; lia).
    assert (w <= Z.log2 z) by (apply Z.log2_le_pow2; lia).
    specialize (H1 (Z.log2 z) ltac:(done)). rewrite Z.bit_log2 in H1 by lia. done.
Qed.

Lemma word_op (op : Z -> Z -> Z) (f : bool -> bool -> bool) w a b :
  0 <= w -> (forall x y i, 0 <= i -> Z.testbit (op x y) i = f (Z.testbit x i) (Z.testbit y i)) ->
  (forall x y, 0 <= x -> 0 <= y -> 0 <= op x y) -> f false false = false ->
  word w a -> word w b -> word w (op a b).
Proof.
  intros Hw Hbit Hpos Hf [Ha Ha']%word_bits [Hb Hb']%word_bits; try done.
  apply word_bits; [done|]. split; [by apply Hpos|].
  intros i Hi. by rewrite Hbit, Ha', Hb' by lia.
Qed.

Lemma word_lxor w a b : 0 <= w -> word w a -> word w b -> word w (a ^^ b).
Proof.
  intros. apply (word_op Z.lxor xorb); try done; [intros; apply Z.lxor_spec|].
  intros. by apply Z.lxor_nonneg.
Qed.
Lemma word_lor w a b : 0 <= w -> word w a -> word w b -> word w (Z.lor a b).
Proof.
  intros. apply (word_op Z.lor orb); try done; [intros; apply Z.lor_spec|].
  intros. by apply Z.lor_nonneg.
Qed.
Lemma word_land w a b : 0 <= w -> word w a -> word w b -> word w (Z.land a b).
Proof.
  intros. apply (word_op Z.land andb); try done; [intros; apply Z.land_spec|].
  intros. apply Z.land_nonneg. by left.
Qed.
Lemma word_shiftr w a n : 0 <= n -> word w a -> word w (a >> n).
Proof.
  intros Hn [H0 H1]. unfold word. rewrite Z.shiftr_div_pow2 by done.
  assert (0 < 2 ^ n) by (apply Z.pow_pos_nonneg; lia).
  split; [apply Z.div_pos; lia|]. apply Z.div_lt_upper_bound; nia.
Qed.
Lemma word_mono w w' z : 0 <= w <= w' -> word w z -> word w' z.
Proof. unfold word. intros. pose proof (Z.pow_le_mono_r 2 w w'). lia. Qed.

(** Goals [word w e] for the expressions of the hash functions. *)
Ltac word_tac :=
  repeat first
    [ assumption | apply word_u64 | apply word_u32 | apply word_lxor; [done| |]
    | apply word_lor; [done| |] | apply word_shiftr; [done|] ].

(** ** Memory *)

Definition byte_ok (b : Z) : Prop := word 8 b.

(** The value of bytes, least significant first, and the [n] bytes of a value. *)
Definition le_value (bytes : list Z) : Z := foldr (fun b v => b + 256 * v) 0 bytes.
Fixpoint le_bytes (n : nat) (v : Z) : list Z :=
  match n with O => [] | S n => v mod 256 :: le_bytes n (v / 256) end.

(** [memcpy] of [n] bytes from and to a buffer. *)
Definition load_bytes (n : nat) (m : list Z) (p : Z) : result (list Z) :=
  if (0 <=? p) && (p + Z.of_nat n <=? Z.of_nat (length m))
  then Ok (take n (drop (Z.to_nat p) m)) else Err Undefined.
Definition store_bytes (m : list Z) (p : Z) (bytes : list Z) : result (list Z) :=
  if (0 <=? p) && (p + Z.of_nat (length bytes) <=? Z.of_nat (length m))
  then Ok (take (Z.to_nat p) m ++ bytes ++ drop (Z.to_nat p + length bytes) m) else Err Undefined.

Definition UnalignedLoad16 (m : list Z) (p : Z) : result Z :=
  let* t := load_bytes 2 m p in Ok (le_value t).
Definition UnalignedLoad32 (m : list Z) (p : Z) : result Z :=
  let* t := load_bytes 4 m p in Ok (le_value t).
Definition UnalignedLoad64 (m : list Z) (p : Z) : result Z :=
  let* t := load_bytes 8 m p in Ok (le_value t).
Definition UnalignedStore16 (m : list Z) (p v : Z) : result (list Z) := store_bytes m p (le_bytes 2 v).
Definition UnalignedStore32 (m : list Z) (p v : Z) : result (list Z) := store_bytes m p (le_bytes 4 v).
Definition UnalignedStore64 (m : list Z) (p v : Z) : result (list Z) := store_bytes m p (le_bytes 8 v).

(** [p[i]] of a pointer to [unsigned char]. *)
Definition load8 (m : list Z) (p : Z) : result Z := at_index m p.

(** ** Byte order (endian.h) *)

Definition gbswap_64 (host_int : Z) : Z :=
  Z.lor (Z.lor (Z.lor (Z.lor (Z.lor (Z.lor (Z.lor
    (Z.land host_int 0xFF <<64 56)
    (Z.land host_int 0xFF00 <<64 40))
    (Z.land host_int 0xFF0000 <<64 24))
    (Z.land host_int 0xFF000000 <<64 8))
    (Z.land host_int 0xFF00000000 >> 8))
    (Z.land host_int 0xFF0000000000 >> 24))
    (Z.land host_int 0xFF000000000000 >> 40))
    (Z.land host_int 0xFF00000000000000 >> 56).

Definition gbswap_32 (host_int : Z) : Z :=
  Z.lor (Z.lor (Z.lor
    (Z.land host_int 0xFF <<32 24)
    (Z.land host_int 0xFF00 <<32 8))
    (Z.land host_int 0xFF0000 >> 8))
    (Z.land host_int 0xFF000000 >> 24).

(** The operands are promoted to [int], the result is converted back. *)
Definition gbswap_16 (host_int : Z) : Z :=
  u16 (Z.lor (Z.shiftl (Z.land host_int 0xFF) 8) (Z.land host_int 0xFF00 >> 8)).

Definition ghtons (x : Z) : Z := gbswap_16 x.
Definition ghtonl (x : Z) : Z := gbswap_32 x.
Definition ghtonll (x : Z) : Z := gbswap_64 x.
Definition gntohs (x : Z) : Z := ghtons x.
Definition gntohl (x : Z) : Z := ghtonl x.
Definition gntohll (x : Z) : Z := ghtonll x.

(** [bit_cast] between an unsigned type and its signed one. *)
Definition signed (w z : Z) : Z := (z + 2 ^ (w - 1)) mod 2 ^ w - 2 ^ (w - 1).
Definition unsigned (w z : Z) : Z := z mod 2 ^ w.

Module little_endian.
Definition FromHost16 (x : Z) : Z := x.
Definition ToHost16 (x : Z) : Z := x.
Definition FromHost32 (x : Z) : Z := x.
Definition ToHost32 (x : Z) : Z := x.
Definition FromHost64 (x : Z) : Z := x.
Definition ToHost64 (x : Z) : Z := x.
Definition IsLittleEndian : bool := true.

Definition FromHost_i16 (x : Z) : Z := signed 16 (FromHost16 (unsigned 16 x)).
Definition FromHost_i32 (x : Z) : Z := signed 32 (FromHost32 (unsigned 32 x)).
Definition FromHost_i64 (x : Z) : Z := signed 64 (FromHost64 (unsigned 64 x)).
Definition ToHost_i16 (x : Z) : Z := signed 16 (ToHost16 (unsigned 16 x)).
Definition ToHost_i32 (x : Z) : Z := signed 32 (ToHost32 (unsigned 32 x)).
Definition ToHost_i64 (x : Z) : Z := signed 64 (ToHost64 (unsigned 64 x)).

Definition Load16 (m : list Z) (p : Z) : result Z := let* v := UnalignedLoad16 m p in Ok (ToHost16 v).
Definition Store16 (m : list Z) (p v : Z) : result (list Z) := UnalignedStore16 m p (FromHost16 v).
Definition Load32 (m : list Z) (p : Z) : result Z := let* v := UnalignedLoad32 m p in Ok (ToHost32 v).
Definition Store32 (m : list Z) (p v : Z) : result (list Z) := UnalignedStore32 m p (FromHost32 v).
Definition Load64 (m : list Z) (p : Z) : result Z := let* v := UnalignedLoad64 m p in Ok (ToHost64 v).
Definition Store64 (m : list Z) (p v : Z) : result (list Z) := UnalignedStore64 m p (FromHost64 v).
End little_endian.

Module big_endian.
Definition FromHost16 (x : Z) : Z := gbswap_16 x.
Definition ToHost16 (x : Z) : Z := gbswap_16 x.
Definition FromHost32 (x : Z) : Z := gbswap_32 x.
Definition ToHost32 (x : Z) : Z := gbswap_32 x.
Definition FromHost64 (x : Z) : Z := gbswap_64 x.
Definition ToHost64 (x : Z) : Z := gbswap_64 x.
Definition IsLittleEndian : bool := true.

Definition FromHost_i16 (x : Z) : Z := signed 16 (FromHost16 (unsigned 16 x)).
Definition FromHost_i32 (x : Z) : Z := signed 32 (FromHost32 (unsigned 32 x)).
Definition FromHost_i64 (x : Z) : Z := signed 64 (FromHost64 (unsigned 64 x)).
Definition ToHost_i16 (x : Z) : Z := signed 16 (ToHost16 (unsigned 16 x)).
Definition ToHost_i32 (x : Z) : Z := signed 32 (ToHost32 (unsigned 32 x)).
Definition ToHost_i64 (x : Z) : Z := signed 64 (ToHost64 (unsigned 64 x)).

Definition Load16 (m : list Z) (p : Z) : result Z := let* v := UnalignedLoad16 m p in Ok (ToHost16 v).
Definition Store16 (m : list Z) (p v : Z) : result (list Z) := UnalignedStore16 m p (FromHost16 v).
Definition Load32 (m : list Z) (p : Z) : result Z := let* v := UnalignedLoad32 m p in Ok (ToHost32 v).
Definition Store32 (m : list Z) (p v : Z) : result (list Z) := UnalignedStore32 m p (FromHost32 v).
Definition Load64 (m : list Z) (p : Z) : result Z := let* v := UnalignedLoad64 m p in Ok (ToHost64 v).
Definition Store64 (m : list Z) (p v : Z) : result (list Z) := UnalignedStore64 m p (FromHost64 v).
End big_endian.

(** ** Bytes and values *)

Lemma le_value_cons b l : le_value (b :: l) = b + 256 * le_value l.
Proof. done. Qed.

Lemma le_value_range l : Forall byte_ok l -> 0 <= le_value l < 256 ^ Z.of_nat (length l).
Proof.
  induction 1 as [|b l Hb _ IH]; [done|]. cbn [length].
  rewrite le_value_cons, Nat2Z.inj_succ, Z.pow_succ_r by lia. unfold byte_ok, word in Hb. lia.
Qed.

Lemma le_value_app l1 l2 : le_value (l1 ++ l2) = le_value l1 + 256 ^ Z.of_nat (length l1) * le_value l2.
Proof.
  induction l1 as [|b l1 IH]; [cbn [app length]; change (le_value []) with 0; lia|].
  cbn [app length]. rewrite !le_value_cons, IH, Nat2Z.inj_succ, Z.pow_succ_r by lia. lia.
Qed.

Lemma le_bytes_length n v : length (le_bytes n v) = n.
Proof. revert v. induction n as [|n IH]; intros v; [done|]. cbn [le_bytes length]. by rewrite IH. Qed.

Lemma le_bytes_ok n v : Forall byte_ok (le_bytes n v).
Proof.
  revert v. induction n as [|n IH]; intros v; constructor; [|apply IH].
  unfold byte_ok, word. by apply Z.mod_pos_bound.
Qed.

Lemma le_value_bytes n v : le_value (le_bytes n v) = v mod 256 ^ Z.of_nat n.
Proof.
  revert v. induction n as [|n IH]; intros v; [by rewrite Z.mod_1_r|].
  cbn [le_bytes]. rewrite le_value_cons, IH, Nat2Z.inj_succ, Z.pow_succ_r by lia. rewrite Z.rem_mul_r by lia. done.
Qed.

Lemma le_bytes_value l : Forall byte_ok l -> le_bytes (length l) (le_value l) = l.
Proof.
  induction 1 as [|b l Hb _ IH]; [done|]. cbn [length le_bytes].
  rewrite le_value_cons. unfold byte_ok, word in Hb. rewrite (Z.mul_comm 256), Z_mod_plus_full, Z.mod_small by lia.
  rewrite Z.div_add, (Z.div_small b), Z.add_0_l by lia. by rewrite IH.
Qed.

(** ** Swapping bytes *)

(** The masks select digits in base 256. *)
Lemma land_digit x k : 0 <= k -> Z.land x (255 * 2 ^ k) = 2 ^ k * ((x / 2 ^ k) mod 256).
Proof.
  intros Hk. rewrite <- Z.shiftr_div_pow2, <- Z.shiftl_mul_pow2 by done.
  change 256 with (2 ^ 8). rewrite <- Z.land_ones by done. rewrite Z.mul_comm, <- Z.shiftl_mul_pow2 by done.
  apply Z.bits_inj'. intros i Hi. rewrite Z.land_spec, !Z.shiftl_spec by done.
  destruct (decide (k <= i)).
  - rewrite Z.land_spec, Z.shiftr_spec by lia. by replace (i - k + k) with i by lia.
  - rewrite !(Z.testbit_neg_r _ (i - k)) by lia. apply andb_false_r.
Qed.

Lemma lor_digit h b k : 0 <= k -> 0 <= b < 2 ^ k -> Z.lor (2 ^ k * h) b = 2 ^ k * h + b.
Proof.
  intros Hk Hb. rewrite Z.mul_comm, <- Z.shiftl_mul_pow2 by done. symmetry.
  rewrite <- Z.lxor_lor, <- Z.add_nocarry_lxor; [done|..].
  all: apply Z.bits_inj'; intros i Hi; rewrite Z.land_spec, Z.bits_0, Z.shiftl_spec by done;
    apply andb_false_iff; destruct (decide (i < k)); [left; apply Z.testbit_neg_r; lia|right];
    apply (word_bits k b); [done|done|lia].
Qed.

(** The bytes of a word. *)
Definition digit (x : Z) (i : Z) : Z := (x / 2 ^ (8 * i)) mod 256.

Lemma digit_range x i : 0 <= digit x i < 256.
Proof. by apply Z.mod_pos_bound. Qed.

Lemma digits_value n x : le_value (digit x <$> seqZ 0 (Z.of_nat n)) = x mod 256 ^ Z.of_nat n.
Proof.
  rewrite <- le_value_bytes. f_equal. assert (Hd : forall k, digit x <$> seqZ k (Z.of_nat n) = le_bytes n (x / 2 ^ (8 * k)) \/ k < 0).
  { induction n as [|n IH]; intros k; [by left|]. destruct (decide (k < 0)); [by right|left].
    rewrite seqZ_cons by lia. cbn [le_bytes fmap list_fmap]. f_equal.
    replace (Z.pred (Z.of_nat (S n))) with (Z.of_nat n) by lia.
    destruct (IH (Z.succ k)) as [Hk|]; [|lia]. change (list_fmap Z Z) with (@fmap list _ Z Z). rewrite Hk. f_equal.
    rewrite Z.div_div by (try apply Z.pow_nonzero; lia). f_equal.
    replace (8 * Z.succ k) with (8 * k + 8) by lia. by rewrite Z.pow_add_r by lia. }
  destruct (Hd 0) as [->|]; [|done]. f_equal. by rewrite Z.div_1_r.
Qed.

Lemma mask_shl w x k s : 0 <= k -> 0 <= s -> k + s + 8 <= w ->
  Z.shiftl (Z.land x (255 * 2 ^ k)) s mod 2 ^ w = 2 ^ (k + s) * ((x / 2 ^ k) mod 256).
Proof.
  intros. rewrite land_digit, Z.shiftl_mul_pow2 by done.
  pose proof (Z.mod_pos_bound (x / 2 ^ k) 256 ltac:(done)).
  rewrite Z.mod_small; [rewrite Z.pow_add_r by done; ring|].
  assert (Hw : 2 ^ (k + s) * 256 <= 2 ^ w).
  { change 256 with (2 ^ 8). rewrite <- Z.pow_add_r by lia. apply Z.pow_le_mono_r; lia. }
  rewrite Z.pow_add_r in Hw by done. assert (0 < 2 ^ k * 2 ^ s) by (apply Z.mul_pos_pos; apply Z.pow_pos_nonneg; lia).
  nia.
Qed.

Lemma mask_shr x k s : 0 <= s <= k ->
  Z.land x (255 * 2 ^ k) >> s = 2 ^ (k - s) * ((x / 2 ^ k) mod 256).
Proof.
  intros. rewrite land_digit, Z.shiftr_div_pow2 by lia.
  replace (2 ^ k) with (2 ^ (k - s) * 2 ^ s) at 1 by (rewrite <- Z.pow_add_r by lia; f_equal; lia).
  rewrite <- Z.mul_assoc, (Z.mul_comm (2 ^ s)), Z.mul_assoc. apply Z.div_mul. apply Z.pow_nonzero; lia.
Qed.

(** Or-ing digits from the most significant one down. *)
Lemma lor_step h b k : 0 <= k -> 0 <= b < 256 -> Z.lor (2 ^ (k + 8) * h) (2 ^ k * b) = 2 ^ k * (256 * h + b).
Proof.
  intros Hk Hb. assert (0 < 2 ^ k) by (apply Z.pow_pos_nonneg; lia).
  rewrite lor_digit; [rewrite Z.pow_add_r by lia; ring|lia|].
  rewrite Z.pow_add_r by lia. nia.
Qed.

Ltac digits :=
  repeat match goal with |- context [digit ?x ?i] =>
    let k := eval vm_compute in (8 * i) in change (digit x i) with ((x / 2 ^ k) mod 256) end.

Lemma gbswap_64_eq x : gbswap_64 x = le_value (digit x <$> [7; 6; 5; 4; 3; 2; 1; 0]).
Proof.
  unfold gbswap_64, u64.
  change (Z.land x 0xFF) with (Z.land x (255 * 2 ^ 0)). change (Z.land x 0xFF00) with (Z.land x (255 * 2 ^ 8)).
  change (Z.land x 0xFF0000) with (Z.land x (255 * 2 ^ 16)). change (Z.land x 0xFF000000) with (Z.land x (255 * 2 ^ 24)).
  change (Z.land x 0xFF00000000) with (Z.land x (255 * 2 ^ 32)).
  change (Z.land x 0xFF0000000000) with (Z.land x (255 * 2 ^ 40)).
  change (Z.land x 0xFF000000000000) with (Z.land x (255 * 2 ^ 48)).
  change (Z.land x 0xFF00000000000000) with (Z.land x (255 * 2 ^ 56)).
  rewrite !mask_shl, !mask_shr by done. cbn [fmap list_fmap]. digits.
  repeat match goal with |- context [?e mod 256] =>
    pose proof (Z.mod_pos_bound e 256 ltac:(done)); generalize dependent (e mod 256); intros end.
  rewrite (lor_step _ _ 48), (lor_step _ _ 40), (lor_step _ _ 32), (lor_step _ _ 24), (lor_step _ _ 16),
    (lor_step _ _ 8), (lor_step _ _ 0) by done.
  rewrite !le_value_cons. change (le_value []) with 0. lia.
Qed.

Lemma gbswap_32_eq x : gbswap_32 x = le_value (digit x <$> [3; 2; 1; 0]).
Proof.
  unfold gbswap_32, u32.
  change (Z.land x 0xFF) with (Z.land x (255 * 2 ^ 0)). change (Z.land x 0xFF00) with (Z.land x (255 * 2 ^ 8)).
  change (Z.land x 0xFF0000) with (Z.land x (255 * 2 ^ 16)). change (Z.land x 0xFF000000) with (Z.land x (255 * 2 ^ 24)).
  rewrite !mask_shl, !mask_shr by done. cbn [fmap list_fmap]. digits.
  repeat match goal with |- context [?e mod 256] =>
    pose proof (Z.mod_pos_bound e 256 ltac:(done)); generalize dependent (e mod 256); intros end.
  rewrite (lor_step _ _ 16), (lor_step _ _ 8), (lor_step _ _ 0) by done.
  rewrite !le_value_cons. change (le_value []) with 0. lia.
Qed.

Lemma gbswap_16_eq x : gbswap_16 x = le_value (digit x <$> [1; 0]).
Proof.
  unfold gbswap_16. change (Z.land x 0xFF) with (Z.land x (255 * 2 ^ 0)).
  change (Z.land x 0xFF00) with (Z.land x (255 * 2 ^ 8)).
  rewrite land_digit, Z.shiftl_mul_pow2, mask_shr by done. cbn [fmap list_fmap]. digits. change (2 ^ (8 - 8)) with (2 ^ 0).
  pose proof (Z.mod_pos_bound (x / 2 ^ 0) 256 ltac:(done)) as H0.
  pose proof (Z.mod_pos_bound (x / 2 ^ 8) 256 ltac:(done)) as H1.
  set (a := (x / 2 ^ 0) mod 256) in *. set (b := (x / 2 ^ 8) mod 256) in *. clearbody a b.
  replace (2 ^ 0 * a * 2 ^ 8) with (2 ^ (0 + 8) * a) by lia. rewrite lor_step by done.
  rewrite !le_value_cons. change (le_value []) with 0. rewrite u16_id; lia.
Qed.

(** The swap functions reverse the bytes of their word. *)
Definition reverses (n : nat) (swap : Z -> Z) : Prop :=
  forall v, swap v = le_value (rev (le_bytes n v)).

Lemma gbswap_reverses : reverses 8 gbswap_64 /\ reverses 4 gbswap_32 /\ reverses 2 gbswap_16.
Proof.
  assert (Hb : forall n x, digit x <$> seqZ 0 (Z.of_nat n) = le_bytes n x).
  { intros n x. pose proof (le_bytes_value (digit x <$> seqZ 0 (Z.of_nat n))) as Hl.
    rewrite digits_value, length_fmap, length_seqZ, Nat2Z.id in Hl. rewrite <- Hl.
    - rewrite <- le_value_bytes. rewrite <- (le_bytes_length n x) at 1. apply le_bytes_value, le_bytes_ok.
    - apply Forall_fmap, Forall_true. intros i. apply digit_range. }
  split_and!; intros v; rewrite <- Hb.
  - apply gbswap_64_eq.
  - apply gbswap_32_eq.
  - apply gbswap_16_eq.
Qed.

Lemma reverses_range n swap v : reverses n swap -> 0 <= swap v < 256 ^ Z.of_nat n.
Proof.
  intros ->. pose proof (le_value_range (rev (le_bytes n v))) as Hr.
  rewrite length_rev, le_bytes_length in Hr. apply Hr, Forall_rev, le_bytes_ok.
Qed.

Lemma reverses_bytes n swap v : reverses n swap -> le_bytes n (swap v) = rev (le_bytes n v).
Proof.
  intros ->. rewrite <- (le_bytes_length n v) at 1. rewrite <- length_rev.
  apply le_bytes_value, Forall_rev, le_bytes_ok.
Qed.

Lemma reverses_inv n swap v : reverses n swap -> 0 <= v < 256 ^ Z.of_nat n -> swap (swap v) = v.
Proof.
  intros Hr Hv. rewrite (Hr (swap v)), (reverses_bytes n) by done.
  rewrite rev_involutive, le_value_bytes. by apply Z.mod_small.
Qed.

Lemma word_gbswap_64 v : word 64 (gbswap_64 v).
Proof. apply (reverses_range 8), gbswap_reverses. Qed.
Lemma word_gbswap_32 v : word 32 (gbswap_32 v).
Proof. apply (reverses_range 4), gbswap_reverses. Qed.

(** ** Loads and stores *)

Lemma load_store n m p bytes :
  length bytes = n -> 0 <= p -> p + Z.of_nat n <= Z.of_nat (length m) ->
  exists m', store_bytes m p bytes = Ok m' /\
    m' = take (Z.to_nat p) m ++ bytes ++ drop (Z.to_nat p + n) m /\ load_bytes n m' p = Ok bytes.
Proof.
  intros Hn Hp Hlen. unfold store_bytes. rewrite Hn.
  rewrite (proj2 (Z.leb_le 0 p) Hp), (proj2 (Z.leb_le _ _) Hlen). eexists. split; [done|]. split; [done|].
  unfold load_bytes. rewrite !length_app, length_take, length_drop, Hn.
  rewrite (proj2 (Z.leb_le 0 p) Hp). cbn [andb]. rewrite (proj2 (Z.leb_le _ _)) by lia. f_equal.
  rewrite drop_app_length' by (rewrite length_take; lia). by rewrite take_app_length'.
Qed.

(** Storing a word writes its bytes at [p] and nothing else, and loading it
    again gives the word. *)
Definition stores (n : nat) (bytes : Z -> list Z) (store : list Z -> Z -> Z -> result (list Z))
    (load : list Z -> Z -> result Z) : Prop :=
  forall m p v, 0 <= p -> p + Z.of_nat n <= Z.of_nat (length m) -> 0 <= v < 256 ^ Z.of_nat n ->
    exists m', store m p v = Ok m' /\
      m' = take (Z.to_nat p) m ++ bytes v ++ drop (Z.to_nat p + n) m /\ load m' p = Ok v.

Lemma stores_little n : stores n (le_bytes n) (fun m p v => store_bytes m p (le_bytes n v))
  (fun m p => let* t := load_bytes n m p in Ok (le_value t)).
Proof.
  intros m p v Hp Hlen Hv. destruct (load_store n m p (le_bytes n v)) as (m' & Hs & Hm & Hl); try done.
  { apply le_bytes_length. }
  exists m'. rewrite Hl. split_and!; [done|done|]. cbn [rbind]. by rewrite le_value_bytes, Z.mod_small.
Qed.

Lemma stores_big n swap : reverses n swap ->
  stores n (fun v => rev (le_bytes n v)) (fun m p v => store_bytes m p (le_bytes n (swap v)))
    (fun m p => let* v := (let* t := load_bytes n m p in Ok (le_value t)) in Ok (swap v)).
Proof.
  intros Hr m p v Hp Hlen Hv. destruct (stores_little n m p (swap v)) as (m' & Hs & Hm & Hl); try done.
  { by apply reverses_range. }
  exists m'. rewrite Hl. cbn [rbind]. rewrite <- (reverses_bytes n swap) by done.
  split_and!; [done|done|]. f_equal. by apply (reverses_inv n).
Qed.

(** The network order conversions are inverse to each other. *)
Definition inverse (w : Z) (f g : Z -> Z) : Prop := forall v, word w v -> g (f v) = v /\ f (g v) = v.

Lemma signed_unsigned w z : 0 < w -> - 2 ^ (w - 1) <= z < 2 ^ (w - 1) -> signed w (unsigned w z) = z.
Proof.
  intros Hw Hz. assert (Hp : 2 ^ w = 2 * 2 ^ (w - 1)) by (rewrite <- Z.pow_succ_r by lia; f_equal; lia).
  unfold signed, unsigned. rewrite Zplus_mod_idemp_l, Z.mod_small; lia.
Qed.

Lemma unsigned_signed w z : 0 < w -> word w z -> unsigned w (signed w z) = z.
Proof.
  intros Hw Hz. unfold signed, unsigned. rewrite Zminus_mod_idemp_l.
  replace (z + 2 ^ (w - 1) - 2 ^ (w - 1)) with z by lia. by apply Z.mod_small.
Qed.

(** A conversion that is an involution on words is one on signed words. *)
Lemma signed_inverse w (f : Z -> Z) z : 0 < w -> (forall v, word w v -> word w (f v) /\ f (f v) = v) ->
  - 2 ^ (w - 1) <= z < 2 ^ (w - 1) -> signed w (f (unsigned w (signed w (f (unsigned w z))))) = z.
Proof.
  intros Hw Hf Hz. assert (Hu : word w (unsigned w z)) by (apply Z.mod_pos_bound, Z.pow_pos_nonneg; lia).
  destruct (Hf _ Hu) as [Hw' Hff]. rewrite unsigned_signed, Hff by done. by apply signed_unsigned.
Qed.

(** endian.h on a little endian machine: the stores of either order write
    the bytes of the word in that order (least significant first, or most
    significant first) at the address and nothing else, and the load of the
    same order gives the word back, at every width; the network order
    conversions undo each other, and so do the conversions of signed words. *)
Theorem endian_roundtrip :
  stores 2 (le_bytes 2) little_endian.Store16 little_endian.Load16 /\
  stores 4 (le_bytes 4) little_endian.Store32 little_endian.Load32 /\
  stores 8 (le_bytes 8) little_endian.Store64 little_endian.Load64 /\
  stores 2 (fun v => rev (le_bytes 2 v)) big_endian.Store16 big_endian.Load16 /\
  stores 4 (fun v => rev (le_bytes 4 v)) big_endian.Store32 big_endian.Load32 /\
  stores 8 (fun v => rev (le_bytes 8 v)) big_endian.Store64 big_endian.Load64 /\
  inverse 16 ghtons gntohs /\ inverse 32 ghtonl gntohl /\ inverse 64 ghtonll gntohll /\
  (forall z, - 2 ^ 15 <= z < 2 ^ 15 -> big_endian.ToHost_i16 (big_endian.FromHost_i16 z) = z /\
     little_endian.ToHost_i16 (little_endian.FromHost_i16 z) = z) /\
  (forall z, - 2 ^ 31 <= z < 2 ^ 31 -> big_endian.ToHost_i32 (big_endian.FromHost_i32 z) = z /\
     little_endian.ToHost_i32 (little_endian.FromHost_i32 z) = z) /\
  (forall z, - 2 ^ 63 <= z < 2 ^ 63 -> big_endian.ToHost_i64 (big_endian.FromHost_i64 z) = z /\
     little_endian.ToHost_i64 (little_endian.FromHost_i64 z) = z).
Proof.
  destruct gbswap_reverses as (H8 & H4 & H2).
  assert (Hle : forall n store load, stores n (le_bytes n) store load ->
    stores n (le_bytes n) store (fun m p => let* v := load m p in Ok v)).
  { intros n store load Hs m p v ? ? ?. destruct (Hs m p v) as (m' & ? & ? & Hl); try done.
    exists m'. by rewrite Hl. }
  assert (Hinv : forall n swap, reverses n swap ->
    forall v, 0 <= v < 256 ^ Z.of_nat n -> 0 <= swap v < 256 ^ Z.of_nat n /\ swap (swap v) = v).
  { intros. split; [by apply reverses_range|by apply (reverses_inv n)]. }
  assert (Hid : forall w z, 0 < w -> - 2 ^ (w - 1) <= z < 2 ^ (w - 1) ->
    signed w (unsigned w (signed w (unsigned w z))) = z).
  { intros w z ? ?. by rewrite !signed_unsigned by (rewrite ?signed_unsigned; done). }
  split_and!; try (apply Hle, stores_little); try (by apply stores_big); try intros v Hv.
  - split; apply (Hinv _ _ H2 v Hv).
  - split; apply (Hinv _ _ H4 v Hv).
  - split; apply (Hinv _ _ H8 v Hv).
  - split; [|by apply Hid]. by apply (signed_inverse 16 gbswap_16); [done|apply (Hinv 2%nat)|].
  - split; [|by apply Hid]. by apply (signed_inverse 32 gbswap_32); [done|apply (Hinv 4%nat)|].
  - split; [|by apply Hid]. by apply (signed_inverse 64 gbswap_64); [done|apply (Hinv 8%nat)|].
Qed.

(** ** Reading inside a buffer

    [holds m s data]: the bytes [data] lie in the memory [m] at [s]. Two runs
    of a function on memories that hold the same bytes [agree] when both
    succeed with the same value: so the function reads inside the buffer, and
    its result depends on the bytes of the buffer only. *)
Definition holds (m : list Z) (s : Z) (data : list Z) : Prop :=
  exists pre post, m = pre ++ data ++ post /\ s = Z.of_nat (length pre).

Definition agree {A} (P : A -> Prop) (r r' : result A) : Prop := exists v, r = Ok v /\ r' = Ok v /\ P v.

Lemma agree_ok {A} (P : A -> Prop) v : P v -> agree P (Ok v) (Ok v).
Proof. intros. by exists v. Qed.

Lemma agree_bind {A B} (P : A -> Prop) (Q : B -> Prop) r r' f f' :
  agree P r r' -> (forall v, P v -> agree Q (f v) (f' v)) -> agree Q (rbind r f) (rbind r' f').
Proof. intros (v & -> & -> & Hv) Hf. by apply Hf. Qed.

Lemma holds_self data : holds data 0 data.
Proof. exists [], []. by rewrite app_nil_r. Qed.

Lemma holds_split m s l1 l2 : holds m s (l1 ++ l2) ->
  holds m s l1 /\ holds m (s + Z.of_nat (length l1)) l2.
Proof.
  intros (pre & post & -> & ->). split.
  - exists pre, (l2 ++ post). by rewrite <- !app_assoc.
  - exists (pre ++ l1), post. rewrite <- !app_assoc, length_app. split; [done|lia].
Qed.

(** A part of the buffer. *)
Lemma holds_sub m s data k : holds m s data -> 0 <= k <= Z.of_nat (length data) ->
  holds m (s + k) (drop (Z.to_nat k) data).
Proof.
  intros Hm Hk. rewrite <- (take_drop (Z.to_nat k) data) in Hm. apply holds_split in Hm as [_ Hm].
  rewrite length_take_le, Z2Nat.id in Hm by lia. done.
Qed.

Lemma load_bytes_prefix n m s data : holds m s data -> (n <= length data)%nat ->
  load_bytes n m s = Ok (take n data).
Proof.
  intros (pre & post & -> & ->) Hn. unfold load_bytes. rewrite !length_app.
  rewrite !(proj2 (Z.leb_le _ _)) by lia. cbn [andb]. rewrite Nat2Z.id, drop_app_length. f_equal.
  by rewrite take_app_le.
Qed.

Lemma load_bytes_holds n m s data k : holds m s data -> 0 <= k -> k + Z.of_nat n <= Z.of_nat (length data) ->
  load_bytes n m (s + k) = Ok (take n (drop (Z.to_nat k) data)).
Proof.
  intros Hm Hk Hlen. apply load_bytes_prefix; [apply holds_sub; [done|lia]|]. rewrite length_drop. lia.
Qed.

Section loads.
Context (m m' : list Z) (s s' : Z) (data : list Z).
Context (Hm : holds m s data) (Hm' : holds m' s' data) (Hbytes : Forall byte_ok data).

Lemma load_agree n a a' : s <= a -> a + Z.of_nat n <= s + Z.of_nat (length data) -> a' = a - s + s' ->
  agree (fun v => 0 <= v < 256 ^ Z.of_nat n) (let* t := load_bytes n m a in Ok (le_value t))
    (let* t := load_bytes n m' a' in Ok (le_value t)).
Proof using All.
  intros Ha Hlen ->. replace a with (s + (a - s)) at 1 by lia. replace (a - s + s') with (s' + (a - s)) by lia.
  rewrite !(load_bytes_holds n _ _ data) by (done || lia). cbn [rbind]. apply agree_ok.
  pose proof (le_value_range (take n (drop (Z.to_nat (a - s)) data))) as Hr.
  rewrite length_take, length_drop, Nat.min_l in Hr by lia. apply Hr. by apply Forall_take, Forall_drop.
Qed.

Lemma load64_agree a a' : s <= a -> a + 8 <= s + Z.of_nat (length data) -> a' = a - s + s' ->
  agree (word 64) (UnalignedLoad64 m a) (UnalignedLoad64 m' a').
Proof using All. apply (load_agree 8). Qed.

Lemma load32_agree a a' : s <= a -> a + 4 <= s + Z.of_nat (length data) -> a' = a - s + s' ->
  agree (word 32) (UnalignedLoad32 m a) (UnalignedLoad32 m' a').
Proof using All. apply (load_agree 4). Qed.

Lemma load8_agree a a' : s <= a < s + Z.of_nat (length data) -> a' = a - s + s' ->
  agree byte_ok (load8 m a) (load8 m' a').
Proof using All.
  intros Ha ->. destruct (lookup_lt_is_Some_2 data (Z.to_nat (a - s))) as [b Hb]; [lia|].
  assert (Hlook : forall mm ss, holds mm ss data -> load8 mm (ss + (a - s)) = Ok b).
  { intros mm ss (pre & post & -> & ->). unfold load8, at_index. rewrite (proj2 (Z.leb_le 0 _)) by lia.
    rewrite Z2Nat.inj_add, Nat2Z.id, lookup_app_r, lookup_app_l by lia.
    replace (length pre + Z.to_nat (a - s) - length pre)%nat with (Z.to_nat (a - s)) by lia. by rewrite Hb. }
  replace a with (s + (a - s)) at 1 by lia. replace (a - s + s') with (s' + (a - s)) by lia.
  rewrite (Hlook m s), (Hlook m' s') by done. apply agree_ok.
  by eapply (Forall_lookup_1 _ _ _ _ Hbytes).
Qed.
End loads.
