(* ===== verification/Bits.v ===== *)
(** * Bits: counting and rotating bits
    (src/abseil-cpp/absl/numeric/bits.h and numeric/internal/bits.h)

    The portable branches of the source: the branches that call the compiler
    compute what the reference functions below say, which is what the
    theorems prove of the portable ones. [w] is the width of the type [T]:
    8, 16, 32 or 64. *)

From S2P Require Import Prelude.
From S2P Require Import Word.

(** ** numeric_internal *)

Definition IsPowerOf2 (x : Z) : bool := negb (x =? 0) && (Z.land x (u32 (x - 1)) =? 0).

(** [static_cast<T>]. *)
Definition cast (w z : Z) : Z := z mod 2 ^ w.

Definition RotateRight (w x s : Z) : Z :=
  Z.lor (cast w (x >> Z.land s (w - 1))) (cast w (Z.shiftl x (Z.land (- s) (w - 1)))).

Definition RotateLeft (w x s : Z) : Z :=
  Z.lor (cast w (Z.shiftl x (Z.land s (w - 1)))) (cast w (x >> Z.land (- s) (w - 1))).

Definition Popcount32 (x : Z) : Z :=
  let x := x -32 Z.land (x >> 1) 0x55555555 in
  let x := Z.land (x >> 2) 0x33333333 +32 Z.land x 0x33333333 in
  (Z.land (x +32 (x >> 4)) 0xF0F0F0F *32 0x1010101) >> 24.

Definition Popcount64 (x : Z) : Z :=
  let x := x -64 Z.land (x >> 1) 0x5555555555555555 in
  let x := Z.land (x >> 2) 0x3333333333333333 +64 Z.land x 0x3333333333333333 in
  (Z.land (x +64 (x >> 4)) 0xF0F0F0F0F0F0F0F *64 0x101010101010101) >> 56.

Definition Popcount (w x : Z) : Z := if w <=? 32 then Popcount32 x else Popcount64 x.

(** The string of the two functions below, with its terminator. *)
Definition clz_table : list Z := [4; 3; 2; 2; 1; 1; 1; 1; 0; 0; 0; 0; 0; 0; 0; 0].

(** [if (x >> k) { zeroes -= k; x >>= k; }] on [(x, zeroes)]. *)
Definition clz_step (k : Z) (r : Z * Z) : Z * Z :=
  let '(x, zeroes) := r in
  if negb (x >> k =? 0) then (x >> k, zeroes - k) else (x, zeroes).

Definition CountLeadingZeroes32 (x : Z) : result Z :=
  let zeroes := 28 in
  let '(x, zeroes) := clz_step 16 (x, zeroes) in
  let '(x, zeroes) := clz_step 8 (x, zeroes) in
  let '(x, zeroes) := clz_step 4 (x, zeroes) in
  let* t := at_index clz_table x in
  Ok (t + zeroes).

Definition CountLeadingZeroes16 (x : Z) : result Z :=
  let* n := CountLeadingZeroes32 x in Ok (n - 16).

Definition CountLeadingZeroes64 (x : Z) : result Z :=
  let zeroes := 60 in
  let '(x, zeroes) := clz_step 32 (x, zeroes) in
  let '(x, zeroes) := clz_step 16 (x, zeroes) in
  let '(x, zeroes) := clz_step 8 (x, zeroes) in
  let '(x, zeroes) := clz_step 4 (x, zeroes) in
  let* t := at_index clz_table x in
  Ok (t + zeroes).

Definition CountLeadingZeroes (w x : Z) : result Z :=
  if w <=? 16 then let* n := CountLeadingZeroes16 (cast 16 x) in Ok (n - (16 - w))
  else if w <=? 32 then let* n := CountLeadingZeroes32 (cast 32 x) in Ok (n - (32 - w))
  else CountLeadingZeroes64 x.

(** [if (x & mask) c -= k;] *)
Definition ctz_step (x mask k c : Z) : Z := if negb (Z.land x mask =? 0) then c - k else c.

Definition CountTrailingZeroesNonzero32 (x : Z) : Z :=
  let c := 31 in
  let x := Z.land x (u32 (Z.lnot x) +32 1) in
  let c := ctz_step x 0x0000FFFF 16 c in
  let c := ctz_step x 0x00FF00FF 8 c in
  let c := ctz_step x 0x0F0F0F0F 4 c in
  let c := ctz_step x 0x33333333 2 c in
  ctz_step x 0x55555555 1 c.

Definition CountTrailingZeroesNonzero64 (x : Z) : Z :=
  let c := 63 in
  let x := Z.land x (u64 (Z.lnot x) +64 1) in
  let c := ctz_step x 0x00000000FFFFFFFF 32 c in
  let c := ctz_step x 0x0000FFFF0000FFFF 16 c in
  let c := ctz_step x 0x00FF00FF00FF00FF 8 c in
  let c := ctz_step x 0x0F0F0F0F0F0F0F0F 4 c in
  let c := ctz_step x 0x3333333333333333 2 c in
  ctz_step x 0x5555555555555555 1 c.

Definition CountTrailingZeroesNonzero16 (x : Z) : Z := CountTrailingZeroesNonzero32 x.

Definition CountTrailingZeroes (w x : Z) : Z :=
  if x =? 0 then w
  else if w <=? 16 then CountTrailingZeroesNonzero16 (cast 16 x)
  else if w <=? 32 then CountTrailingZeroesNonzero32 (cast 32 x)
  else CountTrailingZeroesNonzero64 x.

(** A type narrower than [unsigned] is promoted to it before the shift. *)
Definition BitCeilPromotionHelper (w x promotion : Z) : Z :=
  cast w (cast (Z.max w 32) (Z.shiftl 1 (x + promotion)) >> promotion).

Definition BitCeilNonPowerOf2 (w x : Z) : result Z :=
  let* n := CountLeadingZeroes w x in
  Ok (BitCeilPromotionHelper w (cast w (w - n)) (if 32 <=? w then 0 else 32 - w)).

(** ** bits.h *)

Definition rotl (w x s : Z) : Z := RotateLeft w x s.
Definition rotr (w x s : Z) : Z := RotateRight w x s.

Definition countl_zero (w x : Z) : result Z := CountLeadingZeroes w x.
Definition countl_one (w x : Z) : result Z := countl_zero w (cast w (Z.lnot x)).
Definition countr_zero (w x : Z) : Z := CountTrailingZeroes w x.
Definition countr_one (w x : Z) : Z := countr_zero w (cast w (Z.lnot x)).
Definition popcount (w x : Z) : Z := Popcount w x.

Definition has_single_bit (w x : Z) : bool :=
  negb (x =? 0) && (Z.land x (cast (Z.max w 32) (x - 1)) =? 0).

Definition bit_width (w x : Z) : result Z :=
  let* n := countl_zero w x in Ok (w - n).

Definition bit_floor (w x : Z) : result Z :=
  if x =? 0 then Ok 0 else let* n := bit_width w x in Ok (cast w (Z.shiftl 1 (n - 1))).

Definition bit_ceil (w x : Z) : result Z :=
  if has_single_bit w x then let* n := bit_width w x in Ok (cast w (Z.shiftl 1 (n - 1)))
  else BitCeilNonPowerOf2 w x.

(** ** Reference functions *)

(** The number of ones among the [n] low bits. *)
Fixpoint ones_count (n : nat) (x : Z) : Z :=
  match n with O => 0 | S n => x mod 2 + ones_count n (x / 2) end.

(** [n] is the number of zeros above the highest one of [w] bits. *)
Definition leading_zeros (w x n : Z) : Prop :=
  0 <= n <= w /\ x < 2 ^ (w - n) /\ (n < w -> 2 ^ (w - n - 1) <= x).

(** [n] is the number of zeros below the lowest one of [w] bits. *)
Definition trailing_zeros (w x n : Z) : Prop :=
  if x =? 0 then n = w else 0 <= n < w /\ exists q, x = 2 ^ n * (2 * q + 1).

Definition is_width (w : Z) : Prop := w = 8 \/ w = 16 \/ w = 32 \/ w = 64.

(** ** Counting ones *)

Lemma byte_forall (P : Z -> bool) : forallb P (seqZ 0 256) = true -> forall d, byte_ok d -> P d = true.
Proof.
  intros HP d Hd. rewrite forallb_forall in HP. apply HP. apply list_elem_of_In, elem_of_seqZ.
  unfold byte_ok, word in Hd. lia.
Qed.

(** The bits of a byte in front of a number, and masking them apart. *)
Lemma testbit_cons a b i : word 8 a -> 0 <= i ->
  Z.testbit (a + 256 * b) i = if i <? 8 then Z.testbit a i else Z.testbit b (i - 8).
Proof.
  intros Ha Hi. change 256 with (2 ^ 8). rewrite Z.add_comm.
  rewrite <- lor_digit, Z.lor_spec by done. rewrite Z.mul_comm, <- Z.shiftl_mul_pow2, Z.shiftl_spec by done.
  destruct (i <? 8) eqn:Hi8; bools; [by rewrite (Z.testbit_neg_r b) by lia|].
  apply word_bits in Ha as [_ Ha]; [|done]. rewrite (Ha i) by lia. apply orb_false_r.
Qed.

Lemma land_cons a b c d : word 8 a -> word 8 c ->
  Z.land (a + 256 * b) (c + 256 * d) = Z.land a c + 256 * Z.land b d.
Proof.
  intros Ha Hc. apply Z.bits_inj'. intros i Hi.
  rewrite Z.land_spec, !testbit_cons, !Z.land_spec by (try apply word_land; done). by destruct (i <? 8).
Qed.

(** Masks and shifts that stay inside a byte act on each byte. *)
Lemma land_digits s mask l : 0 <= s < 8 -> 0 <= mask < 2 ^ (8 - s) -> Forall byte_ok l ->
  Z.land (le_value l >> s) (le_value (replicate (length l) mask)) =
    le_value ((fun d => Z.land (d >> s) mask) <$> l).
Proof.
  intros Hs Hmask. induction 1 as [|d l Hd Hl IH]; [by rewrite Z.shiftr_0_l|].
  cbn [length replicate fmap list_fmap]. rewrite !le_value_cons. rewrite <- IH.
  set (v := le_value l) in *. set (M := le_value _).
  assert (Hm8 : word 8 mask).
  { unfold word. pose proof (Z.pow_le_mono_r 2 (8 - s) 8). lia. }
  assert (Hds : word 8 (d >> s)) by (apply word_shiftr; [lia|done]).
  apply Z.bits_inj'. intros i Hi. rewrite Z.land_spec, Z.shiftr_spec by done.
  rewrite !testbit_cons by (try apply word_land; lia || done).
  destruct (i <? 8) eqn:Hi8; bools.
  - rewrite Z.land_spec, Z.shiftr_spec by done. destruct (i + s <? 8) eqn:His; bools; [done|].
    assert (Hb : Z.testbit mask i = false) by (apply (word_bits (8 - s) mask); [lia|done|lia]).
    by rewrite Hb, !andb_false_r.
  - rewrite (proj2 (Z.ltb_ge (i + s) 8)) by lia. rewrite Z.land_spec, Z.shiftr_spec by lia.
    by replace (i - 8 + s) with (i + s - 8) by lia.
Qed.

(** The nibbles of each byte added up: no nibble of a byte exceeds 4. *)
Definition small_nibbles (d : Z) : Prop := 0 <= d < 256 /\ d mod 16 <= 4 /\ d / 16 <= 4.

Lemma le_value_mod16 l : le_value l mod 16 = match l with [] => 0 | d :: _ => d mod 16 end.
Proof.
  destruct l as [|d l]; [done|]. rewrite le_value_cons.
  replace (d + 256 * le_value l) with (d + 16 * le_value l * 16) by lia. apply Z_mod_plus_full.
Qed.

Lemma fold_nibbles l : Forall small_nibbles l ->
  Z.land (le_value l + (le_value l >> 4)) (le_value (replicate (length l) 15)) =
    le_value ((fun d => d mod 16 + d / 16) <$> l).
Proof.
  induction 1 as [|d l (Hd & Hlo & Hhi) Hl IH]; [done|]. cbn [length replicate fmap list_fmap].
  rewrite !le_value_cons, <- IH. set (M := le_value (replicate _ _)).
  assert (Hlow : 0 <= le_value l mod 16 <= 4).
  { rewrite le_value_mod16. destruct Hl as [|d' l' (Hd' & Hlo' & _) _]; [done|].
    pose proof (Z.mod_pos_bound d' 16 ltac:(done)). lia. }
  set (v := le_value l) in *. rewrite !Z.shiftr_div_pow2 by done. change (2 ^ 4) with 16.
  pose proof (Z.div_mod d 16 ltac:(done)) as Hdd. pose proof (Z.mod_pos_bound d 16 ltac:(done)) as Hdb.
  assert (Heq : d + 256 * v + (d + 256 * v) / 16 = (d + d / 16 + 16 * (v mod 16)) + 256 * (v + v / 16)).
  { replace ((d + 256 * v) / 16) with (d / 16 + 16 * v)
      by (rewrite <- (Z.div_add d (16 * v) 16) by done; f_equal; lia).
    pose proof (Z.div_mod v 16 ltac:(done)). lia. }
  rewrite Heq, land_cons by (unfold word; lia). f_equal.
  change 15 with (Z.ones 4). rewrite Z.land_ones by done. change (2 ^ 4) with 16.
  rewrite Z.mul_comm, Z_mod_plus_full. replace (d + d / 16) with ((d mod 16 + d / 16) + d / 16 * 16) by lia.
  rewrite Z_mod_plus_full. apply Z.mod_small. lia.
Qed.

(** Multiplying by ones in every byte gives the sums of the prefixes, with
    the total in the highest byte. *)
Definition total (l : list Z) : Z := foldr Z.add 0 l.
Fixpoint prefix_sums (a : Z) (l : list Z) : list Z :=
  match l with [] => [] | d :: l => a + d :: prefix_sums (a + d) l end.

Lemma ones_app n : le_value (replicate (S n) 1) = le_value (replicate n 1) + 256 ^ Z.of_nat n.
Proof.
  replace (S n) with (n + 1)%nat by lia. rewrite replicate_add, le_value_app, length_replicate.
  change (le_value (replicate 1 1)) with 1. lia.
Qed.

Lemma total_nonneg l : Forall byte_ok l -> 0 <= total l.
Proof. induction 1 as [|d l Hd Hl IH]; [done|]. unfold byte_ok, word in Hd. cbn [total foldr]. unfold total in IH. lia. Qed.

Lemma prefix_sums_ok a l : Forall byte_ok l -> 0 <= a -> a + total l < 256 -> Forall byte_ok (prefix_sums a l).
Proof.
  intros Hl. revert a. induction Hl as [|d l Hd Hl IH]; intros a Ha Ht; [done|].
  cbn [total foldr] in Ht. fold (total l) in Ht. unfold byte_ok, word in *.
  pose proof (total_nonneg l Hl).
  cbn [prefix_sums]. constructor; [lia|]. apply IH; lia.
Qed.

Lemma prefix_sums_length a l : length (prefix_sums a l) = length l.
Proof. revert a. induction l as [|d l IH]; intros a; [done|]. cbn [prefix_sums length]. by rewrite IH. Qed.

Lemma ones_mul a l : Forall byte_ok l -> 0 <= a -> a + total l < 256 ->
  ((a + le_value l) * le_value (replicate (length l) 1)) mod 256 ^ Z.of_nat (length l) =
    le_value (prefix_sums a l).
Proof.
  intros Hl. revert a. induction Hl as [|d l Hd Hl IH]; intros a Ha Ht; [by rewrite Z.mod_1_r|].
  cbn [total foldr] in Ht. fold (total l) in Ht. unfold byte_ok, word in Hd.
  cbn [length prefix_sums]. rewrite !le_value_cons, <- IH by lia.
  pose proof (ones_app (length l)) as Happ. cbn [replicate]. rewrite le_value_cons.
  cbn [replicate] in Happ. rewrite le_value_cons in Happ.
  set (O := le_value (replicate (length l) 1)) in *. set (n := length l) in *. set (v := le_value l).
  rewrite Nat2Z.inj_succ, Z.pow_succ_r by lia. set (B := 256 ^ Z.of_nat n) in *.
  assert (HB : 0 < B) by (apply Z.pow_pos_nonneg; lia).
  assert (Hprod : (a + (d + 256 * v)) * (1 + 256 * O) = (a + d) + 256 * ((a + d + v) * O + v * B)).
  { transitivity ((a + d) * (1 + 256 * O) + 256 * v * (O + B)); [rewrite <- Happ; ring|ring]. }
  pose proof (total_nonneg l Hl) as Htl.
  rewrite Hprod, Z.rem_mul_r by lia. rewrite (Z.mul_comm 256 (_ + v * B)), Z_mod_plus_full, Z.mod_small by lia.
  rewrite Z.div_add, (Z.div_small (a + d)), Z.add_0_l, Z_mod_plus_full by lia. done.
Qed.

Lemma ones_total l n : Forall byte_ok l -> length l = S n -> total l < 256 ->
  (le_value l * le_value (replicate (S n) 1)) mod 256 ^ Z.of_nat (S n) / 256 ^ Z.of_nat n = total l.
Proof.
  intros Hl Hlen Ht. rewrite <- Hlen. rewrite <- (Z.add_0_l (le_value l)) at 1.
  rewrite ones_mul by (done || lia).
  assert (Hlast : forall a, exists p, prefix_sums a l = p ++ [a + total l] /\ length p = n).
  { revert n Hlen. clear Ht. induction Hl as [|d l Hd Hl IH]; intros n Hlen a; [done|]. injection Hlen as Hlen.
    cbn [prefix_sums total foldr]. fold (total l). destruct l as [|d' l'].
    - exists []. cbn [length] in Hlen. subst n. cbn [total foldr]. split; [|done]. cbn. by rewrite Z.add_0_r.
    - destruct n as [|n]; [done|]. destruct (IH n Hlen (a + d)) as (p & -> & Hp). exists ((a + d) :: p).
      split; [|cbn [length]; by rewrite Hp]. cbn [app]. by rewrite Z.add_assoc. }
  pose proof (prefix_sums_ok 0 l Hl ltac:(done) ltac:(lia)) as Hok.
  destruct (Hlast 0) as (p & Hp & Hn). rewrite Hp in Hok |- *. rewrite le_value_app, Hn.
  apply Forall_app in Hok as [Hok _]. pose proof (le_value_range p Hok) as Hr. rewrite Hn in Hr.
  rewrite Z.add_comm, Z.mul_comm, Z.div_add_l, Z.div_small by lia. cbn [le_value foldr]. lia.
Qed.

(** The ones of a number, byte by byte. *)
Lemma ones_count_app a b x : ones_count (a + b) x = ones_count a x + ones_count b (x / 2 ^ Z.of_nat a).
Proof.
  revert x. induction a as [|a IH]; intros x; [by rewrite Z.div_1_r|].
  cbn [Nat.add ones_count]. rewrite IH, Nat2Z.inj_succ, Z.pow_succ_r, <- Z.div_div by lia. lia.
Qed.

Lemma ones_count_mod a x : ones_count a (x mod 2 ^ Z.of_nat a) = ones_count a x.
Proof.
  revert x. induction a as [|a IH]; intros x; [done|]. cbn [ones_count].
  rewrite Nat2Z.inj_succ, Z.pow_succ_r, Z.rem_mul_r by lia.
  rewrite (Z.mul_comm 2), Z_mod_plus_full, Zmod_mod, Z.div_add by done.
  rewrite (Z.div_small (x mod 2)), Z.add_0_l by (by apply Z.mod_pos_bound). by rewrite IH.
Qed.

Lemma ones_count_bytes l : Forall byte_ok l ->
  ones_count (8 * length l) (le_value l) = total (ones_count 8 <$> l).
Proof.
  induction 1 as [|d l Hd Hl IH]; [done|]. cbn [length fmap list_fmap total foldr]. fold (total (ones_count 8 <$> l)).
  replace (8 * S (length l))%nat with (8 + 8 * length l)%nat by lia.
  rewrite ones_count_app, <- IH, le_value_cons, <- (ones_count_mod 8). unfold byte_ok, word in Hd.
  change (2 ^ Z.of_nat 8) with 256. rewrite (Z.mul_comm 256), Z_mod_plus_full, Z.div_add by done.
  by rewrite Z.mod_small, (Z.div_small d) by lia.
Qed.

(** The three steps on one byte. *)
Definition pop_pairs (d : Z) : Z := d - Z.land (d >> 1) 0x55.
Definition pop_nibbles (d : Z) : Z := Z.land (pop_pairs d >> 2) 0x33 + Z.land (pop_pairs d >> 0) 0x33.

Lemma pop_byte d : byte_ok d -> word 8 (pop_pairs d) /\ small_nibbles (pop_nibbles d) /\
  pop_nibbles d mod 16 + pop_nibbles d / 16 = ones_count 8 d /\ 0 <= ones_count 8 d <= 8.
Proof.
  intros Hd. pose proof (byte_forall (fun d =>
    (0 <=? pop_pairs d) && (pop_pairs d <? 256) &&
    ((0 <=? pop_nibbles d) && (pop_nibbles d <? 256) && (pop_nibbles d mod 16 <=? 4) && (pop_nibbles d / 16 <=? 4)) &&
    (pop_nibbles d mod 16 + pop_nibbles d / 16 =? ones_count 8 d) &&
    (0 <=? ones_count 8 d) && (ones_count 8 d <=? 8)) ltac:(vm_compute; reflexivity) d Hd) as H.
  cbv beta in H. bools. unfold word, small_nibbles. lia.
Qed.

Lemma le_value_zip (f g h : Z -> Z) l : (forall d, byte_ok d -> f d = g d + h d) -> Forall byte_ok l ->
  le_value (f <$> l) = le_value (g <$> l) + le_value (h <$> l).
Proof.
  intros Hf. induction 1 as [|d l Hd Hl IH]; [done|]. cbn [fmap list_fmap]. rewrite !le_value_cons.
  change (list_fmap Z Z) with (@fmap list _ Z Z). rewrite IH, Hf by done. lia.
Qed.

Lemma le_value_half l : Forall (fun d => 0 <= d < 128) l -> 0 <= 2 * le_value l < 256 ^ Z.of_nat (length l).
Proof.
  induction 1 as [|d l Hd _ IH]; [done|]. cbn [length]. rewrite le_value_cons, Nat2Z.inj_succ, Z.pow_succ_r by lia. lia.
Qed.

Lemma total_le (f : Z -> Z) l : (forall d, byte_ok d -> f d <= 8) -> Forall byte_ok l ->
  total (f <$> l) <= 8 * Z.of_nat (length l).
Proof.
  intros Hf. induction 1 as [|d l Hd _ IH]; [done|]. cbn [fmap list_fmap total foldr length].
  specialize (Hf d Hd). unfold total in IH. change (list_fmap Z Z) with (@fmap list _ Z Z). lia.
Qed.

(** The portable code, at [n + 1] bytes. *)
Definition swar (n : nat) (wrap : Z -> Z) (x : Z) : Z :=
  let ones k := le_value (replicate (S n) k) in
  let x := wrap (x - Z.land (x >> 1) (ones 0x55)) in
  let x := wrap (Z.land (x >> 2) (ones 0x33) + Z.land x (ones 0x33)) in
  wrap (Z.land (wrap (x + (x >> 4))) (ones 0xF) * ones 1) >> (8 * Z.of_nat n).

(** A map that keeps bytes gives a list of bytes, whose value does not wrap. *)
Lemma map_bytes f l : (forall d, byte_ok d -> byte_ok (f d)) -> Forall byte_ok l ->
  Forall byte_ok (f <$> l) /\ le_value (f <$> l) mod 256 ^ Z.of_nat (length l) = le_value (f <$> l).
Proof.
  intros Hf Hl. assert (Hb : Forall byte_ok (f <$> l)) by (apply Forall_fmap; eapply Forall_impl; eauto).
  split; [done|]. apply Z.mod_small. rewrite <- (length_fmap f l). by apply le_value_range.
Qed.

Lemma swar_bytes n l : (n < 31)%nat -> Forall byte_ok l -> length l = S n ->
  swar n (fun z => z mod 256 ^ Z.of_nat (S n)) (le_value l) = total (ones_count 8 <$> l).
Proof.
  intros Hn31 Hl Hlen. unfold swar. cbv zeta. rewrite <- !Hlen.
  assert (Hpairs : le_value l - Z.land (le_value l >> 1) (le_value (replicate (length l) 0x55)) = le_value (pop_pairs <$> l)).
  { rewrite land_digits by done.
    assert (Hsum : forall d, byte_ok d -> id d = pop_pairs d + Z.land (d >> 1) 0x55)
      by (intros d _; unfold pop_pairs, id; lia).
    pose proof (le_value_zip id pop_pairs _ l Hsum Hl) as Hz. rewrite list_fmap_id in Hz. lia. }
  rewrite Hpairs. destruct (map_bytes pop_pairs l) as [Hb1 ->]; [apply pop_byte|done|].
  set (l1 := pop_pairs <$> l) in *. assert (Hlen1 : length l1 = length l) by apply length_fmap.
  assert (Hnib : Z.land (le_value l1 >> 2) (le_value (replicate (length l) 0x33)) +
    Z.land (le_value l1) (le_value (replicate (length l) 0x33)) = le_value (pop_nibbles <$> l)).
  { rewrite <- (Z.shiftr_0_r (le_value l1)) at 2. rewrite <- Hlen1, !land_digits by done.
    unfold l1. rewrite <- !list_fmap_compose. symmetry. by apply le_value_zip. }
  rewrite Hnib. destruct (map_bytes pop_nibbles l) as [Hb2 ->]; [|done|].
  { intros d Hd. destruct (pop_byte d Hd) as (_ & [? _] & _). done. }
  set (l2 := pop_nibbles <$> l) in *. assert (Hlen2 : length l2 = length l) by apply length_fmap.
  assert (Hsm : Forall small_nibbles l2).
  { apply Forall_fmap. eapply Forall_impl; [done|]. intros d Hd. apply pop_byte, Hd. }
  pose proof (le_value_range l2 Hb2) as [Hpos _].
  rewrite (Z.mod_small (le_value l2 + _)).
  2:{ assert (Hhalf : 0 <= 2 * le_value l2 < 256 ^ Z.of_nat (length l2)).
      { apply le_value_half. eapply Forall_impl; [exact Hsm|]. intros d (? & ? & ?). pose proof (Z.div_mod d 16 ltac:(done)). lia. }
      rewrite Hlen2 in Hhalf. rewrite Z.shiftr_div_pow2 by done.
      pose proof (Z.div_le_upper_bound (le_value l2) (2 ^ 4) (le_value l2) ltac:(done) ltac:(lia)).
      pose proof (Z.div_pos (le_value l2) (2 ^ 4) Hpos ltac:(done)). lia. }
  rewrite <- Hlen2, fold_nibbles by done. unfold l2. rewrite <- list_fmap_compose.
  assert (Hpop : ((fun d => d mod 16 + d / 16) ∘ pop_nibbles) <$> l = ones_count 8 <$> l).
  { apply list_fmap_ext. intros i d Hi.
    apply (Forall_lookup_1 _ _ _ _ Hl) in Hi. by destruct (pop_byte d Hi) as (_ & _ & ? & _). }
  rewrite Hpop, length_fmap, Z.shiftr_div_pow2 by lia.
  assert (Hb3 : Forall byte_ok (ones_count 8 <$> l)).
  { apply Forall_fmap. eapply Forall_impl; [done|]. intros d Hd. destruct (pop_byte d Hd) as (_ & _ & _ & ?).
    unfold compose, byte_ok, word. lia. }
  rewrite (Z.pow_mul_r 2 8) by lia. change (2 ^ 8) with 256.
  rewrite Hlen. apply ones_total; [done|by rewrite length_fmap|].
  pose proof (total_le (ones_count 8) l) as Ht. rewrite Hlen in Ht.
  assert (total (ones_count 8 <$> l) <= 8 * Z.of_nat (S n)); [|lia].
  apply Ht; [|done]. intros d Hd. apply pop_byte, Hd.
Qed.

Lemma swar_correct n x : (n < 31)%nat -> 0 <= x < 256 ^ Z.of_nat (S n) ->
  swar n (fun z => z mod 256 ^ Z.of_nat (S n)) x = ones_count (8 * S n) x.
Proof.
  intros Hn Hx. assert (Hxl : x = le_value (le_bytes (S n) x)) by (by rewrite le_value_bytes, Z.mod_small).
  rewrite Hxl at 1 2. rewrite <- (le_bytes_length (S n) x) at 2.
  rewrite ones_count_bytes, swar_bytes; [done|done|apply le_bytes_ok|apply le_bytes_length|apply le_bytes_ok].
Qed.

Lemma Popcount_correct w x : is_width w -> word w x -> Popcount w x = ones_count (Z.to_nat w) x.
Proof.
  intros Hw Hx. assert (Hnarrow : forall n k, 0 <= x < 2 ^ Z.of_nat n -> ones_count (n + k) x = ones_count n x).
  { intros n k Hn. rewrite ones_count_app, (Z.div_small x) by done.
    assert (Hz : forall j, ones_count j 0 = 0) by (induction j as [|j IH]; [done|exact IH]).
    rewrite Hz. lia. }
  assert (H32 : word 32 x -> Popcount32 x = ones_count 32 x) by (intros H; apply (swar_correct 3); [lia|done]).
  assert (H64 : word 64 x -> Popcount64 x = ones_count 64 x) by (intros H; apply (swar_correct 7); [lia|done]).
  unfold word in *. destruct Hw as [->|[->|[->| ->]]]; unfold Popcount; cbn [Z.leb Z.compare Pos.compare Pos.compare_cont].
  - rewrite H32 by lia. apply (Hnarrow 8%nat 24%nat). done.
  - rewrite H32 by lia. apply (Hnarrow 16%nat 16%nat). done.
  - by apply H32.
  - by apply H64.
Qed.

(** ** Counting zeros *)

Lemma clz_step_spec k x z : 0 < k -> 0 <= x < 2 ^ (2 * k) ->
  let '(x', z') := clz_step k (x, z) in
  0 <= x' < 2 ^ k /\ (x = 0 <-> x' = 0) /\ (x <> 0 -> z' - Z.log2 x' = z - Z.log2 x) /\ (x = 0 -> z' = z).
Proof.
  intros Hk Hx. unfold clz_step. rewrite Z.shiftr_div_pow2 by lia.
  assert (Hp : 0 < 2 ^ k) by (apply Z.pow_pos_nonneg; lia).
  assert (Hpp : 2 ^ (2 * k) = 2 ^ k * 2 ^ k) by (rewrite <- Z.pow_add_r by lia; f_equal; lia).
  pose proof (Z.div_mod x (2 ^ k) ltac:(lia)). pose proof (Z.mod_pos_bound x (2 ^ k) Hp).
  destruct (x / 2 ^ k =? 0) eqn:E; bools; cbn [negb].
  - split; [nia|]. by split.
  - assert (0 < x / 2 ^ k) by (pose proof (Z.div_pos x (2 ^ k)); lia).
    assert (Hx0 : 0 < x) by nia.
    split; [split; [lia|apply Z.div_lt_upper_bound; lia]|]. split; [lia|]. split; [|lia]. intros _.
    assert (k <= Z.log2 x) by (apply Z.log2_le_pow2; nia).
    rewrite <- Z.shiftr_div_pow2 by lia. rewrite Z.log2_shiftr by lia. lia.
Qed.

Lemma clz_table_spec x : 0 <= x < 16 ->
  at_index clz_table x = Ok (if x =? 0 then 4 else 3 - Z.log2 x).
Proof.
  intros Hx. assert (Hall : forallb (fun x => bool_decide (at_index clz_table x =
    Ok (if x =? 0 then 4 else 3 - Z.log2 x))) (seqZ 0 16) = true) by (vm_compute; reflexivity).
  rewrite forallb_forall in Hall. specialize (Hall x). rewrite bool_decide_eq_true in Hall.
  apply Hall, list_elem_of_In, elem_of_seqZ. lia.
Qed.

(** The reference: [w - 1 - log2]. *)
Definition clz (w x : Z) : Z := if x =? 0 then w else w - 1 - Z.log2 x.

Lemma CountLeadingZeroes32_eq x : word 32 x -> CountLeadingZeroes32 x = Ok (clz 32 x).
Proof.
  intros Hx. unfold CountLeadingZeroes32.
  pose proof (clz_step_spec 16 x 28 ltac:(done) Hx) as H1. destruct (clz_step 16 _) as [x1 z1].
  destruct H1 as (Hx1 & Hz1 & Hl1 & Hn1).
  pose proof (clz_step_spec 8 x1 z1 ltac:(done) Hx1) as H2. destruct (clz_step 8 _) as [x2 z2].
  destruct H2 as (Hx2 & Hz2 & Hl2 & Hn2).
  pose proof (clz_step_spec 4 x2 z2 ltac:(done) Hx2) as H3. destruct (clz_step 4 _) as [x3 z3].
  destruct H3 as (Hx3 & Hz3 & Hl3 & Hn3).
  rewrite clz_table_spec by done. cbn [rbind]. f_equal. unfold clz.
  destruct (x =? 0) eqn:E; bools.
  - rewrite (proj2 (Z.eqb_eq x3 0)) by tauto. rewrite Hn3, Hn2, Hn1 by tauto. done.
  - rewrite (proj2 (Z.eqb_neq x3 0)) by tauto. specialize (Hl1 E). specialize (Hl2 ltac:(tauto)).
    specialize (Hl3 ltac:(tauto)). lia.
Qed.

Lemma CountLeadingZeroes64_eq x : word 64 x -> CountLeadingZeroes64 x = Ok (clz 64 x).
Proof.
  intros Hx. unfold CountLeadingZeroes64.
  pose proof (clz_step_spec 32 x 60 ltac:(done) Hx) as H0. destruct (clz_step 32 _) as [x0 z0].
  destruct H0 as (Hx0 & Hz0 & Hl0 & Hn0).
  pose proof (clz_step_spec 16 x0 z0 ltac:(done) Hx0) as H1. destruct (clz_step 16 _) as [x1 z1].
  destruct H1 as (Hx1 & Hz1 & Hl1 & Hn1).
  pose proof (clz_step_spec 8 x1 z1 ltac:(done) Hx1) as H2. destruct (clz_step 8 _) as [x2 z2].
  destruct H2 as (Hx2 & Hz2 & Hl2 & Hn2).
  pose proof (clz_step_spec 4 x2 z2 ltac:(done) Hx2) as H3. destruct (clz_step 4 _) as [x3 z3].
  destruct H3 as (Hx3 & Hz3 & Hl3 & Hn3).
  rewrite clz_table_spec by done. cbn [rbind]. f_equal. unfold clz.
  destruct (x =? 0) eqn:E; bools.
  - rewrite (proj2 (Z.eqb_eq x3 0)) by tauto. rewrite Hn3, Hn2, Hn1, Hn0 by tauto. done.
  - rewrite (proj2 (Z.eqb_neq x3 0)) by tauto. specialize (Hl0 E). specialize (Hl1 ltac:(tauto)).
    specialize (Hl2 ltac:(tauto)). specialize (Hl3 ltac:(tauto)). lia.
Qed.

Lemma cast_id w v x : 0 <= w <= v -> word w x -> cast v x = x.
Proof. intros Hw Hx. apply Z.mod_small. by apply (word_mono w). Qed.

Lemma CountLeadingZeroes_eq w x : is_width w -> word w x -> CountLeadingZeroes w x = Ok (clz w x).
Proof.
  intros Hw Hx. unfold CountLeadingZeroes, CountLeadingZeroes16.
  destruct Hw as [->|[->|[->| ->]]]; cbn [Z.leb Z.compare Pos.compare Pos.compare_cont].
  1-3: rewrite (fun v Hv => cast_id _ v _ Hv Hx) by done.
  1-2: rewrite CountLeadingZeroes32_eq by (eapply word_mono; [|exact Hx]; done); cbn [rbind]; f_equal;
    unfold clz; destruct (x =? 0); lia.
  - rewrite CountLeadingZeroes32_eq by done. cbn [rbind]. f_equal. lia.
  - by apply CountLeadingZeroes64_eq.
Qed.

Lemma clz_spec w x : 0 < w -> word w x -> leading_zeros w x (clz w x).
Proof.
  intros Hw [H0 H1]. unfold leading_zeros, clz. destruct (x =? 0) eqn:E; bools.
  - subst. rewrite Z.sub_diag. split; [lia|]. split; [done|lia].
  - pose proof (Z.log2_spec x ltac:(lia)) as [Hl Hu]. pose proof (Z.log2_nonneg x).
    assert (Z.log2 x < w) by (apply Z.log2_lt_pow2; lia).
    replace (w - (w - 1 - Z.log2 x)) with (Z.succ (Z.log2 x)) by lia. split; [lia|]. split; [done|].
    intros _. by replace (Z.succ (Z.log2 x) - 1) with (Z.log2 x) by lia.
Qed.

(** A positive number is a power of two times an odd number. *)
Lemma odd_part x : 0 < x -> exists k q, 0 <= k /\ x = 2 ^ k * (2 * q + 1) /\ 0 <= q.
Proof.
  intros Hx. destruct x as [|p|]; try lia. clear Hx. induction p as [p IH|p IH|].
  - exists 0, (Z.pos p). lia.
  - destruct IH as (k & q & Hk & Heq & Hq). exists (Z.succ k), q. rewrite Z.pow_succ_r by lia. lia.
  - exists 0, 0. lia.
Qed.

(** The lowest one of a number. *)
Lemma land_opp k q : 0 <= k -> Z.land (2 ^ k * (2 * q + 1)) (- (2 ^ k * (2 * q + 1))) = 2 ^ k.
Proof.
  intros Hk. rewrite (Z.mul_comm (2 ^ k)), <- Z.mul_opp_l, <- !Z.shiftl_mul_pow2 by done.
  rewrite <- Z.shiftl_land. replace (- (2 * q + 1)) with (Z.lnot (2 * q)) by (unfold Z.lnot; lia).
  assert (Hone : Z.land (2 * q + 1) (Z.lnot (2 * q)) = 1).
  { apply Z.bits_inj'. intros i Hi. rewrite Z.land_spec, Z.lnot_spec by done.
    destruct (decide (i = 0)) as [->|]; [by rewrite Z.testbit_odd_0, Z.testbit_even_0|].
    replace i with (Z.succ (i - 1)) by lia. rewrite Z.testbit_odd_succ, Z.testbit_even_succ by lia.
    rewrite andb_negb_r. change 1 with (2 * 0 + 1). by rewrite Z.testbit_odd_succ, Z.bits_0 by lia. }
  rewrite Hone. rewrite Z.shiftl_mul_pow2 by done. lia.
Qed.

(** [x & (~x + 1)] on words. *)
Lemma lowest_one w x k q : 0 <= k -> x = 2 ^ k * (2 * q + 1) -> 0 < w -> word w x ->
  k < w /\ Z.land x (((Z.lnot x) mod 2 ^ w + 1) mod 2 ^ w) = 2 ^ k.
Proof.
  intros Hk Heq Hw Hx. assert (Hpk : 0 < 2 ^ k) by (apply Z.pow_pos_nonneg; lia).
  destruct (decide (x = 0)); [assert (2 * q + 1 = 0) by nia; lia|].
  assert (Hkw : k < w).
  { apply (Z.pow_lt_mono_r_iff 2); [done|lia|]. destruct Hx. assert (0 < 2 * q + 1) by nia. nia. }
  split; [done|]. rewrite Zplus_mod_idemp_l. replace (Z.lnot x + 1) with (- x) by (unfold Z.lnot; lia).
  rewrite <- Z.land_ones, Z.land_assoc by lia. rewrite Heq, land_opp, Z.land_ones by lia.
  apply Z.mod_small. split; [lia|]. apply Z.pow_lt_mono_r; lia.
Qed.

Lemma ctz_powers :
  forallb (fun k =>
    (63 + ctz_step (2 ^ k) 0x00000000FFFFFFFF 32 0 + ctz_step (2 ^ k) 0x0000FFFF0000FFFF 16 0 +
     ctz_step (2 ^ k) 0x00FF00FF00FF00FF 8 0 + ctz_step (2 ^ k) 0x0F0F0F0F0F0F0F0F 4 0 +
     ctz_step (2 ^ k) 0x3333333333333333 2 0 + ctz_step (2 ^ k) 0x5555555555555555 1 0 =? k)) (seqZ 0 64) &&
  forallb (fun k =>
    (31 + ctz_step (2 ^ k) 0x0000FFFF 16 0 + ctz_step (2 ^ k) 0x00FF00FF 8 0 + ctz_step (2 ^ k) 0x0F0F0F0F 4 0 +
     ctz_step (2 ^ k) 0x33333333 2 0 + ctz_step (2 ^ k) 0x55555555 1 0 =? k)) (seqZ 0 32) = true.
Proof. vm_compute. reflexivity. Qed.

Lemma ctz_step_add x mask k c : ctz_step x mask k c = c + ctz_step x mask k 0.
Proof. unfold ctz_step. destruct (negb _); lia. Qed.

Lemma CountTrailingZeroes_nonzero x : 0 < x ->
  (word 32 x -> trailing_zeros 32 x (CountTrailingZeroesNonzero32 x)) /\
  (word 64 x -> trailing_zeros 64 x (CountTrailingZeroesNonzero64 x)).
Proof.
  intros Hx. destruct (odd_part x Hx) as (k & q & Hk & Heq & Hq).
  pose proof ctz_powers as Hp. apply andb_true_iff in Hp as [H64 H32]. rewrite forallb_forall in H64, H32.
  assert (Hspec : forall w, k < w -> trailing_zeros w x k).
  { intros w Hw. unfold trailing_zeros. rewrite (proj2 (Z.eqb_neq x 0)) by lia. split; [lia|]. by exists q. }
  specialize (H32 k). specialize (H64 k). rewrite Z.eqb_eq in H32, H64.
  split; intros Hw; apply (lowest_one _ x k q) in Hw as [Hkw Hlow]; try done.
  - unfold CountTrailingZeroesNonzero32. cbv zeta. unfold u32. rewrite Hlow.
    rewrite (ctz_step_add _ 0x55555555), (ctz_step_add _ 0x33333333), (ctz_step_add _ 0x0F0F0F0F),
      (ctz_step_add _ 0x00FF00FF), (ctz_step_add _ 0x0000FFFF), H32; [by apply Hspec|].
    apply list_elem_of_In, elem_of_seqZ. lia.
  - unfold CountTrailingZeroesNonzero64. cbv zeta. unfold u64. rewrite Hlow.
    rewrite (ctz_step_add _ 0x5555555555555555), (ctz_step_add _ 0x3333333333333333), (ctz_step_add _ 0x0F0F0F0F0F0F0F0F),
      (ctz_step_add _ 0x00FF00FF00FF00FF), (ctz_step_add _ 0x0000FFFF0000FFFF),
      (ctz_step_add _ 0x00000000FFFFFFFF), H64; [by apply Hspec|].
    apply list_elem_of_In, elem_of_seqZ. lia.
Qed.

Lemma CountTrailingZeroes_spec w x : is_width w -> word w x -> trailing_zeros w x (CountTrailingZeroes w x).
Proof.
  intros Hw Hx. unfold CountTrailingZeroes, CountTrailingZeroesNonzero16.
  destruct (x =? 0) eqn:E; bools; [subst; done|]. assert (Hpos : 0 < x) by (unfold word in Hx; lia).
  destruct (CountTrailingZeroes_nonzero x Hpos) as [H32 H64].
  assert (Hnarrow : word 32 x -> 0 <= w <= 32 -> trailing_zeros w x (CountTrailingZeroesNonzero32 x)).
  { intros Hx32 Hw32. specialize (H32 Hx32). unfold trailing_zeros in *.
    rewrite (proj2 (Z.eqb_neq x 0)) in * by done. destruct H32 as [Hr (q & Hq)]. split; [|by exists q].
    split; [lia|]. apply (Z.pow_lt_mono_r_iff 2); [done|lia|].
    assert (0 < 2 ^ CountTrailingZeroesNonzero32 x) by (apply Z.pow_pos_nonneg; lia).
    assert (0 < 2 * q + 1) by nia. destruct Hx. nia. }
  destruct Hw as [->|[->|[->| ->]]]; cbn [Z.leb Z.compare Pos.compare Pos.compare_cont].
  1-3: rewrite (fun v Hv => cast_id _ v _ Hv Hx) by done; apply Hnarrow; [|done]; eapply word_mono; [|exact Hx]; done.
  by apply H64.
Qed.

(** ** Rotations *)

(** [s & (w - 1)] for a power of two [w]. *)
Lemma land_width w s : is_width w -> Z.land s (w - 1) = s mod w.
Proof.
  intros Hw. assert (Hk : exists k, 0 <= k /\ w = 2 ^ k).
  { destruct Hw as [->|[->|[->| ->]]]; [by exists 3|by exists 4|by exists 5|by exists 6]. }
  destruct Hk as (k & Hk & ->). rewrite <- Z.land_ones by done. f_equal. rewrite Z.ones_equiv. lia.
Qed.

Lemma testbit_cast w x i : 0 <= i < w -> Z.testbit (cast w x) i = Z.testbit x i.
Proof. intros Hi. apply Z.mod_pow2_bits_low. lia. Qed.

Lemma RotateRight_spec w x s i : is_width w -> word w x -> 0 <= i < w ->
  Z.testbit (RotateRight w x s) i = Z.testbit x ((i + s) mod w).
Proof.
  intros Hw Hx Hi. unfold RotateRight. rewrite !land_width by done.
  assert (Hbig : forall j, w <= j -> Z.testbit x j = false) by (apply word_bits; [lia|done]).
  assert (Hr : (i + s) mod w = (i + s mod w) mod w) by (by rewrite Zplus_mod_idemp_r).
  rewrite Hr. pose proof (Z.mod_pos_bound s w ltac:(lia)) as Hs. set (r := s mod w) in *.
  assert (Hneg : (- s) mod w = if r =? 0 then 0 else w - r).
  { destruct (r =? 0) eqn:E; bools; [apply Z.mod_opp_l_z; [lia|done]|apply Z.mod_opp_l_nz; [lia|done]]. }
  rewrite Z.lor_spec, !testbit_cast, Z.shiftr_spec, Z.shiftl_spec by lia. rewrite Hneg.
  destruct (r =? 0) eqn:E; bools.
  - rewrite E, Z.add_0_r, Z.sub_0_r, (Z.mod_small i) by lia. apply orb_diag.
  - destruct (Z.lt_ge_cases (i + r) w).
    + rewrite (Z.mod_small (i + r)) by lia. rewrite (Z.testbit_neg_r x (i - _)) by lia. apply orb_false_r.
    + rewrite (Hbig (i + r)) by lia. cbn [orb]. f_equal.
      rewrite <- (Z_mod_plus_full _ (-1)), Z.mod_small; lia.
Qed.

Lemma RotateLeft_right w x s : RotateLeft w x s = RotateRight w x (- s).
Proof. unfold RotateLeft, RotateRight. by rewrite Z.opp_involutive, Z.lor_comm. Qed.

Lemma RotateRight_word w x s : is_width w -> word w (RotateRight w x s).
Proof.
  intros Hw. assert (0 < 2 ^ w) by (apply Z.pow_pos_nonneg; destruct Hw; lia).
  apply word_lor; [destruct Hw; lia| |]; by apply Z.mod_pos_bound.
Qed.

(** ** Powers of two *)

Lemma land_pred k q : 0 <= k -> let x := 2 ^ k * (2 * q + 1) in Z.land x (x - 1) = x - 2 ^ k.
Proof.
  intros Hk x. pose proof (land_opp k q Hk) as Hl. fold x in Hl.
  replace (- x) with (Z.lnot (x - 1)) in Hl by (unfold Z.lnot; lia). rewrite <- Z.ldiff_land in Hl.
  assert (Hs : x - Z.land x (x - 1) = Z.ldiff x (Z.land x (x - 1))).
  { apply Z.sub_nocarry_ldiff. apply Z.bits_inj'. intros i Hi.
    rewrite Z.ldiff_spec, Z.land_spec, Z.bits_0. by destruct (Z.testbit x i), (Z.testbit (x - 1) i). }
  assert (Hd : Z.ldiff x (Z.land x (x - 1)) = Z.ldiff x (x - 1)).
  { apply Z.bits_inj'. intros i Hi. rewrite !Z.ldiff_spec, Z.land_spec.
    by destruct (Z.testbit x i), (Z.testbit (x - 1) i). }
  lia.
Qed.

Lemma has_single_bit_spec w x : is_width w -> word w x ->
  has_single_bit w x = true <-> exists k, 0 <= k /\ x = 2 ^ k.
Proof.
  intros Hw Hx. unfold has_single_bit. split.
  - intros H. apply andb_true_iff in H as [H0 H1]. bools.
    destruct (odd_part x) as (k & q & Hk & Heq & Hq); [unfold word in Hx; lia|].
    rewrite (cast_id w) in H1; [|destruct Hw; lia|unfold word in *; lia].
    rewrite Heq in H1. rewrite land_pred in H1 by done. exists k. lia.
  - intros (k & Hk & Heq). assert (Hpos : 0 < 2 ^ k) by (apply Z.pow_pos_nonneg; lia).
    rewrite (proj2 (Z.eqb_neq x 0)) by lia. cbn [negb andb]. apply Z.eqb_eq.
    rewrite (cast_id w); [|destruct Hw; lia|unfold word in *; lia].
    replace x with (2 ^ k * (2 * 0 + 1)) by lia. rewrite land_pred by done. lia.
Qed.

Lemma bit_width_eq w x : is_width w -> word w x ->
  bit_width w x = Ok (if x =? 0 then 0 else Z.log2 x + 1).
Proof.
  intros Hw Hx. unfold bit_width, countl_zero. rewrite CountLeadingZeroes_eq by done. cbn [rbind].
  f_equal. unfold clz. destruct (x =? 0); lia.
Qed.

Lemma log2_word w x : 0 < w -> word w x -> x <> 0 -> Z.log2 x < w.
Proof. intros Hw [H0 H1] Hx. apply Z.log2_lt_pow2; lia. Qed.

Lemma pow_word w n : 0 <= n < w -> word w (2 ^ n).
Proof.
  intros Hn. split; [apply Z.pow_nonneg; lia|]. apply Z.pow_lt_mono_r; lia.
Qed.

Lemma bit_floor_eq w x : is_width w -> word w x ->
  bit_floor w x = Ok (if x =? 0 then 0 else 2 ^ Z.log2 x).
Proof.
  intros Hw Hx. unfold bit_floor. destruct (x =? 0) eqn:E; [done|]. rewrite bit_width_eq by done. rewrite E.
  bools. cbn [rbind]. f_equal. rewrite Z.shiftl_mul_pow2 by (pose proof (Z.log2_nonneg x); lia).
  replace (Z.log2 x + 1 - 1) with (Z.log2 x) by lia. rewrite Z.mul_1_l. apply Z.mod_small.
  apply pow_word. split; [apply Z.log2_nonneg|]. apply log2_word; [destruct Hw; lia|done|done].
Qed.

(** [n] is below the width for a result that the type can hold. *)
Lemma BitCeilPromotionHelper_eq w n : is_width w -> 0 <= n < w ->
  BitCeilPromotionHelper w (cast w n) (if 32 <=? w then 0 else 32 - w) = 2 ^ n.
Proof.
  intros Hw Hn. unfold BitCeilPromotionHelper.
  assert (Hnw : word w n).
  { split; [lia|]. apply (Z.lt_trans _ w); [lia|]. apply Z.pow_gt_lin_r; lia. }
  rewrite (cast_id w w n) by (lia || done). set (p := if 32 <=? w then 0 else 32 - w).
  assert (Hp : 0 <= p /\ w + p = Z.max w 32) by (subst p; destruct (32 <=? w) eqn:E; bools; lia).
  rewrite Z.shiftl_mul_pow2, Z.mul_1_l by lia.
  rewrite (cast_id (Z.max w 32) _ (2 ^ (n + p))) by (try apply pow_word; lia).
  rewrite Z.shiftr_div_pow2, Z.pow_add_r, Z.div_mul by (try apply Z.pow_nonzero; lia).
  apply (cast_id w); [lia|]. by apply pow_word.
Qed.

Lemma bit_ceil_eq w x : is_width w -> 0 <= x <= 2 ^ (w - 1) ->
  exists k, bit_ceil w x = Ok (2 ^ k) /\ 0 <= k < w /\ x <= 2 ^ k /\
    forall j, 0 <= j -> x <= 2 ^ j -> k <= j.
Proof.
  intros Hw Hx. assert (Hw0 : 0 < w) by (destruct Hw; lia).
  assert (Hxw : word w x).
  { split; [lia|]. apply (Z.le_lt_trans _ (2 ^ (w - 1))); [lia|]. apply Z.pow_lt_mono_r; lia. }
  unfold bit_ceil. destruct (has_single_bit w x) eqn:E.
  - apply has_single_bit_spec in E as (k & Hk & ->); try done. rewrite bit_width_eq by done.
    assert (0 < 2 ^ k) by (apply Z.pow_pos_nonneg; lia). rewrite (proj2 (Z.eqb_neq (2 ^ k) 0)) by lia.
    rewrite Z.log2_pow2 by done. cbn [rbind]. exists k.
    assert (Hkw : k <= w - 1) by (apply (Z.pow_le_mono_r_iff 2); lia).
    split; [|split; [lia|split; [done|]]].
    + f_equal. replace (k + 1 - 1) with k by lia. rewrite Z.shiftl_mul_pow2, Z.mul_1_l by done.
      apply (cast_id w); [lia|]. apply pow_word. lia.
    + intros j Hj Hle. apply (Z.pow_le_mono_r_iff 2); lia.
  - unfold BitCeilNonPowerOf2. rewrite CountLeadingZeroes_eq by done. cbn [rbind].
    set (n := w - clz w x). assert (Hn : n = if x =? 0 then 0 else Z.log2 x + 1)
      by (subst n; unfold clz; destruct (x =? 0); lia).
    destruct (x =? 0) eqn:E0; bools.
    + subst x. exists 0. rewrite Hn, BitCeilPromotionHelper_eq by (done || lia). split; [done|]. split; [lia|].
      split; [done|]. intros; lia.
    + pose proof (Z.log2_spec x ltac:(lia)) as [Hl Hu]. pose proof (Z.log2_nonneg x).
      assert (Hne : x <> 2 ^ Z.log2 x).
      { intros Heq. assert (has_single_bit w x = true); [|congruence].
        apply has_single_bit_spec; [done|done|]. by exists (Z.log2 x). }
      assert (Hlw : Z.log2 x < w - 1) by (apply (Z.pow_lt_mono_r_iff 2); lia).
      exists (Z.log2 x + 1). rewrite Hn, BitCeilPromotionHelper_eq by (done || lia).
      split; [done|]. split; [lia|]. split; [rewrite Z.add_1_r; lia|]. intros j Hj Hle.
      assert (Z.log2 x < j); [|lia]. apply (Z.pow_lt_mono_r_iff 2); lia.
Qed.

Lemma cast_lnot w x : 0 < w -> word w x -> cast w (Z.lnot x) = 2 ^ w - 1 - x.
Proof.
  intros Hw Hx. unfold cast, Z.lnot, word in *. rewrite <- (Z_mod_plus_full _ 1), Z.mod_small; lia.
Qed.

(** the bit functions, in their portable branches, against what the
    standard says of them, at 8, 16, 32 and 64 bits: [popcount] counts the
    ones; [countl_zero] and [countr_zero] never index outside their table and
    count the zeros at either end, the width for zero; the [_one] functions
    count the zeros of the complement; the rotations move bit [i + s] (or
    [i - s]), for any [s] of either sign; [has_single_bit] recognises the
    powers of two, [bit_floor] and [bit_ceil] are the nearest powers of two,
    [bit_ceil] where the type can hold it. *)
Theorem bits_correct w x : is_width w -> word w x ->
  popcount w x = ones_count (Z.to_nat w) x /\
  (exists n, countl_zero w x = Ok n /\ leading_zeros w x n) /\
  (exists n, countl_one w x = Ok n /\ leading_zeros w (2 ^ w - 1 - x) n) /\
  trailing_zeros w x (countr_zero w x) /\
  trailing_zeros w (2 ^ w - 1 - x) (countr_one w x) /\
  (forall s i, 0 <= i < w -> Z.testbit (rotr w x s) i = Z.testbit x ((i + s) mod w) /\
                             Z.testbit (rotl w x s) i = Z.testbit x ((i - s) mod w)) /\
  (forall s, word w (rotr w x s) /\ word w (rotl w x s)) /\
  (has_single_bit w x = true <-> exists k, 0 <= k /\ x = 2 ^ k) /\
  bit_floor w x = Ok (if x =? 0 then 0 else 2 ^ Z.log2 x) /\
  (x <= 2 ^ (w - 1) -> exists k, bit_ceil w x = Ok (2 ^ k) /\ 0 <= k < w /\ x <= 2 ^ k /\
     forall j, 0 <= j -> x <= 2 ^ j -> k <= j).
Proof.
  intros Hw Hx. assert (Hw0 : 0 < w) by (destruct Hw; lia).
  assert (Hn : word w (2 ^ w - 1 - x)) by (unfold word in *; lia).
  unfold countl_one, countr_one. rewrite cast_lnot by done. unfold countl_zero, countr_zero, rotl.
  split; [by apply Popcount_correct|]. split; [eexists; split; [by apply CountLeadingZeroes_eq|by apply clz_spec]|].
  split; [eexists; split; [by apply CountLeadingZeroes_eq|by apply clz_spec]|].
  split; [by apply CountTrailingZeroes_spec|]. split; [by apply CountTrailingZeroes_spec|].
  split; [intros s i Hi; rewrite RotateLeft_right; split; by apply RotateRight_spec|].
  split; [intros s; rewrite RotateLeft_right; split; by apply RotateRight_word|].
  split; [by apply has_single_bit_spec|]. split; [by apply bit_floor_eq|].
  intros Hle. apply bit_ceil_eq; [done|]. destruct Hx. lia.
Qed.

Theorem bits_correct_witness : popcount 64 0xF0F0 = 8 /\ bit_floor 64 0xF0F0 = Ok 0x8000.
Proof.
  assert (Hw : is_width 64) by (right; right; right; reflexivity).
  assert (Hx : word 64 0xF0F0) by (split; [intros Hc; discriminate Hc|reflexivity]).
  destruct (bits_correct 64 0xF0F0 Hw Hx) as (Hp & _ & _ & _ & _ & _ & _ & _ & Hf & _).
  split; [exact Hp|exact Hf].
Defined.
