(* ===== verification/City.v ===== *)
(** * City: the CityHash functions (src/abseil-cpp/absl/hash/internal/city.cc)

    Translated for a little endian machine. [s] is an offset in the memory
    [m]; the two loops run on a counter, as in the source. The theorem at the
    end states that the functions read their buffer and nothing else. *)

From S2P Require Import Prelude.
From S2P Require Import Word.

Section city.
Context (m : list Z).

Definition Fetch64 (p : Z) : result Z := UnalignedLoad64 m p.
Definition Fetch32 (p : Z) : result Z := UnalignedLoad32 m p.

Definition k0 : Z := 0xc3a5c85c97cb3127.
Definition k1 : Z := 0xb492b66fbe98f273.
Definition k2 : Z := 0x9ae16a3b2f90404f.
Definition c1 : Z := 0xcc9e2d51.
Definition c2 : Z := 0x1b873593.

Definition fmix (h : Z) : Z :=
  let h := h ^^ (h >> 16) in
  let h := h *32 0x85ebca6b in
  let h := h ^^ (h >> 13) in
  let h := h *32 0xc2b2ae35 in
  h ^^ (h >> 16).

Definition Rotate32 (val shift : Z) : Z :=
  if shift =? 0 then val else Z.lor (val >> shift) (val <<32 (32 - shift)).

Definition Mur (a h : Z) : Z :=
  let a := a *32 c1 in
  let a := Rotate32 a 17 in
  let a := a *32 c2 in
  let h := h ^^ a in
  let h := Rotate32 h 19 in
  h *32 5 +32 0xe6546b64.

Definition Hash32Len13to24 (s len : Z) : result Z :=
  let* a := Fetch32 (s - 4 + (len >> 1)) in
  let* b := Fetch32 (s + 4) in
  let* c := Fetch32 (s + len - 8) in
  let* d := Fetch32 (s + (len >> 1)) in
  let* e := Fetch32 s in
  let* f := Fetch32 (s + len - 4) in
  let h := u32 len in
  Ok (fmix (Mur f (Mur e (Mur d (Mur c (Mur b (Mur a h))))))).

(** The loop over the bytes, as [signed char]s. *)
Definition len0to4_step (s : Z) (r : Z * Z) (i : Z) : result (Z * Z) :=
  let '(b, c) := r in
  let* ch := load8 m (s + i) in
  let v := i8 ch in
  let b := b *32 c1 +32 u32 v in
  Ok (b, c ^^ b).

Definition Hash32Len0to4 (s len : Z) : result Z :=
  let* r := foldM (len0to4_step s) (0, 9) (seqZ 0 len) in
  let '(b, c) := r in
  Ok (fmix (Mur b (Mur (u32 len) c))).

Definition Hash32Len5to12 (s len : Z) : result Z :=
  let a := u32 len in let b := a *32 5 in let c := 9 in let d := b in
  let* v := Fetch32 s in
  let a := a +32 v in
  let* v := Fetch32 (s + len - 4) in
  let b := b +32 v in
  let* v := Fetch32 (s + Z.land (len >> 1) 4) in
  let c := c +32 v in
  Ok (fmix (Mur c (Mur b (Mur a d)))).

(** One round of the loop of [CityHash32], on [(f, g, h)]. *)
Definition city32_round (s : Z) (r : Z * Z * Z) : result (Z * Z * Z) :=
  let '(f, g, h) := r in
  let* v := Fetch32 s in
  let b0 := Rotate32 (v *32 c1) 17 *32 c2 in
  let* b1 := Fetch32 (s + 4) in
  let* v := Fetch32 (s + 8) in
  let b2 := Rotate32 (v *32 c1) 17 *32 c2 in
  let* v := Fetch32 (s + 12) in
  let b3 := Rotate32 (v *32 c1) 17 *32 c2 in
  let* b4 := Fetch32 (s + 16) in
  let h := h ^^ b0 in
  let h := Rotate32 h 18 in
  let h := h *32 5 +32 0xe6546b64 in
  let f := f +32 b1 in
  let f := Rotate32 f 19 in
  let f := f *32 c1 in
  let g := g +32 b2 in
  let g := Rotate32 g 18 in
  let g := g *32 5 +32 0xe6546b64 in
  let h := h ^^ (b3 +32 b1) in
  let h := Rotate32 h 19 in
  let h := h *32 5 +32 0xe6546b64 in
  let g := g ^^ b4 in
  let g := gbswap_32 g *32 5 in
  let h := h +32 (b4 *32 5) in
  let h := gbswap_32 h in
  let f := f +32 b0 in
  (* PERMUTE3(f, h, g) *)
  let '(f, h) := (h, f) in
  let '(f, g) := (g, f) in
  Ok (f, g, h).

(** [do ... while (--iters != 0)] *)
Fixpoint city32_loop (iters : nat) (s : Z) (r : Z * Z * Z) : result (Z * Z * Z) :=
  match iters with
  | O => Err OutOfFuel
  | S iters =>
      let* r := city32_round s r in
      match iters with O => Ok r | S _ => city32_loop iters (s + 20) r end
  end.

Definition CityHash32 (s len : Z) : result Z :=
  if len <=? 24 then
    if len <=? 12 then (if len <=? 4 then Hash32Len0to4 s len else Hash32Len5to12 s len)
    else Hash32Len13to24 s len
  else
  let h := u32 len in let g := c1 *32 h in let f := g in
  let* v := Fetch32 (s + len - 4) in
  let a0 := Rotate32 (v *32 c1) 17 *32 c2 in
  let* v := Fetch32 (s + len - 8) in
  let a1 := Rotate32 (v *32 c1) 17 *32 c2 in
  let* v := Fetch32 (s + len - 16) in
  let a2 := Rotate32 (v *32 c1) 17 *32 c2 in
  let* v := Fetch32 (s + len - 12) in
  let a3 := Rotate32 (v *32 c1) 17 *32 c2 in
  let* v := Fetch32 (s + len - 20) in
  let a4 := Rotate32 (v *32 c1) 17 *32 c2 in
  let h := h ^^ a0 in
  let h := Rotate32 h 19 in
  let h := h *32 5 +32 0xe6546b64 in
  let h := h ^^ a2 in
  let h := Rotate32 h 19 in
  let h := h *32 5 +32 0xe6546b64 in
  let g := g ^^ a1 in
  let g := Rotate32 g 19 in
  let g := g *32 5 +32 0xe6546b64 in
  let g := g ^^ a3 in
  let g := Rotate32 g 19 in
  let g := g *32 5 +32 0xe6546b64 in
  let f := f +32 a4 in
  let f := Rotate32 f 19 in
  let f := f *32 5 +32 0xe6546b64 in
  let iters := (len - 1) / 20 in
  let* r := city32_loop (Z.to_nat iters) s (f, g, h) in
  let '(f, g, h) := r in
  let g := Rotate32 g 11 *32 c1 in
  let g := Rotate32 g 17 *32 c1 in
  let f := Rotate32 f 11 *32 c1 in
  let f := Rotate32 f 17 *32 c1 in
  let h := Rotate32 (h +32 g) 19 in
  let h := h *32 5 +32 0xe6546b64 in
  let h := Rotate32 h 17 *32 c1 in
  let h := Rotate32 (h +32 f) 19 in
  let h := h *32 5 +32 0xe6546b64 in
  let h := Rotate32 h 17 *32 c1 in
  Ok h.

Definition Rotate (val shift : Z) : Z :=
  if shift =? 0 then val else Z.lor (val >> shift) (val <<64 (64 - shift)).

Definition ShiftMix (val : Z) : Z := val ^^ (val >> 47).

Definition HashLen16 (u v mul : Z) : Z :=
  let a := (u ^^ v) *64 mul in
  let a := a ^^ (a >> 47) in
  let b := (v ^^ a) *64 mul in
  let b := b ^^ (b >> 47) in
  b *64 mul.

(** The overload without [mul]. *)
Definition HashLen16_kMul (u v : Z) : Z :=
  let kMul := 0x9ddfea08eb382d69 in HashLen16 u v kMul.

Definition HashLen0to16 (s len : Z) : result Z :=
  if 8 <=? len then
    let mul := k2 +64 len *64 2 in
    let* v := Fetch64 s in
    let a := v +64 k2 in
    let* b := Fetch64 (s + len - 8) in
    let c := Rotate b 37 *64 mul +64 a in
    let d := (Rotate a 25 +64 b) *64 mul in
    Ok (HashLen16 c d mul)
  else if 4 <=? len then
    let mul := k2 +64 len *64 2 in
    let* a := Fetch32 s in
    let* v := Fetch32 (s + len - 4) in
    Ok (HashLen16 (len +64 (a <<64 3)) v mul)
  else if 0 <? len then
    let* a := load8 m s in
    let* b := load8 m (s + (len >> 1)) in
    let* c := load8 m (s + (len - 1)) in
    let y := a +32 (b <<32 8) in
    let z := u32 len +32 (c <<32 2) in
    Ok (ShiftMix ((y *64 k2) ^^ (z *64 k0)) *64 k2)
  else Ok k2.

Definition HashLen17to32 (s len : Z) : result Z :=
  let mul := k2 +64 len *64 2 in
  let* v := Fetch64 s in
  let a := v *64 k1 in
  let* b := Fetch64 (s + 8) in
  let* v := Fetch64 (s + len - 8) in
  let c := v *64 mul in
  let* v := Fetch64 (s + len - 16) in
  let d := v *64 k2 in
  Ok (HashLen16 (Rotate (a +64 b) 43 +64 Rotate c 30 +64 d) (a +64 Rotate (b +64 k2) 18 +64 c) mul).

(** The overload on words. *)
Definition WeakHashLen32WithSeeds_words (w x y z a b : Z) : Z * Z :=
  let a := a +64 w in
  let b := Rotate (b +64 a +64 z) 21 in
  let c := a in
  let a := a +64 x in
  let a := a +64 y in
  let b := b +64 Rotate a 44 in
  (a +64 z, b +64 c).

Definition WeakHashLen32WithSeeds (s a b : Z) : result (Z * Z) :=
  let* w := Fetch64 s in
  let* x := Fetch64 (s + 8) in
  let* y := Fetch64 (s + 16) in
  let* z := Fetch64 (s + 24) in
  Ok (WeakHashLen32WithSeeds_words w x y z a b).

Definition HashLen33to64 (s len : Z) : result Z :=
  let mul := k2 +64 len *64 2 in
  let* v := Fetch64 s in
  let a := v *64 k2 in
  let* b := Fetch64 (s + 8) in
  let* c := Fetch64 (s + len - 24) in
  let* d := Fetch64 (s + len - 32) in
  let* v := Fetch64 (s + 16) in
  let e := v *64 k2 in
  let* v := Fetch64 (s + 24) in
  let f := v *64 9 in
  let* g := Fetch64 (s + len - 8) in
  let* v := Fetch64 (s + len - 16) in
  let h := v *64 mul in
  let u := Rotate (a +64 g) 43 +64 (Rotate b 30 +64 c) *64 9 in
  let v := ((a +64 g) ^^ d) +64 f +64 1 in
  let w := gbswap_64 ((u +64 v) *64 mul) +64 h in
  let x := Rotate (e +64 f) 42 +64 c in
  let y := (gbswap_64 ((v +64 w) *64 mul) +64 g) *64 mul in
  let z := e +64 f +64 c in
  let a := gbswap_64 ((x +64 z) *64 mul +64 y) +64 b in
  let b := ShiftMix ((z +64 a) *64 mul +64 d +64 h) *64 mul in
  Ok (b +64 x).

(** The state [v], [w], [x], [y], [z] of the loop of [CityHash64]. *)
Record city64_state := mkCity64 { st_v : Z * Z; st_w : Z * Z; st_x : Z; st_y : Z; st_z : Z }.

Definition city64_round (s : Z) (st : city64_state) : result city64_state :=
  let '(mkCity64 v w x y z) := st in
  let* f := Fetch64 (s + 8) in
  let x := Rotate (x +64 y +64 fst v +64 f) 37 *64 k1 in
  let* f := Fetch64 (s + 48) in
  let y := Rotate (y +64 snd v +64 f) 42 *64 k1 in
  let x := x ^^ snd w in
  let* f := Fetch64 (s + 40) in
  let y := y +64 (fst v +64 f) in
  let z := Rotate (z +64 fst w) 33 *64 k1 in
  let* v := WeakHashLen32WithSeeds s (snd v *64 k1) (x +64 fst w) in
  let* f := Fetch64 (s + 16) in
  let* w := WeakHashLen32WithSeeds (s + 32) (z +64 snd w) (y +64 f) in
  let '(z, x) := (x, z) in
  Ok (mkCity64 v w x y z).

(** [do ... while (len != 0)]; the rounds are counted by [fuel]. *)
Fixpoint city64_loop (fuel : nat) (s len : Z) (st : city64_state) : result city64_state :=
  match fuel with
  | O => Err OutOfFuel
  | S fuel =>
      let* st := city64_round s st in
      let len := len -64 64 in
      if len =? 0 then Ok st else city64_loop fuel (s + 64) len st
  end.

Definition CityHash64 (s len : Z) : result Z :=
  if len <=? 32 then
    if len <=? 16 then HashLen0to16 s len else HashLen17to32 s len
  else if len <=? 64 then HashLen33to64 s len
  else
  let* x := Fetch64 (s + len - 40) in
  let* y := Fetch64 (s + len - 16) in
  let* y' := Fetch64 (s + len - 56) in
  let y := y +64 y' in
  let* z := Fetch64 (s + len - 48) in
  let* z' := Fetch64 (s + len - 24) in
  let z := HashLen16_kMul (z +64 len) z' in
  let* v := WeakHashLen32WithSeeds (s + len - 64) len z in
  let* w := WeakHashLen32WithSeeds (s + len - 32) (y +64 k1) x in
  let* f := Fetch64 s in
  let x := x *64 k1 +64 f in
  let len := Z.land (len - 1) (Z.lnot 63) in
  let* st := city64_loop (Z.to_nat (len / 64)) s len (mkCity64 v w x y z) in
  let '(mkCity64 v w x y z) := st in
  Ok (HashLen16_kMul (HashLen16_kMul (fst v) (fst w) +64 ShiftMix y *64 k1 +64 z)
                     (HashLen16_kMul (snd v) (snd w) +64 x)).

Definition CityHash64WithSeeds (s len seed0 seed1 : Z) : result Z :=
  let* h := CityHash64 s len in
  Ok (HashLen16_kMul (h -64 seed0) seed1).

Definition CityHash64WithSeed (s len seed : Z) : result Z := CityHash64WithSeeds s len k2 seed.
End city.

(** ** Reading inside the buffer *)

Section inside.
Context (m m' : list Z) (s s' : Z) (data : list Z).
Context (Hm : holds m s data) (Hm' : holds m' s' data) (Hbytes : Forall byte_ok data).
Let len : Z := Z.of_nat (length data).

Ltac load :=
  first [eapply load64_agree | eapply load32_agree | eapply load8_agree];
  [exact Hm | exact Hm' | exact Hbytes | subst len; lia ..].
Ltac reads := repeat (eapply agree_bind; [load|intros ? ?]).
Ltac finish := apply agree_ok; first [done | by word_tac].

Lemma word_fmix h : word 32 (fmix h).
Proof using Type. unfold fmix. cbv zeta. by word_tac. Qed.

Lemma len0to4_agree ks (b c : Z) :
  (forall k, k ∈ ks -> 0 <= k < len) ->
  agree (fun _ => True) (foldM (len0to4_step m s) (b, c) ks) (foldM (len0to4_step m' s') (b, c) ks).
Proof using All.
  revert b c. induction ks as [|k ks IH]; intros b c Hks; [by apply agree_ok|].
  cbn [foldM]. unfold len0to4_step at 1 3. specialize (Hks k ltac:(by left)) as Hk.
  eapply (agree_bind (fun _ => True)); [reads; finish|]. intros [b1 c1] _. apply IH.
  intros k' ?. apply Hks. by right.
Qed.

Lemma Hash32Len0to4_agree : len <= 4 -> agree (word 32) (Hash32Len0to4 m s len) (Hash32Len0to4 m' s' len).
Proof using All.
  intros Hlen. unfold Hash32Len0to4. eapply agree_bind.
  - apply len0to4_agree. intros k Hk%elem_of_seqZ. lia.
  - intros [b c] _. apply agree_ok, word_fmix.
Qed.

Lemma Hash32Len5to12_agree : 4 < len <= 12 -> agree (word 32) (Hash32Len5to12 m s len) (Hash32Len5to12 m' s' len).
Proof using All.
  intros Hlen. unfold Hash32Len5to12. cbv zeta.
  assert (0 <= Z.land (len >> 1) 4 /\ Z.land (len >> 1) 4 + 4 <= len).
  { assert (Hcases : len = 5 \/ len = 6 \/ len = 7 \/ len = 8 \/ len = 9 \/ len = 10 \/ len = 11 \/ len = 12) by lia.
    by repeat destruct Hcases as [Hcases|Hcases]; rewrite Hcases. }
  reads. apply agree_ok, word_fmix.
Qed.

Lemma Hash32Len13to24_agree :
  12 < len <= 24 -> agree (word 32) (Hash32Len13to24 m s len) (Hash32Len13to24 m' s' len).
Proof using All.
  intros Hlen. unfold Hash32Len13to24. rewrite (Z.shiftr_div_pow2 len 1) by done.
  change (2 ^ 1) with 2. pose proof (Z.div_mod len 2 ltac:(done)). pose proof (Z.mod_pos_bound len 2 ltac:(done)).
  reads. apply agree_ok, word_fmix.
Qed.

Lemma city32_round_agree a r : s <= a -> a + 20 <= s + len ->
  agree (fun _ => True) (city32_round m a r) (city32_round m' (a - s + s') r).
Proof using All.
  intros ? ?. unfold city32_round. destruct r as [[f g] h]. reads. by apply agree_ok.
Qed.

Lemma city32_loop_agree iters a r : s <= a -> a + 20 * Z.of_nat (S iters) <= s + len ->
  agree (fun _ => True) (city32_loop m (S iters) a r) (city32_loop m' (S iters) (a - s + s') r).
Proof using All.
  revert a r. induction iters as [|iters IH]; intros a r Ha Hlen.
  - cbn [city32_loop]. eapply agree_bind; [apply city32_round_agree; lia|]. intros. by apply agree_ok.
  - cbn [city32_loop]. eapply agree_bind; [apply city32_round_agree; lia|]. intros r' _.
    replace (a - s + s' + 20) with (a + 20 - s + s') by lia. apply IH; lia.
Qed.

Lemma CityHash32_agree : agree (word 32) (CityHash32 m s len) (CityHash32 m' s' len).
Proof using All.
  unfold CityHash32. destruct (len <=? 24) eqn:E24; bools.
  { destruct (len <=? 12) eqn:E12; bools; [|by apply Hash32Len13to24_agree].
    destruct (len <=? 4) eqn:E4; bools; [by apply Hash32Len0to4_agree|by apply Hash32Len5to12_agree]. }
  cbv zeta. reads.
  pose proof (Z.div_mod (len - 1) 20 ltac:(done)). pose proof (Z.mod_pos_bound (len - 1) 20 ltac:(done)).
  set (k := (len - 1) / 20) in *.
  destruct (Z.to_nat k) as [|iters] eqn:Hk; [lia|]. eapply agree_bind.
  - replace s' with (s - s + s') by lia. apply city32_loop_agree; lia.
  - intros [[f g] h] _. finish.
Qed.

Lemma word_HashLen16 u v mul : word 64 (HashLen16 u v mul).
Proof using Type. apply word_u64. Qed.

Lemma HashLen0to16_agree : len <= 16 -> agree (word 64) (HashLen0to16 m s len) (HashLen0to16 m' s' len).
Proof using All.
  intros Hlen. unfold HashLen0to16. cbv zeta.
  destruct (8 <=? len) eqn:E8; bools; [reads; finish|].
  destruct (4 <=? len) eqn:E4; bools; [reads; finish|].
  destruct (0 <? len) eqn:E0; bools; [|finish].
  rewrite (Z.shiftr_div_pow2 len 1) by done. change (2 ^ 1) with 2.
  pose proof (Z.div_mod len 2 ltac:(done)). pose proof (Z.mod_pos_bound len 2 ltac:(done)).
  reads. finish.
Qed.

Lemma HashLen17to32_agree : 16 < len -> agree (word 64) (HashLen17to32 m s len) (HashLen17to32 m' s' len).
Proof using All. intros Hlen. unfold HashLen17to32. cbv zeta. reads. finish. Qed.

Lemma HashLen33to64_agree : 32 < len -> agree (word 64) (HashLen33to64 m s len) (HashLen33to64 m' s' len).
Proof using All. intros Hlen. unfold HashLen33to64. cbv zeta. reads. finish. Qed.

Lemma WeakHashLen32_agree p p' a b : s <= p -> p + 32 <= s + len -> p' = p - s + s' ->
  agree (fun _ => True) (WeakHashLen32WithSeeds m p a b) (WeakHashLen32WithSeeds m' p' a b).
Proof using All. intros ? ? ->. unfold WeakHashLen32WithSeeds. reads. by apply agree_ok. Qed.

Lemma city64_round_agree p p' st : s <= p -> p + 64 <= s + len -> p' = p - s + s' ->
  agree (fun _ => True) (city64_round m p st) (city64_round m' p' st).
Proof using All.
  intros ? ? ->. unfold city64_round. destruct st as [v w x y z]. cbv zeta. reads.
  eapply agree_bind; [apply WeakHashLen32_agree; lia|]. intros vv _. reads.
  eapply agree_bind; [apply WeakHashLen32_agree; lia|]. intros ww _. by apply agree_ok.
Qed.

Lemma city64_loop_agree fuel p p' n st : s <= p -> p' = p - s + s' ->
  n = 64 * Z.of_nat (S fuel) -> p + n <= s + len -> n < 2 ^ 64 ->
  agree (fun _ => True) (city64_loop m (S fuel) p n st) (city64_loop m' (S fuel) p' n st).
Proof using All.
  revert p p' n st. induction fuel as [|fuel IH]; intros p p' n st Hp Hp' Hn Hlen Hmax.
  all: cbn [city64_loop]; eapply agree_bind; [apply city64_round_agree; lia|]; intros st' _.
  all: rewrite (u64_id (n - 64)) by lia.
  - rewrite (proj2 (Z.eqb_eq _ _)) by lia. by apply agree_ok.
  - rewrite (proj2 (Z.eqb_neq _ _)) by lia. apply IH; lia.
Qed.

Lemma CityHash64_agree : len < 2 ^ 64 -> agree (word 64) (CityHash64 m s len) (CityHash64 m' s' len).
Proof using All.
  intros Hmax. unfold CityHash64. destruct (len <=? 32) eqn:E32; bools.
  { destruct (len <=? 16) eqn:E16; bools; [by apply HashLen0to16_agree|by apply HashLen17to32_agree]. }
  destruct (len <=? 64) eqn:E64; bools; [by apply HashLen33to64_agree|].
  cbv zeta. reads. eapply agree_bind; [apply WeakHashLen32_agree; lia|]. intros vv _.
  eapply agree_bind; [apply WeakHashLen32_agree; lia|]. intros ww _. reads.
  assert (Hmask : Z.land (len - 1) (Z.lnot 63) = 64 * ((len - 1) / 64)).
  { change 63 with (Z.ones 6). rewrite <- Z.ldiff_land, Z.ldiff_ones_r by lia.
    rewrite Z.shiftl_mul_pow2, Z.shiftr_div_pow2 by done. change (2 ^ 6) with 64. lia. }
  rewrite Hmask. rewrite (Z.mul_comm 64), Z.div_mul by done.
  pose proof (Z.div_mod (len - 1) 64 ltac:(done)). pose proof (Z.mod_pos_bound (len - 1) 64 ltac:(done)).
  destruct (Z.to_nat ((len - 1) / 64)) as [|fuel] eqn:Hf; [lia|]. eapply agree_bind.
  - apply (city64_loop_agree fuel); lia.
  - intros [? ? ? ? ?] _. apply agree_ok, word_HashLen16.
Qed.

Lemma CityHash64WithSeeds_agree seed0 seed1 : len < 2 ^ 64 ->
  agree (word 64) (CityHash64WithSeeds m s len seed0 seed1) (CityHash64WithSeeds m' s' len seed0 seed1).
Proof using All.
  intros Hmax. unfold CityHash64WithSeeds. eapply agree_bind; [by apply CityHash64_agree|].
  intros h _. apply agree_ok, word_HashLen16.
Qed.
End inside.
