(* ===== verification/Uint128.v ===== *)
(** * Uint128: unsigned 128-bit integers
    (src/abseil-cpp/absl/numeric/int128.h and int128.cc)

    A [uint128] is two words. Each operator has a portable branch on the words
    and, where the compiler has [unsigned __int128], one that converts, computes
    and converts back; the multiplication has a third one, for a compiler that
    has [_umul128]. [Compiler] says which are taken. An operator that the
    source names [operator+] is [op_add] here; a compound assignment assigns
    the result of the operator, and is that operator. *)

From S2P Require Import Prelude.
From S2P Require Import Word.
From S2P Require Import Bits.

(** [ABSL_HAVE_INTRINSIC_INT128], [_umul128] and [NDEBUG]. *)
Class Compiler := { have_int128 : bool; have_umul128 : bool; no_asserts : bool }.

(** ** The machine's operations *)

(** [unsigned __int128] is [Z] modulo [2 ^ 128]. *)
Definition u128 (z : Z) : Z := z mod 2 ^ 128.

(** A shift of a [w]-bit word by its width or more, or by a negative amount,
    is undefined. *)
Definition shl (w x n : Z) : result Z :=
  if (0 <=? n) && (n <? w) then Ok (unsigned w (Z.shiftl x n)) else Err Undefined.
Definition shr (w x n : Z) : result Z :=
  if (0 <=? n) && (n <? w) then Ok (x >> n) else Err Undefined.

(** [~] of a word. *)
Definition not64 (x : Z) : Z := u64 (Z.lnot x).

(** ** Representation *)

Record uint128 := mkUint128 { lo_ : Z; hi_ : Z }.

#[export] Instance uint128_eq_dec : EqDecision uint128.
Proof. solve_decision. Defined.

Definition MakeUint128 (high low : Z) : uint128 := {| lo_ := low; hi_ := high |}.
Definition Uint128Low64 (v : uint128) : Z := lo_ v.
Definition Uint128High64 (v : uint128) : Z := hi_ v.

Definition uint64_max : Z := 2 ^ 64 - 1.
Definition Uint128Max : uint128 := MakeUint128 uint64_max uint64_max.

(** The constructors from a signed and from an unsigned integer. *)
Definition of_signed (v : Z) : uint128 := {| lo_ := u64 v; hi_ := if v <? 0 then uint64_max else 0 |}.
Definition of_unsigned (v : Z) : uint128 := {| lo_ := v; hi_ := 0 |}.

(** From and to [unsigned __int128]. *)
Definition of_intrinsic (v : Z) : uint128 := {| lo_ := u64 (Z.land v uint64_max); hi_ := u64 (v >> 64) |}.
Definition to_intrinsic (v : uint128) : Z := u128 (u128 (Z.shiftl (hi_ v) 64) + lo_ v).

(** ** Conversion operators *)

(** [char], [wchar_t] and [long] as on Linux for x86-64. *)
Definition to_bool (v : uint128) : bool := negb (lo_ v =? 0) || negb (hi_ v =? 0).
Definition to_char (v : uint128) : Z := signed 8 (lo_ v).
Definition to_schar (v : uint128) : Z := signed 8 (lo_ v).
Definition to_uchar (v : uint128) : Z := unsigned 8 (lo_ v).
Definition to_char16 (v : uint128) : Z := unsigned 16 (lo_ v).
Definition to_char32 (v : uint128) : Z := unsigned 32 (lo_ v).
Definition to_wchar (v : uint128) : Z := signed 32 (lo_ v).
Definition to_short (v : uint128) : Z := signed 16 (lo_ v).
Definition to_ushort (v : uint128) : Z := unsigned 16 (lo_ v).
Definition to_int (v : uint128) : Z := signed 32 (lo_ v).
Definition to_uint (v : uint128) : Z := unsigned 32 (lo_ v).
Definition to_long (v : uint128) : Z := signed 64 (lo_ v).
Definition to_ulong (v : uint128) : Z := unsigned 64 (lo_ v).
Definition to_llong (v : uint128) : Z := signed 64 (lo_ v).
Definition to_ullong (v : uint128) : Z := unsigned 64 (lo_ v).

Section operators.
Context `{Compiler}.

(** ** Comparison *)

Definition op_eq (lhs rhs : uint128) : bool :=
  if have_int128 then to_intrinsic lhs =? to_intrinsic rhs
  else (Uint128Low64 lhs =? Uint128Low64 rhs) && (Uint128High64 lhs =? Uint128High64 rhs).
Definition op_ne (lhs rhs : uint128) : bool := negb (op_eq lhs rhs).

Definition op_lt (lhs rhs : uint128) : bool :=
  if have_int128 then to_intrinsic lhs <? to_intrinsic rhs
  else if Uint128High64 lhs =? Uint128High64 rhs then Uint128Low64 lhs <? Uint128Low64 rhs
  else Uint128High64 lhs <? Uint128High64 rhs.
Definition op_gt (lhs rhs : uint128) : bool := op_lt rhs lhs.
Definition op_le (lhs rhs : uint128) : bool := negb (op_lt rhs lhs).
Definition op_ge (lhs rhs : uint128) : bool := negb (op_lt lhs rhs).

(** ** Unary and logical operators *)

Definition op_plus (val : uint128) : uint128 := val.

Definition op_neg (val : uint128) : uint128 :=
  if have_int128 then of_intrinsic (u128 (- to_intrinsic val))
  else MakeUint128 (not64 (Uint128High64 val) +64 (if Uint128Low64 val =? 0 then 1 else 0))
         (not64 (Uint128Low64 val) +64 1).

Definition op_not (val : uint128) : bool :=
  if have_int128 then to_intrinsic val =? 0
  else (Uint128High64 val =? 0) && (Uint128Low64 val =? 0).

Definition op_compl (val : uint128) : uint128 :=
  if have_int128 then of_intrinsic (u128 (Z.lnot (to_intrinsic val)))
  else MakeUint128 (not64 (Uint128High64 val)) (not64 (Uint128Low64 val)).

Definition op_or (lhs rhs : uint128) : uint128 :=
  if have_int128 then of_intrinsic (Z.lor (to_intrinsic lhs) (to_intrinsic rhs))
  else MakeUint128 (Z.lor (Uint128High64 lhs) (Uint128High64 rhs)) (Z.lor (Uint128Low64 lhs) (Uint128Low64 rhs)).

Definition op_and (lhs rhs : uint128) : uint128 :=
  if have_int128 then of_intrinsic (Z.land (to_intrinsic lhs) (to_intrinsic rhs))
  else MakeUint128 (Z.land (Uint128High64 lhs) (Uint128High64 rhs)) (Z.land (Uint128Low64 lhs) (Uint128Low64 rhs)).

Definition op_xor (lhs rhs : uint128) : uint128 :=
  if have_int128 then of_intrinsic (to_intrinsic lhs ^^ to_intrinsic rhs)
  else MakeUint128 (Uint128High64 lhs ^^ Uint128High64 rhs) (Uint128Low64 lhs ^^ Uint128Low64 rhs).

(** ** Shifts *)

Definition op_shl (lhs : uint128) (amount : Z) : result uint128 :=
  if have_int128 then let* v := shl 128 (to_intrinsic lhs) amount in Ok (of_intrinsic v)
  else if 64 <=? amount then let* h := shl 64 (Uint128Low64 lhs) (amount - 64) in Ok (MakeUint128 h 0)
  else if amount =? 0 then Ok lhs
  else
    let* a := shl 64 (Uint128High64 lhs) amount in
    let* b := shr 64 (Uint128Low64 lhs) (64 - amount) in
    let* c := shl 64 (Uint128Low64 lhs) amount in
    Ok (MakeUint128 (Z.lor a b) c).

Definition op_shr (lhs : uint128) (amount : Z) : result uint128 :=
  if have_int128 then let* v := shr 128 (to_intrinsic lhs) amount in Ok (of_intrinsic v)
  else if 64 <=? amount then let* l := shr 64 (Uint128High64 lhs) (amount - 64) in Ok (MakeUint128 0 l)
  else if amount =? 0 then Ok lhs
  else
    let* a := shr 64 (Uint128High64 lhs) amount in
    let* b := shr 64 (Uint128Low64 lhs) amount in
    let* c := shl 64 (Uint128High64 lhs) (64 - amount) in
    Ok (MakeUint128 a (Z.lor b c)).

(** ** Arithmetic *)

Definition AddResult (result lhs : uint128) : uint128 :=
  if Uint128Low64 result <? Uint128Low64 lhs
  then MakeUint128 (Uint128High64 result +64 1) (Uint128Low64 result) else result.

Definition op_add (lhs rhs : uint128) : uint128 :=
  if have_int128 then of_intrinsic (u128 (to_intrinsic lhs + to_intrinsic rhs))
  else AddResult (MakeUint128 (Uint128High64 lhs +64 Uint128High64 rhs) (Uint128Low64 lhs +64 Uint128Low64 rhs)) lhs.

Definition SubstructResult (result lhs rhs : uint128) : uint128 :=
  if Uint128Low64 lhs <? Uint128Low64 rhs
  then MakeUint128 (Uint128High64 result -64 1) (Uint128Low64 result) else result.

Definition op_sub (lhs rhs : uint128) : uint128 :=
  if have_int128 then of_intrinsic (u128 (to_intrinsic lhs - to_intrinsic rhs))
  else SubstructResult (MakeUint128 (Uint128High64 lhs -64 Uint128High64 rhs) (Uint128Low64 lhs -64 Uint128Low64 rhs)) lhs rhs.

Definition op_mul (lhs rhs : uint128) : result uint128 :=
  if have_int128 then Ok (of_intrinsic (u128 (to_intrinsic lhs * to_intrinsic rhs)))
  else if have_umul128 then
    let p := Uint128Low64 lhs * Uint128Low64 rhs in
    let low := u64 p in
    let carry := u64 (p >> 64) in
    Ok (MakeUint128 (Uint128Low64 lhs *64 Uint128High64 rhs +64 Uint128High64 lhs *64 Uint128Low64 rhs +64 carry) low)
  else
    let a32 := Uint128Low64 lhs >> 32 in
    let a00 := Z.land (Uint128Low64 lhs) 0xffffffff in
    let b32 := Uint128Low64 rhs >> 32 in
    let b00 := Z.land (Uint128Low64 rhs) 0xffffffff in
    let result :=
      MakeUint128 (Uint128High64 lhs *64 Uint128Low64 rhs +64 Uint128Low64 lhs *64 Uint128High64 rhs +64 a32 *64 b32)
        (a00 *64 b00) in
    let* x := op_shl (of_unsigned (a32 *64 b00)) 32 in
    let result := op_add result x in
    let* x := op_shl (of_unsigned (a00 *64 b32)) 32 in
    let result := op_add result x in
    Ok result.

(** The prefix and the postfix operators; the latter give the new value of
    the variable and the old one, which they return. *)
Definition op_incr (v : uint128) : uint128 := op_add v (of_signed 1).
Definition op_decr (v : uint128) : uint128 := op_sub v (of_signed 1).
Definition op_postincr (v : uint128) : uint128 * uint128 := let tmp := v in (op_add v (of_signed 1), tmp).
Definition op_postdecr (v : uint128) : uint128 * uint128 := let tmp := v in (op_sub v (of_signed 1), tmp).

(** ** Division *)

Definition Fls128 (n : uint128) : result Z :=
  let hi := Uint128High64 n in
  if negb (hi =? 0) then let* z := countl_zero 64 hi in Ok (127 - z)
  else
    let low := Uint128Low64 n in
    if low =? 0 then Err Undefined else let* z := countl_zero 64 low in Ok (63 - z).

(** [for (int i = 0; i <= shift; ++i)]: [n] turns are left. *)
Fixpoint div_loop (n : nat) (dividend denominator quotient : uint128) : result (uint128 * uint128) :=
  match n with
  | O => Ok (quotient, dividend)
  | S n =>
      let* quotient := op_shl quotient 1 in
      let '(dividend, quotient) :=
        if op_ge dividend denominator then (op_sub dividend denominator, op_or quotient (of_signed 1))
        else (dividend, quotient) in
      let* denominator := op_shr denominator 1 in
      div_loop n dividend denominator quotient
  end.

(** The quotient and the remainder. *)
Definition DivModImpl (dividend divisor : uint128) : result (uint128 * uint128) :=
  cpp_assert (op_ne divisor (of_signed 0) || no_asserts) (
  if op_gt divisor dividend then Ok (of_signed 0, dividend)
  else if op_eq divisor dividend then Ok (of_signed 1, of_signed 0)
  else
    let denominator := divisor in
    let quotient := of_signed 0 in
    let* a := Fls128 dividend in
    let* b := Fls128 denominator in
    let shift := a - b in
    let* denominator := op_shl denominator shift in
    div_loop (Z.to_nat (shift + 1)) dividend denominator quotient).

(** A division by the intrinsic zero is undefined. *)
Definition op_div (lhs rhs : uint128) : result uint128 :=
  if have_int128 then
    if to_intrinsic rhs =? 0 then Err Undefined else Ok (of_intrinsic (to_intrinsic lhs / to_intrinsic rhs))
  else let* r := DivModImpl lhs rhs in let '(quotient, remainder) := r in Ok quotient.

Definition op_mod (lhs rhs : uint128) : result uint128 :=
  if have_int128 then
    if to_intrinsic rhs =? 0 then Err Undefined else Ok (of_intrinsic (to_intrinsic lhs mod to_intrinsic rhs))
  else let* r := DivModImpl lhs rhs in let '(quotient, remainder) := r in Ok remainder.
End operators.

(** * what the operators of uint128 compute (lemmas for Uint128.v)

    [denotes v z]: the words of [v] are in range and [v] is [z] modulo 2^128.
    Every operator maps this relation to itself, whatever branch is taken. *)

Definition uval (v : uint128) : Z := hi_ v * 2 ^ 64 + lo_ v.
Definition uint128_ok (v : uint128) : Prop := word 64 (lo_ v) /\ word 64 (hi_ v).
Definition denotes (v : uint128) (z : Z) : Prop := uint128_ok v /\ uval v = u128 z.

Ltac mod_tac := unfold u128, u64, unsigned in *; Z.to_euclidean_division_equations; nia.

Lemma uval_range v : uint128_ok v -> word 128 (uval v).
Proof. unfold uint128_ok, word, uval. nia. Qed.

Lemma denotes_self v : uint128_ok v -> denotes v (uval v).
Proof. intros Hv. split; [done|]. symmetry. apply Z.mod_small. by apply uval_range. Qed.

Lemma denotes_ok v z : denotes v z -> uint128_ok v.
Proof. by intros [? _]. Qed.

Lemma denotes_mod v y z : denotes v y -> u128 y = u128 z -> denotes v z.
Proof. intros [? Hv] Hz. split; [done|]. congruence. Qed.

Lemma denotes_val v z : denotes v z -> word 128 z -> uval v = z.
Proof. intros [_ Hv] Hz. rewrite Hv. by apply Z.mod_small. Qed.

Lemma denotes_words h l : word 64 h -> word 64 l -> denotes (MakeUint128 h l) (h * 2 ^ 64 + l).
Proof. intros Hh Hl. by apply (denotes_self (MakeUint128 h l)). Qed.

(** Words from congruences. *)
Lemma denotes_make h l z : denotes (MakeUint128 (u64 h) (u64 l)) z <-> u128 (u64 h * 2 ^ 64 + u64 l) = u128 z.
Proof.
  split.
  - intros [_ Hz]. rewrite <- Hz. unfold uval, u128. cbn [hi_ lo_ MakeUint128]. apply Z.mod_small.
    pose proof (word_u64 h). pose proof (word_u64 l). unfold word in *. nia.
  - intros Hz. apply (denotes_mod _ _ _ (denotes_words _ _ (word_u64 h) (word_u64 l)) Hz).
Qed.

Lemma denotes_inj a b x y : denotes a x -> denotes b y -> u128 x = u128 y -> a = b.
Proof.
  intros [[Ha Ha'] Hx] [[Hb Hb'] Hy] Hxy. rewrite <- Hx, <- Hy in Hxy. destruct a as [al ah], b as [bl bh].
  unfold uval, word in *. cbn [lo_ hi_] in *. f_equal; nia.
Qed.

Lemma u128_word z : word 128 z -> u128 z = z.
Proof. intros Hz. by apply Z.mod_small. Qed.
Lemma word_u128 z : word 128 (u128 z).
Proof. by apply Z.mod_pos_bound. Qed.
Lemma u128_idem z : u128 (u128 z) = u128 z.
Proof. apply u128_word, word_u128. Qed.

Lemma of_intrinsic_ok z : word 128 z -> denotes (of_intrinsic z) z.
Proof.
  intros Hz. unfold of_intrinsic. change uint64_max with (Z.ones 64). rewrite Z.land_ones by done.
  apply denotes_make. rewrite Z.shiftr_div_pow2 by done. unfold word in *. f_equal. mod_tac.
Qed.

Lemma to_intrinsic_ok v z : denotes v z -> to_intrinsic v = u128 z.
Proof.
  intros [Hv Hz]. pose proof (uval_range v Hv) as Hr. rewrite <- Hz. unfold to_intrinsic. rewrite Z.shiftl_mul_pow2 by done.
  unfold uval, uint128_ok, word in *. mod_tac.
Qed.

Lemma of_signed_ok v : - 2 ^ 63 <= v < 2 ^ 63 -> denotes (of_signed v) v.
Proof.
  intros Hv. unfold of_signed.
  replace (if v <? 0 then uint64_max else 0) with (u64 (if v <? 0 then -1 else 0)) by (by destruct (v <? 0)).
  apply denotes_make. destruct (v <? 0) eqn:E; bools; unfold u128; rewrite Z.mod_eq, (Z.mod_eq v) by done; mod_tac.
Qed.

Lemma of_unsigned_ok v : word 64 v -> denotes (of_unsigned v) v.
Proof. intros Hv. apply (denotes_self (of_unsigned v)). by split. Qed.

Lemma of_unsigned_val v : uval (of_unsigned v) = v.
Proof. done. Qed.

(** ** Congruences *)

Lemma u128_add a b x y : u128 a = u128 x -> u128 b = u128 y -> u128 (a + b) = u128 (x + y).
Proof. unfold u128. intros Ha Hb. by rewrite Z.add_mod, Ha, Hb, <- Z.add_mod. Qed.
Lemma u128_sub a b x y : u128 a = u128 x -> u128 b = u128 y -> u128 (a - b) = u128 (x - y).
Proof. unfold u128. intros Ha Hb. by rewrite Zminus_mod, Ha, Hb, <- Zminus_mod. Qed.
Lemma u128_mul a b x y : u128 a = u128 x -> u128 b = u128 y -> u128 (a * b) = u128 (x * y).
Proof. unfold u128. intros Ha Hb. by rewrite Z.mul_mod, Ha, Hb, <- Z.mul_mod. Qed.
Lemma u128_shift k x y : k = x - y -> (exists q, k = q * 2 ^ 128) -> u128 x = u128 y.
Proof. intros -> [q Hq]. unfold u128. replace x with (y + q * 2 ^ 128) by lia. by apply Z.mod_add. Qed.

Lemma denotes_uval v z : denotes v z -> u128 (uval v) = u128 z.
Proof. intros [Hv Hz]. rewrite Hz. apply u128_idem. Qed.

(** Multiples of 2^128 do not count. *)
Lemma u128_multiple x y q : x = y + q * 2 ^ 128 -> u128 x = u128 y.
Proof. intros ->. unfold u128. by apply Z.mod_add. Qed.

Section operators.
Context `{Compiler}.
Implicit Types (a b v : uint128) (x y z : Z).

(** ** Comparison *)

Lemma op_eq_ok a b : uint128_ok a -> uint128_ok b -> op_eq a b = (uval a =? uval b).
Proof.
  intros Ha Hb. unfold op_eq. destruct have_int128.
  - rewrite (to_intrinsic_ok a _ (denotes_self a Ha)), (to_intrinsic_ok b _ (denotes_self b Hb)).
    by rewrite !u128_word by by apply uval_range.
  - unfold Uint128Low64, Uint128High64, uval, uint128_ok, word in *.
    apply eq_true_iff_eq. rewrite andb_true_iff, !Z.eqb_eq. nia.
Qed.

Lemma op_lt_ok a b : uint128_ok a -> uint128_ok b -> op_lt a b = (uval a <? uval b).
Proof.
  intros Ha Hb. unfold op_lt. destruct have_int128.
  - rewrite (to_intrinsic_ok a _ (denotes_self a Ha)), (to_intrinsic_ok b _ (denotes_self b Hb)).
    by rewrite !u128_word by by apply uval_range.
  - unfold Uint128Low64, Uint128High64, uval, uint128_ok, word in *. apply eq_true_iff_eq. rewrite (Z.ltb_lt (_ * _ + _)).
    destruct (hi_ a =? hi_ b) eqn:E; bools; rewrite Z.ltb_lt; nia.
Qed.

Lemma op_ge_ok a b : uint128_ok a -> uint128_ok b -> op_ge a b = (uval b <=? uval a).
Proof. intros Ha Hb. unfold op_ge. rewrite op_lt_ok by done. by rewrite Z.ltb_antisym, negb_involutive. Qed.

(** ** Unary and logical operators *)

(** The branch for the intrinsic. *)
Lemma intrinsic_ok v z : v = of_intrinsic (u128 z) -> denotes v z.
Proof. intros ->. apply (denotes_mod _ _ _ (of_intrinsic_ok _ (word_u128 z))). apply u128_idem. Qed.

Lemma not64_u64 x : not64 x = u64 (-1 - x).
Proof. unfold not64, Z.lnot. f_equal. lia. Qed.

Lemma op_neg_ok a x : denotes a x -> denotes (op_neg a) (- x).
Proof.
  intros Ha. unfold op_neg. destruct have_int128.
  - rewrite (to_intrinsic_ok a x Ha). apply (denotes_mod _ (- u128 x)); [by apply intrinsic_ok|].
    apply (u128_sub 0 _ 0); [done|apply u128_idem].
  - destruct Ha as [[Hl Hh] Hx]. unfold Uint128Low64, Uint128High64. rewrite !not64_u64. apply denotes_make.
    trans (u128 (- uval a)); [|rewrite Hx; apply (u128_sub 0 _ 0); [done|apply u128_idem]].
    unfold uval, word in *. destruct (lo_ a =? 0) eqn:E; bools.
    + apply (u128_multiple _ _ (if hi_ a =? 0 then 0 else 1)). destruct (hi_ a =? 0) eqn:E'; bools; mod_tac.
    + apply (u128_multiple _ _ 1). mod_tac.
Qed.

Lemma op_not_ok a : uint128_ok a -> op_not a = (uval a =? 0).
Proof.
  intros Ha. unfold op_not. destruct have_int128.
  - rewrite (to_intrinsic_ok a _ (denotes_self a Ha)). by rewrite u128_word by by apply uval_range.
  - unfold Uint128Low64, Uint128High64, uval, uint128_ok, word in *.
    apply eq_true_iff_eq. rewrite andb_true_iff, !Z.eqb_eq. nia.
Qed.

Lemma op_compl_ok a x : denotes a x -> denotes (op_compl a) (-1 - x).
Proof.
  intros Ha. unfold op_compl. destruct have_int128.
  - rewrite (to_intrinsic_ok a x Ha). apply (denotes_mod _ (Z.lnot (u128 x))); [by apply intrinsic_ok|].
    unfold Z.lnot. replace (Z.pred (- u128 x)) with (-1 - u128 x) by lia. apply u128_sub; [done|apply u128_idem].
  - destruct Ha as [[Hl Hh] Hx]. unfold Uint128Low64, Uint128High64. rewrite !not64_u64. apply denotes_make.
    trans (u128 (-1 - uval a)); [|rewrite Hx; apply u128_sub; [done|apply u128_idem]].
    apply (u128_multiple _ _ 1). unfold uval, word in *. mod_tac.
Qed.

(** A bitwise operator works on the words. *)
Lemma words_testbit h l i : word 64 l -> 0 <= i ->
  Z.testbit (h * 2 ^ 64 + l) i = if i <? 64 then Z.testbit l i else Z.testbit h (i - 64).
Proof.
  intros Hl Hi. rewrite <- (Z.shiftl_mul_pow2 h 64), Z.add_nocarry_lxor, Z.lxor_spec, Z.shiftl_spec; try done.
  - destruct (i <? 64) eqn:E; bools; [by rewrite (Z.testbit_neg_r h) by lia|].
    rewrite (proj2 (proj1 (word_bits 64 l ltac:(done)) Hl) i) by lia. apply xorb_false_r.
  - apply Z.bits_inj'. intros n Hn. rewrite Z.land_spec, Z.shiftl_spec, Z.bits_0 by done.
    destruct (decide (n < 64)); [by rewrite (Z.testbit_neg_r h) by lia|].
    by rewrite (proj2 (proj1 (word_bits 64 l ltac:(done)) Hl) n), andb_false_r by lia.
Qed.

Lemma words_op (op : Z -> Z -> Z) (f : bool -> bool -> bool) a b :
  (forall x y i, 0 <= i -> Z.testbit (op x y) i = f (Z.testbit x i) (Z.testbit y i)) ->
  (forall x y, word 64 x -> word 64 y -> word 64 (op x y)) -> uint128_ok a -> uint128_ok b ->
  op (hi_ a) (hi_ b) * 2 ^ 64 + op (lo_ a) (lo_ b) = op (uval a) (uval b).
Proof.
  intros Hop Hw [Hla Hha] [Hlb Hhb]. unfold uval. apply Z.bits_inj'. intros n Hn.
  rewrite Hop, !words_testbit by auto. destruct (n <? 64) eqn:E; bools; by rewrite Hop by lia.
Qed.

Lemma op_bitwise (op : Z -> Z -> Z) (f : bool -> bool -> bool) a b :
  (forall x y i, 0 <= i -> Z.testbit (op x y) i = f (Z.testbit x i) (Z.testbit y i)) ->
  (forall w x y, 0 <= w -> word w x -> word w y -> word w (op x y)) -> uint128_ok a -> uint128_ok b ->
  denotes (if have_int128 then of_intrinsic (op (to_intrinsic a) (to_intrinsic b))
           else MakeUint128 (op (hi_ a) (hi_ b)) (op (lo_ a) (lo_ b))) (op (uval a) (uval b)).
Proof.
  intros Hop Hw Ha Hb. destruct have_int128.
  - rewrite (to_intrinsic_ok a _ (denotes_self a Ha)), (to_intrinsic_ok b _ (denotes_self b Hb)).
    rewrite !u128_word by by apply uval_range. apply of_intrinsic_ok, Hw; [done|by apply uval_range..].
  - rewrite <- (words_op op f a b); [|done|by intros; apply Hw|done|done]. destruct Ha, Hb. apply denotes_words; by apply Hw.
Qed.

Lemma op_or_ok a b : uint128_ok a -> uint128_ok b -> denotes (op_or a b) (Z.lor (uval a) (uval b)).
Proof. apply (op_bitwise Z.lor orb); [intros; apply Z.lor_spec|apply word_lor]. Qed.
Lemma op_and_ok a b : uint128_ok a -> uint128_ok b -> denotes (op_and a b) (Z.land (uval a) (uval b)).
Proof. apply (op_bitwise Z.land andb); [intros; apply Z.land_spec|apply word_land]. Qed.
Lemma op_xor_ok a b : uint128_ok a -> uint128_ok b -> denotes (op_xor a b) (uval a ^^ uval b).
Proof. apply (op_bitwise Z.lxor xorb); [intros; apply Z.lxor_spec|apply word_lxor]. Qed.

(** ** Shifts *)

Lemma shl_ok w x n : 0 <= n < w -> shl w x n = Ok (unsigned w (Z.shiftl x n)).
Proof. intros Hn. unfold shl. rewrite (proj2 (Z.leb_le 0 n)), (proj2 (Z.ltb_lt n w)) by lia. done. Qed.
Lemma shr_ok w x n : 0 <= n < w -> shr w x n = Ok (x >> n).
Proof. intros Hn. unfold shr. rewrite (proj2 (Z.leb_le 0 n)), (proj2 (Z.ltb_lt n w)) by lia. done. Qed.

(** [2 ^ 64] as a product, and a word split there. *)
Lemma split64 n : 0 <= n <= 64 -> 0 < 2 ^ n /\ 0 < 2 ^ (64 - n) /\ 2 ^ n * 2 ^ (64 - n) = 2 ^ 64.
Proof. intros Hn. rewrite <- Z.pow_add_r by lia. split; [lia|]. split; [lia|]. f_equal. lia. Qed.

Lemma shl64_split x n : 0 <= n <= 64 -> u64 (Z.shiftl x n) = 2 ^ n * (x mod 2 ^ (64 - n)).
Proof.
  intros Hn. destruct (split64 n Hn) as (? & ? & Hs). unfold u64. rewrite Z.shiftl_mul_pow2, <- Hs, (Z.mul_comm x) by lia.
  by rewrite Z.mul_mod_distr_l by lia.
Qed.

Lemma u128_high x y : u128 (u64 x * 2 ^ 64 + y) = u128 (x * 2 ^ 64 + y).
Proof.
  apply (u128_multiple _ _ (- (x / 2 ^ 64))). unfold u64. rewrite Z.mod_eq by done. ring.
Qed.

(** What a left shift moves into the high word. *)
Lemma shl64_low x n : 0 <= n <= 64 -> u64 (Z.shiftl x n) = x * 2 ^ n - 2 ^ 64 * (x / 2 ^ (64 - n)).
Proof.
  intros Hn. destruct (split64 n Hn) as (? & ? & Hs). rewrite shl64_split, <- Hs by done. rewrite Z.mod_eq by lia. ring.
Qed.

Lemma shl64_lor h l n : word 64 l -> 0 < n < 64 ->
  Z.lor (u64 (Z.shiftl h n)) (l >> (64 - n)) = u64 (Z.shiftl h n) + l / 2 ^ (64 - n) /\ word 64 (u64 (Z.shiftl h n) + l / 2 ^ (64 - n)).
Proof.
  intros Hl Hn. destruct (split64 n ltac:(lia)) as (? & ? & Hs). rewrite Z.shiftr_div_pow2 by lia.
  assert (0 <= l / 2 ^ (64 - n) < 2 ^ n).
  { unfold word in Hl. split; [apply Z.div_pos; lia|]. apply Z.div_lt_upper_bound; [lia|]. rewrite Z.mul_comm, Hs. lia. }
  rewrite shl64_split by lia. split; [apply lor_digit; [lia|done]|]. unfold word. rewrite <- Hs.
  pose proof (Z.mod_pos_bound h (2 ^ (64 - n)) ltac:(lia)). nia.
Qed.

Lemma op_shl_ok a x n : denotes a x -> 0 <= n < 128 -> exists v, op_shl a n = Ok v /\ denotes v (x * 2 ^ n).
Proof.
  intros Ha Hn. unfold op_shl. destruct have_int128.
  - rewrite (to_intrinsic_ok a x Ha), shl_ok by done. cbn [rbind]. eexists. split; [done|].
    rewrite Z.shiftl_mul_pow2 by lia. apply (denotes_mod _ (u128 x * 2 ^ n)); [by apply intrinsic_ok|].
    apply u128_mul; [apply u128_idem|done].
  - assert (Hgoal : u128 (uval a * 2 ^ n) = u128 (x * 2 ^ n)) by (apply u128_mul; [by apply denotes_uval|done]).
    destruct Ha as [[Hl Hh] _]. unfold Uint128Low64, Uint128High64, uval in *.
    destruct (64 <=? n) eqn:E; bools; [|destruct (n =? 0) eqn:E0; bools].
    + rewrite shl_ok by lia. cbn [rbind]. eexists. split; [done|]. eapply denotes_mod; [apply denotes_words; [apply word_u64|done]|]. rewrite <- Hgoal.
      change (unsigned 64) with u64. rewrite u128_high, Z.shiftl_mul_pow2 by lia.
      apply (u128_multiple _ _ (- (hi_ a * 2 ^ (n - 64)))).
      replace n with (n - 64 + 64) at 2 by lia. rewrite Z.pow_add_r by lia. ring.
    + subst n. exists a. split; [done|]. apply (denotes_mod _ (uval a)); [by apply denotes_self|]. rewrite <- Hgoal. f_equal. unfold uval. ring.
    + rewrite !shl_ok, shr_ok by lia. cbn [rbind]. eexists. split; [done|]. change (unsigned 64) with u64.
      destruct (shl64_lor (hi_ a) (lo_ a) n Hl ltac:(lia)) as [-> Hw].
      apply (denotes_mod _ _ _ (denotes_words _ _ Hw (word_u64 _))). rewrite <- Hgoal, (shl64_low (lo_ a)) by lia.
      rewrite Z.mul_add_distr_r, <- Z.add_assoc, u128_high, Z.shiftl_mul_pow2 by lia. f_equal. ring.
Qed.

Lemma op_shr_ok a n : uint128_ok a -> 0 <= n < 128 -> exists v, op_shr a n = Ok v /\ denotes v (uval a / 2 ^ n).
Proof.
  intros Ha Hn. unfold op_shr. pose proof (uval_range a Ha) as Hr. destruct have_int128.
  - rewrite (to_intrinsic_ok a _ (denotes_self a Ha)), u128_word, shr_ok by done. cbn [rbind]. eexists. split; [done|].
    rewrite <- Z.shiftr_div_pow2 by lia. apply of_intrinsic_ok. apply word_shiftr; [lia|done].
  - destruct Ha as [Hl Hh]. unfold Uint128Low64, Uint128High64.
    assert (Hhigh : forall m, 0 <= m -> uval a / 2 ^ (64 + m) = hi_ a / 2 ^ m).
    { intros m Hm. unfold uval, word in *. rewrite Z.pow_add_r, <- Z.div_div by lia. f_equal. mod_tac. }
    destruct (64 <=? n) eqn:E; bools; [|destruct (n =? 0) eqn:E0; bools].
    + rewrite shr_ok by lia. cbn [rbind]. eexists. split; [done|].
      replace n with (64 + (n - 64)) at 2 by lia. rewrite Hhigh, <- Z.shiftr_div_pow2 by lia.
      apply (denotes_words 0); [done|]. apply word_shiftr; [lia|done].
    + subst n. exists a. split; [done|]. rewrite Z.div_1_r. by apply denotes_self.
    + rewrite !shr_ok, shl_ok by lia. cbn [rbind]. eexists. split; [done|]. change (unsigned 64) with u64.
      pose proof (shl64_lor (hi_ a) (lo_ a) (64 - n) Hl ltac:(lia)) as [Hlor Hw]. replace (64 - (64 - n)) with n in * by lia.
      rewrite Z.lor_comm, Hlor. eapply denotes_mod; [apply denotes_words; [apply word_shiftr; [lia|done]|done]|].
      f_equal. rewrite shl64_low, Z.shiftr_div_pow2 by lia. replace (64 - (64 - n)) with n in * by lia.
      destruct (split64 n ltac:(lia)) as (? & ? & Hs). unfold uval. rewrite <- Hs.
      replace (hi_ a * (2 ^ n * 2 ^ (64 - n)) + lo_ a) with (lo_ a + hi_ a * 2 ^ (64 - n) * 2 ^ n) by ring.
      rewrite Z.div_add by lia. ring.
Qed.

(** ** Arithmetic *)

Lemma op_add_ok a b x y : denotes a x -> denotes b y -> denotes (op_add a b) (x + y).
Proof.
  intros Ha Hb. assert (Hgoal : u128 (uval a + uval b) = u128 (x + y)) by (apply u128_add; by apply denotes_uval).
  unfold op_add. destruct have_int128.
  - apply (denotes_mod _ (u128 x + u128 y)); [|apply u128_add; apply u128_idem]. apply intrinsic_ok.
    by rewrite (to_intrinsic_ok a x Ha), (to_intrinsic_ok b y Hb).
  - destruct Ha as [[Hla Hha] _], Hb as [[Hlb Hhb] _]. unfold AddResult, Uint128Low64, Uint128High64. cbn [lo_ hi_ MakeUint128].
    unfold uval, word in *. destruct (lo_ a +64 lo_ b <? lo_ a) eqn:E; bools; apply denotes_make; rewrite <- Hgoal.
    + rewrite u128_high, Z.mul_add_distr_r, <- Z.add_assoc, u128_high. f_equal. mod_tac.
    + rewrite u128_high. f_equal. mod_tac.
Qed.

Lemma op_sub_ok a b x y : denotes a x -> denotes b y -> denotes (op_sub a b) (x - y).
Proof.
  intros Ha Hb. assert (Hgoal : u128 (uval a - uval b) = u128 (x - y)) by (apply u128_sub; by apply denotes_uval).
  unfold op_sub. destruct have_int128.
  - apply (denotes_mod _ (u128 x - u128 y)); [|apply u128_sub; apply u128_idem]. apply intrinsic_ok.
    by rewrite (to_intrinsic_ok a x Ha), (to_intrinsic_ok b y Hb).
  - destruct Ha as [[Hla Hha] _], Hb as [[Hlb Hhb] _]. unfold SubstructResult, Uint128Low64, Uint128High64. cbn [lo_ hi_ MakeUint128].
    unfold uval, word in *. destruct (lo_ a <? lo_ b) eqn:E; bools; apply denotes_make; rewrite <- Hgoal.
    + rewrite u128_high, Z.mul_sub_distr_r. unfold Z.sub at 1. rewrite <- Z.add_assoc, u128_high. f_equal. mod_tac.
    + rewrite u128_high. f_equal. mod_tac.
Qed.

(** The halves of a word. *)
Lemma halves x : word 64 x -> x = (x >> 32) * 2 ^ 32 + Z.land x 0xffffffff /\
  0 <= x >> 32 < 2 ^ 32 /\ 0 <= Z.land x 0xffffffff < 2 ^ 32.
Proof.
  intros Hx. change 0xffffffff with (Z.ones 32). rewrite Z.land_ones, Z.shiftr_div_pow2 by done. unfold word in Hx. mod_tac.
Qed.

Lemma small_product x y : 0 <= x < 2 ^ 32 -> 0 <= y < 2 ^ 32 -> x *64 y = x * y /\ word 64 (x * y).
Proof. intros Hx Hy. assert (word 64 (x * y)) by (unfold word; nia). split; [by apply Z.mod_small|done]. Qed.

Lemma op_mul_ok a b x y : denotes a x -> denotes b y -> exists v, op_mul a b = Ok v /\ denotes v (x * y).
Proof.
  intros Ha Hb. assert (Hgoal : u128 (uval a * uval b) = u128 (x * y)) by (apply u128_mul; by apply denotes_uval).
  unfold op_mul. destruct have_int128; [|destruct have_umul128].
  - eexists. split; [done|]. apply (denotes_mod _ (u128 x * u128 y)); [|apply u128_mul; apply u128_idem]. apply intrinsic_ok.
    by rewrite (to_intrinsic_ok a x Ha), (to_intrinsic_ok b y Hb).
  - eexists. split; [done|]. unfold Uint128Low64, Uint128High64. apply denotes_make. rewrite <- Hgoal.
    rewrite u128_high. unfold uval. rewrite Z.shiftr_div_pow2 by done. set (p := lo_ a * lo_ b).
    apply (u128_multiple _ _ (- (hi_ a * hi_ b) - (lo_ a * hi_ b) / 2 ^ 64 - (hi_ a * lo_ b) / 2 ^ 64
      - (lo_ a *64 hi_ b + hi_ a *64 lo_ b) / 2 ^ 64 - p / 2 ^ 64 / 2 ^ 64)).
    unfold u64. rewrite !(Z.mod_eq _ (2 ^ 64)) by done. unfold p. ring.
  - destruct Ha as [[Hla Hha] _], Hb as [[Hlb Hhb] _]. unfold Uint128Low64, Uint128High64.
    destruct (halves (lo_ a) Hla) as (Ha & Ha1 & Ha0), (halves (lo_ b) Hlb) as (Hb & Hb1 & Hb0).
    set (a32 := lo_ a >> 32) in *. set (a00 := Z.land (lo_ a) _) in *. set (b32 := lo_ b >> 32) in *. set (b00 := Z.land (lo_ b) _) in *.
    destruct (small_product a32 b32 Ha1 Hb1) as [-> _], (small_product a00 b00 Ha0 Hb0) as [-> Hw0].
    destruct (small_product a32 b00 Ha1 Hb0) as [-> Hw1], (small_product a00 b32 Ha0 Hb1) as [-> Hw2].
    destruct (op_shl_ok _ _ 32 (of_unsigned_ok _ Hw1) ltac:(lia)) as (s1 & -> & Hs1). cbn [rbind].
    destruct (op_shl_ok _ _ 32 (of_unsigned_ok _ Hw2) ltac:(lia)) as (s2 & -> & Hs2). cbn [rbind].
    eexists. split; [done|]. eapply denotes_mod; [apply op_add_ok; [apply op_add_ok|]; [|exact Hs1|exact Hs2]|].
    { apply denotes_words; [apply word_u64|exact Hw0]. }
    rewrite <- Hgoal. rewrite <- !Z.add_assoc, u128_high. unfold uval.
    apply (u128_multiple _ _ (- (hi_ a * hi_ b) - (hi_ a *64 lo_ b + lo_ a *64 hi_ b) / 2 ^ 64
      - (hi_ a * lo_ b) / 2 ^ 64 - (lo_ a * hi_ b) / 2 ^ 64)).
    unfold u64. rewrite !(Z.mod_eq _ (2 ^ 64)) by done. rewrite Ha, Hb. ring.
Qed.

(** ** Division *)

Lemma countl_zero_log2 x : 0 < x < 2 ^ 64 -> countl_zero 64 x = Ok (63 - Z.log2 x).
Proof.
  intros Hx. unfold countl_zero. rewrite CountLeadingZeroes_eq by first [by right; right; right | unfold word; lia].
  unfold clz. rewrite (proj2 (Z.eqb_neq x 0)) by lia. f_equal.
Qed.

Lemma Fls128_ok v : uint128_ok v -> uval v <> 0 -> Fls128 v = Ok (Z.log2 (uval v)).
Proof.
  intros [Hl Hh] Hv. unfold Fls128, Uint128High64, Uint128Low64, uval, word in *.
  destruct (hi_ v =? 0) eqn:E; bools; cbn [negb].
  - rewrite E in *. rewrite (proj2 (Z.eqb_neq (lo_ v) 0)) by lia. rewrite countl_zero_log2 by lia. cbn [rbind]. rewrite Z.mul_0_l, Z.add_0_l. f_equal. lia.
  - rewrite countl_zero_log2 by lia. cbn [rbind]. f_equal. symmetry. replace (127 - (63 - Z.log2 (hi_ v))) with (Z.log2 (hi_ v) + 64) by lia.
    pose proof (Z.log2_spec (hi_ v) ltac:(lia)) as Hs. pose proof (Z.log2_nonneg (hi_ v)).
    apply Z.log2_unique; [lia|]. replace (Z.succ (Z.log2 (hi_ v) + 64)) with (Z.succ (Z.log2 (hi_ v)) + 64) by lia.
    rewrite !Z.pow_add_r by lia. nia.
Qed.

(** One turn: the quotient takes in the next bit. *)
Lemma div_turn r den q zr zd zq : denotes r zr -> denotes den zd -> denotes q zq ->
  word 128 zr -> word 128 zd -> 0 <= zq -> 2 * zq + 1 < 2 ^ 128 ->
  exists q', op_shl q 1 = Ok q' /\
    let '(r', q'') := if op_ge r den then (op_sub r den, op_or q' (of_signed 1)) else (r, q') in
    denotes r' (if zd <=? zr then zr - zd else zr) /\ denotes q'' (2 * zq + if zd <=? zr then 1 else 0).
Proof.
  intros Hr Hd Hq Hzr Hzd Hzq Hmax. destruct (op_shl_ok q zq 1 Hq ltac:(lia)) as (q' & -> & Hq'). exists q'. split; [done|].
  rewrite op_ge_ok by by eapply denotes_ok. rewrite (denotes_val r zr), (denotes_val den zd) by done.
  rewrite Z.pow_1_r, Z.mul_comm in Hq'. destruct (zd <=? zr) eqn:E; [|by rewrite Z.add_0_r].
  split; [by apply op_sub_ok|]. pose proof (of_signed_ok 1 ltac:(lia)) as H1.
  assert (Hlor : 2 * zq + 1 = Z.lor (uval q') (uval (of_signed 1))).
  { rewrite (denotes_val q' (2 * zq)), (denotes_val (of_signed 1) 1) by (done || (unfold word; lia)).
    symmetry. apply (lor_digit zq 1 1); lia. }
  rewrite Hlor. apply op_or_ok; by eapply denotes_ok.
Qed.

Lemma div_loop_ok n : forall r den q zr zd zq D d, denotes r zr -> denotes den zd -> denotes q zq -> 0 < d -> word 128 D ->
  D = zq * 2 ^ Z.of_nat n * d + zr -> 0 <= zq -> 0 <= zr < d * 2 ^ Z.of_nat n -> word 128 zd ->
  (n <> 0%nat -> zd = d * 2 ^ (Z.of_nat n - 1)) ->
  exists q' r', div_loop n r den q = Ok (q', r') /\ denotes q' (D / d) /\ denotes r' (D mod d).
Proof.
  induction n as [|n IH]; intros r den q zr zd zq D d Hr Hden Hq Hd HD Heq Hzq Hzr Hzd Hzde.
  - exists q, r. split; [done|]. rewrite Z.mul_1_r in *.
    by rewrite <- (Z.div_unique_pos D d zq zr), <- (Z.mod_unique_pos D d zq zr) by lia.
  - specialize (Hzde ltac:(done)). rewrite Nat2Z.inj_succ in *. replace (Z.succ (Z.of_nat n) - 1) with (Z.of_nat n) in Hzde by lia.
    rewrite Z.pow_succ_r in * by lia. pose proof (Z.pow_pos_nonneg 2 (Z.of_nat n) ltac:(lia) ltac:(lia)) as Hp.
    set (P := 2 ^ Z.of_nat n) in *. unfold word in HD. assert (2 * zq + 1 <= D + 1) by nia.
    assert (Hmax : 2 * zq + 1 < 2 ^ 128). { destruct (decide (2 * zq = D)); [|nia]. assert (D mod 2 = 0) by (subst D; rewrite <- e at 1; mod_tac). mod_tac. }
    cbn [div_loop]. destruct (div_turn r den q zr zd zq) as (q' & -> & Hturn); try done; [unfold word; nia|]. cbn [rbind].
    destruct (if op_ge r den then _ else _) as [r' q'']. destruct Hturn as [Hr' Hq'].
    destruct (op_shr_ok den 1) as (den' & -> & Hden'); [by eapply denotes_ok|lia|]. cbn [rbind].
    rewrite (denotes_val den zd) in Hden' by done.
    eapply IH; [exact Hr'|exact Hden'|exact Hq'|done|done|..].
    + destruct (zd <=? zr) eqn:E; bools; subst zd; nia.
    + destruct (zd <=? zr); lia.
    + destruct (zd <=? zr) eqn:E; bools; subst zd; nia.
    + unfold word in *. split; [apply Z.div_pos; lia|]. apply Z.div_lt_upper_bound; lia.
    + intros Hn. rewrite Hzde. unfold P. replace (Z.of_nat n) with (Z.of_nat n - 1 + 1) at 1 by lia.
      rewrite Z.pow_add_r, Z.mul_assoc by lia. by apply Z.div_mul.
Qed.

Lemma of_signed_small x : 0 <= x < 2 ^ 63 -> denotes (of_signed x) x /\ uval (of_signed x) = x.
Proof.
  intros Hx. pose proof (of_signed_ok x ltac:(lia)) as Hd. split; [done|].
  apply (denotes_val _ _ Hd). unfold word. lia.
Qed.

(** The shift that aligns the divisor with the dividend. *)
Lemma log2_align d D : 0 < d <= D -> let s := Z.log2 D - Z.log2 d in 0 <= s < 128 \/ 2 ^ 128 <= D.
Proof.
  intros HdD s. destruct (decide (2 ^ 128 <= D)); [by right|left]. unfold s.
  pose proof (Z.log2_le_mono d D ltac:(lia)). pose proof (Z.log2_nonneg d). pose proof (proj1 (Z.log2_lt_pow2 D 128 ltac:(lia)) ltac:(lia)). lia.
Qed.

Lemma aligned d D s : 0 < d -> 0 < D < 2 ^ 128 -> s = Z.log2 D - Z.log2 d -> 0 <= s -> d * 2 ^ s < 2 ^ 128 /\ D < d * 2 ^ (s + 1).
Proof.
  intros Hd HD Hs Hs0. destruct (Z.log2_spec D ltac:(lia)) as [HD1 HD2], (Z.log2_spec d Hd) as [Hd1 Hd2].
  pose proof (Z.log2_nonneg d). pose proof (proj1 (Z.log2_lt_pow2 D 128 ltac:(lia)) ltac:(lia)). split.
  - apply (Z.lt_le_trans _ (2 ^ Z.succ (Z.log2 d) * 2 ^ s)); [apply Z.mul_lt_mono_pos_r; lia|].
    rewrite <- Z.pow_add_r by lia. apply Z.pow_le_mono_r; lia.
  - apply (Z.lt_le_trans _ (2 ^ Z.succ (Z.log2 D))); [lia|]. replace (Z.succ (Z.log2 D)) with (Z.log2 d + (s + 1)) by lia.
    rewrite Z.pow_add_r by lia. apply Z.mul_le_mono_nonneg_r; lia.
Qed.

Lemma DivModImpl_ok a b : uint128_ok a -> uint128_ok b -> uval b <> 0 ->
  exists q r, DivModImpl a b = Ok (q, r) /\ denotes q (uval a / uval b) /\ denotes r (uval a mod uval b).
Proof.
  intros Ha Hb Hnz. destruct (of_signed_small 0 ltac:(lia)) as [H0 Hv0], (of_signed_small 1 ltac:(lia)) as [H1 _].
  pose proof (uval_range a Ha) as Hra. pose proof (uval_range b Hb) as Hrb. unfold word in Hra, Hrb.
  unfold DivModImpl, op_gt, op_ne. rewrite !op_eq_ok, op_lt_ok, Hv0 by (done || by eapply denotes_ok).
  rewrite (proj2 (Z.eqb_neq (uval b) 0)) by done. cbn [negb orb cpp_assert].
  destruct (uval a <? uval b) eqn:Elt; bools; [|destruct (uval b =? uval a) eqn:Eeq; bools].
  - do 2 eexists. split; [done|]. rewrite Z.div_small, Z.mod_small by lia. split; [done|]. by apply denotes_self.
  - do 2 eexists. split; [done|]. rewrite Eeq, Z.div_same, Z.mod_same by lia. done.
  - rewrite !Fls128_ok by (done || lia). cbn [rbind].
    destruct (log2_align (uval b) (uval a)) as [Hs|]; [lia| |lia]. set (s := Z.log2 (uval a) - Z.log2 (uval b)) in *.
    destruct (op_shl_ok b _ s (denotes_self b Hb) Hs) as (den & -> & Hden). cbn [rbind].
    destruct (aligned (uval b) (uval a) s) as [Hmax Hlt]; [lia|lia|done|lia|].
    destruct (div_loop_ok (Z.to_nat (s + 1)) a den (of_signed 0) (uval a) (uval b * 2 ^ s) 0 (uval a) (uval b)) as (q & r & Hrun & Hqr);
      rewrite ?Z2Nat.id by lia; try done; [by apply denotes_self|lia|lia|unfold word; nia| |by exists q, r].
    intros _. do 2 f_equal. lia.
Qed.

(** A division by zero: undefined on the intrinsic type, an assertion of
    [DivModImpl], and without assertions undefined in [Fls128], except that
    zero equals itself. *)
Lemma op_div_mod_zero a b : uint128_ok a -> uint128_ok b -> uval b = 0 ->
  if negb have_int128 && no_asserts && (uval a =? 0)
  then op_div a b = Ok (of_signed 1) /\ op_mod a b = Ok (of_signed 0)
  else let e := if negb have_int128 && negb no_asserts then AssertFailed else Undefined in
       op_div a b = Err e /\ op_mod a b = Err e.
Proof.
  intros Ha Hb Hz. unfold op_div, op_mod. destruct have_int128; cbn [negb andb].
  - rewrite (to_intrinsic_ok b _ (denotes_self b Hb)), u128_word by (by apply uval_range). by rewrite Hz.
  - destruct (of_signed_small 0 ltac:(lia)) as [H0 Hv0]. pose proof (uval_range a Ha) as Hra. unfold word in Hra.
    unfold DivModImpl, op_ne, op_gt. rewrite !op_eq_ok, op_lt_ok, Hz, Hv0 by (done || by eapply denotes_ok).
    destruct no_asserts; cbn [negb andb]; [|done].
    rewrite (proj2 (Z.ltb_ge (uval a) 0)), (Z.eqb_sym 0 (uval a)) by lia. rewrite ?orb_true_r. cbn [cpp_assert].
    destruct (uval a =? 0) eqn:E; [done|]. bools. rewrite Fls128_ok by done. cbn [rbind].
    assert (Fls128 b = Err Undefined) as ->; [|done]. destruct Hb as [Hl Hh]. unfold Fls128, Uint128High64, Uint128Low64, uval, word in *.
    rewrite (proj2 (Z.eqb_eq (hi_ b) 0)), (proj2 (Z.eqb_eq (lo_ b) 0)) by lia. done.
Qed.

Lemma op_div_mod_ok a b : uint128_ok a -> uint128_ok b -> uval b <> 0 ->
  exists q r, op_div a b = Ok q /\ op_mod a b = Ok r /\ denotes q (uval a / uval b) /\ denotes r (uval a mod uval b).
Proof.
  intros Ha Hb E. unfold op_div, op_mod. pose proof (uval_range a Ha) as Hra. pose proof (uval_range b Hb) as Hrb.
  rewrite (to_intrinsic_ok a _ (denotes_self a Ha)), (to_intrinsic_ok b _ (denotes_self b Hb)), !u128_word by done.
  rewrite (proj2 (Z.eqb_neq (uval b) 0)) by done. unfold word in *. destruct have_int128.
  - do 2 eexists. do 2 (split; [done|]). split; apply of_intrinsic_ok; unfold word.
    + split; [apply Z.div_pos; lia|]. apply Z.div_lt_upper_bound; nia.
    + pose proof (Z.mod_pos_bound (uval a) (uval b) ltac:(lia)). lia.
  - destruct (DivModImpl_ok a b Ha Hb E) as (q & r & -> & Hq & Hr). by exists q, r.
Qed.
End operators.
