(* ===== verification/Int128.v ===== *)
(** * Int128: signed 128-bit integers
    (src/abseil-cpp/absl/numeric/int128.h, int128.cc, int128_no_intrinsic.inc,
    int128_have_intrinsic.inc)

    The type has two representations, one for a compiler without [__int128]
    and one that wraps it. [Int128Rep] and [Int128Type] are their interface, on
    which the code of int128.h and int128.cc that does not depend on the
    representation is written; the modules [no_intrinsic] and [have_intrinsic]
    are the two files.

    Signed arithmetic that overflows is undefined. A left shift of a negative
    value is what C++20 makes it, and gcc and clang in every standard. *)

From S2P Require Import Prelude.
From S2P Require Import Word.
From S2P Require Import Bits.
From S2P Require Import Uint128.

(** ** The machine's operations *)

Definition in_range (w z : Z) : bool := (- 2 ^ (w - 1) <=? z) && (z <? 2 ^ (w - 1)).

(** The result of signed arithmetic on [w] bits. *)
Definition checked (w z : Z) : result Z := if in_range w z then Ok z else Err Undefined.

Definition shl_signed (w x n : Z) : result Z :=
  if (0 <=? n) && (n <? w) then Ok (signed w (Z.shiftl x n)) else Err Undefined.

Definition int64_min : Z := - 2 ^ 63.
Definition int64_max : Z := 2 ^ 63 - 1.

(** [BitCastToSigned] of int128.h. *)
Definition BitCastToSigned (v : Z) : Z :=
  if negb (Z.land v (2 ^ 63) =? 0) then Z.lnot (signed 64 (not64 v)) else signed 64 v.

(** ** The interface *)

Class Int128Rep (T : Type) := {
  Int128Low64 : T -> Z;
  Int128High64 : T -> Z;
  MakeInt128 : Z -> Z -> T;
  int128_of_signed : Z -> T;
  int128_of_unsigned : Z -> T;
  int128_of_uint128 : uint128 -> T;
}.

Section rep.
Context {T : Type} `{Compiler} `{Int128Rep T}.

(** [uint128(int128)]. *)
Definition of_int128 (v : T) : uint128 := {| lo_ := Int128Low64 v; hi_ := u64 (Int128High64 v) |}.

Definition Int128Max : T := MakeInt128 int64_max uint64_max.
Definition Int128Min : T := MakeInt128 int64_min 0.

Definition UnsignedAbsoluteValue (v : T) : uint128 :=
  if Int128High64 v <? 0 then op_neg (of_int128 v) else of_int128 v.
End rep.

Class Int128Type (T : Type) `{Int128Rep T} := {
  int128_to_bool : T -> bool;
  int128_to_char : T -> Z;
  int128_to_schar : T -> Z;
  int128_to_uchar : T -> Z;
  int128_to_char16 : T -> Z;
  int128_to_char32 : T -> Z;
  int128_to_wchar : T -> Z;
  int128_to_short : T -> Z;
  int128_to_ushort : T -> Z;
  int128_to_int : T -> Z;
  int128_to_uint : T -> Z;
  int128_to_long : T -> Z;
  int128_to_ulong : T -> Z;
  int128_to_llong : T -> Z;
  int128_to_ullong : T -> Z;
  int128_eq : T -> T -> bool;
  int128_ne : T -> T -> bool;
  int128_lt : T -> T -> bool;
  int128_gt : T -> T -> bool;
  int128_le : T -> T -> bool;
  int128_ge : T -> T -> bool;
  int128_neg : T -> result T;
  int128_not : T -> bool;
  int128_compl : T -> T;
  int128_add : T -> T -> result T;
  int128_sub : T -> T -> result T;
  int128_mul : T -> T -> result T;
  int128_div : T -> T -> result T;
  int128_mod : T -> T -> result T;
  int128_or : T -> T -> T;
  int128_and : T -> T -> T;
  int128_xor : T -> T -> T;
  int128_shl : T -> Z -> result T;
  int128_shr : T -> Z -> result T;
  int128_incr : T -> result T;
  int128_decr : T -> result T;
  int128_postincr : T -> result (T * T);
  int128_postdecr : T -> result (T * T);
}.

(** ** int128_no_intrinsic.inc *)

Module no_intrinsic.
Record int128 := mkInt128 { low : Z; high : Z }.

Definition Low64 (v : int128) : Z := low v.
Definition High64 (v : int128) : Z := high v.
Definition Make (h l : Z) : int128 := {| low := l; high := h |}.

Definition of_signed (v : Z) : int128 := {| low := u64 v; high := if v <? 0 then Z.lnot 0 else 0 |}.
Definition of_unsigned (v : Z) : int128 := {| low := v; high := 0 |}.
Definition of_uint128 (v : uint128) : int128 := {| low := Uint128Low64 v; high := signed 64 (Uint128High64 v) |}.

#[global] Instance rep : Int128Rep int128 := {|
  Int128Low64 := Low64; Int128High64 := High64; MakeInt128 := Make;
  int128_of_signed := of_signed; int128_of_unsigned := of_unsigned; int128_of_uint128 := of_uint128 |}.

Definition to_bool (v : int128) : bool := negb (low v =? 0) || negb (high v =? 0).
Definition to_llong (v : int128) : Z := BitCastToSigned (low v).
Definition to_char (v : int128) : Z := signed 8 (to_llong v).
Definition to_schar (v : int128) : Z := signed 8 (to_llong v).
Definition to_uchar (v : int128) : Z := unsigned 8 (low v).
Definition to_char16 (v : int128) : Z := unsigned 16 (low v).
Definition to_char32 (v : int128) : Z := unsigned 32 (low v).
Definition to_wchar (v : int128) : Z := signed 32 (to_llong v).
Definition to_short (v : int128) : Z := signed 16 (to_llong v).
Definition to_ushort (v : int128) : Z := unsigned 16 (low v).
Definition to_int (v : int128) : Z := signed 32 (to_llong v).
Definition to_uint (v : int128) : Z := unsigned 32 (low v).
Definition to_long (v : int128) : Z := signed 64 (to_llong v).
Definition to_ulong (v : int128) : Z := unsigned 64 (low v).
Definition to_ullong (v : int128) : Z := unsigned 64 (low v).

Definition eq (lhs rhs : int128) : bool := (Low64 lhs =? Low64 rhs) && (High64 lhs =? High64 rhs).
Definition ne (lhs rhs : int128) : bool := negb (eq lhs rhs).
Definition lt (lhs rhs : int128) : bool :=
  if High64 lhs =? High64 rhs then Low64 lhs <? Low64 rhs else High64 lhs <? High64 rhs.
Definition gt (lhs rhs : int128) : bool :=
  if High64 lhs =? High64 rhs then Low64 rhs <? Low64 lhs else High64 rhs <? High64 lhs.
Definition le (lhs rhs : int128) : bool := negb (gt lhs rhs).
Definition ge (lhs rhs : int128) : bool := negb (lt lhs rhs).

Definition neg (v : int128) : result int128 :=
  let* h := checked 64 (Z.lnot (High64 v) + (if Low64 v =? 0 then 1 else 0)) in
  Ok (Make h (not64 (Low64 v) +64 1)).
Definition not (v : int128) : bool := (Low64 v =? 0) && (High64 v =? 0).
Definition compl (val : int128) : int128 := Make (Z.lnot (High64 val)) (not64 (Low64 val)).

Definition SignedAddResult (result lhs : int128) : Prelude.result int128 :=
  if Low64 result <? Low64 lhs
  then let* h := checked 64 (High64 result + 1) in Ok (Make h (Low64 result)) else Ok result.
Definition add (lhs rhs : int128) : result int128 :=
  let* h := checked 64 (High64 lhs + High64 rhs) in
  SignedAddResult (Make h (Low64 lhs +64 Low64 rhs)) lhs.

Definition SignedSubstructResult (result lhs rhs : int128) : Prelude.result int128 :=
  if Low64 lhs <? Low64 rhs
  then let* h := checked 64 (High64 result - 1) in Ok (Make h (Low64 result)) else Ok result.
Definition sub (lhs rhs : int128) : result int128 :=
  let* h := checked 64 (High64 lhs - High64 rhs) in
  SignedSubstructResult (Make h (Low64 lhs -64 Low64 rhs)) lhs rhs.

Definition or (lhs rhs : int128) : int128 := Make (Z.lor (High64 lhs) (High64 rhs)) (Z.lor (Low64 lhs) (Low64 rhs)).
Definition and (lhs rhs : int128) : int128 := Make (Z.land (High64 lhs) (High64 rhs)) (Z.land (Low64 lhs) (Low64 rhs)).
Definition xor (lhs rhs : int128) : int128 := Make (High64 lhs ^^ High64 rhs) (Low64 lhs ^^ Low64 rhs).

Section operators.
Context `{Compiler}.

Definition mul (lhs rhs : int128) : result int128 :=
  let* h := op_mul (of_int128 lhs) (of_int128 rhs) in
  let* l := op_mul (of_int128 lhs) (of_int128 rhs) in
  Ok (Make (BitCastToSigned (Uint128High64 h)) (Uint128Low64 l)).

(** The operators of int128.cc. *)
Definition div (lhs rhs : int128) : result int128 :=
  cpp_assert (ne lhs Int128Min || ne rhs (of_signed (-1)) || no_asserts) (
  let* r := DivModImpl (UnsignedAbsoluteValue lhs) (UnsignedAbsoluteValue rhs) in
  let '(quotient, remainder) := r in
  let quotient := if negb (eqb (High64 lhs <? 0) (High64 rhs <? 0)) then op_neg quotient else quotient in
  Ok (Make (BitCastToSigned (Uint128High64 quotient)) (Uint128Low64 quotient))).

Definition modulo (lhs rhs : int128) : result int128 :=
  cpp_assert (ne lhs Int128Min || ne rhs (of_signed (-1)) || no_asserts) (
  let* r := DivModImpl (UnsignedAbsoluteValue lhs) (UnsignedAbsoluteValue rhs) in
  let '(quotient, remainder) := r in
  let remainder := if High64 lhs <? 0 then op_neg remainder else remainder in
  Ok (Make (BitCastToSigned (Uint128High64 remainder)) (Uint128Low64 remainder))).

Definition shift_left (lhs : int128) (amount : Z) : result int128 :=
  cpp_assert ((0 <=? amount) && (amount <? 127) || no_asserts) (
  if amount <=? 0 then Ok lhs
  else if amount <? 63 then
    let* a := shl_signed 64 (High64 lhs) amount in
    let* b := shr 64 (Low64 lhs) (64 - amount) in
    let* c := shl 64 (Low64 lhs) amount in
    Ok (Make (Z.lor a (signed 64 b)) c)
  else if amount =? 63 then
    let* a := shl_signed 64 (High64 lhs) 32 in
    let* a := shl_signed 64 a 31 in
    let* b := shr 64 (Low64 lhs) 1 in
    let* c := shl 64 (Low64 lhs) 32 in
    let* c := shl 64 c 31 in
    Ok (Make (Z.lor a (signed 64 b)) c)
  else if amount =? 127 then let* a := shl 64 (Low64 lhs) 63 in Ok (Make (signed 64 a) 0)
  else if 127 <? amount then Ok (Make 0 0)
  else let* a := shl 64 (Low64 lhs) (amount - 64) in Ok (Make (signed 64 a) 0)).

Definition shift_right (lhs : int128) (amount : Z) : result int128 :=
  cpp_assert ((0 <=? amount) && (amount <? 127) || no_asserts) (
  if amount <=? 0 then Ok lhs
  else if amount <? 63 then
    let* a := shr 64 (High64 lhs) amount in
    let* b := shr 64 (Low64 lhs) amount in
    let* c := shl 64 (u64 (High64 lhs)) (64 - amount) in
    Ok (Make a (Z.lor b c))
  else
    let* sign := shr 64 (High64 lhs) 32 in
    let* sign := shr 64 sign 31 in
    if amount =? 63 then
      let* b := shl_signed 64 (High64 lhs) 1 in
      let* c := shr 64 (Low64 lhs) 32 in
      let* c := shr 64 c 31 in
      Ok (Make sign (Z.lor (u64 b) c))
    else if 127 <=? amount then Ok (Make sign (u64 sign))
    else let* b := shr 64 (High64 lhs) (amount - 64) in Ok (Make sign (u64 b))).

(** The prefix and the postfix operators, as in Uint128.v. *)
Definition incr (v : int128) : result int128 := add v (of_signed 1).
Definition decr (v : int128) : result int128 := sub v (of_signed 1).
Definition postincr (v : int128) : result (int128 * int128) := let tmp := v in let* v := add v (of_signed 1) in Ok (v, tmp).
Definition postdecr (v : int128) : result (int128 * int128) := let tmp := v in let* v := sub v (of_signed 1) in Ok (v, tmp).

#[global] Instance type : Int128Type int128 := {|
  int128_to_bool := to_bool; int128_to_char := to_char; int128_to_schar := to_schar; int128_to_uchar := to_uchar;
  int128_to_char16 := to_char16; int128_to_char32 := to_char32; int128_to_wchar := to_wchar;
  int128_to_short := to_short; int128_to_ushort := to_ushort; int128_to_int := to_int; int128_to_uint := to_uint;
  int128_to_long := to_long; int128_to_ulong := to_ulong; int128_to_llong := to_llong; int128_to_ullong := to_ullong;
  int128_eq := eq; int128_ne := ne; int128_lt := lt; int128_gt := gt; int128_le := le; int128_ge := ge;
  int128_neg := neg; int128_not := not; int128_compl := compl;
  int128_add := add; int128_sub := sub; int128_mul := mul; int128_div := div; int128_mod := modulo;
  int128_or := or; int128_and := and; int128_xor := xor; int128_shl := shift_left; int128_shr := shift_right;
  int128_incr := incr; int128_decr := decr; int128_postincr := postincr; int128_postdecr := postdecr |}.
End operators.
End no_intrinsic.

(** ** int128_have_intrinsic.inc *)

Module have_intrinsic.
Record int128 := mkInt128 { v_ : Z }.

(** [BitCastToSigned] of an [unsigned __int128]. *)
Definition BitCastToSigned128 (v : Z) : Z :=
  if negb (Z.land v (2 ^ 127) =? 0) then Z.lnot (signed 128 (u128 (Z.lnot v))) else signed 128 v.

Definition Low64 (v : int128) : Z := u64 (Z.land (v_ v) uint64_max).
Definition High64 (v : int128) : Z := BitCastToSigned (u64 (u128 (v_ v) >> 64)).
Definition Make (high low : Z) : int128 :=
  {| v_ := Z.lor (BitCastToSigned128 (u128 (Z.shiftl (u128 high) 64))) low |}.

Definition of_signed (v : Z) : int128 := {| v_ := v |}.
Definition of_unsigned (v : Z) : int128 := {| v_ := v |}.

(** [uint128::operator __int128()], and the constructor that uses it. *)
Definition uint128_to_signed (v : uint128) : Z := signed 128 (Z.shiftl (signed 128 (hi_ v)) 64) + lo_ v.
Definition of_uint128 (v : uint128) : int128 := {| v_ := uint128_to_signed v |}.

#[global] Instance rep : Int128Rep int128 := {|
  Int128Low64 := Low64; Int128High64 := High64; MakeInt128 := Make;
  int128_of_signed := of_signed; int128_of_unsigned := of_unsigned; int128_of_uint128 := of_uint128 |}.

Definition to_bool (v : int128) : bool := negb (v_ v =? 0).
Definition to_char (v : int128) : Z := signed 8 (v_ v).
Definition to_schar (v : int128) : Z := signed 8 (v_ v).
Definition to_uchar (v : int128) : Z := unsigned 8 (v_ v).
Definition to_char16 (v : int128) : Z := unsigned 16 (v_ v).
Definition to_char32 (v : int128) : Z := unsigned 32 (v_ v).
Definition to_wchar (v : int128) : Z := signed 32 (v_ v).
Definition to_short (v : int128) : Z := signed 16 (v_ v).
Definition to_ushort (v : int128) : Z := unsigned 16 (v_ v).
Definition to_int (v : int128) : Z := signed 32 (v_ v).
Definition to_uint (v : int128) : Z := unsigned 32 (v_ v).
Definition to_long (v : int128) : Z := signed 64 (v_ v).
Definition to_ulong (v : int128) : Z := unsigned 64 (v_ v).
Definition to_llong (v : int128) : Z := signed 64 (v_ v).
Definition to_ullong (v : int128) : Z := unsigned 64 (v_ v).

Definition eq (lhs rhs : int128) : bool := v_ lhs =? v_ rhs.
Definition ne (lhs rhs : int128) : bool := negb (v_ lhs =? v_ rhs).
Definition lt (lhs rhs : int128) : bool := v_ lhs <? v_ rhs.
Definition gt (lhs rhs : int128) : bool := v_ rhs <? v_ lhs.
Definition le (lhs rhs : int128) : bool := v_ lhs <=? v_ rhs.
Definition ge (lhs rhs : int128) : bool := v_ rhs <=? v_ lhs.

(** Arithmetic on [__int128], and its result as an [int128]. *)
Definition arithmetic (z : Z) : result int128 := let* v := checked 128 z in Ok {| v_ := v |}.

Definition neg (v : int128) : result int128 := arithmetic (- v_ v).
Definition not (v : int128) : bool := v_ v =? 0.
Definition compl (val : int128) : int128 := {| v_ := Z.lnot (v_ val) |}.
Definition add (lhs rhs : int128) : result int128 := arithmetic (v_ lhs + v_ rhs).
Definition sub (lhs rhs : int128) : result int128 := arithmetic (v_ lhs - v_ rhs).
Definition mul (lhs rhs : int128) : result int128 := arithmetic (v_ lhs * v_ rhs).
Definition div (lhs rhs : int128) : result int128 :=
  if v_ rhs =? 0 then Err Undefined else arithmetic (Z.quot (v_ lhs) (v_ rhs)).

(** The remainder is undefined where the quotient is. *)
Definition modulo (lhs rhs : int128) : result int128 :=
  let* q := div lhs rhs in Ok {| v_ := Z.rem (v_ lhs) (v_ rhs) |}.

Definition or (lhs rhs : int128) : int128 := {| v_ := Z.lor (v_ lhs) (v_ rhs) |}.
Definition and (lhs rhs : int128) : int128 := {| v_ := Z.land (v_ lhs) (v_ rhs) |}.
Definition xor (lhs rhs : int128) : int128 := {| v_ := v_ lhs ^^ v_ rhs |}.

Definition shift_left (lhs : int128) (amount : Z) : result int128 :=
  let* v := shl_signed 128 (v_ lhs) amount in Ok {| v_ := v |}.
Definition shift_right (lhs : int128) (amount : Z) : result int128 :=
  let* v := shr 128 (v_ lhs) amount in Ok {| v_ := v |}.

(** [++v_] and [--v_]. *)
Definition incr (v : int128) : result int128 := arithmetic (v_ v + 1).
Definition decr (v : int128) : result int128 := arithmetic (v_ v - 1).
Definition postincr (v : int128) : result (int128 * int128) := let tmp := v in let* v := incr v in Ok (v, tmp).
Definition postdecr (v : int128) : result (int128 * int128) := let tmp := v in let* v := decr v in Ok (v, tmp).

#[global] Instance type : Int128Type int128 := {|
  int128_to_bool := to_bool; int128_to_char := to_char; int128_to_schar := to_schar; int128_to_uchar := to_uchar;
  int128_to_char16 := to_char16; int128_to_char32 := to_char32; int128_to_wchar := to_wchar;
  int128_to_short := to_short; int128_to_ushort := to_ushort; int128_to_int := to_int; int128_to_uint := to_uint;
  int128_to_long := to_long; int128_to_ulong := to_ulong; int128_to_llong := to_llong; int128_to_ullong := to_ullong;
  int128_eq := eq; int128_ne := ne; int128_lt := lt; int128_gt := gt; int128_le := le; int128_ge := ge;
  int128_neg := neg; int128_not := not; int128_compl := compl;
  int128_add := add; int128_sub := sub; int128_mul := mul; int128_div := div; int128_mod := modulo;
  int128_or := or; int128_and := and; int128_xor := xor; int128_shl := shift_left; int128_shr := shift_right;
  int128_incr := incr; int128_decr := decr; int128_postincr := postincr; int128_postdecr := postdecr |}.
End have_intrinsic.
