(* ===== verification/Int128Inv.v ===== *)
(** * Int128Inv: the laws of int128 (lemmas for Int128.v)

    [Int128Laws] says what the operations of the interface compute on the
    integers that the values stand for; both representations satisfy it. *)

From S2P Require Import Prelude.
From S2P Require Import Word.
From S2P Require Import Bits.
From S2P Require Import Uint128.
From S2P Require Import Int128.

(** ** Signed ranges *)

Definition sword (w z : Z) : Prop := - 2 ^ (w - 1) <= z < 2 ^ (w - 1).

Lemma checked_ok w z : sword w z -> checked w z = Ok z.
Proof. intros [H1 H2]. unfold checked, in_range. by rewrite (proj2 (Z.leb_le _ _) H1), (proj2 (Z.ltb_lt _ _) H2). Qed.

Lemma checked_err w z : ~ sword w z -> checked w z = Err Undefined.
Proof.
  intros Hz. unfold checked, in_range. destruct (_ <=? z) eqn:E1; bools; [|done]. destruct (z <? _) eqn:E2; bools; [|done].
  by destruct Hz.
Qed.

Lemma pow2_half w : 0 < w -> 0 < 2 ^ (w - 1) /\ 2 ^ w = 2 * 2 ^ (w - 1).
Proof. intros Hw. split; [lia|]. replace w with (w - 1 + 1) at 1 by lia. rewrite Z.pow_add_r by lia. lia. Qed.

Lemma sword_signed w z : 0 < w -> sword w (signed w z).
Proof.
  intros Hw. unfold sword, signed. destruct (pow2_half w Hw) as [Hp Hd].
  pose proof (Z.mod_pos_bound (z + 2 ^ (w - 1)) (2 ^ w) ltac:(lia)). lia.
Qed.

(** A value in range is the signed value of what it is congruent to. *)
Lemma signed_unique w z r q : 0 < w -> sword w r -> z = r + q * 2 ^ w -> signed w z = r.
Proof.
  intros Hw Hr ->. unfold sword, signed in *. destruct (pow2_half w Hw) as [Hp Hd].
  replace (r + q * 2 ^ w + 2 ^ (w - 1)) with (r + 2 ^ (w - 1) + q * 2 ^ w) by ring.
  rewrite Z.mod_add, Z.mod_small by lia. lia.
Qed.

Lemma signed_id w z : 0 < w -> sword w z -> signed w z = z.
Proof. intros Hw Hz. apply (signed_unique w z z 0); [done|done|lia]. Qed.

Lemma signed_cong w z : 0 < w -> exists q, signed w z = z + q * 2 ^ w.
Proof.
  intros Hw. unfold signed. destruct (pow2_half w Hw) as [Hp Hd]. exists (- ((z + 2 ^ (w - 1)) / 2 ^ w)).
  rewrite Z.mod_eq by lia. ring.
Qed.

Lemma signed_add w z k : 0 < w -> signed w (z + k * 2 ^ w) = signed w z.
Proof.
  intros Hw. destruct (signed_cong w z Hw) as [q Hq]. apply (signed_unique w _ _ (k - q)); [done|by apply sword_signed|].
  rewrite Hq. ring.
Qed.

(** A narrower type does not see the high bits. *)
Lemma signed_narrow w v z k : 0 < w <= v -> signed w (z + k * 2 ^ v) = signed w z.
Proof.
  intros Hw. replace v with (v - w + w) by lia. rewrite Z.pow_add_r, Z.mul_assoc by lia. apply signed_add. lia.
Qed.
Lemma unsigned_narrow w v z k : 0 < w <= v -> unsigned w (z + k * 2 ^ v) = unsigned w z.
Proof.
  intros Hw. replace v with (v - w + w) by lia. rewrite Z.pow_add_r, Z.mul_assoc by lia. unfold unsigned. apply Z.mod_add. lia.
Qed.

Lemma sword_shiftr w z n : 0 < w -> 0 <= n -> sword w z -> sword w (z >> n).
Proof.
  intros Hw Hn [H1 H2]. unfold sword. destruct (pow2_half w Hw) as [Hp _]. rewrite Z.shiftr_div_pow2 by done.
  assert (0 < 2 ^ n) by lia. split; [apply Z.div_le_lower_bound; nia|apply Z.div_lt_upper_bound; nia].
Qed.

(** Bitwise operators stay in range: all bits from the sign on are the sign. *)
Lemma sword_sign w z : 0 < w -> sword w z <-> z >> (w - 1) = 0 \/ z >> (w - 1) = -1.
Proof.
  intros Hw. destruct (pow2_half w Hw) as [Hp _]. rewrite Z.shiftr_div_pow2 by lia. unfold sword.
  pose proof (Z.div_mod z (2 ^ (w - 1)) ltac:(lia)). pose proof (Z.mod_pos_bound z (2 ^ (w - 1)) Hp).
  split; [|intros [Hq|Hq]; rewrite Hq in *; lia]. intros Hz.
  destruct (decide (0 <= z)); [left; apply Z.div_small; lia|right; nia].
Qed.

Lemma sword_lor w x y : 0 < w -> sword w x -> sword w y -> sword w (Z.lor x y).
Proof.
  intros Hw Hx%sword_sign Hy%sword_sign; try done. apply sword_sign; [done|]. rewrite Z.shiftr_lor.
  destruct Hx as [->| ->], Hy as [->| ->]; [by left|by right..].
Qed.
Lemma sword_land w x y : 0 < w -> sword w x -> sword w y -> sword w (Z.land x y).
Proof.
  intros Hw Hx%sword_sign Hy%sword_sign; try done. apply sword_sign; [done|]. rewrite Z.shiftr_land.
  destruct Hx as [->| ->], Hy as [->| ->]; [by left..|by right].
Qed.
Lemma sword_lxor w x y : 0 < w -> sword w x -> sword w y -> sword w (x ^^ y).
Proof.
  intros Hw Hx%sword_sign Hy%sword_sign; try done. apply sword_sign; [done|]. rewrite Z.shiftr_lxor.
  destruct Hx as [->| ->], Hy as [->| ->]; [by left|by right|by right|by left].
Qed.
Lemma sword_lnot w x : sword w x -> sword w (Z.lnot x).
Proof. unfold sword, Z.lnot. lia. Qed.

Lemma top_bit w v : 0 < w -> word w v -> (Z.land v (2 ^ (w - 1)) =? 0) = (v <? 2 ^ (w - 1)).
Proof.
  intros Hw Hv. destruct (pow2_half w Hw) as [Hp Hd]. unfold word in Hv. apply eq_true_iff_eq. rewrite Z.eqb_eq, Z.ltb_lt.
  assert (Hbit : Z.testbit v (w - 1) = negb (v <? 2 ^ (w - 1))).
  { rewrite <- Z.leb_antisym. destruct (2 ^ (w - 1) <=? v) eqn:E; bools.
    - replace v with (v - 2 ^ (w - 1) + 1 * 2 ^ (w - 1)) by lia. rewrite Z.testbit_eqb, Z.div_add, Z.div_small by lia. done.
    - rewrite Z.testbit_eqb, Z.div_small by lia. done. }
  split; intros Hz.
  - assert (Hf : Z.testbit (Z.land v (2 ^ (w - 1))) (w - 1) = false) by (rewrite Hz; apply Z.bits_0).
    rewrite Z.land_spec, Z.pow2_bits_true, andb_true_r, Hbit in Hf by lia. apply negb_false_iff in Hf. by bools.
  - apply Z.bits_inj'. intros n Hn. rewrite Z.land_spec, Z.bits_0. destruct (decide (n = w - 1)) as [->|].
    + rewrite Hbit, (proj2 (Z.ltb_lt _ _) Hz). done.
    + by rewrite Z.pow2_bits_false, andb_false_r by lia.
Qed.

Lemma BitCastToSigned_eq v : word 64 v -> BitCastToSigned v = signed 64 v.
Proof.
  intros Hv. unfold BitCastToSigned. change (2 ^ 63) with (2 ^ (64 - 1)). rewrite (top_bit 64 v) by done. destruct (v <? 2 ^ (64 - 1)) eqn:E; bools; cbn [negb]; [done|].
  unfold word in Hv. rewrite not64_u64. unfold Z.lnot. rewrite (signed_unique 64 (u64 (-1 - v)) (2 ^ 64 - 1 - v) 0) by (done || unfold sword; mod_tac).
  symmetry. apply (signed_unique 64 _ _ 1); [done|unfold sword; lia|lia].
Qed.

Lemma signed_word w v : 0 < w -> word w v -> signed w v = if v <? 2 ^ (w - 1) then v else v - 2 ^ w.
Proof.
  intros Hw Hv. destruct (pow2_half w Hw) as [Hp Hd]. unfold word in Hv. destruct (v <? 2 ^ (w - 1)) eqn:E; bools.
  - apply signed_id; [done|]. unfold sword. lia.
  - apply (signed_unique w _ _ 1); [done|unfold sword; lia|lia].
Qed.

(** ** The laws *)

(** The integer that a value stands for. *)
Definition ival {T} `{Int128Rep T} (v : T) : Z := Int128High64 v * 2 ^ 64 + Int128Low64 v.

(** What a result is: the value [z]. *)
Definition yields {T} `{Int128Rep T} (ok : T -> Prop) (r : result T) (z : Z) : Prop :=
  exists v, r = Ok v /\ ok v /\ ival v = z.

(** The values of a representation, what the high words may add up to in its
    [operator+] and [operator-], and the amounts of its shifts. *)
Class Int128Range (T : Type) := { int128_ok : T -> Prop; high_ok : Z -> Prop; amount_ok : Z -> Prop }.

Class Int128Laws (T : Type) `{Compiler} `{Int128Type T} `{Int128Range T} : Prop := {
  law_words : forall v, int128_ok v -> word 64 (Int128Low64 v) /\ sword 64 (Int128High64 v);
  law_make : forall h l, sword 64 h -> word 64 l ->
    let v := MakeInt128 h l in int128_ok v /\ Int128High64 v = h /\ Int128Low64 v = l;
  law_of_signed : forall z, sword 64 z -> int128_ok (int128_of_signed z) /\ ival (int128_of_signed z) = z;
  law_of_unsigned : forall z, word 64 z -> int128_ok (int128_of_unsigned z) /\ ival (int128_of_unsigned z) = z;
  law_of_uint128 : forall v, uint128_ok v ->
    int128_ok (int128_of_uint128 v) /\ ival (int128_of_uint128 v) = signed 128 (uval v);
  law_to_bool : forall v, int128_ok v -> int128_to_bool v = negb (ival v =? 0);
  law_to_signed : forall v, int128_ok v ->
    int128_to_char v = signed 8 (ival v) /\ int128_to_schar v = signed 8 (ival v) /\
    int128_to_short v = signed 16 (ival v) /\ int128_to_int v = signed 32 (ival v) /\ int128_to_wchar v = signed 32 (ival v) /\
    int128_to_long v = signed 64 (ival v) /\ int128_to_llong v = signed 64 (ival v);
  law_to_unsigned : forall v, int128_ok v ->
    int128_to_uchar v = unsigned 8 (ival v) /\ int128_to_char16 v = unsigned 16 (ival v) /\ int128_to_char32 v = unsigned 32 (ival v) /\
    int128_to_ushort v = unsigned 16 (ival v) /\ int128_to_uint v = unsigned 32 (ival v) /\
    int128_to_ulong v = unsigned 64 (ival v) /\ int128_to_ullong v = unsigned 64 (ival v);
  law_compare : forall a b, int128_ok a -> int128_ok b ->
    int128_eq a b = (ival a =? ival b) /\ int128_ne a b = negb (ival a =? ival b) /\
    int128_lt a b = (ival a <? ival b) /\ int128_gt a b = (ival b <? ival a) /\
    int128_le a b = (ival a <=? ival b) /\ int128_ge a b = (ival b <=? ival a);
  law_neg : forall v, int128_ok v ->
    if ival v =? - 2 ^ 127 then int128_neg v = Err Undefined else yields int128_ok (int128_neg v) (- ival v);
  law_not : forall v, int128_ok v -> int128_not v = (ival v =? 0);
  law_compl : forall v, int128_ok v -> int128_ok (int128_compl v) /\ ival (int128_compl v) = Z.lnot (ival v);
  law_add : forall a b, int128_ok a -> int128_ok b ->
    (sword 128 (ival a + ival b) -> high_ok (Int128High64 a + Int128High64 b) ->
       yields int128_ok (int128_add a b) (ival a + ival b)) /\
    (~ sword 128 (ival a + ival b) -> int128_add a b = Err Undefined);
  law_sub : forall a b, int128_ok a -> int128_ok b ->
    (sword 128 (ival a - ival b) -> high_ok (Int128High64 a - Int128High64 b) ->
       yields int128_ok (int128_sub a b) (ival a - ival b)) /\
    (~ sword 128 (ival a - ival b) -> int128_sub a b = Err Undefined);
  law_mul : forall a b, int128_ok a -> int128_ok b -> sword 128 (ival a * ival b) ->
    yields int128_ok (int128_mul a b) (ival a * ival b);
  law_div : forall a b, int128_ok a -> int128_ok b ->
    if (ival b =? 0) || (ival a =? - 2 ^ 127) && (ival b =? -1)
    then no_asserts = false -> (exists e, int128_div a b = Err e) /\ exists e, int128_mod a b = Err e
    else yields int128_ok (int128_div a b) (Z.quot (ival a) (ival b)) /\
         yields int128_ok (int128_mod a b) (Z.rem (ival a) (ival b));
  law_bitwise : forall a b, int128_ok a -> int128_ok b ->
    (int128_ok (int128_or a b) /\ ival (int128_or a b) = Z.lor (ival a) (ival b)) /\
    (int128_ok (int128_and a b) /\ ival (int128_and a b) = Z.land (ival a) (ival b)) /\
    (int128_ok (int128_xor a b) /\ ival (int128_xor a b) = ival a ^^ ival b);
  law_shift : forall v n, int128_ok v -> 0 <= n < 128 -> amount_ok n ->
    yields int128_ok (int128_shl v n) (signed 128 (ival v * 2 ^ n)) /\
    yields int128_ok (int128_shr v n) (ival v / 2 ^ n);
  law_step : forall v, int128_ok v ->
    (sword 128 (ival v + 1) -> yields int128_ok (int128_incr v) (ival v + 1) /\
       exists w, int128_incr v = Ok w /\ int128_postincr v = Ok (w, v)) /\
    (sword 128 (ival v - 1) -> yields int128_ok (int128_decr v) (ival v - 1) /\
       exists w, int128_decr v = Ok w /\ int128_postdecr v = Ok (w, v));
}.

Lemma ival_range h l : word 64 l -> sword 64 h -> sword 128 (h * 2 ^ 64 + l).
Proof. unfold word, sword. cbn [Z.sub]. nia. Qed.

(** The unsigned value and the absolute value, whatever the representation. *)
Section words.
Context {T : Type} `{Compiler} `{Int128Rep T} (v : T) (Hl : word 64 (Int128Low64 v)) (Hh : sword 64 (Int128High64 v)).

Lemma of_int128_ok : denotes (of_int128 v) (ival v).
Proof using Hl.
  unfold of_int128, ival. eapply denotes_mod; [apply (denotes_words (u64 (Int128High64 v)) (Int128Low64 v)); [apply word_u64|done]|].
  apply u128_high.
Qed.

Lemma negative_ok : (Int128High64 v <? 0) = (ival v <? 0).
Proof using Hl. apply eq_true_iff_eq. unfold ival. rewrite !Z.ltb_lt. unfold word in Hl. nia. Qed.

Lemma absolute_ok : denotes (UnsignedAbsoluteValue v) (Z.abs (ival v)) /\ uval (UnsignedAbsoluteValue v) = Z.abs (ival v).
Proof using Hl Hh.
  pose proof of_int128_ok as Hd. pose proof (ival_range _ _ Hl Hh) as Hr. fold (ival v) in Hr.
  assert (Ha : denotes (UnsignedAbsoluteValue v) (Z.abs (ival v))).
  { unfold UnsignedAbsoluteValue. rewrite negative_ok. destruct (ival v <? 0) eqn:E; bools.
    - rewrite Z.abs_neq by lia. by apply op_neg_ok.
    - by rewrite Z.abs_eq by lia. }
  split; [done|]. apply (denotes_val _ _ Ha). unfold word, sword in *. cbn [Z.sub] in *. lia.
Qed.
End words.

(** ** The portable representation *)

Module portable.
Import no_intrinsic.

Definition ok (v : int128) : Prop := word 64 (low v) /\ sword 64 (high v).
Notation value v := (high v * 2 ^ 64 + low v).

Lemma words v : ok v -> word 64 (Int128Low64 v) /\ sword 64 (Int128High64 v).
Proof. done. Qed.

Lemma ok_range v : ok v -> sword 128 (value v).
Proof. intros [? ?]. by apply ival_range. Qed.

Lemma make_signed h l z q : sword 64 h -> word 64 l -> z = h * 2 ^ 64 + l + q * 2 ^ 128 -> ok (Make h l) /\ value (Make h l) = signed 128 z.
Proof.
  intros Hh Hl Hz. split; [by split|]. symmetry. apply (signed_unique 128 z _ q); [done|by apply ival_range|done].
Qed.

Lemma portable_of_signed z : sword 64 z -> ok (of_signed z) /\ value (of_signed z) = z.
Proof.
  intros Hz. unfold ok, of_signed. cbn [low high]. split; [split; [apply word_u64|]; destruct (z <? 0); by unfold sword|].
  unfold sword in Hz. destruct (z <? 0) eqn:E; bools; [change (Z.lnot 0) with (-1)|]; mod_tac.
Qed.

Lemma portable_of_uint128 v : uint128_ok v -> ok (of_uint128 v) /\ value (of_uint128 v) = signed 128 (uval v).
Proof.
  intros [Hl Hh]. destruct (signed_cong 64 (hi_ v) ltac:(done)) as [q Hq].
  apply (make_signed (signed 64 (hi_ v)) (lo_ v) (uval v) (- q)); [by apply sword_signed|done|].
  unfold uval. rewrite Hq. ring.
Qed.

Lemma value_low w v : 0 < w <= 64 -> signed w (low v) = signed w (value v) /\ unsigned w (low v) = unsigned w (value v).
Proof.
  intros Hw. rewrite (Z.add_comm (_ * _)). by rewrite (signed_narrow w 64), (unsigned_narrow w 64) by done.
Qed.

Lemma to_llong_ok w v : ok v -> 0 < w <= 64 -> signed w (to_llong v) = signed w (value v).
Proof.
  intros [Hl _] Hw. unfold to_llong. rewrite BitCastToSigned_eq by done. destruct (signed_cong 64 (low v) ltac:(done)) as [q ->].
  rewrite (signed_narrow w 64) by done. by apply value_low.
Qed.

Lemma compare_ok a b : ok a -> ok b -> eq a b = (value a =? value b) /\ lt a b = (value a <? value b) /\ gt a b = (value b <? value a).
Proof.
  intros [Hla _] [Hlb _]. unfold eq, lt, gt, Low64, High64, word in *. rewrite (Z.eqb_sym (high a)). split_and!.
  - apply eq_true_iff_eq. rewrite andb_true_iff, !Z.eqb_eq. nia.
  - destruct (high b =? high a) eqn:E; bools; apply eq_true_iff_eq; rewrite !Z.ltb_lt; nia.
  - destruct (high b =? high a) eqn:E; bools; apply eq_true_iff_eq; rewrite !Z.ltb_lt; nia.
Qed.

(** ** Arithmetic of the portable representation *)

Definition gives (r : result int128) (z : Z) : Prop := exists v, r = Ok v /\ ok v /\ value v = z.

Lemma gives_make h l z : sword 64 h -> word 64 l -> h * 2 ^ 64 + l = z -> gives (Ok (Make h l)) z.
Proof. intros Hh Hl Hz. exists (Make h l). by split_and!. Qed.

Lemma neg_ok v : ok v -> if value v =? - 2 ^ 127 then neg v = Err Undefined else gives (neg v) (- value v).
Proof.
  intros [Hl Hh]. unfold neg, Low64, High64. rewrite not64_u64. unfold Z.lnot, word, sword in *. cbn [Z.sub] in *.
  destruct (value v =? - 2 ^ 127) eqn:E; bools.
  - rewrite checked_err; [done|]. unfold sword. destruct (low v =? 0) eqn:E'; bools; nia.
  - rewrite checked_ok by (unfold sword; destruct (low v =? 0) eqn:E'; bools; nia). cbn [rbind].
    apply gives_make; [unfold sword; destruct (low v =? 0) eqn:E'; bools; nia|apply word_u64|].
    destruct (low v =? 0) eqn:E'; bools; mod_tac.
Qed.

Lemma compl_ok v : ok v -> ok (compl v) /\ value (compl v) = Z.lnot (value v).
Proof.
  intros [Hl Hh]. unfold compl, ok, Low64, High64. rewrite not64_u64. cbn [low high Make].
  split; [split; [apply word_u64|by apply sword_lnot]|]. unfold Z.lnot, word in *. mod_tac.
Qed.

Lemma add_ok a b : ok a -> ok b ->
  (sword 128 (value a + value b) -> sword 64 (high a + high b) -> gives (add a b) (value a + value b)) /\
  (~ sword 128 (value a + value b) -> add a b = Err Undefined).
Proof.
  intros [Hla Hha] [Hlb Hhb]. unfold add, SignedAddResult, Low64, High64. cbn [low high Make].
  assert (Hcarry : low a + low b = (low a +64 low b) + (if low a +64 low b <? low a then 2 ^ 64 else 0)).
  { unfold word in *. destruct (_ <? low a) eqn:E; bools; mod_tac. }
  pose proof (word_u64 (low a + low b)) as Hw. set (l := low a +64 low b) in *.
  split.
  - intros Hs Hh. rewrite (checked_ok _ _ Hh). cbn [rbind]. destruct (l <? low a); [|apply gives_make; [done|done|lia]].
    assert (Hh' : sword 64 (high a + high b + 1)) by (unfold sword, word in *; cbn [Z.sub] in *; nia).
    rewrite (checked_ok _ _ Hh'). cbn [rbind]. apply gives_make; [done|done|lia].
  - intros Hs. destruct (decide (sword 64 (high a + high b))) as [Hh|Hh]; [|by rewrite checked_err].
    rewrite (checked_ok _ _ Hh). cbn [rbind]. destruct (l <? low a).
    + rewrite checked_err; [done|]. intros Hh'. apply Hs.
      replace (value a + value b) with ((high a + high b + 1) * 2 ^ 64 + l) by lia. by apply ival_range.
    + destruct Hs. replace (value a + value b) with ((high a + high b) * 2 ^ 64 + l) by lia. by apply ival_range.
Qed.

Lemma sub_ok a b : ok a -> ok b ->
  (sword 128 (value a - value b) -> sword 64 (high a - high b) -> gives (sub a b) (value a - value b)) /\
  (~ sword 128 (value a - value b) -> sub a b = Err Undefined).
Proof.
  intros [Hla Hha] [Hlb Hhb]. unfold sub, SignedSubstructResult, Low64, High64. cbn [low high Make].
  assert (Hborrow : low a - low b = (low a -64 low b) - (if low a <? low b then 2 ^ 64 else 0)).
  { unfold word in *. destruct (low a <? low b) eqn:E; bools; mod_tac. }
  pose proof (word_u64 (low a - low b)) as Hw. set (l := low a -64 low b) in *.
  split.
  - intros Hs Hh. rewrite (checked_ok _ _ Hh). cbn [rbind]. destruct (low a <? low b); [|apply gives_make; [done|done|lia]].
    assert (Hh' : sword 64 (high a - high b - 1)) by (unfold sword, word in *; cbn [Z.sub] in *; nia).
    rewrite (checked_ok _ _ Hh'). cbn [rbind]. apply gives_make; [done|done|lia].
  - intros Hs. destruct (decide (sword 64 (high a - high b))) as [Hh|Hh]; [|by rewrite checked_err].
    rewrite (checked_ok _ _ Hh). cbn [rbind]. destruct (low a <? low b).
    + rewrite checked_err; [done|]. intros Hh'. apply Hs.
      replace (value a - value b) with ((high a - high b - 1) * 2 ^ 64 + l) by lia. by apply ival_range.
    + destruct Hs. replace (value a - value b) with ((high a - high b) * 2 ^ 64 + l) by lia. by apply ival_range.
Qed.

(** An [int128] from its unsigned value. *)
Lemma from_unsigned u z : denotes u z -> sword 128 z ->
  gives (Ok (Make (BitCastToSigned (Uint128High64 u)) (Uint128Low64 u))) z.
Proof.
  intros [[Hl Hh] Hz] Hs. unfold Uint128High64, Uint128Low64. rewrite BitCastToSigned_eq by done.
  destruct (signed_cong 64 (hi_ u) ltac:(done)) as [q Hq]. apply gives_make; [by apply sword_signed|done|].
  rewrite <- (signed_id 128 z ltac:(done) Hs). symmetry.
  apply (signed_unique _ _ _ (z / 2 ^ 128 - q)); [done|apply ival_range; [done|by apply sword_signed]|].
  unfold u128, uval in Hz. rewrite Hq. rewrite Z.mod_eq in Hz by done. lia.
Qed.

Section operators.
Context `{Compiler}.

Lemma mul_ok a b : ok a -> ok b -> sword 128 (value a * value b) -> gives (mul a b) (value a * value b).
Proof.
  intros Ha Hb Hs. unfold mul. destruct (op_mul_ok _ _ _ _ (of_int128_ok a (proj1 (words a Ha))) (of_int128_ok b (proj1 (words b Hb)))) as (v & -> & Hv).
  cbn [rbind]. by apply from_unsigned.
Qed.

(** The signs of the quotient and of the remainder. *)
Lemma quot_rem_abs x y : y <> 0 ->
  Z.quot x y = (if negb (eqb (x <? 0) (y <? 0)) then - (Z.abs x / Z.abs y) else Z.abs x / Z.abs y) /\
  Z.rem x y = (if x <? 0 then - (Z.abs x mod Z.abs y) else Z.abs x mod Z.abs y).
Proof.
  intros Hy. pose proof (Z.quot_rem' x y) as Hqr.
  assert (Hrem : Z.rem x y = (if x <? 0 then - (Z.abs x mod Z.abs y) else Z.abs x mod Z.abs y)).
  { rewrite Z.rem_mod by done. destruct (x <? 0) eqn:E; bools; [rewrite Z.sgn_neg by lia; lia|].
    destruct (decide (x = 0)) as [->|]; [rewrite Z.mod_0_l; lia|rewrite Z.sgn_pos; lia]. }
  split; [|done]. rewrite Z.quot_div by done. destruct (x <? 0) eqn:E1, (y <? 0) eqn:E2; bools; cbn [eqb negb].
  - rewrite (Z.sgn_neg x), (Z.sgn_neg y) by lia. lia.
  - rewrite (Z.sgn_neg x), (Z.sgn_pos y) by lia. lia.
  - destruct (decide (x = 0)) as [->|]; [rewrite Z.div_0_l; lia|]. rewrite (Z.sgn_pos x), (Z.sgn_neg y) by lia. lia.
  - destruct (decide (x = 0)) as [->|]; [rewrite Z.div_0_l; lia|]. rewrite (Z.sgn_pos x), (Z.sgn_pos y) by lia. lia.
Qed.

Lemma quot_range x y : sword 128 x -> y <> 0 -> ~ (x = - 2 ^ 127 /\ y = -1) -> sword 128 (Z.quot x y).
Proof.
  intros Hx Hy Hxy. unfold sword in *. cbn [Z.sub] in *. destruct (decide (y = 1)) as [->|]; [by rewrite Z.quot_1_r|].
  destruct (decide (y = -1)) as [->|].
  - change (-1) with (- (1)). rewrite Z.quot_opp_r, Z.quot_1_r by done. lia.
  - pose proof (Z.quot_abs x y Hy) as Habs. rewrite Z.quot_div_nonneg in Habs by lia.
    pose proof (Z.div_le_compat_l (Z.abs x) 2 (Z.abs y) ltac:(lia) ltac:(lia)) as Hle.
    assert (Z.abs x / 2 < 2 ^ 127) by (apply Z.div_lt_upper_bound; lia). lia.
Qed.

Lemma div_ok a b : ok a -> ok b ->
  if (value b =? 0) || (value a =? - 2 ^ 127) && (value b =? -1) then no_asserts = false -> (exists e, div a b = Err e) /\ exists e, modulo a b = Err e
  else gives (div a b) (Z.quot (value a) (value b)) /\ gives (modulo a b) (Z.rem (value a) (value b)).
Proof.
  intros Ha Hb. unfold div, modulo, ne. pose proof (ok_range a Ha) as Hra. pose proof (ok_range b Hb) as Hrb.
  destruct (portable_of_signed (-1) ltac:(done)) as [H1 Hv1].
  assert (Hmin : ok Int128Min /\ value Int128Min = - 2 ^ 127) by (split; [split; done|done]). destruct Hmin as [Hmin Hvmin].
  destruct (compare_ok a Int128Min Ha Hmin) as [-> _], (compare_ok b (of_signed (-1)) Hb H1) as [-> _]. rewrite Hvmin, Hv1.
  destruct (absolute_ok a (proj1 (words a Ha)) (proj2 (words a Ha))) as [Hda Hua], (absolute_ok b (proj1 (words b Hb)) (proj2 (words b Hb))) as [Hdb Hub].
  pose proof (negative_ok a (proj1 (words a Ha))) as Hsa. pose proof (negative_ok b (proj1 (words b Hb))) as Hsb.
  change (ival a) with (value a) in *. change (ival b) with (value b) in *.
  change (High64 a) with (Int128High64 a). change (High64 b) with (Int128High64 b). rewrite Hsa, Hsb.
  rewrite <- negb_andb. destruct (value b =? 0) eqn:Eb; bools; cbn [orb].
  - rewrite (proj2 (Z.eqb_neq (value b) (-1))), andb_false_r by lia. cbn [negb orb cpp_assert]. intros Hn.
    assert (HE : exists e, DivModImpl (UnsignedAbsoluteValue a) (UnsignedAbsoluteValue b) = Err e); [|destruct HE as [e ->]; split; by exists e].
    unfold DivModImpl, op_ne. destruct (of_signed_small 0 ltac:(lia)) as [H0 Hv0].
    rewrite op_eq_ok, Hub, Hv0, Eb, Hn by by eapply denotes_ok. by eexists.
  - destruct ((value a =? - 2 ^ 127) && (value b =? -1)) eqn:Eo; cbn [negb orb cpp_assert]; [intros ->; split; by eexists|].
    destruct (DivModImpl_ok _ _ (denotes_ok _ _ Hda) (denotes_ok _ _ Hdb)) as (q & r & -> & Hq & Hr); [lia|]. cbn [rbind].
    rewrite Hua, Hub in Hq, Hr. destruct (quot_rem_abs (value a) (value b) Eb) as [Hquot Hrem].
    assert (Hquot' : sword 128 (Z.quot (value a) (value b))).
    { apply quot_range; [done|done|]. intros [Hxa Hxb]. rewrite Hxa, Hxb in Eo. done. }
    assert (Hrem' : sword 128 (Z.rem (value a) (value b))).
    { unfold sword in *. cbn [Z.sub] in *. pose proof (Z.rem_bound_abs (value a) (value b) Eb). lia. }
    split; apply from_unsigned; try done.
    + rewrite Hquot. destruct (negb _); [by apply op_neg_ok|done].
    + rewrite Hrem. destruct (value a <? 0); [by apply op_neg_ok|done].
Qed.

(** ** Bitwise operators and shifts of the portable representation *)

Lemma bitwise_ok (op : Z -> Z -> Z) (f : bool -> bool -> bool) a b :
  (forall x y i, 0 <= i -> Z.testbit (op x y) i = f (Z.testbit x i) (Z.testbit y i)) ->
  (forall x y, word 64 x -> word 64 y -> word 64 (op x y)) -> (forall x y, sword 64 x -> sword 64 y -> sword 64 (op x y)) ->
  ok a -> ok b -> let v := Make (op (high a) (high b)) (op (low a) (low b)) in ok v /\ value v = op (value a) (value b).
Proof.
  intros Hop Hw Hs [Hla Hha] [Hlb Hhb] v. split; [split; cbn; auto|]. cbn [v Make high low]. apply Z.bits_inj'. intros n Hn.
  rewrite Hop, !words_testbit by auto. destruct (n <? 64) eqn:E; bools; by rewrite Hop by lia.
Qed.

(** The high word of a left shift by less than 64. *)
Lemma shl_high h l n : word 64 l -> sword 64 h -> 0 < n < 64 ->
  let hi := Z.lor (signed 64 (Z.shiftl h n)) (signed 64 (l >> (64 - n))) in
  sword 64 hi /\ exists q, hi = h * 2 ^ n + l / 2 ^ (64 - n) + q * 2 ^ 64.
Proof.
  intros Hl Hh Hn hi. destruct (split64 n ltac:(lia)) as (Hp & Hp' & Hs).
  assert (Hlow : 0 <= l / 2 ^ (64 - n) < 2 ^ n).
  { unfold word in Hl. split; [apply Z.div_pos; lia|]. apply Z.div_lt_upper_bound; [lia|]. rewrite Z.mul_comm, Hs. lia. }
  assert (Hn63 : 2 ^ n <= 2 ^ 63) by (apply Z.pow_le_mono_r; lia).
  assert (Hsl : sword 64 (l / 2 ^ (64 - n))) by (unfold sword; cbn [Z.sub]; lia).
  destruct (signed_cong 64 (Z.shiftl h n) ltac:(done)) as [q Hq].
  pose proof (sword_signed 64 (Z.shiftl h n) ltac:(done)) as Hr. rewrite Z.shiftl_mul_pow2 in * by lia.
  assert (Hmul : signed 64 (h * 2 ^ n) = 2 ^ n * (h + q * 2 ^ (64 - n))) by (rewrite Hq, <- Hs; ring).
  assert (Hsum : hi = signed 64 (h * 2 ^ n) + l / 2 ^ (64 - n)).
  { unfold hi. rewrite Z.shiftl_mul_pow2, Z.shiftr_div_pow2 by lia.
    rewrite (signed_id 64 (l / _)) by first [lia | exact Hsl]. rewrite Hmul. apply lor_digit; [lia|exact Hlow]. }
  split; [|exists q; lia]. rewrite Hsum. unfold sword in *. change (64 - 1) with 63 in *.
  assert (H63 : 2 ^ 63 = 2 ^ n * 2 ^ (63 - n)) by (rewrite <- Z.pow_add_r by lia; f_equal; lia).
  rewrite Hmul, H63 in *. clear - Hr Hlow Hp. destruct Hr as [H1 H2]. set (P := 2 ^ n) in *. set (X := h + _) in *.
  apply Z.mul_lt_mono_pos_l in H2; [|done]. pose proof (Z.mul_le_mono_nonneg_l (X + 1) (2 ^ (63 - n)) P ltac:(lia) ltac:(lia)). lia.
Qed.

(** Shifts in two steps, as for 63. *)
Lemma signed_shl_twice h : signed 64 (Z.shiftl (signed 64 (Z.shiftl h 32)) 31) = signed 64 (Z.shiftl h 63).
Proof.
  destruct (signed_cong 64 (Z.shiftl h 32) ltac:(done)) as [q ->]. rewrite !Z.shiftl_mul_pow2 by done.
  replace ((h * 2 ^ 32 + q * 2 ^ 64) * 2 ^ 31) with (h * 2 ^ 63 + q * 2 ^ 31 * 2 ^ 64) by ring. by apply signed_add.
Qed.
Lemma unsigned_shl_twice l : u64 (Z.shiftl (u64 (Z.shiftl l 32)) 31) = u64 (Z.shiftl l 63).
Proof.
  rewrite !Z.shiftl_mul_pow2 by done. unfold u64. rewrite Z.mul_mod_idemp_l by done. f_equal. ring.
Qed.

Lemma shl_signed_ok w x n : 0 <= n < w -> shl_signed w x n = Ok (signed w (Z.shiftl x n)).
Proof. intros Hn. unfold shl_signed. rewrite (proj2 (Z.leb_le 0 n)), (proj2 (Z.ltb_lt n w)) by lia. done. Qed.

(** The assertion of the shifts lets 127 pass only where it is off. *)
Definition shiftable (n : Z) : Prop := n < 127 \/ no_asserts = true.

Lemma asserted n : 0 <= n < 128 -> shiftable n -> ((0 <=? n) && (n <? 127) || no_asserts) = true.
Proof. intros Hn [Hs| ->]; [|apply orb_true_r]. by rewrite (proj2 (Z.leb_le 0 n)), (proj2 (Z.ltb_lt n 127)) by lia. Qed.

Lemma not_asserted n : 127 <= n -> no_asserts = false -> ((0 <=? n) && (n <? 127) || no_asserts) = false.
Proof. intros Hn ->. by rewrite (proj2 (Z.ltb_ge n 127)), andb_false_r by lia. Qed.

Lemma shift_left_short h l n : word 64 l -> sword 64 h -> 0 < n < 64 ->
  gives (Ok (Make (Z.lor (signed 64 (Z.shiftl h n)) (signed 64 (l >> (64 - n)))) (u64 (Z.shiftl l n)))) (signed 128 ((h * 2 ^ 64 + l) * 2 ^ n)).
Proof.
  intros Hl Hh Hn. destruct (shl_high h l n Hl Hh Hn) as [Hr [q Hq]]. set (hi := Z.lor _ _) in *.
  eexists. split; [done|]. apply (make_signed _ _ _ (- q)); [done|apply word_u64|].
  rewrite Hq, shl64_low by lia. ring.
Qed.

Lemma shift_left_ok v n : ok v -> 0 <= n < 128 -> shiftable n -> gives (shift_left v n) (signed 128 (value v * 2 ^ n)).
Proof.
  intros Hv Hn Hs. pose proof (ok_range v Hv) as Hr. destruct Hv as [Hl Hh]. unfold shift_left, High64, Low64.
  rewrite asserted by done. cbn [cpp_assert]. destruct (n <=? 0) eqn:E0; bools.
  { replace n with 0 by lia. rewrite Z.mul_1_r, signed_id by done. exists v. by split_and!. }
  destruct (n <? 63) eqn:E1; bools; [|destruct (n =? 63) eqn:E2; bools].
  - rewrite shl_signed_ok, shr_ok, shl_ok by lia. cbn [rbind]. apply (shift_left_short _ _ n Hl Hh). lia.
  - subst n. rewrite !shl_signed_ok, shr_ok, !shl_ok by lia. cbn [rbind]. rewrite !shl_signed_ok, !shl_ok by lia. cbn [rbind].
    change (unsigned 64) with u64. rewrite signed_shl_twice, unsigned_shl_twice. apply (shift_left_short _ _ 63 Hl Hh). lia.
  - assert (Hrun : (if n =? 127 then let* a := shl 64 (low v) 63 in Ok (Make (signed 64 a) 0)
        else if 127 <? n then Ok (Make 0 0) else let* a := shl 64 (low v) (n - 64) in Ok (Make (signed 64 a) 0)) =
      Ok (Make (signed 64 (u64 (Z.shiftl (low v) (n - 64)))) 0)).
    { destruct (n =? 127) eqn:E3; bools; [subst n; by rewrite shl_ok by lia|].
      by rewrite (proj2 (Z.ltb_ge 127 n)), shl_ok by lia. }
    rewrite Hrun. clear Hrun. rewrite shl64_low by lia. destruct (signed_cong 64 (low v * 2 ^ (n - 64) - 2 ^ 64 * (low v / 2 ^ (64 - (n - 64)))) ltac:(done)) as [q Hq].
    eexists. split; [done|]. apply (make_signed _ _ _ (high v * 2 ^ (n - 64) + low v / 2 ^ (64 - (n - 64)) - q)); [by apply sword_signed|done|].
    rewrite Hq. replace n with (n - 64 + 64) at 1 by lia. rewrite Z.pow_add_r by lia. ring.
Qed.

(** A right shift by less than 64, and by more. *)
Lemma shift_right_short h l n : word 64 l -> sword 64 h -> 0 < n < 64 ->
  gives (Ok (Make (h >> n) (Z.lor (l >> n) (u64 (Z.shiftl h (64 - n)))))) ((h * 2 ^ 64 + l) / 2 ^ n).
Proof.
  intros Hl Hh Hn. pose proof (shl64_lor h l (64 - n) Hl ltac:(lia)) as [Hlor Hw]. replace (64 - (64 - n)) with n in * by lia.
  rewrite Z.lor_comm, Hlor. apply gives_make; [by apply sword_shiftr; [|lia|]|done|].
  rewrite shl64_low, Z.shiftr_div_pow2 by lia. replace (64 - (64 - n)) with n in * by lia.
  destruct (split64 n ltac:(lia)) as (? & ? & Hs). rewrite <- Hs.
  replace (h * (2 ^ n * 2 ^ (64 - n)) + l) with (l + h * 2 ^ (64 - n) * 2 ^ n) by ring. rewrite Z.div_add by lia. ring.
Qed.

Lemma shift_right_ok v n : ok v -> 0 <= n < 128 -> shiftable n -> gives (shift_right v n) (value v / 2 ^ n).
Proof.
  intros [Hl Hh] Hn Hs0. unfold shift_right, High64, Low64. rewrite asserted by done. cbn [cpp_assert].
  destruct (n <=? 0) eqn:E0; bools.
  { replace n with 0 by lia. rewrite Z.div_1_r. exists v. by split_and!. }
  assert (Hu : forall k, 0 <= k < 64 -> u64 (Z.shiftl (u64 (high v)) k) = u64 (Z.shiftl (high v) k)).
  { intros k Hk. rewrite !Z.shiftl_mul_pow2 by lia. unfold u64. by rewrite Z.mul_mod_idemp_l. }
  destruct (n <? 63) eqn:E1; bools.
  - rewrite !shr_ok, shl_ok by lia. cbn [rbind]. change (unsigned 64) with u64. rewrite Hu by lia. by apply shift_right_short; [| |lia].
  - rewrite shr_ok by lia. cbn [rbind]. rewrite shr_ok by lia. cbn [rbind]. rewrite Z.shiftr_shiftr by lia. change (32 + 31) with 63.
    destruct (n =? 63) eqn:E2; bools.
    + subst n. rewrite shl_signed_ok, shr_ok by lia. cbn [rbind]. rewrite shr_ok by lia. cbn [rbind]. rewrite Z.shiftr_shiftr by lia.
      rewrite Z.lor_comm. change (32 + 31) with 63.
      destruct (signed_cong 64 (Z.shiftl (high v) 1) ltac:(done)) as [q ->]. unfold u64 at 1. rewrite Z.mod_add by done.
      by apply (shift_right_short _ _ 63 Hl Hh).
    + assert (Hrun : (if 127 <=? n then Ok (Make (high v >> 63) (u64 (high v >> 63)))
          else let* b := shr 64 (high v) (n - 64) in Ok (Make (high v >> 63) (u64 b))) =
        Ok (Make (high v >> 63) (u64 (high v >> (n - 64))))).
      { destruct (127 <=? n) eqn:E3; bools; [by replace n with 127 by lia|by rewrite shr_ok by lia]. }
      rewrite Hrun. clear Hrun.
      assert (Hdiv : value v / 2 ^ n = high v >> (n - 64)).
      { rewrite Z.shiftr_div_pow2 by lia. replace n with (64 + (n - 64)) at 1 by lia. rewrite Z.pow_add_r, <- Z.div_div by lia. f_equal.
        unfold word in Hl. rewrite Z.div_add_l, Z.div_small by lia. lia. }
      rewrite Hdiv. pose proof (sword_shiftr 64 (high v) (n - 64) ltac:(done) ltac:(lia) Hh) as Hs.
      assert (Hsign : high v >> 63 = if high v >> (n - 64) <? 0 then -1 else 0).
      { rewrite !Z.shiftr_div_pow2 by lia. unfold sword in Hh. cbn [Z.sub] in Hh.
        destruct (high v / 2 ^ (n - 64) <? 0) eqn:E; bools.
        - assert (high v < 0) by (destruct (decide (0 <= high v)); [pose proof (Z.div_pos (high v) (2 ^ (n - 64))); lia|lia]). mod_tac.
        - assert (0 <= high v) by (pose proof (Z.mul_div_le (high v) (2 ^ (n - 64)) ltac:(lia)); nia). mod_tac. }
      rewrite Hsign. unfold sword in Hs. cbn [Z.sub] in Hs.
      apply gives_make; [by destruct (_ <? 0)|apply word_u64|]. destruct (_ <? 0) eqn:E; bools; mod_tac.
Qed.

Lemma step_ok v : ok v ->
  (sword 128 (value v + 1) -> gives (incr v) (value v + 1)) /\ (sword 128 (value v - 1) -> gives (decr v) (value v - 1)).
Proof.
  intros Hv. destruct (portable_of_signed 1 ltac:(done)) as [H1 Hv1]. pose proof (proj2 Hv).
  destruct (add_ok v (of_signed 1) Hv H1) as [Ha _], (sub_ok v (of_signed 1) Hv H1) as [Hs _]. rewrite Hv1 in Ha, Hs.
  split; intros Hr; [apply Ha|apply Hs]; try done; cbn [high of_signed Z.ltb Z.compare]; by rewrite ?Z.add_0_r, ?Z.sub_0_r.
Qed.

#[global] Instance range : Int128Range int128 := {| int128_ok := ok; high_ok := sword 64; amount_ok := shiftable |}.

#[global] Instance laws : Int128Laws int128.
Proof.
  constructor.
  - intros v Hv. exact Hv.
  - intros h l Hh Hl v. by split.
  - exact portable_of_signed.
  - intros z Hz. done.
  - exact portable_of_uint128.
  - intros v Hv. unfold ival. cbn [int128_to_bool type Int128High64 Int128Low64 rep]. unfold to_bool, High64, Low64.
    destruct Hv as [Hl Hh]. unfold word in Hl. apply eq_true_iff_eq. rewrite orb_true_iff, !negb_true_iff, !Z.eqb_neq. lia.
  - intros v Hv. pose proof (to_llong_ok 64 v Hv ltac:(lia)) as H64.
    split_and!; try (by apply to_llong_ok). cbn [int128_to_llong type]. unfold to_llong. destruct Hv as [Hl _].
    rewrite BitCastToSigned_eq by done. by apply value_low.
  - intros v Hv. split_and!; by apply value_low.
  - intros a b Ha Hb. destruct (compare_ok a b Ha Hb) as (He & Hl & Hg).
    cbn [int128_eq int128_ne int128_lt int128_gt int128_le int128_ge type]. unfold ne, le, ge. rewrite He, Hl, Hg.
    split_and!; try done; by rewrite Z.ltb_antisym, negb_involutive.
  - exact neg_ok.
  - intros v Hv. unfold ival. cbn [int128_not type Int128High64 Int128Low64 rep]. unfold not, High64, Low64.
    destruct Hv as [Hl Hh]. unfold word in Hl. apply eq_true_iff_eq. rewrite andb_true_iff, !Z.eqb_eq. lia.
  - exact compl_ok.
  - exact add_ok.
  - exact sub_ok.
  - exact mul_ok.
  - exact div_ok.
  - intros a b Ha Hb. split; [|split].
    + apply (bitwise_ok Z.lor orb); [intros; apply Z.lor_spec|intros; by apply word_lor|intros; by apply sword_lor|done|done].
    + apply (bitwise_ok Z.land andb); [intros; apply Z.land_spec|intros; by apply word_land|intros; by apply sword_land|done|done].
    + apply (bitwise_ok Z.lxor xorb); [intros; apply Z.lxor_spec|intros; by apply word_lxor|intros; by apply sword_lxor|done|done].
  - intros v n Hv Hn Hs. split; [by apply shift_left_ok|by apply shift_right_ok].
  - intros v Hv. destruct (step_ok v Hv) as [Hi Hd]. split; intros Hs; [specialize (Hi Hs)|specialize (Hd Hs)]; split; try done;
      [destruct Hi as (w & Hw & _)|destruct Hd as (w & Hw & _)]; exists w; split; try done.
    + cbn [int128_postincr type]. unfold postincr, incr in *. by rewrite Hw.
    + cbn [int128_postdecr type]. unfold postdecr, decr in *. by rewrite Hw.
Qed.
End operators.
End portable.

(** ** The intrinsic representation *)

Module intrinsic.
Import have_intrinsic.

Definition ok (v : int128) : Prop := sword 128 (v_ v).

Lemma BitCastToSigned128_eq v : word 128 v -> BitCastToSigned128 v = signed 128 v.
Proof.
  intros Hv. unfold BitCastToSigned128. change (2 ^ 127) with (2 ^ (128 - 1)). rewrite (top_bit 128 v) by done.
  destruct (v <? 2 ^ (128 - 1)) eqn:E; bools; cbn [negb]; [done|]. unfold word in Hv. unfold Z.lnot.
  rewrite (signed_unique 128 (u128 (Z.pred (- v))) (2 ^ 128 - 1 - v) 0) by (done || unfold sword; mod_tac).
  symmetry. apply (signed_unique 128 _ _ 1); [done|unfold sword; lia|lia].
Qed.

Lemma low_eq v : Low64 v = v_ v mod 2 ^ 64.
Proof. unfold Low64. change uint64_max with (Z.ones 64). rewrite Z.land_ones by done. unfold u64. apply Z.mod_mod. done. Qed.

Lemma high_eq v : ok v -> High64 v = v_ v / 2 ^ 64.
Proof.
  intros Hv. unfold High64. rewrite BitCastToSigned_eq by apply word_u64. unfold ok, sword in Hv. cbn [Z.sub] in Hv.
  rewrite Z.shiftr_div_pow2 by done.
  assert (Hu : u64 (u128 (v_ v) / 2 ^ 64) = u128 (v_ v) / 2 ^ 64) by mod_tac. rewrite Hu.
  apply (signed_unique 64 _ _ (if v_ v <? 0 then 1 else 0)); [done|unfold sword; mod_tac|].
  destruct (v_ v <? 0) eqn:E; bools; mod_tac.
Qed.

Lemma ival_eq v : ok v -> ival v = v_ v.
Proof.
  intros Hv. unfold ival. cbn [Int128High64 Int128Low64 rep]. rewrite low_eq, high_eq by done.
  pose proof (Z.div_mod (v_ v) (2 ^ 64) ltac:(done)). lia.
Qed.

Lemma intrinsic_make h l : sword 64 h -> word 64 l -> v_ (Make h l) = h * 2 ^ 64 + l.
Proof.
  intros Hh Hl. unfold Make. cbn [v_]. rewrite BitCastToSigned128_eq by apply word_u128.
  assert (Hs : signed 128 (u128 (Z.shiftl (u128 h) 64)) = 2 ^ 64 * h).
  { rewrite Z.shiftl_mul_pow2 by done. unfold sword in Hh. cbn [Z.sub] in Hh.
    apply (signed_unique 128 _ _ (- (h / 2 ^ 128 * 2 ^ 64) - u128 h * 2 ^ 64 / 2 ^ 128)); [done|unfold sword; cbn [Z.sub]; lia|].
    unfold u128 at 1. rewrite Z.mod_eq by done. unfold u128. rewrite (Z.mod_eq h) by done. ring. }
  rewrite Hs, lor_digit by done. lia.
Qed.

Lemma is_ok (v : int128) z : v_ v = z -> sword 128 z -> ok v /\ ival v = z.
Proof. intros Hv Hz. assert (ok v) by (unfold ok; by rewrite Hv). split; [done|]. by rewrite ival_eq. Qed.

Lemma arithmetic_ok z : sword 128 z -> yields ok (arithmetic z) z.
Proof.
  intros Hz. unfold arithmetic. rewrite checked_ok by done. eexists. split; [done|]. by apply is_ok.
Qed.
Lemma arithmetic_err z : ~ sword 128 z -> arithmetic z = Err Undefined.
Proof. intros Hz. unfold arithmetic. by rewrite checked_err. Qed.

Lemma div_mod_ok a b : ok a -> ok b ->
  if (v_ b =? 0) || (v_ a =? - 2 ^ 127) && (v_ b =? -1) then (exists e, div a b = Err e) /\ exists e, modulo a b = Err e
  else yields ok (div a b) (Z.quot (v_ a) (v_ b)) /\ yields ok (modulo a b) (Z.rem (v_ a) (v_ b)).
Proof.
  intros Ha Hb. unfold modulo, div. destruct (v_ b =? 0) eqn:E; bools; cbn [orb]; [split; by eexists|].
  destruct ((v_ a =? - 2 ^ 127) && (v_ b =? -1)) eqn:Eo.
  - apply andb_true_iff in Eo as [Ea Eb]. bools. rewrite Ea, Eb. split; by eexists.
  - assert (Hq : sword 128 (Z.quot (v_ a) (v_ b))).
    { apply portable.quot_range; [done|done|]. intros [Hx Hy]. rewrite Hx, Hy in Eo. done. }
    destruct (arithmetic_ok _ Hq) as (q & Hr & Hqok & Hqv). rewrite Hr. cbn [rbind].
    split; [by exists q|]. eexists. split; [done|]. apply is_ok; [done|].
    unfold ok, sword in *. cbn [Z.sub] in *. pose proof (Z.rem_bound_abs (v_ a) (v_ b) E). lia.
Qed.

Lemma intrinsic_of_uint128 v : uint128_ok v -> ok (of_uint128 v) /\ ival (of_uint128 v) = signed 128 (uval v).
Proof.
  intros [Hl Hh]. apply is_ok; [|by apply sword_signed]. unfold of_uint128, uint128_to_signed. cbn [v_].
  unfold uval, word in *. rewrite (signed_id 128 (hi_ v)) by (done || (unfold sword; cbn [Z.sub]; lia)).
  rewrite Z.shiftl_mul_pow2 by done. set (q := if hi_ v <? 2 ^ 63 then 0 else 1).
  assert (Hsh : signed 128 (hi_ v * 2 ^ 64) = (hi_ v - q * 2 ^ 64) * 2 ^ 64).
  { apply (signed_unique 128 _ _ q); [done|unfold sword, q; cbn [Z.sub]; destruct (_ <? _) eqn:E; bools; lia|lia]. }
  rewrite Hsh. symmetry. apply (signed_unique 128 _ _ q); [done| |lia].
  unfold sword, q. cbn [Z.sub]. destruct (_ <? _) eqn:E; bools; lia.
Qed.

Lemma shift_ok v n : ok v -> 0 <= n < 128 ->
  yields ok (shift_left v n) (signed 128 (v_ v * 2 ^ n)) /\ yields ok (shift_right v n) (v_ v / 2 ^ n).
Proof.
  intros Hv Hn. unfold shift_left, shift_right. rewrite portable.shl_signed_ok, shr_ok by lia. cbn [rbind].
  rewrite Z.shiftl_mul_pow2 by lia. split; eexists; (split; [done|]).
  - apply is_ok; [done|by apply sword_signed].
  - apply is_ok; [cbn [v_]; apply Z.shiftr_div_pow2; lia|]. rewrite <- Z.shiftr_div_pow2 by lia. apply sword_shiftr; [done|lia|done].
Qed.

(** The wrapper satisfies the laws. *)
#[global] Instance range : Int128Range int128 := {| int128_ok := ok; high_ok := fun _ => True; amount_ok := fun _ => True |}.

#[global] Instance laws `{Compiler} : Int128Laws int128.
Proof.
  constructor.
  - intros v Hv. cbn [Int128Low64 Int128High64 rep]. rewrite low_eq, high_eq by done. split; [by apply Z.mod_pos_bound|].
    cbn [int128_ok range] in *. unfold ok, sword in *. cbn [Z.sub] in *. mod_tac.
  - intros h l Hh Hl v. pose proof (intrinsic_make h l Hh Hl) as Hm. assert (Hok : ok v) by (unfold ok, v; cbn [MakeInt128 rep]; rewrite Hm; by apply ival_range).
    split; [done|]. cbn [Int128Low64 Int128High64 rep]. rewrite low_eq, high_eq by done. unfold v. cbn [MakeInt128 rep]. rewrite Hm.
    unfold word in Hl. mod_tac.
  - intros z Hz. apply is_ok; [done|]. unfold sword in *. cbn [Z.sub] in *. lia.
  - intros z Hz. apply is_ok; [done|]. unfold sword, word in *. cbn [Z.sub] in *. lia.
  - exact intrinsic_of_uint128.
  - intros v Hv. by rewrite ival_eq.
  - intros v Hv. by rewrite ival_eq.
  - intros v Hv. by rewrite ival_eq.
  - intros a b Ha Hb. by rewrite !ival_eq.
  - intros v Hv. rewrite !ival_eq by done. cbn [int128_neg type]. unfold neg. destruct (v_ v =? - 2 ^ 127) eqn:E; bools.
    + rewrite E. done.
    + apply arithmetic_ok. cbn [int128_ok range] in *. unfold ok, sword in *. cbn [Z.sub] in *. lia.
  - intros v Hv. by rewrite ival_eq.
  - intros v Hv. rewrite (ival_eq v) by done. apply is_ok; [done|by apply sword_lnot].
  - intros a b Ha Hb. rewrite !ival_eq by done. split; [intros Hs _; by apply arithmetic_ok|by apply arithmetic_err].
  - intros a b Ha Hb. rewrite !ival_eq by done. split; [intros Hs _; by apply arithmetic_ok|by apply arithmetic_err].
  - intros a b Ha Hb. rewrite !ival_eq by done. by apply arithmetic_ok.
  - intros a b Ha Hb. rewrite !ival_eq by done. pose proof (div_mod_ok a b Ha Hb). by destruct (_ || _).
  - intros a b Ha Hb. rewrite (ival_eq a), (ival_eq b) by done.
    split; [|split]; (apply is_ok; [done|]); [by apply sword_lor|by apply sword_land|by apply sword_lxor].
  - intros v n Hv Hn _. rewrite !(ival_eq v) by done. by apply shift_ok.
  - intros v Hv. rewrite !(ival_eq v) by done. cbn [int128_incr int128_decr int128_postincr int128_postdecr type]. unfold postincr, postdecr, incr, decr.
    split; intros Hs; (split; [by apply arithmetic_ok|]); destruct (arithmetic_ok _ Hs) as (w & -> & _); by exists w.
Qed.
End intrinsic.
