(* ===== verification/Int128Format.v ===== *)
(** * Int128Format: printing 128-bit integers
    (src/abseil-cpp/absl/numeric/int128.cc)

    [Uint128ToFormattedString] prints a number in up to three pieces that fit
    in 64 bits, through a [std::ostringstream]; the insertion operators add the
    sign and the padding. Text is a list of character codes.

    The first part is what the C++ standard says of the insertion of the
    integers it has ([num_put]), which is both what the source builds on and
    the reference for what it should do. *)

From S2P Require Import Prelude.
From S2P Require Import Word.
From S2P Require Import Bits.
From S2P Require Import Uint128.
From S2P Require Import Int128.
From S2P Require Import Int128Inv.

(** ** Streams *)

Inductive basefield := dec | hex | oct | no_base.
Inductive adjustfield := left | right | internal | no_adjust.

#[export] Instance basefield_eq_dec : EqDecision basefield.
Proof. solve_decision. Defined.
#[export] Instance adjustfield_eq_dec : EqDecision adjustfield.
Proof. solve_decision. Defined.

Record fmtflags := { base_ : basefield; adjust : adjustfield; showbase : bool; uppercase : bool; showpos : bool }.

Record ostream := { flags : fmtflags; fill : Z; width : Z; text : list Z }.

Definition radix (b : basefield) : Z := match b with hex => 16 | oct => 8 | dec | no_base => 10 end.

(** The digits of a number, the most significant one first. *)
Fixpoint digits_loop (fuel : nat) (base n : Z) : list Z :=
  match fuel with
  | O => []
  | S fuel => if n =? 0 then [] else digits_loop fuel base (n / base) ++ [n mod base]
  end.
Definition digits (base n : Z) : list Z :=
  if n =? 0 then [0] else digits_loop (S (Z.to_nat (Z.log2 n))) base n.

Definition digit_char (uppercase : bool) (d : Z) : Z := if d <? 10 then 48 + d else if uppercase then 55 + d else 87 + d.

(** The prefix of [showbase]: ["0"], ["0x"] or ["0X"], and none for 0. *)
Definition prefix (f : fmtflags) (n : Z) : list Z :=
  if negb (showbase f) || (n =? 0) then []
  else match base_ f with oct => [48] | hex => [48; if uppercase f then 88 else 120] | dec | no_base => [] end.

Definition unsigned_rep (f : fmtflags) (n : Z) : list Z :=
  prefix f n ++ (digit_char (uppercase f) <$> digits (radix (base_ f)) n).

(** Padding up to [width]: [internal] pads behind the sign, or behind ["0x"]. *)
Definition pad (f : fmtflags) (fill width : Z) (sign rep : list Z) (hex_prefix : bool) : list Z :=
  let count := replicate (Z.to_nat (width - Z.of_nat (length (sign ++ rep)))) fill in
  match adjust f with
  | left => sign ++ rep ++ count
  | internal => if hex_prefix then sign ++ take 2 rep ++ count ++ drop 2 rep else sign ++ count ++ rep
  | right | no_adjust => count ++ sign ++ rep
  end.

Definition has_hex_prefix (f : fmtflags) (n : Z) : bool := showbase f && bool_decide (base_ f = hex) && negb (n =? 0).

(** The insertion of an unsigned integer, and of a signed one of [w] bits. *)
Definition put_unsigned (os : ostream) (n : Z) : ostream :=
  let f := flags os in
  {| flags := f; fill := fill os; width := 0;
     text := text os ++ pad f (fill os) (width os) [] (unsigned_rep f n) (has_hex_prefix f n) |}.

Definition is_decimal (f : fmtflags) : bool := bool_decide (base_ f = dec) || bool_decide (base_ f = no_base).

Definition put_signed (w : Z) (os : ostream) (z : Z) : ostream :=
  let f := flags os in
  if is_decimal f then
    let sign := if z <? 0 then [45] else if showpos f then [43] else [] in
    {| flags := f; fill := fill os; width := 0;
       text := text os ++ pad f (fill os) (width os) sign (unsigned_rep f (Z.abs z)) false |}
  else put_unsigned os (unsigned w z).

Definition put_string (os : ostream) (s : list Z) : ostream :=
  {| flags := flags os; fill := fill os; width := 0; text := text os ++ pad (flags os) (fill os) (width os) [] s false |}.

(** Manipulators. *)
Definition noshowbase (os : ostream) : ostream :=
  let f := flags os in
  {| flags := {| base_ := base_ f; adjust := adjust f; showbase := false; uppercase := uppercase f; showpos := showpos f |};
     fill := fill os; width := width os; text := text os |}.
Definition setfill (c : Z) (os : ostream) : ostream :=
  {| flags := flags os; fill := c; width := width os; text := text os |}.
Definition setw (n : Z) (os : ostream) : ostream :=
  {| flags := flags os; fill := fill os; width := n; text := text os |}.

(** A new [std::ostringstream], and [setf(flags & mask, mask)] for the mask of
    [basefield], [showbase] and [uppercase]. *)
Definition ostringstream : ostream :=
  {| flags := {| base_ := dec; adjust := no_adjust; showbase := false; uppercase := false; showpos := false |};
     fill := 32; width := 0; text := [] |}.
Definition setf_copy (f : fmtflags) (os : ostream) : ostream :=
  {| flags := {| base_ := base_ f; adjust := adjust (flags os); showbase := showbase f; uppercase := uppercase f;
                 showpos := showpos (flags os) |};
     fill := fill os; width := width os; text := text os |}.

(** [std::ios_base::dec] as flags. *)
Definition only_dec : fmtflags := {| base_ := dec; adjust := no_adjust; showbase := false; uppercase := false; showpos := false |}.

(** ** The operations of int128.cc *)

Section format.
Context `{Compiler}.

Definition Uint128ToFormattedString (v : uint128) (f : fmtflags) : result (list Z) :=
  let '(div, div_base_log) :=
    match base_ f with
    | hex => (of_unsigned 0x1000000000000000, 15)
    | oct => (of_unsigned (8 ^ 21), 21)
    | dec | no_base => (of_unsigned 10000000000000000000, 19)
    end in
  let os := setf_copy f ostringstream in
  let high := v in
  let* r := DivModImpl high div in
  let '(high, low) := r in
  let* r := DivModImpl high div in
  let '(high, mid) := r in
  let os :=
    if negb (Uint128Low64 high =? 0) then
      let os := put_unsigned os (Uint128Low64 high) in
      let os := setw div_base_log (setfill 48 (noshowbase os)) in
      let os := put_unsigned os (Uint128Low64 mid) in
      setw div_base_log os
    else if negb (Uint128Low64 mid =? 0) then
      let os := put_unsigned os (Uint128Low64 mid) in
      setw div_base_log (setfill 48 (noshowbase os))
    else os in
  let os := put_unsigned os (Uint128Low64 low) in
  Ok (text os).

Definition ToString (v : uint128) : result (list Z) := Uint128ToFormattedString v only_dec.

(** [rep.insert(pos, count, os.fill())]: no string has that many characters if
    [count] comes from a negative width. *)
Definition insert_fill (rep : list Z) (pos count fill : Z) : result (list Z) :=
  if 2 ^ 63 <=? count then Err LengthError
  else Ok (take (Z.to_nat pos) rep ++ replicate (Z.to_nat count) fill ++ drop (Z.to_nat pos) rep).
Definition append_fill (rep : list Z) (count fill : Z) : result (list Z) :=
  insert_fill rep (Z.of_nat (length rep)) count fill.

Definition insert_uint128 (os : ostream) (v : uint128) : result ostream :=
  let f := flags os in
  let* rep := Uint128ToFormattedString v f in
  let width := width os in
  let os := setw 0 os in
  let* rep :=
    if Z.of_nat (length rep) <? u64 width then
      let count := u64 width - Z.of_nat (length rep) in
      let adjustfield := adjust f in
      if bool_decide (adjustfield = left) then append_fill rep count (fill os)
      else if bool_decide (adjustfield = internal) && showbase f && bool_decide (base_ f = hex) && op_ne v (of_signed 0)
      then insert_fill rep 2 count (fill os)
      else insert_fill rep 0 count (fill os)
    else Ok rep in
  Ok (put_string os rep).

Section signed.
Context {T : Type} `{Int128Type T}.

Definition int128_ToString (v : T) : result (list Z) :=
  let rep := if Int128High64 v <? 0 then [45] else [] in
  let* s := Uint128ToFormattedString (UnsignedAbsoluteValue v) only_dec in
  Ok (rep ++ s).

(** [rep[0] == '+' || rep[0] == '-'] *)
Definition starts_with_sign (rep : list Z) : bool :=
  match rep with c :: _ => (c =? 43) || (c =? 45) | [] => false end.

Definition insert_int128 (os : ostream) (v : T) : result ostream :=
  let f := flags os in
  let print_as_decimal := bool_decide (base_ f = dec) || bool_decide (base_ f = no_base) in
  let rep :=
    if print_as_decimal then
      if Int128High64 v <? 0 then [45] else if showpos f then [43] else []
    else [] in
  let* s := Uint128ToFormattedString (if print_as_decimal then UnsignedAbsoluteValue v else of_int128 v) f in
  let rep := rep ++ s in
  let width := width os in
  let os := setw 0 os in
  let* rep :=
    if Z.of_nat (length rep) <? u64 width then
      let count := u64 width - Z.of_nat (length rep) in
      match adjust f with
      | left => append_fill rep count (fill os)
      | internal =>
          if print_as_decimal && starts_with_sign rep then insert_fill rep 1 count (fill os)
          else if bool_decide (base_ f = hex) && showbase f && int128_ne v (int128_of_signed 0)
          then insert_fill rep 2 count (fill os)
          else insert_fill rep 0 count (fill os)
      | right | no_adjust => insert_fill rep 0 count (fill os)
      end
    else Ok rep in
  Ok (put_string os rep).
End signed.
End format.

(** * digits and pieces (lemmas for Int128Format.v) *)

(** ** Digits *)

(** The [k] low digits, zeros included. *)
Fixpoint fixed_digits (k : nat) (base n : Z) : list Z :=
  match k with O => [] | S k => fixed_digits k base (n / base) ++ [n mod base] end.

(** The number that digits stand for. *)
Definition of_digits (base : Z) (l : list Z) : Z := foldl (fun v d => base * v + d) 0 l.

Section digits.
Context (base : Z) (Hbase : 2 <= base).

Lemma div_small_fuel n fuel : 0 <= n < 2 ^ Z.of_nat (S fuel) -> 0 <= n / base < 2 ^ Z.of_nat fuel.
Proof using Hbase.
  intros Hn. rewrite Nat2Z.inj_succ, Z.pow_succ_r in Hn by lia. split; [apply Z.div_pos; lia|].
  apply Z.div_lt_upper_bound; [lia|]. pose proof (Z.pow_pos_nonneg 2 (Z.of_nat fuel)). nia.
Qed.

Lemma digits_loop_fuel f1 : forall f2 n, 0 <= n < 2 ^ Z.of_nat f1 -> n < 2 ^ Z.of_nat f2 -> digits_loop f1 base n = digits_loop f2 base n.
Proof using Hbase.
  induction f1 as [|f1 IH]; intros f2 n H1 H2; cbn [digits_loop].
  - replace n with 0 by lia. by destruct f2.
  - destruct f2 as [|f2]; cbn [digits_loop]; [replace n with 0 by lia; done|]. destruct (n =? 0); [done|]. f_equal.
    apply IH; [by apply div_small_fuel|]. apply div_small_fuel. lia.
Qed.

Lemma digits_loop_eq fuel n : 0 < n < 2 ^ Z.of_nat fuel -> digits_loop fuel base n = digits base n.
Proof using Hbase.
  intros Hn. unfold digits. rewrite (proj2 (Z.eqb_neq n 0)) by lia. apply digits_loop_fuel; [lia|].
  pose proof (Z.log2_nonneg n). rewrite Nat2Z.inj_succ, Z2Nat.id by done. apply Z.log2_spec. lia.
Qed.

Lemma fixed_zero k : fixed_digits k base 0 = replicate k 0.
Proof using Hbase.
  induction k as [|k IH]; [done|]. cbn [fixed_digits]. rewrite Z.div_0_l, Z.mod_0_l, IH by lia.
  symmetry. apply (replicate_S_end k 0).
Qed.

(** More digits in front. *)
Lemma digits_split k : forall q r, 0 < q -> 0 <= r < base ^ Z.of_nat k ->
  digits base (q * base ^ Z.of_nat k + r) = digits base q ++ fixed_digits k base r.
Proof using Hbase.
  induction k as [|k IH]; intros q r Hq Hr.
  - cbn [fixed_digits]. rewrite app_nil_r. f_equal. cbn [Z.of_nat] in *. rewrite Z.pow_0_r in *. lia.
  - rewrite Nat2Z.inj_succ, Z.pow_succ_r in * by lia. cbn [fixed_digits].
    pose proof (Z.pow_pos_nonneg base (Z.of_nat k) ltac:(lia) ltac:(lia)) as Hp. set (P := base ^ Z.of_nat k) in *.
    pose proof (Z.div_mod r base ltac:(lia)) as Hd. pose proof (Z.mod_pos_bound r base ltac:(lia)) as Hm.
    assert (Hr' : 0 <= r / base < P) by (split; [apply Z.div_pos; lia|apply Z.div_lt_upper_bound; lia]).
    set (n := q * (base * P) + r). assert (Hn : 0 < n) by (unfold n; nia).
    assert (Hnd : n / base = q * P + r / base).
    { unfold n. replace (q * (base * P) + r) with (r + q * P * base) by ring. rewrite Z.div_add by lia. lia. }
    assert (Hnm : n mod base = r mod base).
    { unfold n. replace (q * (base * P) + r) with (r + q * P * base) by ring. by rewrite Z.mod_add by lia. }
    rewrite app_assoc, <- (IH q (r / base) Hq Hr'), <- Hnd, <- Hnm.
    unfold digits at 1. rewrite (proj2 (Z.eqb_neq n 0)) by lia. cbn [digits_loop]. rewrite (proj2 (Z.eqb_neq n 0)) by lia. f_equal.
    apply digits_loop_eq. rewrite Z2Nat.id by apply Z.log2_nonneg. split; [rewrite Hnd; nia|].
    pose proof (Z.log2_spec n Hn). rewrite Z.pow_succ_r in * by apply Z.log2_nonneg. apply Z.div_lt_upper_bound; [lia|].
    pose proof (Z.pow_pos_nonneg 2 (Z.log2 n) ltac:(lia) (Z.log2_nonneg n)). nia.
Qed.

Lemma digits_small d : 0 <= d < base -> digits base d = [d].
Proof using Hbase.
  intros Hd. unfold digits. destruct (d =? 0) eqn:E; bools; [by subst|].
  cbn [digits_loop]. rewrite (proj2 (Z.eqb_neq d 0)), Z.div_small, Z.mod_small by lia. by destruct (Z.to_nat _).
Qed.

Lemma fixed_length k n : length (fixed_digits k base n) = k.
Proof using. revert n. induction k as [|k IH]; intros n; [done|]. cbn [fixed_digits]. rewrite length_app, IH. cbn. lia. Qed.

(** Digits with zeros in front. *)
Lemma fixed_pad k : forall n, 0 <= n < base ^ Z.of_nat (S k) ->
  fixed_digits (S k) base n = replicate (S k - length (digits base n)) 0 ++ digits base n /\ (length (digits base n) <= S k)%nat.
Proof using Hbase.
  induction k as [|k IH]; intros n Hn.
  - change (Z.of_nat 1) with 1 in Hn. rewrite Z.pow_1_r in Hn. rewrite digits_small by done. cbn. by rewrite Z.mod_small.
  - rewrite (Nat2Z.inj_succ (S k)), Z.pow_succ_r in Hn by lia.
    assert (Hd : 0 <= n / base < base ^ Z.of_nat (S k)) by (split; [apply Z.div_pos; lia|apply Z.div_lt_upper_bound; lia]).
    pose proof (Z.mod_pos_bound n base ltac:(lia)) as Hm.
    change (fixed_digits (S (S k)) base n) with (fixed_digits (S k) base (n / base) ++ [n mod base]).
    destruct (decide (n / base = 0)) as [Hz|Hnz].
    + rewrite Hz, fixed_zero. assert (0 <= n < base) by (pose proof (Z.div_mod n base ltac:(lia)); lia).
      rewrite digits_small, Z.mod_small by done. cbn [length]. split; [done|lia].
    + assert (Hsplit : digits base n = digits base (n / base) ++ [n mod base]).
      { rewrite (Z.div_mod n base) at 1 by lia. rewrite (Z.mul_comm base).
        pose proof (digits_split 1 (n / base) (n mod base)) as Hs. change (Z.of_nat 1) with 1 in Hs. rewrite Z.pow_1_r in Hs.
        rewrite Hs by lia. cbn [fixed_digits app]. by rewrite Z.mod_mod by lia. }
      destruct (IH _ Hd) as [-> Hl]. rewrite Hsplit, length_app. cbn [length]. split; [|lia].
      rewrite app_assoc. do 3 f_equal. lia.
Qed.

(** ** Digits denote the number *)

Lemma of_digits_snoc l d : of_digits base (l ++ [d]) = base * of_digits base l + d.
Proof using. unfold of_digits. by rewrite foldl_snoc. Qed.

Lemma digits_loop_value fuel : forall n, 0 <= n < 2 ^ Z.of_nat fuel -> of_digits base (digits_loop fuel base n) = n.
Proof using Hbase.
  induction fuel as [|fuel IH]; intros n Hn; cbn [digits_loop].
  - cbn in *. lia.
  - destruct (n =? 0) eqn:E; bools; [by subst|]. rewrite of_digits_snoc, IH by by apply div_small_fuel.
    symmetry. apply Z.div_mod. lia.
Qed.

Lemma digits_denote n : 0 <= n -> of_digits base (digits base n) = n.
Proof using Hbase.
  intros Hn. unfold digits. destruct (n =? 0) eqn:E; bools; [subst; cbn; lia|]. apply digits_loop_value.
  rewrite Nat2Z.inj_succ, Z2Nat.id by apply Z.log2_nonneg. pose proof (Z.log2_spec n). lia.
Qed.

Lemma digits_loop_range fuel : forall n, Forall (fun d => 0 <= d < base) (digits_loop fuel base n).
Proof using Hbase.
  induction fuel as [|fuel IH]; intros n; cbn [digits_loop]; [constructor|]. destruct (n =? 0); [constructor|].
  apply Forall_app. split; [done|]. constructor; [|constructor]. apply Z.mod_pos_bound. lia.
Qed.

Lemma digits_range n : Forall (fun d => 0 <= d < base) (digits base n).
Proof using Hbase. unfold digits. destruct (n =? 0); [repeat constructor; lia|apply digits_loop_range]. Qed.

(** The leading digit is 0 only in ["0"]. *)
Lemma digits_loop_head fuel : forall n, 0 < n < 2 ^ Z.of_nat fuel -> exists d l, digits_loop fuel base n = d :: l /\ d <> 0.
Proof using Hbase.
  induction fuel as [|fuel IH]; intros n Hn; [cbn in Hn; lia|]. cbn [digits_loop]. rewrite (proj2 (Z.eqb_neq n 0)) by lia.
  destruct (decide (n / base = 0)) as [Hz|Hnz].
  - rewrite Hz. exists (n mod base), []. split; [by destruct fuel|]. pose proof (Z.div_mod n base ltac:(lia)). lia.
  - pose proof (div_small_fuel n fuel ltac:(lia)). destruct (IH (n / base)) as (d & l & -> & Hd); [lia|].
    exists d, (l ++ [n mod base]). done.
Qed.

Lemma digits_head n : 0 < n -> exists d l, digits base n = d :: l /\ d <> 0.
Proof using Hbase.
  intros Hn. rewrite <- (digits_loop_eq (S (Z.to_nat (Z.log2 n)))); [apply digits_loop_head|];
    rewrite Nat2Z.inj_succ, Z2Nat.id by apply Z.log2_nonneg; pose proof (Z.log2_spec n); lia.
Qed.
End digits.

(** ** Pieces *)

Lemma radix_ok b : 2 <= radix b.
Proof. by destruct b. Qed.

(** No padding without a width. *)
Lemma put_plain os n : width os = 0 -> text (put_unsigned os n) = text os ++ unsigned_rep (flags os) n.
Proof.
  intros Hw. unfold put_unsigned, pad. cbn [text]. rewrite Hw. rewrite Z2Nat.nonpos by lia. cbn [replicate app].
  f_equal. destruct (adjust _); rewrite ?app_nil_r; try done. destruct (has_hex_prefix _ _); [|done]. cbn [app]. apply take_drop.
Qed.

(** A piece behind the first one. *)
Lemma put_piece os n k : showbase (flags os) = false -> adjust (flags os) = no_adjust -> fill os = 48 -> width os = Z.of_nat (S k) ->
  0 <= n < radix (base_ (flags os)) ^ width os ->
  text (put_unsigned os n) = text os ++ (digit_char (uppercase (flags os)) <$> fixed_digits (S k) (radix (base_ (flags os))) n).
Proof.
  intros Hs Ha Hf Hw Hn. rewrite Hw in Hn. destruct (fixed_pad _ (radix_ok (base_ (flags os))) k n Hn) as [-> Hl].
  unfold put_unsigned, pad, unsigned_rep, prefix. cbn [text]. rewrite Ha, Hs, Hf, Hw. cbn [negb orb app]. f_equal.
  rewrite fmap_app, fmap_replicate, length_fmap. f_equal. f_equal. lia.
Qed.

Section format.
Context `{Compiler}.

Lemma low64_small v z : denotes v z -> 0 <= z < 2 ^ 64 -> Uint128Low64 v = z.
Proof.
  intros Hd Hz. pose proof (denotes_val v z Hd) as Hv. destruct Hd as [[Hl Hh] _].
  unfold Uint128Low64, uval, word in *. specialize (Hv ltac:(lia)). nia.
Qed.

(** A number in three pieces. *)
Lemma pieces (b D : Z) (k : nat) n : 2 <= b -> D = b ^ Z.of_nat k -> 0 <= n -> 
  let high := n / D / D in let mid := (n / D) mod D in let low := n mod D in
  (high <> 0 -> digits b n = digits b high ++ fixed_digits k b mid ++ fixed_digits k b low) /\
  (high = 0 -> mid <> 0 -> digits b n = digits b mid ++ fixed_digits k b low) /\
  (high = 0 -> mid = 0 -> n = low).
Proof using.
  intros Hb HD Hn high mid low. assert (HDp : 0 < D) by (subst D; lia).
  pose proof (Z.div_mod n D ltac:(lia)) as E1. pose proof (Z.div_mod (n / D) D ltac:(lia)) as E2.
  pose proof (Z.mod_pos_bound n D HDp) as B1. pose proof (Z.mod_pos_bound (n / D) D HDp) as B2.
  pose proof (Z.div_pos n D Hn HDp) as P1. pose proof (Z.div_pos (n / D) D P1 HDp) as P2.
  fold low in E1, B1. fold high mid in E2. fold mid in B2. fold high in P2. clearbody high mid low. subst D. split_and!.
  - intros Hh. assert (0 < high) by lia. assert (0 < n / b ^ Z.of_nat k) by nia.
    rewrite E1, (Z.mul_comm (b ^ _)), digits_split, app_assoc by done. f_equal.
    by rewrite E2, (Z.mul_comm (b ^ _)), digits_split by done.
  - intros Hh Hm. rewrite E1, (Z.mul_comm (b ^ _)), digits_split by nia. do 2 f_equal. nia.
  - intros Hh Hm. rewrite E1, E2, Hh, Hm. lia.
Qed.

(** The divisor of each base, a power of it below 2^64. *)
Lemma divisor_ok f :
  exists D k, match base_ f with
    | hex => (of_unsigned 0x1000000000000000, 15) | oct => (of_unsigned (8 ^ 21), 21)
    | dec | no_base => (of_unsigned 10000000000000000000, 19) end = (of_unsigned D, Z.of_nat (S k)) /\
  D = radix (base_ f) ^ Z.of_nat (S k) /\ 0 < D < 2 ^ 64 /\ 2 ^ 120 <= D * D.
Proof using.
  destruct (base_ f); [exists 10000000000000000000, 18%nat|exists 0x1000000000000000, 14%nat|exists (8 ^ 21), 20%nat|exists 10000000000000000000, 18%nat];
    by split_and!.
Qed.

Lemma divide v D : uint128_ok v -> 0 < D < 2 ^ 64 ->
  exists q r, DivModImpl v (of_unsigned D) = Ok (q, r) /\ denotes q (uval v / D) /\ uval q = uval v / D /\ Uint128Low64 r = uval v mod D.
Proof.
  intros Hv HD. assert (HDw : word 64 D) by (unfold word; lia).
  destruct (DivModImpl_ok v (of_unsigned D) Hv) as (q & r & Hrun & Hq & Hr); [by eapply denotes_ok, of_unsigned_ok|by rewrite of_unsigned_val; lia|].
  rewrite of_unsigned_val in *. exists q, r. split; [done|]. split; [done|]. pose proof (uval_range v Hv) as Hw. unfold word in Hw.
  split; [|apply (low64_small _ _ Hr); pose proof (Z.mod_pos_bound (uval v) D ltac:(lia)); lia].
  apply (denotes_val _ _ Hq). unfold word. split; [apply Z.div_pos; lia|]. apply Z.div_lt_upper_bound; nia.
Qed.

Lemma prefix_nonzero f m n : m <> 0 -> n <> 0 -> prefix f m = prefix f n.
Proof using. intros Hm Hn. unfold prefix. by rewrite (proj2 (Z.eqb_neq m 0)), (proj2 (Z.eqb_neq n 0)) by done. Qed.

(** The state of the stream between the pieces. *)
Definition copied (f : fmtflags) (show : bool) : fmtflags :=
  {| base_ := base_ f; adjust := no_adjust; showbase := show; uppercase := uppercase f; showpos := false |}.
Definition piece_stream (f : fmtflags) (k : nat) (t : list Z) : ostream :=
  {| flags := copied f false; fill := 48; width := Z.of_nat (S k); text := t |}.

Lemma first_piece f k n :
  setw (Z.of_nat (S k)) (setfill 48 (noshowbase (put_unsigned (setf_copy f ostringstream) n))) = piece_stream f k (unsigned_rep f n).
Proof using.
  pose proof (put_plain (setf_copy f ostringstream) n eq_refl) as Ht. cbn [text setf_copy ostringstream app] in Ht.
  change (unsigned_rep (flags (setf_copy f ostringstream)) n) with (unsigned_rep f n) in Ht.
  unfold piece_stream. by rewrite <- Ht.
Qed.

Lemma next_piece f k t n : 0 <= n < radix (base_ f) ^ Z.of_nat (S k) ->
  text (put_unsigned (piece_stream f k t) n) = t ++ (digit_char (uppercase f) <$> fixed_digits (S k) (radix (base_ f)) n).
Proof using. intros Hn. by apply (put_piece (piece_stream f k t) n k). Qed.

Lemma Uint128ToFormattedString_ok v f : uint128_ok v -> Uint128ToFormattedString v f = Ok (unsigned_rep f (uval v)).
Proof.
  intros Hv. unfold Uint128ToFormattedString. destruct (divisor_ok f) as (D & k & -> & HDk & HD & HDD).
  destruct (divide v D Hv HD) as (q1 & low & -> & Hq1 & Hv1 & Hlow). cbn [rbind].
  destruct (divide q1 D (denotes_ok _ _ Hq1) HD) as (q2 & mid & -> & Hq2 & Hv2 & Hmid). cbn [rbind].
  pose proof (uval_range v Hv) as Hw. unfold word in Hw. rewrite Hv1 in *.
  assert (Hhigh : Uint128Low64 q2 = uval v / D / D).
  { apply (low64_small _ _ Hq2). rewrite Z.div_div by lia. split; [apply Z.div_pos; nia|]. apply Z.div_lt_upper_bound; nia. }
  rewrite Hhigh, Hmid, Hlow. destruct (pieces (radix (base_ f)) D (S k) (uval v) (radix_ok _) HDk (proj1 Hw)) as (H3 & H2 & H1).
  pose proof (Z.mod_pos_bound (uval v) D ltac:(lia)) as Bl. pose proof (Z.mod_pos_bound (uval v / D) D ltac:(lia)) as Bm.
  set (h := uval v / D / D) in *. set (m := (uval v / D) mod D) in *. set (l := uval v mod D) in *.
  assert (Pl : 0 <= l < radix (base_ f) ^ Z.of_nat (S k)) by (by rewrite <- HDk).
  assert (Pm : 0 <= m < radix (base_ f) ^ Z.of_nat (S k)) by (by rewrite <- HDk).
  f_equal. destruct (h =? 0) eqn:Eh; bools; cbn [negb].
  - destruct (m =? 0) eqn:Em; bools; cbn [negb].
    + rewrite put_plain by done. rewrite <- (H1 Eh Em). done.
    + rewrite first_piece, next_piece by done. unfold unsigned_rep. rewrite (H2 Eh Em), fmap_app, <- app_assoc. f_equal.
      apply prefix_nonzero; [done|]. intros Hz. unfold m in Em. rewrite Hz, Z.div_0_l, Z.mod_0_l in Em by lia. done.
  - rewrite first_piece. set (os := put_unsigned (piece_stream f k (unsigned_rep f h)) m).
    assert (Hos : setw (Z.of_nat (S k)) os = piece_stream f k (text os)) by done. rewrite Hos, next_piece by done.
    unfold os. rewrite next_piece by done. unfold unsigned_rep. rewrite (H3 Eh), !fmap_app, <- !app_assoc. f_equal.
    apply prefix_nonzero; [done|]. intros Hz. unfold h in Eh. rewrite Hz, !Z.div_0_l in Eh by lia. done.
Qed.

(** ** Insertion *)

Lemma insert_fill_ok rep pos count c : 0 <= count < 2 ^ 63 ->
  insert_fill rep pos count c = Ok (take (Z.to_nat pos) rep ++ replicate (Z.to_nat count) c ++ drop (Z.to_nat pos) rep).
Proof using. intros Hc. unfold insert_fill. by rewrite (proj2 (Z.leb_gt (2 ^ 63) count)) by lia. Qed.

Lemma append_fill_ok rep count c : 0 <= count < 2 ^ 63 -> append_fill rep count c = Ok (rep ++ replicate (Z.to_nat count) c).
Proof using.
  intros Hc. unfold append_fill. rewrite insert_fill_ok by done.
  by rewrite Nat2Z.id, take_ge, drop_ge, app_nil_r by done.
Qed.

(** A text that is as wide as asked for is not padded. *)
Lemma pad_wide f c w sign rep hex_prefix : w <= Z.of_nat (length (sign ++ rep)) -> pad f c w sign rep hex_prefix = sign ++ rep.
Proof using.
  intros Hw. unfold pad. rewrite Z2Nat.nonpos by lia. cbn [replicate app]. rewrite app_nil_r.
  destruct (adjust f); try done. destruct hex_prefix; [|done]. by rewrite take_drop.
Qed.

(** The padded text goes into a stream without a width. *)
Lemma put_string_setw os s : put_string (setw 0 os) s = {| flags := flags os; fill := fill os; width := 0; text := text os ++ s |}.
Proof using.
  unfold put_string, setw. cbn [flags fill width text]. do 2 f_equal. apply pad_wide. cbn. lia.
Qed.

Lemma insert_uint128_ok os v : uint128_ok v -> 0 <= width os < 2 ^ 63 -> insert_uint128 os v = Ok (put_unsigned os (uval v)).
Proof.
  intros Hv Hw. unfold insert_uint128. rewrite Uint128ToFormattedString_ok by done. cbn [rbind].
  assert (Hu : u64 (width os) = width os) by (apply Z.mod_small; lia). rewrite Hu.
  destruct (of_signed_small 0 ltac:(lia)) as [H0 Hv0]. unfold op_ne. rewrite op_eq_ok, Hv0 by (done || by eapply denotes_ok).
  unfold put_unsigned, has_hex_prefix. set (f := flags os). set (rep := unsigned_rep f (uval v)).
  change (fill (setw 0 os)) with (fill os).
  destruct (Z.of_nat (length rep) <? width os) eqn:E; bools.
  - unfold pad. cbn [app]. assert (Hc : 0 <= width os - Z.of_nat (length rep) < 2 ^ 63) by lia.
    set (count := width os - Z.of_nat (length rep)) in *.
    destruct (adjust f) eqn:Ea; repeat case_bool_decide; try done; cbn [andb];
      rewrite ?append_fill_ok, ?insert_fill_ok by done; cbn [rbind]; rewrite ?put_string_setw; try done.
    + rewrite andb_true_r. destruct (showbase f), (uval v =? 0); cbn [andb negb rbind]; by rewrite put_string_setw.
    + rewrite !andb_false_r. cbn [andb rbind]. by rewrite put_string_setw.
  - cbn [rbind]. rewrite put_string_setw. do 2 f_equal. f_equal. symmetry. by apply pad_wide.
Qed.

Section signed.
Context {T : Type} {HR : Int128Rep T} {HT : Int128Type T} {HRg : Int128Range T} {HL : Int128Laws T}.

Lemma int128_ToString_ok v : int128_ok v ->
  int128_ToString v = Ok ((if ival v <? 0 then [45] else []) ++ unsigned_rep only_dec (Z.abs (ival v))).
Proof using HL.
  intros Hv. destruct (law_words v Hv) as [Hl Hh]. destruct (absolute_ok v Hl Hh) as [Ha Hu].
  unfold int128_ToString. rewrite Uint128ToFormattedString_ok, Hu by by eapply denotes_ok. cbn [rbind].
  by rewrite (negative_ok v Hl).
Qed.

(** Digits do not look like signs. *)
Lemma unsigned_rep_head f n : 0 <= n -> starts_with_sign (unsigned_rep f n) = false.
Proof using.
  intros Hn. unfold unsigned_rep, prefix. destruct (negb (showbase f) || (n =? 0)); [|destruct (base_ f) eqn:E; try done];
    cbn [app]; pose proof (digits_range (radix (base_ f)) (radix_ok _) n) as Hr; rewrite ?E in *;
    (destruct (digits _ n) as [|d l]; [done|]); apply Forall_cons in Hr as [Hd _]; cbn [fmap list_fmap starts_with_sign];
    unfold digit_char; destruct (d <? 10) eqn:Ed; bools; try destruct (uppercase f);
    by rewrite !(proj2 (Z.eqb_neq _ _)) by lia.
Qed.

Lemma insert_int128_ok os v : int128_ok v -> 0 <= width os < 2 ^ 63 -> insert_int128 os v = Ok (put_signed 128 os (ival v)).
Proof using HL.
  intros Hv Hw. destruct (law_words v Hv) as [Hl Hh]. destruct (absolute_ok v Hl Hh) as [Ha Hua]. pose proof (of_int128_ok v Hl) as Hd.
  unfold insert_int128. rewrite (negative_ok v Hl). set (f := flags os). fold (is_decimal f).
  assert (Hrep : Uint128ToFormattedString (if is_decimal f then UnsignedAbsoluteValue v else of_int128 v) f =
    Ok (unsigned_rep f (if is_decimal f then Z.abs (ival v) else unsigned 128 (ival v)))).
  { destruct (is_decimal f).
    - rewrite Uint128ToFormattedString_ok by by eapply denotes_ok. by rewrite Hua.
    - rewrite Uint128ToFormattedString_ok by by eapply denotes_ok. by rewrite (proj2 Hd). }
  rewrite Hrep. cbn [rbind]. assert (Hu : u64 (width os) = width os) by (apply Z.mod_small; lia). rewrite Hu.
  destruct (law_of_signed 0 ltac:(done)) as [H0 Hv0]. destruct (law_compare v (int128_of_signed 0) Hv H0) as (_ & -> & _). rewrite Hv0.
  unfold put_signed, put_unsigned. fold f. change (fill (setw 0 os)) with (fill os).
  set (sign := if ival v <? 0 then [45] else if showpos f then [43] else []).
  destruct (is_decimal f) eqn:Edec.
  - set (rep := unsigned_rep f (Z.abs (ival v))).
    assert (Hhex : bool_decide (base_ f = hex) = false).
    { unfold is_decimal in Edec. apply bool_decide_eq_false. intros Hb. by rewrite Hb in Edec. }
    rewrite Hhex. cbn [andb]. destruct (Z.of_nat (length (sign ++ rep)) <? width os) eqn:E; bools;
      [|cbn [rbind]; rewrite put_string_setw; do 2 f_equal; f_equal; symmetry; by apply pad_wide].
    assert (Hc : 0 <= width os - Z.of_nat (length (sign ++ rep)) < 2 ^ 63) by lia.
    unfold pad. set (count := width os - Z.of_nat (length (sign ++ rep))) in *.
    rewrite append_fill_ok, !insert_fill_ok by done.
    assert (Hsign : (starts_with_sign (sign ++ rep) = true /\ exists c, sign = [c]) \/ (starts_with_sign (sign ++ rep) = false /\ sign = [])).
    { unfold sign. destruct (ival v <? 0); [left; split; [done|by eexists]|]. destruct (showpos f); [left; split; [done|by eexists]|].
      right. split; [|done]. apply unsigned_rep_head. lia. }
    destruct (adjust f); cbn [rbind]; [by rewrite put_string_setw, <- app_assoc|by rewrite put_string_setw| |by rewrite put_string_setw].
    destruct Hsign as [[-> [c Hsc]]|[-> Hsc]]; cbn [rbind]; rewrite put_string_setw, Hsc; done.
  - set (n := unsigned 128 (ival v)). set (rep := unsigned_rep f n). cbn [app andb].
    assert (Hz : negb (ival v =? 0) = negb (n =? 0)).
    { f_equal. unfold n, unsigned. pose proof (ival_range _ _ Hl Hh) as Hr. fold (ival v) in Hr. unfold sword in Hr. cbn [Z.sub] in Hr.
      apply eq_true_iff_eq. rewrite !Z.eqb_eq. mod_tac. }
    rewrite Hz. unfold has_hex_prefix. destruct (Z.of_nat (length rep) <? width os) eqn:E; bools;
      [|cbn [rbind]; rewrite put_string_setw; do 2 f_equal; f_equal; symmetry; by apply pad_wide].
    assert (Hc : 0 <= width os - Z.of_nat (length rep) < 2 ^ 63) by lia.
    unfold pad. cbn [app]. set (count := width os - Z.of_nat (length rep)) in *. rewrite append_fill_ok, !insert_fill_ok by done.
    rewrite (andb_comm (bool_decide _)).
    destruct (adjust f); [| |destruct (showbase f && _ && _)|]; cbn [rbind]; by rewrite put_string_setw.
Qed.
End signed.
End format.
