(* ===== verification/LowLevelHash.v ===== *)
(** * LowLevelHash: the wyhash-like hash of long buffers
    (src/abseil-cpp/absl/hash/internal/low_level_hash.cc)

    [uint128] is [Z] modulo [2 ^ 128]. Prefetching has no effect on the
    state and is left out. *)

From S2P Require Import Prelude.
From S2P Require Import Word.

Definition u128 (z : Z) : Z := z mod 2 ^ 128.
Definition Uint128Low64 (p : Z) : Z := u64 p.
Definition Uint128High64 (p : Z) : Z := u64 (p >> 64).

(** The [Mix] of this file. *)
Definition LowLevelMix (v0 v1 : Z) : Z :=
  let p := v0 in
  let p := u128 (p * v1) in
  Uint128Low64 p ^^ Uint128High64 p.

Section low_level_hash.
Context (m : list Z) (salt : list Z).

(** [salt[i]], an element of an array of five. *)
Definition salt_at (i : nat) : Z := nth i salt 0.

(** [do ... while (len > 64)] on [(current_state, duplicated_state)]; the
    result has the pointer and what is left of the length. *)
Fixpoint chunk64_loop (fuel : nat) (ptr len current_state duplicated_state : Z)
    : result (Z * Z * Z * Z) :=
  match fuel with
  | O => Err OutOfFuel
  | S fuel =>
      let* a := UnalignedLoad64 m ptr in
      let* b := UnalignedLoad64 m (ptr + 8) in
      let* c := UnalignedLoad64 m (ptr + 16) in
      let* d := UnalignedLoad64 m (ptr + 24) in
      let* e := UnalignedLoad64 m (ptr + 32) in
      let* f := UnalignedLoad64 m (ptr + 40) in
      let* g := UnalignedLoad64 m (ptr + 48) in
      let* h := UnalignedLoad64 m (ptr + 56) in
      let cs0 := LowLevelMix (a ^^ salt_at 1) (b ^^ current_state) in
      let cs1 := LowLevelMix (c ^^ salt_at 2) (d ^^ current_state) in
      let current_state := cs0 ^^ cs1 in
      let ds0 := LowLevelMix (e ^^ salt_at 3) (f ^^ duplicated_state) in
      let ds1 := LowLevelMix (g ^^ salt_at 4) (h ^^ duplicated_state) in
      let duplicated_state := ds0 ^^ ds1 in
      let ptr := ptr + 64 in
      let len := len -64 64 in
      if 64 <? len then chunk64_loop fuel ptr len current_state duplicated_state
      else Ok (ptr, len, current_state, duplicated_state)
  end.

(** [while (len > 16)] *)
Fixpoint chunk16_loop (fuel : nat) (ptr len current_state : Z) : result (Z * Z * Z) :=
  if 16 <? len then
    match fuel with
    | O => Err OutOfFuel
    | S fuel =>
        let* a := UnalignedLoad64 m ptr in
        let* b := UnalignedLoad64 m (ptr + 8) in
        let current_state := LowLevelMix (a ^^ salt_at 1) (b ^^ current_state) in
        chunk16_loop fuel (ptr + 16) (len -64 16) current_state
    end
  else Ok (ptr, len, current_state).

Definition LowLevelHash (data len seed : Z) : result Z :=
  let ptr := data in
  let starting_length := len in
  let current_state := seed ^^ salt_at 0 in
  let* r :=
    if 64 <? len then
      let duplicated_state := current_state in
      let* r := chunk64_loop (Z.to_nat (len / 64)) ptr len current_state duplicated_state in
      let '(ptr, len, current_state, duplicated_state) := r in
      Ok (ptr, len, current_state ^^ duplicated_state)
    else Ok (ptr, len, current_state) in
  let '(ptr, len, current_state) := r in
  let* r := chunk16_loop (Z.to_nat (len / 16)) ptr len current_state in
  let '(ptr, len, current_state) := r in
  let* ab :=
    if 8 <? len then
      let* a := UnalignedLoad64 m ptr in
      let* b := UnalignedLoad64 m (ptr + len - 8) in
      Ok (a, b)
    else if 3 <? len then
      let* a := UnalignedLoad32 m ptr in
      let* b := UnalignedLoad32 m (ptr + len - 4) in
      Ok (a, b)
    else if 0 <? len then
      let* x := load8 m ptr in
      let* y := load8 m (ptr + (len >> 1)) in
      let* z := load8 m (ptr + (len - 1)) in
      Ok (Z.lor (Z.lor (Z.shiftl x 16) (Z.shiftl y 8)) z, 0)
    else Ok (0, 0) in
  let '(a, b) := ab in
  let w := LowLevelMix (a ^^ salt_at 1) (b ^^ current_state) in
  let z := salt_at 1 ^^ starting_length in
  Ok (LowLevelMix w z).
End low_level_hash.

(** ** Reading inside the buffer *)

Lemma word_LowLevelMix v0 v1 : word 64 (LowLevelMix v0 v1).
Proof. unfold LowLevelMix. cbv zeta. apply word_lxor; [done|apply word_u64|apply word_u64]. Qed.

Section inside.
Context (m m' : list Z) (s s' : Z) (data : list Z) (salt : list Z).
Context (Hm : holds m s data) (Hm' : holds m' s' data) (Hbytes : Forall byte_ok data).
Let len : Z := Z.of_nat (length data).

Ltac load :=
  first [eapply load64_agree | eapply load32_agree | eapply load8_agree];
  [exact Hm | exact Hm' | exact Hbytes | subst len; lia ..].
Ltac reads := repeat (eapply agree_bind; [load|intros ? ?]).

Lemma chunk64_loop_agree fuel p n c d : 64 < n <= 64 * (Z.of_nat fuel + 1) -> n < 2 ^ 64 ->
  s <= p -> p + n = s + len ->
  exists p1 n1 c1 d1, chunk64_loop m salt fuel p n c d = Ok (p1, n1, c1, d1) /\
    chunk64_loop m' salt fuel (p - s + s') n c d = Ok (p1 - s + s', n1, c1, d1) /\
    s <= p1 /\ p1 + n1 = s + len /\ 0 < n1 <= 64.
Proof using Hm Hm' Hbytes.
  revert p n c d. induction fuel as [|fuel IH]; intros p n c d Hn Hmax Hp Hlen; [lia|]. cbn [chunk64_loop].
  repeat match goal with |- context [rbind (UnalignedLoad64 m ?a) ?f] =>
    let q := fresh "q" in
    destruct (load64_agree m m' s s' data Hm Hm' Hbytes a (a - s + s')) as (q & -> & Hq & _); [subst len; lia..|];
    cbn [rbind];
    match goal with |- context [rbind (UnalignedLoad64 m' ?b) _] =>
      replace b with (a - s + s') by lia; rewrite Hq; cbn [rbind]; clear Hq end end.
  rewrite (u64_id (n - 64)) by lia. destruct (64 <? n - 64) eqn:E; bools.
  - replace (p - s + s' + 64) with (p + 64 - s + s') by lia. apply IH; lia.
  - eexists _, _, _, _. split; [reflexivity|]. split; [|lia]. by replace (p + 64 - s + s') with (p - s + s' + 64) by lia.
Qed.

Lemma chunk16_loop_agree fuel p n c : 0 <= n <= 16 * (Z.of_nat fuel + 1) -> n < 2 ^ 64 ->
  s <= p -> p + n = s + len ->
  exists p1 n1 c1, chunk16_loop m salt fuel p n c = Ok (p1, n1, c1) /\
    chunk16_loop m' salt fuel (p - s + s') n c = Ok (p1 - s + s', n1, c1) /\
    s <= p1 /\ p1 + n1 = s + len /\ 0 <= n1 <= 16.
Proof using Hm Hm' Hbytes.
  revert p n c. induction fuel as [|fuel IH]; intros p n c Hn Hmax Hp Hlen; cbn [chunk16_loop].
  all: destruct (16 <? n) eqn:E; bools; [|eexists _, _, _; split; [reflexivity|]; split; [done|lia]].
  { lia. }
  destruct (load64_agree m m' s s' data Hm Hm' Hbytes p (p - s + s')) as (x & -> & -> & _); [subst len; lia..|].
  destruct (load64_agree m m' s s' data Hm Hm' Hbytes (p + 8) (p - s + s' + 8)) as (y & -> & -> & _);
    [subst len; lia..|].
  cbn [rbind]. rewrite (u64_id (n - 16)) by lia.
  replace (p - s + s' + 16) with (p + 16 - s + s') by lia. apply IH; lia.
Qed.

Lemma LowLevelHash_agree seed : len < 2 ^ 64 ->
  agree (word 64) (LowLevelHash m salt s len seed) (LowLevelHash m' salt s' len seed).
Proof using All.
  intros Hmax. unfold LowLevelHash. cbv zeta.
  set (first := if 64 <? len then _ else _). set (first' := if 64 <? len then _ else _).
  assert (Hfirst : exists p n c, first = Ok (p, n, c) /\ first' = Ok (p - s + s', n, c) /\
    s <= p /\ p + n = s + len /\ 0 <= n < 2 ^ 64).
  { subst first first'. destruct (64 <? len) eqn:E; bools.
    - pose proof (Z.div_mod len 64 ltac:(done)). pose proof (Z.mod_pos_bound len 64 ltac:(done)).
      destruct (chunk64_loop_agree (Z.to_nat (len / 64)) s len (seed ^^ salt_at salt 0) (seed ^^ salt_at salt 0))
        as (p & n & c & d & Hr & Hr' & ? & ? & ?); [lia..|].
      replace (s - s + s') with s' in Hr' by lia. rewrite Hr, Hr'. cbn [rbind].
      eexists _, _, _. split; [done|]. split; [done|lia].
    - eexists _, _, _. split; [done|]. replace (s - s + s') with s' by lia. split; [done|]. subst len; lia. }
  destruct Hfirst as (p & n & c & -> & -> & Hp & Hpn & Hn). cbn [rbind].
  pose proof (Z.div_mod n 16 ltac:(done)). pose proof (Z.mod_pos_bound n 16 ltac:(done)).
  destruct (chunk16_loop_agree (Z.to_nat (n / 16)) p n c) as (p1 & n1 & c1 & -> & -> & Hp1 & Hpn1 & Hn1); [lia..|].
  cbn [rbind]. eapply (agree_bind (fun _ => True)).
  - destruct (8 <? n1) eqn:E8; bools; [reads; by apply agree_ok|].
    destruct (3 <? n1) eqn:E3; bools; [reads; by apply agree_ok|].
    destruct (0 <? n1) eqn:E0; bools; [|by apply agree_ok].
    rewrite (Z.shiftr_div_pow2 n1 1) by done. change (2 ^ 1) with 2.
    pose proof (Z.div_mod n1 2 ltac:(done)). pose proof (Z.mod_pos_bound n1 2 ltac:(done)).
    reads. by apply agree_ok.
  - intros [a b] _. apply agree_ok, word_LowLevelMix.
Qed.
End inside.
