(* ===== verification/Hash.v ===== *)
(** * Hash: the hash state of absl::Hash
    (src/abseil-cpp/absl/hash/internal/hash.h and hash.cc)

    [MixingHashState] is its one field, the word [state_]. The section has
    what the code takes from its platform: the size of [size_t], whether the
    compiler has a 128-bit type, and the seed, which is the address of an
    object. Bytes are hashed by [CombineContiguousImpl]; the piecewise
    combiner buffers them in chunks of 1024. *)

From S2P Require Import Prelude.
From S2P Require Import Uint128.
From S2P Require Import Word.
From S2P Require Import Bits.
From S2P Require Import City.
From S2P Require Import LowLevelHash.

Definition PiecewiseChunkSize : Z := 1024.

(** ** Reading short inputs *)

Definition Read9To16 (m : list Z) (p len : Z) : result (Z * Z) :=
  let* low_mem := UnalignedLoad64 m p in
  let* high_mem := UnalignedLoad64 m (p + len - 8) in
  let most_significant := high_mem in
  let least_significant := low_mem in
  Ok (least_significant, most_significant).

Definition Read4To8 (m : list Z) (p len : Z) : result Z :=
  let* low_mem := UnalignedLoad32 m p in
  let* high_mem := UnalignedLoad32 m (p + len - 4) in
  let most_significant := high_mem in
  let least_significant := low_mem in
  Ok (Z.lor (most_significant <<64 ((len - 4) * 8)) least_significant).

Definition Read1To3 (m : list Z) (p len : Z) : result Z :=
  let* mem0 := load8 m p in
  let* mem1 := load8 m (p + len / 2) in
  let* mem2 := load8 m (p + (len - 1)) in
  let significant2 := mem2 in
  let significant1 := mem1 in
  let significant0 := mem0 in
  Ok (u32 (Z.lor (Z.lor significant0 (Z.shiftl significant1 (len / 2 * 8)))
                 (Z.shiftl significant2 ((len - 1) * 8)))).

(** ** The two implementations *)

Definition kHashSalt : list Z :=
  [0x243F6A8885A308D3; 0x13198A2E03707344; 0xA4093822299F31D0; 0x082EFA98EC4E6C89; 0x452821E638D01377].

(** The platform: [sizeof(size_t)], the compiler (whether it has a 128-bit type)
    and the address of [kSeed]. *)
Class Platform := { sizeof_size_t : Z; compiler :: Compiler; kSeed : Z }.
Class PlatformLaws `{Platform} := {
  size_t_4_or_8 : sizeof_size_t = 4 \/ sizeof_size_t = 8;
  word_kSeed : word 64 kSeed }.

Section mixing.
Context `{Platform}.

Definition Seed : Z := kSeed.

Definition kMul : Z := if sizeof_size_t =? 4 then 0xcc9e2d51 else 0x9ddfea08eb382d69.

(** [MultType] is [uint64_t] or [uint128]. *)
Definition Mix (state v : Z) : Z :=
  let bits := if sizeof_size_t =? 4 then 64 else 128 in
  let m := state +64 v in
  let m := (m * kMul) mod 2 ^ bits in
  u64 (m ^^ (m >> (bits / 2))).

Section memory.
Context (mem : list Z).

Definition LowLevelHashImpl (data len : Z) : result Z := LowLevelHash mem kHashSalt data len Seed.

Definition Hash64 (data len : Z) : result Z :=
  if have_int128 then LowLevelHashImpl data len else CityHash64 mem data len.

(** The loops of the two [CombineLargeContiguousImpl], on [(state, first,
    len)]; [chunk] hashes one chunk. *)
Fixpoint large_loop (chunk : Z -> Z -> result Z) (fuel : nat) (state first len : Z)
    : result (Z * Z * Z) :=
  if PiecewiseChunkSize <=? len then
    match fuel with
    | O => Err OutOfFuel
    | S fuel =>
        let* h := chunk first PiecewiseChunkSize in
        large_loop chunk fuel (Mix state h) (first + PiecewiseChunkSize) (len -64 PiecewiseChunkSize)
    end
  else Ok (state, first, len).

(** [combine] is the function that handles the remainder. *)
Definition CombineLargeContiguousImpl32 (combine : Z -> Z -> Z -> result Z) (state first len : Z)
    : result Z :=
  let* r := large_loop (CityHash32 mem) (Z.to_nat (len / PiecewiseChunkSize)) state first len in
  let '(state, first, len) := r in
  combine state first len.

Definition CombineLargeContiguousImpl64 (combine : Z -> Z -> Z -> result Z) (state first len : Z)
    : result Z :=
  let* r := large_loop Hash64 (Z.to_nat (len / PiecewiseChunkSize)) state first len in
  let '(state, first, len) := r in
  combine state first len.

(** The overloads for 4 and 8 bytes of [size_t]; [depth] bounds the calls
    from the implementation for large inputs back to this one. *)
Fixpoint CombineContiguousImpl4 (depth : nat) (state first len : Z) : result Z :=
  match depth with
  | O => Err OutOfFuel
  | S depth =>
      if 8 <? len then
        if PiecewiseChunkSize <? len
        then CombineLargeContiguousImpl32 (CombineContiguousImpl4 depth) state first len
        else let* v := CityHash32 mem first len in Ok (Mix state v)
      else if 4 <=? len then let* v := Read4To8 mem first len in Ok (Mix state v)
      else if 0 <? len then let* v := Read1To3 mem first len in Ok (Mix state v)
      else Ok state
  end.

Fixpoint CombineContiguousImpl8 (depth : nat) (state first len : Z) : result Z :=
  match depth with
  | O => Err OutOfFuel
  | S depth =>
      if 16 <? len then
        if PiecewiseChunkSize <? len
        then CombineLargeContiguousImpl64 (CombineContiguousImpl8 depth) state first len
        else let* v := Hash64 first len in Ok (Mix state v)
      else if 8 <? len then
        let* p := Read9To16 mem first len in
        let lo := fst p in
        let hi := snd p in
        let lo := rotr 64 lo 53 in
        let state := state +64 kMul in
        let lo := lo +64 state in
        let state := state ^^ hi in
        let m := u128 (state * lo) in
        Ok (u64 (m ^^ (m >> 64)))
      else if 4 <=? len then let* v := Read4To8 mem first len in Ok (Mix state v)
      else if 0 <? len then let* v := Read1To3 mem first len in Ok (Mix state v)
      else Ok state
  end.

Definition CombineContiguousImpl (state first len : Z) : result Z :=
  if sizeof_size_t =? 4 then CombineContiguousImpl4 2 state first len
  else CombineContiguousImpl8 2 state first len.
End memory.

(** [MixingHashState::combine_contiguous] on bytes. *)
Definition combine_contiguous (hash_state : Z) (mem : list Z) (first size : Z) : result Z :=
  CombineContiguousImpl mem hash_state first size.
End mixing.

(** ** The piecewise combiner *)

(** What [PiecewiseCombiner] needs of a hash state: [H::combine_contiguous]. *)
Class HashState (H : Type) := h_combine : H -> list Z -> Z -> Z -> result H.

#[export] Instance mixing_hash_state `{Platform} : HashState Z := combine_contiguous.

Record PiecewiseCombiner := mkPiecewise { buf_ : list Z; position_ : Z }.

(** [buf] is the memory of the new object, not initialised. *)
Definition PiecewiseCombiner_ctor (buf : list Z) : PiecewiseCombiner := mkPiecewise buf 0.

Definition memcpy (dst : list Z) (d : Z) (src : list Z) (s size : Z) : result (list Z) :=
  let* bytes := load_bytes (Z.to_nat size) src s in
  store_bytes dst d bytes.

Section piecewise.
Context {H : Type} `{HashState H}.

(** [while (size >= PiecewiseChunkSize())] *)
Fixpoint add_chunks (fuel : nat) (state : H) (mem : list Z) (data size : Z) : result (H * Z * Z) :=
  if PiecewiseChunkSize <=? size then
    match fuel with
    | O => Err OutOfFuel
    | S fuel =>
        let* state := h_combine state mem data PiecewiseChunkSize in
        add_chunks fuel state mem (data + PiecewiseChunkSize) (size -64 PiecewiseChunkSize)
    end
  else Ok (state, data, size).

Definition add_buffer (c : PiecewiseCombiner) (state : H) (mem : list Z) (data size : Z)
    : result (PiecewiseCombiner * H) :=
  if position_ c +64 size <? PiecewiseChunkSize then
    let* buf := memcpy (buf_ c) (position_ c) mem data size in
    Ok (mkPiecewise buf (position_ c +64 size), state)
  else
    let* r :=
      if negb (position_ c =? 0) then
        let bytes_needed := PiecewiseChunkSize -64 position_ c in
        let* buf := memcpy (buf_ c) (position_ c) mem data bytes_needed in
        let* state := h_combine state buf 0 PiecewiseChunkSize in
        Ok (buf, state, data + bytes_needed, size -64 bytes_needed)
      else Ok (buf_ c, state, data, size) in
    let '(buf, state, data, size) := r in
    let* r := add_chunks (Z.to_nat (size / PiecewiseChunkSize)) state mem data size in
    let '(state, data, size) := r in
    let* buf := memcpy buf 0 mem data size in
    Ok (mkPiecewise buf size, state).

Definition finalize (c : PiecewiseCombiner) (state : H) : result H :=
  h_combine state (buf_ c) 0 (position_ c).

(** How the class is used: the pieces one after another, then [finalize]. *)
Definition add_piece (r : PiecewiseCombiner * H) (piece : list Z) : result (PiecewiseCombiner * H) :=
  add_buffer (fst r) (snd r) piece 0 (Z.of_nat (length piece)).

Definition piecewise_hash (buf : list Z) (state : H) (pieces : list (list Z)) : result H :=
  let* r := foldM add_piece (PiecewiseCombiner_ctor buf, state) pieces in
  finalize (fst r) (snd r).
End piecewise.

(** ** Short inputs *)

(** [Read4To8] and [Read1To3] decode the bytes, least significant first. *)
Lemma le_value_drop k l : Forall byte_ok l -> (k <= length l)%nat ->
  le_value (drop k l) = le_value l / 256 ^ Z.of_nat k /\ le_value (take k l) = le_value l mod 256 ^ Z.of_nat k.
Proof.
  intros Hl Hk. pose proof (le_value_range (take k l) ltac:(by apply Forall_take)) as Hr.
  rewrite length_take_le in Hr by done.
  assert (Heq : le_value l = le_value (take k l) + 256 ^ Z.of_nat k * le_value (drop k l)).
  { rewrite <- (take_drop k l) at 1. rewrite le_value_app, length_take_le by done. done. }
  rewrite Heq, (Z.mul_comm (256 ^ _)). split.
  - rewrite Z.div_add, Z.div_small by lia. lia.
  - rewrite Z_mod_plus_full, Z.mod_small by lia. done.
Qed.

Lemma pow256 n : 0 <= n -> 256 ^ n = 2 ^ (8 * n).
Proof. intros. by rewrite (Z.pow_mul_r 2 8). Qed.

Section short.
Context (data : list Z) (Hbytes : Forall byte_ok data).
Let len : Z := Z.of_nat (length data).

Lemma Read4To8_value : 4 <= len <= 8 -> Read4To8 data 0 len = Ok (le_value data).
Proof using All.
  intros Hlen. unfold Read4To8, UnalignedLoad32. change (load_bytes 4 data 0) with (load_bytes 4 data (0 + 0)).
  rewrite (load_bytes_holds 4 data 0 data 0) by (apply holds_self || lia || (subst len; lia)).
  replace (0 + len - 4) with (0 + (len - 4)) by lia.
  rewrite (load_bytes_holds 4 data 0 data (len - 4)) by (apply holds_self || lia || (subst len; lia)).
  cbn [rbind]. f_equal. rewrite (take_ge (drop _ _)) by (rewrite length_drop; subst len; lia).
  change (drop (Z.to_nat 0) data) with data.
  destruct (le_value_drop (Z.to_nat (len - 4)) data Hbytes) as [-> _]; [subst len; lia|].
  destruct (le_value_drop 4 data Hbytes) as [_ ->]; [subst len; lia|].
  rewrite Z2Nat.id by lia. pose proof (le_value_range data Hbytes) as Hr. fold len in Hr.
  set (v := le_value data) in *. rewrite pow256 in Hr by lia. rewrite pow256 by lia.
  change (256 ^ Z.of_nat 4) with (2 ^ 32). set (k := len - 4) in *. replace (k * 8) with (8 * k) by lia.
  assert (Hsh : Z.shiftl (v / 2 ^ (8 * k)) (8 * k) <= v).
  { rewrite Z.shiftl_mul_pow2 by lia. assert (0 < 2 ^ (8 * k)) by (apply Z.pow_pos_nonneg; lia).
    pose proof (Z.div_mod v (2 ^ (8 * k)) ltac:(lia)). pose proof (Z.mod_pos_bound v (2 ^ (8 * k)) ltac:(lia)). lia. }
  rewrite u64_id.
  2:{ pose proof (Z.pow_le_mono_r 2 (8 * len) 64 ltac:(done) ltac:(lia)). split; [|lia].
      apply Z.shiftl_nonneg. apply Z.div_pos; [lia|]. apply Z.pow_pos_nonneg; lia. }
  apply Z.bits_inj'. intros i Hi. rewrite Z.lor_spec, Z.shiftl_spec by done.
  rewrite <- Z.shiftr_div_pow2 by lia. destruct (Z.lt_ge_cases i (8 * k)).
  - rewrite (Z.testbit_neg_r _ (i - _)) by lia. cbn [orb]. apply Z.mod_pow2_bits_low. lia.
  - rewrite Z.shiftr_spec by lia. replace (i - 8 * k + 8 * k) with i by lia.
    destruct (Z.lt_ge_cases i 32); [rewrite Z.mod_pow2_bits_low by lia; apply orb_diag|].
    rewrite Z.mod_pow2_bits_high by lia. apply orb_false_r.
Qed.

Lemma Read1To3_value : 1 <= len <= 3 -> Read1To3 data 0 len = Ok (le_value data).
Proof using All.
  subst len. intros Hlen. destruct data as [|a [|b [|c [|d l]]]]; cbn [length] in Hlen; try lia.
  all: repeat match goal with H : Forall _ (_ :: _) |- _ => apply Forall_cons in H as [? H] end; unfold byte_ok in *.
  - change (Ok (u32 (Z.lor (Z.lor a (Z.shiftl a 0)) (Z.shiftl a 0))) = Ok (a + 256 * 0)). f_equal.
    rewrite !Z.shiftl_0_r, !Z.lor_diag. unfold u32. rewrite Z.mod_small; unfold word in *; lia.
  - change (Ok (u32 (Z.lor (Z.lor a (Z.shiftl b 8)) (Z.shiftl b 8))) = Ok (a + 256 * (b + 256 * 0))). f_equal.
    rewrite <- Z.lor_assoc, Z.lor_diag, Z.lor_comm. rewrite Z.shiftl_mul_pow2 by done.
    rewrite (Z.mul_comm b), lor_digit by (done || unfold word in *; lia).
    unfold u32. rewrite Z.mod_small; unfold word in *; lia.
  - change (Ok (u32 (Z.lor (Z.lor a (Z.shiftl b 8)) (Z.shiftl c 16))) = Ok (a + 256 * (b + 256 * (c + 256 * 0)))). f_equal.
    rewrite (Z.lor_comm a), !Z.shiftl_mul_pow2, (Z.mul_comm b), (Z.mul_comm c) by done.
    rewrite (lor_digit b a) by (done || unfold word in *; lia). rewrite Z.lor_comm.
    rewrite (lor_digit c) by (done || unfold word in *; lia).
    unfold u32. rewrite Z.mod_small; unfold word in *; lia.
Qed.
End short.

(** ** Contiguous ranges, chunk by chunk

    What the two implementations share: [small] handles up to 1024 bytes,
    [chunk] hashes one chunk of a larger input. *)

(** The value of [data], whatever memory holds it. *)
Definition reads (f : list Z -> Z -> Z -> result Z) (w : Z) (n : Z) : Prop :=
  forall m s data, holds m s data -> Forall byte_ok data -> Z.of_nat (length data) <= n ->
    agree (word w) (f m s (Z.of_nat (length data))) (f data 0 (Z.of_nat (length data))).

Section chunks.
Context `{PlatformLaws}.
Context (chunk : list Z -> Z -> Z -> result Z) (small : list Z -> Z -> Z -> Z -> result Z).
Context (Hchunk : reads chunk 64 1024).
Context (Hsmall : forall st, word 64 st -> reads (fun m => small m st) 64 1024).
Context (Hsmall_chunk : forall m st f,
  small m st f PiecewiseChunkSize = let* v := chunk m f PiecewiseChunkSize in Ok (Mix st v)).
Context (Hsmall_nil : forall m st f, small m st f 0 = Ok st).

Definition by_chunks (m : list Z) (st f len : Z) : result Z :=
  let* r := large_loop (chunk m) (Z.to_nat (len / PiecewiseChunkSize)) st f len in
  let '(st, f, len) := r in small m st f len.

Lemma word_Mix st v : word 64 (Mix st v).
Proof using Type. apply word_u64. Qed.

Lemma large_loop_done fuel m st f len : len < 1024 ->
  large_loop (chunk m) fuel st f len = Ok (st, f, len).
Proof using Type. intros. destruct fuel; cbn [large_loop]; by rewrite (proj2 (Z.leb_gt _ _)). Qed.

(** One chunk less. *)
Lemma by_chunks_step m st f len : 1024 <= len < 2 ^ 64 ->
  by_chunks m st f len =
    let* v := chunk m f 1024 in by_chunks m (Mix st v) (f + 1024) (len - 1024).
Proof using Type.
  intros Hlen. unfold by_chunks. replace (len / PiecewiseChunkSize) with (Z.succ ((len - 1024) / PiecewiseChunkSize)).
  2:{ unfold PiecewiseChunkSize. replace len with (len - 1024 + 1 * 1024) at 2 by lia. rewrite Z.div_add by done. lia. }
  rewrite Z2Nat.inj_succ by (apply Z.div_pos; unfold PiecewiseChunkSize; lia). cbn [large_loop].
  rewrite (proj2 (Z.leb_le _ _)) by (unfold PiecewiseChunkSize; lia). rewrite u64_id by (unfold PiecewiseChunkSize; lia).
  change PiecewiseChunkSize with 1024. by destruct (chunk m f 1024).
Qed.

Lemma by_chunks_short m st f len : 0 <= len < 1024 -> by_chunks m st f len = small m st f len.
Proof using Type. intros. unfold by_chunks. by rewrite large_loop_done by lia. Qed.

Lemma by_chunks_small m st f len : 0 <= len <= 1024 -> by_chunks m st f len = small m st f len.
Proof using Hsmall_chunk Hsmall_nil.
  intros Hlen. destruct (decide (len = 1024)) as [->|]; [|by apply by_chunks_short; lia].
  rewrite by_chunks_step, Hsmall_chunk by lia. change PiecewiseChunkSize with 1024.
  destruct (chunk m f 1024); [|done]. cbn [rbind]. by rewrite by_chunks_short, Hsmall_nil.
Qed.

Lemma by_chunks_reads st m s data : word 64 st -> holds m s data -> Forall byte_ok data ->
  Z.of_nat (length data) < 2 ^ 64 ->
  agree (word 64) (by_chunks m st s (Z.of_nat (length data))) (by_chunks data st 0 (Z.of_nat (length data))).
Proof using Hchunk Hsmall.
  intros Hst Hm Hb Hlen.
  assert (Hgen : forall n data st m s m' s', (length data <= n)%nat -> word 64 st -> holds m s data ->
    holds m' s' data -> Forall byte_ok data -> Z.of_nat (length data) < 2 ^ 64 ->
    agree (word 64) (by_chunks m st s (Z.of_nat (length data))) (by_chunks m' st s' (Z.of_nat (length data))));
    [|by apply (Hgen (length data)); try apply holds_self].
  clear -Hchunk Hsmall. induction n as [n IH] using lt_wf_ind. intros data st m s m' s' Hn Hst Hm Hm' Hb Hlen.
  destruct (Z.lt_ge_cases (Z.of_nat (length data)) 1024) as [Hshort|Hlong].
  - rewrite !by_chunks_short by lia.
    destruct (Hsmall st Hst m s data Hm Hb ltac:(lia)) as (v & Hv & Hd & Hw).
    destruct (Hsmall st Hst m' s' data Hm' Hb ltac:(lia)) as (v' & Hv' & Hd' & _).
    exists v. split; [done|]. split; [congruence|done].
  - rewrite !by_chunks_step by lia.
    destruct (decide (n = 0%nat)); [lia|].
    rewrite <- (take_drop 1024 data) in Hm, Hm'. apply holds_split in Hm as [Hm1 Hm2], Hm' as [Hm1' Hm2'].
    assert (Ht : length (take 1024 data) = 1024%nat) by (rewrite length_take; lia). rewrite Ht in Hm2, Hm2'.
    destruct (Hchunk m s (take 1024 data)) as (v & Hv & Hd & _); [done|by apply Forall_take|lia|].
    destruct (Hchunk m' s' (take 1024 data)) as (v' & Hv' & Hd' & _); [done|by apply Forall_take|lia|].
    rewrite Ht in Hv, Hd, Hv', Hd'. change (Z.of_nat 1024) with 1024 in *. rewrite Hv, Hv'. cbn [rbind].
    assert (v' = v) as -> by congruence.
    replace (Z.of_nat (length data) - 1024) with (Z.of_nat (length (drop 1024 data))) by (rewrite length_drop; lia).
    eapply (IH (n - 1)%nat); try done; [lia|rewrite length_drop; lia|apply word_Mix|by apply Forall_drop|rewrite length_drop; lia].
Qed.

(** The hash of a concatenation after a whole chunk. *)
Lemma by_chunks_app st l1 l2 : word 64 st -> Forall byte_ok l1 -> Forall byte_ok l2 -> length l1 = 1024%nat ->
  Z.of_nat (length (l1 ++ l2)) < 2 ^ 64 ->
  by_chunks (l1 ++ l2) st 0 (Z.of_nat (length (l1 ++ l2))) =
    let* st := by_chunks l1 st 0 1024 in by_chunks l2 st 0 (Z.of_nat (length l2)).
Proof using Hchunk Hsmall Hsmall_nil.
  intros Hst Hb1 Hb2 Hl1 Hlen. rewrite length_app, Hl1 in Hlen |- *. rewrite !by_chunks_step by lia.
  destruct (holds_split (l1 ++ l2) 0 l1 l2 (holds_self _)) as [H1 H2].
  destruct (Hchunk (l1 ++ l2) 0 l1 H1 Hb1 ltac:(lia)) as (v & Hv & Hd & _).
  rewrite Hl1 in Hv, Hd, H2. change (Z.of_nat 1024) with 1024 in *. rewrite Hv, Hd. cbn [rbind].
  rewrite (by_chunks_short l1), Hsmall_nil by lia. cbn [rbind].
  replace (Z.of_nat (1024 + length l2) - 1024) with (Z.of_nat (length l2)) by lia.
  destruct (by_chunks_reads (Mix st v) (l1 ++ l2) (0 + 1024) l2) as (r & -> & -> & _); try done; [apply word_Mix|lia].
Qed.
End chunks.

(** ** The two implementations, chunk by chunk *)

Lemma agree_mono {A} (P Q : A -> Prop) r r' : (forall v, P v -> Q v) -> agree P r r' -> agree Q r r'.
Proof. intros HPQ (v & -> & -> & Hv). exists v. eauto. Qed.

Section impl.
Context `{PlatformLaws}.

(** The branches for at most 1024 bytes. *)
Definition small4 (m : list Z) (st f len : Z) : result Z :=
  if 8 <? len then let* v := CityHash32 m f len in Ok (Mix st v)
  else if 4 <=? len then let* v := Read4To8 m f len in Ok (Mix st v)
  else if 0 <? len then let* v := Read1To3 m f len in Ok (Mix st v)
  else Ok st.

Definition small8 (m : list Z) (st f len : Z) : result Z :=
  if 16 <? len then let* v := Hash64 m f len in Ok (Mix st v)
  else if 8 <? len then
    let* p := Read9To16 m f len in
    let lo := rotr 64 (fst p) 53 +64 (st +64 kMul) in
    let m := u128 (((st +64 kMul) ^^ snd p) * lo) in
    Ok (u64 (m ^^ (m >> 64)))
  else if 4 <=? len then let* v := Read4To8 m f len in Ok (Mix st v)
  else if 0 <? len then let* v := Read1To3 m f len in Ok (Mix st v)
  else Ok st.

Lemma large_loop_rest chunk fuel st f len st' f' len' : 0 <= len < 2 ^ 64 ->
  large_loop chunk fuel st f len = Ok (st', f', len') -> 0 <= len' < 1024.
Proof using Type.
  revert st f len. induction fuel as [|fuel IH]; intros st f len Hlen; cbn [large_loop];
    destruct (PiecewiseChunkSize <=? len) eqn:E; bools; unfold PiecewiseChunkSize in *; try done.
  - intros [= <- <- <-]. lia.
  - intros Hr. apply rbind_ok in Hr as (v & _ & Hr). rewrite u64_id in Hr by lia. by apply IH in Hr; [|lia].
  - intros [= <- <- <-]. lia.
Qed.

(** The recursion for large inputs is the chunk loop. *)
Lemma large_by_chunks (chunk : list Z -> Z -> Z -> result Z) (small : list Z -> Z -> Z -> Z -> result Z)
    (rest : Z -> Z -> Z -> result Z) m st f len :
  (forall st f len, 0 <= len < 1024 -> rest st f len = small m st f len) -> 0 <= len < 2 ^ 64 ->
  (let* r := large_loop (chunk m) (Z.to_nat (len / PiecewiseChunkSize)) st f len in
   let '(st, f, len) := r in rest st f len) = by_chunks chunk small m st f len.
Proof using Type.
  intros Hrest Hlen. unfold by_chunks.
  destruct (large_loop _ _ _ _ _) as [[[st' f'] len']|] eqn:E; [|done]. cbn [rbind].
  apply Hrest. by eapply large_loop_rest.
Qed.

Lemma small4_chunk m st f :
  small4 m st f PiecewiseChunkSize = let* v := CityHash32 m f PiecewiseChunkSize in Ok (Mix st v).
Proof using Type. reflexivity. Qed.
Lemma small8_chunk m st f :
  small8 m st f PiecewiseChunkSize = let* v := Hash64 m f PiecewiseChunkSize in Ok (Mix st v).
Proof using Type. reflexivity. Qed.

Lemma Impl4_by_chunks m st f len : 0 <= len < 2 ^ 64 ->
  CombineContiguousImpl4 m 2 st f len = by_chunks CityHash32 small4 m st f len.
Proof using Type.
  intros Hlen. destruct (1024 <? len) eqn:E; bools.
  - assert (H8 : (8 <? len) = true) by (apply Z.ltb_lt; lia).
    assert (Hc : (PiecewiseChunkSize <? len) = true) by (apply Z.ltb_lt; unfold PiecewiseChunkSize; lia).
    cbn [CombineContiguousImpl4]. rewrite H8, Hc. apply large_by_chunks; [|done].
    intros st0 f0 len0 Hlen0. cbn [CombineContiguousImpl4]. unfold small4.
    by rewrite (proj2 (Z.ltb_ge PiecewiseChunkSize len0)) by (unfold PiecewiseChunkSize; lia).
  - rewrite by_chunks_small by (done || lia || apply small4_chunk). cbn [CombineContiguousImpl4]. unfold small4.
    by rewrite (proj2 (Z.ltb_ge PiecewiseChunkSize len)) by (unfold PiecewiseChunkSize; lia).
Qed.

Lemma Impl8_by_chunks m st f len : 0 <= len < 2 ^ 64 ->
  CombineContiguousImpl8 m 2 st f len = by_chunks Hash64 small8 m st f len.
Proof using Type.
  intros Hlen. destruct (1024 <? len) eqn:E; bools.
  - assert (H16 : (16 <? len) = true) by (apply Z.ltb_lt; lia).
    assert (Hc : (PiecewiseChunkSize <? len) = true) by (apply Z.ltb_lt; unfold PiecewiseChunkSize; lia).
    cbn [CombineContiguousImpl8]. rewrite H16, Hc. apply large_by_chunks; [|done].
    intros st0 f0 len0 Hlen0. cbn [CombineContiguousImpl8]. unfold small8.
    by rewrite (proj2 (Z.ltb_ge PiecewiseChunkSize len0)) by (unfold PiecewiseChunkSize; lia).
  - rewrite by_chunks_small by (done || lia || apply small8_chunk). cbn [CombineContiguousImpl8]. unfold small8.
    by rewrite (proj2 (Z.ltb_ge PiecewiseChunkSize len)) by (unfold PiecewiseChunkSize; lia).
Qed.

(** *** Reading inside the range *)

Section inside.
Context (m : list Z) (s : Z) (data : list Z).
Context (Hm : holds m s data) (Hbytes : Forall byte_ok data).
Let len : Z := Z.of_nat (length data).

Ltac load :=
  first [eapply load64_agree | eapply load32_agree | eapply load8_agree];
  [exact Hm | apply holds_self | exact Hbytes | subst len; lia ..].
Ltac loads := repeat (eapply agree_bind; [load|intros ? ?]).

Lemma Read9To16_agree : 8 < len -> agree (fun p => word 64 (fst p) /\ word 64 (snd p)) (Read9To16 m s len) (Read9To16 data 0 len).
Proof using Hm Hbytes. intros Hlen. unfold Read9To16. cbv zeta. loads. by apply agree_ok. Qed.

Lemma Read4To8_agree : 4 <= len -> agree (fun _ => True) (Read4To8 m s len) (Read4To8 data 0 len).
Proof using Hm Hbytes. intros Hlen. unfold Read4To8. cbv zeta. loads. by apply agree_ok. Qed.

Lemma Read1To3_agree : 0 < len -> agree (fun _ => True) (Read1To3 m s len) (Read1To3 data 0 len).
Proof using Hm Hbytes.
  intros Hlen. unfold Read1To3. cbv zeta.
  pose proof (Z.div_mod len 2 ltac:(done)). pose proof (Z.mod_pos_bound len 2 ltac:(done)).
  loads. by apply agree_ok.
Qed.

Lemma Hash64_agree : len < 2 ^ 64 -> agree (word 64) (Hash64 m s len) (Hash64 data 0 len).
Proof using Hm Hbytes.
  intros Hlen. unfold Hash64. destruct have_int128.
  - apply LowLevelHash_agree; try done. apply holds_self.
  - apply CityHash64_agree; try done. apply holds_self.
Qed.

Lemma small4_agree st : word 64 st -> agree (word 64) (small4 m st s len) (small4 data st 0 len).
Proof using Hm Hbytes.
  intros Hst. unfold small4. destruct (8 <? len) eqn:E8; bools.
  { eapply agree_bind; [apply CityHash32_agree; [exact Hm|apply holds_self|done]|]. intros. apply agree_ok, word_Mix. }
  destruct (4 <=? len) eqn:E4; bools.
  { eapply agree_bind; [by apply Read4To8_agree|]. intros. apply agree_ok, word_Mix. }
  destruct (0 <? len) eqn:E0; bools; [|by apply agree_ok].
  eapply agree_bind; [by apply Read1To3_agree|]. intros. apply agree_ok, word_Mix.
Qed.

Lemma small8_agree st : len < 2 ^ 64 -> word 64 st -> agree (word 64) (small8 m st s len) (small8 data st 0 len).
Proof using Hm Hbytes.
  intros Hlen Hst. unfold small8. destruct (16 <? len) eqn:E16; bools.
  { eapply agree_bind; [by apply Hash64_agree|]. intros. apply agree_ok, word_Mix. }
  destruct (8 <? len) eqn:E8; bools.
  { eapply agree_bind; [by apply Read9To16_agree|]. intros. apply agree_ok, word_u64. }
  destruct (4 <=? len) eqn:E4; bools.
  { eapply agree_bind; [by apply Read4To8_agree|]. intros. apply agree_ok, word_Mix. }
  destruct (0 <? len) eqn:E0; bools; [|by apply agree_ok].
  eapply agree_bind; [by apply Read1To3_agree|]. intros. apply agree_ok, word_Mix.
Qed.
End inside.

Lemma reads_CityHash32 : reads CityHash32 64 1024.
Proof using Type.
  intros m s data Hm Hb _. eapply agree_mono; [|apply CityHash32_agree; [exact Hm|apply holds_self|done]].
  intros v. by apply word_mono.
Qed.
Lemma reads_Hash64 : reads Hash64 64 1024.
Proof using Type. intros m s data Hm Hb ?. apply Hash64_agree; try done. lia. Qed.
Lemma reads_small4 st : word 64 st -> reads (fun m => small4 m st) 64 1024.
Proof using Type. intros Hst m s data Hm Hb ?. by apply small4_agree. Qed.
Lemma reads_small8 st : word 64 st -> reads (fun m => small8 m st) 64 1024.
Proof using Type. intros Hst m s data Hm Hb ?. apply small8_agree; try done. lia. Qed.

(** ** The state as a fold over the bytes *)

(** What hashing [data] does to the state. *)
Definition mix_bytes (st : Z) (data : list Z) : Z :=
  match combine_contiguous st data 0 (Z.of_nat (length data)) with Ok v => v | Err _ => st end.

Lemma combine_contiguous_ok st m s data : word 64 st -> holds m s data -> Forall byte_ok data ->
  Z.of_nat (length data) < 2 ^ 64 ->
  combine_contiguous st m s (Z.of_nat (length data)) = Ok (mix_bytes st data) /\ word 64 (mix_bytes st data).
Proof using Type.
  intros Hst Hm Hb Hlen.
  assert (Hag : agree (word 64) (combine_contiguous st m s (Z.of_nat (length data)))
    (combine_contiguous st data 0 (Z.of_nat (length data)))).
  { unfold combine_contiguous, CombineContiguousImpl. destruct (sizeof_size_t =? 4).
    - rewrite !Impl4_by_chunks by lia. apply by_chunks_reads; try done; [apply reads_CityHash32|apply reads_small4].
    - rewrite !Impl8_by_chunks by lia. apply by_chunks_reads; try done; [apply reads_Hash64|apply reads_small8]. }
  destruct Hag as (v & Hv & Hd & Hw). unfold mix_bytes. by rewrite Hv, Hd.
Qed.

Lemma mix_bytes_nil st : mix_bytes st [] = st.
Proof using Type.
  unfold mix_bytes, combine_contiguous, CombineContiguousImpl. by destruct (sizeof_size_t =? 4).
Qed.

Lemma mix_bytes_app st l1 l2 : word 64 st -> Forall byte_ok l1 -> Forall byte_ok l2 -> length l1 = 1024%nat ->
  Z.of_nat (length (l1 ++ l2)) < 2 ^ 64 -> mix_bytes st (l1 ++ l2) = mix_bytes (mix_bytes st l1) l2.
Proof using H0.
  intros Hst Hb1 Hb2 Hl1 Hlen. pose proof Hlen as Hlen'. rewrite length_app in Hlen'.
  destruct (combine_contiguous_ok st l1 0 l1) as [H1 Hw1]; [done|apply holds_self|done|lia|].
  destruct (combine_contiguous_ok (mix_bytes st l1) l2 0 l2) as [H2 Hw2]; [done|apply holds_self|done|lia|].
  destruct (combine_contiguous_ok st (l1 ++ l2) 0 (l1 ++ l2)) as [H12 _];
    [done|apply holds_self|by apply Forall_app|lia|].
  assert (Heq : Ok (mix_bytes st (l1 ++ l2)) = Ok (mix_bytes (mix_bytes st l1) l2)); [|congruence].
  rewrite <- H12, <- H2. rewrite Hl1 in H1. change (Z.of_nat 1024) with 1024 in H1.
  unfold combine_contiguous, CombineContiguousImpl in *. destruct (sizeof_size_t =? 4).
  - rewrite !Impl4_by_chunks by lia. rewrite Impl4_by_chunks in H1 by lia.
    rewrite by_chunks_app; try done; [|apply reads_CityHash32|apply reads_small4]. by rewrite H1.
  - rewrite !Impl8_by_chunks by lia. rewrite Impl8_by_chunks in H1 by lia.
    rewrite by_chunks_app; try done; [|apply reads_Hash64|apply reads_small8]. by rewrite H1.
Qed.
End impl.

(** ** The piecewise combiner *)

(** What the combiner is promised of its hash state: combining a range only
    depends on its bytes, nothing happens for the empty range, and the range
    may be cut behind a whole chunk. *)
Class HashStateLaws (H : Type) `{HashState H} := {
  h_valid : H -> Prop;
  h_absorb : H -> list Z -> H;
  h_combine_ok st m s data : h_valid st -> holds m s data -> Forall byte_ok data ->
    Z.of_nat (length data) < 2 ^ 64 ->
    h_combine st m s (Z.of_nat (length data)) = Ok (h_absorb st data) /\ h_valid (h_absorb st data);
  h_absorb_nil st : h_absorb st [] = st;
  h_absorb_app st l1 l2 : h_valid st -> Forall byte_ok l1 -> Forall byte_ok l2 -> length l1 = 1024%nat ->
    Z.of_nat (length (l1 ++ l2)) < 2 ^ 64 -> h_absorb st (l1 ++ l2) = h_absorb (h_absorb st l1) l2 }.

#[export] Instance mixing_laws `{PlatformLaws} : HashStateLaws Z := {
  h_valid := word 64;
  h_absorb := mix_bytes;
  h_combine_ok := combine_contiguous_ok;
  h_absorb_nil := mix_bytes_nil;
  h_absorb_app := mix_bytes_app }.

Lemma memcpy_ok dst d src s bytes pre post : holds src s bytes ->
  dst = pre ++ post -> d = Z.of_nat (length pre) -> (length bytes <= length post)%nat ->
  memcpy dst d src s (Z.of_nat (length bytes)) = Ok (pre ++ bytes ++ drop (length bytes) post).
Proof.
  intros Hs -> -> Hlen. unfold memcpy. rewrite Nat2Z.id, (load_bytes_prefix _ _ _ bytes), take_ge by done.
  cbn [rbind]. unfold store_bytes. rewrite length_app. rewrite !(proj2 (Z.leb_le _ _)) by lia. cbn [andb].
  rewrite Nat2Z.id, take_app_length, <- drop_drop, drop_app_length. done.
Qed.

Section piecewise_laws.
Context {H : Type} `{!HashState H, !HashStateLaws H}.

(** [st'] with [rest] still to hash stands for [st] with [l] to hash. *)
Definition pending (st : H) (l : list Z) (st' : H) (rest : list Z) : Prop :=
  h_valid st' /\ Forall byte_ok rest /\ (length rest <= length l)%nat /\
  forall tail, Forall byte_ok tail -> Z.of_nat (length (l ++ tail)) < 2 ^ 64 ->
    h_absorb st (l ++ tail) = h_absorb st' (rest ++ tail).

Lemma pending_chunk st l1 l2 : h_valid st -> Forall byte_ok (l1 ++ l2) -> length l1 = 1024%nat ->
  h_valid (h_absorb st l1) -> pending st (l1 ++ l2) (h_absorb st l1) l2.
Proof.
  intros Hst [Hb1 Hb2]%Forall_app Hl1 Hv. split; [done|]. split; [done|]. split; [rewrite length_app; lia|].
  intros tail Ht Hlen. rewrite <- app_assoc in Hlen |- *. apply h_absorb_app; try done. by apply Forall_app.
Qed.

Lemma pending_trans st l st1 l1 st2 l2 : pending st l st1 l1 -> pending st1 l1 st2 l2 -> pending st l st2 l2.
Proof.
  intros (Hv1 & Hb1 & Hle1 & H1) (Hv2 & Hb2 & Hle2 & H2). split; [done|]. split; [done|]. split; [lia|].
  intros tail Ht Hlen. rewrite H1, H2; try done. rewrite length_app in *. lia.
Qed.

Lemma pending_app st l st' rest extra : Forall byte_ok extra -> pending st l st' rest ->
  pending st (l ++ extra) st' (rest ++ extra).
Proof.
  intros He (Hv & Hb & Hle & Heq). split; [done|]. split; [by apply Forall_app|].
  rewrite !length_app. split; [lia|]. intros tail Ht Hlen. rewrite <- !app_assoc in *. apply Heq; [|done].
  by apply Forall_app.
Qed.

Lemma add_chunks_ok fuel st m p data : h_valid st -> holds m p data -> Forall byte_ok data ->
  Z.of_nat (length data) < 1024 * (Z.of_nat fuel + 1) -> Z.of_nat (length data) < 2 ^ 64 ->
  exists st' p' rest, add_chunks fuel st m p (Z.of_nat (length data)) = Ok (st', p', Z.of_nat (length rest)) /\
    (length rest < 1024)%nat /\ holds m p' rest /\ pending st data st' rest.
Proof.
  revert st p data. induction fuel as [|fuel IH]; intros st p data Hst Hm Hb Hfuel Hlen; cbn [add_chunks].
  all: unfold PiecewiseChunkSize; destruct (1024 <=? Z.of_nat (length data)) eqn:E; bools.
  1: lia.
  2: { assert (Ht : length (take 1024 data) = 1024%nat) by (rewrite length_take; lia).
    pose proof Hm as Hm'. rewrite <- (take_drop 1024 data) in Hm'. apply holds_split in Hm' as [Hm1 Hm2].
    rewrite Ht in Hm2. destruct (h_combine_ok st m p (take 1024 data)) as [Hc Hv]; [done|done|by apply Forall_take|lia|].
    rewrite Ht in Hc. change (Z.of_nat 1024) with 1024 in *. rewrite Hc. cbn [rbind].
    rewrite u64_id by lia.
    replace (Z.of_nat (length data) - 1024) with (Z.of_nat (length (drop 1024 data))) by (rewrite length_drop; lia).
    destruct (IH (h_absorb st (take 1024 data)) (p + 1024) (drop 1024 data)) as (st' & p' & rest & -> & ? & ? & Hp);
      [done|done|by apply Forall_drop|rewrite length_drop; lia|rewrite length_drop; lia|].
    exists st', p', rest. split; [done|]. split; [done|]. split; [done|].
    eapply pending_trans; [|exact Hp]. rewrite <- (take_drop 1024 data) at 1. apply pending_chunk; try done.
    by rewrite take_drop. }
  all: exists st, p, data; split; [done|]; split; [lia|]; split; [done|]; by repeat split.
Qed.

(** The combiner after the bytes [l]: a part of them is in the state, the
    rest in the buffer. *)
Definition combiner_inv (st0 : H) (l : list Z) (c : PiecewiseCombiner) (st : H) : Prop :=
  exists rest unused, buf_ c = rest ++ unused /\ position_ c = Z.of_nat (length rest) /\
    length (buf_ c) = 1024%nat /\ (length rest < 1024)%nat /\ pending st0 l st rest.

Lemma add_buffer_ok st0 l c st m p data : combiner_inv st0 l c st -> holds m p data -> Forall byte_ok data ->
  Z.of_nat (length data) < 2 ^ 63 ->
  exists c' st', add_buffer c st m p (Z.of_nat (length data)) = Ok (c', st') /\
    combiner_inv st0 (l ++ data) c' st'.
Proof.
  intros (rest & unused & Hbuf & Hpos & Hblen & Hrest & Hpend) Hm Hb Hlen. pose proof Hpend as (Hv & Hbr & _ & _).
  assert (Hun : (length rest + length unused = 1024)%nat) by (rewrite <- length_app, <- Hbuf; done).
  unfold add_buffer. rewrite Hpos. rewrite u64_id by lia. unfold PiecewiseChunkSize.
  destruct (Z.of_nat (length rest) + Z.of_nat (length data) <? 1024) eqn:E; bools.
  { rewrite (memcpy_ok _ _ m p data rest unused) by (done || lia). cbn [rbind]. eexists _, _. split; [done|].
    exists (rest ++ data), (drop (length data) unused). cbn [buf_ position_]. rewrite <- app_assoc.
    split; [done|]. rewrite !length_app, length_drop. split; [lia|]. split; [lia|]. split; [lia|]. by apply pending_app. }
  (* the buffered bytes, completed to a chunk *)
  set (first := if negb _ then _ else _).
  assert (Hfirst : exists buf st1 p1 data1, first = Ok (buf, st1, p1, Z.of_nat (length data1)) /\
    length buf = 1024%nat /\ holds m p1 data1 /\ Forall byte_ok data1 /\ (length data1 <= length data)%nat /\
    pending st0 (l ++ data) st1 data1).
  { subst first. destruct (Z.of_nat (length rest) =? 0) eqn:E0; bools; cbn [negb].
    - assert (rest = []) as -> by (destruct rest; [done|cbn [length] in E0; lia]).
      exists (buf_ c), st, p, data. split; [done|]. split_and!; try done. by apply (pending_app _ _ _ []).
    - rewrite u64_id by lia. set (k := (1024 - length rest)%nat).
      replace (1024 - Z.of_nat (length rest)) with (Z.of_nat k) by lia.
      pose proof Hm as Hm'. rewrite <- (take_drop k data) in Hm', Hb. apply holds_split in Hm' as [Hm1 Hm2].
      assert (Hk : length (take k data) = k) by (rewrite length_take; lia). rewrite Hk in Hm2.
      pose proof Hb as [Hb1 Hb2]%Forall_app.
      pose proof (memcpy_ok (buf_ c) _ m p (take k data) rest unused Hm1 Hbuf eq_refl ltac:(lia)) as Hcopy.
      rewrite Hk, drop_ge, app_nil_r in Hcopy by lia. rewrite Hcopy. cbn [rbind]. assert (Hfull : length (rest ++ take k data) = 1024%nat) by (rewrite length_app; lia).
      destruct (h_combine_ok st (rest ++ take k data) 0 (rest ++ take k data)) as [Hc Hv1];
        [done|apply holds_self|by apply Forall_app|lia|].
      rewrite Hfull in Hc. change (Z.of_nat 1024) with 1024 in Hc. rewrite Hc. cbn [rbind]. rewrite u64_id by lia.
      eexists _, _, _, (drop k data). split; [rewrite length_drop; do 3 f_equal; lia|].
      split; [done|]. split; [done|]. split; [done|]. split; [rewrite length_drop; lia|].
      eapply pending_trans; [apply pending_app, Hpend; by rewrite take_drop in Hb|].
      rewrite <- (take_drop k data) at 1. rewrite app_assoc. apply pending_chunk; try done.
      rewrite <- app_assoc. by apply Forall_app. }
  destruct Hfirst as (buf & st1 & p1 & data1 & -> & Hbl & Hm1 & Hb1 & Hle1 & Hp1). cbn [rbind].
  destruct Hp1 as (Hv1 & Hrest1). pose proof (conj Hv1 Hrest1 : pending _ _ _ _) as Hp1. clear Hrest1.
  pose proof (Z.div_mod (Z.of_nat (length data1)) 1024 ltac:(done)).
  pose proof (Z.mod_pos_bound (Z.of_nat (length data1)) 1024 ltac:(done)).
  destruct (add_chunks_ok (Z.to_nat (Z.of_nat (length data1) / 1024)) st1 m p1 data1)
    as (st2 & p2 & rest2 & -> & Hr2 & Hm2 & Hp2); [done|done|done|lia|lia|].
  cbn [rbind]. rewrite (memcpy_ok _ _ m p2 rest2 [] buf) by (done || lia). cbn [rbind app].
  eexists _, _. split; [done|]. exists rest2, (drop (length rest2) buf). cbn [buf_ position_].
  split; [done|]. split; [done|]. rewrite length_app, length_drop. split; [lia|]. split; [lia|].
  by eapply pending_trans.
Qed.

Lemma pieces_ok st0 l c st pieces : combiner_inv st0 l c st ->
  Forall (Forall byte_ok) pieces -> Forall (fun p => Z.of_nat (length p) < 2 ^ 63) pieces ->
  exists c' st', foldM add_piece (c, st) pieces = Ok (c', st') /\ combiner_inv st0 (l ++ concat pieces) c' st'.
Proof.
  intros Hinv Hb Hlen. revert l c st Hinv Hb Hlen. induction pieces as [|p pieces IH]; intros l c st Hinv Hb Hlen.
  - exists c, st. by rewrite app_nil_r.
  - apply Forall_cons in Hb as [Hbp Hb], Hlen as [Hlp Hlen]. cbn [foldM concat]. unfold add_piece at 1. cbn [fst snd].
    destruct (add_buffer_ok st0 l c st p 0 p Hinv (holds_self p) Hbp Hlp) as (c1 & st1 & -> & Hinv1). cbn [rbind].
    rewrite app_assoc. by apply IH.
Qed.

(** C32: the piecewise combiner keeps its documented promise, for every hash
    state with the laws of [combine_contiguous] and whatever the buffer held
    when the object was made: adding pieces of any number and size, then
    finalizing, never reads or writes outside a buffer and gives the state
    that [combine_contiguous] gives for the concatenation of the pieces. *)
Theorem piecewise_is_contiguous buf st pieces : length buf = 1024%nat -> h_valid st ->
  Forall (Forall byte_ok) pieces -> Z.of_nat (length (concat pieces)) < 2 ^ 63 ->
  piecewise_hash buf st pieces = h_combine st (concat pieces) 0 (Z.of_nat (length (concat pieces))).
Proof.
  intros Hbuf Hst Hb Hlen. unfold piecewise_hash.
  assert (Hpl : Forall (fun p => Z.of_nat (length p) < 2 ^ 63) pieces).
  { apply Forall_forall. intros p Hp. apply list_elem_of_split in Hp as (l1 & l2 & ->).
    rewrite concat_app, length_app in Hlen. cbn [concat] in Hlen. rewrite length_app in Hlen. lia. }
  assert (Hbc : Forall byte_ok (concat pieces)) by (clear -Hb; induction Hb; [done|by apply Forall_app]).
  destruct (pieces_ok st [] (PiecewiseCombiner_ctor buf) st pieces) as (c & st' & -> & Hinv); [|done|done|].
  { exists [], buf. unfold pending. cbn [buf_ position_ PiecewiseCombiner_ctor length app]. by repeat split; auto with lia. }
  destruct Hinv as (rest & unused & Hbf & Hpos & Hbl & Hr & (Hv & Hbr & Hle & Heq)). cbn [rbind fst snd]. unfold finalize.
  rewrite Hpos. cbn [app] in Hle, Heq. specialize (Heq [] ltac:(done)). rewrite !app_nil_r in Heq.
  destruct (h_combine_ok st' (buf_ c) 0 rest) as [-> _]; [done| |done|lia|].
  { exists [], unused. by rewrite Hbf. }
  destruct (h_combine_ok st (concat pieces) 0 (concat pieces)) as [-> _]; [done|apply holds_self|done|lia|].
  rewrite Heq by lia. done.
Qed.
End piecewise_laws.

(** A platform for examples: 64 bits, with a 128-bit type. *)
Module Sample.
Definition platform : Platform := {|
  sizeof_size_t := 8; kSeed := 0x5555AAAA1234;
  compiler := {| have_int128 := true; have_umul128 := false; no_asserts := false |} |}.
Lemma laws : @PlatformLaws platform.
Proof. constructor; [by right|split; [intros Hc; discriminate Hc|reflexivity]]. Defined.
End Sample.

Theorem piecewise_is_contiguous_witness :
  @piecewise_hash Z (@mixing_hash_state Sample.platform) (replicate 1024 7) 99 [[1; 2; 3]; []; [4; 5]] =
  @combine_contiguous Sample.platform 99 [1; 2; 3; 4; 5] 0 5.
Proof.
  refine (@piecewise_is_contiguous Z (@mixing_hash_state Sample.platform)
    (@mixing_laws Sample.platform Sample.laws) (replicate 1024 7) 99 [[1; 2; 3]; []; [4; 5]] _ _ _ _).
  - reflexivity.
  - split; [intros Hc; discriminate Hc|reflexivity].
  - repeat constructor; try (intros Hc; discriminate Hc).
  - reflexivity.
Defined.

(** ** Reading inside the buffer *)

(** [f], run on [data] wherever it lies in memory, gives the word it gives
    for the bare bytes. *)
Definition reads_inside (w : Z) (f : list Z -> Z -> Z -> result Z) : Prop :=
  forall pre data post, Forall byte_ok data -> Z.of_nat (length data) < 2 ^ 64 ->
    exists v, f (pre ++ data ++ post) (Z.of_nat (length pre)) (Z.of_nat (length data)) = Ok v /\
      f data 0 (Z.of_nat (length data)) = Ok v /\ 0 <= v < 2 ^ w.

(** none of the hash functions reads outside its buffer, at any address
    and for any length: CityHash32, CityHash64 with and without seeds,
    LowLevelHash and the two implementations of
    [MixingHashState::combine_contiguous] succeed, their loops end, the result
    is a word of their width, and it depends on the bytes of the buffer only. *)
Theorem hash_reads_inside `{PlatformLaws} st seed seed1 salt : word 64 st ->
  reads_inside 32 CityHash32 /\ reads_inside 64 CityHash64 /\
  reads_inside 64 (fun m s len => CityHash64WithSeed m s len seed) /\
  reads_inside 64 (fun m s len => CityHash64WithSeeds m s len seed seed1) /\
  reads_inside 64 (fun m s len => LowLevelHash m salt s len seed) /\
  reads_inside 64 (combine_contiguous st).
Proof.
  intros Hst. assert (Hin : forall w f, (forall m s data, holds m s data -> Forall byte_ok data ->
    Z.of_nat (length data) < 2 ^ 64 ->
    agree (word w) (f m s (Z.of_nat (length data))) (f data 0 (Z.of_nat (length data)))) -> reads_inside w f).
  { intros w f Hf pre data post Hb Hlen. apply Hf; [by exists pre, post|done|done]. }
  assert (Hseeds : forall a b, reads_inside 64 (fun m s len => CityHash64WithSeeds m s len a b)).
  { intros a b. apply Hin. intros m s data Hm Hb Hlen. apply CityHash64WithSeeds_agree; [done|apply holds_self|done|done]. }
  split_and!; [..|apply Hseeds|apply Hseeds| |]; apply Hin; intros m s data Hm Hb Hlen.
  - apply CityHash32_agree; [done|apply holds_self|done].
  - apply CityHash64_agree; [done|apply holds_self|done|done].
  - apply LowLevelHash_agree; [done|apply holds_self|done|done].
  - destruct (combine_contiguous_ok st m s data) as [-> Hw]; try done.
    destruct (combine_contiguous_ok st data 0 data) as [-> _]; try done; [apply holds_self|]. by apply agree_ok.
Qed.

Theorem hash_reads_inside_witness : reads_inside 64 (@combine_contiguous Sample.platform 12345).
Proof.
  assert (Hst : word 64 12345) by (split; [intros Hc; discriminate Hc|reflexivity]).
  destruct (@hash_reads_inside Sample.platform Sample.laws 12345 0 0 [] Hst) as (_ & _ & _ & _ & _ & H).
  exact H.
Defined.

(** The vectors of the unit tests (city_test.cc) for lengths up to 12. *)
Fixpoint city_test_data (n : nat) (i a b : Z) : list Z :=
  match n with
  | O => []
  | S n =>
      let a := a +64 b in
      let b := b +64 a in
      let a := (a ^^ (a >> 41)) *64 k0 in
      let b := (b ^^ (b >> 41)) *64 k0 +64 i in
      u8 (b >> 37) :: city_test_data n (i + 1) a b
  end.

Example city_test_vectors : let data := city_test_data 200 0 9 777 in
  CityHash64 data 0 0 = Ok 0x9ae16a3b2f90404f /\ CityHash64 data 1 1 = Ok 0x541150e87f415e96 /\
  CityHash64 data 4 2 = Ok 0xf3786a4b25827c1 /\ CityHash64 data 9 3 = Ok 0xef923a7a1af78eab /\
  CityHash32 data 0 0 = Ok 0xdc56d17a /\ CityHash32 data 16 4 = Ok 0x26f2b463 /\
  CityHash32 data 25 5 = Ok 0xb042c047 /\ CityHash32 data 36 6 = Ok 0xe73bb0a8.
Proof. vm_compute. repeat split. Qed.

(** [Read9To16] gives the last eight bytes of the range, not the rest of it
    padded with zeros: bytes 1 to 7 are in both words. *)
Example Read9To16_overlaps :
  Read9To16 [1; 2; 3; 4; 5; 6; 7; 8; 9] 0 9 = Ok (0x0807060504030201, 0x0908070605040302).
Proof. reflexivity. Qed.
