(* ===== verification/HashValues.v ===== *)
(** * HashValues: hashing values (src/abseil-cpp/absl/hash/internal/hash.h)

    [value] names the values that the default overloads of [AbslHashValue]
    accept, each with what the overload looks at: an integer has its width,
    a floating-point number is its bit pattern, a pointer its address, an
    unordered container the order of its iteration. Each overload is a
    definition that takes [combine], [H::combine] on one value, as a
    parameter; [hash_value] ties the knot. Not modelled: long double,
    pointers to members, and [std::vector<bool>], whose hash is the standard
    library's. *)

From S2P Require Import Prelude.
From S2P Require Import Word.
From S2P Require Import LowLevelHash.
From S2P Require Import Hash.

Inductive value :=
| VInt (w z : Z)
| VBool (b : bool)
| VEnum (w z : Z)
| VDouble (bits : Z)
| VPtr (address : Z)
| VNullptr
| VUniquePtr (address : Z)
| VSharedPtr (address : Z)
| VPair (first second : value)
| VTuple (vs : list value)
| VString (str : list Z)
| VWString (w : Z) (str : list Z)
| VArrayInt (w : Z) (array : list Z)
| VArray (array : list value)
| VVectorInt (w : Z) (vector : list Z)
| VVector (vector : list value)
| VDeque (deque : list value)
| VForwardList (l : list value)
| VList (l : list value)
| VMap (map : list value)
| VMultimap (map : list value)
| VSet (set : list value)
| VMultiset (set : list value)
| VUnorderedSet (s : list value)
| VUnorderedMultiset (s : list value)
| VUnorderedMap (s : list value)
| VUnorderedMultimap (s : list value)
| VReferenceWrapper (v : value)
| VOptional (opt : option value)
| VVariant (index : Z) (v : option value).

(** The object representation of integers. *)
Definition int_bytes (w z : Z) : list Z := le_bytes (Z.to_nat (w / 8)) (unsigned w z).

Section values.
Context `{Platform}.

(** The width of [size_t] and [uintptr_t], and a [size()]. *)
Definition size_bits : Z := 8 * sizeof_size_t.
Definition to_size_t (z : Z) : Z := z mod 2 ^ size_bits.
Definition size_of {A} (l : list A) : value := VInt size_bits (Z.of_nat (length l)).

(** [hash_bytes]: the bytes of the object. *)
Definition hash_bytes (hash_state : Z) (object : list Z) : result Z :=
  combine_contiguous hash_state object 0 (Z.of_nat (length object)).

(** [hash_range_or_bytes] for integers. *)
Definition hash_range_bytes (w hash_state : Z) (data : list Z) : result Z :=
  let bytes := data ≫= int_bytes w in
  combine_contiguous hash_state bytes 0 (w / 8 * Z.of_nat (length data)).

(** [MixingHashState{}]. *)
Definition MixingHashState_ctor : Z := Seed.

(** The consumer of [RunCombineUnordered]: [unordered_state] after one more
    element; the carry is added back. *)
Definition add_unordered (unordered_state element_state : Z) : Z :=
  let unordered_state := unordered_state +64 element_state in
  if unordered_state <? element_state then unordered_state +64 1 else unordered_state.

Section overloads.
Context (combine : Z -> value -> result Z).

Fixpoint combine_all (hash_state : Z) (vs : list value) : result Z :=
  match vs with
  | [] => Ok hash_state
  | v :: vs => let* hash_state := combine hash_state v in combine_all hash_state vs
  end.

(** [hash_range_or_bytes] for the other types. *)
Definition hash_range (hash_state : Z) (data : list value) : result Z := combine_all hash_state data.

Definition AbslHashValue_bool (hash_state : Z) (value : bool) : result Z :=
  combine hash_state (VInt 8 (if value then 1 else 0)).
Definition AbslHashValue_enum (hash_state w e : Z) : result Z := combine hash_state (VInt w e).
Definition AbslHashValue_double (hash_state bits : Z) : result Z :=
  let is_zero := bits mod 2 ^ 63 =? 0 in
  hash_bytes hash_state (le_bytes 8 (if is_zero then 0 else bits)).
Definition AbslHashValue_ptr (hash_state ptr : Z) : result Z :=
  let v := ptr in combine_all hash_state [VInt size_bits v; VInt size_bits v].
Definition AbslHashValue_nullptr (hash_state : Z) : result Z := combine hash_state (VPtr 0).
Definition AbslHashValue_unique_ptr (hash_state ptr : Z) : result Z := combine hash_state (VPtr ptr).
Definition AbslHashValue_shared_ptr (hash_state ptr : Z) : result Z := combine hash_state (VPtr ptr).
Definition AbslHashValue_pair (hash_state : Z) (first second : value) : result Z :=
  combine_all hash_state [first; second].
Definition hash_tuple (hash_state : Z) (t : list value) : result Z := combine_all hash_state t.
Definition AbslHashValue_tuple (hash_state : Z) (t : list value) : result Z := hash_tuple hash_state t.
Definition AbslHashValue_string (hash_state : Z) (str : list Z) : result Z :=
  let* hash_state := combine_contiguous hash_state str 0 (Z.of_nat (length str)) in
  combine hash_state (size_of str).
Definition AbslHashValue_wstring (w hash_state : Z) (str : list Z) : result Z :=
  let* hash_state := hash_range_bytes w hash_state str in
  combine hash_state (size_of str).
Definition AbslHashValue_array_int (w hash_state : Z) (array : list Z) : result Z :=
  hash_range_bytes w hash_state array.
Definition AbslHashValue_array (hash_state : Z) (array : list value) : result Z :=
  hash_range hash_state array.
Definition AbslHashValue_deque (hash_state : Z) (deque : list value) : result Z :=
  let* hash_state := combine_all hash_state deque in combine hash_state (size_of deque).
(** The loop counts the elements. *)
Fixpoint forward_list_loop (hash_state size : Z) (l : list value) : result (Z * Z) :=
  match l with
  | [] => Ok (hash_state, size)
  | t :: l => let* hash_state := combine hash_state t in forward_list_loop hash_state (to_size_t (size + 1)) l
  end.
Definition AbslHashValue_forward_list (hash_state : Z) (l : list value) : result Z :=
  let* r := forward_list_loop hash_state 0 l in
  let '(hash_state, size) := r in combine hash_state (VInt size_bits size).
Definition AbslHashValue_list (hash_state : Z) (l : list value) : result Z :=
  let* hash_state := combine_all hash_state l in combine hash_state (size_of l).
Definition AbslHashValue_vector_int (w hash_state : Z) (vector : list Z) : result Z :=
  let* hash_state := hash_range_bytes w hash_state vector in combine hash_state (size_of vector).
Definition AbslHashValue_vector (hash_state : Z) (vector : list value) : result Z :=
  let* hash_state := hash_range hash_state vector in combine hash_state (size_of vector).
Definition AbslHashValue_map (hash_state : Z) (map : list value) : result Z :=
  let* hash_state := combine_all hash_state map in combine hash_state (size_of map).
Definition AbslHashValue_multimap (hash_state : Z) (map : list value) : result Z :=
  let* hash_state := combine_all hash_state map in combine hash_state (size_of map).
Definition AbslHashValue_set (hash_state : Z) (set : list value) : result Z :=
  let* hash_state := combine_all hash_state set in combine hash_state (size_of set).
Definition AbslHashValue_multiset (hash_state : Z) (set : list value) : result Z :=
  let* hash_state := combine_all hash_state set in combine hash_state (size_of set).

(** The combiner: the inner state is combined with each element, and reset
    by the consumer, which also updates [unordered_state]. *)
Fixpoint CombineUnorderedCallback (inner_state unordered_state : Z) (range : list value) : result Z :=
  match range with
  | [] => Ok unordered_state
  | v :: range =>
      let* inner_state := combine inner_state v in
      let unordered_state := add_unordered unordered_state inner_state in
      let inner_state := MixingHashState_ctor in
      CombineUnorderedCallback inner_state unordered_state range
  end.
Definition RunCombineUnordered (state : Z) (range : list value) : result Z :=
  let* unordered_state := CombineUnorderedCallback MixingHashState_ctor 0 range in
  combine state (VInt 64 unordered_state).
Definition combine_unordered (state : Z) (range : list value) : result Z := RunCombineUnordered state range.

Definition AbslHashValue_unordered_set (hash_state : Z) (s : list value) : result Z :=
  let* hash_state := combine_unordered hash_state s in combine hash_state (size_of s).
Definition AbslHashValue_unordered_multiset (hash_state : Z) (s : list value) : result Z :=
  let* hash_state := combine_unordered hash_state s in combine hash_state (size_of s).
Definition AbslHashValue_unordered_map (hash_state : Z) (s : list value) : result Z :=
  let* hash_state := combine_unordered hash_state s in combine hash_state (size_of s).
Definition AbslHashValue_unordered_multimap (hash_state : Z) (s : list value) : result Z :=
  let* hash_state := combine_unordered hash_state s in combine hash_state (size_of s).
Definition AbslHashValue_reference_wrapper (hash_state : Z) (opt : value) : result Z := combine hash_state opt.
Definition AbslHashValue_optional (hash_state : Z) (opt : option value) : result Z :=
  let* hash_state := match opt with Some v => combine hash_state v | None => Ok hash_state end in
  combine hash_state (VBool (bool_decide (is_Some opt))).
(** [VariantVisitor]; a valueless variant is [None]. *)
Definition AbslHashValue_variant (hash_state index : Z) (v : option value) : result Z :=
  let* hash_state := match v with Some v => combine hash_state v | None => Ok hash_state end in
  combine hash_state (VInt size_bits index).
End overloads.

(** [H::combine] of one value: [HashSelect] picks the bytes of the object for
    integers, and the overload for the other types. The values of an overload
    are parts of the value, or values without parts, so the depth of the
    value bounds the recursion. *)
Fixpoint combine (depth : nat) (hash_state : Z) (v : value) : result Z :=
  match depth with
  | O => Err OutOfFuel
  | S depth =>
      let rec := combine depth in
      match v with
      | VInt w z => hash_bytes hash_state (int_bytes w z)
      | VBool b => AbslHashValue_bool rec hash_state b
      | VEnum w z => AbslHashValue_enum rec hash_state w z
      | VDouble bits => AbslHashValue_double hash_state bits
      | VPtr a => AbslHashValue_ptr rec hash_state a
      | VNullptr => AbslHashValue_nullptr rec hash_state
      | VUniquePtr a => AbslHashValue_unique_ptr rec hash_state a
      | VSharedPtr a => AbslHashValue_shared_ptr rec hash_state a
      | VPair a b => AbslHashValue_pair rec hash_state a b
      | VTuple vs => AbslHashValue_tuple rec hash_state vs
      | VString str => AbslHashValue_string rec hash_state str
      | VWString w str => AbslHashValue_wstring rec w hash_state str
      | VArrayInt w l => AbslHashValue_array_int w hash_state l
      | VArray l => AbslHashValue_array rec hash_state l
      | VVectorInt w l => AbslHashValue_vector_int rec w hash_state l
      | VVector l => AbslHashValue_vector rec hash_state l
      | VDeque l => AbslHashValue_deque rec hash_state l
      | VForwardList l => AbslHashValue_forward_list rec hash_state l
      | VList l => AbslHashValue_list rec hash_state l
      | VMap l => AbslHashValue_map rec hash_state l
      | VMultimap l => AbslHashValue_multimap rec hash_state l
      | VSet l => AbslHashValue_set rec hash_state l
      | VMultiset l => AbslHashValue_multiset rec hash_state l
      | VUnorderedSet l => AbslHashValue_unordered_set rec hash_state l
      | VUnorderedMultiset l => AbslHashValue_unordered_multiset rec hash_state l
      | VUnorderedMap l => AbslHashValue_unordered_map rec hash_state l
      | VUnorderedMultimap l => AbslHashValue_unordered_multimap rec hash_state l
      | VReferenceWrapper v => AbslHashValue_reference_wrapper rec hash_state v
      | VOptional o => AbslHashValue_optional rec hash_state o
      | VVariant i v => AbslHashValue_variant rec hash_state i v
      end
  end.
End values.

(** The depth of a value, with room for the sizes that overloads combine. *)
Fixpoint depth (v : value) : nat :=
  let all := fix all (l : list value) : nat := match l with [] => O | v :: l => Nat.max (depth v) (all l) end in
  match v with
  | VPair a b => S (Nat.max (depth a) (depth b))
  | VTuple l | VArray l | VVector l | VDeque l | VForwardList l | VList l | VMap l | VMultimap l
  | VSet l | VMultiset l | VUnorderedSet l | VUnorderedMultiset l | VUnorderedMap l
  | VUnorderedMultimap l => S (Nat.max 3 (all l))
  | VReferenceWrapper v => S (depth v)
  | VOptional (Some v) | VVariant _ (Some v) => S (Nat.max 3 (depth v))
  | _ => 4
  end.

(** [MixingHashState::hash]: integers take a fast path. *)
Definition hash `{Platform} (v : value) : result Z :=
  match v with
  | VInt w z => Ok (to_size_t (Mix Seed (unsigned w z)))
  | _ => let* state := combine (depth v) MixingHashState_ctor v in Ok (to_size_t state)
  end.

(** ** Well-formed values *)

Definition int_width (w : Z) : Prop := w = 8 \/ w = 16 \/ w = 32 \/ w = 64.

(** The values an overload combines. *)
Definition parts (v : value) : list value :=
  match v with
  | VPair a b => [a; b]
  | VTuple l | VArray l | VVector l | VDeque l | VForwardList l | VList l | VMap l | VMultimap l
  | VSet l | VMultiset l | VUnorderedSet l | VUnorderedMultiset l | VUnorderedMap l
  | VUnorderedMultimap l => l
  | VReferenceWrapper v | VOptional (Some v) | VVariant _ (Some v) => [v]
  | _ => []
  end.

Definition local_ok (v : value) : Prop :=
  match v with
  | VInt w _ | VEnum w _ => int_width w
  | VString str => Forall byte_ok str /\ Z.of_nat (length str) < 2 ^ 63
  | VWString w l | VArrayInt w l | VVectorInt w l => int_width w /\ w / 8 * Z.of_nat (length l) < 2 ^ 63
  | _ => True
  end.

Inductive value_ok : value -> Prop :=
| value_ok_intro v : local_ok v -> (forall p, p ∈ parts v -> value_ok p) -> value_ok v.

Lemma value_ok_inv v : value_ok v -> local_ok v /\ forall p, p ∈ parts v -> value_ok p.
Proof. by intros [? ? ?]. Qed.

Lemma depth_parts v p : p ∈ parts v -> (depth p < depth v)%nat.
Proof.
  assert (Hall : forall l q, q ∈ l -> (depth q <= (fix all (l : list value) : nat :=
    match l with [] => O | v :: l => Nat.max (depth v) (all l) end) l)%nat).
  { induction l as [|x l IH]; intros q Hq; [by apply elem_of_nil in Hq|].
    apply elem_of_cons in Hq as [->|Hq]; [lia|]. specialize (IH q Hq). lia. }
  destruct v; cbn [parts depth]; intros Hp; try (by apply elem_of_nil in Hp);
    try (specialize (Hall _ _ Hp); lia); repeat case_match; try (by apply elem_of_nil in Hp);
    repeat (apply elem_of_cons in Hp as [->|Hp]); try (by apply elem_of_nil in Hp); lia.
Qed.

Lemma depth_pos v : (4 <= depth v)%nat.
Proof.
  induction v; cbn [depth]; repeat case_match; lia.
Qed.

(** ** What hashing a value does to the state *)

Section meaning.
Context `{PlatformLaws}.

Definition mix_size (st : Z) (n : nat) : Z := mix_bytes st (int_bytes size_bits (Z.of_nat n)).

Fixpoint meaning (v : value) (st : Z) : Z :=
  let all := fun l st => foldl (fun st v => meaning v st) st l in
  let sized := fun l st => mix_size (all l st) (length l) in
  let unordered := fun l st =>
    let sum := foldl (fun sum v => add_unordered sum (meaning v Seed)) 0 l in
    mix_size (mix_bytes st (int_bytes 64 sum)) (length l) in
  match v with
  | VInt w z | VEnum w z => mix_bytes st (int_bytes w z)
  | VBool b => mix_bytes st (int_bytes 8 (if b then 1 else 0))
  | VDouble bits => mix_bytes st (le_bytes 8 (if bits mod 2 ^ 63 =? 0 then 0 else bits))
  | VPtr a | VUniquePtr a | VSharedPtr a =>
      mix_bytes (mix_bytes st (int_bytes size_bits a)) (int_bytes size_bits a)
  | VNullptr => mix_bytes (mix_bytes st (int_bytes size_bits 0)) (int_bytes size_bits 0)
  | VPair a b => meaning b (meaning a st)
  | VTuple l | VArray l => all l st
  | VString str => mix_size (mix_bytes st str) (length str)
  | VArrayInt w l => mix_bytes st (l ≫= int_bytes w)
  | VWString w l | VVectorInt w l => mix_size (mix_bytes st (l ≫= int_bytes w)) (length l)
  | VVector l | VDeque l | VForwardList l | VList l | VMap l | VMultimap l | VSet l | VMultiset l => sized l st
  | VUnorderedSet l | VUnorderedMultiset l | VUnorderedMap l | VUnorderedMultimap l => unordered l st
  | VReferenceWrapper v => meaning v st
  | VOptional o =>
      let st := match o with Some v => meaning v st | None => st end in
      mix_bytes st (int_bytes 8 (if bool_decide (is_Some o) then 1 else 0))
  | VVariant i o =>
      let st := match o with Some v => meaning v st | None => st end in
      mix_bytes st (int_bytes size_bits i)
  end.

Lemma size_bits_width : int_width size_bits.
Proof using All. unfold size_bits, int_width. destruct size_t_4_or_8 as [->| ->]; lia. Qed.

Lemma int_bytes_ok w z : Forall byte_ok (int_bytes w z).
Proof using Type. apply le_bytes_ok. Qed.

Lemma int_bytes_length w z : int_width w -> Z.of_nat (length (int_bytes w z)) = w / 8.
Proof using Type. intros Hw. unfold int_bytes. rewrite le_bytes_length. by destruct Hw as [->|[->|[->| ->]]]. Qed.

Lemma hash_bytes_ok st l : word 64 st -> Forall byte_ok l -> Z.of_nat (length l) < 2 ^ 64 ->
  hash_bytes st l = Ok (mix_bytes st l) /\ word 64 (mix_bytes st l).
Proof using All. intros. unfold hash_bytes. apply combine_contiguous_ok; try done. apply holds_self. Qed.

Lemma hash_bytes_int st w z : int_width w -> word 64 st ->
  hash_bytes st (int_bytes w z) = Ok (mix_bytes st (int_bytes w z)) /\ word 64 (mix_bytes st (int_bytes w z)).
Proof using All.
  intros Hw Hst. apply hash_bytes_ok; [done|apply int_bytes_ok|]. rewrite int_bytes_length by done.
  destruct Hw as [->|[->|[->| ->]]]; done.
Qed.

Lemma hash_range_bytes_ok w st l : int_width w -> word 64 st -> w / 8 * Z.of_nat (length l) < 2 ^ 63 ->
  hash_range_bytes w st l = Ok (mix_bytes st (l ≫= int_bytes w)) /\ word 64 (mix_bytes st (l ≫= int_bytes w)).
Proof using All.
  intros Hw Hst Hlen. unfold hash_range_bytes.
  assert (Hl : w / 8 * Z.of_nat (length l) = Z.of_nat (length (l ≫= int_bytes w))).
  { clear Hlen. induction l as [|z l IH]; [cbn; lia|].
    rewrite bind_cons, length_app, Nat2Z.inj_add, int_bytes_length, <- IH by done. cbn [length]. lia. }
  rewrite Hl. apply combine_contiguous_ok; [done|apply holds_self| |lia].
  clear. induction l as [|z l IH]; [done|]. rewrite bind_cons. apply Forall_app. split; [apply int_bytes_ok|exact IH].
Qed.

Lemma word_Seed : word 64 Seed.
Proof using All. apply word_kSeed. Qed.

(** [combine] at enough depth computes [meaning]. *)
Definition combines (rec : Z -> value -> result Z) (v : value) : Prop :=
  forall st, word 64 st -> rec st v = Ok (meaning v st) /\ word 64 (meaning v st).

Section overloads_ok.
Context (rec : Z -> value -> result Z).
Context (Hint : forall w z, int_width w -> combines rec (VInt w z)).

Lemma rec_size st (n : nat) : word 64 st ->
  rec st (VInt size_bits (Z.of_nat n)) = Ok (mix_size st n) /\ word 64 (mix_size st n).
Proof using All. intros Hst. apply (Hint size_bits (Z.of_nat n) size_bits_width st Hst). Qed.

Lemma combine_all_ok l st : (forall v, v ∈ l -> combines rec v) -> word 64 st ->
  combine_all rec st l = Ok (foldl (fun st v => meaning v st) st l) /\
  word 64 (foldl (fun st v => meaning v st) st l).
Proof using Type.
  revert st. induction l as [|v l IH]; intros st Hl Hst; [done|]. cbn [combine_all foldl].
  destruct (Hl v ltac:(by left) st Hst) as [-> Hw]. cbn [rbind]. apply IH; [|done]. intros w ?. apply Hl. by right.
Qed.

Lemma sized_ok l st : (forall v, v ∈ l -> combines rec v) -> word 64 st ->
  (let* st := combine_all rec st l in rec st (size_of l)) =
    Ok (mix_size (foldl (fun st v => meaning v st) st l) (length l)) /\
  word 64 (mix_size (foldl (fun st v => meaning v st) st l) (length l)).
Proof using All.
  intros Hl Hst. destruct (combine_all_ok l st Hl Hst) as [-> Hw]. cbn [rbind]. by apply rec_size.
Qed.

Lemma forward_list_ok l st : (forall v, v ∈ l -> combines rec v) -> word 64 st ->
  AbslHashValue_forward_list rec st l =
    Ok (mix_size (foldl (fun st v => meaning v st) st l) (length l)) /\
  word 64 (mix_size (foldl (fun st v => meaning v st) st l) (length l)).
Proof using All.
  intros Hl Hst. unfold AbslHashValue_forward_list. destruct (combine_all_ok l st Hl Hst) as [Hc Hw].
  assert (Hloop : forall n st st', combine_all rec st l = Ok st' ->
    forward_list_loop rec st (to_size_t n) l = Ok (st', to_size_t (n + Z.of_nat (length l)))).
  { clear. induction l as [|v l IH]; intros n st st' Hc; cbn [forward_list_loop combine_all] in *.
    - injection Hc as <-. do 2 f_equal. cbn. by rewrite Z.add_0_r.
    - destruct (rec st v) as [st1|]; [|done]. cbn [rbind] in *.
      replace (to_size_t (to_size_t n + 1)) with (to_size_t (n + 1))
        by (unfold to_size_t; by rewrite Zplus_mod_idemp_l). rewrite (IH (n + 1) st1 st' Hc). do 3 f_equal.
      cbn [length]. lia. }
  specialize (Hloop 0 st _ Hc). change (to_size_t 0) with (0 mod 2 ^ size_bits) in Hloop.
  rewrite Zmod_0_l in Hloop. rewrite Hloop. cbn [rbind].
  destruct (Hint size_bits (to_size_t (Z.of_nat (length l))) size_bits_width _ Hw) as [Hr Hr'].
  assert (Hsame : forall z, int_bytes size_bits (to_size_t z) = int_bytes size_bits z).
  { intros z. unfold int_bytes, unsigned, to_size_t. by rewrite Zmod_mod. }
  cbn [meaning] in Hr, Hr'. rewrite Hsame in Hr, Hr'. rewrite Z.add_0_l. by split.
Qed.

Lemma unordered_ok l st : (forall v, v ∈ l -> combines rec v) -> word 64 st ->
  (let* st := combine_unordered rec st l in rec st (size_of l)) =
    Ok (mix_size (mix_bytes st (int_bytes 64
      (foldl (fun sum v => add_unordered sum (meaning v Seed)) 0 l))) (length l)) /\
  word 64 (mix_size (mix_bytes st (int_bytes 64
      (foldl (fun sum v => add_unordered sum (meaning v Seed)) 0 l))) (length l)).
Proof using All.
  intros Hl Hst. unfold combine_unordered, RunCombineUnordered, MixingHashState_ctor.
  assert (Hcb : forall sum, CombineUnorderedCallback rec Seed sum l =
    Ok (foldl (fun sum v => add_unordered sum (meaning v Seed)) sum l)).
  { clear Hst. induction l as [|v l IH]; intros sum; [done|]. cbn [CombineUnorderedCallback foldl].
    destruct (Hl v ltac:(by left) Seed word_Seed) as [-> _]. cbn [rbind]. apply IH. intros w ?. apply Hl. by right. }
  rewrite Hcb. cbn [rbind].
  destruct (Hint 64 (foldl (fun sum v => add_unordered sum (meaning v Seed)) 0 l) ltac:(right; right; by right) st Hst)
    as [-> Hw]. cbn [rbind]. apply rec_size, Hw.
Qed.
End overloads_ok.

Lemma combine_meaning d v : (depth v <= d)%nat -> value_ok v -> combines (combine d) v.
Proof using All.
  revert v. induction d as [|d IH]; intros v Hd Hok; [pose proof (depth_pos v); lia|].
  apply value_ok_inv in Hok as [Hloc Hparts].
  assert (Hrec : forall p, p ∈ parts v -> combines (combine d) p).
  { intros p Hp. apply IH; [pose proof (depth_parts v p Hp); lia|by apply Hparts]. }
  assert (Hi : forall k, (0 < k)%nat -> forall w z, int_width w -> combines (combine k) (VInt w z)).
  { intros k Hk w z Hw st Hst. destruct k; [lia|]. by apply hash_bytes_int. }
  pose proof (depth_pos v) as Hpos. pose proof (Hi d ltac:(lia)) as Hint.
  assert (Hptr : forall k a st, (1 < k)%nat -> word 64 st ->
    combine k st (VPtr a) = Ok (meaning (VPtr a) st) /\ word 64 (meaning (VPtr a) st)).
  { intros k a st Hk Hst. destruct k; [lia|]. apply (combine_all_ok (combine k) [VInt size_bits a; VInt size_bits a] st); [|done].
    intros p Hp. repeat (apply elem_of_cons in Hp as [->|Hp]); [..|by apply elem_of_nil in Hp];
      apply Hi; try apply size_bits_width; lia. }
  assert (Hbool : forall k (b : bool) st, (1 < k)%nat -> word 64 st ->
    combine k st (VBool b) = Ok (meaning (VBool b) st) /\ word 64 (meaning (VBool b) st)).
  { intros k b st Hk Hst. destruct k; [lia|]. apply Hi; [lia|by left|done]. }
  intros st Hst. destruct v; cbn [combine parts local_ok] in *.
  all: try (apply hash_bytes_int; done).
  all: try (by apply sized_ok); try (by apply unordered_ok); try (by apply combine_all_ok).
  all: try (by apply (Hptr d); [lia|]).
  - by apply (Hbool (S d)); [lia|].
  - by apply Hint.
  - apply hash_bytes_ok; [done|apply le_bytes_ok|by rewrite le_bytes_length].
  - by apply (Hptr (S d)); [lia|].
  - destruct Hloc as [Hb Hlen]. unfold AbslHashValue_string.
    destruct (hash_bytes_ok st str Hst Hb ltac:(lia)) as [Hs Hw]. unfold hash_bytes in Hs. rewrite Hs. cbn [rbind].
    by apply rec_size.
  - destruct Hloc as [Hw Hlen]. unfold AbslHashValue_wstring.
    destruct (hash_range_bytes_ok w st str Hw Hst Hlen) as [-> Hw']. cbn [rbind]. by apply rec_size.
  - destruct Hloc as [Hw Hlen]. by apply hash_range_bytes_ok.
  - destruct Hloc as [Hw Hlen]. unfold AbslHashValue_vector_int.
    destruct (hash_range_bytes_ok w st vector Hw Hst Hlen) as [-> Hw']. cbn [rbind]. by apply rec_size.
  - by apply forward_list_ok.
  - apply (Hrec v ltac:(by left) st Hst).
  - unfold AbslHashValue_optional. cbn [meaning]. match goal with |- context [match ?o with _ => _ end] => destruct o as [v'|] end.
    + destruct (Hrec v' ltac:(by left) st Hst) as [-> Hw]. cbn [rbind]. by apply (Hbool d); [lia|].
    + cbn [rbind]. by apply (Hbool d); [lia|].
  - unfold AbslHashValue_variant. cbn [meaning]. match goal with |- context [match ?o with _ => _ end] => destruct o as [v'|] end.
    + destruct (Hrec v' ltac:(by left) st Hst) as [-> Hw]. cbn [rbind]. by apply Hint; [apply size_bits_width|].
    + cbn [rbind]. by apply Hint; [apply size_bits_width|].
Qed.
End meaning.

(** ** Equal values *)

(** The constructors that hold a list of values, and those of them whose
    order of iteration is no part of the value. *)
Definition unordered_containers : list (list value -> value) :=
  [VUnorderedSet; VUnorderedMultiset; VUnorderedMap; VUnorderedMultimap].
Definition list_containers : list (list value -> value) :=
  [VTuple; VArray; VVector; VDeque; VForwardList; VList; VMap; VMultimap; VSet; VMultiset] ++
  unordered_containers.

(** Values that compare equal: zeros of either sign, unordered containers
    whatever the order of iteration, and composite values part by part. *)
Inductive value_eq : value -> value -> Prop :=
| eq_same v : value_eq v v
| eq_trans u v w : value_eq u v -> value_eq v w -> value_eq u w
| eq_zero b b' : b mod 2 ^ 63 = 0 -> b' mod 2 ^ 63 = 0 -> value_eq (VDouble b) (VDouble b')
| eq_pair a a' b b' : value_eq a a' -> value_eq b b' -> value_eq (VPair a b) (VPair a' b')
| eq_element c l1 x x' l2 : c ∈ list_containers -> value_eq x x' ->
    value_eq (c (l1 ++ x :: l2)) (c (l1 ++ x' :: l2))
| eq_order c l l' : c ∈ unordered_containers -> l ≡ₚ l' -> value_eq (c l) (c l')
| eq_reference v v' : value_eq v v' -> value_eq (VReferenceWrapper v) (VReferenceWrapper v')
| eq_optional v v' : value_eq v v' -> value_eq (VOptional (Some v)) (VOptional (Some v'))
| eq_variant i v v' : value_eq v v' -> value_eq (VVariant i (Some v)) (VVariant i (Some v')).

(** The sum with the carry added back is an order-independent sum. *)
Lemma add_unordered_eq a b : word 64 a -> word 64 b ->
  add_unordered a b = (if a + b <? 2 ^ 64 then a + b else a + b - 2 ^ 64 + 1).
Proof.
  intros [Ha0 Ha1] [Hb0 Hb1]. unfold add_unordered, u64. destruct (a + b <? 2 ^ 64) eqn:E; bools.
  - rewrite Z.mod_small by lia. by rewrite (proj2 (Z.ltb_ge _ _)) by lia.
  - assert (Hm : (a + b) mod 2 ^ 64 = a + b - 2 ^ 64).
    { rewrite <- (Z_mod_plus_full _ (-1)), Z.mod_small; lia. }
    rewrite Hm, (proj2 (Z.ltb_lt _ _)) by lia. rewrite Z.mod_small; lia.
Qed.

Lemma word_add_unordered a b : word 64 a -> word 64 b -> word 64 (add_unordered a b).
Proof. intros Ha Hb. rewrite add_unordered_eq by done. unfold word in *. destruct (_ <? _) eqn:E; bools; lia. Qed.

Lemma add_unordered_swap s a b : word 64 s -> word 64 a -> word 64 b ->
  add_unordered (add_unordered s a) b = add_unordered (add_unordered s b) a.
Proof.
  intros Hs Ha Hb. rewrite (add_unordered_eq (add_unordered s a)), (add_unordered_eq (add_unordered s b))
    by (try apply word_add_unordered; done).
  rewrite !add_unordered_eq by done. unfold word in *.
  destruct (s + a <? 2 ^ 64) eqn:E1, (s + b <? 2 ^ 64) eqn:E2; bools; repeat case_match; bools; lia.
Qed.

Section equal.
Context `{PlatformLaws}.

Lemma meaning_word v st : value_ok v -> word 64 st -> word 64 (meaning v st).
Proof using All. intros Hv Hst. by apply (combine_meaning (depth v) v). Qed.

Lemma sum_permutation l l' : l ≡ₚ l' -> (forall v, v ∈ l -> value_ok v) -> forall sum, word 64 sum ->
  foldl (fun sum v => add_unordered sum (meaning v Seed)) sum l =
    foldl (fun sum v => add_unordered sum (meaning v Seed)) sum l'.
Proof using All.
  assert (Hw : forall v, value_ok v -> word 64 (meaning v Seed)) by (intros; apply meaning_word; [done|apply word_Seed]).
  intros Hp. induction Hp as [|v l l' Hp IH|a b l|l1 l2 l3 Hp1 IH1 Hp2 IH2]; intros Hok sum Hsum; [done|..].
  - cbn [foldl]. apply IH; [intros u ?; apply Hok; by right|]. apply word_add_unordered, Hw; [done|]. apply Hok. by left.
  - cbn [foldl]. rewrite add_unordered_swap; [done|done|..]; apply Hw, Hok; [by left|by right; left].
  - rewrite IH1 by done. apply IH2; [|done]. intros v Hv. apply Hok. by rewrite Hp1.
Qed.

Lemma container_parts c l : c ∈ list_containers -> parts (c l) = l /\ (local_ok (c l) <-> True).
Proof using Type.
  unfold list_containers, unordered_containers. cbn [app]. intros Hc.
  repeat (apply elem_of_cons in Hc as [->|Hc]; [done|]). by apply elem_of_nil in Hc.
Qed.

(** A container's meaning is a function of what its elements do. *)
Lemma container_element c l1 x x' l2 st : c ∈ list_containers ->
  (forall st, word 64 st -> meaning x st = meaning x' st) ->
  (forall v, v ∈ l1 -> value_ok v) -> word 64 st ->
  meaning (c (l1 ++ x :: l2)) st = meaning (c (l1 ++ x' :: l2)) st.
Proof using All.
  intros Hc Hx Hl1 Hst.
  assert (Hall : foldl (fun st v => meaning v st) st (l1 ++ x :: l2) =
    foldl (fun st v => meaning v st) st (l1 ++ x' :: l2)).
  { revert st Hst. induction l1 as [|v l1 IH]; intros st Hst; cbn [app foldl]; [by rewrite Hx|].
    apply IH; [intros u ?; apply Hl1; by right|]. apply meaning_word; [apply Hl1; by left|done]. }
  assert (Hsum : foldl (fun sum v => add_unordered sum (meaning v Seed)) 0 (l1 ++ x :: l2) =
    foldl (fun sum v => add_unordered sum (meaning v Seed)) 0 (l1 ++ x' :: l2)).
  { rewrite !foldl_app. cbn [foldl]. by rewrite Hx by apply word_Seed. }
  assert (Hlen : length (l1 ++ x :: l2) = length (l1 ++ x' :: l2)) by (rewrite !length_app; done).
  unfold list_containers, unordered_containers in Hc. cbn [app] in Hc.
  repeat (apply elem_of_cons in Hc as [->|Hc]; [cbn [meaning]; by rewrite ?Hall, ?Hsum, ?Hlen|]).
  by apply elem_of_nil in Hc.
Qed.

Lemma container_order c l l' st : c ∈ unordered_containers -> l ≡ₚ l' -> (forall v, v ∈ l -> value_ok v) ->
  meaning (c l) st = meaning (c l') st.
Proof using All.
  intros Hc Hp Hok. pose proof (sum_permutation l l' Hp Hok 0 ltac:(done)) as Hsum.
  pose proof (Permutation_length Hp) as Hlen. unfold unordered_containers in Hc.
  repeat (apply elem_of_cons in Hc as [->|Hc]; [cbn [meaning]; by rewrite Hsum, Hlen|]).
  by apply elem_of_nil in Hc.
Qed.

Lemma value_eq_meaning v v' : value_eq v v' -> value_ok v ->
  value_ok v' /\ forall st, word 64 st -> meaning v st = meaning v' st.
Proof using All.
  intros Heq. induction Heq as [v|u v w _ IH1 _ IH2|b b' Hb Hb'|a a' b b' _ IHa _ IHb
    |c l1 x x' l2 Hc _ IHx|c l l' Hc Hp|v v' _ IH|v v' _ IH|i v v' _ IH]; intros Hok.
  - done.
  - destruct (IH1 Hok) as [Hv H1]. destruct (IH2 Hv) as [Hw H2]. split; [done|]. intros st Hst. by rewrite H1, H2.
  - split; [by constructor; [|intros ? ?%elem_of_nil]|]. intros st _. cbn [meaning]. by rewrite Hb, Hb'.
  - apply value_ok_inv in Hok as [_ Hp]. destruct IHa as [Ha Hea]; [apply Hp; by left|].
    destruct IHb as [Hb Heb]; [apply Hp; by right; left|]. split.
    + constructor; [done|]. intros p Hin. cbn [parts] in Hin.
      repeat (apply elem_of_cons in Hin as [->|Hin]; [done|]). by apply elem_of_nil in Hin.
    + intros st Hst. cbn [meaning]. rewrite Hea by done. apply Heb, meaning_word; done.
  - apply value_ok_inv in Hok as [_ Hp]. destruct (container_parts c (l1 ++ x :: l2) Hc) as [Hpx _].
    destruct (container_parts c (l1 ++ x' :: l2) Hc) as [Hpx' Hl]. rewrite Hpx in Hp.
    destruct IHx as [Hx Hex]; [apply Hp, elem_of_app; right; by left|]. split.
    + constructor; [by apply Hl|]. rewrite Hpx'. intros p [?|[->|?]%elem_of_cons]%elem_of_app; [|done|];
        apply Hp, elem_of_app; [by left|right; by right].
    + intros st Hst. refine (container_element c l1 x x' l2 st Hc Hex _ Hst).
      intros u Hu. apply Hp, elem_of_app. by left.
  - apply value_ok_inv in Hok as [_ Hpar].
    assert (Hc' : c ∈ list_containers) by (unfold list_containers; apply elem_of_app; by right).
    destruct (container_parts c l Hc') as [Hpl _]. destruct (container_parts c l' Hc') as [Hpl' Hl].
    rewrite Hpl in Hpar. split; [|by intros st _; apply container_order].
    constructor; [by apply Hl|]. rewrite Hpl'. intros p Hin. apply Hpar. by rewrite Hp.
  - apply value_ok_inv in Hok as [_ Hp]. destruct IH as [Hv He]; [apply Hp; by left|]. split; [|by apply He].
    constructor; [done|]. intros p Hin. apply elem_of_cons in Hin as [->|Hin]; [done|by apply elem_of_nil in Hin].
  - apply value_ok_inv in Hok as [_ Hp]. destruct IH as [Hv He]; [apply Hp; by left|]. split.
    + constructor; [done|]. intros p Hin. apply elem_of_cons in Hin as [->|Hin]; [done|by apply elem_of_nil in Hin].
    + intros st Hst. cbn [meaning]. rewrite He by done. f_equal.
  - apply value_ok_inv in Hok as [_ Hp]. destruct IH as [Hv He]; [apply Hp; by left|]. split.
    + constructor; [done|]. intros p Hin. apply elem_of_cons in Hin as [->|Hin]; [done|by apply elem_of_nil in Hin].
    + intros st Hst. cbn [meaning]. by rewrite He by done.
Qed.

(** The fast path of integers. *)
Lemma mix_int st w z : int_width w -> mix_bytes st (int_bytes w z) = Mix st (unsigned w z).
Proof using All.
  intros Hw. set (l := int_bytes w z). assert (Hb : Forall byte_ok l) by apply int_bytes_ok.
  assert (Hlen : Z.of_nat (length l) = w / 8) by by apply int_bytes_length.
  assert (Hval : le_value l = unsigned w z).
  { unfold l, int_bytes. rewrite le_value_bytes. rewrite Z2Nat.id by (destruct Hw as [->|[->|[->| ->]]]; done).
    rewrite pow256 by (destruct Hw as [->|[->|[->| ->]]]; done).
    replace (8 * (w / 8)) with w by (destruct Hw as [->|[->|[->| ->]]]; done).
    unfold unsigned. apply Zmod_mod. }
  rewrite <- Hval. clear Hval. clearbody l. unfold mix_bytes, combine_contiguous, CombineContiguousImpl.
  assert (Hsmall4 : small4 l st 0 (Z.of_nat (length l)) = Ok (Mix st (le_value l)) /\
                    small8 l st 0 (Z.of_nat (length l)) = Ok (Mix st (le_value l))).
  { unfold small4, small8. assert (Hle : Z.of_nat (length l) <= 8) by (rewrite Hlen; destruct Hw as [->|[->|[->| ->]]]; done).
    rewrite (proj2 (Z.ltb_ge 8 _)), (proj2 (Z.ltb_ge 16 _)) by lia.
    destruct (4 <=? Z.of_nat (length l)) eqn:E4; bools.
    - rewrite Read4To8_value; [split; reflexivity|exact Hb|]. rewrite Hlen in *. destruct Hw as [->|[->|[->| ->]]]; lia.
    - assert (1 <= Z.of_nat (length l)) by (rewrite Hlen; destruct Hw as [->|[->|[->| ->]]]; done).
      rewrite (proj2 (Z.ltb_lt 0 _)) by lia. rewrite Read1To3_value; [split; reflexivity|exact Hb|lia]. }
  destruct Hsmall4 as [H4 H8].
  assert (Hl : 0 <= Z.of_nat (length l) <= 1024) by (rewrite Hlen; destruct Hw as [->|[->|[->| ->]]]; done).
  destruct (sizeof_size_t =? 4).
  - rewrite Impl4_by_chunks by lia. rewrite (by_chunks_small _ _ small4_chunk (fun _ _ _ => eq_refl) l st 0 _ Hl).
    by rewrite H4.
  - rewrite Impl8_by_chunks by lia. rewrite (by_chunks_small _ _ small8_chunk (fun _ _ _ => eq_refl) l st 0 _ Hl).
    by rewrite H8.
Qed.

Lemma hash_meaning v : value_ok v -> hash v = Ok (to_size_t (meaning v Seed)).
Proof using All.
  intros Hok. assert (Hc : (let* state := combine (depth v) MixingHashState_ctor v in Ok (to_size_t state)) =
    Ok (to_size_t (meaning v Seed))).
  { unfold MixingHashState_ctor. by destruct (combine_meaning (depth v) v ltac:(done) Hok Seed word_Seed) as [-> _]. }
  destruct v; try exact Hc. unfold hash. cbn [meaning]. rewrite mix_int; [done|].
  by apply value_ok_inv in Hok as [? _].
Qed.

(** C14: hashing a value never fails and gives a [size_t], and values that
    compare equal have equal hashes: positive and negative zero, unordered
    containers in any order of iteration (the sum with the carry added back
    does not depend on the order), and composites of equal parts, through any
    nesting of the containers. *)
Theorem hash_respects_equality v v' : value_ok v -> value_eq v v' ->
  exists h, hash v = Ok h /\ hash v' = Ok h /\ 0 <= h < 2 ^ size_bits.
Proof using All.
  intros Hok Heq. destruct (value_eq_meaning v v' Heq Hok) as [Hok' Hm].
  exists (to_size_t (meaning v Seed)). rewrite (hash_meaning v), (hash_meaning v') by done.
  rewrite <- Hm by apply word_Seed. split; [done|]. split; [done|]. apply Z.mod_pos_bound.
  apply Z.pow_pos_nonneg; [lia|]. unfold size_bits. destruct size_t_4_or_8 as [->| ->]; done.
Qed.

(** the fast path of [MixingHashState::hash] for integers gives what the
    whole algorithm gives, as its comment promises, for every integer of 8, 16,
    32 and 64 bits, signed or not, on 32-bit and 64-bit platforms. *)
Theorem hash_fast_path w z : int_width w ->
  hash (VInt w z) = let* state := combine 1 MixingHashState_ctor (VInt w z) in Ok (to_size_t state).
Proof using All.
  intros Hw. unfold MixingHashState_ctor.
  assert (Hok : value_ok (VInt w z)) by (by constructor; [|intros ? ?%elem_of_nil]).
  rewrite hash_meaning by done. cbn [combine].
  by destruct (hash_bytes_int Seed w z Hw word_Seed) as [-> _].
Qed.
End equal.

Theorem hash_respects_equality_witness : exists h,
  @hash Sample.platform (VUnorderedSet [VDouble 0; VInt 32 5]) = Ok h /\
  @hash Sample.platform (VUnorderedSet [VInt 32 5; VDouble (2 ^ 63)]) = Ok h.
Proof.
  assert (Hok : value_ok (VUnorderedSet [VDouble 0; VInt 32 5])).
  { constructor; [exact I|]. intros p Hp. apply elem_of_cons in Hp as [->|Hp];
      [constructor; [exact I|]; intros q Hq; apply elem_of_nil in Hq; destruct Hq|].
    apply elem_of_cons in Hp as [->|Hp]; [|apply elem_of_nil in Hp; destruct Hp].
    constructor; [right; right; left; reflexivity|]. intros q Hq. apply elem_of_nil in Hq. destruct Hq. }
  assert (Hset : VUnorderedSet ∈ unordered_containers) by (left).
  assert (Heq : value_eq (VUnorderedSet [VDouble 0; VInt 32 5]) (VUnorderedSet [VInt 32 5; VDouble (2 ^ 63)])).
  { eapply eq_trans; [apply (eq_element VUnorderedSet [] (VDouble 0) (VDouble (2 ^ 63)) [VInt 32 5])|].
    - apply elem_of_app. right. exact Hset.
    - apply eq_zero; reflexivity.
    - apply eq_order; [exact Hset|]. apply Permutation_swap. }
  destruct (@hash_respects_equality Sample.platform Sample.laws _ _ Hok Heq) as (h & H1 & H2 & _).
  exists h. split; [exact H1|exact H2].
Defined.

Theorem hash_fast_path_witness :
  @hash Sample.platform (VInt 16 (-2)) =
  rbind (@combine Sample.platform 1 (@MixingHashState_ctor Sample.platform) (VInt 16 (-2)))
    (fun state => Ok (@to_size_t Sample.platform state)).
Proof. apply (@hash_fast_path Sample.platform Sample.laws). right. left. reflexivity. Defined.
