(* ===== verification/Int128Hash.v ===== *)
(** * Int128Hash: where hashing uses 128-bit integers
    (src/abseil-cpp/absl/hash/internal/hash.h, low_level_hash.cc and numeric/int128.h)

    LowLevelHash.v and Hash.v multiply on [Z]. Here are the same functions on
    [absl::uint128], as the source has them for a compiler without a 128-bit
    type, and the overloads of [AbslHashValue] for the two types. *)

From S2P Require Import Prelude.
From S2P Require Import Word.
From S2P Require Import LowLevelHash.
From S2P Require Import Hash.
From S2P Require Import HashValues.
From S2P Require Import Uint128.
From S2P Require Import Int128.

Section mixing.
Context `{Platform}.

(** [Mix] of low_level_hash.cc. *)
Definition LowLevelMix_uint128 (v0 v1 : Z) : result Z :=
  let p := of_unsigned v0 in
  let* p := op_mul p (of_unsigned v1) in
  Ok (Uint128.Uint128Low64 p ^^ Uint128.Uint128High64 p).

(** [m ^ (m >> bits)], and the cast to [uint64_t]. *)
Definition fold_uint128 (m : uint128) (bits : Z) : result Z :=
  let* s := op_shr m bits in Ok (to_ullong (op_xor m s)).

(** [Mix] of hash.h where [sizeof(size_t)] is 8. *)
Definition Mix_uint128 (state v : Z) : result Z :=
  let m := of_unsigned (state +64 v) in
  let* m := op_mul m (of_unsigned kMul) in
  fold_uint128 m 64.

(** The end of the branch for 9 to 16 bytes. *)
Definition finish_uint128 (state lo : Z) : result Z :=
  let m := of_unsigned state in
  let* m := op_mul m (of_unsigned lo) in
  fold_uint128 m 64.
End mixing.

(** [AbslHashValue(H, uint128)] and [AbslHashValue(H, int128)]. *)
Section hash_value.
Context (combine : Z -> value -> result Z).

Definition AbslHashValue_uint128 (h : Z) (v : uint128) : result Z :=
  let* h := combine h (VInt 64 (Uint128.Uint128High64 v)) in combine h (VInt 64 (Uint128.Uint128Low64 v)).
Definition AbslHashValue_int128 {T} `{Int128Rep T} (h : Z) (v : T) : result Z :=
  let* h := combine h (VInt 64 (Int128High64 v)) in combine h (VInt 64 (Int128Low64 v)).
End hash_value.
