(* ===== verification/Int128Spec.v ===== *)
(** * Int128Spec: theorems about 128-bit integers

    The operators of [uint128] are arithmetic modulo 2^128, whichever branch
    the compiler takes; both representations of [int128] evaluate expressions
    as the integers do; numbers are printed as the standard prints its own
    integers; the hash functions compute the same with and without a 128-bit
    type in the compiler. *)

From S2P Require Import Prelude.
From S2P Require Import Word.
From S2P Require Import Bits.
From S2P Require Import LowLevelHash.
From S2P Require Import Hash.
From S2P Require Import HashValues.
From S2P Require Import Uint128.
From S2P Require Import Int128.
From S2P Require Import Int128Inv.
From S2P Require Import Int128Hash.
From S2P Require Import Int128Format.

(** ** Unsigned arithmetic *)

Section unsigned.
Context `{Compiler}.

Lemma low_word v : uint128_ok v -> lo_ v = uval v mod 2 ^ 64.
Proof using. intros [Hl Hh]. unfold uval, word in *. mod_tac. Qed.

Lemma compare_all a b : uint128_ok a -> uint128_ok b ->
  op_eq a b = (uval a =? uval b) /\ op_ne a b = negb (uval a =? uval b) /\ op_lt a b = (uval a <? uval b) /\
  op_gt a b = (uval b <? uval a) /\ op_le a b = (uval a <=? uval b) /\ op_ge a b = (uval b <=? uval a).
Proof.
  intros Ha Hb. unfold op_ne, op_gt, op_le. rewrite op_ge_ok, op_eq_ok, !op_lt_ok by done.
  split_and!; try done. by rewrite Z.ltb_antisym, negb_involutive.
Qed.

Lemma shift_undefined a n : ~ 0 <= n < 128 -> op_shl a n = Err Undefined /\ op_shr a n = Err Undefined.
Proof.
  intros Hn. assert (Hs : forall w x k, ~ 0 <= k < w -> shl w x k = Err Undefined /\ shr w x k = Err Undefined).
  { intros w x k Hk. unfold shl, shr. destruct (0 <=? k) eqn:E1, (k <? w) eqn:E2; bools; try done. lia. }
  unfold op_shl, op_shr. destruct have_int128.
  - by destruct (Hs 128 (to_intrinsic a) n Hn) as [-> ->].
  - destruct (64 <=? n) eqn:E; bools.
    + destruct (Hs 64 (Uint128Low64 a) (n - 64)) as [-> _]; [lia|]. destruct (Hs 64 (Uint128High64 a) (n - 64)) as [_ ->]; [lia|]. done.
    + rewrite (proj2 (Z.eqb_neq n 0)) by lia. by destruct (Hs 64 (Uint128High64 a) n) as [-> ->]; [lia|].
Qed.

(** C35: the type of 128-bit words: every operator takes representable values to
    representable values and computes modulo 2^128 what its name says, in each
    of the builds (portable, with [_umul128], with [unsigned __int128]).
    Comparisons and conversions are those of the value; a shift by 128 or more
    or by a negative amount is undefined; division by shift and subtract gives
    quotient and remainder. A division by zero is undefined where the compiler
    has the type, and fails the assertion of [DivModImpl] elsewhere; where the
    assertions are off too it is undefined, except that zero by zero passes the
    test for equal operands and gives one, remainder zero. *)
Theorem uint128_arithmetic (a b : uint128) : uint128_ok a -> uint128_ok b ->
  (op_eq a b = (uval a =? uval b) /\ op_ne a b = negb (uval a =? uval b) /\ op_lt a b = (uval a <? uval b) /\
   op_gt a b = (uval b <? uval a) /\ op_le a b = (uval a <=? uval b) /\ op_ge a b = (uval b <=? uval a)) /\
  (denotes (op_neg a) (- uval a) /\ denotes (op_compl a) (Z.lnot (uval a)) /\ op_not a = (uval a =? 0)) /\
  (denotes (op_add a b) (uval a + uval b) /\ denotes (op_sub a b) (uval a - uval b) /\
   (exists p, op_mul a b = Ok p /\ denotes p (uval a * uval b)) /\
   denotes (op_incr a) (uval a + 1) /\ denotes (op_decr a) (uval a - 1) /\
   op_postincr a = (op_incr a, a) /\ op_postdecr a = (op_decr a, a)) /\
  (denotes (op_or a b) (Z.lor (uval a) (uval b)) /\ denotes (op_and a b) (Z.land (uval a) (uval b)) /\
   denotes (op_xor a b) (uval a ^^ uval b)) /\
  (forall n, if (0 <=? n) && (n <? 128)
     then (exists v, op_shl a n = Ok v /\ denotes v (uval a * 2 ^ n)) /\ (exists v, op_shr a n = Ok v /\ denotes v (uval a / 2 ^ n))
     else op_shl a n = Err Undefined /\ op_shr a n = Err Undefined) /\
  (if uval b =? 0 then
     if negb have_int128 && no_asserts && (uval a =? 0)
     then op_div a b = Ok (of_signed 1) /\ op_mod a b = Ok (of_signed 0)
     else let e := if negb have_int128 && negb no_asserts then AssertFailed else Undefined in
          op_div a b = Err e /\ op_mod a b = Err e
   else exists q r, op_div a b = Ok q /\ op_mod a b = Ok r /\ denotes q (uval a / uval b) /\ denotes r (uval a mod uval b)) /\
  (to_bool a = negb (uval a =? 0) /\ to_char a = signed 8 (uval a) /\ to_short a = signed 16 (uval a) /\
   to_int a = signed 32 (uval a) /\ to_long a = signed 64 (uval a) /\
   to_uchar a = uval a mod 2 ^ 8 /\ to_uint a = uval a mod 2 ^ 32 /\ to_ulong a = uval a mod 2 ^ 64).
Proof.
  intros Ha Hb. pose proof (denotes_self a Ha) as Da. pose proof (denotes_self b Hb) as Db.
  pose proof (of_signed_ok 1 ltac:(lia)) as D1.
  split; [by apply compare_all|]. split.
  { split; [by apply op_neg_ok|]. split; [|by apply op_not_ok]. unfold Z.lnot.
    replace (Z.pred (- uval a)) with (-1 - uval a) by lia. by apply op_compl_ok. }
  split. { split_and!; try done; [by apply op_add_ok|by apply op_sub_ok|by apply op_mul_ok|by apply op_add_ok|by apply op_sub_ok]. }
  split; [by split_and!; [apply op_or_ok|apply op_and_ok|apply op_xor_ok]|]. split.
  { intros n. destruct ((0 <=? n) && (n <? 128)) eqn:E; [apply andb_true_iff in E as [E1 E2]|apply andb_false_iff in E]; bools.
    - split; [by apply op_shl_ok|by apply op_shr_ok].
    - apply shift_undefined. intros Hn. destruct E as [E|E]; bools; lia. }
  split; [destruct (uval b =? 0) eqn:E; bools; [by apply op_div_mod_zero|by apply op_div_mod_ok]|].
  pose proof (low_word a Ha) as Hlow.
  assert (Hs : forall w, 0 < w <= 64 -> signed w (lo_ a) = signed w (uval a) /\ unsigned w (lo_ a) = uval a mod 2 ^ w).
  { intros w Hw. unfold uval. rewrite (Z.add_comm (_ * _)). rewrite (signed_narrow w 64) by done. split; [done|].
    symmetry. by apply (unsigned_narrow w 64). }
  split; [|split_and!; by apply Hs]. destruct Ha as [Hl Hh]. unfold to_bool, uval, word in *.
  apply eq_true_iff_eq. rewrite orb_true_iff, !negb_true_iff, !Z.eqb_neq. lia.
Qed.
End unsigned.

(** ** Expressions *)

Inductive binop := Add | Sub | Mul | Div | Mod | Or | And | Xor.

Inductive expr :=
| Lit (z : Z)
| Neg (e : expr)
| Compl (e : expr)
| Bin (op : binop) (e1 e2 : expr)
| Shl (e : expr) (n : Z)
| Shr (e : expr) (n : Z).

(** An expression in a representation. *)
Section eval.
Context {T : Type} `{Int128Type T}.

Definition eval_bin (op : binop) (a b : T) : result T :=
  match op with
  | Add => int128_add a b | Sub => int128_sub a b | Mul => int128_mul a b | Div => int128_div a b | Mod => int128_mod a b
  | Or => Ok (int128_or a b) | And => Ok (int128_and a b) | Xor => Ok (int128_xor a b)
  end.

Fixpoint eval (e : expr) : result T :=
  match e with
  | Lit z => Ok (int128_of_signed z)
  | Neg e => let* v := eval e in int128_neg v
  | Compl e => let* v := eval e in Ok (int128_compl v)
  | Bin op e1 e2 => let* a := eval e1 in let* b := eval e2 in eval_bin op a b
  | Shl e n => let* v := eval e in int128_shl v n
  | Shr e n => let* v := eval e in int128_shr v n
  end.
End eval.

(** Its value, where the standard gives it one on 128 bits. *)
Definition fits (z : Z) : option Z := if in_range 128 z then Some z else None.

Definition meaning_bin (op : binop) (x y : Z) : option Z :=
  match op with
  | Add => fits (x + y) | Sub => fits (x - y) | Mul => fits (x * y)
  | Div => if y =? 0 then None else fits (Z.quot x y)
  | Mod => if (y =? 0) || (x =? - 2 ^ 127) && (y =? -1) then None else Some (Z.rem x y)
  | Or => Some (Z.lor x y) | And => Some (Z.land x y) | Xor => Some (x ^^ y)
  end.

Fixpoint meaning (e : expr) : option Z :=
  match e with
  | Lit z => if in_range 64 z then Some z else None
  | Neg e => x ← meaning e; fits (- x)
  | Compl e => x ← meaning e; Some (Z.lnot x)
  | Bin op e1 e2 => x ← meaning e1; y ← meaning e2; meaning_bin op x y
  | Shl e n => x ← meaning e; if (0 <=? n) && (n <? 128) then Some (signed 128 (x * 2 ^ n)) else None
  | Shr e n => x ← meaning e; if (0 <=? n) && (n <? 128) then Some (x / 2 ^ n) else None
  end.

(** Every sum or difference of high words is one of [P], every amount of a
    shift one of [Q]. *)
Definition high_fits_bin (P : Z -> Prop) (op : binop) (x y : Z) : Prop :=
  match op with Add => P (x / 2 ^ 64 + y / 2 ^ 64) | Sub => P (x / 2 ^ 64 - y / 2 ^ 64) | _ => True end.

Fixpoint within (P Q : Z -> Prop) (e : expr) : Prop :=
  match e with
  | Lit _ => True
  | Neg e | Compl e => within P Q e
  | Shl e n | Shr e n => within P Q e /\ Q n
  | Bin op e1 e2 => within P Q e1 /\ within P Q e2 /\
      match meaning e1, meaning e2 with Some x, Some y => high_fits_bin P op x y | _, _ => True end
  end.

(** What the representation on two words adds up without leaving them, and
    shifts without failing its assertion. *)
Definition portable `{Compiler} (e : expr) : Prop :=
  within (fun z => - 2 ^ 63 <= z < 2 ^ 63) (fun n => n < 127 \/ no_asserts = true) e.

Lemma in_range_ok w z : in_range w z = true <-> sword w z.
Proof. unfold in_range, sword. rewrite andb_true_iff, Z.leb_le, Z.ltb_lt. done. Qed.

Lemma fits_ok z v : fits z = Some v -> v = z /\ sword 128 z.
Proof. unfold fits. destruct (in_range 128 z) eqn:E; [|done]. intros [= <-]. by rewrite <- in_range_ok. Qed.

Section laws.
Context `{HC : Compiler} {T : Type} {HR : Int128Rep T} {HT : Int128Type T} {HRg : Int128Range T} {HL : Int128Laws T}.

Lemma high_word (v : T) : int128_ok v -> Int128High64 v = ival v / 2 ^ 64.
Proof using HL.
  intros Hv. destruct (law_words v Hv) as [Hl _]. unfold ival, word in *.
  rewrite Z.div_add_l, Z.div_small by done. lia.
Qed.

Lemma eval_bin_ok op (a b : T) z : int128_ok a -> int128_ok b -> meaning_bin op (ival a) (ival b) = Some z ->
  high_fits_bin high_ok op (ival a) (ival b) -> yields int128_ok (eval_bin op a b) z.
Proof using HL.
  intros Ha Hb Hm Hh. destruct (law_bitwise a b Ha Hb) as (Hor & Hand & Hxor). pose proof (law_div a b Ha Hb) as Hdiv.
  destruct op; cbn [meaning_bin high_fits_bin eval_bin] in *.
  - apply fits_ok in Hm as [-> Hs]. rewrite <- !high_word in Hh by done. by apply law_add.
  - apply fits_ok in Hm as [-> Hs]. rewrite <- !high_word in Hh by done. by apply law_sub.
  - apply fits_ok in Hm as [-> Hs]. by apply law_mul.
  - destruct (ival b =? 0) eqn:E0; [done|]. apply fits_ok in Hm as [-> Hs]. cbn [orb] in Hdiv.
    destruct ((ival a =? - 2 ^ 127) && (ival b =? -1)) eqn:E; [|apply Hdiv].
    apply andb_true_iff in E as [E1 E2]. bools. rewrite E1, E2 in Hs. exfalso. destruct Hs as [_ Hs]. by vm_compute in Hs.
  - destruct (_ || _); [done|]. injection Hm as <-. apply Hdiv.
  - injection Hm as <-. by exists (int128_or a b).
  - injection Hm as <-. by exists (int128_and a b).
  - injection Hm as <-. by exists (int128_xor a b).
Qed.

Lemma eval_ok e : forall z, meaning e = Some z -> within high_ok amount_ok e -> yields int128_ok (eval (T := T) e) z.
Proof using HL.
  induction e as [x|e IH|e IH|op e1 IH1 e2 IH2|e IH n|e IH n]; intros z Hm Hh; cbn [meaning eval within] in *.
  - destruct (in_range 64 x) eqn:E; [|done]. injection Hm as <-. apply in_range_ok in E. exists (int128_of_signed x).
    split; [done|]. by apply law_of_signed.
  - apply bind_Some in Hm as (x & Hx & [-> Hs]%fits_ok). destruct (IH x Hx Hh) as (v & -> & Hv & <-). cbn [rbind].
    pose proof (law_neg v Hv) as Hn. destruct (ival v =? - 2 ^ 127) eqn:E; [|done]. bools. rewrite E in Hs. destruct Hs as [_ Hs]. by vm_compute in Hs.
  - apply bind_Some in Hm as (x & Hx & [= <-]). destruct (IH x Hx Hh) as (v & -> & Hv & <-). cbn [rbind].
    exists (int128_compl v). split; [done|]. by apply law_compl.
  - apply bind_Some in Hm as (x & Hx & Hm). apply bind_Some in Hm as (y & Hy & Hm). destruct Hh as (Hh1 & Hh2 & Hh). rewrite Hx, Hy in Hh.
    destruct (IH1 x Hx Hh1) as (a & -> & Ha & <-), (IH2 y Hy Hh2) as (b & -> & Hb & <-). cbn [rbind]. by apply eval_bin_ok.
  - apply bind_Some in Hm as (x & Hx & Hm). destruct (_ && _) eqn:E; [|done]. injection Hm as <-. apply andb_true_iff in E as [E1 E2]. bools.
    destruct Hh as [Hh Hn]. destruct (IH x Hx Hh) as (v & -> & Hv & <-). cbn [rbind]. by apply law_shift.
  - apply bind_Some in Hm as (x & Hx & Hm). destruct (_ && _) eqn:E; [|done]. injection Hm as <-. apply andb_true_iff in E as [E1 E2]. bools.
    destruct Hh as [Hh Hn]. destruct (IH x Hx Hh) as (v & -> & Hv & <-). cbn [rbind]. by apply law_shift.
Qed.
End laws.

Lemma within_true e : within (fun _ => True) (fun _ => True) e.
Proof.
  induction e; cbn [within]; try done. split_and!; try done. destruct (meaning e1), (meaning e2); try done. by destruct op.
Qed.

(** What is observed of a value [z]: its conversions; and against a value [z'],
    the comparisons, and the division where there is none. *)
Definition observed {T} `{Int128Type T} (a : T) (z : Z) : Prop :=
  ival a = z /\ int128_to_bool a = negb (z =? 0) /\ int128_not a = (z =? 0) /\
  (int128_to_char a = signed 8 z /\ int128_to_schar a = signed 8 z /\ int128_to_short a = signed 16 z /\ int128_to_int a = signed 32 z /\
   int128_to_wchar a = signed 32 z /\ int128_to_long a = signed 64 z /\ int128_to_llong a = signed 64 z) /\
  (int128_to_uchar a = unsigned 8 z /\ int128_to_char16 a = unsigned 16 z /\ int128_to_char32 a = unsigned 32 z /\
   int128_to_ushort a = unsigned 16 z /\ int128_to_uint a = unsigned 32 z /\ int128_to_ulong a = unsigned 64 z /\
   int128_to_ullong a = unsigned 64 z).

Definition compared {T} `{Compiler} `{Int128Type T} (a b : T) (z z' : Z) : Prop :=
  int128_eq a b = (z =? z') /\ int128_ne a b = negb (z =? z') /\ int128_lt a b = (z <? z') /\
  int128_gt a b = (z' <? z) /\ int128_le a b = (z <=? z') /\ int128_ge a b = (z' <=? z) /\
  (no_asserts = false -> (z' =? 0) || (z =? - 2 ^ 127) && (z' =? -1) = true ->
     (exists err, int128_div a b = Err err) /\ exists err, int128_mod a b = Err err).

(** An expression evaluates to its value, which compares as an integer with
    the values of the expressions of [P]. *)
Definition evaluates (T : Type) `{Compiler} `{Int128Type T} (P : expr -> Prop) (e : expr) (z : Z) : Prop :=
  exists a : T, eval e = Ok a /\ observed a z /\
    forall e' z', meaning e' = Some z' -> P e' -> exists b, eval e' = Ok b /\ compared a b z z'.

Lemma evaluates_ok (T : Type) `{HC : Compiler} {HR : Int128Rep T} {HT : Int128Type T} {HRg : Int128Range T} {HL : Int128Laws T} (P : expr -> Prop) e z :
  (forall e', P e' -> within high_ok amount_ok e') -> meaning e = Some z -> P e -> evaluates T P e z.
Proof.
  intros HP Hm He. destruct (eval_ok (T := T) e z Hm (HP e He)) as (a & Ha & Hok & <-). exists a. split; [done|]. split.
  - split; [done|]. split; [by apply law_to_bool|]. split; [by apply law_not|]. split; [by apply law_to_signed|by apply law_to_unsigned].
  - intros e' z' Hm' He'. destruct (eval_ok (T := T) e' z' Hm' (HP e' He')) as (b & Hb & Hokb & <-). exists b. split; [done|].
    destruct (law_compare a b Hok Hokb) as (? & ? & ? & ? & ? & ?). split_and!; try done. intros Hn Hbad.
    pose proof (law_div a b Hok Hokb) as Hd. rewrite Hbad in Hd. by apply Hd.
Qed.

(** C36: the two representations of [int128] refine the integers: an expression
    that has a value on 128 bits evaluates to that value on [__int128]; and on
    two words too, unless the high words of a sum or difference overflow by
    themselves or a shift by 127 meets the assertion, which lets it pass only
    where assertions are off. In both the conversions to the types of the
    language, the six comparisons with the value of another expression, and
    the failure of a division by zero, or of the least value by -1, in a build
    with assertions, are those of the integers. *)
Theorem int128_expressions `{Compiler} e z : meaning e = Some z ->
  evaluates have_intrinsic.int128 (fun _ => True) e z /\
  (portable e -> evaluates no_intrinsic.int128 portable e z) /\
  (no_asserts = false -> forall (a : no_intrinsic.int128) n, 127 <= n ->
     int128_shl a n = Err AssertFailed /\ int128_shr a n = Err AssertFailed).
Proof.
  intros Hm. split; [|split].
  - apply (evaluates_ok have_intrinsic.int128); [|done|done]. intros e' _. exact (within_true e').
  - intros He. apply (evaluates_ok no_intrinsic.int128); [|done|done]. intros e' He'. exact He'.
  - intros Hn a n Hbig. cbn [int128_shl int128_shr no_intrinsic.type]. unfold no_intrinsic.shift_left, no_intrinsic.shift_right.
    by rewrite portable.not_asserted by done.
Qed.

(** A sum that fits, whose high words do not: the portable [operator+] adds
    them first. *)
Lemma int128_add_corner `{Compiler} :
  let e := Bin Add (Bin Add (Shl (Lit (-1)) 126) (Bin Sub (Shl (Lit (-1)) 126) (Lit (-1)))) (Lit (-1)) in
  meaning e = Some (- 2 ^ 127) /\
  eval (T := have_intrinsic.int128) e = Ok (have_intrinsic.mkInt128 (- 2 ^ 127)) /\
  eval (T := no_intrinsic.int128) e = Err Undefined.
Proof. split_and!; vm_compute; reflexivity. Qed.

(** The assertion of the portable shifts leaves out 127, for which the code
    below it has a branch. *)
Lemma int128_shift_127 `{Compiler} : no_asserts = false ->
  eval (T := have_intrinsic.int128) (Lit 1) = Ok (have_intrinsic.mkInt128 1) /\
  int128_shl (have_intrinsic.mkInt128 1) 127 = Ok (have_intrinsic.mkInt128 (- 2 ^ 127)) /\
  int128_shl (no_intrinsic.mkInt128 1 0) 127 = Err AssertFailed.
Proof. destruct H as [h m n]. cbn [no_asserts]. intros ->. by split_and!. Qed.

(** ** Printing *)

(** Reading a decimal number. *)
Definition read_unsigned (s : list Z) : Z := of_digits 10 ((fun c => c - 48) <$> s).
Definition read_signed (s : list Z) : Z :=
  match s with c :: s' => if c =? 45 then - read_unsigned s' else read_unsigned s | [] => 0 end.

Lemma read_rep n : 0 <= n -> read_unsigned (unsigned_rep only_dec n) = n.
Proof.
  intros Hn. unfold read_unsigned, unsigned_rep. cbn [prefix only_dec showbase negb orb app uppercase base_ radix].
  rewrite <- list_fmap_compose. rewrite <- (digits_denote 10 ltac:(lia) n Hn) at 2. f_equal.
  pose proof (digits_range 10 ltac:(lia) n) as Hr. induction Hr as [|d l Hd Hr IH]; [done|].
  rewrite fmap_cons, IH. f_equal. cbn. unfold digit_char. rewrite (proj2 (Z.ltb_lt d 10)) by lia. lia.
Qed.

Section printing.
Context `{HC : Compiler} {T : Type} {HR : Int128Rep T} {HT : Int128Type T} {HRg : Int128Range T} {HL : Int128Laws T}.

(** printing is that of the standard: whatever the flags, the fill character
    and the width of the stream, [operator<<] inserts a 128-bit integer as the
    standard inserts an integer of 128 bits, although it converts it in pieces
    of 64; and [ToString], read as a decimal number, is the value. *)
Theorem int128_printing os (u : uint128) (v : T) : uint128_ok u -> int128_ok v -> 0 <= width os < 2 ^ 63 ->
  insert_uint128 os u = Ok (put_unsigned os (uval u)) /\
  insert_int128 os v = Ok (put_signed 128 os (ival v)) /\
  (exists s, ToString u = Ok s /\ read_unsigned s = uval u /\
     (uval u = 0 /\ s = [48] \/ exists c s', s = c :: s' /\ c <> 48)) /\
  (exists s, int128_ToString v = Ok s /\ read_signed s = ival v).
Proof using HL.
  intros Hu Hv Hw. split; [by apply insert_uint128_ok|]. split; [by apply insert_int128_ok|]. split.
  - unfold ToString. rewrite Uint128ToFormattedString_ok by done. pose proof (uval_range u Hu) as Hr. unfold word in Hr.
    eexists. split; [done|]. split; [apply read_rep; lia|]. destruct (decide (uval u = 0)) as [->|Hnz]; [by left|right].
    destruct (digits_head 10 ltac:(lia) (uval u)) as (d & l & Hd & Hnd); [lia|].
    pose proof (digits_range 10 ltac:(lia) (uval u)) as Hrange. rewrite Hd in Hrange. apply Forall_cons in Hrange as [Hd10 _].
    exists (digit_char false d), (digit_char false <$> l). split; [unfold unsigned_rep; cbn; by rewrite Hd|].
    unfold digit_char. rewrite (proj2 (Z.ltb_lt d 10)) by lia. lia.
  - rewrite int128_ToString_ok by done. eexists. split; [done|]. pose proof (read_rep (Z.abs (ival v)) ltac:(lia)) as Hread.
    destruct (ival v <? 0) eqn:E; bools; cbn [app read_signed].
    + rewrite Z.eqb_refl, Hread. lia.
    + pose proof (unsigned_rep_head only_dec (Z.abs (ival v)) ltac:(lia)) as Hh. unfold read_signed.
      destruct (unsigned_rep only_dec (Z.abs (ival v))) as [|c s] eqn:Es; [cbn in Hread; lia|].
      cbn [starts_with_sign] in Hh. apply orb_false_iff in Hh as [_ ->]. lia.
Qed.
End printing.

(** ** Hashing *)

Section hashing.
Context `{HPL : PlatformLaws}.

Lemma product_128 x y : word 64 x -> word 64 y -> exists p, op_mul (of_unsigned x) (of_unsigned y) = Ok p /\ denotes p (x * y) /\ uval p = x * y.
Proof using.
  intros Hx Hy. destruct (op_mul_ok _ _ x y (of_unsigned_ok x Hx) (of_unsigned_ok y Hy)) as (p & Hp & Hd).
  exists p. split; [done|]. split; [done|]. apply (denotes_val _ _ Hd). unfold word in *. nia.
Qed.

Lemma fold_ok p z : denotes p z -> fold_uint128 p 64 = Ok (u64 (u128 z ^^ (u128 z >> 64))).
Proof using.
  intros Hd. pose proof (denotes_ok _ _ Hd) as Hp. unfold fold_uint128. destruct (op_shr_ok p 64 Hp ltac:(lia)) as (s & -> & Hs). cbn [rbind].
  pose proof (op_xor_ok p s Hp (denotes_ok _ _ Hs)) as Hx. pose proof (uval_range p Hp) as Hr. pose proof (proj2 Hd) as Hv.
  assert (Hsv : uval s = u128 z >> 64).
  { rewrite Z.shiftr_div_pow2, <- Hv by done. apply (denotes_val _ _ Hs). unfold word in *. mod_tac. }
  rewrite Hsv, Hv in Hx. do 2 f_equal. unfold to_ullong. destruct Hx as [Hok Hx]. rewrite low_word, Hx by done.
  unfold unsigned, u64, u128. rewrite Z.mod_mod by done. apply Z.bits_inj'. intros n Hn.
  destruct (decide (n < 64)).
  - rewrite !Z.mod_pow2_bits_low by lia. done.
  - rewrite !Z.mod_pow2_bits_high by lia. done.
Qed.

Lemma kMul_word : word 64 kMul.
Proof using. unfold kMul. by destruct (_ =? 4). Qed.

(** hashing does not depend on the compiler's 128-bit type: the functions
    that multiply [absl::uint128] compute what Hash.v and LowLevelHash.v say,
    in every build, and a 128-bit integer is hashed by its words, so equal
    integers hash equally in both representations of [int128]. *)
Theorem int128_hashing x y : word 64 x -> word 64 y ->
  LowLevelMix_uint128 x y = Ok (LowLevelHash.LowLevelMix x y) /\
  finish_uint128 x y = Ok (u64 (u128 (x * y) ^^ (u128 (x * y) >> 64))) /\
  (sizeof_size_t = 8 -> Mix_uint128 x y = Ok (Mix x y)) /\
  (forall combine h (a : no_intrinsic.int128) (b : have_intrinsic.int128), int128_ok a -> int128_ok b -> ival a = ival b ->
     AbslHashValue_int128 combine h a = AbslHashValue_int128 combine h b).
Proof using.
  intros Hx Hy. destruct (product_128 x y Hx Hy) as (p & Hp & Hd & Hv). split_and!.
  - unfold LowLevelMix_uint128. rewrite Hp. cbn [rbind]. pose proof (denotes_ok _ _ Hd) as Hok. destruct Hok as [Hl Hh].
    unfold LowLevelHash.LowLevelMix, LowLevelHash.Uint128Low64, LowLevelHash.Uint128High64, Uint128Low64, Uint128High64.
    change (LowLevelHash.u128 (x * y)) with (u128 (x * y)). rewrite <- (proj2 Hd). do 2 f_equal.
    + by apply low_word.
    + rewrite Z.shiftr_div_pow2 by done. unfold uval, word in *. unfold u64. rewrite Z.div_add_l, (Z.div_small (lo_ p)), Z.add_0_r, Z.mod_small by done. done.
  - unfold finish_uint128. rewrite Hp. cbn [rbind]. by apply fold_ok.
  - intros H8. unfold Mix_uint128, Mix. rewrite H8. cbn [Z.eqb Pos.eqb].
    destruct (product_128 (x +64 y) kMul (word_u64 _) kMul_word) as (q & -> & Hq & _). cbn [rbind]. rewrite (fold_ok q _ Hq). done.
  - intros combine h a b Ha Hb Hab. unfold AbslHashValue_int128. pose proof (law_words a Ha) as [Hla _]. pose proof (law_words b Hb) as [Hlb _].
    assert (Hh : Int128High64 a = Int128High64 b) by (by rewrite (high_word a), (high_word b), Hab).
    assert (Hl : Int128Low64 a = Int128Low64 b) by (unfold ival in Hab; lia). by rewrite Hh, Hl.
Qed.
End hashing.

(** ** Witnesses *)

#[local] Instance portable_compiler : Compiler := {| have_int128 := false; have_umul128 := false; no_asserts := false |}.

Definition sample_a : uint128 := MakeUint128 3 5.
Definition sample_b : uint128 := MakeUint128 0 (2 ^ 64 - 1).

Lemma sample_ok : uint128_ok sample_a /\ uint128_ok sample_b.
Proof. by split; split. Qed.

Lemma uint128_arithmetic_witness : exists p q r, op_mul sample_a sample_b = Ok p /\ uval p = u128 ((3 * 2 ^ 64 + 5) * (2 ^ 64 - 1)) /\
  op_div sample_a sample_b = Ok q /\ op_mod sample_a sample_b = Ok r /\ uval q = 3 /\ uval r = 8.
Proof.
  destruct (uint128_arithmetic sample_a sample_b (proj1 sample_ok) (proj2 sample_ok))
    as (_ & _ & (_ & _ & (p & Hp & Hpv) & _) & _ & _ & (q & r & Hq & Hr & Hqv & Hrv) & _).
  exists p, q, r. split; [exact Hp|]. split; [exact (proj2 Hpv)|]. split; [exact Hq|]. split; [exact Hr|].
  split; [exact (proj2 Hqv)|exact (proj2 Hrv)].
Defined.

(** (-7) / 2 * 2 + (-7) % 2, shifted. *)
Definition sample_expr : expr :=
  Shl (Bin Add (Bin Mul (Bin Div (Lit (-7)) (Lit 2)) (Lit 2)) (Bin Mod (Lit (-7)) (Lit 2))) 100.

Lemma int128_expressions_witness :
  exists v, eval sample_expr = Ok v /\ ival (T := no_intrinsic.int128) v = -7 * 2 ^ 100.
Proof.
  destruct (int128_expressions sample_expr (-7 * 2 ^ 100) ltac:(vm_compute; reflexivity)) as (_ & Hp & _).
  destruct Hp as (v & Hv & (Hval & _) & _).
  - repeat split; try (vm_compute; intros Hc; discriminate Hc). left. lia.
  - exists v. split; [exact Hv|exact Hval].
Defined.

(** Hexadecimal with a prefix and internal padding. *)
Definition sample_stream : ostream :=
  {| flags := {| base_ := hex; adjust := internal; showbase := true; uppercase := true; showpos := false |};
     fill := 46; width := 24; text := [] |}.

Lemma int128_printing_witness : exists os s,
  insert_uint128 sample_stream (MakeUint128 0xab 0x12) = Ok os /\
  text os = [48; 88; 46; 46; 46; 46; 65; 66] ++ replicate 14 48 ++ [49; 50] /\
  int128_ToString (no_intrinsic.mkInt128 0 (- 2 ^ 63)) = Ok s /\ read_signed s = - 2 ^ 127.
Proof.
  destruct (int128_printing (T := no_intrinsic.int128) sample_stream (MakeUint128 0xab 0x12) (no_intrinsic.mkInt128 0 (- 2 ^ 63)))
    as (Hu & _ & _ & s & Hs & Hread).
  - split; split; vm_compute; congruence.
  - split; split; vm_compute; congruence.
  - split; vm_compute; congruence.
  - eexists _, s. split; [exact Hu|]. split; [vm_compute; reflexivity|]. split; [exact Hs|exact Hread].
Defined.

Definition portable_platform : Platform := {| sizeof_size_t := 8; compiler := portable_compiler; kSeed := 0 |}.

Lemma int128_hashing_witness : @LowLevelMix_uint128 portable_platform (2 ^ 64 - 1) (2 ^ 64 - 1) = Ok (2 ^ 64 - 1).
Proof.
  destruct (int128_hashing (H := portable_platform) (2 ^ 64 - 1) (2 ^ 64 - 1)) as [-> _]; [split; vm_compute; congruence..|].
  vm_compute. reflexivity.
Defined.
