(* ===== verification/BitMask.v ===== *)
(** * BitMask: sets of positions in a group (src/abseil-cpp/absl/container/internal/raw_hash_set.h)

    The masks that a group of control bytes answers with: an unsigned integer
    of [T] bits cut into [SignificantBits] abstract bits of [2 ^ Shift] bits
    each. [marks mask bs] says that [mask] stands for the booleans [bs]: the
    abstract bit of a position that is in the set has its highest real bit
    set (SSE2 and the portable code set only that one, NEON sets all eight),
    the others are zero. The operations are proved against [marks]; the range
    [for] over a mask is the list of the values its iterator yields. *)

From S2P Require Import Prelude.
From S2P Require Import Word.
From S2P Require Import Bits.

(** ** The operations *)

Definition TrailingZeros (T x : Z) : result Z :=
  if x =? 0 then Err Undefined else Ok (u32 (countr_zero T x)).

(** The template arguments of a mask. *)
Class MaskType := { mask_T : Z; SignificantBits : Z; Shift : Z }.

Section operations.
Context `{MaskType}.

(** [explicit operator bool]. *)
Definition mask_bool (mask : Z) : bool := negb (mask =? 0).

Definition LowestBitSet (mask : Z) : result Z :=
  let* n := TrailingZeros mask_T mask in Ok (n >> Shift).

Definition HighestBitSet (mask : Z) : result Z :=
  let* n := bit_width mask_T mask in Ok (u32 (cast mask_T (n - 1) >> Shift)).

Definition mask_TrailingZeros (mask : Z) : result Z :=
  let* n := TrailingZeros mask_T mask in Ok (n >> Shift).

Definition LeadingZeros (mask : Z) : result Z :=
  let total_significant_bits := Z.shiftl SignificantBits Shift in
  let extra_bits := mask_T - total_significant_bits in
  let* n := countl_zero mask_T (cast mask_T (Z.shiftl mask extra_bits)) in Ok (u32 n >> Shift).

(** [operator++] of the iterator, and the values of [begin()] to [end()]. *)
Definition mask_next (mask : Z) : Z :=
  let mask := if Shift =? 3 then Z.land mask 0x8080808080808080 else mask in
  Z.land mask (cast mask_T (mask - 1)).

Fixpoint mask_iterate (fuel : nat) (mask : Z) : result (list Z) :=
  match fuel with
  | O => Err OutOfFuel
  | S fuel =>
      if mask =? 0 then Ok []
      else let* i := LowestBitSet mask in
           let* rest := mask_iterate fuel (mask_next mask) in Ok (i :: rest)
  end.

Definition mask_indices (mask : Z) : result (list Z) := mask_iterate (S (Z.to_nat SignificantBits)) mask.
End operations.

(** ** What a mask stands for *)

Definition lanes_value (w : Z) (l : list Z) : Z := foldr (fun b v => b + 2 ^ w * v) 0 l.

Definition lane_for (w lane : Z) (b : bool) : Prop :=
  if b then 2 ^ (w - 1) <= lane < 2 ^ w else lane = 0.

Definition marks `{MaskType} (mask : Z) (bs : list bool) : Prop :=
  exists lanes, mask = lanes_value (2 ^ Shift) lanes /\ Forall2 (lane_for (2 ^ Shift)) lanes bs /\
    Z.of_nat (length bs) = SignificantBits.

(** The positions of a set, in increasing order, counted from [k]. *)
Fixpoint positions (k : Z) (bs : list bool) : list Z :=
  match bs with [] => [] | b :: bs => (if b then [k] else []) ++ positions (k + 1) bs end.

(** The two shapes of mask the program uses. *)
Definition mask_ok `{MaskType} : Prop :=
  (mask_T = 32 /\ SignificantBits = 16 /\ Shift = 0) \/ (mask_T = 64 /\ SignificantBits = 8 /\ Shift = 3).

(** ** Lanes *)

Lemma lanes_cons w b l : lanes_value w (b :: l) = b + 2 ^ w * lanes_value w l.
Proof. reflexivity. Qed.

Section lanes.
Context (w : Z) (Hw : 0 < w).

Lemma lane_pow : 0 < 2 ^ w.
Proof using Hw. apply Z.pow_pos_nonneg; lia. Qed.

Lemma lane_for_range lane b : lane_for w lane b -> 0 <= lane < 2 ^ w.
Proof using Hw.
  pose proof lane_pow. unfold lane_for. destruct b; [|lia].
  assert (0 <= 2 ^ (w - 1)) by (apply Z.pow_nonneg; lia). lia.
Qed.

Lemma lanes_range lanes bs : Forall2 (lane_for w) lanes bs ->
  0 <= lanes_value w lanes < 2 ^ (w * Z.of_nat (length bs)).
Proof using Hw.
  pose proof lane_pow. induction 1 as [|lane b lanes bs Hb Hr IH]; [cbn [length Z.of_nat]; rewrite Z.mul_0_r; cbn; lia|].
  apply lane_for_range in Hb. cbn [lanes_value foldr length] in *. fold (lanes_value w lanes) in *.
  rewrite Nat2Z.inj_succ. replace (w * Z.succ _) with (w + w * Z.of_nat (length bs)) by lia.
  rewrite Z.pow_add_r by lia. nia.
Qed.

Lemma lanes_app l1 l2 : lanes_value w (l1 ++ l2) = lanes_value w l1 + 2 ^ (w * Z.of_nat (length l1)) * lanes_value w l2.
Proof using Hw.
  induction l1 as [|b l1 IH]; [cbn [app length Z.of_nat]; rewrite Z.mul_0_r, Z.pow_0_r, Z.mul_1_l; reflexivity|].
  cbn [app lanes_value foldr length]. fold (lanes_value w). unfold lanes_value in *. rewrite IH.
  rewrite Nat2Z.inj_succ. replace (w * Z.succ _) with (w + w * Z.of_nat (length l1)) by lia.
  rewrite (Z.pow_add_r 2 w) by lia. ring.
Qed.

Lemma lanes_zero k lanes : Forall2 (lane_for w) lanes (replicate k false) -> lanes_value w lanes = 0 /\ length lanes = k.
Proof using Hw.
  intros Hf. pose proof (Forall2_length _ _ _ Hf) as Hl. rewrite length_replicate in Hl. split; [|done].
  clear Hl. revert lanes Hf. induction k as [|k IH]; intros lanes Hf; inversion Hf as [|lane b l l' Hb Hr]; subst; [done|].
  cbn [lanes_value foldr]. fold (lanes_value w l). rewrite IH by done. unfold lane_for in Hb. lia.
Qed.

(** The lanes of a set whose lowest position is [k]. *)
Lemma lanes_first k lanes bs : Forall2 (lane_for w) lanes (replicate k false ++ true :: bs) ->
  exists lane rest, lane_for w lane true /\ Forall2 (lane_for w) rest bs /\
    lanes = replicate k 0 ++ lane :: rest /\
    lanes_value w lanes = 2 ^ (w * Z.of_nat k) * (lane + 2 ^ w * lanes_value w rest).
Proof using Hw.
  intros Hf. apply Forall2_app_inv_r in Hf as (l1 & l2 & H1 & H2 & ->).
  inversion H2 as [|lane b rest ? Hb Hr]; subst. exists lane, rest. split; [done|]. split; [done|].
  assert (Hl1 : l1 = replicate k 0).
  { clear -H1. revert l1 H1. induction k as [|k IH]; intros l1 H1; inversion H1 as [|? ? ? ? Hx Hr]; subst; [done|].
    cbn. unfold lane_for in Hx. rewrite Hx. f_equal. by apply IH. }
  split; [by rewrite Hl1|].
  rewrite lanes_app. apply lanes_zero in H1 as [-> ->]. done.
Qed.

(** ... and of one whose highest position is the length of [bs]. *)
Lemma lanes_last k lanes bs : Forall2 (lane_for w) lanes (bs ++ true :: replicate k false) ->
  Z.log2 (lanes_value w lanes) = w * Z.of_nat (length bs) + (w - 1) /\ lanes_value w lanes <> 0.
Proof using Hw.
  intros Hf. apply Forall2_app_inv_r in Hf as (l1 & l2 & H1 & H2 & ->).
  inversion H2 as [|lane b rest ? Hb Hr]; subst. pose proof (lanes_range _ _ H1) as Hlow.
  rewrite lanes_app. cbn [lanes_value foldr]. fold (lanes_value w rest). apply lanes_zero in Hr as [-> _].
  rewrite (Forall2_length _ _ _ H1). unfold lane_for in Hb.
  set (p := w * Z.of_nat (length bs)) in *. assert (0 <= p) by (unfold p; lia).
  assert (Hpp : 0 < 2 ^ p) by (apply Z.pow_pos_nonneg; lia).
  assert (H1' : 0 < 2 ^ (w - 1)) by (apply Z.pow_pos_nonneg; lia).
  split; [|nia]. apply Z.log2_unique; [lia|].
  replace (Z.succ (p + (w - 1))) with (p + w) by lia. rewrite !Z.pow_add_r by lia. nia.
Qed.

End lanes.

(** The odd part of a number determines the power of two. *)
Lemma odd_part_unique a b p q : 0 <= a -> 0 <= b -> 2 ^ a * (2 * p + 1) = 2 ^ b * (2 * q + 1) -> a = b.
Proof.
  assert (Hwlog : forall a b p q, 0 <= a -> 0 <= b -> a < b -> 2 ^ a * (2 * p + 1) <> 2 ^ b * (2 * q + 1)).
  { clear. intros a b p q Ha Hb Hab Heq. replace b with (a + (Z.succ (b - a - 1))) in Heq by lia.
    rewrite Z.pow_add_r, Z.pow_succ_r in Heq by lia.
    assert (0 < 2 ^ a) by (apply Z.pow_pos_nonneg; lia).
    assert (2 * p + 1 = 2 * (2 ^ (b - a - 1) * (2 * q + 1))) by nia. lia. }
  intros Ha Hb Heq. destruct (Z.lt_trichotomy a b) as [Hlt|[->|Hlt]]; [|done|].
  - by edestruct Hwlog; [..|exact Heq].
  - symmetry in Heq. by edestruct Hwlog; [..|exact Heq].
Qed.

Lemma trailing_zeros_unique w x n k q : trailing_zeros w x n -> x <> 0 -> 0 <= k -> x = 2 ^ k * (2 * q + 1) -> n = k.
Proof.
  unfold trailing_zeros. intros Hn Hx Hk Heq. rewrite (proj2 (Z.eqb_neq x 0)) in Hn by done.
  destruct Hn as [Hr (q' & Hq)]. rewrite Hq in Heq. eapply odd_part_unique; [lia|done|exact Heq].
Qed.

(** A lane that is not zero leaves the lowest one of the number inside it. *)
Lemma lane_odd w lane r : 0 < w -> 0 < lane < 2 ^ w ->
  exists a q, 0 <= a < w /\ lane + 2 ^ w * r = 2 ^ a * (2 * q + 1).
Proof.
  intros Hw Hl. destruct (odd_part lane) as (a & q & Ha & -> & Hq); [lia|].
  assert (Hpa : 0 < 2 ^ a) by (apply Z.pow_pos_nonneg; lia).
  assert (Haw : a < w) by (apply (Z.pow_lt_mono_r_iff 2); [done|lia|nia]).
  exists a, (q + 2 ^ (w - a - 1) * r). split; [lia|].
  replace w with (a + Z.succ (w - a - 1)) at 1 by lia. rewrite Z.pow_add_r, Z.pow_succ_r by lia. ring.
Qed.

Lemma lane_for_true w lane : 0 < w -> lane_for w lane true -> 0 < lane < 2 ^ w.
Proof. cbn. intros Hw Hl. assert (0 < 2 ^ (w - 1)) by (apply Z.pow_pos_nonneg; lia). lia. Qed.

(** Splitting a set at its first and at its last position. *)
Lemma split_first (bs : list bool) :
  bs = replicate (length bs) false \/ exists k rest, bs = replicate k false ++ true :: rest.
Proof.
  induction bs as [|b bs IH]; [by left|]. destruct b; [right; by exists O, bs|].
  destruct IH as [IH|(k & rest & ->)]; [left; cbn; by f_equal|]. right. by exists (S k), rest.
Qed.

Lemma split_last (bs : list bool) :
  bs = replicate (length bs) false \/ exists k rest, bs = rest ++ true :: replicate k false.
Proof.
  induction bs as [|b bs IH]; [by left|]. destruct IH as [IH|(k & rest & ->)].
  - destruct b; [right; exists (length bs), []; cbn; by f_equal|left; cbn; by f_equal].
  - right. by exists k, (b :: rest).
Qed.

(** ** The operations against the sets *)

Section masks.
Context `{MaskType} (Hok : mask_ok).

Notation W := (2 ^ Shift).

Lemma mask_facts : 0 < W /\ W * SignificantBits <= mask_T /\ is_width mask_T /\ (mask_T = 32 \/ mask_T = 64) /\
  0 <= Shift /\ (forall x, x >> Shift = x / W) /\ 0 <= SignificantBits.
Proof using Hok.
  assert (Hs : 0 <= Shift) by (destruct Hok as [(_ & _ & ->)|(_ & _ & ->)]; done).
  destruct Hok as [(-> & -> & Hsh)|(-> & -> & Hsh)]; rewrite Hsh.
  all: repeat split; try lia; try (by right; right; right); try (by right; right; left);
    intros x; by rewrite Z.shiftr_div_pow2.
Qed.

Ltac use_facts := pose proof mask_facts as (HW & HWS & Hwid & H3264 & HSh & Hshr & HSB).

Lemma marks_range mask bs : marks mask bs -> 0 <= mask < 2 ^ (W * SignificantBits).
Proof using Hok.
  use_facts. intros (lanes & -> & Hf & Hl). rewrite <- Hl. by apply lanes_range.
Qed.

Lemma marks_word mask bs : marks mask bs -> word mask_T mask.
Proof using Hok.
  use_facts. intros Hr%marks_range. unfold word.
  pose proof (Z.pow_le_mono_r 2 (W * SignificantBits) mask_T). lia.
Qed.

(** An empty set is the mask zero. *)
Lemma mask_bool_spec mask bs : marks mask bs -> mask_bool mask = existsb id bs.
Proof using Hok.
  use_facts. intros (lanes & -> & Hf & _). unfold mask_bool.
  destruct (split_last bs) as [Hb|(k & rest & ->)].
  - rewrite Hb in *. apply lanes_zero in Hf as [-> _]; [|done]. symmetry. apply not_true_iff_false.
    rewrite existsb_exists. intros (x & Hx & Hid). apply list_elem_of_In, elem_of_replicate in Hx as [-> _]. done.
  - apply lanes_last in Hf as [_ Hnz]; [|done]. rewrite (proj2 (Z.eqb_neq _ 0)) by done.
    rewrite existsb_app. cbn. by rewrite orb_true_r.
Qed.

Lemma TrailingZeros_first mask k rest : marks mask (replicate k false ++ true :: rest) ->
  exists n, TrailingZeros mask_T mask = Ok n /\ n >> Shift = Z.of_nat k.
Proof using Hok.
  use_facts. intros Hm. pose proof (marks_word _ _ Hm) as Hword. pose proof (marks_range _ _ Hm) as Hrange.
  destruct Hm as (lanes & Heq & Hf & Hlen).
  destruct (lanes_first W HW _ _ _ Hf) as (lane & rl & Hlane & Hrl & _ & Hv). rewrite Hv in Heq.
  destruct (lane_odd W lane (lanes_value W rl) HW (lane_for_true W lane HW Hlane)) as (a & q & Ha & Hq). rewrite Hq in Heq.
  rewrite Z.mul_assoc, <- Z.pow_add_r in Heq by nia. set (n := W * Z.of_nat k + a) in *.
  assert (Hn : 0 <= n) by (unfold n; nia). assert (Hpn : 0 < 2 ^ n) by (apply Z.pow_pos_nonneg; lia).
  assert (Hnz : mask <> 0) by (rewrite Heq; apply Z.neq_mul_0; lia).
  pose proof (CountTrailingZeroes_spec mask_T mask Hwid Hword) as Hspec.
  apply (trailing_zeros_unique _ _ _ n q) in Hspec; [|done|done|done].
  exists n. unfold TrailingZeros. rewrite (proj2 (Z.eqb_neq mask 0)) by done.
  unfold countr_zero. rewrite Hspec. split.
  - f_equal. apply Z.mod_small. split; [done|].
    assert (Z.of_nat k < SignificantBits) by (rewrite <- Hlen, length_app, length_replicate; cbn; lia).
    assert (n < mask_T) by (unfold n; nia). destruct H3264 as [H3|H3]; rewrite H3 in *; lia.
  - rewrite Hshr. unfold n. rewrite Z.mul_comm, Z.div_add_l by lia. rewrite Z.div_small by lia. lia.
Qed.

Lemma LowestBitSet_spec mask k rest : marks mask (replicate k false ++ true :: rest) -> LowestBitSet mask = Ok (Z.of_nat k).
Proof using Hok.
  intros (n & Hn & Hs)%TrailingZeros_first. unfold LowestBitSet. rewrite Hn. cbn. by rewrite Hs.
Qed.

Lemma mask_TrailingZeros_spec mask k rest :
  marks mask (replicate k false ++ true :: rest) -> mask_TrailingZeros mask = Ok (Z.of_nat k).
Proof using Hok. apply LowestBitSet_spec. Qed.

Lemma marks_log2 mask k rest : marks mask (rest ++ true :: replicate k false) ->
  Z.log2 mask = W * Z.of_nat (length rest) + (W - 1) /\ mask <> 0 /\ Z.of_nat (length rest) + Z.of_nat k + 1 = SignificantBits.
Proof using Hok.
  use_facts. intros (lanes & -> & Hf & Hlen). apply lanes_last in Hf as [Hlog Hnz]; [|done].
  rewrite length_app in Hlen. cbn [length] in Hlen. rewrite length_replicate in Hlen. split; [done|]. split; [done|]. lia.
Qed.

Lemma HighestBitSet_spec mask k rest :
  marks mask (rest ++ true :: replicate k false) -> HighestBitSet mask = Ok (Z.of_nat (length rest)).
Proof using Hok.
  use_facts. intros Hm. pose proof (marks_word _ _ Hm) as Hword. apply marks_log2 in Hm as (Hlog & Hnz & Hlen).
  unfold HighestBitSet. rewrite bit_width_eq by done. cbn [rbind]. rewrite (proj2 (Z.eqb_neq mask 0)) by done.
  f_equal. rewrite Hlog. set (p := Z.of_nat (length rest)) in *. assert (0 <= p) by lia.
  replace (W * p + (W - 1) + 1 - 1) with (W * p + (W - 1)) by lia.
  assert (Hle : W * p + (W - 1) < mask_T) by nia.
  unfold cast. rewrite (Z.mod_small (W * p + (W - 1))); [|split; [lia|destruct H3264 as [H3|H3]; rewrite H3 in *; lia]].
  rewrite Hshr. rewrite Z.mul_comm, Z.div_add_l by lia. rewrite Z.div_small, Z.add_0_r by lia.
  apply Z.mod_small. destruct H3264 as [H3|H3]; rewrite H3 in *; nia.
Qed.

Lemma LeadingZeros_spec mask k rest :
  marks mask (rest ++ true :: replicate k false) -> LeadingZeros mask = Ok (Z.of_nat k).
Proof using Hok.
  use_facts. intros Hm. pose proof (marks_word _ _ Hm) as Hword. pose proof (marks_range _ _ Hm) as Hrange.
  apply marks_log2 in Hm as (Hlog & Hnz & Hlen).
  unfold LeadingZeros. cbv zeta. rewrite (Z.shiftl_mul_pow2 SignificantBits) by done.
  rewrite (Z.shiftl_mul_pow2 mask) by lia.
  set (e := mask_T - SignificantBits * W). assert (He : 0 <= e) by (unfold e; nia).
  assert (Hpe : 0 < 2 ^ e) by (apply Z.pow_pos_nonneg; lia).
  assert (Hx : 0 < mask * 2 ^ e < 2 ^ mask_T).
  { split; [nia|]. replace mask_T with (W * SignificantBits + e) by (unfold e; lia). rewrite Z.pow_add_r by nia. nia. }
  unfold cast. rewrite Z.mod_small by lia. unfold countl_zero.
  rewrite CountLeadingZeroes_eq by (try done; split; lia). cbn [rbind]. f_equal.
  unfold clz. rewrite (proj2 (Z.eqb_neq (mask * 2 ^ e) 0)) by lia. rewrite Z.log2_mul_pow2 by lia. rewrite Hlog.
  replace (mask_T - 1 - _) with (Z.of_nat k * W) by (unfold e; nia).
  unfold u32. rewrite Z.mod_small; [by rewrite Hshr, Z.div_mul by lia|].
  assert (Z.of_nat k * W <= mask_T) by nia. destruct H3264 as [H3|H3]; rewrite H3 in *; nia.
Qed.

(** Removing the lowest position. The portable masks and those of NEON are
    first reduced to the highest bit of each byte. *)
Lemma land_lanes lanes bs : Forall2 (lane_for 8) lanes bs ->
  exists lanes', Z.land (lanes_value 8 lanes) (lanes_value 8 (replicate (length bs) 128)) = lanes_value 8 lanes' /\
    Forall2 (fun lane (b : bool) => lane = if b then 128 else 0) lanes' bs.
Proof using.
  change (lanes_value 8) with le_value.
  induction 1 as [|lane b lanes bs Hb Hr IH]; [by exists []|]. destruct IH as (lanes' & IH & Hf).
  exists ((if b then 128 else 0) :: lanes'). split; [|by constructor].
  pose proof (lane_for_range 8 ltac:(done) _ _ Hb) as Hlane.
  cbn [length replicate]. rewrite !le_value_cons, land_cons by done. rewrite IH. f_equal. destruct b; cbn in Hb; [|by subst].
  apply Z.eqb_eq. revert lane Hlane Hb.
  assert (Hall : forall d, byte_ok d -> (if 128 <=? d then Z.land d 128 =? 128 else true) = true)
    by (apply byte_forall; vm_compute; reflexivity).
  intros lane Hlane Hb. specialize (Hall lane Hlane). by rewrite (proj2 (Z.leb_le 128 lane)) in Hall by lia.
Qed.

Lemma clear_lowest w k lane rest : 0 < w -> lane = 2 ^ (w - 1) ->
  let v := 2 ^ (w * Z.of_nat k) * (lane + 2 ^ w * rest) in
  Z.land v (v - 1) = 2 ^ (w * Z.of_nat k) * (2 ^ w * rest).
Proof using.
  intros Hw -> v. set (p := w * Z.of_nat k) in *. assert (0 <= p) by (unfold p; nia).
  assert (Hv : v = 2 ^ (p + (w - 1)) * (2 * rest + 1)).
  { unfold v. rewrite Z.pow_add_r by lia. replace w with (Z.succ (w - 1)) at 2 by lia.
    rewrite Z.pow_succ_r by lia. ring. }
  rewrite Hv, land_pred by lia. rewrite <- Hv. unfold v. rewrite Z.pow_add_r by lia. ring.
Qed.

(** The lanes after the reduction: powers of two. *)
Lemma reduced_marks mask bs : marks mask bs ->
  exists lanes, (if Shift =? 3 then Z.land mask 0x8080808080808080 else mask) = lanes_value W lanes /\
    Forall2 (fun lane (b : bool) => lane = if b then 2 ^ (W - 1) else 0) lanes bs.
Proof using Hok.
  intros (lanes & -> & Hf & Hlen). destruct Hok as [(_ & _ & Hsh)|(_ & HS & Hsh)]; rewrite Hsh in *.
  - exists lanes. split; [done|]. eapply Forall2_impl; [exact Hf|]. intros lane b Hb.
    unfold lane_for in Hb. change (2 ^ 0) with 1 in *. destruct b; [|done]. change (2 ^ (1 - 1)) with 1 in *. lia.
  - apply land_lanes in Hf as (lanes' & Hl & Hf). exists lanes'. split; [|done].
    rewrite HS in Hlen. replace (length bs) with 8%nat in Hl by lia. exact Hl.
Qed.

Lemma mask_next_marks mask k rest : marks mask (replicate k false ++ true :: rest) ->
  marks (mask_next mask) (replicate k false ++ false :: rest).
Proof using Hok.
  use_facts. intros Hm. pose proof (marks_word _ _ Hm) as Hword. unfold mask_next.
  destruct (reduced_marks _ _ Hm) as (lanes & -> & Hf). destruct Hm as (_ & _ & _ & Hlen).
  set (v := lanes_value W lanes).
  assert (Hf' : Forall2 (lane_for W) lanes (replicate k false ++ true :: rest)).
  { eapply Forall2_impl; [exact Hf|]. intros lane b ->. unfold lane_for. destruct b; [|done].
    split; [lia|]. apply Z.pow_lt_mono_r; lia. }
  pose proof (lanes_range W HW _ _ Hf') as Hrange. fold v in Hrange.
  destruct (lanes_first W HW _ _ _ Hf') as (lane & rl & Hlane & Hrl & Hlanes & Hv). fold v in Hv.
  assert (Hl2 : lane = 2 ^ (W - 1)).
  { apply (Forall2_lookup_l _ _ _ k lane) in Hf.
    - destruct Hf as (b & Hb & ->). rewrite lookup_app_r in Hb by (by rewrite length_replicate).
      rewrite length_replicate, Nat.sub_diag in Hb. by injection Hb as <-.
    - rewrite Hlanes, lookup_app_r by (by rewrite length_replicate). by rewrite length_replicate, Nat.sub_diag. }
  assert (Hvpos : 0 < v).
  { rewrite Hv, Hl2. assert (0 < 2 ^ (W * Z.of_nat k)) by (apply Z.pow_pos_nonneg; nia).
    assert (0 < 2 ^ (W - 1)) by (apply Z.pow_pos_nonneg; lia).
    pose proof (lanes_range W HW _ _ Hrl). assert (0 < 2 ^ W) by (apply Z.pow_pos_nonneg; lia). nia. }
  assert (Hvw : v < 2 ^ mask_T).
  { eapply Z.lt_le_trans; [apply Hrange|]. apply Z.pow_le_mono_r; [lia|]. nia. }
  unfold cast. rewrite (Z.mod_small (v - 1)) by lia. rewrite Hv.
  rewrite (clear_lowest W k lane _ HW Hl2). exists (replicate k 0 ++ 0 :: rl). split.
  - rewrite lanes_app by done. rewrite length_replicate. cbn [lanes_value foldr]. fold (lanes_value W rl).
    replace (lanes_value W (replicate k 0)) with 0; [lia|]. clear. induction k as [|k IH]; [done|].
    cbn. unfold lanes_value in IH. rewrite <- IH. lia.
  - split.
    + apply Forall2_app; [apply Forall2_replicate; done|]. by constructor.
    + rewrite <- Hlen. rewrite !length_app. done.
Qed.

(** The iterator yields the positions of the set, in increasing order. *)
Lemma mask_iterate_spec fuel bs : forall k mask, (length bs < fuel)%nat ->
  marks mask (replicate k false ++ bs) -> mask_iterate fuel mask = Ok (positions (Z.of_nat k) bs).
Proof using Hok.
  use_facts. revert fuel. induction bs as [|b bs IH]; intros fuel k mask Hfuel Hm.
  - destruct fuel as [|fuel]; [cbn in Hfuel; lia|]. rewrite app_nil_r in Hm. cbn [mask_iterate positions].
    destruct Hm as (lanes & -> & Hf & _). apply lanes_zero in Hf as [-> _]; done.
  - cbn [length] in Hfuel. assert (Hk : Z.of_nat k + 1 = Z.of_nat (S k)) by lia. destruct b.
    + destruct fuel as [|fuel]; [lia|]. cbn [mask_iterate positions app].
      pose proof (mask_bool_spec _ _ Hm) as Hb. unfold mask_bool in Hb.
      assert (Ht : existsb id (replicate k false ++ true :: bs) = true)
        by (rewrite existsb_app; cbn; by rewrite orb_true_r).
      rewrite Ht in Hb. apply negb_true_iff in Hb. rewrite Hb.
      rewrite (LowestBitSet_spec _ _ _ Hm). cbn [rbind]. apply mask_next_marks in Hm.
      rewrite (IH fuel (S k)); [cbn [rbind]; by rewrite Hk|lia|].
      rewrite replicate_S_end, <- app_assoc. exact Hm.
    + cbn [positions app]. rewrite Hk. apply IH; [lia|].
      rewrite replicate_S_end, <- app_assoc. exact Hm.
Qed.

Lemma mask_indices_spec mask bs : marks mask bs -> mask_indices mask = Ok (positions 0 bs).
Proof using Hok.
  intros Hm. unfold mask_indices. apply (mask_iterate_spec _ bs 0); [|exact Hm].
  destruct Hm as (_ & _ & _ & Hl). lia.
Qed.
End masks.

Lemma elem_of_positions k bs i :
  i ∈ positions k bs <-> k <= i /\ bs !! Z.to_nat (i - k) = Some true.
Proof.
  revert k. induction bs as [|b bs IH]; intros k; cbn [positions].
  - rewrite elem_of_nil, lookup_nil. split; [done|by intros [_ ?]].
  - rewrite elem_of_app, IH. split.
    + intros [Hb|[Hk Hl]].
      * destruct b; [|by apply elem_of_nil in Hb]. apply list_elem_of_singleton in Hb as ->. by rewrite Z.sub_diag.
      * split; [lia|]. replace (Z.to_nat (i - k)) with (S (Z.to_nat (i - (k + 1)))) by lia. done.
    + intros [Hk Hl]. destruct (decide (i = k)) as [->|].
      * left. rewrite Z.sub_diag in Hl. cbn in Hl. injection Hl as ->. by apply list_elem_of_singleton.
      * right. split; [lia|]. replace (Z.to_nat (i - k)) with (S (Z.to_nat (i - (k + 1)))) in Hl by lia. done.
Qed.
