(* ===== verification/Group.v ===== *)
(** * Group: control bytes and groups of them (src/abseil-cpp/absl/container/internal/raw_hash_set.h)

    [ctrl_t] is a signed byte with the values of the enumeration for the
    special states; a byte that is not negative is a full slot with seven
    bits of the hash. [Group] is the interface of the three implementations
    of a group ([GroupSse2Impl], [GroupAArch64Impl], [GroupPortableImpl]):
    the code picks one at compile time, the table is proved for any that
    satisfies [GroupLaws], and the three are proved to satisfy it. A group is
    built from the [kWidth] control bytes at an address, here a list.

    An SSE or NEON register is the list of its lanes; the intrinsics are the
    lane by lane operations that the source documents in front of them. *)

From S2P Require Import Prelude.
From S2P Require Import Word.
From S2P Require Import Bits.
From S2P Require Import BitMask.

(** ** Control bytes *)

Notation ctrl_t := Z (only parsing).
Definition kEmpty : ctrl_t := -128.
Definition kDeleted : ctrl_t := -2.
Definition kSentinel : ctrl_t := -1.

Definition IsEmpty (c : ctrl_t) : bool := c =? kEmpty.
Definition IsFull (c : ctrl_t) : bool := 0 <=? c.
Definition IsDeleted (c : ctrl_t) : bool := c =? kDeleted.
Definition IsEmptyOrDeleted (c : ctrl_t) : bool := c <? kSentinel.

(** [H2]: the seven low bits of a hash. *)
Definition H2 (hash : Z) : Z := Z.land hash 0x7F.

(** The values a control byte takes. *)
Definition ctrl_ok (c : ctrl_t) : Prop := c = kEmpty \/ c = kDeleted \/ c = kSentinel \/ 0 <= c < 128.

(** What [ConvertSpecialToEmptyAndFullToDeleted] does to a byte. *)
Definition convert (c : ctrl_t) : ctrl_t := if IsFull c then kDeleted else kEmpty.

(** The bytes of a group in memory, and a register read back as control bytes. *)
Definition ctrl_bytes (g : list ctrl_t) : list Z := u8 <$> g.
Definition to_ctrl (bytes : list Z) : list ctrl_t := i8 <$> bytes.

(** ** The interface *)

Class Group := {
  kWidth : Z;
  group_mask :: MaskType;
  Match : list ctrl_t -> Z -> Z;
  MaskEmpty : list ctrl_t -> Z;
  MaskEmptyOrDeleted : list ctrl_t -> Z;
  CountLeadingEmptyOrDeleted : list ctrl_t -> result Z;
  ConvertSpecialToEmptyAndFullToDeleted : list ctrl_t -> list ctrl_t
}.

(** The length of the longest prefix that satisfies [p]. *)
Fixpoint leading {A} (p : A -> bool) (l : list A) : Z :=
  match l with [] => 0 | a :: l => if p a then 1 + leading p l else 0 end.

(** What the table relies on. [Match] may report positions whose byte is not
    [hash], but only full ones, and only when some byte is [hash]. *)
Class GroupLaws `{Group} := {
  group_width : (kWidth = 8 \/ kWidth = 16) /\ kWidth = SignificantBits;
  group_mask_ok : mask_ok;
  Match_spec g h : Forall ctrl_ok g -> Z.of_nat (length g) = kWidth -> 0 <= h < 128 ->
    exists bs, marks (Match g h) bs /\
      (forall i, bs !! i = Some true -> exists c, g !! i = Some c /\ IsFull c = true) /\
      (forall i, g !! i = Some h -> bs !! i = Some true) /\
      (true ∈ bs -> h ∈ g);
  MaskEmpty_spec g : Forall ctrl_ok g -> Z.of_nat (length g) = kWidth -> marks (MaskEmpty g) (IsEmpty <$> g);
  MaskEmptyOrDeleted_spec g : Forall ctrl_ok g -> Z.of_nat (length g) = kWidth ->
    marks (MaskEmptyOrDeleted g) (IsEmptyOrDeleted <$> g);
  CountLeadingEmptyOrDeleted_spec g : Forall ctrl_ok g -> Z.of_nat (length g) = kWidth ->
    CountLeadingEmptyOrDeleted g = Ok (leading IsEmptyOrDeleted g);
  ConvertSpecialToEmptyAndFullToDeleted_spec g : Forall ctrl_ok g -> Z.of_nat (length g) = kWidth ->
    ConvertSpecialToEmptyAndFullToDeleted g = convert <$> g
}.

(** ** GroupSse2Impl *)

(** What the compiler defines: SSSE3, and GCC with [-funsigned-char]. *)
Class SseConfig := { have_ssse3 : bool; gcc_unsigned_char : bool }.

Module sse2.

Definition _mm_setzero_si128 : list Z := replicate 16 0.
Definition _mm_set1_epi8 (c : Z) : list Z := replicate 16 (i8 c).
Definition _mm_subs_epi8 (a b : list Z) : list Z := zip_with (fun x y => Z.max (-128) (Z.min 127 (x - y))) a b.
Definition _mm_and_si128 (a b : list Z) : list Z := zip_with Z.land a b.
Definition _mm_or_si128 (a b : list Z) : list Z := zip_with Z.lor a b.
Definition _mm_andnot_si128 (a b : list Z) : list Z := zip_with (fun x y => Z.land (Z.lnot x) y) a b.
Definition _mm_cmpeq_epi8 (a b : list Z) : list Z := zip_with (fun x y => if x =? y then -1 else 0) a b.
Definition _mm_cmpgt_epi8 (a b : list Z) : list Z := zip_with (fun x y => if y <? x then -1 else 0) a b.
Definition _mm_sign_epi8 (a b : list Z) : list Z :=
  zip_with (fun x y => if 0 <? y then x else if y <? 0 then i8 (- x) else 0) a b.
Definition _mm_shuffle_epi8 (a b : list Z) : list Z :=
  (fun y => if y <? 0 then 0 else nth (Z.to_nat (Z.land y 15)) a 0) <$> b.

(** The sign bit of each lane. *)
Definition _mm_movemask_epi8 (a : list Z) : Z := foldr (fun x m => (if x <? 0 then 1 else 0) + 2 * m) 0 a.

Section impl.
Context `{SseConfig}.

Definition _mm_cmpgt_epi8_fixed (a b : list Z) : list Z :=
  if gcc_unsigned_char then
    let mask := _mm_set1_epi8 0x80 in
    let diff := _mm_subs_epi8 b a in
    _mm_cmpeq_epi8 (_mm_and_si128 diff mask) mask
  else _mm_cmpgt_epi8 a b.

Definition Match (ctrl : list Z) (hash : Z) : Z :=
  let match_ := _mm_set1_epi8 hash in
  u32 (_mm_movemask_epi8 (_mm_cmpeq_epi8 match_ ctrl)).

Definition MaskEmpty (ctrl : list Z) : Z :=
  if have_ssse3 then u32 (_mm_movemask_epi8 (_mm_sign_epi8 ctrl ctrl))
  else let match_ := _mm_set1_epi8 kEmpty in u32 (_mm_movemask_epi8 (_mm_cmpeq_epi8 match_ ctrl)).

Definition MaskEmptyOrDeleted (ctrl : list Z) : Z :=
  let special := _mm_set1_epi8 kSentinel in
  u32 (_mm_movemask_epi8 (_mm_cmpgt_epi8_fixed special ctrl)).

Definition CountLeadingEmptyOrDeleted (ctrl : list Z) : result Z :=
  let special := _mm_set1_epi8 kSentinel in
  TrailingZeros 32 (u32 (_mm_movemask_epi8 (_mm_cmpgt_epi8_fixed special ctrl) + 1)).

Definition ConvertSpecialToEmptyAndFullToDeleted (ctrl : list Z) : list Z :=
  let msbs := _mm_set1_epi8 (-128) in
  let x126 := _mm_set1_epi8 126 in
  if have_ssse3 then _mm_or_si128 (_mm_shuffle_epi8 x126 ctrl) msbs
  else
    let zero := _mm_setzero_si128 in
    let special_mask := _mm_cmpgt_epi8_fixed zero ctrl in
    _mm_or_si128 msbs (_mm_andnot_si128 special_mask x126).

#[export] Instance GroupSse2Impl : Group := {
  kWidth := 16;
  group_mask := {| mask_T := 32; SignificantBits := 16; Shift := 0 |};
  Group.Match := Match;
  Group.MaskEmpty := MaskEmpty;
  Group.MaskEmptyOrDeleted := MaskEmptyOrDeleted;
  Group.CountLeadingEmptyOrDeleted := CountLeadingEmptyOrDeleted;
  Group.ConvertSpecialToEmptyAndFullToDeleted := ConvertSpecialToEmptyAndFullToDeleted
}.
End impl.
End sse2.

(** ** GroupPortableImpl *)

Module portable.

Definition Load (g : list ctrl_t) : Z := le_value (ctrl_bytes g).

Definition msbs : Z := 0x8080808080808080.
Definition lsbs : Z := 0x0101010101010101.

(** [~x] of an [uint64_t]. *)
Definition not64 (x : Z) : Z := u64 (Z.lnot x).

Definition Match (g : list ctrl_t) (hash : Z) : Z :=
  let ctrl := Load g in
  let x := ctrl ^^ (lsbs *64 hash) in
  Z.land (Z.land (x -64 lsbs) (not64 x)) msbs.

Definition MaskEmpty (g : list ctrl_t) : Z :=
  let ctrl := Load g in Z.land (Z.land ctrl (not64 ctrl <<64 6)) msbs.

Definition MaskEmptyOrDeleted (g : list ctrl_t) : Z :=
  let ctrl := Load g in Z.land (Z.land ctrl (not64 ctrl <<64 7)) msbs.

Definition CountLeadingEmptyOrDeleted (g : list ctrl_t) : result Z :=
  let ctrl := Load g in
  let bits := 0x0101010101010101 in
  Ok (u32 (countr_zero 64 (Z.land (Z.lor ctrl (not64 (ctrl >> 7))) bits) >> 3)).

Definition ConvertSpecialToEmptyAndFullToDeleted (g : list ctrl_t) : list ctrl_t :=
  let ctrl := Load g in
  let x := Z.land ctrl msbs in
  let res := Z.land (not64 x +64 (x >> 7)) (not64 lsbs) in
  to_ctrl (le_bytes 8 res).

#[export] Instance GroupPortableImpl : Group := {
  kWidth := 8;
  group_mask := {| mask_T := 64; SignificantBits := 8; Shift := 3 |};
  Group.Match := Match;
  Group.MaskEmpty := MaskEmpty;
  Group.MaskEmptyOrDeleted := MaskEmptyOrDeleted;
  Group.CountLeadingEmptyOrDeleted := CountLeadingEmptyOrDeleted;
  Group.ConvertSpecialToEmptyAndFullToDeleted := ConvertSpecialToEmptyAndFullToDeleted
}.
End portable.

(** ** GroupAArch64Impl *)

Module aarch64.

Definition vdup_n (c : Z) : list Z := replicate 8 c.
Definition vceq (a b : list Z) : list Z := zip_with (fun x y => if x =? y then 255 else 0) a b.
Definition vcgt_s8 (a b : list Z) : list Z := zip_with (fun x y => if y <? x then 255 else 0) a b.
Definition vcle_s8 (a b : list Z) : list Z := zip_with (fun x y => if x <=? y then 255 else 0) a b.
(** [vget_lane_u64(vreinterpret_u64_u8(v), 0)]. *)
Definition lane_u64 (v : list Z) : Z := le_value v.

Definition Match (g : list ctrl_t) (hash : Z) : Z :=
  let ctrl := ctrl_bytes g in
  let dup := vdup_n hash in lane_u64 (vceq ctrl dup).

(** [vreinterpret_s8_u8(ctrl)] is the group itself. *)
Definition MaskEmpty (g : list ctrl_t) : Z := lane_u64 (vceq (vdup_n kEmpty) g).

Definition MaskEmptyOrDeleted (g : list ctrl_t) : Z := lane_u64 (vcgt_s8 (vdup_n kSentinel) g).

Definition CountLeadingEmptyOrDeleted (g : list ctrl_t) : result Z :=
  let mask := lane_u64 (vcle_s8 (vdup_n kSentinel) g) in
  Ok (u32 (countr_zero 64 mask) >> 3).

Definition ConvertSpecialToEmptyAndFullToDeleted (g : list ctrl_t) : list ctrl_t :=
  let mask := lane_u64 (ctrl_bytes g) in
  let msbs := 0x8080808080808080 in
  let slsbs := 0x0202020202020202 in
  let midbs := 0x7e7e7e7e7e7e7e7e in
  let x := Z.land slsbs (mask >> 6) in
  let res := Z.lor (x +64 midbs) msbs in
  to_ctrl (le_bytes 8 res).

#[export] Instance GroupAArch64Impl : Group := {
  kWidth := 8;
  group_mask := {| mask_T := 64; SignificantBits := 8; Shift := 3 |};
  Group.Match := Match;
  Group.MaskEmpty := MaskEmpty;
  Group.MaskEmptyOrDeleted := MaskEmptyOrDeleted;
  Group.CountLeadingEmptyOrDeleted := CountLeadingEmptyOrDeleted;
  Group.ConvertSpecialToEmptyAndFullToDeleted := ConvertSpecialToEmptyAndFullToDeleted
}.
End aarch64.

(** ** The lanes of words *)

(** A predicate on the control bytes is decided by looking at all of them. *)
Lemma ctrl_forall (P : ctrl_t -> bool) :
  forallb P (kEmpty :: kDeleted :: kSentinel :: seqZ 0 128) = true -> forall c, ctrl_ok c -> P c = true.
Proof.
  intros HP c Hc. rewrite forallb_forall in HP. apply HP. apply list_elem_of_In.
  destruct Hc as [->|[->|[->|Hc]]]; [by left|by right; left|by right; right; left|].
  right. right. right. apply elem_of_seqZ. lia.
Qed.

Ltac every_ctrl :=
  match goal with
  | Hc : ctrl_ok ?c |- ?a = ?b :> bool =>
      try clear -Hc; apply eqb_true_iff; revert c Hc; apply ctrl_forall; vm_compute; reflexivity
  | Hc : ctrl_ok ?c |- ?a = ?b :> Z =>
      try clear -Hc; apply Z.eqb_eq; revert c Hc; apply ctrl_forall; vm_compute; reflexivity
  end.

Lemma map_ctrl {A} (f g : ctrl_t -> A) l : Forall ctrl_ok l -> (forall c, ctrl_ok c -> f c = g c) -> f <$> l = g <$> l.
Proof.
  intros Hl Hfg. apply list_fmap_ext. intros i c Hc. apply Hfg.
  by eapply Forall_lookup_1.
Qed.

Lemma ctrl_bytes_ok g : Forall byte_ok (ctrl_bytes g).
Proof. apply Forall_fmap, Forall_true. intros c. by apply Z.mod_pos_bound. Qed.

Lemma ctrl_bytes_length g : length (ctrl_bytes g) = length g.
Proof. apply length_fmap. Qed.

(** Operations on words made of bytes, byte by byte. *)
Lemma le_value_bitwise (op : Z -> Z -> Z) (f : bool -> bool -> bool) l1 l2 :
  (forall x y i, 0 <= i -> Z.testbit (op x y) i = f (Z.testbit x i) (Z.testbit y i)) ->
  (forall x y, word 8 x -> word 8 y -> word 8 (op x y)) -> op 0 0 = 0 ->
  Forall byte_ok l1 -> Forall byte_ok l2 -> length l1 = length l2 ->
  op (le_value l1) (le_value l2) = le_value (zip_with op l1 l2).
Proof.
  intros Hbit Hw H0 Hl1. revert l2. induction Hl1 as [|a l1 Ha Hl1 IH]; intros l2 Hl2 Hlen.
  - destruct l2; [exact H0|done].
  - destruct Hl2 as [|b l2 Hb Hl2]; [done|]. injection Hlen as Hlen. cbn [zip_with].
    rewrite !le_value_cons, <- (IH l2) by done. apply Z.bits_inj'. intros i Hi.
    rewrite Hbit, !testbit_cons, !Hbit by (try apply Hw; done || lia).
    destruct (i <? 8) eqn:E; [done|]. bools. by rewrite Hbit by lia.
Qed.

Lemma le_value_land l1 l2 : Forall byte_ok l1 -> Forall byte_ok l2 -> length l1 = length l2 ->
  Z.land (le_value l1) (le_value l2) = le_value (zip_with Z.land l1 l2).
Proof. apply (le_value_bitwise Z.land andb); [intros; apply Z.land_spec|intros; by apply word_land|done]. Qed.
Lemma le_value_lor l1 l2 : Forall byte_ok l1 -> Forall byte_ok l2 -> length l1 = length l2 ->
  Z.lor (le_value l1) (le_value l2) = le_value (zip_with Z.lor l1 l2).
Proof. apply (le_value_bitwise Z.lor orb); [intros; apply Z.lor_spec|intros; by apply word_lor|done]. Qed.
Lemma le_value_lxor l1 l2 : Forall byte_ok l1 -> Forall byte_ok l2 -> length l1 = length l2 ->
  le_value l1 ^^ le_value l2 = le_value (zip_with Z.lxor l1 l2).
Proof. apply (le_value_bitwise Z.lxor xorb); [intros; apply Z.lxor_spec|intros; by apply word_lxor|done]. Qed.

Lemma le_value_lin (f : Z -> Z) a b l : (forall d, byte_ok d -> f d = a * d + b) -> Forall byte_ok l ->
  le_value (f <$> l) = a * le_value l + b * le_value (replicate (length l) 1).
Proof.
  intros Hf. induction 1 as [|d l Hd Hl IH]; [cbn; lia|]. cbn [fmap list_fmap length replicate].
  rewrite !le_value_cons. change (list_fmap _ _ f l) with (f <$> l). rewrite IH, Hf by done. ring.
Qed.

Lemma testbit_u64 x i : 0 <= i < 64 -> Z.testbit (u64 x) i = Z.testbit x i.
Proof. intros Hi. unfold u64. apply Z.mod_pow2_bits_low. lia. Qed.

(** A bit of a word is a bit of one of its bytes. *)
Lemma testbit_le_value l i d r : Forall byte_ok l -> l !! i = Some d -> 0 <= r < 8 ->
  Z.testbit (le_value l) (8 * Z.of_nat i + r) = Z.testbit d r.
Proof.
  intros Hl. revert i. induction Hl as [|a l Ha Hl IH]; intros i Hi Hr; [done|].
  rewrite le_value_cons, testbit_cons by (done || lia). destruct i as [|i]; cbn in Hi.
  - injection Hi as ->. by rewrite (proj2 (Z.ltb_lt _ 8)) by lia.
  - rewrite (proj2 (Z.ltb_ge _ 8)) by lia. rewrite <- (IH i) by done. f_equal. lia.
Qed.

Lemma le_bytes_lookup n v i : (i < n)%nat -> le_bytes n v !! i = Some ((v / 2 ^ (8 * Z.of_nat i)) mod 2 ^ 8).
Proof.
  revert v i. induction n as [|n IH]; intros v i Hi; [lia|]. cbn [le_bytes]. destruct i as [|i].
  - cbn [lookup list_lookup]. change (8 * Z.of_nat 0) with 0. by rewrite Z.pow_0_r, Z.div_1_r.
  - cbn [lookup list_lookup]. rewrite IH by lia. f_equal. f_equal. change 256 with (2 ^ 8).
    rewrite Z.div_div by (try apply Z.pow_nonzero; done || lia || (apply Z.pow_pos_nonneg; lia)).
    rewrite <- Z.pow_add_r by lia. f_equal. f_equal. lia.
Qed.

(** Keeping the highest bit of every byte gives a mask. *)
Lemma msbs_marks `{MaskType} x bs : mask_T = 64 -> SignificantBits = 8 -> Shift = 3 -> length bs = 8%nat ->
  (forall i b, bs !! i = Some b -> Z.testbit x (8 * Z.of_nat i + 7) = b) ->
  marks (Z.land x 0x8080808080808080) bs.
Proof.
  intros HT HS Hsh Hlen Hbits. exists ((fun d => Z.land d 128) <$> le_bytes 8 x). rewrite Hsh, HS. split; [|split; [|lia]].
  - change (lanes_value (2 ^ 3)) with le_value. change 0x8080808080808080 with (le_value (replicate 8 128)).
    assert (Heq : Z.land x (le_value (replicate 8 128)) = Z.land (le_value (le_bytes 8 x)) (le_value (replicate 8 128))).
    { rewrite le_value_bytes. change (256 ^ Z.of_nat 8) with (2 ^ 64). rewrite <- Z.land_ones by done.
      rewrite <- Z.land_assoc. f_equal. }
    rewrite Heq, le_value_land; [|apply le_bytes_ok|by repeat constructor|by rewrite le_bytes_length].
    by rewrite zip_with_replicate_r by (by rewrite le_bytes_length).
  - apply Forall2_same_length_lookup_2; [by rewrite length_fmap, le_bytes_length|].
    intros i lane b Hlane Hb. rewrite list_lookup_fmap in Hlane.
    assert (Hi : (i < 8)%nat) by (rewrite <- Hlen; by eapply lookup_lt_Some).
    rewrite le_bytes_lookup in Hlane by done. cbn in Hlane. injection Hlane as <-.
    rewrite <- (Hbits i b Hb). rewrite Z.add_comm, <- Z.div_pow2_bits by lia.
    rewrite <- (Z.mod_pow2_bits_low _ 8) by lia.
    assert (Hd : byte_ok ((x / 2 ^ (8 * Z.of_nat i)) mod 2 ^ 8)) by (by apply Z.mod_pos_bound).
    change (2 ^ 3) with 8. revert Hd. generalize ((x / 2 ^ (8 * Z.of_nat i)) mod 2 ^ 8). intros d Hd.
    assert (Hall : forall d, byte_ok d ->
      (if Z.testbit d 7 then (128 <=? Z.land d 128) && (Z.land d 128 <? 256) else Z.land d 128 =? 0) = true)
      by (apply byte_forall; vm_compute; reflexivity).
    specialize (Hall d Hd). unfold lane_for. destruct (Z.testbit d 7); bools; [split; done|done].
Qed.

(** The number of zeros below the first lane that is not zero. *)
Lemma ctz_lanes k d rest : Forall byte_ok (d :: rest) -> d <> 0 -> (k + S (length rest) = 8)%nat ->
  u32 (countr_zero 64 (le_value (replicate k 0 ++ d :: rest)) >> 3) = Z.of_nat k /\
  u32 (countr_zero 64 (le_value (replicate k 0 ++ d :: rest))) >> 3 = Z.of_nat k.
Proof.
  intros Hf Hd Hlen. inversion Hf as [|? ? Hd8 Hrest]; subst.
  assert (Hall : Forall byte_ok (replicate k 0 ++ d :: rest)).
  { apply Forall_app. split; [|done]. by apply Forall_replicate. }
  pose proof (le_value_range _ Hall) as Hr. rewrite length_app, length_replicate in Hr. cbn [length] in Hr.
  rewrite Hlen in Hr. change (256 ^ Z.of_nat 8) with (2 ^ 64) in Hr.
  set (v := le_value (replicate k 0 ++ d :: rest)) in *.
  assert (Hv : v = 2 ^ (8 * Z.of_nat k) * (d + 2 ^ 8 * le_value rest)).
  { unfold v. rewrite le_value_app, length_replicate, le_value_cons.
    replace (le_value (replicate k 0)) with 0; [|by clear; induction k as [|k IH]; [|rewrite replicate_S, le_value_cons, <- IH]].
    rewrite Z.pow_mul_r by lia. change (2 ^ 8) with 256. lia. }
  unfold byte_ok, word in Hd8. destruct (lane_odd 8 d (le_value rest) ltac:(done) ltac:(lia)) as (a & q & Ha & Hq).
  rewrite Hq, Z.mul_assoc, <- Z.pow_add_r in Hv by lia. set (n := 8 * Z.of_nat k + a) in *.
  assert (Hnz : v <> 0).
  { rewrite Hv. apply Z.neq_mul_0. split; [apply Z.pow_nonzero; lia|lia]. }
  pose proof (CountTrailingZeroes_spec 64 v ltac:(by right; right; right) Hr) as Hspec.
  apply (trailing_zeros_unique _ _ _ n q) in Hspec; [|done|lia|done]. unfold countr_zero. rewrite Hspec.
  unfold u32. rewrite !Z.shiftr_div_pow2 by done. change (2 ^ 3) with 8.
  rewrite (Z.mod_small n) by lia.
  assert (Hn : n / 8 = Z.of_nat k) by (unfold n; rewrite Z.mul_comm, Z.div_add_l, Z.div_small by lia; lia).
  rewrite Hn. rewrite Z.mod_small by lia. done.
Qed.

Lemma u8_ctrl c : ctrl_ok c -> u8 c = if IsFull c then c else c + 256.
Proof. intros Hc. every_ctrl. Qed.

(** A match without false positives. *)
Lemma exact_match (g : list ctrl_t) h : 0 <= h < 128 ->
  (forall i, ((fun c => c =? h) <$> g) !! i = Some true -> exists c, g !! i = Some c /\ IsFull c = true) /\
  (forall i, g !! i = Some h -> ((fun c => c =? h) <$> g) !! i = Some true) /\
  (true ∈ (fun c => c =? h) <$> g -> h ∈ g).
Proof.
  intros Hh. split; [|split].
  - intros i Hi. rewrite list_lookup_fmap in Hi. destruct (g !! i) as [c|]; [|done]. cbn in Hi.
    injection Hi as Hi. bools. exists c. split; [done|]. subst. unfold IsFull. apply Z.leb_le. lia.
  - intros i Hi. rewrite list_lookup_fmap, Hi. cbn. by rewrite Z.eqb_refl.
  - intros (c & Hc & Hin)%list_elem_of_fmap. symmetry in Hc. bools. by subst.
Qed.

(** ** The SSE2 group *)

Module sse2_spec.
Import sse2.

(** The sign bits of the lanes are a mask. *)
Lemma movemask_marks `{SseConfig} v bs : length bs = 16%nat -> (fun x => x <? 0) <$> v = bs ->
  marks (u32 (_mm_movemask_epi8 v)) bs /\ _mm_movemask_epi8 v = lanes_value 1 ((fun b : bool => if b then 1 else 0) <$> bs).
Proof.
  intros Hlen Hv.
  assert (Heq : _mm_movemask_epi8 v = lanes_value 1 ((fun b : bool => if b then 1 else 0) <$> bs)).
  { rewrite <- Hv. clear. induction v as [|x v IH]; [done|]. cbn [fmap list_fmap _mm_movemask_epi8 lanes_value foldr] in *.
    unfold _mm_movemask_epi8 in IH. rewrite IH. by change (2 ^ 1) with 2. }
  split; [|done]. assert (Hf : Forall2 (lane_for 1) ((fun b : bool => if b then 1 else 0) <$> bs) bs).
  { apply Forall2_fmap_l, Forall_Forall2_diag, Forall_true. by intros []. }
  pose proof (lanes_range 1 ltac:(done) _ _ Hf) as Hr. rewrite Hlen in Hr. change (2 ^ (1 * Z.of_nat 16)) with 65536 in Hr.
  exists ((fun b : bool => if b then 1 else 0) <$> bs). split; [|split; [exact Hf|cbn; lia]].
  rewrite Heq. change (2 ^ Shift) with 1. unfold u32. rewrite Z.mod_small; [done|].
  change (2 ^ 32) with 4294967296. lia.
Qed.

(** Adding one to the mask carries over the lowest ones. *)
Lemma carry_leading bs : exists q,
  lanes_value 1 ((fun b : bool => if b then 1 else 0) <$> bs) + 1 = 2 ^ leading id bs * (2 * q + 1) /\ 0 <= q /\
  0 <= leading id bs <= Z.of_nat (length bs).
Proof.
  induction bs as [|b bs IH]; [exists 0; vm_compute; intuition congruence|]. destruct IH as (q & Hq & Hq0 & Hl).
  rewrite fmap_cons, lanes_cons. change (2 ^ 1) with 2. cbn [leading length].
  set (v := lanes_value 1 _) in *. destruct b; cbn [id].
  - exists q. rewrite Z.pow_add_r, <- Z.mul_assoc, <- Hq by lia. lia.
  - exists v. rewrite Z.pow_0_r. assert (0 < 2 ^ leading id bs) by (apply Z.pow_pos_nonneg; lia). nia.
Qed.

Lemma leading_fmap {A} (p : A -> bool) l : leading id (p <$> l) = leading p l.
Proof. induction l as [|a l IH]; [done|]. cbn. unfold id. destruct (p a); [|done]. f_equal. exact IH. Qed.

Section laws.
Context `{SseConfig} (g : list ctrl_t) (Hg : Forall ctrl_ok g) (Hlen : Z.of_nat (length g) = 16).

(** A lane operation with a constant first argument. *)
Lemma zip_const (f : Z -> Z -> Z) c : zip_with f (replicate 16 c) g = f c <$> g.
Proof using Hlen. apply zip_with_replicate_l. lia. Qed.

Lemma signs_marks (f : ctrl_t -> Z) (P : ctrl_t -> bool) : (forall c, ctrl_ok c -> (f c <? 0) = P c) ->
  marks (u32 (_mm_movemask_epi8 (f <$> g))) (P <$> g) /\
  TrailingZeros 32 (u32 (_mm_movemask_epi8 (f <$> g) + 1)) = Ok (leading P g).
Proof using Hg Hlen.
  intros Hf. destruct (movemask_marks (f <$> g) (P <$> g)) as [Hm Heq].
  - rewrite length_fmap. lia.
  - rewrite <- list_fmap_compose. by apply map_ctrl.
  - split; [exact Hm|]. destruct (carry_leading (P <$> g)) as (q & Hq & Hq0 & Hl).
    rewrite <- Heq, leading_fmap in Hq. rewrite leading_fmap, length_fmap, Hlen in Hl.
    pose proof (marks_range ltac:(by left) _ _ Hm) as Hr. cbn [mask_T SignificantBits Shift group_mask GroupSse2Impl] in Hr.
    assert (Hp : 0 < 2 ^ leading P g) by (apply Z.pow_pos_nonneg; lia).
    assert (Hsmall : _mm_movemask_epi8 (f <$> g) < 65536).
    { rewrite Heq. assert (Hf2 : Forall2 (lane_for 1) ((fun b : bool => if b then 1 else 0) <$> (P <$> g)) (P <$> g))
        by (apply Forall2_fmap_l, Forall_Forall2_diag, Forall_true; by intros []).
      pose proof (lanes_range 1 ltac:(done) _ _ Hf2) as Hr2. rewrite length_fmap, Hlen in Hr2. exact (proj2 Hr2). }
    assert (Hpos : 0 < _mm_movemask_epi8 (f <$> g) + 1) by nia.
    unfold u32 at 1. rewrite Z.mod_small by lia.
    unfold TrailingZeros. rewrite (proj2 (Z.eqb_neq _ 0)) by lia. f_equal. unfold countr_zero.
    pose proof (CountTrailingZeroes_spec 32 (_mm_movemask_epi8 (f <$> g) + 1) ltac:(by right; right; left) ltac:(split; lia)) as Hspec.
    apply (trailing_zeros_unique _ _ _ (leading P g) q) in Hspec; [|lia|lia|done].
    rewrite Hspec. apply Z.mod_small. lia.
Qed.

Lemma cmpgt_eq c : _mm_cmpgt_epi8_fixed (_mm_set1_epi8 c) g =
  (fun x => if gcc_unsigned_char then if Z.land (Z.max (-128) (Z.min 127 (x - i8 c))) (-128) =? -128 then -1 else 0
            else if x <? i8 c then -1 else 0) <$> g.
Proof using Hlen.
  unfold _mm_cmpgt_epi8_fixed, _mm_set1_epi8, _mm_cmpeq_epi8, _mm_and_si128, _mm_subs_epi8, _mm_cmpgt_epi8.
  destruct gcc_unsigned_char; [|apply zip_const].
  assert (Hl : length g = 16%nat) by lia. change (i8 128) with (-128). clear -Hl.
  revert Hl. generalize g. intros l Hl. do 17 (destruct l as [|? l]; try discriminate Hl). reflexivity.
Qed.

Lemma MaskEmpty_ok : marks (sse2.MaskEmpty g) (IsEmpty <$> g).
Proof using Hg Hlen.
  unfold sse2.MaskEmpty, _mm_sign_epi8, _mm_cmpeq_epi8, _mm_set1_epi8. destruct have_ssse3.
  - rewrite zip_with_diag. apply signs_marks. intros c Hc. every_ctrl.
  - rewrite zip_const. apply signs_marks. intros c Hc. every_ctrl.
Qed.

Lemma EmptyOrDeleted_ok :
  marks (sse2.MaskEmptyOrDeleted g) (IsEmptyOrDeleted <$> g) /\
  sse2.CountLeadingEmptyOrDeleted g = Ok (leading IsEmptyOrDeleted g).
Proof using Hg Hlen.
  unfold sse2.MaskEmptyOrDeleted, sse2.CountLeadingEmptyOrDeleted. rewrite cmpgt_eq. apply signs_marks.
  intros c Hc. destruct gcc_unsigned_char; every_ctrl.
Qed.

Lemma sse2_Convert_ok : sse2.ConvertSpecialToEmptyAndFullToDeleted g = convert <$> g.
Proof using Hg Hlen.
  unfold sse2.ConvertSpecialToEmptyAndFullToDeleted, _mm_setzero_si128.
  change (replicate 16 0) with (_mm_set1_epi8 0). rewrite cmpgt_eq.
  unfold _mm_set1_epi8, _mm_or_si128, _mm_shuffle_epi8, _mm_andnot_si128. destruct have_ssse3.
  - rewrite zip_with_replicate_r by (rewrite length_fmap; lia). rewrite <- list_fmap_compose.
    apply map_ctrl; [done|]. intros c Hc. every_ctrl.
  - rewrite zip_with_replicate_r by (rewrite length_fmap; lia).
    rewrite zip_with_replicate_l by (rewrite !length_fmap; lia). rewrite <- !list_fmap_compose.
    apply map_ctrl; [done|]. intros c Hc. unfold compose. destruct gcc_unsigned_char; every_ctrl.
Qed.

Lemma sse2_Match_ok h : 0 <= h < 128 -> marks (sse2.Match g h) ((fun c => c =? h) <$> g).
Proof using Hg Hlen.
  intros Hh. unfold sse2.Match, _mm_cmpeq_epi8, _mm_set1_epi8. rewrite zip_const. apply signs_marks.
  intros c Hc. rewrite i8_id by lia. rewrite Z.eqb_sym. by destruct (c =? h).
Qed.
End laws.

#[export] Instance GroupSse2Laws `{SseConfig} : GroupLaws (H := GroupSse2Impl).
Proof.
  split.
  - split; [by right|done].
  - by left.
  - intros g h Hg Hlen Hh. exists ((fun c => c =? h) <$> g). split; [exact (sse2_Match_ok g Hg Hlen h Hh)|].
    by apply exact_match.
  - intros g Hg Hlen. exact (MaskEmpty_ok g Hg Hlen).
  - intros g Hg Hlen. exact (proj1 (EmptyOrDeleted_ok g Hg Hlen)).
  - intros g Hg Hlen. exact (proj2 (EmptyOrDeleted_ok g Hg Hlen)).
  - intros g Hg Hlen. exact (sse2_Convert_ok g Hg Hlen).
Qed.
End sse2_spec.

(** ** The portable group *)

(** A bit of the loaded word is a bit of a control byte. *)
Lemma Load_testbit g i c r : g !! i = Some c -> 0 <= r < 8 ->
  Z.testbit (portable.Load g) (8 * Z.of_nat i + r) = Z.testbit (u8 c) r.
Proof.
  intros Hi Hr. unfold portable.Load. apply testbit_le_value; [apply ctrl_bytes_ok| |done].
  unfold ctrl_bytes. by rewrite list_lookup_fmap, Hi.
Qed.

Lemma Load_word g : Z.of_nat (length g) = 8 -> word 64 (portable.Load g).
Proof.
  intros Hlen. unfold portable.Load. pose proof (le_value_range _ (ctrl_bytes_ok g)) as Hr.
  rewrite ctrl_bytes_length, Hlen in Hr. exact Hr.
Qed.

Lemma testbit_not64 x i : 0 <= i < 64 -> Z.testbit (portable.not64 x) i = negb (Z.testbit x i).
Proof. intros Hi. unfold portable.not64. rewrite testbit_u64, Z.lnot_spec by lia. done. Qed.

Lemma not64_eq x : word 64 x -> portable.not64 x = 2 ^ 64 - 1 - x.
Proof. intros Hx. unfold portable.not64. exact (cast_lnot 64 x ltac:(done) Hx). Qed.

(** A word is made of lanes when its bits are. *)
Lemma word_lanes (f : ctrl_t -> Z) x g : Z.of_nat (length g) = 8 -> word 64 x ->
  (forall i c r, g !! i = Some c -> 0 <= r < 8 -> Z.testbit x (8 * Z.of_nat i + r) = Z.testbit (f c) r) ->
  (forall c, c ∈ g -> byte_ok (f c)) -> x = le_value (f <$> g).
Proof.
  intros Hlen Hx Hbits Hok. assert (Hfok : Forall byte_ok (f <$> g)).
  { apply Forall_fmap, Forall_forall. intros c Hc. apply Hok, Hc. }
  pose proof (le_value_range _ Hfok) as Hr. rewrite length_fmap, Hlen in Hr. change (256 ^ 8) with (2 ^ 64) in Hr.
  apply Z.bits_inj'. intros j Hj. destruct (decide (j < 64)) as [Hj64|].
  - pose proof (Z.div_mod j 8 ltac:(done)) as Hdm. pose proof (Z.mod_pos_bound j 8 ltac:(done)) as Hm.
    assert (Hq : 0 <= j / 8 < 8) by lia.
    destruct (lookup_lt_is_Some_2 g (Z.to_nat (j / 8)) ltac:(lia)) as [c Hc].
    replace j with (8 * Z.of_nat (Z.to_nat (j / 8)) + j mod 8) by lia.
    rewrite (Hbits _ c) by done. symmetry. apply testbit_le_value; [done| |lia].
    by rewrite list_lookup_fmap, Hc.
  - rewrite (proj2 (proj1 (word_bits 64 x ltac:(done)) Hx)) by lia.
    by rewrite (proj2 (proj1 (word_bits 64 _ ltac:(done)) Hr)) by lia.
Qed.

Lemma lsbs_testbit i r : Z.of_nat i < 8 -> 0 <= r < 8 -> Z.testbit 0x0101010101010101 (8 * Z.of_nat i + r) = (r =? 0).
Proof.
  intros Hi Hr. change 0x0101010101010101 with (le_value (replicate 8 1)).
  rewrite (testbit_le_value _ i 1); [|by repeat constructor|by apply lookup_replicate_2; lia|done].
  destruct (decide (r = 0)) as [->|Hr0]; [done|]. rewrite (proj2 (Z.eqb_neq r 0)) by done.
  apply Z.bits_above_log2; [done|]. cbn. lia.
Qed.

(** The numbers below eight that a mask of positions comes from. *)
Lemma leading_split {A} (p : A -> bool) l :
  leading p l = Z.of_nat (length l) /\ Forall (fun a => p a = true) l \/
  exists l1 a l2, l = l1 ++ a :: l2 /\ Forall (fun a => p a = true) l1 /\ p a = false /\ leading p l = Z.of_nat (length l1).
Proof.
  induction l as [|a l IH]; [left; split; [done|constructor]|]. cbn [leading length]. destruct (p a) eqn:Hp.
  - destruct IH as [[IH Hf]|(l1 & b & l2 & -> & Hf & Hb & IH)].
    + left. rewrite IH. split; [lia|by constructor].
    + right. exists (a :: l1), b, l2. rewrite IH. cbn [app length]. split; [done|].
      split; [by constructor|]. split; [done|lia].
  - right. exists [], a, l. split; [done|]. split; [constructor|done].
Qed.

(** Counting the zeros below the first lane of the others. *)
Lemma ctz_leading (f : ctrl_t -> Z) (P : ctrl_t -> bool) g : Forall ctrl_ok g -> Z.of_nat (length g) = 8 ->
  (forall c, ctrl_ok c -> byte_ok (f c) /\ (f c =? 0) = P c) ->
  u32 (countr_zero 64 (le_value (f <$> g)) >> 3) = leading P g /\
  u32 (countr_zero 64 (le_value (f <$> g))) >> 3 = leading P g.
Proof.
  intros Hg Hlen Hf.
  assert (Hzero : forall l, Forall ctrl_ok l -> Forall (fun a => P a = true) l -> f <$> l = replicate (length l) 0).
  { clear -Hf. induction 1 as [|c l Hc Hl IH]; [done|]. intros HP. inversion HP as [|? ? HPc HPl]; subst.
    cbn. f_equal; [|by apply IH]. destruct (Hf c Hc) as [_ Hz]. rewrite HPc in Hz. by bools. }
  destruct (leading_split P g) as [[-> HP]|(l1 & a & l2 & -> & H1 & Ha & ->)].
  - rewrite (Hzero g Hg HP). rewrite Hlen. replace (length g) with 8%nat by lia. vm_compute. done.
  - apply Forall_app in Hg as [Hg1 Hg2]. inversion Hg2 as [|? ? Hac Hg2']; subst.
    rewrite fmap_app, fmap_cons, (Hzero l1 Hg1 H1). apply ctz_lanes.
    + apply Forall_cons. split; [by apply Hf|]. apply Forall_fmap. eapply Forall_impl; [exact Hg2'|].
      intros c Hc. by apply Hf.
    + destruct (Hf a Hac) as [_ Hz]. rewrite Ha in Hz. by bools.
    + rewrite length_fmap. rewrite length_app in Hlen. cbn [length] in Hlen. lia.
Qed.

Lemma le_value_scale a l : le_value ((fun d => a * d) <$> l) = a * le_value l.
Proof. induction l as [|d l IH]; [cbn; lia|]. rewrite fmap_cons, !le_value_cons, IH. ring. Qed.

(** Sums of words without carries between the bytes. *)
Lemma le_value_add (f g : ctrl_t -> Z) l :
  le_value (f <$> l) + le_value (g <$> l) = le_value ((fun c => f c + g c) <$> l).
Proof. induction l as [|d l IH]; [done|]. rewrite !fmap_cons, !le_value_cons, <- IH. ring. Qed.

Lemma le_value_const c l : le_value (replicate (length l) c) = le_value ((fun _ : ctrl_t => c) <$> l).
Proof. f_equal. induction l as [|d l IH]; [done|]. cbn. by f_equal. Qed.

(** Storing lanes computed from the control bytes. *)
Lemma store_lanes (f : ctrl_t -> Z) g : Forall ctrl_ok g -> Z.of_nat (length g) = 8 ->
  (forall c, ctrl_ok c -> byte_ok (f c) /\ i8 (f c) = convert c) ->
  to_ctrl (le_bytes 8 (le_value (f <$> g))) = convert <$> g.
Proof.
  intros Hg Hlen Hf. assert (Hl : length (f <$> g) = 8%nat) by (rewrite length_fmap; lia).
  rewrite <- Hl, le_bytes_value.
  - unfold to_ctrl. rewrite <- list_fmap_compose. apply map_ctrl; [done|]. intros c Hc. by apply Hf.
  - apply Forall_fmap. eapply Forall_impl; [exact Hg|]. intros c Hc. by apply Hf.
Qed.

Module portable_spec.
Import portable.

(** [x - lsbs], byte by byte: a byte that is less than what is taken from it
    borrows from the next, and these are the ones whose highest bit changes. *)
Fixpoint borrows (b : bool) (l : list Z) : list bool :=
  match l with [] => [] | x :: l => let b' := x <=? Z.b2z b in b' :: borrows b' l end.

Lemma borrows_length b l : length (borrows b l) = length l.
Proof. revert b. induction l as [|x l IH]; intros b; [done|]. cbn [borrows length]. by rewrite IH. Qed.

Lemma borrow_bit l : forall b i x, Forall byte_ok l -> l !! i = Some x ->
  borrows b l !! i = Some (Z.testbit (le_value l - le_value (replicate (length l) 1) - Z.b2z b) (8 * Z.of_nat i + 7) && negb (Z.testbit x 7)).
Proof.
  induction l as [|y l IH]; intros b i x Hl Hi; [done|]. apply Forall_cons in Hl as [Hy Hl].
  cbn [borrows length replicate]. rewrite !le_value_cons. set (w := le_value l - le_value (replicate (length l) 1)).
  replace (y + 256 * le_value l - (1 + 256 * le_value (replicate (length l) 1)) - Z.b2z b) with ((y - 1 - Z.b2z b) + w * 2 ^ 8) by lia.
  assert (Hq : (y - 1 - Z.b2z b) / 2 ^ 8 = - Z.b2z (y <=? Z.b2z b)).
  { unfold byte_ok, word in Hy. destruct (y <=? Z.b2z b) eqn:E; bools; destruct b; cbn [Z.b2z] in *;
      [symmetry; apply (Z.div_unique _ _ _ (y - 2 + 256))|symmetry; apply (Z.div_unique _ _ _ (y - 1 + 256))|apply Z.div_small..]; lia. }
  destruct i as [|i].
  - cbn in Hi. injection Hi as ->. cbn [lookup list_lookup]. f_equal. change (8 * Z.of_nat 0 + 7) with 7.
    rewrite <- (Z.mod_pow2_bits_low _ 8), Z_mod_plus_full by done.
    assert (Hall : forall b, forall d, byte_ok d -> Bool.eqb (d <=? Z.b2z b) (Z.testbit ((d - 1 - Z.b2z b) mod 2 ^ 8) 7 && negb (Z.testbit d 7)) = true)
      by (intros b'; apply byte_forall; destruct b'; vm_compute; reflexivity).
    apply eqb_prop. by apply Hall.
  - cbn in Hi |- *. fold (lookup (K := nat) i (borrows (y <=? Z.b2z b) l)). rewrite (IH _ i x) by done. do 2 f_equal.
    replace (8 * Z.of_nat (S i) + 7) with (8 * Z.of_nat i + 7 + 8) by lia.
    rewrite <- (Z.div_pow2_bits _ 8), Z.div_add, Hq by lia. f_equal. fold w. lia.
Qed.

(** What [Match] marks: the bytes that are the hash, and after a marked byte
    those that differ from it in the lowest bit only. *)
Fixpoint match_marks (h : Z) (prev : bool) (g : list ctrl_t) : list bool :=
  match g with [] => [] | c :: g => let b := (c =? h) || prev && (c =? h ^^ 1) in b :: match_marks h b g end.

Lemma match_marks_length h prev g : length (match_marks h prev g) = length g.
Proof. revert prev. induction g as [|c g IH]; intros prev; [done|]. cbn [match_marks length]. by rewrite IH. Qed.

Lemma match_marks_lookup h prev g i b : match_marks h prev g !! i = Some b -> exists c, g !! i = Some c /\
  (c = h -> b = true) /\ (b = true -> c = h \/ c = h ^^ 1).
Proof.
  revert prev i. induction g as [|c g IH]; intros prev i Hb; [done|]. destruct i as [|i]; [|by apply (IH _ i Hb)].
  cbn in Hb. injection Hb as <-. exists c. split; [done|]. split; [by intros ->; rewrite Z.eqb_refl|].
  intros [Hc|[_ Hc]%andb_true_iff]%orb_true_iff; bools; [by left|by right].
Qed.

Lemma match_marks_real h prev g : true ∈ match_marks h prev g -> prev = true \/ h ∈ g.
Proof.
  revert prev. induction g as [|c g IH]; intros prev; cbn [match_marks]; [by intros ?%elem_of_nil|]. intros Hin.
  assert (Hor : (c =? h) || prev && (c =? h ^^ 1) = true \/ h ∈ g).
  { apply elem_of_cons in Hin as [Hb|Hin]; [by left|]. by apply IH in Hin. }
  destruct Hor as [[Hc|[Hp _]%andb_true_iff]%orb_true_iff|Hin']; [|by left|right; by right]. bools. subst. right. by left.
Qed.

Lemma flip_small h : 0 <= h < 128 -> 0 <= h ^^ 1 < 128.
Proof. intros Hh. assert (Hw : word 7 (h ^^ 1)) by (apply word_lxor; [done|split; cbn; lia|done]). exact Hw. Qed.

Lemma borrows_marks h : 0 <= h < 128 -> forall prev l, Forall ctrl_ok l ->
  borrows prev ((fun c => u8 c ^^ h) <$> l) = match_marks h prev l.
Proof.
  intros Hh prev l Hl. revert prev. induction Hl as [|c l Hc _ IH]; intros prev; [done|]. rewrite fmap_cons. cbn [borrows match_marks].
  assert (Hn : 0 <= u8 c ^^ h) by (apply Z.lxor_nonneg; split; [intros; lia|intros; apply Z.mod_pos_bound; lia]).
  pose proof (flip_small h Hh) as Hflip.
  assert (Hu : forall k, 0 <= k < 128 -> u8 c = k <-> c = k).
  { intros k Hk. rewrite u8_ctrl by done. destruct (IsFull c) eqn:Hfull; [done|].
    assert (Hneg : (128 <=? c + 256) || IsFull c = true) by every_ctrl. rewrite Hfull, orb_false_r in Hneg. bools.
    assert (Hc' : (c <? 0) || IsFull c = true) by every_ctrl. rewrite Hfull, orb_false_r in Hc'. bools. lia. }
  assert (H0 : u8 c ^^ h = 0 <-> c = h) by (rewrite Z.lxor_eq_0_iff; by apply Hu).
  assert (H1 : u8 c ^^ h = 1 <-> c = h ^^ 1).
  { rewrite <- (Hu (h ^^ 1)) by done. split; [intros <-; by rewrite (Z.lxor_comm (u8 c)), <- Z.lxor_assoc, Z.lxor_nilpotent, Z.lxor_0_l|].
    intros ->. by rewrite (Z.lxor_comm h), Z.lxor_assoc, Z.lxor_nilpotent, Z.lxor_0_r. }
  assert (Hb : (u8 c ^^ h <=? Z.b2z prev) = (c =? h) || prev && (c =? h ^^ 1)).
  { apply eq_true_iff_eq. rewrite Z.leb_le, orb_true_iff, andb_true_iff, !Z.eqb_eq, <- H0, <- H1. destruct prev; cbn [Z.b2z]; intuition lia. }
  by rewrite Hb, IH.
Qed.

Section laws.
Context (g : list ctrl_t) (Hg : Forall ctrl_ok g) (Hlen : Z.of_nat (length g) = 8).

Lemma lookup_lt i c : g !! i = Some c -> Z.of_nat i < 8 /\ ctrl_ok c.
Proof using Hg Hlen.
  intros Hi. split; [apply lookup_lt_Some in Hi; lia|]. by eapply Forall_lookup_1.
Qed.

(** The masks that read one bit of each byte besides the highest. *)
Lemma bit_marks s (P : ctrl_t -> bool) : 0 <= s <= 7 ->
  (forall c, ctrl_ok c -> Z.testbit (u8 c) 7 && negb (Z.testbit (u8 c) (7 - s)) = P c) ->
  marks (Z.land (Z.land (Load g) (not64 (Load g) <<64 s)) msbs) (P <$> g).
Proof using Hg Hlen.
  intros Hs HP. apply msbs_marks; try done; [rewrite length_fmap; lia|].
  intros i b Hi. rewrite list_lookup_fmap in Hi. destruct (g !! i) as [c|] eqn:Hc; [|done]. cbn in Hi. injection Hi as <-.
  destruct (lookup_lt i c Hc) as [Hi8 Hok]. rewrite <- (HP c Hok).
  rewrite Z.land_spec, testbit_u64, Z.shiftl_spec, (Load_testbit g i c) by (done || lia). f_equal.
  replace (8 * Z.of_nat i + 7 - s) with (8 * Z.of_nat i + (7 - s)) by lia.
  rewrite testbit_not64, (Load_testbit g i c) by (done || lia). done.
Qed.

Lemma portable_CountLeading_ok : portable.CountLeadingEmptyOrDeleted g = Ok (leading IsEmptyOrDeleted g).
Proof using Hg Hlen.
  unfold portable.CountLeadingEmptyOrDeleted. cbv zeta. f_equal.
  set (f := fun c => if Z.testbit (u8 c) 0 || negb (Z.testbit (u8 c) 7) then 1 else 0).
  rewrite (word_lanes f (Z.land (Z.lor (Load g) (not64 (Load g >> 7))) 0x0101010101010101) g Hlen).
  - apply ctz_leading; [done|done|]. intros c Hc. split.
    + unfold f. destruct (_ || _); done.
    + every_ctrl.
  - apply word_land; [done| |done]. apply word_lor; [done|by apply Load_word|]. apply u64_range.
  - intros i c r Hi Hr. destruct (lookup_lt i c Hi) as [Hi8 Hok].
    rewrite Z.land_spec, Z.lor_spec, (lsbs_testbit i r) by lia. unfold f.
    destruct (decide (r = 0)) as [->|Hr0].
    + rewrite testbit_not64, Z.shiftr_spec, Z.add_0_r by lia.
      rewrite (Load_testbit g i c 7) by (done || lia).
      replace (8 * Z.of_nat i) with (8 * Z.of_nat i + 0) by lia. rewrite (Load_testbit g i c 0) by (done || lia).
      destruct (_ || _); done.
    + rewrite (proj2 (Z.eqb_neq r 0)) by done. rewrite andb_false_r.
      destruct (_ || _); [|by rewrite Z.bits_0]. symmetry. apply Z.bits_above_log2; [done|]. cbn. lia.
  - intros c _. unfold f. destruct (_ || _); done.
Qed.

Lemma portable_Convert_ok : portable.ConvertSpecialToEmptyAndFullToDeleted g = convert <$> g.
Proof using Hg Hlen.
  unfold portable.ConvertSpecialToEmptyAndFullToDeleted. cbv zeta.
  assert (Hl : length g = 8%nat) by lia.
  set (h := fun c => if IsFull c then 0 else 1).
  assert (Hx : Z.land (Load g) msbs = 128 * le_value (h <$> g)).
  { unfold Load, msbs. change 0x8080808080808080 with (le_value (replicate 8 128)).
    rewrite le_value_land; [|apply ctrl_bytes_ok|by repeat constructor|by rewrite ctrl_bytes_length].
    rewrite zip_with_replicate_r by (by rewrite ctrl_bytes_length, Hl).
    rewrite <- le_value_scale. unfold ctrl_bytes. rewrite <- !list_fmap_compose. f_equal.
    apply map_ctrl; [done|]. intros c Hc. every_ctrl. }
  rewrite Hx. rewrite Z.shiftr_div_pow2 by done. change (2 ^ 7) with 128.
  rewrite (Z.mul_comm 128), Z.div_mul, Z.mul_comm by done.
  assert (Hh : Forall byte_ok (h <$> g)) by (apply Forall_fmap, Forall_true; intros c; unfold h; cbn; destruct (IsFull c); split; done).
  set (f := fun c => if IsFull c then 255 else 128).
  assert (Hsum : not64 (128 * le_value (h <$> g)) +64 le_value (h <$> g) = le_value (f <$> g)).
  { assert (Hw : word 64 (128 * le_value (h <$> g))).
    { rewrite <- Hx. apply word_land; [done|by apply Load_word|done]. }
    rewrite not64_eq by done. change (2 ^ 64 - 1) with (le_value (replicate 8 255)). rewrite <- Hl, le_value_const.
    assert (Heq : le_value ((fun _ => 255) <$> g) = le_value (f <$> g) + 127 * le_value (h <$> g)).
    { rewrite <- le_value_scale, <- list_fmap_compose, le_value_add. f_equal. apply list_fmap_ext.
      intros i c _. unfold f, h, compose. by destruct (IsFull c). }
    rewrite Heq. unfold u64. rewrite Z.mod_small; [lia|].
    assert (Hf : Forall byte_ok (f <$> g)) by (apply Forall_fmap, Forall_true; intros c; unfold f; cbn; destruct (IsFull c); split; done).
    pose proof (le_value_range _ Hf) as Hr. rewrite length_fmap, Hl in Hr. change (256 ^ Z.of_nat 8) with (2 ^ 64) in Hr. lia. }
  rewrite Hsum. change (not64 lsbs) with (le_value (replicate 8 254)).
  rewrite le_value_land; [| |by repeat constructor|by rewrite length_fmap].
  2: { apply Forall_fmap, Forall_true. intros c. unfold f. cbn. destruct (IsFull c); split; done. }
  rewrite zip_with_replicate_r by (by rewrite length_fmap, Hl). rewrite <- list_fmap_compose.
  apply store_lanes; [done|done|]. intros c Hc. unfold compose, f, convert. destruct (IsFull c); split; done.
Qed.


(** The bytes that are zero where the control byte is the hash. *)
Definition xs (h : Z) : list Z := (fun c => u8 c ^^ h) <$> g.

Lemma xs_ok h : 0 <= h < 128 -> Forall byte_ok (xs h) /\ length (xs h) = 8%nat /\ Load g ^^ (lsbs *64 h) = le_value (xs h).
Proof using Hlen.
  intros Hh. assert (Hh8 : byte_ok h) by (split; cbn; lia). assert (Hl : length g = 8%nat) by lia.
  split; [|split].
  - apply Forall_fmap, Forall_true. intros c. apply word_lxor; [done|by apply Z.mod_pos_bound|done].
  - unfold xs. by rewrite length_fmap.
  - assert (Hm : lsbs *64 h = le_value (replicate 8 h)).
    { unfold lsbs. rewrite u64_id by lia. cbn [replicate]. rewrite !le_value_cons. cbn [le_value foldr]. lia. }
    rewrite Hm. unfold Load. rewrite le_value_lxor; [|apply ctrl_bytes_ok|by apply Forall_replicate|by rewrite ctrl_bytes_length].
    rewrite zip_with_replicate_r by (by rewrite ctrl_bytes_length, Hl). unfold ctrl_bytes, xs.
    by rewrite <- list_fmap_compose.
Qed.

Lemma portable_Match_ok h : 0 <= h < 128 -> marks (portable.Match g h) (match_marks h false g).
Proof using Hg Hlen.
  intros Hh. destruct (xs_ok h Hh) as (Hxs & Hxl & Hx). unfold portable.Match. cbv zeta. rewrite Hx, <- (borrows_marks h Hh) by done.
  fold (xs h).
  apply msbs_marks; try done; [by rewrite borrows_length, Hxl|]. intros i b Hb.
  destruct (lookup_lt_is_Some_2 (xs h) i) as [x Hxi]; [apply lookup_lt_Some in Hb; by rewrite borrows_length in Hb|].
  assert (Hi : (i < 8)%nat) by (rewrite <- Hxl; by eapply lookup_lt_Some).
  rewrite (borrow_bit _ _ i x) in Hb by done. apply (inj Some) in Hb. rewrite <- Hb. cbn [Z.b2z]. rewrite Z.sub_0_r, Hxl.
  rewrite Z.land_spec, testbit_u64, testbit_not64, (testbit_le_value (xs h) i x) by (done || lia). done.
Qed.

Lemma portable_Match_law h : 0 <= h < 128 -> exists bs, marks (portable.Match g h) bs /\
  (forall i, bs !! i = Some true -> exists c, g !! i = Some c /\ IsFull c = true) /\
  (forall i, g !! i = Some h -> bs !! i = Some true) /\ (true ∈ bs -> h ∈ g).
Proof using Hg Hlen.
  intros Hh. exists (match_marks h false g). split; [by apply portable_Match_ok|]. split; [|split].
  - intros i (c & Hc & _ & Hb)%match_marks_lookup. exists c. split; [done|]. pose proof (flip_small h Hh).
    unfold IsFull. apply Z.leb_le. destruct (Hb eq_refl) as [-> | ->]; lia.
  - intros i Hi. destruct (match_marks h false g !! i) as [b|] eqn:Hb.
    + pose proof Hb as (c & Hc & Ht & _)%match_marks_lookup. f_equal. apply Ht. congruence.
    + apply lookup_ge_None in Hb. apply lookup_lt_Some in Hi. rewrite match_marks_length in Hb. lia.
  - intros [?|?]%match_marks_real; done.
Qed.
End laws.

#[export] Instance GroupPortableLaws : GroupLaws (H := GroupPortableImpl).
Proof.
  split.
  - split; [by left|done].
  - by right.
  - intros g h Hg Hlen Hh. exact (portable_Match_law g Hg Hlen h Hh).
  - intros g Hg Hlen. apply (bit_marks g Hg Hlen 6); [done|]. intros c Hc. every_ctrl.
  - intros g Hg Hlen. apply (bit_marks g Hg Hlen 7); [done|]. intros c Hc. every_ctrl.
  - intros g Hg Hlen. exact (portable_CountLeading_ok g Hg Hlen).
  - intros g Hg Hlen. exact (portable_Convert_ok g Hg Hlen).
Qed.
End portable_spec.

(** ** The NEON group *)

Module aarch64_spec.
Import aarch64.

Section laws.
Context (g : list ctrl_t) (Hg : Forall ctrl_ok g) (Hlen : Z.of_nat (length g) = 8).

(** Comparisons give lanes of all ones. *)
Lemma compare_marks (f : ctrl_t -> Z) (P : ctrl_t -> bool) :
  (forall c, ctrl_ok c -> f c = if P c then 255 else 0) -> marks (lane_u64 (f <$> g)) (P <$> g).
Proof using Hg Hlen.
  intros Hf. exists (f <$> g). split; [done|]. split; [|cbn; rewrite length_fmap; lia].
  apply Forall2_fmap, Forall_Forall2_diag. eapply Forall_impl; [exact Hg|]. intros c Hc. rewrite (Hf c Hc).
  cbn. unfold lane_for. by destruct (P c).
Qed.

Lemma zip_const_l (f : Z -> Z -> Z) c : zip_with f (replicate 8 c) g = f c <$> g.
Proof using Hlen. apply zip_with_replicate_l. lia. Qed.

Lemma aarch64_Match_ok h : 0 <= h < 128 -> marks (aarch64.Match g h) ((fun c => c =? h) <$> g).
Proof using Hg Hlen.
  intros Hh. unfold aarch64.Match, vceq, vdup_n. cbv zeta.
  rewrite zip_with_replicate_r by (rewrite ctrl_bytes_length; lia). unfold ctrl_bytes. rewrite <- list_fmap_compose.
  apply compare_marks. intros c Hc. unfold compose, flip. rewrite u8_ctrl by done. destruct (IsFull c) eqn:E; [done|].
  assert (Hneg : (128 <=? c + 256) && (c <? 0) || IsFull c = true) by every_ctrl.
  rewrite E, orb_false_r in Hneg. bools. rewrite (proj2 (Z.eqb_neq (c + 256) h)), (proj2 (Z.eqb_neq c h)) by lia. done.
Qed.

Lemma aarch64_CountLeading_ok : aarch64.CountLeadingEmptyOrDeleted g = Ok (leading IsEmptyOrDeleted g).
Proof using Hg Hlen.
  unfold aarch64.CountLeadingEmptyOrDeleted, vcle_s8, vdup_n, lane_u64. rewrite zip_const_l. cbv zeta. f_equal.
  apply ctz_leading; [done|done|]. intros c Hc. split; [by destruct (_ <=? c)|]. every_ctrl.
Qed.

Lemma aarch64_Convert_ok : aarch64.ConvertSpecialToEmptyAndFullToDeleted g = convert <$> g.
Proof using Hg Hlen.
  unfold aarch64.ConvertSpecialToEmptyAndFullToDeleted, lane_u64. cbv zeta. assert (Hl : length g = 8%nat) by lia.
  rewrite Z.land_comm. change 0x0202020202020202 with (le_value (replicate 8 2)).
  assert (Hl8 : length (ctrl_bytes g) = 8%nat) by (by rewrite ctrl_bytes_length).
  rewrite <- Hl8, land_digits by (try apply ctrl_bytes_ok; done). rewrite Hl8.
  change 0x7e7e7e7e7e7e7e7e with (le_value (replicate 8 126)). rewrite <- Hl, le_value_const.
  unfold ctrl_bytes. rewrite <- list_fmap_compose, le_value_add. unfold compose. rewrite Hl.
  set (f := fun c => Z.land (u8 c >> 6) 2 + 126).
  assert (Hf : Forall byte_ok (f <$> g)).
  { apply Forall_fmap. eapply Forall_impl; [exact Hg|]. intros c Hc. unfold byte_ok, word, f. cbn -[Z.land Z.shiftr].
    assert (Hb : (0 <=? Z.land (u8 c >> 6) 2 + 126) && (Z.land (u8 c >> 6) 2 + 126 <? 256) = true) by every_ctrl.
    bools. lia. }
  pose proof (le_value_range _ Hf) as Hr. rewrite length_fmap, Hl in Hr. change (256 ^ Z.of_nat 8) with (2 ^ 64) in Hr.
  rewrite u64_id by done. change 0x8080808080808080 with (le_value (replicate 8 128)).
  rewrite le_value_lor; [|done|by repeat constructor|by rewrite length_fmap].
  rewrite zip_with_replicate_r by (by rewrite length_fmap, Hl). rewrite <- list_fmap_compose.
  apply store_lanes; [done|done|]. intros c Hc. unfold compose, f, convert. split.
  - assert (Hb : (0 <=? Z.lor (Z.land (u8 c >> 6) 2 + 126) 128) && (Z.lor (Z.land (u8 c >> 6) 2 + 126) 128 <? 256) = true)
      by every_ctrl.
    bools. by split.
  - every_ctrl.
Qed.
End laws.

#[export] Instance GroupAArch64Laws : GroupLaws (H := GroupAArch64Impl).
Proof.
  split.
  - split; [by left|done].
  - by right.
  - intros g h Hg Hlen Hh. exists ((fun c => c =? h) <$> g). split; [exact (aarch64_Match_ok g Hg Hlen h Hh)|].
    by apply exact_match.
  - intros g Hg Hlen. change (marks (aarch64.MaskEmpty g) (IsEmpty <$> g)). unfold aarch64.MaskEmpty, vceq, vdup_n. rewrite (zip_const_l g Hlen).
    apply (compare_marks g Hg Hlen). intros c Hc. every_ctrl.
  - intros g Hg Hlen. change (marks (aarch64.MaskEmptyOrDeleted g) (IsEmptyOrDeleted <$> g)). unfold aarch64.MaskEmptyOrDeleted, vcgt_s8, vdup_n. rewrite (zip_const_l g Hlen).
    apply (compare_marks g Hg Hlen). intros c Hc. every_ctrl.
  - intros g Hg Hlen. exact (aarch64_CountLeading_ok g Hg Hlen).
  - intros g Hg Hlen. exact (aarch64_Convert_ok g Hg Hlen).
Qed.
End aarch64_spec.

(** C34: what the three implementations of a group compute. [MaskEmpty],
    [MaskEmptyOrDeleted], [CountLeadingEmptyOrDeleted] and
    [ConvertSpecialToEmptyAndFullToDeleted] are the same function of the control
    bytes in all three. [Match] marks exactly the bytes that are the hash in the
    SSE2 and the AArch64 group; in the portable group it marks these, and after
    a marked byte also one that differs from the hash in the lowest bit only:
    these are its false positives, all of them, so there are none without a
    match and none on special bytes. The SSE2 group is with and without SSSE3
    and with the workaround for unsigned [char]. *)
Theorem group_implementations_correct `{SseConfig} :
  GroupLaws (H := sse2.GroupSse2Impl) /\ GroupLaws (H := aarch64.GroupAArch64Impl) /\ GroupLaws (H := portable.GroupPortableImpl) /\
  (forall g h, Forall ctrl_ok g -> 0 <= h < 128 ->
     (length g = 16%nat -> marks (H := group_mask (Group := sse2.GroupSse2Impl)) (sse2.Match g h) ((fun c => c =? h) <$> g)) /\
     (length g = 8%nat -> marks (H := group_mask (Group := aarch64.GroupAArch64Impl)) (aarch64.Match g h) ((fun c => c =? h) <$> g)) /\
     (length g = 8%nat -> marks (H := group_mask (Group := portable.GroupPortableImpl)) (portable.Match g h) (portable_spec.match_marks h false g))).
Proof.
  split; [exact sse2_spec.GroupSse2Laws|]. split; [exact aarch64_spec.GroupAArch64Laws|]. split; [exact portable_spec.GroupPortableLaws|].
  intros g h Hg Hh. split; [|split]; intros Hlen.
  - apply (sse2_spec.sse2_Match_ok g Hg); [by rewrite Hlen|done].
  - apply (aarch64_spec.aarch64_Match_ok g Hg); [by rewrite Hlen|done].
  - apply (portable_spec.portable_Match_ok g Hg); [by rewrite Hlen|done].
Qed.
