(* ===== verification/Capacity.v ===== *)
(** * Capacity: sizes, growth and layout of a table (src/abseil-cpp/absl/container/internal/raw_hash_set.h)

    The capacity of a table is [2 ^ m - 1]; the functions here convert
    between capacities, the number of elements they hold under the load
    factor, and the layout of the backing array. [size_t] has 64 bits. *)

From S2P Require Import Prelude.
From S2P Require Import Word.
From S2P Require Import Bits.
From S2P Require Import BitMask.
From S2P Require Import Group.

(** ** Capacities and growth *)

Definition IsValidCapacity (n : Z) : bool := (Z.land (n +64 1) n =? 0) && (0 <? n).

Definition NextCapacity (n : Z) : result Z :=
  cpp_assert (IsValidCapacity n || (n =? 0)) (Ok ((n *64 2) +64 1)).

Definition NormalizeCapacity (n : Z) : result Z :=
  if negb (n =? 0) then let* k := countl_zero 64 n in Ok (u64 (Z.lnot 0) >> k) else Ok 1.

Section growth.
Context `{Group}.

(** The control bytes that are repeated behind the sentinel. *)
Definition NumClonedBytes : Z := kWidth - 1.

Definition is_small (capacity : Z) : bool := capacity <? kWidth - 1.

Definition CapacityToGrowth (capacity : Z) : result Z :=
  cpp_assert (IsValidCapacity capacity)
    (if (kWidth =? 8) && (capacity =? 7) then Ok 6 else Ok (capacity -64 capacity / 8)).

Definition GrowthToLowerboundCapacity (growth : Z) : Z :=
  if (kWidth =? 8) && (growth =? 7) then 8
  else growth +64 u64 (Z.quot (signed 64 growth - 1) 7).

(** The range is random access, and then has a length, or it is not. *)
Definition SelectBucketCountForIterRange (length : option Z) (bucket_count : Z) : Z :=
  if negb (bucket_count =? 0) then bucket_count
  else match length with Some n => GrowthToLowerboundCapacity n | None => 0 end.

(** ** The backing array *)

(** The size of a handle of the sampler, and whether the build counts
    generations. *)
Class Build := { sizeof_infoz : Z; generations : bool; ndebug : bool }.

Definition ControlOffset `{Build} (has_infoz : bool) : Z := (if has_infoz then sizeof_infoz else 0) + 8.

Definition NumGenerationBytes `{Build} : Z := if generations then 1 else 0.

Definition GenerationOffset `{Build} (capacity : Z) (has_infoz : bool) : result Z :=
  cpp_assert (IsValidCapacity capacity)
    (let num_control_bytes := (capacity +64 1) +64 NumClonedBytes in
     Ok (ControlOffset has_infoz +64 num_control_bytes)).

Definition SlotOffset `{Build} (capacity slot_align : Z) (has_infoz : bool) : result Z :=
  cpp_assert (IsValidCapacity capacity)
    (let* offset := GenerationOffset capacity has_infoz in
     Ok (Z.land (((offset +64 NumGenerationBytes) +64 slot_align) -64 1) (u64 (Z.lnot slot_align) +64 1))).

Definition AllocSize `{Build} (capacity slot_size slot_align : Z) (has_infoz : bool) : result Z :=
  let* offset := SlotOffset capacity slot_align has_infoz in Ok (offset +64 (capacity *64 slot_size)).

Definition BackingArrayAlignment (align_of_slot : Z) : Z := Z.max align_of_slot 8.
End growth.

(** [GenerationType] is [uint8_t]; zero marks an empty table. *)
Definition SentinelEmptyGeneration : Z := 0.
Definition NextGeneration (generation : Z) : Z :=
  let generation := u8 (generation + 1) in
  if generation =? SentinelEmptyGeneration then u8 (generation + 1) else generation.

(** ** Lemmas *)

(** The capacities a table has: those that an allocation can hold. *)
Definition max_bits : Z := 60.
Definition capacity_ok (cap : Z) : Prop := exists m, 1 <= m <= max_bits /\ cap = 2 ^ m - 1.

Lemma capacity_bounds cap : capacity_ok cap -> 1 <= cap < 2 ^ 60.
Proof.
  intros (m & Hm & ->). unfold max_bits in Hm. pose proof (Z.pow_le_mono_r 2 1 m ltac:(done) ltac:(lia)).
  pose proof (Z.pow_le_mono_r 2 m 60 ltac:(done) ltac:(lia)). lia.
Qed.

(** Masking with a capacity is reduction modulo its successor. *)
Lemma land_capacity x m : 0 <= m -> Z.land x (2 ^ m - 1) = x mod 2 ^ m.
Proof. intros Hm. rewrite <- Z.land_ones by done. by rewrite Z.ones_equiv, <- Z.sub_1_r. Qed.

Lemma IsValidCapacity_ok cap : capacity_ok cap -> IsValidCapacity cap = true.
Proof.
  intros Hc. pose proof (capacity_bounds cap Hc) as Hb. destruct Hc as (m & Hm & ->). unfold IsValidCapacity.
  rewrite u64_id by lia. rewrite land_capacity by lia. rewrite Z.sub_add, Z_mod_same_full.
  by rewrite (proj2 (Z.ltb_lt _ _)) by lia.
Qed.

(** A valid capacity is a power of two minus one, at most [2 ^ 64 - 1]. *)
Lemma IsValidCapacity_spec n : word 64 n -> IsValidCapacity n = true <-> exists m, 1 <= m <= 64 /\ n = 2 ^ m - 1.
Proof.
  intros Hn. unfold word in Hn. split.
  - intros Hv. unfold IsValidCapacity in Hv. bools.
    destruct (decide (n = 2 ^ 64 - 1)) as [->|]; [by exists 64|]. rewrite u64_id in H by lia.
    destruct (odd_part (n + 1)) as (k & q & Hk & Heq & Hq); [lia|].
    assert (Hp : 0 < 2 ^ k) by (apply Z.pow_pos_nonneg; lia).
    pose proof (land_pred k q Hk) as Hland. cbv zeta in Hland. rewrite <- Heq in Hland.
    replace (n + 1 - 1) with n in Hland by lia. rewrite H in Hland.
    assert (q = 0) by nia. subst q. exists k. assert (Hn2 : n + 1 = 2 ^ k) by lia. split; [|lia].
    split; [destruct (decide (k = 0)) as [->|]; [cbn in Hn2; lia|lia]|].
    apply (Z.pow_le_mono_r_iff 2); lia.
  - intros (m & Hm & ->). unfold IsValidCapacity. rewrite land_capacity by lia. rewrite Z.sub_add.
    assert (H2 : 2 <= 2 ^ m) by (change 2 with (2 ^ 1) at 1; apply Z.pow_le_mono_r; lia).
    rewrite (proj2 (Z.ltb_lt 0 (2 ^ m - 1))) by lia.
    destruct (decide (m = 64)) as [->|]; [done|]. rewrite u64_id, Z_mod_same_full; [done|].
    split; [lia|]. apply Z.pow_lt_mono_r; lia.
Qed.

Lemma NextCapacity_ok cap : capacity_ok cap \/ cap = 0 -> cap < 2 ^ 59 ->
  NextCapacity cap = Ok (2 * cap + 1) /\ capacity_ok (2 * cap + 1).
Proof.
  intros Hc Hlt. unfold NextCapacity. destruct Hc as [Hc| ->].
  - rewrite IsValidCapacity_ok by done. destruct Hc as (m & Hm & ->).
    assert (H2 : 2 <= 2 ^ m) by (change 2 with (2 ^ 1) at 1; apply Z.pow_le_mono_r; lia).
    cbn [orb cpp_assert]. rewrite !u64_id by (try rewrite u64_id; lia). split; [f_equal; lia|].
    exists (Z.succ m). rewrite Z.pow_succ_r by lia. split; [|lia].
    assert (m <= 59); [|unfold max_bits; lia]. apply (Z.pow_le_mono_r_iff 2); lia.
  - split; [done|]. by exists 1.
Qed.

(** The least valid capacity that is not below [n]. *)
Lemma NormalizeCapacity_ok n : 0 <= n < 2 ^ 60 -> exists m, 1 <= m <= max_bits /\
  NormalizeCapacity n = Ok (2 ^ m - 1) /\ n <= 2 ^ m - 1 /\ (forall m', 1 <= m' -> n <= 2 ^ m' - 1 -> m <= m').
Proof.
  intros Hn. unfold NormalizeCapacity. destruct (n =? 0) eqn:E; bools; cbn [negb].
  - exists 1. split; [done|]. split; [done|]. split; [lia|]. lia.
  - unfold countl_zero. rewrite CountLeadingZeroes_eq; [|by right; right; right|split; lia].
    cbn [rbind]. unfold clz. rewrite (proj2 (Z.eqb_neq n 0)) by done.
    pose proof (Z.log2_spec n ltac:(lia)) as [Hlo Hhi]. pose proof (Z.log2_nonneg n) as Hl0.
    assert (Hl60 : Z.log2 n < 60) by (apply Z.log2_lt_pow2; lia).
    exists (Z.succ (Z.log2 n)). split; [|split; [|split]].
    + unfold max_bits. lia.
    + f_equal. change (u64 (Z.lnot 0)) with (Z.ones 64). rewrite Z.shiftr_div_pow2 by lia.
      rewrite Z.ones_div_pow2 by lia. rewrite Z.ones_equiv, <- Z.sub_1_r. f_equal. f_equal. lia.
    + lia.
    + intros m' Hm' Hle. apply Z.le_succ_l. apply Z.log2_lt_pow2; lia.
Qed.

(** ** The layout of the backing array *)

(** Rounding up to a power of two, the way [SlotOffset] does it. *)
Lemma round_up x a : 0 <= a < 63 -> 0 <= x -> x + 2 ^ a < 2 ^ 64 ->
  Z.land (((x +64 2 ^ a) -64 1)) (u64 (Z.lnot (2 ^ a)) +64 1) = 2 ^ a * ((x + 2 ^ a - 1) / 2 ^ a).
Proof.
  intros Ha Hx Hlt. assert (Hp : 0 < 2 ^ a) by (apply Z.pow_pos_nonneg; lia). assert (Hp63 : 2 ^ a < 2 ^ 63) by (apply Z.pow_lt_mono_r; lia).
  rewrite (u64_id (x + 2 ^ a)), (u64_id (x + 2 ^ a - 1)) by lia.
  assert (Hmask : u64 (Z.lnot (2 ^ a)) +64 1 = Z.ldiff (Z.ones 64) (Z.ones a)).
  { assert (Hn : u64 (Z.lnot (2 ^ a)) = 2 ^ 64 - 1 - 2 ^ a).
    { unfold u64, Z.lnot. rewrite <- (Z.mod_add _ 1) by done. rewrite Z.mod_small; lia. }
    rewrite Hn, u64_id by lia. rewrite Z.ldiff_ones_r by lia. rewrite Z.shiftr_div_pow2, Z.ones_div_pow2, Z.shiftl_mul_pow2, Z.ones_equiv by lia.
    rewrite <- Z.sub_1_r. replace (2 ^ 64) with (2 ^ (64 - a) * 2 ^ a) by (rewrite <- Z.pow_add_r by lia; f_equal; lia). lia. }
  rewrite Hmask. set (y := x + 2 ^ a - 1). assert (Hy : 0 <= y < 2 ^ 64) by (unfold y; lia).
  assert (Hland : Z.land y (Z.ldiff (Z.ones 64) (Z.ones a)) = Z.ldiff y (Z.ones a)).
  { apply Z.bits_inj'. intros k Hk. rewrite Z.land_spec, !Z.ldiff_spec. destruct (decide (k < 64)).
    - rewrite Z.ones_spec_low by lia. by rewrite andb_true_l.
    - rewrite Z.ones_spec_high by lia. rewrite (Z.bits_above_log2 y k); [done|lia|].
      destruct (decide (y = 0)) as [->|]; [cbn; lia|]. apply Z.log2_lt_pow2; [lia|]. apply Z.lt_le_trans with (2 ^ 64); [lia|apply Z.pow_le_mono_r; lia]. }
  rewrite Hland, Z.ldiff_ones_r, Z.shiftl_mul_pow2, Z.shiftr_div_pow2 by lia. lia.
Qed.

Section growth_lemmas.
Context {HG : Group} {HL : GroupLaws}.

Lemma width_cases : kWidth = 8 \/ kWidth = 16.
Proof using HL. apply group_width. Qed.

(** The number of elements a capacity holds. *)
Definition growth_of (cap : Z) : Z := if (kWidth =? 8) && (cap =? 7) then 6 else cap - cap / 8.

Lemma CapacityToGrowth_eq cap : capacity_ok cap -> CapacityToGrowth cap = Ok (growth_of cap).
Proof using.
  intros Hc. unfold CapacityToGrowth, growth_of. rewrite IsValidCapacity_ok by done. cbn.
  destruct (_ && _); [done|]. f_equal. apply capacity_bounds in Hc. apply u64_id.
  pose proof (Z.div_le_upper_bound cap 8 cap ltac:(done)). pose proof (Z.div_pos cap 8). lia.
Qed.

(** A table that is not small keeps an empty slot at its maximal load. *)
Lemma growth_bounds cap : capacity_ok cap -> 1 <= growth_of cap <= cap /\ (is_small cap = false -> growth_of cap < cap).
Proof using HL.
  intros Hc. pose proof (capacity_bounds _ Hc) as Hb. unfold growth_of, is_small.
  pose proof (Z.div_pos cap 8 ltac:(lia) ltac:(done)).
  assert (cap / 8 <= cap - 1) by (apply Zlt_succ_le, Z.div_lt_upper_bound; lia).
  destruct ((kWidth =? 8) && (cap =? 7)) eqn:E; bools; [lia|]. split; [lia|]. intros Hs. bools.
  assert (Hge : 8 <= cap).
  { destruct Hc as (m & Hm & ->). destruct width_cases as [Hw|Hw]; rewrite Hw in *; [|lia].
    cbn [andb] in E. destruct E as [E|E]; bools; [done|].
    assert (3 < m); [|pose proof (Z.pow_le_mono_r 2 4 m); lia]. apply (Z.pow_lt_mono_r_iff 2); lia. }
  assert (0 < cap / 8) by (apply Z.div_str_pos; lia). lia.
Qed.

Lemma GrowthToLowerbound_eq g : 0 <= g < 2 ^ 59 ->
  GrowthToLowerboundCapacity g = (if (kWidth =? 8) && (g =? 7) then 8 else g + Z.quot (g - 1) 7) /\
  g <= GrowthToLowerboundCapacity g < 2 ^ 60.
Proof using.
  intros Hg. unfold GrowthToLowerboundCapacity. destruct ((kWidth =? 8) && (g =? 7)) eqn:E; bools; [lia|].
  assert (Hs : signed 64 g = g) by (unfold signed; rewrite Z.mod_small; lia). rewrite Hs.
  assert (Hq : 0 <= Z.quot (g - 1) 7 <= g).
  { destruct (decide (g = 0)) as [->|]; [by vm_compute|]. rewrite Z.quot_div_nonneg by lia.
    split; [apply Z.div_pos; lia|]. apply Z.div_le_upper_bound; lia. }
  rewrite !u64_id by (try rewrite u64_id; lia). lia.
Qed.

(** Enough room: a valid capacity above the lower bound holds [g] elements. *)
Lemma growth_enough g cap : 0 <= g < 2 ^ 59 -> capacity_ok cap -> GrowthToLowerboundCapacity g <= cap -> g <= growth_of cap.
Proof using.
  intros Hg Hc Hle. destruct (GrowthToLowerbound_eq g Hg) as [Heq _]. rewrite Heq in Hle. unfold growth_of.
  pose proof (capacity_bounds _ Hc) as Hb.
  destruct (decide (g = 0)) as [->|].
  { destruct ((kWidth =? 8) && (cap =? 7)); [done|]. assert (cap / 8 <= cap) by (apply Z.div_le_upper_bound; lia). lia. }
  rewrite Z.quot_div_nonneg in Hle by lia.
  assert (Hdm : g - 1 = 7 * ((g - 1) / 7) + (g - 1) mod 7) by (apply Z.div_mod; done).
  pose proof (Z.mod_pos_bound (g - 1) 7 ltac:(done)) as Hm7.
  assert (Hdc : cap = 8 * (cap / 8) + cap mod 8) by (by apply Z.div_mod).
  assert (Hm8 : cap mod 8 = 7 \/ cap / 8 = 0).
  { destruct Hc as (m & Hm & ->). destruct (decide (m < 3)).
    - right. assert (m = 1 \/ m = 2) as [->| ->] by lia; done.
    - left. replace m with (3 + (m - 3)) by lia. rewrite Z.pow_add_r by lia. change (2 ^ 3) with 8.
      replace (8 * 2 ^ (m - 3) - 1) with (7 + (2 ^ (m - 3) - 1) * 8) by lia. by rewrite Z_mod_plus_full. }
  destruct ((kWidth =? 8) && (cap =? 7)) eqn:E1.
  - destruct ((kWidth =? 8) && (g =? 7)) eqn:E2; bools; [lia|]. subst.
    destruct E2 as [E2|E2]; bools; [done|]. destruct (decide (7 <= g)); [|lia].
    assert (1 <= (g - 1) / 7) by (apply Z.div_le_lower_bound; lia). lia.
  - destruct ((kWidth =? 8) && (g =? 7)) eqn:E2; bools; [|lia]. subst.
    assert (8 <= cap) by lia. lia.
Qed.

(** The growth of a capacity asks for that capacity again. *)
Lemma growth_roundtrip cap : capacity_ok cap -> cap < 2 ^ 59 ->
  NormalizeCapacity (GrowthToLowerboundCapacity (growth_of cap)) = Ok cap.
Proof using HL.
  intros Hc Hlt. pose proof (growth_bounds cap Hc) as [Hgb _].
  destruct (GrowthToLowerbound_eq (growth_of cap) ltac:(lia)) as [Heq Hr].
  assert (Hr' : 0 <= GrowthToLowerboundCapacity (growth_of cap) < 2 ^ 60) by lia.
  destruct (NormalizeCapacity_ok _ Hr') as (m & Hm & Hn & Hle & Hmin).
  assert (Hok : capacity_ok (2 ^ m - 1)) by (by exists m).
  rewrite Hn. f_equal. assert (Hge : growth_of cap <= growth_of (2 ^ m - 1)) by (apply growth_enough; [lia|done|done]).
  destruct Hc as (k & Hk & Hcap).
  assert (Hmk : m <= k).
  { apply Hmin; [lia|]. rewrite Heq. rewrite <- Hcap. unfold growth_of in *.
    destruct ((kWidth =? 8) && (cap =? 7)) eqn:E; bools.
    - rewrite (proj2 (Z.eqb_neq 6 7)) by done. rewrite andb_false_r. change (6 <= cap). lia.
    - assert (Hdc : cap = 8 * (cap / 8) + cap mod 8) by (by apply Z.div_mod).
      pose proof (Z.mod_pos_bound cap 8 ltac:(done)).
      destruct ((kWidth =? 8) && (cap - cap / 8 =? 7)) eqn:E2; bools.
      + destruct E as [E|E]; bools; [done|]. lia.
      + rewrite Z.quot_div_nonneg by lia.
        assert ((cap - cap / 8 - 1) / 7 <= cap / 8); [|lia]. apply Zlt_succ_le, Z.div_lt_upper_bound; lia. }
  assert (Hkm : k <= m); [|by replace m with k by lia].
  destruct (decide (k <= m)); [done|]. exfalso.
  pose proof (Z.pow_le_mono_r 2 (Z.succ m) k ltac:(done) ltac:(lia)) as Hpow. rewrite Z.pow_succ_r in Hpow by lia.
  pose proof (capacity_bounds (2 ^ m - 1) Hok) as Hb.
  pose proof (growth_bounds (2 ^ m - 1) Hok) as [Hg2 _].
  unfold growth_of in Hge at 1. destruct ((kWidth =? 8) && (cap =? 7)) eqn:E; bools.
  - assert (2 ^ m <= 4) by lia. lia.
  - assert (cap / 8 <= cap / 2) by (apply Z.div_le_compat_l; lia).
    assert (cap / 8 < cap - (2 ^ m - 1)); [|lia]. apply Z.div_lt_upper_bound; lia.
Qed.
End growth_lemmas.

(** the capacities. A number is valid exactly when it is a power of two
    minus one; [NormalizeCapacity] gives the least valid one that is not below
    its argument, [CapacityToGrowth] leaves a free slot in every table that is
    not small, and the capacity asked for [growth] elements has a growth of at
    least that many; asking for the growth of a capacity gives it back. *)
Theorem capacity_growth_correct {HG : Group} {HL : GroupLaws} :
  (forall n, word 64 n -> IsValidCapacity n = true <-> exists m, 1 <= m <= 64 /\ n = 2 ^ m - 1) /\
  (forall n, 0 <= n < 2 ^ 60 -> exists cap, NormalizeCapacity n = Ok cap /\ capacity_ok cap /\ n <= cap /\
     (forall cap', capacity_ok cap' -> n <= cap' -> cap <= cap')) /\
  (forall cap, capacity_ok cap -> exists g, CapacityToGrowth cap = Ok g /\ 1 <= g <= cap /\ (is_small cap = false -> g < cap)) /\
  (forall growth, 0 <= growth < 2 ^ 58 -> exists cap g, NormalizeCapacity (GrowthToLowerboundCapacity growth) = Ok cap /\
     CapacityToGrowth cap = Ok g /\ growth <= g) /\
  (forall cap g, capacity_ok cap -> cap < 2 ^ 59 -> CapacityToGrowth cap = Ok g ->
     NormalizeCapacity (GrowthToLowerboundCapacity g) = Ok cap).
Proof.
  split; [apply IsValidCapacity_spec|]. split; [|split; [|split]].
  - intros n Hn. destruct (NormalizeCapacity_ok n Hn) as (m & Hm & He & Hle & Hmin). exists (2 ^ m - 1). split; [done|].
    split; [by exists m|]. split; [done|]. intros cap' (m' & Hm' & ->) Hle'. pose proof (Hmin m' ltac:(lia) Hle').
    pose proof (Z.pow_le_mono_r 2 m m' ltac:(done) ltac:(lia)). lia.
  - intros cap Hc. exists (growth_of cap). split; [by apply CapacityToGrowth_eq|by apply growth_bounds].
  - intros growth Hg. destruct (GrowthToLowerbound_eq growth ltac:(lia)) as [_ Hb].
    assert (Hb' : 0 <= GrowthToLowerboundCapacity growth < 2 ^ 60) by lia.
    destruct (NormalizeCapacity_ok _ Hb') as (m & Hm & He & Hle & _). assert (Hc : capacity_ok (2 ^ m - 1)) by (by exists m).
    exists (2 ^ m - 1), (growth_of (2 ^ m - 1)). split; [done|]. split; [by apply CapacityToGrowth_eq|].
    apply growth_enough; [lia|done|done].
  - intros cap g Hc Hlt Hg. rewrite (CapacityToGrowth_eq cap Hc) in Hg. injection Hg as <-. by apply growth_roundtrip.
Qed.

Lemma layout_ok {HG : Group} {HL : GroupLaws} `{Build} cap a slot_size (infoz : bool) :
  capacity_ok cap -> 0 <= a <= 32 -> 0 <= slot_size -> 0 <= sizeof_infoz < 2 ^ 32 -> cap * slot_size < 2 ^ 63 ->
  exists gen off, GenerationOffset cap infoz = Ok gen /\ SlotOffset cap (2 ^ a) infoz = Ok off /\
    ControlOffset infoz + (cap + 1 + NumClonedBytes) = gen /\ gen + NumGenerationBytes <= off /\
    off < gen + NumGenerationBytes + 2 ^ a /\ off mod 2 ^ a = 0 /\
    AllocSize cap slot_size (2 ^ a) infoz = Ok (off + cap * slot_size) /\ off + cap * slot_size < 2 ^ 64.
Proof.
  intros Hc Ha Hs Hi Hsz. pose proof (capacity_bounds cap Hc) as Hcb. pose proof (width_cases (HL := HL)) as Hw.
  assert (Hp : 1 <= 2 ^ a <= 2 ^ 32) by (split; [assert (0 < 2 ^ a) by (apply Z.pow_pos_nonneg; lia); lia|apply Z.pow_le_mono_r; lia]).
  assert (Hco : 8 <= ControlOffset infoz <= 2 ^ 32 + 8) by (unfold ControlOffset; destruct infoz; lia).
  assert (Hgb : 0 <= NumGenerationBytes <= 1) by (unfold NumGenerationBytes; destruct generations; lia).
  assert (Hcl : 7 <= NumClonedBytes <= 15) by (unfold NumClonedBytes; lia).
  set (gen := ControlOffset infoz + (cap + 1 + NumClonedBytes)).
  assert (Hgen : GenerationOffset cap infoz = Ok gen).
  { unfold GenerationOffset. rewrite (IsValidCapacity_ok cap Hc). cbn [cpp_assert]. f_equal.
    rewrite (u64_id (cap + 1)), (u64_id (cap + 1 + _)), u64_id by lia. done. }
  set (x := gen + NumGenerationBytes). assert (Hx : 0 <= x < 2 ^ 61) by (unfold x, gen; lia).
  exists gen, (2 ^ a * ((x + 2 ^ a - 1) / 2 ^ a)).
  assert (Hoff : SlotOffset cap (2 ^ a) infoz = Ok (2 ^ a * ((x + 2 ^ a - 1) / 2 ^ a))).
  { unfold SlotOffset. rewrite (IsValidCapacity_ok cap Hc), Hgen. cbn [cpp_assert rbind]. f_equal.
    rewrite (u64_id (gen + NumGenerationBytes)) by (fold x; lia). fold x. apply round_up; lia. }
  pose proof (Z.div_mod (x + 2 ^ a - 1) (2 ^ a) ltac:(lia)) as Hdm. pose proof (Z.mod_pos_bound (x + 2 ^ a - 1) (2 ^ a) ltac:(lia)).
  split; [done|]. split; [done|]. split; [done|]. split; [unfold x in *; lia|]. split; [unfold x in *; lia|].
  split; [rewrite Z.mul_comm; apply Z.mod_mul; lia|]. unfold AllocSize. rewrite Hoff. cbn [rbind].
  rewrite (u64_id (cap * slot_size)) by lia. rewrite u64_id by lia. split; [done|lia].
Qed.

(** the layout of the backing array. Behind the header and the control
    bytes with their clones and the generation, the slots start at the next
    multiple of their alignment; nothing overlaps, the size of the allocation
    is the end of the slots, and none of it wraps around. *)
Theorem layout_correct {HG : Group} {HL : GroupLaws} `{Build} cap a slot_size (infoz : bool) :
  capacity_ok cap -> 0 <= a <= 32 -> 0 <= slot_size -> 0 <= sizeof_infoz < 2 ^ 32 -> cap * slot_size < 2 ^ 63 ->
  exists gen off, GenerationOffset cap infoz = Ok gen /\ SlotOffset cap (2 ^ a) infoz = Ok off /\
    ControlOffset infoz + (cap + 1 + NumClonedBytes) = gen /\ gen + NumGenerationBytes <= off /\
    off < gen + NumGenerationBytes + 2 ^ a /\ off mod 2 ^ a = 0 /\
    AllocSize cap slot_size (2 ^ a) infoz = Ok (off + cap * slot_size) /\ off + cap * slot_size < 2 ^ 64.
Proof. apply layout_ok. Qed.

Lemma capacity_growth_correct_witness : GroupLaws (H := portable.GroupPortableImpl) /\
  NormalizeCapacity (GrowthToLowerboundCapacity (H := portable.GroupPortableImpl) 6) = Ok 7.
Proof.
  split; [exact portable_spec.GroupPortableLaws|].
  apply (proj2 (proj2 (proj2 (proj2 (capacity_growth_correct (HG := portable.GroupPortableImpl) (HL := portable_spec.GroupPortableLaws))))) 7 6);
    [by exists 3|done|by vm_compute].
Defined.

Lemma layout_correct_witness : let b := {| sizeof_infoz := 8; generations := true; ndebug := false |} in
  exists off, SlotOffset (H := portable.GroupPortableImpl) (H0 := b) 15 (2 ^ 3) false = Ok off /\ off mod 2 ^ 3 = 0.
Proof.
  intros b. destruct (layout_correct (HG := portable.GroupPortableImpl) (HL := portable_spec.GroupPortableLaws) (H := b) 15 3 16 false)
    as (gen & off & _ & Ho & _ & _ & _ & Hm & _); [by exists 4|done|done|done|done|]. exists off. split; [exact Ho|exact Hm].
Defined.
