(* ===== verification/Probe.v ===== *)
(** * Probe: the probe sequence (src/abseil-cpp/absl/container/internal/raw_hash_set.h)

    [probe_seq] steps through the positions [hash + kWidth * i (i + 1) / 2]
    modulo the capacity plus one. When the table is a whole number of groups
    the sequence visits every group exactly once before it repeats; when it
    is smaller than a group, the first group already shows the whole table. *)

From S2P Require Import Prelude.
From S2P Require Import Word.
From S2P Require Import BitMask.
From S2P Require Import Group.
From S2P Require Import Capacity.

Record probe_seq := { mask_ : Z; offset_ : Z; index_ : Z }.

(** [PerTableSalt] reads the address of the control bytes. *)
Definition PerTableSalt (ctrl : Z) : Z := ctrl >> 12.
Definition H1 (hash ctrl : Z) : Z := (hash >> 7) ^^ PerTableSalt ctrl.

Section probe.
Context `{Group}.

Definition new_probe_seq (hash mask : Z) : result probe_seq :=
  cpp_assert (Z.land (mask +64 1) mask =? 0) (Ok {| mask_ := mask; offset_ := Z.land hash mask; index_ := 0 |}).

Definition seq_offset (seq : probe_seq) (i : Z) : Z := Z.land (offset_ seq +64 i) (mask_ seq).

Definition next (seq : probe_seq) : probe_seq :=
  let index := index_ seq +64 kWidth in
  {| mask_ := mask_ seq; offset_ := Z.land (offset_ seq +64 index) (mask_ seq); index_ := index |}.

Definition probe (ctrl capacity hash : Z) : result probe_seq := new_probe_seq (H1 hash ctrl) capacity.
End probe.

(** ** The positions visited *)

(** The triangular numbers. *)
Definition triangle (n : Z) : Z := n * (n + 1) / 2.

Lemma triangle_double n : 2 * triangle n = n * (n + 1).
Proof.
  unfold triangle. assert (Hm : (n * (n + 1)) mod 2 = 0).
  { rewrite Zmult_mod. destruct (Z.mod_pos_bound n 2 ltac:(done)) as [H0 H1].
    assert (n mod 2 = 0 \/ n mod 2 = 1) as [Hn|Hn] by lia; rewrite Zplus_mod, Hn; reflexivity. }
  pose proof (Z.div_mod (n * (n + 1)) 2 ltac:(done)). lia.
Qed.

Lemma triangle_S n : triangle (n + 1) = triangle n + (n + 1).
Proof. pose proof (triangle_double n). pose proof (triangle_double (n + 1)). lia. Qed.

(** A power of two that divides a product with an odd factor. *)
Lemma odd_divide k x y : 0 <= k -> Z.Odd x -> (2 ^ k | x * y) -> (2 ^ k | y).
Proof.
  intros Hk [q Hx] Hd. apply (Z.gauss _ x); [done|]. apply Z.coprime_pow_l; [done|].
  unfold Z.coprime. rewrite Hx, Z.gcd_comm, Z.add_comm, Z.mul_comm, Z.gcd_comm.
  rewrite Z.gcd_add_mult_diag_r. done.
Qed.

(** The triangular numbers are distinct modulo a power of two. *)
Lemma triangle_inj k a b : 0 <= k -> 0 <= a < 2 ^ k -> 0 <= b < 2 ^ k ->
  triangle a mod 2 ^ k = triangle b mod 2 ^ k -> a = b.
Proof.
  intros Hk.
  assert (Hwlog : forall a b, 0 <= a < 2 ^ k -> 0 <= b < 2 ^ k -> a < b -> triangle a mod 2 ^ k <> triangle b mod 2 ^ k).
  { clear -Hk. intros a b Ha Hb Hab Heq.
    assert (Hdiv : (2 ^ k | triangle b - triangle a)).
    { apply Z.mod_divide; [lia|]. rewrite Zminus_mod, Heq, Z.sub_diag. apply Z.mod_0_l. lia. }
    destruct Hdiv as [c Hc]. pose proof (triangle_double a) as H2a. pose proof (triangle_double b) as H2b.
    assert (Hprod : (b - a) * (a + b + 1) = c * 2 ^ Z.succ k) by (rewrite Z.pow_succ_r by lia; nia).
    assert (Hp : 2 ^ Z.succ k = 2 * 2 ^ k) by (by apply Z.pow_succ_r).
    destruct (Z.Even_or_Odd (b - a)) as [[x Hx]|Hodd].
    - assert (Ho : Z.Odd (a + b + 1)) by (exists (x + a); lia).
      pose proof (odd_divide (Z.succ k) (a + b + 1) (b - a) ltac:(lia) Ho) as Hd.
      destruct Hd as [d Hd]; [exists c; lia|]. assert (d <= 0) by nia. nia.
    - pose proof (odd_divide (Z.succ k) (b - a) (a + b + 1) ltac:(lia) Hodd) as Hd.
      destruct Hd as [d Hd]; [exists c; lia|]. assert (d <= 0) by nia. nia. }
  intros Ha Hb Heq. destruct (Z.lt_trichotomy a b) as [Hlt|[->|Hlt]]; [|done|].
  - by destruct (Hwlog a b Ha Hb Hlt).
  - by destruct (Hwlog b a Hb Ha Hlt).
Qed.

(** An injective function from a range into itself reaches everything. *)
Lemma injective_surjective (n : Z) (f : Z -> Z) :
  (forall a, 0 <= a < n -> 0 <= f a < n) ->
  (forall a b, 0 <= a < n -> 0 <= b < n -> f a = f b -> a = b) ->
  f <$> seqZ 0 n ≡ₚ seqZ 0 n.
Proof.
  intros Hr Hinj. apply submseteq_length_Permutation; [|by rewrite length_fmap].
  apply NoDup_submseteq.
  - apply NoDup_fmap_2_strong; [|apply NoDup_seqZ].
    intros a b Ha%elem_of_seqZ Hb%elem_of_seqZ. apply Hinj; lia.
  - intros x (a & -> & Ha%elem_of_seqZ)%list_elem_of_fmap. apply elem_of_seqZ. specialize (Hr a). lia.
Qed.

(** So the triangular numbers reach every residue exactly once. *)
Lemma triangle_perm k : 0 <= k -> (fun i => triangle i mod 2 ^ k) <$> seqZ 0 (2 ^ k) ≡ₚ seqZ 0 (2 ^ k).
Proof.
  intros Hk. assert (0 < 2 ^ k) by (apply Z.pow_pos_nonneg; lia). apply injective_surjective.
  - intros a _. by apply Z.mod_pos_bound.
  - intros a b Ha Hb. by apply triangle_inj.
Qed.

Section sequence.
Context {HG : Group} {HL : GroupLaws}.

(** The table has [2 ^ m] control positions, [m] at most [max_bits]. *)
Context (m : Z) (Hm : 0 <= m <= max_bits).

Notation cap := (2 ^ m - 1).

Lemma cap_range : 1 <= 2 ^ m <= 2 ^ 60.
Proof using Hm. split; [|unfold max_bits in Hm; apply Z.pow_le_mono_r; lia]. assert (0 < 2 ^ m) by (apply Z.pow_pos_nonneg; lia). lia. Qed.

Lemma new_probe_seq_eq hash : 0 <= hash ->
  new_probe_seq hash cap = Ok {| mask_ := cap; offset_ := hash mod 2 ^ m; index_ := 0 |}.
Proof using Hm.
  intros Hh. unfold new_probe_seq. pose proof cap_range. rewrite u64_id by lia.
  rewrite !land_capacity by lia. by rewrite Z.sub_add, Z_mod_same_full.
Qed.

(** The state after [n] steps. *)
Definition seq_at (hash n : Z) : probe_seq :=
  {| mask_ := cap; offset_ := (hash + kWidth * triangle n) mod 2 ^ m; index_ := kWidth * n |}.

Lemma seq_at_0 hash : seq_at hash 0 = {| mask_ := cap; offset_ := hash mod 2 ^ m; index_ := 0 |}.
Proof using. unfold seq_at. f_equal; [|lia]. f_equal. change (triangle 0) with 0. lia. Qed.

Lemma next_seq_at hash n : 0 <= n -> kWidth * (n + 1) < 2 ^ 63 -> next (seq_at hash n) = seq_at hash (n + 1).
Proof using HL Hm.
  intros Hn Hlt. unfold next, seq_at. cbn [mask_ offset_ index_]. pose proof cap_range.
  destruct width_cases as [Hw|Hw].
  all: rewrite !(u64_id (kWidth * n + kWidth)) by lia.
  all: pose proof (Z.mod_pos_bound (hash + kWidth * triangle n) (2 ^ m) ltac:(lia)).
  all: rewrite land_capacity by lia; rewrite u64_id by lia; rewrite Zplus_mod_idemp_l, triangle_S.
  all: f_equal; [f_equal|]; lia.
Qed.

Lemma seq_offset_eq hash n i : 0 <= i < kWidth -> seq_offset (seq_at hash n) i = (hash + kWidth * triangle n + i) mod 2 ^ m.
Proof using HL Hm.
  intros Hi. unfold seq_offset, seq_at. cbn [mask_ offset_]. pose proof cap_range.
  pose proof (Z.mod_pos_bound (hash + kWidth * triangle n) (2 ^ m) ltac:(lia)).
  assert (kWidth <= 16) by (destruct width_cases; lia).
  rewrite land_capacity, u64_id by lia. by rewrite Zplus_mod_idemp_l.
Qed.

Lemma width_pow : exists w, 3 <= w <= 4 /\ kWidth = 2 ^ w.
Proof using HL. destruct width_cases as [Hw|Hw]; rewrite Hw; [by exists 3|by exists 4]. Qed.

(** The number of groups of a table that is not small. *)
Definition groups : Z := 2 ^ m / kWidth.

Lemma groups_pow : is_small cap = false -> exists k, 0 <= k <= m /\ groups = 2 ^ k /\ 2 ^ m = kWidth * groups.
Proof using HL Hm.
  unfold is_small, groups. intros Hs. bools. destruct width_pow as (w & Hw & Hk). rewrite Hk in *.
  assert (Hwm : w <= m) by (apply (Z.pow_le_mono_r_iff 2); lia).
  exists (m - w). split; [lia|]. rewrite <- Z.pow_sub_r by lia. split; [done|].
  rewrite <- Z.pow_add_r by lia. f_equal. lia.
Qed.

(** The window of a position: which of the groups that start at [hash] it
    falls in. *)
Definition window (hash pos : Z) : Z := (pos - hash) mod 2 ^ m / kWidth.

(** Every position is in one of the windows visited. *)
Lemma probe_reaches hash pos : is_small cap = false ->
  exists n, 0 <= n < groups /\ window hash (offset_ (seq_at hash n)) = window hash pos.
Proof using HL Hm.
  intros Hs. destruct (groups_pow Hs) as (k & Hk & Hg & Hmk). assert (Hw : 0 < kWidth) by (destruct width_cases; lia).
  assert (Hin : window hash pos ∈ seqZ 0 groups).
  { apply elem_of_seqZ. unfold window. pose proof cap_range.
    pose proof (Z.mod_pos_bound (pos - hash) (2 ^ m) ltac:(lia)). split; [apply Z.div_pos; lia|].
    apply Z.div_lt_upper_bound; lia. }
  assert (Hperm : fmap (M := list) (fun n => triangle n mod groups) (seqZ 0 groups) ≡ₚ seqZ 0 groups) by (rewrite Hg; apply triangle_perm; lia).
  rewrite <- Hperm in Hin. apply list_elem_of_fmap in Hin as (n & Hn & Hin%elem_of_seqZ). exists n. split; [lia|].
  rewrite Hn. unfold window, seq_at. cbn [offset_]. rewrite Zminus_mod_idemp_l.
  replace (hash + kWidth * triangle n - hash) with (kWidth * triangle n) by lia. rewrite Hmk.
  rewrite Z.mul_mod_distr_l by lia. rewrite Z.mul_comm. apply Z.div_mul. lia.
Qed.

(** The states of the loop [seq.next()]. *)
Lemma iter_next hash n : is_small cap = false -> Z.of_nat n < groups -> Nat.iter n next (seq_at hash 0) = seq_at hash (Z.of_nat n).
Proof using HL Hm.
  intros Hs. destruct (groups_pow Hs) as (k & Hk & Hg & Hmk). pose proof cap_range. assert (Hw : 0 < kWidth) by (destruct width_cases; lia).
  induction n as [|n IH]; intros Hn; [done|]. rewrite Nat.iter_succ, IH by lia. rewrite next_seq_at by nia. f_equal. lia.
Qed.

(** the probe sequence visits every group exactly once. When the table
    is not small, the offsets of the first [groups] states of the loop, counted
    in groups from the first one, are a permutation of all the groups; each is
    a multiple of the width away from the first, and the index the loops check
    never passes the capacity. *)
Theorem probe_visits_every_group ctrl hash : is_small cap = false -> 0 <= ctrl -> 0 <= hash ->
  exists s, probe ctrl cap hash = Ok s /\
    (fun n => (offset_ (Nat.iter n next s) - offset_ s) mod 2 ^ m / kWidth) <$> List.seq 0 (Z.to_nat groups) ≡ₚ seqZ 0 groups /\
    (forall n, Z.of_nat n < groups -> let s' := Nat.iter n next s in
       0 <= offset_ s' <= cap /\ ((offset_ s' - offset_ s) mod 2 ^ m) mod kWidth = 0 /\ index_ s' = kWidth * Z.of_nat n /\ index_ s' <= cap).
Proof using HL Hm.
  intros Hs Hc Hh. set (h := H1 hash ctrl). assert (Hh0 : 0 <= h).
  { unfold h, H1, PerTableSalt. apply Z.lxor_nonneg. split; intros _; by apply Z.shiftr_nonneg. }
  exists (seq_at h 0). unfold probe. fold h. rewrite new_probe_seq_eq by done. split; [by rewrite seq_at_0|].
  destruct (groups_pow Hs) as (k & Hk & Hg & Hmk). assert (Hw : 0 < kWidth) by (destruct width_cases; lia). pose proof cap_range.
  assert (Hg0 : 0 < groups) by (rewrite Hg; apply Z.pow_pos_nonneg; lia).
  assert (Hoff : forall n, Z.of_nat n < groups -> (offset_ (Nat.iter n next (seq_at h 0)) - offset_ (seq_at h 0)) mod 2 ^ m =
    kWidth * (triangle (Z.of_nat n) mod groups)).
  { intros n Hn. rewrite iter_next by done. unfold seq_at. cbn [offset_]. rewrite <- Zminus_mod.
    change (triangle 0) with 0. rewrite Z.mul_0_r, Z.add_0_r. replace (h + kWidth * triangle (Z.of_nat n) - h) with (kWidth * triangle (Z.of_nat n)) by lia.
    rewrite Hmk. apply Z.mul_mod_distr_l; lia. }
  split.
  - assert (Heq : (fun n => (offset_ (Nat.iter n next (seq_at h 0)) - offset_ (seq_at h 0)) mod 2 ^ m / kWidth) <$> List.seq 0 (Z.to_nat groups) =
      (fun n => triangle n mod groups) <$> seqZ 0 groups).
    { unfold seqZ. rewrite <- list_fmap_compose. apply list_fmap_ext. intros i n Hi. apply lookup_seq in Hi as [-> Hi]. unfold compose.
      rewrite Hoff by lia. rewrite Z.mul_comm, Z.div_mul by lia. f_equal. f_equal. lia. }
    rewrite Heq, Hg. apply triangle_perm. lia.
  - intros n Hn. cbv zeta. rewrite Hoff by done. rewrite iter_next by done. unfold seq_at. cbn [offset_ index_].
    pose proof (Z.mod_pos_bound (h + kWidth * triangle (Z.of_nat n)) (2 ^ m) ltac:(lia)). split; [lia|].
    split; [rewrite Z.mul_comm; apply Z.mod_mul; lia|]. split; [done|nia].
Qed.
End sequence.

Lemma probe_visits_every_group_witness : is_small (H := portable.GroupPortableImpl) (2 ^ 5 - 1) = false /\
  exists s, probe 65536 (2 ^ 5 - 1) 1234567 = Ok s.
Proof.
  split; [done|].
  destruct (probe_visits_every_group (HG := portable.GroupPortableImpl) (HL := portable_spec.GroupPortableLaws) 5 ltac:(by vm_compute) 65536 1234567)
    as (s & Hs & _); [done|done|done|]. exists s. exact Hs.
Defined.
