(* ===== verification/Table.v ===== *)
(** * Table: the hash table (src/abseil-cpp/absl/container/internal/raw_hash_set.h and .cc)

    [common_fields] is the state of a [raw_hash_set]: the address and the
    bytes of the control array, the slots ([None] is raw memory; the null
    pointer of a table without an allocation is the empty list), capacity,
    packed size, and the growth left that is stored in front of the control
    bytes; [generation_info] is the state of the iterator checks that
    sanitizer builds add. [World] threads what lies outside of the table:
    the counter behind [RandomSeed] and the calls of the allocator and of the
    sampler. The policy of the set is a class: the key of an element, its hash
    and the equality of keys. Assertions are checked; statistics
    ([infoz().Record...]), prefetching and memory poisoning are not modelled.

    The proofs start in CellsInv.v; the theorems are in TableSpec.v. *)

From S2P Require Import Prelude.
From S2P Require Import Word.
From S2P Require Import BitMask.
From S2P Require Import Group.
From S2P Require Import Capacity.
From S2P Require Import Probe.

(** ** Parameters *)

(** [Policy], [Hash] and [Eq]. *)
Class SetPolicy (K V : Type) := {
  policy_key : V -> K;
  hasher : K -> Z;
  key_equal : K -> K -> bool;
  sizeof_slot : Z;
  alignof_slot : Z
}.

(** The memory: the address that the [n]-th allocation returns, the answer of
    the sampler, the addresses of [kEmptyGroup + 16] and of the seed counter,
    and [absl::HashOf] of a seed. *)
Class Memory := {
  Allocate : nat -> Z -> Z -> Z;
  Sampled : nat -> bool;
  std_allocator : bool;
  EmptyGroup : Z;
  counter_address : Z;
  HashOf : Z -> Z
}.

Record World := { seed_counter : Z; allocations : nat; samples : nat }.

(** ** State *)

Record generation_info := { reserved_growth_ : Z; reservation_size_ : Z; generation_ : Z }.

Record common_fields (V : Type) := {
  control_ : Z; ctrl : list Z; slots_ : list (option V);
  capacity_ : Z; size_ : Z; growth_left_ : Z; gen_ : generation_info
}.
Arguments control_ {V}.
Arguments ctrl {V}.
Arguments slots_ {V}.
Arguments capacity_ {V}.
Arguments size_ {V}.
Arguments growth_left_ {V}.
Arguments gen_ {V}.
Arguments Build_common_fields {V}.

Record FindInfo := { offset : Z; probe_length : Z }.

(** The value of [*p = x] for [p] a pointer into an array. *)
Definition set_at {A} (l : list A) (i : Z) (x : A) : result (list A) :=
  if (0 <=? i) && (i <? Z.of_nat (length l)) then Ok (<[Z.to_nat i := x]> l) else Err Undefined.

(** Reading an element: the slot has to be constructed. *)
Definition element {V} (slots : list (option V)) (i : Z) : result V :=
  let* o := at_index slots i in deref o.

(** ** Generations *)

Definition kReservedGrowthJustRanOut : Z := u64 (-1).

Section generations.
Context `{Group} `{Build} `{Memory}.

Definition RandomSeed (w : World) : Z * World :=
  let value := seed_counter w +64 1 in
  (value ^^ counter_address,
   {| seed_counter := value; allocations := allocations w; samples := samples w |}).

(** A random element of an array of zeros. *)
Definition EmptyGeneration (w : World) : Z * World :=
  if generations then let '(_, w) := RandomSeed w in (SentinelEmptyGeneration, w) else (SentinelEmptyGeneration, w).

(** The first component: whether the reserved growth ran out or a random
    probe falls in front of [RehashProbabilityConstant()]. *)
Definition RehashProbabilityConstant : Z := 16.

Definition should_rehash_for_bug_detection_on_insert (g : generation_info) (control capacity : Z) (w : World) :
    result (bool * World) :=
  if negb generations then Ok (false, w)
  else if reserved_growth_ g =? kReservedGrowthJustRanOut then Ok (true, w)
  else if 0 <? reserved_growth_ g then Ok (false, w)
  else
    let '(seed, w) := RandomSeed w in
    let* seq := probe control capacity (HashOf seed) in
    Ok (offset_ seq <? RehashProbabilityConstant, w).

Definition maybe_increment_generation_on_insert (g : generation_info) : generation_info :=
  if negb generations then g
  else
    let r := if reserved_growth_ g =? kReservedGrowthJustRanOut then 0 else reserved_growth_ g in
    if 0 <? r then
      let r := r -64 1 in
      {| reserved_growth_ := if r =? 0 then kReservedGrowthJustRanOut else r;
         reservation_size_ := reservation_size_ g; generation_ := generation_ g |}
    else {| reserved_growth_ := r; reservation_size_ := reservation_size_ g;
            generation_ := NextGeneration (generation_ g) |}.

Definition set_reserved_growth (g : generation_info) (r : Z) : generation_info :=
  if negb generations then g
  else {| reserved_growth_ := r; reservation_size_ := reservation_size_ g; generation_ := generation_ g |}.

Definition set_reservation_size (g : generation_info) (r : Z) : generation_info :=
  if negb generations then g
  else {| reserved_growth_ := reserved_growth_ g; reservation_size_ := r; generation_ := generation_ g |}.

Definition reservation_size (g : generation_info) : Z := if negb generations then 0 else reservation_size_ g.

Definition generation (g : generation_info) : Z := if negb generations then 0 else generation_ g.

Definition set_generation (g : generation_info) (v : Z) : generation_info :=
  if negb generations then g
  else {| reserved_growth_ := reserved_growth_ g; reservation_size_ := reservation_size_ g; generation_ := v |}.

Definition reset_reserved_growth (g : generation_info) (reservation size : Z) : generation_info :=
  set_reserved_growth g (reservation -64 size).

(** ** CommonFields *)

Section common.
Context {V : Type}.

Notation common := (common_fields V).

Definition with_ctrl (c : common) (l : list Z) : common :=
  {| control_ := control_ c; ctrl := l; slots_ := slots_ c; capacity_ := capacity_ c; size_ := size_ c;
     growth_left_ := growth_left_ c; gen_ := gen_ c |}.
Definition with_slots (c : common) (s : list (option V)) : common :=
  {| control_ := control_ c; ctrl := ctrl c; slots_ := s; capacity_ := capacity_ c; size_ := size_ c;
     growth_left_ := growth_left_ c; gen_ := gen_ c |}.
Definition with_gen (c : common) (g : generation_info) : common :=
  {| control_ := control_ c; ctrl := ctrl c; slots_ := slots_ c; capacity_ := capacity_ c; size_ := size_ c;
     growth_left_ := growth_left_ c; gen_ := g |}.
Definition with_size (c : common) (z : Z) : common :=
  {| control_ := control_ c; ctrl := ctrl c; slots_ := slots_ c; capacity_ := capacity_ c; size_ := z;
     growth_left_ := growth_left_ c; gen_ := gen_ c |}.

(** [kEmptyGroup + 16]: a sentinel followed by empty bytes. *)
Definition empty_ctrl : list Z := kSentinel :: replicate 15 kEmpty.

Definition CommonFields_ctor (w : World) : common * World :=
  let '(g, w) := EmptyGeneration w in
  ({| control_ := EmptyGroup; ctrl := empty_ctrl; slots_ := []; capacity_ := 0; size_ := 0; growth_left_ := 0;
      gen_ := {| reserved_growth_ := 0; reservation_size_ := 0; generation_ := g |} |}, w).

Definition HasInfozShift : Z := 1.
Definition HasInfozMask : Z := (1 <<64 HasInfozShift) -64 1.

Definition size (c : common) : Z := size_ c >> HasInfozShift.
Definition set_size (c : common) (s : Z) : common :=
  with_size c (Z.lor (s <<64 HasInfozShift) (Z.land (size_ c) HasInfozMask)).
Definition has_infoz (c : common) : bool := negb (Z.land (size_ c) HasInfozMask =? 0).
Definition set_has_infoz (c : common) (b : bool) : common :=
  with_size c (Z.lor (size c <<64 HasInfozShift) (if b then 1 else 0)).

Definition increment_size (c : common) : result common :=
  cpp_assert (size c <? capacity_ c) (Ok (with_size c (size_ c +64 (1 <<64 HasInfozShift)))).
Definition decrement_size (c : common) : result common :=
  cpp_assert (0 <? size c) (Ok (with_size c (size_ c -64 (1 <<64 HasInfozShift)))).

Definition set_capacity (c : common) (n : Z) : result common :=
  cpp_assert ((n =? 0) || IsValidCapacity n)
    (Ok {| control_ := control_ c; ctrl := ctrl c; slots_ := slots_ c; capacity_ := n; size_ := size_ c;
           growth_left_ := growth_left_ c; gen_ := gen_ c |}).

Definition set_growth_left (c : common) (gl : Z) : common :=
  {| control_ := control_ c; ctrl := ctrl c; slots_ := slots_ c; capacity_ := capacity_ c; size_ := size_ c;
     growth_left_ := gl; gen_ := gen_ c |}.

(** The number of deleted control bytes. *)
Definition TombstonesCount (c : common) : Z :=
  Z.of_nat (length (filter (fun x => IsDeleted x = true) (take (Z.to_nat (capacity_ c)) (ctrl c)))).

(** ** Control bytes *)

(** [Group{ctrl + offset}]. *)
Definition group_at (c : common) (pos : Z) : result (list Z) := load_bytes (Z.to_nat kWidth) (ctrl c) pos.

Definition ShouldInsertBackwards (hash control : Z) (w : World) : bool * World :=
  let '(seed, w) := RandomSeed w in (6 <? (H1 hash control ^^ seed) mod 13, w).

Fixpoint find_first_non_full_loop (fuel : nat) (c : common) (hash : Z) (seq : probe_seq) (w : World) :
    result (FindInfo * World) :=
  match fuel with
  | O => Err OutOfFuel
  | S fuel =>
      let* g := group_at c (offset_ seq) in
      let mask := MaskEmptyOrDeleted g in
      if mask_bool mask then
        let '(backwards, w) :=
          if negb ndebug && negb (is_small (capacity_ c)) then ShouldInsertBackwards hash (control_ c) w else (false, w) in
        let* i := if backwards then HighestBitSet mask else LowestBitSet mask in
        Ok ({| offset := seq_offset seq i; probe_length := index_ seq |}, w)
      else
        let seq := next seq in
        cpp_assert (index_ seq <=? capacity_ c) (find_first_non_full_loop fuel c hash seq w)
  end.

Definition find_first_non_full (c : common) (hash : Z) (w : World) : result (FindInfo * World) :=
  let* seq := probe (control_ c) (capacity_ c) hash in
  find_first_non_full_loop (S (Z.to_nat (capacity_ c))) c hash seq w.

Definition ResetGrowthLeft (c : common) : result common :=
  let* growth := CapacityToGrowth (capacity_ c) in Ok (set_growth_left c (growth -64 size c)).

Definition ResetCtrl (c : common) : result common :=
  let* l := set_at (replicate (Z.to_nat (capacity_ c + 1 + NumClonedBytes)) kEmpty) (capacity_ c) kSentinel in
  ResetGrowthLeft (with_ctrl c l).

(** [slots_] is not read by this function. *)
Definition SetCtrl (c : common) (i h : Z) : result common :=
  cpp_assert (i <? capacity_ c)
    (let* l := set_at (ctrl c) i h in
     let* l := set_at l (Z.land (i -64 NumClonedBytes) (capacity_ c) +64 Z.land NumClonedBytes (capacity_ c)) h in
     Ok (with_ctrl c l)).

(** The loop over the groups of the array; the bytes behind the last group
    are not touched. *)
Fixpoint convert_groups (fuel : nat) (l : list Z) (pos capacity : Z) : result (list Z) :=
  match fuel with
  | O => Err OutOfFuel
  | S fuel =>
      if pos <? capacity then
        let* g := load_bytes (Z.to_nat kWidth) l pos in
        let* l := store_bytes l pos (ConvertSpecialToEmptyAndFullToDeleted g) in
        convert_groups fuel l (pos + kWidth) capacity
      else Ok l
  end.

Definition ConvertDeletedToEmptyAndFullToDeleted (l : list Z) (capacity : Z) : result (list Z) :=
  let* s := at_index l capacity in
  cpp_assert (s =? kSentinel) (cpp_assert (IsValidCapacity capacity)
    (let* l := convert_groups (S (Z.to_nat capacity)) l 0 capacity in
     let* head := load_bytes (Z.to_nat NumClonedBytes) l 0 in
     let* l := store_bytes l (capacity + 1) head in
     set_at l capacity kSentinel)).

Definition EraseMetaOnly (c : common) (index : Z) : result common :=
  let* it := at_index (ctrl c) index in
  cpp_assert (IsFull it)
    (let* c := decrement_size c in
     let index_before := Z.land (index -64 kWidth) (capacity_ c) in
     let* g_after := group_at c index in
     let empty_after := MaskEmpty g_after in
     let* g_before := group_at c index_before in
     let empty_before := MaskEmpty g_before in
     let* was_never_full :=
       if mask_bool empty_before && mask_bool empty_after then
         let* a := mask_TrailingZeros empty_after in
         let* b := LeadingZeros empty_before in
         Ok (a +64 b <? kWidth)
       else Ok false in
     let* c := SetCtrl c index (if was_never_full then kEmpty else kDeleted) in
     Ok (set_growth_left c (growth_left_ c +64 (if was_never_full then 1 else 0)))).

(** The deallocation leaves a table without a backing array. *)
Definition ClearBackingArray (c : common) (reuse : bool) (w : World) : result (common * World) :=
  let c := set_size c 0 in
  if reuse then let* c := ResetCtrl c in Ok (c, w)
  else
    let '(g, w) := EmptyGeneration w in
    Ok ({| control_ := EmptyGroup; ctrl := empty_ctrl; slots_ := []; capacity_ := 0; size_ := size_ c;
           growth_left_ := 0; gen_ := set_generation (gen_ c) g |}, w).
End common.
End generations.

(** ** raw_hash_set *)

Section set.
Context {K V : Type} `{Group} `{Build} `{Memory} `{SetPolicy K V}.

Notation common := (common_fields V).

(** The slots of a new array are raw memory. The handle of the sampler is
    kept when the table had an array before. *)
Definition InitializeSlots (c : common) (w : World) : result (common * World) :=
  cpp_assert (negb (capacity_ c =? 0))
    (let fresh := std_allocator && match slots_ c with [] => true | _ => false end in
     let sample_size := if fresh then sizeof_slot else 0 in
     let '(sampled, w) :=
       if 0 <? sample_size
       then (Sampled (samples w),
             {| seed_counter := seed_counter w; allocations := allocations w; samples := S (samples w) |})
       else (has_infoz c, w) in
     let cap := capacity_ c in
     let* alloc_size := AllocSize cap sizeof_slot alignof_slot sampled in
     let mem := Allocate (allocations w) (BackingArrayAlignment alignof_slot) alloc_size in
     let w := {| seed_counter := seed_counter w; allocations := S (allocations w); samples := samples w |} in
     let old_generation := generation (gen_ c) in
     let c := {| control_ := u64 (mem + ControlOffset sampled); ctrl := ctrl c;
                 slots_ := replicate (Z.to_nat cap) None; capacity_ := cap; size_ := size_ c;
                 growth_left_ := growth_left_ c; gen_ := set_generation (gen_ c) (NextGeneration old_generation) |} in
     let* c := ResetCtrl c in
     Ok (set_has_infoz c sampled, w)).

(** [PolicyTraits::transfer(dst, src)] between arrays: moves the element out
    of [src]; into raw memory. *)
Definition transfer (dst : list (option V)) (i : Z) (v : V) : result (list (option V)) := set_at dst i (Some v).

(** One slot of the old array moved to the new one. *)
Definition resize_step (old_ctrl : list Z) (old_slots : list (option V)) (s : common * World) (i : Z) :
    result (common * World) :=
  let '(c, w) := s in
  let* x := at_index old_ctrl i in
  if IsFull x then
    let* v := element old_slots i in
    let hash := hasher (policy_key v) in
    let* r := find_first_non_full c hash w in
    let '(target, w) := r in
    let new_i := offset target in
    let* c := SetCtrl c new_i (H2 hash) in
    let* slots := transfer (slots_ c) new_i v in
    Ok (with_slots c slots, w)
  else Ok (c, w).

Definition resize (c : common) (new_capacity : Z) (w : World) : result (common * World) :=
  cpp_assert (IsValidCapacity new_capacity)
    (let old_ctrl := ctrl c in
     let old_slots := slots_ c in
     let old_capacity := capacity_ c in
     let* c := set_capacity c new_capacity in
     let* r := InitializeSlots c w in
     foldM (resize_step old_ctrl old_slots) r (seqZ 0 old_capacity)).

(** The loop of [DropDeletesWithoutResize]: a swap stays at the same slot. *)
Fixpoint drop_deletes_loop (fuel : nat) (c : common) (i : Z) (w : World) : result (common * World) :=
  match fuel with
  | O => Err OutOfFuel
  | S fuel =>
      let capacity := capacity_ c in
      if i =? capacity then Ok (c, w) else
      let* x := at_index (ctrl c) i in
      if negb (IsDeleted x) then drop_deletes_loop fuel c (i + 1) w else
      let* v := element (slots_ c) i in
      let hash := hasher (policy_key v) in
      let* r := find_first_non_full c hash w in
      let '(target, w) := r in
      let new_i := offset target in
      let* seq := probe (control_ c) capacity hash in
      let probe_offset := offset_ seq in
      let probe_index pos := Z.land (pos -64 probe_offset) capacity / kWidth in
      if probe_index new_i =? probe_index i then
        let* c := SetCtrl c i (H2 hash) in
        drop_deletes_loop fuel c (i + 1) w
      else
        let* y := at_index (ctrl c) new_i in
        if IsEmpty y then
          let* c := SetCtrl c new_i (H2 hash) in
          let* slots := transfer (slots_ c) new_i v in
          let* slots := set_at slots i None in
          let* c := SetCtrl (with_slots c slots) i kEmpty in
          drop_deletes_loop fuel c (i + 1) w
        else
          cpp_assert (IsDeleted y)
            (let* c := SetCtrl c new_i (H2 hash) in
             let* tmp_space := element (slots_ c) new_i in
             let* slots := transfer (slots_ c) new_i v in
             let* slots := transfer slots i tmp_space in
             drop_deletes_loop fuel (with_slots c slots) i w)
  end.

Definition DropDeletesWithoutResize (c : common) (w : World) : result (common * World) :=
  let capacity := capacity_ c in
  cpp_assert (IsValidCapacity capacity) (cpp_assert (negb (is_small capacity))
    (let* l := ConvertDeletedToEmptyAndFullToDeleted (ctrl c) capacity in
     let* r := drop_deletes_loop (S (2 * Z.to_nat capacity)) (with_ctrl c l) 0 w in
     let '(c, w) := r in
     let* c := ResetGrowthLeft c in Ok (c, w))).

Definition rehash_and_grow_if_necessary (c : common) (w : World) : result (common * World) :=
  let cap := capacity_ c in
  if (kWidth <? cap) && (size c *64 32 <=? cap *64 25) then DropDeletesWithoutResize c w
  else let* n := NextCapacity cap in resize c n w.

(** [for (uint32_t i : g.Match(H2(hash)))]: the first slot of the group whose
    key is the one looked for. *)
Fixpoint match_loop (c : common) (key : K) (seq : probe_seq) (l : list Z) : result (option Z) :=
  match l with
  | [] => Ok None
  | i :: l =>
      let* v := element (slots_ c) (seq_offset seq i) in
      if key_equal (policy_key v) key then Ok (Some (seq_offset seq i)) else match_loop c key seq l
  end.

Fixpoint find_loop (fuel : nat) (c : common) (key : K) (hash : Z) (seq : probe_seq) : result (option Z) :=
  match fuel with
  | O => Err OutOfFuel
  | S fuel =>
      let* g := group_at c (offset_ seq) in
      let* idxs := mask_indices (Match g (H2 hash)) in
      let* r := match_loop c key seq idxs in
      match r with
      | Some i => Ok (Some i)
      | None =>
          if mask_bool (MaskEmpty g) then Ok None
          else
            let seq := next seq in
            cpp_assert (index_ seq <=? capacity_ c) (find_loop fuel c key hash seq)
      end
  end.

(** [find]: the index of the element, [None] for [end()]. *)
Definition find (c : common) (key : K) : result (option Z) :=
  let hash := hasher key in
  let* seq := probe (control_ c) (capacity_ c) hash in
  find_loop (S (Z.to_nat (capacity_ c))) c key hash seq.

Definition prepare_insert (c : common) (hash : Z) (w : World) : result (Z * common * World) :=
  let* r := should_rehash_for_bug_detection_on_insert (gen_ c) (control_ c) (capacity_ c) w in
  let '(rehash_for_bug_detection, w) := r in
  let* r :=
    if rehash_for_bug_detection then
      let cap := capacity_ c in
      let* n := if 0 <? growth_left_ c then Ok cap else NextCapacity cap in
      resize c n w
    else Ok (c, w) in
  let '(c, w) := r in
  let* r := find_first_non_full c hash w in
  let '(target, w) := r in
  let* x := at_index (ctrl c) (offset target) in
  let* r :=
    if negb rehash_for_bug_detection && ((growth_left_ c =? 0) && negb (IsDeleted x)) then
      let* r := rehash_and_grow_if_necessary c w in
      let '(c, w) := r in
      let* r := find_first_non_full c hash w in
      let '(target, w) := r in Ok (target, c, w)
    else Ok (target, c, w) in
  let '(target, c, w) := r in
  let* c := increment_size c in
  let* x := at_index (ctrl c) (offset target) in
  let c := set_growth_left c (growth_left_ c -64 (if IsEmpty x then 1 else 0)) in
  let* c := SetCtrl c (offset target) (H2 hash) in
  let c := with_gen c (maybe_increment_generation_on_insert (gen_ c)) in
  Ok (offset target, c, w).

Definition find_or_prepare_insert (c : common) (key : K) (w : World) : result (Z * bool * common * World) :=
  let* r := find c key in
  match r with
  | Some i => Ok (i, false, c, w)
  | None =>
      let* r := prepare_insert c (hasher key) w in
      let '(i, c, w) := r in Ok (i, true, c, w)
  end.

(** The assertion looks the new element up again. *)
Definition emplace_at (c : common) (i : Z) (v : V) : result common :=
  let* slots := set_at (slots_ c) i (Some v) in
  let c := with_slots c slots in
  let* v := element (slots_ c) i in
  let* r := find c (policy_key v) in
  cpp_assert (match r with Some j => j =? i | None => false end) (Ok c).

(** [EmplaceDecomposable]: the element, and whether it was inserted. *)
Definition emplace (c : common) (v : V) (w : World) : result (Z * bool * common * World) :=
  let* r := find_or_prepare_insert c (policy_key v) w in
  let '(i, inserted, c, w) := r in
  if inserted then let* c := emplace_at c i v in Ok (i, true, c, w) else Ok (i, false, c, w).

(** [InsertSlot]: the same for an element that is already in a slot. *)
Definition InsertSlot (c : common) (v : V) (w : World) : result (Z * bool * common * World) :=
  let* r := find_or_prepare_insert c (policy_key v) w in
  let '(i, inserted, c, w) := r in
  if inserted then let* slots := transfer (slots_ c) i v in Ok (i, true, with_slots c slots, w)
  else Ok (i, false, c, w).

Definition insert (c : common) (value : V) (w : World) : result (Z * bool * common * World) := emplace c value w.

Fixpoint insert_range (c : common) (l : list V) (w : World) : result (common * World) :=
  match l with
  | [] => Ok (c, w)
  | v :: l =>
      let* r := emplace c v w in
      let '(_, _, c, w) := r in insert_range c l w
  end.

(** [erase(iterator)]: destroys the element and clears its control byte. *)
Definition erase_at (c : common) (i : Z) : result common :=
  let* x := at_index (ctrl c) i in
  cpp_assert (IsFull x)
    (let* _ := element (slots_ c) i in
     let* slots := set_at (slots_ c) i None in
     EraseMetaOnly (with_slots c slots) i).

Definition erase (c : common) (key : K) : result (Z * common) :=
  let* it := find c key in
  match it with
  | None => Ok (0, c)
  | Some i => let* c := erase_at c i in Ok (1, c)
  end.

Definition contains (c : common) (key : K) : result bool :=
  let* it := find c key in Ok (match it with Some _ => true | None => false end).
Definition count (c : common) (key : K) : result Z :=
  let* it := find c key in Ok (match it with Some _ => 1 | None => 0 end).

(** [destroy_slots]: the elements of the full slots are destroyed. *)
Definition destroy_slots (c : common) : result common :=
  foldM (fun c i =>
    let* x := at_index (ctrl c) i in
    if IsFull x then
      let* _ := element (slots_ c) i in
      let* slots := set_at (slots_ c) i None in Ok (with_slots c slots)
    else Ok c) c (seqZ 0 (capacity_ c)).

Definition clear (c : common) (w : World) : result (common * World) :=
  let cap := capacity_ c in
  let* r :=
    if cap =? 0 then Ok (c, w)
    else let* c := destroy_slots c in ClearBackingArray c (cap <? 128) w in
  let '(c, w) := r in
  Ok (with_gen c (set_reservation_size (set_reserved_growth (gen_ c) 0) 0), w).

Definition rehash (c : common) (n : Z) (w : World) : result (common * World) :=
  if (n =? 0) && (capacity_ c =? 0) then Ok (c, w)
  else if (n =? 0) && (size c =? 0) then ClearBackingArray c false w
  else
    let* m := NormalizeCapacity (Z.lor n (GrowthToLowerboundCapacity (size c))) in
    if (n =? 0) || (capacity_ c <? m) then resize c m w else Ok (c, w).

Definition reserve (c : common) (n : Z) (w : World) : result (common * World) :=
  let* r :=
    if size c +64 growth_left_ c <? n then
      let m := GrowthToLowerboundCapacity n in
      let* m := NormalizeCapacity m in
      resize c m w
    else Ok (c, w) in
  let '(c, w) := r in
  Ok (with_gen c (set_reservation_size (reset_reserved_growth (gen_ c) n (size c)) n), w).

(** ** Iteration *)

(** [skip_empty_or_deleted] from the control byte at [i]; [None] is [end()]. *)
Fixpoint skip_empty_or_deleted (fuel : nat) (c : common) (i : Z) : result (option Z) :=
  match fuel with
  | O => Err OutOfFuel
  | S fuel =>
      let* x := at_index (ctrl c) i in
      if IsEmptyOrDeleted x then
        let* g := group_at c i in
        let* shift := CountLeadingEmptyOrDeleted g in
        skip_empty_or_deleted fuel c (i + shift)
      else if x =? kSentinel then Ok None else Ok (Some i)
  end.

Definition begin (c : common) : result (option Z) := skip_empty_or_deleted (S (length (ctrl c))) c 0.

(** [operator++]: the control byte has to be full. *)
Definition iterator_next (c : common) (i : Z) : result (option Z) :=
  let* x := at_index (ctrl c) i in
  cpp_assert (IsFull x) (skip_empty_or_deleted (S (length (ctrl c))) c (i + 1)).

(** The elements of a range [for] over the table. *)
Fixpoint iterate (fuel : nat) (c : common) (it : option Z) : result (list V) :=
  match fuel with
  | O => Err OutOfFuel
  | S fuel =>
      match it with
      | None => Ok []
      | Some i =>
          let* x := at_index (ctrl c) i in
          cpp_assert (IsFull x)
            (let* v := element (slots_ c) i in
             let* it := iterator_next c i in
             let* rest := iterate fuel c it in Ok (v :: rest))
      end
  end.

Definition elements (c : common) : result (list V) :=
  let* it := begin c in iterate (S (Z.to_nat (capacity_ c))) c it.

(** [raw_hash_set(bucket_count)]. *)
Definition raw_hash_set_ctor (bucket_count : Z) (w : World) : result (common * World) :=
  let '(c, w) := CommonFields_ctor w in
  if negb (bucket_count =? 0) then
    let* n := NormalizeCapacity bucket_count in
    let* c := set_capacity c n in
    InitializeSlots c w
  else Ok (c, w).

(** The constructor from a range of known length. *)
Definition raw_hash_set_range (l : list V) (bucket_count : Z) (w : World) : result (common * World) :=
  let* r := raw_hash_set_ctor (SelectBucketCountForIterRange (Some (Z.of_nat (length l))) bucket_count) w in
  let '(c, w) := r in insert_range c l w.

(** The copy constructor. *)
Definition copy_step (s : common * World) (v : V) : result (common * World) :=
  let '(c, w) := s in
  let hash := hasher (policy_key v) in
  let* r := find_first_non_full c hash w in
  let '(target, w) := r in
  let* c := SetCtrl c (offset target) (H2 hash) in
  let* c := emplace_at c (offset target) v in
  Ok (with_gen c (maybe_increment_generation_on_insert (gen_ c)), w).

Definition raw_hash_set_copy (that : common) (w : World) : result (common * World) :=
  let* r := raw_hash_set_ctor 0 w in
  let '(c, w) := r in
  let n := size that in
  if n =? 0 then Ok (c, w)
  else
    let* r := reserve c n w in
    let* l := elements that in
    let* r := foldM copy_step r l in
    let '(c, w) := r in
    let c := set_size c n in
    Ok (set_growth_left c (growth_left_ c -64 n), w).

(** The move constructor of [CommonFields]: the new fields, and those that
    are left behind. *)
Definition CommonFields_move (that : common) (w : World) : common * common * World :=
  let '(c, w) := CommonFields_ctor w in (that, c, w).

(** [absl::exchange(obj, CommonFields{})]: the old fields, and the new ones
    of [obj]. *)
Definition exchange_CommonFields (obj : common) (w : World) : common * common * World :=
  let '(new_value, w) := CommonFields_ctor w in
  let '(old_value, _, w) := CommonFields_move obj w in (old_value, new_value, w).

(** The move constructor: the new table, and the one moved from. The result
    of [exchange] is moved into [settings_]. *)
Definition raw_hash_set_move (that : common) (w : World) : common * common * World :=
  let '(old_value, that, w) := exchange_CommonFields that w in
  let '(c, _, w) := CommonFields_move old_value w in (c, that, w).

(** [std::swap] of the fields: through a temporary. *)
Definition swap (a b : common) (w : World) : common * common * World :=
  let '(tmp, _, w) := CommonFields_move a w in (b, tmp, w).

(** The copy assignment; the temporary takes the old table along. *)
Definition copy_assign (this that : common) (w : World) : result (common * World) :=
  let* r := raw_hash_set_copy that w in
  let '(tmp, w) := r in
  let '(this, _, w) := swap this tmp w in Ok (this, w).

(** [move_assign]: the table assigned to, and the one moved from. *)
Definition move_assign (this that : common) (w : World) : common * common * World :=
  let '(tmp, that, w) := raw_hash_set_move that w in
  let '(this, _, w) := swap this tmp w in (this, that, w).

(** [erase(first, last)]; the iterator returned comes second. *)
Fixpoint erase_loop (fuel : nat) (c : common) (first last : option Z) : result common :=
  match fuel with
  | O => Err OutOfFuel
  | S fuel =>
      if decide (first = last) then Ok c
      else
        let* i := deref first in
        let* next := iterator_next c i in
        let* c := erase_at c i in erase_loop fuel c next last
  end.

Definition erase_range (c : common) (first last : option Z) (w : World) : result (common * option Z * World) :=
  if size c =? 0 then Ok (c, None, w)
  else
    let* b := begin c in
    if bool_decide (first = b) && bool_decide (last = None) then
      let* c := destroy_slots c in
      let* r := ClearBackingArray c true w in
      let '(c, w) := r in
      Ok (with_gen c (set_reserved_growth (gen_ c) (reservation_size (gen_ c))), None, w)
    else let* c := erase_loop (S (Z.to_nat (capacity_ c))) c first last in Ok (c, last, w).

(** [extract]: the element is moved into the node handle. *)
Definition extract_at (c : common) (i : Z) : result (V * common) :=
  let* x := at_index (ctrl c) i in
  cpp_assert (IsFull x)
    (let* v := element (slots_ c) i in
     let* slots := set_at (slots_ c) i None in
     let* c := EraseMetaOnly (with_slots c slots) i in Ok (v, c)).

Definition extract (c : common) (key : K) : result (option V * common) :=
  let* it := find c key in
  match it with
  | None => Ok (None, c)
  | Some i => let* r := extract_at c i in let '(v, c) := r in Ok (Some v, c)
  end.

(** [insert(node)]: what is left in the handle comes third. *)
Definition insert_node (c : common) (node : option V) (w : World) :
    result (option Z * bool * option V * common * World) :=
  match node with
  | None => Ok (None, false, None, c, w)
  | Some v =>
      let* r := InsertSlot c v w in
      let '(i, inserted, c, w) := r in
      if inserted then Ok (Some i, true, None, c, w) else Ok (Some i, false, Some v, c, w)
  end.

(** [lazy_emplace(key, f)], where [f] constructs [v]. *)
Definition lazy_emplace (c : common) (key : K) (v : V) (w : World) : result (Z * common * World) :=
  let* r := find_or_prepare_insert c key w in
  let '(i, inserted, c, w) := r in
  if inserted then let* slots := set_at (slots_ c) i (Some v) in Ok (i, with_slots c slots, w)
  else Ok (i, c, w).

Definition equal_range (c : common) (key : K) : result (option Z * option Z) :=
  let* it := find c key in
  match it with
  | None => Ok (None, None)
  | Some i => let* next := iterator_next c i in Ok (Some i, next)
  end.

(** [merge]: moves what is not in [c] out of [src]. *)
Fixpoint merge_loop (fuel : nat) (c src : common) (it : option Z) (w : World) : result (common * common * World) :=
  match fuel with
  | O => Err OutOfFuel
  | S fuel =>
      match it with
      | None => Ok (c, src, w)
      | Some i =>
          let* next := iterator_next src i in
          let* v := element (slots_ src) i in
          let* r := InsertSlot c v w in
          let '(_, inserted, c, w) := r in
          let* src :=
            if inserted then
              let* slots := set_at (slots_ src) i None in EraseMetaOnly (with_slots src slots) i
            else Ok src in
          merge_loop fuel c src next w
      end
  end.

Definition merge (c src : common) (w : World) : result (common * common * World) :=
  let* it := begin src in merge_loop (S (Z.to_nat (capacity_ src))) c src it w.

(** [EraseIf]: the number of elements erased. *)
Fixpoint EraseIf_loop (fuel : nat) (pred : V -> bool) (c : common) (it : option Z) : result common :=
  match fuel with
  | O => Err OutOfFuel
  | S fuel =>
      match it with
      | None => Ok c
      | Some i =>
          let* v := element (slots_ c) i in
          let* next := iterator_next c i in
          let* c := if pred v then erase_at c i else Ok c in
          EraseIf_loop fuel pred c next
      end
  end.

Definition EraseIf (pred : V -> bool) (c : common) : result (Z * common) :=
  let initial_size := size c in
  let* it := begin c in
  let* c := EraseIf_loop (S (Z.to_nat (capacity_ c))) pred c it in
  Ok (initial_size -64 size c, c).

(** [operator==]: the elements of the smaller array looked up in the other. *)
Fixpoint all_found (value_equal : V -> V -> bool) (inner : common) (l : list V) : result bool :=
  match l with
  | [] => Ok true
  | elem :: l =>
      let* it := find inner (policy_key elem) in
      match it with
      | None => Ok false
      | Some i =>
          let* v := element (slots_ inner) i in
          if value_equal v elem then all_found value_equal inner l else Ok false
      end
  end.

Definition table_eq (value_equal : V -> V -> bool) (a b : common) : result bool :=
  if negb (size a =? size b) then Ok false
  else
    let '(outer, inner) := if capacity_ b <? capacity_ a then (b, a) else (a, b) in
    let* l := elements outer in all_found value_equal inner l.
End set.
