(* ===== verification/CellsInv.v ===== *)
(** * CellsInv: the control array as cells (lemmas for Table.v)

    The control array of a table of capacity [2 ^ m - 1] is determined by the
    bytes of its slots, the cells: they are followed by the sentinel and by
    their first [NumClonedBytes] again ([mirror]). [reach P cells h i] says
    that the probe sequence of [h] comes to the group of [i] without passing
    a group that contains a byte satisfying [P]. *)

From S2P Require Import Prelude.
From S2P Require Import Word.
From S2P Require Import BitMask.
From S2P Require Import Group.
From S2P Require Import Capacity.
From S2P Require Import Probe.
From S2P Require Import Table.

(** The byte of a slot. *)
Definition cell_ok (x : Z) : Prop := x = kEmpty \/ x = kDeleted \/ 0 <= x < 128.

Definition non_full (x : Z) : Prop := x = kEmpty \/ x = kDeleted.

Lemma cell_ctrl x : cell_ok x -> ctrl_ok x.
Proof. unfold cell_ok, ctrl_ok. tauto. Qed.

Lemma cell_cases x : cell_ok x ->
  (x = kEmpty /\ IsEmpty x = true /\ IsDeleted x = false /\ IsFull x = false /\ IsEmptyOrDeleted x = true) \/
  (x = kDeleted /\ IsEmpty x = false /\ IsDeleted x = true /\ IsFull x = false /\ IsEmptyOrDeleted x = true) \/
  (0 <= x < 128 /\ IsEmpty x = false /\ IsDeleted x = false /\ IsFull x = true /\ IsEmptyOrDeleted x = false).
Proof.
  intros [->|[->|Hx]]; [by left|by right; left|right; right]. split; [done|].
  unfold IsEmpty, IsDeleted, IsFull, IsEmptyOrDeleted, kEmpty, kDeleted, kSentinel.
  repeat split; try apply Z.eqb_neq; try apply Z.leb_le; try apply Z.ltb_ge; lia.
Qed.

Lemma IsEmptyOrDeleted_spec x : ctrl_ok x -> IsEmptyOrDeleted x = true <-> non_full x.
Proof.
  unfold IsEmptyOrDeleted, non_full, ctrl_ok, kEmpty, kDeleted, kSentinel. intros Hx. rewrite Z.ltb_lt. lia.
Qed.

Lemma IsEmpty_spec x : IsEmpty x = true <-> x = kEmpty.
Proof. apply Z.eqb_eq. Qed.

Lemma lookup_S_cons {A} (x : A) l n : (x :: l) !! S n = l !! n.
Proof. reflexivity. Qed.

Section cells.
Context {HG : Group} {HL : GroupLaws} (m : Z) (Hm : 0 <= m <= max_bits).

Notation N := (2 ^ m).
Notation cap := (2 ^ m - 1).
Notation off h n := (offset_ (seq_at m h n)).

Definition mirror (c : list Z) : list Z :=
  c ++ kSentinel :: take (Z.to_nat NumClonedBytes) (c ++ replicate (Z.to_nat NumClonedBytes) kEmpty).

(** The group that starts at a position. *)
Definition group (c : list Z) (p : Z) : list Z := take (Z.to_nat kWidth) (drop (Z.to_nat p) (mirror c)).

(** The cells and the sentinel, in a circle. *)
Definition cyc (c : list Z) : list Z := c ++ [kSentinel].

Definition clear (P : Z -> bool) (c : list Z) (p : Z) : Prop := forall b, b ∈ group c p -> P b = false.

Definition reach (P : Z -> bool) (c : list Z) (h i : Z) : Prop :=
  exists n, 0 <= n < Z.max 1 (groups m) /\ (i - off h n) mod N < kWidth /\
    forall n', 0 <= n' < n -> clear P c (off h n').

Lemma N_range : 1 <= N <= 2 ^ 60.
Proof using Hm. by apply cap_range. Qed.

Lemma small_spec : is_small cap = true -> 2 * N <= kWidth.
Proof using HL Hm.
  unfold is_small. intros Hs. bools. destruct width_pow as (w & Hw & Hk). rewrite Hk in *.
  assert (Hlt : m < w) by (apply (Z.pow_lt_mono_r_iff 2); lia).
  rewrite <- Z.pow_succ_r by lia. apply Z.pow_le_mono_r; lia.
Qed.

Lemma not_small_spec : is_small cap = false -> kWidth <= N.
Proof using. unfold is_small. intros Hs. bools. lia. Qed.

Ltac widths :=
  pose proof N_range; pose proof (width_cases (HL := HL)); assert (0 < kWidth <= 16) by lia;
  unfold NumClonedBytes in *.

Section fixed.
Context (c : list Z) (Hlen : Z.of_nat (length c) = cap).

Lemma mirror_length : Z.of_nat (length (mirror c)) = N + kWidth - 1.
Proof using HL Hlen Hm.
  widths. unfold mirror. rewrite length_app. cbn [length]. rewrite length_take, length_app, length_replicate.
  unfold NumClonedBytes. lia.
Qed.

Lemma mirror_lookup q : 0 <= q < N + kWidth - 1 -> mirror c !! Z.to_nat q =
  if q <? cap then c !! Z.to_nat q
  else if q =? cap then Some kSentinel
  else if q - N <? cap then c !! Z.to_nat (q - N) else Some kEmpty.
Proof using HL Hlen Hm.
  intros Hq. widths. unfold mirror. destruct (q <? cap) eqn:E1; bools; [by rewrite lookup_app_l by lia|].
  rewrite lookup_app_r by lia. destruct (q =? cap) eqn:E2; bools.
  - by replace (Z.to_nat q - length c)%nat with O by lia.
  - replace (Z.to_nat q - length c)%nat with (S (Z.to_nat (q - N))) by lia. rewrite lookup_S_cons.
    rewrite lookup_take_lt by (unfold NumClonedBytes; lia).
    destruct (q - N <? cap) eqn:E3; bools; [by rewrite lookup_app_l by lia|].
    rewrite lookup_app_r by lia. apply lookup_replicate_2. unfold NumClonedBytes. lia.
Qed.

Lemma group_lookup p r : 0 <= p < N -> 0 <= r < kWidth -> group c p !! Z.to_nat r = mirror c !! Z.to_nat (p + r).
Proof using HL Hlen Hm.
  intros Hp Hr. widths. unfold group. rewrite lookup_take_lt by lia. rewrite lookup_drop. f_equal. lia.
Qed.

Lemma group_length p : 0 <= p < N -> Z.of_nat (length (group c p)) = kWidth.
Proof using HL Hlen Hm.
  intros Hp. widths. pose proof mirror_length. unfold group. rewrite length_take, length_drop. lia.
Qed.

Lemma elem_of_group p b : 0 <= p < N -> b ∈ group c p <-> exists r, 0 <= r < kWidth /\ mirror c !! Z.to_nat (p + r) = Some b.
Proof using HL Hlen Hm.
  intros Hp. widths. rewrite list_elem_of_lookup. split.
  - intros (i & Hi). exists (Z.of_nat i). assert (Hik : 0 <= Z.of_nat i < kWidth).
    { apply lookup_lt_Some in Hi. rewrite <- (group_length p Hp). lia. }
    split; [done|]. rewrite <- group_lookup, Nat2Z.id by done. done.
  - intros (r & Hr & Hb). exists (Z.to_nat r). by rewrite group_lookup.
Qed.

(** A byte of a group that is neither empty nor the sentinel is a cell. *)
Lemma group_cell p r b : 0 <= p < N -> 0 <= r < kWidth -> mirror c !! Z.to_nat (p + r) = Some b ->
  b <> kSentinel -> (b <> kEmpty \/ is_small cap = false \/ r < N) ->
  c !! Z.to_nat ((p + r) mod N) = Some b /\ (p + r) mod N < cap.
Proof using HL Hlen Hm.
  intros Hp Hr Hb Hs He. widths. rewrite mirror_lookup in Hb by lia.
  destruct (p + r <? cap) eqn:E1; bools; [rewrite Z.mod_small by lia; split; [done|lia]|].
  destruct (p + r =? cap) eqn:E2; bools; [congruence|].
  destruct (p + r - N <? cap) eqn:E3; bools.
  - rewrite <- (Z_mod_plus_full _ (-1)), Z.mod_small by lia.
    replace (p + r + -1 * N) with (p + r - N) by lia. split; [done|lia].
  - exfalso. injection Hb as <-. destruct He as [He|[He|He]]; [done| |lia].
    apply not_small_spec in He. lia.
Qed.

(** A cell in the window of a group is a byte of the group. *)
Lemma cell_group p j x : 0 <= p < N -> c !! Z.to_nat j = Some x -> 0 <= j < cap -> (j - p) mod N < kWidth ->
  mirror c !! Z.to_nat (p + (j - p) mod N) = Some x.
Proof using HL Hlen Hm.
  intros Hp Hx Hj Hr. widths. pose proof (Z.mod_pos_bound (j - p) N ltac:(lia)) as Hmod.
  rewrite mirror_lookup by lia. destruct (decide (p <= j)).
  - rewrite Z.mod_small in * by lia. replace (p + (j - p)) with j by lia. by rewrite (proj2 (Z.ltb_lt j cap)) by lia.
  - rewrite <- (Z_mod_plus_full _ 1), Z.mod_small in * by lia. replace (p + (j - p + 1 * N)) with (N + j) by lia.
    rewrite (proj2 (Z.ltb_ge (N + j) cap)), (proj2 (Z.eqb_neq (N + j) cap)) by lia.
    replace (N + j - N) with j by lia. by rewrite (proj2 (Z.ltb_lt j cap)) by lia.
Qed.

(** A small table has an empty byte in every group. *)
Lemma small_empty p : 0 <= p < N -> is_small cap = true -> kEmpty ∈ group c p.
Proof using HL Hlen Hm.
  intros Hp Hs. widths. apply small_spec in Hs. apply elem_of_group; [done|]. exists (kWidth - 1). split; [lia|].
  rewrite mirror_lookup by lia. rewrite (proj2 (Z.ltb_ge (p + (kWidth - 1)) cap)) by lia.
  rewrite (proj2 (Z.eqb_neq _ cap)) by lia. by rewrite (proj2 (Z.ltb_ge _ cap)) by lia.
Qed.

(** In the other tables a group is a window of the circle. *)
Lemma mirror_cyc p r : is_small cap = false -> 0 <= p < N -> 0 <= r < kWidth ->
  mirror c !! Z.to_nat (p + r) = cyc c !! Z.to_nat ((p + r) mod N).
Proof using HL Hlen Hm.
  intros Hs%not_small_spec Hp Hr. widths. rewrite mirror_lookup by lia. unfold cyc.
  destruct (p + r <? cap) eqn:E1; bools; [rewrite Z.mod_small by lia; by rewrite lookup_app_l by lia|].
  destruct (p + r =? cap) eqn:E2; bools.
  - rewrite Z.mod_small by lia. rewrite lookup_app_r by lia. by replace (Z.to_nat (p + r) - length c)%nat with O by lia.
  - rewrite (proj2 (Z.ltb_lt _ cap)) by lia. rewrite <- (Z_mod_plus_full _ (-1)), Z.mod_small by lia.
    replace (p + r + -1 * N) with (p + r - N) by lia. by rewrite lookup_app_l by lia.
Qed.

Lemma mirror_ok : Forall cell_ok c -> Forall ctrl_ok (mirror c).
Proof using HL Hlen Hm.
  intros Hc. apply Forall_lookup_2. intros q x Hq. pose proof mirror_length. pose proof (lookup_lt_Some _ _ _ Hq).
  replace q with (Z.to_nat (Z.of_nat q)) in Hq by lia. rewrite mirror_lookup in Hq by lia.
  repeat case_match; try (injection Hq as <-; unfold ctrl_ok; tauto); apply cell_ctrl; by eapply Forall_lookup_1.
Qed.

Lemma group_ok p : Forall cell_ok c -> Forall ctrl_ok (group c p).
Proof using HL Hlen Hm. intros Hc. apply Forall_take, Forall_drop. by apply mirror_ok. Qed.
End fixed.

(** ** Changing one cell *)

Lemma mirror_insert c i x : Z.of_nat (length c) = cap -> 0 <= i < cap ->
  mirror (<[Z.to_nat i := x]> c) =
  <[Z.to_nat (if is_small cap || (i <? NumClonedBytes) then N + i else i) := x]> (<[Z.to_nat i := x]> (mirror c)).
Proof using HL Hm.
  intros Hlen Hi. widths. assert (Hlen' : Z.of_nat (length (<[Z.to_nat i := x]> c)) = cap) by (by rewrite length_insert).
  pose proof (mirror_length c Hlen) as Hml. pose proof (mirror_length _ Hlen') as Hml'.
  apply list_eq_same_length with (n := Z.to_nat (N + kWidth - 1)); [rewrite !length_insert; lia|lia|].
  intros q a b Hq Ha Hb. replace q with (Z.to_nat (Z.of_nat q)) in Ha, Hb by lia. set (z := Z.of_nat q) in *.
  assert (Hz : 0 <= z < N + kWidth - 1) by (unfold z; lia). rewrite mirror_lookup in Ha by done.
  set (k := if is_small cap || (i <? kWidth - 1) then N + i else i) in *.
  assert (Hk : k = N + i \/ k = i) by (unfold k; destruct (_ || _); lia).
  destruct (decide (z = k)) as [Hzk|Hzk].
  - rewrite Hzk, list_lookup_insert_eq in Hb by (rewrite length_insert; lia). injection Hb as <-.
    destruct Hk as [Hk|Hk]; rewrite Hzk, Hk in Ha.
    + rewrite (proj2 (Z.ltb_ge _ _)), (proj2 (Z.eqb_neq _ _)) in Ha by lia. replace (N + i - N) with i in Ha by lia.
      rewrite (proj2 (Z.ltb_lt _ _)), list_lookup_insert_eq in Ha by lia. by injection Ha.
    + rewrite (proj2 (Z.ltb_lt _ _)), list_lookup_insert_eq in Ha by lia. by injection Ha.
  - rewrite list_lookup_insert_ne in Hb by lia. destruct (decide (z = i)) as [->|Hzi].
    + rewrite list_lookup_insert_eq in Hb by lia. injection Hb as <-.
      rewrite (proj2 (Z.ltb_lt _ _)), list_lookup_insert_eq in Ha by lia. by injection Ha.
    + rewrite list_lookup_insert_ne, mirror_lookup in Hb by (done || lia).
      assert (Hne : z - N = i -> cap <= z -> False).
      { intros Hz1 Hz2. unfold k in Hzk. destruct (is_small cap) eqn:Es; cbn [orb] in Hzk; [lia|].
        destruct (i <? kWidth - 1) eqn:Ei; bools; lia. }
      destruct (z <? cap) eqn:E1; bools; [rewrite list_lookup_insert_ne in Ha by lia; congruence|].
      destruct (z =? cap) eqn:E2; bools; [congruence|].
      destruct (z - N <? cap) eqn:E3; bools; [|congruence].
      rewrite list_lookup_insert_ne in Ha by lia. congruence.
Qed.

Lemma group_insert c i x p b : Z.of_nat (length c) = cap -> 0 <= i < cap -> 0 <= p < N ->
  b ∈ group (<[Z.to_nat i := x]> c) p -> b ∈ group c p \/ (b = x /\ (i - p) mod N < kWidth).
Proof using HL Hm.
  intros Hlen Hi Hp. widths. assert (Hlen' : Z.of_nat (length (<[Z.to_nat i := x]> c)) = cap) by (by rewrite length_insert).
  rewrite (elem_of_group _ Hlen') by done. intros (r & Hr & Hb).
  pose proof (mirror_length c Hlen). rewrite mirror_insert in Hb by done.
  set (k := if is_small cap || (i <? NumClonedBytes) then N + i else i) in *.
  assert (Hk : k = N + i \/ k = i) by (unfold k; destruct (_ || _); lia).
  assert (Hwin : p + r = k \/ p + r = i -> (i - p) mod N < kWidth).
  { intros Hpr. assert (i - p = r \/ i - p = r + (-1) * N) as [->| ->] by lia; rewrite ?Z_mod_plus_full.
    - pose proof (Z.mod_le r N). lia.
    - pose proof (Z.mod_le r N). lia. }
  apply list_lookup_insert_Some in Hb. destruct Hb as [(Hq & Hx & _)|(Hq & Hb)].
  { right. split; [done|]. apply Hwin. lia. }
  apply list_lookup_insert_Some in Hb. destruct Hb as [(Hq' & Hx & _)|(Hq' & Hb)].
  { right. split; [done|]. apply Hwin. lia. }
  left. apply elem_of_group; [done|done|]. by exists r.
Qed.

(** ** Reaching a cell *)

Lemma off_range h n : 0 <= off h n < N.
Proof using Hm. pose proof N_range. cbn. apply Z.mod_pos_bound. lia. Qed.

Lemma reach_weaken (P Q : Z -> bool) c h i : Z.of_nat (length c) = cap -> Forall cell_ok c ->
  (forall b, ctrl_ok b -> P b = false -> Q b = false) -> reach P c h i -> reach Q c h i.
Proof using HL Hm.
  intros Hlen Hok HPQ (n & Hn & Hi & Hclear). exists n. split; [done|]. split; [done|].
  intros n' Hn' b Hb. apply HPQ; [|by eapply Hclear].
  pose proof (group_ok c Hlen (off h n') Hok) as Hg. rewrite Forall_forall in Hg. by apply Hg.
Qed.

(** A byte that does not satisfy [P] blocks nothing. *)
Lemma reach_insert P c h i j x : Z.of_nat (length c) = cap -> 0 <= j < cap -> P x = false ->
  reach P c h i -> reach P (<[Z.to_nat j := x]> c) h i.
Proof using HL Hm.
  intros Hlen Hj Hx (n & Hn & Hi & Hclear). exists n. split; [done|]. split; [done|].
  intros n' Hn' b Hb. apply group_insert in Hb; [|done|done|apply off_range].
  destruct Hb as [Hb|[-> _]]; [by eapply Hclear|done].
Qed.

Lemma small_reach P c h i : is_small cap = true -> reach P c h i.
Proof using HL Hm.
  intros Hs. widths. apply small_spec in Hs. exists 0. split; [lia|]. split.
  - pose proof (Z.mod_pos_bound (i - off h 0) N ltac:(lia)). lia.
  - intros n' Hn'. lia.
Qed.

(** Cells in the same window are reached together. *)
Lemma window_iff h n i : is_small cap = false -> 0 <= h ->
  (i - off h n) mod N < kWidth <-> window m h i = triangle n mod groups m.
Proof using HL Hm.
  intros Hs Hh. widths. destruct (groups_pow m Hm Hs) as (k & Hk & Hg & Hmk).
  assert (Hg0 : 0 < groups m) by (rewrite Hg; apply Z.pow_pos_nonneg; lia).
  unfold window, seq_at. cbn [offset_]. rewrite Zminus_mod_idemp_r.
  replace (i - (h + kWidth * triangle n)) with (i - h - kWidth * triangle n) by lia.
  rewrite <- (Zminus_mod_idemp_l (i - h)).
  pose proof (Z.mod_pos_bound (i - h) N ltac:(lia)) as Hd. set (d := (i - h) mod N) in *.
  assert (Hdm : d = kWidth * (d / kWidth) + d mod kWidth) by (apply Z.div_mod; lia).
  assert (Hdr : 0 <= d mod kWidth < kWidth) by (apply Z.mod_pos_bound; lia).
  assert (Hq : 0 <= d / kWidth < groups m) by (split; [apply Z.div_pos; lia|apply Z.div_lt_upper_bound; lia]).
  set (q := d / kWidth) in *. set (T := triangle n) in *.
  assert (Heq : (d - kWidth * T) mod N = kWidth * ((q - T) mod groups m) + d mod kWidth).
  { rewrite Hdm at 1. replace (kWidth * q + d mod kWidth - kWidth * T) with (kWidth * (q - T) + d mod kWidth) by lia.
    assert (Hqt : q - T = groups m * ((q - T) / groups m) + (q - T) mod groups m) by (apply Z.div_mod; lia). pose proof (Z.mod_pos_bound (q - T) (groups m) Hg0).
    rewrite Hqt at 1. rewrite Hmk.
    replace (kWidth * (groups m * ((q - T) / groups m) + (q - T) mod groups m) + d mod kWidth)
      with ((kWidth * ((q - T) mod groups m) + d mod kWidth) + ((q - T) / groups m) * (kWidth * groups m)) by ring.
    rewrite Z_mod_plus_full. apply Z.mod_small. split; [nia|]. rewrite <- Hmk. nia. }
  rewrite Heq. pose proof (Z.mod_pos_bound (q - T) (groups m) Hg0) as Hqt. split.
  - intros Hlt. assert (Hz : (q - T) mod groups m = 0) by nia.
    rewrite <- (Z.mod_small q (groups m)) by done. apply Z.mod_divide in Hz as [z Hz]; [|lia].
    replace q with (T + z * groups m) by lia. apply Z_mod_plus_full.
  - intros HqT. assert (Hz : (q - T) mod groups m = 0).
    { rewrite Zminus_mod, <- HqT. rewrite (Z.mod_small q) by done. rewrite Z.sub_diag. apply Z.mod_0_l. lia. }
    rewrite Hz. lia.
Qed.

(** Marking a full cell as empty, when it never was in a group without an
    empty byte, breaks no probe sequence. *)
Lemma reach_erase c h i j tz lz : Z.of_nat (length c) = cap -> is_small cap = false -> 0 <= i < cap ->
  0 <= tz < kWidth -> group c i !! Z.to_nat tz = Some kEmpty ->
  0 <= lz < kWidth -> group c ((i - kWidth) mod N) !! Z.to_nat (kWidth - 1 - lz) = Some kEmpty ->
  tz + lz < kWidth ->
  reach IsEmpty c h j -> reach IsEmpty (<[Z.to_nat i := kEmpty]> c) h j.
Proof using HL Hm.
  intros Hlen Hs Hi Htz Hafter Hlz Hbefore Hsum (n & Hn & Hj & Hclear). widths.
  pose proof (not_small_spec Hs) as HkN.
  pose proof (Z.mod_pos_bound (i - kWidth) N ltac:(lia)) as Hb0.
  rewrite group_lookup, mirror_cyc in Hafter by (done || lia).
  rewrite group_lookup, mirror_cyc in Hbefore by (done || lia). rewrite Zplus_mod_idemp_l in Hbefore.
  replace (i - kWidth + (kWidth - 1 - lz)) with (i - 1 - lz) in Hbefore by lia.
  exists n. split; [done|]. split; [done|]. intros n' Hn' b Hb. specialize (Hclear n' Hn').
  pose proof (off_range h n') as Hp. set (p := off h n') in *.
  apply group_insert in Hb; [|done|done|done]. destruct Hb as [Hb|[_ Hwin]]; [by apply Hclear|]. exfalso.
  pose proof (Z.mod_pos_bound (i - p) N ltac:(lia)) as Hsb. set (s := (i - p) mod N) in *.
  assert (Hips : exists z, i = p + s + z * N).
  { exists ((i - p) / N). pose proof (Z.div_mod (i - p) N ltac:(lia)). unfold s. lia. }
  destruct Hips as [z Hz].
  assert (Hempty : forall a, 0 <= a < kWidth -> cyc c !! Z.to_nat ((p + a) mod N) = Some kEmpty -> False).
  { intros a Ha Hcyc. rewrite <- mirror_cyc in Hcyc by done.
    assert (Hin : kEmpty ∈ group c p) by (apply elem_of_group; [done|done|by exists a]).
    specialize (Hclear kEmpty Hin). done. }
  destruct (decide (s + tz < kWidth)).
  - apply (Hempty (s + tz)); [lia|]. rewrite <- Hafter. f_equal. f_equal.
    replace (i + tz) with (p + (s + tz) + z * N) by lia. by rewrite Z_mod_plus_full.
  - apply (Hempty (s - 1 - lz)); [lia|]. rewrite <- Hbefore. f_equal. f_equal.
    replace (i - 1 - lz) with (p + (s - 1 - lz) + z * N) by lia. by rewrite Z_mod_plus_full.
Qed.
End cells.

(** * probing a table (lemmas for Table.v)

    [view m t c]: the control array of [t] shows the cells [c]. The lemmas
    say what reading and writing control bytes does to the cells, where
    [find_first_non_full] stops, and that it always does. *)

Lemma at_index_lookup {A} (l : list A) i a : 0 <= i -> l !! Z.to_nat i = Some a -> at_index l i = Ok a.
Proof. intros Hi Ha. unfold at_index. rewrite (proj2 (Z.leb_le 0 i)) by done. by rewrite Ha. Qed.

Lemma set_at_ok {A} (l : list A) i a : 0 <= i < Z.of_nat (length l) -> set_at l i a = Ok (<[Z.to_nat i := a]> l).
Proof.
  intros Hi. unfold set_at. by rewrite (proj2 (Z.leb_le 0 i)), (proj2 (Z.ltb_lt i _)) by lia.
Qed.

(** The first position of a set, and the positions below it. *)
Lemma first_true (p : Z -> bool) g : existsb id (p <$> g) = true -> exists k rest,
  p <$> g = replicate k false ++ true :: rest /\ (exists b, g !! k = Some b /\ p b = true) /\
  (forall i b, (i < k)%nat -> g !! i = Some b -> p b = false).
Proof.
  intros He. destruct (split_first (p <$> g)) as [Hf|(k & rest & Heq)].
  - exfalso. apply existsb_exists in He as (b & Hb & Hid). rewrite Hf in Hb.
    apply list_elem_of_In, elem_of_replicate in Hb as [-> _]. done.
  - exists k, rest. split; [done|]. split.
    + assert (Hk : (p <$> g) !! k = Some true)
        by (rewrite Heq, lookup_app_r by (by rewrite length_replicate); by rewrite length_replicate, Nat.sub_diag).
      rewrite list_lookup_fmap in Hk. destruct (g !! k) as [b|]; [|done]. exists b. split; [done|]. by injection Hk.
    + intros i b Hi Hb. assert (Hbi : (p <$> g) !! i = Some false)
        by (rewrite Heq, lookup_app_l by (by rewrite length_replicate); by apply lookup_replicate_2).
      rewrite list_lookup_fmap, Hb in Hbi. by injection Hbi.
Qed.

Lemma last_true (p : Z -> bool) g : existsb id (p <$> g) = true -> exists k rest,
  p <$> g = rest ++ true :: replicate k false /\ exists b, g !! length rest = Some b /\ p b = true.
Proof.
  intros He. destruct (split_last (p <$> g)) as [Hf|(k & rest & Heq)].
  - exfalso. apply existsb_exists in He as (b & Hb & Hid). rewrite Hf in Hb.
    apply list_elem_of_In, elem_of_replicate in Hb as [-> _]. done.
  - exists k, rest. split; [done|].
    assert (Hk : (p <$> g) !! length rest = Some true) by (rewrite Heq, lookup_app_r by done; by rewrite Nat.sub_diag).
    rewrite list_lookup_fmap in Hk. destruct (g !! length rest) as [b|]; [|done]. exists b. split; [done|]. by injection Hk.
Qed.

Lemma existsb_fmap (p : Z -> bool) g : existsb id (p <$> g) = true <-> exists b, b ∈ g /\ p b = true.
Proof.
  rewrite existsb_exists. split.
  - intros (x & Hx & Hid). apply list_elem_of_In, list_elem_of_fmap in Hx as (b & -> & Hb). by exists b.
  - intros (b & Hb & Hp). exists true. split; [|done]. apply list_elem_of_In, list_elem_of_fmap. by exists b.
Qed.

Section view.
Context {V : Type} {HG : Group} {HL : GroupLaws} {HB : Build} {HM : Memory}.
Context (m : Z) (Hm : 0 <= m <= max_bits).

Notation N := (2 ^ m).
Notation cap := (2 ^ m - 1).
Notation off h n := (offset_ (seq_at m h n)).

Definition view (t : common_fields V) (c : list Z) : Prop :=
  capacity_ t = cap /\ Z.of_nat (length c) = cap /\ Forall cell_ok c /\ word 64 (control_ t) /\
  ctrl t = if m =? 0 then empty_ctrl else mirror c.

(** The hash that the probe sequence of a table starts from. *)
Definition base (t : common_fields V) (hash : Z) : Z := H1 hash (control_ t).

Ltac widths :=
  pose proof (N_range m Hm); pose proof (width_cases (HL := HL)); assert (0 < kWidth <= 16) by lia;
  unfold NumClonedBytes in *.

Section reading.
Context (t : common_fields V) (c : list Z) (Hv : view t c).

Lemma view_length : Z.of_nat (length c) = cap.
Proof using Hv. apply Hv. Qed.

Lemma view_cells : Forall cell_ok c.
Proof using Hv. apply Hv. Qed.

Lemma group_at_view p : 0 <= p < N -> group_at t p = Ok (group c p).
Proof using HL Hm Hv.
  intros Hp. destruct Hv as (Hc & Hlen & Hok & _ & Hctrl). widths. unfold group_at, load_bytes. rewrite Hctrl.
  rewrite (proj2 (Z.leb_le 0 p)) by lia. destruct (m =? 0) eqn:E; bools.
  - assert (c = []) as -> by (apply nil_length_inv; rewrite E in *; cbn in Hlen; lia).
    assert (p = 0) as -> by (rewrite E in *; cbn in Hp; lia). unfold group, mirror, NumClonedBytes, empty_ctrl.
    by destruct H0 as [-> | ->].
  - pose proof (mirror_length m Hm c Hlen) as Hml. unfold group. rewrite (proj2 (Z.leb_le (p + _) _)) by lia. done.
Qed.

Lemma ctrl_cell i x : 0 <= i -> c !! Z.to_nat i = Some x -> at_index (ctrl t) i = Ok x.
Proof using HL Hm Hv.
  intros Hi Hx. destruct Hv as (Hc & Hlen & Hok & _ & Hctrl). widths. pose proof (lookup_lt_Some _ _ _ Hx).
  apply at_index_lookup; [done|]. rewrite Hctrl. destruct (m =? 0) eqn:E; bools.
  - rewrite E in *. cbn in Hlen. lia.
  - unfold mirror. by rewrite lookup_app_l by lia.
Qed.

Lemma ctrl_sentinel : at_index (ctrl t) cap = Ok kSentinel.
Proof using HL Hm Hv.
  destruct Hv as (Hc & Hlen & Hok & _ & Hctrl). widths.
  apply at_index_lookup; [lia|]. rewrite Hctrl. destruct (m =? 0) eqn:E; bools.
  - by rewrite E.
  - unfold mirror. rewrite lookup_app_r by lia. by replace (Z.to_nat cap - length c)%nat with O by lia.
Qed.

Lemma base_nonneg hash : word 64 hash -> 0 <= base t hash.
Proof using Hv.
  intros [Hh _]. destruct Hv as (_ & _ & _ & [Hc _] & _). unfold base, H1, PerTableSalt.
  apply Z.lxor_nonneg. split; intros; apply Z.shiftr_nonneg; lia.
Qed.

Lemma probe_view hash : word 64 hash -> probe (control_ t) (capacity_ t) hash = Ok (seq_at m (base t hash) 0).
Proof using Hm Hv.
  intros Hh. unfold probe. pose proof (base_nonneg hash Hh) as Hb. destruct Hv as (-> & _).
  rewrite (new_probe_seq_eq m Hm) by exact Hb. by rewrite seq_at_0.
Qed.

(** The group of the [n]-th probe, with what its masks stand for. *)
Lemma group_laws h n : let g := group c (off h n) in
  Forall ctrl_ok g /\ Z.of_nat (length g) = kWidth /\ group_at t (off h n) = Ok g.
Proof using HL Hm Hv.
  intros g. pose proof (off_range m Hm h n) as Hp. split; [|split].
  - apply (group_ok m Hm); apply Hv.
  - by apply (group_length m Hm); [apply Hv|].
  - by apply group_at_view.
Qed.
End reading.

(** Writing a control byte. *)
Lemma SetCtrl_view t c i x : view t c -> 0 <= i < cap -> cell_ok x ->
  SetCtrl t i x = Ok (with_ctrl t (mirror (<[Z.to_nat i := x]> c))) /\
  view (with_ctrl t (mirror (<[Z.to_nat i := x]> c))) (<[Z.to_nat i := x]> c).
Proof using HL Hm.
  intros Hv Hi Hx. destruct Hv as (Hc & Hlen & Hok & Hw & Hctrl). widths.
  assert (Hm0 : (m =? 0) = false) by (apply Z.eqb_neq; intros ->; cbn in Hi; lia). rewrite Hm0 in Hctrl.
  pose proof (mirror_length m Hm c Hlen) as Hml. split.
  - unfold SetCtrl. rewrite Hc, (proj2 (Z.ltb_lt i _)) by lia. cbn [cpp_assert]. rewrite Hctrl, set_at_ok by lia. cbn [rbind].
    set (k := if is_small cap || (i <? NumClonedBytes) then N + i else i).
    assert (Hk : Z.land (i -64 (kWidth - 1)) cap +64 Z.land (kWidth - 1) cap = k).
    { rewrite !land_capacity by lia. unfold u64 at 2. assert (Hdiv : 2 ^ 64 = N * 2 ^ (64 - m)).
      { unfold max_bits in Hm. rewrite <- Z.pow_add_r by lia. f_equal. lia. }
      rewrite Z.mod_mod_divide by (exists (2 ^ (64 - m)); lia).
      unfold k. destruct (is_small cap) eqn:Es; cbn [orb].
      - destruct (width_pow (HL := HL)) as (w & Hw' & Hkw). pose proof (small_spec m Hm Es) as Hsm.
        assert (Hmw : m < w) by (rewrite Hkw in Hsm; apply (Z.pow_lt_mono_r_iff 2); lia).
        assert (HkN : kWidth = 2 ^ (w - m) * N) by (rewrite Hkw, <- Z.pow_add_r by lia; f_equal; lia).
        assert (H1' : (kWidth - 1) mod N = cap).
        { replace (kWidth - 1) with (cap + (2 ^ (w - m) - 1) * N) by lia. rewrite Z_mod_plus_full. apply Z.mod_small. lia. }
        assert (H2' : (i - (kWidth - 1)) mod N = i + 1).
        { replace (i - (kWidth - 1)) with (i + 1 + (- 2 ^ (w - m)) * N) by lia. rewrite Z_mod_plus_full. apply Z.mod_small. lia. }
        rewrite H1', H2'. rewrite u64_id by lia. lia.
      - apply not_small_spec in Es. rewrite (Z.mod_small (kWidth - 1)) by lia. unfold NumClonedBytes.
        destruct (i <? kWidth - 1) eqn:Ei; bools.
        + rewrite <- (Z_mod_plus_full _ 1), Z.mod_small by lia. rewrite u64_id by lia. lia.
        + rewrite Z.mod_small by lia. rewrite u64_id by lia. lia. }
    assert (Hkl : 0 <= k < N + kWidth - 1).
    { unfold k, is_small, NumClonedBytes. destruct (cap <? kWidth - 1) eqn:Es; destruct (i <? kWidth - 1) eqn:Ei;
        bools; cbn [orb]; lia. }
    unfold NumClonedBytes. rewrite Hk, set_at_ok by (rewrite length_insert; lia).
    cbn [rbind]. rewrite (mirror_insert m Hm) by done. done.
  - split; [exact Hc|]. split; [by rewrite length_insert|]. split; [by apply Forall_insert|]. split; [exact Hw|].
    by rewrite Hm0.
Qed.

(** ** find_first_non_full *)

(** Where the search stops: at a byte that is empty or deleted, the lowest of
    its group unless the table inserts backwards. *)
Definition stops_at (c : list Z) (h : Z) (n j : Z) : Prop :=
  exists i b, 0 <= i < kWidth /\ j = (off h n + i) mod N /\ mirror c !! Z.to_nat (off h n + i) = Some b /\ non_full b /\
    ((forall i' b', 0 <= i' < i -> mirror c !! Z.to_nat (off h n + i') = Some b' -> ~ non_full b') \/ is_small cap = false).

Lemma ffnf_stop t c hash w n : view t c -> word 64 hash -> let h := base t hash in
  let mask := MaskEmptyOrDeleted (group c (off h n)) in
  mask_bool mask = true -> exists i w',
    (let '(backwards, w) :=
       if negb ndebug && negb (is_small (capacity_ t)) then ShouldInsertBackwards hash (control_ t) w else (false, w) in
     let* i := if backwards then HighestBitSet mask else LowestBitSet mask in
     Ok ({| offset := seq_offset (seq_at m h n) i; probe_length := index_ (seq_at m h n) |}, w)) =
    Ok ({| offset := (off h n + i) mod N; probe_length := kWidth * n |}, w') /\ stops_at c h n ((off h n + i) mod N).
Proof using HL Hm.
  intros Hv Hhash h mask Hmask. destruct (group_laws t c Hv h n) as (Hok & Hlen & _).
  pose proof (MaskEmptyOrDeleted_spec _ Hok Hlen) as Hmk. set (g := group c (off h n)) in *.
  pose proof (mask_bool_spec group_mask_ok _ _ Hmk) as He. fold mask in He. rewrite Hmask in He. symmetry in He.
  assert (Hread : forall k b, g !! k = Some b -> 0 <= Z.of_nat k < kWidth /\ mirror c !! Z.to_nat (off h n + Z.of_nat k) = Some b).
  { intros k b Hb. pose proof (lookup_lt_Some _ _ _ Hb). assert (Hk : 0 <= Z.of_nat k < kWidth) by lia. split; [done|].
    rewrite <- (group_lookup m Hm c (view_length t c Hv)), Nat2Z.id by (done || apply (off_range m Hm)). done. }
  assert (Hnf : forall k b, g !! k = Some b -> IsEmptyOrDeleted b = true <-> non_full b).
  { intros k b Hb. apply IsEmptyOrDeleted_spec. by eapply Forall_lookup_1 in Hok. }
  assert (Hoff : forall i, 0 <= i < kWidth -> seq_offset (seq_at m h n) i = (off h n + i) mod N).
  { intros i Hi. rewrite (seq_offset_eq m Hm) by done. unfold seq_at. cbn [offset_]. by rewrite Zplus_mod_idemp_l. }
  rewrite (proj1 Hv).
  destruct (if negb ndebug && negb (is_small cap) then _ else _) as [backwards w'] eqn:Eb.
  destruct backwards.
  - destruct (last_true _ _ He) as (k & rest & Heq & b & Hb & Hpb). rewrite Heq in Hmk.
    unfold mask. rewrite (HighestBitSet_spec group_mask_ok _ _ _ Hmk). cbn [rbind].
    destruct (Hread _ _ Hb) as [Hk Hmir]. exists (Z.of_nat (length rest)), w'. rewrite Hoff by done. split; [done|].
    exists (Z.of_nat (length rest)), b. split; [done|]. split; [done|]. split; [done|]. split; [by apply (Hnf _ _ Hb)|].
    right. destruct (is_small cap); [|done]. rewrite andb_false_r in Eb. congruence.
  - destruct (first_true _ _ He) as (k & rest & Heq & (b & Hb & Hpb) & Hbelow). rewrite Heq in Hmk.
    unfold mask. rewrite (LowestBitSet_spec group_mask_ok _ _ _ Hmk). cbn [rbind].
    destruct (Hread _ _ Hb) as [Hk Hmir]. exists (Z.of_nat k), w'. rewrite Hoff by done. split; [done|].
    exists (Z.of_nat k), b. split; [done|]. split; [done|]. split; [done|]. split; [by apply (Hnf _ _ Hb)|].
    left. intros i' b' Hi' Hb' Hnfb. rewrite <- (group_lookup m Hm c (view_length t c Hv)) in Hb' by (apply (off_range m Hm) || lia).
    fold g in Hb'. apply (Hnf _ _ Hb') in Hnfb. rewrite (Hbelow (Z.to_nat i') b') in Hnfb by (done || lia). done.
Qed.

Lemma max_groups : Z.max 1 (groups m) <= N /\ forall n, 0 <= n -> n + 1 < Z.max 1 (groups m) -> kWidth * (n + 1) <= cap.
Proof using HL Hm.
  widths. unfold groups. assert (Hg : N / kWidth <= N) by (apply Z.div_le_upper_bound; nia). split; [lia|].
  intros n Hn Hlt. assert (Hmul : kWidth * (N / kWidth) <= N) by (apply Z.mul_div_le; lia). nia.
Qed.

Lemma ffnf_loop_spec t c hash w : view t c -> word 64 hash -> let h := base t hash in
  forall n0 fuel n, 0 <= n <= n0 -> n0 < Z.max 1 (groups m) -> n0 - n < Z.of_nat fuel ->
  (forall n', 0 <= n' < n -> clear IsEmptyOrDeleted c (off h n')) ->
  (exists b, b ∈ group c (off h n0) /\ non_full b) ->
  exists r w' n1, find_first_non_full_loop fuel t hash (seq_at m h n) w = Ok (r, w') /\
    0 <= n1 <= n0 /\ (forall n', 0 <= n' < n1 -> clear IsEmptyOrDeleted c (off h n')) /\ stops_at c h n1 (offset r).
Proof using HL Hm.
  intros Hv Hhash h n0 fuel. induction fuel as [|fuel IH]; intros n Hn Hn0 Hfuel Hclear Hex; [lia|].
  cbn [find_first_non_full_loop]. destruct (group_laws t c Hv h n) as (Hok & Hlen & Hg). rewrite Hg. cbn [rbind].
  pose proof (MaskEmptyOrDeleted_spec _ Hok Hlen) as Hmk.
  destruct (mask_bool (MaskEmptyOrDeleted (group c (off h n)))) eqn:Hmask.
  - destruct (ffnf_stop t c hash w n Hv Hhash Hmask) as (i & w' & Hres & Hstop). fold h in Hres, Hstop.
    rewrite Hres. eexists _, w', n. split; [done|]. split; [lia|]. split; [done|]. exact Hstop.
  - rewrite (mask_bool_spec group_mask_ok _ _ Hmk) in Hmask.
    assert (Hcl : clear IsEmptyOrDeleted c (off h n)).
    { intros b Hb. destruct (IsEmptyOrDeleted b) eqn:E; [|done]. exfalso.
      assert (Ht : existsb id (IsEmptyOrDeleted <$> group c (off h n)) = true) by (apply existsb_fmap; by exists b).
      congruence. }
    assert (Hne : n <> n0).
    { intros ->. destruct Hex as (b & Hb & Hnf). apply (IsEmptyOrDeleted_spec b) in Hnf.
      - rewrite (Hcl b Hb) in Hnf. done.
      - rewrite Forall_forall in Hok. by apply Hok. }
    destruct max_groups as [_ Hmg]. specialize (Hmg n ltac:(lia) ltac:(lia)). pose proof (N_range m Hm).
    rewrite (next_seq_at m Hm) by lia. unfold seq_at at 1. cbn [index_]. rewrite (proj1 Hv).
    rewrite (proj2 (Z.leb_le _ cap)) by lia. cbn [cpp_assert]. apply IH; try done; try lia.
    intros n' Hn'. destruct (decide (n' = n)) as [->|]; [done|]. apply Hclear. lia.
Qed.

Lemma ffnf_start t c hash w : view t c -> word 64 hash -> let h := base t hash in
  (exists n0 b, 0 <= n0 < Z.max 1 (groups m) /\ b ∈ group c (off h n0) /\ non_full b) ->
  exists r w' n1, find_first_non_full t hash w = Ok (r, w') /\ 0 <= n1 < Z.max 1 (groups m) /\
    (forall n', 0 <= n' < n1 -> clear IsEmptyOrDeleted c (off h n')) /\ stops_at c h n1 (offset r).
Proof using HL Hm.
  intros Hv Hhash h (n0 & b & Hn0 & Hb & Hnf). unfold find_first_non_full. rewrite (probe_view t c Hv hash Hhash). cbn [rbind].
  pose proof (proj1 Hv) as Hcap. destruct max_groups as [Hmg _]. pose proof (N_range m Hm).
  destruct (ffnf_loop_spec t c hash w Hv Hhash n0 (S (Z.to_nat (capacity_ t))) 0) as (r & w' & n1 & Hr & Hn1 & Hcl & Hs).
  - lia.
  - lia.
  - rewrite Hcap. lia.
  - intros n' Hn'. lia.
  - by exists b.
  - exists r, w', n1. split; [done|]. split; [lia|]. done.
Qed.
End view.
