(* ===== verification/TableFind.v ===== *)
(** * TableFind: looking keys up (lemmas for Table.v)

    [lookup_inv m t c] is the part of the invariant of a table that lookups
    rely on: full bytes stand for constructed elements and carry their [H2],
    keys are distinct, and every element is reached by the probe sequence of
    its hash before a group with an empty byte. Under it [find] terminates
    and answers correctly, and an element put where [find_first_non_full]
    stops keeps it. *)

From S2P Require Import Prelude.
From S2P Require Import Word.
From S2P Require Import BitMask.
From S2P Require Import Group.
From S2P Require Import Capacity.
From S2P Require Import Probe.
From S2P Require Import Table.
From S2P Require Import CellsInv.

(** What the table relies on: hashes are words, [key_equal] is equality. *)
Class PolicyLaws (K V : Type) `{SetPolicy K V} := {
  hasher_word k : word 64 (hasher k);
  key_equal_spec a b : key_equal a b = true <-> a = b
}.

(** A slot against its control byte. *)
Definition slot_ok {K V} `{SetPolicy K V} (x : Z) (o : option V) : Prop :=
  match o with Some v => x = H2 (hasher (policy_key v)) | None => non_full x end.

Lemma H2_range h : 0 <= H2 h < 128.
Proof. unfold H2. change 0x7F with (2 ^ 7 - 1). rewrite land_capacity by done. by apply Z.mod_pos_bound. Qed.

Lemma H2_cell h : cell_ok (H2 h).
Proof. right. right. apply H2_range. Qed.

Lemma H2_not h : H2 h <> kDeleted /\ IsEmptyOrDeleted (H2 h) = false /\ IsFull (H2 h) = true /\ IsDeleted (H2 h) = false.
Proof.
  pose proof (H2_range h) as Hr. unfold kDeleted, IsEmptyOrDeleted, IsFull, IsDeleted, kSentinel, kDeleted.
  split; [lia|]. split; [apply Z.ltb_ge; lia|]. split; [apply Z.leb_le; lia|apply Z.eqb_neq; lia].
Qed.

Lemma full_slot {K V} `{SetPolicy K V} x (o : option V) : cell_ok x -> slot_ok x o ->
  IsFull x = true -> exists v, o = Some v /\ x = H2 (hasher (policy_key v)).
Proof.
  intros Hx Hs Hf. destruct o as [v|]; [by exists v|]. cbn in Hs.
  destruct Hs as [->| ->]; done.
Qed.

Section find.
Context {K V : Type} {HG : Group} {HL : GroupLaws} {HB : Build} {HM : Memory}.
Context `{HP : SetPolicy K V} {HPL : PolicyLaws K V}.
Context (m : Z) (Hm : 0 <= m <= max_bits).

Notation N := (2 ^ m).
Notation cap := (2 ^ m - 1).
Notation off h n := (offset_ (seq_at m h n)).
Notation hash_of v := (hasher (policy_key v)).

Ltac widths :=
  pose proof (N_range m Hm); pose proof (width_cases (HL := HL)); assert (0 < kWidth <= 16) by lia;
  unfold NumClonedBytes in *.

Record lookup_inv (t : common_fields V) (c : list Z) : Prop := {
  inv_view : view m t c;
  inv_len : length (slots_ t) = length c;
  inv_slot : forall i x o, c !! i = Some x -> slots_ t !! i = Some o -> slot_ok x o;
  inv_uniq : forall i j v w, slots_ t !! i = Some (Some v) -> slots_ t !! j = Some (Some w) ->
    policy_key v = policy_key w -> i = j;
  inv_reach : forall i v, slots_ t !! i = Some (Some v) ->
    reach m IsEmpty c (base t (hash_of v)) (Z.of_nat i)
}.

(** Every cell is in one of the groups of a probe sequence. *)
Lemma cell_visited c h j x : Z.of_nat (length c) = cap -> 0 <= h -> 0 <= j < cap -> c !! Z.to_nat j = Some x ->
  exists n0, 0 <= n0 < Z.max 1 (groups m) /\ (j - off h n0) mod N < kWidth /\ x ∈ group c (off h n0).
Proof using HL Hm.
  intros Hlen Hh Hj Hx. widths.
  assert (Hn : exists n0, 0 <= n0 < Z.max 1 (groups m) /\ (j - off h n0) mod N < kWidth).
  { destruct (is_small cap) eqn:Es.
    - exists 0. split; [lia|]. apply (small_spec m Hm) in Es. pose proof (Z.mod_pos_bound (j - off h 0) N ltac:(lia)). lia.
    - destruct (probe_reaches m Hm h j Es) as (n & Hn & Hw). exists n. split; [lia|].
      rewrite (window_iff m Hm) by done. rewrite <- Hw. apply (window_iff m Hm); [done|done|].
      rewrite Z.sub_diag, Z.mod_0_l by lia. lia. }
  destruct Hn as (n0 & Hn0 & Hwin). exists n0. split; [done|]. split; [done|].
  pose proof (off_range m Hm h n0) as Hp. apply (elem_of_group m Hm c Hlen); [done|].
  exists ((j - off h n0) mod N). split; [split; [apply Z.mod_pos_bound; lia|done]|].
  by apply (cell_group m Hm).
Qed.

(** With room for an element the search finds it. *)
Lemma ffnf_room (t : common_fields V) c hash w e y : view m t c -> word 64 hash -> 0 <= e < cap -> c !! Z.to_nat e = Some y -> non_full y ->
  exists r w' x, find_first_non_full t hash w = Ok (r, w') /\ 0 <= offset r < cap /\
    c !! Z.to_nat (offset r) = Some x /\ non_full x /\ reach m IsEmptyOrDeleted c (base t hash) (offset r).
Proof using HL Hm.
  intros Hv Hhash He Hy Hnf. set (h := base t hash). pose proof (base_nonneg m t c Hv hash Hhash) as Hh. fold h in Hh.
  pose proof (view_length m t c Hv) as Hlen. widths.
  destruct (cell_visited c h e y Hlen Hh He Hy) as (n0 & Hn0 & Hwin & Hin).
  destruct (ffnf_start m Hm t c hash w Hv Hhash) as (r & w' & n1 & Hr & Hn1 & Hcl & (i & b & Hi & Hj & Hb & Hnb & Hlow)).
  { exists n0, y. done. }
  fold h in Hcl, Hj, Hb, Hlow. pose proof (off_range m Hm h n1) as Hp.
  assert (Hcell : c !! Z.to_nat ((off h n1 + i) mod N) = Some b /\ (off h n1 + i) mod N < cap).
  { apply (group_cell m Hm c Hlen); try done; [destruct Hnb as [->| ->]; done|].
    destruct (is_small cap) eqn:Es; [|right; by left]. destruct Hlow as [Hlow|]; [|done]. right. right.
    apply (small_spec m Hm) in Es. pose proof (Z.mod_pos_bound (e - off h n1) N ltac:(lia)) as Hr0.
    destruct (decide (i <= (e - off h n1) mod N)); [lia|]. exfalso.
    apply (Hlow ((e - off h n1) mod N) y); [lia| |done]. apply (cell_group m Hm); done || lia. }
  destruct Hcell as [Hcell Hlt]. pose proof (Z.mod_pos_bound (off h n1 + i) N ltac:(lia)) as Hmod.
  exists r, w', b. rewrite Hj. split; [done|]. split; [lia|]. split; [done|]. split; [done|].
  exists n1. split; [lia|]. split; [|done]. rewrite Zminus_mod_idemp_l.
  replace (off h n1 + i - off h n1) with i by lia. pose proof (Z.mod_le i N). lia.
Qed.

(** In a small table the search ends even when the table is full. *)
Lemma ffnf_small (t : common_fields V) c hash w : view m t c -> word 64 hash -> is_small cap = true ->
  exists r w', find_first_non_full t hash w = Ok (r, w') /\ 0 <= offset r < N.
Proof using HL Hm.
  intros Hv Hhash Hs. pose proof (view_length m t c Hv) as Hlen. widths.
  destruct (ffnf_start m Hm t c hash w Hv Hhash) as (r & w' & n1 & Hr & Hn1 & _ & (i & b & Hi & Hj & _)).
  { exists 0, kEmpty. split; [lia|]. split; [|by left]. apply (small_empty m Hm c Hlen); [apply (off_range m Hm)|done]. }
  exists r, w'. split; [done|]. rewrite Hj. apply Z.mod_pos_bound. lia.
Qed.

(** ** Lookups *)

Lemma match_loop_spec (t : common_fields V) key seq l :
  (forall i, i ∈ l -> exists v, element (slots_ t) (seq_offset seq i) = Ok v) ->
  (exists i v, i ∈ l /\ element (slots_ t) (seq_offset seq i) = Ok v /\ policy_key v = key /\
     match_loop t key seq l = Ok (Some (seq_offset seq i))) \/
  (match_loop t key seq l = Ok None /\
   forall i v, i ∈ l -> element (slots_ t) (seq_offset seq i) = Ok v -> policy_key v <> key).
Proof using HPL.
  induction l as [|i l IH]; intros Hl.
  - right. split; [done|]. intros i v Hi. by apply elem_of_nil in Hi.
  - destruct (Hl i ltac:(by left)) as [v Hv]. cbn [match_loop]. rewrite Hv. cbn [rbind].
    destruct (key_equal (policy_key v) key) eqn:E.
    + left. exists i, v. apply key_equal_spec in E. split; [by left|]. done.
    + destruct IH as [(j & u & Hj & Hu & Hk & Hres)|[Hres Hno]]; [intros j Hj; apply Hl; by right| |].
      * left. exists j, u. split; [by right|]. done.
      * right. split; [done|]. intros j u Hj Hu. apply elem_of_cons in Hj as [->|Hj]; [|by eapply Hno].
        rewrite Hv in Hu. injection Hu as <-. intros Hk. apply key_equal_spec in Hk. congruence.
Qed.

Lemma element_ok (s : list (option V)) i v : 0 <= i -> s !! Z.to_nat i = Some (Some v) <-> element s i = Ok v.
Proof using.
  intros Hi. unfold element, at_index. rewrite (proj2 (Z.leb_le 0 i)) by done.
  destruct (s !! Z.to_nat i) as [[u|]|]; cbn; split; congruence.
Qed.

Section lookups.
Context (t : common_fields V) (c : list Z) (Hinv : lookup_inv t c) (key : K).

Notation h := (base t (hasher key)).

(** The elements of the group of the [n]-th probe. *)
Lemma group_match n : exists idxs,
  mask_indices (Match (group c (off h n)) (H2 (hasher key))) = Ok idxs /\
  (forall i, i ∈ idxs -> 0 <= i < kWidth /\ exists v, element (slots_ t) (seq_offset (seq_at m h n) i) = Ok v) /\
  (forall j v, slots_ t !! j = Some (Some v) -> policy_key v = key -> (Z.of_nat j - off h n) mod N < kWidth ->
     (Z.of_nat j - off h n) mod N ∈ idxs /\ seq_offset (seq_at m h n) ((Z.of_nat j - off h n) mod N) = Z.of_nat j).
Proof using HL Hinv Hm.
  destruct Hinv as [Hv Hlen Hslot Huniq Hreach]. pose proof (view_length m t c Hv) as Hcl. widths.
  destruct (group_laws m Hm t c Hv h n) as (Hok & Hgl & _). pose proof (off_range m Hm h n) as Hp.
  destruct (Match_spec _ (H2 (hasher key)) Hok Hgl (H2_range _)) as (bs & Hmarks & Hfull & Hhit & _).
  exists (positions 0 bs). split; [by apply (mask_indices_spec group_mask_ok)|].
  assert (Hoff : forall i, 0 <= i < kWidth -> seq_offset (seq_at m h n) i = (off h n + i) mod N).
  { intros i Hi. rewrite (seq_offset_eq m Hm) by done. unfold seq_at. cbn [offset_]. by rewrite Zplus_mod_idemp_l. }
  split.
  - intros i (Hi & Hb)%elem_of_positions. rewrite Z.sub_0_r in Hb. apply Hfull in Hb as (b & Hb & Hf).
    assert (Hik : 0 <= i < kWidth) by (apply lookup_lt_Some in Hb; lia). split; [done|].
    rewrite (group_lookup m Hm c Hcl) in Hb by done.
    destruct (group_cell m Hm c Hcl (off h n) i b Hp Hik Hb) as [Hcell Hlt].
    { intros ->. done. } { left. intros ->. done. }
    rewrite Hoff by done. pose proof (Z.mod_pos_bound (off h n + i) N ltac:(lia)).
    destruct (lookup_lt_is_Some_2 (slots_ t) (Z.to_nat ((off h n + i) mod N)) ltac:(lia)) as [o Ho].
    destruct (full_slot b o) as (v & -> & _); [|by eapply Hslot|done|].
    { eapply Forall_lookup_1; [by apply (view_cells m t c Hv)|done]. }
    exists v. apply element_ok; [lia|exact Ho].
  - intros j v Hj Hk Hwin. pose proof (lookup_lt_Some _ _ _ Hj) as Hjl.
    destruct (lookup_lt_is_Some_2 c j ltac:(lia)) as [x Hx]. pose proof (Hslot j x _ Hx Hj) as Hs. cbn in Hs.
    pose proof (Z.mod_pos_bound (Z.of_nat j - off h n) N ltac:(lia)) as Hr. split.
    + apply elem_of_positions. split; [lia|]. rewrite Z.sub_0_r. apply Hhit.
      rewrite (group_lookup m Hm c Hcl), (cell_group m Hm c Hcl _ (Z.of_nat j) x) by (done || lia || by rewrite Nat2Z.id).
      by rewrite Hs, Hk.
    + rewrite Hoff by lia. rewrite Zplus_mod_idemp_r. replace (off h n + (Z.of_nat j - off h n)) with (Z.of_nat j) by lia.
      apply Z.mod_small. lia.
Qed.

Lemma find_loop_spec n0 fuel n : 0 <= n <= n0 -> n0 < Z.max 1 (groups m) -> n0 - n < Z.of_nat fuel ->
  (forall n' j v, 0 <= n' < n -> slots_ t !! j = Some (Some v) -> policy_key v = key ->
     kWidth <= (Z.of_nat j - off h n') mod N) ->
  kEmpty ∈ group c (off h n0) ->
  (exists j v, find_loop fuel t key (hasher key) (seq_at m h n) = Ok (Some (Z.of_nat j)) /\
     slots_ t !! j = Some (Some v) /\ policy_key v = key) \/
  (find_loop fuel t key (hasher key) (seq_at m h n) = Ok None /\
   forall j v, slots_ t !! j = Some (Some v) -> policy_key v <> key).
Proof using HL HPL Hinv Hm.
  revert n. induction fuel as [|fuel IH]; intros n Hn Hn0 Hfuel Hprev Hempty; [lia|].
  destruct (group_match n) as (idxs & Hidx & Hel & Hhit). pose proof Hinv as [Hv Hlen Hslot Huniq Hreach].
  destruct (group_laws m Hm t c Hv h n) as (Hok & Hgl & Hg). cbn [find_loop]. rewrite Hg. cbn [rbind]. rewrite Hidx. cbn [rbind].
  destruct (match_loop_spec t key (seq_at m h n) idxs) as [(i & v & Hi & Hev & Hk & ->)|[-> Hno]].
  { intros i Hi. by apply Hel. }
  - left. cbn [rbind]. destruct (Hel i Hi) as [Hik _]. widths.
    assert (Hpos : 0 <= seq_offset (seq_at m h n) i).
    { rewrite (seq_offset_eq m Hm) by done. apply Z.mod_pos_bound. lia. }
    exists (Z.to_nat (seq_offset (seq_at m h n) i)), v. rewrite Z2Nat.id by done. split; [done|].
    split; [|done]. by apply element_ok.
  - cbn [rbind]. pose proof (MaskEmpty_spec _ Hok Hgl) as Hmk.
    assert (Hhere : forall j v, slots_ t !! j = Some (Some v) -> policy_key v = key -> kWidth <= (Z.of_nat j - off h n) mod N).
    { intros j v Hj Hk. destruct (decide ((Z.of_nat j - off h n) mod N < kWidth)) as [Hw|]; [|lia]. exfalso.
      destruct (Hhit j v Hj Hk Hw) as [Hin Hso]. apply (Hno _ v Hin); [|done]. rewrite Hso. apply element_ok; [lia|].
      by rewrite Nat2Z.id. }
    assert (Hall : forall n' j v, 0 <= n' < n + 1 -> slots_ t !! j = Some (Some v) -> policy_key v = key ->
      kWidth <= (Z.of_nat j - off h n') mod N).
    { intros n' j v Hn' Hj Hk. destruct (decide (n' = n)) as [->|]; [by eapply Hhere|]. eapply Hprev; [lia|done|done]. }
    rewrite (mask_bool_spec group_mask_ok _ _ Hmk). destruct (existsb id _) eqn:He.
    + right. split; [done|]. intros j v Hj Hk. apply existsb_fmap in He as (b & Hb & Hbe).
      pose proof (Hreach j v Hj) as (nj & Hnj & Hwj & Hcj). rewrite Hk in Hwj, Hcj.
      destruct (decide (n < nj)) as [Hlt|].
      * specialize (Hcj n ltac:(lia) b Hb). congruence.
      * specialize (Hall nj j v ltac:(lia) Hj Hk). lia.
    + assert (Hne : n <> n0).
      { intros ->. assert (Ht : existsb id (IsEmpty <$> group c (off h n0)) = true)
          by (apply existsb_fmap; by exists kEmpty). congruence. }
      destruct (max_groups m Hm) as [_ Hmg]. specialize (Hmg n ltac:(lia) ltac:(lia)). pose proof (N_range m Hm).
      rewrite (next_seq_at m Hm) by lia. unfold seq_at at 1 3. cbn [index_]. rewrite (proj1 Hv).
      rewrite (proj2 (Z.leb_le _ cap)) by lia. cbn [cpp_assert]. apply IH; done || lia.
Qed.

(** A table that is small or has an empty slot answers every lookup. *)
Lemma find_correct : (is_small cap = true \/ kEmpty ∈ c) ->
  (exists j v, find t key = Ok (Some (Z.of_nat j)) /\ slots_ t !! j = Some (Some v) /\ policy_key v = key) \/
  (find t key = Ok None /\ forall j v, slots_ t !! j = Some (Some v) -> policy_key v <> key).
Proof using HL HPL Hinv Hm.
  intros Hroom. pose proof Hinv as [Hv Hlen Hslot Huniq Hreach]. pose proof (view_length m t c Hv) as Hcl.
  pose proof (base_nonneg m t c Hv _ (hasher_word key)) as Hh. widths.
  assert (Hn0 : exists n0, 0 <= n0 < Z.max 1 (groups m) /\ kEmpty ∈ group c (off h n0)).
  { destruct Hroom as [Hs|Hin].
    - exists 0. split; [lia|]. apply (small_empty m Hm c Hcl); [apply (off_range m Hm)|done].
    - apply list_elem_of_lookup in Hin as (e & He). pose proof (lookup_lt_Some _ _ _ He).
      destruct (cell_visited c h (Z.of_nat e) kEmpty) as (n0 & Hn0 & _ & Hg); try done; try lia; [by rewrite Nat2Z.id|].
      by exists n0. }
  destruct Hn0 as (n0 & Hn0 & Hempty). unfold find. rewrite (probe_view m Hm t c Hv _ (hasher_word key)). cbn [rbind].
  pose proof (proj1 Hv) as Hcap. destruct (max_groups m Hm) as [Hmg _].
  apply (find_loop_spec n0); try done; try lia.
Qed.
End lookups.

(** ** Inserting *)

(** The table with an element at [i]. *)
Definition place (t : common_fields V) (c : list Z) (i : Z) (x : Z) (o : option V) : common_fields V :=
  with_slots (with_ctrl t (mirror (<[Z.to_nat i := x]> c))) (<[Z.to_nat i := o]> (slots_ t)).

Lemma place_inv t c i x v : lookup_inv t c -> 0 <= i < cap -> c !! Z.to_nat i = Some x -> non_full x ->
  (forall j u, slots_ t !! j = Some (Some u) -> policy_key u <> policy_key v) ->
  reach m IsEmpty c (base t (hash_of v)) i ->
  lookup_inv (place t c i (H2 (hash_of v)) (Some v)) (<[Z.to_nat i := H2 (hash_of v)]> c).
Proof using HL Hm.
  intros [Hv Hlen Hslot Huniq Hreach] Hi Hx Hnf Hfresh Hri. pose proof (view_length m t c Hv) as Hcl.
  assert (Hfull : IsEmpty (H2 (hash_of v)) = false).
  { pose proof (H2_range (hash_of v)). apply Z.eqb_neq. unfold kEmpty. lia. }
  destruct (SetCtrl_view m Hm t c i (H2 (hash_of v)) Hv Hi (H2_cell _)) as [_ Hv'].
  split; cbn [place with_slots with_ctrl slots_].
  - exact Hv'.
  - by rewrite !length_insert.
  - intros j y o Hy Ho. apply list_lookup_insert_Some in Hy as [(<- & <- & _)|[Hne Hy]].
    + rewrite list_lookup_insert_eq in Ho by lia. by injection Ho as <-.
    + rewrite list_lookup_insert_ne in Ho by done. by eapply Hslot.
  - intros j k u w Hj Hk Heq.
    apply list_lookup_insert_Some in Hj as [(<- & [= <-] & _)|[Hnj Hj]];
      apply list_lookup_insert_Some in Hk as [(<- & [= <-] & _)|[Hnk Hk]].
    + done.
    + exfalso. by eapply Hfresh.
    + exfalso. by eapply Hfresh.
    + by eapply Huniq.
  - intros j u Hj. apply (reach_insert m Hm); [done|done|done|].
    apply list_lookup_insert_Some in Hj as [(<- & [= <-] & _)|[Hnj Hj]].
    + rewrite Z2Nat.id by lia. exact Hri.
    + by apply Hreach.
Qed.
End find.
