(* ===== verification/TableRep.v ===== *)
(** * TableRep: what a table represents (lemmas for Table.v)

    [table_inv t] is the invariant of a table between operations: that of its
    lookups, the packed size is the number of full slots, and the growth left
    accounts for the full and the deleted ones. [represents slots mp] relates
    the slots to a finite map. This file proves the invariant for the new
    array of [InitializeSlots] and for [resize]. *)

From S2P Require Import Prelude.
From S2P Require Import Word.
From S2P Require Import BitMask.
From S2P Require Import Group.
From S2P Require Import Capacity.
From S2P Require Import Probe.
From S2P Require Import Table.
From S2P Require Import CellsInv.
From S2P Require Import TableFind.

(** ** Counting bytes *)

Definition countb (p : Z -> bool) (c : list Z) : Z := Z.of_nat (length (filter (fun x => p x = true) c)).

Lemma countb_cons p x c : countb p (x :: c) = (if p x then 1 else 0) + countb p c.
Proof.
  unfold countb. rewrite filter_cons. destruct (p x) eqn:E.
  - rewrite decide_True by done. cbn [length]. lia.
  - rewrite decide_False by done. lia.
Qed.

Lemma countb_app p c1 c2 : countb p (c1 ++ c2) = countb p c1 + countb p c2.
Proof. unfold countb. rewrite filter_app, length_app. lia. Qed.

Lemma countb_range p c : 0 <= countb p c <= Z.of_nat (length c).
Proof. unfold countb. pose proof (length_filter (fun x => p x = true) c). lia. Qed.

Lemma countb_insert p c i x y : c !! i = Some x ->
  countb p (<[i := y]> c) = countb p c - (if p x then 1 else 0) + (if p y then 1 else 0).
Proof.
  intros Hi. rewrite <- (take_drop_middle c i x Hi) at 2. rewrite insert_take_drop by (by eapply lookup_lt_Some).
  rewrite !countb_app, !countb_cons. lia.
Qed.

Lemma countb_replicate p n x : countb p (replicate n x) = if p x then Z.of_nat n else 0.
Proof.
  induction n as [|n IH]; [by destruct (p x)|]. rewrite replicate_S, countb_cons, IH. destruct (p x); lia.
Qed.

Lemma countb_pos p c : 0 < countb p c <-> exists i x, c !! i = Some x /\ p x = true.
Proof.
  split.
  - intros Hpos. unfold countb in Hpos. destruct (filter _ c) as [|x l] eqn:E; [cbn in Hpos; lia|].
    assert (Hx : x ∈ filter (fun x => p x = true) c) by (rewrite E; by left).
    apply list_elem_of_filter in Hx as [Hp Hx]. apply list_elem_of_lookup in Hx as (i & Hi). by exists i, x.
  - intros (i & x & Hi & Hp). rewrite <- (take_drop_middle c i x Hi), countb_app, countb_cons, Hp.
    pose proof (countb_range p (take i c)). pose proof (countb_range p (drop (S i) c)). lia.
Qed.

Lemma countb_partition c : Forall cell_ok c -> countb IsEmpty c + countb IsDeleted c + countb IsFull c = Z.of_nat (length c).
Proof.
  induction 1 as [|x c Hx Hc IH]; [done|]. rewrite !countb_cons. cbn [length].
  destruct (cell_cases x Hx) as [(_ & -> & -> & -> & _)|[(_ & -> & -> & -> & _)|(_ & -> & -> & -> & _)]]; lia.
Qed.

(** A counted loop whose body always succeeds. *)
Lemma foldM_seqZ {S : Type} (P : Z -> S -> Prop) (body : S -> Z -> result S) lo n s : 0 <= n -> P lo s ->
  (forall i s, lo <= i < lo + n -> P i s -> exists s', body s i = Ok s' /\ P (i + 1) s') ->
  exists s', foldM body s (seqZ lo n) = Ok s' /\ P (lo + n) s'.
Proof.
  intros Hn. remember (Z.to_nat n) as k eqn:Hk. revert lo n s Hn Hk.
  induction k as [|k IH]; intros lo n s Hn Hk H0 Hstep.
  - rewrite seqZ_nil by lia. exists s. split; [done|]. by replace (lo + n) with lo by lia.
  - rewrite seqZ_cons by lia. cbn [foldM]. destruct (Hstep lo s ltac:(lia) H0) as (s1 & -> & H1). cbn [rbind].
    destruct (IH (Z.succ lo) (Z.pred n) s1) as (s' & Hs & HP); [lia|lia|exact H1| |].
    + intros i s2 Hi. apply Hstep. lia.
    + exists s'. split; [done|]. by replace (lo + n) with (Z.succ lo + Z.pred n) by lia.
Qed.

(** ** The packed size *)

Section sizes.
Context {V : Type}.

Lemma size_eq (t : common_fields V) : size t = size_ t / 2.
Proof. unfold size, HasInfozShift. by rewrite Z.shiftr_div_pow2. Qed.

Lemma pack_size (s b : Z) : 0 <= s < 2 ^ 62 -> 0 <= b < 2 -> Z.lor (s <<64 1) b = 2 * s + b.
Proof.
  intros Hs Hb. rewrite Z.shiftl_mul_pow2 by done. rewrite u64_id by lia.
  rewrite (Z.mul_comm s), lor_digit by lia. done.
Qed.

Lemma infoz_bit (t : common_fields V) : Z.land (size_ t) HasInfozMask = size_ t mod 2.
Proof. change HasInfozMask with (Z.ones 1). by rewrite Z.land_ones. Qed.

Lemma set_size_ok (t : common_fields V) s : 0 <= s < 2 ^ 62 ->
  size (set_size t s) = s /\ word 64 (size_ (set_size t s)) /\ has_infoz (set_size t s) = has_infoz t.
Proof.
  intros Hs. pose proof (Z.mod_pos_bound (size_ t) 2 ltac:(done)) as Hb.
  assert (Heq : size_ (set_size t s) = 2 * s + size_ t mod 2).
  { unfold set_size. cbn [size_ with_size]. rewrite infoz_bit. by apply pack_size. }
  split; [|split].
  - rewrite size_eq, Heq. rewrite Z.add_comm, Z.mul_comm, Z.div_add, Z.div_small by lia. lia.
  - rewrite Heq. split; lia.
  - unfold has_infoz. rewrite !infoz_bit, Heq. f_equal. f_equal.
    rewrite Z.add_comm, Z.mul_comm, Z_mod_plus_full. by rewrite Z.mod_mod.
Qed.

Lemma set_has_infoz_ok (t : common_fields V) b : 0 <= size t < 2 ^ 62 ->
  size (set_has_infoz t b) = size t /\ word 64 (size_ (set_has_infoz t b)).
Proof.
  intros Hs. assert (Hb : 0 <= (if b then 1 else 0) < 2) by (destruct b; lia).
  assert (Heq : size_ (set_has_infoz t b) = 2 * size t + (if b then 1 else 0)).
  { unfold set_has_infoz. cbn [size_ with_size]. by apply pack_size. }
  split; [|rewrite Heq; split; lia]. rewrite size_eq, Heq, Z.add_comm, Z.mul_comm, Z.div_add, Z.div_small by lia. lia.
Qed.

Lemma increment_size_ok (t : common_fields V) : word 64 (size_ t) -> size t < capacity_ t -> capacity_ t < 2 ^ 60 ->
  exists z, increment_size t = Ok (with_size t z) /\ word 64 z /\ z / 2 = size t + 1.
Proof.
  intros [H0 _] Hlt Hcap. unfold increment_size. rewrite (proj2 (Z.ltb_lt _ _)) by done. cbn [cpp_assert].
  rewrite size_eq in *. assert (Hsz : size_ t < 2 ^ 62).
  { pose proof (Z.div_mod (size_ t) 2 ltac:(done)). pose proof (Z.mod_pos_bound (size_ t) 2 ltac:(done)). lia. }
  change (1 <<64 HasInfozShift) with 2. rewrite u64_id by lia. eexists. split; [done|]. split; [split; lia|].
  replace (size_ t + 2) with (size_ t + 1 * 2) by lia. by rewrite Z.div_add.
Qed.

Lemma decrement_size_ok (t : common_fields V) : word 64 (size_ t) -> 0 < size t ->
  exists z, decrement_size t = Ok (with_size t z) /\ word 64 z /\ z / 2 = size t - 1.
Proof.
  intros [H0 H1] Hlt. unfold decrement_size. rewrite (proj2 (Z.ltb_lt _ _)) by done. cbn [cpp_assert].
  rewrite size_eq in *. pose proof (Z.div_mod (size_ t) 2 ltac:(done)). pose proof (Z.mod_pos_bound (size_ t) 2 ltac:(done)).
  change (1 <<64 HasInfozShift) with 2. rewrite u64_id by lia. eexists. split; [done|]. split; [split; lia|].
  replace (size_ t - 2) with (size_ t + (-1) * 2) by lia. by rewrite Z.div_add.
Qed.
End sizes.

(** ** The invariant *)

Section rep.
Context {K V : Type} `{EqDecision K, Countable K}.
Context {HG : Group} {HL : GroupLaws} {HB : Build} {HM : Memory}.
Context `{HP : SetPolicy K V} {HPL : PolicyLaws K V}.

Notation hash_of v := (hasher (policy_key v)).

(** The slots hold the elements of a map from their keys. *)
Definition represents (s : list (option V)) (mp : gmap K V) : Prop :=
  forall k v, mp !! k = Some v <-> exists i, s !! i = Some (Some v) /\ policy_key v = k.

Record counts_ok (m : Z) (t : common_fields V) (c : list Z) : Prop := {
  counts_word : word 64 (size_ t);
  counts_size : size t = countb IsFull c;
  counts_left : 0 <= growth_left_ t;
  counts_growth : growth_left_ t + countb IsFull c + countb IsDeleted c = growth_of (2 ^ m - 1)
}.

Definition table_inv (t : common_fields V) : Prop :=
  exists m c, 0 <= m <= max_bits /\ lookup_inv m t c /\ counts_ok m t c.

Definition rep (t : common_fields V) (mp : gmap K V) : Prop := table_inv t /\ represents (slots_ t) mp.

Lemma represents_det s mp mp' : represents s mp -> represents s mp' -> mp = mp'.
Proof using. intros H1 H2. apply map_eq. intros k. apply option_eq. intros v. by rewrite (H1 k v), (H2 k v). Qed.

Section sizes_of_map.
Context (m : Z) (Hm : 0 <= m <= max_bits).

Notation cap := (2 ^ m - 1).

Lemma cap_ok : 1 <= m -> capacity_ok cap.
Proof using Hm. intros Hm1. exists m. split; [lia|done]. Qed.

Lemma growth_cap : 0 <= growth_of cap <= cap /\ (is_small cap = false -> growth_of cap < cap).
Proof using HL Hm.
  destruct (decide (m = 0)) as [->|].
  - split; [unfold growth_of; rewrite andb_false_r; done|]. unfold is_small. intros Hs. bools.
    pose proof (width_cases (HL := HL)). cbn in Hs. lia.
  - destruct (growth_bounds cap (cap_ok ltac:(lia))) as [Hg Hs]. split; [lia|done].
Qed.

(** The load factor leaves an empty slot to end the lookups. *)
Lemma inv_room t c : lookup_inv m t c -> counts_ok m t c -> is_small cap = true \/ kEmpty ∈ c.
Proof using HL Hm.
  intros Hl [_ _ Hgl Hg]. destruct (is_small cap) eqn:Es; [by left|]. right.
  destruct growth_cap as [_ Hlt]. specialize (Hlt Es). pose proof (inv_view m t c Hl) as Hv.
  pose proof (countb_partition c (view_cells m t c Hv)) as Hp. rewrite (view_length m t c Hv) in Hp.
  assert (Hpos : 0 < countb IsEmpty c) by lia. apply countb_pos in Hpos as (i & x & Hi & Hx).
  apply IsEmpty_spec in Hx as ->. by eapply list_elem_of_lookup_2.
Qed.

Lemma counts_range t c : lookup_inv m t c -> counts_ok m t c -> 0 <= size t <= growth_of cap /\ growth_left_ t <= growth_of cap.
Proof using Hm.
  intros Hl [_ Hs Hgl Hg]. pose proof (countb_range IsFull c). pose proof (countb_range IsDeleted c). lia.
Qed.

(** ** A new array *)

Lemma ResetCtrl_ok (t : common_fields V) : 1 <= m -> capacity_ t = cap -> 0 <= size t <= growth_of cap ->
  ResetCtrl t = Ok (set_growth_left (with_ctrl t (mirror (replicate (Z.to_nat cap) kEmpty))) (growth_of cap - size t)).
Proof using HL Hm.
  intros Hm1 Hc Hs. pose proof (N_range m Hm). pose proof (width_cases (HL := HL)).
  pose proof growth_cap as [Hg _]. unfold ResetCtrl. rewrite Hc. rewrite set_at_ok; [|rewrite length_replicate; unfold NumClonedBytes; lia].
  cbn [rbind]. unfold ResetGrowthLeft. cbn [capacity_ with_ctrl]. rewrite Hc, (CapacityToGrowth_eq _ (cap_ok Hm1)). cbn [rbind].
  assert (Hmir : <[Z.to_nat cap := kSentinel]> (replicate (Z.to_nat (cap + 1 + NumClonedBytes)) kEmpty) =
    mirror (replicate (Z.to_nat cap) kEmpty)).
  { unfold mirror. rewrite <- replicate_add, take_replicate.
    replace (Z.to_nat NumClonedBytes `min` (Z.to_nat cap + Z.to_nat NumClonedBytes))%nat with (Z.to_nat NumClonedBytes) by lia.
    replace (Z.to_nat (cap + 1 + NumClonedBytes)) with (Z.to_nat cap + S (Z.to_nat NumClonedBytes))%nat
      by (unfold NumClonedBytes; lia).
    rewrite replicate_add, insert_app_r_alt by (by rewrite length_replicate).
    rewrite length_replicate, Nat.sub_diag. done. }
  rewrite Hmir. change (size (with_ctrl t _)) with (size t). f_equal.
  unfold set_growth_left. f_equal. apply u64_id. lia.
Qed.

Lemma InitializeSlots_ok (t : common_fields V) w : 1 <= m -> capacity_ t = cap -> 0 <= size t <= growth_of cap ->
  exists t' w', InitializeSlots t w = Ok (t', w') /\ view m t' (replicate (Z.to_nat cap) kEmpty) /\
    slots_ t' = replicate (Z.to_nat cap) None /\ size t' = size t /\ word 64 (size_ t') /\
    growth_left_ t' = growth_of cap - size t.
Proof using HL Hm.
  intros Hm1 Hc Hs. pose proof (N_range m Hm). pose proof (cap_ok Hm1) as Hcap. pose proof (capacity_bounds _ Hcap) as Hcb.
  pose proof growth_cap as [Hg _].
  unfold InitializeSlots. rewrite Hc, (proj2 (Z.eqb_neq cap 0)) by lia. cbn [negb cpp_assert].
  destruct (if 0 <? _ then _ else _) as [sampled w1].
  unfold AllocSize, SlotOffset, GenerationOffset. rewrite (IsValidCapacity_ok _ Hcap). cbn [cpp_assert rbind].
  set (mem := Allocate _ _ _). set (t1 := {| control_ := _; ctrl := _; slots_ := _; capacity_ := _ |}).
  assert (Hsz1 : size t1 = size t) by done.
  rewrite (ResetCtrl_ok t1 Hm1) by (done || by rewrite Hsz1). cbn [rbind].
  set (t2 := set_growth_left _ _). destruct (set_has_infoz_ok t2 sampled) as [Hsz Hw].
  { change (size t2) with (size t). lia. }
  eexists _, _. split; [done|]. split; [|split; [done|split; [exact Hsz|split; [exact Hw|done]]]].
  split; [done|]. split; [rewrite length_replicate; lia|]. split; [apply Forall_replicate; by left|].
  split; [apply u64_range|]. cbn. by rewrite (proj2 (Z.eqb_neq m 0)) by lia.
Qed.

(** A table without elements. *)
Lemma empty_inv (t : common_fields V) : view m t (replicate (Z.to_nat cap) kEmpty) ->
  slots_ t = replicate (Z.to_nat cap) None -> lookup_inv m t (replicate (Z.to_nat cap) kEmpty).
Proof using.
  intros Hv Hs. split; [done|by rewrite Hs, !length_replicate| | |].
  - intros i x o Hx Ho. rewrite Hs in Ho. apply lookup_replicate in Hx as [-> _]. apply lookup_replicate in Ho as [-> _]. by left.
  - intros i j v u Hi. rewrite Hs in Hi. by apply lookup_replicate in Hi as [? _].
  - intros i v Hi. rewrite Hs in Hi. by apply lookup_replicate in Hi as [? _].
Qed.

(** Putting an element whose key is new where the search stops. *)
Lemma put_new (t : common_fields V) c v w :
  lookup_inv m t c -> (forall j u, slots_ t !! j = Some (Some u) -> policy_key u <> policy_key v) ->
  0 < countb IsEmpty c + countb IsDeleted c ->
  exists r w' x t', find_first_non_full t (hash_of v) w = Ok (r, w') /\ 0 <= offset r < cap /\
    c !! Z.to_nat (offset r) = Some x /\ non_full x /\
    SetCtrl t (offset r) (H2 (hash_of v)) = Ok t' /\
    t' = with_ctrl t (mirror (<[Z.to_nat (offset r) := H2 (hash_of v)]> c)) /\
    slots_ t !! Z.to_nat (offset r) = Some None /\
    lookup_inv m (with_slots t' (<[Z.to_nat (offset r) := Some v]> (slots_ t))) (<[Z.to_nat (offset r) := H2 (hash_of v)]> c).
Proof using HL HPL Hm.
  intros Hl Hfresh Hroom. pose proof Hl as [Hv Hlen Hslot _ _].
  assert (Hex : exists e y, 0 <= e < cap /\ c !! Z.to_nat e = Some y /\ non_full y).
  { pose proof (view_length m t c Hv) as Hcl. pose proof (countb_range IsEmpty c). pose proof (countb_range IsDeleted c).
    assert (0 < countb IsEmpty c \/ 0 < countb IsDeleted c) as [Hp|Hp] by lia;
      apply countb_pos in Hp as (i & x & Hi & Hx); pose proof (lookup_lt_Some _ _ _ Hi);
      exists (Z.of_nat i), x; rewrite Nat2Z.id; (split; [lia|]; split; [done|]); apply Z.eqb_eq in Hx; [by left|by right]. }
  destruct Hex as (e & y & He & Hy & Hny).
  destruct (ffnf_room m Hm t c _ w e y Hv (hasher_word (policy_key v)) He Hy Hny) as (r & w' & x & Hr & Hoff & Hx & Hnx & Hreach).
  destruct (SetCtrl_view m Hm t c (offset r) (H2 (hash_of v)) Hv Hoff (H2_cell _)) as [Hset _].
  assert (Hnone : slots_ t !! Z.to_nat (offset r) = Some None).
  { pose proof (lookup_lt_Some _ _ _ Hx). destruct (lookup_lt_is_Some_2 (slots_ t) (Z.to_nat (offset r)) ltac:(lia)) as [o Ho].
    pose proof (Hslot _ _ _ Hx Ho) as Hs. destruct o as [u|]; [|done]. cbn in Hs. subst x.
    pose proof (H2_range (hash_of u)). destruct Hnx as [E|E]; rewrite E in *; unfold kEmpty, kDeleted in *; lia. }
  exists r, w', x, (with_ctrl t (mirror (<[Z.to_nat (offset r) := H2 (hash_of v)]> c))).
  split; [done|]. split; [done|]. split; [done|]. split; [done|]. split; [done|]. split; [done|]. split; [done|].
  apply (place_inv m Hm t c (offset r) x v); try done.
  eapply (reach_weaken m Hm); [by apply (view_length m t c Hv)|by apply (view_cells m t c Hv)| |exact Hreach].
  intros b Hb Hp. destruct (IsEmpty b) eqn:E; [|done]. apply IsEmpty_spec in E as ->. done.
Qed.
(** The same in a table without deleted bytes, with what it does to the
    counts and to the elements. *)
Lemma put_clean (t : common_fields V) c v w :
  lookup_inv m t c -> (forall j u, slots_ t !! j = Some (Some u) -> policy_key u <> policy_key v) ->
  countb IsDeleted c = 0 -> countb IsFull c < cap ->
  exists r w' t' c', find_first_non_full t (hash_of v) w = Ok (r, w') /\ 0 <= offset r < cap /\
    SetCtrl t (offset r) (H2 (hash_of v)) = Ok t' /\
    set_at (slots_ t') (offset r) (Some v) = Ok (<[Z.to_nat (offset r) := Some v]> (slots_ t')) /\
    size_ t' = size_ t /\ growth_left_ t' = growth_left_ t /\
    lookup_inv m (with_slots t' (<[Z.to_nat (offset r) := Some v]> (slots_ t'))) c' /\
    <[Z.to_nat (offset r) := Some v]> (slots_ t') !! Z.to_nat (offset r) = Some (Some v) /\
    countb IsDeleted c' = 0 /\ countb IsFull c' = countb IsFull c + 1 /\
    (forall u, (exists j, <[Z.to_nat (offset r) := Some v]> (slots_ t') !! j = Some (Some u)) <->
       u = v \/ exists j, slots_ t !! j = Some (Some u)).
Proof using HL HPL Hm.
  intros Hl Hfresh Hd Hroom. pose proof (inv_view m t c Hl) as Hv.
  pose proof (countb_partition c (view_cells m t c Hv)) as Hp. rewrite (view_length m t c Hv) in Hp.
  destruct (put_new t c v w Hl Hfresh ltac:(lia)) as (r & w' & y & t' & Hf & Hoff & Hy & Hny & Hset & Ht' & Hnone & Hinv).
  exists r, w', t', (<[Z.to_nat (offset r) := H2 (hash_of v)]> c). pose proof (lookup_lt_Some _ _ _ Hnone) as Hlt.
  assert (Hsl : slots_ t' = slots_ t) by (by rewrite Ht'). rewrite Hsl.
  assert (Hyd : IsDeleted y = false /\ IsFull y = false).
  { split; [|by destruct Hny as [->| ->]]. destruct (IsDeleted y) eqn:E; [|done].
    assert (0 < countb IsDeleted c) by (apply countb_pos; by exists (Z.to_nat (offset r)), y). lia. }
  destruct Hyd as [Hyd Hyf]. destruct (H2_not (hash_of v)) as (_ & _ & Hh2f & Hh2d).
  split; [done|]. split; [done|]. split; [done|]. split; [apply set_at_ok; lia|]. split; [by rewrite Ht'|]. split; [by rewrite Ht'|].
  split; [done|]. split; [by apply list_lookup_insert_eq|]. rewrite !(countb_insert _ _ _ _ _ Hy), Hyd, Hyf, Hh2d, Hh2f.
  split; [lia|]. split; [lia|]. intros u. split.
  - intros (j & Hj). apply list_lookup_insert_Some in Hj as [(_ & [= <-] & _)|[_ Hj]]; [by left|right; by exists j].
  - intros [->|(j & Hj)]; [exists (Z.to_nat (offset r)); by apply list_lookup_insert_eq|].
    exists j. rewrite list_lookup_insert_ne; [done|]. intros <-. congruence.
Qed.
End sizes_of_map.

(** ** resize *)

Section resize.
Context (t : common_fields V) (m : Z) (c : list Z) (Hm : 0 <= m <= max_bits) (Hl : lookup_inv m t c).
Context (m' : Z) (Hm' : 0 <= m' <= max_bits).

(** The new table after the slots below [i] have been moved. *)
Definition moved (size0 growth0 : Z) (i : Z) (s : common_fields V * World) : Prop :=
  exists c', lookup_inv m' s.1 c' /\ size_ s.1 = size0 /\ growth_left_ s.1 = growth0 /\
    countb IsDeleted c' = 0 /\ countb IsFull c' = countb IsFull (take (Z.to_nat i) c) /\
    (forall v, (exists j, slots_ s.1 !! j = Some (Some v)) <-> exists j, (j < Z.to_nat i)%nat /\ slots_ t !! j = Some (Some v)).

Lemma resize_step_ok size0 growth0 i s : 0 <= i < 2 ^ m - 1 -> countb IsFull c <= growth_of (2 ^ m' - 1) ->
  growth_of (2 ^ m' - 1) <= 2 ^ m' - 1 ->
  moved size0 growth0 i s -> exists s', resize_step (ctrl t) (slots_ t) s i = Ok s' /\ moved size0 growth0 (i + 1) s'.
Proof using HL HPL Hl Hm Hm'.
  intros Hi Hroom Hg (c' & Hl' & Hsz & Hgl & Hdel & Hfull & Hmv). destruct s as [t' w]. cbn [fst] in *.
  pose proof Hl as [Hv Hlen Hslot Huniq _]. pose proof (view_length m t c Hv) as Hcl.
  destruct (lookup_lt_is_Some_2 c (Z.to_nat i) ltac:(lia)) as [x Hx].
  destruct (lookup_lt_is_Some_2 (slots_ t) (Z.to_nat i) ltac:(lia)) as [o Ho].
  pose proof (Forall_lookup_1 _ _ _ _ (view_cells m t c Hv) Hx) as Hxc. pose proof (Hslot _ _ _ Hx Ho) as Hso.
  assert (Hi1 : Z.to_nat (i + 1) = S (Z.to_nat i)) by lia.
  assert (Htake : countb IsFull (take (S (Z.to_nat i)) c) = countb IsFull (take (Z.to_nat i) c) + (if IsFull x then 1 else 0)).
  { rewrite (take_S_r c _ x Hx), countb_app, countb_cons. change (countb IsFull []) with 0. lia. }
  unfold resize_step. rewrite (ctrl_cell m Hm t c Hv i x) by (done || lia). cbn [rbind]. destruct (IsFull x) eqn:Hf.
  - destruct (full_slot x o Hxc Hso Hf) as (v & -> & Hxh). rewrite (proj1 (element_ok _ _ _ (proj1 Hi)) Ho). cbn [rbind].
    assert (Hfresh : forall j u, slots_ t' !! j = Some (Some u) -> policy_key u <> policy_key v).
    { intros j u Hj Heq. destruct (proj1 (Hmv u)) as (j0 & Hj0 & Hu0); [by exists j|].
      assert (j0 = Z.to_nat i) by (by eapply Huniq). lia. }
    assert (Hle : countb IsFull (take (S (Z.to_nat i)) c) <= countb IsFull c).
    { rewrite <- (take_drop (S (Z.to_nat i)) c) at 2. rewrite countb_app.
      pose proof (countb_range IsFull (drop (S (Z.to_nat i)) c)). lia. }
    destruct (put_clean m' Hm' t' c' v w Hl' Hfresh Hdel ltac:(lia))
      as (r & w' & t2 & c2 & -> & Hoff & Hset & Hat & Hsz2 & Hgl2 & Hinv & _ & Hd2 & Hf2 & Hel).
    cbn [rbind]. rewrite Hset. cbn [rbind]. unfold transfer. rewrite Hat. cbn [rbind].
    eexists. split; [done|]. exists c2. cbn [fst]. rewrite Hi1. split; [done|]. cbn [size_ growth_left_ slots_ with_slots].
    split; [by rewrite Hsz2|]. split; [by rewrite Hgl2|]. split; [done|]. split; [rewrite Htake; lia|].
    intros u. rewrite Hel, (Hmv u). split.
    + intros [->|(j & Hj & Hu)]; [exists (Z.to_nat i); split; [lia|done]|exists j; split; [lia|done]].
    + intros (j & Hj & Hu). destruct (decide (j = Z.to_nat i)) as [->|Hne]; [left; congruence|right; exists j; split; [lia|done]].
  - exists (t', w). split; [done|]. exists c'. cbn [fst]. rewrite Hi1, Htake, Z.add_0_r. do 5 (split; [done|]).
    intros u. rewrite (Hmv u). split; intros (j & Hj & Hu).
    + exists j. split; [lia|done].
    + exists j. split; [|done]. destruct (decide (j = Z.to_nat i)) as [->|]; [|lia]. exfalso.
      rewrite Ho in Hu. injection Hu as ->. cbn in Hso. subst x. pose proof (H2_range (hash_of u)).
      unfold IsFull in Hf. bools. lia.
Qed.
End resize.

Lemma resize_ok t mp m c m' w : 0 <= m <= max_bits -> lookup_inv m t c -> represents (slots_ t) mp ->
  size t = countb IsFull c -> word 64 (size_ t) ->
  1 <= m' <= max_bits -> size t <= growth_of (2 ^ m' - 1) ->
  exists t' w' c', resize t (2 ^ m' - 1) w = Ok (t', w') /\ lookup_inv m' t' c' /\ counts_ok m' t' c' /\
    represents (slots_ t') mp /\ countb IsDeleted c' = 0 /\ size t' = size t.
Proof using HL HPL.
  intros Hm Hl Hrep Hsize Hword Hm' Hgrow. pose proof (inv_view m t c Hl) as Hv. pose proof (view_length m t c Hv) as Hcl.
  assert (Hm0 : 0 <= m' <= max_bits) by lia. pose proof (cap_ok m' Hm0 ltac:(lia)) as Hcap.
  pose proof (growth_cap m' Hm0) as [Hgc _]. pose proof (countb_range IsFull c) as Hcf.
  unfold resize. rewrite (IsValidCapacity_ok _ Hcap). cbn [cpp_assert]. unfold set_capacity.
  rewrite (IsValidCapacity_ok _ Hcap), orb_true_r. cbn [cpp_assert rbind].
  set (t1 := {| control_ := _; ctrl := _; slots_ := _; capacity_ := _ |}).
  assert (Hs1 : size t1 = size t) by done.
  destruct (InitializeSlots_ok m' Hm0 t1 w ltac:(lia) ltac:(done) ltac:(lia)) as (t2 & w2 & -> & Hv2 & Hs2 & Hsz2 & Hw2 & Hg2).
  cbn [rbind]. rewrite (proj1 Hv).
  pose proof (N_range m Hm) as HN. pose proof (N_range m' Hm0) as HN'.
  destruct (foldM_seqZ (moved t c m' (size_ t2) (growth_left_ t2)) (resize_step (ctrl t) (slots_ t)) 0 (2 ^ m - 1) (t2, w2))
    as ([t3 w3] & Hfold & Hmoved).
  - lia.
  - exists (replicate (Z.to_nat (2 ^ m' - 1)) kEmpty). cbn [fst]. split; [by apply empty_inv|]. split; [done|]. split; [done|].
    rewrite !countb_replicate. split; [done|]. split; [done|]. intros v. split.
    + intros (j & Hj). rewrite Hs2 in Hj. by apply lookup_replicate in Hj as [? _].
    + intros (j & Hj & _). lia.
  - intros i s Hi. apply (resize_step_ok t m c Hm Hl m' Hm0); lia.
  - exists t3, w3. destruct Hmoved as (c3 & Hl3 & Hsz3 & Hg3 & Hd3 & Hf3 & Hmv). cbn [fst] in *.
    rewrite Z.add_0_l in *. assert (Htk : take (Z.to_nat (2 ^ m - 1)) c = c) by (apply take_ge; lia). rewrite Htk in Hf3.
    assert (Hsize3 : size t3 = size t) by (rewrite size_eq, Hsz3, <- size_eq; lia).
    exists c3. split; [done|]. split; [done|]. split; [|split; [|split; [done|done]]].
    + split; [by rewrite Hsz3|lia|lia|lia].
    + intros k v. rewrite (Hrep k v). split.
      * intros (i & Hi & Hk). destruct (proj2 (Hmv v)) as (j & Hj); [|by exists j].
        exists i. pose proof (inv_len m t c Hl). pose proof (lookup_lt_Some _ _ _ Hi). split; [lia|done].
      * intros (j & Hj & Hk). destruct (proj1 (Hmv v)) as (i & _ & Hi); [by exists j|]. by exists i.
Qed.
End rep.
