(* ===== verification/TableDrop.v ===== *)
(** * TableDrop: rehashing in place (lemmas for Table.v)

    [DropDeletesWithoutResize] marks every full slot as deleted and then
    places the elements again, one after the other. While it runs, a deleted
    byte stands for an element that has not been placed; the elements that
    have been are reached without passing a group that is not full, which
    keeps them reachable whatever happens to the others. *)

From S2P Require Import Prelude.
From S2P Require Import Word.
From S2P Require Import BitMask.
From S2P Require Import Group.
From S2P Require Import Capacity.
From S2P Require Import Probe.
From S2P Require Import Table.
From S2P Require Import CellsInv.
From S2P Require Import TableFind.
From S2P Require Import TableRep.

(** Exchanging two positions of a list. *)
Definition swapped (i j a : nat) : nat := if decide (a = i) then j else if decide (a = j) then i else a.

Lemma swapped_involutive i j a : swapped i j (swapped i j a) = a.
Proof. unfold swapped. repeat case_decide; congruence. Qed.

Lemma swap_lookup {A} (s : list A) i j x y a : i <> j -> s !! i = Some x -> s !! j = Some y ->
  <[i := y]> (<[j := x]> s) !! a = s !! swapped i j a.
Proof.
  intros Hij Hi Hj. pose proof (lookup_lt_Some _ _ _ Hi). pose proof (lookup_lt_Some _ _ _ Hj). unfold swapped.
  case_decide; [subst; by rewrite list_lookup_insert_eq by (by rewrite length_insert)|].
  rewrite list_lookup_insert_ne by done. case_decide; [subst; by rewrite list_lookup_insert_eq|].
  by rewrite list_lookup_insert_ne.
Qed.

Lemma load_ok n (l : list Z) p : 0 <= p -> p + Z.of_nat n <= Z.of_nat (length l) ->
  load_bytes n l p = Ok (take n (drop (Z.to_nat p) l)).
Proof.
  intros Hp Hl. unfold load_bytes. by rewrite (proj2 (Z.leb_le 0 p)), (proj2 (Z.leb_le _ _)) by lia.
Qed.

Lemma store_app (l1 l2 l3 x : list Z) p : p = Z.of_nat (length l1) -> length x = length l2 ->
  store_bytes (l1 ++ l2 ++ l3) p x = Ok (l1 ++ x ++ l3).
Proof.
  intros -> Hx. unfold store_bytes. rewrite !length_app.
  rewrite (proj2 (Z.leb_le 0 _)), (proj2 (Z.leb_le _ _)) by lia. rewrite Nat2Z.id.
  rewrite take_app_length. rewrite drop_app_ge by lia.
  replace (length l1 + length x - length l1)%nat with (length l2) by lia. by rewrite drop_app_length.
Qed.

Section drop.
Context {K V : Type} `{EqDecision K, Countable K}.
Context {HG : Group} {HL : GroupLaws} {HB : Build} {HM : Memory}.
Context `{HP : SetPolicy K V} {HPL : PolicyLaws K V}.
Context (m : Z) (Hm : 0 <= m <= max_bits) (Hs : is_small (2 ^ m - 1) = false).

Notation N := (2 ^ m).
Notation cap := (2 ^ m - 1).
Notation off h n := (offset_ (seq_at m h n)).
Notation hash_of v := (hasher (policy_key v)).

Ltac widths :=
  pose proof (N_range m Hm) as HNr; pose proof (width_cases (HL := HL)) as Hwc; assert (Hkb : 0 < kWidth <= 16) by lia;
  pose proof (not_small_spec m Hs) as HkN; unfold NumClonedBytes in *.

(** ** Converting the control bytes *)

Lemma convert_groups_ok fuel (a b rest : list Z) k : (k < fuel)%nat -> Z.of_nat (length b) = kWidth * Z.of_nat k ->
  Z.of_nat (length a) + Z.of_nat (length b) = N -> Forall ctrl_ok b -> (Z.of_nat (length a)) mod kWidth = 0 ->
  convert_groups fuel (a ++ b ++ rest) (Z.of_nat (length a)) cap = Ok (a ++ (convert <$> b) ++ rest).
Proof using HL Hm Hs.
  revert a b k. induction fuel as [|fuel IH]; intros a b k Hfuel Hb Hab Hok Ha; [lia|]. widths. cbn [convert_groups].
  destruct k as [|k].
  - assert (b = []) as -> by (apply nil_length_inv; lia). cbn [length] in Hab.
    by rewrite (proj2 (Z.ltb_ge _ cap)) by lia.
  - assert (Hlt : Z.of_nat (length a) < cap) by nia. rewrite (proj2 (Z.ltb_lt _ cap)) by done.
    set (g := take (Z.to_nat kWidth) b). set (b' := drop (Z.to_nat kWidth) b).
    assert (Hbg : b = g ++ b') by (symmetry; apply take_drop).
    assert (Hlg : length g = Z.to_nat kWidth) by (unfold g; rewrite length_take; nia).
    assert (Hlb' : Z.of_nat (length b') = kWidth * Z.of_nat k) by (unfold b'; rewrite length_drop; nia).
    assert (Hread : load_bytes (Z.to_nat kWidth) (a ++ b ++ rest) (Z.of_nat (length a)) = Ok g).
    { rewrite load_ok; [|lia|rewrite !length_app; nia]. rewrite Nat2Z.id, drop_app_length, Hbg, <- app_assoc, <- Hlg.
      by rewrite take_app_length. }
    rewrite Hread. cbn [rbind]. rewrite Hbg in Hok. apply Forall_app in Hok as [Hg Hb'].
    rewrite ConvertSpecialToEmptyAndFullToDeleted_spec by (done || lia).
    rewrite Hbg, <- app_assoc. rewrite store_app by (by rewrite ?length_fmap). cbn [rbind].
    rewrite app_assoc. assert (Hla : Z.of_nat (length a) + kWidth = Z.of_nat (length (a ++ (convert <$> g))))
      by (rewrite length_app, length_fmap; lia).
    rewrite Hla. rewrite (IH _ b' k); [|lia|done| |done|].
    + by rewrite fmap_app, <- !app_assoc.
    + rewrite Hbg, length_app in Hab. rewrite length_app, length_fmap. lia.
    + rewrite <- Hla. rewrite <- Zplus_mod_idemp_l, Ha. by rewrite Z.mod_same by lia.
Qed.

Lemma Convert_mirror c : Z.of_nat (length c) = cap -> Forall cell_ok c ->
  ConvertDeletedToEmptyAndFullToDeleted (mirror c) cap = Ok (mirror (convert <$> c)).
Proof using HL Hm Hs.
  intros Hlen Hok. widths. unfold ConvertDeletedToEmptyAndFullToDeleted.
  assert (Hm1 : 1 <= m) by (destruct (decide (m = 0)) as [->|]; [cbn in *; lia|lia]).
  rewrite (at_index_lookup _ _ kSentinel) by (lia || (unfold mirror; rewrite lookup_app_r by lia; by replace (Z.to_nat cap - length c)%nat with O by lia)).
  cbn [rbind]. rewrite Z.eqb_refl, (IsValidCapacity_ok _ (cap_ok m Hm Hm1)). cbn [cpp_assert].
  set (clones := take (Z.to_nat NumClonedBytes) (c ++ replicate (Z.to_nat NumClonedBytes) kEmpty)).
  assert (Hmir : mirror c = [] ++ (c ++ [kSentinel]) ++ clones) by (unfold mirror; by rewrite <- app_assoc).
  destruct (groups_pow m Hm Hs) as (k & Hk & Hg & Hmk).
  assert (Hg0 : 0 < groups m) by (rewrite Hg; apply Z.pow_pos_nonneg; lia).
  assert (Hgl : groups m <= N) by nia.
  rewrite Hmir. change 0 with (Z.of_nat (length (@nil Z))) at 1.
  rewrite (convert_groups_ok _ [] (c ++ [kSentinel]) clones (Z.to_nat (groups m))); [|lia| | | |].
  2: { rewrite length_app. cbn [length]. lia. }
  2: { rewrite length_app. cbn [length]. lia. }
  2: { apply Forall_app. split; [|by repeat constructor; right; right; left]. eapply Forall_impl; [exact Hok|]. apply cell_ctrl. }
  2: { cbn [length Z.of_nat]. apply Z.mod_0_l. lia. }
  cbn [rbind]. rewrite fmap_app. change (convert <$> [kSentinel]) with [kEmpty]. cbn [app].
  set (c' := convert <$> c). assert (Hl' : length c' = length c) by (unfold c'; apply length_fmap).
  assert (Hhead : take (Z.to_nat NumClonedBytes) (c' ++ replicate (Z.to_nat NumClonedBytes) kEmpty) = take (Z.to_nat NumClonedBytes) c').
  { apply take_app_le. unfold NumClonedBytes. lia. }
  assert (Hlc : length clones = Z.to_nat NumClonedBytes).
  { unfold clones. rewrite length_take, length_app, length_replicate. unfold NumClonedBytes. lia. }
  rewrite load_ok; [|lia|rewrite !length_app; cbn [length]; unfold NumClonedBytes in *; lia].
  cbn [rbind Z.to_nat]. rewrite drop_0, <- app_assoc, take_app_le by (unfold NumClonedBytes; lia).
  replace (c' ++ [kEmpty] ++ clones) with ((c' ++ [kEmpty]) ++ clones ++ []) by (by rewrite app_nil_r, <- app_assoc).
  rewrite store_app; [|rewrite length_app; cbn [length]; lia|rewrite length_take, Hlc; unfold NumClonedBytes in *; lia].
  cbn [rbind]. rewrite set_at_ok; [|rewrite !length_app; cbn [length]; lia]. f_equal. unfold mirror. rewrite Hhead.
  rewrite app_nil_r, <- app_assoc, insert_app_r_alt by lia. by replace (Z.to_nat cap - length c')%nat with O by lia.
Qed.

(** ** The loop *)

(** A byte that satisfies [P] is in no group that was passed, so it may
    change. *)
Lemma reach_replace P c h i j x y : Z.of_nat (length c) = cap -> 0 <= i < cap -> c !! Z.to_nat i = Some y -> P y = true ->
  reach m P c h j -> reach m P (<[Z.to_nat i := x]> c) h j.
Proof using HL Hm.
  intros Hlen Hi Hy HPy (n & Hn & Hj & Hclear). exists n. split; [done|]. split; [done|].
  intros n' Hn' b Hb. pose proof (off_range m Hm h n') as Hp. pose proof (N_range m Hm).
  apply (group_insert m Hm) in Hb; [|done|done|done]. destruct Hb as [Hb|[_ Hwin]]; [by eapply Hclear|]. exfalso.
  assert (Hin : y ∈ group c (off h n')).
  { apply (elem_of_group m Hm c Hlen); [done|]. exists ((i - off h n') mod N).
    split; [split; [apply Z.mod_pos_bound; lia|done]|]. by apply (cell_group m Hm). }
  specialize (Hclear n' Hn' y Hin). congruence.
Qed.

(** A slot while the table is rehashed. *)
Definition drop_slot (x : Z) (o : option V) : Prop :=
  match o with Some v => x = kDeleted \/ x = H2 (hash_of v) | None => x = kEmpty end.

Record drop_inv (t : common_fields V) (c : list Z) (i : Z) : Prop := {
  drop_view : view m t c;
  drop_len : length (slots_ t) = length c;
  drop_slots : forall j x o, c !! j = Some x -> slots_ t !! j = Some o -> drop_slot x o;
  drop_done : forall j, Z.of_nat j < i -> c !! j <> Some kDeleted;
  drop_uniq : forall a b v w, slots_ t !! a = Some (Some v) -> slots_ t !! b = Some (Some w) ->
    policy_key v = policy_key w -> a = b;
  drop_reach : forall j v, slots_ t !! j = Some (Some v) -> c !! j <> Some kDeleted ->
    reach m IsEmptyOrDeleted c (base t (hash_of v)) (Z.of_nat j)
}.

(** The element at [i] stays: its byte becomes that of a full slot. *)
Lemma drop_stay t c i v : drop_inv t c i -> 0 <= i < cap -> c !! Z.to_nat i = Some kDeleted ->
  slots_ t !! Z.to_nat i = Some (Some v) -> reach m IsEmptyOrDeleted c (base t (hash_of v)) i ->
  let t' := with_ctrl t (mirror (<[Z.to_nat i := H2 (hash_of v)]> c)) in
  SetCtrl t i (H2 (hash_of v)) = Ok t' /\ drop_inv t' (<[Z.to_nat i := H2 (hash_of v)]> c) (i + 1).
Proof using HL Hm.
  intros [Hv Hlen Hslot Hdone Huniq Hreach] Hi Hx Hiv Hri t'. pose proof (view_length m t c Hv) as Hcl.
  destruct (SetCtrl_view m Hm t c i (H2 (hash_of v)) Hv Hi (H2_cell _)) as [Hset Hv']. split; [done|].
  destruct (H2_not (hash_of v)) as (Hnd & Hned & _). split.
  - exact Hv'.
  - cbn. by rewrite length_insert.
  - intros j x o Hj Ho. apply list_lookup_insert_Some in Hj as [(<- & <- & _)|[Hne Hj]]; [|by eapply Hslot].
    cbn in Ho. rewrite Hiv in Ho. injection Ho as <-. by right.
  - intros j Hj Hd. apply list_lookup_insert_Some in Hd as [(<- & Hd & _)|[Hne Hd]]; [done|].
    apply (Hdone j); [|done]. assert (Z.of_nat j <> i) by (intros <-; rewrite Nat2Z.id in Hne; done). lia.
  - exact Huniq.
  - intros j u Hj Hnj. apply (reach_insert m Hm); [done|done|done|]. change (base t' (hash_of u)) with (base t (hash_of u)).
    destruct (decide (j = Z.to_nat i)) as [->|Hne].
    + cbn in Hj. rewrite Hiv in Hj. injection Hj as <-. by rewrite Z2Nat.id by lia.
    + apply Hreach; [done|]. by rewrite list_lookup_insert_ne in Hnj.
Qed.

(** The element at [i] goes to [j], and what was there comes to [i]: an empty
    slot or an element that is still to be placed. *)
Lemma drop_move t c i j v y o : drop_inv t c i -> 0 <= i < cap -> 0 <= j < cap -> i <> j ->
  c !! Z.to_nat i = Some kDeleted -> slots_ t !! Z.to_nat i = Some (Some v) ->
  c !! Z.to_nat j = Some y -> slots_ t !! Z.to_nat j = Some o -> non_full y -> drop_slot y o ->
  reach m IsEmptyOrDeleted c (base t (hash_of v)) j ->
  forall t' c', c' = <[Z.to_nat i := y]> (<[Z.to_nat j := H2 (hash_of v)]> c) -> view m t' c' ->
  slots_ t' = <[Z.to_nat i := o]> (<[Z.to_nat j := Some v]> (slots_ t)) -> control_ t' = control_ t ->
  drop_inv t' c' i /\ (y = kEmpty -> drop_inv t' c' (i + 1)).
Proof using HL Hm.
  intros [Hv Hlen Hslot Hdone Huniq Hreach] Hi Hj Hij Hx Hiv Hy Hjo Hny Hyo Hrj t' c' Hc' Hv' Hs' Hctl.
  pose proof (view_length m t c Hv) as Hcl. assert (Hij' : Z.to_nat i <> Z.to_nat j) by lia.
  destruct (H2_not (hash_of v)) as (Hnd & Hned & _).
  assert (Hlook : forall a, slots_ t' !! a = slots_ t !! swapped (Z.to_nat i) (Z.to_nat j) a).
  { intros a. rewrite Hs'. by apply swap_lookup. }
  assert (Hcell : forall a, c' !! a = if decide (a = Z.to_nat i) then Some y
    else if decide (a = Z.to_nat j) then Some (H2 (hash_of v)) else c !! a).
  { intros a. rewrite Hc'. pose proof (lookup_lt_Some _ _ _ Hx). pose proof (lookup_lt_Some _ _ _ Hy).
    case_decide; [subst; by rewrite list_lookup_insert_eq by (by rewrite length_insert)|].
    rewrite list_lookup_insert_ne by done. case_decide; [subst; by rewrite list_lookup_insert_eq|].
    by rewrite list_lookup_insert_ne. }
  assert (Hbase : forall h, base t' h = base t h) by (intros h; unfold base; by rewrite Hctl).
  assert (Hmain : drop_inv t' c' i).
  { split; [done| | | | |].
    - rewrite Hs', Hc'. by rewrite !length_insert.
    - intros a x ao Ha Hao. rewrite Hcell in Ha. rewrite Hlook in Hao. unfold swapped in Hao.
      repeat case_decide; [congruence| |by eapply Hslot]. rewrite Hiv in Hao. injection Hao as <-. injection Ha as <-. by right.
    - intros a Ha Hd. rewrite Hcell in Hd. repeat case_decide; [lia|congruence|by eapply Hdone].
    - intros a b u w Ha Hb Heq. rewrite Hlook in Ha, Hb. pose proof (Huniq _ _ _ _ Ha Hb Heq) as Hab.
      rewrite <- (swapped_involutive (Z.to_nat i) (Z.to_nat j) a), Hab. apply swapped_involutive.
    - intros a u Ha Hnda. rewrite Hbase, Hc'. rewrite Hcell in Hnda. rewrite Hlook in Ha. unfold swapped in Ha.
      apply (reach_replace _ _ _ _ _ _ kDeleted); [by rewrite length_insert|done|by rewrite list_lookup_insert_ne by done|done|].
      apply (reach_insert m Hm); [done|done|done|]. repeat case_decide.
      + exfalso. destruct Hny as [->| ->]; [|done]. cbn in Hyo. rewrite Hjo in Ha. injection Ha as ->.
        destruct Hyo as [Hyo|Hyo]; [done|]. pose proof (H2_range (hash_of u)). unfold kEmpty in Hyo. lia.
      + subst a. rewrite Hiv in Ha. injection Ha as <-. by rewrite Z2Nat.id by lia.
      + by apply Hreach. }
  split; [done|]. intros ->. destruct Hmain as [? ? ? Hdone' ? ?]. split; try done.
  intros a Ha. destruct (decide (Z.of_nat a < i)); [by apply Hdone'|]. rewrite Hcell, decide_True by lia. done.
Qed.

Lemma probe_index_window h pos : 0 <= h -> Z.land (pos -64 off h 0) cap / kWidth = window m h pos.
Proof using Hm.
  intros Hh. pose proof (N_range m Hm). rewrite land_capacity by lia. unfold window, u64.
  rewrite Z.mod_mod_divide.
  - rewrite seq_at_0. cbn [offset_]. by rewrite Zminus_mod_idemp_r.
  - exists (2 ^ (64 - m)). rewrite <- Z.pow_add_r by (unfold max_bits in Hm; lia). f_equal. lia.
Qed.

Definition holds_element (t : common_fields V) (v : V) : Prop := exists j, slots_ t !! j = Some (Some v).

(** What the loop keeps besides the invariant. *)
Definition same_elements (t : common_fields V) (c : list Z) (t' : common_fields V) (c' : list Z) : Prop :=
  (forall v, holds_element t' v <-> holds_element t v) /\ size_ t' = size_ t /\
  countb IsFull c' + countb IsDeleted c' = countb IsFull c + countb IsDeleted c.

Lemma same_elements_trans t c t1 c1 t2 c2 : same_elements t c t1 c1 -> same_elements t1 c1 t2 c2 -> same_elements t c t2 c2.
Proof using.
  clear Hs Hm. intros (A1 & A2 & A3) (B1 & B2 & B3). split; [|split; [congruence|lia]]. intros v. by rewrite B1, A1.
Qed.

Lemma swap_elements (t t' : common_fields V) i j x y : i <> j -> slots_ t !! i = Some x -> slots_ t !! j = Some y ->
  slots_ t' = <[i := y]> (<[j := x]> (slots_ t)) -> forall v, holds_element t' v <-> holds_element t v.
Proof using.
  intros Hij Hi Hj Hsl v. unfold holds_element. rewrite Hsl. split.
  - intros (a & Ha). rewrite (swap_lookup _ i j x y a) in Ha by done. by eexists.
  - intros (a & Ha). exists (swapped i j a). by rewrite (swap_lookup _ i j x y), swapped_involutive by done.
Qed.

(** The turn when the element at [i] belongs to another group: it moves to the
    slot [j], and what was at [j] comes to [i]. *)
Lemma drop_swap fuel t c i j v y o w : drop_inv t c i -> 0 <= i < cap -> 0 <= j < cap -> i <> j ->
  c !! Z.to_nat i = Some kDeleted -> slots_ t !! Z.to_nat i = Some (Some v) ->
  c !! Z.to_nat j = Some y -> slots_ t !! Z.to_nat j = Some o -> non_full y -> drop_slot y o ->
  reach m IsEmptyOrDeleted c (base t (hash_of v)) j ->
  exists t' c' i' w',
    (let* y := at_index (ctrl t) j in
     if IsEmpty y then
       let* t := SetCtrl t j (H2 (hash_of v)) in
       let* slots := transfer (slots_ t) j v in
       let* slots := set_at slots i None in
       let* t := SetCtrl (with_slots t slots) i kEmpty in
       drop_deletes_loop fuel t (i + 1) w
     else
       cpp_assert (IsDeleted y)
         (let* t := SetCtrl t j (H2 (hash_of v)) in
          let* tmp_space := element (slots_ t) j in
          let* slots := transfer (slots_ t) j v in
          let* slots := transfer slots i tmp_space in
          drop_deletes_loop fuel (with_slots t slots) i w)) = drop_deletes_loop fuel t' i' w' /\
    drop_inv t' c' i' /\ same_elements t c t' c' /\ i <= i' <= cap /\
    (cap - i') + countb IsDeleted c' < (cap - i) + countb IsDeleted c.
Proof using HL HPL Hm Hs.
  intros Hinv Hi Hoff Hij Hx Hiv Hy Ho Hny Hyo Hrj. pose proof Hinv as [Hv Hlen Hslot Hdone Huniq Hreach].
  pose proof (view_length m t c Hv) as Hcl. assert (Hij' : Z.to_nat i <> Z.to_nat j) by lia.
  destruct (H2_not (hash_of v)) as (Hnd & Hned & Hh2f & Hh2d).
  rewrite (ctrl_cell m Hm t c Hv j y) by (done || lia). cbn [rbind].
  destruct (SetCtrl_view m Hm t c j (H2 (hash_of v)) Hv Hoff (H2_cell _)) as [Hset Hv1].
  set (c1 := <[Z.to_nat j := H2 (hash_of v)]> c) in *.
  assert (Hx1 : c1 !! Z.to_nat i = Some kDeleted) by (unfold c1; by rewrite list_lookup_insert_ne).
  destruct (drop_move t c i j v y o Hinv Hi Hoff Hij Hx Hiv Hy Ho Hny Hyo Hrj
    (with_slots (with_ctrl t (mirror (<[Z.to_nat i := y]> c1))) (<[Z.to_nat i := o]> (<[Z.to_nat j := Some v]> (slots_ t))))
    (<[Z.to_nat i := y]> c1) eq_refl) as [Hmove Hmove'].
  { assert (Hyc : cell_ok y) by (by eapply Forall_lookup_1; [apply (view_cells m t c Hv)|]).
    destruct (SetCtrl_view m Hm (with_ctrl t (mirror c1)) c1 i y Hv1 Hi Hyc) as [_ Hv2]. exact Hv2. }
  { done. } { done. }
  set (t' := with_slots _ _) in *.
  assert (Hsame : same_elements t c t' (<[Z.to_nat i := y]> c1)).
  { split; [by apply (swap_elements t t' (Z.to_nat i) (Z.to_nat j) (Some v) o)|]. split; [done|].
    rewrite !(countb_insert _ _ _ _ _ Hx1). unfold c1. rewrite !(countb_insert _ _ _ _ _ Hy), Hh2f, Hh2d.
    destruct Hny as [->| ->]; cbn; lia. }
  assert (Hset_slots : forall l : list (option V), length l = length (slots_ t) -> forall k z, 0 <= k < cap ->
    set_at l k z = Ok (<[Z.to_nat k := z]> l)) by (intros; apply set_at_ok; lia).
  destruct (IsEmpty y) eqn:Ey.
  - apply IsEmpty_spec in Ey. subst y. assert (o = None) as ->.
    { destruct o as [u|]; [|done]. destruct Hyo as [Hyo|Hyo]; [done|]. pose proof (H2_range (hash_of u)). unfold kEmpty in Hyo. lia. }
    rewrite Hset. cbn [rbind]. unfold transfer. cbn [slots_ with_ctrl]. rewrite Hset_slots by done. cbn [rbind].
    rewrite Hset_slots by (by rewrite ?length_insert). cbn [rbind].
    destruct (SetCtrl_view m Hm (with_slots (with_ctrl t (mirror c1)) (<[Z.to_nat i := None]> (<[Z.to_nat j := Some v]> (slots_ t)))) c1 i kEmpty)
      as [Hset2 _]; [exact Hv1|done|by left|]. rewrite Hset2. cbn [rbind].
    exists t', (<[Z.to_nat i := kEmpty]> c1), (i + 1), w. split; [done|]. split; [by apply Hmove'|]. split; [done|].
    split; [lia|]. rewrite (countb_insert _ _ _ _ _ Hx1). unfold c1. rewrite (countb_insert _ _ _ _ _ Hy), Hh2d. cbn. lia.
  - assert (y = kDeleted) as -> by (destruct Hny as [->| ->]; done). change (IsDeleted kDeleted) with true. cbn [cpp_assert].
    assert (exists u, o = Some u) as [u ->] by (destruct o as [u|]; [by exists u|done]).
    rewrite Hset. cbn [rbind slots_ with_ctrl]. rewrite (proj1 (element_ok _ _ _ (proj1 Hoff)) Ho). cbn [rbind].
    unfold transfer. rewrite Hset_slots by done. cbn [rbind]. rewrite Hset_slots by (by rewrite ?length_insert). cbn [rbind].
    exists t', (<[Z.to_nat i := kDeleted]> c1), i, w. split; [unfold t'; by rewrite (list_insert_id c1)|].
    split; [done|]. split; [done|]. split; [lia|].
    rewrite (countb_insert _ _ _ _ _ Hx1). unfold c1. rewrite (countb_insert _ _ _ _ _ Hy), Hh2d. cbn. lia.
Qed.

(** One turn of the loop at a slot that is marked: it stays, or it moves. *)
Lemma drop_turn fuel t c i w v : drop_inv t c i -> 0 <= i < cap -> c !! Z.to_nat i = Some kDeleted ->
  slots_ t !! Z.to_nat i = Some (Some v) ->
  exists t' c' i' w', drop_deletes_loop (S fuel) t i w = drop_deletes_loop fuel t' i' w' /\
    drop_inv t' c' i' /\ same_elements t c t' c' /\ i <= i' <= cap /\
    (cap - i') + countb IsDeleted c' < (cap - i) + countb IsDeleted c.
Proof using HL HPL Hm Hs.
  intros Hinv Hi Hx Hiv. pose proof Hinv as [Hv Hlen Hslot Hdone Huniq Hreach]. pose proof (view_length m t c Hv) as Hcl.
  widths. set (h := base t (hash_of v)). pose proof (base_nonneg m t c Hv _ (hasher_word (policy_key v))) as Hh. fold h in Hh.
  cbn [drop_deletes_loop]. rewrite (proj1 Hv), (proj2 (Z.eqb_neq i cap)) by lia.
  rewrite (ctrl_cell m Hm t c Hv i kDeleted) by (done || lia). cbn [rbind]. change (negb (IsDeleted kDeleted)) with false. cbn match.
  rewrite (proj1 (element_ok _ _ _ (proj1 Hi)) Hiv). cbn [rbind].
  destruct (ffnf_room m Hm t c _ w i kDeleted Hv (hasher_word (policy_key v)) Hi Hx (or_intror eq_refl))
    as (r & w' & y & Hr & Hoff & Hy & Hny & Hrj). rewrite Hr. cbn [rbind]. fold h in Hrj. set (j := offset r) in *.
  pose proof (probe_view m Hm t c Hv _ (hasher_word (policy_key v))) as Hprobe. rewrite (proj1 Hv) in Hprobe.
  rewrite Hprobe. cbn [rbind]. fold h.
  rewrite !probe_index_window by done. destruct (H2_not (hash_of v)) as (Hnd & Hned & Hh2f & Hh2d).
  destruct (window m h j =? window m h i) eqn:Hw; bools.
  - assert (Hri : reach m IsEmptyOrDeleted c h i).
    { destruct Hrj as (n & Hn & Hjn & Hcl'). exists n. split; [done|]. split; [|done].
      rewrite (window_iff m Hm) in * by done. congruence. }
    destruct (drop_stay t c i v Hinv Hi Hx Hiv Hri) as [-> Hinv']. cbn [rbind].
    eexists _, _, (i + 1), w'. split; [done|]. split; [exact Hinv'|]. split; [|split; [lia|]].
    + split; [done|]. split; [done|]. rewrite !(countb_insert _ _ _ _ _ Hx), Hh2f, Hh2d. cbn. lia.
    + rewrite (countb_insert _ _ _ _ _ Hx), Hh2d. cbn. lia.
  - destruct (lookup_lt_is_Some_2 (slots_ t) (Z.to_nat j) ltac:(lia)) as [o Ho].
    apply (drop_swap fuel t c i j v y o w'); try done; [congruence|by eapply Hslot].
Qed.

Lemma drop_loop_ok fuel t c i w : drop_inv t c i -> 0 <= i <= cap -> (cap - i) + countb IsDeleted c < Z.of_nat fuel ->
  exists t' w' c', drop_deletes_loop fuel t i w = Ok (t', w') /\ drop_inv t' c' cap /\ same_elements t c t' c'.
Proof using HL HPL Hm Hs.
  revert t c i w. induction fuel as [|fuel IH]; intros t c i w Hinv Hi Hfuel.
  { pose proof (countb_range IsDeleted c). lia. }
  pose proof (drop_view t c i Hinv) as Hv. pose proof (view_length m t c Hv) as Hcl.
  destruct (decide (i = cap)) as [->|Hne].
  - exists t, w, c. split; [cbn [drop_deletes_loop]; by rewrite (proj1 Hv), Z.eqb_refl|]. split; [done|]. done.
  - destruct (lookup_lt_is_Some_2 c (Z.to_nat i) ltac:(lia)) as [x Hx].
    destruct (decide (x = kDeleted)) as [->|Hxd].
    + destruct (lookup_lt_is_Some_2 (slots_ t) (Z.to_nat i)) as [o Ho]; [rewrite (drop_len t c i Hinv); lia|].
      pose proof (drop_slots t c i Hinv _ _ _ Hx Ho) as Hso. destruct o as [v|]; [|done].
      destruct (drop_turn fuel t c i w v Hinv ltac:(lia) Hx Ho) as (t1 & c1 & i1 & w1 & -> & Hinv1 & Hsame & Hi1 & Hlt).
      destruct (IH t1 c1 i1 w1 Hinv1 ltac:(lia) ltac:(lia)) as (t2 & w2 & c2 & Hr & Hinv2 & Hsame2).
      exists t2, w2, c2. split; [done|]. split; [done|]. by eapply same_elements_trans.
    + destruct (IH t c (i + 1) w) as (t2 & w2 & c2 & Hr & Hinv2 & Hsame2).
      * destruct Hinv as [H1 H2 H3 H4 H5 H6]. split; try done. intros j Hj Hd.
        destruct (decide (Z.of_nat j = i)) as [<-|]; [rewrite Nat2Z.id in Hx; congruence|]. apply (H4 j); [lia|done].
      * lia.
      * lia.
      * exists t2, w2, c2. split; [|done]. cbn [drop_deletes_loop]. rewrite (proj1 Hv), (proj2 (Z.eqb_neq i cap)) by done.
        rewrite (ctrl_cell m Hm t c Hv i x) by (done || lia). cbn [rbind].
        assert (Hnd : IsDeleted x = false) by (by apply Z.eqb_neq). by rewrite Hnd.
Qed.
End drop.

(** * making room and inserting (lemmas for Table.v)

    [prepare_insert] returns a slot for a new key whatever the state of the
    table: it rehashes in place or grows when the growth is used up. The table
    it returns already carries the control byte of the element, which
    [emplace_at] or [transfer] then constructs. *)

Section insert.
Context {K V : Type} `{EqDecision K, Countable K}.
Context {HG : Group} {HL : GroupLaws} {HB : Build} {HM : Memory}.
Context `{HP : SetPolicy K V} {HPL : PolicyLaws K V}.

Notation hash_of v := (hasher (policy_key v)).

(** The invariant of the lookups reads four fields. *)
Lemma lookup_inv_ext m (t t' : common_fields V) c : control_ t' = control_ t -> ctrl t' = ctrl t ->
  slots_ t' = slots_ t -> capacity_ t' = capacity_ t -> lookup_inv m t c -> lookup_inv m t' c.
Proof using.
  intros E1 E2 E3 E4 [(A1 & A2 & A3 & A4 & A5) B C D E]. split.
  - split; [congruence|]. split; [done|]. split; [done|]. split; [by rewrite E1|congruence].
  - by rewrite E3.
  - by rewrite E3.
  - by rewrite E3.
  - intros i v. rewrite E3. unfold base. rewrite E1. apply E.
Qed.

Lemma counts_ok_ext m (t t' : common_fields V) c : size_ t' = size_ t -> growth_left_ t' = growth_left_ t ->
  counts_ok m t c -> counts_ok m t' c.
Proof using.
  intros E1 E2 [A B C D]. rewrite <- E1 in A. rewrite <- E2 in C, D. split; try done.
  rewrite size_eq in *. by rewrite E1.
Qed.

Lemma represents_same s s' mp : (forall v : V, (exists j, s' !! j = Some (Some v)) <-> exists j, s !! j = Some (Some v)) ->
  represents s mp -> represents s' mp.
Proof using.
  intros Hs Hr k v. rewrite (Hr k v). split.
  - intros (i & Hi & Hk). destruct (proj2 (Hs v)) as (j & Hj); [by exists i|]. by exists j.
  - intros (i & Hi & Hk). destruct (proj1 (Hs v)) as (j & Hj); [by exists i|]. by exists j.
Qed.

Lemma represents_insert s mp i v : s !! i = Some None -> mp !! policy_key v = None -> represents s mp ->
  represents (<[i := Some v]> s) (<[policy_key v := v]> mp).
Proof using.
  intros Hi Hk Hr k u. destruct (decide (policy_key v = k)) as [<-|Hne].
  - rewrite lookup_insert_eq. split.
    + intros [= <-]. exists i. split; [|done]. apply list_lookup_insert_eq. by eapply lookup_lt_Some.
    + intros (j & Hj & Hu). apply list_lookup_insert_Some in Hj as [(_ & [= <-] & _)|[_ Hj]]; [done|]. exfalso.
      assert (Hsome : mp !! policy_key v = Some u) by (apply Hr; by exists j). congruence.
  - rewrite lookup_insert_ne by done. rewrite (Hr k u). split.
    + intros (j & Hj & Hu). exists j. split; [|done]. rewrite list_lookup_insert_ne; [done|]. intros ->. congruence.
    + intros (j & Hj & Hu). exists j. split; [|done].
      apply list_lookup_insert_Some in Hj as [(_ & [= <-] & _)|[_ Hj]]; [done|done].
Qed.

(** A key that the map does not have is not in the slots. *)
Lemma represents_fresh s mp k : represents s mp -> mp !! k = None ->
  forall j u, s !! j = Some (Some u) -> policy_key u <> k.
Proof using.
  intros Hr Hk j u Hj Hu. assert (Hsome : mp !! k = Some u) by (apply Hr; by exists j). congruence.
Qed.

(** ** Rehashing *)

(** The marks that the loop starts from. *)
Lemma drop_start m t c : 1 <= m <= max_bits -> lookup_inv m t c ->
  drop_inv m (with_ctrl t (mirror (convert <$> c))) (convert <$> c) 0 /\
  countb IsFull (convert <$> c) + countb IsDeleted (convert <$> c) = countb IsFull c.
Proof using HL.
  intros Hm Hl. assert (Hm0 : 0 <= m <= max_bits) by lia. pose proof Hl as [Hv Hlen Hslot Huniq _].
  pose proof (view_length m t c Hv) as Hcl. pose proof (view_cells m t c Hv) as Hcells. pose proof (N_range m Hm0). split.
  - assert (Hlook : forall j x, (convert <$> c) !! j = Some x -> exists y, c !! j = Some y /\ cell_ok y /\ x = convert y).
    { intros j x Hj. rewrite list_lookup_fmap in Hj. destruct (c !! j) as [y|] eqn:Hy; [|done].
      exists y. split; [done|]. split; [exact (Forall_lookup_1 _ _ _ _ Hcells Hy)|]. cbn in Hj. congruence. }
    split; cbn [with_ctrl slots_].
    + destruct Hv as (A1 & A2 & A3 & A4 & A5). split; [done|]. split; [by rewrite length_fmap|].
      split; [|split; [done|by rewrite (proj2 (Z.eqb_neq m 0)) by lia]].
      apply Forall_fmap, Forall_true. intros x. unfold compose, convert, cell_ok. destruct (IsFull x); tauto.
    + by rewrite length_fmap.
    + intros j x o Hx Ho. apply Hlook in Hx as (y & Hy & Hyc & ->). pose proof (Hslot _ _ _ Hy Ho) as Hso.
      destruct o as [v|]; cbn in Hso |- *; [|by destruct Hso as [->| ->]].
      left. subst y. unfold convert. by destruct (H2_not (hash_of v)) as (_ & _ & -> & _).
    + intros j Hj. lia.
    + exact Huniq.
    + intros j v Hj Hnd. exfalso. destruct (lookup_lt_is_Some_2 c j) as [y Hy]; [apply lookup_lt_Some in Hj; lia|].
      pose proof (Hslot _ _ _ Hy Hj) as Hso. cbn in Hso. apply Hnd. rewrite list_lookup_fmap, Hy. cbn. f_equal.
      subst y. unfold convert. by destruct (H2_not (hash_of v)) as (_ & _ & -> & _).
  - clear. induction c as [|x c IH]; [done|]. rewrite fmap_cons, !countb_cons, <- IH. unfold convert.
    destruct (IsFull x); cbn; lia.
Qed.

(** Where the loop ends, every element has been placed. *)
Lemma drop_end m t c : 0 <= m <= max_bits -> drop_inv m t c (2 ^ m - 1) -> lookup_inv m t c /\ countb IsDeleted c = 0.
Proof using HL.
  intros Hm [Hv Hlen Hslot Hdone Huniq Hreach]. pose proof (view_length m t c Hv) as Hcl.
  assert (Hnodel : forall j x, c !! j = Some x -> x <> kDeleted).
  { intros j x Hj ->. apply (Hdone j); [|done]. apply lookup_lt_Some in Hj. lia. }
  split; [split; try done|].
  - intros j x o Hx Ho. pose proof (Hslot _ _ _ Hx Ho) as Hso. destruct o as [v|]; cbn in Hso |- *; [|by left].
    destruct Hso as [->|]; [|done]. exfalso. by eapply Hnodel.
  - intros j v Hj. eapply (reach_weaken m Hm); [done|by apply (view_cells m t c Hv)| |apply Hreach; [done|]].
    + intros b Hb Hp. destruct (IsEmpty b) eqn:E; [|done]. apply IsEmpty_spec in E as ->. done.
    + intros Hd. by eapply Hnodel.
  - destruct (decide (countb IsDeleted c = 0)) as [|Hne]; [done|]. exfalso. pose proof (countb_range IsDeleted c).
    assert (Hpos : 0 < countb IsDeleted c) by lia. apply countb_pos in Hpos as (j & x & Hj & Hx).
    apply Z.eqb_eq in Hx. by eapply Hnodel.
Qed.

Lemma DropDeletes_ok m t c mp w : 0 <= m <= max_bits -> is_small (2 ^ m - 1) = false ->
  lookup_inv m t c -> counts_ok m t c -> represents (slots_ t) mp ->
  exists t' w' c', DropDeletesWithoutResize t w = Ok (t', w') /\ lookup_inv m t' c' /\ counts_ok m t' c' /\
    represents (slots_ t') mp /\ growth_left_ t' = growth_of (2 ^ m - 1) - size t /\ size t' = size t.
Proof using HL HPL.
  intros Hm Hs Hl Hc Hr. pose proof (inv_view m t c Hl) as Hv. pose proof (view_length m t c Hv) as Hcl. pose proof (N_range m Hm).
  assert (Hm1 : 1 <= m).
  { destruct (decide (m = 0)) as [->|]; [|lia]. apply not_small_spec in Hs. pose proof (width_cases (HL := HL)). cbn in Hs. lia. }
  pose proof (cap_ok m Hm Hm1) as Hcap. pose proof (counts_range m Hm t c Hl Hc) as [Hsr _]. pose proof Hc as [Hcw Hcs _ _].
  pose proof (growth_cap m Hm) as [Hgc _].
  unfold DropDeletesWithoutResize. rewrite (proj1 Hv), (IsValidCapacity_ok _ Hcap), Hs. cbn [cpp_assert negb].
  assert (Hctrl : ctrl t = mirror c).
  { destruct Hv as (_ & _ & _ & _ & ->). by rewrite (proj2 (Z.eqb_neq m 0)) by lia. }
  rewrite Hctrl, (Convert_mirror m Hm Hs c Hcl (view_cells m t c Hv)). cbn [rbind].
  destruct (drop_start m t c ltac:(lia) Hl) as [Hinv0 Hcount]. set (c0 := convert <$> c) in *.
  pose proof (countb_range IsDeleted c0) as Hd0. assert (Hlc0 : length c0 = length c) by (unfold c0; apply length_fmap).
  destruct (drop_loop_ok m Hm Hs (S (2 * Z.to_nat (2 ^ m - 1))) _ c0 0 w Hinv0) as (t1 & w1 & c1 & -> & Hinv1 & Hel & Hsz & Hcnt);
    [lia|lia|]. cbn [rbind with_ctrl size_] in Hsz |- *.
  destruct (drop_end m t1 c1 Hm Hinv1) as [Hl1 Hd1]. pose proof (inv_view m t1 c1 Hl1) as Hv1.
  assert (Hs1 : size t1 = size t) by (rewrite !size_eq; by rewrite Hsz).
  unfold ResetGrowthLeft. rewrite (proj1 Hv1), (CapacityToGrowth_eq _ Hcap). cbn [rbind]. rewrite Hs1, u64_id by lia.
  eexists _, w1, c1. split; [done|]. split; [by apply (lookup_inv_ext m t1)|]. split; [|split; [|split; [done|exact Hs1]]].
  - split; cbn [set_growth_left size_ growth_left_]; [by rewrite Hsz|change (size t1 = countb IsFull c1); lia|lia|lia].
  - eapply represents_same; [|exact Hr]. exact Hel.
Qed.

(** A doubled table has a larger growth. *)
Lemma growth_next m : 0 <= m <= max_bits -> growth_of (2 ^ m - 1) < growth_of (2 ^ (m + 1) - 1).
Proof using HL.
  intros Hm. pose proof (N_range m Hm). pose proof (growth_cap m Hm) as [Hgc _].
  unfold growth_of at 2. rewrite Z.pow_add_r by lia. change (2 ^ 1) with 2.
  destruct ((kWidth =? 8) && (2 ^ m * 2 - 1 =? 7)) eqn:E; bools; [lia|].
  assert ((2 ^ m * 2 - 1) / 8 < 2 ^ m) by (apply Z.div_lt_upper_bound; lia). lia.
Qed.

(** After a rehash there is room without using a deleted slot. *)
Lemma rehash_and_grow_ok m t c mp w : 0 <= m <= max_bits -> lookup_inv m t c -> counts_ok m t c ->
  represents (slots_ t) mp -> 2 ^ m - 1 < 2 ^ 59 ->
  exists t' w' m' c', rehash_and_grow_if_necessary t w = Ok (t', w') /\ m <= m' <= m + 1 /\ m' <= max_bits /\
    lookup_inv m' t' c' /\ counts_ok m' t' c' /\ represents (slots_ t') mp /\ 0 < growth_left_ t' /\ growth_left_ t' = growth_of (2 ^ m' - 1) - size t.
Proof using HL HPL.
  intros Hm Hl Hc Hr Hlt. pose proof (inv_view m t c Hl) as Hv. pose proof (N_range m Hm).
  pose proof (counts_range m Hm t c Hl Hc) as [Hsr _]. pose proof Hc as [Hcw Hcs _ _].
  pose proof (growth_cap m Hm) as [Hgc _]. pose proof (width_cases (HL := HL)) as Hwc.
  unfold rehash_and_grow_if_necessary. rewrite (proj1 Hv).
  destruct ((kWidth <? 2 ^ m - 1) && (size t *64 32 <=? (2 ^ m - 1) *64 25)) eqn:Hcond.
  - apply andb_true_iff in Hcond as [Hc1 Hc2]. apply Z.ltb_lt in Hc1. apply Z.leb_le in Hc2. assert (Hmm : m < 60).
    { apply (Z.pow_lt_mono_r_iff 2); lia. }
    assert (Hsmall : is_small (2 ^ m - 1) = false) by (apply Z.ltb_ge; lia).
    destruct (DropDeletes_ok m t c mp w Hm Hsmall Hl Hc Hr) as (t' & w' & c' & Hd & Hl' & Hc' & Hr' & Hg' & Hs').
    exists t', w', m, c'. split; [done|]. split; [lia|]. split; [lia|]. do 3 (split; [done|]). split; [|done].
    rewrite Hg'. rewrite !u64_id in Hc2 by lia. unfold growth_of.
    pose proof (Z.mul_div_le (2 ^ m - 1) 8 ltac:(done)).
    destruct ((kWidth =? 8) && (2 ^ m - 1 =? 7)) eqn:E; bools; lia.
  - clear Hcond. destruct (NextCapacity_ok (2 ^ m - 1)) as [-> Hok].
    { destruct (decide (m = 0)) as [->|]; [by right|left; apply cap_ok; lia]. }
    { done. }
    cbn [rbind]. assert (Hm60 : m + 1 <= max_bits).
    { unfold max_bits. assert (m < 60); [|lia]. apply (Z.pow_lt_mono_r_iff 2); lia. }
    replace (2 * (2 ^ m - 1) + 1) with (2 ^ (m + 1) - 1) in * by (rewrite Z.pow_add_r by lia; lia).
    assert (Hgrow : size t < growth_of (2 ^ (m + 1) - 1)) by (pose proof (growth_next m Hm); lia).
    destruct (resize_ok t mp m c (m + 1) w Hm Hl Hr Hcs Hcw ltac:(lia) ltac:(lia)) as (t' & w' & c' & -> & Hl' & Hc' & Hr' & Hd' & Hs').
    exists t', w', (m + 1), c'. split; [done|]. split; [lia|]. split; [done|]. do 3 (split; [done|]).
    destruct Hc' as [_ Hcs' _ Hg']. lia.
Qed.

(** ** prepare_insert *)

(** A table with a slot for [v]: writing [v] there gives the invariant. *)
Definition prepared (t : common_fields V) (i : Z) (v : V) (mp : gmap K V) : Prop :=
  exists m c, 0 <= m <= max_bits /\ lookup_inv m (with_slots t (<[Z.to_nat i := Some v]> (slots_ t))) c /\
    counts_ok m t c /\ represents (slots_ t) mp /\ 0 <= i < 2 ^ m - 1 /\ slots_ t !! Z.to_nat i = Some None.

(** The part of the growth that elements and deleted bytes have used, and
    how an insertion changes it: by one at most, and the capacity grows only
    where the growth is used up. *)
Definition used (t : common_fields V) : Z := growth_of (capacity_ t) - growth_left_ t.

Definition grown (k : Z) (t t' : common_fields V) : Prop :=
  used t' <= used t + k /\
  (capacity_ t' = capacity_ t \/ growth_left_ t = 0 /\ capacity_ t' = 2 * capacity_ t + 1).

(** The tail of [prepare_insert], once the target is known. *)
Definition claim_slot (t : common_fields V) (target : FindInfo) (hash : Z) (w : World) : result (Z * common_fields V * World) :=
  let* t := increment_size t in
  let* x := at_index (ctrl t) (offset target) in
  let t := set_growth_left t (growth_left_ t -64 (if IsEmpty x then 1 else 0)) in
  let* t := SetCtrl t (offset target) (H2 hash) in
  let t := with_gen t (maybe_increment_generation_on_insert (gen_ t)) in
  Ok (offset target, t, w).

Lemma claim_slot_ok m t c mp v w : 0 <= m <= max_bits -> 2 ^ m - 1 < 2 ^ 60 -> lookup_inv m t c -> counts_ok m t c ->
  represents (slots_ t) mp -> mp !! policy_key v = None -> 0 < countb IsEmpty c + countb IsDeleted c ->
  exists r w' x, find_first_non_full t (hash_of v) w = Ok (r, w') /\ at_index (ctrl t) (offset r) = Ok x /\
    (x = kDeleted \/ 0 < growth_left_ t -> exists t', claim_slot t r (hash_of v) w' = Ok (offset r, t', w') /\
       prepared t' (offset r) v mp /\ capacity_ t' = capacity_ t /\ growth_left_ t - 1 <= growth_left_ t').
Proof using HL HPL.
  intros Hm Hlt Hl Hc Hr Hk Hroom. pose proof (inv_view m t c Hl) as Hv. pose proof (view_length m t c Hv) as Hcl.
  destruct (put_new m Hm t c v w Hl (represents_fresh _ _ _ Hr Hk) Hroom)
    as (r & w' & x & t0 & Hf & Hoff & Hx & Hnx & _ & Ht0 & Hnone & Hinv).
  exists r, w', x. split; [done|]. split; [by apply (ctrl_cell m Hm t c Hv); [lia|]|]. intros Hgl.
  destruct Hc as [Hcw Hcs Hcl0 Hcg]. pose proof (countb_partition c (view_cells m t c Hv)) as Hpart.
  pose proof (countb_range IsFull c). pose proof (countb_range IsDeleted c). pose proof (growth_cap m Hm) as [Hgc _].
  destruct (increment_size_ok t Hcw) as (z & Hinc & Hzw & Hz); [rewrite (proj1 Hv); lia|rewrite (proj1 Hv); lia|].
  unfold claim_slot. rewrite Hinc. cbn [rbind ctrl with_size].
  rewrite (ctrl_cell m Hm t c Hv (offset r) x) by (done || lia). cbn [rbind].
  set (g := growth_left_ (with_size t z) -64 (if IsEmpty x then 1 else 0)).
  assert (Hg : g = growth_left_ t - (if IsEmpty x then 1 else 0) /\ 0 <= g).
  { unfold g. cbn [growth_left_ with_size]. destruct (IsEmpty x) eqn:E.
    - apply IsEmpty_spec in E. destruct Hgl as [Hgl|Hgl]; [rewrite E in Hgl; done|]. rewrite u64_id by lia. lia.
    - rewrite u64_id by lia. lia. }
  set (t1 := set_growth_left (with_size t z) g).
  assert (Hv1 : view m t1 c) by exact Hv.
  destruct (SetCtrl_view m Hm t1 c (offset r) (H2 (hash_of v)) Hv1 Hoff (H2_cell _)) as [Hset _]. rewrite Hset. cbn [rbind].
  eexists. split; [done|].
  enough (Hp : prepared (with_gen (with_ctrl t1 (mirror (<[Z.to_nat (offset r) := H2 (hash_of v)]> c)))
    (maybe_increment_generation_on_insert (gen_ (with_ctrl t1 (mirror (<[Z.to_nat (offset r) := H2 (hash_of v)]> c)))))) (offset r) v mp).
  { split; [exact Hp|]. split; [done|]. cbn [growth_left_ with_gen with_ctrl]. change (growth_left_ t1) with g. destruct (IsEmpty x); lia. }
  destruct (H2_not (hash_of v)) as (_ & _ & Hh2f & Hh2d). assert (Hh2e : IsEmpty (H2 (hash_of v)) = false).
  { pose proof (H2_range (hash_of v)). apply Z.eqb_neq. unfold kEmpty. lia. }
  exists m, (<[Z.to_nat (offset r) := H2 (hash_of v)]> c). split; [done|]. split; [|split; [|split; [exact Hr|split; [done|exact Hnone]]]].
  - eapply lookup_inv_ext; [..|exact Hinv]; by rewrite Ht0.
  - split.
    + exact Hzw.
    + rewrite size_eq. change (z / 2 = countb IsFull (<[Z.to_nat (offset r) := H2 (hash_of v)]> c)).
      rewrite Hz, (countb_insert _ _ _ _ _ Hx), Hh2f. destruct Hnx as [->| ->]; cbn; lia.
    + exact (proj2 Hg).
    + cbn [growth_left_ with_gen with_ctrl]. change (growth_left_ t1) with g.
      rewrite !(countb_insert _ _ _ _ _ Hx), Hh2f, Hh2d, (proj1 Hg). destruct Hnx as [->| ->]; cbn; lia.
Qed.

(** Room in the sense of [growth_left]. *)
Lemma growth_room m t c : 0 <= m <= max_bits -> lookup_inv m t c -> counts_ok m t c -> 0 < growth_left_ t ->
  0 < countb IsEmpty c + countb IsDeleted c.
Proof using HL.
  intros Hm Hl [_ _ _ Hg] Hpos. pose proof (inv_view m t c Hl) as Hv.
  pose proof (countb_partition c (view_cells m t c Hv)) as Hp. rewrite (view_length m t c Hv) in Hp.
  pose proof (growth_cap m Hm) as [Hgc _]. pose proof (countb_range IsDeleted c). lia.
Qed.

(** The first search of [prepare_insert] ends; when the growth is used up it
    may have found nothing useful. *)
Lemma first_search m t c mp v w : 0 <= m <= max_bits -> 2 ^ m - 1 < 2 ^ 60 -> lookup_inv m t c -> counts_ok m t c ->
  represents (slots_ t) mp -> mp !! policy_key v = None ->
  exists r w' x, find_first_non_full t (hash_of v) w = Ok (r, w') /\ at_index (ctrl t) (offset r) = Ok x /\
    (x = kDeleted \/ 0 < growth_left_ t -> exists t', claim_slot t r (hash_of v) w' = Ok (offset r, t', w') /\
       prepared t' (offset r) v mp /\ capacity_ t' = capacity_ t /\ growth_left_ t - 1 <= growth_left_ t').
Proof using HL HPL.
  intros Hm Hlt Hl Hc Hr Hk.
  pose proof (countb_range IsEmpty c). pose proof (countb_range IsDeleted c).
  destruct (decide (0 < countb IsEmpty c + countb IsDeleted c)) as [Hroom|Hfull].
  { by apply (claim_slot_ok m t c). }
  pose proof (inv_view m t c Hl) as Hv. pose proof (view_length m t c Hv) as Hcl. pose proof (N_range m Hm).
  destruct (inv_room m Hm t c Hl Hc) as [Hs|Hin].
  - destruct (ffnf_small m Hm t c _ w Hv (hasher_word (policy_key v)) Hs) as (r & w' & Hf & Hoff).
    destruct (decide (offset r = 2 ^ m - 1)) as [Heq|Hne].
    + exists r, w', kSentinel. split; [done|]. split; [rewrite Heq; by apply (ctrl_sentinel m Hm t c Hv)|].
      intros [?|Hg]; [done|]. pose proof (growth_room m t c Hm Hl Hc Hg). lia.
    + destruct (lookup_lt_is_Some_2 c (Z.to_nat (offset r)) ltac:(lia)) as [x Hx].
      exists r, w', x. split; [done|]. split; [by apply (ctrl_cell m Hm t c Hv); [lia|]|].
      intros [->|Hg]; [|pose proof (growth_room m t c Hm Hl Hc Hg); lia].
      assert (0 < countb IsDeleted c) by (apply countb_pos; by exists (Z.to_nat (offset r)), kDeleted). lia.
  - apply list_elem_of_lookup in Hin as (i & Hi).
    assert (0 < countb IsEmpty c) by (apply countb_pos; by exists i, kEmpty). lia.
Qed.

(** The part of [prepare_insert] behind the check of the generations. *)
Definition place_new (rehashed : bool) (t : common_fields V) (hash : Z) (w : World) : result (Z * common_fields V * World) :=
  let* r := find_first_non_full t hash w in
  let '(target, w) := r in
  let* x := at_index (ctrl t) (offset target) in
  let* r :=
    if negb rehashed && ((growth_left_ t =? 0) && negb (IsDeleted x)) then
      let* r := rehash_and_grow_if_necessary t w in
      let '(c, w) := r in
      let* r := find_first_non_full c hash w in
      let '(target, w) := r in Ok (target, c, w)
    else Ok (target, t, w) in
  let '(target, c, w) := r in claim_slot c target hash w.

Lemma capacity_le (m k : Z) : 0 <= m -> 0 <= k -> 2 ^ m - 1 < 2 ^ k -> m <= k.
Proof using.
  intros Hm Hk Hlt. assert (m < k + 1); [|lia]. apply (Z.pow_lt_mono_r_iff 2); [done|lia|]. rewrite Z.pow_add_r by lia.
  pose proof (Z.pow_pos_nonneg 2 k ltac:(done) Hk). lia.
Qed.

Lemma place_new_ok b m t c mp v w : 0 <= m <= 59 -> lookup_inv m t c -> counts_ok m t c ->
  represents (slots_ t) mp -> mp !! policy_key v = None -> (b = true -> 0 < growth_left_ t) ->
  exists i t' w', place_new b t (hash_of v) w = Ok (i, t', w') /\ prepared t' i v mp /\ grown 1 t t' /\
    (b = true -> capacity_ t' = capacity_ t).
Proof using HL HPL.
  intros Hm Hl Hc Hr Hk Hb. assert (Hm60 : 0 <= m <= max_bits) by (unfold max_bits; lia).
  pose proof (N_range m Hm60). assert (Hp59 : 2 ^ m <= 2 ^ 59) by (apply Z.pow_le_mono_r; lia).
  destruct (first_search m t c mp v w Hm60 ltac:(lia) Hl Hc Hr Hk) as (r & w3 & x & Hsearch & Hx & Hclaim).
  unfold place_new. rewrite Hsearch. cbn [rbind]. rewrite Hx. cbn [rbind].
  destruct (negb b && ((growth_left_ t =? 0) && negb (IsDeleted x))) eqn:Hcond.
  - destruct (rehash_and_grow_ok m t c mp w3 Hm60 Hl Hc Hr ltac:(lia)) as (t2 & w4 & m2 & c2 & -> & Hm2 & Hm2' & Hl2 & Hc2 & Hr2 & Hg2 & Hgl2).
    cbn [rbind]. assert (Hp60 : 2 ^ m2 <= 2 ^ 60) by (apply Z.pow_le_mono_r; unfold max_bits in *; lia).
    destruct (first_search m2 t2 c2 mp v w4 ltac:(lia) ltac:(lia) Hl2 Hc2 Hr2 Hk) as (r2 & w5 & x2 & -> & Hx2 & Hclaim2).
    cbn [rbind]. destruct (Hclaim2 (or_intror Hg2)) as (t' & -> & Hp & Hcap' & Hg').
    apply andb_true_iff in Hcond as [Hnb Hcond]. apply andb_true_iff in Hcond as [Hz _]. apply Z.eqb_eq in Hz.
    pose proof (proj1 (inv_view m t c Hl)) as Hcap. pose proof (proj1 (inv_view m2 t2 c2 Hl2)) as Hcap2.
    destruct Hc as [_ Hcs _ Hcg]. pose proof (countb_range IsDeleted c).
    eexists _, _, _. split; [done|]. split; [exact Hp|]. split; [split|by destruct b].
    + unfold used. rewrite Hcap', Hcap2, Hcap. lia.
    + rewrite Hcap', Hcap2, Hcap. destruct (decide (m2 = m)) as [->|]; [by left|right]. split; [done|].
      replace m2 with (m + 1) by lia. rewrite Z.pow_add_r by lia. lia.
  - destruct Hclaim as (t' & Hcl & Hp & Hcap & Hg).
    { destruct b; [right; by apply Hb|]. cbn [negb andb] in Hcond. apply andb_false_iff in Hcond as [Hz|Hd].
      - right. apply Z.eqb_neq in Hz. destruct Hc as [_ _ ? _]. lia.
      - left. apply negb_false_iff in Hd. by apply Z.eqb_eq in Hd. }
    cbn [rbind]. rewrite Hcl. eexists _, _, _. split; [done|]. split; [exact Hp|]. split; [|by intros _].
    split; [|by left]. unfold used. rewrite Hcap. lia.
Qed.

(** The check of the generations never fails. *)
Lemma should_rehash_ok m (t : common_fields V) c w : 0 <= m <= max_bits -> view m t c ->
  exists b w1, should_rehash_for_bug_detection_on_insert (gen_ t) (control_ t) (capacity_ t) w = Ok (b, w1).
Proof using HL.
  intros Hm Hv. pose proof (N_range m Hm). unfold should_rehash_for_bug_detection_on_insert.
  repeat case_match; try by eexists _, _. unfold probe, new_probe_seq. rewrite (proj1 Hv). rewrite u64_id by lia.
  rewrite land_capacity, Z.sub_add by lia. rewrite Z_mod_same_full. cbn. by eexists _, _.
Qed.

(** The rehash that the generations ask for: to the same capacity where the
    growth is not used up, else to the next one. *)
Lemma bug_detection_ok m t c mp w : 0 <= m <= 58 -> lookup_inv m t c -> counts_ok m t c -> represents (slots_ t) mp ->
  exists n t' w' m' c', (if 0 <? growth_left_ t then Ok (capacity_ t) else NextCapacity (capacity_ t)) = Ok n /\
    resize t n w = Ok (t', w') /\ 1 <= m' <= 59 /\ lookup_inv m' t' c' /\ counts_ok m' t' c' /\
    represents (slots_ t') mp /\ 0 < growth_left_ t' /\ grown 0 t t'.
Proof using HL HPL.
  intros Hm Hl Hc Hr. assert (Hm60 : 0 <= m <= max_bits) by (unfold max_bits; lia). pose proof (N_range m Hm60).
  pose proof (inv_view m t c Hl) as Hv. pose proof (counts_range m Hm60 t c Hl Hc) as [Hsr _].
  pose proof Hc as [Hcw Hcs Hcl Hcg]. pose proof (countb_range IsDeleted c). pose proof (countb_range IsFull c).
  assert (Hp58 : 2 ^ m <= 2 ^ 58) by (apply Z.pow_le_mono_r; lia).
  assert (Hres : exists n m1, (if 0 <? growth_left_ t then Ok (capacity_ t) else NextCapacity (capacity_ t)) = Ok n /\
    n = 2 ^ m1 - 1 /\ 1 <= m1 <= 59 /\ size t < growth_of (2 ^ m1 - 1) /\ (m1 = m \/ growth_left_ t = 0 /\ m1 = m + 1)).
  { rewrite (proj1 Hv). destruct (0 <? growth_left_ t) eqn:Hg; bools.
    - exists (2 ^ m - 1), m. split; [done|]. split; [done|]. split; [|split; [lia|by left]].
      pose proof (growth_cap m Hm60) as [Hgc _]. destruct (decide (m = 0)) as [->|]; [|lia]. change (2 ^ 0) with 1 in *. lia.
    - destruct (NextCapacity_ok (2 ^ m - 1)) as [-> _]; [destruct (decide (m = 0)) as [->|]; [by right|left; apply cap_ok; lia]|lia|].
      exists (2 * (2 ^ m - 1) + 1), (m + 1). pose proof (growth_next m Hm60). split; [done|].
      split; [rewrite Z.pow_add_r by lia; lia|]. split; [lia|]. split; [lia|]. right. lia. }
  destruct Hres as (n & m1 & Hn & -> & Hm1 & Hgr & Hcase). exists (2 ^ m1 - 1).
  destruct (resize_ok t mp m c m1 w Hm60 Hl Hr Hcs Hcw ltac:(unfold max_bits; lia) ltac:(lia))
    as (t1 & w2 & c1 & Hrs & Hl1 & Hc1 & Hr1 & Hd1 & Hs1).
  exists t1, w2, m1, c1. split; [done|]. split; [done|]. do 4 (split; [done|]). destruct Hc1 as [_ Hcs1 _ Hcg1].
  split; [lia|]. pose proof (proj1 (inv_view m1 t1 c1 Hl1)) as Hcap1. pose proof (proj1 Hv) as Hcap. split.
  - unfold used. rewrite Hcap1, Hcap. lia.
  - rewrite Hcap1, Hcap. destruct Hcase as [->|[Hz ->]]; [by left|right]. split; [done|]. rewrite Z.pow_add_r by lia. lia.
Qed.

Lemma prepare_insert_ok t mp v w : table_inv t -> represents (slots_ t) mp -> mp !! policy_key v = None ->
  capacity_ t < 2 ^ 58 ->
  exists i t' w', prepare_insert t (hash_of v) w = Ok (i, t', w') /\ prepared t' i v mp /\ grown 1 t t'.
Proof using HL HPL.
  intros (m & c & Hm & Hl & Hc) Hr Hk Hcap. pose proof (inv_view m t c Hl) as Hv. rewrite (proj1 Hv) in Hcap.
  pose proof (capacity_le m 58 ltac:(lia) ltac:(done) Hcap) as Hm58.
  destruct (should_rehash_ok m t c w Hm Hv) as (b & w1 & Hbug).
  change (prepare_insert t (hash_of v) w) with
    (let* r := should_rehash_for_bug_detection_on_insert (gen_ t) (control_ t) (capacity_ t) w in
     let '(b, w) := r in
     let* r := if b then let cap := capacity_ t in
                 let* n := if 0 <? growth_left_ t then Ok cap else NextCapacity cap in resize t n w
               else Ok (t, w) in
     let '(c, w) := r in place_new b c (hash_of v) w).
  rewrite Hbug. cbn [rbind]. destruct b; cbn [rbind].
  - destruct (bug_detection_ok m t c mp w1 ltac:(lia) Hl Hc Hr) as (n & t1 & w2 & m1 & c1 & -> & Hrs & Hm1 & Hl1 & Hc1 & Hr1 & Hg1 & Hgr1).
    cbn [rbind]. rewrite Hrs. cbn [rbind].
    destruct (place_new_ok true m1 t1 c1 mp v w2 ltac:(lia) Hl1 Hc1 Hr1 Hk ltac:(done)) as (i & t' & w' & Hp & Hprep & Hgr & Hsame).
    exists i, t', w'. split; [done|]. split; [done|]. destruct Hgr as [Hu _]. destruct Hgr1 as [Hu1 Hc01].
    split; [lia|]. by rewrite (Hsame eq_refl).
  - destruct (place_new_ok false m t c mp v w1 ltac:(lia) Hl Hc Hr Hk ltac:(done)) as (i & t' & w' & Hp & Hprep & Hgr & _).
    by exists i, t', w'.
Qed.
End insert.
