(* ===== verification/TableErase.v ===== *)
(** * TableErase: erasing and iterating (lemmas for Table.v)

    [EraseMetaOnly] leaves an empty byte when no probe sequence can have
    passed the slot, and a deleted one otherwise. An iterator visits the full
    slots in the order of the array. *)

From S2P Require Import Prelude.
From S2P Require Import Word.
From S2P Require Import BitMask.
From S2P Require Import Group.
From S2P Require Import Capacity.
From S2P Require Import Probe.
From S2P Require Import Table.
From S2P Require Import CellsInv.
From S2P Require Import TableFind.
From S2P Require Import TableRep.
From S2P Require Import TableDrop.

(** The prefix that [leading] counts. *)
Lemma leading_bounds {A} (p : A -> bool) l : 0 <= leading p l <= Z.of_nat (length l).
Proof. induction l as [|a l IH]; [done|]. cbn [leading length]. destruct (p a); lia. Qed.

Lemma leading_prefix {A} (p : A -> bool) l a b : Z.of_nat a < leading p l -> l !! a = Some b -> p b = true.
Proof.
  revert a. induction l as [|x l IH]; intros a Ha Hb; [done|]. cbn [leading] in Ha. destruct (p x) eqn:Hp; [|lia].
  destruct a as [|a]; [by injection Hb as <-|]. apply (IH a); [lia|done].
Qed.

Lemma leading_pos {A} (p : A -> bool) l b : l !! 0%nat = Some b -> p b = true -> 0 < leading p l.
Proof.
  destruct l as [|x l]; [done|]. intros [= ->] Hp. cbn [leading]. rewrite Hp. pose proof (leading_bounds p l). lia.
Qed.

Section erase.
Context {K V : Type} `{EqDecision K, Countable K}.
Context {HG : Group} {HL : GroupLaws} {HB : Build} {HM : Memory}.
Context `{HP : SetPolicy K V} {HPL : PolicyLaws K V}.

Notation hash_of v := (hasher (policy_key v)).

Lemma represents_delete s mp i v : s !! i = Some (Some v) ->
  (forall a b u w, s !! a = Some (Some u) -> s !! b = Some (Some w) -> policy_key u = policy_key w -> a = b) ->
  represents s mp -> represents (<[i := None]> s) (delete (policy_key v) mp).
Proof using.
  intros Hi Huniq Hr k u. destruct (decide (policy_key v = k)) as [<-|Hne].
  - rewrite lookup_delete_eq. split; [done|]. intros (j & Hj & Hk).
    apply list_lookup_insert_Some in Hj as [(_ & ? & _)|[Hne Hj]]; [done|]. exfalso. apply Hne. by eapply Huniq.
  - rewrite lookup_delete_ne by done. rewrite (Hr k u). split.
    + intros (j & Hj & Hu). exists j. split; [|done]. rewrite list_lookup_insert_ne; [done|]. intros ->. congruence.
    + intros (j & Hj & Hu). apply list_lookup_insert_Some in Hj as [(_ & ? & _)|[_ Hj]]; [done|]. by exists j.
Qed.

Section at_index.
Context (m : Z) (Hm : 0 <= m <= max_bits) (t : common_fields V) (c : list Z).
Context (Hl : lookup_inv m t c) (Hc : counts_ok m t c).

Notation N := (2 ^ m).
Notation cap := (2 ^ m - 1).

(** What [EraseMetaOnly] computes: whether the runs of bytes that are not
    empty on both sides of the slot are shorter than a group. *)
Definition never_full (empty_before empty_after : Z) : result bool :=
  if mask_bool empty_before && mask_bool empty_after then
    let* a := mask_TrailingZeros empty_after in
    let* b := LeadingZeros empty_before in
    Ok (a +64 b <? kWidth)
  else Ok false.

Lemma never_full_ok i : 0 <= i < cap ->
  let after := group c i in let before := group c ((i - kWidth) mod N) in
  exists b, never_full (MaskEmpty before) (MaskEmpty after) = Ok b /\
    (b = true -> exists tz lz, 0 <= tz < kWidth /\ after !! Z.to_nat tz = Some kEmpty /\
       0 <= lz < kWidth /\ before !! Z.to_nat (kWidth - 1 - lz) = Some kEmpty /\ tz + lz < kWidth).
Proof using HL Hl Hm.
  intros Hi after before. pose proof (inv_view m t c Hl) as Hv. pose proof (view_length m t c Hv) as Hcl.
  pose proof (N_range m Hm) as HN. pose proof (width_cases (HL := HL)) as Hwc.
  assert (Hg : forall p, 0 <= p < N -> Forall ctrl_ok (group c p) /\ Z.of_nat (length (group c p)) = kWidth).
  { intros p Hp. split; [apply (group_ok m Hm c Hcl), (view_cells m t c Hv)|by apply (group_length m Hm)]. }
  assert (Hbp : 0 <= (i - kWidth) mod N < N) by (apply Z.mod_pos_bound; lia).
  destruct (Hg i ltac:(lia)) as [Hoka Hla]. destruct (Hg _ Hbp) as [Hokb Hlb]. fold after in Hoka, Hla. fold before in Hokb, Hlb.
  pose proof (MaskEmpty_spec _ Hoka Hla) as Hma. pose proof (MaskEmpty_spec _ Hokb Hlb) as Hmb.
  unfold never_full. rewrite (mask_bool_spec group_mask_ok _ _ Hma), (mask_bool_spec group_mask_ok _ _ Hmb).
  destruct (existsb id (IsEmpty <$> before)) eqn:Eb; cbn [andb]; [|by exists false].
  destruct (existsb id (IsEmpty <$> after)) eqn:Ea; [|by exists false].
  destruct (first_true _ _ Ea) as (ka & ra & Hqa & (ba & Hba & Hea) & _).
  destruct (last_true _ _ Eb) as (kb & rb & Hqb & bb & Hbb & Heb).
  rewrite Hqa in Hma. rewrite (mask_TrailingZeros_spec group_mask_ok _ _ _ Hma). cbn [rbind].
  rewrite Hqb in Hmb. rewrite (LeadingZeros_spec group_mask_ok _ _ _ Hmb). cbn [rbind].
  apply IsEmpty_spec in Hea as ->. apply IsEmpty_spec in Heb as ->.
  pose proof (lookup_lt_Some _ _ _ Hba). pose proof (f_equal length Hqb) as Hlq.
  rewrite length_fmap, length_app in Hlq. cbn [length] in Hlq. rewrite length_replicate in Hlq.
  rewrite u64_id by lia. eexists. split; [done|]. intros Hb. bools.
  exists (Z.of_nat ka), (Z.of_nat kb). split; [lia|]. split; [by rewrite Nat2Z.id|]. split; [lia|]. split; [|lia].
  by replace (Z.to_nat (kWidth - 1 - Z.of_nat kb)) with (length rb) by lia.
Qed.

(** A slot is emptied and its byte becomes empty or deleted. *)
Lemma erased_inv i v (b : bool) (t' : common_fields V) : 0 <= i -> slots_ t !! Z.to_nat i = Some (Some v) ->
  let x := if b then kEmpty else kDeleted in
  (b = true -> exists tz lz, 0 <= tz < kWidth /\ group c i !! Z.to_nat tz = Some kEmpty /\
     0 <= lz < kWidth /\ group c ((i - kWidth) mod N) !! Z.to_nat (kWidth - 1 - lz) = Some kEmpty /\ tz + lz < kWidth) ->
  view m t' (<[Z.to_nat i := x]> c) -> slots_ t' = <[Z.to_nat i := None]> (slots_ t) ->
  (forall h, base t' h = base t h) -> lookup_inv m t' (<[Z.to_nat i := x]> c).
Proof using HL Hl Hm.
  intros Hi0 Hiv x Hb Hv' Hs' Hbase. pose proof Hl as [Hv Hlen Hslot Huniq Hreach].
  pose proof (view_length m t c Hv) as Hcl. pose proof (lookup_lt_Some _ _ _ Hiv). assert (Hi : 0 <= i < cap) by lia.
  destruct (lookup_lt_is_Some_2 c (Z.to_nat i) ltac:(lia)) as [y Hy]. pose proof (Hslot _ _ _ Hy Hiv) as Hyh. cbn in Hyh. subst y.
  split; rewrite ?Hs'.
  - exact Hv'.
  - by rewrite !length_insert.
  - intros j y o Hj Ho.
    apply list_lookup_insert_Some in Hj as [(<- & <- & _)|[Hne Hj]].
    + rewrite list_lookup_insert_eq in Ho by lia. injection Ho as <-. unfold x. destruct b; [by left|by right].
    + rewrite list_lookup_insert_ne in Ho by done. by eapply Hslot.
  - intros a a' u w Ha Ha'.
    apply list_lookup_insert_Some in Ha as [(_ & ? & _)|[_ Ha]]; [done|].
    apply list_lookup_insert_Some in Ha' as [(_ & ? & _)|[_ Ha']]; [done|]. by apply Huniq.
  - intros j u Hj. apply list_lookup_insert_Some in Hj as [(_ & ? & _)|[_ Hj]]; [done|].
    rewrite Hbase. pose proof (Hreach j u Hj) as Hrj.
    destruct b; [|by apply (reach_insert m Hm)].
    destruct (is_small cap) eqn:Es; [by apply (small_reach m Hm)|].
    destruct (Hb eq_refl) as (tz & lz & Htz & Ha & Hlz & Hbf & Hsum).
    by apply (reach_erase m Hm c _ i _ tz lz).
Qed.

Lemma EraseMetaOnly_ok i v mp : 0 <= i -> slots_ t !! Z.to_nat i = Some (Some v) -> represents (slots_ t) mp ->
  exists t', EraseMetaOnly (with_slots t (<[Z.to_nat i := None]> (slots_ t))) i = Ok t' /\
    rep t' (delete (policy_key v) mp) /\ slots_ t' = <[Z.to_nat i := None]> (slots_ t) /\ capacity_ t' = capacity_ t /\
    growth_left_ t <= growth_left_ t'.
Proof using HL Hc Hl Hm.
  intros Hi0 Hiv Hr. pose proof Hl as [Hv Hlen Hslot Huniq Hreach]. pose proof Hc as [Hcw Hcs Hcl0 Hcg].
  pose proof (view_length m t c Hv) as Hcl. pose proof (N_range m Hm) as HN. pose proof (width_cases (HL := HL)) as Hwc.
  pose proof (lookup_lt_Some _ _ _ Hiv). assert (Hi : 0 <= i < cap) by lia.
  destruct (lookup_lt_is_Some_2 c (Z.to_nat i) ltac:(lia)) as [x Hx]. pose proof (Hslot _ _ _ Hx Hiv) as Hxh. cbn in Hxh. subst x.
  destruct (H2_not (hash_of v)) as (_ & _ & Hh2f & Hh2d).
  assert (Hpos : 0 < countb IsFull c) by (apply countb_pos; by eexists _, _).
  set (t0 := with_slots t (<[Z.to_nat i := None]> (slots_ t))). assert (Hv0 : view m t0 c) by exact Hv.
  unfold EraseMetaOnly. rewrite (ctrl_cell m Hm t0 c Hv0 i _ Hi0 Hx). cbn [rbind]. rewrite Hh2f. cbn [cpp_assert].
  destruct (decrement_size_ok t0 Hcw) as (z & -> & Hzw & Hz); [change (size t0) with (size t); lia|]. cbn [rbind].
  set (t1 := with_size t0 z). assert (Hv1 : view m t1 c) by exact Hv. cbv zeta.
  change (capacity_ t1) with (capacity_ t). rewrite (proj1 Hv), land_capacity by lia.
  assert (Hbefore : (i -64 kWidth) mod N = (i - kWidth) mod N).
  { unfold u64. apply Z.mod_mod_divide. exists (2 ^ (64 - m)). unfold max_bits in Hm. rewrite <- Z.pow_add_r by lia. f_equal. lia. }
  rewrite Hbefore. pose proof (Z.mod_pos_bound (i - kWidth) N ltac:(lia)) as Hbp.
  rewrite !(group_at_view m Hm t1 c Hv1) by lia. cbn [rbind].
  destruct (never_full_ok i Hi) as (b & Hnf & Hb). unfold never_full in Hnf. rewrite Hnf. cbn [rbind].
  set (x := if b then kEmpty else kDeleted). assert (Hx' : cell_ok x) by (unfold x; destruct b; [by left|by right; left]).
  destruct (SetCtrl_view m Hm t1 c i x Hv1 Hi Hx') as [-> Hv2]. cbn [rbind].
  set (t2 := with_ctrl t1 _) in *. pose proof (countb_range IsDeleted c). pose proof (growth_cap m Hm) as [Hgc _].
  assert (Hgl : growth_left_ t2 +64 (if b then 1 else 0) = growth_left_ t + (if b then 1 else 0)).
  { change (growth_left_ t2) with (growth_left_ t). apply u64_id. destruct b; lia. }
  eexists. split; [done|]. rewrite Hgl. split; [|split; [done|split; [exact (proj1 Hv)|cbn [growth_left_ set_growth_left]; destruct b; lia]]]. split.
  - exists m, (<[Z.to_nat i := x]> c). split; [done|]. split.
    + eapply (lookup_inv_ext m t2); try done. by apply (erased_inv i v b t2).
    + split.
      * exact Hzw.
      * rewrite size_eq. change (z / 2 = countb IsFull (<[Z.to_nat i := x]> c)). change (size t0) with (size t) in Hz.
        rewrite Hz, (countb_insert _ _ _ _ _ Hx), Hh2f. unfold x. destruct b; cbn; lia.
      * cbn [growth_left_ set_growth_left]. destruct b; lia.
      * cbn [growth_left_ set_growth_left]. rewrite !(countb_insert _ _ _ _ _ Hx), Hh2f, Hh2d. unfold x. destruct b; cbn; lia.
  - change (represents (<[Z.to_nat i := None]> (slots_ t)) (delete (policy_key v) mp)). by apply represents_delete.
Qed.

Lemma erase_at_ok i v mp : 0 <= i -> slots_ t !! Z.to_nat i = Some (Some v) -> represents (slots_ t) mp ->
  exists t', erase_at t i = Ok t' /\ rep t' (delete (policy_key v) mp) /\
    slots_ t' = <[Z.to_nat i := None]> (slots_ t) /\ capacity_ t' = capacity_ t /\
    growth_left_ t <= growth_left_ t'.
Proof using HL Hc Hl Hm.
  intros Hi0 Hiv Hr. pose proof Hl as [Hv Hlen Hslot _ _]. pose proof (lookup_lt_Some _ _ _ Hiv) as Hlt.
  destruct (lookup_lt_is_Some_2 c (Z.to_nat i) ltac:(lia)) as [x Hx]. pose proof (Hslot _ _ _ Hx Hiv) as Hxh. cbn in Hxh. subst x.
  unfold erase_at. rewrite (ctrl_cell m Hm t c Hv i _ Hi0 Hx). cbn [rbind].
  destruct (H2_not (hash_of v)) as (_ & _ & -> & _). cbn [cpp_assert].
  rewrite (proj1 (element_ok _ _ _ Hi0) Hiv). cbn [rbind]. rewrite set_at_ok by lia. cbn [rbind].
  by apply EraseMetaOnly_ok.
Qed.

(** ** Iteration *)

(** The bytes that an iterator skips are not full. *)
Lemma skip_ok fuel i : 0 <= i <= cap -> cap - i < Z.of_nat fuel ->
  exists r, skip_empty_or_deleted fuel t i = Ok r /\
    match r with
    | Some j => i <= j < cap /\ (exists x, c !! Z.to_nat j = Some x /\ IsFull x = true) /\
                forall a x, i <= Z.of_nat a < j -> c !! a = Some x -> IsFull x = false
    | None => forall a x, i <= Z.of_nat a -> c !! a = Some x -> IsFull x = false
    end.
Proof using HL Hl Hm.
  revert i. induction fuel as [|fuel IH]; intros i Hi Hfuel; [lia|].
  pose proof Hl as [Hv Hlen Hslot _ _]. pose proof (view_length m t c Hv) as Hcl. pose proof (view_cells m t c Hv) as Hcells.
  pose proof (N_range m Hm) as HN. pose proof (width_cases (HL := HL)) as Hwc. cbn [skip_empty_or_deleted].
  destruct (decide (i = cap)) as [->|Hne].
  { rewrite (ctrl_sentinel m Hm t c Hv). cbn [rbind]. exists None. split; [done|]. intros a x Ha Hx. apply lookup_lt_Some in Hx. lia. }
  destruct (lookup_lt_is_Some_2 c (Z.to_nat i) ltac:(lia)) as [x Hx]. pose proof (Forall_lookup_1 _ _ _ _ Hcells Hx) as Hxc.
  rewrite (ctrl_cell m Hm t c Hv i x) by (done || lia). cbn [rbind].
  destruct (IsEmptyOrDeleted x) eqn:Hed.
  - rewrite (group_at_view m Hm t c Hv) by lia. cbn [rbind].
    assert (Hok : Forall ctrl_ok (group c i)) by (by apply (group_ok m Hm c Hcl)).
    assert (Hgl : Z.of_nat (length (group c i)) = kWidth) by (apply (group_length m Hm c Hcl); lia).
    rewrite (CountLeadingEmptyOrDeleted_spec _ Hok Hgl). cbn [rbind].
    set (n := leading IsEmptyOrDeleted (group c i)). pose proof (leading_bounds IsEmptyOrDeleted (group c i)) as Hnb. fold n in Hnb.
    assert (Hpos : 0 < n).
    { apply (leading_pos _ _ x); [|done]. change 0%nat with (Z.to_nat 0).
      rewrite (group_lookup m Hm c Hcl), Z.add_0_r by lia. unfold mirror. by rewrite lookup_app_l by lia. }
    assert (Hread : forall a, 0 <= a < n -> exists b, mirror c !! Z.to_nat (i + a) = Some b /\ IsEmptyOrDeleted b = true).
    { intros a Ha. destruct (lookup_lt_is_Some_2 (group c i) (Z.to_nat a) ltac:(lia)) as [b Hb]. exists b.
      rewrite <- (group_lookup m Hm c Hcl) by lia. split; [done|]. apply (leading_prefix _ (group c i) (Z.to_nat a)); [fold n; lia|done]. }
    assert (Hle : i + n <= cap).
    { destruct (decide (i + n <= cap)); [done|]. exfalso. destruct (Hread (cap - i)) as (b & Hb & Heb); [lia|].
      replace (i + (cap - i)) with cap in Hb by lia. rewrite (mirror_lookup m Hm c Hcl) in Hb by lia.
      rewrite Z.ltb_irrefl, Z.eqb_refl in Hb. injection Hb as <-. done. }
    assert (Hskip : forall a y, i <= Z.of_nat a < i + n -> c !! a = Some y -> IsFull y = false).
    { intros a y Ha Hy. destruct (Hread (Z.of_nat a - i)) as (b & Hb & Heb); [lia|].
      replace (i + (Z.of_nat a - i)) with (Z.of_nat a) in Hb by lia. rewrite Nat2Z.id in Hb.
      unfold mirror in Hb. rewrite lookup_app_l in Hb by (by eapply lookup_lt_Some). rewrite Hy in Hb. injection Hb as <-.
      destruct (cell_cases y (Forall_lookup_1 _ _ _ _ Hcells Hy)) as [(_ & _ & _ & E & _)|[(_ & _ & _ & E & _)|(_ & _ & _ & _ & E)]]; congruence. }
    destruct (IH (i + n)) as (r & Hr & Hspec); [lia|lia|]. exists r. split; [done|]. destruct r as [j|].
    + destruct Hspec as (Hj & Hfull & Hbetween). split; [lia|]. split; [done|]. intros a y Ha Hy.
      destruct (decide (Z.of_nat a < i + n)); [by apply (Hskip a y); [lia|]|]. by apply (Hbetween a y); [lia|].
    + intros a y Ha Hy. destruct (decide (Z.of_nat a < i + n)); [by apply (Hskip a y); [lia|]|]. by apply (Hspec a y); [lia|].
  - assert (Hf : IsFull x = true /\ (x =? kSentinel) = false).
    { destruct (cell_cases x Hxc) as [(_ & _ & _ & _ & E)|[(_ & _ & _ & _ & E)|(Hx0 & _ & _ & E & _)]]; [congruence|congruence|].
      split; [done|]. apply Z.eqb_neq. unfold kSentinel. lia. }
    destruct Hf as [Hf ->]. exists (Some i). split; [done|]. split; [lia|]. split; [by exists x|]. intros a y Ha. lia.
Qed.

(** The elements from position [i] on, in the order of the slots. *)
Definition from (i : Z) : list V := omap id (drop (Z.to_nat i) (slots_ t)).

Lemma from_skip i j : 0 <= i <= j -> (forall a x, i <= Z.of_nat a < j -> c !! a = Some x -> IsFull x = false) -> from i = from j.
Proof using Hl.
  intros Hij Hnone. pose proof Hl as [_ Hlen Hslot _ _]. unfold from.
  assert (Hd : drop (Z.to_nat i) (slots_ t) = take (Z.to_nat (j - i)) (drop (Z.to_nat i) (slots_ t)) ++ drop (Z.to_nat j) (slots_ t)).
  { rewrite <- (take_drop (Z.to_nat (j - i)) (drop (Z.to_nat i) (slots_ t))) at 1. f_equal. rewrite drop_drop. f_equal. lia. }
  rewrite Hd, omap_app. assert (Hz : omap id (take (Z.to_nat (j - i)) (drop (Z.to_nat i) (slots_ t))) = []); [|by rewrite Hz].
  apply nil_length_inv. destruct (omap id _) as [|v l] eqn:E; [done|]. exfalso.
  assert (Hv : v ∈ omap id (take (Z.to_nat (j - i)) (drop (Z.to_nat i) (slots_ t)))) by (rewrite E; by left).
  apply list_elem_of_omap in Hv as (o & Ho & Hid). cbn in Hid. subst o. apply list_elem_of_lookup in Ho as (a & Ha).
  pose proof (lookup_lt_Some _ _ _ Ha) as Hla. rewrite length_take in Hla.
  rewrite lookup_take_lt in Ha by lia. rewrite lookup_drop in Ha.
  destruct (lookup_lt_is_Some_2 c (Z.to_nat i + a)) as [x Hx]; [apply lookup_lt_Some in Ha; lia|].
  pose proof (Hslot _ _ _ Hx Ha) as Hs. cbn in Hs. subst x. pose proof (fun Hb => Hnone (Z.to_nat i + a)%nat _ Hb Hx) as Hnf. specialize (Hnf ltac:(lia)).
  destruct (H2_not (hash_of v)) as (_ & _ & Hf & _). congruence.
Qed.

(** What an iterator shows: nothing, or the first of the elements left. *)
Lemma skip_from fuel i : 0 <= i <= cap -> cap - i < Z.of_nat fuel ->
  (skip_empty_or_deleted fuel t i = Ok None /\ from i = []) \/
  exists j v, skip_empty_or_deleted fuel t i = Ok (Some j) /\ i <= j < cap /\ slots_ t !! Z.to_nat j = Some (Some v) /\
    c !! Z.to_nat j = Some (H2 (hash_of v)) /\ from i = v :: from (j + 1).
Proof using HL Hl Hm.
  intros Hi Hfuel. pose proof Hl as [Hv Hlen Hslot _ _]. pose proof (view_length m t c Hv) as Hcl.
  destruct (skip_ok fuel i Hi Hfuel) as (r & -> & Hspec). destruct r as [j|].
  - right. destruct Hspec as (Hj & (x & Hx & Hf) & Hbetween).
    destruct (lookup_lt_is_Some_2 (slots_ t) (Z.to_nat j) ltac:(lia)) as [o Ho].
    destruct (full_slot x o) as (v & -> & ->); [exact (Forall_lookup_1 _ _ _ _ (view_cells m t c Hv) Hx)|by eapply Hslot|done|].
    exists j, v. split; [done|]. split; [done|]. split; [done|]. split; [done|].
    rewrite (from_skip i j) by (done || lia). unfold from. rewrite (drop_S _ _ _ Ho). cbn. f_equal. f_equal. f_equal. lia.
  - left. split; [done|]. rewrite (from_skip i (cap)); [|lia|intros a x Ha; exact (Hspec a x (proj1 Ha))].
    unfold from. rewrite drop_ge by lia. done.
Qed.

Lemma iterate_ok fuel i it : 0 <= i <= cap -> Z.of_nat (length (from i)) < Z.of_nat fuel ->
  (it = None /\ from i = [] \/ exists j v, it = Some j /\ i <= j < cap /\ slots_ t !! Z.to_nat j = Some (Some v) /\
    c !! Z.to_nat j = Some (H2 (hash_of v)) /\ from i = v :: from (j + 1)) ->
  iterate fuel t it = Ok (from i).
Proof using HL Hl Hm.
  clear Hc. revert i it. induction fuel as [|fuel IH]; intros i it Hi Hfuel Hit; [lia|].
  pose proof Hl as [Hv Hlen _ _ _]. cbn [iterate]. destruct Hit as [[-> ->]|(j & v & -> & Hj & Hjv & Hx & Heq)]; [done|].
  rewrite (ctrl_cell m Hm t c Hv j _) by (done || lia). cbn [rbind].
  destruct (H2_not (hash_of v)) as (_ & _ & Hf & _). rewrite Hf. cbn [cpp_assert].
  assert (Hj0 : 0 <= j) by lia. rewrite (proj1 (element_ok _ _ _ Hj0) Hjv). cbn [rbind].
  unfold iterator_next. rewrite (ctrl_cell m Hm t c Hv j _) by (done || lia). cbn [rbind]. rewrite Hf. cbn [cpp_assert].
  assert (Hlc : cap < Z.of_nat (S (length (ctrl t)))).
  { destruct Hv as (_ & Hcl & _ & _ & ->). destruct (m =? 0) eqn:E; bools.
    - subst m. cbn. lia.
    - pose proof (mirror_length m Hm c Hcl). pose proof (width_cases (HL := HL)). lia. }
  rewrite Heq in Hfuel |- *. cbn [length] in Hfuel.
  destruct (skip_from (S (length (ctrl t))) (j + 1)) as [[-> Hn]|(j' & v' & -> & Hj' & Hjv' & Hx' & Heq')]; [lia|lia| |]; cbn [rbind].
  - rewrite (IH (j + 1) None) by (try (by left); lia). done.
  - rewrite (IH (j + 1) (Some j')) by (try (right; by exists j', v'); lia). done.
Qed.

Lemma elements_ok : elements t = Ok (omap id (slots_ t)).
Proof using HL Hl Hm.
  clear Hc. pose proof Hl as [Hv Hlen _ _ _]. pose proof (view_length m t c Hv) as Hcl. pose proof (N_range m Hm).
  assert (Hlc : cap < Z.of_nat (S (length (ctrl t)))).
  { destruct Hv as (_ & _ & _ & _ & ->). destruct (m =? 0) eqn:E; bools.
    - subst m. cbn. lia.
    - pose proof (mirror_length m Hm c Hcl). pose proof (width_cases (HL := HL)). lia. }
  unfold elements, begin. change (omap id (slots_ t)) with (from 0).
  assert (Hfl : Z.of_nat (length (from 0)) < Z.of_nat (S (Z.to_nat (capacity_ t)))).
  { unfold from. rewrite drop_0, (proj1 Hv).
    assert (length (omap id (slots_ t)) <= length (slots_ t))%nat; [|lia]. clear. induction (slots_ t) as [|[v|] l IH]; cbn; lia. }
  destruct (skip_from (S (length (ctrl t))) 0) as [[-> Hn]|(j & v & -> & Hj)]; [lia|lia| |]; cbn [rbind].
  - apply iterate_ok; [lia|done|]. by left.
  - apply iterate_ok; [lia|done|]. right. by exists j, v.
Qed.
End at_index.
End erase.

(** * the operations of the table against finite maps (lemmas for Table.v)

    [rep t mp] relates a table to the map of its elements by their keys. Each
    operation of [raw_hash_set] succeeds in a table that represents a map and
    leaves one that represents the map the operation is meant to compute. *)

Section ops.
Context {K V : Type} `{EqDecision K, Countable K}.
Context {HG : Group} {HL : GroupLaws} {HB : Build} {HM : Memory}.
Context `{HP : SetPolicy K V} {HPL : PolicyLaws K V}.

Notation hash_of v := (hasher (policy_key v)).
Notation table := (common_fields V).

(** ** Looking up *)

Lemma find_ok (t : table) mp k : rep t mp ->
  (exists j v, find t k = Ok (Some (Z.of_nat j)) /\ slots_ t !! j = Some (Some v) /\ policy_key v = k /\ mp !! k = Some v) \/
  (find t k = Ok None /\ mp !! k = None).
Proof using HL HPL.
  intros [(m & c & Hm & Hl & Hc) Hr]. destruct (find_correct m Hm t c Hl k (inv_room m Hm t c Hl Hc)) as [(j & v & Hf & Hj & Hk)|[Hf Hno]].
  - left. exists j, v. split; [done|]. split; [done|]. split; [done|]. apply Hr. by exists j.
  - right. split; [done|]. destruct (mp !! k) as [v|] eqn:E; [|done]. exfalso. apply Hr in E as (j & Hj & Hk). by apply (Hno j v).
Qed.

(** ** Inserting *)

Definition fill (t : table) (i : Z) (v : V) : table := with_slots t (<[Z.to_nat i := Some v]> (slots_ t)).

Lemma fill_ok (t : table) i v mp : prepared t i v mp -> mp !! policy_key v = None ->
  rep (fill t i v) (<[policy_key v := v]> mp) /\ set_at (slots_ t) i (Some v) = Ok (slots_ (fill t i v)) /\
  element (slots_ (fill t i v)) i = Ok v.
Proof using.
  intros (m & c & Hm & Hl & Hc & Hr & Hi & Hnone) Hk. pose proof (lookup_lt_Some _ _ _ Hnone). split; [|split].
  - split; [|by apply represents_insert]. exists m, c. split; [done|]. split; [exact Hl|]. by apply (counts_ok_ext m t).
  - apply set_at_ok. lia.
  - apply element_ok; [lia|]. apply list_lookup_insert_eq. lia.
Qed.

(** The element whose key is [k] is at one index only. *)
Lemma index_unique (t : table) mp i j v u : rep t mp -> slots_ t !! i = Some (Some v) -> slots_ t !! j = Some (Some u) ->
  policy_key v = policy_key u -> i = j.
Proof using. intros [(m & c & _ & Hl & _) _]. by apply (inv_uniq m t c Hl). Qed.

Lemma emplace_at_ok (t : table) i v mp : prepared t i v mp -> mp !! policy_key v = None ->
  emplace_at t i v = Ok (fill t i v).
Proof using HL HPL.
  intros Hp Hk. destruct (fill_ok t i v mp Hp Hk) as (Hrep & Hset & Hel). unfold emplace_at. rewrite Hset. cbn [rbind].
  change (with_slots t (slots_ (fill t i v))) with (fill t i v). rewrite Hel. cbn [rbind].
  destruct Hp as (m & c & Hm & Hl & Hc & Hr & Hi & Hnone).
  assert (Hi' : slots_ (fill t i v) !! Z.to_nat i = Some (Some v)) by (apply element_ok; [lia|done]).
  destruct (find_ok _ _ (policy_key v) Hrep) as [(j & u & -> & Hj & Hku & _)|[_ Hn]]; cbn [rbind].
  - rewrite <- (index_unique _ _ _ _ _ _ Hrep Hi' Hj) by done. rewrite Z2Nat.id, Z.eqb_refl by lia. done.
  - by rewrite lookup_insert_eq in Hn.
Qed.

Lemma find_or_prepare_ok (t : table) mp v w : rep t mp -> capacity_ t < 2 ^ 58 ->
  (exists j u, find_or_prepare_insert t (policy_key v) w = Ok (Z.of_nat j, false, t, w) /\
     slots_ t !! j = Some (Some u) /\ policy_key u = policy_key v /\ mp !! policy_key v = Some u) \/
  (exists i t' w', find_or_prepare_insert t (policy_key v) w = Ok (i, true, t', w') /\ prepared t' i v mp /\
     grown 1 t t' /\ mp !! policy_key v = None).
Proof using HL HPL.
  intros Hrep Hcap. unfold find_or_prepare_insert.
  destruct (find_ok t mp (policy_key v) Hrep) as [(j & u & -> & Hj & Hk & Hm)|[-> Hn]]; cbn [rbind].
  - left. by exists j, u.
  - right. destruct (prepare_insert_ok t mp v w (proj1 Hrep) (proj2 Hrep) Hn Hcap) as (i & t' & w' & -> & Hp & Hg).
    cbn [rbind]. by exists i, t', w'.
Qed.

Lemma grown_0 (t : table) : grown 1 t t.
Proof using. split; [lia|by left]. Qed.

(** What an insertion of [v] gives: the index, whether it was new, the table. *)
Definition inserted (t : table) (mp : gmap K V) (v : V) (w : World) (r : result (Z * bool * table * World)) : Prop :=
  exists i t' w', r = Ok (i, bool_decide (mp !! policy_key v = None), t', w') /\
    rep t' (<[policy_key v := default v (mp !! policy_key v)]> mp) /\
    element (slots_ t') i = Ok (default v (mp !! policy_key v)) /\ grown 1 t t'.

Lemma inserted_by (t : table) mp v w (place : table -> Z -> result table) : rep t mp -> capacity_ t < 2 ^ 58 ->
  (forall t' i, prepared t' i v mp -> mp !! policy_key v = None -> place t' i = Ok (fill t' i v)) ->
  inserted t mp v w
    (let* r := find_or_prepare_insert t (policy_key v) w in
     let '(i, inserted, c, w) := r in
     if inserted then let* c := place c i in Ok (i, true, c, w) else Ok (i, false, c, w)).
Proof using HL HPL.
  intros Hrep Hcap Hplace.
  destruct (find_or_prepare_ok t mp v w Hrep Hcap) as [(j & u & -> & Hj & Hk & Hm)|(i & t' & w' & -> & Hp & Hg & Hn)]; cbn [rbind].
  - exists (Z.of_nat j), t, w. rewrite Hm. cbn [default]. rewrite bool_decide_false by done. split; [done|].
    rewrite insert_id by done. split; [done|]. split; [|apply grown_0]. apply element_ok; [lia|]. by rewrite Nat2Z.id.
  - rewrite (Hplace t' i Hp Hn). cbn [rbind]. destruct (fill_ok t' i v mp Hp Hn) as (Hrep' & _ & Hel).
    exists i, (fill t' i v), w'. rewrite Hn. cbn [default]. rewrite bool_decide_true by done. done.
Qed.

Lemma emplace_ok (t : table) mp v w : rep t mp -> capacity_ t < 2 ^ 58 -> inserted t mp v w (emplace t v w).
Proof using HL HPL. intros Hrep Hcap. apply (inserted_by t mp v w (fun c i => emplace_at c i v)); try done. intros. by eapply emplace_at_ok. Qed.

Lemma InsertSlot_ok (t : table) mp v w : rep t mp -> capacity_ t < 2 ^ 58 -> inserted t mp v w (InsertSlot t v w).
Proof using HL HPL.
  intros Hrep Hcap.
  assert (Heq : InsertSlot t v w = (let* r := find_or_prepare_insert t (policy_key v) w in
     let '(i, inserted, c, w) := r in
     if inserted then let* c := (let* slots := transfer (slots_ c) i v in Ok (with_slots c slots)) in Ok (i, true, c, w)
     else Ok (i, false, c, w))).
  { unfold InsertSlot. destruct (find_or_prepare_insert t (policy_key v) w) as [[[[i []] c] w']|e]; cbn [rbind]; [|done|done].
    by destruct (transfer (slots_ c) i v). }
  rewrite Heq. apply inserted_by; [done|done|]. intros t' i Hp Hn. destruct (fill_ok t' i v mp Hp Hn) as (_ & Hset & _).
  unfold transfer. by rewrite Hset.
Qed.

(** ** Erasing *)

Lemma erase_ok (t : table) mp k : rep t mp ->
  exists t', erase t k = Ok (if decide (mp !! k = None) then 0 else 1, t') /\ rep t' (delete k mp) /\
    capacity_ t' = capacity_ t /\ growth_left_ t <= growth_left_ t'.
Proof using HL HPL.
  intros Hrep. unfold erase. destruct (find_ok t mp k Hrep) as [(j & v & -> & Hj & <- & Hm)|[-> Hn]]; cbn [rbind].
  - destruct Hrep as [(m & c & Hm' & Hl & Hc) Hr].
    destruct (erase_at_ok m Hm' t c Hl Hc (Z.of_nat j) v mp) as (t' & -> & Hrep' & _ & Hcap & Hg); [lia|by rewrite Nat2Z.id|done|].
    cbn [rbind]. exists t'. rewrite decide_False by (rewrite Hm; done). done.
  - exists t. rewrite decide_True by done. rewrite delete_id by done. split; [done|]. split; [done|]. split; [done|]. lia.
Qed.
End ops.
