(* ===== verification/TableBulk.v ===== *)
(** * TableBulk: operations on whole tables (lemmas for Table.v)

    The constructors, [clear], [rehash] and [reserve] against the finite map
    that a table represents; the elements and their number. *)

From S2P Require Import Prelude.
From S2P Require Import Word.
From S2P Require Import BitMask.
From S2P Require Import Group.
From S2P Require Import Capacity.
From S2P Require Import Probe.
From S2P Require Import Table.
From S2P Require Import CellsInv.
From S2P Require Import TableFind.
From S2P Require Import TableRep.
From S2P Require Import TableDrop.
From S2P Require Import TableErase.

(** Addresses are words. *)
Class MemoryLaws `{Memory} := { EmptyGroup_word : word 64 EmptyGroup }.

Lemma lor_ge a b : 0 <= a -> 0 <= b -> a <= Z.lor a b.
Proof.
  intros Ha Hb. assert (Heq : Z.lor a b = Z.lor a (Z.ldiff b a)).
  { apply Z.bits_inj'. intros k Hk. rewrite !Z.lor_spec, Z.ldiff_spec. destruct (Z.testbit a k); [done|]. by rewrite andb_true_r. }
  assert (Hd : Z.land a (Z.ldiff b a) = 0).
  { apply Z.bits_inj'. intros k Hk. rewrite Z.land_spec, Z.ldiff_spec, Z.bits_0. destruct (Z.testbit a k); [by rewrite andb_false_r|done]. }
  rewrite Heq, <- Z.add_nocarry_lor by done. pose proof (proj2 (Z.ldiff_nonneg b a) (or_introl Hb)). lia.
Qed.

Lemma lor_le a b : 0 <= a -> 0 <= b -> Z.lor a b <= a + b.
Proof.
  intros Ha Hb. pose proof (Z.add_lor_land a b) as Heq. pose proof (proj2 (Z.land_nonneg a b) (or_introl Ha)). lia.
Qed.

(** The least capacity for [n] slots. *)
Lemma normalized_bounds n m : (forall m', 1 <= m' -> n <= 2 ^ m' - 1 -> m <= m') -> 1 <= m ->
  2 ^ m - 1 <= Z.max 1 (2 * n - 1).
Proof.
  intros Hmin Hm. destruct (decide (m = 1)) as [->|]; [lia|].
  assert (Hlt : 2 ^ (m - 1) - 1 < n).
  { destruct (decide (n <= 2 ^ (m - 1) - 1)) as [Hle|]; [|lia]. pose proof (Hmin (m - 1) ltac:(lia) Hle). lia. }
  replace (2 ^ m) with (2 * 2 ^ (m - 1)) by (rewrite <- Z.pow_succ_r by lia; f_equal; lia). lia.
Qed.

Section bulk.
Context {K V : Type} `{EqDecision K, Countable K}.
Context {HG : Group} {HL : GroupLaws} {HB : Build} {HM : Memory} {HML : MemoryLaws}.
Context `{HP : SetPolicy K V} {HPL : PolicyLaws K V}.

Notation hash_of v := (hasher (policy_key v)).
Notation table := (common_fields V).

(** ** The elements of a table *)

(** The elements in the order of their slots. *)
Definition contents (t : table) : list V := omap id (slots_ t).

Lemma contents_elem (t : table) v : v ∈ contents t <-> exists i, slots_ t !! i = Some (Some v).
Proof using.
  unfold contents. rewrite list_elem_of_omap. split.
  - intros (o & Ho & Hid). cbn in Hid. subst o. by apply list_elem_of_lookup in Ho.
  - intros (i & Hi). exists (Some v). split; [|done]. apply list_elem_of_lookup. by exists i.
Qed.

Lemma contents_keys (s : list (option V)) :
  (forall i j v w, s !! i = Some (Some v) -> s !! j = Some (Some w) -> policy_key v = policy_key w -> i = j) ->
  NoDup (policy_key <$> omap id s).
Proof using.
  induction s as [|o s IH]; intros Huniq; [constructor|].
  assert (Htail : NoDup (policy_key <$> omap id s)).
  { apply IH. intros i j v w Hi Hj Hk. assert (S i = S j) by (by apply (Huniq (S i) (S j) v w)). lia. }
  destruct o as [v|]; [|done]. cbn. constructor; [|done]. intros Hin. apply list_elem_of_fmap in Hin as (w & Hk & Hw).
  apply list_elem_of_omap in Hw as (o & Ho & Hid). cbn in Hid. subst o. apply list_elem_of_lookup in Ho as (i & Hi).
  by assert (0%nat = S i) by (by apply (Huniq 0%nat (S i) v w)).
Qed.

Lemma contents_count c (s : list (option V)) : Forall2 slot_ok c s -> Forall cell_ok c ->
  Z.of_nat (length (omap id s)) = countb IsFull c.
Proof using.
  induction 1 as [|x o c s Hxo Hcs IH]; intros Hc; [done|]. apply Forall_cons in Hc as [Hx Hc]. specialize (IH Hc).
  rewrite countb_cons, <- IH. destruct o as [v|]; cbn in Hxo |- *.
  - subst x. destruct (H2_not (hash_of v)) as (_ & _ & -> & _). lia.
  - destruct Hxo as [->| ->]; done.
Qed.

Lemma rep_contents (t : table) mp : rep t mp ->
  NoDup (policy_key <$> contents t) /\ (forall v, v ∈ contents t <-> mp !! policy_key v = Some v) /\
  Z.of_nat (length (contents t)) = size t /\ size t = Z.of_nat (base.size mp) /\
  contents t ≡ₚ (map_to_list mp).*2.
Proof using.
  intros [(m & c & Hm & Hl & Hc) Hr]. pose proof Hl as [Hv Hlen Hslot Huniq _].
  assert (Hnd : NoDup (policy_key <$> contents t)) by (by apply contents_keys).
  assert (Hel : forall v, v ∈ contents t <-> mp !! policy_key v = Some v).
  { intros v. rewrite contents_elem, (Hr (policy_key v) v). split; [intros (i & Hi); by exists i|intros (i & Hi & _); by exists i]. }
  assert (Hcount : Z.of_nat (length (contents t)) = size t).
  { rewrite (counts_size _ _ _ Hc). apply contents_count; [|by apply (view_cells m t c Hv)].
    apply Forall2_same_length_lookup_2; [done|]. intros i x o Hx Ho. by eapply Hslot. }
  assert (Hperm : contents t ≡ₚ (map_to_list mp).*2).
  { apply NoDup_Permutation; [by eapply NoDup_fmap_1| |].
    - assert (Hfm : policy_key <$> (map_to_list mp).*2 = (map_to_list mp).*1).
      { rewrite <- list_fmap_compose. apply list_fmap_ext. intros i [k v] Hi. cbn.
        apply list_elem_of_lookup_2, elem_of_map_to_list in Hi. by apply Hr in Hi as (j & _ & Hk). }
      apply (NoDup_fmap_1 policy_key). rewrite Hfm. apply NoDup_fst_map_to_list.
    - intros v. rewrite Hel, list_elem_of_fmap. split.
      + intros Hk. exists (policy_key v, v). split; [done|]. by apply elem_of_map_to_list.
      + intros ([k u] & -> & Hin). apply elem_of_map_to_list in Hin. cbn. by destruct (proj1 (Hr k u) Hin) as (j & _ & ->). }
  split; [done|]. split; [done|]. split; [done|]. split; [|done].
  rewrite <- Hcount, Hperm, length_fmap. by rewrite length_map_to_list.
Qed.

Lemma rep_empty_size (t : table) mp : rep t mp -> size t = 0 -> mp = ∅.
Proof using. intros Hrep Hs. destruct (rep_contents t mp Hrep) as (_ & _ & _ & Hsz & _). apply map_size_empty_inv. lia. Qed.

Lemma elements_rep (t : table) mp : rep t mp -> elements t = Ok (contents t).
Proof using HL. intros [(m & c & Hm & Hl & _) _]. by apply (elements_ok m Hm t c Hl). Qed.

(** ** Empty tables *)

Lemma unallocated_rep (t : table) : control_ t = EmptyGroup -> ctrl t = empty_ctrl -> slots_ t = [] -> capacity_ t = 0 ->
  size t = 0 -> word 64 (size_ t) -> growth_left_ t = 0 -> rep t ∅.
Proof using HML.
  intros Hco Hct Hsl Hca Hsz Hw Hg. split.
  - exists 0, []. split; [unfold max_bits; lia|]. split.
    + split; try (by rewrite Hsl); try (intros *; by rewrite Hsl).
      split; [done|]. split; [done|]. split; [done|]. split; [rewrite Hco; apply EmptyGroup_word|done].
    + split; [done|by rewrite Hsz|lia|]. rewrite Hg. unfold growth_of. cbn. by rewrite andb_false_r.
  - intros k v. rewrite lookup_empty, Hsl. split; [done|]. by intros (i & Hi & _).
Qed.

Lemma CommonFields_ctor_ok w : exists t w', CommonFields_ctor (V := V) w = (t, w') /\ rep t ∅ /\ capacity_ t = 0 /\ size t = 0.
Proof using HML.
  unfold CommonFields_ctor. destruct (EmptyGeneration w) as [g w']. eexists _, _. split; [done|].
  split; [apply unallocated_rep; done|done].
Qed.

(** A table with an array whose bytes have all been reset. *)
Lemma fresh_rep (t : table) m : 1 <= m <= max_bits -> view m t (replicate (Z.to_nat (2 ^ m - 1)) kEmpty) ->
  slots_ t = replicate (Z.to_nat (2 ^ m - 1)) None -> size t = 0 -> word 64 (size_ t) ->
  growth_left_ t = growth_of (2 ^ m - 1) -> rep t ∅.
Proof using.
  intros Hm Hv Hs Hsz Hw Hg. split.
  - exists m, (replicate (Z.to_nat (2 ^ m - 1)) kEmpty). split; [lia|]. split; [by apply empty_inv|].
    split; [done| | |].
    + rewrite Hsz, countb_replicate. done.
    + rewrite Hg. assert (0 <= growth_of (2 ^ m - 1)); [|done]. unfold growth_of. pose proof (N_range m ltac:(lia)).
      assert (Hd : (2 ^ m - 1) / 8 <= 2 ^ m - 1) by (apply Z.div_le_upper_bound; lia). case_match; lia.
    + rewrite Hg, !countb_replicate. cbn. lia.
  - intros k v. rewrite lookup_empty, Hs. split; [done|]. intros (i & Hi & _). by apply lookup_replicate in Hi as [? _].
Qed.

Lemma raw_hash_set_ctor_ok n w : 0 <= n < 2 ^ 59 ->
  exists t w', raw_hash_set_ctor (V := V) n w = Ok (t, w') /\ rep t ∅ /\ n <= capacity_ t <= 2 * n.
Proof using HL HML.
  intros Hn. unfold raw_hash_set_ctor. destruct (CommonFields_ctor_ok w) as (t & w1 & -> & Hrep & Hcap & Hsz).
  destruct (n =? 0) eqn:E; bools; cbn [negb]; [by exists t, w1; split; [done|]; split; [done|lia]|].
  destruct (NormalizeCapacity_ok n ltac:(lia)) as (m & Hm & -> & Hle & Hmin). cbn [rbind]. unfold set_capacity.
  pose proof (normalized_bounds n m Hmin ltac:(lia)).
  assert (Hm0 : 0 <= m <= max_bits) by lia. pose proof (cap_ok m Hm0 ltac:(lia)) as Hcok.
  rewrite (IsValidCapacity_ok _ Hcok), orb_true_r. cbn [cpp_assert rbind]. set (t1 := {| capacity_ := _ |}).
  pose proof (growth_cap m Hm0) as [Hg _]. assert (Hs1 : 0 <= size t1 <= growth_of (2 ^ m - 1)) by (change (size t1) with (size t); lia).
  destruct (InitializeSlots_ok m Hm0 t1 w1 ltac:(lia) eq_refl Hs1) as (t2 & w2 & -> & Hv & Hsl & Hsz2 & Hw & Hgl).
  exists t2, w2. split; [done|]. split; [|rewrite (proj1 Hv); lia]. change (size t1) with (size t) in *. apply (fresh_rep t2 m); try done; lia.
Qed.

(** ** Clearing *)

Lemma destroy_slots_ok (t : table) m c : 0 <= m <= max_bits -> lookup_inv m t c ->
  destroy_slots t = Ok (with_slots t (replicate (Z.to_nat (2 ^ m - 1)) None)).
Proof using HL.
  intros Hm Hl. pose proof Hl as [Hv Hlen Hslot _ _]. pose proof (view_length m t c Hv) as Hcl. pose proof (N_range m Hm) as HN.
  unfold destroy_slots. rewrite (proj1 Hv).
  destruct (foldM_seqZ (fun i (s : table) => s = with_slots t (replicate (Z.to_nat i) None ++ drop (Z.to_nat i) (slots_ t)))
    (fun c i => let* x := at_index (ctrl c) i in
       if IsFull x then let* _ := element (slots_ c) i in let* slots := set_at (slots_ c) i None in Ok (with_slots c slots) else Ok c)
    0 (2 ^ m - 1) t) as (s & Hs & ->).
  - lia.
  - cbn. rewrite drop_0. by destruct t.
  - intros i s Hi ->. cbn [ctrl with_slots slots_].
    destruct (lookup_lt_is_Some_2 c (Z.to_nat i) ltac:(lia)) as [x Hx].
    destruct (lookup_lt_is_Some_2 (slots_ t) (Z.to_nat i) ltac:(lia)) as [o Ho].
    rewrite (ctrl_cell m Hm t c Hv i x) by (done || lia). cbn [rbind].
    pose proof (Hslot _ _ _ Hx Ho) as Hxo. rewrite (drop_S _ _ _ Ho).
    assert (Hnext : forall b : option V, <[Z.to_nat i := b]> (replicate (Z.to_nat i) None ++ o :: drop (S (Z.to_nat i)) (slots_ t)) =
      replicate (Z.to_nat i) None ++ b :: drop (S (Z.to_nat i)) (slots_ t)).
    { intros b. rewrite insert_app_r_alt by (rewrite length_replicate; lia). rewrite length_replicate, Nat.sub_diag. done. }
    assert (Hone : forall l : list (option V), replicate (Z.to_nat i) None ++ None :: l = replicate (Z.to_nat (i + 1)) None ++ l).
    { intros l. replace (Z.to_nat (i + 1)) with (S (Z.to_nat i)) by lia. by rewrite replicate_S_end, <- app_assoc. }
    assert (HS : Z.to_nat (i + 1) = S (Z.to_nat i)) by lia. destruct o as [v|]; cbn in Hxo.
    + subst x. destruct (H2_not (hash_of v)) as (_ & _ & -> & _).
      rewrite (proj1 (element_ok _ i v (proj1 Hi))); [|rewrite lookup_app_r by (rewrite length_replicate; lia);
        by rewrite length_replicate, Nat.sub_diag]. cbn [rbind].
      rewrite set_at_ok; [|rewrite length_app, length_replicate; cbn [length]; lia]. cbn [rbind]. rewrite Hnext, Hone.
      eexists. split; [done|]. by rewrite HS.
    + assert (Hf : IsFull x = false) by (by destruct Hxo as [->| ->]). rewrite Hf, Hone. eexists. split; [done|]. by rewrite HS.
  - rewrite Hs. rewrite Z.add_0_l, drop_ge by lia. by rewrite app_nil_r.
Qed.

Lemma ClearBackingArray_ok (t : table) m (reuse : bool) w : 1 <= m <= max_bits -> capacity_ t = 2 ^ m - 1 ->
  word 64 (control_ t) -> (reuse = true -> slots_ t = replicate (Z.to_nat (2 ^ m - 1)) None) ->
  exists t' w', ClearBackingArray t reuse w = Ok (t', w') /\ rep t' ∅ /\ 0 <= capacity_ t' <= capacity_ t /\ used t' = 0.
Proof using HL HML.
  intros Hm Hcap Hcw Hslots. assert (Hm0 : 0 <= m <= max_bits) by lia. pose proof (N_range m Hm0) as HN.
  destruct (set_size_ok t 0 ltac:(done)) as (Hsz & Hszw & _). unfold ClearBackingArray. destruct reuse.
  - specialize (Hslots eq_refl). pose proof (growth_cap m Hm0) as [Hg _].
    assert (Hs0 : 0 <= size (set_size t 0) <= growth_of (2 ^ m - 1)) by lia.
    rewrite (ResetCtrl_ok m Hm0 (set_size t 0) ltac:(lia) Hcap Hs0). cbn [rbind].
    eexists _, w. split; [done|]. split; [|split; [cbn; lia|unfold used; cbn [capacity_ growth_left_ set_growth_left with_ctrl set_size with_size]; rewrite Hcap; lia]]. eapply (fresh_rep _ m); [done| |exact Hslots|exact Hsz|exact Hszw|cbn [growth_left_ set_growth_left]; lia].
    split; [exact Hcap|]. split; [rewrite length_replicate; lia|].
    split; [apply Forall_replicate; by left|]. split; [exact Hcw|].
    destruct (m =? 0) eqn:E; bools; [lia|]. done.
  - destruct (EmptyGeneration w) as [g w']. eexists _, w'. split; [done|]. split; [by apply unallocated_rep|]. split; [cbn; lia|].
    unfold used. cbn. unfold growth_of. cbn. by rewrite andb_false_r.
Qed.

Lemma clear_ok (t : table) mp w : rep t mp ->
  exists t' w', Table.clear t w = Ok (t', w') /\ rep t' ∅ /\ 0 <= capacity_ t' <= capacity_ t /\ used t' = 0.
Proof using HL HML.
  intros [(m & c & Hm & Hl & Hc) Hr]. pose proof (inv_view m t c Hl) as Hv. pose proof (N_range m Hm) as HN.
  unfold Table.clear. rewrite (proj1 Hv).
  assert (Hgen : forall (t1 : table) g, rep t1 ∅ -> rep (with_gen t1 g) (∅ : gmap K V)).
  { intros t1 g [(m1 & c1 & Hm1 & Hl1 & Hc1) Hr1]. split; [|exact Hr1]. exists m1, c1. split; [done|].
    split; [by apply (lookup_inv_ext m1 t1)|by apply (counts_ok_ext m1 t1)]. }
  destruct (2 ^ m - 1 =? 0) eqn:E; bools; cbn [rbind].
  - eexists _, w. split; [done|]. split; [|split; [cbn; rewrite (proj1 Hv); lia|]].
    2:{ unfold used. cbn [capacity_ growth_left_ with_gen]. rewrite (proj1 Hv). destruct Hc as [_ _ ? Hg].
        pose proof (growth_cap m Hm). pose proof (countb_range IsFull c). pose proof (countb_range IsDeleted c). lia. }
    apply Hgen.
    assert (Hmp : mp = ∅).
    { apply (rep_empty_size t); [split; [by exists m, c|done]|]. rewrite (counts_size _ _ _ Hc).
      pose proof (view_length m t c Hv) as Hcl. pose proof (countb_range IsFull c). lia. }
    rewrite <- Hmp. split; [by exists m, c|done].
  - rewrite (destroy_slots_ok t m c Hm Hl). cbn [rbind].
    assert (Hm1 : 1 <= m) by (destruct (decide (m = 0)) as [->|]; [done|lia]).
    destruct (ClearBackingArray_ok (with_slots t (replicate (Z.to_nat (2 ^ m - 1)) None)) m (2 ^ m - 1 <? 128) w)
      as (t1 & w1 & -> & Hrep & Hcap); [lia|exact (proj1 Hv)|exact (proj1 (proj2 (proj2 (proj2 Hv))))|done|].
    cbn [rbind]. eexists _, _. split; [done|]. split; [by apply Hgen|]. change (capacity_ (with_gen t1 ?g)) with (capacity_ t1).
    rewrite <- (proj1 Hv). exact Hcap.
Qed.

(** ** Rehashing on request *)

Lemma with_gen_rep (t : table) g mp : rep t mp -> rep (with_gen t g) mp.
Proof using.
  intros [(m & c & Hm & Hl & Hc) Hr]. split; [|exact Hr]. exists m, c. split; [done|].
  split; [by apply (lookup_inv_ext m t)|by apply (counts_ok_ext m t)].
Qed.

(** A table has room for its elements. *)
Lemma rep_size_range (t : table) mp : rep t mp -> 0 <= size t < 2 ^ 60 /\ 0 <= growth_left_ t < 2 ^ 60 /\
  0 <= capacity_ t < 2 ^ 60.
Proof using HL.
  intros [(m & c & Hm & Hl & Hc) Hr]. pose proof (N_range m Hm). pose proof (growth_cap m Hm) as [Hg _].
  destruct (counts_range m Hm t c Hl Hc) as [Hs Hgl]. destruct Hc as [_ _ ? _]. rewrite (proj1 (inv_view m t c Hl)). lia.
Qed.

(** Resizing to the least capacity above [x], where the growth of that
    capacity has room for the elements. *)
Lemma resize_normalized (t : table) mp x w : rep t mp -> 0 <= x < 2 ^ 60 ->
  (forall cap, capacity_ok cap -> x <= cap -> size t <= growth_of cap) ->
  exists m t' w', NormalizeCapacity x = Ok m /\ resize t m w = Ok (t', w') /\ rep t' mp /\ capacity_ t' = m /\
    x <= m <= Z.max 1 (2 * x - 1) /\ capacity_ok m /\ growth_left_ t' = growth_of m - size t /\ size t' = size t.
Proof using HL HPL.
  intros [(m & c & Hm & Hl & Hc) Hr] Hx Hroom. destruct (NormalizeCapacity_ok x Hx) as (m' & Hm' & Hn & Hle & Hmin).
  assert (Hok : capacity_ok (2 ^ m' - 1)) by (exists m'; split; [done|done]).
  pose proof (Hroom _ Hok Hle) as Hgrow. destruct (counts_word _ _ _ Hc) as [Hw0 Hw1].
  destruct (resize_ok t mp m c m' w Hm Hl Hr (counts_size _ _ _ Hc) (conj Hw0 Hw1) Hm' Hgrow)
    as (t' & w' & c' & Hres & Hl' & Hc' & Hr' & Hd & Hs).
  exists (2 ^ m' - 1), t', w'. split; [done|]. split; [done|]. split; [split; [|done]; exists m', c'; split; [lia|done]|].
  split; [exact (proj1 (inv_view m' t' c' Hl'))|]. split; [split; [done|apply normalized_bounds; [done|lia]]|]. split; [done|].
  destruct Hc' as [_ Hsz _ Hg]. split; [lia|done].
Qed.

Lemma size_used (t : table) mp : rep t mp -> size t <= used t.
Proof using.
  intros [(m & c & Hm & Hl & Hc) _]. unfold used. rewrite (proj1 (inv_view m t c Hl)). destruct Hc as [_ Hs _ Hg].
  pose proof (countb_range IsDeleted c). lia.
Qed.

Lemma lower_bound_le n : 0 <= n < 2 ^ 59 -> GrowthToLowerboundCapacity n <= n + n / 7 + 1.
Proof using.
  intros Hn. destruct (GrowthToLowerbound_eq n Hn) as [-> _]. destruct (decide (n = 0)) as [->|]; [rewrite andb_false_r; by vm_compute|].
  rewrite Z.quot_div_nonneg by lia. assert ((n - 1) / 7 <= n / 7) by (apply Z.div_le_mono; lia).
  pose proof (Z.div_pos n 7). case_match; lia.
Qed.

Lemma rehash_ok (t : table) mp n w : rep t mp -> 0 <= n < 2 ^ 58 -> capacity_ t < 2 ^ 58 ->
  exists t' w', rehash t n w = Ok (t', w') /\ rep t' mp /\ n <= capacity_ t' /\ used t' <= used t /\
    capacity_ t' <= Z.max (capacity_ t) (3 * (used t + n) + 3).
Proof using HL HPL HML.
  intros Hrep Hn Hcap. pose proof (rep_size_range t mp Hrep) as (Hs & Hg & Hc0). unfold rehash.
  pose proof (size_used t mp Hrep) as Hu. assert (Hsz : size t <= capacity_ t).
  { destruct Hrep as [(m & c & Hm & Hl & Hc) _]. destruct (counts_range m Hm t c Hl Hc) as [Hsr _].
    pose proof (growth_cap m Hm) as [Hgc _]. rewrite (proj1 (inv_view m t c Hl)). lia. }
  destruct ((n =? 0) && (capacity_ t =? 0)) eqn:E1; [apply andb_true_iff in E1 as [En _]; bools; exists t, w; split; [done|]; split; [done|]; lia|].
  destruct ((n =? 0) && (size t =? 0)) eqn:E2.
  { apply andb_true_iff in E2 as [En Es]. apply Z.eqb_eq in En, Es. subst n. rewrite (rep_empty_size t mp Hrep Es) in *.
    rewrite Z.eqb_refl in E1. cbn [andb] in E1. apply Z.eqb_neq in E1.
    destruct Hrep as [(m & c & Hm & Hl & Hc) _]. pose proof (inv_view m t c Hl) as Hv.
    destruct (ClearBackingArray_ok t m false w) as (t' & w' & -> & Hrep' & Hcap' & Hu'); [|exact (proj1 Hv)|exact (proj1 (proj2 (proj2 (proj2 Hv))))|done|].
    { rewrite (proj1 Hv) in E1. destruct (decide (m = 0)) as [->|]; [done|lia]. }
    exists t', w'. split; [done|]. split; [done|lia]. }
  destruct (GrowthToLowerbound_eq (size t) ltac:(lia)) as [Hgeq Hgr].
  set (g := GrowthToLowerboundCapacity (size t)) in *.
  assert (Hlor : 0 <= Z.lor n g < 2 ^ 60).
  { apply (word_lor 60); [done|split; lia|split; lia]. }
  pose proof (lor_ge n g ltac:(lia) ltac:(lia)) as Hge1.
  pose proof (lor_ge g n ltac:(lia) ltac:(lia)) as Hge2. rewrite Z.lor_comm in Hge2.
  destruct (resize_normalized t mp _ w Hrep Hlor) as (m & t' & w' & -> & Hres & Hrep' & Hcap' & Hle & _ & Hgl' & _).
  { intros cap Hok Hle. apply growth_enough; [lia|done|lia]. }
  cbn [rbind]. destruct ((n =? 0) || (capacity_ t <? m)) eqn:E3.
  - exists t', w'. split; [done|]. split; [done|]. split; [lia|]. split; [unfold used at 1; rewrite Hcap'; lia|].
    pose proof (lor_le n g ltac:(lia) ltac:(lia)). assert (Hgl2 : g <= size t + size t / 7 + 1) by (apply lower_bound_le; lia).
    pose proof (Z.mul_div_le (size t) 7 ltac:(done)). lia.
  - exists t, w. split; [done|]. split; [done|]. split; [|lia]. apply orb_false_iff in E3 as [_ E3]. apply Z.ltb_ge in E3. lia.
Qed.

Lemma reserve_ok (t : table) mp n w : rep t mp -> 0 <= n < 2 ^ 58 ->
  exists t' w', reserve t n w = Ok (t', w') /\ rep t' mp /\ n <= size t' + growth_left_ t' /\ size t' = size t /\
    (capacity_ t' = capacity_ t \/ capacity_ t' <= Z.max 1 (3 * n)) /\
    (growth_left_ t' = growth_of (capacity_ t') - size t \/ growth_left_ t' = growth_left_ t) /\ used t' <= used t.
Proof using HL HPL.
  intros Hrep Hn. pose proof (rep_size_range t mp Hrep) as (Hs & Hg & _). unfold reserve. rewrite u64_id by lia.
  destruct (size t + growth_left_ t <? n) eqn:E; bools; cbn [rbind].
  - destruct (GrowthToLowerbound_eq n ltac:(lia)) as [Hgeq Hgr]. assert (Hg60 : 0 <= GrowthToLowerboundCapacity n < 2 ^ 60) by lia.
    destruct (resize_normalized t mp (GrowthToLowerboundCapacity n) w Hrep Hg60) as (m & t' & w' & -> & Hres & Hrep' & Hcap' & Hle & Hok & Hgl & Hsz).
    { intros cap Hok Hle. pose proof (growth_enough n cap ltac:(lia) Hok Hle). lia. }
    cbn [rbind]. rewrite Hres. cbn [rbind]. assert (Hnm : n <= growth_of m) by (apply growth_enough; [lia|done|lia]).
    eexists _, w'. split; [done|]. split; [by apply with_gen_rep|]. cbn [size growth_left_ capacity_ with_gen].
    assert (Hx3 : GrowthToLowerboundCapacity n <= n + n / 7 + 1) by (apply lower_bound_le; lia).
    pose proof (Z.mul_div_le n 7 ltac:(done)).
    change (size (with_gen t' ?g)) with (size t'). rewrite Hsz, Hgl. split; [lia|]. split; [done|]. split; [right; rewrite Hcap'; lia|]. split; [left; by rewrite Hcap'|].
    pose proof (size_used t mp Hrep). unfold used at 1. cbn [capacity_ growth_left_ with_gen]. rewrite Hcap'. lia.
  - eexists _, w. split; [done|]. split; [by apply with_gen_rep|]. cbn [size growth_left_ capacity_ with_gen].
    change (size (with_gen t ?g)) with (size t). split; [lia|]. split; [done|]. split; [by left|]. split; [by right|done].
Qed.
End bulk.

(** * copying, iterating and filtering (lemmas for Table.v)

    The copy constructor, what an iterator stands for, and [EraseIf], which
    erases behind the iterator it moves. *)

Section copy.
Context {K V : Type} `{EqDecision K, Countable K}.
Context {HG : Group} {HL : GroupLaws} {HB : Build} {HM : Memory} {HML : MemoryLaws}.
Context `{HP : SetPolicy K V} {HPL : PolicyLaws K V}.

Notation hash_of v := (hasher (policy_key v)).
Notation table := (common_fields V).

(** ** The copy constructor *)

(** The new table while it is filled: it holds the elements of [l], and its
    counters are still those of the empty table. *)
Definition copied (m size0 growth0 : Z) (l : list V) (s : table * World) : Prop :=
  exists c, lookup_inv m s.1 c /\ size_ s.1 = size0 /\ growth_left_ s.1 = growth0 /\ countb IsDeleted c = 0 /\
    countb IsFull c = Z.of_nat (length l) /\ (forall v, (exists j, slots_ s.1 !! j = Some (Some v)) <-> v ∈ l).

Lemma copy_step_ok m size0 growth0 l s v : 0 <= m <= max_bits -> copied m size0 growth0 l s ->
  policy_key v ∉ policy_key <$> l -> Z.of_nat (length l) < growth_of (2 ^ m - 1) ->
  exists s', copy_step s v = Ok s' /\ copied m size0 growth0 (l ++ [v]) s'.
Proof using HL HPL.
  intros Hm (c & Hl & Hsz & Hgl & Hd & Hf & Hel) Hnew Hroom. destruct s as [t w]. cbn [fst] in *.
  pose proof (inv_view m t c Hl) as Hv. pose proof (growth_cap m Hm) as [Hg Hgs]. pose proof (N_range m Hm).
  destruct (put_clean m Hm t c v w Hl) as (r & w' & t2 & c' & Hfind & Hoff & Hset & Hat & Hsz2 & Hgl2 & Hinv & Hin & Hd' & Hf' & Hel'); [|done|lia|].
  { intros j u Hj Heq. apply Hnew. rewrite <- Heq. apply list_elem_of_fmap_2, Hel. by exists j. }
  unfold copy_step. rewrite Hfind. cbn [rbind]. rewrite Hset. cbn [rbind].
  assert (Hroom' : is_small (2 ^ m - 1) = true \/ kEmpty ∈ c').
  { destruct (is_small (2 ^ m - 1)) eqn:Es; [by left|right]. pose proof (Hgs eq_refl). pose proof (inv_view m _ c' Hinv) as Hv'.
    pose proof (countb_partition c' (view_cells m _ c' Hv')) as Hp'. rewrite (view_length m _ c' Hv') in Hp'.
    assert (Hpos : 0 < countb IsEmpty c') by lia. apply countb_pos in Hpos as (i & x & Hi & Hx). apply IsEmpty_spec in Hx as ->.
    by apply list_elem_of_lookup_2 in Hi. }
  unfold emplace_at. rewrite Hat. cbn [rbind slots_ with_slots]. rewrite (proj1 (element_ok _ _ _ (proj1 Hoff)) Hin). cbn [rbind].
  destruct (find_correct m Hm _ c' Hinv (policy_key v) Hroom') as [(j & u & -> & Hj & Hku)|[_ Hno]];
    [|exfalso; by apply (Hno _ _ Hin)]. cbn [rbind].
  rewrite (inv_uniq m _ c' Hinv _ _ _ _ Hj Hin Hku), Z2Nat.id, Z.eqb_refl by lia. cbn [cpp_assert rbind].
  eexists. split; [done|]. exists c'. cbn [fst with_gen with_slots size_ growth_left_ slots_].
  split; [eapply lookup_inv_ext; [..|exact Hinv]; done|]. split; [by rewrite Hsz2|]. split; [by rewrite Hgl2|]. split; [done|].
  split; [rewrite length_app; cbn; lia|]. intros a. rewrite Hel', elem_of_app, list_elem_of_singleton, Hel. naive_solver.
Qed.

Lemma copy_loop_ok m size0 growth0 l : forall pre s, 0 <= m <= max_bits -> copied m size0 growth0 pre s ->
  NoDup (policy_key <$> pre ++ l) -> Z.of_nat (length (pre ++ l)) <= growth_of (2 ^ m - 1) ->
  exists s', foldM copy_step s l = Ok s' /\ copied m size0 growth0 (pre ++ l) s'.
Proof using HL HPL.
  induction l as [|v l IH]; intros pre s Hm Hc Hnd Hlen; [exists s; by rewrite app_nil_r|].
  rewrite cons_middle, app_assoc in Hnd, Hlen |- *.
  destruct (copy_step_ok m size0 growth0 pre s v Hm Hc) as (s1 & Hs1 & Hc1).
  - rewrite fmap_app in Hnd. apply NoDup_app in Hnd as (Hnd & _). rewrite fmap_app in Hnd.
    apply NoDup_app in Hnd as (_ & Hdis & _). intros Hin. apply (Hdis _ Hin). by left.
  - rewrite !length_app in Hlen. cbn [length] in Hlen. lia.
  - cbn [foldM]. rewrite Hs1. cbn [rbind]. by apply IH.
Qed.

Lemma raw_hash_set_copy_ok (that : table) mp w : rep that mp -> size that < 2 ^ 57 ->
  exists t w', raw_hash_set_copy that w = Ok (t, w') /\ rep t mp.
Proof using HL HPL HML.
  intros Hrep Hlt. destruct (rep_contents that mp Hrep) as (Hnd & Hel & Hlen & Hsz & _).
  unfold raw_hash_set_copy. destruct (CommonFields_ctor_ok w) as (t0 & w0 & Hctor & Hrep0 & Hcap0 & Hsz0).
  assert (Hc0 : raw_hash_set_ctor 0 w = Ok (t0, w0)) by (unfold raw_hash_set_ctor; by rewrite Hctor). rewrite Hc0. cbn [rbind].
  destruct (size that =? 0) eqn:E; bools.
  { exists t0, w0. split; [done|]. by rewrite (rep_empty_size that mp Hrep E). }
  assert (Hn : 0 <= size that < 2 ^ 58) by lia.
  destruct (reserve_ok t0 ∅ (size that) w0 Hrep0 Hn) as (t1 & w1 & -> & Hrep1 & Hroom & Hsz1 & _ & Hgl & _).
  cbn [rbind]. rewrite (elements_rep that mp Hrep). cbn [rbind].
  destruct Hrep1 as [(m & c & Hm & Hl & Hc) Hr1]. pose proof (proj1 (inv_view m t1 c Hl)) as Hcap1.
  assert (Hg0 : growth_left_ t0 = 0).
  { destruct Hrep0 as [(m0 & c0 & Hm0 & Hl0 & Hc0') _]. rewrite (proj1 (inv_view m0 t0 c0 Hl0)) in Hcap0.
    destruct (counts_range m0 Hm0 t0 c0 Hl0 Hc0') as [Hr0 Hr0']. destruct Hc0' as [_ _ Hc0' _].
    assert (Hz : growth_of 0 = 0) by (unfold growth_of; cbn; by rewrite andb_false_r). rewrite Hcap0, Hz in Hr0'. lia. }
  destruct Hc as [Hcw Hcs Hcl Hcg]. rewrite Hcap1, Hsz1, Hsz0 in *. pose proof (countb_range IsDeleted c). pose proof (countb_range IsFull c).
  assert (Hgm : growth_left_ t1 = growth_of (2 ^ m - 1)) by lia.
  destruct (copy_loop_ok m (size_ t1) (growth_left_ t1) (contents that) [] (t1, w1)) as ([t2 w2] & -> & c2 & Hl2 & Hsz2 & Hgl2 & Hd2 & Hf2 & Hel2).
  { done. }
  { exists c. cbn [fst]. split; [done|]. split; [done|]. split; [done|]. split; [lia|]. split; [cbn; lia|].
    intros v. split; [|by intros ?%elem_of_nil]. intros (j & Hj). exfalso.
    assert (Hm' : (∅ : gmap K V) !! policy_key v = Some v) by (apply Hr1; by exists j). by rewrite lookup_empty in Hm'. }
  { done. } { cbn [app]. lia. }
  cbn [rbind fst app] in *. destruct (set_size_ok t2 (size that) ltac:(lia)) as (Hs3 & Hw3 & _).
  pose proof (growth_cap m Hm) as [Hgc _]. pose proof (N_range m Hm).
  eexists _, w2. split; [done|]. split.
  - exists m, c2. split; [done|]. split; [by apply (lookup_inv_ext m t2)|]. cbn [growth_left_ set_size with_size].
    assert (Hgo : growth_left_ t2 -64 size that = growth_of (2 ^ m - 1) - size that) by (rewrite Hgl2, Hgm; apply u64_id; lia). rewrite Hgo.
    split; [exact Hw3| | |]; cbn [growth_left_ set_growth_left].
    + change (size (set_growth_left ?x ?g)) with (size x). rewrite Hs3. lia.
    + lia.
    + lia.
  - intros k v. cbn [slots_ set_growth_left set_size with_size]. split.
    + intros Hk. pose proof (proj1 (proj2 Hrep k v) Hk) as (i & Hi & <-).
      destruct (proj2 (Hel2 v)) as (j & Hj); [by apply Hel|]. by exists j.
    + intros (i & Hi & <-). apply Hel, Hel2. by exists i.
Qed.

(** ** Iterators *)

(** The elements from slot [i] on, and an iterator that stands at the first
    of them. *)
Definition rest (s : list (option V)) (i : Z) : list V := omap id (drop (Z.to_nat i) s).

Definition iter_at (s : list (option V)) (i : Z) (it : option Z) : Prop :=
  (it = None /\ rest s i = []) \/
  exists j v, it = Some j /\ i <= j /\ s !! Z.to_nat j = Some (Some v) /\ rest s i = v :: rest s (j + 1).

Lemma rest_insert s i j o : 0 <= j < i -> rest (<[Z.to_nat j := o]> s) i = rest s i.
Proof using. intros Hj. unfold rest. by rewrite drop_insert_lt by lia. Qed.

Lemma iter_at_insert s i j o it : 0 <= j < i -> iter_at s i it -> iter_at (<[Z.to_nat j := o]> s) i it.
Proof using.
  intros Hj [[-> Hr]|(k & v & -> & Hk & Hv & Hr)]; [left; split; [done|by rewrite rest_insert]|].
  right. exists k, v. rewrite !rest_insert by lia. by rewrite list_lookup_insert_ne by lia.
Qed.

Lemma rest_elem s i v : 0 <= i -> v ∈ rest s i <-> exists j, i <= Z.of_nat j /\ s !! j = Some (Some v).
Proof using.
  intros Hi. unfold rest. rewrite list_elem_of_omap. split.
  - intros (o & Ho & Hid). cbn in Hid. subst o. apply list_elem_of_lookup in Ho as (a & Ha). rewrite lookup_drop in Ha.
    exists (Z.to_nat i + a)%nat. split; [lia|done].
  - intros (j & Hj & Hv). exists (Some v). split; [|done]. apply list_elem_of_lookup. exists (j - Z.to_nat i)%nat.
    rewrite lookup_drop. by replace (Z.to_nat i + (j - Z.to_nat i))%nat with j by lia.
Qed.

(** The control bytes reach past the capacity. *)
Lemma ctrl_long (t : table) m c : 0 <= m <= max_bits -> view m t c -> 2 ^ m - 1 < Z.of_nat (S (length (ctrl t))).
Proof using HL.
  intros Hm (_ & Hcl & _ & _ & ->). destruct (m =? 0) eqn:E; bools; [by subst m|].
  pose proof (mirror_length m Hm c Hcl). pose proof (width_cases (HL := HL)). lia.
Qed.

Lemma begin_ok (t : table) mp : rep t mp -> exists it, begin t = Ok it /\ iter_at (slots_ t) 0 it.
Proof using HL.
  intros [(m & c & Hm & Hl & _) _]. pose proof (N_range m Hm). pose proof (ctrl_long t m c Hm (inv_view m t c Hl)).
  unfold begin. destruct (skip_from m Hm t c Hl (S (length (ctrl t))) 0) as [[-> Hn]|(j & v & -> & Hj & Hv & _ & Heq)]; [lia|lia| |].
  - exists None. split; [done|]. by left.
  - exists (Some j). split; [done|]. right. exists j, v. split; [done|]. split; [lia|]. by split.
Qed.

Lemma iterator_next_ok (t : table) mp j v : rep t mp -> 0 <= j -> slots_ t !! Z.to_nat j = Some (Some v) ->
  exists it, iterator_next t j = Ok it /\ iter_at (slots_ t) (j + 1) it.
Proof using HL.
  intros [(m & c & Hm & Hl & _) _] Hj Hv. pose proof Hl as [Hview Hlen Hslot _ _]. pose proof (N_range m Hm).
  pose proof (ctrl_long t m c Hm Hview). pose proof (view_length m t c Hview) as Hcl. pose proof (lookup_lt_Some _ _ _ Hv).
  destruct (lookup_lt_is_Some_2 c (Z.to_nat j) ltac:(lia)) as [x Hx]. pose proof (Hslot _ _ _ Hx Hv) as Hxh. cbn in Hxh. subst x.
  unfold iterator_next. rewrite (ctrl_cell m Hm t c Hview j _) by (done || lia). cbn [rbind].
  destruct (H2_not (hash_of v)) as (_ & _ & -> & _). cbn [cpp_assert].
  destruct (skip_from m Hm t c Hl (S (length (ctrl t))) (j + 1)) as [[-> Hn]|(k & u & -> & Hk & Hu & _ & Heq)]; [lia|lia| |].
  - exists None. split; [done|]. by left.
  - exists (Some k). split; [done|]. right. exists k, u. split; [done|]. split; [lia|]. by split.
Qed.

(** ** EraseIf *)

(** Erasing keeps the array and never takes growth. *)
Definition shrunk (t t' : table) : Prop := capacity_ t' = capacity_ t /\ growth_left_ t <= growth_left_ t'.

(** [mp'] is [mp] without the elements of [l] that satisfy [pred]. *)
Definition removed (pred : V -> bool) (l : list V) (mp mp' : gmap K V) : Prop :=
  forall k v, mp' !! k = Some v <-> mp !! k = Some v /\ (v ∈ l -> pred v = false).

Lemma rep_key (t : table) mp i v : rep t mp -> slots_ t !! i = Some (Some v) -> mp !! policy_key v = Some v.
Proof using. intros [_ Hr] Hi. apply Hr. by exists i. Qed.

Lemma rep_lookup_key (t : table) mp k v : rep t mp -> mp !! k = Some v -> policy_key v = k.
Proof using. intros [_ Hr] Hk. by apply Hr in Hk as (i & _ & Hk). Qed.

Lemma EraseIf_loop_ok pred fuel : forall (t : table) mp i it, rep t mp -> 0 <= i -> iter_at (slots_ t) i it ->
  (length (rest (slots_ t) i) < fuel)%nat ->
  exists t' mp', EraseIf_loop fuel pred t it = Ok t' /\ rep t' mp' /\ removed pred (rest (slots_ t) i) mp mp' /\ shrunk t t'.
Proof using HL HPL.
  induction fuel as [|fuel IH]; intros t mp i it Hrep Hi Hit Hfuel; [lia|]. cbn [EraseIf_loop].
  destruct Hit as [[-> Hr]|(j & v & -> & Hj & Hv & Hr)].
  { exists t, mp. split; [done|]. split; [done|]. rewrite Hr. split; [|by split]. intros k v. split; [|by intros [? _]].
    intros Hk. split; [done|]. by intros ?%elem_of_nil. }
  assert (Hj0 : 0 <= j) by lia. rewrite (proj1 (element_ok _ _ _ Hj0) Hv). cbn [rbind].
  destruct (iterator_next_ok t mp j v Hrep Hj0 Hv) as (next & -> & Hnext). cbn [rbind].
  rewrite Hr in Hfuel |- *. cbn [length] in Hfuel. destruct (pred v) eqn:Hp.
  - pose proof Hrep as [(m & c & Hm & Hl & Hc) Hrs].
    destruct (erase_at_ok m Hm t c Hl Hc j v mp Hj0 Hv Hrs) as (t1 & -> & Hrep1 & Hs1 & Hsh). cbn [rbind].
    assert (Hrest : rest (slots_ t1) (j + 1) = rest (slots_ t) (j + 1)) by (rewrite Hs1; apply rest_insert; lia).
    destruct (IH t1 _ (j + 1) next Hrep1) as (t' & mp' & Hloop & Hrep' & Hrem & Hsh'); [lia|rewrite Hs1; apply iter_at_insert; [lia|done]|rewrite Hrest; lia|].
    exists t', mp'. split; [done|]. split; [done|]. split; [|destruct Hsh, Hsh'; split; [congruence|lia]]. intros k u. rewrite (Hrem k u), Hrest, lookup_delete_Some, elem_of_cons.
    pose proof (rep_key t mp _ v Hrep Hv) as Hkv. split.
    + intros [[Hne Hk] Hpr]. split; [done|]. intros [->|Hin]; [|by apply Hpr]. exfalso. apply Hne. by apply (rep_lookup_key t mp).
    + intros [Hk Hpr]. split; [|intros Hin; apply Hpr; by right]. split; [|done]. intros Hkey. subst k.
      rewrite Hkv in Hk. injection Hk as <-. rewrite Hpr in Hp; [done|by left].
  - destruct (IH t mp (j + 1) next Hrep) as (t' & mp' & Hloop & Hrep' & Hrem & Hsh'); [lia|done|lia|]. cbn [rbind].
    exists t', mp'. split; [done|]. split; [done|]. split; [|done]. intros k u. rewrite (Hrem k u), elem_of_cons. split.
    + intros [Hk Hpr]. split; [done|]. by intros [->|Hin]; [|apply Hpr].
    + intros [Hk Hpr]. split; [done|]. intros Hin. apply Hpr. by right.
Qed.

Lemma capacity_size (t : table) mp : rep t mp -> (length (contents t) <= Z.to_nat (capacity_ t))%nat.
Proof using HL.
  intros Hrep. destruct (rep_contents t mp Hrep) as (_ & _ & Hlen & _). destruct Hrep as [(m & c & Hm & Hl & Hc) _].
  destruct (counts_range m Hm t c Hl Hc) as [Hs _]. pose proof (growth_cap m Hm) as [Hg _].
  rewrite (proj1 (inv_view m t c Hl)). lia.
Qed.

Lemma EraseIf_ok pred (t : table) mp : rep t mp ->
  exists t', EraseIf pred t = Ok (Z.of_nat (base.size (filter (fun kv => pred kv.2 = true) mp)), t') /\
    rep t' (filter (fun kv => pred kv.2 = false) mp) /\ shrunk t t'.
Proof using HL HPL.
  intros Hrep. unfold EraseIf. destruct (begin_ok t mp Hrep) as (it & -> & Hit). cbn [rbind].
  assert (Hrest : rest (slots_ t) 0 = contents t) by (unfold rest, contents; by rewrite drop_0).
  pose proof (capacity_size t mp Hrep).
  destruct (EraseIf_loop_ok pred (S (Z.to_nat (capacity_ t))) t mp 0 it Hrep) as (t' & mp' & -> & Hrep' & Hrem & Hsh);
    [done|done|rewrite Hrest; lia|]. cbn [rbind].
  destruct (rep_contents t mp Hrep) as (_ & Hel & _ & Hsz & _). destruct (rep_contents t' mp' Hrep') as (_ & _ & _ & Hsz' & _).
  assert (Hmp : mp' = filter (fun kv => pred kv.2 = false) mp).
  { apply map_eq. intros k. apply option_eq. intros v. rewrite (Hrem k v), map_lookup_filter_Some. cbn. split; intros [Hk Hpr]; (split; [done|]).
    - apply Hpr. rewrite Hrest. apply Hel. by rewrite (rep_lookup_key t mp k v).
    - done. }
  subst mp'. exists t'. split; [|by split]. f_equal. f_equal. pose proof (rep_size_range t mp Hrep). pose proof (rep_size_range t' _ Hrep').
  assert (Hsplit : (base.size mp = base.size (filter (fun kv => pred kv.2 = true) mp) + base.size (filter (fun kv => pred kv.2 = false) mp))%nat).
  { rewrite <- map_size_disj_union by (apply map_disjoint_spec; intros k a b Ha Hb;
      apply map_lookup_filter_Some in Ha as [Ha1 Ha2], Hb as [Hb1 Hb2]; cbn in *; congruence).
    f_equal. apply map_eq. intros k. apply option_eq. intros v. rewrite lookup_union_Some.
    - rewrite !map_lookup_filter_Some. cbn. destruct (pred v); naive_solver.
    - apply map_disjoint_spec; intros k' a b Ha Hb;
      apply map_lookup_filter_Some in Ha as [Ha1 Ha2], Hb as [Hb1 Hb2]; cbn in *; congruence. }
  rewrite u64_id; lia.
Qed.
End copy.
