(* ===== verification/TableMerge.v ===== *)
(** * TableMerge: sequences of insertions, merging and comparing (lemmas for Table.v)

    How the capacity grows with the number of insertions, and the operations
    that use it. *)

From S2P Require Import Prelude.
From S2P Require Import Word.
From S2P Require Import BitMask.
From S2P Require Import Group.
From S2P Require Import Capacity.
From S2P Require Import Probe.
From S2P Require Import Table.
From S2P Require Import CellsInv.
From S2P Require Import TableFind.
From S2P Require Import TableRep.
From S2P Require Import TableDrop.
From S2P Require Import TableErase.
From S2P Require Import TableBulk.

Section merge.
Context {K V : Type} `{EqDecision K, Countable K}.
Context {HG : Group} {HL : GroupLaws} {HB : Build} {HM : Memory} {HML : MemoryLaws}.
Context `{HP : SetPolicy K V} {HPL : PolicyLaws K V}.

Notation hash_of v := (hasher (policy_key v)).
Notation table := (common_fields V).

(** ** The growth of the capacity *)

(** After operations of total cost [W] on a table of capacity [C]: the part
    of the growth in use is at most [W], and the capacity at most [C] or
    about three times [W]. *)
Definition bounded (C W : Z) (t : table) : Prop := used t <= W /\ capacity_ t <= Z.max C (3 * W + 3).

Lemma growth_of_lower cap : capacity_ok cap \/ cap = 0 -> 7 * cap <= 8 * growth_of cap + 1.
Proof using.
  intros Hc. unfold growth_of. assert (0 <= cap) by (destruct Hc as [Hc| ->]; [pose proof (capacity_bounds _ Hc)|]; lia).
  pose proof (Z.mul_div_le cap 8 ltac:(done)). destruct ((kWidth =? 8) && (cap =? 7)) eqn:E; bools; lia.
Qed.

Lemma rep_capacity_ok (t : table) mp : rep t mp -> capacity_ok (capacity_ t) \/ capacity_ t = 0.
Proof using.
  intros [(m & c & Hm & Hl & _) _]. rewrite (proj1 (inv_view m t c Hl)). destruct (decide (m = 0)) as [->|]; [by right|].
  left. by apply cap_ok; lia.
Qed.

Lemma grown_bounded C W (t t' : table) mp : rep t mp -> bounded C W t -> grown 1 t t' -> bounded C (W + 1) t'.
Proof using.
  intros Hrep [Hu Hc] [Hu' Hc']. split; [lia|]. destruct Hc' as [->|[Hz ->]]; [lia|].
  pose proof (growth_of_lower _ (rep_capacity_ok t mp Hrep)). unfold used in *. lia.
Qed.

Lemma used_le_capacity (t : table) mp : rep t mp -> used t <= capacity_ t.
Proof using HL.
  intros [(m & c & Hm & Hl & Hc) _]. unfold used. rewrite (proj1 (inv_view m t c Hl)).
  pose proof (growth_cap m Hm) as [Hg _]. destruct Hc as [_ _ ? _]. lia.
Qed.

(** Insertions keep what is in the map. *)
Lemma insert_default (mp : gmap K V) v k :
  <[policy_key v := default v (mp !! policy_key v)]> mp !! k =
  match mp !! k with Some u => Some u | None => if decide (policy_key v = k) then Some v else None end.
Proof using.
  destruct (decide (policy_key v = k)) as [<-|Hne].
  - rewrite lookup_insert_eq. by destruct (mp !! policy_key v).
  - rewrite lookup_insert_ne by done. by destruct (mp !! k).
Qed.

(** The map of a list of elements; the first one of a key counts. *)
Definition inserted_all (mp : gmap K V) (l : list V) : gmap K V :=
  foldl (fun mp v => <[policy_key v := default v (mp !! policy_key v)]> mp) mp l.

Lemma insert_range_ok l : forall (t : table) mp C W w, rep t mp -> bounded C W t -> C < 2 ^ 58 ->
  3 * (W + Z.of_nat (length l)) + 3 < 2 ^ 58 ->
  exists t' w', insert_range t l w = Ok (t', w') /\ rep t' (inserted_all mp l) /\ bounded C (W + Z.of_nat (length l)) t'.
Proof using HL HPL.
  induction l as [|v l IH]; intros t mp C W w Hrep Hb HC HW; cbn [insert_range length] in *.
  - exists t, w. split; [done|]. split; [done|]. by rewrite Z.add_0_r.
  - assert (Hcap : capacity_ t < 2 ^ 58) by (destruct Hb; lia).
    destruct (emplace_ok t mp v w Hrep Hcap) as (i & t1 & w1 & -> & Hrep1 & _ & Hg). cbn [rbind].
    destruct (IH t1 _ C (W + 1) w1 Hrep1) as (t' & w' & -> & Hrep' & Hb'); [exact (grown_bounded C W t t1 mp Hrep Hb Hg)|done|lia|].
    exists t', w'. split; [done|]. split; [done|]. by replace (W + Z.of_nat (S (length l))) with (W + 1 + Z.of_nat (length l)) by lia.
Qed.

(** The constructor from a range. *)
Lemma raw_hash_set_range_ok l n w : 0 <= n < 2 ^ 54 -> Z.of_nat (length l) < 2 ^ 53 ->
  exists (t : table) w', raw_hash_set_range l n w = Ok (t, w') /\ rep t (inserted_all ∅ l).
Proof using HL HML HPL.
  intros Hn Hlen. unfold raw_hash_set_range. set (count := SelectBucketCountForIterRange _ _).
  assert (Hc : 0 <= count < 2 ^ 54).
  { unfold count, SelectBucketCountForIterRange. destruct (negb (n =? 0)); [done|].
    pose proof (lower_bound_le (Z.of_nat (length l)) ltac:(lia)). destruct (GrowthToLowerbound_eq (Z.of_nat (length l)) ltac:(lia)) as [_ Hb].
    pose proof (Z.div_lt_upper_bound (Z.of_nat (length l)) 7 (2 ^ 53)). lia. }
  destruct (raw_hash_set_ctor_ok (V := V) count w ltac:(lia)) as (t & w1 & -> & Hrep & Hcap). cbn [rbind].
  pose proof (used_le_capacity t ∅ Hrep).
  destruct (insert_range_ok l t ∅ (2 * count) (2 * count) w1 Hrep) as (t' & w' & -> & Hrep' & _); [split; lia|lia|lia|].
  by exists t', w'.
Qed.

(** ** merge *)

(** The elements of [l] go from [ms] to [mc] unless their key is there. *)
Definition merged (l : list V) (mc ms mc' ms' : gmap K V) : Prop :=
  (forall k v, mc' !! k = Some v <-> mc !! k = Some v \/ mc !! k = None /\ v ∈ l /\ policy_key v = k) /\
  (forall k v, ms' !! k = Some v <-> ms !! k = Some v /\ (v ∈ l -> is_Some (mc !! k))).

Lemma merge_loop_ok fuel : forall (c src : table) mc ms i it C W w, rep c mc -> rep src ms -> bounded C W c ->
  0 <= i -> iter_at (slots_ src) i it -> (length (rest (slots_ src) i) < fuel)%nat -> C < 2 ^ 58 ->
  3 * (W + Z.of_nat (length (rest (slots_ src) i))) + 3 < 2 ^ 58 -> NoDup (policy_key <$> rest (slots_ src) i) ->
  exists c' src' w' mc' ms', merge_loop fuel c src it w = Ok (c', src', w') /\ rep c' mc' /\ rep src' ms' /\
    merged (rest (slots_ src) i) mc ms mc' ms'.
Proof using HL HPL.
  induction fuel as [|fuel IH]; intros c src mc ms i it C W w Hc Hs Hb Hi Hit Hfuel HC HW Hnd; [lia|]. cbn [merge_loop].
  destruct Hit as [[-> Hr]|(j & v & -> & Hj & Hv & Hr)].
  { exists c, src, w, mc, ms. do 3 (split; [done|]). rewrite Hr. split; intros k u.
    - split; [by left|]. intros [?|(_ & ?%elem_of_nil & _)]; done.
    - split; [|by intros [? _]]. intros Hk. split; [done|]. by intros ?%elem_of_nil. }
  assert (Hj0 : 0 <= j) by lia.
  destruct (iterator_next_ok src ms j v Hs Hj0 Hv) as (next & -> & Hnext). cbn [rbind].
  rewrite (proj1 (element_ok _ _ _ Hj0) Hv). cbn [rbind]. rewrite Hr in Hfuel, HW, Hnd |- *. cbn [length fmap list_fmap] in Hfuel, HW, Hnd.
  apply NoDup_cons in Hnd as [Hnew Hnd]. assert (Hcap : capacity_ c < 2 ^ 58) by (destruct Hb; lia).
  destruct (InsertSlot_ok c mc v w Hc Hcap) as (i' & c1 & w1 & -> & Hc1 & _ & Hg). cbn [rbind].
  assert (Hfresh : forall u, u ∈ rest (slots_ src) (j + 1) -> policy_key u <> policy_key v).
  { intros u Hu Heq. apply Hnew. rewrite <- Heq. by apply list_elem_of_fmap_2. }
  assert (Hmsv : ms !! policy_key v = Some v) by (by apply (rep_key src ms (Z.to_nat j))).
  destruct (mc !! policy_key v) as [u0|] eqn:Hk.
  - rewrite bool_decide_false by done. cbn [rbind default] in Hc1 |- *. rewrite insert_id in Hc1 by done.
    destruct (IH c1 src mc ms (j + 1) next C (W + 1) w1 Hc1 Hs) as (c' & src' & w' & mc' & ms' & -> & Hc' & Hs' & [Hm1 Hm2]);
      [exact (grown_bounded C W c c1 mc Hc Hb Hg)|lia|done|lia|done|lia|done|].
    exists c', src', w', mc', ms'. do 3 (split; [done|]). split; intros k u.
    + rewrite (Hm1 k u), elem_of_cons. naive_solver.
    + rewrite (Hm2 k u), elem_of_cons. split; intros [Hku Himp]; (split; [done|]).
      * intros [->|Hin]; [|by apply Himp]. rewrite (rep_lookup_key src ms k v Hs Hku) in Hk. by rewrite Hk.
      * intros Hin. apply Himp. by right.
  - rewrite bool_decide_true by done. cbn [default] in Hc1. pose proof (lookup_lt_Some _ _ _ Hv) as Hlt. rewrite set_at_ok by lia. cbn [rbind].
    destruct Hs as [(m & cs & Hm & Hl & Hcs) Hrs].
    destruct (EraseMetaOnly_ok m Hm src cs Hl Hcs j v ms Hj0 Hv Hrs) as (s1 & -> & Hs1 & Hsl & _). cbn [rbind].
    assert (Hrest : rest (slots_ s1) (j + 1) = rest (slots_ src) (j + 1)) by (rewrite Hsl; apply rest_insert; lia).
    destruct (IH c1 s1 _ _ (j + 1) next C (W + 1) w1 Hc1 Hs1) as (c' & src' & w' & mc' & ms' & -> & Hc' & Hs' & [Hm1 Hm2]);
      [exact (grown_bounded C W c c1 mc Hc Hb Hg)|lia|rewrite Hsl; apply iter_at_insert; [lia|done]|rewrite Hrest; lia|done|rewrite Hrest; lia|by rewrite Hrest|].
    rewrite Hrest in Hm1, Hm2. exists c', src', w', mc', ms'. do 3 (split; [done|]). split; intros k u.
    + rewrite (Hm1 k u), elem_of_cons. destruct (decide (policy_key v = k)) as [<-|Hne].
      * rewrite lookup_insert_eq. split; [intros [[= <-]|[? _]]; [right|done]|intros [?|(_ & [->|Hin] & Heq)]]; [naive_solver|congruence|by left|by destruct (Hfresh u Hin)].
      * rewrite lookup_insert_ne by done. naive_solver.
    + rewrite (Hm2 k u), elem_of_cons. destruct (decide (policy_key v = k)) as [<-|Hne].
      * rewrite lookup_delete_eq. split; [by intros [? _]|]. intros [Hu Himp]. exfalso.
        rewrite Hmsv in Hu. injection Hu as <-. destruct Himp as [? Hx]; [by left|congruence].
      * rewrite lookup_delete_ne, lookup_insert_ne by done. split; intros [Hu Himp]; (split; [done|]); [|naive_solver].
        intros [->|Hin]; [|by apply Himp]. destruct Hne. by destruct (proj1 (Hrs k v) Hu) as (? & _ & ?).
Qed.

(** The source must be another table: the functions take two. *)
Lemma merge_ok (c src : table) mc ms w : rep c mc -> rep src ms -> capacity_ c < 2 ^ 55 -> size src < 2 ^ 55 ->
  exists c' src' w', merge c src w = Ok (c', src', w') /\ rep c' (mc ∪ ms) /\ rep src' (filter (fun kv => is_Some (mc !! kv.1)) ms).
Proof using HL HPL.
  intros Hc Hs Hcap Hsize. unfold merge. destruct (begin_ok src ms Hs) as (it & -> & Hit). cbn [rbind].
  assert (Hrest : rest (slots_ src) 0 = contents src) by (unfold rest, contents; by rewrite drop_0).
  destruct (rep_contents src ms Hs) as (Hnd & Hel & Hlen & _). pose proof (capacity_size src ms Hs) as Hcs. pose proof (used_le_capacity c mc Hc) as Hu.
  assert (Hlen' : Z.of_nat (length (contents src)) < 2 ^ 55) by lia.
  destruct (merge_loop_ok (S (Z.to_nat (capacity_ src))) c src mc ms 0 it (capacity_ c) (capacity_ c) w Hc Hs)
    as (c' & src' & w' & mc' & ms' & -> & Hc' & Hs' & [Hm1 Hm2]); [split; lia|done|done|rewrite Hrest; lia|lia|rewrite Hrest; clear Hcs; lia|by rewrite Hrest|].
  rewrite Hrest in Hm1, Hm2. exists c', src', w'. split; [done|]. split.
  - replace (mc ∪ ms) with mc'; [done|]. apply map_eq. intros k. apply option_eq. intros v.
    rewrite (Hm1 k v), lookup_union_Some_raw. rewrite (Hel v). split; (intros [?|H1]; [by left|right]).
    + by destruct H1 as (? & ? & <-).
    + destruct H1 as [? Hk]. pose proof (rep_lookup_key src ms k v Hs Hk) as <-. done.
  - replace (filter _ ms) with ms'; [done|]. apply map_eq. intros k. apply option_eq. intros v.
    rewrite (Hm2 k v), map_lookup_filter_Some, (Hel v). cbn. split; intros [Hk Himp]; (split; [done|]).
    + apply Himp. by rewrite (rep_lookup_key src ms k v Hs Hk).
    + done.
Qed.

(** ** Comparing *)

Lemma all_found_ok (veq : V -> V -> bool) (inner : table) mi l : (forall a b, veq a b = true <-> a = b) -> rep inner mi ->
  exists b, all_found veq inner l = Ok b /\ (b = true <-> forall v, v ∈ l -> mi !! policy_key v = Some v).
Proof using HL HPL.
  intros Hveq Hrep. induction l as [|v l (b & Hb & IH)].
  - exists true. split; [done|]. split; [|done]. by intros _ v ?%elem_of_nil.
  - cbn [all_found]. destruct (find_ok inner mi (policy_key v) Hrep) as [(j & u & -> & Hj & Hk & Hm)|[-> Hn]]; cbn [rbind].
    + assert (Hj0 : 0 <= Z.of_nat j) by lia. rewrite (proj1 (element_ok (slots_ inner) (Z.of_nat j) u Hj0)) by (by rewrite Nat2Z.id). cbn [rbind].
      destruct (veq u v) eqn:E.
      * apply Hveq in E as ->. exists b. split; [done|]. rewrite IH. setoid_rewrite elem_of_cons. naive_solver.
      * exists false. split; [done|]. split; [done|]. intros Hall. assert (Hv : mi !! policy_key v = Some v) by (apply Hall; by left).
        rewrite Hm in Hv. injection Hv as ->. rewrite (proj2 (Hveq v v) eq_refl) in E. done.
    + exists false. split; [done|]. split; [done|]. intros Hall. assert (Hv : mi !! policy_key v = Some v) by (apply Hall; by left). congruence.
Qed.

Lemma table_eq_ok (veq : V -> V -> bool) (a b : table) ma mb : (forall x y, veq x y = true <-> x = y) -> rep a ma -> rep b mb ->
  exists r, table_eq veq a b = Ok r /\ (r = true <-> ma = mb).
Proof using HL HPL.
  intros Hveq Ha Hb. unfold table_eq.
  destruct (rep_contents a ma Ha) as (_ & Hela & _ & Hsza & _). destruct (rep_contents b mb Hb) as (_ & Helb & _ & Hszb & _).
  destruct (size a =? size b) eqn:E; cbn [negb]; bools.
  2:{ exists false. split; [done|]. split; [done|]. intros ->. lia. }
  assert (Hmain : forall (o i : table) mo mi, rep o mo -> rep i mi -> base.size mo = base.size mi ->
    exists r, (let* l := elements o in all_found veq i l) = Ok r /\ (r = true <-> mo = mi)).
  { intros o i mo mi Ho Hi Hsz. rewrite (elements_rep o mo Ho). cbn [rbind]. destruct (rep_contents o mo Ho) as (_ & Hel & _).
    destruct (all_found_ok veq i mi (contents o) Hveq Hi) as (r & -> & Hr). exists r. split; [done|]. rewrite Hr. split.
    - intros Hall. apply map_subseteq_size_eq; [|lia]. apply map_subseteq_spec. intros k v Hk.
      rewrite <- (rep_lookup_key o mo k v Ho Hk) in Hk |- *. apply Hall. by apply Hel.
    - intros <- v Hv. by apply Hel. }
  destruct (capacity_ b <? capacity_ a).
  - destruct (Hmain b a mb ma Hb Ha) as (r & -> & Hr); [lia|]. exists r. split; [done|]. rewrite Hr. split; congruence.
  - destruct (Hmain a b ma mb Ha Hb) as (r & -> & Hr); [lia|]. by exists r.
Qed.
End merge.

(** * ranges, node handles and lazy construction (lemmas for Table.v)

    [erase(first, last)] and [equal_range], which work on ranges of iterators,
    and the insertions that take a node handle or construct the element in
    place. A range is given by the slots where its iterators stand and by the
    elements between them. *)

Section range.
Context {K V : Type} `{EqDecision K, Countable K}.
Context {HG : Group} {HL : GroupLaws} {HB : Build} {HM : Memory} {HML : MemoryLaws}.
Context `{HP : SetPolicy K V} {HPL : PolicyLaws K V}.

Notation hash_of v := (hasher (policy_key v)).
Notation table := (common_fields V).

(** [first] and [last] stand at or after the slots [i] and [b], and [l] is
    what lies between them. *)
Record range (t : table) (i b : Z) (first last : option Z) (l : list V) : Prop := {
  range_bounds : 0 <= i <= b;
  range_first : iter_at (slots_ t) i first;
  range_last : iter_at (slots_ t) b last;
  range_elements : rest (slots_ t) i = l ++ rest (slots_ t) b
}.

(** What is left without the elements of [l]. *)
Definition without (l : list V) (mp mp' : gmap K V) : Prop :=
  forall k v, mp' !! k = Some v <-> mp !! k = Some v /\ v ∉ l.

Lemma without_nil mp : without [] mp mp.
Proof using. intros k v. split; [intros Hk; split; [done|]; by intros ?%elem_of_nil|by intros [? _]]. Qed.

Lemma without_cons (t : table) mp mp' i v l : rep t mp -> slots_ t !! i = Some (Some v) ->
  without l (delete (policy_key v) mp) mp' -> without (v :: l) mp mp'.
Proof using.
  intros Hrep Hv Hw k u. rewrite (Hw k u), lookup_delete_Some, not_elem_of_cons. split.
  - intros [[Hne Hk] Hu]. split; [done|]. split; [|done]. intros ->. apply Hne. by apply (rep_lookup_key t mp).
  - intros [Hk [Hne Hu]]. split; [|done]. split; [|done]. intros <-. apply Hne.
    pose proof (rep_key t mp i v Hrep Hv). congruence.
Qed.

Lemma rest_length (s : list (option V)) b j v : 0 <= b <= j -> s !! Z.to_nat j = Some (Some v) ->
  (length (rest s (j + 1)) < length (rest s b))%nat.
Proof using.
  intros Hb Hv. unfold rest.
  assert (Hd : drop (Z.to_nat b) s = take (Z.to_nat (j - b)) (drop (Z.to_nat b) s) ++ Some v :: drop (Z.to_nat (j + 1)) s).
  { rewrite <- (take_drop (Z.to_nat (j - b)) (drop (Z.to_nat b) s)) at 1. f_equal. rewrite drop_drop.
    replace (Z.to_nat b + Z.to_nat (j - b))%nat with (Z.to_nat j) by lia. rewrite (drop_S _ _ _ Hv). f_equal. f_equal. lia. }
  rewrite Hd, omap_app. cbn. rewrite length_app. cbn. lia.
Qed.

(** An empty range. *)
Lemma range_nil (t : table) mp i b first last : rep t mp -> range t i b first last [] -> first = last.
Proof using.
  intros Hrep [Hib Hf Hl Hr]. cbn [app] in Hr.
  destruct Hf as [[-> Hf]|(j & v & -> & Hj & Hv & Hf)], Hl as [[-> Hl]|(j' & v' & -> & Hj' & Hv' & Hl)]; [done|congruence|congruence|].
  assert (v = v') as <- by congruence. f_equal. apply Z2Nat.inj; [lia|lia|]. by apply (index_unique t mp _ _ v v).
Qed.

(** The first element of a range that is not empty. *)
Lemma range_cons (t : table) i b first last v l : range t i b first last (v :: l) ->
  exists j, first = Some j /\ i <= j < b /\ slots_ t !! Z.to_nat j = Some (Some v) /\ first <> last /\
    rest (slots_ t) (j + 1) = l ++ rest (slots_ t) b.
Proof using.
  intros [Hib Hf Hl Hr]. destruct Hf as [[-> Hf]|(j & u & -> & Hj & Hv & Hf)]; [by rewrite Hf in Hr|].
  rewrite Hf in Hr. cbn [app] in Hr. injection Hr as -> Hr. exists j.
  assert (Hjb : j < b).
  { destruct (decide (j < b)); [done|]. pose proof (rest_length (slots_ t) b j v ltac:(lia) Hv) as Hlen.
    rewrite Hr, length_app in Hlen. lia. }
  split; [done|]. split; [lia|]. split; [done|]. split; [|done].
  intros <-. destruct Hl as [[? _]|(j' & v' & [= <-] & Hj' & _)]; [done|lia].
Qed.

Lemma erase_loop_ok l : forall fuel (t : table) mp i b first last, rep t mp -> range t i b first last l ->
  (length l < fuel)%nat ->
  exists t' mp', erase_loop fuel t first last = Ok t' /\ rep t' mp' /\ without l mp mp' /\ shrunk t t'.
Proof using HL HPL.
  induction l as [|v l IH]; intros fuel t mp i b first last Hrep Hran Hfuel; (destruct fuel as [|fuel]; [cbn in Hfuel; lia|]); cbn [erase_loop].
  - rewrite decide_True by (by apply (range_nil t mp i b)). exists t, mp. split; [done|]. split; [done|]. split; [apply without_nil|by split].
  - destruct (range_cons _ _ _ _ _ _ _ Hran) as (j & -> & Hj & Hv & Hne & Hr). rewrite decide_False by done. cbn [deref rbind].
    destruct Hran as [Hib _ Hlast _]. assert (Hj0 : 0 <= j) by lia.
    destruct (iterator_next_ok t mp j v Hrep Hj0 Hv) as (next & -> & Hnext). cbn [rbind].
    pose proof Hrep as [(m & c & Hm & Hl & Hc) Hrs].
    destruct (erase_at_ok m Hm t c Hl Hc j v mp Hj0 Hv Hrs) as (t1 & -> & Hrep1 & Hs1 & Hsh). cbn [rbind].
    destruct (IH fuel t1 _ (j + 1) b next last Hrep1) as (t' & mp' & -> & Hrep' & Hw & Hsh').
    { split; [lia|rewrite Hs1; apply iter_at_insert; [lia|done]|rewrite Hs1; apply iter_at_insert; [lia|done]|].
      rewrite Hs1, !rest_insert by lia. done. }
    { cbn [length] in Hfuel. lia. }
    exists t', mp'. split; [done|]. split; [done|]. split; [by apply (without_cons t _ _ (Z.to_nat j))|].
    destruct Hsh, Hsh'. split; [congruence|lia].
Qed.

(** [destroy_slots] and [ClearBackingArray], as [erase] and [clear] use them. *)
Lemma destroy_and_clear (t : table) mp w : rep t mp -> size t <> 0 ->
  exists t' w', (let* c := destroy_slots t in ClearBackingArray c true w) = Ok (t', w') /\ rep t' ∅.
Proof using HL HML.
  intros [(m & c & Hm & Hl & Hc) _] Hs. pose proof (inv_view m t c Hl) as Hv.
  assert (Hm1 : 1 <= m).
  { destruct (decide (m = 0)) as [->|]; [|lia]. exfalso. apply Hs. rewrite (counts_size _ _ _ Hc).
    pose proof (view_length 0 t c Hv) as Hcl. pose proof (countb_range IsFull c). cbn in Hcl. lia. }
  rewrite (destroy_slots_ok t m c Hm Hl). cbn [rbind].
  destruct (ClearBackingArray_ok (with_slots t (replicate (Z.to_nat (2 ^ m - 1)) None)) m true w)
    as (t1 & w1 & -> & Hrep & _); [lia|exact (proj1 Hv)|exact (proj1 (proj2 (proj2 (proj2 Hv))))|done|].
  by exists t1, w1.
Qed.

(** A range that starts where [begin()] stands and ends at [end()] has all the
    elements. *)
Lemma range_all (t : table) mp i b first l : rep t mp -> begin t = Ok first -> range t i b first None l -> without l mp ∅.
Proof using HL.
  intros Hrep Hb [_ Hf Hl Hr]. destruct (begin_ok t mp Hrep) as (it & Hit & H0). rewrite Hb in Hit. injection Hit as <-.
  assert (Hall : rest (slots_ t) 0 = l).
  { destruct Hl as [[_ Hl]|(? & ? & ? & _)]; [|done]. rewrite Hl, app_nil_r in Hr.
    destruct H0 as [[-> H0]|(j & v & -> & _ & Hv & H0)], Hf as [[Hn Hf]|(j' & v' & Hj & _ & Hv' & Hf)]; try done; [congruence|].
    injection Hj as <-. rewrite Hv in Hv'. injection Hv' as <-. congruence. }
  intros k v. rewrite lookup_empty. split; [done|]. intros [Hk Hn]. exfalso. apply Hn. rewrite <- Hall.
  apply rest_elem; [done|]. apply (proj2 Hrep) in Hk as (j & Hj & _). exists j. split; [lia|done].
Qed.

(** [erase(first, last)] on each of its paths. *)
Lemma erase_range_ok (t : table) mp i b first last l w : rep t mp -> range t i b first last l ->
  exists t' mp' w', erase_range t first last w = Ok (t', last, w') /\ rep t' mp' /\ without l mp mp'.
Proof using HL HPL HML.
  intros Hrep Hran. unfold erase_range. destruct (size t =? 0) eqn:Es; bools.
  - pose proof (rep_empty_size t mp Hrep Es) as ->. exists t, ∅, w.
    assert (Hr0 : forall j, rest (slots_ t) j = []).
    { intros j. destruct (rest (slots_ t) j) as [|v r] eqn:E; [done|]. exfalso.
      assert (Hv : v ∈ rest (slots_ t) (Z.max 0 j)).
      { replace (rest (slots_ t) (Z.max 0 j)) with (rest (slots_ t) j); [rewrite E; by left|].
        unfold rest. do 2 f_equal. lia. }
      apply rest_elem in Hv as (a & _ & Ha); [|lia].
      pose proof (rep_key t ∅ a v Hrep Ha) as Hk. by rewrite lookup_empty in Hk. }
    destruct Hran as [_ _ [[-> _]|(j & v & _ & _ & _ & Hl)] _]; [|by rewrite Hr0 in Hl].
    split; [done|]. split; [done|]. intros k v. rewrite lookup_empty. split; [done|by intros [? _]].
  - destruct (begin_ok t mp Hrep) as (it & Hb & _). rewrite Hb. cbn [rbind].
    destruct (bool_decide (first = it) && bool_decide (last = None)) eqn:Eb.
    + bools. apply bool_decide_eq_true in H0, H1. subst it last.
      destruct (destroy_and_clear t mp w Hrep Es) as (t1 & w1 & Hc & Hrep1).
      destruct (destroy_slots t) as [t0|]; [|done]. cbn [rbind] in Hc |- *. rewrite Hc. cbn [rbind].
      exists (with_gen t1 (set_reserved_growth (gen_ t1) (reservation_size (gen_ t1)))), ∅, w1.
      split; [done|]. split; [by apply with_gen_rep|]. by apply (range_all t mp i b first).
    + destruct (erase_loop_ok l (S (Z.to_nat (capacity_ t))) t mp i b first last Hrep Hran) as (t' & mp' & -> & Hrep' & Hw & _).
      { pose proof (capacity_size t mp Hrep) as Hcs. assert (Hle : (length (rest (slots_ t) i) <= length (contents t))%nat).
        { unfold rest, contents. rewrite <- (take_drop (Z.to_nat i) (slots_ t)) at 2. rewrite omap_app, length_app. lia. }
        rewrite (range_elements _ _ _ _ _ _ Hran), length_app in Hle. lia. }
      cbn [rbind]. by exists t', mp', w.
Qed.

(** [equal_range]: the range of the one element with the key, or an empty one. *)
Lemma equal_range_ok (t : table) mp k : rep t mp ->
  match mp !! k with
  | Some v => exists first last, equal_range t k = Ok (Some first, last) /\ range t first (first + 1) (Some first) last [v]
  | None => equal_range t k = Ok (None, None)
  end.
Proof using HL HPL.
  intros Hrep. unfold equal_range.
  destruct (find_ok t mp k Hrep) as [(j & v & -> & Hj & _ & ->)|[-> ->]]; cbn [rbind]; [|done].
  assert (Hj0 : 0 <= Z.of_nat j) by lia. rewrite <- (Nat2Z.id j) in Hj.
  destruct (iterator_next_ok t mp (Z.of_nat j) v Hrep Hj0 Hj) as (next & -> & Hnext). cbn [rbind].
  assert (Hr : rest (slots_ t) (Z.of_nat j) = v :: rest (slots_ t) (Z.of_nat j + 1)).
  { unfold rest. rewrite (drop_S _ _ _ Hj). cbn. do 3 f_equal. lia. }
  exists (Z.of_nat j), next. split; [done|]. split; [lia| |done|done].
  right. exists (Z.of_nat j), v. split; [done|]. split; [lia|]. by split.
Qed.

(** [insert(node)]: an element whose key is there stays in its handle. *)
Lemma insert_node_ok (t : table) mp node w : rep t mp -> capacity_ t < 2 ^ 58 ->
  match node with
  | None => insert_node t None w = Ok (None, false, None, t, w)
  | Some v =>
      let found := mp !! policy_key v in
      exists i t' w', insert_node t (Some v) w =
          Ok (Some i, bool_decide (found = None), (if decide (found = None) then None else Some v), t', w') /\
        rep t' (<[policy_key v := default v found]> mp) /\ element (slots_ t') i = Ok (default v found)
  end.
Proof using HL HPL.
  intros Hrep Hcap. destruct node as [v|]; [|done]. cbn zeta. unfold insert_node.
  destruct (InsertSlot_ok t mp v w Hrep Hcap) as (i & t' & w' & -> & Hrep' & Hel & _). cbn [rbind].
  exists i, t', w'. destruct (mp !! policy_key v); by split.
Qed.

(** [lazy_emplace]: the element is constructed in the slot that was found. *)
Lemma lazy_emplace_ok (t : table) mp v w : rep t mp -> capacity_ t < 2 ^ 58 ->
  let found := mp !! policy_key v in
  exists i t' w', lazy_emplace t (policy_key v) v w = Ok (i, t', w') /\
    rep t' (<[policy_key v := default v found]> mp) /\ element (slots_ t') i = Ok (default v found).
Proof using HL HPL.
  intros Hrep Hcap. cbn zeta.
  destruct (inserted_by t mp v w (fun c i => let* slots := set_at (slots_ c) i (Some v) in Ok (with_slots c slots)) Hrep Hcap)
    as (i & t' & w' & Heq & Hrep' & Hel & _).
  - intros t' i Hp Hn. destruct (fill_ok t' i v mp Hp Hn) as (_ & -> & _). done.
  - exists i, t', w'. split; [|by split]. unfold lazy_emplace.
    destruct (find_or_prepare_insert t (policy_key v) w) as [[[[j b] c] w1]|e]; cbn [rbind] in Heq |- *; [|done].
    destruct b; [|by injection Heq as -> _ -> ->]. destruct (set_at _ _ _) as [s|]; cbn [rbind] in Heq |- *; [|done].
    by injection Heq as -> _ -> ->.
Qed.
End range.
