(* ===== verification/FlatMap.v ===== *)
(** * FlatMap: flat_hash_map and flat_hash_set
    (src/abseil-cpp/absl/container/flat_hash_map.h, flat_hash_set.h, internal/raw_hash_map.h)

    The policies that make a map and a set out of the table of Table.v, and
    the operations that [raw_hash_map] adds. The elements of a map are pairs
    of a key and a mapped value, those of a set are the keys.

    The proofs are in FlatMapSpec.v. *)

From S2P Require Import Prelude.
From S2P Require Import Word.
From S2P Require Import BitMask.
From S2P Require Import Group.
From S2P Require Import Capacity.
From S2P Require Import Probe.
From S2P Require Import Table.
From S2P Require Import CellsInv.
From S2P Require Import TableFind.
From S2P Require Import TableRep.
From S2P Require Import TableDrop.
From S2P Require Import TableErase.
From S2P Require Import TableBulk.
From S2P Require Import TableMerge.

(** What the containers are instantiated with: [Hash], [Eq] and the layout
    of a slot. *)
Class KeyTraits (K : Type) := {
  key_hash : K -> Z;
  key_eq : K -> K -> bool;
  slot_size : Z;
  slot_align : Z
}.

(** [FlatHashSetPolicy]: an element is its key. *)
#[export] Instance FlatHashSetPolicy {K} `{KeyTraits K} : SetPolicy K K := {
  policy_key k := k; hasher := key_hash; key_equal := key_eq; sizeof_slot := slot_size; alignof_slot := slot_align
}.

(** [FlatHashMapPolicy]: [apply] decomposes a pair. *)
#[export] Instance FlatHashMapPolicy {K M} `{KeyTraits K} : SetPolicy K (K * M) := {
  policy_key := fst; hasher := key_hash; key_equal := key_eq; sizeof_slot := slot_size; alignof_slot := slot_align
}.

(** [Policy::value]. *)
Definition value {K M} (kv : K * M) : M := snd kv.

Section map.
Context {K M : Type} `{Group} `{Build} `{Memory} `{KeyTraits K}.

Notation map := (common_fields (K * M)).

(** [Policy::value(&*iterator_at(i)) = v]. *)
Definition assign_value (c : map) (i : Z) (v : M) : result map :=
  let* kv := element (slots_ c) i in
  let* slots := set_at (slots_ c) i (Some (fst kv, v)) in Ok (with_slots c slots).

Definition insert_or_assign_impl (c : map) (k : K) (v : M) (w : World) : result (Z * bool * map * World) :=
  let* r := find_or_prepare_insert c k w in
  let '(i, inserted, c, w) := r in
  let* c := if inserted then emplace_at c i (k, v) else assign_value c i v in
  Ok (i, inserted, c, w).

Definition insert_or_assign (c : map) (k : K) (v : M) (w : World) : result (Z * bool * map * World) :=
  insert_or_assign_impl c k v w.

(** [v] is the value constructed from the arguments. *)
Definition try_emplace_impl (c : map) (k : K) (v : M) (w : World) : result (Z * bool * map * World) :=
  let* r := find_or_prepare_insert c k w in
  let '(i, inserted, c, w) := r in
  let* c := if inserted then emplace_at c i (k, v) else Ok c in
  Ok (i, inserted, c, w).

Definition try_emplace (c : map) (k : K) (v : M) (w : World) : result (Z * bool * map * World) :=
  try_emplace_impl c k v w.

(** [at]: throws [std::out_of_range] where the key is missing. *)
Definition at_ (c : map) (key : K) : result M :=
  let* it := find c key in
  match it with
  | None => Err OutOfRange
  | Some i => let* kv := element (slots_ c) i in Ok (value kv)
  end.

(** [operator[]]: [init] is [M()]; the position of the value and the value. *)
Definition subscript (init : M) (c : map) (key : K) (w : World) : result (Z * M * map * World) :=
  let* r := try_emplace c key init w in
  let '(i, _, c, w) := r in
  let* kv := element (slots_ c) i in Ok (i, value kv, c, w).

(** [m[key] = v]. *)
Definition subscript_assign (init : M) (c : map) (key : K) (v : M) (w : World) : result (map * World) :=
  let* r := subscript init c key w in
  let '(i, _, c, w) := r in
  let* c := assign_value c i v in Ok (c, w).

(** [erase_if]. *)
Definition erase_if (pred : K * M -> bool) (c : map) : result (Z * map) := EraseIf pred c.
End map.

(** * flat_hash_map against finite maps (lemmas for FlatMap.v)

    [holds t mp] relates a table of pairs to a map from keys to values; the
    operations that [raw_hash_map] adds do to it what their names say. *)

(** What the containers rely on: hashes are words, [Eq] is equality. *)
Class KeyLaws (K : Type) `{KeyTraits K} := {
  key_hash_word k : word 64 (key_hash k);
  key_eq_spec a b : key_eq a b = true <-> a = b
}.

#[export] Instance FlatHashSetLaws {K} `{KeyLaws K} : PolicyLaws K K.
Proof. split; [apply key_hash_word|apply key_eq_spec]. Qed.

#[export] Instance FlatHashMapLaws {K M} `{KeyLaws K} : PolicyLaws K (K * M).
Proof. split; [apply key_hash_word|apply key_eq_spec]. Qed.

Section map.
Context {K M : Type} `{EqDecision K, Countable K}.
Context {HG : Group} {HL : GroupLaws} {HB : Build} {HM : Memory} {HML : MemoryLaws}.
Context `{HK : KeyTraits K} {HKL : KeyLaws K}.

Notation map := (common_fields (K * M)).

(** The elements of a map as the table stores them. *)
Definition pairs (mp : gmap K M) : gmap K (K * M) := map_imap (fun k v => Some (k, v)) mp.

Lemma lookup_pairs mp k : pairs mp !! k = (fun v => (k, v)) <$> mp !! k.
Proof using. unfold pairs. rewrite map_lookup_imap. by destruct (mp !! k). Qed.

Lemma pairs_empty : pairs ∅ = ∅.
Proof using. apply map_eq. intros k. by rewrite lookup_pairs, !lookup_empty. Qed.

Lemma pairs_insert mp k v : pairs (<[k := v]> mp) = <[k := (k, v)]> (pairs mp).
Proof using.
  apply map_eq. intros i. rewrite lookup_pairs. destruct (decide (k = i)) as [<-|Hne]; [by rewrite !lookup_insert_eq|].
  by rewrite !lookup_insert_ne, lookup_pairs by done.
Qed.

Lemma pairs_delete mp k : pairs (delete k mp) = delete k (pairs mp).
Proof using.
  apply map_eq. intros i. rewrite lookup_pairs. destruct (decide (k = i)) as [<-|Hne]; [by rewrite !lookup_delete_eq|].
  by rewrite !lookup_delete_ne, lookup_pairs by done.
Qed.

Lemma pairs_size mp : base.size (pairs mp) = base.size mp.
Proof using.
  rewrite <- (size_dom (pairs mp)), <- (size_dom mp). f_equal. apply set_eq. intros k. rewrite !elem_of_dom, lookup_pairs.
  by rewrite fmap_is_Some.
Qed.

Lemma pairs_filter (pred : K * M -> bool) b mp : filter (fun kv => pred kv.2 = b) (pairs mp) = pairs (filter (fun kv => pred kv = b) mp).
Proof using.
  apply map_eq. intros k. apply option_eq. intros [k' v]. rewrite map_lookup_filter_Some, !lookup_pairs, !fmap_Some. cbn.
  setoid_rewrite map_lookup_filter_Some. cbn. naive_solver.
Qed.

Definition holds (t : map) (mp : gmap K M) : Prop := rep t (pairs mp).

(** ** Assigning through a position *)

Lemma assign_value_ok (t : map) mp i k v u : holds t mp -> 0 <= i -> slots_ t !! Z.to_nat i = Some (Some (k, u)) ->
  exists t', assign_value t i v = Ok t' /\ holds t' (<[k := v]> mp) /\ capacity_ t' = capacity_ t /\
    growth_left_ t' = growth_left_ t /\ element (slots_ t') i = Ok (k, v).
Proof using.
  intros Hrep Hi0 Hi. pose proof Hrep as [(m & c & Hm & Hl & Hc) Hr]. pose proof (lookup_lt_Some _ _ _ Hi) as Hlt.
  unfold assign_value. rewrite (proj1 (element_ok _ _ _ Hi0) Hi). cbn [rbind fst]. rewrite set_at_ok by lia. cbn [rbind].
  eexists. split; [done|]. pose proof Hl as [Hv Hlen Hslot Huniq Hreach].
  assert (Hkey : forall j w, <[Z.to_nat i := Some (k, v)]> (slots_ t) !! j = Some (Some w) ->
    exists w', slots_ t !! j = Some (Some w') /\ fst w' = fst w).
  { intros j w Hj. apply list_lookup_insert_Some in Hj as [(<- & [= <-] & _)|[_ Hj]]; [by exists (k, u)|by exists w]. }
  split; [split|split; [done|split; [done|]]].
  - exists m, c. split; [done|]. split; [|by apply (counts_ok_ext m t)]. split; cbn [slots_ with_slots].
    + exact Hv.
    + by rewrite length_insert.
    + intros j x o Hx Ho. destruct o as [w|].
      * destruct (Hkey j w Ho) as (w' & Hj & Hk). pose proof (Hslot _ _ _ Hx Hj) as Hs. cbn in Hs |- *. by rewrite <- Hk.
      * apply list_lookup_insert_Some in Ho as [(_ & ? & _)|[_ Ho]]; [done|]. exact (Hslot _ _ _ Hx Ho).
    + intros a b w1 w2 Ha Hb Hk. destruct (Hkey a w1 Ha) as (x1 & Hx1 & Hk1). destruct (Hkey b w2 Hb) as (x2 & Hx2 & Hk2).
      apply (Huniq a b x1 x2 Hx1 Hx2). cbn in Hk |- *. congruence.
    + intros j w Hj. destruct (Hkey j w Hj) as (w' & Hj' & Hk). pose proof (Hreach j w' Hj') as Hrj. cbn in Hrj |- *.
      unfold base in *. cbn [control_ with_slots]. by rewrite <- Hk.
  - rewrite pairs_insert. cbn [slots_ with_slots]. intros k' w. destruct (decide (k = k')) as [<-|Hne].
    + rewrite lookup_insert_eq. split.
      * intros [= <-]. exists (Z.to_nat i). split; [by apply list_lookup_insert_eq|done].
      * intros (j & Hj & Hk). apply list_lookup_insert_Some in Hj as [(_ & [= <-] & _)|[Hne Hj]]; [done|]. exfalso. apply Hne.
        by apply (Huniq (Z.to_nat i) j (k, u) w Hi Hj).
    + rewrite lookup_insert_ne by done. rewrite (Hr k' w). split; intros (j & Hj & Hk); exists j; (split; [|done]).
      * rewrite list_lookup_insert_ne; [done|]. intros <-. rewrite Hi in Hj. injection Hj as <-. done.
      * apply list_lookup_insert_Some in Hj as [(_ & [= <-] & _)|[_ Hj]]; [done|done].
  - apply element_ok; [done|]. by apply list_lookup_insert_eq.
Qed.

Lemma prepare_key (t : map) mp k v w : holds t mp -> capacity_ t < 2 ^ 58 ->
  (exists j u, find_or_prepare_insert t k w = Ok (Z.of_nat j, false, t, w) /\ slots_ t !! j = Some (Some (k, u)) /\ mp !! k = Some u) \/
  (exists i t' w', find_or_prepare_insert t k w = Ok (i, true, t', w') /\ prepared t' i (k, v) (pairs mp) /\
     grown 1 t t' /\ mp !! k = None).
Proof using HL HKL.
  intros Hrep Hcap. destruct (find_or_prepare_ok t (pairs mp) (k, v) w Hrep Hcap) as [(j & [k' u] & Hf & Hj & Hk & Hm)|(i & t' & w' & Hf & Hp & Hg & Hn)].
  - left. cbn in Hk, Hm, Hf. subst k'. exists j, u. split; [done|]. split; [done|]. rewrite lookup_pairs in Hm.
    apply fmap_Some in Hm as (x & Hx & [= <-]). done.
  - right. exists i, t', w'. cbn in Hn, Hf. split; [done|]. split; [done|]. split; [done|]. rewrite lookup_pairs in Hn. by apply fmap_None in Hn.
Qed.

(** A new element. *)
Lemma emplace_new (t : map) mp i k v : prepared t i (k, v) (pairs mp) -> mp !! k = None ->
  exists t', emplace_at t i (k, v) = Ok t' /\ holds t' (<[k := v]> mp) /\ element (slots_ t') i = Ok (k, v) /\
    capacity_ t' = capacity_ t /\ growth_left_ t' = growth_left_ t.
Proof using HL HKL.
  intros Hp Hn. assert (Hn' : pairs mp !! policy_key (k, v) = None) by (cbn; by rewrite lookup_pairs, Hn).
  destruct (fill_ok t i (k, v) (pairs mp) Hp Hn') as (Hrep & _ & Hel). exists (fill t i (k, v)).
  split; [by eapply emplace_at_ok|]. split; [unfold holds; by rewrite pairs_insert|]. done.
Qed.

Lemma insert_or_assign_ok (t : map) mp k v w : holds t mp -> capacity_ t < 2 ^ 58 ->
  exists i t' w', insert_or_assign t k v w = Ok (i, bool_decide (mp !! k = None), t', w') /\
    holds t' (<[k := v]> mp) /\ element (slots_ t') i = Ok (k, v) /\ grown 1 t t'.
Proof using HL HKL.
  intros Hrep Hcap. unfold insert_or_assign, insert_or_assign_impl.
  destruct (prepare_key t mp k v w Hrep Hcap) as [(j & u & -> & Hj & Hm)|(i & t' & w' & -> & Hp & Hg & Hn)]; cbn [rbind].
  - destruct (assign_value_ok t mp (Z.of_nat j) k v u Hrep) as (t' & -> & Hrep' & Hc' & Hg' & Hel); [lia|by rewrite Nat2Z.id|]. cbn [rbind].
    exists (Z.of_nat j), t', w. rewrite Hm, bool_decide_false by done. split; [done|]. split; [done|]. split; [done|].
    split; [unfold used; rewrite Hc', Hg'; lia|by left].
  - destruct (emplace_new t' mp i k v Hp Hn) as (t2 & -> & Hrep' & Hel & Hc' & Hg'). cbn [rbind].
    exists i, t2, w'. rewrite Hn, bool_decide_true by done. split; [done|]. split; [done|]. split; [done|].
    unfold grown, used in *. by rewrite Hc', Hg'.
Qed.

Lemma try_emplace_ok (t : map) mp k v w : holds t mp -> capacity_ t < 2 ^ 58 ->
  exists i t' w', try_emplace t k v w = Ok (i, bool_decide (mp !! k = None), t', w') /\ 0 <= i /\
    holds t' (<[k := default v (mp !! k)]> mp) /\ element (slots_ t') i = Ok (k, default v (mp !! k)) /\ grown 1 t t'.
Proof using HL HKL.
  intros Hrep Hcap. unfold try_emplace, try_emplace_impl.
  destruct (prepare_key t mp k v w Hrep Hcap) as [(j & u & -> & Hj & Hm)|(i & t' & w' & -> & Hp & Hg & Hn)]; cbn [rbind].
  - exists (Z.of_nat j), t, w. rewrite Hm, bool_decide_false by done. cbn [default]. split; [done|]. split; [lia|].
    rewrite insert_id by done. split; [done|]. split; [|apply grown_0]. apply element_ok; [lia|]. by rewrite Nat2Z.id.
  - destruct (emplace_new t' mp i k v Hp Hn) as (t2 & -> & Hrep' & Hel & Hc' & Hg'). cbn [rbind].
    exists i, t2, w'. rewrite Hn, bool_decide_true by done. split; [done|]. destruct Hp as (? & ? & _ & _ & _ & _ & Hi & _).
    split; [lia|]. split; [done|]. split; [done|]. unfold grown, used in *. by rewrite Hc', Hg'.
Qed.

Lemma at_ok (t : map) mp k : holds t mp -> at_ t k = at_key (mp !! k).
Proof using HL HKL.
  intros Hrep. unfold at_. destruct (find_ok t (pairs mp) k Hrep) as [(j & [k' v] & -> & Hj & Hk & Hm)|[-> Hn]]; cbn [rbind].
  - assert (Hj0 : 0 <= Z.of_nat j) by lia. rewrite (proj1 (element_ok (slots_ t) (Z.of_nat j) (k', v) Hj0)) by (by rewrite Nat2Z.id). cbn [rbind].
    rewrite lookup_pairs in Hm. apply fmap_Some in Hm as (x & -> & [= -> ->]). done.
  - rewrite lookup_pairs in Hn. apply fmap_None in Hn as ->. done.
Qed.

Lemma subscript_assign_ok (init : M) (t : map) mp k v w : holds t mp -> capacity_ t < 2 ^ 58 ->
  exists t' w', subscript_assign init t k v w = Ok (t', w') /\ holds t' (<[k := v]> mp) /\ grown 1 t t'.
Proof using HL HKL.
  intros Hrep Hcap. unfold subscript_assign, subscript.
  destruct (try_emplace_ok t mp k init w Hrep Hcap) as (i & t1 & w1 & -> & Hi & Hrep1 & Hel & Hg). cbn [rbind]. rewrite Hel. cbn [rbind].
  destruct (assign_value_ok t1 _ i k v (default init (mp !! k)) Hrep1 Hi) as (t2 & -> & Hrep2 & Hc2 & Hg2 & _); [by apply element_ok|].
  cbn [rbind]. exists t2, w1. split; [done|]. split; [by rewrite insert_insert_eq in Hrep2|]. unfold grown, used in *. by rewrite Hc2, Hg2.
Qed.
End map.
