(* ===== verification/TableSample.v ===== *)
(** * TableSample: concrete parameters for the witnesses

    A build with assertions and generations, an allocator that hands out
    fresh blocks, the portable group and integers as keys; a table with three
    elements. *)

From S2P Require Import Prelude.
From S2P Require Import Word.
From S2P Require Import BitMask.
From S2P Require Import Group.
From S2P Require Import Capacity.
From S2P Require Import Probe.
From S2P Require Import Table.
From S2P Require Import CellsInv.
From S2P Require Import TableFind.
From S2P Require Import TableRep.
From S2P Require Import TableDrop.
From S2P Require Import TableErase.
From S2P Require Import TableBulk.
From S2P Require Import TableMerge.
From S2P Require Import FlatMap.

#[export] Existing Instance portable.GroupPortableImpl.
#[export] Existing Instance portable_spec.GroupPortableLaws.

#[export] Instance sample_build : Build := { sizeof_infoz := 8; generations := true; ndebug := false }.

#[export] Instance sample_memory : Memory := {
  Allocate n _ _ := 65536 * (Z.of_nat n + 1);
  Sampled _ := false;
  std_allocator := true;
  EmptyGroup := 4096;
  counter_address := 8192;
  HashOf seed := u64 (seed * 0x9ddfea08eb382d69)
}.

#[export] Instance sample_memory_laws : MemoryLaws.
Proof. by split. Qed.

#[export] Instance sample_keys : KeyTraits Z := {
  key_hash k := u64 (k * 0x9ddfea08eb382d69); key_eq := Z.eqb; slot_size := 16; slot_align := 8
}.

#[export] Instance sample_keys_laws : KeyLaws Z.
Proof. split; [intros k; apply word_u64|apply Z.eqb_eq]. Qed.

Definition sample_world : World := {| seed_counter := 0; allocations := 0; samples := 0 |}.

(** Insertion, growth, erasing and the answers, run. *)
Example sample_run :
  (let* r := raw_hash_set_ctor (V := Z) 0 sample_world in
   let '(t, w) := r in
   let* r := insert_range t [3; 1; 4; 1; 5; 9; 2; 6; 5; 3; 5] w in
   let '(t, w) := r in
   let* r := erase t 4 in
   let '(n, t) := r in
   let* b := contains t 9 in
   let* b' := contains t 4 in
   let* l := elements t in
   Ok (n, b, b', size t, capacity_ t, Z.of_nat (length l))) = Ok (1, true, false, 6, 15, 6).
Proof. vm_compute. reflexivity. Qed.

Lemma sample_of (l : list Z) : 3 * Z.of_nat (length l) + 3 < 2 ^ 58 ->
  exists t : common_fields Z, rep t (inserted_all ∅ l) /\ capacity_ t <= Z.max 0 (3 * Z.of_nat (length l) + 3).
Proof.
  intros Hl. destruct (CommonFields_ctor_ok (V := Z) sample_world) as (t0 & w0 & _ & Hrep & Hcap & _).
  destruct (insert_range_ok l t0 ∅ 0 0 w0 Hrep) as (t & w & _ & Hrep' & Hb); [split; [pose proof (used_le_capacity t0 ∅ Hrep); lia|lia]|done|lia|].
  exists t. split; [done|]. destruct Hb as [_ Hb]. lia.
Qed.

Lemma sample_table : exists t : common_fields Z, rep t (<[7 := 7]> (<[1 := 1]> (<[5 := 5]> ∅))) /\ capacity_ t < 2 ^ 10.
Proof. destruct (sample_of [5; 1; 7]) as (t & Hrep & Hcap); [done|]. exists t. split; [done|]. cbn in Hcap. lia. Qed.
