(* ===== verification/TableSpec.v ===== *)
(** * TableSpec: what raw_hash_set promises

    The operations of the table of Table.v implement those of a finite map
    from keys to elements, [rep] being the refinement relation. *)

From S2P Require Import Prelude.
From S2P Require Import Word.
From S2P Require Import BitMask.
From S2P Require Import Group.
From S2P Require Import Capacity.
From S2P Require Import Probe.
From S2P Require Import Table.
From S2P Require Import CellsInv.
From S2P Require Import TableFind.
From S2P Require Import TableRep.
From S2P Require Import TableDrop.
From S2P Require Import TableErase.
From S2P Require Import TableBulk.
From S2P Require Import TableMerge.
From S2P Require Import FlatMap.
From S2P Require Import TableSample.

Section spec.
Context {K V : Type} `{EqDecision K, Countable K}.
Context {HG : Group} {HL : GroupLaws} {HB : Build} {HM : Memory} {HML : MemoryLaws}.
Context `{HP : SetPolicy K V} {HPL : PolicyLaws K V}.

Notation table := (common_fields V).

(** C10: [find] ends, passes its assertions and refines the lookup in the map
    of the elements: it gives the index of the element with the key, or
    [end()] when there is none; [contains] and [count] answer accordingly, and
    [equal_range] gives the range that holds this element and nothing else. *)
Theorem find_refines_lookup (t : table) mp k : rep t mp ->
  (exists r, find t k = Ok r /\
    match r with
    | Some i => exists v, element (slots_ t) i = Ok v /\ policy_key v = k /\ mp !! k = Some v
    | None => mp !! k = None
    end) /\
  contains t k = Ok (bool_decide (is_Some (mp !! k))) /\
  count t k = Ok (if decide (mp !! k = None) then 0 else 1) /\
  match mp !! k with
  | Some v => exists first last, equal_range t k = Ok (Some first, last) /\ range t first (first + 1) (Some first) last [v]
  | None => equal_range t k = Ok (None, None)
  end.
Proof using HL HPL.
  intros Hrep. pose proof (equal_range_ok t mp k Hrep). unfold contains, count.
  destruct (find_ok t mp k Hrep) as [(j & v & -> & Hj & Hk & Hm)|[-> Hn]]; cbn [rbind].
  - split; [exists (Some (Z.of_nat j)); split; [done|]; exists v; split; [|done]; apply element_ok; [lia|by rewrite Nat2Z.id]|].
    rewrite Hm in *. by rewrite bool_decide_true by (by exists v).
  - split; [by exists None|]. rewrite Hn in *. by rewrite bool_decide_false by (by intros []).
Qed.

(** C9: inserting refines insertion into the map, on each of its paths:
    the key is there, a free slot is, the deleted slots are dropped in place,
    the array grows, a sanitizer build rehashes. [insert], [emplace] and the
    insertion of a constructed slot keep an element with the same key and say
    so; the index they give is that of the element in the new table. So do
    [lazy_emplace], which constructs the element in its slot, and the insertion
    of a node handle, which keeps an element that was not inserted; an empty
    handle changes nothing. *)
Theorem insertion_refines_insert (t : table) mp v w : rep t mp -> capacity_ t < 2 ^ 58 ->
  let found := mp !! policy_key v in
  let placed t' i := rep t' (<[policy_key v := default v found]> mp) /\ element (slots_ t') i = Ok (default v found) in
  (forall op, op = emplace t v w \/ op = insert t v w \/ op = InsertSlot t v w ->
     exists i t' w', op = Ok (i, bool_decide (found = None), t', w') /\ placed t' i) /\
  (exists i t' w', lazy_emplace t (policy_key v) v w = Ok (i, t', w') /\ placed t' i) /\
  (exists i t' w', insert_node t (Some v) w =
     Ok (Some i, bool_decide (found = None), if decide (found = None) then None else Some v, t', w') /\ placed t' i) /\
  insert_node t None w = Ok (None, false, None, t, w).
Proof using HL HPL.
  intros Hrep Hcap found placed. split; [|split; [by apply lazy_emplace_ok|split; [by apply (insert_node_ok t mp (Some v))|done]]].
  intros op Hop.
  assert (Hins : inserted t mp v w op) by (destruct Hop as [->|[->| ->]]; [by apply emplace_ok|by apply emplace_ok|by apply InsertSlot_ok]).
  destruct Hins as (i & t' & w' & -> & Hrep' & Hel & _). by exists i, t', w'.
Qed.

(** What erasing leaves as it was: the array is the same one, and no element
    that is left has moved in it; the growth left may increase. *)
Definition array_kept (t t' : table) : Prop :=
  control_ t' = control_ t /\ capacity_ t' = capacity_ t /\ growth_left_ t <= growth_left_ t' /\
  forall i v, slots_ t' !! i = Some (Some v) -> slots_ t !! i = Some (Some v).

Lemma EraseMetaOnly_fields (t t' : table) i : EraseMetaOnly t i = Ok t' ->
  control_ t' = control_ t /\ slots_ t' = slots_ t.
Proof using. unfold EraseMetaOnly, decrement_size, SetCtrl. intros. inv_ok. done. Qed.

Lemma erased_slots (t t' : table) i s : set_at (slots_ t) i None = Ok s -> EraseMetaOnly (with_slots t s) i = Ok t' ->
  control_ t' = control_ t /\ forall j v, slots_ t' !! j = Some (Some v) -> slots_ t !! j = Some (Some v).
Proof using.
  intros Hs [-> ->]%EraseMetaOnly_fields. split; [done|]. cbn [slots_ with_slots]. unfold set_at in Hs. case_match; [|done]. injection Hs as <-.
  intros j v Hj. apply list_lookup_insert_Some in Hj as [(_ & [=] & _)|[_ Hj]]. done.
Qed.

Lemma erase_at_slots (t t' : table) i : erase_at t i = Ok t' ->
  control_ t' = control_ t /\ forall j v, slots_ t' !! j = Some (Some v) -> slots_ t !! j = Some (Some v).
Proof using. unfold erase_at. intros. inv_ok. by eapply erased_slots. Qed.

Lemma EraseIf_loop_slots pred fuel : forall (t t' : table) it, EraseIf_loop fuel pred t it = Ok t' ->
  control_ t' = control_ t /\ forall j v, slots_ t' !! j = Some (Some v) -> slots_ t !! j = Some (Some v).
Proof using.
  induction fuel as [|fuel IH]; intros t t' it Hrun; [done|]. cbn [EraseIf_loop] in Hrun. destruct it as [i|]; [|by injection Hrun as <-].
  inv_ok. destruct (pred _); inv_ok; [|by eapply IH]. edestruct erase_at_slots as [He1 He2]; [eassumption|].
  edestruct IH as [Hi1 Hi2]; [eassumption|]. split; [congruence|auto].
Qed.

(** C11: erasing refines deletion from the map. [erase] says whether the key
    was there, [extract] hands its element out, [EraseIf] counts the elements
    that satisfy the predicate; the others stay, each in its slot of the same
    array. [erase(first, last)] erases the elements of a range, whichever of its
    paths it takes, and returns [last]. *)
Theorem erasing_refines_delete (t : table) mp k (pred : V -> bool) : rep t mp ->
  (exists t', erase t k = Ok (if decide (mp !! k = None) then 0 else 1, t') /\ rep t' (delete k mp) /\ array_kept t t') /\
  (exists t', extract t k = Ok (mp !! k, t') /\ rep t' (delete k mp) /\ array_kept t t') /\
  (exists t', EraseIf pred t = Ok (Z.of_nat (base.size (filter (fun kv => pred kv.2 = true) mp)), t') /\
     rep t' (filter (fun kv => pred kv.2 = false) mp) /\ array_kept t t') /\
  (forall i b first last l w, range t i b first last l ->
     exists t' mp' w', erase_range t first last w = Ok (t', last, w') /\ rep t' mp' /\ without l mp mp').
Proof using HL HML HPL.
  intros Hrep. split; [|split; [|split; [|intros; by eapply erase_range_ok]]].
  - destruct (erase_ok t mp k Hrep) as (t' & He & Hrep' & ? & ?). exists t'. split; [done|]. split; [done|].
    unfold erase in He. inv_ok. case_match; inv_ok; [|by split_and!]. edestruct erase_at_slots; [eassumption|]. by split_and!.
  - unfold extract. destruct (find_ok t mp k Hrep) as [(j & v & -> & Hj & <- & Hm)|[-> Hn]]; cbn [rbind];
      [|exists t; rewrite Hn, delete_id by done; by split_and!].
    destruct Hrep as [(m & c & Hm' & Hl & Hc) Hr]. assert (Hj0 : 0 <= Z.of_nat j) by lia. rewrite <- (Nat2Z.id j) in Hj.
    destruct (erase_at_ok m Hm' t c Hl Hc (Z.of_nat j) v mp Hj0 Hj Hr) as (t' & He & Hrep' & _ & Hcap & Hg).
    pose proof (erase_at_slots _ _ _ He) as [? ?]. unfold extract_at. unfold erase_at in He.
    destruct (at_index (ctrl t) (Z.of_nat j)) as [x|]; [|done]. cbn [rbind] in He |- *.
    destruct (IsFull x); [|done]. cbn [cpp_assert] in He |- *. rewrite (proj1 (element_ok _ _ _ Hj0) Hj) in He |- *. cbn [rbind] in He |- *.
    destruct (set_at _ _ _) as [s|]; [|done]. cbn [rbind] in He |- *. rewrite He. cbn [rbind]. exists t'. rewrite Hm. by split_and!.
  - destruct (EraseIf_ok pred t mp Hrep) as (t' & He & Hrep' & ? & ?). exists t'. split; [done|]. split; [done|].
    unfold EraseIf in He. inv_ok. edestruct EraseIf_loop_slots; [eassumption|]. by split_and!.
Qed.

(** iterating over a table ends and visits each element exactly once, in
    the order of the slots; [size] is their number. *)
Theorem iteration_visits_each (t : table) mp : rep t mp ->
  exists l, elements t = Ok l /\ l ≡ₚ (map_to_list mp).*2 /\ NoDup (policy_key <$> l) /\
    size t = Z.of_nat (length l) /\ size t = Z.of_nat (base.size mp).
Proof using HL.
  intros Hrep. exists (contents t). split; [by apply (elements_rep t mp)|].
  destruct (rep_contents t mp Hrep) as (Hnd & _ & Hlen & Hsz & Hperm). by rewrite Hlen.
Qed.

(** operations on the array. [clear] leaves an empty table and no larger
    an array; [rehash] and [reserve] keep the contents, [rehash(n)] leaves a
    capacity of at least [n] and [reserve(n)] room for [n] elements in all. *)
Theorem clear_rehash_reserve (t : table) mp n w : rep t mp -> 0 <= n < 2 ^ 58 -> capacity_ t < 2 ^ 58 ->
  (exists t' w', Table.clear t w = Ok (t', w') /\ rep t' ∅ /\ 0 <= capacity_ t' <= capacity_ t) /\
  (exists t' w', rehash t n w = Ok (t', w') /\ rep t' mp /\ n <= capacity_ t') /\
  (exists t' w', reserve t n w = Ok (t', w') /\ rep t' mp /\ n <= size t' + growth_left_ t').
Proof using HL HPL HML.
  intros Hrep Hn Hcap. split; [|split].
  - destruct (clear_ok t mp w Hrep) as (t' & w' & ? & ? & ? & _). by exists t', w'.
  - destruct (rehash_ok t mp n w Hrep Hn Hcap) as (t' & w' & ? & ? & ? & _). by exists t', w'.
  - destruct (reserve_ok t mp n w Hrep Hn) as (t' & w' & ? & ? & ? & _). by exists t', w'.
Qed.

(** a copy holds the same elements; a move takes them along and leaves an
    empty table; so do the assignments. *)
Theorem copies_and_moves (this that : table) mthis mp w : rep this mthis -> rep that mp -> size that < 2 ^ 57 ->
  (exists t w', raw_hash_set_copy that w = Ok (t, w') /\ rep t mp) /\
  (exists t w', copy_assign this that w = Ok (t, w') /\ rep t mp) /\
  (exists t old w', raw_hash_set_move that w = (t, old, w') /\ rep t mp /\ rep old ∅) /\
  (exists t old w', move_assign this that w = (t, old, w') /\ rep t mp /\ rep old ∅).
Proof using HL HPL HML.
  intros Hthis Hthat Hlt. destruct (raw_hash_set_copy_ok that mp w Hthat Hlt) as (t & w' & Hcopy & Hrep).
  assert (Hmove : forall t w, exists old w', CommonFields_move (V := V) t w = (t, old, w')).
  { intros t1 w1. unfold CommonFields_move. destruct (CommonFields_ctor w1) as [c w2]. by exists c, w2. }
  assert (Hmv : exists old w', raw_hash_set_move that w = (that, old, w') /\ rep old ∅).
  { unfold raw_hash_set_move, exchange_CommonFields. destruct (CommonFields_ctor_ok (K := K) (V := V) w) as (t0 & w0 & -> & Hrep0 & _).
    destruct (Hmove that w0) as (o1 & w1 & ->). destruct (Hmove that w1) as (o2 & w2 & ->). by exists t0, w2. }
  split; [by exists t, w'|]. split; [|split].
  - unfold copy_assign. rewrite Hcopy. cbn [rbind]. unfold swap. destruct (Hmove this w') as (o & w2 & ->). by exists t, w2.
  - destruct Hmv as (old & w2 & -> & Ho). by exists that, old, w2.
  - destruct Hmv as (old & w2 & Hm & Ho). unfold move_assign. rewrite Hm. unfold swap. destruct (Hmove this w2) as (o & w3 & ->).
    by exists that, old, w3.
Qed.

(** C33: [merge] moves the elements whose keys are missing and leaves the others
    in the source. *)
Theorem merge_refines_union (c src : table) mc ms w : rep c mc -> rep src ms -> capacity_ c < 2 ^ 55 -> size src < 2 ^ 55 ->
  exists c' src' w', merge c src w = Ok (c', src', w') /\ rep c' (mc ∪ ms) /\
    rep src' (filter (fun kv => is_Some (mc !! kv.1)) ms).
Proof using HL HPL. apply merge_ok. Qed.

(** [operator==] decides whether two tables hold the same elements,
    whatever their capacities, histories and orders of iteration. *)
Theorem equality_is_extensional (veq : V -> V -> bool) (a b : table) ma mb :
  (forall x y, veq x y = true <-> x = y) -> rep a ma -> rep b mb ->
  exists r, table_eq veq a b = Ok r /\ (r = true <-> ma = mb).
Proof using HL HPL. apply table_eq_ok. Qed.
End spec.

(** ** Witnesses *)

Lemma find_refines_lookup_witness : exists t : common_fields Z, contains t 5 = Ok true /\ contains t 4 = Ok false.
Proof.
  destruct sample_table as (t & Hrep & _). exists t.
  split; [apply (find_refines_lookup t _ 5 Hrep)|apply (find_refines_lookup t _ 4 Hrep)].
Defined.

Lemma insertion_refines_insert_witness : exists (t : common_fields Z) i t' w',
  emplace t 4 sample_world = Ok (i, true, t', w') /\ element (slots_ t') i = Ok 4.
Proof.
  destruct sample_table as (t & Hrep & Hcap). exists t.
  destruct (proj1 (insertion_refines_insert t _ 4 sample_world Hrep ltac:(lia)) _ (or_introl eq_refl)) as (i & t' & w' & He & _ & Hel).
  exists i, t', w'. split; [exact He|exact Hel].
Defined.

Lemma erasing_refines_delete_witness : exists (t t' : common_fields Z), erase t 5 = Ok (1, t') /\ capacity_ t' = capacity_ t.
Proof.
  destruct sample_table as (t & Hrep & _). exists t.
  destruct (erasing_refines_delete t _ 5 (fun _ => true) Hrep) as [(t' & He & _ & _ & Hs & _) _]. exists t'. split; [exact He|exact Hs].
Defined.

Lemma iteration_visits_each_witness : exists (t : common_fields Z) l, elements t = Ok l /\ length l = 3%nat.
Proof.
  destruct sample_table as (t & Hrep & _). exists t.
  destruct (iteration_visits_each t _ Hrep) as (l & He & _ & _ & H1 & H2). exists l. split; [exact He|].
  rewrite H1 in H2. apply Nat2Z.inj in H2. rewrite H2. by vm_compute.
Defined.

Lemma clear_rehash_reserve_witness : exists (t t' : common_fields Z) w', reserve t 100 sample_world = Ok (t', w') /\
  100 <= size t' + growth_left_ t'.
Proof.
  destruct sample_table as (t & Hrep & Hcap). exists t.
  destruct (clear_rehash_reserve t _ 100 sample_world Hrep ltac:(lia) ltac:(lia)) as (_ & _ & t' & w' & He & _ & Hr).
  exists t', w'. split; [exact He|exact Hr].
Defined.

Lemma copies_and_moves_witness : exists (that t : common_fields Z) w', raw_hash_set_copy that sample_world = Ok (t, w').
Proof.
  destruct sample_table as (t & Hrep & Hcap). exists t.
  assert (Hs : size t < 2 ^ 57) by (destruct (rep_contents t _ Hrep) as (_ & _ & _ & -> & _); by vm_compute).
  destruct (copies_and_moves t t _ _ sample_world Hrep Hrep Hs) as ((t' & w' & He & _) & _). exists t', w'. exact He.
Defined.

Lemma merge_refines_union_witness : exists (c src c' src' : common_fields Z) w', merge c src sample_world = Ok (c', src', w').
Proof.
  destruct sample_table as (t & Hrep & Hcap). destruct (sample_of [5; 8]) as (t2 & Hrep2 & Hcap2); [done|]. exists t, t2.
  assert (Hs : size t2 < 2 ^ 55) by (destruct (rep_contents t2 _ Hrep2) as (_ & _ & _ & -> & _); by vm_compute).
  destruct (merge_refines_union t t2 _ _ sample_world Hrep Hrep2 ltac:(lia) Hs) as (c' & src' & w' & He & _). exists c', src', w'. exact He.
Defined.

Lemma equality_is_extensional_witness : exists a b : common_fields Z, table_eq Z.eqb a b = Ok false.
Proof.
  destruct sample_table as (t & Hrep & Hcap). destruct (sample_of [5; 8; 1]) as (t2 & Hrep2 & Hcap2); [done|]. exists t, t2.
  destruct (equality_is_extensional Z.eqb t t2 _ _ Z.eqb_eq Hrep Hrep2) as (r & He & Hr). rewrite He.
  destruct r; [|done]. assert (Hx := proj1 Hr eq_refl). apply (f_equal (fun m => m !! 8)) in Hx. by vm_compute in Hx.
Defined.
