(* ===== verification/FlatMapSpec.v ===== *)
(** * FlatMapSpec: what flat_hash_map promises

    Any sequence of operations on a map gives the answers and the contents
    that the same sequence gives on a finite map. *)

From S2P Require Import Prelude.
From S2P Require Import Word.
From S2P Require Import BitMask.
From S2P Require Import Group.
From S2P Require Import Capacity.
From S2P Require Import Probe.
From S2P Require Import Table.
From S2P Require Import CellsInv.
From S2P Require Import TableFind.
From S2P Require Import TableRep.
From S2P Require Import TableDrop.
From S2P Require Import TableErase.
From S2P Require Import TableBulk.
From S2P Require Import TableMerge.
From S2P Require Import FlatMap.
From S2P Require Import TableSample.

(** ** Sequences of operations *)

Inductive map_op (K M : Type) :=
  | InsertOrAssign (k : K) (v : M) | TryEmplace (k : K) (v : M) | Assign (k : K) (v : M)
  | Erase (k : K) | EraseWhere (pred : K * M -> bool) | At (k : K) | Contains (k : K) | Size
  | Clear | Rehash (n : Z) | Reserve (n : Z).
Arguments InsertOrAssign {K M}.
Arguments TryEmplace {K M}.
Arguments Assign {K M}.
Arguments Erase {K M}.
Arguments EraseWhere {K M}.
Arguments At {K M}.
Arguments Contains {K M}.
Arguments Size {K M}.
Arguments Clear {K M}.
Arguments Rehash {K M}.
Arguments Reserve {K M}.

(** What a caller sees; [Value None] is the exception of [at]. *)
Inductive answer (M : Type) := Done | Flag (b : bool) | Number (n : Z) | Value (o : option M).
Arguments Done {M}.
Arguments Flag {M}.
Arguments Number {M}.
Arguments Value {M}.

(** The slots an operation may take or ask for. *)
Definition cost {K M} (op : map_op K M) : Z :=
  match op with
  | InsertOrAssign _ _ | TryEmplace _ _ | Assign _ _ => 1
  | Rehash n | Reserve n => n
  | _ => 0
  end.
Definition total_cost {K M} (ops : list (map_op K M)) : Z := foldr (fun op c => cost op + c) 0 ops.
Definition op_ok {K M} (op : map_op K M) : Prop := 0 <= cost op.

Section sim.
Context {K M : Type} `{EqDecision K, Countable K}.
Context {HG : Group} {HL : GroupLaws} {HB : Build} {HM : Memory} {HML : MemoryLaws}.
Context `{HK : KeyTraits K} {HKL : KeyLaws K}.
Context (init : M).

Notation map := (common_fields (K * M)).

(** An operation on a finite map. *)
Definition step_map (op : map_op K M) (mp : gmap K M) : answer M * gmap K M :=
  match op with
  | InsertOrAssign k v => (Flag (bool_decide (mp !! k = None)), <[k := v]> mp)
  | TryEmplace k v => (Flag (bool_decide (mp !! k = None)), <[k := default v (mp !! k)]> mp)
  | Assign k v => (Done, <[k := v]> mp)
  | Erase k => (Number (if decide (mp !! k = None) then 0 else 1), delete k mp)
  | EraseWhere pred => (Number (Z.of_nat (base.size (filter (fun kv => pred kv = true) mp))), filter (fun kv => pred kv = false) mp)
  | At k => (Value (mp !! k), mp)
  | Contains k => (Flag (bool_decide (mp !! k <> None)), mp)
  | Size => (Number (Z.of_nat (base.size mp)), mp)
  | Clear => (Done, ∅)
  | Rehash _ | Reserve _ => (Done, mp)
  end.

Fixpoint run_map (ops : list (map_op K M)) (mp : gmap K M) : list (answer M) * gmap K M :=
  match ops with
  | [] => ([], mp)
  | op :: ops => let '(a, mp) := step_map op mp in let '(l, mp) := run_map ops mp in (a :: l, mp)
  end.

(** The same operation on the table. *)
Definition step_table (op : map_op K M) (t : map) (w : World) : result (answer M * map * World) :=
  match op with
  | InsertOrAssign k v => let* r := insert_or_assign t k v w in let '(_, b, t, w) := r in Ok (Flag b, t, w)
  | TryEmplace k v => let* r := try_emplace t k v w in let '(_, b, t, w) := r in Ok (Flag b, t, w)
  | Assign k v => let* r := subscript_assign init t k v w in let '(t, w) := r in Ok (Done, t, w)
  | Erase k => let* r := erase t k in let '(n, t) := r in Ok (Number n, t, w)
  | EraseWhere pred => let* r := erase_if pred t in let '(n, t) := r in Ok (Number n, t, w)
  | At k =>
      match at_ t k with
      | Ok v => Ok (Value (Some v), t, w)
      | Err OutOfRange => Ok (Value None, t, w)
      | Err e => Err e
      end
  | Contains k => let* b := contains t k in Ok (Flag b, t, w)
  | Size => Ok (Number (size t), t, w)
  | Clear => let* r := Table.clear t w in let '(t, w) := r in Ok (Done, t, w)
  | Rehash n => let* r := rehash t n w in let '(t, w) := r in Ok (Done, t, w)
  | Reserve n => let* r := reserve t n w in let '(t, w) := r in Ok (Done, t, w)
  end.

Fixpoint run_table (ops : list (map_op K M)) (t : map) (w : World) : result (list (answer M) * map * World) :=
  match ops with
  | [] => Ok ([], t, w)
  | op :: ops =>
      let* r := step_table op t w in
      let '(a, t, w) := r in
      let* r := run_table ops t w in
      let '(l, t, w) := r in Ok (a :: l, t, w)
  end.

Lemma shrunk_bounded C W (t t' : map) : bounded C W t -> shrunk t t' -> bounded C W t'.
Proof using. intros [Hu Hc] [Hc' Hg]. split; [unfold used in *; rewrite Hc'; lia|by rewrite Hc']. Qed.

Lemma step_refines op (t : map) mp W w : holds t mp -> 0 <= W -> bounded 0 W t -> op_ok op -> W + cost op < 2 ^ 56 ->
  exists t' w', step_table op t w = Ok ((step_map op mp).1, t', w') /\ holds t' (step_map op mp).2 /\ bounded 0 (W + cost op) t'.
Proof using HL HKL HML.
  intros Hrep HW0 Hb Hok HW. unfold op_ok in Hok. assert (Hcap : capacity_ t < 2 ^ 58) by (destruct Hb; lia).
  assert (Hgrow : forall t', grown 1 t t' -> bounded 0 (W + 1) t') by (intros t'; apply (grown_bounded 0 W t t' (pairs mp) Hrep Hb)).
  destruct op as [k v|k v|k v|k|pred|k|k| | |n|n]; cbn [step_table step_map cost fst snd] in *; rewrite ?Z.add_0_r.
  - destruct (insert_or_assign_ok t mp k v w Hrep Hcap) as (i & t' & w' & -> & Hrep' & _ & Hg). cbn [rbind].
    exists t', w'. split; [done|]. split; [done|by apply Hgrow].
  - destruct (try_emplace_ok t mp k v w Hrep Hcap) as (i & t' & w' & -> & _ & Hrep' & _ & Hg). cbn [rbind].
    exists t', w'. split; [done|]. split; [done|by apply Hgrow].
  - destruct (subscript_assign_ok init t mp k v w Hrep Hcap) as (t' & w' & -> & Hrep' & Hg). cbn [rbind].
    exists t', w'. split; [done|]. split; [done|by apply Hgrow].
  - destruct (erase_ok t (pairs mp) k Hrep) as (t' & -> & Hrep' & Hsh). cbn [rbind]. exists t', w. split.
    + f_equal. f_equal. f_equal. f_equal. rewrite lookup_pairs. by destruct (mp !! k).
    + split; [unfold holds; by rewrite pairs_delete|by apply (shrunk_bounded 0 W t)].
  - unfold erase_if. destruct (EraseIf_ok pred t (pairs mp) Hrep) as (t' & -> & Hrep' & Hsh). cbn [rbind]. exists t', w.
    rewrite pairs_filter, pairs_size in *. split; [done|]. split; [done|by apply (shrunk_bounded 0 W t)].
  - rewrite (at_ok t mp k Hrep). exists t, w. split; [by destruct (mp !! k)|done].
  - unfold contains. exists t, w. split; [|done].
    destruct (find_ok t (pairs mp) k Hrep) as [(j & v & -> & _ & _ & Hm)|[-> Hn]]; cbn [rbind]; rewrite lookup_pairs in *.
    + apply fmap_Some in Hm as (x & -> & _). by rewrite bool_decide_true.
    + apply fmap_None in Hn as ->. by rewrite bool_decide_false by (intros Hx; by apply Hx).
  - exists t, w. split; [|done]. destruct (rep_contents t (pairs mp) Hrep) as (_ & _ & _ & -> & _). by rewrite pairs_size.
  - destruct (clear_ok t (pairs mp) w Hrep) as (t' & w' & -> & Hrep' & Hc' & Hu'). cbn [rbind]. exists t', w'. split; [done|].
    split; [unfold holds; by rewrite pairs_empty|]. destruct Hb. split; lia.
  - destruct (rehash_ok t (pairs mp) n w Hrep ltac:(lia) Hcap) as (t' & w' & -> & Hrep' & _ & Hu' & Hc'). cbn [rbind].
    exists t', w'. split; [done|]. split; [done|]. destruct Hb. split; lia.
  - destruct (reserve_ok t (pairs mp) n w Hrep ltac:(lia)) as (t' & w' & -> & Hrep' & _ & _ & Hc' & _ & Hu'). cbn [rbind].
    exists t', w'. split; [done|]. split; [done|]. destruct Hb. split; lia.
Qed.

Lemma run_refines ops : forall (t : map) mp W w, holds t mp -> 0 <= W -> bounded 0 W t -> Forall op_ok ops ->
  W + total_cost ops < 2 ^ 56 ->
  exists t' w', run_table ops t w = Ok ((run_map ops mp).1, t', w') /\ holds t' (run_map ops mp).2.
Proof using HL HKL HML.
  induction ops as [|op ops IH]; intros t mp W w Hrep HW0 Hb Hok HW; [by exists t, w|].
  apply Forall_cons in Hok as [Hop Hok]. cbn [total_cost foldr] in HW. fold (total_cost ops) in HW.
  assert (Hpos : 0 <= total_cost ops) by (clear - Hok; induction Hok as [|o l Ho Hl IHl]; [done|]; unfold op_ok in Ho; cbn [total_cost foldr]; fold (total_cost l); lia).
  destruct (step_refines op t mp W w Hrep HW0 Hb Hop ltac:(lia)) as (t1 & w1 & Hs & Hrep1 & Hb1). unfold op_ok in Hop.
  cbn [run_table run_map]. rewrite Hs. cbn [rbind]. destruct (step_map op mp) as [a mp1]. cbn [fst snd] in *.
  destruct (IH t1 mp1 (W + cost op) w1 Hrep1 ltac:(lia) Hb1 Hok ltac:(lia)) as (t' & w' & -> & Hrep'). cbn [rbind].
  destruct (run_map ops mp1) as [l mp2]. by exists t', w'.
Qed.

(** C4: [flat_hash_map] implements a finite map. Any sequence of operations
    ([insert_or_assign], [try_emplace], [m[k] = v], [erase], [erase_if], [at],
    [contains], [size], [clear], [rehash], [reserve]) on a map that was
    constructed empty runs without a failed assertion, without reading or
    writing outside of its arrays and without running out of the bounds of its
    loops; it gives the answers the same sequence gives on a finite map, and
    leaves a table that holds its contents. This is so for each of the three
    implementations of a group, in debug and in optimised builds, with and
    without the generations of the sanitizer builds, wherever the allocator
    puts the arrays. The sum of the elements inserted and of the sizes asked
    for has to stay below 2^56. *)
Theorem flat_hash_map_refines ops w : Forall op_ok ops -> total_cost ops < 2 ^ 56 ->
  exists t0 w0 t w', raw_hash_set_ctor 0 w = Ok (t0, w0) /\
    run_table ops t0 w0 = Ok ((run_map ops ∅).1, t, w') /\ holds t (run_map ops ∅).2.
Proof using HL HKL HML.
  intros Hok HW. destruct (CommonFields_ctor_ok (K := K) (V := K * M) w) as (t0 & w0 & Hctor & Hrep & Hcap & Hsz).
  exists t0, w0. assert (Hb : bounded 0 0 t0).
  { split; [|lia]. pose proof (used_le_capacity t0 ∅ Hrep). lia. }
  destruct (run_refines ops t0 ∅ 0 w0) as (t & w' & Hrun & Hholds); [unfold holds; by rewrite pairs_empty|done|done|done|lia|].
  exists t, w'. split; [unfold raw_hash_set_ctor; by rewrite Hctor|]. by split.
Qed.
End sim.

Lemma flat_hash_map_refines_witness : exists (t0 : common_fields (Z * Z)) w0 t w',
  raw_hash_set_ctor 0 sample_world = Ok (t0, w0) /\
  run_table 0 [Reserve 3; InsertOrAssign 1 10; TryEmplace 1 11; Assign 2 20; Erase 1; At 1; At 2; Size; Clear; Contains 2] t0 w0 =
    Ok ([Done; Flag true; Flag false; Done; Number 1; Value None; Value (Some 20); Number 1; Done; Flag false], t, w').
Proof.
  destruct (flat_hash_map_refines 0 [Reserve 3; InsertOrAssign 1 10; TryEmplace 1 11; Assign 2 20; Erase 1; At 1; At 2; Size; Clear; Contains 2]
    sample_world) as (t0 & w0 & t & w' & Hc & Hr & _).
  - repeat constructor; unfold op_ok; cbn; lia.
  - cbn. lia.
  - exists t0, w0, t, w'. split; [exact Hc|exact Hr].
Defined.
