(* ===== verification/TableIter.v ===== *)
(** * TableIter: iterators (src/abseil-cpp/absl/container/internal/raw_hash_set.h)

    An iterator holds a pointer to a control byte, a pointer to a slot and, in
    sanitizer builds, a pointer to the generation counter of the table with
    the value it had. Table.v works with positions; here are the iterators
    themselves, with the checks that debug and sanitizer builds run on them.

    The pointers are read in a memory of live tables. [CommonFields] has three
    pointers into its backing array; [control_] is in Table.v, the other two
    follow from it, since [InitializeSlots] sets them together. The counter of
    a table without an array is one of the zeros of [kEmptyGenerations].
    [nullptr] is 0, and a fatal log message is [Err AssertFailed]. *)

From S2P Require Import Prelude.
From S2P Require Import Word.
From S2P Require Import BitMask.
From S2P Require Import Group.
From S2P Require Import Capacity.
From S2P Require Import Probe.
From S2P Require Import Table.
From S2P Require Import CellsInv.
From S2P Require Import TableFind.
From S2P Require Import TableRep.
From S2P Require Import TableErase.
From S2P Require Import TableBulk.

(** The address of [kEmptyGenerations]. *)
Class EmptyGenerations := { kEmptyGenerations : Z }.
Definition kNumEmptyGenerations : Z := 1024.

(** A table in memory, and the pointer that [EmptyGeneration()] gave it. *)
Record live (V : Type) := Live { table : common_fields V; empty_generation : Z }.
Arguments Live {V}.
Arguments table {V}.
Arguments empty_generation {V}.

Record iterator := { it_ctrl : Z; it_slot : Z; it_generation_ptr : Z; it_generation : Z }.

Section iter.
Context {K V : Type} `{HG : Group} `{HB : Build} `{HM : Memory} `{HE : EmptyGenerations} `{HP : SetPolicy K V}.

(** [ABSL_OPTION_HARDENED] is 0 in absl/base/options.h. *)
Definition SwisstableDebugEnabled : bool := generations || negb ndebug.

(** ** Pointers into a table *)

(** [mem] in [InitializeSlots], where [control_] was set from it. *)
Definition array_start (c : common_fields V) : Z := control_ c - ControlOffset (has_infoz c).

Definition slot_array (c : common_fields V) : result Z :=
  if capacity_ c =? 0 then Ok 0
  else let* o := SlotOffset (capacity_ c) alignof_slot (has_infoz c) in Ok (array_start c + o).

Definition generation_ptr (l : live V) : result Z :=
  let c := table l in
  if negb generations then Ok 0
  else if capacity_ c =? 0 then Ok (empty_generation l)
  else let* o := GenerationOffset (capacity_ c) (has_infoz c) in Ok (array_start c + o).

(** ** Memory *)

(** The array of control bytes that [p] points into, and the index. *)
Fixpoint ctrl_of (mem : list (live V)) (p : Z) : option (list Z * Z) :=
  match mem with
  | [] => if (EmptyGroup <=? p) && (p <? EmptyGroup + 16) then Some (empty_ctrl, p - EmptyGroup) else None
  | l :: mem =>
      let c := table l in
      if (control_ c <=? p) && (p <? control_ c + Z.of_nat (length (ctrl c))) then Some (ctrl c, p - control_ c)
      else ctrl_of mem p
  end.

Definition read_ctrl (mem : list (live V)) (p : Z) : result Z :=
  let* r := deref (ctrl_of mem p) in let '(array, i) := r in at_index array i.
Definition read_group (mem : list (live V)) (p : Z) : result (list Z) :=
  let* r := deref (ctrl_of mem p) in let '(array, i) := r in load_bytes (Z.to_nat kWidth) array i.

Fixpoint read_slot (mem : list (live V)) (p : Z) : result V :=
  match mem with
  | [] => Err Undefined
  | l :: mem =>
      let c := table l in
      let* base := slot_array c in
      if (base <=? p) && (p <? base + capacity_ c * sizeof_slot) then
        if (p - base) mod sizeof_slot =? 0 then element (slots_ c) ((p - base) / sizeof_slot) else Err Undefined
      else read_slot mem p
  end.

Fixpoint read_generation (mem : list (live V)) (p : Z) : result Z :=
  match mem with
  | [] =>
      if (kEmptyGenerations <=? p) && (p <? kEmptyGenerations + kNumEmptyGenerations)
      then Ok SentinelEmptyGeneration else Err Undefined
  | l :: mem =>
      let c := table l in
      let* q := generation_ptr l in
      if negb (capacity_ c =? 0) && (p =? q) then Ok (generation (gen_ c)) else read_generation mem p
  end.

(** ** Checks *)

Section checks.
Context (mem : list (live V)).

Definition AssertIsFull {A} (ctrl generation generation_ptr : Z) (k : result A) : result A :=
  if negb SwisstableDebugEnabled then k else
  cpp_assert (negb (ctrl =? 0)) (
  cpp_assert (negb (ctrl =? EmptyGroup)) (
  if generations then
    let* g := read_generation mem generation_ptr in
    cpp_assert (generation =? g) (
    let* x := read_ctrl mem ctrl in
    cpp_assert (IsFull x) k)
  else
    let* x := read_ctrl mem ctrl in
    cpp_assert (IsFull x) k)).

Definition AssertIsValidForComparison {A} (ctrl generation generation_ptr : Z) (k : result A) : result A :=
  if negb SwisstableDebugEnabled then k else
  let* ctrl_is_valid_for_comparison :=
    if (ctrl =? 0) || (ctrl =? EmptyGroup) then Ok true else let* x := read_ctrl mem ctrl in Ok (IsFull x) in
  if generations then
    let* g := read_generation mem generation_ptr in
    cpp_assert (generation =? g) (cpp_assert ctrl_is_valid_for_comparison k)
  else cpp_assert (ctrl_is_valid_for_comparison || ndebug) k.

Definition AreItersFromSameContainer (ctrl_a ctrl_b slot_a slot_b : Z) : bool :=
  if (ctrl_a =? 0) || (ctrl_b =? 0) then true
  else
    let low_slot := slot_a in
    let hi_slot := slot_b in
    let '(_, ctrl_b, low_slot, hi_slot) :=
      if ctrl_b <? ctrl_a then (ctrl_b, ctrl_a, hi_slot, low_slot) else (ctrl_a, ctrl_b, low_slot, hi_slot) in
    (ctrl_b <? low_slot) && (low_slot <=? hi_slot).

Definition AssertSameContainer {A} (ctrl_a ctrl_b slot_a slot_b generation_ptr_a generation_ptr_b : Z) (k : result A) : result A :=
  if negb SwisstableDebugEnabled then k else
  let a_is_default := ctrl_a =? EmptyGroup in
  let b_is_default := ctrl_b =? EmptyGroup in
  cpp_assert (eqb a_is_default b_is_default) (
  if a_is_default && b_is_default then k else
  if generations then
    cpp_assert (generation_ptr_a =? generation_ptr_b) k
  else cpp_assert (AreItersFromSameContainer ctrl_a ctrl_b slot_a slot_b || ndebug) k).

(** ** Iterators *)

(** [HashSetIteratorGenerationInfo]. *)
Definition generation_info_of (p : Z) : result (Z * Z) :=
  if generations then let* g := read_generation mem p in Ok (p, g) else Ok (0, 0).

Definition iterator_at (l : live V) (i : Z) : result iterator :=
  let* slots := slot_array (table l) in
  let* p := generation_ptr l in
  let* r := generation_info_of p in
  let '(p, g) := r in
  Ok {| it_ctrl := control_ (table l) + i; it_slot := slots + i * sizeof_slot; it_generation_ptr := p; it_generation := g |}.

(** [end()]: the slot is not initialized; 0 stands for what it holds. *)
Definition end_ (l : live V) : result iterator :=
  let* p := generation_ptr l in
  let* r := generation_info_of p in
  let '(p, g) := r in
  Ok {| it_ctrl := 0; it_slot := 0; it_generation_ptr := p; it_generation := g |}.

(** [iterator()], where [p] is what [EmptyGeneration()] gives. *)
Definition iterator_default (p : Z) : result iterator :=
  let* r := generation_info_of p in
  let '(p, g) := r in
  Ok {| it_ctrl := EmptyGroup; it_slot := 0; it_generation_ptr := p; it_generation := g |}.

Definition with_pointers (it : iterator) (c s : Z) : iterator :=
  {| it_ctrl := c; it_slot := s; it_generation_ptr := it_generation_ptr it; it_generation := it_generation it |}.

Fixpoint skip_loop (fuel : nat) (it : iterator) : result iterator :=
  match fuel with
  | O => Err OutOfFuel
  | S fuel =>
      let* x := read_ctrl mem (it_ctrl it) in
      if IsEmptyOrDeleted x then
        let* g := read_group mem (it_ctrl it) in
        let* shift := CountLeadingEmptyOrDeleted g in
        skip_loop fuel (with_pointers it (it_ctrl it + shift) (it_slot it + shift * sizeof_slot))
      else if x =? kSentinel then Ok (with_pointers it 0 (it_slot it)) else Ok it
  end.

(** The array that [ctrl_] points into bounds the loop. *)
Definition iter_skip (it : iterator) : result iterator :=
  let* r := deref (ctrl_of mem (it_ctrl it)) in
  skip_loop (S (length (fst r))) it.

Definition begin_ (l : live V) : result iterator := let* it := iterator_at l 0 in iter_skip it.

(** [operator*], [operator++] and [operator==]. *)
Definition iter_deref (it : iterator) : result V :=
  AssertIsFull (it_ctrl it) (it_generation it) (it_generation_ptr it) (read_slot mem (it_slot it)).

Definition iter_next (it : iterator) : result iterator :=
  AssertIsFull (it_ctrl it) (it_generation it) (it_generation_ptr it)
    (iter_skip (with_pointers it (it_ctrl it + 1) (it_slot it + sizeof_slot))).

Definition iter_eq (a b : iterator) : result bool :=
  AssertIsValidForComparison (it_ctrl a) (it_generation a) (it_generation_ptr a) (
  AssertIsValidForComparison (it_ctrl b) (it_generation b) (it_generation_ptr b) (
  AssertSameContainer (it_ctrl a) (it_ctrl b) (it_slot a) (it_slot b) (it_generation_ptr a) (it_generation_ptr b)
    (Ok (it_ctrl a =? it_ctrl b)))).
Definition iter_neq (a b : iterator) : result bool := let* r := iter_eq a b in Ok (negb r).

(** [for (auto it = begin(); it != end(); ++it)], the elements in order. *)
Fixpoint range_for (fuel : nat) (it last : iterator) : result (list V) :=
  match fuel with
  | O => Err OutOfFuel
  | S fuel =>
      let* go_on := iter_neq it last in
      if go_on then
        let* v := iter_deref it in
        let* it := iter_next it in
        let* rest := range_for fuel it last in Ok (v :: rest)
      else Ok []
  end.
End checks.
End iter.

(** * iterators and positions (lemmas for TableIter.v)

    [stands mem l it pos]: the iterator [it] is at the position [pos] of the
    table [l], and has the current generation. Where the memory shows a table
    ([visible]), iterators do what positions do. *)

Lemma at_index_range {A} (l : list A) i x : at_index l i = Ok x -> 0 <= i < Z.of_nat (length l).
Proof.
  unfold at_index. destruct (0 <=? i) eqn:E; [|done]. bools. intros Hx. apply deref_ok, lookup_lt_Some in Hx. lia.
Qed.

(** The iterator moves forward. *)
Lemma skip_nonneg {V} {HG : Group} {HB : Build} {HM : Memory} fuel : forall (c : common_fields V) k j, 0 <= k ->
  skip_empty_or_deleted fuel c k = Ok (Some j) -> 0 <= j.
Proof.
  induction fuel as [|fuel IH]; intros c k j Hk Hs; [done|].
  cbn [skip_empty_or_deleted] in Hs. apply rbind_ok in Hs as (x & Hx & Hs). destruct (IsEmptyOrDeleted x).
  - apply rbind_ok in Hs as (g & _ & Hs). apply rbind_ok in Hs as (d & _ & Hs).
    destruct (decide (0 <= k + d)); [by apply (IH c (k + d))|]. destruct fuel as [|fuel]; [done|].
    cbn [skip_empty_or_deleted] in Hs. apply rbind_ok in Hs as (y & Hy & _). apply at_index_range in Hy. lia.
  - destruct (x =? kSentinel); [done|]. by injection Hs as <-.
Qed.

Lemma next_nonneg {V} {HG : Group} {HB : Build} {HM : Memory} (c : common_fields V) i j :
  iterator_next c i = Ok (Some j) -> 0 <= i -> 0 <= j.
Proof.
  unfold iterator_next. intros Hn Hi. apply rbind_ok in Hn as (x & Hx & Hn). apply cpp_assert_ok in Hn as [_ Hn].
  refine (skip_nonneg (S (length (ctrl c))) c (i + 1) j _ Hn). lia.
Qed.

Section iter.
Context {K V : Type} `{EqDecision K, Countable K}.
Context {HG : Group} {HL : GroupLaws} {HB : Build} {HM : Memory} {HE : EmptyGenerations}.
Context `{HP : SetPolicy K V} {HPL : PolicyLaws K V}.

(** Reading through the pointers of [l] reads the arrays of [l]. *)
Record visible (mem : list (live V)) (l : live V) (slots gen : Z) : Prop := {
  vis_slots : slot_array (table l) = Ok slots;
  vis_gen : generation_ptr l = Ok gen;
  vis_counter : generations = true -> exists g, read_generation mem gen = Ok g;
  vis_control : 0 < control_ (table l);
  vis_empty : 0 < EmptyGroup;
  vis_size : 0 < sizeof_slot;
  vis_apart : capacity_ (table l) <> 0 -> forall i, 0 <= i < Z.of_nat (length (ctrl (table l))) -> control_ (table l) + i <> EmptyGroup;
  vis_order : capacity_ (table l) <> 0 -> control_ (table l) + capacity_ (table l) < slots;
  vis_ctrl : forall i, 0 <= i < Z.of_nat (length (ctrl (table l))) -> ctrl_of mem (control_ (table l) + i) = Some (ctrl (table l), i);
  vis_slot : forall i, 0 <= i < capacity_ (table l) -> read_slot mem (slots + i * sizeof_slot) = element (slots_ (table l)) i
}.

(** The generation of an iterator is the current one of its table. *)
Definition current (mem : list (live V)) (gen : Z) (it : iterator) : Prop :=
  generations = true -> it_generation_ptr it = gen /\ read_generation mem gen = Ok (it_generation it).

Definition points (l : live V) (slots : Z) (it : iterator) (pos : option Z) : Prop :=
  match pos with
  | Some i => it_ctrl it = control_ (table l) + i /\ it_slot it = slots + i * sizeof_slot
  | None => it_ctrl it = 0
  end.

Definition stands (mem : list (live V)) (l : live V) (it : iterator) (pos : option Z) : Prop :=
  exists slots gen, slot_array (table l) = Ok slots /\ generation_ptr l = Ok gen /\ points l slots it pos /\ current mem gen it.

(** A full position. *)
Definition full_at (c : common_fields V) (i : Z) : Prop := exists x, at_index (ctrl c) i = Ok x /\ IsFull x = true.

Section visible.
Context (mem : list (live V)) (l : live V) (slots gen : Z) (Hvis : visible mem l slots gen).

Notation c := (table l).

Lemma stands_iff it pos : stands mem l it pos <-> points l slots it pos /\ current mem gen it.
Proof using Hvis.
  split; [|intros [? ?]; exists slots, gen; split; [apply Hvis|split; [apply Hvis|done]]].
  intros (s & g & Hs & Hg & Hp & Hc). rewrite (vis_slots _ _ _ _ Hvis) in Hs. rewrite (vis_gen _ _ _ _ Hvis) in Hg.
  injection Hs as <-. injection Hg as <-. done.
Qed.

Lemma read_at i x : at_index (ctrl c) i = Ok x -> read_ctrl mem (control_ c + i) = Ok x.
Proof using Hvis.
  intros Hx. unfold read_ctrl. rewrite (vis_ctrl _ _ _ _ Hvis) by (by eapply at_index_range). done.
Qed.

(** The checks pass at a full position. *)
Lemma full_passes {A} it i (k : result A) : stands mem l it (Some i) -> capacity_ c <> 0 -> full_at c i ->
  AssertIsFull mem (it_ctrl it) (it_generation it) (it_generation_ptr it) k = k.
Proof using Hvis.
  intros Hst Hcap (x & Hx & Hf). apply stands_iff in Hst as [[Hc _] Hcur]. unfold AssertIsFull.
  destruct (negb SwisstableDebugEnabled); [done|]. rewrite Hc. pose proof (at_index_range _ _ _ Hx) as Hi.
  pose proof (vis_control _ _ _ _ Hvis). rewrite (proj2 (Z.eqb_neq _ 0)) by lia.
  rewrite (proj2 (Z.eqb_neq _ EmptyGroup)) by (by apply (vis_apart _ _ _ _ Hvis)). cbn [negb cpp_assert].
  rewrite (read_at i x Hx). cbn [rbind]. rewrite Hf. cbn [cpp_assert]. unfold current in Hcur.
  destruct generations; [|done]. destruct (Hcur eq_refl) as [-> ->]. cbn [rbind]. by rewrite Z.eqb_refl.
Qed.

Lemma valid_passes {A} it pos (k : result A) : stands mem l it pos -> (forall i, pos = Some i -> full_at c i) ->
  AssertIsValidForComparison mem (it_ctrl it) (it_generation it) (it_generation_ptr it) k = k.
Proof using Hvis.
  intros Hst Hfull. apply stands_iff in Hst as [Hp Hcur]. unfold AssertIsValidForComparison.
  destruct (negb SwisstableDebugEnabled); [done|].
  assert (Hv : (if (it_ctrl it =? 0) || (it_ctrl it =? EmptyGroup) then Ok true
    else let* x := read_ctrl mem (it_ctrl it) in Ok (IsFull x)) = Ok true).
  { destruct pos as [i|]; cbn [points] in Hp; [|by rewrite Hp]. destruct (Hfull i eq_refl) as (x & Hx & Hf), Hp as [-> _].
    rewrite (read_at i x Hx). cbn [rbind]. rewrite Hf. by destruct (_ || _). }
  rewrite Hv. cbn [rbind]. unfold current in Hcur. destruct generations; [|done].
  destruct (Hcur eq_refl) as [-> ->]. cbn [rbind]. by rewrite Z.eqb_refl.
Qed.

(** Two iterators of one table. *)
Lemma container_passes {A} a b pa pb (k : result A) : stands mem l a pa -> stands mem l b pb ->
  (forall i, pa = Some i \/ pb = Some i -> full_at c i /\ 0 <= i < capacity_ c) ->
  AssertSameContainer (it_ctrl a) (it_ctrl b) (it_slot a) (it_slot b) (it_generation_ptr a) (it_generation_ptr b) k = k.
Proof using Hvis.
  intros Ha Hb Hfull. apply stands_iff in Ha as [Ha Hca], Hb as [Hb Hcb].
  pose proof (vis_empty _ _ _ _ Hvis). pose proof (vis_control _ _ _ _ Hvis). pose proof (vis_size _ _ _ _ Hvis).
  assert (Hne : forall it p, points l slots it p -> p = pa \/ p = pb -> (it_ctrl it =? EmptyGroup) = false).
  { intros it p Hp Heq. apply Z.eqb_neq. destruct p as [i|]; cbn [points] in Hp; [|lia].
    destruct (Hfull i) as ((x & Hx & _) & Hi); [by destruct Heq as [<-|<-]; [left|right]|]. destruct Hp as [-> _].
    apply (vis_apart _ _ _ _ Hvis); [lia|by eapply at_index_range]. }
  unfold AssertSameContainer. destruct (negb SwisstableDebugEnabled); [done|].
  rewrite (Hne a pa Ha), (Hne b pb Hb) by auto. cbn [eqb cpp_assert andb]. unfold current in *.
  destruct generations; [destruct (Hca eq_refl) as [-> _], (Hcb eq_refl) as [-> _]; by rewrite Z.eqb_refl|].
  assert (Hs : AreItersFromSameContainer (it_ctrl a) (it_ctrl b) (it_slot a) (it_slot b) = true); [|by rewrite Hs].
  unfold AreItersFromSameContainer. destruct pa as [i|]; cbn [points] in Ha; [|by rewrite Ha].
  destruct pb as [j|]; cbn [points] in Hb; [|by rewrite Hb, orb_true_r].
  pose proof (proj2 (Hfull i (or_introl eq_refl))) as Hi. pose proof (proj2 (Hfull j (or_intror eq_refl))) as Hj.
  destruct Ha as [-> ->], Hb as [-> ->].
  pose proof (vis_order _ _ _ _ Hvis ltac:(lia)). rewrite !(proj2 (Z.eqb_neq _ 0)) by lia. cbn [orb].
  destruct (control_ c + j <? control_ c + i) eqn:E; bools; rewrite (proj2 (Z.ltb_lt _ _)), (proj2 (Z.leb_le _ _)) by nia; done.
Qed.

(** ** Moving on *)

Lemma skip_sim fuel : forall i it r, points l slots it (Some i) -> skip_empty_or_deleted fuel c i = Ok r ->
  exists it', skip_loop mem fuel it = Ok it' /\ points l slots it' r /\
    it_generation_ptr it' = it_generation_ptr it /\ it_generation it' = it_generation it.
Proof using Hvis.
  induction fuel as [|fuel IH]; intros i it r [Hc Hs] Hskip; [done|]. cbn [skip_loop skip_empty_or_deleted] in *.
  apply rbind_ok in Hskip as (x & Hx & Hskip). rewrite Hc, (read_at i x Hx). cbn [rbind].
  destruct (IsEmptyOrDeleted x).
  - apply rbind_ok in Hskip as (g & Hg & Hskip). apply rbind_ok in Hskip as (n & Hn & Hskip).
    unfold read_group. rewrite (vis_ctrl _ _ _ _ Hvis) by (by eapply at_index_range). cbn [deref rbind].
    unfold group_at in Hg. rewrite Hg. cbn [rbind]. rewrite Hn. cbn [rbind].
    refine (IH (i + n) (with_pointers it _ _) r _ Hskip). split; cbn; [lia|rewrite Hs; lia].
  - destruct (x =? kSentinel); injection Hskip as <-; [by exists (with_pointers it 0 (it_slot it))|by exists it].
Qed.

Lemma iter_skip_sim i it r : points l slots it (Some i) -> skip_empty_or_deleted (S (length (ctrl c))) c i = Ok r ->
  exists it', iter_skip mem it = Ok it' /\ points l slots it' r /\
    it_generation_ptr it' = it_generation_ptr it /\ it_generation it' = it_generation it.
Proof using Hvis.
  intros Hp Hskip. unfold iter_skip. rewrite (proj1 Hp). pose proof Hskip as Hskip'. cbn [skip_empty_or_deleted] in Hskip'.
  apply rbind_ok in Hskip' as (x & Hx & _). rewrite (vis_ctrl _ _ _ _ Hvis) by (by eapply at_index_range). cbn [deref rbind fst].
  by apply (skip_sim _ i).
Qed.

Lemma current_same it it' : current mem gen it -> it_generation_ptr it' = it_generation_ptr it ->
  it_generation it' = it_generation it -> current mem gen it'.
Proof using. unfold current. by intros Hc -> ->. Qed.

Lemma next_sim it i pos : stands mem l it (Some i) -> capacity_ c <> 0 -> iterator_next c i = Ok pos ->
  exists it', iter_next mem it = Ok it' /\ stands mem l it' pos.
Proof using Hvis.
  intros Hst Hcap Hnext. unfold iterator_next in Hnext. apply rbind_ok in Hnext as (x & Hx & Hnext).
  apply cpp_assert_ok in Hnext as [Hf Hnext]. unfold iter_next. rewrite (full_passes it i) by (done || by exists x).
  apply stands_iff in Hst as [[Hc Hs] Hcur].
  destruct (iter_skip_sim (i + 1) (with_pointers it (it_ctrl it + 1) (it_slot it + sizeof_slot)) pos) as (it' & -> & Hp & Hg & Hg');
    [split; cbn; lia|done|].
  exists it'. split; [done|]. apply stands_iff. split; [done|by eapply current_same].
Qed.

Lemma info_current : exists p g, generation_info_of mem gen = Ok (p, g) /\
  forall a b, current mem gen {| it_ctrl := a; it_slot := b; it_generation_ptr := p; it_generation := g |}.
Proof using Hvis.
  unfold generation_info_of, current. destruct (generations) eqn:E.
  - destruct (vis_counter _ _ _ _ Hvis E) as (g & Hg). rewrite Hg. exists gen, g. split; [done|]. intros a b. by cbn.
  - exists 0, 0. done.
Qed.

Lemma iterator_at_stands i : exists it, iterator_at mem l i = Ok it /\ stands mem l it (Some i).
Proof using Hvis.
  unfold iterator_at. rewrite (vis_slots _ _ _ _ Hvis), (vis_gen _ _ _ _ Hvis). cbn [rbind].
  destruct info_current as (p & g & -> & Hcur). cbn [rbind]. eexists. split; [done|]. apply stands_iff. split; [done|apply Hcur].
Qed.

Lemma end_stands : exists it, end_ mem l = Ok it /\ stands mem l it None.
Proof using Hvis.
  unfold end_. rewrite (vis_gen _ _ _ _ Hvis). cbn [rbind].
  destruct info_current as (p & g & -> & Hcur). cbn [rbind]. eexists. split; [done|]. apply stands_iff. split; [done|apply Hcur].
Qed.

Lemma begin_stands pos : begin c = Ok pos -> exists it, begin_ mem l = Ok it /\ stands mem l it pos.
Proof using Hvis.
  intros Hb. unfold begin_. destruct (iterator_at_stands 0) as (it & -> & Hst). cbn [rbind]. apply stands_iff in Hst as [Hp Hcur].
  destruct (iter_skip_sim 0 it pos Hp Hb) as (it' & -> & Hp' & Hg & Hg'). exists it'. split; [done|].
  apply stands_iff. split; [done|by eapply current_same].
Qed.

(** ** Comparing and looping *)

(** A position that an iterator may be compared at. *)
Definition position_ok (pos : option Z) : Prop := forall i, pos = Some i -> full_at c i /\ 0 <= i < capacity_ c.

Lemma eq_sim a b pa pb : stands mem l a pa -> stands mem l b pb -> position_ok pa -> position_ok pb ->
  iter_eq mem a b = Ok (bool_decide (pa = pb)).
Proof using Hvis.
  intros Ha Hb Hpa Hpb. unfold iter_eq.
  rewrite (valid_passes a pa) by (done || apply Hpa). rewrite (valid_passes b pb) by (done || apply Hpb).
  rewrite (container_passes a b pa pb) by (done || (intros i [Hi|Hi]; [exact (Hpa i Hi)|exact (Hpb i Hi)])). f_equal.
  apply stands_iff in Ha as [Ha _], Hb as [Hb _]. pose proof (vis_control _ _ _ _ Hvis).
  destruct pa as [i|], pb as [j|]; cbn [points] in Ha, Hb.
  - destruct Ha as [-> _], Hb as [-> _]. destruct (decide (i = j)) as [->|Hne]; [by rewrite Z.eqb_refl, bool_decide_true|].
    rewrite bool_decide_false by congruence. apply Z.eqb_neq. lia.
  - destruct Ha as [-> _], (Hpa i eq_refl). rewrite Hb, bool_decide_false by done. apply Z.eqb_neq. lia.
  - destruct Hb as [-> _], (Hpb j eq_refl). rewrite Ha, bool_decide_false by done. apply Z.eqb_neq. lia.
  - by rewrite Ha, Hb, bool_decide_true.
Qed.

Lemma deref_sim it i v : stands mem l it (Some i) -> position_ok (Some i) -> element (slots_ c) i = Ok v -> iter_deref mem it = Ok v.
Proof using Hvis.
  intros Hst Hok Hv. destruct (Hok i eq_refl) as [Hf Hi]. unfold iter_deref. rewrite (full_passes it i) by (done || lia).
  apply stands_iff in Hst as [[_ ->] _]. by rewrite (vis_slot _ _ _ _ Hvis).
Qed.

(** The loop over iterators and the loop over positions; an element is never
    at a position that is not below the capacity. *)
Lemma range_for_sim fuel : (forall i v, element (slots_ c) i = Ok v -> 0 <= i -> i < capacity_ c) -> forall it last pos vs,
  stands mem l it pos -> stands mem l last None -> (forall i, pos = Some i -> 0 <= i) -> iterate fuel c pos = Ok vs ->
  (forall i j, iterator_next c i = Ok (Some j) -> 0 <= i -> 0 <= j) ->
  range_for mem fuel it last = Ok vs.
Proof using Hvis.
  intros Hbound. induction fuel as [|fuel IH]; intros it last pos vs Hit Hlast Hpos Hiter Hnext; [done|]. cbn [iterate range_for] in *.
  assert (Hnone : position_ok None) by done. unfold iter_neq. destruct pos as [i|].
  - apply rbind_ok in Hiter as (x & Hx & Hiter). apply cpp_assert_ok in Hiter as [Hf Hiter].
    apply rbind_ok in Hiter as (v & Hv & Hiter). apply rbind_ok in Hiter as (pos' & Hn & Hiter).
    apply rbind_ok in Hiter as (vs' & Hvs & Hiter). injection Hiter as <-. pose proof (Hpos i eq_refl) as Hi0.
    pose proof (Hbound i v Hv Hi0) as Hi.
    assert (Hok : position_ok (Some i)) by (intros k [= <-]; split; [by exists x|lia]).
    rewrite (eq_sim it last (Some i) None) by done. rewrite bool_decide_false by done. cbn [rbind negb].
    rewrite (deref_sim it i v) by done. cbn [rbind].
    destruct (next_sim it i pos' Hit ltac:(lia) Hn) as (it' & -> & Hst'). cbn [rbind].
    rewrite (IH it' last pos' vs') by (try done; intros j ->; by eapply Hnext). done.
  - injection Hiter as <-. rewrite (eq_sim it last None None) by done. by rewrite bool_decide_true.
Qed.
End visible.
End iter.
