(* ===== verification/TableIterSpec.v ===== *)
(** * TableIterSpec: iterators are positions, and bad ones are caught

    The memory holds live tables whose arrays do not overlap ([mem_ok]). There
    the iterators of TableIter.v do what the positions of Table.v do, and their
    checks pass; and the checks catch the iterators they are meant to catch. *)

From S2P Require Import Prelude.
From S2P Require Import Word.
From S2P Require Import BitMask.
From S2P Require Import Group.
From S2P Require Import Capacity.
From S2P Require Import Probe.
From S2P Require Import Table.
From S2P Require Import CellsInv.
From S2P Require Import TableFind.
From S2P Require Import TableRep.
From S2P Require Import TableErase.
From S2P Require Import TableBulk.
From S2P Require Import TableMerge.
From S2P Require Import FlatMap.
From S2P Require Import TableIter.
From S2P Require TableSample.

(** The compiler and the static arrays. *)
Class IterLaws {K V : Type} `{Build} `{Memory} `{EmptyGenerations} `{SetPolicy K V} := {
  align_power : exists a, 0 <= a <= 32 /\ alignof_slot = 2 ^ a;
  size_positive : 0 < sizeof_slot;
  infoz_small : 0 <= sizeof_infoz < 2 ^ 32;
  group_not_null : 0 < EmptyGroup
}.

Section spec.
Context {K V : Type} `{EqDecision K, Countable K}.
Context {HG : Group} {HL : GroupLaws} {HB : Build} {HM : Memory} {HE : EmptyGenerations}.
Context `{HP : SetPolicy K V} {HPL : PolicyLaws K V} {HIL : IterLaws (K := K) (V := V)}.

(** ** Memory *)

(** The end of the backing array. *)
Definition array_end (c : common_fields V) : result Z :=
  let* n := AllocSize (capacity_ c) sizeof_slot alignof_slot (has_infoz c) in Ok (array_start c + n).

Definition outside (c : common_fields V) (hi p n : Z) : Prop := hi <= p \/ p + n <= array_start c.

(** A table without an array, or one whose array is apart from the static
    arrays. *)
Definition placed (l : live V) : Prop :=
  let c := table l in
  (capacity_ c = 0 /\ control_ c = EmptyGroup /\ ctrl c = empty_ctrl /\
     kEmptyGenerations <= empty_generation l < kEmptyGenerations + kNumEmptyGenerations) \/
  (capacity_ok (capacity_ c) /\ Z.of_nat (length (ctrl c)) = capacity_ c + 1 + NumClonedBytes /\
     capacity_ c * sizeof_slot < 2 ^ 63 /\ 0 < array_start c /\
     exists hi, array_end c = Ok hi /\ outside c hi EmptyGroup 16 /\ outside c hi kEmptyGenerations kNumEmptyGenerations).

Definition apart (a b : common_fields V) : Prop :=
  capacity_ a <> 0 -> capacity_ b <> 0 -> forall ha hb, array_end a = Ok ha -> array_end b = Ok hb ->
  ha <= array_start b \/ hb <= array_start a.

Definition mem_ok (mem : list (live V)) : Prop :=
  Forall placed mem /\
  forall i j a b, mem !! i = Some a -> mem !! j = Some b -> i <> j -> apart (table a) (table b).

(** The parts of an array, in order. *)
Lemma placed_layout l : placed l -> capacity_ (table l) <> 0 ->
  exists slots gen hi, slot_array (table l) = Ok slots /\ generation_ptr l = Ok gen /\ array_end (table l) = Ok hi /\
    0 < array_start (table l) < control_ (table l) /\
    control_ (table l) + Z.of_nat (length (ctrl (table l))) <= slots /\ hi = slots + capacity_ (table l) * sizeof_slot /\
    (generations = true -> control_ (table l) < gen < slots) /\ capacity_ (table l) < Z.of_nat (length (ctrl (table l))) /\
    outside (table l) hi EmptyGroup 16 /\ outside (table l) hi kEmptyGenerations kNumEmptyGenerations.
Proof using HL HIL.
  intros [[? _]|(Hc & Hlen & Hsz & Hpos & hi & Hhi & Ho1 & Ho2)] Hne; [done|]. destruct (align_power (K := K) (V := V)) as (a & Ha & Hal).
  pose proof (size_positive (K := K) (V := V)) as Hsp. pose proof (infoz_small (K := K) (V := V)) as Hinf.
  destruct (layout_ok (capacity_ (table l)) a (@sizeof_slot K V HP) (has_infoz (table l)) Hc Ha ltac:(lia) Hinf Hsz)
    as (gen & off & Hg & Ho & Hcg & Hgo & _ & _ & Hall & _).
  assert (Hco : 8 <= ControlOffset (has_infoz (table l))) by (unfold ControlOffset; destruct (has_infoz _); lia).
  unfold slot_array, generation_ptr, array_end in *. rewrite (proj2 (Z.eqb_neq _ _) Hne), Hal in *. rewrite Ho, Hg.
  rewrite Hall in Hhi |- *. cbn [rbind] in Hhi |- *. injection Hhi as <-. unfold array_start in *.
  pose proof (capacity_bounds _ Hc). assert (0 <= NumClonedBytes) by (pose proof (width_cases (HL := HL)); unfold NumClonedBytes; lia).
  exists (control_ (table l) - ControlOffset (has_infoz (table l)) + off),
    (if negb generations then 0 else control_ (table l) - ControlOffset (has_infoz (table l)) + gen), (control_ (table l) - ControlOffset (has_infoz (table l)) + (off + capacity_ (table l) * sizeof_slot)).
  assert (Hnb : 0 <= NumGenerationBytes) by (unfold NumGenerationBytes; destruct generations; lia).
  split_and!; try done; try lia; [by destruct generations|].
  intros Hgen. rewrite Hgen. cbn [negb]. unfold NumGenerationBytes in Hgo. rewrite Hgen in Hgo. lia.
Qed.

Lemma capacity_pos l : placed l -> 0 <= capacity_ (table l).
Proof using. intros [[-> _]|(Hc & _)]; [done|]. pose proof (capacity_bounds _ Hc). lia. Qed.

(** ** What reading finds *)

Definition in_ctrl (c : common_fields V) (p : Z) : Prop := control_ c <= p < control_ c + Z.of_nat (length (ctrl c)).

Lemma ctrl_of_unique mem c p : Exists (fun l => table l = c) mem -> in_ctrl c p ->
  (forall l, l ∈ mem -> in_ctrl (table l) p -> control_ (table l) = control_ c /\ ctrl (table l) = ctrl c) ->
  ctrl_of mem p = Some (ctrl c, p - control_ c).
Proof using.
  intros Hex Hp. induction mem as [|l mem IH]; [by apply Exists_nil in Hex|]. intros Huniq. cbn [ctrl_of].
  destruct ((control_ (table l) <=? p) && (p <? control_ (table l) + Z.of_nat (length (ctrl (table l))))) eqn:E.
  - bools. destruct (Huniq l) as [-> ->]; [by left|done|done].
  - apply IH; [|intros l' Hl'; apply Huniq; by right]. apply Exists_cons in Hex as [Hc|]; [|done]. exfalso. subst c.
    unfold in_ctrl in Hp. rewrite (proj2 (Z.leb_le _ _)), (proj2 (Z.ltb_lt _ _)) in E by lia. done.
Qed.

(** An address inside an array belongs to one live table. *)
Lemma same_table mem i j a b p ha hb : mem_ok mem -> mem !! i = Some a -> mem !! j = Some b ->
  capacity_ (table a) <> 0 -> capacity_ (table b) <> 0 ->
  array_end (table a) = Ok ha -> array_end (table b) = Ok hb ->
  array_start (table a) <= p < ha -> array_start (table b) <= p < hb -> a = b.
Proof using.
  intros [_ Hap] Ha Hb Hca Hcb Hha Hhb Hpa Hpb. destruct (decide (i = j)) as [->|Hne]; [congruence|]. exfalso.
  destruct (Hap i j a b Ha Hb Hne Hca Hcb ha hb Hha Hhb); lia.
Qed.

Section reading.
Context (mem : list (live V)) (Hmem : mem_ok mem).

Lemma placed_in i l : mem !! i = Some l -> placed l.
Proof using Hmem. intros Hl. by apply (Forall_lookup_1 _ _ i l (proj1 Hmem)). Qed.

Lemma empty_fields l : placed l -> capacity_ (table l) = 0 -> control_ (table l) = EmptyGroup /\ ctrl (table l) = empty_ctrl /\
  kEmptyGenerations <= empty_generation l < kEmptyGenerations + kNumEmptyGenerations.
Proof using.
  intros [(_ & ? & ? & ?)|(Hc & _)] Hz; [done|]. pose proof (capacity_bounds _ Hc). lia.
Qed.

Lemma reads_ctrl i l k : mem !! i = Some l -> 0 <= k < Z.of_nat (length (ctrl (table l))) ->
  ctrl_of mem (control_ (table l) + k) = Some (ctrl (table l), k).
Proof using HIL HL Hmem.
  intros Hl Hk. rewrite (ctrl_of_unique mem (table l)).
  - f_equal. f_equal. lia.
  - apply Exists_exists. exists l. split; [by eapply list_elem_of_lookup_2|done].
  - unfold in_ctrl. lia.
  - intros l' (j & Hj)%list_elem_of_lookup Hp. unfold in_ctrl in Hp.
    pose proof (placed_in i l Hl) as Hpl. pose proof (placed_in j l' Hj) as Hpl'.
    destruct (decide (capacity_ (table l') = 0)) as [Hz'|Hnz']; destruct (decide (capacity_ (table l) = 0)) as [Hz|Hnz].
    + destruct (empty_fields l Hpl Hz) as (-> & -> & _), (empty_fields l' Hpl' Hz') as (-> & -> & _). done.
    + exfalso. destruct (empty_fields l' Hpl' Hz') as (E1 & E2 & _). rewrite E1, E2 in Hp. cbn in Hp.
      destruct (placed_layout l Hpl Hnz) as (s & g & hi & _ & _ & _ & Hb & Hs & Hhi & _ & _ & Ho & _).
      pose proof (size_positive (K := K) (V := V)) as Hsp. pose proof (capacity_pos l Hpl). unfold outside in Ho. nia.
    + exfalso. destruct (empty_fields l Hpl Hz) as (E1 & E2 & _). rewrite E1 in Hp. rewrite E2 in Hk. cbn in Hk.
      destruct (placed_layout l' Hpl' Hnz') as (s & g & hi & _ & _ & _ & Hb & Hs & Hhi & _ & _ & Ho & _).
      pose proof (size_positive (K := K) (V := V)) as Hsp. pose proof (capacity_pos l' Hpl'). unfold outside in Ho. nia.
    + destruct (placed_layout l Hpl Hnz) as (s & g & hi & _ & _ & He & Hb & Hs & Hhi & _).
      destruct (placed_layout l' Hpl' Hnz') as (s' & g' & hi' & _ & _ & He' & Hb' & Hs' & Hhi' & _).
      pose proof (size_positive (K := K) (V := V)) as Hsp. pose proof (capacity_pos l Hpl). pose proof (capacity_pos l' Hpl').
      assert (l' = l) as ->; [|done].
      apply (same_table mem j i l' l (control_ (table l) + k) hi' hi); try done; nia.
Qed.

Lemma read_slot_unique (tables : list (live V)) c base k : Exists (fun l => table l = c) tables -> 0 <= k < capacity_ c ->
  slot_array c = Ok base ->
  (forall l, l ∈ tables -> exists b, slot_array (table l) = Ok b /\
     (b <= base + k * sizeof_slot < b + capacity_ (table l) * sizeof_slot -> b = base /\ slots_ (table l) = slots_ c)) ->
  read_slot tables (base + k * sizeof_slot) = element (slots_ c) k.
Proof using HIL.
  intros Hex Hk Hbase. pose proof (size_positive (K := K) (V := V)) as Hsp.
  induction tables as [|l tables IH]; [by apply Exists_nil in Hex|]. intros Huniq. cbn [read_slot].
  destruct (Huniq l ltac:(by left)) as (b & Hb & Hin). rewrite Hb. cbn [rbind].
  destruct ((b <=? base + k * sizeof_slot) && (base + k * sizeof_slot <? b + capacity_ (table l) * sizeof_slot)) eqn:E.
  - bools. destruct Hin as [-> ->]; [done|]. replace (base + k * sizeof_slot - base) with (k * sizeof_slot) by lia.
    rewrite Z.mod_mul, Z.div_mul by lia. done.
  - apply IH; [|intros l' Hl'; apply Huniq; by right]. apply Exists_cons in Hex as [Hc|]; [|done]. exfalso. subst c.
    rewrite Hb in Hbase. injection Hbase as ->.
    rewrite (proj2 (Z.leb_le _ _)), (proj2 (Z.ltb_lt _ _)) in E by nia. done.
Qed.

Lemma reads_slot i l base k : mem !! i = Some l -> slot_array (table l) = Ok base -> 0 <= k < capacity_ (table l) ->
  read_slot mem (base + k * sizeof_slot) = element (slots_ (table l)) k.
Proof using HIL HL Hmem.
  intros Hl Hbase Hk. pose proof (size_positive (K := K) (V := V)) as Hsp. pose proof (placed_in i l Hl) as Hpl.
  apply (read_slot_unique mem (table l)); [|done|done|].
  - apply Exists_exists. exists l. split; [by eapply list_elem_of_lookup_2|done].
  - intros l' (j & Hj)%list_elem_of_lookup. pose proof (placed_in j l' Hj) as Hpl'.
    destruct (decide (capacity_ (table l') = 0)) as [Hz'|Hnz'].
    { exists 0. unfold slot_array. rewrite (proj2 (Z.eqb_eq _ _) Hz'). split; [done|]. rewrite Hz'. lia. }
    destruct (placed_layout l Hpl ltac:(lia)) as (s & g & hi & Hs & _ & He & Hb & Hcs & Hhi & _).
    destruct (placed_layout l' Hpl' Hnz') as (s' & g' & hi' & Hs' & _ & He' & Hb' & Hcs' & Hhi' & _).
    rewrite Hbase in Hs. injection Hs as <-. exists s'. split; [done|]. intros Hp.
    assert (l' = l) as ->; [|split; [congruence|done]].
    apply (same_table mem j i l' l (base + k * sizeof_slot) hi' hi); try done; nia.
Qed.

(** The counter of a table is the only one at its address. *)
Lemma reads_generation (tables : list (live V)) p g : generations = true ->
  Forall placed tables ->
  (forall l, l ∈ tables -> capacity_ (table l) <> 0 -> generation_ptr l = Ok p -> generation (gen_ (table l)) = g) ->
  (Exists (fun l => capacity_ (table l) <> 0 /\ generation_ptr l = Ok p) tables \/
   g = SentinelEmptyGeneration /\ kEmptyGenerations <= p < kEmptyGenerations + kNumEmptyGenerations) ->
  read_generation tables p = Ok g.
Proof using HIL HL.
  intros Hgen. induction tables as [|l tables IH]; intros Hpl Huniq Hex; cbn [read_generation].
  - destruct Hex as [Hex|[-> Hp]]; [by apply Exists_nil in Hex|].
    by rewrite (proj2 (Z.leb_le _ _)), (proj2 (Z.ltb_lt _ _)) by lia.
  - apply Forall_cons in Hpl as [Hpl Hpls].
    assert (Hq : exists q, generation_ptr l = Ok q).
    { destruct (decide (capacity_ (table l) = 0)) as [Hz|Hnz].
      - unfold generation_ptr. rewrite Hgen, (proj2 (Z.eqb_eq _ _) Hz). by eexists.
      - destruct (placed_layout l Hpl Hnz) as (_ & q & _ & _ & Hq & _). by exists q. }
    destruct Hq as (q & Hq). rewrite Hq. cbn [rbind].
    destruct (negb (capacity_ (table l) =? 0) && (p =? q)) eqn:E.
    + bools. f_equal. subst q. apply Huniq; [by left|done|done].
    + apply IH; [done|intros l' Hl'; apply Huniq; by right|]. destruct Hex as [Hex|]; [left|by right].
      apply Exists_cons in Hex as [[Hnz Hp]|]; [|done]. exfalso. rewrite Hp in Hq. injection Hq as <-.
      by rewrite (proj2 (Z.eqb_neq _ _) Hnz), Z.eqb_refl in E.
Qed.

Lemma counter_of i l : generations = true -> mem !! i = Some l -> exists p g, generation_ptr l = Ok p /\ read_generation mem p = Ok g.
Proof using HIL HL Hmem.
  intros Hgen Hl. pose proof (placed_in i l Hl) as Hpl. destruct (decide (capacity_ (table l) = 0)) as [Hz|Hnz].
  - destruct (empty_fields l Hpl Hz) as (_ & _ & Hp). exists (empty_generation l), SentinelEmptyGeneration.
    split; [unfold generation_ptr; by rewrite Hgen, (proj2 (Z.eqb_eq _ _) Hz)|].
    apply reads_generation; [done|apply Hmem| |by right].
    intros l' (j & Hj)%list_elem_of_lookup Hnz' Hq. exfalso.
    destruct (placed_layout l' (placed_in j l' Hj) Hnz') as (s' & q & hi & _ & Hq' & _ & Hb & Hs & Hhi & Hg & _ & _ & Ho).
    rewrite Hq in Hq'. injection Hq' as <-. specialize (Hg Hgen). pose proof (size_positive (K := K) (V := V)) as Hsp.
    pose proof (capacity_pos l' (placed_in j l' Hj)). unfold outside in Ho. nia.
  - destruct (placed_layout l Hpl Hnz) as (s & p & hi & _ & Hp & He & Hb & Hs & Hhi & Hg & _). specialize (Hg Hgen).
    exists p, (generation (gen_ (table l))). split; [done|]. apply reads_generation; [done|apply Hmem| |].
    + intros l' (j & Hj)%list_elem_of_lookup Hnz' Hq.
      destruct (placed_layout l' (placed_in j l' Hj) Hnz') as (s' & p' & hi' & _ & Hp' & He' & Hb' & Hs' & Hhi' & Hg' & _). specialize (Hg' Hgen).
      rewrite Hq in Hp'. injection Hp' as <-. pose proof (size_positive (K := K) (V := V)) as Hsp.
      pose proof (capacity_pos l Hpl). pose proof (capacity_pos l' (placed_in j l' Hj)).
      by rewrite (same_table mem j i l' l p hi' hi) by (done || nia).
    + left. apply Exists_exists. exists l. split; [by eapply list_elem_of_lookup_2|done].
Qed.

(** Every live table can be read through its pointers. *)
Lemma visible_in i l : mem !! i = Some l -> exists slots gen, visible mem l slots gen.
Proof using HIL HL Hmem.
  intros Hl. pose proof (placed_in i l Hl) as Hpl. pose proof (size_positive (K := K) (V := V)) as Hsp.
  pose proof (group_not_null (K := K) (V := V)) as Hgn.
  assert (Hptr : exists slots gen, slot_array (table l) = Ok slots /\ generation_ptr l = Ok gen).
  { destruct (decide (capacity_ (table l) = 0)) as [Hz|Hnz].
    - unfold slot_array, generation_ptr. rewrite (proj2 (Z.eqb_eq _ _) Hz). destruct generations; by eexists _, _.
    - destruct (placed_layout l Hpl Hnz) as (s & g & _ & ? & ? & _). by exists s, g. }
  destruct Hptr as (slots & gen & Hslots & Hgen). exists slots, gen. split; try done.
  - intros Hg. destruct (counter_of i l Hg Hl) as (p & g & Hp & Hr). rewrite Hgen in Hp. injection Hp as <-. by exists g.
  - destruct (decide (capacity_ (table l) = 0)) as [Hz|Hnz]; [destruct (empty_fields l Hpl Hz) as (-> & _); done|].
    destruct (placed_layout l Hpl Hnz) as (_ & _ & _ & _ & _ & _ & Hb & _). lia.
  - intros Hnz k Hk. destruct (placed_layout l Hpl Hnz) as (s & g & hi & _ & _ & _ & Hb & Hs & Hhi & _ & _ & Ho & _).
    pose proof (capacity_pos l Hpl). unfold outside in Ho. nia.
  - intros Hnz. destruct (placed_layout l Hpl Hnz) as (s & g & hi & Hs & _ & _ & Hb & Hcs & _ & _ & Hlen & _).
    rewrite Hslots in Hs. injection Hs as <-. lia.
  - intros k Hk. by apply (reads_ctrl i).
  - intros k Hk. by apply (reads_slot i).
Qed.
End reading.

(** ** Iterators are positions *)

Lemma rep_full_at l mp i v : rep (table l) mp -> 0 <= i -> slots_ (table l) !! Z.to_nat i = Some (Some v) ->
  full_at (table l) i /\ 0 <= i < capacity_ (table l).
Proof using HL.
  intros [(m & c & Hm & Hl & _) _] Hi Hv. pose proof Hl as [Hview Hlen Hslot _ _]. pose proof (view_length m _ c Hview) as Hcl.
  pose proof (lookup_lt_Some _ _ _ Hv) as Hlt. destruct (lookup_lt_is_Some_2 c (Z.to_nat i) ltac:(lia)) as [x Hx].
  pose proof (Hslot _ _ _ Hx Hv) as Hs. cbn in Hs. subst x. split; [|rewrite (proj1 Hview); lia].
  exists (H2 (hasher (policy_key v))). split; [by apply (ctrl_cell m Hm _ c Hview)|].
  by destruct (H2_not (hasher (policy_key v))) as (_ & _ & ? & _).
Qed.

(** C12: iterators implement the positions of the other theorems, in every
    build. In a memory of live tables whose arrays do not overlap, [begin],
    [end], [operator*], [operator++] and the comparison of two iterators of
    one table pass their checks, read the right slot through their pointers
    and stand where the position stands; so the loop from [begin()] to [end()]
    gives the elements of the table. *)
Theorem iterators_refine_positions mem n l mp : mem_ok mem -> mem !! n = Some l -> rep (table l) mp ->
  (exists first last pos, begin_ mem l = Ok first /\ begin (table l) = Ok pos /\ stands mem l first pos /\
     end_ mem l = Ok last /\ stands mem l last None /\
     exists vs, elements (table l) = Ok vs /\ range_for mem (S (Z.to_nat (capacity_ (table l)))) first last = Ok vs) /\
  (forall i, exists it, iterator_at mem l i = Ok it /\ stands mem l it (Some i)) /\
  (forall it i v, stands mem l it (Some i) -> 0 <= i -> slots_ (table l) !! Z.to_nat i = Some (Some v) ->
     iter_deref mem it = Ok v /\
     exists it' pos, iter_next mem it = Ok it' /\ iterator_next (table l) i = Ok pos /\ stands mem l it' pos) /\
  (forall a b pa pb, stands mem l a pa -> stands mem l b pb -> position_ok l pa -> position_ok l pb ->
     iter_eq mem a b = Ok (bool_decide (pa = pb))).
Proof using HL HPL HIL.
  intros Hmem Hn Hrep. destruct (visible_in mem Hmem n l Hn) as (slots & gen & Hvis). split_and!.
  - destruct (begin_ok (table l) mp Hrep) as (pos & Hb & Hpos). destruct (begin_stands mem l slots gen Hvis pos Hb) as (first & Hf & Hst).
    destruct (end_stands mem l slots gen Hvis) as (last & Hlast & Hend). exists first, last, pos. split_and!; try done.
    destruct Hrep as [(m & c & Hm & Hl & Hc) Hr]. pose proof (elements_ok m Hm (table l) c Hl) as Hel. eexists. split; [exact Hel|].
    unfold elements in Hel. rewrite Hb in Hel. cbn [rbind] in Hel.
    assert (Hrep : rep (table l) mp) by (split; [by exists m, c|done]).
    apply (range_for_sim mem l slots gen Hvis _) with (pos := pos); try done.
    + intros i v Hi Hi0. apply element_ok in Hi; [|done]. by apply (rep_full_at l mp i v).
    + intros i ->. destruct Hpos as [[? _]|(j & v & [= ->] & Hj & _)]; [done|lia].
    + intros i j Hnext Hi. by apply (next_nonneg (table l) i).
  - intros i. by apply (iterator_at_stands mem l slots gen Hvis).
  - intros it i v Hst Hi Hv. destruct (rep_full_at l mp i v Hrep Hi Hv) as [Hf Hb].
    split; [apply (deref_sim mem l slots gen Hvis it i v); [done|by intros k [= <-]|by apply element_ok]|].
    destruct (iterator_next_ok (table l) mp i v Hrep Hi Hv) as (pos & Hnext & _).
    destruct (next_sim mem l slots gen Hvis it i pos Hst ltac:(lia) Hnext) as (it' & Hit & Hst'). by exists it', pos.
  - intros a b pa pb. by apply (eq_sim mem l slots gen Hvis).
Qed.

(** ** Bad iterators are caught *)

Section caught.
Context (mem : list (live V)) (Hmem : mem_ok mem) (Hdebug : SwisstableDebugEnabled = true).

Lemma null_caught it : it_ctrl it = 0 \/ it_ctrl it = EmptyGroup -> iter_deref mem it = Err AssertFailed /\ iter_next mem it = Err AssertFailed.
Proof using Hdebug.
  intros Hn. unfold iter_deref, iter_next, AssertIsFull. rewrite Hdebug. cbn [negb].
  destruct Hn as [-> | ->]; [done|]. rewrite Z.eqb_refl. by destruct (EmptyGroup =? 0).
Qed.

Lemma erased_caught n l it i x : mem !! n = Some l -> capacity_ (table l) <> 0 -> stands mem l it (Some i) ->
  at_index (ctrl (table l)) i = Ok x -> IsFull x = false ->
  iter_deref mem it = Err AssertFailed /\ iter_next mem it = Err AssertFailed /\ forall b, iter_eq mem it b = Err AssertFailed.
Proof using Hmem Hdebug HL HIL.
  intros Hn Hcap Hst Hx Hf. destruct (visible_in mem Hmem n l Hn) as (slots & gen & Hvis).
  apply (stands_iff mem l slots gen Hvis) in Hst as [[Hc _] Hcur]. pose proof (at_index_range _ _ _ Hx) as Hi.
  pose proof (vis_control _ _ _ _ Hvis). pose proof (vis_apart _ _ _ _ Hvis Hcap i Hi) as Hap.
  pose proof (read_at mem l slots gen Hvis i x Hx) as Hread. unfold current in Hcur.
  unfold iter_deref, iter_next, iter_eq, AssertIsFull, AssertIsValidForComparison. rewrite Hdebug. cbn [negb]. rewrite Hc.
  rewrite (proj2 (Z.eqb_neq _ 0)), (proj2 (Z.eqb_neq _ EmptyGroup) Hap) by lia. cbn [negb cpp_assert orb]. rewrite Hread. cbn [rbind]. rewrite Hf.
  unfold SwisstableDebugEnabled in Hdebug. destruct generations; cbn [orb] in Hdebug.
  - destruct (Hcur eq_refl) as [-> ->]. cbn [rbind]. by rewrite Z.eqb_refl.
  - apply negb_true_iff in Hdebug. by rewrite Hdebug.
Qed.

Lemma stale_caught it g : generations = true -> read_generation mem (it_generation_ptr it) = Ok g -> g <> it_generation it ->
  iter_deref mem it = Err AssertFailed /\ iter_next mem it = Err AssertFailed /\
  (it_ctrl it = 0 \/ (exists x, read_ctrl mem (it_ctrl it) = Ok x) -> forall b, iter_eq mem it b = Err AssertFailed).
Proof using Hdebug.
  intros Hgen Hg Hne. unfold iter_deref, iter_next, iter_eq, AssertIsFull, AssertIsValidForComparison. rewrite Hdebug, Hgen, Hg.
  cbn [negb rbind]. rewrite (proj2 (Z.eqb_neq (it_generation it) g)) by congruence. cbn [cpp_assert].
  split; [by destruct (negb _), (negb _)|]. split; [by destruct (negb _), (negb _)|].
  intros [->|(x & Hx)] b; [done|]. destruct (_ || _); [done|]. by rewrite Hx.
Qed.

Lemma counters_differ n1 n2 l1 l2 p : generations = true -> mem !! n1 = Some l1 -> mem !! n2 = Some l2 -> n1 <> n2 ->
  capacity_ (table l1) <> 0 -> generation_ptr l1 = Ok p -> generation_ptr l2 <> Ok p.
Proof using Hmem HL HIL.
  intros Hgen H1 H2 Hne Hc1 Hp1 Hp2. pose proof (placed_in mem Hmem _ _ H1) as P1. pose proof (placed_in mem Hmem _ _ H2) as P2.
  destruct (placed_layout l1 P1 Hc1) as (s1 & g1 & e1 & _ & Hg1 & He1 & Hb1 & Hs1 & Hhi1 & Hin1 & _ & _ & Ho1).
  rewrite Hp1 in Hg1. injection Hg1 as <-. specialize (Hin1 Hgen). pose proof (size_positive (K := K) (V := V)) as Hsp.
  pose proof (capacity_pos l1 P1). pose proof (capacity_pos l2 P2).
  destruct (decide (capacity_ (table l2) = 0)) as [Hz|Hnz].
  - destruct (empty_fields l2 P2 Hz) as (_ & _ & Hr). unfold generation_ptr in Hp2.
    rewrite Hgen, (proj2 (Z.eqb_eq _ _) Hz) in Hp2. cbn [negb] in Hp2. injection Hp2 as <-. unfold outside in Ho1. nia.
  - destruct (placed_layout l2 P2 Hnz) as (s2 & g2 & e2 & _ & Hg2 & He2 & Hb2 & Hs2 & Hhi2 & Hin2 & _).
    rewrite Hp2 in Hg2. injection Hg2 as <-. specialize (Hin2 Hgen).
    destruct (proj2 Hmem n1 n2 l1 l2 H1 H2 Hne Hc1 Hnz e1 e2 He1 He2); nia.
Qed.

(** Where the arrays are apart, so are the pointers. *)
Lemma pointers_differ n1 n2 l1 l2 s1 s2 i j : mem !! n1 = Some l1 -> mem !! n2 = Some l2 -> n1 <> n2 ->
  slot_array (table l1) = Ok s1 -> slot_array (table l2) = Ok s2 ->
  0 <= i < capacity_ (table l1) -> 0 <= j < capacity_ (table l2) ->
  AreItersFromSameContainer (control_ (table l1) + i) (control_ (table l2) + j) (s1 + i * sizeof_slot) (s2 + j * sizeof_slot) = false.
Proof using Hmem HL HIL.
  intros H1 H2 Hne Hs1 Hs2 Hi Hj. pose proof (placed_in mem Hmem _ _ H1) as P1. pose proof (placed_in mem Hmem _ _ H2) as P2.
  destruct (placed_layout l1 P1 ltac:(lia)) as (s1' & g1 & e1 & Hs1' & _ & He1 & Hb1 & Hc1 & Hhi1 & _ & Hlen1 & _).
  destruct (placed_layout l2 P2 ltac:(lia)) as (s2' & g2 & e2 & Hs2' & _ & He2 & Hb2 & Hc2 & Hhi2 & _ & Hlen2 & _).
  rewrite Hs1 in Hs1'. injection Hs1' as <-. rewrite Hs2 in Hs2'. injection Hs2' as <-. pose proof (size_positive (K := K) (V := V)) as Hsp.
  pose proof (proj2 Hmem n1 n2 l1 l2 H1 H2 Hne ltac:(lia) ltac:(lia) e1 e2 He1 He2) as Hap.
  unfold AreItersFromSameContainer. rewrite !(proj2 (Z.eqb_neq _ 0)) by lia. cbn [orb].
  destruct (control_ (table l2) + j <? control_ (table l1) + i) eqn:E; bools; apply andb_false_iff; left; apply Z.ltb_ge; nia.
Qed.

Lemma foreign_caught n1 n2 l1 l2 a b pa pb : mem !! n1 = Some l1 -> mem !! n2 = Some l2 -> n1 <> n2 ->
  capacity_ (table l1) <> 0 -> stands mem l1 a pa -> stands mem l2 b pb -> position_ok l1 pa -> position_ok l2 pb ->
  generations = true \/ (pa <> None /\ pb <> None) -> iter_eq mem a b = Err AssertFailed.
Proof using Hmem Hdebug HL HIL.
  intros H1 H2 Hne Hc1 Ha Hb Hpa Hpb Hor.
  destruct (visible_in mem Hmem n1 l1 H1) as (s1 & g1 & V1). destruct (visible_in mem Hmem n2 l2 H2) as (s2 & g2 & V2).
  unfold iter_eq. rewrite (valid_passes mem l1 s1 g1 V1 a pa) by (done || apply Hpa).
  rewrite (valid_passes mem l2 s2 g2 V2 b pb) by (done || apply Hpb).
  apply (stands_iff mem l1 s1 g1 V1) in Ha as [Ha Hca]. apply (stands_iff mem l2 s2 g2 V2) in Hb as [Hb Hcb].
  assert (Hdef : forall l s g it p, visible mem l s g -> points l s it p -> position_ok l p -> (it_ctrl it =? EmptyGroup) = false).
  { intros l s g it p Hv Hp Hok. apply Z.eqb_neq. pose proof (vis_empty _ _ _ _ Hv). destruct p as [i|]; cbn [points] in Hp; [|lia].
    destruct (Hok i eq_refl) as ((x & Hx & _) & Hi), Hp as [-> _]. apply (vis_apart _ _ _ _ Hv); [lia|by eapply at_index_range]. }
  unfold AssertSameContainer. rewrite Hdebug, (Hdef _ _ _ a pa V1 Ha Hpa), (Hdef _ _ _ b pb V2 Hb Hpb). cbn [negb eqb cpp_assert andb].
  unfold current in *. unfold SwisstableDebugEnabled in Hdebug. destruct generations eqn:Eg; cbn [orb] in Hdebug.
  - destruct (Hca eq_refl) as [-> _], (Hcb eq_refl) as [-> _]. rewrite (proj2 (Z.eqb_neq g1 g2)); [done|]. intros ->.
    exact (counters_differ n1 n2 l1 l2 g2 Eg H1 H2 Hne Hc1 (vis_gen _ _ _ _ V1) (vis_gen _ _ _ _ V2)).
  - apply negb_true_iff in Hdebug. rewrite Hdebug, orb_false_r. destruct Hor as [?|[Hna Hnb]]; [done|].
    destruct pa as [i|], pb as [j|]; try done. destruct (Hpa i eq_refl) as [_ Hi], (Hpb j eq_refl) as [_ Hj], Ha as [-> ->], Hb as [-> ->].
    by rewrite (pointers_differ n1 n2 l1 l2 s1 s2 i j H1 H2 Hne (vis_slots _ _ _ _ V1) (vis_slots _ _ _ _ V2) Hi Hj).
Qed.

Lemma NextGeneration_moves g : 0 <= g < 256 -> NextGeneration g <> g /\ NextGeneration g <> SentinelEmptyGeneration.
Proof using.
  intros Hg. unfold NextGeneration, SentinelEmptyGeneration, u8. destruct (decide (g = 255)) as [->|]; [done|].
  rewrite !(Z.mod_small (g + 1)) by lia. rewrite (proj2 (Z.eqb_neq _ _)) by lia. lia.
Qed.

(** C13: what the checks catch. In every build with the debug checks it aborts
    to dereference or advance [end()] or a default iterator, to use or compare an
    iterator whose element was erased while its array stayed, and to compare two
    iterators at elements of two tables. Only where generations are compiled in,
    as in sanitizer builds, it also aborts to dereference, advance or compare an
    iterator after the counter of its table has moved on, which it does at each
    growth and at each insertion that no reservation covers; and to compare with
    the [end()] of another table. *)
Theorem invalid_iterators_detected :
  (forall it, it_ctrl it = 0 \/ it_ctrl it = EmptyGroup -> iter_deref mem it = Err AssertFailed /\ iter_next mem it = Err AssertFailed) /\
  (forall n l it i x, mem !! n = Some l -> capacity_ (table l) <> 0 -> stands mem l it (Some i) ->
     at_index (ctrl (table l)) i = Ok x -> IsFull x = false ->
     iter_deref mem it = Err AssertFailed /\ iter_next mem it = Err AssertFailed /\ forall b, iter_eq mem it b = Err AssertFailed) /\
  (generations = true -> forall it g, read_generation mem (it_generation_ptr it) = Ok g -> g <> it_generation it ->
     iter_deref mem it = Err AssertFailed /\ iter_next mem it = Err AssertFailed /\
     (it_ctrl it = 0 \/ (exists x, read_ctrl mem (it_ctrl it) = Ok x) -> forall b, iter_eq mem it b = Err AssertFailed)) /\
  (generations = true -> forall g, 0 <= generation_ g < 256 ->
     NextGeneration (generation g) <> generation g /\
     (reserved_growth_ g = 0 -> generation (maybe_increment_generation_on_insert g) <> generation g)) /\
  (forall n1 n2 l1 l2 a b pa pb, mem !! n1 = Some l1 -> mem !! n2 = Some l2 -> n1 <> n2 ->
     capacity_ (table l1) <> 0 -> stands mem l1 a pa -> stands mem l2 b pb -> position_ok l1 pa -> position_ok l2 pb ->
     generations = true \/ (pa <> None /\ pb <> None) -> iter_eq mem a b = Err AssertFailed).
Proof using Hmem Hdebug HL HIL.
  split; [exact null_caught|]. split; [exact erased_caught|]. split; [intros Hg it g; by apply stale_caught|].
  split; [|exact foreign_caught].
  intros Hgen g Hg. unfold generation, maybe_increment_generation_on_insert. rewrite Hgen. cbn [negb].
  split; [by apply NextGeneration_moves|]. intros ->. cbn. by apply NextGeneration_moves.
Qed.
End caught.
End spec.

(** ** Witnesses *)

Import TableSample.

#[local] Instance sample_empty_generations : EmptyGenerations := { kEmptyGenerations := 16384 }.

#[local] Instance sample_iter_laws : IterLaws (K := Z) (V := Z).
Proof. split; [exists 3; split; [lia|reflexivity]|reflexivity|split; [discriminate|reflexivity]|reflexivity]. Defined.

(** A table with the elements [l], whose array is the allocation [n]. *)
Definition sample_filled (n : nat) (l : list Z) : result (common_fields Z * World) :=
  let w := {| seed_counter := 0; allocations := n; samples := 0 |} in
  let '(t, w) := CommonFields_ctor w in insert_range t l w.

Lemma sample_filled_rep n l t w : Z.of_nat (length l) < 2 ^ 50 -> sample_filled n l = Ok (t, w) -> exists mp, rep t mp.
Proof.
  intros Hl Hf. unfold sample_filled in Hf.
  destruct (CommonFields_ctor_ok (V := Z) {| seed_counter := 0; allocations := n; samples := 0 |}) as (t0 & w0 & Hc & Hrep & Hcap & _).
  rewrite Hc in Hf. destruct (insert_range_ok l t0 ∅ 0 0 w0 Hrep) as (t' & w' & Hi & Hrep' & _);
    [split; [pose proof (used_le_capacity t0 ∅ Hrep); lia|lia]|done|lia|].
  rewrite Hi in Hf. injection Hf as <- _. by eexists.
Qed.

Definition the_table (r : result (common_fields Z * World)) : common_fields Z :=
  match r with Ok (t, _) => t | Err _ => {| control_ := 0; ctrl := []; slots_ := []; capacity_ := 0; size_ := 0; growth_left_ := 0;
    gen_ := {| reserved_growth_ := 0; reservation_size_ := 0; generation_ := 0 |} |} end.

Definition sample_memory_live : list (live Z) :=
  [Live (the_table (sample_filled 0 [5; 1; 7])) 16384; Live (the_table (sample_filled 8 [2])) 16384].

Lemma sample_placed (l : live Z) : capacity_ok (capacity_ (table l)) ->
  match array_end (table l) with
  | Ok hi => EmptyGroup + 16 <= array_start (table l) /\ kEmptyGenerations + kNumEmptyGenerations <= array_start (table l)
  | Err _ => False
  end ->
  Z.of_nat (length (ctrl (table l))) = capacity_ (table l) + 1 + NumClonedBytes -> capacity_ (table l) * sizeof_slot (K := Z) (V := Z) < 2 ^ 63 ->
  0 < array_start (table l) -> placed l.
Proof.
  intros Hc He Hlen Hs Hb. right. split_and!; try done. destruct (array_end (table l)) as [hi|]; [|done].
  exists hi. split; [done|]. unfold outside. lia.
Qed.

Lemma two_tables_ok (l1 l2 : live Z) : placed l1 -> placed l2 ->
  match array_end (table l1) with Ok hi => hi <= array_start (table l2) | Err _ => False end -> mem_ok [l1; l2].
Proof.
  intros H1 H2 Ha. split; [by repeat apply Forall_cons_2|]. intros i j a b Hi Hj Hij _ _ ha hb Hha Hhb.
  destruct (array_end (table l1)) as [hi|] eqn:E; [|done].
  destruct i as [|[|i]], j as [|[|j]]; cbn in Hi, Hj; try done; injection Hi as <-; injection Hj as <-; [left|right]; congruence.
Qed.

Lemma sample_memory_ok : mem_ok sample_memory_live.
Proof.
  apply two_tables_ok.
  - apply sample_placed; [exists 2; split; [by vm_compute|vm_compute; reflexivity]|vm_compute; split; discriminate|vm_compute; reflexivity..].
  - apply sample_placed; [exists 1; split; [by vm_compute|vm_compute; reflexivity]|vm_compute; split; discriminate|vm_compute; reflexivity..].
  - vm_compute. discriminate.
Qed.

Lemma iterators_refine_positions_witness : exists l first last vs, sample_memory_live !! 0%nat = Some l /\
  begin_ sample_memory_live l = Ok first /\ end_ sample_memory_live l = Ok last /\
  range_for sample_memory_live 4 first last = Ok vs /\ length vs = 3%nat.
Proof.
  assert (Hrep : exists mp, rep (the_table (sample_filled 0 [5; 1; 7])) mp).
  { destruct (sample_filled 0 [5; 1; 7]) as [[t w]|e] eqn:E; [|vm_compute in E; discriminate E].
    exact (sample_filled_rep 0 [5; 1; 7] t w ltac:(reflexivity) E). }
  destruct Hrep as (mp & Hrep). exists (Live (the_table (sample_filled 0 [5; 1; 7])) 16384).
  destruct (iterators_refine_positions sample_memory_live 0 _ mp sample_memory_ok eq_refl Hrep)
    as ((first & last & pos & Hf & _ & _ & Hl & _ & vs & Hvs & Hfor) & _).
  exists first, last, vs. split; [reflexivity|]. split; [exact Hf|]. split; [exact Hl|]. split; [exact Hfor|].
  vm_compute in Hvs. injection Hvs as <-. reflexivity.
Defined.

Lemma invalid_iterators_detected_witness : exists l1 l2 a b,
  sample_memory_live !! 0%nat = Some l1 /\ sample_memory_live !! 1%nat = Some l2 /\
  end_ sample_memory_live l1 = Ok a /\ end_ sample_memory_live l2 = Ok b /\
  iter_eq sample_memory_live a b = Err AssertFailed /\ iter_deref sample_memory_live a = Err AssertFailed.
Proof.
  destruct (invalid_iterators_detected sample_memory_live sample_memory_ok eq_refl) as (Hnull & _ & _ & _ & Hforeign).
  set (l1 := Live (the_table (sample_filled 0 [5; 1; 7])) 16384). set (l2 := Live (the_table (sample_filled 8 [2])) 16384).
  destruct (visible_in sample_memory_live sample_memory_ok 0 l1 eq_refl) as (s1 & g1 & V1).
  destruct (visible_in sample_memory_live sample_memory_ok 1 l2 eq_refl) as (s2 & g2 & V2).
  destruct (end_stands sample_memory_live l1 s1 g1 V1) as (a & Ha & Hsa). destruct (end_stands sample_memory_live l2 s2 g2 V2) as (b & Hb & Hsb).
  exists l1, l2, a, b. split; [reflexivity|]. split; [reflexivity|]. split; [exact Ha|]. split; [exact Hb|]. split.
  - apply (Hforeign 0%nat 1%nat l1 l2 a b None None); [reflexivity|reflexivity|discriminate|vm_compute; discriminate|exact Hsa|exact Hsb| | |left; reflexivity];
      intros i Hi; discriminate Hi.
  - apply Hnull. left. destruct Hsa as (? & ? & _ & _ & Hp & _). exact Hp.
Defined.
