(* ===== verification/FlatMapStore.v ===== *)
(** * FlatMapStore: positions in a flat_hash_map (lemmas for FlatMap.v)

    [stores W t mp]: the table [t] holds the map [mp], and at most [W]
    insertions have been spent on it, which bounds its array. What the
    operations that work through positions do: [find], [operator[]], the
    assignment to [it->second] and [erase(it)]. *)

From S2P Require Import Prelude.
From S2P Require Import Word.
From S2P Require Import BitMask.
From S2P Require Import Group.
From S2P Require Import Capacity.
From S2P Require Import Probe.
From S2P Require Import Table.
From S2P Require Import CellsInv.
From S2P Require Import TableFind.
From S2P Require Import TableRep.
From S2P Require Import TableDrop.
From S2P Require Import TableErase.
From S2P Require Import TableBulk.
From S2P Require Import TableMerge.
From S2P Require Import FlatMap.

Section store.
Context {K M : Type} `{EqDecision K, Countable K}.
Context {HG : Group} {HL : GroupLaws} {HB : Build} {HM : Memory} {HML : MemoryLaws}.
Context `{HK : KeyTraits K} {HKL : KeyLaws K}.

Notation map := (common_fields (K * M)).

Definition stores (W : Z) (t : map) (mp : gmap K M) : Prop := holds t mp /\ bounded 0 W t.

(** [i] is the position of the element of [k], whose value is [v]. *)
Definition at_position (t : map) (i : Z) (k : K) (v : M) : Prop := 0 <= i /\ element (slots_ t) i = Ok (k, v).

Lemma stores_mono W W' (t : map) mp : stores W t mp -> W <= W' -> stores W' t mp.
Proof using. intros [Hr [Hu Hc]] HW. split; [done|]. split; lia. Qed.

Lemma stores_capacity W (t : map) mp : stores W t mp -> 0 <= W < 2 ^ 56 -> capacity_ t < 2 ^ 58.
Proof using. intros [_ [_ Hc]] HW. lia. Qed.

(** The table keeps its array, and spends no more of it. *)
Lemma stores_kept W (t t' : map) mp : bounded 0 W t -> holds t' mp -> capacity_ t' = capacity_ t ->
  growth_left_ t <= growth_left_ t' -> stores W t' mp.
Proof using. intros [Hu Hc] Hr Hcap Hg. split; [done|]. unfold bounded, used in *. rewrite Hcap. lia. Qed.

Lemma constructed_stores w : exists (t : map) w', raw_hash_set_ctor 0 w = Ok (t, w') /\ stores 0 t ∅.
Proof using HL HML.
  destruct (CommonFields_ctor_ok (K := K) (V := K * M) w) as (t & w' & Hctor & Hrep & Hcap & _).
  exists t, w'. split; [unfold raw_hash_set_ctor; by rewrite Hctor|]. split; [unfold holds; by rewrite pairs_empty|].
  pose proof (used_le_capacity t ∅ Hrep). split; lia.
Qed.

Lemma find_stored W (t : map) mp k : stores W t mp ->
  match mp !! k with
  | Some v => exists i, find t k = Ok (Some i) /\ at_position t i k v
  | None => find t k = Ok None
  end.
Proof using HL HKL.
  intros [Hr _]. destruct (find_ok t (pairs mp) k Hr) as [(j & [k' v] & -> & Hj & Hk & Hm)|[-> Hn]]; rewrite lookup_pairs in *.
  - cbn in Hk. subst k'. apply fmap_Some in Hm as (x & -> & [= <-]). exists (Z.of_nat j). split; [done|]. split; [lia|].
    apply element_ok; [lia|]. by rewrite Nat2Z.id.
  - by apply fmap_None in Hn as ->.
Qed.

Lemma contains_stored W (t : map) mp k : stores W t mp -> contains t k = Ok (bool_decide (is_Some (mp !! k))).
Proof using HL HKL.
  intros Hs. unfold contains. pose proof (find_stored W t mp k Hs) as Hf.
  by destruct (mp !! k) as [v|]; [destruct Hf as (i & -> & _)|rewrite Hf].
Qed.

Lemma assign_stored W (t : map) mp i k u v : stores W t mp -> at_position t i k u ->
  exists t', assign_value t i v = Ok t' /\ stores W t' (<[k := v]> mp) /\ at_position t' i k v.
Proof using.
  intros [Hr Hb] [Hi He]. destruct (assign_value_ok t mp i k v u Hr Hi) as (t' & -> & Hr' & Hc & Hg & He'); [by apply element_ok|].
  exists t'. split; [done|]. split; [apply (stores_kept W t); [done|done|done|lia]|done].
Qed.

Lemma subscript_stored init W (t : map) mp k w : stores W t mp -> 0 <= W < 2 ^ 56 ->
  exists i t' w', subscript init t k w = Ok (i, default init (mp !! k), t', w') /\
    stores (W + 1) t' (<[k := default init (mp !! k)]> mp) /\ at_position t' i k (default init (mp !! k)).
Proof using HL HKL.
  intros Hs HW. pose proof (stores_capacity W t mp Hs HW) as Hcap. destruct Hs as [Hr Hb]. unfold subscript.
  destruct (try_emplace_ok t mp k init w Hr Hcap) as (i & t' & w' & -> & Hi & Hr' & He & Hg). cbn [rbind]. rewrite He. cbn [rbind].
  exists i, t', w'. split; [done|]. split; [|done]. split; [done|]. exact (grown_bounded 0 W t t' (pairs mp) Hr Hb Hg).
Qed.

Lemma erase_at_stored W (t : map) mp i k u : stores W t mp -> at_position t i k u ->
  exists t', erase_at t i = Ok t' /\ stores W t' (delete k mp).
Proof using HL HKL.
  intros [Hr Hb] [Hi He]. destruct Hr as [(m & c & Hm & Hl & Hc) Hr].
  destruct (erase_at_ok m Hm t c Hl Hc i (k, u) (pairs mp)) as (t' & -> & Hr' & _ & Hcap & Hg); [done|by apply element_ok|done|].
  exists t'. split; [done|]. apply (stores_kept W t); [done|unfold holds; by rewrite pairs_delete|done|done].
Qed.

Lemma erase_stored W (t : map) mp k : stores W t mp ->
  exists n t', erase t k = Ok (n, t') /\ stores W t' (delete k mp).
Proof using HL HKL.
  intros [Hr Hb]. destruct (erase_ok t (pairs mp) k Hr) as (t' & -> & Hr' & Hcap & Hg).
  eexists _, t'. split; [done|]. apply (stores_kept W t); [done|unfold holds; by rewrite pairs_delete|done|done].
Qed.

Lemma at_stored W (t : map) mp k : stores W t mp -> at_ t k = at_key (mp !! k).
Proof using HL HKL. intros [Hr _]. by apply at_ok. Qed.

Lemma subscript_assign_stored init W (t : map) mp k v w : stores W t mp -> 0 <= W < 2 ^ 56 ->
  exists t' w', subscript_assign init t k v w = Ok (t', w') /\ stores (W + 1) t' (<[k := v]> mp).
Proof using HL HKL.
  intros Hs HW. unfold subscript_assign. destruct (subscript_stored init W t mp k w Hs HW) as (i & t1 & w1 & -> & Hs1 & Hp). cbn [rbind].
  destruct (assign_stored _ _ _ _ _ _ v Hs1 Hp) as (t2 & -> & Hs2 & _). cbn [rbind]. rewrite insert_insert_eq in Hs2. by exists t2, w1.
Qed.

Lemma emplace_stored W (t : map) mp k v w : stores W t mp -> 0 <= W < 2 ^ 56 ->
  exists i b t' w', emplace t (k, v) w = Ok (i, b, t', w') /\ stores (W + 1) t' (<[k := default v (mp !! k)]> mp).
Proof using HL HKL.
  intros Hs HW. pose proof (stores_capacity W t mp Hs HW) as Hcap. destruct Hs as [Hr Hb].
  destruct (emplace_ok t (pairs mp) (k, v) w Hr Hcap) as (i & t' & w' & -> & Hr' & _ & Hg). cbn [policy_key FlatHashMapPolicy fst] in Hr'.
  eexists i, _, t', w'. split; [done|]. split; [|exact (grown_bounded 0 W t t' (pairs mp) Hr Hb Hg)].
  unfold holds. rewrite pairs_insert, lookup_pairs in *. by destruct (mp !! k).
Qed.

(** ** Whole tables *)

(** Insertions in order: an earlier element stays. *)
Definition insert_new (mp : gmap K M) (kv : K * M) : gmap K M := <[kv.1 := default kv.2 (mp !! kv.1)]> mp.

Lemma inserted_pairs l : forall mp, inserted_all (pairs mp) l = pairs (foldl insert_new mp l).
Proof using.
  induction l as [|[k v] l IH]; intros mp; [done|]. unfold inserted_all in *. cbn [foldl]. rewrite <- IH. f_equal.
  unfold insert_new. cbn [fst snd policy_key FlatHashMapPolicy]. rewrite pairs_insert, lookup_pairs. by destruct (mp !! k).
Qed.

(** A table constructed from a list of elements. *)
Lemma range_holds l w : Z.of_nat (length l) < 2 ^ 53 ->
  exists (t : map) w', raw_hash_set_range l 0 w = Ok (t, w') /\ holds t (foldl insert_new ∅ l).
Proof using HL HML HKL.
  intros Hl. destruct (raw_hash_set_range_ok l 0 w ltac:(done) Hl) as (t & w' & -> & Hr).
  exists t, w'. split; [done|]. unfold holds. by rewrite <- inserted_pairs, pairs_empty.
Qed.

(** A table filled by a loop of [m[key(x)] = x]. *)
Lemma assign_all_stored {A} init (key : A -> K) (val : A -> M) l : forall W (t : map) mp w, stores W t mp -> 0 <= W ->
  W + Z.of_nat (length l) < 2 ^ 56 ->
  exists t' w', foldM (fun '(t, w) a => subscript_assign init t (key a) (val a) w) (t, w) l = Ok (t', w') /\
    stores (W + Z.of_nat (length l)) t' (foldl (fun mp a => <[key a := val a]> mp) mp l).
Proof using HL HKL.
  induction l as [|a l IH]; intros W t mp w Hs HW Hl; cbn [foldM foldl length] in *.
  - exists t, w. by rewrite Z.add_0_r.
  - destruct (subscript_assign_stored init W t mp (key a) (val a) w Hs ltac:(lia)) as (t1 & w1 & -> & Hs1). cbn [rbind].
    destruct (IH (W + 1) t1 _ w1 Hs1 ltac:(lia) ltac:(lia)) as (t' & w' & -> & Hs'). exists t', w'. split; [done|].
    by replace (W + Z.of_nat (S (length l))) with (W + 1 + Z.of_nat (length l)) by lia.
Qed.
End store.
