(* ===== verification/GameKeys.v ===== *)
(** * GameKeys: the keys of the game's hash tables
    (src/geo.h, src/abseil-cpp/absl/container/internal/hash_function_defaults.h)

    The game keeps hash tables whose keys are points, addresses of entities,
    characters and strings. Their hash functions are those of Hash.v and
    HashValues.v; each of them is total and hashes equal keys alike, which is
    what a table asks of its keys ([KeyLaws]). *)

From S2P Require Import Prelude.
From S2P Require Import Geo.
From S2P Require Import Entity.
From S2P Require Import Word.
From S2P Require Import Hash.
From S2P Require Import HashValues.
From S2P Require Import BitMask.
From S2P Require Import Group.
From S2P Require Import Capacity.
From S2P Require Import Probe.
From S2P Require Import Table.
From S2P Require Import FlatMap.

(** What the language and its library leave open: the addresses of objects,
    and the sizes of the slots that hold a [std::string]. *)
Class Abi := {
  address : loc -> Z;
  tile_slot : Z * Z;
  attack_slot : Z * Z;
  species_slot : Z * Z
}.
Class AbiLaws `{Abi} := { address_inj :: Inj (=) (=) address }.

Section keys.
Context `{HPlat : Platform} `{HAbi : Abi}.

(** [Hash::operator()] returns a [size_t]; the result is an error where the
    object is not one the program can have. *)
Definition size_t_of (r : result Z) : Z := match r with Ok h => h | Err _ => 0 end.

(** [AbslHashValue(H, const Point&)]. *)
Definition AbslHashValue_Point (h : Z) (p : Point) : result Z :=
  combine_all (fun h v => combine (depth v) h v) h [VInt 32 (Point.x p); VInt 32 (Point.y p)].

(** [absl::Hash<Point>]: a [Point] is not hashed as its bytes. *)
Definition hash_Point (p : Point) : result Z :=
  let* state := AbslHashValue_Point MixingHashState_ctor p in Ok (to_size_t state).

(** [HashEq<T*>]. *)
Definition hash_ptr (e : loc) : result Z := hash (VPtr (address e)).
Definition eq_ptr (a b : loc) : bool := address a =? address b.

(** [HashEq<char>]. *)
Definition hash_char (ch : Z) : result Z := hash (VInt 8 ch).

(** [StringHash] and [StringEq]. *)
Definition string_bytes (s : string) : list Z := (fun c => Z.of_nat (Ascii.nat_of_ascii c)) <$> String.list_ascii_of_string s.
Definition StringHash (v : string) : result Z := hash (VString (string_bytes v)).
Definition StringEq (lhs rhs : string) : bool := String.eqb lhs rhs.

(** The maps of the game: [HashMap<Point, OwnedEntity>],
    [HashMap<const Entity*, std::unique_ptr<Vision>>], [HashMap<char, Tile>],
    [HashMap<std::string, Attack>], [HashMap<std::string,
    PokemonSpeciesWithAttacks>]. Pointers are as wide as [size_t]. *)
Definition point_traits : KeyTraits Point := {|
  key_hash p := size_t_of (hash_Point p); key_eq := Point.eqb;
  slot_size := 8 + sizeof_size_t; slot_align := sizeof_size_t |}.
Definition pointer_traits : KeyTraits loc := {|
  key_hash e := size_t_of (hash_ptr e); key_eq := eq_ptr;
  slot_size := 2 * sizeof_size_t; slot_align := sizeof_size_t |}.
Definition char_traits : KeyTraits Z := {|
  key_hash ch := size_t_of (hash_char ch); key_eq := Z.eqb;
  slot_size := fst tile_slot; slot_align := snd tile_slot |}.
Definition string_traits (slot : Z * Z) : KeyTraits string := {|
  key_hash s := size_t_of (StringHash s); key_eq := StringEq;
  slot_size := fst slot; slot_align := snd slot |}.
End keys.

Section laws.
Context `{HPL : PlatformLaws} `{HAL : AbiLaws}.

Lemma depth_int w z : depth (VInt w z) = 4%nat.
Proof using. done. Qed.

(** The overload of [Point] hashes what a tuple of the coordinates hashes. *)
Lemma hash_Point_tuple p : hash_Point p = hash (VTuple [VInt 32 (Point.x p); VInt 32 (Point.y p)]).
Proof using. reflexivity. Qed.

Lemma point_ok p : value_ok (VTuple [VInt 32 (Point.x p); VInt 32 (Point.y p)]).
Proof using.
  constructor; [done|]. intros v Hv. cbn [parts] in Hv.
  repeat (apply elem_of_cons in Hv as [->|Hv]); try (by apply elem_of_nil in Hv);
    (constructor; [by right; right; left|intros ? []%elem_of_nil]).
Qed.

Lemma hash_total v : value_ok v -> exists h, hash v = Ok h /\ word 64 h.
Proof using HPL.
  intros Hv. exists (to_size_t (meaning v Seed)). split; [by apply hash_meaning|].
  assert (Hb : 0 <= to_size_t (meaning v Seed) < 2 ^ size_bits).
  { apply Z.mod_pos_bound, Z.pow_pos_nonneg; [done|]. unfold size_bits. destruct size_t_4_or_8 as [->| ->]; done. }
  unfold word. assert (2 ^ size_bits <= 2 ^ 64); [|lia].
  apply Z.pow_le_mono_r; [done|]. unfold size_bits. destruct size_t_4_or_8 as [->| ->]; done.
Qed.

(** No key makes its hash function fail, but a string of 2^63 bytes. *)
Lemma hash_Point_total p : exists h, hash_Point p = Ok h /\ word 64 h.
Proof using HPL. rewrite hash_Point_tuple. apply hash_total, point_ok. Qed.

Lemma leaf_ok v : local_ok v -> parts v = [] -> value_ok v.
Proof using. intros Hl Hp. constructor; [done|]. rewrite Hp. intros ? []%elem_of_nil. Qed.

Lemma hash_ptr_total e : exists h, hash_ptr e = Ok h /\ word 64 h.
Proof using HPL. by apply hash_total, leaf_ok. Qed.

Lemma hash_char_total ch : exists h, hash_char ch = Ok h /\ word 64 h.
Proof using HPL. apply hash_total, leaf_ok; [by left|done]. Qed.

Lemma string_bytes_ok s : Forall byte_ok (string_bytes s).
Proof using.
  apply Forall_forall. intros b Hb. apply list_elem_of_fmap in Hb as (c & -> & _).
  pose proof (Ascii.nat_ascii_bounded c). unfold byte_ok, word. cbn. lia.
Qed.

Lemma StringHash_total s : Z.of_nat (String.length s) < 2 ^ 63 -> exists h, StringHash s = Ok h /\ word 64 h.
Proof using HPL.
  intros Hs. apply hash_total, leaf_ok; [|done]. split; [apply string_bytes_ok|].
  unfold string_bytes. rewrite length_fmap.
  assert (Hlen : forall s, length (String.list_ascii_of_string s) = String.length s)
    by (clear; induction s as [|c s IH]; [done|cbn; by rewrite IH]).
  by rewrite Hlen.
Qed.

Lemma size_t_of_word (v : HashValues.value) : word 64 (size_t_of (hash v)).
Proof using HPL.
  assert (Hw : forall z, word 64 (to_size_t z)).
  { intros z. unfold to_size_t, word, size_bits. pose proof (Z.mod_pos_bound z (2 ^ (8 * sizeof_size_t))).
    destruct size_t_4_or_8 as [E|E]; rewrite E in *; cbn in *; lia. }
  assert (Hz : word 64 0) by done.
  unfold hash. destruct v; cbn [size_t_of]; try apply Hw; (match goal with |- context [rbind ?m _] => destruct m end); cbn; auto.
Qed.

#[local] Existing Instances point_traits pointer_traits char_traits.

Lemma point_laws : KeyLaws Point.
Proof using HPL.
  split; [|by intros; cbn; rewrite Point.eqb_eq].
  intros p. cbn. rewrite hash_Point_tuple. apply size_t_of_word.
Qed.

Lemma pointer_laws : KeyLaws loc.
Proof using HPL HAL.
  split; [intros e; apply size_t_of_word|]. intros a b. cbn. unfold eq_ptr. rewrite Z.eqb_eq.
  split; [apply address_inj|by intros ->].
Qed.

Lemma char_laws : KeyLaws Z.
Proof using HPL. split; [intros c; apply size_t_of_word|apply Z.eqb_eq]. Qed.

Lemma string_laws slot : @KeyLaws string (string_traits slot).
Proof using HPL. split; [intros s; apply size_t_of_word|intros a b; apply String.eqb_eq]. Qed.
End laws.
