(* ===== verification/GameTables.v ===== *)
(** * GameTables: the game on its hash tables (src/game.h, src/game.cpp, src/entity.cpp)

    Board.v and Entity.v model the maps of the game as finite maps. Here the
    operations of [Board] and the static tables are written as the code has
    them, on [flat_hash_map]: lookups give positions, assignments go through
    positions, [operator[]] constructs a null pointer where the key is
    missing, and moving out of a [unique_ptr] leaves a null pointer. An owner
    ([OwnedEntity], [std::unique_ptr<Vision>]) is an [option], null is [None];
    the [Vision] is stored with its only owner.

    GameTablesSpec.v relates the two. *)

From S2P Require Import Prelude.
From S2P Require Import Base.
From S2P Require Import Geo.
From S2P Require Import Fov.
From S2P Require Import Entity.
From S2P Require Import Timers.
From S2P Require Import Board.
From S2P Require Import Word.
From S2P Require Import Hash.
From S2P Require Import HashValues.
From S2P Require Import BitMask.
From S2P Require Import Group.
From S2P Require Import Capacity.
From S2P Require Import Probe.
From S2P Require Import Table.
From S2P Require Import FlatMap.
From S2P Require Import GameKeys.
From S2P Require Import TableRep.
From S2P Require Import TableFind.
From S2P Require Import TableBulk.
From S2P Require Import FlatMapStore.

#[local] Existing Instances point_traits pointer_traits char_traits.

Abbreviation OwnedEntity := (option loc).
Abbreviation OwnedVision := (option Vision).

(** ** Positions *)

Section positions.
Context `{HG : Group} `{HB : Build} `{HM : Memory}.
Context {K M : Type} `{HK : KeyTraits K}.

(** [it->second] of an iterator that is not [end()]. *)
Definition second (c : common_fields (K * M)) (i : Z) : result M :=
  let* kv := element (slots_ c) i in Ok (value kv).
End positions.

(** ** Board *)

Module Hashed.
Record t := mk {
  m_fov : FOV.t;
  m_entityIndex : nat;
  m_map : Matrix Tile;
  m_entities : list loc;
  m_entityAtPos : common_fields (Point * OwnedEntity);
  m_vision : common_fields (loc * OwnedVision) }.

Definition with_index (b : t) i := mk (m_fov b) i (m_map b) (m_entities b) (m_entityAtPos b) (m_vision b).
Definition with_map (b : t) m := mk (m_fov b) (m_entityIndex b) m (m_entities b) (m_entityAtPos b) (m_vision b).
Definition with_entities (b : t) es at_pos := mk (m_fov b) (m_entityIndex b) (m_map b) es at_pos (m_vision b).
Definition with_vision (b : t) v := mk (m_fov b) (m_entityIndex b) (m_map b) (m_entities b) (m_entityAtPos b) v.

Section board.
Context `{HG : Group} `{HB : Build} `{HM : Memory} `{HPlat : Platform} `{HAbi : Abi}.

Definition make (size : Point) (w : World) : result (t * World) :=
  let* fov := FOV.make kFOVRadius in
  let* tile := tileType ch_hash in
  let* map := Matrix.make size tile in
  let* r := raw_hash_set_ctor 0 w in
  let '(at_pos, w) := r in
  let* r := raw_hash_set_ctor 0 w in
  let '(vision, w) := r in
  Ok (mk fov 0 map [] at_pos vision, w).

Definition getTile (b : t) (p : Point) : Tile := Matrix.get (m_map b) p.

Definition getStatus (b : t) (p : Point) : result Status :=
  if has_flag (getTile b p) FlagBlocked then Ok Blocked else
  let* found := contains (m_entityAtPos b) p in
  if found then Ok Occupied else Ok Free.

Definition getActiveEntity (b : t) : result loc :=
  cpp_assert (m_entityIndex b <? length (m_entities b))%nat
    (deref (m_entities b !! m_entityIndex b)).

Definition getEntity (b : t) (p : Point) : result (option loc) :=
  let* it := find (m_entityAtPos b) p in
  match it with
  | Some i => second (m_entityAtPos b) i
  | None => Ok None
  end.

Definition clearAllTiles (b : t) : result t :=
  let* tile := tileType ch_dot in
  Ok (with_map b (Matrix.fill (m_map b) tile)).

(** A null [target] is [None]. *)
Definition dirtyVision (b : t) (e : loc) (target : option Point) : result t :=
  let* it := find (m_vision b) e in
  match it with
  | None => Ok b
  | Some i =>
      let* owner := second (m_vision b) i in
      let* v := deref owner in
      if dirty v then Ok b else
      if (match target with Some p => negb (Board.canSee v p) | None => false end) then Ok b else
      let* vision := assign_value (m_vision b) i (Some (mkVision (Board.offset v) true (visibility v))) in
      Ok (with_vision b vision)
  end.

Definition setTile (b : t) (p : Point) (tile : Tile) : result t :=
  if negb (Matrix.contains (m_map b) p) then Ok b else
  let prev := Matrix.get (m_map b) p in
  let b := with_map b (Matrix.set (m_map b) p tile) in
  let mask := Z.lor FlagBlocked FlagObscure in
  let dirty := negb (Z.land (flags prev) mask =? Z.land (flags tile) mask) in
  if dirty
  then foldM (fun b entity => dirtyVision b entity (Some p)) b (m_entities b)
  else Ok b.

Definition addEntity (h : heap) (b : t) (e : loc) (w : World) : result (t * World) :=
  let es := m_entities b ++ [e] in
  let* entity := deref (h !! e) in
  let* r := subscript None (m_entityAtPos b) (pos entity) w in
  let '(i, entry, at_pos, w) := r in
  cpp_assert (bool_decide (entry = None)) (
  let* at_pos := assign_value at_pos i (Some e) in
  Ok (with_entities b es at_pos, w)).

Definition moveEntity (h : heap) (b : t) (e : loc) (to : Point) (w : World) : result (heap * t * World) :=
  let* entity := deref (h !! e) in
  let* it := find (m_entityAtPos b) (pos entity) in
  cpp_assert (bool_decide (it <> None)) (
  let* i := deref it in
  let* owner := second (m_entityAtPos b) i in
  cpp_assert (bool_decide (owner = Some e)) (
  let source := owner in
  let* at_pos := assign_value (m_entityAtPos b) i None in
  let* at_pos := erase_at at_pos i in
  let* r := subscript None at_pos to w in
  let '(j, target, at_pos, w) := r in
  cpp_assert (bool_decide (target = None)) (
  let* at_pos := assign_value at_pos j source in
  let* target := deref source in
  let* object := deref (h !! target) in
  let h := <[target := set_pos object to]> h in
  let* b := dirtyVision (with_entities b (m_entities b) at_pos) e None in
  Ok (h, b, w)))).

(** Erasing the entry destroys the object: the entry is its only owner. *)
Definition removeEntity (h : heap) (b : t) (e : loc) : result (heap * t) :=
  let* entity := deref (h !! e) in
  let* it := find (m_entityAtPos b) (pos entity) in
  cpp_assert (bool_decide (it <> None)) (
  let* i := deref it in
  let* owner := second (m_entityAtPos b) i in
  cpp_assert (bool_decide (owner = Some e)) (
  let* at_pos := erase_at (m_entityAtPos b) i in
  let* r := erase (m_vision b) e in
  let '(_, vision) := r in
  Ok (delete e h, with_vision (with_entities b (m_entities b) at_pos) vision))).

Definition advanceEntity (h : heap) (b : t) : result (heap * t) :=
  let* e := getActiveEntity b in
  let* entity := deref (h !! e) in
  let* entity := charge entity in
  let h := <[e := entity]> h in
  let i := S (m_entityIndex b) in
  Ok (h, with_index b (if (length (m_entities b) <=? i)%nat then O else i)).

(** [result.reset(new Vision{})] where the entry is null. *)
Definition vision_entry (vision : common_fields (loc * OwnedVision)) (i : Z) (owner : OwnedVision) :
    result (common_fields (loc * OwnedVision) * Vision) :=
  match owner with
  | Some v => Ok (vision, v)
  | None =>
      let side := 2 * kFOVRadius + 1 in
      let* m := Matrix.make (Point.mk side side) (-1) in
      let v := mkVision (Point.mk 0 0) true m in
      let* vision := assign_value vision i (Some v) in Ok (vision, v)
  end.

Definition getVision (h : heap) (b : t) (e : loc) (w : World) : result (t * Vision * World) :=
  let* r := subscript None (m_vision b) e w in
  let '(i, owner, vision, w) := r in
  let* r := vision_entry vision i owner in
  let '(vision, result) := r in
  if dirty result then
    let* entity := deref (h !! e) in
    let pos := pos entity in
    let offset := Point.sub Board.radius_point pos in
    let map := Matrix.fill (visibility result) (-1) in
    let* map := FOV.fieldOfVision (m_fov b) (Board.vision_step (m_map b) pos offset) map in
    let result := mkVision offset false map in
    let* vision := assign_value vision i (Some result) in
    Ok (with_vision b vision, result, w)
  else Ok (with_vision b vision, result, w).

Definition visibilityAt (h : heap) (b : t) (e : loc) (p : Point) (w : World) : result (t * Z * World) :=
  let* r := getVision h b e w in
  let '(b, v, w) := r in Ok (b, Board.visibilityAt v p, w).
Definition canSee (h : heap) (b : t) (e : loc) (p : Point) (w : World) : result (t * bool * World) :=
  let* r := getVision h b e w in
  let '(b, v, w) := r in Ok (b, Board.canSee v p, w).
End board.
End Hashed.

(** ** The static tables *)

Section tables.
Context `{HG : Group} `{HB : Build} `{HM : Memory} `{HPlat : Platform} `{HAbi : Abi}.

(** [tileType]: the table is constructed from an initializer list. *)
Definition tile_entries : list (Z * Tile) :=
  [ (ch_dot, mkTile (Wide_ ch_dot) FlagNone "grass");
    (ch_quote, mkTile (Wide ch_quote 561) FlagObscure "tall grass");
    (ch_hash, mkTile (Wide ch_hash 16) FlagBlocked "a tree") ].
Definition hashed_tile_table (w : World) : result (common_fields (Z * Tile) * World) :=
  raw_hash_set_range tile_entries 0 w.
Definition hashed_tileType (ch : Z) (w : World) : result Tile :=
  let* r := hashed_tile_table w in
  let '(result, _) := r in at_ result ch.

(** [getAttack]: [operator[]] makes a null attack that is assigned. *)
Definition hashed_attack_table (w : World) : result (common_fields (string * Attack) * World) :=
  let _ := string_traits attack_slot in
  let* r := raw_hash_set_ctor 0 w in
  foldM (fun '(result, w) attack => subscript_assign (mkAttack EmptyString 0 0) result (attack_name attack) attack w) r attack_list.
Definition hashed_getAttack (name : string) (w : World) : result Attack :=
  let _ := string_traits attack_slot in
  let* r := hashed_attack_table w in
  let '(result, _) := r in at_ result name.

(** [getSpecies]. The table of attacks is a static variable: it is constructed
    once, in the memory [w0], and its contents do not change. *)
Definition hashed_getAttacks (names : list string) (w : World) : result Attacks :=
  let res := replicate 4 None in
  cpp_assert (length names <=? length res)%nat (
  foldM (fun res i =>
      let* name := deref (names !! i) in
      let* a := hashed_getAttack name w in
      Ok (<[i := Some a]> res)) res (seq 0 (length names))).
Definition hashed_species_table (w0 w : World) : result (common_fields (string * (PokemonSpeciesData * Attacks)) * World) :=
  let _ := string_traits species_slot in
  let* r := raw_hash_set_ctor 0 w in
  foldM (fun '(result, w) '(species, attacks) =>
    let* attacks := hashed_getAttacks attacks w0 in
    let data := (species, attacks) in
    let* r := emplace result (species_name species, data) w in
    let '(_, _, result, w) := r in Ok (result, w)) r species_list.
Definition hashed_getSpecies (name : string) (w0 w : World) : result (PokemonSpeciesData * Attacks) :=
  let _ := string_traits species_slot in
  let* r := hashed_species_table w0 w in
  let '(result, _) := r in at_ result name.
End tables.

(** * the board on hash tables refines the board (lemmas for GameTables.v)

    [related W b a]: the board [b] of GameTables.v holds what the board [a] of
    Board.v holds, and at most [W] insertions have been spent on its tables.
    Each operation takes related boards to related boards, and fails where the
    other fails, in the same way. *)

#[local] Existing Instances point_traits pointer_traits point_laws pointer_laws.

Section refinement.
Context {HG : Group} {HL : GroupLaws} {HB : Build} {HM : Memory} {HML : MemoryLaws}.
Context {HPlat : Platform} {HPL : PlatformLaws} {HAbi : Abi} {HAL : AbiLaws}.

Record related (W : Z) (b : Hashed.t) (a : Board) : Prop := {
  rel_fov : Hashed.m_fov b = Board.m_fov a;
  rel_index : Hashed.m_entityIndex b = Board.m_entityIndex a;
  rel_map : Hashed.m_map b = Board.m_map a;
  rel_entities : Hashed.m_entities b = Board.m_entities a;
  rel_pos : stores W (Hashed.m_entityAtPos b) (Some <$> Board.m_entityAtPos a);
  rel_vision : stores W (Hashed.m_vision b) (Some <$> Board.m_vision a) }.

Lemma related_mono W W' b a : related W b a -> W <= W' -> related W' b a.
Proof using. intros [] HW. split; try done; by apply (stores_mono W). Qed.

Lemma related_vision W b a vision v : related W b a -> stores W vision (Some <$> v) ->
  related W (Hashed.with_vision b vision) (Board.with_vision a v).
Proof using. by intros [] ?. Qed.

Lemma related_entities W b a es at_pos m : related W b a -> stores W at_pos (Some <$> m) ->
  related W (Hashed.with_entities b es at_pos) (Board.with_entities a es m).
Proof using. by intros [] ?. Qed.

Lemma related_map W b a m : related W b a -> related W (Hashed.with_map b m) (Board.with_map a m).
Proof using. by intros []. Qed.

(** A position and its owner. *)
Lemma second_at {K M} `{KeyTraits K} (t : common_fields (K * M)) i k v : at_position t i k v -> second t i = Ok v.
Proof using. intros [_ He]. unfold second. by rewrite He. Qed.

Lemma find_owned {K M} `{Countable K} `{KeyLaws K} W (t : common_fields (K * option M)) (m : gmap K M) k :
  stores W t (Some <$> m) ->
  match m !! k with
  | Some v => exists i, find t k = Ok (Some i) /\ at_position t i k (Some v)
  | None => find t k = Ok None
  end.
Proof using HL.
  intros Hs. pose proof (find_stored W t _ k Hs) as Hf. rewrite lookup_fmap in Hf. by destruct (m !! k).
Qed.

Lemma default_owned {K M} `{Countable K} (m : gmap K M) k : default None ((Some <$> m) !! k) = m !! k.
Proof using. rewrite lookup_fmap. by destruct (m !! k). Qed.

(** ** Reads *)

Lemma getTile_related W b a p : related W b a -> Hashed.getTile b p = Board.getTile a p.
Proof using. intros Hr. unfold Hashed.getTile. by rewrite (rel_map _ _ _ Hr). Qed.

Lemma getStatus_related W b a p : related W b a -> Hashed.getStatus b p = Ok (Board.getStatus a p).
Proof using HL HPL.
  intros Hr. unfold Hashed.getStatus, Board.getStatus. rewrite (getTile_related W b a p Hr). destruct (has_flag _ _); [done|].
  rewrite (contains_stored W _ _ _ (rel_pos _ _ _ Hr)), lookup_fmap. cbn [rbind].
  by destruct (Board.m_entityAtPos a !! p).
Qed.

Lemma getEntity_related W b a p : related W b a -> Hashed.getEntity b p = Ok (Board.getEntity a p).
Proof using HL HPL.
  intros Hr. unfold Hashed.getEntity, Board.getEntity. pose proof (find_owned W _ _ p (rel_pos _ _ _ Hr)) as Hf.
  destruct (Board.m_entityAtPos a !! p) as [e|]; [|by rewrite Hf].
  destruct Hf as (i & -> & Hi). cbn [rbind]. exact (second_at _ _ _ _ Hi).
Qed.

Lemma getActiveEntity_related W b a : related W b a -> Hashed.getActiveEntity b = Board.getActiveEntity a.
Proof using. intros [_ Hi _ He _ _]. unfold Hashed.getActiveEntity. by rewrite Hi, He. Qed.

(** ** Visions *)

Lemma dirtyVision_refines W b a e target : related W b a ->
  refines (related W) (Hashed.dirtyVision b e target) (Ok (Board.dirtyVision a e target)).
Proof using HL HPL HAL.
  intros Hr. unfold Hashed.dirtyVision, Board.dirtyVision. pose proof (find_owned W _ _ e (rel_vision _ _ _ Hr)) as Hf.
  destruct (Board.m_vision a !! e) as [v|]; [|rewrite Hf; by apply refines_ok].
  destruct Hf as (i & -> & Hi). cbn [rbind]. rewrite (second_at _ _ _ _ Hi). cbn [rbind deref].
  destruct (dirty v); [by apply refines_ok|]. destruct (match target with Some p => _ | None => _ end); [by apply refines_ok|].
  destruct (assign_stored W _ _ _ _ _ (Some (mkVision (Board.offset v) true (visibility v))) (rel_vision _ _ _ Hr) Hi)
    as (t' & -> & Hs & _). cbn [rbind]. apply refines_ok, related_vision; [done|]. by rewrite fmap_insert.
Qed.

(** What [getVision] does with the entry that [operator[]] gave it. *)
Lemma vision_entry_refines W t mp e i owner : stores W t mp -> mp !! e = Some owner -> at_position t i e owner ->
  refines (fun '(t', v) v' => v = v' /\ stores W t' (<[e := Some v]> mp) /\ at_position t' i e (Some v))
    (Hashed.vision_entry t i owner)
    (match owner with
     | Some v => Ok v
     | None =>
         let side := 2 * kFOVRadius + 1 in
         let* m := Matrix.make (Point.mk side side) (-1) in
         Ok (mkVision (Point.mk 0 0) true m)
     end).
Proof using HPL HAL.
  intros Hs He Hi. unfold Hashed.vision_entry. destruct owner as [v|].
  - apply refines_ok. by rewrite insert_id.
  - apply refines_same. intros m _. cbn zeta.
    destruct (assign_stored W t mp i e None (Some (mkVision (Point.mk 0 0) true m)) Hs Hi) as (t' & -> & Hs' & Hi'). cbn [rbind].
    by apply refines_ok.
Qed.

Lemma getVision_refines W h b a e w : related W b a -> 0 <= W < 2 ^ 56 ->
  refines (fun '(b', v, _) '(a', v') => v = v' /\ related (W + 1) b' a') (Hashed.getVision h b e w) (Board.getVision h a e).
Proof using HL HPL HAL.
  intros Hr HW. unfold Hashed.getVision, Board.getVision.
  destruct (subscript_stored None W _ _ e w (rel_vision _ _ _ Hr) HW) as (i & t & w' & -> & Hs & Hi). cbn [rbind].
  rewrite default_owned in Hs, Hi. rewrite default_owned.
  assert (Hr' : related (W + 1) b a) by (apply (related_mono W); [done|lia]).
  eapply refines_bind; [exact (vision_entry_refines (W + 1) t _ e i _ Hs (lookup_insert_eq _ _ _) Hi)|].
  intros [t1 v] v' (<- & Hs1 & Hi1). rewrite insert_insert_eq, <- fmap_insert in Hs1.
  destruct (dirty v); [|apply refines_ok; split; [done|by apply related_vision]].
  apply refines_same. intros entity _. cbn zeta. rewrite (rel_fov _ _ _ Hr), (rel_map _ _ _ Hr).
  apply refines_same. intros m _.
  match goal with |- context [assign_value t1 i (Some ?v)] =>
    destruct (assign_stored _ _ _ _ _ _ (Some v) Hs1 Hi1) as (t2 & -> & Hs2 & _) end. cbn [rbind].
  apply refines_ok. split; [done|]. apply related_vision; [done|].
  rewrite <- fmap_insert, insert_insert_eq in Hs2. done.
Qed.

(** [canSee] and [visibilityAt] of an entity. *)
Lemma observe_refines {X} (f : Vision -> X) W h b a e w : related W b a -> 0 <= W < 2 ^ 56 ->
  refines (fun '(b', x, _) '(a', x') => x = x' /\ related (W + 1) b' a')
    (let* r := Hashed.getVision h b e w in let '(b, v, w) := r in Ok (b, f v, w))
    (let* r := Board.getVision h a e in let '(a, v) := r in Ok (a, f v)).
Proof using HL HPL HAL.
  intros Hr HW. eapply refines_bind; [by apply (getVision_refines W)|].
  intros [[b1 v] w1] [a1 v1] [-> H]. by apply refines_ok.
Qed.

(** ** Writes *)

Lemma clearAllTiles_refines W b a : related W b a ->
  refines (related W) (Hashed.clearAllTiles b) (Board.clearAllTiles a).
Proof using.
  intros Hr. unfold Hashed.clearAllTiles, Board.clearAllTiles. rewrite (rel_map _ _ _ Hr).
  apply refines_same. intros tile _. by apply refines_ok, related_map.
Qed.

Lemma setTile_refines W b a p tile : related W b a ->
  refines (related W) (Hashed.setTile b p tile) (Ok (Board.setTile a p tile)).
Proof using HL HPL HAL.
  intros Hr. unfold Hashed.setTile, Board.setTile. rewrite (rel_map _ _ _ Hr).
  destruct (negb (Matrix.contains _ _)); [by apply refines_ok|].
  set (m := Matrix.set _ _ _). cbn zeta. destruct (negb _); [|by apply refines_ok, related_map].
  cbn [Board.m_entities Board.with_map Hashed.m_entities Hashed.with_map]. rewrite (rel_entities _ _ _ Hr).
  apply (refines_foldM (related W)); [by apply related_map|]. intros x y e Hxy. by apply dirtyVision_refines.
Qed.

Lemma addEntity_refines W h b a e w : related W b a -> 0 <= W < 2 ^ 56 ->
  refines (fun '(b', _) a' => related (W + 1) b' a') (Hashed.addEntity h b e w) (Board.addEntity h a e).
Proof using HL HPL.
  intros Hr HW. unfold Hashed.addEntity, Board.addEntity. rewrite (rel_entities _ _ _ Hr). cbn zeta.
  apply refines_same. intros entity _.
  destruct (subscript_stored None W _ _ (pos entity) w (rel_pos _ _ _ Hr) HW) as (i & t & w' & -> & Hs & Hi). cbn [rbind].
  rewrite default_owned in *. apply refines_assert; [done|]. intros _.
  destruct (assign_stored _ _ _ _ _ _ (Some e) Hs Hi) as (t' & -> & Hs' & _). cbn [rbind].
  apply refines_ok, related_entities; [apply (related_mono W); [done|lia]|]. by rewrite insert_insert_eq, <- fmap_insert in Hs'.
Qed.

(** [find] and the two assertions at the head of [moveEntity] and
    [removeEntity]. *)
Lemma owner_checks {A B} (S : A -> B -> Prop) W b a p e (k : Z -> option loc -> result A) (k' : result B) :
  related W b a ->
  (forall i, Board.m_entityAtPos a !! p = Some e -> at_position (Hashed.m_entityAtPos b) i p (Some e) -> refines S (k i (Some e)) k') ->
  refines S
    (let* it := find (Hashed.m_entityAtPos b) p in
     cpp_assert (bool_decide (it <> None))
       (let* i := deref it in
        let* owner := second (Hashed.m_entityAtPos b) i in
        cpp_assert (bool_decide (owner = Some e)) (k i owner)))
    (let it := Board.m_entityAtPos a !! p in
     cpp_assert (bool_decide (is_Some it)) (cpp_assert (bool_decide (it = Some e)) k')).
Proof using HL HPL.
  intros Hr Hk. pose proof (find_owned W _ _ p (rel_pos _ _ _ Hr)) as Hf. cbn zeta.
  destruct (Board.m_entityAtPos a !! p) as [e'|]; [|by rewrite Hf].
  destruct Hf as (i & -> & Hi). cbn [rbind deref]. rewrite (second_at _ _ _ _ Hi). cbn [rbind].
  apply refines_assert; [done|]. intros _. apply refines_assert; [done|]. intros He%bool_decide_eq_true.
  injection He as ->. by apply Hk.
Qed.

Lemma moveEntity_refines W h b a e to w : related W b a -> 0 <= W < 2 ^ 56 ->
  refines (fun '(h', b', _) '(h'', a') => h' = h'' /\ related (W + 1) b' a')
    (Hashed.moveEntity h b e to w) (Board.moveEntity h a e to).
Proof using HL HPL HAL.
  intros Hr HW. unfold Hashed.moveEntity, Board.moveEntity. apply refines_same. intros entity Hentity.
  apply (owner_checks _ W b a); [done|]. intros i Ha Hi. cbn zeta.
  destruct (assign_stored W _ _ _ _ _ None (rel_pos _ _ _ Hr) Hi) as (t1 & -> & Hs1 & Hi1). cbn [rbind].
  destruct (erase_at_stored W _ _ _ _ _ Hs1 Hi1) as (t2 & -> & Hs2). cbn [rbind].
  rewrite delete_insert_eq, <- fmap_delete in Hs2.
  destruct (subscript_stored None W _ _ to w Hs2 HW) as (j & t3 & w' & -> & Hs3 & Hj). cbn [rbind].
  rewrite default_owned in *. apply refines_assert; [done|]. intros _.
  destruct (assign_stored _ _ _ _ _ _ (Some e) Hs3 Hj) as (t4 & -> & Hs4 & _). cbn [rbind deref]. rewrite Hentity. cbn [rbind].
  rewrite insert_insert_eq, <- fmap_insert in Hs4. rewrite (rel_entities _ _ _ Hr).
  apply (refines_bind (related (W + 1)) _ _ (Ok _) _ (fun a => Ok (_, a))).
  - apply dirtyVision_refines, related_entities; [apply (related_mono W); [done|lia]|exact Hs4].
  - intros x y Hxy. by apply refines_ok.
Qed.

Lemma removeEntity_refines W h b a e : related W b a ->
  refines (fun '(h', b') '(h'', a') => h' = h'' /\ related W b' a') (Hashed.removeEntity h b e) (Board.removeEntity h a e).
Proof using HL HPL HAL.
  intros Hr. unfold Hashed.removeEntity, Board.removeEntity. apply refines_same. intros entity _.
  apply (owner_checks _ W b a); [done|]. intros i Ha Hi. cbn zeta.
  destruct (erase_at_stored W _ _ _ _ _ (rel_pos _ _ _ Hr) Hi) as (t1 & -> & Hs1). cbn [rbind].
  destruct (erase_stored W _ _ e (rel_vision _ _ _ Hr)) as (n & t2 & -> & Hs2). cbn [rbind].
  rewrite <- fmap_delete in Hs1. rewrite <- fmap_delete in Hs2. rewrite (rel_entities _ _ _ Hr).
  apply refines_ok. split; [done|]. by apply related_vision; [apply related_entities|].
Qed.

Lemma advanceEntity_refines W h b a : related W b a ->
  refines (fun '(h', b') '(h'', a') => h' = h'' /\ related W b' a') (Hashed.advanceEntity h b) (Board.advanceEntity h a).
Proof using.
  intros Hr. unfold Hashed.advanceEntity, Board.advanceEntity. rewrite (getActiveEntity_related W b a Hr).
  destruct Hr as [? Hi ? He ? ?]. rewrite Hi, He.
  do 3 (apply refines_same; intros ? _). apply refines_ok. by split.
Qed.

(** ** The constructor *)

Lemma make_refines size w : refines (fun '(b, _) a => related 0 b a) (Hashed.make size w) (Board.make size).
Proof using HL HML HPL HAL.
  unfold Hashed.make, Board.make. do 3 (apply refines_same; intros ? _).
  destruct (constructed_stores (K := Point) (M := OwnedEntity) w) as (t & w1 & -> & Ht). cbn [rbind].
  destruct (constructed_stores (K := loc) (M := OwnedVision) w1) as (t' & w2 & -> & Ht'). cbn [rbind].
  apply refines_ok. split; try done; cbn; by rewrite fmap_empty.
Qed.
End refinement.
