(* ===== verification/GameTablesSpec.v ===== *)
(** * GameTablesSpec: the game's maps can be read as finite maps

    The board on hash tables behaves as the board of Board.v for any sequence
    of operations, and the static tables of tiles, attacks and species answer
    as the finite maps of Board.v and Entity.v do. The theorems about the game
    are stated on finite maps; with these they hold of the code on
    [flat_hash_map]. *)

From S2P Require Import Prelude.
From S2P Require Import Base.
From S2P Require Import Geo.
From S2P Require Import Fov.
From S2P Require Import Entity.
From S2P Require Import Timers.
From S2P Require Import Board.
From S2P Require Import Word.
From S2P Require Import Hash.
From S2P Require Import HashValues.
From S2P Require Import BitMask.
From S2P Require Import Group.
From S2P Require Import Capacity.
From S2P Require Import Probe.
From S2P Require Import Table.
From S2P Require Import TableRep.
From S2P Require Import TableFind.
From S2P Require Import TableBulk.
From S2P Require Import FlatMap.
From S2P Require Import FlatMapStore.
From S2P Require Import GameKeys.
From S2P Require Import GameTables.
From S2P Require TableSample.
#[local] Open Scope string_scope.

#[local] Existing Instances point_traits pointer_traits char_traits point_laws pointer_laws char_laws.

(** ** Sequences of operations *)

(** [Store e x] is not an operation of the board: the object at [e] is
    constructed, or its fields are written, by the code around it. *)
Inductive board_op :=
  | Store (e : loc) (x : Entity)
  | GetStatus (p : Point) | GetTile (p : Point) | GetActiveEntity | GetEntity (p : Point)
  | CanSee (e : loc) (p : Point) | VisibilityAt (e : loc) (p : Point) | GetVision (e : loc)
  | ClearAllTiles | SetTile (p : Point) (tile : Tile)
  | AddEntity (e : loc) | MoveEntity (e : loc) (to : Point) | RemoveEntity (e : loc) | AdvanceEntity.

Inductive board_answer :=
  | Nothing | AStatus (s : Status) | ATile (t : Tile) | AEntity (e : option loc)
  | ABool (b : bool) | AInt (z : Z) | AVision (v : Vision).

Definition step_board (op : board_op) (h : heap) (b : Board) : result (board_answer * heap * Board) :=
  match op with
  | Store e x => Ok (Nothing, <[e := x]> h, b)
  | GetStatus p => Ok (AStatus (Board.getStatus b p), h, b)
  | GetTile p => Ok (ATile (Board.getTile b p), h, b)
  | GetActiveEntity => let* e := Board.getActiveEntity b in Ok (AEntity (Some e), h, b)
  | GetEntity p => Ok (AEntity (Board.getEntity b p), h, b)
  | CanSee e p => let* r := Board.canSee_entity h b e p in let '(b, x) := r in Ok (ABool x, h, b)
  | VisibilityAt e p => let* r := Board.visibilityAt_entity h b e p in let '(b, x) := r in Ok (AInt x, h, b)
  | GetVision e => let* r := Board.getVision h b e in let '(b, v) := r in Ok (AVision v, h, b)
  | ClearAllTiles => let* b := Board.clearAllTiles b in Ok (Nothing, h, b)
  | SetTile p tile => Ok (Nothing, h, Board.setTile b p tile)
  | AddEntity e => let* b := Board.addEntity h b e in Ok (Nothing, h, b)
  | MoveEntity e to => let* r := Board.moveEntity h b e to in let '(h, b) := r in Ok (Nothing, h, b)
  | RemoveEntity e => let* r := Board.removeEntity h b e in let '(h, b) := r in Ok (Nothing, h, b)
  | AdvanceEntity => let* r := Board.advanceEntity h b in let '(h, b) := r in Ok (Nothing, h, b)
  end.

Fixpoint run_board (ops : list board_op) (h : heap) (b : Board) : result (list board_answer * heap * Board) :=
  match ops with
  | [] => Ok ([], h, b)
  | op :: ops =>
      let* r := step_board op h b in
      let '(x, h, b) := r in
      let* r := run_board ops h b in
      let '(l, h, b) := r in Ok (x :: l, h, b)
  end.

Section spec.
Context {HG : Group} {HL : GroupLaws} {HB : Build} {HM : Memory} {HML : MemoryLaws}.
Context {HPlat : Platform} {HPL : PlatformLaws} {HAbi : Abi} {HAL : AbiLaws}.

(** The same operations on the hash tables. *)
Definition step_hashed (op : board_op) (h : heap) (b : Hashed.t) (w : World) :
    result (board_answer * heap * Hashed.t * World) :=
  match op with
  | Store e x => Ok (Nothing, <[e := x]> h, b, w)
  | GetStatus p => let* s := Hashed.getStatus b p in Ok (AStatus s, h, b, w)
  | GetTile p => Ok (ATile (Hashed.getTile b p), h, b, w)
  | GetActiveEntity => let* e := Hashed.getActiveEntity b in Ok (AEntity (Some e), h, b, w)
  | GetEntity p => let* e := Hashed.getEntity b p in Ok (AEntity e, h, b, w)
  | CanSee e p => let* r := Hashed.canSee h b e p w in let '(b, x, w) := r in Ok (ABool x, h, b, w)
  | VisibilityAt e p => let* r := Hashed.visibilityAt h b e p w in let '(b, x, w) := r in Ok (AInt x, h, b, w)
  | GetVision e => let* r := Hashed.getVision h b e w in let '(b, v, w) := r in Ok (AVision v, h, b, w)
  | ClearAllTiles => let* b := Hashed.clearAllTiles b in Ok (Nothing, h, b, w)
  | SetTile p tile => let* b := Hashed.setTile b p tile in Ok (Nothing, h, b, w)
  | AddEntity e => let* r := Hashed.addEntity h b e w in let '(b, w) := r in Ok (Nothing, h, b, w)
  | MoveEntity e to => let* r := Hashed.moveEntity h b e to w in let '(h, b, w) := r in Ok (Nothing, h, b, w)
  | RemoveEntity e => let* r := Hashed.removeEntity h b e in let '(h, b) := r in Ok (Nothing, h, b, w)
  | AdvanceEntity => let* r := Hashed.advanceEntity h b in let '(h, b) := r in Ok (Nothing, h, b, w)
  end.

Fixpoint run_hashed (ops : list board_op) (h : heap) (b : Hashed.t) (w : World) :
    result (list board_answer * heap * Hashed.t * World) :=
  match ops with
  | [] => Ok ([], h, b, w)
  | op :: ops =>
      let* r := step_hashed op h b w in
      let '(x, h, b, w) := r in
      let* r := run_hashed ops h b w in
      let '(l, h, b, w) := r in Ok (x :: l, h, b, w)
  end.

(** Equal answers and heaps, related boards. *)
Definition same_outcome {X} (W : Z) (c : X * heap * Hashed.t * World) (a : X * heap * Board) : Prop :=
  let '(x, h, b, _) := c in let '(x', h', b') := a in x = x' /\ h = h' /\ related W b b'.

Lemma step_hashed_refines W op h b a w : related W b a -> 0 <= W < 2 ^ 56 ->
  refines (same_outcome (W + 1)) (step_hashed op h b w) (step_board op h a).
Proof using HL HPL HAL.
  intros Hr HW. assert (Hr' : related (W + 1) b a) by (apply (related_mono W); [done|lia]).
  destruct op; cbn [step_hashed step_board].
  - by apply refines_ok.
  - rewrite (getStatus_related W b a p Hr). by apply refines_ok.
  - rewrite (getTile_related W b a p Hr). by apply refines_ok.
  - rewrite (getActiveEntity_related W b a Hr). apply refines_same. intros e _. by apply refines_ok.
  - rewrite (getEntity_related W b a p Hr). by apply refines_ok.
  - eapply refines_bind; [by apply (observe_refines (fun v => Board.canSee v p) W)|].
    intros [[b1 x] w1] [a1 y] [-> H]. by apply refines_ok.
  - eapply refines_bind; [by apply (observe_refines (fun v => Board.visibilityAt v p) W)|].
    intros [[b1 x] w1] [a1 y] [-> H]. by apply refines_ok.
  - eapply refines_bind; [by apply (getVision_refines W)|]. intros [[b1 v] w1] [a1 v1] [-> H]. by apply refines_ok.
  - eapply refines_bind; [by apply (clearAllTiles_refines (W + 1))|]. intros b1 a1 H. by apply refines_ok.
  - apply (refines_bind (related (W + 1)) _ _ (Ok _) _ (fun a => Ok (_, _, a))); [by apply setTile_refines|].
    intros b1 a1 H. by apply refines_ok.
  - eapply refines_bind; [by apply (addEntity_refines W)|]. intros [b1 w1] a1 H. by apply refines_ok.
  - eapply refines_bind; [by apply (moveEntity_refines W)|]. intros [[h1 b1] w1] [h2 a1] [-> H]. by apply refines_ok.
  - eapply refines_bind; [by apply (removeEntity_refines (W + 1))|]. intros [h1 b1] [h2 a1] [-> H]. by apply refines_ok.
  - eapply refines_bind; [by apply (advanceEntity_refines (W + 1))|]. intros [h1 b1] [h2 a1] [-> H]. by apply refines_ok.
Qed.

Lemma run_hashed_refines ops : forall W h b a w, related W b a -> 0 <= W -> W + Z.of_nat (length ops) < 2 ^ 56 ->
  refines (same_outcome (W + Z.of_nat (length ops))) (run_hashed ops h b w) (run_board ops h a).
Proof using HL HPL HAL.
  induction ops as [|op ops IH]; intros W h b a w Hr HW Hl; cbn [run_hashed run_board length] in *.
  - apply refines_ok. by rewrite Z.add_0_r.
  - eapply refines_bind; [apply (step_hashed_refines W); [done|lia]|].
    intros [[[x h1] b1] w1] [[x' h1'] a1] (-> & -> & Hr1).
    eapply refines_bind; [by apply (IH (W + 1)); [|lia..]|].
    intros [[[l h2] b2] w2] [[l' h2'] a2] (-> & -> & Hr2). apply refines_ok.
    by replace (W + Z.of_nat (S (length ops))) with (W + 1 + Z.of_nat (length ops)) by lia.
Qed.

(** C5: the board of the code, whose entities and visions are in
    [flat_hash_map]s with the hash functions of points and pointers, refines
    the board on finite maps that the other theorems are about. For any map
    size and any sequence of at most 2^56 operations, with objects constructed
    and written in between, it answers the same, leaves the same objects and
    holds the same entries; where an assertion fails, an element is missing or
    a dangling object is used, it fails at the same operation in the same
    way, and nowhere else. In particular [moveEntity], which moves the owner
    out of its slot, erases the slot and constructs another that may grow the
    table, loses no entity and leaves no null owner behind. This is so for any
    addresses of the objects and of the arrays. *)
Theorem board_on_hash_tables size ops h w : Z.of_nat (length ops) < 2 ^ 56 ->
  refines (same_outcome (Z.of_nat (length ops)))
    (let* r := Hashed.make size w in let '(b, w) := r in run_hashed ops h b w)
    (let* a := Board.make size in run_board ops h a).
Proof using HL HML HPL HAL.
  intros Hl. eapply refines_bind; [by apply make_refines|]. intros [b w1] a Hr. by apply (run_hashed_refines ops 0).
Qed.

(** ** The static tables *)

Lemma tile_table_new : foldl insert_new ∅ tile_entries = tile_table.
Proof using. by vm_compute. Qed.

Lemma getAttack_hashed name w : hashed_getAttack name w = getAttack name.
Proof using HL HML HPL.
  unfold hashed_getAttack, hashed_attack_table. cbn zeta.
  destruct (constructed_stores (HK := string_traits attack_slot) (M := Attack) w) as (t & w1 & -> & Hs). cbn [rbind].
  destruct (assign_all_stored (HKL := string_laws attack_slot) (mkAttack EmptyString 0 0) attack_name (fun a => a) attack_list 0 t ∅ w1 Hs) as (t' & w' & -> & Hs');
    [done|done|]. cbn [rbind]. by rewrite (at_stored (HKL := string_laws attack_slot) _ _ _ _ Hs').
Qed.

Lemma getAttacks_hashed names w : hashed_getAttacks names w = getAttacks names.
Proof using HL HML HPL.
  unfold hashed_getAttacks, getAttacks. cbn zeta. f_equal. generalize (replicate 4 (@None Attack)). generalize (seq 0 (length names)).
  induction l as [|i l IH]; intros res; [done|]. cbn [foldM]. destruct (deref (names !! i)) as [name|]; [|done]. cbn [rbind].
  rewrite getAttack_hashed. destruct (getAttack name); [apply IH|done].
Qed.

(** The loop of [getSpecies]. *)
Lemma species_loop w0 l : forall W t mp w, stores (HK := string_traits species_slot) W t mp -> 0 <= W ->
  W + Z.of_nat (length l) < 2 ^ 56 ->
  let _ := string_traits species_slot in
  refines (fun '(t, _) m => stores (W + Z.of_nat (length l)) t m)
    (foldM (fun '(result, w) '(species, attacks) =>
       let* attacks := hashed_getAttacks attacks w0 in
       let data := (species, attacks) in
       let* r := emplace result (species_name species, data) w in
       let '(_, _, result, w) := r in Ok (result, w)) (t, w) l)
    (foldM (fun res '(species, attacks) =>
       let* attacks := getAttacks attacks in
       let data := (species, attacks) in
       Ok (match res !! species_name species with
           | Some _ => res
           | None => <[species_name species := data]> res
           end)) mp l).
Proof using HL HML HPL.
  cbn zeta. induction l as [|[sp names] l IH]; intros W t mp w Hs HW Hl; cbn [foldM length] in *.
  - apply refines_ok. by rewrite Z.add_0_r.
  - rewrite getAttacks_hashed. destruct (getAttacks names) as [attacks|e]; [|done]. cbn [rbind].
    destruct (emplace_stored (HKL := string_laws species_slot) W t mp (species_name sp) (sp, attacks) w Hs ltac:(lia))
      as (i & b & t' & w' & -> & Hs'). cbn [rbind].
    replace (W + Z.of_nat (S (length l))) with (W + 1 + Z.of_nat (length l)) by lia. apply IH; [|lia..].
    destruct (mp !! species_name sp) as [v|] eqn:E; [|done]. by rewrite insert_id in Hs'.
Qed.

Lemma getSpecies_hashed name w0 w : hashed_getSpecies name w0 w = getSpecies name.
Proof using HL HML HPL.
  unfold hashed_getSpecies, getSpecies, hashed_species_table, species_table. cbn zeta.
  destruct (constructed_stores (HK := string_traits species_slot) (M := PokemonSpeciesData * Attacks) w) as (t & w1 & -> & Hs). cbn [rbind].
  pose proof (species_loop w0 species_list 0 t ∅ w1 Hs ltac:(done) ltac:(done)) as Hl. cbn zeta in Hl. unfold refines in Hl.
  destruct (foldM _ ∅ species_list) as [m|e]; [|by rewrite Hl].
  destruct Hl as ([t' w'] & -> & Hs'). cbn [rbind]. by apply (at_stored (HKL := string_laws species_slot) _ _ _ _ Hs').
Qed.

Lemma tileType_hashed ch w : hashed_tileType ch w = tileType ch.
Proof using HL HML HPL.
  unfold hashed_tileType, hashed_tile_table. destruct (range_holds tile_entries w ltac:(done)) as (t & w' & -> & Ht). cbn [rbind].
  rewrite (at_ok t _ ch Ht). by rewrite tile_table_new.
Qed.

(** the static hash tables of tiles, attacks and species, constructed from
    an initializer list, by assigning through [operator[]] and by [emplace],
    answer every lookup as the finite maps of the model do, errors included:
    an unknown key is [std::out_of_range]. *)
Theorem static_tables_lookup :
  (forall ch w, hashed_tileType ch w = tileType ch) /\
  (forall name w, hashed_getAttack name w = getAttack name) /\
  (forall names w, hashed_getAttacks names w = getAttacks names) /\
  (forall name w0 w, hashed_getSpecies name w0 w = getSpecies name).
Proof using HL HML HPL.
  split; [exact tileType_hashed|]. split; [exact getAttack_hashed|]. split; [exact getAttacks_hashed|exact getSpecies_hashed].
Qed.
End spec.

(** ** Witnesses *)

Import TableSample.

#[local] Instance sample_abi : Abi := {
  address e := 16 * Z.pos e; tile_slot := (80, 8); attack_slot := (72, 8); species_slot := (120, 8)
}.

#[local] Instance sample_abi_laws : AbiLaws.
Proof. constructor. intros a b Hab. cbn in Hab. lia. Defined.

#[local] Existing Instances Sample.platform Sample.laws.

(** An entity is added, moved and removed. *)
Definition sample_ops : list board_op :=
  [ClearAllTiles; Store 1%positive (Trainer_ctor "Red" (Point.mk 1 1) true 8 kTrainerSpeed); AddEntity 1%positive;
   GetStatus (Point.mk 1 1); MoveEntity 1%positive (Point.mk 2 1); GetStatus (Point.mk 1 1); GetEntity (Point.mk 2 1);
   AdvanceEntity; RemoveEntity 1%positive; GetEntity (Point.mk 2 1)].

Definition sample_answers : list board_answer :=
  [Nothing; Nothing; Nothing; AStatus Occupied; Nothing; AStatus Free; AEntity (Some 1%positive); Nothing; Nothing; AEntity None].

Lemma answers_ok {X Y Z} (r : result (X * Y * Z)) (l : X) :
  match r with Ok (l', _, _) => l' = l | Err _ => False end -> exists h a, r = Ok (l, h, a).
Proof. destruct r as [[[l' h] a]|]; [|done]. intros <-. by exists h, a. Qed.

Lemma board_on_hash_tables_witness :
  exists h b w, (let* r := Hashed.make (Point.mk 4 4) sample_world in let '(b, w) := r in run_hashed sample_ops ∅ b w) =
    Ok (sample_answers, h, b, w).
Proof.
  destruct (answers_ok (let* a := Board.make (Point.mk 4 4) in run_board sample_ops ∅ a) sample_answers) as (h & a & Ha);
    [vm_compute; reflexivity|].
  destruct (refines_inv _ _ _ _ (board_on_hash_tables (Point.mk 4 4) sample_ops ∅ sample_world ltac:(done)) Ha)
    as ([[[l h'] b] w] & Hrun & Hl & _).
  exists h', b, w. rewrite Hrun, Hl. reflexivity.
Defined.

Lemma static_tables_lookup_witness :
  hashed_tileType ch_quote sample_world = Ok (mkTile (Wide ch_quote 561) FlagObscure "tall grass") /\
  hashed_getAttack "Surf" sample_world = Err OutOfRange.
Proof.
  destruct static_tables_lookup as (Ht & Ha & _). rewrite Ht, Ha. split; by vm_compute.
Defined.
