(* ===== verification/Int64.v ===== *)
(** * Int64: signed 64-bit integers whose overflow is undefined

    The code of src/abseil-cpp/absl/time computes with [int64_t]; each sum,
    difference, product and negation is checked here, and a result that does
    not fit is [Err Undefined]. A quotient by a constant always fits. *)

From S2P Require Import Prelude.
From S2P Require Import Word.

Definition int64_min : Z := - 2 ^ 63.
Definition int64_max : Z := 2 ^ 63 - 1.

Definition in_i64 (z : Z) : Prop := - 2 ^ 63 <= z < 2 ^ 63.

#[export] Instance in_i64_dec z : Decision (in_i64 z).
Proof. unfold in_i64. apply _. Defined.

(** The value of an operation on [int64_t]. *)
Definition i64 (z : Z) : result Z :=
  if (- 2 ^ 63 <=? z) && (z <? 2 ^ 63) then Ok z else Err Undefined.

(** [/] and [%] of two variables: also undefined for a zero divisor and for
    the quotient of the least integer by -1. *)
Definition quot_i64 (a b : Z) : result Z := if b =? 0 then Err Undefined else i64 (Z.quot a b).
Definition rem_i64 (a b : Z) : result Z :=
  if b =? 0 then Err Undefined else let* _ := i64 (Z.quot a b) in Ok (Z.rem a b).

(** [static_cast<int64_t>] of an unsigned integer. *)
Definition to_i64 (z : Z) : Z := signed 64 z.

Lemma i64_ok z : in_i64 z -> i64 z = Ok z.
Proof.
  intros [? ?]. unfold i64. by rewrite (proj2 (Z.leb_le _ _)), (proj2 (Z.ltb_lt _ _)) by done.
Qed.

Lemma i64_Ok z r : i64 z = Ok r <-> r = z /\ in_i64 z.
Proof.
  split; [|by intros [-> ?]; apply i64_ok]. unfold i64, in_i64.
  destruct (Z.leb_spec (- 2 ^ 63) z), (Z.ltb_spec z (2 ^ 63)); simpl; try done. by intros [= <-].
Qed.

Lemma i64_overflow z : ~ in_i64 z -> i64 z = Err Undefined.
Proof. destruct (i64 z) as [r|e] eqn:E; [by apply i64_Ok in E as [_ ?]|]. unfold i64 in E. by case_match. Qed.

Lemma signed_in_i64 z : in_i64 (signed 64 z).
Proof. unfold signed, in_i64. pose proof (Z.mod_pos_bound (z + 2 ^ (64 - 1)) (2 ^ 64)). simpl in *. lia. Qed.

Lemma signed_i64 z : in_i64 z -> signed 64 z = z.
Proof. intros [? ?]. unfold signed. rewrite Z.mod_small; simpl; lia. Qed.

(** The next operation of a computation fits. *)
Ltac i64_step := rewrite i64_ok by (unfold in_i64 in *; lia); cbn [rbind].
