(* ===== verification/Gregorian.v ===== *)
(** * Gregorian: the reference calendar

    The proleptic Gregorian calendar: the lengths of its months and the day
    that follows a date define it; [day_number] counts the days since
    1970-01-01, which [day_number_next] and [day_number_epoch] confirm. The
    theorems about civil time are stated with it. *)

From S2P Require Import Prelude.

Definition leap (y : Z) : bool := (y mod 4 =? 0) && (negb (y mod 100 =? 0) || (y mod 400 =? 0)).

Definition month_length (y m : Z) : Z :=
  if m =? 2 then (if leap y then 29 else 28)
  else if (m =? 4) || (m =? 6) || (m =? 9) || (m =? 11) then 30 else 31.

Definition valid_date (y m d : Z) : Prop := 1 <= m <= 12 /\ 1 <= d <= month_length y m.

Definition next_date (y m d : Z) : Z * Z * Z :=
  if d <? month_length y m then (y, m, d + 1)
  else if m <? 12 then (y, m + 1, 1) else (y + 1, 1, 1).

(** Years from March on, so that the leap day is the last day of a year. *)
Definition day_number (y m d : Z) : Z :=
  let y' := if m <=? 2 then y - 1 else y in
  365 * y' + y' / 4 - y' / 100 + y' / 400 + (153 * ((m + 9) mod 12) + 2) / 5 + (d - 1) - 719468.

(** ** Arithmetic on cycles

    [lia] with the equations of [div] and [mod]. *)
Ltac cycles := Z.to_euclidean_division_equations; lia.

Lemma leap_spec y : leap y = true <-> y mod 4 = 0 /\ (y mod 100 <> 0 \/ y mod 400 = 0).
Proof.
  unfold leap. rewrite andb_true_iff, orb_true_iff, negb_true_iff, !Z.eqb_eq, Z.eqb_neq. tauto.
Qed.

(** A leap year shifts the quotients that [day_number] sums. *)
Lemma leap_quotients y :
  (y / 4 - y / 100 + y / 400) - ((y - 1) / 4 - (y - 1) / 100 + (y - 1) / 400) = if leap y then 1 else 0.
Proof.
  destruct (leap y) eqn:E.
  - apply leap_spec in E. cycles.
  - assert (~ (y mod 4 = 0 /\ (y mod 100 <> 0 \/ y mod 400 = 0))) by (rewrite <- leap_spec; congruence). cycles.
Qed.

Lemma month_cases m (P : Z -> Prop) :
  P 1 -> P 2 -> P 3 -> P 4 -> P 5 -> P 6 -> P 7 -> P 8 -> P 9 -> P 10 -> P 11 -> P 12 -> 1 <= m <= 12 -> P m.
Proof.
  intros. assert (m = 1 \/ m = 2 \/ m = 3 \/ m = 4 \/ m = 5 \/ m = 6 \/ m = 7 \/ m = 8 \/ m = 9 \/
    m = 10 \/ m = 11 \/ m = 12) by lia. naive_solver.
Qed.

(** A goal about a month by its twelve cases. *)
Ltac by_month m :=
  match goal with H : 1 <= m <= 12 |- _ => pattern m; apply month_cases; [..|exact H]; clear H end;
  cbn -[Z.div leap];
  repeat match goal with |- context [?a <=? ?b] =>
    let c := eval vm_compute in (a <=? b) in
    lazymatch c with true => idtac | false => idtac end; change (a <=? b) with c; cbv match
  end.

Lemma month_length_range y m : 28 <= month_length y m <= 31.
Proof. unfold month_length. repeat case_match; lia. Qed.

Lemma day_number_shift y m d : day_number y m d = day_number y m 1 + (d - 1).
Proof. unfold day_number. lia. Qed.

Lemma day_number_month y m :
  1 <= m < 12 -> day_number y (m + 1) 1 = day_number y m 1 + month_length y m.
Proof.
  intros Hm. pose proof (leap_quotients y) as Hq. assert (H12 : 1 <= m <= 12) by lia. revert Hm Hq.
  unfold day_number, month_length. by_month m; intros; try lia;
    destruct (leap y); cycles.
Qed.

Lemma day_number_december y : day_number (y + 1) 1 1 = day_number y 12 1 + 31.
Proof. unfold day_number. cbn -[Z.div]. replace (y + 1 - 1) with y by lia. cycles. Qed.

Lemma day_number_year y m :
  1 <= m <= 12 ->
  day_number (y + 1) m 1 = day_number y m 1 + (if leap (y + (if 2 <? m then 1 else 0)) then 366 else 365).
Proof.
  intros Hm. pose proof (leap_quotients (y + (if 2 <? m then 1 else 0))) as Hq. revert Hq.
  unfold day_number. destruct (Z.leb_spec m 2), (Z.ltb_spec 2 m); try lia;
    [rewrite Z.add_0_r|]; destruct (leap _); intros Hq.
  all: replace (y + 1 - 1) with y in * by lia; lia.
Qed.

Lemma day_number_cycle y m k : day_number (y + 400 * k) m 1 = day_number y m 1 + 146097 * k.
Proof.
  unfold day_number. set (x := (153 * _ + 2) / 5). clearbody x.
  destruct (m <=? 2).
  - replace (y + 400 * k - 1) with (y - 1 + 400 * k) by lia.
    replace ((y - 1 + 400 * k) / 4) with ((y - 1) / 4 + 100 * k) by cycles.
    replace ((y - 1 + 400 * k) / 100) with ((y - 1) / 100 + 4 * k) by cycles.
    replace ((y - 1 + 400 * k) / 400) with ((y - 1) / 400 + k) by cycles. lia.
  - replace ((y + 400 * k) / 4) with (y / 4 + 100 * k) by cycles.
    replace ((y + 400 * k) / 100) with (y / 100 + 4 * k) by cycles.
    replace ((y + 400 * k) / 400) with (y / 400 + k) by cycles. lia.
Qed.

(** ** The number of a day *)

Lemma day_number_epoch : day_number 1970 1 1 = 0.
Proof. reflexivity. Qed.

Lemma day_number_next y m d :
  valid_date y m d ->
  let '(y', m', d') := next_date y m d in
  valid_date y' m' d' /\ day_number y' m' d' = day_number y m d + 1.
Proof.
  intros [Hm Hd]. unfold next_date, valid_date.
  pose proof (month_length_range y (m + 1)). pose proof (month_length_range (y + 1) 1).
  rewrite (day_number_shift y m d).
  destruct (Z.ltb_spec d (month_length y m)); [rewrite day_number_shift; lia|].
  assert (d = month_length y m) as -> by lia. destruct (Z.ltb_spec m 12).
  - rewrite day_number_month by lia. lia.
  - assert (m = 12) as -> by lia. rewrite day_number_december.
    assert (month_length y 12 = 31) by done. lia.
Qed.

(** Earlier years, months and days have smaller numbers. *)
Lemma day_number_month_le y m m' :
  1 <= m -> m <= m' <= 12 -> day_number y m 1 + 28 * (m' - m) <= day_number y m' 1.
Proof.
  intros Hm Hm'. remember (Z.to_nat (m' - m)) as n eqn:Hn. revert m' Hm' Hn.
  induction n as [|n IH]; intros m' Hm' Hn; [replace m' with m by lia; lia|].
  specialize (IH (m' - 1) ltac:(lia) ltac:(lia)).
  pose proof (day_number_month y (m' - 1) ltac:(lia)) as Hs. replace (m' - 1 + 1) with m' in Hs by lia.
  pose proof (month_length_range y (m' - 1)). lia.
Qed.

Lemma day_number_year_le y y' m : 1 <= m <= 12 -> y <= y' -> day_number y m 1 + 365 * (y' - y) <= day_number y' m 1.
Proof.
  intros Hm Hy. remember (Z.to_nat (y' - y)) as n eqn:Hn. revert y' Hy Hn.
  induction n as [|n IH]; intros y' Hy Hn; [replace y' with y by lia; lia|].
  specialize (IH (y' - 1) ltac:(lia) ltac:(lia)).
  pose proof (day_number_year (y' - 1) m Hm) as Hs. replace (y' - 1 + 1) with y' in Hs by lia.
  destruct (leap _); lia.
Qed.

Lemma day_number_month_lt y m d y' m' d' :
  valid_date y m d -> valid_date y' m' d' -> y < y' \/ y = y' /\ m < m' ->
  day_number y m d < day_number y' m' d'.
Proof.
  intros [Hm Hd] [Hm' Hd'] Hlt. rewrite (day_number_shift y m), (day_number_shift y' m').
  destruct Hlt as [Hlt|[-> Hlt]].
  - pose proof (day_number_month_le y m 12 ltac:(lia) ltac:(lia)). pose proof (day_number_december y).
    pose proof (day_number_year_le (y + 1) y' 1 ltac:(lia) ltac:(lia)).
    pose proof (day_number_month_le y' 1 m' ltac:(lia) ltac:(lia)).
    destruct (decide (m = 12)) as [->|]; [assert (month_length y 12 = 31) by done; lia|].
    pose proof (day_number_month y m ltac:(lia)).
    pose proof (day_number_month_le y (m + 1) 12 ltac:(lia) ltac:(lia)). lia.
  - pose proof (day_number_month y' m ltac:(lia)).
    pose proof (day_number_month_le y' (m + 1) m' ltac:(lia) ltac:(lia)). lia.
Qed.

Lemma day_number_inj y m d y' m' d' :
  valid_date y m d -> valid_date y' m' d' -> day_number y m d = day_number y' m' d' ->
  y = y' /\ m = m' /\ d = d'.
Proof.
  intros Hv Hv' Heq.
  assert (Hno : ~ (y < y' \/ y = y' /\ m < m')) by (intros Hlt; pose proof (day_number_month_lt _ _ _ _ _ _ Hv Hv' Hlt); lia).
  assert (Hno' : ~ (y' < y \/ y' = y /\ m' < m)) by (intros Hlt; pose proof (day_number_month_lt _ _ _ _ _ _ Hv' Hv Hlt); lia).
  assert (y = y' /\ m = m') as [-> ->] by lia. split_and!; [done|done|].
  rewrite (day_number_shift y' m' d), (day_number_shift y' m' d') in Heq. lia.
Qed.
