(* ===== verification/Civil.v ===== *)
(** * Civil: civil time (src/abseil-cpp/absl/time/internal/cctz/include/cctz/
    civil_time_detail.h)

    The fields of a civil time, their normalization, stepping, differences,
    alignment, comparison, weekdays and days of the year. Years and unnormalized
    arguments are [int64_t], and the operations on them that could overflow are
    checked ([i64]); the [int]s of the cycles stay below 150000. The template parameter that says to
    which field a civil time is aligned is a value of [tag]. *)

From S2P Require Import Prelude.
From S2P Require Import Int64.

Module cctz.

(** Normalized fields: Y-M-D HH:MM:SS. *)
Record fields := mkFields { fy : Z; fm : Z; fd : Z; fhh : Z; fmm : Z; fss : Z }.

#[global] Instance fields_eq_dec : EqDecision fields.
Proof. solve_decision. Defined.

Inductive tag := second_tag | minute_tag | hour_tag | day_tag | month_tag | year_tag.

#[global] Instance tag_eq_dec : EqDecision tag.
Proof. solve_decision. Defined.

(** ** Normalization *)

Definition b2z (b : bool) : Z := if b then 1 else 0.

Definition is_leap_year (y : Z) : bool :=
  (Z.rem y 4 =? 0) && (negb (Z.rem y 100 =? 0) || (Z.rem y 400 =? 0)).

Definition year_index (y m : Z) : result Z :=
  let* ym := i64 (y + b2z (2 <? m)) in
  let yi := Z.rem ym 400 in
  Ok (if yi <? 0 then yi + 400 else yi).

Definition days_per_century (yi : Z) : Z := 36524 + b2z ((yi =? 0) || (300 <? yi)).

Definition days_per_4years (yi : Z) : Z :=
  1460 + b2z ((yi =? 0) || (300 <? yi) || (Z.rem (yi - 1) 100 <? 96)).

Definition days_per_year (y m : Z) : result Z :=
  let* ym := i64 (y + b2z (2 <? m)) in
  Ok (if is_leap_year ym then 366 else 365).

Definition k_days_per_month : list Z := [-1; 31; 28; 31; 30; 31; 30; 31; 31; 30; 31; 30; 31].

Definition days_per_month (y m : Z) : result Z :=
  let* k := at_index k_days_per_month m in
  Ok (k + b2z ((m =? 2) && is_leap_year y)).

(** The loops of [n_day] over centuries, groups of four years, years and
    months. *)
Fixpoint century_loop (fuel : nat) (ey yi d : Z) : result (Z * Z * Z) :=
  let n := days_per_century yi in
  if d <=? n then Ok (ey, yi, d)
  else match fuel with
       | O => Err OutOfFuel
       | S fuel =>
           let* d := i64 (d - n) in
           let* ey := i64 (ey + 100) in
           let yi := yi + 100 in
           century_loop fuel ey (if 400 <=? yi then yi - 400 else yi) d
       end.

Fixpoint years4_loop (fuel : nat) (ey yi d : Z) : result (Z * Z) :=
  let n := days_per_4years yi in
  if d <=? n then Ok (ey, d)
  else match fuel with
       | O => Err OutOfFuel
       | S fuel =>
           let* d := i64 (d - n) in
           let* ey := i64 (ey + 4) in
           let yi := yi + 4 in
           years4_loop fuel ey (if 400 <=? yi then yi - 400 else yi) d
       end.

Fixpoint year_loop (fuel : nat) (ey m d : Z) : result (Z * Z) :=
  let* n := days_per_year ey m in
  if d <=? n then Ok (ey, d)
  else match fuel with
       | O => Err OutOfFuel
       | S fuel =>
           let* d := i64 (d - n) in
           let* ey := i64 (ey + 1) in
           year_loop fuel ey m d
       end.

Fixpoint month_loop (fuel : nat) (ey m d : Z) : result (Z * Z * Z) :=
  let* n := days_per_month ey m in
  if d <=? n then Ok (ey, m, d)
  else match fuel with
       | O => Err OutOfFuel
       | S fuel =>
           let* d := i64 (d - n) in
           let m := i8 (m + 1) in
           if 12 <? m then let* ey := i64 (ey + 1) in month_loop fuel ey 1 d
           else month_loop fuel ey m d
       end.

(** The reduction of the days to one cycle of 400 years: the first part of
    [n_day], up to the loops. *)
Definition n_day_cycle (y m d cd : Z) : result (Z * Z) :=
  let ey := Z.rem y 400 in
  let* ey := i64 (ey + Z.quot cd 146097 * 400) in
  let cd := Z.rem cd 146097 in
  let* r :=
    if cd <? 0 then
      let* ey := i64 (ey - 400) in
      let* cd := i64 (cd + 146097) in
      Ok (ey, cd)
    else Ok (ey, cd) in
  let '(ey, cd) := r in
  let* ey := i64 (ey + Z.quot d 146097 * 400) in
  let* d := i64 (Z.rem d 146097 + cd) in
  if 0 <? d then
    if 146097 <? d then
      let* ey := i64 (ey + 400) in
      let* d := i64 (d - 146097) in
      Ok (ey, d)
    else Ok (ey, d)
  else if -365 <? d then
    let* ey := i64 (ey - 1) in
    let* n := days_per_year ey m in
    let* d := i64 (d + n) in
    Ok (ey, d)
  else
    let* ey := i64 (ey - 400) in
    let* d := i64 (d + 146097) in
    Ok (ey, d).

Definition n_day (y m d cd hh mm ss : Z) : result fields :=
  let oey := Z.rem y 400 in
  let* r := n_day_cycle y m d cd in
  let '(ey, d) := r in
  let* r :=
    if 365 <? d then
      let* yi := year_index ey m in
      let* c := century_loop 4 ey yi d in
      let '(ey, yi, d) := c in
      let* f := years4_loop 25 ey yi d in
      let '(ey, d) := f in
      year_loop 4 ey m d
    else Ok (ey, d) in
  let '(ey, d) := r in
  let* r := if 28 <? d then month_loop 13 ey m d else Ok (ey, m, d) in
  let '(ey, m, d) := r in
  let* dy := i64 (ey - oey) in
  let* y := i64 (y + dy) in
  Ok (mkFields y m (i8 d) hh mm ss).

Definition n_mon (y m d cd hh mm ss : Z) : result fields :=
  let* r :=
    if negb (m =? 12) then
      let* y := i64 (y + Z.quot m 12) in
      let m := Z.rem m 12 in
      if m <=? 0 then
        let* y := i64 (y - 1) in
        let* m := i64 (m + 12) in
        Ok (y, m)
      else Ok (y, m)
    else Ok (y, m) in
  let '(y, m) := r in
  n_day y (i8 m) d cd hh mm ss.

(** Carrying a negative remainder: [if (r < 0) { q -= 1; r += base; }]. *)
Definition carry (base q r : Z) : result (Z * Z) :=
  if r <? 0 then
    let* q := i64 (q - 1) in
    let* r := i64 (r + base) in
    Ok (q, r)
  else Ok (q, r).

Definition n_hour (y m d cd hh mm ss : Z) : result fields :=
  let* cd := i64 (cd + Z.quot hh 24) in
  let* r := carry 24 cd (Z.rem hh 24) in
  let '(cd, hh) := r in
  n_mon y m d cd (i8 hh) mm ss.

Definition n_min (y m d hh ch mm ss : Z) : result fields :=
  let* ch := i64 (ch + Z.quot mm 60) in
  let* r := carry 60 ch (Z.rem mm 60) in
  let '(ch, mm) := r in
  let* cd := i64 (Z.quot hh 24 + Z.quot ch 24) in
  let* hh := i64 (Z.rem hh 24 + Z.rem ch 24) in
  n_hour y m d cd hh (i8 mm) ss.

Definition n_sec (y m d hh mm ss : Z) : result fields :=
  if (0 <=? ss) && (ss <? 60) then
    let nss := i8 ss in
    if (0 <=? mm) && (mm <? 60) then
      let nmm := i8 mm in
      if (0 <=? hh) && (hh <? 24) then
        let nhh := i8 hh in
        if ((1 <=? d) && (d <=? 28)) && ((1 <=? m) && (m <=? 12)) then
          Ok (mkFields y (i8 m) (i8 d) nhh nmm nss)
        else n_mon y m d 0 nhh nmm nss
      else n_hour y m d (Z.quot hh 24) (Z.rem hh 24) nmm nss
    else n_min y m d hh (Z.quot mm 60) (Z.rem mm 60) nss
  else
    let* r := carry 60 (Z.quot ss 60) (Z.rem ss 60) in
    let '(cm, ss) := r in
    let* ch := i64 (Z.quot mm 60 + Z.quot cm 60) in
    let* mm := i64 (Z.rem mm 60 + Z.rem cm 60) in
    n_min y m d hh ch mm (i8 ss).

(** ** Stepping: the indicated field of normalized fields plus [n] *)

Definition step (t : tag) (f : fields) (n : Z) : result fields :=
  match t with
  | second_tag =>
      let* mm := i64 (fmm f + Z.quot n 60) in
      let* ss := i64 (fss f + Z.rem n 60) in
      n_sec (fy f) (fm f) (fd f) (fhh f) mm ss
  | minute_tag =>
      let* hh := i64 (fhh f + Z.quot n 60) in
      let* mm := i64 (fmm f + Z.rem n 60) in
      n_min (fy f) (fm f) (fd f) hh 0 mm (fss f)
  | hour_tag =>
      let* d := i64 (fd f + Z.quot n 24) in
      let* hh := i64 (fhh f + Z.rem n 24) in
      n_hour (fy f) (fm f) d 0 hh (fmm f) (fss f)
  | day_tag => n_day (fy f) (fm f) (fd f) n (fhh f) (fmm f) (fss f)
  | month_tag =>
      let* y := i64 (fy f + Z.quot n 12) in
      let* m := i64 (fm f + Z.rem n 12) in
      n_mon y m (fd f) 0 (fhh f) (fmm f) (fss f)
  | year_tag =>
      let* y := i64 (fy f + n) in
      Ok (mkFields y (fm f) (fd f) (fhh f) (fmm f) (fss f))
  end.

(** ** Differences *)

(** [v * f + a]. *)
Definition scale_add (v f a : Z) : result Z :=
  if v <? 0 then
    let* v1 := i64 (v + 1) in
    let* p := i64 (v1 * f) in
    let* s := i64 (p + a) in
    i64 (s - f)
  else
    let* v1 := i64 (v - 1) in
    let* p := i64 (v1 * f) in
    let* s := i64 (p + a) in
    i64 (s + f).

(** The days since 1970-01-01 of a normalized date. *)
Definition ymd_ord (y m d : Z) : result Z :=
  let* eyear := if m <=? 2 then i64 (y - 1) else Ok y in
  let* e := if 0 <=? eyear then Ok eyear else i64 (eyear - 399) in
  let era := Z.quot e 400 in
  let* er := i64 (era * 400) in
  let* yoe := i64 (eyear - er) in
  let doy := Z.quot (153 * (m + (if 2 <? m then -3 else 9)) + 2) 5 + d - 1 in
  let* doe := i64 (yoe * 365 + Z.quot yoe 4 - Z.quot yoe 100 + doy) in
  let* days := i64 (era * 146097) in
  let* s := i64 (days + doe) in
  i64 (s - 719468).

Definition day_difference (y1 m1 d1 y2 m2 d2 : Z) : result Z :=
  let a_c4_off := Z.rem y1 400 in
  let b_c4_off := Z.rem y2 400 in
  let* a := i64 (y1 - a_c4_off) in
  let* b := i64 (y2 - b_c4_off) in
  let* c4_diff := i64 (a - b) in
  let* oa := ymd_ord a_c4_off m1 d1 in
  let* ob := ymd_ord b_c4_off m2 d2 in
  let* delta := i64 (oa - ob) in
  let* r :=
    if (0 <? c4_diff) && (delta <? 0) then
      let* delta := i64 (delta + 2 * 146097) in
      let* c4_diff := i64 (c4_diff - 2 * 400) in
      Ok (delta, c4_diff)
    else if (c4_diff <? 0) && (0 <? delta) then
      let* delta := i64 (delta - 2 * 146097) in
      let* c4_diff := i64 (c4_diff + 2 * 400) in
      Ok (delta, c4_diff)
    else Ok (delta, c4_diff) in
  let '(delta, c4_diff) := r in
  let* days := i64 (Z.quot c4_diff 400 * 146097) in
  i64 (days + delta).

Definition difference_year (f1 f2 : fields) : result Z := i64 (fy f1 - fy f2).

Definition difference_month (f1 f2 : fields) : result Z :=
  let* v := difference_year f1 f2 in scale_add v 12 (fm f1 - fm f2).

Definition difference_day (f1 f2 : fields) : result Z :=
  day_difference (fy f1) (fm f1) (fd f1) (fy f2) (fm f2) (fd f2).

Definition difference_hour (f1 f2 : fields) : result Z :=
  let* v := difference_day f1 f2 in scale_add v 24 (fhh f1 - fhh f2).

Definition difference_minute (f1 f2 : fields) : result Z :=
  let* v := difference_hour f1 f2 in scale_add v 60 (fmm f1 - fmm f2).

Definition difference_second (f1 f2 : fields) : result Z :=
  let* v := difference_minute f1 f2 in scale_add v 60 (fss f1 - fss f2).

Definition difference (t : tag) : fields -> fields -> result Z :=
  match t with
  | year_tag => difference_year
  | month_tag => difference_month
  | day_tag => difference_day
  | hour_tag => difference_hour
  | minute_tag => difference_minute
  | second_tag => difference_second
  end.

(** ** [civil_time]

    A [civil_time<T>] is fields aligned to [T]. *)

Definition align (t : tag) (f : fields) : fields :=
  match t with
  | second_tag => f
  | minute_tag => mkFields (fy f) (fm f) (fd f) (fhh f) (fmm f) 0
  | hour_tag => mkFields (fy f) (fm f) (fd f) (fhh f) 0 0
  | day_tag => mkFields (fy f) (fm f) (fd f) 0 0 0
  | month_tag => mkFields (fy f) (fm f) 1 0 0 0
  | year_tag => mkFields (fy f) 1 1 0 0 0
  end.

Definition civil_time (t : tag) (y m d hh mm ss : Z) : result fields :=
  let* f := n_sec y m d hh mm ss in Ok (align t f).

Definition civil_time_default : fields := mkFields 1970 1 1 0 0 0.

(** The conversions between alignments. *)
Definition civil_time_convert (t : tag) (ct : fields) : fields := align t ct.

Definition civil_max (t : tag) : result fields := civil_time t int64_max 12 31 23 59 59.
Definition civil_min (t : tag) : result fields := civil_time t int64_min 1 1 0 0 0.

Definition civil_add (t : tag) (a : fields) (n : Z) : result fields :=
  let* f := step t a n in Ok (align t f).

Definition civil_sub (t : tag) (a : fields) (n : Z) : result fields :=
  if negb (n =? int64_min) then
    let* k := i64 (- n) in
    let* f := step t a k in Ok (align t f)
  else
    let* n1 := i64 (n + 1) in
    let* k := i64 (- n1) in
    let* f := step t a k in
    let* f := step t f 1 in
    Ok (align t f).

Definition civil_diff (t : tag) (lhs rhs : fields) : result Z := difference t lhs rhs.

(** ** Comparison: always all six fields *)

Definition civil_lt (lhs rhs : fields) : bool :=
  (fy lhs <? fy rhs) || ((fy lhs =? fy rhs) &&
  ((fm lhs <? fm rhs) || ((fm lhs =? fm rhs) &&
  ((fd lhs <? fd rhs) || ((fd lhs =? fd rhs) &&
  ((fhh lhs <? fhh rhs) || ((fhh lhs =? fhh rhs) &&
  ((fmm lhs <? fmm rhs) || ((fmm lhs =? fmm rhs) && (fss lhs <? fss rhs)))))))))).
Definition civil_le (lhs rhs : fields) : bool := negb (civil_lt rhs lhs).
Definition civil_ge (lhs rhs : fields) : bool := negb (civil_lt lhs rhs).
Definition civil_gt (lhs rhs : fields) : bool := civil_lt rhs lhs.
Definition civil_eq (lhs rhs : fields) : bool :=
  (fy lhs =? fy rhs) && (fm lhs =? fm rhs) && (fd lhs =? fd rhs) &&
  (fhh lhs =? fhh rhs) && (fmm lhs =? fmm rhs) && (fss lhs =? fss rhs).
Definition civil_ne (lhs rhs : fields) : bool := negb (civil_eq lhs rhs).

(** ** Weekdays *)

Inductive weekday := monday | tuesday | wednesday | thursday | friday | saturday | sunday.

#[global] Instance weekday_eq_dec : EqDecision weekday.
Proof. solve_decision. Defined.

Definition k_weekday_by_mon_off : list weekday :=
  [monday; tuesday; wednesday; thursday; friday; saturday; sunday; monday; tuesday; wednesday;
   thursday; friday; saturday].

Definition k_weekday_offsets : list Z := [-1; 0; 3; 2; 5; 0; 3; 5; 1; 4; 6; 2; 4].

Definition get_weekday (cs : fields) : result weekday :=
  let wd := 2400 + Z.rem (fy cs) 400 - b2z (fm cs <? 3) in
  let wd := wd + (Z.quot wd 4 - Z.quot wd 100 + Z.quot wd 400) in
  let* k := at_index k_weekday_offsets (fm cs) in
  let wd := wd + (k + fd cs) in
  at_index k_weekday_by_mon_off (Z.rem wd 7 + 6).

(** [for (int i = lo;; ++i) if (w == table[i])]: the index that is found; to
    read past the table is undefined. *)
Fixpoint index_of (w : weekday) (i : Z) (table : list weekday) : result Z :=
  match table with
  | [] => Err Undefined
  | x :: rest => if bool_decide (w = x) then Ok i else index_of w (i + 1) rest
  end.

Definition k_weekdays_forw : list weekday :=
  [monday; tuesday; wednesday; thursday; friday; saturday; sunday;
   monday; tuesday; wednesday; thursday; friday; saturday; sunday].

Definition next_weekday (cd : fields) (wd : weekday) : result fields :=
  let* base := get_weekday cd in
  let* i := index_of base 0 k_weekdays_forw in
  let* j := index_of wd (i + 1) (drop (Z.to_nat (i + 1)) k_weekdays_forw) in
  civil_add day_tag cd (j - i).

Definition k_weekdays_back : list weekday :=
  [sunday; saturday; friday; thursday; wednesday; tuesday; monday;
   sunday; saturday; friday; thursday; wednesday; tuesday; monday].

Definition prev_weekday (cd : fields) (wd : weekday) : result fields :=
  let* base := get_weekday cd in
  let* i := index_of base 0 k_weekdays_back in
  let* j := index_of wd (i + 1) (drop (Z.to_nat (i + 1)) k_weekdays_back) in
  civil_sub day_tag cd (j - i).

Definition k_month_offsets : list Z := [-1; 0; 31; 59; 90; 120; 151; 181; 212; 243; 273; 304; 334].

Definition get_yearday (cs : fields) : result Z :=
  let feb29 := b2z ((2 <? fm cs) && is_leap_year (fy cs)) in
  let* k := at_index k_month_offsets (fm cs) in
  Ok (k + feb29 + fd cs).
End cctz.
