(* ===== verification/CivilInv.v ===== *)
(** * CivilInv: normalization of civil time

    Every loop of [n_day] keeps the number of the day it starts from and
    brings it nearer to its year and month; the carries of [n_sec] keep the
    number of the second. *)

From S2P Require Import Prelude.
From S2P Require Import Int64.
From S2P Require Import Gregorian.
From S2P Require Import Civil.

Import cctz.

#[local] Ltac Zify.zify_post_hook ::= Z.to_euclidean_division_equations.

(** ** The tables *)

Lemma is_leap_year_leap y : is_leap_year y = leap y.
Proof.
  assert (Hz : forall n, 0 < n -> (Z.rem y n =? 0) = (y mod n =? 0)).
  { intros n Hn. destruct (Z.eqb_spec (Z.rem y n) 0), (Z.eqb_spec (y mod n) 0); try done; exfalso.
    - apply Z.rem_divide in e; [|lia]. apply Z.mod_divide in e; lia.
    - apply Z.mod_divide in e; [|lia]. apply Z.rem_divide in e; lia. }
  unfold is_leap_year, leap. by rewrite !Hz by lia.
Qed.

Lemma days_per_month_length y m : 1 <= m <= 12 -> days_per_month y m = Ok (month_length y m).
Proof.
  intros Hm. unfold days_per_month, month_length. rewrite is_leap_year_leap.
  by_month m; try done; by destruct (leap y).
Qed.

(** The year whose leap day falls into the twelve months from month [m] of
    year [y]. *)
Definition feb_year (y m : Z) : Z := y + b2z (2 <? m).

Lemma days_per_year_span y m :
  1 <= m <= 12 -> in_i64 (feb_year y m) ->
  days_per_year y m = Ok (day_number (y + 1) m 1 - day_number y m 1).
Proof.
  intros Hm Hw. unfold days_per_year. fold (feb_year y m). rewrite i64_ok by done. cbn [rbind].
  rewrite is_leap_year_leap, (day_number_year y m Hm). unfold feb_year, b2z.
  f_equal. destruct (leap _); lia.
Qed.

(** The leap days up to a year. *)
Definition leap_days (y : Z) : Z := y / 4 - y / 100 + y / 400.

Lemma leap_days_cycle k r : leap_days (400 * k + r) = 97 * k + leap_days r.
Proof. unfold leap_days. lia. Qed.

Lemma day_number_span y k m :
  1 <= m <= 12 ->
  day_number (y + k) m 1 - day_number y m 1 =
    365 * k + leap_days (feb_year y m + k - 1) - leap_days (feb_year y m - 1).
Proof.
  intros Hm. unfold day_number, leap_days, feb_year, b2z.
  destruct (Z.leb_spec m 2), (Z.ltb_spec 2 m); lia.
Qed.

(** A span that starts in year [yi] of a cycle of 400 years. *)
Lemma day_number_span_index y k m yi :
  1 <= m <= 12 -> yi = feb_year y m mod 400 ->
  day_number (y + k) m 1 - day_number y m 1 = 365 * k + leap_days (yi + k - 1) - leap_days (yi - 1).
Proof.
  intros Hm ->. rewrite day_number_span by done. set (w := feb_year y m).
  rewrite (Z.div_mod w 400) at 1 2 by lia.
  replace (400 * (w / 400) + w mod 400 + k - 1) with (400 * (w / 400) + (w mod 400 + k - 1)) by lia.
  replace (400 * (w / 400) + w mod 400 - 1) with (400 * (w / 400) + (w mod 400 - 1)) by lia.
  rewrite !leap_days_cycle. lia.
Qed.

Lemma days_per_century_span y m yi :
  1 <= m <= 12 -> yi = feb_year y m mod 400 ->
  day_number (y + 100) m 1 - day_number y m 1 = days_per_century yi.
Proof.
  intros Hm Hyi. rewrite (day_number_span_index y 100 m yi Hm Hyi).
  assert (Hall : forallb (fun yi => 365 * 100 + leap_days (yi + 100 - 1) - leap_days (yi - 1) =? days_per_century yi)
    (seqZ 0 400) = true) by (vm_compute; reflexivity).
  apply (forallb_range _ 0 400 yi) in Hall; [by apply Z.eqb_eq in Hall|lia].
Qed.

Lemma days_per_4years_span y m yi :
  1 <= m <= 12 -> yi = feb_year y m mod 400 ->
  day_number (y + 4) m 1 - day_number y m 1 = days_per_4years yi.
Proof.
  intros Hm Hyi. rewrite (day_number_span_index y 4 m yi Hm Hyi).
  assert (Hall : forallb (fun yi => 365 * 4 + leap_days (yi + 4 - 1) - leap_days (yi - 1) =? days_per_4years yi)
    (seqZ 0 400) = true) by (vm_compute; reflexivity).
  apply (forallb_range _ 0 400 yi) in Hall; [by apply Z.eqb_eq in Hall|lia].
Qed.

Lemma days_per_century_range yi : 36524 <= days_per_century yi <= 36525.
Proof. unfold days_per_century, b2z. case_match; lia. Qed.

Lemma days_per_4years_range yi : 1460 <= days_per_4years yi <= 1461.
Proof. unfold days_per_4years, b2z. case_match; lia. Qed.

Lemma year_index_ok y m :
  in_i64 (feb_year y m) -> year_index y m = Ok (feb_year y m mod 400).
Proof.
  intros Hw. unfold year_index. fold (feb_year y m). rewrite i64_ok by done. cbn [rbind].
  f_equal. case_match; bools; lia.
Qed.

(** ** The loops *)

Definition small (y : Z) : Prop := - 2 ^ 60 <= y <= 2 ^ 60.

Lemma year_index_next y m yi k :
  yi = feb_year y m mod 400 -> 0 <= k <= 400 ->
  (if 400 <=? yi + k then yi + k - 400 else yi + k) = feb_year (y + k) m mod 400.
Proof. intros -> Hk. unfold feb_year. case_match; bools; lia. Qed.

Lemma century_loop_ok fuel ey yi m d :
  1 <= m <= 12 -> yi = feb_year ey m mod 400 -> 1 <= d <= 36524 * (Z.of_nat fuel + 1) ->
  (fuel <= 30)%nat -> - 2 ^ 60 <= ey -> ey + 100 * Z.of_nat fuel <= 2 ^ 60 ->
  exists ey' yi' d', century_loop fuel ey yi d = Ok (ey', yi', d') /\
    yi' = feb_year ey' m mod 400 /\ 1 <= d' <= 36525 /\
    day_number ey' m 1 + d' = day_number ey m 1 + d /\ ey <= ey' <= ey + 100 * Z.of_nat fuel.
Proof.
  intros Hm. revert ey yi d. induction fuel as [|fuel IH]; intros ey yi d Hyi Hd Hfuel Hlo Hhi; simpl century_loop;
    pose proof (days_per_century_range yi) as Hr; destruct (Z.leb_spec d (days_per_century yi)); try lia.
  1,2: exists ey, yi, d; split_and!; try done; lia.
  rewrite (i64_ok (d - _)) by (unfold in_i64; lia). cbn [rbind].
  rewrite (i64_ok (ey + _)) by (unfold in_i64; lia). cbn [rbind].
  rewrite (year_index_next ey m yi 100 Hyi) by lia.
  pose proof (days_per_century_span ey m yi Hm Hyi) as Hs.
  destruct (IH (ey + 100) _ (d - days_per_century yi) eq_refl) as (ey' & yi' & d' & -> & ? & ? & ? & ?);
    [lia|lia|lia|lia|]. exists ey', yi', d'. split_and!; try done; lia.
Qed.

Lemma years4_loop_ok fuel ey yi m d :
  1 <= m <= 12 -> yi = feb_year ey m mod 400 -> 1 <= d <= 1460 * (Z.of_nat fuel + 1) ->
  (fuel <= 30)%nat -> - 2 ^ 60 <= ey -> ey + 4 * Z.of_nat fuel <= 2 ^ 60 ->
  exists ey' d', years4_loop fuel ey yi d = Ok (ey', d') /\ 1 <= d' <= 1461 /\
    day_number ey' m 1 + d' = day_number ey m 1 + d /\ ey <= ey' <= ey + 4 * Z.of_nat fuel.
Proof.
  intros Hm. revert ey yi d. induction fuel as [|fuel IH]; intros ey yi d Hyi Hd Hfuel Hlo Hhi; simpl years4_loop;
    pose proof (days_per_4years_range yi) as Hr; destruct (Z.leb_spec d (days_per_4years yi)); try lia.
  1,2: exists ey, d; split_and!; try done; lia.
  rewrite (i64_ok (d - _)) by (unfold in_i64; lia). cbn [rbind].
  rewrite (i64_ok (ey + _)) by (unfold in_i64; lia). cbn [rbind].
  rewrite (year_index_next ey m yi 4 Hyi) by lia.
  pose proof (days_per_4years_span ey m yi Hm Hyi) as Hs.
  destruct (IH (ey + 4) _ (d - days_per_4years yi) eq_refl) as (ey' & d' & -> & ? & ? & ?);
    [lia|lia|lia|lia|]. exists ey', d'. split_and!; try done; lia.
Qed.

Lemma feb_year_i64 y m : small y -> in_i64 (feb_year y m).
Proof. unfold small, in_i64, feb_year, b2z. case_match; lia. Qed.

Lemma day_number_year_range y m : 1 <= m <= 12 -> 365 <= day_number (y + 1) m 1 - day_number y m 1 <= 366.
Proof. intros Hm. rewrite day_number_year by done. case_match; lia. Qed.

Lemma year_loop_ok fuel ey m d :
  1 <= m <= 12 -> 1 <= d <= 365 * (Z.of_nat fuel + 1) ->
  (fuel <= 30)%nat -> - 2 ^ 60 <= ey -> ey + Z.of_nat fuel <= 2 ^ 60 ->
  exists ey' d', year_loop fuel ey m d = Ok (ey', d') /\ 1 <= d' <= 366 /\
    day_number ey' m 1 + d' = day_number ey m 1 + d /\ ey <= ey' <= ey + Z.of_nat fuel.
Proof.
  intros Hm. revert ey d. induction fuel as [|fuel IH]; intros ey d Hd Hfuel Hlo Hhi; simpl year_loop;
    rewrite days_per_year_span by (first [done|apply feb_year_i64; unfold small; lia]); cbn [rbind];
    pose proof (day_number_year_range ey m Hm) as Hr;
    destruct (Z.leb_spec d (day_number (ey + 1) m 1 - day_number ey m 1)); try lia.
  1,2: exists ey, d; split_and!; try done; lia.
  rewrite (i64_ok (d - _)) by (unfold in_i64; lia). cbn [rbind].
  rewrite (i64_ok (ey + _)) by (unfold in_i64; lia). cbn [rbind].
  destruct (IH (ey + 1) (d - (day_number (ey + 1) m 1 - day_number ey m 1))) as (ey' & d' & -> & ? & ? & ?);
    [lia|lia|lia|lia|]. exists ey', d'. split_and!; try done; lia.
Qed.

Lemma month_loop_ok fuel ey m d :
  1 <= m <= 12 -> 1 <= d <= 28 * (Z.of_nat fuel + 1) ->
  (fuel <= 30)%nat -> - 2 ^ 60 <= ey -> ey + Z.of_nat fuel <= 2 ^ 60 ->
  exists ey' m' d', month_loop fuel ey m d = Ok (ey', m', d') /\ valid_date ey' m' d' /\
    day_number ey' m' 1 + d' = day_number ey m 1 + d /\ ey <= ey' <= ey + Z.of_nat fuel.
Proof.
  revert ey m d. induction fuel as [|fuel IH]; intros ey m d Hm Hd Hfuel Hlo Hhi; simpl month_loop;
    rewrite (days_per_month_length ey m Hm); cbn [rbind]; pose proof (month_length_range ey m) as Hr;
    destruct (Z.leb_spec d (month_length ey m)); try lia.
  1,2: exists ey, m, d; split; [done|]; (split; [split; [done|lia]|lia]).
  rewrite (i64_ok (d - _)) by (unfold in_i64; lia). cbn [rbind]. rewrite i8_id by lia.
  destruct (Z.ltb_spec 12 (m + 1)).
  - assert (m = 12) as -> by lia. rewrite i64_ok by (unfold in_i64; lia). cbn [rbind].
    pose proof (day_number_december ey). assert (month_length ey 12 = 31) by done.
    destruct (IH (ey + 1) 1 (d - month_length ey 12)) as (ey' & m' & d' & -> & ? & ? & ?); [lia..|].
    exists ey', m', d'. split_and!; try done; lia.
  - pose proof (day_number_month ey m ltac:(lia)).
    destruct (IH ey (m + 1) (d - month_length ey m)) as (ey' & m' & d' & -> & ? & ? & ?); [lia..|].
    exists ey', m', d'. split_and!; try done; lia.
Qed.

(** ** [n_day] *)

Lemma quot_rem_bound z n : in_i64 z -> 0 < n -> z = n * Z.quot z n + Z.rem z n /\ - n < Z.rem z n < n /\
  - 2 ^ 63 <= n * Z.quot z n < 2 ^ 63.
Proof.
  intros Hz Hn. pose proof (Z.quot_rem' z n) as E. unfold in_i64 in Hz.
  destruct (Z.lt_ge_cases z 0); [|pose proof (Z.rem_bound_pos z n ltac:(lia) Hn); pose proof (Z.quot_pos z n ltac:(lia) Hn);
    split_and!; try done; try lia; nia].
  pose proof (Z.rem_bound_pos (- z) n ltac:(lia) Hn) as Hr. rewrite Z.rem_opp_l in Hr by lia.
  pose proof (Z.quot_pos (- z) n ltac:(lia) Hn) as Hq. rewrite Z.quot_opp_l in Hq by lia.
  split_and!; try done; try lia; nia.
Qed.

Lemma n_day_cycle_ok y m d cd :
  1 <= m <= 12 -> in_i64 y -> in_i64 d -> in_i64 cd ->
  exists ey d', n_day_cycle y m d cd = Ok (ey, d') /\ - 2 ^ 57 <= ey <= 2 ^ 57 /\ 1 <= d' <= 146097 /\
    day_number ey m 1 + d' = day_number (Z.rem y 400) m 1 + cd + d.
Proof.
  intros Hm Hy Hd Hcd. unfold n_day_cycle.
  destruct (quot_rem_bound y 400 Hy) as (_ & Hry & _); [lia|].
  destruct (quot_rem_bound cd 146097 Hcd) as (Ecd & Hrcd & Hqcd); [lia|].
  destruct (quot_rem_bound d 146097 Hd) as (Ed & Hrd & Hqd); [lia|].
  set (ry := Z.rem y 400) in *. set (qc := Z.quot cd 146097) in *. set (rc := Z.rem cd 146097) in *.
  set (qd := Z.quot d 146097) in *. set (rd := Z.rem d 146097) in *. clearbody ry qc rc qd rd.
  clear Hy Hd Hcd. i64_step.
  assert (exists ey cd', (if rc <? 0 then let* ey := i64 (ry + qc * 400 - 400) in let* cd := i64 (rc + 146097) in Ok (ey, cd)
      else Ok (ry + qc * 400, rc)) = Ok (ey, cd') /\ 0 <= cd' < 146097 /\
      (ey = ry + 400 * qc /\ cd' = rc \/ ey = ry + 400 * (qc - 1) /\ cd' = rc + 146097)) as (ey & cd' & -> & Hcd' & Hey).
  { destruct (Z.ltb_spec rc 0); [repeat i64_step|]; eexists _, _; (split; [done|]); lia. }
  cbn [rbind]. i64_step. i64_step.
  assert (Hdn : day_number (ey + 400 * qd) m 1 + (rd + cd') = day_number ry m 1 + cd + d).
  { destruct Hey as [[-> ->]|[-> ->]]; rewrite !day_number_cycle; lia. }
  assert (Hb : - 2 ^ 56 <= ey + qd * 400 <= 2 ^ 56) by lia. replace (400 * qd) with (qd * 400) in Hdn by lia.
  set (ey1 := ey + qd * 400) in *. set (d1 := rd + cd') in *.
  assert (Hd1 : - 146097 < d1 < 2 * 146097) by lia. clearbody ey1 d1. clear Hey.
  pose proof (day_number_cycle ey1 m 1) as H1. pose proof (day_number_cycle ey1 m (-1)) as H2.
  destruct (Z.ltb_spec 0 d1); [destruct (Z.ltb_spec 146097 d1)|destruct (Z.ltb_spec (-365) d1)].
  - repeat i64_step. eexists _, _. split; [done|]. replace (400 * 1) with 400 in H1 by lia. lia.
  - eexists _, _. split; [done|]. lia.
  - i64_step. rewrite days_per_year_span by (try done; apply feb_year_i64; unfold small; lia). cbn [rbind].
    pose proof (day_number_year_range (ey1 - 1) m Hm) as Hr. replace (ey1 - 1 + 1) with ey1 in * by lia.
    i64_step. eexists _, _. split; [done|]. lia.
  - repeat i64_step. eexists _, _. split; [done|]. replace (400 * -1) with (-400) in H2 by lia.
    replace (ey1 - 400) with (ey1 + -400) by lia. lia.
Qed.

Lemma leap_cycle y k : leap (y + 400 * k) = leap y.
Proof.
  destruct (leap y) eqn:E; [apply leap_spec in E; apply leap_spec; lia|].
  apply not_true_iff_false. rewrite leap_spec. apply not_true_iff_false in E. rewrite leap_spec in E. lia.
Qed.

Lemma valid_date_cycle y k m d : valid_date (y + 400 * k) m d <-> valid_date y m d.
Proof. unfold valid_date, month_length. by rewrite leap_cycle. Qed.

Lemma day_number_d y m d : day_number y m d + 1 = day_number y m 1 + d.
Proof. rewrite day_number_shift. lia. Qed.

(** The date is the one with the right number; it is returned if its year
    fits. *)
Lemma n_day_ok y m d cd hh mm ss :
  1 <= m <= 12 -> in_i64 y -> in_i64 d -> in_i64 cd ->
  exists y' m' d', valid_date y' m' d' /\ day_number y' m' d' = day_number y m 1 + (d - 1) + cd /\
    n_day y m d cd hh mm ss = let* y' := i64 y' in Ok (mkFields y' m' d' hh mm ss).
Proof.
  intros Hm Hy Hd Hcd. unfold n_day.
  destruct (n_day_cycle_ok y m d cd Hm Hy Hd Hcd) as (ey & d0 & -> & Hey & Hd0 & Hdn0). cbn [rbind].
  assert (exists ey1 d1, (if 365 <? d0 then
      let* yi := year_index ey m in
      let* c := century_loop 4 ey yi d0 in
      let '(ey, yi, d) := c in
      let* f := years4_loop 25 ey yi d in
      let '(ey, d) := f in year_loop 4 ey m d else Ok (ey, d0)) = Ok (ey1, d1) /\
      - 2 ^ 58 <= ey1 <= 2 ^ 58 /\ 1 <= d1 <= 366 /\ day_number ey1 m 1 + d1 = day_number ey m 1 + d0)
    as (ey1 & d1 & -> & Hey1 & Hd1 & Hdn1).
  { destruct (Z.ltb_spec 365 d0); [|exists ey, d0; split_and!; try done; lia].
    rewrite year_index_ok by (apply feb_year_i64; unfold small; lia). cbn [rbind].
    destruct (century_loop_ok 4 ey _ m d0 Hm eq_refl) as (e1 & yi & f1 & -> & Hyi & ? & ? & ?); [lia..|]. cbn [rbind].
    destruct (years4_loop_ok 25 e1 yi m f1 Hm Hyi) as (e2 & f2 & -> & ? & ? & ?); [lia..|]. cbn [rbind].
    destruct (year_loop_ok 4 e2 m f2 Hm) as (e3 & f3 & -> & ? & ? & ?); [lia..|].
    exists e3, f3. split_and!; try done; lia. }
  cbn [rbind].
  assert (exists ey2 m2 d2, (if 28 <? d1 then month_loop 13 ey1 m d1 else Ok (ey1, m, d1)) = Ok (ey2, m2, d2) /\
      valid_date ey2 m2 d2 /\ - 2 ^ 59 <= ey2 <= 2 ^ 59 /\
      day_number ey2 m2 1 + d2 = day_number ey1 m 1 + d1) as (ey2 & m2 & d2 & -> & Hv & Hey2 & Hdn2).
  { pose proof (month_length_range ey1 m). destruct (Z.ltb_spec 28 d1).
    - destruct (month_loop_ok 13 ey1 m d1 Hm) as (e & mo & f & -> & ? & ? & ?); [lia..|].
      exists e, mo, f. split_and!; try done; lia.
    - exists ey1, m, d1. split; [done|]. split; [split; lia|]. lia. }
  cbn [rbind]. destruct (quot_rem_bound y 400 Hy) as (Ey & Hry & _); [lia|].
  i64_step. pose proof Hv as [Hm2 Hd2]. pose proof (month_length_range ey2 m2).
  rewrite i8_id by lia. set (k := Z.quot y 400) in *. set (r := Z.rem y 400) in *. clearbody k r.
  exists (ey2 + 400 * k), m2, d2. rewrite valid_date_cycle. split; [done|]. split.
  - pose proof (day_number_d (ey2 + 400 * k) m2 d2) as H1. rewrite day_number_cycle in H1.
    replace y with (r + 400 * k) by lia. rewrite day_number_cycle. lia.
  - replace (y + (ey2 - r)) with (ey2 + 400 * k) by lia. done.
Qed.

(** ** The other fields *)

(** The year and the month that an unnormalized month stands for. *)
Definition month_year (y m : Z) : Z := y + (m - 1) / 12.
Definition month_of (m : Z) : Z := (m - 1) mod 12 + 1.

(** The second that unnormalized fields stand for. *)
Definition civil_seconds (y m d hh mm ss : Z) : Z :=
  (((day_number (month_year y m) (month_of m) 1 + (d - 1)) * 24 + hh) * 60 + mm) * 60 + ss.

Definition seconds (f : fields) : Z := civil_seconds (fy f) (fm f) (fd f) (fhh f) (fmm f) (fss f).

(** Normalized fields, without the range of the year. *)
Definition in_order (f : fields) : Prop :=
  valid_date (fy f) (fm f) (fd f) /\ 0 <= fhh f < 24 /\ 0 <= fmm f < 60 /\ 0 <= fss f < 60.

Definition valid (f : fields) : Prop := in_i64 (fy f) /\ in_order f.

(** [n_mon] computes years that fit. *)
Definition months_fit (y m : Z) : Prop :=
  (m = 12 \/ in_i64 (y + Z.quot m 12)) /\ in_i64 (month_year y m).

(** The fields that stand for a second, if their year fits. *)
Definition normalizes (r : result fields) (secs : Z) : Prop :=
  exists f, in_order f /\ seconds f = secs /\ r = let* _ := i64 (fy f) in Ok f.

Lemma month_year_valid y m : 1 <= m <= 12 -> month_year y m = y /\ month_of m = m.
Proof. intros. unfold month_year, month_of. lia. Qed.

Lemma seconds_valid f : in_order f ->
  seconds f = ((day_number (fy f) (fm f) (fd f) * 24 + fhh f) * 60 + fmm f) * 60 + fss f.
Proof.
  intros ([Hm _] & _). unfold seconds, civil_seconds. destruct (month_year_valid (fy f) (fm f) Hm) as [-> ->].
  pose proof (day_number_d (fy f) (fm f) (fd f)). lia.
Qed.

Lemma n_mon_ok y m d cd hh mm ss :
  in_i64 y -> in_i64 m -> in_i64 d -> in_i64 cd -> months_fit y m ->
  0 <= hh < 24 -> 0 <= mm < 60 -> 0 <= ss < 60 ->
  normalizes (n_mon y m d cd hh mm ss) (civil_seconds y m d hh mm ss + cd * 86400).
Proof.
  intros Hy Hm Hd Hcd [Hfit1 Hfit2] Hhh Hmm Hss. unfold n_mon.
  match goal with |- normalizes (rbind ?r _) _ =>
    assert (exists y' m', r = Ok (y', m') /\ y' = month_year y m /\ m' = month_of m) as (y' & m' & -> & -> & ->) end.
  { unfold month_year, month_of in *. destruct (quot_rem_bound m 12 Hm) as (Em & Hr & _); [lia|].
    destruct (Z.eqb_spec m 12); cbn [negb]; [eexists _, _; split; [done|]; lia|].
    rewrite i64_ok by tauto. cbn [rbind]. destruct (Z.leb_spec (Z.rem m 12) 0).
    - rewrite i64_ok; [cbn [rbind]; i64_step; eexists _, _; split; [done|]; lia|].
      replace (y + Z.quot m 12 - 1) with (y + (m - 1) / 12) by lia. done.
    - eexists _, _. split; [done|]. lia. }
  cbn [rbind]. assert (Hmo : 1 <= month_of m <= 12) by (unfold month_of; lia).
  rewrite i8_id by lia.
  destruct (n_day_ok (month_year y m) (month_of m) d cd hh mm ss) as (y' & m' & d' & Hv & Hdn & ->); [done..|].
  exists (mkFields y' m' d' hh mm ss). assert (Ho : in_order (mkFields y' m' d' hh mm ss)) by done.
  split; [done|]. split; [|by cbn [fy]; destruct (i64 y') eqn:E; [apply i64_Ok in E as [-> _]|]].
  rewrite seconds_valid by done. cbn [fy fm fd fhh fmm fss]. unfold civil_seconds. rewrite Hdn. lia.
Qed.

Lemma carry_ok base q r :
  0 < base <= 60 -> - base < r < base -> - 2 ^ 62 <= q <= 2 ^ 62 ->
  exists q' r', carry base q r = Ok (q', r') /\ q' * base + r' = q * base + r /\ 0 <= r' < base /\
    q - 1 <= q' <= q.
Proof.
  intros Hb Hr Hq. unfold carry. destruct (Z.ltb_spec r 0); [repeat i64_step|]; eexists _, _; (split; [done|]); lia.
Qed.

(** Quotient and remainder of an argument by the size of its field. *)
Ltac split_field z n :=
  let H := fresh "Hdiv" in
  match goal with Hz : in_i64 z |- _ => pose proof (quot_rem_bound z n Hz ltac:(lia)) as H end.

Lemma n_hour_ok y m d cd hh mm ss :
  in_i64 y -> in_i64 m -> in_i64 d -> in_i64 hh -> - 2 ^ 61 <= cd <= 2 ^ 61 -> months_fit y m ->
  0 <= mm < 60 -> 0 <= ss < 60 ->
  normalizes (n_hour y m d cd hh mm ss) (civil_seconds y m d hh mm ss + cd * 86400).
Proof.
  intros Hy Hm Hd Hhh Hcd Hfit Hmm Hss. unfold n_hour. split_field hh 24.
  i64_step. destruct (carry_ok 24 (cd + Z.quot hh 24) (Z.rem hh 24)) as (cd' & hh' & -> & Heq & ? & ?); [lia..|].
  cbn [rbind]. rewrite i8_id by lia.
  destruct (n_mon_ok y m d cd' hh' mm ss) as (f & Ho & Hs & Hr); try done; [unfold in_i64; lia|].
  exists f. split; [done|]. split; [|done]. rewrite Hs. unfold civil_seconds. lia.
Qed.

Lemma n_min_ok y m d hh ch mm ss :
  in_i64 y -> in_i64 m -> in_i64 d -> in_i64 hh -> - 2 ^ 61 <= ch <= 2 ^ 61 -> in_i64 mm -> months_fit y m ->
  0 <= ss < 60 ->
  normalizes (n_min y m d hh ch mm ss) (civil_seconds y m d (hh + ch) mm ss).
Proof.
  intros Hy Hm Hd Hhh Hch Hmm Hfit Hss. unfold n_min. split_field mm 60. split_field hh 24.
  i64_step. destruct (carry_ok 60 (ch + Z.quot mm 60) (Z.rem mm 60)) as (ch' & mm' & -> & Heq & ? & ?); [lia..|].
  cbn [rbind]. assert (Hch' : in_i64 ch') by (unfold in_i64; lia). split_field ch' 24.
  repeat i64_step. rewrite i8_id by lia.
  destruct (n_hour_ok y m d (Z.quot hh 24 + Z.quot ch' 24) (Z.rem hh 24 + Z.rem ch' 24) mm' ss)
    as (f & Ho & Hs & Hr); try done; [unfold in_i64; lia|lia|].
  exists f. split; [done|]. split; [|done]. rewrite Hs. unfold civil_seconds. lia.
Qed.

(** The constructor: whichever way the fields are out of range. *)
Lemma n_sec_ok y m d hh mm ss :
  in_i64 y -> in_i64 m -> in_i64 d -> in_i64 hh -> in_i64 mm -> in_i64 ss -> months_fit y m ->
  normalizes (n_sec y m d hh mm ss) (civil_seconds y m d hh mm ss).
Proof.
  intros Hy Hm Hd Hhh Hmm Hss Hfit. unfold n_sec.
  assert (Hto : forall r s s', normalizes r s -> s = s' -> normalizes r s') by by intros r s s' ? <-.
  split_field ss 60. split_field mm 60. split_field hh 24.
  destruct (Z.leb_spec 0 ss), (Z.ltb_spec ss 60); cbn [andb];
    [destruct (Z.leb_spec 0 mm), (Z.ltb_spec mm 60); cbn [andb];
      [destruct (Z.leb_spec 0 hh), (Z.ltb_spec hh 24); cbn [andb]|..]|..].
  1: case_match; bools.
  1:{ rewrite !i8_id by lia. exists (mkFields y m d hh mm ss). unfold in_order, valid_date.
      cbn [fy fm fd fhh fmm fss]. pose proof (month_length_range y m). rewrite i64_ok by done.
      split; [lia|]. split; [done|]. done. }
  1:{ rewrite !i8_id by lia. eapply Hto; [apply n_mon_ok; try done; lia|]. lia. }
  1-3: rewrite !i8_id by lia; eapply Hto;
    [apply n_hour_ok; try done; unfold in_i64; lia|unfold civil_seconds; lia].
  1-3: rewrite !i8_id by lia; eapply Hto;
    [apply n_min_ok; try done; unfold in_i64; lia|unfold civil_seconds; lia].
  all: destruct (carry_ok 60 (Z.quot ss 60) (Z.rem ss 60)) as (cm & ss' & -> & Heq & ? & ?); [lia..|];
    cbn [rbind]; assert (Hcm : in_i64 cm) by (unfold in_i64; lia); split_field cm 60;
    repeat i64_step; rewrite i8_id by lia; eapply Hto;
    [apply n_min_ok; try done; unfold in_i64; lia|unfold civil_seconds; lia].
Qed.

(** * arithmetic of civil times

    A civil time aligned to [t] stands for a number of units since the epoch
    ([number t]); steps add to it, differences subtract, comparison orders by
    it, and the weekday is its day modulo seven. *)

Import cctz.

#[local] Ltac Zify.zify_post_hook ::= Z.to_euclidean_division_equations.

Definition fields_day (f : fields) : Z := day_number (fy f) (fm f) (fd f).

Definition number (t : tag) (f : fields) : Z :=
  match t with
  | year_tag => fy f
  | month_tag => 12 * fy f + (fm f - 1)
  | day_tag => fields_day f
  | hour_tag => fields_day f * 24 + fhh f
  | minute_tag => (fields_day f * 24 + fhh f) * 60 + fmm f
  | second_tag => ((fields_day f * 24 + fhh f) * 60 + fmm f) * 60 + fss f
  end.

Definition aligned (t : tag) (f : fields) : Prop := align t f = f.

Lemma number_second f : in_order f -> number second_tag f = seconds f.
Proof. intros Ho. by rewrite (seconds_valid f Ho). Qed.

Lemma in_order_align t f : in_order f -> in_order (align t f).
Proof.
  intros ([? ?] & ? & ? & ?). pose proof (month_length_range (fy f) (fm f)).
  pose proof (month_length_range (fy f) 1). unfold in_order, valid_date.
  destruct t; cbn [align fy fm fd fhh fmm fss]; lia.
Qed.

(** A number determines the aligned fields. *)
Lemma number_inj t f g :
  in_order f -> in_order g -> aligned t f -> aligned t g -> number t f = number t g -> f = g.
Proof.
  intros (Hf & ? & ? & ?) (Hg & ? & ? & ?) Haf Hag Heq.
  assert (Hday : fields_day f = fields_day g -> fy f = fy g /\ fm f = fm g /\ fd f = fd g)
    by by apply day_number_inj.
  rewrite <- Haf, <- Hag.
  destruct t; cbn [number] in Heq; cbn [align].
  1-4: destruct Hday as (? & ? & ?); [lia|]; destruct f, g; cbn [fy fm fd fhh fmm fss] in *; f_equal; lia.
  - destruct Hf, Hg. f_equal; lia.
  - by rewrite Heq.
Qed.

(** ** Steps *)

(** The fields with the right number, if their year fits. *)
Definition steps_to (t : tag) (r : result fields) (n : Z) : Prop :=
  exists g, in_order g /\ aligned t g /\ number t g = n /\ r = let* _ := i64 (fy g) in Ok g.

Lemma months_fit_valid y m : in_i64 y -> 1 <= m <= 12 -> months_fit y m.
Proof. intros Hy Hm. unfold months_fit, month_year, in_i64 in *. lia. Qed.

(** Fields whose second is a multiple of the unit are aligned. *)
Lemma normalizes_steps t r secs n unit :
  (t = second_tag /\ unit = 1 \/ t = minute_tag /\ unit = 60 \/ t = hour_tag /\ unit = 3600 \/
   t = day_tag /\ unit = 86400) ->
  normalizes r secs -> secs = unit * n -> steps_to t r n.
Proof.
  intros Ht (g & Ho & Hs & Hr) ->. exists g. split; [done|]. rewrite (seconds_valid g Ho) in Hs.
  fold (fields_day g) in Hs. pose proof Ho as (_ & ? & ? & ?). unfold aligned.
  destruct g as [y m d hh mm ss]. cbn [fy fm fd fhh fmm fss] in *.
  destruct Ht as [[-> ->]|[[-> ->]|[[-> ->]|[-> ->]]]]; cbn [align number fy fm fd fhh fmm fss];
    (split; [f_equal; lia|]); (split; [lia|done]).
Qed.

Lemma step_second a n : valid a -> in_i64 n -> steps_to second_tag (step second_tag a n) (number second_tag a + n).
Proof.
  intros [Hy Ho] Hn. pose proof Ho as ([Hm Hd] & ? & ? & ?). pose proof (month_length_range (fy a) (fm a)).
  split_field n 60. cbn [step]. repeat i64_step.
  eapply (normalizes_steps _ _ _ _ 1); [by left|apply n_sec_ok; try done; try (unfold in_i64; lia)|].
  - by apply months_fit_valid.
  - rewrite number_second, seconds_valid by done. unfold civil_seconds.
    destruct (month_year_valid (fy a) (fm a) Hm) as [-> ->].
    pose proof (day_number_d (fy a) (fm a) (fd a)). lia.
Qed.

Lemma step_minute a n : valid a -> aligned minute_tag a -> in_i64 n ->
  steps_to minute_tag (step minute_tag a n) (number minute_tag a + n).
Proof.
  intros [Hy Ho] Hal Hn. pose proof Ho as ([Hm Hd] & ? & ? & ?). pose proof (month_length_range (fy a) (fm a)).
  split_field n 60. cbn [step]. repeat i64_step.
  eapply (normalizes_steps _ _ _ _ 60); [by right; left|apply n_min_ok; try done; try (unfold in_i64; lia)|].
  - by apply months_fit_valid.
  - unfold civil_seconds. destruct (month_year_valid (fy a) (fm a) Hm) as [-> ->].
    assert (fss a = 0) by (by rewrite <- Hal). cbn [number]. unfold fields_day.
    pose proof (day_number_d (fy a) (fm a) (fd a)). lia.
Qed.

Lemma step_hour a n : valid a -> aligned hour_tag a -> in_i64 n ->
  steps_to hour_tag (step hour_tag a n) (number hour_tag a + n).
Proof.
  intros [Hy Ho] Hal Hn. pose proof Ho as ([Hm Hd] & ? & ? & ?). pose proof (month_length_range (fy a) (fm a)).
  split_field n 24. cbn [step]. repeat i64_step.
  eapply (normalizes_steps _ _ _ _ 3600); [by right; right; left|apply n_hour_ok; try done; try (unfold in_i64; lia)|].
  - by apply months_fit_valid.
  - unfold civil_seconds. destruct (month_year_valid (fy a) (fm a) Hm) as [-> ->].
    assert (fss a = 0 /\ fmm a = 0) as [? ?] by (by rewrite <- Hal). cbn [number]. unfold fields_day.
    pose proof (day_number_d (fy a) (fm a) (fd a)). lia.
Qed.

Lemma step_day a n : valid a -> aligned day_tag a -> in_i64 n ->
  steps_to day_tag (step day_tag a n) (number day_tag a + n).
Proof.
  intros [Hy Ho] Hal Hn. pose proof Ho as ([Hm Hd] & ? & ? & ?). pose proof (month_length_range (fy a) (fm a)).
  assert (fss a = 0 /\ fmm a = 0 /\ fhh a = 0) as (E1 & E2 & E3) by (by rewrite <- Hal).
  cbn [step number]. destruct (n_day_ok (fy a) (fm a) (fd a) n (fhh a) (fmm a) (fss a))
    as (y & m & d & Hv & Hdn & ->); [done|done|unfold in_i64; lia|done|].
  exists (mkFields y m d (fhh a) (fmm a) (fss a)). rewrite E1, E2, E3. split; [by split|]. split; [done|].
  cbn [number]. unfold fields_day. cbn [fy fm fd]. pose proof (day_number_d (fy a) (fm a) (fd a)). split; [lia|].
  by destruct (i64 y) eqn:E; [apply i64_Ok in E as [-> _]|].
Qed.

(** ** Months *)

Lemma n_mon_unfit y m d cd hh mm ss : in_i64 y -> ~ months_fit y m -> n_mon y m d cd hh mm ss = Err Undefined.
Proof.
  intros Hy Hno. unfold n_mon, months_fit, month_year in *. destruct (Z.eqb_spec m 12) as [->|Hne]; cbn [negb].
  { exfalso. apply Hno. split; [by left|]. by replace (y + (12 - 1) / 12) with y by lia. }
  destruct (decide (in_i64 (y + Z.quot m 12))) as [Hq|Hq]; [|by rewrite i64_overflow].
  rewrite i64_ok by done. cbn [rbind]. destruct (Z.leb_spec (Z.rem m 12) 0).
  - rewrite i64_overflow; [done|]. intros Hz. apply Hno. split; [by right|].
    by replace (y + (m - 1) / 12) with (y + Z.quot m 12 - 1) by lia.
  - exfalso. apply Hno. split; [by right|]. by replace (y + (m - 1) / 12) with (y + Z.quot m 12) by lia.
Qed.

(** Every second has its fields: those of the cycle from 1970 on, moved by
    whole cycles. *)
Lemma civil_exists secs : exists f, in_order f /\ seconds f = secs.
Proof.
  set (k := secs / 86400 / 146097).
  destruct (n_sec_ok 1970 1 (1 + secs / 86400 mod 146097) 0 0 (secs mod 86400)) as (f & Ho & Hs & _);
    try (unfold in_i64; lia); [by apply months_fit_valid|].
  exists (mkFields (fy f + 400 * k) (fm f) (fd f) (fhh f) (fmm f) (fss f)).
  assert (Ho' : in_order (mkFields (fy f + 400 * k) (fm f) (fd f) (fhh f) (fmm f) (fss f))).
  { destruct Ho as [Hd ?]. split; [|done]. cbn [fy fm fd]. by apply valid_date_cycle. }
  split; [done|]. rewrite seconds_valid in Hs |- * by done. cbn [fy fm fd fhh fmm fss].
  pose proof (day_number_d (fy f) (fm f) (fd f)). pose proof (day_number_d (fy f + 400 * k) (fm f) (fd f)).
  rewrite day_number_cycle in *. unfold civil_seconds in Hs.
  destruct (month_year_valid 1970 1 ltac:(lia)) as [E1 E2]. rewrite E1, E2, day_number_epoch in Hs. lia.
Qed.

(** Every way of the constructor ends in [n_mon], where months that do not fit
    overflow. *)
Lemma n_hour_unfit y m d cd hh mm ss :
  in_i64 y -> in_i64 hh -> - 2 ^ 61 <= cd <= 2 ^ 61 -> ~ months_fit y m -> n_hour y m d cd hh mm ss = Err Undefined.
Proof.
  intros Hy Hhh Hcd Hno. unfold n_hour. split_field hh 24. i64_step.
  destruct (carry_ok 24 (cd + Z.quot hh 24) (Z.rem hh 24)) as (cd' & hh' & -> & _); [lia..|]. by apply n_mon_unfit.
Qed.

Lemma n_min_unfit y m d hh ch mm ss :
  in_i64 y -> in_i64 hh -> - 2 ^ 61 <= ch <= 2 ^ 61 -> in_i64 mm -> ~ months_fit y m ->
  n_min y m d hh ch mm ss = Err Undefined.
Proof.
  intros Hy Hhh Hch Hmm Hno. unfold n_min. split_field mm 60. split_field hh 24. i64_step.
  destruct (carry_ok 60 (ch + Z.quot mm 60) (Z.rem mm 60)) as (ch' & mm' & -> & _ & _ & ?); [lia..|]. cbn [rbind].
  assert (Hch' : in_i64 ch') by (unfold in_i64; lia). split_field ch' 24. repeat i64_step.
  apply n_hour_unfit; try done; unfold in_i64; lia.
Qed.

Lemma n_sec_unfit y m d hh mm ss :
  in_i64 y -> in_i64 hh -> in_i64 mm -> in_i64 ss -> ~ months_fit y m -> n_sec y m d hh mm ss = Err Undefined.
Proof.
  intros Hy Hhh Hmm Hss Hno. unfold n_sec. split_field ss 60. split_field mm 60. split_field hh 24.
  destruct (carry_ok 60 (Z.quot ss 60) (Z.rem ss 60)) as (cm & ss' & -> & _ & _ & ?); [lia..|]. cbn [rbind].
  assert (Hcm : in_i64 cm) by (unfold in_i64; lia). split_field cm 60.
  destruct (_ && _); [destruct (_ && _); [destruct (_ && _); [destruct (_ && _ && _) eqn:E|]|]|].
  - exfalso. bools. apply Hno, months_fit_valid; [done|lia].
  - by apply n_mon_unfit.
  - apply n_hour_unfit; try done; unfold in_i64; lia.
  - apply n_min_unfit; try done; unfold in_i64; lia.
  - repeat i64_step. apply n_min_unfit; try done; unfold in_i64; lia.
Qed.

(** The fields of a month. *)
Lemma n_mon_month y m : in_i64 y -> in_i64 m ->
  months_fit y m -> n_mon y m 1 0 0 0 0 = Ok (mkFields (month_year y m) (month_of m) 1 0 0 0).
Proof.
  intros Hy Hm Hfit. destruct (n_mon_ok y m 1 0 0 0 0) as (g & Ho & Hs & ->); try done.
  set (f := mkFields (month_year y m) (month_of m) 1 0 0 0).
  assert (Hmo : 1 <= month_of m <= 12) by (unfold month_of; lia).
  assert (Hof : in_order f).
  { unfold in_order, valid_date. cbn [f fy fm fd fhh fmm fss]. pose proof (month_length_range (month_year y m) (month_of m)).
    lia. }
  assert (g = f) as ->.
  { apply (number_inj second_tag); try done. rewrite !number_second by done. rewrite Hs.
    unfold seconds, civil_seconds. cbn [f fy fm fd fhh fmm fss].
    destruct (month_year_valid (month_year y m) (month_of m) Hmo) as [-> ->]. lia. }
  cbn [f fy]. by rewrite i64_ok by apply Hfit.
Qed.

Lemma step_month a n : valid a -> aligned month_tag a -> in_i64 n ->
  steps_to month_tag (step month_tag a n) (number month_tag a + n).
Proof.
  intros [Hy Ho] Hal Hn. pose proof Ho as ([Hm Hd] & _). split_field n 12.
  assert (fd a = 1 /\ fhh a = 0 /\ fmm a = 0 /\ fss a = 0) as (E1 & E2 & E3 & E4) by (by rewrite <- Hal).
  cbn [step number]. rewrite E1, E2, E3, E4.
  set (y := fy a + Z.quot n 12) in *. set (m := fm a + Z.rem n 12) in *.
  exists (mkFields (month_year y m) (month_of m) 1 0 0 0).
  assert (Hmo : 1 <= month_of m <= 12) by (unfold month_of; lia).
  split; [|split; [done|split]].
  - unfold in_order, valid_date. cbn [fy fm fd fhh fmm fss].
    pose proof (month_length_range (month_year y m) (month_of m)). lia.
  - cbn [number fy fm]. unfold month_year, month_of. lia.
  - cbn [fy]. destruct (decide (in_i64 y)) as [Hy'|Hy'].
    + rewrite i64_ok by done. cbn [rbind]. assert (Hm' : in_i64 m) by (unfold in_i64; lia).
      rewrite i64_ok by done. cbn [rbind]. destruct (decide (in_i64 (month_year y m))) as [Hf|Hf].
      * rewrite (i64_ok (month_year y m)) by done. cbn [rbind]. apply n_mon_month; [done|done|].
        split; [|done]. destruct (decide (m = 12)); [by left|right].
        unfold month_year, in_i64 in *. lia.
      * rewrite (i64_overflow (month_year y m)) by done. cbn [rbind]. apply n_mon_unfit; [done|]. by intros [_ ?].
    + rewrite i64_overflow by done. cbn [rbind]. rewrite i64_overflow; [done|].
      unfold month_year, in_i64 in *. lia.
Qed.

Lemma step_year a n : valid a -> aligned year_tag a -> in_i64 n ->
  steps_to year_tag (step year_tag a n) (number year_tag a + n).
Proof.
  intros [Hy Ho] Hal Hn. cbn [step number]. exists (mkFields (fy a + n) 1 1 0 0 0).
  split; [unfold in_order, valid_date; cbn; pose proof (month_length_range (fy a + n) 1); lia|].
  split; [done|]. split; [done|]. cbn [fy]. unfold aligned in Hal. cbn [align] in Hal.
  assert (fm a = 1 /\ fd a = 1 /\ fhh a = 0 /\ fmm a = 0 /\ fss a = 0) as (-> & -> & -> & -> & ->)
    by (by rewrite <- Hal).
  by destruct (i64 (fy a + n)) eqn:E; [apply i64_Ok in E as [-> _]|].
Qed.

Lemma civil_step_ok t a n : valid a -> aligned t a -> in_i64 n -> steps_to t (step t a n) (number t a + n).
Proof.
  intros. destruct t; [apply step_second|apply step_minute|apply step_hour|apply step_day|apply step_month|
    apply step_year]; done.
Qed.

(** ** Sums and differences of a civil time and a number *)

Lemma steps_to_align t r n : steps_to t r n -> steps_to t (let* f := r in Ok (align t f)) n.
Proof.
  intros (g & Ho & Hal & Hn & ->). exists g. split_and!; try done.
  destruct (i64 (fy g)); [|done]. cbn [rbind]. by rewrite Hal.
Qed.

Lemma civil_add_ok t a n : valid a -> aligned t a -> in_i64 n -> steps_to t (civil_add t a n) (number t a + n).
Proof. intros. by apply steps_to_align, civil_step_ok. Qed.

Lemma number_year_le t f g : in_order f -> in_order g -> number t f <= number t g -> fy f <= fy g.
Proof.
  intros (Hf & ? & ? & ?) (Hg & ? & ? & ?) Hle. destruct (Z.le_gt_cases (fy f) (fy g)) as [|Hlt]; [done|].
  pose proof (day_number_month_lt _ _ _ _ _ _ Hg Hf (or_introl Hlt)) as Hday.
  fold (fields_day f) (fields_day g) in Hday. destruct Hf as [? _], Hg as [? _].
  destruct t; cbn [number] in Hle; lia.
Qed.

(** Every number stands for some fields. *)
Lemma date_exists n : exists y m d, valid_date y m d /\ day_number y m d = n.
Proof.
  destruct (n_day_ok 1970 1 1 (n mod 146097) 0 0 0) as (y & m & d & Hv & Hdn & _); try (unfold in_i64; lia).
  exists (y + 400 * (n / 146097)), m, d. rewrite valid_date_cycle. split; [done|].
  pose proof (day_number_d y m d). pose proof (day_number_d (y + 400 * (n / 146097)) m d) as H2.
  rewrite day_number_cycle in H2. change (day_number 1970 1 1) with 0 in Hdn. lia.
Qed.

Lemma number_exists t n : exists g, in_order g /\ aligned t g /\ number t g = n.
Proof.
  set (day := match t with second_tag => n / 86400 | minute_tag => n / 1440 | hour_tag => n / 24 | _ => n end).
  destruct (date_exists day) as (y & m & d & Hv & Hdn).
  exists match t with
    | second_tag => mkFields y m d (n mod 86400 / 3600) (n mod 3600 / 60) (n mod 60)
    | minute_tag => mkFields y m d (n mod 1440 / 60) (n mod 60) 0
    | hour_tag => mkFields y m d (n mod 24) 0 0
    | day_tag => mkFields y m d 0 0 0
    | month_tag => mkFields (n / 12) (n mod 12 + 1) 1 0 0 0
    | year_tag => mkFields n 1 1 0 0 0
    end.
  pose proof (month_length_range (n / 12) (n mod 12 + 1)). pose proof (month_length_range n 1).
  unfold in_order, valid_date in *.
  destruct t; cbn [align fy fm fd fhh fmm fss number]; unfold fields_day; cbn [fy fm fd];
    (split; [lia|]); (split; [done|]); try rewrite Hdn; subst day; cbv beta iota; lia.
Qed.

Lemma civil_sub_ok t a n : valid a -> aligned t a -> in_i64 n -> steps_to t (civil_sub t a n) (number t a - n).
Proof.
  intros Ha Hal Hn. unfold civil_sub. destruct (Z.eqb_spec n int64_min) as [->|Hne]; cbn [negb].
  - unfold int64_min. repeat i64_step.
    destruct (civil_step_ok t a (- (- 2 ^ 63 + 1)) Ha Hal ltac:(unfold in_i64; lia)) as (f & Ho & Hfal & Hnum & ->).
    destruct (decide (in_i64 (fy f))) as [Hy|Hy].
    + rewrite i64_ok by done. cbn [rbind]. apply (steps_to_align t).
      replace (number t a - - 2 ^ 63) with (number t f + 1) by lia. apply civil_step_ok; [by split|done|unfold in_i64; lia].
    + rewrite i64_overflow by done. destruct (number_exists t (number t a - - 2 ^ 63)) as (g & Hg & Hgal & Hgn).
      exists g. split_and!; try done. cbn [rbind]. rewrite i64_overflow; [done|].
      destruct Ha as [Hya Hoa].
      pose proof (number_year_le t a f Hoa Ho ltac:(lia)). pose proof (number_year_le t f g Ho Hg ltac:(lia)).
      unfold in_i64 in *. lia.
  - unfold int64_min in Hne. rewrite (i64_ok (- n)) by (unfold in_i64 in *; lia). cbn [rbind].
    apply steps_to_align. replace (number t a - n) with (number t a + - n) by lia.
    apply civil_step_ok; [done|done|unfold in_i64 in *; lia].
Qed.

(** ** Differences of civil times *)

Lemma scale_add_ok v f a : 0 < f <= 60 -> - f < a < f -> in_i64 (v * f + a) -> scale_add v f a = Ok (v * f + a).
Proof.
  intros Hf Ha Hr. unfold scale_add. unfold in_i64 in Hr.
  assert (Hv : - 2 ^ 63 <= v < 2 ^ 63) by nia.
  destruct (Z.ltb_spec v 0).
  - i64_step. rewrite i64_ok by (unfold in_i64; nia). cbn [rbind]. rewrite i64_ok by (unfold in_i64; nia). cbn [rbind].
    rewrite i64_ok by (unfold in_i64; nia). f_equal. lia.
  - i64_step. rewrite i64_ok by (unfold in_i64; nia). cbn [rbind]. rewrite i64_ok by (unfold in_i64; nia). cbn [rbind].
    rewrite i64_ok by (unfold in_i64; nia). f_equal. lia.
Qed.

Lemma ymd_ord_ok y m d : - 400 < y < 400 -> 1 <= m <= 12 -> 1 <= d <= 31 -> ymd_ord y m d = Ok (day_number y m d).
Proof.
  intros Hy Hm Hd. unfold ymd_ord, day_number.
  assert (exists e, (if m <=? 2 then i64 (y - 1) else Ok y) = Ok e /\ e = (if m <=? 2 then y - 1 else y)) as (e & -> & He).
  { destruct (m <=? 2); [i64_step|]; eauto. }
  cbn [rbind]. rewrite <- He. assert (- 401 < e < 400) by (case_match; lia). clear He.
  assert (exists k, (if 0 <=? e then Ok e else i64 (e - 399)) = Ok k /\ Z.quot k 400 = e / 400) as (k & -> & Hk).
  { destruct (Z.leb_spec 0 e); [|i64_step]; eexists; (split; [done|]); lia. }
  cbn [rbind]. rewrite Hk. assert (Hmo : (if 2 <? m then -3 else 9) + m = (m + 9) mod 12) by (case_match; bools; lia).
  rewrite (Z.add_comm m), Hmo. set (p := (153 * ((m + 9) mod 12) + 2)). assert (0 <= p <= 1685) by lia. clearbody p.
  repeat i64_step. f_equal. lia.
Qed.

Lemma fields_day_cycle y k m d : day_number (y + 400 * k) m d = day_number y m d + 146097 * k.
Proof.
  pose proof (day_number_d (y + 400 * k) m d) as H1. pose proof (day_number_d y m d).
  rewrite day_number_cycle in H1. lia.
Qed.

Lemma valid_date_range y m d : - 400 < y < 400 -> valid_date y m d ->
  -865260 < day_number y m d < -573431.
Proof.
  intros Hy Hv.
  pose proof (day_number_month_lt (-400) 12 31 y m d ltac:(split; [lia|done]) Hv ltac:(lia)) as Hlo.
  pose proof (day_number_month_lt y m d 400 1 1 Hv ltac:(split; [lia|done]) ltac:(lia)) as Hhi.
  change (day_number (-400) 12 31) with (-865260) in Hlo. change (day_number 400 1 1) with (-573431) in Hhi. lia.
Qed.

Lemma day_difference_ok f1 f2 :
  valid f1 -> valid f2 -> in_i64 (fields_day f1 - fields_day f2) ->
  difference_day f1 f2 = Ok (fields_day f1 - fields_day f2).
Proof.
  intros [Hy1 [Hv1 _]] [Hy2 [Hv2 _]] Hr. unfold difference_day, day_difference, fields_day in *.
  pose proof (quot_rem_bound (fy f1) 400 Hy1 ltac:(lia)) as (E1 & R1 & B1).
  pose proof (quot_rem_bound (fy f2) 400 Hy2 ltac:(lia)) as (E2 & R2 & B2).
  set (q1 := Z.quot (fy f1) 400) in *. set (r1 := Z.rem (fy f1) 400) in *.
  set (q2 := Z.quot (fy f2) 400) in *. set (r2 := Z.rem (fy f2) 400) in *. clearbody q1 r1 q2 r2.
  rewrite E1, (Z.add_comm _ r1) in Hv1, Hy1, Hr |- *. rewrite E2, (Z.add_comm _ r2) in Hv2, Hy2, Hr |- *.
  rewrite valid_date_cycle in Hv1, Hv2. rewrite !fields_day_cycle in Hr |- *.
  pose proof (valid_date_range r1 _ _ R1 Hv1). pose proof (valid_date_range r2 _ _ R2 Hv2).
  pose proof Hv1 as [Hm1 Hd1]. pose proof Hv2 as [Hm2 Hd2].
  pose proof (month_length_range r1 (fm f1)). pose proof (month_length_range r2 (fm f2)).
  rewrite !ymd_ord_ok by lia. set (o1 := day_number r1 _ _) in *. set (o2 := day_number r2 _ _) in *.
  clearbody o1 o2. unfold in_i64 in *. repeat i64_step.
  replace (r1 + 400 * q1 - r1 - (r2 + 400 * q2 - r2)) with (400 * (q1 - q2)) by lia.
  set (k := q1 - q2) in *. assert (Ek : o1 + 146097 * q1 - (o2 + 146097 * q2) = o1 - o2 + 146097 * k) by lia.
  rewrite Ek in *. clearbody k. set (delta := o1 - o2) in *. assert (- 292194 < delta < 292194) by lia. clearbody delta.
  destruct (Z.ltb_spec 0 (400 * k)), (Z.ltb_spec delta 0), (Z.ltb_spec (400 * k) 0), (Z.ltb_spec 0 delta);
    cbn [andb]; try lia; repeat i64_step; cbn [rbind];
    (replace (Z.quot _ 400) with k by lia) || (replace (Z.quot _ 400) with (k - 2) by lia) ||
      (replace (Z.quot _ 400) with (k + 2) by lia); repeat i64_step; try (f_equal; lia).
Qed.

Lemma difference_ok t f1 f2 :
  valid f1 -> valid f2 -> in_i64 (number t f1 - number t f2) ->
  difference t f1 f2 = Ok (number t f1 - number t f2).
Proof.
  intros Hf1 Hf2. pose proof (day_difference_ok f1 f2 Hf1 Hf2) as Hday.
  destruct Hf1 as [Hy1 ([? _] & ? & ? & ?)], Hf2 as [Hy2 ([? _] & ? & ? & ?)].
  assert (Hscale : forall (r : result Z) v f a, 0 < f <= 60 -> - f < a < f -> in_i64 (v * f + a) ->
    (in_i64 v -> r = Ok v) -> (let* v := r in scale_add v f a) = Ok (v * f + a)).
  { intros r v f a Hf Ha Hv Hrv. rewrite Hrv by (unfold in_i64 in *; nia). by apply scale_add_ok. }
  assert (Hhour : in_i64 (number hour_tag f1 - number hour_tag f2) ->
    difference_hour f1 f2 = Ok (number hour_tag f1 - number hour_tag f2)).
  { intros Hr. unfold difference_hour. cbn [number] in *.
    replace (fields_day f1 * 24 + fhh f1 - (fields_day f2 * 24 + fhh f2)) with
      ((fields_day f1 - fields_day f2) * 24 + (fhh f1 - fhh f2)) in * by lia. apply Hscale; try done; lia. }
  assert (Hminute : in_i64 (number minute_tag f1 - number minute_tag f2) ->
    difference_minute f1 f2 = Ok (number minute_tag f1 - number minute_tag f2)).
  { intros Hr. unfold difference_minute. cbn [number] in *. set (h1 := _ + fhh f1) in *. set (h2 := _ + fhh f2) in *.
    replace (h1 * 60 + fmm f1 - (h2 * 60 + fmm f2)) with ((h1 - h2) * 60 + (fmm f1 - fmm f2)) in * by lia.
    apply Hscale; try done; lia. }
  intros Hr. destruct t; cbn [difference]; try by auto.
  - unfold difference_second. cbn [number] in *. set (h1 := _ + fmm f1) in *. set (h2 := _ + fmm f2) in *.
    replace (h1 * 60 + fss f1 - (h2 * 60 + fss f2)) with ((h1 - h2) * 60 + (fss f1 - fss f2)) in * by lia.
    apply Hscale; try done; lia.
  - unfold difference_month, difference_year. cbn [number] in *.
    replace (12 * fy f1 + (fm f1 - 1) - (12 * fy f2 + (fm f2 - 1))) with ((fy f1 - fy f2) * 12 + (fm f1 - fm f2)) in *
      by lia. apply Hscale; try done; try lia. intros Hv. by rewrite i64_ok.
  - unfold difference_year. cbn [number] in *. by rewrite i64_ok.
Qed.

(** ** Comparison *)

Lemma civil_eq_spec f g : civil_eq f g = true <-> f = g.
Proof.
  unfold civil_eq. rewrite !andb_true_iff, !Z.eqb_eq. destruct f, g. cbn. split; [|by intros [= ]; subst].
  intros (((((? & ?) & ?) & ?) & ?) & ?). by subst.
Qed.

Lemma civil_lt_spec f g : in_order f -> in_order g -> civil_lt f g = true <-> seconds f < seconds g.
Proof.
  intros Hf Hg. rewrite !seconds_valid by done. unfold civil_lt.
  destruct Hf as (Hf & ? & ? & ?), Hg as (Hg & ? & ? & ?).
  pose proof (day_number_month_lt _ _ _ _ _ _ Hf Hg) as Hlt. pose proof (day_number_month_lt _ _ _ _ _ _ Hg Hf) as Hgt.
  assert (Hd : fy f = fy g -> fm f = fm g ->
    day_number (fy f) (fm f) (fd f) - day_number (fy g) (fm g) (fd g) = fd f - fd g).
  { intros -> ->. rewrite (day_number_shift _ _ (fd f)), (day_number_shift _ _ (fd g)). lia. }
  rewrite !orb_true_iff, !andb_true_iff, !orb_true_iff, !andb_true_iff, !orb_true_iff, !andb_true_iff,
    !orb_true_iff, !andb_true_iff, !orb_true_iff, !andb_true_iff, !Z.ltb_lt, !Z.eqb_eq. lia.
Qed.

(** ** Weekdays and days of the year *)

(** 1970-01-01 was a Thursday. *)
Definition weekdays : list weekday := [monday; tuesday; wednesday; thursday; friday; saturday; sunday].
Definition weekday_of (day : Z) : weekday := nth (Z.to_nat ((day + 3) mod 7)) weekdays monday.

Lemma at_index_nth {A} (l : list A) i (a : A) : 0 <= i < Z.of_nat (length l) -> at_index l i = Ok (nth (Z.to_nat i) l a).
Proof.
  intros Hi. unfold at_index. rewrite (proj2 (Z.leb_le 0 i)) by lia.
  destruct (nth_lookup_or_length l (Z.to_nat i) a) as [->|]; [done|lia].
Qed.

Lemma weekday_index w : 0 <= w < 7 ->
  at_index k_weekday_by_mon_off (w + 6) = Ok (nth (Z.to_nat ((w + 6) mod 7)) weekdays monday).
Proof.
  intros Hw. assert (w = 0 \/ w = 1 \/ w = 2 \/ w = 3 \/ w = 4 \/ w = 5 \/ w = 6) as Hc by lia.
  repeat (destruct Hc as [->|Hc]; [reflexivity|]). by subst.
Qed.

Lemma weekday_offset m : 1 <= m <= 12 ->
  exists k, at_index k_weekday_offsets m = Ok k /\ 0 <= k <= 6 /\
    k mod 7 = ((153 * ((m + 9) mod 12) + 2) / 5 + 2) mod 7.
Proof. intros Hm. by_month m; eexists; (split; [reflexivity|]); by vm_compute. Qed.

Lemma get_weekday_ok f : valid f -> get_weekday f = Ok (weekday_of (fields_day f)).
Proof.
  intros [Hy ([Hm Hd] & _)]. unfold get_weekday, fields_day.
  pose proof (quot_rem_bound (fy f) 400 Hy ltac:(lia)) as (E & R & _).
  set (q := Z.quot (fy f) 400) in *. set (r := Z.rem (fy f) 400) in *. clearbody q r.
  replace (fy f) with (r + 400 * q) by lia. rewrite fields_day_cycle.
  destruct (weekday_offset (fm f) Hm) as (k & -> & Hk0 & Hk). cbn [rbind].
  set (w := 2400 + r - b2z (fm f <? 3) + _ + _).
  assert (Hw : w mod 7 = (day_number r (fm f) (fd f) + 4) mod 7 /\ 0 <= w).
  { subst w. unfold day_number, b2z. set (o := (153 * _ + 2) / 5) in *. clearbody o.
    destruct (Z.leb_spec (fm f) 2), (Z.ltb_spec (fm f) 3); lia. }
  destruct Hw as [Hw Hw0]. rewrite Z.rem_mod_nonneg by lia. rewrite weekday_index by lia.
  unfold weekday_of. f_equal. f_equal. f_equal. lia.
Qed.

(** A goal about [i] by the seven cases of [0 <= i < 7]. *)
Ltac by_weekday i :=
  match goal with H : 0 <= i < 7 |- _ =>
    let Hc := fresh in
    assert (i = 0 \/ i = 1 \/ i = 2 \/ i = 3 \/ i = 4 \/ i = 5 \/ i = 6) as Hc by lia; clear H;
    destruct Hc as [->|[->|[->|[->|[->|[->| ->]]]]]] end.

(** Both searches start at the weekday with index [i] and stop at the nearest
    one of the right name. *)
Lemma forw_search i wd : 0 <= i < 7 ->
  index_of (nth (Z.to_nat i) weekdays monday) 0 k_weekdays_forw = Ok i /\
  exists j, index_of wd (i + 1) (drop (Z.to_nat (i + 1)) k_weekdays_forw) = Ok j /\
    1 <= j - i <= 7 /\ nth (Z.to_nat (j mod 7)) weekdays monday = wd.
Proof.
  intros Hi. by_weekday i; (split; [reflexivity|]); destruct wd;
    (eexists; split; [reflexivity|]; split; [lia|reflexivity]).
Qed.

Lemma back_search i wd : 0 <= i < 7 ->
  index_of (nth (Z.to_nat i) weekdays monday) 0 k_weekdays_back = Ok (6 - i) /\
  exists j, index_of wd (6 - i + 1) (drop (Z.to_nat (6 - i + 1)) k_weekdays_back) = Ok j /\
    1 <= j - (6 - i) <= 7 /\ nth (Z.to_nat ((6 - j) mod 7)) weekdays monday = wd.
Proof.
  intros Hi. by_weekday i; (split; [reflexivity|]); destruct wd;
    (eexists; split; [reflexivity|]; split; [lia|reflexivity]).
Qed.

Lemma next_weekday_ok cd wd : valid cd ->
  exists k, 1 <= k <= 7 /\ weekday_of (fields_day cd + k) = wd /\ next_weekday cd wd = civil_add day_tag cd k.
Proof.
  intros Hv. unfold next_weekday. rewrite get_weekday_ok by done. cbn [rbind].
  destruct (forw_search ((fields_day cd + 3) mod 7) wd) as [Hi (j & Hj & Hk & Hw)]; [lia|].
  fold (weekday_of (fields_day cd)) in Hi. rewrite Hi. cbn [rbind]. rewrite Hj. cbn [rbind]. eexists. split; [exact Hk|]. split; [|done]. rewrite <- Hw. unfold weekday_of. do 2 f_equal. lia.
Qed.

Lemma prev_weekday_ok cd wd : valid cd ->
  exists k, 1 <= k <= 7 /\ weekday_of (fields_day cd - k) = wd /\ prev_weekday cd wd = civil_sub day_tag cd k.
Proof.
  intros Hv. unfold prev_weekday. rewrite get_weekday_ok by done. cbn [rbind].
  destruct (back_search ((fields_day cd + 3) mod 7) wd) as [Hi (j & Hj & Hk & Hw)]; [lia|].
  fold (weekday_of (fields_day cd)) in Hi. rewrite Hi. cbn [rbind]. rewrite Hj. cbn [rbind]. eexists. split; [exact Hk|]. split; [|done]. rewrite <- Hw. unfold weekday_of. do 2 f_equal. lia.
Qed.

Lemma get_yearday_ok f : in_order f -> get_yearday f = Ok (fields_day f - day_number (fy f) 1 1 + 1).
Proof.
  intros ([Hm _] & _). unfold get_yearday, fields_day. rewrite is_leap_year_leap.
  pose proof (day_number_d (fy f) (fm f) (fd f)).
  assert (exists k, at_index k_month_offsets (fm f) = Ok k /\
    day_number (fy f) (fm f) 1 = day_number (fy f) 1 1 + k + b2z ((2 <? fm f) && leap (fy f))) as (k & -> & Hk).
  { pose proof (leap_quotients (fy f)) as Hq. generalize dependent (fy f). intros y _ Hq.
    generalize dependent (fm f). intros m Hm. unfold day_number.
    by_month m; (eexists; split; [reflexivity|]); destruct (leap y); cbn [b2z]; lia. }
  cbn [rbind]. f_equal. lia.
Qed.
