(* ===== verification/CivilSpec.v ===== *)
(** * CivilSpec: the properties of civil time *)

From S2P Require Import Prelude.
From S2P Require Import Int64.
From S2P Require Import Gregorian.
From S2P Require Import Civil.
From S2P Require Import CivilInv.
Import cctz.

(** C37: the constructor of a civil time accepts any [int64_t] fields: days,
    hours, minutes and seconds out of range, negative ones and those at the
    ends of [int64_t] included, carry into the next field as the calendar says,
    and the loops over cycles end. There is exactly one civil time in order that
    stands for the same second. The constructor returns it, aligned to its tag,
    if its year fits and so do the years that the months alone lead to, before
    any day is counted: the year with the twelfth of the months, rounded to
    zero, unless the month is 12, and the year of the normalized month. In
    every other case there is an overflow, also where the days would have made
    up for the months. *)
Theorem civil_time_normalizes t y m d hh mm ss :
  in_i64 y -> in_i64 m -> in_i64 d -> in_i64 hh -> in_i64 mm -> in_i64 ss ->
  exists f, in_order f /\ seconds f = civil_seconds y m d hh mm ss /\
    (forall g, in_order g -> seconds g = civil_seconds y m d hh mm ss -> g = f) /\
    in_order (align t f) /\
    civil_time t y m d hh mm ss =
      (if decide (in_i64 (fy f) /\ in_i64 (y + (m - 1) / 12) /\ (m = 12 \/ in_i64 (y + Z.quot m 12)))
       then Ok (align t f) else Err Undefined).
Proof.
  intros Hy Hm Hd Hhh Hmm Hss.
  destruct (civil_exists (civil_seconds y m d hh mm ss)) as (f & Ho & Hs). exists f. split; [done|]. split; [done|].
  assert (Huniq : forall g, in_order g -> seconds g = civil_seconds y m d hh mm ss -> g = f).
  { intros g Hg Hgs. apply (number_inj second_tag); try done. rewrite !number_second by done. congruence. }
  split; [done|]. split; [by apply in_order_align|]. unfold civil_time.
  destruct (decide (months_fit y m)) as [Hfit|Hno].
  - destruct (n_sec_ok y m d hh mm ss Hy Hm Hd Hhh Hmm Hss Hfit) as (g & Hg & Hgs & ->).
    rewrite (Huniq g Hg Hgs). destruct Hfit as [Hfit1 Hfit2]. case_decide as Hc; [by rewrite i64_ok by apply Hc|].
    rewrite i64_overflow; [done|]. intros Hf. apply Hc. by split_and!.
  - rewrite n_sec_unfit by done. rewrite decide_False; [done|]. intros (_ & ? & ?). by apply Hno.
Qed.

Theorem civil_time_normalizes_witness :
  civil_time day_tag 2024 2 30 25 61 (-5) = Ok (mkFields 2024 3 2 0 0 0) /\
  civil_seconds 2024 2 30 25 61 (-5) = seconds (mkFields 2024 3 2 2 0 55).
Proof.
  destruct (civil_time_normalizes day_tag 2024 2 30 25 61 (-5)) as (f & Ho & Hs & Huniq & _ & Hrun);
    try (unfold in_i64; lia).
  rewrite <- (Huniq (mkFields 2024 3 2 2 0 55)) in Hrun.
  - split; [exact Hrun|reflexivity].
  - unfold in_order, valid_date; vm_compute; split_and!; congruence.
  - reflexivity.
Defined.

(** The same second may be out of reach for an overflow of the year that the
    days would have made up for. *)
Lemma civil_time_avoidable_overflow :
  civil_time day_tag int64_max 13 (-40) 0 0 0 = Err Undefined /\
  exists f, valid f /\ seconds f = civil_seconds int64_max 13 (-40) 0 0 0.
Proof.
  split; [by vm_compute|]. exists (mkFields int64_max 11 21 0 0 0).
  split; [|by vm_compute]. unfold valid, in_order, in_i64, valid_date. vm_compute. split_and!; congruence.
Qed.

(** C38: civil times of one alignment calculate like the numbers of their
    units. The sum with [n] is the civil time whose number is larger by [n], and
    it overflows only if the year of that one does not fit; subtraction
    likewise, the least [int64_t] included. The difference of two civil times
    is that of their numbers whenever it fits, without an overflow on the way;
    adding it to the one gives the other, and subtracting it goes back.
    Comparison compares the seconds. *)
Theorem civil_arithmetic t a b n :
  valid a -> valid b -> aligned t a -> aligned t b -> in_i64 n ->
  (exists g, in_order g /\ aligned t g /\ number t g = number t a + n /\
    civil_add t a n = (if decide (in_i64 (fy g)) then Ok g else Err Undefined)) /\
  (exists g, in_order g /\ aligned t g /\ number t g = number t a - n /\
    civil_sub t a n = (if decide (in_i64 (fy g)) then Ok g else Err Undefined)) /\
  (in_i64 (number t b - number t a) ->
    civil_diff t b a = Ok (number t b - number t a) /\
    civil_add t a (number t b - number t a) = Ok b /\ civil_sub t b (number t b - number t a) = Ok a) /\
  (civil_lt a b = true <-> number second_tag a < number second_tag b) /\
  (civil_eq a b = true <-> a = b).
Proof.
  intros Ha Hb Haa Hab Hn.
  assert (Hsteps : forall r k, steps_to t r k -> exists g, in_order g /\ aligned t g /\ number t g = k /\
    r = if decide (in_i64 (fy g)) then Ok g else Err Undefined).
  { intros r k (g & ? & ? & ? & ->). exists g. split_and!; try done.
    case_decide; [by rewrite i64_ok|by rewrite i64_overflow]. }
  assert (Hreach : forall r c, steps_to t r (number t c) -> valid c -> aligned t c -> r = Ok c).
  { intros r c (g & Ho & Hal & Hnum & ->) [Hy Hoc] Halc.
    rewrite (number_inj t g c) by done. by rewrite i64_ok. }
  split; [by apply Hsteps, civil_add_ok|]. split; [by apply Hsteps, civil_sub_ok|].
  split; [|split; [|apply civil_eq_spec]].
  - intros Hd. split; [by apply difference_ok|]. split; apply Hreach; try done.
    + replace (number t b) with (number t a + (number t b - number t a)) at 2 by lia. by apply civil_add_ok.
    + replace (number t a) with (number t b - (number t b - number t a)) at 2 by lia. by apply civil_sub_ok.
  - rewrite !number_second by apply Ha || apply Hb. apply civil_lt_spec; [apply Ha|apply Hb].
Qed.

Theorem civil_arithmetic_witness :
  civil_diff day_tag (mkFields 2024 3 1 0 0 0) (mkFields 1970 1 1 0 0 0) = Ok 19783 /\
  civil_add day_tag (mkFields 1970 1 1 0 0 0) 19783 = Ok (mkFields 2024 3 1 0 0 0).
Proof.
  destruct (civil_arithmetic day_tag (mkFields 1970 1 1 0 0 0) (mkFields 2024 3 1 0 0 0) 19783)
    as (_ & _ & Hdiff & _).
  1,2: unfold valid, in_order, in_i64, valid_date; vm_compute; split_and!; congruence.
  1,2: reflexivity.
  - unfold in_i64. lia.
  - destruct Hdiff as (Hd & Ha & _); [vm_compute; split; congruence|]. split; [exact Hd|exact Ha].
Defined.

(** the weekday of a civil time is that of its day counted from a
    Thursday, in every year of [int64_t]; [next_weekday] and [prev_weekday] find
    the nearest later and earlier day with the weekday asked for, a week away
    at most; [get_yearday] counts the days from the first of January. *)
Theorem civil_weekdays cd wd :
  valid cd -> aligned day_tag cd ->
  get_weekday cd = Ok (weekday_of (fields_day cd)) /\
  (exists g, in_order g /\ aligned day_tag g /\ fields_day cd < fields_day g <= fields_day cd + 7 /\
    weekday_of (fields_day g) = wd /\
    next_weekday cd wd = (if decide (in_i64 (fy g)) then Ok g else Err Undefined)) /\
  (exists g, in_order g /\ aligned day_tag g /\ fields_day cd - 7 <= fields_day g < fields_day cd /\
    weekday_of (fields_day g) = wd /\
    prev_weekday cd wd = (if decide (in_i64 (fy g)) then Ok g else Err Undefined)) /\
  get_yearday cd = Ok (fields_day cd - day_number (fy cd) 1 1 + 1) /\
  (day_number 1970 1 1 = 0 /\ weekday_of 0 = thursday /\
    forall y m d, valid_date y m d -> let '(y', m', d') := next_date y m d in
      valid_date y' m' d' /\ day_number y' m' d' = day_number y m d + 1).
Proof.
  intros Hv Hal. split; [by apply get_weekday_ok|].
  assert (Hsteps : forall r k, steps_to day_tag r k -> exists g, in_order g /\ aligned day_tag g /\ fields_day g = k /\
    r = if decide (in_i64 (fy g)) then Ok g else Err Undefined).
  { intros r k (g & ? & ? & ? & ->). exists g. split_and!; try done.
    case_decide; [by rewrite i64_ok|by rewrite i64_overflow]. }
  destruct (next_weekday_ok cd wd Hv) as (k & Hk & Hwk & ->).
  destruct (prev_weekday_ok cd wd Hv) as (j & Hj & Hwj & ->).
  destruct (Hsteps _ _ (civil_add_ok day_tag cd k Hv Hal ltac:(unfold in_i64; lia))) as (g & ? & ? & Hg & ?).
  destruct (Hsteps _ _ (civil_sub_ok day_tag cd j Hv Hal ltac:(unfold in_i64; lia))) as (g' & ? & ? & Hg' & ?).
  cbn [number] in Hg, Hg'.
  split; [exists g; split_and!; try done; try lia; by rewrite Hg|].
  split; [exists g'; split_and!; try done; try lia; by rewrite Hg'|].
  split; [apply get_yearday_ok, Hv|]. split; [done|]. split; [done|]. apply day_number_next.
Qed.

Theorem civil_weekdays_witness :
  get_weekday (mkFields 2024 3 1 0 0 0) = Ok friday /\
  exists g, fields_day g <= fields_day (mkFields 2024 3 1 0 0 0) + 7 /\ weekday_of (fields_day g) = friday /\
    next_weekday (mkFields 2024 3 1 0 0 0) friday = if decide (in_i64 (fy g)) then Ok g else Err Undefined.
Proof.
  destruct (civil_weekdays (mkFields 2024 3 1 0 0 0) friday) as (Hw & (g & _ & _ & Hg & Hwg & Hn) & _).
  - unfold valid, in_order, in_i64, valid_date; vm_compute; split_and!; congruence.
  - reflexivity.
  - split; [exact Hw|]. exists g. split; [lia|]. split; [exact Hwg|exact Hn].
Defined.
