(* ===== verification/Duration.v ===== *)
(** * Duration: lengths of time (src/abseil-cpp/absl/time/time.h, duration.cc)

    A [Duration] is a number of seconds, [int64_t], and of quarters of a
    nanosecond, [uint32_t], with one bit pattern of the latter for the two
    infinities. Signed arithmetic is checked ([i64]), unsigned arithmetic wraps,
    and products and quotients go through [uint128]. The operators with a
    [double] and the formatting, which uses them, are left out. *)

From S2P Require Import Prelude.
From S2P Require Import Word.
From S2P Require Import Uint128.
From S2P Require Import Int64.

Definition kTicksPerNanosecond : Z := 4.
Definition kTicksPerSecond : Z := 1000 * 1000 * 1000 * kTicksPerNanosecond.

(** The member [rep_hi_] is stored as two halves ([HiRep]). *)
Record HiRep := mkHiRep { hi_rep_lo : Z; hi_rep_hi : Z }.

Definition HiRep_assign (value : Z) : HiRep :=
  let unsigned_value := unsigned 64 value in
  {| hi_rep_hi := u32 (unsigned_value >> 32); hi_rep_lo := u32 unsigned_value |}.
Definition HiRep_Get (h : HiRep) : Z := signed 64 (Z.lor (hi_rep_hi h <<64 32) (hi_rep_lo h)).

Record Duration := mkDuration { rep_hi_ : HiRep; rep_lo_ : Z }.

Definition MakeDuration (hi lo : Z) : Duration := mkDuration (HiRep_assign hi) (u32 lo).
Definition GetRepHi (d : Duration) : Z := HiRep_Get (rep_hi_ d).
Definition GetRepLo (d : Duration) : Z := rep_lo_ d.

Definition uint32_max : Z := 2 ^ 32 - 1.

Definition ZeroDuration : Duration := MakeDuration 0 0.
Definition InfiniteDuration : Duration := MakeDuration int64_max uint32_max.
Definition IsInfiniteDuration (d : Duration) : bool := GetRepLo d =? uint32_max.

Definition OppositeInfinity (d : Duration) : Duration :=
  if GetRepHi d <? 0 then MakeDuration int64_max uint32_max else MakeDuration int64_min uint32_max.

(** [(-n)-1] *)
Definition NegateAndSubtractOne (n : Z) : result Z :=
  if n <? 0 then let* n1 := i64 (n + 1) in i64 (- n1)
  else let* m := i64 (- n) in i64 (m - 1).

Definition MakeNormalizedDuration (sec ticks : Z) : result Duration :=
  if ticks <? 0 then
    let* sec := i64 (sec - 1) in
    let* ticks := i64 (ticks + kTicksPerSecond) in
    Ok (MakeDuration sec ticks)
  else Ok (MakeDuration sec ticks).

(** ** Comparison and negation *)

Definition dur_lt (lhs rhs : Duration) : bool :=
  if negb (GetRepHi lhs =? GetRepHi rhs) then GetRepHi lhs <? GetRepHi rhs
  else if GetRepHi lhs =? int64_min then (GetRepLo lhs +32 1) <? (GetRepLo rhs +32 1)
  else GetRepLo lhs <? GetRepLo rhs.
Definition dur_gt (lhs rhs : Duration) : bool := dur_lt rhs lhs.
Definition dur_ge (lhs rhs : Duration) : bool := negb (dur_lt lhs rhs).
Definition dur_le (lhs rhs : Duration) : bool := negb (dur_lt rhs lhs).
Definition dur_eq (lhs rhs : Duration) : bool :=
  (GetRepHi lhs =? GetRepHi rhs) && (GetRepLo lhs =? GetRepLo rhs).
Definition dur_ne (lhs rhs : Duration) : bool := negb (dur_eq lhs rhs).

Definition dur_neg (d : Duration) : result Duration :=
  if GetRepLo d =? 0 then
    if GetRepHi d =? int64_min then Ok InfiniteDuration
    else let* h := i64 (- GetRepHi d) in Ok (MakeDuration h 0)
  else if IsInfiniteDuration d then Ok (OppositeInfinity d)
  else
    let* h := NegateAndSubtractOne (GetRepHi d) in
    Ok (MakeDuration h (kTicksPerSecond - GetRepLo d)).

(** [-InfiniteDuration()] *)
Definition NegInfiniteDuration : result Duration := dur_neg InfiniteDuration.

Definition AbsDuration (d : Duration) : result Duration :=
  if dur_lt d ZeroDuration then dur_neg d else Ok d.

(** ** Addition and subtraction *)

Definition EncodeTwosComp (v : Z) : Z := unsigned 64 v.
Definition DecodeTwosComp (v : Z) : Z := signed 64 v.

Definition dur_add (this rhs : Duration) : result Duration :=
  if IsInfiniteDuration this then Ok this
  else if IsInfiniteDuration rhs then Ok rhs
  else
    let orig_rep_hi := GetRepHi this in
    let hi := DecodeTwosComp (EncodeTwosComp (GetRepHi this) +64 EncodeTwosComp (GetRepHi rhs)) in
    let '(hi, lo) :=
      if kTicksPerSecond - GetRepLo rhs <=? GetRepLo this
      then (DecodeTwosComp (EncodeTwosComp hi +64 1), u32 (GetRepLo this - kTicksPerSecond))
      else (hi, GetRepLo this) in
    let lo := lo +32 GetRepLo rhs in
    if (if GetRepHi rhs <? 0 then orig_rep_hi <? hi else hi <? orig_rep_hi)
    then if GetRepHi rhs <? 0 then NegInfiniteDuration else Ok InfiniteDuration
    else Ok (MakeDuration hi lo).

Definition dur_sub (this rhs : Duration) : result Duration :=
  if IsInfiniteDuration this then Ok this
  else if IsInfiniteDuration rhs then
    if 0 <=? GetRepHi rhs then NegInfiniteDuration else Ok InfiniteDuration
  else
    let orig_rep_hi := GetRepHi this in
    let hi := DecodeTwosComp (EncodeTwosComp (GetRepHi this) -64 EncodeTwosComp (GetRepHi rhs)) in
    let '(hi, lo) :=
      if GetRepLo this <? GetRepLo rhs
      then (DecodeTwosComp (EncodeTwosComp hi -64 1), u32 (GetRepLo this + kTicksPerSecond))
      else (hi, GetRepLo this) in
    let lo := lo -32 GetRepLo rhs in
    if (if GetRepHi rhs <? 0 then hi <? orig_rep_hi else orig_rep_hi <? hi)
    then if 0 <=? GetRepHi rhs then NegInfiniteDuration else Ok InfiniteDuration
    else Ok (MakeDuration hi lo).

(** ** Products and quotients *)

Section scale.
Context `{Compiler}.

Definition MakeU128 (a : Z) : result uint128 :=
  let u128 := of_signed 0 in
  let* r :=
    if a <? 0 then
      let u128 := op_incr u128 in
      let* a := i64 (a + 1) in
      let* a := i64 (- a) in
      Ok (u128, a)
    else Ok (u128, a) in
  let '(u128, a) := r in
  Ok (op_add u128 (of_unsigned (unsigned 64 a))).

Definition MakeU128Ticks (d : Duration) : result uint128 :=
  let* r :=
    if GetRepHi d <? 0 then
      let* rep_hi := i64 (GetRepHi d + 1) in
      let* rep_hi := i64 (- rep_hi) in
      Ok (rep_hi, u32 (kTicksPerSecond - GetRepLo d))
    else Ok (GetRepHi d, GetRepLo d) in
  let '(rep_hi, rep_lo) := r in
  let u128 := of_unsigned (unsigned 64 rep_hi) in
  let* u128 := op_mul u128 (of_unsigned (unsigned 64 kTicksPerSecond)) in
  Ok (op_add u128 (of_unsigned rep_lo)).

Definition kMaxRepHi64 : Z := 0x77359400.

(** The last part of [MakeDurationFromU128]. *)
Definition MakeSigned (rep_hi rep_lo : Z) (is_neg : bool) : result Duration :=
  if is_neg then
    let* rep_hi := i64 (- rep_hi) in
    if negb (rep_lo =? 0) then
      let* rep_hi := i64 (rep_hi - 1) in
      Ok (MakeDuration rep_hi (u32 (kTicksPerSecond - rep_lo)))
    else Ok (MakeDuration rep_hi rep_lo)
  else Ok (MakeDuration rep_hi rep_lo).

Definition MakeDurationFromU128 (u128 : uint128) (is_neg : bool) : result Duration :=
  let h64 := Uint128High64 u128 in
  let l64 := Uint128Low64 u128 in
  if h64 =? 0 then
    let hi := l64 / kTicksPerSecond in
    MakeSigned (signed 64 hi) (u32 (l64 -64 (hi *64 kTicksPerSecond))) is_neg
  else if kMaxRepHi64 <=? h64 then
    if is_neg && (h64 =? kMaxRepHi64) && (l64 =? 0) then Ok (MakeDuration int64_min 0)
    else if is_neg then NegInfiniteDuration else Ok InfiniteDuration
  else
    let kTicksPerSecond128 := of_unsigned (unsigned 64 kTicksPerSecond) in
    let* hi := op_div u128 kTicksPerSecond128 in
    let* p := op_mul hi kTicksPerSecond128 in
    MakeSigned (signed 64 (Uint128Low64 hi)) (u32 (Uint128Low64 (op_sub u128 p))) is_neg.

Definition SafeMultiply (a b : uint128) : result uint128 :=
  cpp_assert (Uint128High64 b =? 0) (
  if Uint128High64 a =? 0 then
    if (Z.lor (Uint128Low64 a) (Uint128Low64 b)) >> 32 =? 0
    then Ok (of_unsigned (Uint128Low64 a *64 Uint128Low64 b))
    else op_mul a b
  else if op_eq b (of_signed 0) then Ok b
  else
    let* q := op_div Uint128Max b in
    if op_gt a q then Ok Uint128Max else op_mul a b).

Definition ScaleFixed (Operation : uint128 -> uint128 -> result uint128) (d : Duration) (r : Z) : result Duration :=
  let* a := MakeU128Ticks d in
  let* b := MakeU128 r in
  let* q := Operation a b in
  let is_neg := negb (Bool.eqb (GetRepHi d <? 0) (r <? 0)) in
  MakeDurationFromU128 q is_neg.

(** [*this = is_neg ? -InfiniteDuration() : InfiniteDuration()] *)
Definition SignedInfinity (is_neg : bool) : result Duration :=
  if is_neg then NegInfiniteDuration else Ok InfiniteDuration.

Definition dur_mul (this : Duration) (r : Z) : result Duration :=
  if IsInfiniteDuration this then SignedInfinity (negb (Bool.eqb (r <? 0) (GetRepHi this <? 0)))
  else ScaleFixed SafeMultiply this r.

Definition dur_div (this : Duration) (r : Z) : result Duration :=
  if IsInfiniteDuration this || (r =? 0) then SignedInfinity (negb (Bool.eqb (r <? 0) (GetRepHi this <? 0)))
  else ScaleFixed op_div this r.

(** ** Division of durations *)

(** One of the first four cases of [IDivFastPath]: a divisor of [den_lo]
    ticks, [per] of which make a second. *)
Definition fast_subsecond (num_hi num_lo den_lo per : Z) : result (option (Z * Duration)) :=
  if (0 <=? num_hi) && (num_hi <? Z.quot (int64_max - kTicksPerSecond) per) then
    let* p := i64 (num_hi * per) in
    let* q := i64 (p + num_lo / den_lo) in
    Ok (Some (q, MakeDuration 0 (num_lo mod den_lo)))
  else Ok None.

Definition IDivFastPath (num den : Duration) : result (option (Z * Duration)) :=
  if IsInfiniteDuration num || IsInfiniteDuration den then Ok None
  else
    let num_hi := GetRepHi num in
    let num_lo := GetRepLo num in
    let den_hi := GetRepHi den in
    let den_lo := GetRepLo den in
    if (den_hi =? 0) && (den_lo =? kTicksPerNanosecond) then fast_subsecond num_hi num_lo den_lo 1000000000
    else if (den_hi =? 0) && (den_lo =? 100 * kTicksPerNanosecond) then fast_subsecond num_hi num_lo den_lo 10000000
    else if (den_hi =? 0) && (den_lo =? 1000 * kTicksPerNanosecond) then fast_subsecond num_hi num_lo den_lo 1000000
    else if (den_hi =? 0) && (den_lo =? 1000000 * kTicksPerNanosecond) then fast_subsecond num_hi num_lo den_lo 1000
    else if (0 <? den_hi) && (den_lo =? 0) then
      if 0 <=? num_hi then
        if den_hi =? 1 then Ok (Some (num_hi, MakeDuration 0 num_lo))
        else
          let* q := quot_i64 num_hi den_hi in
          let* r := rem_i64 num_hi den_hi in
          Ok (Some (q, MakeDuration r num_lo))
      else
        let* num_hi := if negb (num_lo =? 0) then i64 (num_hi + 1) else Ok num_hi in
        let* quotient := quot_i64 num_hi den_hi in
        let* rem_sec := rem_i64 num_hi den_hi in
        let* r :=
          if 0 <? rem_sec then
            let* rem_sec := i64 (rem_sec - den_hi) in
            let* quotient := i64 (quotient + 1) in
            Ok (quotient, rem_sec)
          else Ok (quotient, rem_sec) in
        let '(quotient, rem_sec) := r in
        let* rem_sec := if negb (num_lo =? 0) then i64 (rem_sec - 1) else Ok rem_sec in
        Ok (Some (quotient, MakeDuration rem_sec num_lo))
    else Ok None.

(** The quotient and the remainder. *)
Definition IDivDuration (satq : bool) (num den : Duration) : result (Z * Duration) :=
  let* fast := IDivFastPath num den in
  match fast with
  | Some r => Ok r
  | None =>
      let num_neg := dur_lt num ZeroDuration in
      let den_neg := dur_lt den ZeroDuration in
      let quotient_neg := negb (Bool.eqb num_neg den_neg) in
      if IsInfiniteDuration num || dur_eq den ZeroDuration then
        let* rem := SignedInfinity num_neg in
        Ok (if quotient_neg then int64_min else int64_max, rem)
      else if IsInfiniteDuration den then Ok (0, num)
      else
        let* a := MakeU128Ticks num in
        let* b := MakeU128Ticks den in
        let* quotient128 := op_div a b in
        let quotient128 :=
          if satq && op_gt quotient128 (of_unsigned (unsigned 64 int64_max)) then
            if quotient_neg then of_unsigned (unsigned 64 int64_min) else of_unsigned (unsigned 64 int64_max)
          else quotient128 in
        let* p := op_mul quotient128 b in
        let remainder128 := op_sub a p in
        let* rem := MakeDurationFromU128 remainder128 num_neg in
        let* q :=
          if negb quotient_neg || op_eq quotient128 (of_signed 0) then
            Ok (Z.land (Uint128Low64 quotient128) int64_max)
          else
            let* q := i64 (- signed 64 (Z.land (Uint128Low64 (op_sub quotient128 (of_signed 1))) int64_max)) in
            i64 (q - 1) in
        Ok (q, rem)
  end.

(** [lhs / rhs] and [lhs % rhs] *)
Definition dur_quotient (lhs rhs : Duration) : result Z :=
  let* r := IDivDuration true lhs rhs in Ok (fst r).
Definition dur_rem (lhs rhs : Duration) : result Duration :=
  let* r := IDivDuration false lhs rhs in Ok (snd r).

(** ** Rounding *)

Definition Trunc (d unit : Duration) : result Duration :=
  let* r := dur_rem d unit in dur_sub d r.

Definition Floor (d unit : Duration) : result Duration :=
  let* td := Trunc d unit in
  if dur_le td d then Ok td else let* a := AbsDuration unit in dur_sub td a.

Definition Ceil (d unit : Duration) : result Duration :=
  let* td := Trunc d unit in
  if dur_ge td d then Ok td else let* a := AbsDuration unit in dur_add td a.
End scale.
