(* ===== verification/DurationInv.v ===== *)
(** * DurationInv: what durations stand for

    A duration stands for a number of ticks between the least and the greatest
    that fit, or for an infinity ([spans]). Every operation is one of numbers
    whose result saturates ([sat]). *)

From S2P Require Import Prelude.
From S2P Require Import Word.
From S2P Require Import Uint128.
From S2P Require Import Int64.
From S2P Require Import Duration.

#[local] Ltac Zify.zify_post_hook ::= Z.to_euclidean_division_equations.

Inductive span := NegInf | Fin (ticks : Z) | PosInf.

#[export] Instance span_eq_dec : EqDecision span.
Proof. solve_decision. Defined.

(** The ticks that fit. *)
Definition in_ticks (z : Z) : Prop := - 2 ^ 63 * kTicksPerSecond <= z < 2 ^ 63 * kTicksPerSecond.

Definition sat (z : Z) : span :=
  if z <? - 2 ^ 63 * kTicksPerSecond then NegInf
  else if 2 ^ 63 * kTicksPerSecond <=? z then PosInf else Fin z.

Inductive spans : Duration -> span -> Prop :=
| spans_pos : spans InfiniteDuration PosInf
| spans_neg : spans (MakeDuration int64_min uint32_max) NegInf
| spans_fin hi lo :
    in_i64 hi -> 0 <= lo < kTicksPerSecond -> spans (MakeDuration hi lo) (Fin (hi * kTicksPerSecond + lo)).

(** ** The representation *)

Lemma HiRep_Get_assign v : in_i64 v -> HiRep_Get (HiRep_assign v) = v.
Proof.
  intros Hv. unfold HiRep_Get, HiRep_assign. cbn [hi_rep_hi hi_rep_lo].
  set (u := unsigned 64 v). assert (Hu : word 64 u) by by apply Z.mod_pos_bound.
  assert (E : Z.lor (u32 (u >> 32) <<64 32) (u32 u) = u).
  { apply Z.bits_inj'. intros i Hi. rewrite Z.lor_spec. unfold u64, u32.
    apply word_bits in Hu as [Hu0 Hu]; [|lia].
    destruct (Z.ltb_spec i 32).
    - rewrite !Z.mod_pow2_bits_low by lia. rewrite Z.shiftl_spec_low by lia. done.
    - rewrite (Z.mod_pow2_bits_high _ 32 i) by lia. rewrite orb_false_r.
      destruct (Z.ltb_spec i 64); [|rewrite Z.mod_pow2_bits_high by lia; by rewrite Hu].
      rewrite Z.mod_pow2_bits_low, Z.shiftl_spec by lia. rewrite Z.mod_pow2_bits_low, Z.shiftr_spec by lia.
      f_equal. lia. }
  rewrite E. subst u. apply signed_unsigned; [lia|]. exact Hv.
Qed.

Lemma GetRepHi_Make hi lo : in_i64 hi -> GetRepHi (MakeDuration hi lo) = hi.
Proof. apply HiRep_Get_assign. Qed.

Lemma GetRepLo_Make hi lo : 0 <= lo < 2 ^ 32 -> GetRepLo (MakeDuration hi lo) = lo.
Proof. intros Hlo. by apply Z.mod_small. Qed.

Lemma ticks_second : kTicksPerSecond = 4000000000.
Proof. reflexivity. Qed.

Lemma inf_hi : GetRepHi InfiniteDuration = int64_max.
Proof. reflexivity. Qed.
Lemma neg_inf_hi : GetRepHi (MakeDuration int64_min uint32_max) = int64_min.
Proof. reflexivity. Qed.

Lemma NegInfiniteDuration_ok : NegInfiniteDuration = Ok (MakeDuration int64_min uint32_max).
Proof. reflexivity. Qed.

Lemma IsInfinite_spans d x : spans d x -> IsInfiniteDuration d = match x with Fin _ => false | _ => true end.
Proof.
  intros [| |hi lo Hhi Hlo]; [reflexivity|reflexivity|]. rewrite ticks_second in *. unfold IsInfiniteDuration.
  rewrite GetRepLo_Make by lia. apply Z.eqb_neq. unfold uint32_max. lia.
Qed.

(** A duration by its parts. *)
Lemma spans_Fin d z : spans d (Fin z) ->
  in_ticks z /\ d = MakeDuration (z / kTicksPerSecond) (z mod kTicksPerSecond) /\
  GetRepHi d = z / kTicksPerSecond /\ GetRepLo d = z mod kTicksPerSecond.
Proof.
  intros Hd. inversion Hd as [| |hi lo Hhi Hlo Ed Ez]; subst. unfold in_ticks, in_i64 in *. rewrite ticks_second in *.
  replace ((hi * 4000000000 + lo) / 4000000000) with hi by lia.
  replace ((hi * 4000000000 + lo) mod 4000000000) with lo by lia.
  rewrite GetRepHi_Make, GetRepLo_Make by (unfold in_i64; lia). split_and!; try done; lia.
Qed.

Lemma spans_make z : in_ticks z -> spans (MakeDuration (z / kTicksPerSecond) (z mod kTicksPerSecond)) (Fin z).
Proof.
  unfold in_ticks. rewrite ticks_second. intros Hz.
  replace (Fin z) with (Fin (z / kTicksPerSecond * kTicksPerSecond + z mod kTicksPerSecond))
    by (f_equal; rewrite ticks_second; lia).
  rewrite <- ticks_second. apply spans_fin; [unfold in_i64; rewrite ticks_second; lia|rewrite ticks_second; lia].
Qed.

Lemma spans_parts hi lo z : in_i64 hi -> 0 <= lo < kTicksPerSecond -> z = hi * kTicksPerSecond + lo ->
  spans (MakeDuration hi lo) (Fin z).
Proof. intros ? ? ->. by apply spans_fin. Qed.

(** Two durations that stand for the same are the same. *)
Lemma spans_inj a b x : spans a x -> spans b x -> a = b.
Proof.
  intros Ha Hb. destruct x.
  - by inversion Ha; inversion Hb.
  - apply spans_Fin in Ha as (_ & -> & _), Hb as (_ & -> & _). done.
  - by inversion Ha; inversion Hb.
Qed.

Lemma spans_functional d x y : spans d x -> spans d y -> x = y.
Proof.
  intros Hx Hy. pose proof (IsInfinite_spans d x Hx) as Hix. pose proof (IsInfinite_spans d y Hy) as Hiy.
  destruct x as [|z|], y as [|z'|]; try done; try congruence.
  - inversion Hx; inversion Hy; subst. done.
  - apply spans_Fin in Hx as (_ & _ & H1 & H2), Hy as (_ & _ & H3 & H4). rewrite ticks_second in *. f_equal. lia.
  - inversion Hx; inversion Hy; subst. done.
Qed.

(** ** Comparison *)

Definition span_lt (x y : span) : Prop :=
  match x, y with
  | NegInf, NegInf | PosInf, _ | Fin _, NegInf => False
  | NegInf, _ | _, PosInf => True
  | Fin a, Fin b => a < b
  end.

Lemma dur_lt_ok a b x y : spans a x -> spans b y -> dur_lt a b = true <-> span_lt x y.
Proof.
  intros Ha Hb. unfold dur_lt, u32.
  destruct x as [|z|], y as [|w|]; cbn [span_lt];
    try (apply spans_Fin in Ha as (Hz & _ & -> & ->)); try (apply spans_Fin in Hb as (Hw & _ & -> & ->));
    try (inversion Ha; subst); try (inversion Hb; subst); rewrite ?inf_hi, ?neg_inf_hi;
    unfold in_ticks, int64_min, int64_max in *; rewrite ?ticks_second in *;
    try (change (GetRepLo InfiniteDuration) with (2 ^ 32 - 1));
    try (change (GetRepLo (MakeDuration (- 2 ^ 63) uint32_max)) with (2 ^ 32 - 1));
    split; intros Hlt; try done; repeat case_match; bools; try done; try lia.
Qed.

Lemma dur_eq_ok a b x y : spans a x -> spans b y -> dur_eq a b = true <-> x = y.
Proof.
  intros Ha Hb. split; [|intros <-; rewrite (spans_inj a b x Ha Hb); unfold dur_eq; by rewrite !Z.eqb_refl].
  unfold dur_eq. intros [Hhi Hlo]%andb_true_iff. apply Z.eqb_eq in Hhi, Hlo.
  pose proof (IsInfinite_spans a x Ha) as Hix. pose proof (IsInfinite_spans b y Hb) as Hiy.
  unfold IsInfiniteDuration in Hix, Hiy. rewrite Hlo in Hix.
  destruct x as [|z|], y as [|w|]; try congruence.
  - inversion Ha; inversion Hb; subst. by rewrite inf_hi, neg_inf_hi in Hhi.
  - apply spans_Fin in Ha as (_ & _ & H1 & H2), Hb as (_ & _ & H3 & H4). rewrite ticks_second in *. f_equal. lia.
  - inversion Ha; inversion Hb; subst. by rewrite inf_hi, neg_inf_hi in Hhi.
Qed.

(** ** Negation, sums and differences *)

(** The result stands for the number, or fails to fit. *)
Definition yields (r : result Duration) (x : span) : Prop := exists d, r = Ok d /\ spans d x.

Lemma yields_make hi lo z : in_i64 hi -> 0 <= lo < kTicksPerSecond -> z = hi * kTicksPerSecond + lo ->
  yields (Ok (MakeDuration hi lo)) (Fin z).
Proof. intros. eexists. split; [done|]. by apply spans_parts. Qed.

Lemma sat_fin z : in_ticks z -> sat z = Fin z.
Proof. intros [? ?]. unfold sat. by rewrite (proj2 (Z.ltb_ge _ _)), (proj2 (Z.leb_gt _ _)) by done. Qed.

Lemma sat_pos z : 2 ^ 63 * kTicksPerSecond <= z -> sat z = PosInf.
Proof. intros ?. unfold sat. rewrite (proj2 (Z.ltb_ge _ _)), (proj2 (Z.leb_le _ _)) by (rewrite ticks_second in *; lia). done. Qed.

Lemma sat_neg z : z < - 2 ^ 63 * kTicksPerSecond -> sat z = NegInf.
Proof. intros ?. unfold sat. by rewrite (proj2 (Z.ltb_lt _ _)) by done. Qed.

Definition span_neg (x : span) : span := match x with NegInf => PosInf | Fin z => sat (- z) | PosInf => NegInf end.

Lemma dur_neg_ok d x : spans d x -> yields (dur_neg d) (span_neg x).
Proof.
  intros Hd. destruct x as [|z|]; cbn [span_neg].
  1,3: inversion Hd; subst; eexists; split; [reflexivity|constructor].
  unfold dur_neg. rewrite (IsInfinite_spans d _ Hd). apply spans_Fin in Hd as (Hz & _ & -> & ->).
  unfold in_ticks, int64_min in *. rewrite ticks_second in *.
  destruct (Z.eqb_spec (z mod 4000000000) 0).
  - destruct (Z.eqb_spec (z / 4000000000) (- 2 ^ 63)).
    + rewrite sat_pos by (rewrite ticks_second; lia). eexists. split; [done|constructor].
    + i64_step. rewrite sat_fin by (unfold in_ticks; rewrite ticks_second; lia).
      apply yields_make; rewrite ?ticks_second; unfold in_i64; lia.
  - rewrite sat_fin by (unfold in_ticks; rewrite ticks_second; lia). unfold NegateAndSubtractOne.
    destruct (Z.ltb_spec (z / 4000000000) 0); repeat i64_step;
      apply yields_make; rewrite ?ticks_second; unfold in_i64; lia.
Qed.

Definition span_add (x y : span) : span :=
  match x, y with Fin a, Fin b => sat (a + b) | Fin _, _ => y | _, _ => x end.
Definition span_sub (x y : span) : span :=
  match x, y with
  | Fin a, Fin b => sat (a - b)
  | Fin _, PosInf => NegInf | Fin _, NegInf => PosInf
  | _, _ => x
  end.

(** Sums and differences of encoded integers, decoded. *)
Lemma Encode_signed y : EncodeTwosComp (signed 64 y) = EncodeTwosComp y.
Proof. unfold EncodeTwosComp, signed, unsigned. change (2 ^ (64 - 1)) with (2 ^ 63). lia. Qed.

Lemma decode_add a b : DecodeTwosComp (EncodeTwosComp a +64 EncodeTwosComp b) = signed 64 (a + b).
Proof. unfold DecodeTwosComp, EncodeTwosComp, signed, unsigned, u64. change (2 ^ (64 - 1)) with (2 ^ 63). lia. Qed.

Lemma decode_sub a b : DecodeTwosComp (EncodeTwosComp a -64 EncodeTwosComp b) = signed 64 (a - b).
Proof. unfold DecodeTwosComp, EncodeTwosComp, signed, unsigned, u64. change (2 ^ (64 - 1)) with (2 ^ 63). lia. Qed.

Lemma decode_add_1 a : DecodeTwosComp (EncodeTwosComp (signed 64 a) +64 1) = signed 64 (a + 1).
Proof. rewrite Encode_signed. by rewrite <- (decode_add a 1). Qed.

Lemma decode_sub_1 a : DecodeTwosComp (EncodeTwosComp (signed 64 a) -64 1) = signed 64 (a - 1).
Proof. rewrite Encode_signed. by rewrite <- (decode_sub a 1). Qed.

Lemma signed_wrap s : - 2 ^ 64 <= s < 2 ^ 64 ->
  signed 64 s = if s <? - 2 ^ 63 then s + 2 ^ 64 else if 2 ^ 63 <=? s then s - 2 ^ 64 else s.
Proof.
  unfold signed. change (2 ^ (64 - 1)) with (2 ^ 63). intros Hs.
  destruct (Z.ltb_spec s (- 2 ^ 63)), (Z.leb_spec (2 ^ 63) s); lia.
Qed.

(** The last step of both operators: the seconds are wrapped, and the
    comparison with the first operand tells whether they overflowed. *)
Lemma overflow_check (neg : bool) orig s lo z :
  in_i64 orig -> 0 <= lo < kTicksPerSecond -> z = s * kTicksPerSecond + lo ->
  (if neg then orig - 2 ^ 63 <= s <= orig else orig <= s <= orig + 2 ^ 63) ->
  yields (if (if neg then orig <? signed 64 s else signed 64 s <? orig)
    then if neg then NegInfiniteDuration else Ok InfiniteDuration
    else Ok (MakeDuration (signed 64 s) lo)) (sat z).
Proof.
  unfold in_i64. intros Ho Hlo -> Hs. rewrite signed_wrap by (destruct neg; lia).
  rewrite ticks_second in *. destruct neg.
  - destruct (Z.ltb_spec s (- 2 ^ 63)), (Z.leb_spec (2 ^ 63) s); try lia.
    + rewrite (proj2 (Z.ltb_lt _ _)) by lia. rewrite sat_neg by (rewrite ticks_second; lia).
      rewrite NegInfiniteDuration_ok. eexists. split; [done|constructor].
    + rewrite (proj2 (Z.ltb_ge _ _)) by lia. rewrite sat_fin by (unfold in_ticks; rewrite ticks_second; lia).
      apply yields_make; rewrite ?ticks_second; [done|done|lia].
  - destruct (Z.ltb_spec s (- 2 ^ 63)), (Z.leb_spec (2 ^ 63) s); try lia.
    + rewrite (proj2 (Z.ltb_lt _ _)) by lia. rewrite sat_pos by (rewrite ticks_second; lia).
      eexists. split; [done|constructor].
    + rewrite (proj2 (Z.ltb_ge _ _)) by lia. rewrite sat_fin by (unfold in_ticks; rewrite ticks_second; lia).
      apply yields_make; rewrite ?ticks_second; [done|done|lia].
Qed.

Lemma yields_spans d x : spans d x -> yields (Ok d) x.
Proof. intros. by eexists. Qed.

Lemma dur_add_ok a b x y : spans a x -> spans b y -> yields (dur_add a b) (span_add x y).
Proof.
  intros Ha Hb. unfold dur_add. rewrite (IsInfinite_spans a x Ha), (IsInfinite_spans b y Hb).
  destruct x as [|z|]; cbn [span_add]; [by apply yields_spans| |by apply yields_spans].
  destruct y as [|w|]; [by apply yields_spans| |by apply yields_spans].
  apply spans_Fin in Ha as (Hz & _ & -> & ->), Hb as (Hw & _ & -> & ->). unfold in_ticks in *.
  rewrite decode_add. rewrite ticks_second in *.
  destruct (Z.leb_spec (4000000000 - w mod 4000000000) (z mod 4000000000)).
  - rewrite decode_add_1. replace (u32 (_ - _) +32 _) with (z mod 4000000000 + w mod 4000000000 - 4000000000)
      by (unfold u32; lia).
    apply overflow_check; rewrite ?ticks_second; try (unfold in_i64; lia).
    destruct (Z.ltb_spec (w / 4000000000) 0); lia.
  - replace (_ +32 _) with (z mod 4000000000 + w mod 4000000000) by (unfold u32; lia).
    apply overflow_check; rewrite ?ticks_second; try (unfold in_i64; lia).
    destruct (Z.ltb_spec (w / 4000000000) 0); lia.
Qed.

Lemma dur_sub_ok a b x y : spans a x -> spans b y -> yields (dur_sub a b) (span_sub x y).
Proof.
  intros Ha Hb. unfold dur_sub. rewrite (IsInfinite_spans a x Ha), (IsInfinite_spans b y Hb).
  destruct x as [|z|]; cbn [span_sub]; [by apply yields_spans| |by apply yields_spans].
  destruct y as [|w|]; [inversion Hb; subst; apply yields_spans; constructor|
    |inversion Hb; subst; apply yields_spans; constructor].
  apply spans_Fin in Ha as (Hz & _ & -> & ->), Hb as (Hw & _ & -> & ->). unfold in_ticks in *.
  rewrite decode_sub. rewrite ticks_second in *.
  assert (Hneg : forall A (p q : A), (if w / 4000000000 <? 0 then p else q) = (if 0 <=? w / 4000000000 then q else p)).
  { intros. destruct (Z.ltb_spec (w / 4000000000) 0), (Z.leb_spec 0 (w / 4000000000)); done || lia. }
  destruct (Z.ltb_spec (z mod 4000000000) (w mod 4000000000)).
  - rewrite decode_sub_1, Hneg. replace (u32 (_ + _) -32 _) with (z mod 4000000000 - w mod 4000000000 + 4000000000)
      by (unfold u32; lia).
    apply overflow_check; rewrite ?ticks_second; try (unfold in_i64; lia).
    destruct (Z.leb_spec 0 (w / 4000000000)); lia.
  - rewrite Hneg. replace (_ -32 _) with (z mod 4000000000 - w mod 4000000000) by (unfold u32; lia).
    apply overflow_check; rewrite ?ticks_second; try (unfold in_i64; lia).
    destruct (Z.leb_spec 0 (w / 4000000000)); lia.
Qed.

(** * products and quotients of durations

    Through 128-bit integers and saturating: the operators with an integer, the
    division of durations with its fast paths, and rounding. *)

#[local] Ltac Zify.zify_post_hook ::= Z.to_euclidean_division_equations.

Definition is128 (v : uint128) (z : Z) : Prop := uint128_ok v /\ uval v = z.

Lemma is128_denotes v z : is128 v z <-> denotes v z /\ word 128 z.
Proof.
  split.
  - intros [Hv <-]. split; [by apply denotes_self|by apply uval_range].
  - intros [Hd Hz]. split; [by eapply denotes_ok|by apply denotes_val].
Qed.

Lemma is128_words v z : is128 v z -> word 128 z /\ Uint128High64 v = z / 2 ^ 64 /\ Uint128Low64 v = z mod 2 ^ 64.
Proof.
  intros [[Hl Hh] <-]. unfold word, uval, Uint128High64, Uint128Low64 in *. lia.
Qed.

Lemma is128_unsigned z : word 64 z -> is128 (of_unsigned z) z.
Proof. intros Hz. apply is128_denotes. split; [by apply of_unsigned_ok|unfold word in *; lia]. Qed.

Lemma is128_signed z : 0 <= z < 2 ^ 63 -> is128 (of_signed z) z.
Proof. intros Hz. apply is128_denotes. split; [apply of_signed_ok; lia|unfold word; lia]. Qed.

Section scale.
Context `{Compiler}.

Lemma is128_add a b x y : is128 a x -> is128 b y -> x + y < 2 ^ 128 -> is128 (op_add a b) (x + y).
Proof using Type.
  rewrite !is128_denotes. intros [Ha Hx] [Hb Hy] Hs. split; [by apply op_add_ok|unfold word in *; lia].
Qed.

Lemma is128_sub a b x y : is128 a x -> is128 b y -> y <= x -> is128 (op_sub a b) (x - y).
Proof using Type.
  rewrite !is128_denotes. intros [Ha Hx] [Hb Hy] Hs. split; [by apply op_sub_ok|unfold word in *; lia].
Qed.

Lemma is128_mul a b x y : is128 a x -> is128 b y -> x * y < 2 ^ 128 ->
  exists v, op_mul a b = Ok v /\ is128 v (x * y).
Proof using Type.
  rewrite !is128_denotes. intros [Ha Hx] [Hb Hy] Hs. destruct (op_mul_ok a b x y Ha Hb) as (v & Hv & Hd).
  exists v. split; [done|]. apply is128_denotes. split; [done|]. unfold word in *. nia.
Qed.

Lemma is128_div a b x y : is128 a x -> is128 b y -> y <> 0 ->
  exists v, op_div a b = Ok v /\ is128 v (x / y).
Proof using Type.
  intros [Ha <-] [Hb <-] Hy.
  destruct (op_div_mod_ok a b Ha Hb Hy) as (q & r & Hq & _ & Hden & _).
  exists q. split; [done|]. apply is128_denotes. split; [done|].
  pose proof (uval_range a Ha) as Hra. pose proof (uval_range b Hb) as Hrb. unfold word in *.
  split; [apply Z.div_pos; lia|]. apply Z.div_lt_upper_bound; nia.
Qed.

Lemma is128_eq a b x y : is128 a x -> is128 b y -> op_eq a b = (x =? y).
Proof using Type. intros [Ha <-] [Hb <-]. by apply op_eq_ok. Qed.

Lemma is128_gt a b x y : is128 a x -> is128 b y -> op_gt a b = (y <? x).
Proof using Type. intros [Ha <-] [Hb <-]. by apply op_lt_ok. Qed.

(** ** Absolute values *)

Lemma MakeU128_ok r : in_i64 r -> exists v, MakeU128 r = Ok v /\ is128 v (Z.abs r).
Proof using Type.
  unfold in_i64, MakeU128. intros Hr. pose proof (is128_signed 0 ltac:(lia)) as H0.
  destruct (Z.ltb_spec r 0).
  - i64_step. i64_step. eexists. split; [done|].
    replace (Z.abs r) with (0 + 1 + (- (r + 1))) by lia.
    assert (Hu : unsigned 64 (- (r + 1)) = - (r + 1)) by (unfold unsigned; lia). rewrite Hu.
    apply is128_add; [|apply is128_unsigned; unfold word; lia|lia].
    apply is128_add; [done|apply is128_signed; lia|lia].
  - cbn [rbind]. eexists. split; [done|]. replace (Z.abs r) with (0 + r) by lia.
    assert (Hu : unsigned 64 r = r) by (unfold unsigned; lia). rewrite Hu.
    apply is128_add; [done|apply is128_unsigned; unfold word; lia|lia].
Qed.

Lemma MakeU128Ticks_ok d z : spans d (Fin z) -> exists v, MakeU128Ticks d = Ok v /\ is128 v (Z.abs z).
Proof using Type.
  intros Hd. apply spans_Fin in Hd as (Hz & _ & Hhi & Hlo). unfold MakeU128Ticks. rewrite Hhi, Hlo.
  unfold in_ticks in Hz. rewrite ticks_second in *.
  assert (exists h l, (if z / 4000000000 <? 0 then
      let* rep_hi := i64 (z / 4000000000 + 1) in let* rep_hi := i64 (- rep_hi) in
      Ok (rep_hi, u32 (4000000000 - z mod 4000000000))
    else Ok (z / 4000000000, z mod 4000000000)) = Ok (h, l) /\ 0 <= h < 2 ^ 63 /\ 0 <= l <= 4000000000 /\
    h * 4000000000 + l = Z.abs z) as (h & l & -> & Hh & Hl & <-).
  { destruct (Z.ltb_spec (z / 4000000000) 0).
    - i64_step. i64_step. eexists _, _. split; [done|]. unfold u32. lia.
    - eexists _, _. split; [done|]. lia. }
  cbn [rbind]. assert (Hu : unsigned 64 h = h) by (unfold unsigned; lia). rewrite Hu.
  destruct (is128_mul (of_unsigned h) (of_unsigned (unsigned 64 4000000000)) h 4000000000) as (v & -> & Hv);
    [apply is128_unsigned; unfold word; lia|by apply is128_unsigned|lia|].
  cbn [rbind]. eexists. split; [done|]. apply is128_add; [done|apply is128_unsigned; unfold word; lia|lia].
Qed.

(** ** Back to durations *)

Lemma MakeSigned_ok hi lo (neg : bool) :
  0 <= hi < 2 ^ 63 -> 0 <= lo < kTicksPerSecond ->
  yields (MakeSigned hi lo neg)
    (Fin (if neg then - (hi * kTicksPerSecond + lo) else hi * kTicksPerSecond + lo)).
Proof using Type.
  intros Hhi Hlo. unfold MakeSigned. rewrite ticks_second in *. destruct neg.
  - i64_step. destruct (Z.eqb_spec lo 0); cbn [negb].
    + apply yields_make; rewrite ?ticks_second; unfold in_i64; lia.
    + i64_step. replace (u32 _) with (4000000000 - lo) by (unfold u32; lia).
      apply yields_make; rewrite ?ticks_second; unfold in_i64; lia.
  - apply yields_make; rewrite ?ticks_second; unfold in_i64; lia.
Qed.

Lemma MakeDurationFromU128_ok v z (neg : bool) :
  is128 v z -> yields (MakeDurationFromU128 v neg) (sat (if neg then - z else z)).
Proof using Type.
  intros Hv. pose proof (is128_words v z Hv) as (Hz & Hh & Hl). unfold MakeDurationFromU128. rewrite Hh, Hl.
  unfold word in Hz. rewrite ticks_second. unfold kMaxRepHi64.
  destruct (Z.eqb_spec (z / 2 ^ 64) 0).
  - assert (Hs : signed 64 (z mod 2 ^ 64 / 4000000000) = z / 4000000000) by (rewrite signed_i64; unfold in_i64; lia).
    rewrite Hs. replace (u32 _) with (z mod 4000000000) by (unfold u32, u64; lia).
    rewrite sat_fin by (unfold in_ticks; rewrite ticks_second; destruct neg; lia).
    replace (if neg then - z else z) with (if neg then - (z / 4000000000 * 4000000000 + z mod 4000000000)
      else z / 4000000000 * 4000000000 + z mod 4000000000) by (destruct neg; lia).
    rewrite <- !ticks_second. apply MakeSigned_ok; rewrite ?ticks_second; lia.
  - destruct (Z.leb_spec 0x77359400 (z / 2 ^ 64)).
    + destruct neg; cbn [andb].
      * destruct (Z.eqb_spec (z / 2 ^ 64) 0x77359400), (Z.eqb_spec (z mod 2 ^ 64) 0); cbn [andb];
          try (rewrite sat_neg by (rewrite ticks_second; lia); rewrite NegInfiniteDuration_ok;
            eexists; split; [done|constructor]).
        rewrite sat_fin by (unfold in_ticks; rewrite ticks_second; lia).
        apply yields_make; rewrite ?ticks_second; unfold in_i64, int64_min; lia.
      * rewrite sat_pos by (rewrite ticks_second; lia). eexists. split; [done|constructor].
    + assert (Hk : is128 (of_unsigned (unsigned 64 4000000000)) 4000000000) by by apply is128_unsigned.
      destruct (is128_div v _ z 4000000000 Hv Hk) as (hi & -> & Hhi); [done|]. cbn [rbind].
      destruct (is128_mul hi _ (z / 4000000000) 4000000000 Hhi Hk) as (p & -> & Hp); [lia|]. cbn [rbind].
      pose proof (is128_sub v p z _ Hv Hp ltac:(lia)) as Hr.
      destruct (is128_words hi _ Hhi) as (_ & _ & ->). destruct (is128_words _ _ Hr) as (_ & _ & ->).
      replace (z / 4000000000 mod 2 ^ 64) with (z / 4000000000) by lia.
      rewrite signed_i64 by (unfold in_i64; lia).
      replace (u32 _) with (z mod 4000000000) by (unfold u32; lia).
      rewrite sat_fin by (unfold in_ticks; rewrite ticks_second; destruct neg; lia).
      replace (if neg then - z else z) with (if neg then - (z / 4000000000 * 4000000000 + z mod 4000000000)
        else z / 4000000000 * 4000000000 + z mod 4000000000) by (destruct neg; lia).
      rewrite <- !ticks_second. apply MakeSigned_ok; rewrite ?ticks_second; lia.
Qed.

(** ** The operators with an integer *)

(** The product, or the greatest integer if it does not fit. *)
Lemma SafeMultiply_ok a b x y : is128 a x -> is128 b y -> y < 2 ^ 64 ->
  exists v z, SafeMultiply a b = Ok v /\ is128 v z /\ (z = x * y \/ z = 2 ^ 128 - 1 /\ 2 ^ 128 <= x * y).
Proof using Type.
  intros Ha Hb Hy. unfold SafeMultiply. pose proof (is128_words a x Ha) as (Hx & Hha & Hla).
  pose proof (is128_words b y Hb) as (Hwy & Hhb & Hlb). unfold word in *. rewrite Hhb, Hha, Hla, Hlb.
  rewrite (proj2 (Z.eqb_eq (y / 2 ^ 64) 0)) by lia. cbn [cpp_assert].
  assert (Hmul : x * y < 2 ^ 128 -> exists v z, op_mul a b = Ok v /\ is128 v z /\
    (z = x * y \/ z = 2 ^ 128 - 1 /\ 2 ^ 128 <= x * y)).
  { intros Hp. destruct (is128_mul a b x y Ha Hb Hp) as (v & ? & ?). exists v, (x * y). auto. }
  destruct (Z.eqb_spec (x / 2 ^ 64) 0).
  - rewrite (Z.mod_small x), (Z.mod_small y) by lia. assert (x < 2 ^ 64) by lia.
    destruct (Z.eqb_spec (Z.lor x y >> 32) 0) as [Hs|]; [|apply Hmul; nia].
    rewrite Z.shiftr_lor, Z.lor_eq_0_iff, !Z.shiftr_div_pow2 in Hs by done.
    assert (x < 2 ^ 32 /\ y < 2 ^ 32) as [? ?] by lia.
    exists (of_unsigned (x *64 y)), (x * y). split; [done|]. split; [|by left].
    rewrite u64_id by nia. apply is128_unsigned. unfold word. nia.
  - pose proof (is128_signed 0 ltac:(lia)) as H0. rewrite (is128_eq b _ y 0 Hb H0).
    destruct (Z.eqb_spec y 0) as [->|Hy0].
    + exists b, 0. split; [done|]. split; [done|]. left. lia.
    + assert (Hmax : is128 Uint128Max (2 ^ 128 - 1)) by done.
      destruct (is128_div _ b _ y Hmax Hb Hy0) as (q & -> & Hq). cbn [rbind].
      rewrite (is128_gt a q x _ Ha Hq). destruct (Z.ltb_spec ((2 ^ 128 - 1) / y) x) as [Hlt|Hle].
      * exists Uint128Max, (2 ^ 128 - 1). split; [done|]. split; [done|]. right. split; [done|].
        pose proof (Z.mul_succ_div_gt (2 ^ 128 - 1) y ltac:(lia)). nia.
      * apply Hmul. pose proof (Z.mul_div_le (2 ^ 128 - 1) y ltac:(lia)). nia.
Qed.

Lemma SignedInfinity_ok neg : yields (SignedInfinity neg) (if neg then NegInf else PosInf).
Proof using Type. destruct neg; eexists; (split; [reflexivity|constructor]). Qed.

Definition span_mul (x : span) (r : Z) : span :=
  match x with
  | Fin z => sat (z * r)
  | PosInf => if r <? 0 then NegInf else PosInf
  | NegInf => if r <? 0 then PosInf else NegInf
  end.

Definition span_div (x : span) (r : Z) : span :=
  match x with
  | Fin z => if r =? 0 then (if z <? 0 then NegInf else PosInf) else sat (Z.quot z r)
  | PosInf => if r <? 0 then NegInf else PosInf
  | NegInf => if r <? 0 then PosInf else NegInf
  end.

Lemma rep_hi_neg d z : spans d (Fin z) -> (GetRepHi d <? 0) = (z <? 0).
Proof using Type.
  intros (Hz & _ & -> & _)%spans_Fin. rewrite ticks_second in *.
  destruct (Z.ltb_spec (z / 4000000000) 0), (Z.ltb_spec z 0); done || lia.
Qed.

(** Saturation does not see the products that [SafeMultiply] cuts. *)
Lemma sat_cut (neg : bool) z p : 0 <= p -> (z = p \/ z = 2 ^ 128 - 1 /\ 2 ^ 128 <= p) ->
  sat (if neg then - z else z) = sat (if neg then - p else p).
Proof using Type.
  intros Hp [->|[-> Hbig]]; [done|].
  destruct neg; [rewrite !sat_neg by (rewrite ticks_second; lia)|rewrite !sat_pos by (rewrite ticks_second; lia)]; done.
Qed.

Lemma dur_mul_ok d x r : spans d x -> in_i64 r -> yields (dur_mul d r) (span_mul x r).
Proof using Type.
  intros Hd Hr. unfold dur_mul. rewrite (IsInfinite_spans d x Hd). destruct x as [|z|]; cbn [span_mul].
  - inversion Hd; subst. rewrite neg_inf_hi. change (int64_min <? 0) with true.
    destruct (r <? 0); apply SignedInfinity_ok.
  - unfold ScaleFixed. destruct (MakeU128Ticks_ok d z Hd) as (a & -> & Ha). cbn [rbind].
    destruct (MakeU128_ok r Hr) as (b & -> & Hb). cbn [rbind].
    destruct (SafeMultiply_ok a b _ _ Ha Hb) as (q & p & -> & Hq & Hp); [unfold in_i64 in Hr; lia|]. cbn [rbind].
    rewrite (rep_hi_neg d z Hd).
    set (neg := negb _). replace (z * r) with (if neg then - (Z.abs z * Z.abs r) else Z.abs z * Z.abs r).
    + rewrite <- (sat_cut neg p); [by apply MakeDurationFromU128_ok|nia|done].
    + subst neg. rewrite <- Z.abs_mul. destruct (Z.ltb_spec z 0), (Z.ltb_spec r 0); cbn [Bool.eqb negb]; nia.
  - inversion Hd; subst. rewrite inf_hi. change (int64_max <? 0) with false.
    destruct (r <? 0); apply SignedInfinity_ok.
Qed.

Lemma quot_abs a b : b <> 0 ->
  Z.quot a b = if negb (Bool.eqb (a <? 0) (b <? 0)) then - (Z.abs a / Z.abs b) else Z.abs a / Z.abs b.
Proof using Type.
  intros Hb. rewrite <- Z.quot_div_nonneg by lia.
  destruct (Z.ltb_spec a 0), (Z.ltb_spec b 0); cbn [Bool.eqb negb].
  - rewrite <- Z.quot_opp_opp by lia. f_equal; lia.
  - rewrite (Z.abs_neq a), (Z.abs_eq b), Z.quot_opp_l by lia. lia.
  - rewrite (Z.abs_eq a), (Z.abs_neq b), Z.quot_opp_r by lia. lia.
  - f_equal; lia.
Qed.

Lemma dur_div_ok d x r : spans d x -> in_i64 r -> yields (dur_div d r) (span_div x r).
Proof using Type.
  intros Hd Hr. unfold dur_div. rewrite (IsInfinite_spans d x Hd). destruct x as [|z|]; cbn [span_div orb].
  - inversion Hd; subst. rewrite neg_inf_hi. change (int64_min <? 0) with true.
    destruct (r <? 0); apply SignedInfinity_ok.
  - rewrite (rep_hi_neg d z Hd). destruct (Z.eqb_spec r 0) as [->|Hr0].
    { change (0 <? 0) with false. destruct (z <? 0); apply SignedInfinity_ok. }
    unfold ScaleFixed. destruct (MakeU128Ticks_ok d z Hd) as (a & -> & Ha). cbn [rbind].
    destruct (MakeU128_ok r Hr) as (b & -> & Hb). cbn [rbind].
    destruct (is128_div a b _ _ Ha Hb) as (q & -> & Hq); [lia|]. cbn [rbind].
    rewrite (rep_hi_neg d z Hd), quot_abs by done. by apply MakeDurationFromU128_ok.
  - inversion Hd; subst. rewrite inf_hi. change (int64_max <? 0) with false.
    destruct (r <? 0); apply SignedInfinity_ok.
Qed.

(** ** Division of durations *)

Lemma quot_rem_unique a b q r :
  0 < b -> a = b * q + r -> (0 <= a -> 0 <= r < b) -> (a < 0 -> - b < r <= 0) ->
  Z.quot a b = q /\ Z.rem a b = r.
Proof using Type.
  intros Hb Ha Hpos Hneg. destruct (Z.lt_ge_cases a 0) as [Hlt|Hge].
  - specialize (Hneg Hlt). assert (E : Z.quot (- a) b = - q).
    { rewrite Z.quot_div_nonneg by lia. symmetry. apply (Z.div_unique _ _ _ (- r)); lia. }
    rewrite Z.quot_opp_l in E by lia. pose proof (Z.quot_rem' a b). nia.
  - specialize (Hpos Hge). assert (E : Z.quot a b = q).
    { rewrite Z.quot_div_nonneg by lia. symmetry. apply (Z.div_unique _ _ _ r); lia. }
    pose proof (Z.quot_rem' a b). nia.
Qed.

(** The quotient fits, and quotient and remainder are those of the ticks. *)
Definition divides_to (a b : Z) (q : Z) (rem : Duration) : Prop :=
  0 < b /\ q = Z.quot a b /\ in_i64 q /\ spans rem (Fin (Z.rem a b)).

Lemma fast_subsecond_ok a b per :
  in_ticks a -> b * per = kTicksPerSecond -> b = 4 \/ b = 400 \/ b = 4000 \/ b = 4000000 ->
  fast_subsecond (a / kTicksPerSecond) (a mod kTicksPerSecond) b per = Ok None \/
  exists q rem, fast_subsecond (a / kTicksPerSecond) (a mod kTicksPerSecond) b per = Ok (Some (q, rem)) /\
    divides_to a b q rem.
Proof using Type.
  intros Ha Hper Hb. unfold fast_subsecond, in_ticks, int64_max in *. rewrite ticks_second in *.
  set (h := a / 4000000000). set (l := a mod 4000000000). assert (Eh : a = 4000000000 * h + l) by lia.
  assert (Hl : 0 <= l < 4000000000) by lia. clearbody h l.
  destruct (Z.leb_spec 0 h), (Z.ltb_spec h (Z.quot (2 ^ 63 - 1 - 4000000000) per)); cbn [andb];
    [right|by left..].
  assert (Hcase : (b = 4 /\ per = 1000000000) \/ (b = 400 /\ per = 10000000) \/ (b = 4000 /\ per = 1000000) \/
    (b = 4000000 /\ per = 1000)) by lia.
  destruct Hcase as [[-> ->]|[[-> ->]|[[-> ->]|[-> ->]]]]; repeat i64_step;
    (eexists _, _; split; [done|]; unfold divides_to;
     edestruct (quot_rem_unique a) as [-> ->]; [| | | |
       split; [lia|split; [reflexivity|split; [unfold in_i64; lia|apply spans_parts; rewrite ?ticks_second;
         [unfold in_i64; lia| |rewrite Z.mul_0_l; reflexivity]; lia]]]]; lia).
Qed.

(** The last case: a divisor of whole seconds. *)
Lemma seconds_pos a h l k : a = 4000000000 * h + l -> 0 <= l < 4000000000 -> 0 <= h < 2 ^ 63 -> 0 < k < 2 ^ 63 ->
  divides_to a (k * 4000000000) (h / k) (MakeDuration (h mod k) l).
Proof using Type.
  intros Ha Hl Hh Hk. pose proof (Z.div_mod h k ltac:(lia)) as E. pose proof (Z.mod_pos_bound h k ltac:(lia)).
  assert (0 <= h / k <= h) by (split; [apply Z.div_pos; lia|apply Z.div_le_upper_bound; nia]).
  set (q := h / k) in *. set (r := h mod k) in *. clearbody q r.
  destruct (quot_rem_unique a (k * 4000000000) q (r * 4000000000 + l)) as [Eq Er]; try nia.
  split; [lia|]. split; [done|]. split; [unfold in_i64; lia|]. rewrite Er.
  apply spans_parts; rewrite ?ticks_second; unfold in_i64; lia.
Qed.

Lemma seconds_neg a h l k : a = 4000000000 * h + l -> 0 <= l < 4000000000 -> - 2 ^ 63 <= h < 0 -> 0 < k < 2 ^ 63 ->
  let h' := if negb (l =? 0) then h + 1 else h in
  - k < Z.rem h' k <= 0 /\ in_i64 h' /\ in_i64 (Z.quot h' k) /\
  divides_to a (k * 4000000000) (Z.quot h' k)
    (MakeDuration (if negb (l =? 0) then Z.rem h' k - 1 else Z.rem h' k) l).
Proof using Type.
  intros Ha Hl Hh Hk h'. pose proof (Z.quot_rem' h' k) as E.
  assert (Hh' : h <= h' <= 0 /\ (l = 0 /\ h' = h \/ 0 < l /\ h' = h + 1)) by
    (subst h'; destruct (Z.eqb_spec l 0); cbn [negb]; lia).
  assert (Hr : - k < Z.rem h' k <= 0).
  { pose proof (Z.rem_bound_pos (- h') k ltac:(lia) ltac:(lia)) as Hb. rewrite Z.rem_opp_l in Hb by lia. lia. }
  assert (Hq : h' <= Z.quot h' k <= 0) by nia.
  assert (El : negb (l =? 0) = (h <? h')).
  { destruct (Z.eqb_spec l 0), (Z.ltb_spec h h'); cbn [negb]; done || lia. }
  rewrite El. clearbody h'. set (q := Z.quot h' k) in *. set (r := Z.rem h' k) in *. clearbody q r.
  split; [done|]. split; [unfold in_i64; lia|]. split; [unfold in_i64; lia|].
  set (s := if h <? h' then r - 1 else r).
  assert (Hs : a = k * 4000000000 * q + (s * 4000000000 + l) /\ - k <= s <= 0 /\
    - (k * 4000000000) < s * 4000000000 + l <= 0) by (subst s; destruct (Z.ltb_spec h h'); nia).
  clearbody s. destruct (quot_rem_unique a (k * 4000000000) q (s * 4000000000 + l)) as [Eq Er]; try lia.
  split; [lia|]. split; [done|]. split; [unfold in_i64; lia|]. rewrite Er.
  apply spans_parts; rewrite ?ticks_second; unfold in_i64; lia.
Qed.

Lemma IDivFastPath_ok num den a b : spans num (Fin a) -> spans den (Fin b) ->
  IDivFastPath num den = Ok None \/
  exists q rem, IDivFastPath num den = Ok (Some (q, rem)) /\ divides_to a b q rem.
Proof using Type.
  intros Ha Hb. unfold IDivFastPath.
  rewrite (IsInfinite_spans num _ Ha), (IsInfinite_spans den _ Hb). cbn [orb].
  apply spans_Fin in Ha as (Ha & _ & -> & ->), Hb as (Hb & _ & -> & ->).
  unfold kTicksPerNanosecond. set (bh := b / kTicksPerSecond). set (bl := b mod kTicksPerSecond).
  assert (Eb : b = bh * 4000000000 + bl) by (subst bh bl; rewrite ticks_second; lia).
  assert (Hbh : - 2 ^ 63 <= bh < 2 ^ 63) by (subst bh; unfold in_ticks in Hb; rewrite ticks_second in *; lia).
  assert (Hfast : forall n, bh = 0 -> bl = n -> b = n) by lia.
  clearbody bh bl. destruct (Z.eqb_spec bh 0) as [Eh|Eh]; cbn [andb].
  - destruct (Z.eqb_spec bl 4) as [El|]; [rewrite (Hfast 4 Eh El), El; apply fast_subsecond_ok; (done || lia)|].
    destruct (Z.eqb_spec bl (100 * 4)) as [El|]; [rewrite (Hfast _ Eh El), El; apply fast_subsecond_ok; (done || lia)|].
    destruct (Z.eqb_spec bl (1000 * 4)) as [El|]; [rewrite (Hfast _ Eh El), El; apply fast_subsecond_ok; (done || lia)|].
    destruct (Z.eqb_spec bl (1000000 * 4)) as [El|]; [rewrite (Hfast _ Eh El), El; apply fast_subsecond_ok; (done || lia)|].
    left. by rewrite Eh.
  - destruct (Z.ltb_spec 0 bh), (Z.eqb_spec bl 0); cbn [andb]; [right|by left..].
    replace b with (bh * 4000000000) by lia. unfold in_ticks in Ha. rewrite ticks_second in *.
    set (h := a / 4000000000). set (l := a mod 4000000000). assert (Ea : a = 4000000000 * h + l) by lia.
    assert (Hl : 0 <= l < 4000000000) by lia. assert (Hh : - 2 ^ 63 <= h < 2 ^ 63) by lia. clearbody h l.
    destruct (Z.leb_spec 0 h).
    + destruct (seconds_pos a h l bh Ea Hl ltac:(lia) ltac:(lia)) as (Hpos & Hq & Hfit & Hrem).
      destruct (Z.eqb_spec bh 1) as [->|].
      * exists h, (MakeDuration 0 l). rewrite Z.div_1_r, Z.mod_1_r in *. done.
      * unfold quot_i64, rem_i64. rewrite (proj2 (Z.eqb_neq bh 0)) by lia.
        rewrite Z.quot_div_nonneg, Z.rem_mod_nonneg by lia. rewrite !i64_ok by done. cbn [rbind]. by eexists _, _.
    + destruct (seconds_neg a h l bh Ea Hl ltac:(lia) ltac:(lia)) as (Hr & Hh' & Hqf & Hdiv).
      set (h' := if negb (l =? 0) then h + 1 else h) in *.
      replace (if negb (l =? 0) then i64 (h + 1) else Ok h) with (Ok h') by
        (subst h'; destruct (negb (l =? 0)); [by rewrite i64_ok|done]).
      cbn [rbind]. unfold quot_i64, rem_i64. rewrite (proj2 (Z.eqb_neq bh 0)) by lia.
      rewrite !i64_ok by done. cbn [rbind]. rewrite (proj2 (Z.ltb_ge _ _)) by lia. cbn [rbind].
      destruct (negb (l =? 0)); [rewrite i64_ok by (unfold in_i64; lia)|]; cbn [rbind]; by eexists _, _.
Qed.

(** Quotients saturate at the ends of [int64_t]. *)
Definition clamp64 (q : Z) : Z := Z.max int64_min (Z.min q int64_max).

Lemma clamp64_id q : in_i64 q -> clamp64 q = q.
Proof using Type. unfold in_i64, clamp64, int64_min, int64_max. lia. Qed.

Definition span_negative (x : span) : bool :=
  match x with NegInf => true | Fin z => z <? 0 | PosInf => false end.

(** What [IDivDuration] gives: the remainder is what the quotient leaves. *)
Definition idiv_result (satq : bool) (x y : span) (q : Z) (rem : Duration) : Prop :=
  match x, y with
  | Fin a, Fin b =>
      if b =? 0 then q = (if a <? 0 then int64_min else int64_max) /\ spans rem (if a <? 0 then NegInf else PosInf)
      else if satq then q = clamp64 (Z.quot a b) /\ spans rem (Fin (a - b * clamp64 (Z.quot a b)))
      else (in_i64 (Z.quot a b) -> q = Z.quot a b) /\ spans rem (Fin (Z.rem a b))
  | Fin a, _ => q = 0 /\ spans rem (Fin a)
  | _, _ => q = (if xorb (span_negative x) (span_negative y) then int64_min else int64_max) /\ spans rem x
  end.

Lemma ZeroDuration_ok : spans ZeroDuration (Fin 0).
Proof using Type. apply (spans_fin 0 0); unfold in_i64; rewrite ?ticks_second; lia. Qed.

Lemma dur_negative d x : spans d x -> dur_lt d ZeroDuration = span_negative x.
Proof using Type.
  intros Hd. apply eq_true_iff_eq. rewrite (dur_lt_ok _ _ _ _ Hd ZeroDuration_ok).
  destruct x; cbn [span_lt span_negative]; [done|by rewrite Z.ltb_lt|done].
Qed.

Lemma dur_eq_bool a b x y : spans a x -> spans b y -> dur_eq a b = bool_decide (x = y).
Proof using Type. intros Ha Hb. apply eq_true_iff_eq. rewrite bool_decide_eq_true. by apply dur_eq_ok. Qed.

Lemma land_max z : 0 <= z < 2 ^ 64 -> Z.land z int64_max = z mod 2 ^ 63.
Proof using Type. intros Hz. change int64_max with (Z.ones 63). by apply Z.land_ones. Qed.

(** The quotient of the absolute values gets its sign; one that is too large
    for [int64_t] gives some other number. *)
Lemma signed_quotient (neg : bool) v q : is128 v q ->
  exists r, (if negb neg || op_eq v (of_signed 0) then Ok (Z.land (Uint128Low64 v) int64_max)
   else let* q := i64 (- signed 64 (Z.land (Uint128Low64 (op_sub v (of_signed 1))) int64_max)) in i64 (q - 1)) = Ok r /\
    (q <= (if neg then 2 ^ 63 else 2 ^ 63 - 1) -> r = if neg then - q else q).
Proof using Type.
  intros Hv. destruct (is128_words v q Hv) as (Hw & _ & Hl). unfold word in Hw.
  rewrite (is128_eq v _ q 0 Hv (is128_signed 0 ltac:(lia))), Hl.
  destruct neg; cbn [negb orb]; [destruct (Z.eqb_spec q 0) as [->|]; [by eexists|]|].
  - destruct (is128_words _ _ (is128_sub v _ q 1 Hv (is128_signed 1 ltac:(lia)) ltac:(lia))) as (_ & _ & ->).
    rewrite land_max by lia. rewrite signed_i64 by (unfold in_i64; lia). repeat i64_step.
    eexists. split; [done|]. intros Hq. rewrite (Z.mod_small (q - 1)) by lia. rewrite Z.mod_small by lia. lia.
  - rewrite land_max by lia. eexists. split; [done|]. intros Hq. rewrite (Z.mod_small q) by lia. by rewrite Z.mod_small by lia.
Qed.

Lemma IDivDuration_ok satq num den x y : spans num x -> spans den y ->
  exists q rem, IDivDuration satq num den = Ok (q, rem) /\ idiv_result satq x y q rem.
Proof using Type.
  intros Hx Hy. unfold IDivDuration.
  rewrite (dur_negative num x Hx), (dur_negative den y Hy), (dur_eq_bool den _ y _ Hy ZeroDuration_ok).
  rewrite (IsInfinite_spans num x Hx), (IsInfinite_spans den y Hy).
  assert (Hslow : (match x, y with Fin _, Fin _ => False | _, _ => True end) -> IDivFastPath num den = Ok None).
  { intros Hinf. unfold IDivFastPath. rewrite (IsInfinite_spans num x Hx), (IsInfinite_spans den y Hy).
    by destruct x, y. }
  destruct x as [|a|]; cbn [orb span_negative].
  1,3: rewrite Hslow by done; cbn [rbind];
    match goal with |- context [SignedInfinity ?s] => destruct (SignedInfinity_ok s) as (rem & -> & Hrem) end;
    cbn [rbind]; eexists _, _; (split; [reflexivity|]); cbn [idiv_result span_negative];
    (split; [by destruct (span_negative y)|exact Hrem]).
  destruct y as [|b|]; cbn [span_negative].
  1,3: rewrite Hslow by done; cbn [rbind]; rewrite bool_decide_false by done; by eexists _, _.
  assert (Hb0 : bool_decide (Fin b = Fin 0) = (b =? 0)).
  { apply eq_true_iff_eq. rewrite bool_decide_eq_true, Z.eqb_eq. split; [by intros [= ->]|by intros ->]. }
  rewrite Hb0. cbn [idiv_result].
  destruct (IDivFastPath_ok num den a b Hx Hy) as [->|(q & rem & -> & Hb & Hq & Hfit & Hrem)]; cbn [rbind].
  2:{ exists q, rem. split; [done|]. rewrite (proj2 (Z.eqb_neq b 0)) by lia. destruct satq; [|by split].
      rewrite clamp64_id by (by rewrite <- Hq). split; [done|].
      replace (a - b * Z.quot a b) with (Z.rem a b); [done|]. pose proof (Z.quot_rem' a b). lia. }
  destruct (Z.eqb_spec b 0) as [->|Hb].
  { destruct (SignedInfinity_ok (a <? 0)) as (rem & -> & Hrem). cbn [rbind].
    eexists _, _. split; [reflexivity|]. change (0 <? 0) with false. split; [by destruct (a <? 0)|done]. }
  destruct (MakeU128Ticks_ok num a Hx) as (u & -> & Hu). cbn [rbind].
  destruct (MakeU128Ticks_ok den b Hy) as (v & -> & Hv). cbn [rbind].
  destruct (is128_div u v _ _ Hu Hv) as (w & -> & Hw); [lia|]. cbn [rbind].
  set (neg := negb (Bool.eqb (a <? 0) (b <? 0))).
  assert (Hq : Z.quot a b = if neg then - (Z.abs a / Z.abs b) else Z.abs a / Z.abs b) by by apply quot_abs.
  set (k := Z.abs a / Z.abs b) in *.
  pose proof Hx as (Ha & _)%spans_Fin. unfold in_ticks in Ha. rewrite ticks_second in Ha.
  assert (Hk : 0 <= k /\ k * Z.abs b <= Z.abs a) by
    (split; [apply Z.div_pos; lia|rewrite Z.mul_comm; apply Z.mul_div_le; lia]).
  set (w' := if satq && _ then _ else w).
  assert (exists k', is128 w' k' /\ 0 <= k' <= k /\ (satq = true -> (if neg then - k' else k') = clamp64 (Z.quot a b)) /\
    (satq = false -> k' = k)) as (k' & Hw' & Hk' & Hsat & Hunsat).
  { subst w'. assert (Hmax : is128 (of_unsigned (unsigned 64 int64_max)) (2 ^ 63 - 1)) by done.
    rewrite (is128_gt w _ k _ Hw Hmax). rewrite Hq. unfold clamp64, int64_min, int64_max.
    destruct satq; cbn [andb]; [|by exists k; split_and!; try done; lia].
    destruct (Z.ltb_spec (2 ^ 63 - 1) k); [|exists k; split_and!; try done; destruct neg; lia].
    destruct neg; [exists (2 ^ 63)|exists (2 ^ 63 - 1)]; split_and!; try done; lia. }
  clearbody w'.
  assert (Hp : k' * Z.abs b <= Z.abs a) by nia.
  destruct (is128_mul w' v _ _ Hw' Hv) as (p & -> & Hpp); [lia|]. cbn [rbind].
  pose proof (is128_sub u p _ _ Hu Hpp Hp) as Hr.
  destruct (MakeDurationFromU128_ok _ _ (a <? 0) Hr) as (rem & -> & Hrem). cbn [rbind].
  destruct (signed_quotient neg w' k' Hw') as (q & -> & Hqv). cbn [rbind]. exists q, rem. split; [done|].
  assert (Hrem' : spans rem (Fin (a - b * (if neg then - k' else k')))).
  { assert (E : (if a <? 0 then - (Z.abs a - k' * Z.abs b) else Z.abs a - k' * Z.abs b) =
      a - b * (if neg then - k' else k')).
    { subst neg. destruct (Z.ltb_spec a 0), (Z.ltb_spec b 0); cbn [Bool.eqb negb]; lia. }
    rewrite sat_fin, E in Hrem; [done|]. unfold in_ticks. rewrite ticks_second. destruct (Z.ltb_spec a 0); nia. }
  destruct satq.
  - specialize (Hsat eq_refl). rewrite <- Hsat. split; [|done]. apply Hqv.
    unfold clamp64, int64_min, int64_max in Hsat. destruct neg; lia.
  - rewrite (Hunsat eq_refl), <- Hq in Hrem', Hqv. split.
    + unfold in_i64. intros Hfit. apply Hqv. destruct neg; lia.
    + replace (Z.rem a b) with (a - b * Z.quot a b); [done|]. pose proof (Z.quot_rem' a b). lia.
Qed.
End scale.

(** * remainders and rounding of durations

    [Trunc], [Floor] and [Ceil] of Duration.v give the multiples of the unit
    that integers have. *)

#[local] Ltac Zify.zify_post_hook ::= Z.to_euclidean_division_equations.

(** ** Remainders *)

Definition span_rem (x y : span) : span :=
  match x, y with
  | Fin a, Fin b => if b =? 0 then (if a <? 0 then NegInf else PosInf) else Fin (Z.rem a b)
  | _, _ => x
  end.

Lemma rem_between a b : b <> 0 ->
  (0 <= a -> 0 <= Z.rem a b <= a /\ Z.rem a b < Z.abs b) /\ (a <= 0 -> a <= Z.rem a b <= 0 /\ - Z.abs b < Z.rem a b).
Proof.
  intros Hb. assert (E : Z.rem a b = Z.rem a (Z.abs b)).
  { destruct (Z.abs_spec b) as [[_ ->]|[_ ->]]; [done|]. by rewrite Z.rem_opp_r. }
  rewrite E. assert (0 < Z.abs b) by lia. set (c := Z.abs b) in *. clearbody c. split; intros Ha.
  - pose proof (Z.rem_bound_pos a c ltac:(lia) ltac:(lia)). pose proof (Z.quot_pos a c ltac:(lia) ltac:(lia)).
    pose proof (Z.quot_rem' a c). nia.
  - pose proof (Z.rem_bound_pos (- a) c ltac:(lia) ltac:(lia)) as Hr. pose proof (Z.quot_pos (- a) c ltac:(lia) ltac:(lia)) as Hq.
    rewrite Z.rem_opp_l in Hr by lia. rewrite Z.quot_opp_l in Hq by lia. pose proof (Z.quot_rem' a c). nia.
Qed.

Section round.
Context `{Compiler}.

Lemma dur_rem_ok num den x y : spans num x -> spans den y -> yields (dur_rem num den) (span_rem x y).
Proof using Type.
  intros Hx Hy. unfold dur_rem. destruct (IDivDuration_ok false num den x y Hx Hy) as (q & rem & -> & Hr).
  cbn [rbind snd]. exists rem. split; [done|].
  destruct x as [|a|], y as [|b|]; cbn [idiv_result span_rem] in *; try apply Hr.
  destruct (b =? 0); apply Hr.
Qed.

Lemma dur_quotient_ok num den a b : spans num (Fin a) -> spans den (Fin b) -> b <> 0 ->
  dur_quotient num den = Ok (clamp64 (Z.quot a b)).
Proof using Type.
  intros Hx Hy Hb. unfold dur_quotient. destruct (IDivDuration_ok true num den _ _ Hx Hy) as (q & rem & -> & Hr).
  cbn [idiv_result] in Hr. rewrite (proj2 (Z.eqb_neq b 0)) in Hr by done. cbn [rbind fst]. by destruct Hr as [-> _].
Qed.

Lemma dur_quotient_inf num den x y : spans num x -> spans den y ->
  match x with Fin _ => False | _ => True end ->
  dur_quotient num den = Ok (if xorb (span_negative x) (span_negative y) then int64_min else int64_max).
Proof using Type.
  intros Hx Hy Hinf. unfold dur_quotient. destruct (IDivDuration_ok true num den _ _ Hx Hy) as (q & rem & -> & Hr).
  cbn [rbind fst]. destruct x; try done; by destruct Hr as [-> _].
Qed.

Lemma dur_le_ok a b z w : spans a (Fin z) -> spans b (Fin w) -> dur_le a b = (z <=? w).
Proof using Type.
  intros Ha Hb. unfold dur_le. pose proof (dur_lt_ok b a _ _ Hb Ha) as Hlt. cbn [span_lt] in Hlt.
  apply eq_true_iff_eq. rewrite negb_true_iff, Z.leb_le, <- not_true_iff_false, Hlt. lia.
Qed.

(** ** Rounding *)

Lemma Trunc_ok d unit a b : spans d (Fin a) -> spans unit (Fin b) -> b <> 0 ->
  yields (Trunc d unit) (Fin (b * Z.quot a b)) /\ in_ticks (b * Z.quot a b).
Proof using Type.
  intros Hd Hu Hb. unfold Trunc. destruct (dur_rem_ok d unit _ _ Hd Hu) as (r & -> & Hr). cbn [rbind span_rem] in *.
  rewrite (proj2 (Z.eqb_neq b 0)) in Hr by done. pose proof (dur_sub_ok d r _ _ Hd Hr) as Hs.
  cbn [span_sub] in Hs. apply spans_Fin in Hd as (Ha & _). pose proof (Z.quot_rem' a b) as E.
  pose proof (rem_between a b Hb) as [Hpos Hneg].
  assert (Hin : in_ticks (b * Z.quot a b)).
  { unfold in_ticks in *. rewrite ticks_second in *. destruct (Z.le_ge_cases 0 a); lia. }
  replace (a - Z.rem a b) with (b * Z.quot a b) in Hs by lia. by rewrite sat_fin in Hs.
Qed.

Lemma AbsDuration_ok d b : spans d (Fin b) -> yields (AbsDuration d) (sat (Z.abs b)).
Proof using Type.
  intros Hd. unfold AbsDuration. rewrite (dur_negative d _ Hd). cbn [span_negative].
  destruct (Z.ltb_spec b 0).
  - rewrite Z.abs_neq by lia. by apply (dur_neg_ok d (Fin b)).
  - rewrite Z.abs_eq by lia. apply spans_Fin in Hd as Hb. rewrite sat_fin by apply Hb. by exists d.
Qed.

(** The multiple of the unit below, or above. *)
Lemma quot_floor a b : b <> 0 -> Z.abs b * (a / Z.abs b) = if b * Z.quot a b <=? a then b * Z.quot a b else b * Z.quot a b - Z.abs b.
Proof using Type.
  intros Hb. pose proof (Z.quot_rem' a b) as E. pose proof (rem_between a b Hb) as [Hpos Hneg].
  assert (Hm : exists k, b * Z.quot a b = Z.abs b * k).
  { destruct (Z.abs_spec b) as [[_ ->]|[_ ->]]; [by eexists|]. exists (- Z.quot a b). lia. }
  destruct Hm as [k Hk]. pose proof (Z.div_mod a (Z.abs b) ltac:(lia)). pose proof (Z.mod_pos_bound a (Z.abs b) ltac:(lia)).
  set (c := Z.abs b) in *. set (f := a / c) in *. set (m := a mod c) in *. clearbody f m.
  destruct (Z.leb_spec (b * Z.quot a b) a).
  - assert (f = k) as -> by nia. lia.
  - assert (f = k - 1) as -> by nia. lia.
Qed.

Lemma Floor_ok d unit a b : spans d (Fin a) -> spans unit (Fin b) -> b <> 0 -> in_ticks (Z.abs b) ->
  yields (Floor d unit) (sat (Z.abs b * (a / Z.abs b))).
Proof using Type.
  intros Hd Hu Hb Hab. unfold Floor. destruct (Trunc_ok d unit a b Hd Hu Hb) as [(td & -> & Htd) Hin]. cbn [rbind].
  rewrite (dur_le_ok td d _ _ Htd Hd), quot_floor by done. destruct (Z.leb_spec (b * Z.quot a b) a).
  - rewrite sat_fin by done. by exists td.
  - destruct (AbsDuration_ok unit b Hu) as (u & -> & Hau). cbn [rbind]. rewrite sat_fin in Hau by done.
    by apply (dur_sub_ok td u _ _ Htd Hau).
Qed.

Lemma Ceil_ok d unit a b : spans d (Fin a) -> spans unit (Fin b) -> b <> 0 -> in_ticks (Z.abs b) ->
  yields (Ceil d unit) (sat (- (Z.abs b * (- a / Z.abs b)))).
Proof using Type.
  intros Hd Hu Hb Hab. unfold Ceil. destruct (Trunc_ok d unit a b Hd Hu Hb) as [(td & -> & Htd) Hin]. cbn [rbind].
  change (dur_ge td d) with (dur_le d td). rewrite (dur_le_ok d td _ _ Hd Htd), quot_floor by done.
  rewrite Z.quot_opp_l by done. destruct (Z.leb_spec a (b * Z.quot a b)).
  - rewrite (proj2 (Z.leb_le _ _)) by lia. replace (- _) with (b * Z.quot a b) by lia.
    rewrite sat_fin by done. by exists td.
  - rewrite (proj2 (Z.leb_gt _ _)) by lia. replace (- _) with (b * Z.quot a b + Z.abs b) by lia.
    destruct (AbsDuration_ok unit b Hu) as (u & -> & Hau). cbn [rbind]. rewrite sat_fin in Hau by done.
    by apply (dur_add_ok td u _ _ Htd Hau).
Qed.
End round.
