(* ===== verification/TimeConv.v ===== *)
(** * TimeConv: conversions of durations and times (src/abseil-cpp/absl/time/
    time.h, duration.cc, time.cc)

    From and to integers of a unit, [timespec], [timeval] and the ICU universal
    time. A [Time] is a duration since the Unix epoch. [time_t] has 64 bits. *)

From S2P Require Import Prelude.
From S2P Require Import Word.
From S2P Require Import Uint128.
From S2P Require Import Int64.
From S2P Require Import Duration.
From S2P Require Import DurationInv.

(** ** From integers *)

(** [FromInt64(v, std::ratio<1, N>)] *)
Definition FromInt64_fraction (N v : Z) : result Duration :=
  let* t := i64 (Z.rem v N * kTicksPerNanosecond) in
  let* t := i64 (t * 1000) in
  let* t := i64 (t * 1000) in
  let* t := i64 (t * 1000) in
  MakeNormalizedDuration (Z.quot v N) (Z.quot t N).

(** [FromInt64(v, std::ratio<60>)] and [FromInt64(v, std::ratio<3600>)] *)
Definition FromInt64_multiple (secs v : Z) : result Duration :=
  if (v <=? Z.quot int64_max secs) && (Z.quot int64_min secs <=? v) then
    let* hi := i64 (v * secs) in Ok (MakeDuration hi 0)
  else if 0 <? v then Ok InfiniteDuration else NegInfiniteDuration.

Definition Nanoseconds (n : Z) : result Duration := FromInt64_fraction 1000000000 n.
Definition Microseconds (n : Z) : result Duration := FromInt64_fraction 1000000 n.
Definition Milliseconds (n : Z) : result Duration := FromInt64_fraction 1000 n.
Definition Seconds (n : Z) : result Duration := FromInt64_fraction 1 n.
Definition Minutes (n : Z) : result Duration := FromInt64_multiple 60 n.
Definition Hours (n : Z) : result Duration := FromInt64_multiple 3600 n.

(** ** [timespec] and [timeval] *)

Record timespec := mkTimespec { tv_sec : Z; tv_nsec : Z }.
Record timeval := mkTimeval { tval_sec : Z; tval_usec : Z }.

Definition DurationFromTimespec (ts : timespec) : result Duration :=
  if unsigned 64 (tv_nsec ts) <? 1000 * 1000 * 1000 then
    let* ticks := i64 (tv_nsec ts * kTicksPerNanosecond) in
    Ok (MakeDuration (tv_sec ts) ticks)
  else
    let* s := Seconds (tv_sec ts) in
    let* n := Nanoseconds (tv_nsec ts) in
    dur_add s n.

Definition DurationFromTimeval (tv : timeval) : result Duration :=
  if unsigned 64 (tval_usec tv) <? 1000 * 1000 then
    let* t := i64 (tval_usec tv * 1000) in
    let* ticks := i64 (t * kTicksPerNanosecond) in
    Ok (MakeDuration (tval_sec tv) ticks)
  else
    let* s := Seconds (tval_sec tv) in
    let* u := Microseconds (tval_usec tv) in
    dur_add s u.

(** The last lines: what does not fit into a [timespec]. *)
Definition timespec_limit (d : Duration) : timespec :=
  if dur_ge d ZeroDuration then mkTimespec int64_max (1000 * 1000 * 1000 - 1) else mkTimespec int64_min 0.

Definition ToTimespec (d : Duration) : result timespec :=
  if negb (IsInfiniteDuration d) then
    let rep_hi := GetRepHi d in
    let rep_lo := GetRepLo d in
    let* r :=
      if rep_hi <? 0 then
        let rep_lo := rep_lo +32 (kTicksPerNanosecond - 1) in
        if kTicksPerSecond <=? rep_lo then
          let* rep_hi := i64 (rep_hi + 1) in
          Ok (rep_hi, u32 (rep_lo - kTicksPerSecond))
        else Ok (rep_hi, rep_lo)
      else Ok (rep_hi, rep_lo) in
    let '(rep_hi, rep_lo) := r in
    Ok (mkTimespec rep_hi (rep_lo / kTicksPerNanosecond))
  else Ok (timespec_limit d).

Definition ToTimeval (d : Duration) : result timeval :=
  let* ts := ToTimespec d in
  let* ts :=
    if tv_sec ts <? 0 then
      let* nsec := i64 (tv_nsec ts + (1000 - 1)) in
      if 1000 * 1000 * 1000 <=? nsec then
        let* sec := i64 (tv_sec ts + 1) in
        let* nsec := i64 (nsec - 1000 * 1000 * 1000) in
        Ok (mkTimespec sec nsec)
      else Ok (mkTimespec (tv_sec ts) nsec)
    else Ok ts in
  Ok (mkTimeval (tv_sec ts) (i32 (Z.quot (tv_nsec ts) 1000))).

(** ** To integers *)

Section conversions.
Context `{Compiler}.

(** The conversions to subsecond units: seconds below [2^shift] are
    converted directly. *)
Definition ToInt64_fraction (shift factor1 factor2 factor3 lo_div : Z) (unit : result Duration) (d : Duration)
    : result Z :=
  if (0 <=? GetRepHi d) && (GetRepHi d >> shift =? 0) then
    let* p := i64 (GetRepHi d * factor1) in
    let* p := i64 (p * factor2) in
    let* p := i64 (p * factor3) in
    i64 (p + GetRepLo d / lo_div)
  else let* u := unit in dur_quotient d u.

Definition ToInt64Nanoseconds : Duration -> result Z :=
  ToInt64_fraction 33 1000 1000 1000 kTicksPerNanosecond (Nanoseconds 1).
Definition ToInt64Microseconds : Duration -> result Z :=
  ToInt64_fraction 43 1000 1000 1 (kTicksPerNanosecond * 1000) (Microseconds 1).
Definition ToInt64Milliseconds : Duration -> result Z :=
  ToInt64_fraction 53 1000 1 1 (kTicksPerNanosecond * 1000 * 1000) (Milliseconds 1).

(** The seconds, rounded towards zero; an infinity keeps its [rep_hi_]. *)
Definition whole_seconds (d : Duration) : result Z :=
  let hi := GetRepHi d in
  if (hi <? 0) && negb (GetRepLo d =? 0) then i64 (hi + 1) else Ok hi.

Definition ToInt64Seconds (d : Duration) : result Z :=
  if IsInfiniteDuration d then Ok (GetRepHi d) else whole_seconds d.
Definition ToInt64Minutes (d : Duration) : result Z :=
  if IsInfiniteDuration d then Ok (GetRepHi d) else let* hi := whole_seconds d in Ok (Z.quot hi 60).
Definition ToInt64Hours (d : Duration) : result Z :=
  if IsInfiniteDuration d then Ok (GetRepHi d) else let* hi := whole_seconds d in Ok (Z.quot hi (60 * 60)).

(** ** [Time] *)

Definition FloorToUnit (d unit : Duration) : result Z :=
  let* r := IDivDuration true d unit in
  let '(q, rem) := r in
  if (0 <? q) || dur_ge rem ZeroDuration || (q =? int64_min) then Ok q else i64 (q - 1).

(** Below [2^shift] seconds a time after the epoch is converted directly. *)
Definition ToUnix_fraction (shift factor1 factor2 factor3 lo_div : Z) (unit : result Duration) (t : Duration)
    : result Z :=
  if (0 <=? GetRepHi t) && (GetRepHi t >> shift =? 0) then
    let* p := i64 (GetRepHi t * factor1) in
    let* p := i64 (p * factor2) in
    let* p := i64 (p * factor3) in
    i64 (p + GetRepLo t / lo_div)
  else let* u := unit in FloorToUnit t u.

Definition ToUnixNanos : Duration -> result Z := ToUnix_fraction 33 1000 1000 1000 4 (Nanoseconds 1).
Definition ToUnixMicros : Duration -> result Z := ToUnix_fraction 43 1000 1000 1 4000 (Microseconds 1).
Definition ToUnixMillis : Duration -> result Z := ToUnix_fraction 53 1000 1 1 (4000 * 1000) (Milliseconds 1).
Definition ToUnixSeconds (t : Duration) : Z := GetRepHi t.

Definition FromUnixNanos (ns : Z) : result Duration := Nanoseconds ns.
Definition FromUnixMicros (us : Z) : result Duration := Microseconds us.
Definition FromUnixMillis (ms : Z) : result Duration := Milliseconds ms.
Definition FromUnixSeconds (s : Z) : result Duration := Seconds s.

(** [ToTimespec(Time)], which rounds down. *)
Definition time_ToTimespec (t : Duration) : timespec :=
  if negb (IsInfiniteDuration t) then mkTimespec (GetRepHi t) (GetRepLo t / 4) else timespec_limit t.
Definition time_ToTimeval (t : Duration) : timeval :=
  let ts := time_ToTimespec t in mkTimeval (tv_sec ts) (i32 (Z.quot (tv_nsec ts) 1000)).

Definition UniversalEpoch : Duration := MakeDuration (-24 * 719162 * 3600) 0.

Definition FromUniversal (universal : Z) : result Duration :=
  let* n := Nanoseconds universal in
  let* d := dur_mul n 100 in
  dur_add UniversalEpoch d.
Definition ToUniversal (t : Duration) : result Z :=
  let* d := dur_sub t UniversalEpoch in
  let* u := Nanoseconds 100 in
  FloorToUnit d u.
End conversions.

(** * what the conversions of durations and times compute *)

#[local] Ltac Zify.zify_post_hook ::= Z.to_euclidean_division_equations.

(** ** From integers *)

Lemma FromInt64_fraction_ok N v : N = 1 \/ N = 1000 \/ N = 1000000 \/ N = 1000000000 -> in_i64 v ->
  yields (FromInt64_fraction N v) (Fin (v * (kTicksPerSecond / N))).
Proof.
  unfold in_i64, FromInt64_fraction, MakeNormalizedDuration, kTicksPerNanosecond. rewrite ticks_second.
  intros HN Hv.
  assert (exists q r f, Z.quot v N = q /\ Z.rem v N = r /\ 4000000000 / N = f /\ v = N * q + r /\ f * N = 4000000000 /\
    - N < r < N /\ 1 <= N <= 1000000000 /\ - 2 ^ 63 <= q < 2 ^ 63 /\ (N = 1 \/ - 2 ^ 62 <= q)) as
    (q & r & f & -> & -> & -> & Ev & Ef & Hr & HN' & Hq & Hq').
  { eexists _, _, _. split; [done|]. split; [done|]. split; [done|]. destruct HN as [->|[->|[->| ->]]]; lia. }
  repeat i64_step. replace (Z.quot (r * 4 * 1000 * 1000 * 1000) N) with (r * f)
    by (replace (r * 4 * 1000 * 1000 * 1000) with (r * f * N) by lia; rewrite Z.quot_mul; lia).
  assert (Hrf : - 4000000000 < r * f < 4000000000) by nia.
  replace (v * f) with (q * 4000000000 + r * f) by (rewrite Ev, <- Ef; ring).
  destruct (Z.ltb_spec (r * f) 0).
  - assert (N <> 1) by nia. repeat i64_step. apply yields_make; rewrite ?ticks_second; unfold in_i64; lia.
  - apply yields_make; rewrite ?ticks_second; unfold in_i64; lia.
Qed.

Lemma FromInt64_multiple_ok secs v : secs = 60 \/ secs = 3600 -> in_i64 v ->
  yields (FromInt64_multiple secs v) (sat (v * (secs * kTicksPerSecond))).
Proof.
  unfold in_i64, FromInt64_multiple, int64_min, int64_max. intros Hs Hv.
  destruct (Z.leb_spec v (Z.quot (2 ^ 63 - 1) secs)) as [Hhi|Hhi];
    [destruct (Z.leb_spec (Z.quot (- 2 ^ 63) secs) v) as [Hlo|Hlo]|]; cbn [andb].
  - assert (Hfit : - 2 ^ 63 <= v * secs < 2 ^ 63) by (destruct Hs as [-> | ->]; lia).
    i64_step. rewrite sat_fin by (unfold in_ticks; rewrite ticks_second; nia).
    apply yields_make; rewrite ?ticks_second; unfold in_i64; lia.
  - rewrite (proj2 (Z.ltb_ge 0 v)) by (destruct Hs as [-> | ->]; lia).
    rewrite sat_neg by (rewrite ticks_second; destruct Hs as [-> | ->]; lia).
    rewrite NegInfiniteDuration_ok. eexists. split; [done|constructor].
  - rewrite (proj2 (Z.ltb_lt 0 v)) by (destruct Hs as [-> | ->]; lia).
    rewrite sat_pos by (rewrite ticks_second; destruct Hs as [-> | ->]; lia).
    eexists. split; [done|constructor].
Qed.

(** The factories in ticks. *)
Lemma Nanoseconds_ok n : in_i64 n -> yields (Nanoseconds n) (Fin (n * 4)).
Proof. apply (FromInt64_fraction_ok 1000000000). lia. Qed.
Lemma Microseconds_ok n : in_i64 n -> yields (Microseconds n) (Fin (n * 4000)).
Proof. apply (FromInt64_fraction_ok 1000000). lia. Qed.
Lemma Milliseconds_ok n : in_i64 n -> yields (Milliseconds n) (Fin (n * 4000000)).
Proof. apply (FromInt64_fraction_ok 1000). lia. Qed.
Lemma Seconds_ok n : in_i64 n -> yields (Seconds n) (Fin (n * 4000000000)).
Proof. apply (FromInt64_fraction_ok 1). lia. Qed.
Lemma Minutes_ok n : in_i64 n -> yields (Minutes n) (sat (n * 240000000000)).
Proof. apply (FromInt64_multiple_ok 60). lia. Qed.
Lemma Hours_ok n : in_i64 n -> yields (Hours n) (sat (n * 14400000000000)).
Proof. apply (FromInt64_multiple_ok 3600). lia. Qed.

(** ** To integers *)

(** What a conversion to an integer gives for an infinity. *)
Definition end64 (x : span) : Z := if span_negative x then int64_min else int64_max.

Definition span_to_int (unit : Z) (x : span) : Z :=
  match x with Fin a => clamp64 (Z.quot a unit) | _ => end64 x end.
Definition span_floor (unit : Z) (x : span) : Z :=
  match x with Fin a => clamp64 (a / unit) | _ => end64 x end.

Section conversions.
Context `{Compiler}.

(** The direct conversion: seconds times units, and the rest. *)
Definition direct (shift f1 f2 f3 lo_div hi lo : Z) : option (result Z) :=
  if (0 <=? hi) && (hi >> shift =? 0) then
    Some (let* p := i64 (hi * f1) in let* p := i64 (p * f2) in let* p := i64 (p * f3) in i64 (p + lo / lo_div))
  else None.

Definition fraction_params (shift f1 f2 f3 unit : Z) : Prop :=
  shift = 33 /\ f1 = 1000 /\ f2 = 1000 /\ f3 = 1000 /\ unit = 4 \/
  shift = 43 /\ f1 = 1000 /\ f2 = 1000 /\ f3 = 1 /\ unit = 4000 \/
  shift = 53 /\ f1 = 1000 /\ f2 = 1 /\ f3 = 1 /\ unit = 4000000.

Lemma direct_ok shift f1 f2 f3 unit d x : fraction_params shift f1 f2 f3 unit -> spans d x ->
  match direct shift f1 f2 f3 unit (GetRepHi d) (GetRepLo d) with
  | Some r => exists a, x = Fin a /\ 0 <= a /\ in_i64 (a / unit) /\ r = Ok (a / unit)
  | None => True
  end.
Proof using Type.
  intros Hp Hd. unfold direct. destruct x as [|a|].
  - inversion Hd; subst. by rewrite neg_inf_hi.
  - apply spans_Fin in Hd as (Ha & _ & -> & ->). unfold in_ticks in Ha. rewrite ticks_second in *.
    set (h := a / 4000000000). set (l := a mod 4000000000). assert (Ea : a = 4000000000 * h + l) by lia.
    assert (Hl : 0 <= l < 4000000000) by lia. clearbody h l.
    destruct (Z.leb_spec 0 h); cbn [andb]; [|done].
    destruct (Z.eqb_spec (h >> shift) 0) as [Hs|]; [|done]. exists a. split; [done|]. split; [lia|].
    rewrite Z.shiftr_div_pow2 in Hs by (destruct Hp as [?|[?|?]]; lia).
    destruct Hp as [(-> & -> & -> & -> & ->)|[(-> & -> & -> & -> & ->)|(-> & -> & -> & -> & ->)]];
      (split; [unfold in_i64; lia|]); repeat i64_step; f_equal; lia.
  - inversion Hd; subst. rewrite inf_hi. cbn [andb]. change (0 <=? int64_max) with true. cbn [andb].
    assert (int64_max >> shift =? 0 = false) as -> by
      (destruct Hp as [(-> & _)|[(-> & _)|(-> & _)]]; reflexivity). done.
Qed.

Lemma ToInt64_fraction_ok shift f1 f2 f3 unit r d x :
  fraction_params shift f1 f2 f3 unit -> yields r (Fin unit) -> spans d x ->
  ToInt64_fraction shift f1 f2 f3 unit r d = Ok (span_to_int unit x).
Proof using Type.
  intros Hp (u & -> & Hu) Hd. pose proof (direct_ok _ _ _ _ _ d x Hp Hd) as Hdir. unfold ToInt64_fraction, direct in *.
  assert (Hunit : 0 < unit) by (destruct Hp as [?|[?|?]]; lia).
  destruct ((0 <=? _) && _).
  - destruct Hdir as (a & -> & Ha & Hfit & ->). cbn [span_to_int]. rewrite Z.quot_div_nonneg by lia.
    by rewrite clamp64_id.
  - cbn [rbind]. destruct x as [|a|].
    + rewrite (dur_quotient_inf d u _ _ Hd Hu) by done. cbn [span_to_int span_negative].
      rewrite (proj2 (Z.ltb_ge unit 0)) by lia. done.
    + rewrite (dur_quotient_ok d u a unit Hd Hu) by lia. done.
    + rewrite (dur_quotient_inf d u _ _ Hd Hu) by done. cbn [span_to_int span_negative].
      rewrite (proj2 (Z.ltb_ge unit 0)) by lia. done.
Qed.

Lemma ToInt64Nanoseconds_ok d x : spans d x -> ToInt64Nanoseconds d = Ok (span_to_int 4 x).
Proof using Type. apply ToInt64_fraction_ok; [unfold fraction_params; lia|by apply Nanoseconds_ok]. Qed.
Lemma ToInt64Microseconds_ok d x : spans d x -> ToInt64Microseconds d = Ok (span_to_int 4000 x).
Proof using Type. apply ToInt64_fraction_ok; [unfold fraction_params; lia|by apply Microseconds_ok]. Qed.
Lemma ToInt64Milliseconds_ok d x : spans d x -> ToInt64Milliseconds d = Ok (span_to_int 4000000 x).
Proof using Type. apply ToInt64_fraction_ok; [unfold fraction_params; lia|by apply Milliseconds_ok]. Qed.

Lemma whole_seconds_ok d a : spans d (Fin a) -> whole_seconds d = Ok (Z.quot a 4000000000) /\ in_i64 (Z.quot a 4000000000).
Proof using Type.
  intros (Ha & _ & Hh & Hl)%spans_Fin. unfold whole_seconds. rewrite Hh, Hl. unfold in_ticks in Ha.
  rewrite ticks_second in *. split; [|unfold in_i64; lia].
  destruct (Z.ltb_spec (a / 4000000000) 0), (Z.eqb_spec (a mod 4000000000) 0); cbn [andb negb];
    try i64_step; f_equal; lia.
Qed.

Lemma ToInt64Seconds_ok d x : spans d x -> ToInt64Seconds d = Ok (span_to_int 4000000000 x).
Proof using Type.
  intros Hd. unfold ToInt64Seconds. rewrite (IsInfinite_spans d x Hd).
  destruct x as [|a|]; [by inversion Hd| |by inversion Hd].
  destruct (whole_seconds_ok d a Hd) as [-> Hfit]. cbn [span_to_int]. by rewrite clamp64_id.
Qed.

Lemma quot_quot a b c : 0 < b -> 0 < c -> Z.quot (Z.quot a b) c = Z.quot a (b * c).
Proof using Type. intros. by rewrite Z.quot_quot by lia. Qed.

Lemma ToInt64Minutes_ok d x : spans d x -> ToInt64Minutes d = Ok (span_to_int 240000000000 x).
Proof using Type.
  intros Hd. unfold ToInt64Minutes. rewrite (IsInfinite_spans d x Hd).
  destruct x as [|a|]; [by inversion Hd| |by inversion Hd].
  destruct (whole_seconds_ok d a Hd) as [-> Hfit]. cbn [rbind span_to_int]. rewrite quot_quot by lia.
  rewrite clamp64_id; [done|]. unfold in_i64 in *. lia.
Qed.

Lemma ToInt64Hours_ok d x : spans d x -> ToInt64Hours d = Ok (span_to_int 14400000000000 x).
Proof using Type.
  intros Hd. unfold ToInt64Hours. rewrite (IsInfinite_spans d x Hd).
  destruct x as [|a|]; [by inversion Hd| |by inversion Hd].
  destruct (whole_seconds_ok d a Hd) as [-> Hfit]. cbn [rbind span_to_int]. rewrite quot_quot by lia.
  rewrite clamp64_id; [done|]. unfold in_i64 in *. lia.
Qed.

(** ** Times *)

(** Truncated division, with the remainder's sign, gives the floor. *)
Lemma floor_quot a unit : 0 < unit ->
  (0 <= Z.rem a unit /\ a / unit = Z.quot a unit) \/
  (Z.rem a unit < 0 /\ a / unit = Z.quot a unit - 1 /\ Z.quot a unit <= 0).
Proof using Type.
  intros Hu. pose proof (Z.quot_rem' a unit) as E. pose proof (rem_between a unit ltac:(lia)) as [Hpos Hneg].
  destruct (Z.lt_ge_cases (Z.rem a unit) 0) as [Hr|Hr].
  - right. destruct (Z.lt_ge_cases a 0) as [Ha|Ha]; [|specialize (Hpos ltac:(lia)); lia]. specialize (Hneg ltac:(lia)). split; [done|]. split.
    + symmetry. apply (Z.div_unique_pos a unit _ (Z.rem a unit + unit)); lia.
    + apply Z.quot_le_upper_bound; lia.
  - left. split; [done|]. symmetry. apply (Z.div_unique_pos a unit _ (Z.rem a unit)); lia.
Qed.

Lemma floor_of_quot a unit (c := clamp64 (Z.quot a unit)) : 0 < unit ->
  (if (0 <? c) || negb (a - unit * c <? 0) || (c =? int64_min) then Ok c else i64 (c - 1)) = Ok (clamp64 (a / unit)).
Proof using Type.
  intros Hu. pose proof (floor_quot a unit Hu) as Hf. pose proof (Z.quot_rem' a unit) as E. subst c.
  set (k := Z.quot a unit) in *. set (f := a / unit) in *. set (r := Z.rem a unit) in *. clearbody k f r.
  assert (Hk : in_i64 k \/ k < int64_min \/ int64_max < k) by (unfold in_i64, int64_min, int64_max; lia).
  destruct Hk as [Hk|[Hk|Hk]].
  - rewrite (clamp64_id k Hk). replace (a - unit * k) with r by lia. unfold clamp64, in_i64, int64_min, int64_max in *.
    destruct (Z.ltb_spec 0 k), (Z.ltb_spec r 0), (Z.eqb_spec k (- 2 ^ 63)); cbn [orb negb];
      try i64_step; f_equal; lia.
  - assert (clamp64 k = int64_min) as -> by (unfold clamp64, int64_min, int64_max in *; lia).
    rewrite Z.eqb_refl, orb_true_r. f_equal. unfold clamp64, int64_min, int64_max in *. lia.
  - assert (clamp64 k = int64_max) as -> by (unfold clamp64, int64_min, int64_max in *; lia).
    cbn [orb]. f_equal. unfold clamp64, int64_min, int64_max in *. lia.
Qed.

Lemma FloorToUnit_ok d u x unit : spans d x -> spans u (Fin unit) -> 0 < unit ->
  FloorToUnit d u = Ok (span_floor unit x).
Proof using Type.
  intros Hd Hu Hunit. unfold FloorToUnit.
  destruct (IDivDuration_ok true d u x _ Hd Hu) as (q & rem & -> & Hr). cbn [rbind].
  destruct x as [|a|]; cbn [idiv_result span_negative] in Hr.
  - rewrite (proj2 (Z.ltb_ge unit 0)) in Hr by lia. destruct Hr as [-> Hr]. cbn [xorb].
    by rewrite Z.eqb_refl, orb_true_r.
  - rewrite (proj2 (Z.eqb_neq unit 0)) in Hr by lia. destruct Hr as [-> Hr].
    unfold dur_ge. rewrite (dur_negative rem _ Hr). cbn [span_negative span_floor].
    by apply floor_of_quot.
  - rewrite (proj2 (Z.ltb_ge unit 0)) in Hr by lia. by destruct Hr as [-> _].
Qed.

Lemma ToUnix_fraction_ok shift f1 f2 f3 unit r d x :
  fraction_params shift f1 f2 f3 unit -> yields r (Fin unit) -> spans d x ->
  ToUnix_fraction shift f1 f2 f3 unit r d = Ok (span_floor unit x).
Proof using Type.
  intros Hp (u & -> & Hu) Hd. pose proof (direct_ok _ _ _ _ _ d x Hp Hd) as Hdir. unfold ToUnix_fraction, direct in *.
  assert (Hunit : 0 < unit) by (destruct Hp as [?|[?|?]]; lia).
  destruct ((0 <=? _) && _).
  - destruct Hdir as (a & -> & Ha & Hfit & ->). cbn [span_floor]. by rewrite clamp64_id.
  - cbn [rbind]. by apply FloorToUnit_ok.
Qed.

Lemma ToUnixNanos_ok d x : spans d x -> ToUnixNanos d = Ok (span_floor 4 x).
Proof using Type. apply ToUnix_fraction_ok; [unfold fraction_params; lia|by apply Nanoseconds_ok]. Qed.
Lemma ToUnixMicros_ok d x : spans d x -> ToUnixMicros d = Ok (span_floor 4000 x).
Proof using Type. apply ToUnix_fraction_ok; [unfold fraction_params; lia|by apply Microseconds_ok]. Qed.
Lemma ToUnixMillis_ok d x : spans d x -> ToUnixMillis d = Ok (span_floor 4000000 x).
Proof using Type. apply ToUnix_fraction_ok; [unfold fraction_params; lia|by apply Milliseconds_ok]. Qed.
Lemma ToUnixSeconds_ok d x : spans d x -> ToUnixSeconds d = span_floor 4000000000 x.
Proof using Type.
  intros Hd. unfold ToUnixSeconds. destruct x as [|a|]; [by inversion Hd| |by inversion Hd].
  apply spans_Fin in Hd as (Ha & _ & -> & _). cbn [span_floor]. unfold in_ticks in Ha. rewrite ticks_second in *.
  rewrite clamp64_id; [done|]. unfold in_i64. lia.
Qed.

(** The ICU epoch is 719162 days before the Unix epoch. *)
Lemma UniversalEpoch_ok : spans UniversalEpoch (Fin (- 719162 * 86400 * 4000000000)).
Proof using Type. apply (spans_fin (-24 * 719162 * 3600) 0); unfold in_i64; rewrite ?ticks_second; lia. Qed.

Lemma FromUniversal_ok n : in_i64 n ->
  yields (FromUniversal n) (Fin (n * 400 - 719162 * 86400 * 4000000000)).
Proof using Type.
  intros Hn. unfold FromUniversal. destruct (Nanoseconds_ok n Hn) as (d & -> & Hd). cbn [rbind].
  destruct (dur_mul_ok d _ 100 Hd ltac:(unfold in_i64; lia)) as (e & -> & He). cbn [rbind span_mul] in *.
  unfold in_i64 in Hn. rewrite sat_fin in He by (unfold in_ticks; rewrite ticks_second; lia).
  pose proof (dur_add_ok _ _ _ _ UniversalEpoch_ok He) as Hs. cbn [span_add] in Hs.
  rewrite sat_fin in Hs by (unfold in_ticks; rewrite ticks_second; lia).
  by replace (n * 400 - 719162 * 86400 * 4000000000) with (- 719162 * 86400 * 4000000000 + n * 4 * 100) by lia.
Qed.

Lemma ToUniversal_ok d a : spans d (Fin a) -> in_ticks (a + 719162 * 86400 * 4000000000) ->
  ToUniversal d = Ok (clamp64 ((a + 719162 * 86400 * 4000000000) / 400)).
Proof using Type.
  intros Hd Ha. unfold ToUniversal. destruct (dur_sub_ok _ _ _ _ Hd UniversalEpoch_ok) as (e & -> & He).
  cbn [rbind span_sub] in *. destruct (Nanoseconds_ok 100 ltac:(unfold in_i64; lia)) as (u & -> & Hu). cbn [rbind].
  replace (a - - 719162 * 86400 * 4000000000) with (a + 719162 * 86400 * 4000000000) in He by lia.
  rewrite sat_fin in He by done. by rewrite (FloorToUnit_ok e u _ _ He Hu).
Qed.
End conversions.

(** ** [timespec] and [timeval] *)

Lemma DurationFromTimespec_ok ts : in_i64 (tv_sec ts) -> in_i64 (tv_nsec ts) ->
  yields (DurationFromTimespec ts) (sat (tv_sec ts * 4000000000 + tv_nsec ts * 4)).
Proof.
  intros Hs Hn. unfold DurationFromTimespec, unsigned, kTicksPerNanosecond. unfold in_i64 in Hn.
  destruct (Z.ltb_spec (tv_nsec ts mod 2 ^ 64) (1000 * 1000 * 1000)).
  - i64_step. rewrite sat_fin by (unfold in_ticks, in_i64 in *; rewrite ticks_second; lia).
    apply yields_make; rewrite ?ticks_second; [done|lia|lia].
  - destruct (Seconds_ok _ Hs) as (s & -> & Hss), (Nanoseconds_ok _ Hn) as (n & -> & Hns). cbn [rbind].
    apply (dur_add_ok _ _ _ _ Hss Hns).
Qed.

Lemma DurationFromTimeval_ok tv : in_i64 (tval_sec tv) -> in_i64 (tval_usec tv) ->
  yields (DurationFromTimeval tv) (sat (tval_sec tv * 4000000000 + tval_usec tv * 4000)).
Proof.
  intros Hs Hn. unfold DurationFromTimeval, unsigned, kTicksPerNanosecond. unfold in_i64 in Hn.
  destruct (Z.ltb_spec (tval_usec tv mod 2 ^ 64) (1000 * 1000)).
  - repeat i64_step. rewrite sat_fin by (unfold in_ticks, in_i64 in *; rewrite ticks_second; lia).
    apply yields_make; rewrite ?ticks_second; [done|lia|lia].
  - destruct (Seconds_ok _ Hs) as (s & -> & Hss), (Microseconds_ok _ Hn) as (n & -> & Hns). cbn [rbind].
    apply (dur_add_ok _ _ _ _ Hss Hns).
Qed.

(** Towards zero for durations, down for times. *)
Definition timespec_of (ns : Z) : timespec := mkTimespec (ns / 1000000000) (ns mod 1000000000).
Definition timeval_of (us : Z) : timeval := mkTimeval (us / 1000000) (us mod 1000000).

Lemma ToTimespec_ok d a : spans d (Fin a) -> ToTimespec d = Ok (timespec_of (Z.quot a 4)).
Proof.
  intros Hd. unfold ToTimespec. rewrite (IsInfinite_spans d _ Hd). cbn [negb].
  apply spans_Fin in Hd as (Ha & _ & -> & ->). unfold in_ticks, kTicksPerNanosecond, timespec_of in *.
  rewrite ticks_second in *. destruct (Z.ltb_spec (a / 4000000000) 0); cbn [rbind].
  - replace (_ +32 _) with (a mod 4000000000 + 3) by (unfold u32; lia).
    destruct (Z.leb_spec 4000000000 (a mod 4000000000 + 3)).
    + i64_step. replace (u32 _) with (a mod 4000000000 + 3 - 4000000000) by (unfold u32; lia).
      do 2 f_equal; lia.
    + cbn [rbind]. do 2 f_equal; lia.
  - do 2 f_equal; lia.
Qed.

Lemma ToTimeval_ok d a : spans d (Fin a) -> ToTimeval d = Ok (timeval_of (Z.quot a 4000)).
Proof.
  intros Hd. unfold ToTimeval. rewrite (ToTimespec_ok d a Hd). cbn [rbind]. unfold timespec_of, timeval_of.
  apply spans_Fin in Hd as (Ha & _). unfold in_ticks in Ha. rewrite ticks_second in Ha. cbn [tv_sec tv_nsec].
  set (n := Z.quot a 4). assert (En : Z.quot a 4000 = Z.quot n 1000) by (subst n; lia).
  assert (Hn : - 2 ^ 63 * 1000000000 <= n < 2 ^ 63 * 1000000000) by lia. rewrite En. clearbody n. clear En Ha.
  destruct (Z.ltb_spec (n / 1000000000) 0).
  - i64_step. destruct (Z.leb_spec (1000 * 1000 * 1000) (n mod 1000000000 + (1000 - 1))).
    + repeat i64_step. cbn [tv_sec tv_nsec]. rewrite i32_id by (unfold in_i32; lia). do 2 f_equal; lia.
    + cbn [rbind tv_sec tv_nsec]. rewrite i32_id by (unfold in_i32; lia). do 2 f_equal; lia.
  - cbn [rbind tv_sec tv_nsec]. rewrite i32_id by (unfold in_i32; lia). do 2 f_equal; lia.
Qed.

Lemma time_ToTimespec_ok d a : spans d (Fin a) -> time_ToTimespec d = timespec_of (a / 4).
Proof.
  intros Hd. unfold time_ToTimespec. rewrite (IsInfinite_spans d _ Hd). cbn [negb].
  apply spans_Fin in Hd as (Ha & _ & -> & ->). unfold timespec_of. rewrite ticks_second. f_equal; lia.
Qed.

Lemma time_ToTimeval_ok d a : spans d (Fin a) -> time_ToTimeval d = timeval_of (a / 4000).
Proof.
  intros Hd. unfold time_ToTimeval. rewrite (time_ToTimespec_ok d a Hd). unfold timespec_of, timeval_of.
  cbn [tv_sec tv_nsec]. rewrite i32_id by (unfold in_i32; lia). f_equal; lia.
Qed.
