(* ===== verification/TimeSpec.v ===== *)
(** * TimeSpec: the properties of durations and times *)

From S2P Require Import Prelude.
From S2P Require Import Word.
From S2P Require Import Uint128.
From S2P Require Import Int64.
From S2P Require Import Gregorian.
From S2P Require Import Duration.
From S2P Require Import DurationInv.
From S2P Require Import TimeConv.

#[local] Ltac Zify.zify_post_hook ::= Z.to_euclidean_division_equations.

(** ** What the witnesses use *)

#[local] Instance plain_compiler : Compiler := {| have_int128 := false; have_umul128 := false; no_asserts := false |}.

Definition one_tick : Duration := MakeDuration 0 1.
Definition longest : Duration := MakeDuration int64_max (kTicksPerSecond - 1).

Lemma spans_one_tick : spans one_tick (Fin 1).
Proof. apply (spans_fin 0 1); unfold in_i64; rewrite ?ticks_second; lia. Qed.
Lemma spans_longest : spans longest (Fin (2 ^ 63 * kTicksPerSecond - 1)).
Proof. apply spans_parts; unfold in_i64, int64_max; rewrite ?ticks_second; lia. Qed.

(** ** Durations calculate like saturating integers *)

(** C39: durations refine the integers of quarters of a nanosecond that fit,
    with an infinity at either end: negation, sum, difference, product with and
    quotient by an integer give, without any undefined signed arithmetic, the
    duration of the exact result if it fits and otherwise the infinity of its
    sign; an infinity absorbs, the left one where two meet. A duration has one
    representation, so that [==] is equality of the numbers, and [<] is their
    order. *)
Theorem duration_arithmetic `{Compiler} a b x y r :
  spans a x -> spans b y -> in_i64 r ->
  yields (dur_neg a) (span_neg x) /\
  yields (dur_add a b) (span_add x y) /\
  yields (dur_sub a b) (span_sub x y) /\
  yields (dur_mul a r) (span_mul x r) /\
  yields (dur_div a r) (span_div x r) /\
  (dur_eq a b = true <-> x = y) /\ (x = y <-> a = b) /\
  (dur_lt a b = true <-> span_lt x y).
Proof.
  intros Ha Hb Hr. split; [by apply dur_neg_ok|]. split; [by apply dur_add_ok|]. split; [by apply dur_sub_ok|].
  split; [by apply dur_mul_ok|]. split; [by apply dur_div_ok|]. split; [by apply dur_eq_ok|].
  split; [split|by apply dur_lt_ok].
  - intros ->. by apply (spans_inj _ _ y).
  - intros ->. by apply (spans_functional b).
Qed.

Theorem duration_arithmetic_witness :
  dur_add longest one_tick = Ok InfiniteDuration /\
  yields (dur_div longest 2) (Fin (2 ^ 62 * kTicksPerSecond - 1)).
Proof.
  pose proof (duration_arithmetic longest one_tick _ _ 2 spans_longest spans_one_tick) as (_ & Hadd & _ & _ & Hdiv & _).
  { unfold in_i64. lia. }
  split; [|exact Hdiv]. destruct Hadd as (d & -> & Hd). f_equal. apply (spans_inj _ _ PosInf); [exact Hd|constructor].
Defined.

(** ** Division and rounding *)

(** a duration divided by one that is not zero gives the quotient
    truncated towards zero, saturated at the ends of [int64_t], and the exact
    remainder, with the sign of the dividend, whatever the size of the quotient,
    on the fast paths and on the slow one. [Trunc] gives the multiple of the
    unit towards zero, and [Floor] and [Ceil] the ones below and above, of the
    unit's absolute value if that fits, an infinity where that multiple does not
    fit. The divisors zero and infinity, and an infinite dividend, have the
    results of saturated arithmetic. *)
Theorem duration_division `{Compiler} num den x y : spans num x -> spans den y ->
  (exists q, dur_quotient num den = Ok q /\
    q = match x, y with
        | Fin a, Fin b => if b =? 0 then if a <? 0 then int64_min else int64_max else clamp64 (Z.quot a b)
        | Fin _, _ => 0
        | _, _ => if xorb (span_negative x) (span_negative y) then int64_min else int64_max
        end) /\
  yields (dur_rem num den) (span_rem x y) /\
  (forall a b, x = Fin a -> y = Fin b -> b <> 0 ->
    yields (Trunc num den) (Fin (b * Z.quot a b)) /\
    (in_ticks (Z.abs b) ->
      yields (Floor num den) (sat (Z.abs b * (a / Z.abs b))) /\
      yields (Ceil num den) (sat (- (Z.abs b * (- a / Z.abs b)))))).
Proof.
  intros Hx Hy. split; [|split; [by apply dur_rem_ok|]].
  - unfold dur_quotient. destruct (IDivDuration_ok true num den x y Hx Hy) as (q & rem & -> & Hr).
    exists q. split; [done|].
    destruct x as [|a|], y as [|b|]; cbn [idiv_result] in Hr; try by destruct Hr.
    destruct (b =? 0); by destruct Hr.
  - intros a b -> -> Hb. split; [by apply Trunc_ok|]. intros Hin. split; [by apply Floor_ok|by apply Ceil_ok].
Qed.

Theorem duration_division_witness :
  let d := MakeDuration (-2) 1 in let u := MakeDuration 1 0 in
  dur_quotient d u = Ok (-1) /\ yields (Floor d u) (Fin (-2 * kTicksPerSecond)).
Proof.
  intros d u.
  assert (Hd : spans d (Fin (-2 * kTicksPerSecond + 1))) by
    (apply (spans_fin (-2) 1); unfold in_i64; rewrite ?ticks_second; lia).
  assert (Hu : spans u (Fin kTicksPerSecond)) by
    (apply (spans_parts 1 0); unfold in_i64; rewrite ?ticks_second; lia).
  destruct (duration_division d u _ _ Hd Hu) as ((q & Hq & Eq) & _ & Hround).
  rewrite Hq, Eq. split; [by vm_compute|].
  destruct (Hround _ _ eq_refl eq_refl ltac:(vm_compute; congruence)) as [_ Hf].
  destruct (Hf ltac:(vm_compute; split; congruence)) as [Hfloor _]. exact Hfloor.
Defined.

(** The least finite duration has no absolute value, so that [Floor] to
    multiples of it misses the one below, which is finite. *)
Lemma floor_by_least :
  let d := MakeDuration (-1) (kTicksPerSecond - 1) in let unit := MakeDuration int64_min 0 in
  spans d (Fin (-1)) /\ spans unit (Fin (- 2 ^ 63 * kTicksPerSecond)) /\
  Floor d unit = Ok (MakeDuration int64_min uint32_max).
Proof.
  split_and!.
  - apply spans_parts; unfold in_i64; rewrite ?ticks_second; lia.
  - apply spans_parts; unfold in_i64, int64_min; rewrite ?ticks_second; lia.
  - by vm_compute.
Qed.

(** ** Conversions *)

Lemma yields_bind {A} r x (f : Duration -> result A) v :
  yields r x -> (forall d, spans d x -> f d = Ok v) -> (let* d := r in f d) = Ok v.
Proof. intros (d & -> & Hd) Hf. by apply Hf. Qed.

Lemma clamp64_quot_mul n u : in_i64 n -> u <> 0 -> clamp64 (Z.quot (n * u) u) = n.
Proof. intros. rewrite Z.quot_mul by done. by apply clamp64_id. Qed.
Lemma clamp64_div_mul n u : in_i64 n -> u <> 0 -> clamp64 (n * u / u) = n.
Proof. intros. rewrite Z.div_mul by done. by apply clamp64_id. Qed.

Lemma sat_to_int n u : in_i64 n -> 0 < u ->
  span_to_int u (sat (n * u)) =
    if decide (in_ticks (n * u)) then n else if n <? 0 then int64_min else int64_max.
Proof.
  intros Hn Hu. case_decide as Hin; [rewrite sat_fin by done; apply clamp64_quot_mul; [done|lia]|].
  unfold in_ticks in Hin. rewrite ticks_second in Hin. destruct (Z.ltb_spec n 0).
  - by rewrite sat_neg by (rewrite ticks_second; nia).
  - by rewrite sat_pos by (rewrite ticks_second; nia).
Qed.

Lemma timespec_of_parts s n : 0 <= n < 1000000000 -> timespec_of (s * 1000000000 + n) = mkTimespec s n.
Proof. intros Hn. unfold timespec_of. f_equal; lia. Qed.
Lemma timeval_of_parts s u : 0 <= u < 1000000 -> timeval_of (s * 1000000 + u) = mkTimeval s u.
Proof. intros Hn. unfold timeval_of. f_equal; lia. Qed.

Lemma timespec_back n nsec (d := DurationFromTimespec (mkTimespec n nsec)) : in_i64 n -> 0 <= nsec < 1000000000 ->
  (let* d := d in ToTimespec d) = Ok (mkTimespec n nsec) /\
  (let* t := d in Ok (time_ToTimespec t)) = Ok (mkTimespec n nsec).
Proof.
  intros Hn Hs. subst d. pose proof (DurationFromTimespec_ok (mkTimespec n nsec) Hn) as Hd. cbn [tv_sec tv_nsec] in Hd.
  specialize (Hd ltac:(unfold in_i64; lia)).
  rewrite sat_fin in Hd by (unfold in_ticks, in_i64 in *; rewrite ticks_second; lia).
  replace (n * 4000000000 + nsec * 4) with ((n * 1000000000 + nsec) * 4) in Hd by lia.
  split; apply (yields_bind _ _ _ _ Hd); clear Hd; intros d Hd.
  - rewrite (ToTimespec_ok d _ Hd), Z.quot_mul by done. f_equal. by apply timespec_of_parts.
  - rewrite (time_ToTimespec_ok d _ Hd), Z.div_mul by done. f_equal. by apply timespec_of_parts.
Qed.

Lemma timeval_back n usec (d := DurationFromTimeval (mkTimeval n usec)) : in_i64 n -> 0 <= usec < 1000000 ->
  (let* d := d in ToTimeval d) = Ok (mkTimeval n usec) /\
  (let* t := d in Ok (time_ToTimeval t)) = Ok (mkTimeval n usec).
Proof.
  intros Hn Hs. subst d. pose proof (DurationFromTimeval_ok (mkTimeval n usec) Hn) as Hd. cbn [tval_sec tval_usec] in Hd.
  specialize (Hd ltac:(unfold in_i64; lia)).
  rewrite sat_fin in Hd by (unfold in_ticks, in_i64 in *; rewrite ticks_second; lia).
  replace (n * 4000000000 + usec * 4000) with ((n * 1000000 + usec) * 4000) in Hd by lia.
  split; apply (yields_bind _ _ _ _ Hd); clear Hd; intros d Hd.
  - rewrite (ToTimeval_ok d _ Hd), Z.quot_mul by done. f_equal. by apply timeval_of_parts.
  - rewrite (time_ToTimeval_ok d _ Hd), Z.div_mul by done. f_equal. by apply timeval_of_parts.
Qed.

(** A conversion there, [make], and one back, which [close] says agree. *)
#[local] Ltac back_and_forth make back close :=
  apply (yields_bind _ _ _ _ make); intros d Hd; rewrite (back d _ Hd); f_equal; by apply close.

(** C40: the conversions of integers, [timespec] and [timeval] to durations and
    times are undone by those back: [ToInt64Nanoseconds(Nanoseconds(n))] is [n]
    for every [int64_t] and likewise for microseconds, milliseconds and seconds,
    and for minutes and hours unless the duration is infinite, when the result
    is the end of [int64_t] of its sign; [ToUnix...(FromUnix...(n))] and
    [ToUniversal(FromUniversal(n))] are [n]; a normal [timespec] or [timeval]
    comes back from a duration and from a time, negative ones included. None of
    the computations is undefined. *)
Theorem time_conversions_roundtrip `{Compiler} n : in_i64 n ->
  (let* d := Nanoseconds n in ToInt64Nanoseconds d) = Ok n /\
  (let* d := Microseconds n in ToInt64Microseconds d) = Ok n /\
  (let* d := Milliseconds n in ToInt64Milliseconds d) = Ok n /\
  (let* d := Seconds n in ToInt64Seconds d) = Ok n /\
  (let* d := Minutes n in ToInt64Minutes d) =
    Ok (if decide (in_ticks (n * 240000000000)) then n else if n <? 0 then int64_min else int64_max) /\
  (let* d := Hours n in ToInt64Hours d) =
    Ok (if decide (in_ticks (n * 14400000000000)) then n else if n <? 0 then int64_min else int64_max) /\
  (let* t := FromUnixNanos n in ToUnixNanos t) = Ok n /\
  (let* t := FromUnixMicros n in ToUnixMicros t) = Ok n /\
  (let* t := FromUnixMillis n in ToUnixMillis t) = Ok n /\
  (let* t := FromUnixSeconds n in Ok (ToUnixSeconds t)) = Ok n /\
  (let* t := FromUniversal n in ToUniversal t) = Ok n /\
  (forall nsec, 0 <= nsec < 1000000000 ->
    (let* d := DurationFromTimespec (mkTimespec n nsec) in ToTimespec d) = Ok (mkTimespec n nsec) /\
    (let* t := DurationFromTimespec (mkTimespec n nsec) in Ok (time_ToTimespec t)) = Ok (mkTimespec n nsec)) /\
  (forall usec, 0 <= usec < 1000000 ->
    (let* d := DurationFromTimeval (mkTimeval n usec) in ToTimeval d) = Ok (mkTimeval n usec) /\
    (let* t := DurationFromTimeval (mkTimeval n usec) in Ok (time_ToTimeval t)) = Ok (mkTimeval n usec)).
Proof.
  intros Hn.
  split; [back_and_forth (Nanoseconds_ok n Hn) ToInt64Nanoseconds_ok clamp64_quot_mul|].
  split; [back_and_forth (Microseconds_ok n Hn) ToInt64Microseconds_ok clamp64_quot_mul|].
  split; [back_and_forth (Milliseconds_ok n Hn) ToInt64Milliseconds_ok clamp64_quot_mul|].
  split; [back_and_forth (Seconds_ok n Hn) ToInt64Seconds_ok clamp64_quot_mul|].
  split; [back_and_forth (Minutes_ok n Hn) ToInt64Minutes_ok sat_to_int|].
  split; [back_and_forth (Hours_ok n Hn) ToInt64Hours_ok sat_to_int|].
  split; [back_and_forth (Nanoseconds_ok n Hn) ToUnixNanos_ok clamp64_div_mul|].
  split; [back_and_forth (Microseconds_ok n Hn) ToUnixMicros_ok clamp64_div_mul|].
  split; [back_and_forth (Milliseconds_ok n Hn) ToUnixMillis_ok clamp64_div_mul|].
  split; [back_and_forth (Seconds_ok n Hn) ToUnixSeconds_ok clamp64_div_mul|].
  split; [|split].
  - apply (yields_bind _ _ _ _ (FromUniversal_ok n Hn)); intros d Hd.
    rewrite (ToUniversal_ok d _ Hd); rewrite Z.sub_add;
      [f_equal; by apply clamp64_div_mul|unfold in_ticks, in_i64 in *; rewrite ticks_second; lia].
  - intros nsec Hs. by apply timespec_back.
  - intros usec Hs. by apply timeval_back.
Qed.

Theorem time_conversions_roundtrip_witness :
  (let* t := FromUniversal (-1) in ToUniversal t) = Ok (-1) /\
  (let* d := Hours int64_min in ToInt64Hours d) = Ok int64_min.
Proof.
  split.
  - destruct (time_conversions_roundtrip (-1)) as (_ & _ & _ & _ & _ & _ & _ & _ & _ & _ & Hu & _);
      [unfold in_i64; lia|exact Hu].
  - destruct (time_conversions_roundtrip int64_min) as (_ & _ & _ & _ & _ & Hh & _);
      [unfold in_i64, int64_min; lia|exact Hh].
Defined.

(** durations are converted to integers towards zero and times downwards,
    saturated at the ends of [int64_t] for durations out of reach and for
    infinities, whether by the direct formula or by division; [timespec] and
    [timeval] likewise, for every finite duration and time. The ICU epoch is
    midnight of January 1 of the year 1 in the Gregorian calendar. *)
Theorem time_conversions_round `{Compiler} d x : spans d x ->
  ToInt64Nanoseconds d = Ok (span_to_int 4 x) /\
  ToInt64Microseconds d = Ok (span_to_int 4000 x) /\
  ToInt64Milliseconds d = Ok (span_to_int 4000000 x) /\
  ToInt64Seconds d = Ok (span_to_int kTicksPerSecond x) /\
  ToInt64Minutes d = Ok (span_to_int (60 * kTicksPerSecond) x) /\
  ToInt64Hours d = Ok (span_to_int (3600 * kTicksPerSecond) x) /\
  ToUnixNanos d = Ok (span_floor 4 x) /\
  ToUnixMicros d = Ok (span_floor 4000 x) /\
  ToUnixMillis d = Ok (span_floor 4000000 x) /\
  ToUnixSeconds d = span_floor kTicksPerSecond x /\
  (forall a, x = Fin a ->
    ToTimespec d = Ok (timespec_of (Z.quot a 4)) /\ ToTimeval d = Ok (timeval_of (Z.quot a 4000)) /\
    time_ToTimespec d = timespec_of (a / 4) /\ time_ToTimeval d = timeval_of (a / 4000) /\
    (let midnight := (day_number 1 1 1 - day_number 1970 1 1) * 86400 * kTicksPerSecond in
     in_ticks (a - midnight) -> ToUniversal d = Ok (clamp64 ((a - midnight) / 400)))).
Proof.
  intros Hd. rewrite ticks_second.
  split; [by apply ToInt64Nanoseconds_ok|]. split; [by apply ToInt64Microseconds_ok|].
  split; [by apply ToInt64Milliseconds_ok|]. split; [by apply ToInt64Seconds_ok|].
  split; [by apply ToInt64Minutes_ok|]. split; [by apply ToInt64Hours_ok|].
  split; [by apply ToUnixNanos_ok|]. split; [by apply ToUnixMicros_ok|].
  split; [by apply ToUnixMillis_ok|]. split; [by apply ToUnixSeconds_ok|].
  intros a ->. split; [by apply ToTimespec_ok|]. split; [by apply ToTimeval_ok|].
  split; [by apply time_ToTimespec_ok|]. split; [by apply time_ToTimeval_ok|].
  intros midnight Hin. assert (E : a - midnight = a + 719162 * 86400 * 4000000000) by (cbv in midnight; lia).
  rewrite E in *. by apply ToUniversal_ok.
Qed.

Theorem time_conversions_round_witness :
  let d := MakeDuration (-2) 3999999999 in
  ToInt64Seconds d = Ok (-1) /\ ToUnixSeconds d = -2 /\ ToTimespec d = Ok (mkTimespec (-1) 0).
Proof.
  intros d. assert (Hd : spans d (Fin (-4000000001))) by
    (apply (spans_parts (-2) 3999999999); unfold in_i64; rewrite ?ticks_second; lia).
  destruct (time_conversions_round d _ Hd) as (_ & _ & _ & Hs & _ & _ & _ & _ & _ & Hu & Hts).
  destruct (Hts _ eq_refl) as [Ht _]. rewrite Hs, Hu, Ht. split_and!; by vm_compute.
Defined.
