(* ===== verification/BtreeNode.v ===== *)
(** * BtreeNode: the nodes of a B-tree (src/abseil-cpp/absl/container/internal/
    btree.h, [btree_node])

    A node is an object in a heap. It has pointers to its parent and to its
    children, its position among these, and an array of slots that are raw
    memory, hold a value, or hold what a move has left of one. The build has
    assertions and no sanitizers: generations are compiled out, poisoning
    marks what is raw. A value that is overwritten or freed without having been
    destroyed is an error of the model, so that the theorems exclude leaks. *)

From S2P Require Import Prelude.

(** ** Memory *)

Definition loc := positive.

Inductive slot (V : Type) := Raw | Live (v : V) | Moved.
Arguments Raw {V}. Arguments Live {V} v. Arguments Moved {V}.

Record node (V : Type) := mkNode {
  parent_ : loc;
  position_ : Z;
  start_ : Z;
  finish_ : Z;
  max_count_ : Z;
  values_ : list (slot V);
  children_ : list (option loc);
}.
Arguments mkNode {V}.
Arguments parent_ {V} _. Arguments position_ {V} _. Arguments start_ {V} _. Arguments finish_ {V} _.
Arguments max_count_ {V} _. Arguments values_ {V} _. Arguments children_ {V} _.

Notation heap V := (gmap loc (node V)).

(** The address of the static [EmptyNode()] and what is there. *)
Definition EmptyNode : loc := 1%positive.
Definition empty_node {V} : node V := mkNode EmptyNode 0 0 0 1 [] [].

(** The allocator returns an address that is not in use. *)
Class Allocator := { new_address : gset loc -> loc }.
Class AllocatorLaws `{Allocator} := { new_address_fresh X : new_address X ∉ X }.

(** Computations that can fail and change the heap. *)
Definition M (V A : Type) := heap V -> result (A * heap V).

Definition ret {V A} (a : A) : M V A := fun h => Ok (a, h).
Definition bind {V A B} (m : M V A) (k : A -> M V B) : M V B :=
  fun h => let* r := m h in let '(a, h) := r in k a h.
Definition lift {V A} (r : result A) : M V A := fun h => let* a := r in Ok (a, h).
Definition check {V} (c : bool) : M V unit := lift (cpp_assert c (Ok tt)).

Notation "'let!' x ':=' m 'in' k" := (bind m (fun x => k))
  (at level 10, x pattern, m at level 100, k at level 200) : cpp_scope.
Notation "m ;; k" := (bind m (fun _ => k)) (at level 100, k at level 200, right associativity) : cpp_scope.

Definition load {V} (p : loc) : M V (node V) :=
  fun h => if decide (p = EmptyNode) then Ok (empty_node, h) else let* n := deref (h !! p) in Ok (n, h).
Definition store {V} (p : loc) (n : node V) : M V unit :=
  fun h => if decide (p = EmptyNode) then Err Undefined else let* _ := deref (h !! p) in Ok (tt, <[p := n]> h).
Definition modify {V} (p : loc) (f : node V -> node V) : M V unit := let! n := load p in store p (f n).

(** [while (cond(i)) { body(i); i = next(i); }] *)
Fixpoint for_loop {V A} (fuel : nat) (cond : A -> M V bool) (next : A -> A) (body : A -> M V unit) (i : A) : M V unit :=
  match fuel with
  | O => lift (Err OutOfFuel)
  | S fuel => let! c := cond i in if c then body i ;; for_loop fuel cond next body (next i) else ret tt
  end.

(** ** Parameters

    The type of the keys and their comparison, which gives a [bool] or an
    ordering; whether the container admits equivalent keys; the number of slots
    and the width of [field_type], computed from the size of a node; whether
    nodes are searched one by one or by bisection. *)
Inductive compare_fn (K : Type) := ByLess (lt : K -> K -> bool) | ByOrder (cmp : K -> K -> comparison).
Arguments ByLess {K}. Arguments ByOrder {K}.

Class BtreeParams (K V : Type) := {
  params_key : V -> K;
  key_compare : compare_fn K;
  kIsKeyCompareStringAdapted : bool;
  can_have_multiple_equivalent_keys : bool;
  use_linear_search : bool;
  kNodeSlots : Z;
  field_bits : Z;
}.

Section params.
Context {K V : Type} `{BtreeParams K V}.

(** Conversion to [field_type]. *)
Definition field (z : Z) : Z := z mod 2 ^ field_bits.

(** [checked_compare::operator()], for either kind of comparison. *)
Definition checked_less (lt : K -> K -> bool) (lhs rhs : K) : result bool :=
  cpp_assert (negb (lt lhs lhs)) (
  cpp_assert (negb (lt rhs rhs)) (
  let lhs_comp_rhs := lt lhs rhs in
  cpp_assert (negb lhs_comp_rhs || negb (lt rhs lhs)) (Ok lhs_comp_rhs))).

Definition is_eq (c : comparison) : bool := match c with Eq => true | _ => false end.
Definition is_lt (c : comparison) : bool := match c with Lt => true | _ => false end.
Definition is_gt (c : comparison) : bool := match c with Gt => true | _ => false end.

Definition checked_order (cmp : K -> K -> comparison) (lhs rhs : K) : result comparison :=
  if kIsKeyCompareStringAdapted then Ok (cmp lhs rhs)
  else
    cpp_assert (is_eq (cmp lhs lhs)) (
    cpp_assert (is_eq (cmp rhs rhs)) (
    let lhs_comp_rhs := cmp lhs rhs in
    let rhs_comp_lhs := cmp rhs lhs in
    cpp_assert (if is_gt lhs_comp_rhs then is_lt rhs_comp_lhs
                else if is_eq lhs_comp_rhs then is_eq rhs_comp_lhs else is_gt rhs_comp_lhs)
      (Ok lhs_comp_rhs))).

(** [compare_result_as_less_than(comp(a, b))] *)
Definition compare_keys (a b : K) : result bool :=
  match key_compare with
  | ByLess lt => checked_less lt a b
  | ByOrder cmp => let* c := checked_order cmp a b in Ok (is_lt c)
  end.

(** [do_three_way_comparison] with the comparator of the user. *)
Definition do_three_way_comparison (a b : K) : Z :=
  match key_compare with
  | ByLess lt => if lt a b then -1 else if lt b a then 1 else 0
  | ByOrder cmp => match cmp a b with Lt => -1 | Eq => 0 | Gt => 1 end
  end.

(** [SearchResult]: the match is there only with an ordering. *)
Inductive MatchKind := kEq | kNe.
#[export] Instance MatchKind_eq_dec : EqDecision MatchKind.
Proof. solve_decision. Defined.
Record SearchResult (A : Type) := mkSearchResult { result_value : A; result_match : option MatchKind }.
End params.
Arguments mkSearchResult {A}. Arguments result_value {A} _. Arguments result_match {A} _.

Definition HasMatch {A} (r : SearchResult A) : bool := match result_match r with Some _ => true | None => false end.
Definition IsEq {A} (r : SearchResult A) : bool := match result_match r with Some kEq => true | _ => false end.

(** ** [btree_node] *)
Module btree_node.
Section btree_node.
Context {K V : Type} `{BtreeParams K V} `{Allocator}.
Implicit Types p : loc.

Definition kInternalNodeMaxCount : Z := 0.

(** The fields. [with_x] is what a setter does to the object. *)
Definition with_parent (v : loc) (n : node V) : node V :=
  mkNode v (position_ n) (start_ n) (finish_ n) (max_count_ n) (values_ n) (children_ n).
Definition with_position (v : Z) (n : node V) : node V :=
  mkNode (parent_ n) v (start_ n) (finish_ n) (max_count_ n) (values_ n) (children_ n).
Definition with_start (v : Z) (n : node V) : node V :=
  mkNode (parent_ n) (position_ n) v (finish_ n) (max_count_ n) (values_ n) (children_ n).
Definition with_finish (v : Z) (n : node V) : node V :=
  mkNode (parent_ n) (position_ n) (start_ n) v (max_count_ n) (values_ n) (children_ n).
Definition with_max_count (v : Z) (n : node V) : node V :=
  mkNode (parent_ n) (position_ n) (start_ n) (finish_ n) v (values_ n) (children_ n).
Definition with_values (v : list (slot V)) (n : node V) : node V :=
  mkNode (parent_ n) (position_ n) (start_ n) (finish_ n) (max_count_ n) v (children_ n).
Definition with_children (v : list (option loc)) (n : node V) : node V :=
  mkNode (parent_ n) (position_ n) (start_ n) (finish_ n) (max_count_ n) (values_ n) v.

Definition set_parent p (v : loc) : M V unit := modify p (with_parent v).
Definition set_position p (v : Z) : M V unit := modify p (with_position (field v)).
Definition set_start p (v : Z) : M V unit := modify p (with_start (field v)).
Definition set_finish p (v : Z) : M V unit := modify p (with_finish (field v)).
Definition set_max_count p (v : Z) : M V unit := modify p (with_max_count (field v)).

Definition is_leaf p : M V bool := let! n := load p in ret (negb (max_count_ n =? kInternalNodeMaxCount)).
Definition is_internal p : M V bool := let! b := is_leaf p in ret (negb b).
Definition position p : M V Z := let! n := load p in ret (position_ n).
Definition start p : M V Z := let! n := load p in check (start_ n =? 0) ;; ret 0.
Definition finish p : M V Z := let! n := load p in ret (finish_ n).
Definition count p : M V Z :=
  let! f := finish p in
  let! s := start p in
  check (s <=? f) ;;
  let! f := finish p in
  let! s := start p in
  ret (field (f - s)).
Definition max_count p : M V Z :=
  let! n := load p in
  ret (if max_count_ n =? field kInternalNodeMaxCount then field kNodeSlots else max_count_ n).

Definition parent p : M V loc := let! n := load p in ret (parent_ n).
Definition is_root p : M V bool := let! q := parent p in is_leaf q.
Definition make_root p : M V unit :=
  let! q := parent p in
  let! r := is_root q in
  check r ;;
  let! q := parent p in
  let! g := parent q in
  set_parent p g.

(** *** Slots *)

(** Reading the value at a slot. *)
Definition value p (i : Z) : M V V :=
  let! n := load p in
  let! s := lift (at_index (values_ n) i) in
  match s with Live v => ret v | _ => lift (Err Undefined) end.
Definition key p (i : Z) : M V K := let! v := value p i in ret (params_key v).

Definition set_slot p (i : Z) (s : slot V) : M V unit :=
  let! n := load p in
  let! _ := lift (at_index (values_ n) i) in
  store p (with_values (<[Z.to_nat i := s]> (values_ n)) n).

(** [params_type::construct]: the memory was raw. *)
Definition construct p (i : Z) (v : V) : M V unit :=
  let! n := load p in
  let! s := lift (at_index (values_ n) i) in
  match s with Raw => set_slot p i (Live v) | _ => lift (Err Undefined) end.

(** [params_type::destroy] *)
Definition destroy p (i : Z) : M V unit :=
  let! n := load p in
  let! s := lift (at_index (values_ n) i) in
  match s with Raw => lift (Err Undefined) | _ => set_slot p i Raw end.

(** Moving the value out of a slot: what remains has to be destroyed. *)
Definition move_out p (i : Z) : M V V :=
  let! v := value p i in
  set_slot p i Moved ;;
  ret v.

(** [value_init] with a value, and with the slot to move from;
    [value_destroy]; [value_destroy_n]. *)
Definition value_init p (i : Z) (v : V) : M V unit := construct p i v.
Definition value_init_from p (i : Z) src (j : Z) : M V unit := let! v := move_out src j in construct p i v.
Definition value_destroy p (i : Z) : M V unit := destroy p i.
Definition value_destroy_n p (i n : Z) : M V unit :=
  for_loop (S (Z.to_nat n)) (fun k => ret (negb (k =? i + n))) Z.succ (destroy p) i.

(** [transfer]: move-construct the destination, destroy the source. *)
Definition transfer dest (dest_i : Z) src (src_i : Z) : M V unit :=
  value_init_from dest dest_i src src_i ;;
  destroy src src_i.

(** The pointers [slot(i)] and [slot(i) + n] lie in the array or at its end. *)
Definition slot_range p (i n : Z) : M V unit :=
  let! o := load p in
  if (0 <=? i) && (0 <=? n) && (i + n <=? Z.of_nat (length (values_ o))) then ret tt else lift (Err Undefined).

Definition transfer_n p (n dest_i src_i : Z) src : M V unit :=
  slot_range src src_i n ;;
  slot_range p dest_i n ;;
  for_loop (S (Z.to_nat n)) (fun k => ret (negb (k =? n))) Z.succ
    (fun k => transfer p (dest_i + k) src (src_i + k)) 0.

Definition transfer_n_backward p (n dest_i src_i : Z) src : M V unit :=
  slot_range src src_i n ;;
  slot_range p dest_i n ;;
  for_loop (S (Z.to_nat n)) (fun k => ret (negb (k =? 0))) Z.pred
    (fun k => transfer p (dest_i + k - 1) src (src_i + k - 1)) n.

(** *** Children *)

Definition child p (i : Z) : M V loc :=
  let! n := load p in
  check (max_count_ n =? kInternalNodeMaxCount) ;;
  let! c := lift (at_index (children_ n) i) in
  lift (deref c).
Definition start_child p : M V loc := let! s := start p in child p s.
Definition set_mutable_child p (i : Z) (c : option loc) : M V unit :=
  let! n := load p in
  check (max_count_ n =? kInternalNodeMaxCount) ;;
  let! _ := lift (at_index (children_ n) i) in
  store p (with_children (<[Z.to_nat i := c]> (children_ n)) n).
Definition clear_child p (i : Z) : M V unit := set_mutable_child p i None.
Definition set_child_noupdate_position p (i : Z) c : M V unit := set_mutable_child p i (Some c).
Definition set_child p (i : Z) c : M V unit :=
  set_child_noupdate_position p i c ;;
  set_position c i.
Definition init_child p (i : Z) c : M V unit :=
  set_child p i c ;;
  set_parent c p.



(** *** Search *)

Definition none_match {A} (a : A) : SearchResult A := mkSearchResult a None.

(** [linear_search_impl], for a function that says whether a key lies before
    the one looked for, and for an ordering. *)
Fixpoint linear_search_plain (fuel : nat) p (before : K -> result bool) (s e : Z) : M V (SearchResult Z) :=
  match fuel with
  | O => lift (Err OutOfFuel)
  | S fuel =>
      if s <? e then
        let! x := key p s in
        let! b := lift (before x) in
        if negb b then ret (none_match s) else linear_search_plain fuel p before (s + 1) e
      else ret (none_match s)
  end.

Fixpoint linear_search_order (fuel : nat) p (order : K -> result comparison) (s e : Z) : M V (SearchResult Z) :=
  match fuel with
  | O => lift (Err OutOfFuel)
  | S fuel =>
      if s <? e then
        let! x := key p s in
        let! c := lift (order x) in
        match c with
        | Eq => ret (mkSearchResult s (Some kEq))
        | Gt => ret (mkSearchResult s (Some kNe))
        | Lt => linear_search_order fuel p order (s + 1) e
        end
      else ret (mkSearchResult s (Some kNe))
  end.

(** [binary_search_impl] *)
Fixpoint binary_search_plain (fuel : nat) p (before : K -> result bool) (s e : Z) : M V (SearchResult Z) :=
  match fuel with
  | O => lift (Err OutOfFuel)
  | S fuel =>
      if negb (s =? e) then
        let mid := Z.shiftr (s + e) 1 in
        let! x := key p mid in
        let! b := lift (before x) in
        if b then binary_search_plain fuel p before (mid + 1) e else binary_search_plain fuel p before s mid
      else ret (none_match s)
  end.

(** With equivalent keys the search goes on to the first of them. *)
Fixpoint binary_search_multi (fuel : nat) p (order : K -> result comparison) (s e : Z) (exact_match : MatchKind) : M V (SearchResult Z) :=
  match fuel with
  | O => lift (Err OutOfFuel)
  | S fuel =>
      if negb (s =? e) then
        let mid := Z.shiftr (s + e) 1 in
        let! x := key p mid in
        let! c := lift (order x) in
        match c with
        | Lt => binary_search_multi fuel p order (mid + 1) e exact_match
        | Eq => binary_search_multi fuel p order s mid kEq
        | Gt => binary_search_multi fuel p order s mid exact_match
        end
      else ret (mkSearchResult s (Some exact_match))
  end.

Fixpoint binary_search_unique (fuel : nat) p (order : K -> result comparison) (s e : Z) : M V (SearchResult Z) :=
  match fuel with
  | O => lift (Err OutOfFuel)
  | S fuel =>
      if negb (s =? e) then
        let mid := Z.shiftr (s + e) 1 in
        let! x := key p mid in
        let! c := lift (order x) in
        match c with
        | Lt => binary_search_unique fuel p order (mid + 1) e
        | Gt => binary_search_unique fuel p order s mid
        | Eq => ret (mkSearchResult mid (Some kEq))
        end
      else ret (mkSearchResult s (Some kNe))
  end.

Definition search_fuel : nat := S (Z.to_nat kNodeSlots).

Definition linear_search_impl p (k : K) (s e : Z) : M V (SearchResult Z) :=
  match key_compare with
  | ByLess lt => linear_search_plain search_fuel p (fun x => checked_less lt x k) s e
  | ByOrder cmp => linear_search_order search_fuel p (fun x => checked_order cmp x k) s e
  end.
Definition binary_search_impl p (k : K) (s e : Z) : M V (SearchResult Z) :=
  match key_compare with
  | ByLess lt => binary_search_plain search_fuel p (fun x => checked_less lt x k) s e
  | ByOrder cmp =>
      if can_have_multiple_equivalent_keys
      then binary_search_multi search_fuel p (fun x => checked_order cmp x k) s e kNe
      else binary_search_unique search_fuel p (fun x => checked_order cmp x k) s e
  end.

Definition lower_bound p (k : K) : M V (SearchResult Z) :=
  let! s := start p in
  let! f := finish p in
  if use_linear_search then linear_search_impl p k s f else binary_search_impl p k s f.

(** [upper_bound_adapter]: a key lies before where [k] is not less than it. *)
Definition upper_bound_adapter (k : K) (x : K) : result bool := let* b := compare_keys k x in Ok (negb b).
Definition upper_bound p (k : K) : M V Z :=
  let! s := start p in
  let! f := finish p in
  let! r := (if use_linear_search then linear_search_plain search_fuel p (upper_bound_adapter k) s f
             else binary_search_plain search_fuel p (upper_bound_adapter k) s f) in
  ret (result_value r).

(** The loop of [is_ordered_correctly]. *)
Fixpoint ordered_loop (fuel : nat) p (i j cmp : Z) : M V bool :=
  match fuel with
  | O => lift (Err OutOfFuel)
  | S fuel =>
      let! f := finish p in
      if j <? f then
        if j =? i then
          if 0 <? cmp then ret false else ordered_loop fuel p i (field (j + 1)) cmp
        else
          let! a := key p j in
          let! b := key p i in
          let new_cmp := do_three_way_comparison a b in
          if (new_cmp <? cmp) || (negb can_have_multiple_equivalent_keys && (new_cmp =? 0)) then ret false
          else ordered_loop fuel p i (field (j + 1)) new_cmp
      else ret true
  end.
Definition is_ordered_correctly p (i : Z) : M V bool :=
  if kIsKeyCompareStringAdapted then ret true
  else let! s := start p in ordered_loop search_fuel p i s (-1).

(** *** Allocation *)

Definition allocate (n_slots n_children : Z) : M V loc :=
  fun h =>
    let p := new_address ({[EmptyNode]} ∪ dom h) in
    Ok (p, <[p := mkNode EmptyNode 0 0 0 1 (replicate (Z.to_nat n_slots) Raw) (replicate (Z.to_nat n_children) None)]> h).

Definition is_raw (s : slot V) : bool := match s with Raw => true | _ => false end.

(** The size that is given back is the one that was allocated, and no value is
    left in the slots. *)
Definition deallocate (n_slots n_children : Z) p : M V unit :=
  let! n := load p in
  if negb (bool_decide (p = EmptyNode)) && forallb is_raw (values_ n) &&
     (Z.of_nat (length (values_ n)) =? n_slots) && (Z.of_nat (length (children_ n)) =? n_children)
  then fun h => Ok (tt, delete p h) else lift (Err Undefined).

(** [deallocate(LeafSize(n), node)] and [deallocate(InternalSize(), node)] *)
Definition deallocate_leaf (n : Z) p : M V unit := deallocate n 0 p.
Definition deallocate_internal p : M V unit := deallocate kNodeSlots (kNodeSlots + 1) p.

Definition init_leaf p (position max_count : Z) (parent : loc) : M V unit :=
  set_parent p parent ;;
  set_position p position ;;
  set_start p 0 ;;
  set_finish p 0 ;;
  set_max_count p max_count.
Definition init_internal p (position : Z) (parent : loc) : M V unit :=
  init_leaf p position kNodeSlots parent ;;
  set_max_count p kInternalNodeMaxCount.

(** A bound for the loops that follow pointers: the nodes that exist. *)
Definition heap_fuel : M V nat := fun h => Ok (S (size h), h).

(** [while (node->is_internal()) node = node->start_child();] *)
Fixpoint leftmost_leaf (fuel : nat) p : M V loc :=
  match fuel with
  | O => lift (Err OutOfFuel)
  | S fuel =>
      let! i := is_internal p in
      if i then let! c := start_child p in leftmost_leaf fuel c else ret p
  end.

(** *** [clear_and_delete] *)

Definition destroy_all p : M V unit :=
  let! s := start p in
  let! n := count p in
  value_destroy_n p s n.

(** The first inner loop: delete a leaf and go right. *)
Fixpoint delete_leaves (fuel : nat) (pos : Z) (parent_node : loc) : M V (Z * loc) :=
  match fuel with
  | O => lift (Err OutOfFuel)
  | S fuel =>
      let! node := child parent_node (field pos) in
      let! i := is_internal node in
      let! r := (if i then
                   let! n := heap_fuel in
                   let! node := leftmost_leaf n node in
                   let! pos := position node in
                   let! q := parent node in
                   ret (node, pos, q)
                 else ret (node, pos, parent_node)) in
      let '(node, pos, parent_node) := r in
      destroy_all node ;;
      let! m := max_count node in
      deallocate_leaf m node ;;
      let! f := finish parent_node in
      if pos + 1 <=? f then delete_leaves fuel (pos + 1) parent_node else ret (pos + 1, parent_node)
  end.

(** The second: delete a node without children and go up; [None] when the root
    of the subtree has been deleted. *)
Fixpoint delete_internals (fuel : nat) (delete_root_parent parent_node : loc) : M V (option (Z * loc)) :=
  match fuel with
  | O => lift (Err OutOfFuel)
  | S fuel =>
      let node := parent_node in
      let! pos := position node in
      let! q := parent node in
      destroy_all node ;;
      deallocate_internal node ;;
      if decide (q = delete_root_parent) then ret None
      else
        let! f := finish q in
        if f <? pos + 1 then delete_internals fuel delete_root_parent q else ret (Some (pos + 1, q))
  end.

Fixpoint delete_loop (fuel : nat) (delete_root_parent : loc) (pos : Z) (parent_node : loc) : M V unit :=
  match fuel with
  | O => lift (Err OutOfFuel)
  | S fuel =>
      let! f := finish parent_node in
      check (pos <=? f) ;;
      let! n := heap_fuel in
      let! r := delete_leaves n pos parent_node in
      let '(pos, q) := r in
      let! f := finish q in
      check (f <? pos) ;;
      let! r := delete_internals n delete_root_parent q in
      match r with
      | None => ret tt
      | Some (pos, q) => delete_loop fuel delete_root_parent pos q
      end
  end.

Definition clear_and_delete (node : loc) : M V unit :=
  let! l := is_leaf node in
  if l then
    destroy_all node ;;
    let! m := max_count node in
    deallocate_leaf m node
  else
    let! c := count node in
    if c =? 0 then deallocate_internal node
    else
      let! delete_root_parent := parent node in
      let! n := heap_fuel in
      let! node := leftmost_leaf n node in
      let! pos := position node in
      let! q := parent node in
      delete_loop n delete_root_parent pos q.

(** *** Changing a node *)

Definition children_fuel : nat := S (S (Z.to_nat kNodeSlots)).

(** [emplace_value], given what constructs the new value. *)
Definition emplace_value p (i : Z) (init : M V unit) : M V unit :=
  let! s := start p in
  check (s <=? i) ;;
  let! f := finish p in
  check (i <=? f) ;;
  (if i <? f then transfer_n_backward p (f - i) (i + 1) i p else ret tt) ;;
  init ;;
  let! f := finish p in
  set_finish p (f + 1) ;;
  let! b := is_internal p in
  let! f := finish p in
  if b && (i + 1 <? f) then
    for_loop children_fuel (fun j => ret (i + 1 <? j)) (fun j => field (j - 1))
      (fun j => let! c := child p (j - 1) in set_child p j c) f ;;
    clear_child p (i + 1)
  else ret tt.

Definition remove_values p (i to_erase : Z) : M V unit :=
  value_destroy_n p i to_erase ;;
  let! orig_finish := finish p in
  let src_i := field (i + to_erase) in
  transfer_n p (orig_finish - src_i) i src_i p ;;
  let! b := is_internal p in
  (if b then
     for_loop children_fuel (fun j => ret (j <? to_erase)) (fun j => field (j + 1))
       (fun j => let! c := child p (field (i + j + 1)) in clear_and_delete c) 0 ;;
     for_loop children_fuel (fun j => ret (j <=? orig_finish)) (fun j => field (j + 1))
       (fun j => let! c := child p j in set_child p (field (j - to_erase)) c ;; clear_child p j)
       (field (i + to_erase + 1))
   else ret tt) ;;
  set_finish p (orig_finish - to_erase).

(** What the rebalancing functions assert of the two siblings. *)
Definition check_siblings left right : M V unit :=
  let! q := parent left in
  let! r := parent right in
  check (bool_decide (q = r)) ;;
  let! i := position left in
  let! j := position right in
  check (i + 1 =? j).

Definition rebalance_right_to_left p (to_move : Z) right : M V unit :=
  check_siblings p right ;;
  let! rc := count right in
  let! c := count p in
  check (c <=? rc) ;;
  check (1 <=? to_move) ;;
  check (to_move <=? rc) ;;
  (* 1) *)
  let! f := finish p in
  let! i := position p in
  let! q := parent p in
  transfer p f q i ;;
  (* 2) *)
  let! rs := start right in
  transfer_n p (to_move - 1) (f + 1) rs right ;;
  (* 3) *)
  transfer q i right (rs + to_move - 1) ;;
  (* 4) *)
  transfer_n right (rc - to_move) rs (rs + to_move) right ;;
  let! b := is_internal p in
  (if b then
     for_loop children_fuel (fun i => ret (i <? to_move)) (fun i => field (i + 1))
       (fun i => let! f := finish p in let! c := child right i in init_child p (field (f + i + 1)) c) 0 ;;
     for_loop children_fuel (fun i => let! rf := finish right in ret (i <=? rf - to_move)) (fun i => field (i + 1))
       (fun i =>
          let! rm := max_count right in
          check (i + to_move <=? rm) ;;
          let! c := child right (field (i + to_move)) in
          init_child right i c ;;
          clear_child right (field (i + to_move))) rs
   else ret tt) ;;
  let! f := finish p in
  set_finish p (f + to_move) ;;
  let! rf := finish right in
  set_finish right (rf - to_move).

Definition rebalance_left_to_right p (to_move : Z) right : M V unit :=
  check_siblings p right ;;
  let! c := count p in
  let! rc := count right in
  check (rc <=? c) ;;
  check (1 <=? to_move) ;;
  check (to_move <=? c) ;;
  (* 1) *)
  let! rs := start right in
  transfer_n_backward right rc (rs + to_move) rs right ;;
  (* 2) *)
  let! i := position p in
  let! q := parent p in
  transfer right (rs + to_move - 1) q i ;;
  (* 3) *)
  let! f := finish p in
  transfer_n right (to_move - 1) rs (f - (to_move - 1)) p ;;
  (* 4) *)
  transfer q i p (f - to_move) ;;
  let! b := is_internal p in
  (if b then
     let! rf := finish right in
     for_loop children_fuel (fun i => ret (rs <? i)) (fun i => field (i - 1))
       (fun i => let! c := child right (field (i - 1)) in
                 init_child right (field (i - 1 + to_move)) c ;;
                 clear_child right (field (i - 1))) (field (rf + 1)) ;;
     for_loop children_fuel (fun i => ret (i <=? to_move)) (fun i => field (i + 1))
       (fun i => let! f := finish p in
                 let! c := child p (field (f - to_move + i)) in
                 init_child right (field (i - 1)) c ;;
                 clear_child p (field (f - to_move + i))) 1
   else ret tt) ;;
  let! f := finish p in
  set_finish p (f - to_move) ;;
  let! rf := finish right in
  set_finish right (rf + to_move).

(** [++i, ++j] *)
Definition next_child (ij : Z * Z) : Z * Z := (field (fst ij + 1), field (snd ij + 1)).

Definition split p (insert_position : Z) dest : M V unit :=
  let! dc := count dest in
  check (dc =? 0) ;;
  let! m := max_count p in
  check (m =? kNodeSlots) ;;
  check_siblings p dest ;;
  let! s := start p in
  let! ds := start dest in
  let! f := finish p in
  (if insert_position =? s then set_finish dest (ds + f - 1)
   else if insert_position =? kNodeSlots then set_finish dest ds
   else let! c := count p in set_finish dest (ds + Z.quot c 2)) ;;
  let! dc := count dest in
  set_finish p (f - dc) ;;
  let! c := count p in
  check (1 <=? c) ;;
  let! f := finish p in
  transfer_n dest dc ds f p ;;
  set_finish p (f - 1) ;;
  let! i := position p in
  let! q := parent p in
  let! f := finish p in
  emplace_value q i (value_init_from q i p f) ;;
  value_destroy p f ;;
  set_child_noupdate_position q (field (i + 1)) dest ;;
  let! b := is_internal p in
  if b then
    for_loop children_fuel (fun ij => let! df := finish dest in ret (fst ij <=? df)) next_child
      (fun '(i, j) => let! c := child p j in init_child dest i c ;; clear_child p j) (ds, field (f + 1))
  else ret tt.

Definition merge p src : M V unit :=
  check_siblings p src ;;
  let! f := finish p in
  let! i := position p in
  let! q := parent p in
  value_init_from p f q i ;;
  let! sc := count src in
  let! ss := start src in
  transfer_n p sc (f + 1) ss src ;;
  let! b := is_internal p in
  (if b then
     for_loop children_fuel (fun ij => let! sf := finish src in ret (fst ij <=? sf)) next_child
       (fun '(i, j) => let! c := child src i in init_child p j c ;; clear_child src i) (ss, field (f + 1))
   else ret tt) ;;
  let! s := start p in
  let! c := count p in
  let! sc := count src in
  set_finish p (s + 1 + c + sc) ;;
  set_finish src ss ;;
  let! i := position p in
  remove_values q i 1.
End btree_node.
End btree_node.
