(* ===== verification/Btree.v ===== *)
(** * Btree: B-trees (src/abseil-cpp/absl/container/internal/btree.h,
    [btree_iterator] and [btree])

    The tree has pointers to its root and to its rightmost leaf; the parent of
    the root is the leftmost leaf. An empty tree points to [EmptyNode]. *)

From S2P Require Import Prelude.
From S2P Require Import BtreeNode.
Import btree_node.

(** ** [btree_iterator] *)

Record iterator := mkIterator { node_ : option loc; pos_ : Z }.

#[export] Instance iterator_eq_dec : EqDecision iterator.
Proof. solve_decision. Defined.

Module btree_iterator.
Section btree_iterator.
Context {K V : Type} `{BtreeParams K V} `{Allocator}.

(** The node of an iterator that is dereferenced. *)
Definition the_node (it : iterator) : M V loc := lift (deref (node_ it)).

Definition iterator_default : iterator := mkIterator None (-1).
Definition iterator_of (n : loc) : M V iterator := let! s := start n in ret (mkIterator (Some n) s).

(** The root above a node. *)
Fixpoint root_of (fuel : nat) (n : loc) : M V loc :=
  match fuel with
  | O => lift (Err OutOfFuel)
  | S fuel => let! r := is_root n in if r then ret n else let! q := parent n in root_of fuel q
  end.

Definition AreNodesFromSameContainer (a b : option loc) : M V bool :=
  match a, b with
  | Some a, Some b =>
      let! n := heap_fuel in
      let! a := root_of n a in
      let! b := root_of n b in
      ret (bool_decide (a = b))
  | _, _ => ret true
  end.

Definition Equals (it other : iterator) : M V bool :=
  check (bool_decide (node_ it = None <-> node_ other = None)) ;;
  let! s := AreNodesFromSameContainer (node_ it) (node_ other) in
  check s ;;
  ret (bool_decide (it = other)).

Fixpoint end_loop (fuel : nat) (n : loc) : M V bool :=
  match fuel with
  | O => lift (Err OutOfFuel)
  | S fuel =>
      let! r := is_root n in
      if r then ret true
      else
        let! i := position n in
        let! q := parent n in
        let! f := finish q in
        if negb (i =? f) then ret false else end_loop fuel q
  end.
Definition IsEndIterator (it : iterator) : M V bool :=
  let! n := the_node it in
  let! f := finish n in
  if negb (pos_ it =? f) then ret false else let! k := heap_fuel in end_loop k n.

(** [operator*] *)
Definition iter_value (it : iterator) : M V V :=
  check (bool_decide (node_ it ≠ None)) ;;
  let! n := the_node it in
  let! s := start n in
  check (s <=? pos_ it) ;;
  let! f := finish n in
  (if f <=? pos_ it then
     let! e := IsEndIterator it in
     check (negb e) ;;
     let! f := finish n in
     check (pos_ it <? f)
   else ret tt) ;;
  value n (field (pos_ it)).
Definition iter_key (it : iterator) : M V K := let! n := the_node it in key n (pos_ it).

(** The loop of [increment_slow] that climbs. *)
Fixpoint climb_right (fuel : nat) (n : loc) (pos : Z) : M V (loc * Z) :=
  match fuel with
  | O => lift (Err OutOfFuel)
  | S fuel =>
      let! f := finish n in
      if negb (pos =? f) then ret (n, pos)
      else
        let! r := is_root n in
        if r then ret (n, pos)
        else
          let! q := parent n in
          let! i := position n in
          let! c := child q i in
          check (bool_decide (c = n)) ;;
          climb_right fuel q i
  end.

Definition increment_slow (it : iterator) : M V iterator :=
  let! n := the_node it in
  let! l := is_leaf n in
  if l then
    let! f := finish n in
    check (f <=? pos_ it) ;;
    let! k := heap_fuel in
    let! r := climb_right k n (pos_ it) in
    let '(n, pos) := r in
    let! f := finish n in
    if pos =? f then ret it else ret (mkIterator (Some n) pos)
  else
    let! f := finish n in
    check (pos_ it <? f) ;;
    let! c := child n (field (pos_ it + 1)) in
    let! k := heap_fuel in
    let! c := leftmost_leaf k c in
    let! s := start c in
    ret (mkIterator (Some c) s).

(** [operator++] *)
Definition increment (it : iterator) : M V iterator :=
  let! n := the_node it in
  let! l := is_leaf n in
  if l then
    let it := mkIterator (Some n) (pos_ it + 1) in
    let! f := finish n in
    if pos_ it <? f then ret it else increment_slow it
  else increment_slow it.

Fixpoint climb_left (fuel : nat) (n : loc) (pos : Z) : M V (loc * Z) :=
  match fuel with
  | O => lift (Err OutOfFuel)
  | S fuel =>
      let! s := start n in
      if negb (pos <? s) then ret (n, pos)
      else
        let! r := is_root n in
        if r then ret (n, pos)
        else
          let! q := parent n in
          let! i := position n in
          let! c := child q i in
          check (bool_decide (c = n)) ;;
          climb_left fuel q (i - 1)
  end.

(** [while (node_->is_internal()) node_ = node_->child(node_->finish());] *)
Fixpoint rightmost_leaf (fuel : nat) (n : loc) : M V loc :=
  match fuel with
  | O => lift (Err OutOfFuel)
  | S fuel =>
      let! i := is_internal n in
      if i then
        let! f := finish n in
        let! c := child n f in
        rightmost_leaf fuel c
      else ret n
  end.

Definition decrement_slow (it : iterator) : M V iterator :=
  let! n := the_node it in
  let! l := is_leaf n in
  if l then
    check (pos_ it <=? -1) ;;
    let! k := heap_fuel in
    let! r := climb_left k n (pos_ it) in
    let '(n, pos) := r in
    let! s := start n in
    if pos <? s then ret it else ret (mkIterator (Some n) pos)
  else
    let! s := start n in
    check (s <=? pos_ it) ;;
    let! c := child n (field (pos_ it)) in
    let! k := heap_fuel in
    let! c := rightmost_leaf k c in
    let! f := finish c in
    ret (mkIterator (Some c) (f - 1)).

(** [operator--] *)
Definition decrement (it : iterator) : M V iterator :=
  let! n := the_node it in
  let! l := is_leaf n in
  if l then
    let it := mkIterator (Some n) (pos_ it - 1) in
    let! s := start n in
    if s <=? pos_ it then ret it else decrement_slow it
  else decrement_slow it.

(** The loops of [distance_slow]: [inl] is the distance. *)
Fixpoint count_leaves (fuel : nat) (e : iterator) (total pos : Z) (q : loc) : M V (Z + Z * Z * loc) :=
  match fuel with
  | O => lift (Err OutOfFuel)
  | S fuel =>
      let! n := child q (field pos) in
      let! i := is_internal n in
      let! r := (if i then
                   let! k := heap_fuel in
                   let! n := leftmost_leaf k n in
                   let! pos := position n in
                   let! q := parent n in
                   ret (n, pos, q)
                 else ret (n, pos, q)) in
      let '(n, pos, q) := r in
      if bool_decide (Some n = node_ e) then ret (inl (total + pos_ e))
      else
        let! c := count n in
        if bool_decide (Some q = node_ e) && (pos =? pos_ e) then ret (inl (total + c))
        else
          let total := total + (c + 1) in
          let pos := pos + 1 in
          let! f := finish q in
          if pos <=? f then count_leaves fuel e total pos q else ret (inr (total, pos, q))
  end.

Fixpoint count_up (fuel : nat) (e : iterator) (total : Z) (q : loc) : M V (Z + Z * loc) :=
  match fuel with
  | O => lift (Err OutOfFuel)
  | S fuel =>
      let! pos := position q in
      let! q := parent q in
      if bool_decide (Some q = node_ e) && (pos =? pos_ e) then ret (inl (total - 1))
      else
        let pos := pos + 1 in
        let! f := finish q in
        if f <? pos then count_up fuel e total q else ret (inr (pos, q))
  end.

Fixpoint distance_loop (fuel : nat) (e : iterator) (total pos : Z) (q : loc) : M V Z :=
  match fuel with
  | O => lift (Err OutOfFuel)
  | S fuel =>
      let! f := finish q in
      check (pos <=? f) ;;
      let! k := heap_fuel in
      let! r := count_leaves k e total pos q in
      match r with
      | inl d => ret d
      | inr (total, pos, q) =>
          let! f := finish q in
          check (f <? pos) ;;
          let! r := count_up k e total q in
          match r with
          | inl d => ret d
          | inr (pos, q) => distance_loop fuel e total pos q
          end
      end
  end.

Definition distance_slow (e b : iterator) : M V Z :=
  let! bn := the_node b in
  let! l := is_leaf bn in
  check (bool_decide (node_ b ≠ node_ e) || negb l || negb (pos_ b =? pos_ e)) ;;
  let total := if l then - pos_ b else 0 in
  let! r := (if l then ret (total, bn) else let! c := child bn (field (pos_ b + 1)) in ret (total + 1, c)) in
  let '(total, n) := r in
  let! k := heap_fuel in
  let! n := leftmost_leaf k n in
  let! pos := position n in
  let! q := parent n in
  distance_loop k e total pos q.

(** [operator-] *)
Definition iter_minus (it other : iterator) : M V Z :=
  if bool_decide (node_ it = node_ other) then
    let! n := the_node it in
    let! l := is_leaf n in
    if l then ret (pos_ it - pos_ other)
    else if pos_ it =? pos_ other then ret 0 else distance_slow it other
  else distance_slow it other.
End btree_iterator.
End btree_iterator.
Import btree_iterator.

(** ** [btree] *)

Record btree := mkBtree { root_ : loc; rightmost_ : loc; size_ : Z }.

Module btree.
Section btree.
Context {K V : Type} `{BtreeParams K V} `{Allocator}.

Definition kMinNodeValues : Z := kNodeSlots / 2.

Definition btree_new : btree := mkBtree EmptyNode EmptyNode 0.
Definition empty (t : btree) : bool := size_ t =? 0.
Definition leftmost (t : btree) : M V loc := parent (root_ t).

Definition begin_ (t : btree) : M V iterator := let! l := leftmost t in iterator_of l.
Definition end_ (t : btree) : M V iterator := let! f := finish (rightmost_ t) in ret (mkIterator (Some (rightmost_ t)) f).
Definition internal_end (t : btree) (it : iterator) : M V iterator :=
  match node_ it with Some _ => ret it | None => end_ t end.

Definition new_internal_node (position : Z) (parent : loc) : M V loc :=
  let! n := allocate kNodeSlots (kNodeSlots + 1) in
  init_internal n position parent ;;
  ret n.
Definition new_leaf_node (position : Z) (parent : loc) : M V loc :=
  let! n := allocate kNodeSlots 0 in
  init_leaf n position kNodeSlots parent ;;
  ret n.
Definition new_leaf_root_node (max_count : Z) : M V loc :=
  let! n := allocate max_count 0 in
  init_leaf n 0 max_count n ;;
  ret n.

(** *** Search *)

Fixpoint last_loop (fuel : nat) (n : loc) (pos : Z) : M V iterator :=
  match fuel with
  | O => lift (Err OutOfFuel)
  | S fuel =>
      let! f := finish n in
      if pos =? f then
        let! pos := position n in
        let! q := parent n in
        let! l := is_leaf q in
        if l then ret (mkIterator None pos) else last_loop fuel q pos
      else ret (mkIterator (Some n) pos)
  end.
Definition internal_last (it : iterator) : M V iterator :=
  check (bool_decide (node_ it ≠ None)) ;;
  let! n := the_node it in
  let! k := heap_fuel in
  last_loop k n (pos_ it).

Fixpoint locate_loop (fuel : nat) (k : K) (n : loc) : M V (SearchResult iterator) :=
  match fuel with
  | O => lift (Err OutOfFuel)
  | S fuel =>
      let! res := lower_bound n k in
      let pos := result_value res in
      let result m := mkSearchResult (mkIterator (Some n) pos) (if HasMatch res then Some m else None) in
      if IsEq res then ret (result kEq)
      else
        let! l := is_leaf n in
        if l then ret (result kNe)
        else let! c := child n (field pos) in locate_loop fuel k c
  end.
Definition internal_locate (t : btree) (k : K) : M V (SearchResult iterator) :=
  let! f := heap_fuel in locate_loop f k (root_ t).

Fixpoint lower_loop (fuel : nat) (k : K) (n : loc) (seen_eq : bool) : M V (SearchResult iterator) :=
  match fuel with
  | O => lift (Err OutOfFuel)
  | S fuel =>
      let! res := lower_bound n k in
      let it := mkIterator (Some n) (result_value res) in
      let result it m := mkSearchResult it (if HasMatch res then Some m else None) in
      let! l := is_leaf n in
      if l then
        if IsEq res then ret (result it kEq)
        else let! it := internal_last it in ret (result it (if seen_eq then kEq else kNe))
      else
        let! c := child n (field (result_value res)) in
        lower_loop fuel k c (seen_eq || IsEq res)
  end.
Definition internal_lower_bound (t : btree) (k : K) : M V (SearchResult iterator) :=
  if negb can_have_multiple_equivalent_keys then
    let! r := internal_locate t k in
    let! it := internal_last (result_value r) in
    ret (mkSearchResult it (result_match r))
  else let! f := heap_fuel in lower_loop f k (root_ t) false.

Fixpoint upper_loop (fuel : nat) (k : K) (n : loc) : M V iterator :=
  match fuel with
  | O => lift (Err OutOfFuel)
  | S fuel =>
      let! pos := upper_bound n k in
      let! l := is_leaf n in
      if l then internal_last (mkIterator (Some n) pos)
      else let! c := child n (field pos) in upper_loop fuel k c
  end.
Definition internal_upper_bound (t : btree) (k : K) : M V iterator :=
  let! f := heap_fuel in upper_loop f k (root_ t).

(** [iter.node_ && !compare_keys(key, iter.key())] *)
Definition holds_key (k : K) (it : iterator) : M V bool :=
  match node_ it with
  | Some _ =>
      let! x := iter_key it in
      let! c := lift (compare_keys k x) in
      ret (negb c)
  | None => ret false
  end.

Definition internal_find (t : btree) (k : K) : M V iterator :=
  let! res := internal_locate t k in
  if HasMatch res then ret (if IsEq res then result_value res else mkIterator None 0)
  else
    let! it := internal_last (result_value res) in
    let! b := holds_key k it in
    ret (if b then it else mkIterator None 0).

Definition lower_bound (t : btree) (k : K) : M V iterator :=
  let! r := internal_lower_bound t k in internal_end t (result_value r).
Definition upper_bound (t : btree) (k : K) : M V iterator :=
  let! it := internal_upper_bound t k in internal_end t it.
Definition find (t : btree) (k : K) : M V iterator :=
  let! it := internal_find t k in internal_end t it.

(** [a != b], and [key < *it]. *)
Definition iter_ne (a b : iterator) : M V bool := let! e := Equals a b in ret (negb e).
Definition key_before (k : K) (it : iterator) : M V bool := let! x := iter_key it in lift (compare_keys k x).
Definition key_after (k : K) (it : iterator) : M V bool := let! x := iter_key it in lift (compare_keys x k).

Definition lower_bound_equal (t : btree) (k : K) : M V (iterator * bool) :=
  let! res := internal_lower_bound t k in
  let! lower := internal_end t (result_value res) in
  let! equal := (if HasMatch res then ret (IsEq res)
                 else
                   let! e := end_ t in
                   let! d := iter_ne lower e in
                   if d then let! b := key_before k lower in ret (negb b) else ret false) in
  ret (lower, equal).

Definition equal_range (t : btree) (k : K) : M V (iterator * iterator) :=
  let! r := lower_bound_equal t k in
  let '(lower, equal) := r in
  if negb equal then ret (lower, lower)
  else
    let! next := increment lower in
    let! e := end_ t in
    let! s := Equals next e in
    let! after := (if s then ret true else key_before k next) in
    if negb can_have_multiple_equivalent_keys then check after ;; ret (lower, next)
    else if after then ret (lower, next)
    else let! u := upper_bound t k in ret (lower, u).

(** *** Insertion *)

(** The parts of [rebalance_or_split] for the node [n] of the iterator, its
    parent [q] and the position: moving values to the left sibling and to the
    right one, [None] where that is not possible; a new root; the split. *)
Definition rebalance_with_left (n q : loc) (insert_position : Z) : M V (option (loc * Z)) :=
  let! i := position n in
  let! qs := start q in
  if qs <? i then
    let! left_node := child q (field (i - 1)) in
    let! lm := max_count left_node in
    check (lm =? kNodeSlots) ;;
    let! lc := count left_node in
    if lc <? kNodeSlots then
      let to_move := field ((kNodeSlots - lc) / (1 + (if field insert_position <? kNodeSlots then 1 else 0))) in
      let to_move := Z.max 1 to_move in
      let! s := start n in
      if (s <=? field insert_position - to_move) || (lc + to_move <? kNodeSlots) then
        rebalance_right_to_left left_node to_move n ;;
        let! m := max_count n in
        let! c := count n in
        check (m - c =? to_move) ;;
        let insert_position := field insert_position - to_move in
        let! s := start n in
        let! r := (if insert_position <? s then
                     let! lc := count left_node in
                     ret (left_node, insert_position + lc + 1)
                   else ret (n, insert_position)) in
        let '(n, insert_position) := r in
        let! c := count n in
        let! m := max_count n in
        check (c <? m) ;;
        ret (Some (n, insert_position))
      else ret None
    else ret None
  else ret None.

Definition rebalance_with_right (n q : loc) (insert_position : Z) : M V (option (loc * Z)) :=
  let! i := position n in
  let! qf := finish q in
  if i <? qf then
    let! right_node := child q (field (i + 1)) in
    let! rm := max_count right_node in
    check (rm =? kNodeSlots) ;;
    let! rc := count right_node in
    if rc <? kNodeSlots then
      let! s := start n in
      let to_move := field ((kNodeSlots - rc) / (1 + (if s <? insert_position then 1 else 0))) in
      let to_move := Z.max 1 to_move in
      let! f := finish n in
      if (field insert_position <=? f - to_move) || (rc + to_move <? kNodeSlots) then
        rebalance_left_to_right n to_move right_node ;;
        let! f := finish n in
        let! r := (if f <? insert_position then
                     let! c := count n in
                     ret (right_node, insert_position - c - 1)
                   else ret (n, insert_position)) in
        let '(n, insert_position) := r in
        let! c := count n in
        let! m := max_count n in
        check (c <? m) ;;
        ret (Some (n, insert_position))
      else ret None
    else ret None
  else ret None.

Definition new_root (t : btree) (n q : loc) : M V (btree * loc) :=
  let! q := new_internal_node 0 q in
  let! s := start q in
  init_child q s n ;;
  let t := mkBtree q (rightmost_ t) (size_ t) in
  let! c := start_child q in
  let! i := is_internal c in
  (if i then ret tt else let! c := start_child q in check (bool_decide (c = rightmost_ t))) ;;
  ret (t, q).

Definition split_node (t : btree) (n q : loc) (insert_position : Z) : M V (btree * loc * Z) :=
  let! l := is_leaf n in
  let! i := position n in
  let! r :=
    (if l then
       let! s := new_leaf_node (field (i + 1)) q in
       split n insert_position s ;;
       ret (s, if decide (rightmost_ t = n) then mkBtree (root_ t) s (size_ t) else t)
     else
       let! s := new_internal_node (field (i + 1)) q in
       split n insert_position s ;;
       ret (s, t)) in
  let '(s, t) := r in
  let! f := finish n in
  if f <? insert_position then
    let! c := count n in
    ret (t, s, insert_position - c - 1)
  else ret (t, n, insert_position).

(** [rebalance_or_split]: the recursion is on the way up. *)
Fixpoint rebalance_or_split (fuel : nat) (t : btree) (n : loc) (insert_position : Z) : M V (btree * loc * Z) :=
  match fuel with
  | O => lift (Err OutOfFuel)
  | S fuel =>
      let! c := count n in
      let! m := max_count n in
      check (c =? m) ;;
      check (kNodeSlots =? m) ;;
      let! q := parent n in
      if decide (n = root_ t) then
        let! r := new_root t n q in
        split_node (fst r) n (snd r) insert_position
      else
        let! made_room := rebalance_with_left n q insert_position in
        match made_room with
        | Some (n, insert_position) => ret (t, n, insert_position)
        | None =>
            let! made_room := rebalance_with_right n q insert_position in
            match made_room with
            | Some (n, insert_position) => ret (t, n, insert_position)
            | None =>
                let! m := max_count q in
                check (m =? kNodeSlots) ;;
                let! c := count q in
                let! r := (if c =? kNodeSlots then
                             let! i := position n in
                             let! r := rebalance_or_split fuel t q i in
                             let! q := parent n in
                             ret (fst (fst r), q)
                           else ret (t, q)) in
                split_node (fst r) n (snd r) insert_position
            end
        end
  end.

(** The lambdas of [internal_emplace]. *)
Definition transfer_and_delete (old_node new_node : loc) : M V unit :=
  let! c := count old_node in
  let! ns := start new_node in
  let! os := start old_node in
  transfer_n new_node c ns os old_node ;;
  let! f := finish old_node in
  set_finish new_node f ;;
  set_finish old_node os ;;
  clear_and_delete old_node.
Definition replace_leaf_root_node (t : btree) (n : loc) (new_node_size : Z) : M V btree :=
  check (bool_decide (n = root_ t)) ;;
  let! new_root := new_leaf_root_node new_node_size in
  transfer_and_delete n new_root ;;
  ret (mkBtree new_root new_root (size_ t)).

Definition internal_emplace (t : btree) (it : iterator) (v : V) : M V (btree * iterator) :=
  let! n := the_node it in
  let! i := is_internal n in
  let! it := (if i then let! it := decrement it in ret (mkIterator (node_ it) (pos_ it + 1)) else ret it) in
  let! n := the_node it in
  let! m := max_count n in
  let! c := count n in
  let! r :=
    (if c =? m then
       if m <? kNodeSlots then
         let! t := replace_leaf_root_node t n (field (Z.min (i32 kNodeSlots) (2 * m))) in
         ret (t, root_ t, pos_ it)
       else let! k := heap_fuel in rebalance_or_split k t n (pos_ it)
     else ret (t, n, pos_ it)) in
  let '(t, n, pos) := r in
  emplace_value n (field pos) (value_init n (field pos) v) ;;
  let! o := is_ordered_correctly n (field pos) in
  check o ;;
  ret (mkBtree (root_ t) (rightmost_ t) (size_ t + 1), mkIterator (Some n) pos).

(** [if (empty()) mutable_root() = mutable_rightmost() = new_leaf_root_node(1);] *)
Definition ensure_root (t : btree) : M V btree :=
  if empty t then let! n := new_leaf_root_node 1 in ret (mkBtree n n (size_ t)) else ret t.

Definition insert_unique (t : btree) (k : K) (v : V) : M V (btree * (iterator * bool)) :=
  let! t := ensure_root t in
  let! res := internal_locate t k in
  let it := result_value res in
  let insert := let! r := internal_emplace t it v in ret (fst r, (snd r, true)) in
  if HasMatch res then if IsEq res then ret (t, (it, false)) else insert
  else
    let! last := internal_last it in
    let! b := holds_key k last in
    if b then ret (t, (last, false)) else insert.

Definition insert_hint_unique (t : btree) (position : iterator) (k : K) (v : V) : M V (btree * (iterator * bool)) :=
  let insert it := let! r := internal_emplace t it v in ret (fst r, (snd r, true)) in
  if negb (empty t) then
    let! e := end_ t in
    let! at_end := Equals position e in
    let! before := (if at_end then ret true else key_before k position) in
    if before then
      let! b := begin_ t in
      let! at_begin := Equals position b in
      let! after := (if at_begin then ret true else let! p := decrement position in key_after k p) in
      if after then insert position else insert_unique t k v
    else
      let! after := key_after k position in
      if after then
        let! position := increment position in
        let! at_end := Equals position e in
        let! before := (if at_end then ret true else key_before k position) in
        if before then insert position else insert_unique t k v
      else ret (t, (position, false))
  else insert_unique t k v.

(** [insert_iterator_unique], from a list of values. *)
Fixpoint insert_iterator_unique (t : btree) (vs : list V) : M V btree :=
  match vs with
  | [] => ret t
  | v :: vs =>
      let! e := end_ t in
      let! r := insert_hint_unique t e (params_key v) v in
      insert_iterator_unique (fst r) vs
  end.

Definition insert_multi (t : btree) (k : K) (v : V) : M V (btree * iterator) :=
  let! t := ensure_root t in
  let! it := internal_upper_bound t k in
  let! it := internal_end t it in
  internal_emplace t it v.

Definition insert_hint_multi (t : btree) (position : iterator) (v : V) : M V (btree * iterator) :=
  let k := params_key v in
  if negb (empty t) then
    let! e := end_ t in
    let! at_end := Equals position e in
    let! not_after := (if at_end then ret true else let! a := key_after k position in ret (negb a)) in
    if not_after then
      let! b := begin_ t in
      let! at_begin := Equals position b in
      let! not_before := (if at_begin then ret true
                          else let! p := decrement position in let! c := key_before k p in ret (negb c)) in
      if not_before then internal_emplace t position v else insert_multi t k v
    else
      let! position := increment position in
      let! at_end := Equals position e in
      let! not_after := (if at_end then ret true else let! a := key_after k position in ret (negb a)) in
      if not_after then internal_emplace t position v else insert_multi t k v
  else insert_multi t k v.

Fixpoint insert_iterator_multi (t : btree) (vs : list V) : M V btree :=
  match vs with
  | [] => ret t
  | v :: vs =>
      let! e := end_ t in
      let! r := insert_hint_multi t e v in
      insert_iterator_multi (fst r) vs
  end.

(** *** Erasure *)

Definition merge_nodes (t : btree) (left_node right_node : loc) : M V btree :=
  merge left_node right_node ;;
  ret (if decide (rightmost_ t = right_node) then mkBtree (root_ t) left_node (size_ t) else t).

(** The parts of [try_merge_or_rebalance]: with the sibling on the left, with
    that on the right, and values from the left. *)
Definition merge_with_left (t : btree) (n q : loc) (pos : Z) : M V (option (btree * loc * Z)) :=
  let! i := position n in
  let! qs := start q in
  if qs <? i then
    let! left_node := child q (field (i - 1)) in
    let! lm := max_count left_node in
    check (lm =? kNodeSlots) ;;
    let! lc := count left_node in
    let! c := count n in
    if 1 + lc + c <=? kNodeSlots then
      let! t := merge_nodes t left_node n in
      ret (Some (t, left_node, pos + (1 + lc)))
    else ret None
  else ret None.

Definition merge_or_rebalance_right (t : btree) (n q : loc) (pos : Z) : M V (option (btree * bool)) :=
  let! i := position n in
  let! qf := finish q in
  if i <? qf then
    let! right_node := child q (field (i + 1)) in
    let! rm := max_count right_node in
    check (rm =? kNodeSlots) ;;
    let! c := count n in
    let! rc := count right_node in
    if 1 + c + rc <=? kNodeSlots then
      let! t := merge_nodes t n right_node in
      ret (Some (t, true))
    else
      let! s := start n in
      if (kMinNodeValues <? rc) && ((c =? 0) || (s <? pos)) then
        let to_move := field (Z.quot (rc - c) 2) in
        let to_move := Z.min to_move (field (rc - 1)) in
        rebalance_right_to_left n to_move right_node ;;
        ret (Some (t, false))
      else ret None
  else ret None.

Definition rebalance_from_left (n q : loc) (pos : Z) : M V Z :=
  let! i := position n in
  let! qs := start q in
  if qs <? i then
    let! left_node := child q (field (i - 1)) in
    let! lc := count left_node in
    let! c := count n in
    let! f := finish n in
    if (kMinNodeValues <? lc) && ((c =? 0) || (pos <? f)) then
      let to_move := field (Z.quot (lc - c) 2) in
      let to_move := Z.min to_move (field (lc - 1)) in
      rebalance_left_to_right left_node to_move n ;;
      ret (pos + to_move)
    else ret pos
  else ret pos.

Definition try_merge_or_rebalance (t : btree) (n : loc) (pos : Z) : M V (btree * loc * Z * bool) :=
  let! q := parent n in
  let! merged := merge_with_left t n q pos in
  match merged with
  | Some (t, n, pos) => ret (t, n, pos, true)
  | None =>
      let! handled := merge_or_rebalance_right t n q pos in
      match handled with
      | Some (t, merged) => ret (t, n, pos, merged)
      | None => let! pos := rebalance_from_left n q pos in ret (t, n, pos, false)
      end
  end.

Definition try_shrink (t : btree) : M V btree :=
  let orig_root := root_ t in
  let! c := count orig_root in
  if 0 <? c then ret t
  else
    let! l := is_leaf orig_root in
    let! t := (if l then check (size_ t =? 0) ;; ret (mkBtree EmptyNode EmptyNode (size_ t))
               else
                 let! c := start_child orig_root in
                 make_root c ;;
                 ret (mkBtree c (rightmost_ t) (size_ t))) in
    clear_and_delete orig_root ;;
    ret t.

(** The loop of [rebalance_after_delete]: [res] is the iterator to return,
    [None] before the first iteration. *)
Fixpoint rebalance_loop (fuel : nat) (t : btree) (it : iterator) (res : option iterator) : M V (btree * option iterator) :=
  match fuel with
  | O => lift (Err OutOfFuel)
  | S fuel =>
      let! n := the_node it in
      if decide (n = root_ t) then
        let! t := try_shrink t in
        ret (t, if empty t then None else Some (default it res))
      else
        let! c := count n in
        if kMinNodeValues <=? c then ret (t, Some (default it res))
        else
          let! r := try_merge_or_rebalance t n (pos_ it) in
          let '(t, n, pos, merged) := r in
          let res := default (mkIterator (Some n) pos) res in
          if negb merged then ret (t, Some res)
          else
            let! i := position n in
            let! q := parent n in
            rebalance_loop fuel t (mkIterator (Some q) i) (Some res)
  end.

Definition rebalance_after_delete (t : btree) (it : iterator) : M V (btree * iterator) :=
  let! k := heap_fuel in
  let! r := rebalance_loop k t it None in
  let '(t, res) := r in
  match res with
  | None => let! e := end_ t in ret (t, e)
  | Some res =>
      let! n := the_node res in
      let! f := finish n in
      if pos_ res =? f then
        let! res := increment (mkIterator (node_ res) (f - 1)) in
        ret (t, res)
      else ret (t, res)
  end.

Definition erase (t : btree) (it : iterator) : M V (btree * iterator) :=
  let! n := the_node it in
  value_destroy n (field (pos_ it)) ;;
  let! internal_delete := is_internal n in
  let! it :=
    (if internal_delete then
       let internal_iter := it in
       let! it := decrement it in
       let! l := the_node it in
       let! b := is_leaf l in
       check b ;;
       transfer n (pos_ internal_iter) l (pos_ it) ;;
       ret it
     else
       let transfer_from := field (pos_ it + 1) in
       let! f := finish n in
       let num_to_transfer := field (f - transfer_from) in
       transfer_n n num_to_transfer (pos_ it) transfer_from n ;;
       ret it) in
  let! n := the_node it in
  let! f := finish n in
  set_finish n (f - 1) ;;
  let t := mkBtree (root_ t) (rightmost_ t) (size_ t - 1) in
  let! r := rebalance_after_delete t it in
  let '(t, res) := r in
  if internal_delete then let! res := increment res in ret (t, res) else ret (t, res).

Definition clear (t : btree) : M V btree :=
  (if negb (empty t) then clear_and_delete (root_ t) else ret tt) ;;
  ret (mkBtree EmptyNode EmptyNode 0).

Fixpoint erase_loop (fuel : nat) (t : btree) (b : iterator) (target_size : Z) : M V (btree * iterator) :=
  match fuel with
  | O => lift (Err OutOfFuel)
  | S fuel =>
      if target_size <? size_ t then
        let! n := the_node b in
        let! l := is_leaf n in
        if l then
          let remaining_to_erase := size_ t - target_size in
          let! f := finish n in
          let remaining_in_node := f - pos_ b in
          let to_erase := field (Z.min remaining_to_erase remaining_in_node) in
          remove_values n (field (pos_ b)) to_erase ;;
          let t := mkBtree (root_ t) (rightmost_ t) (size_ t - to_erase) in
          let! r := rebalance_after_delete t b in
          erase_loop fuel (fst r) (snd r) target_size
        else
          let! r := erase t b in
          erase_loop fuel (fst r) (snd r) target_size
      else ret (t, b)
  end.

Definition erase_range (t : btree) (b e : iterator) : M V (btree * (Z * iterator)) :=
  let! d := iter_minus e b in
  let cnt := u64 d in
  check (0 <=? cnt) ;;
  if cnt =? 0 then ret (t, (0, b))
  else if cnt =? size_ t then
    let! t := clear t in
    let! e := end_ t in
    ret (t, (cnt, e))
  else if bool_decide (node_ b = node_ e) then
    check (pos_ b <? pos_ e) ;;
    let! n := the_node b in
    remove_values n (field (pos_ b)) (field (pos_ e - pos_ b)) ;;
    let t := mkBtree (root_ t) (rightmost_ t) (size_ t - cnt) in
    let! r := rebalance_after_delete t b in
    ret (fst r, (cnt, snd r))
  else
    let! r := erase_loop (S (Z.to_nat cnt)) t b (size_ t - cnt) in
    ret (fst r, (cnt, snd r)).

(** *** Copies and checks *)

(** [copy_or_move_values_in_order], when it copies. *)
Fixpoint copy_loop (fuel : nat) (t : btree) (it e : iterator) : M V btree :=
  match fuel with
  | O => lift (Err OutOfFuel)
  | S fuel =>
      let! d := iter_ne it e in
      if d then
        let! at_end := end_ t in
        let! n := the_node it in
        let! v := value n (pos_ it) in
        let! r := internal_emplace t at_end v in
        let! it := increment it in
        copy_loop fuel (fst r) it e
      else ret t
  end.
Definition copy_values_in_order (t other : btree) : M V btree :=
  check (empty t) ;;
  let! it := begin_ other in
  let! e := end_ other in
  let! s := Equals it e in
  if s then ret t
  else
    let! n := the_node it in
    let! v := value n (pos_ it) in
    let! r := insert_multi t (params_key v) v in
    let! it := increment it in
    copy_loop (S (Z.to_nat (size_ other))) (fst r) it e.

Fixpoint height_loop (fuel : nat) (t : btree) (n : loc) (h : Z) : M V Z :=
  match fuel with
  | O => lift (Err OutOfFuel)
  | S fuel =>
      let! n := parent n in
      if decide (n = root_ t) then ret (h + 1) else height_loop fuel t n (h + 1)
  end.
Definition height (t : btree) : M V Z :=
  if empty t then ret 0 else let! k := heap_fuel in height_loop k t (root_ t) 0.

(** [internal_verify]: the assertions, and the number of values. *)
Fixpoint internal_verify (fuel : nat) (n : loc) (lo hi : option K) : M V Z :=
  match fuel with
  | O => lift (Err OutOfFuel)
  | S fuel =>
      let! c := count n in
      check (0 <? c) ;;
      let! m := max_count n in
      check (c <=? m) ;;
      let! s := start n in
      let! f := finish n in
      (match lo with
       | Some lo => let! x := key n s in let! b := lift (compare_keys x lo) in check (negb b)
       | None => ret tt
       end) ;;
      (match hi with
       | Some hi => let! x := key n (f - 1) in let! b := lift (compare_keys hi x) in check (negb b)
       | None => ret tt
       end) ;;
      for_loop search_fuel (fun i => ret (i <? f)) Z.succ
        (fun i => let! x := key n i in let! y := key n (i - 1) in
                  let! b := lift (compare_keys x y) in check (negb b)) (s + 1) ;;
      let! i := is_internal n in
      if i then
        (fix children (todo : nat) (i : Z) (total : Z) : M V Z :=
           match todo with
           | O => ret total
           | S todo =>
               let! ch := child n i in
               let! q := parent ch in
               check (bool_decide (q = n)) ;;
               let! j := position ch in
               check (j =? i) ;;
               let! lo := (if i =? s then ret lo else let! x := key n (i - 1) in ret (Some x)) in
               let! hi := (if i =? f then ret hi else let! x := key n i in ret (Some x)) in
               let! d := internal_verify fuel ch lo hi in
               children todo (i + 1) (total + d)
           end) (Z.to_nat (f - s + 1)) s c
      else ret c
  end.

Definition verify (t : btree) : M V unit :=
  let! l := leftmost t in
  (if empty t then ret tt
   else let! k := heap_fuel in
        let! c := internal_verify k (root_ t) None None in
        check (size_ t =? c)) ;;
  let! b := increment (mkIterator (Some (root_ t)) (-1)) in
  check (bool_decide (Some l = node_ b)) ;;
  let! f := finish (root_ t) in
  let! e := decrement (mkIterator (Some (root_ t)) f) in
  check (bool_decide (Some (rightmost_ t) = node_ e)) ;;
  let! b := is_leaf l in
  check b ;;
  let! b := is_leaf (rightmost_ t) in
  check b.
End btree.
End btree.
