(* ===== verification/HeapLogic.v ===== *)
(** * HeapLogic: a separation logic for the heap of B-tree nodes

    Assertions are predicates on heaps. They form a logic of bunched
    implications, so that the proof mode of Iris works on them; it is a linear
    one: an assertion owns the whole of its heap, and nothing is dropped
    silently. [wp m Φ] says that the computation [m] of BtreeNode.v succeeds
    on every heap that contains the owned part, leaves the rest alone, and ends
    with [Φ]; [wp_run] brings a proof back to an ordinary execution. *)

From S2P Require Import Prelude.
From S2P Require Import BtreeNode.
From iris.bi Require Import interface.
From iris.proofmode Require Import proofmode.

Section logic.
Context {V : Type}.

Record hProp := HProp { holds : heap V -> Prop }.
Implicit Types P Q R : hProp.

#[local] Instance hProp_equiv : Equiv hProp := fun P Q => forall h, holds P h <-> holds Q h.
#[local] Instance hProp_equivalence : Equivalence (≡@{hProp}).
Proof.
  split; [done|by intros P Q E h; rewrite (E h)|by intros P Q R E F h; rewrite (E h) (F h)].
Qed.
Canonical Structure hPropO : ofe := discreteO hProp.

Record h_entails P Q : Prop := h_intro { h_elim : forall h, holds P h -> holds Q h }.
Definition h_emp : hProp := HProp (fun h => h = ∅).
Definition h_pure (φ : Prop) : hProp := HProp (fun _ => φ).
Definition h_and P Q : hProp := HProp (fun h => holds P h /\ holds Q h).
Definition h_or P Q : hProp := HProp (fun h => holds P h \/ holds Q h).
Definition h_impl P Q : hProp := HProp (fun h => holds P h -> holds Q h).
Definition h_forall A (Φ : A -> hProp) : hProp := HProp (fun h => forall a, holds (Φ a) h).
Definition h_exist A (Φ : A -> hProp) : hProp := HProp (fun h => exists a, holds (Φ a) h).
Definition h_sep P Q : hProp := HProp (fun h => exists h1 h2, h = h1 ∪ h2 /\ h1 ##ₘ h2 /\ holds P h1 /\ holds Q h2).
Definition h_wand P Q : hProp := HProp (fun h => forall h', h ##ₘ h' -> holds P h' -> holds Q (h ∪ h')).
Definition h_persistently P : hProp := h_pure (h_entails h_emp P).
Definition h_later P : hProp := P.

Lemma hProp_mixin : BiMixin h_entails h_emp h_pure h_and h_or h_impl h_forall h_exist h_sep h_wand.
Proof.
  split.
  - split; [by intros P; split|intros P Q R [E] [F]; split; intros h HP; by apply F, E].
  - intros P Q. split; [intros E; split; split; intros h; apply E|by intros [[E] [F]] h; split; [apply E|apply F]].
  - by intros n φ ψ E h.
  - intros n P P' E Q Q' F h. cbn. by rewrite (E h) (F h).
  - intros n P P' E Q Q' F h. cbn. by rewrite (E h) (F h).
  - intros n P P' E Q Q' F h. cbn. by rewrite (E h) (F h).
  - intros A n Φ Ψ E h. cbn. by setoid_rewrite (fun a => E a h).
  - intros A n Φ Ψ E h. cbn. by setoid_rewrite (fun a => E a h).
  - intros n P P' E Q Q' F h. cbn. by setoid_rewrite (fun h => E h); setoid_rewrite (fun h => F h).
  - intros n P P' E Q Q' F h. cbn. by setoid_rewrite (fun h => E h); setoid_rewrite (fun h => F h).
  - by intros φ P Hφ.
  - intros φ P Hφ. split. intros h H. by apply (Hφ H).
  - split. by intros h [H _].
  - split. by intros h [_ H].
  - intros P Q R [E] [F]. split. intros h H. by split; [apply E|apply F].
  - split. by left.
  - split. by right.
  - intros P Q R [E] [F]. split. intros h [H|H]; [by apply E|by apply F].
  - intros P Q R [E]. split. intros h HP HQ. by apply E.
  - intros P Q R [E]. split. intros h [HP HQ]. by apply (E h HP).
  - intros A P Ψ E. split. intros h H a. by apply E.
  - intros A Ψ a. split. intros h H. apply H.
  - intros A Ψ a. split. intros h H. by exists a.
  - intros A Φ Q E. split. intros h [a H]. by apply (E a).
  - intros P P' Q Q' [E] [F]. split. intros h (h1 & h2 & -> & Hd & H1 & H2). exists h1, h2.
    split_and!; [done|done|by apply E|by apply F].
  - intros P. split. intros h H. exists ∅, h. split_and!; [by rewrite left_id_L|apply map_disjoint_empty_l|done|done].
  - intros P. split. intros h (h1 & h2 & -> & Hd & -> & H). by rewrite left_id_L.
  - intros P Q. split. intros h (h1 & h2 & -> & Hd & H1 & H2). exists h2, h1.
    split_and!; [by apply map_union_comm|done|done|done].
  - intros P Q R. split. intros h (h12 & h3 & -> & Hd & (h1 & h2 & -> & Hd' & H1 & H2) & H3).
    apply map_disjoint_union_l in Hd as [Hd1 Hd2]. exists h1, (h2 ∪ h3).
    split_and!; [by rewrite assoc_L|by apply map_disjoint_union_r|done|by exists h2, h3].
  - intros P Q R [E]. split. intros h HP h' Hd HQ. apply E. by exists h, h'.
  - intros P Q R [E]. split. intros h (h1 & h2 & -> & Hd & H1 & H2). by apply (E h1 H1).
Qed.

Lemma hProp_persistently_mixin : BiPersistentlyMixin h_entails h_emp h_and h_exist h_sep h_persistently.
Proof.
  eapply bi_persistently_mixin_discrete, hProp_mixin; [done| |done].
  intros A Φ [H]. destruct (H ∅) as [a Ha]; [done|]. exists a. split. by intros h ->.
Qed.

Lemma hProp_later_mixin :
  BiLaterMixin h_entails h_pure h_or h_impl h_forall h_exist h_sep h_persistently h_later.
Proof. eapply bi_later_mixin_id, hProp_mixin. done. Qed.

Canonical Structure hPropI : bi :=
  {| bi_ofe_mixin := ofe_mixin_of hProp; bi_bi_mixin := hProp_mixin;
     bi_bi_persistently_mixin := hProp_persistently_mixin; bi_bi_later_mixin := hProp_later_mixin |}.

#[global] Instance hProp_pure_forall : BiPureForall hPropI.
Proof. intros A φ. split. intros h H. exact H. Qed.
End logic.
Arguments hProp : clear implicits.
Arguments hPropI : clear implicits.

(** ** The nodes that are owned *)

Definition points_to {V} (p : loc) (n : node V) : hProp V := HProp (fun h => p ≠ EmptyNode /\ h = {[p := n]}).
Notation "p ↦ n" := (points_to p n) (at level 20, format "p  ↦  n") : bi_scope.
Notation "⟦ φ ⟧" := (bi_affinely ⌜φ⌝)%I (at level 1, format "⟦ φ ⟧") : bi_scope.

(** At least [k] nodes. *)
Definition at_least {V} (k : nat) : hProp V := HProp (fun h => (k <= size h)%nat).

Definition wp {V A} (m : M V A) (Φ : A -> hProp V) : hProp V :=
  HProp (fun h => forall hf, h ##ₘ hf -> exists a h', m (h ∪ hf) = Ok (a, h' ∪ hf) /\ h' ##ₘ hf /\ holds (Φ a) h').

Section rules.
Context {V : Type}.
Implicit Types (P Q : hPropI V) (p : loc) (n : node V).

Lemma hProp_entails P Q : (P ⊢ Q) <-> (forall h, holds P h -> holds Q h).
Proof. split; [by intros [H]|by split]. Qed.

Lemma affine_pure_holds φ h : holds (bi_affinely (PROP := hPropI V) ⌜φ⌝)%I h <-> φ /\ h = ∅.
Proof. split; [by intros [-> H]|by intros [H ->]]. Qed.

Lemma at_least_sep j k : @at_least V j ∗ at_least k ⊢ at_least (j + k).
Proof.
  apply hProp_entails. intros h (h1 & h2 & -> & Hd & H1 & H2). cbn in *. rewrite map_size_disj_union; [lia|done].
Qed.
Lemma at_least_mono j k : (j <= k)%nat -> @at_least V k ⊢ at_least j.
Proof. intros Hjk. apply hProp_entails. cbn. lia. Qed.
Lemma at_least_0 P : P ⊢ at_least 0.
Proof. apply hProp_entails. cbn. lia. Qed.
Lemma points_to_at_least p n : p ↦ n ⊢ at_least 1.
Proof. apply hProp_entails. intros h [_ ->]. cbn. by rewrite map_size_singleton. Qed.

Lemma points_to_ne p n q o : p ↦ n -∗ q ↦ o -∗ ⟦p ≠ q⟧ ∗ p ↦ n ∗ q ↦ o.
Proof.
  apply bi.entails_wand, bi.wand_intro_r, hProp_entails. intros h (h1 & h2 & -> & Hd & [Hp ->] & [Hq ->]).
  exists ∅, ({[p := n]} ∪ {[q := o]}). rewrite left_id_L. split_and!; [done|apply map_disjoint_empty_l| |].
  - apply affine_pure_holds. split; [|done]. intros ->. by apply map_disjoint_singleton_l in Hd; rewrite lookup_singleton_eq in Hd.
  - by exists {[p := n]}, {[q := o]}.
Qed.
Lemma points_to_not_empty p n : p ↦ n ⊢ ⟦p ≠ EmptyNode⟧ ∗ p ↦ n.
Proof.
  apply hProp_entails. intros h [Hp ->]. exists ∅, {[p := n]}. rewrite left_id_L.
  split_and!; [done|apply map_disjoint_empty_l|by apply affine_pure_holds|done].
Qed.

(** The heaps of [P] are made of the nodes at [l], each once. *)
Definition covers P (l : list loc) : Prop := forall h, holds P h -> NoDup l /\ forall p, p ∈ l <-> p ∈ dom h.

Lemma covers_emp : covers emp%I [].
Proof. intros h ->. split; [constructor|set_solver]. Qed.
Lemma covers_points_to p n : covers (p ↦ n) [p].
Proof. intros h [_ ->]. split; [by apply NoDup_singleton|set_solver]. Qed.
Lemma covers_sep P Q l k : covers P l -> covers Q k -> covers (P ∗ Q)%I (l ++ k).
Proof.
  intros HP HQ h (h1 & h2 & -> & Hd & H1 & H2). destruct (HP _ H1) as [N1 E1], (HQ _ H2) as [N2 E2]. split.
  - apply NoDup_app. split_and!; [done| |done]. intros p Hp1%E1 Hp2%E2. apply map_disjoint_dom in Hd. set_solver.
  - intros p. rewrite elem_of_app E1 E2. set_solver.
Qed.
Lemma covers_pure φ P l : covers P l -> covers (bi_affinely ⌜φ⌝ ∗ P)%I l.
Proof.
  intros HP h (h1 & h2 & -> & _ & [_ ->]%affine_pure_holds & H2). rewrite left_id_L. by apply HP.
Qed.
Lemma covers_exist {X} (Φ : X -> hPropI V) l : (forall x, covers (Φ x) l) -> covers (∃ x, Φ x)%I l.
Proof. intros HΦ h [x H]. by apply (HΦ x). Qed.
Lemma covers_equiv P Q l : (P ⊣⊢ Q) -> covers Q l -> covers P l.
Proof. intros HPQ HQ h H. apply HQ. by apply (proj1 (hProp_entails P Q)); [rewrite HPQ|]. Qed.
Lemma covers_nodup P l : covers P l -> P ⊢ ⟦NoDup l⟧ ∗ P.
Proof.
  intros HP. apply hProp_entails. intros h H. exists ∅, h. rewrite left_id_L.
  split_and!; [done|apply map_disjoint_empty_l| |done]. apply affine_pure_holds. split; [|done]. by destruct (HP h H).
Qed.

Section wp.
Context {A B : Type}.
Implicit Types (m : M V A) (Φ Ψ : A -> hPropI V).

Lemma wp_ret (a : A) Φ : Φ a ⊢ wp (ret a) Φ.
Proof. apply hProp_entails. intros h H hf Hd. by exists a, h. Qed.

Lemma wp_bind m (k : A -> M V B) (Φ : B -> hPropI V) : wp m (fun a => wp (k a) Φ) ⊢ wp (bind m k) Φ.
Proof.
  apply hProp_entails. intros h H hf Hd. destruct (H hf Hd) as (a & h1 & E1 & Hd1 & H1).
  destruct (H1 hf Hd1) as (b & h2 & E2 & Hd2 & H2). exists b, h2. unfold bind. by rewrite E1.
Qed.

Lemma wp_wand m Φ Ψ : wp m Φ -∗ (∀ a, Φ a -∗ Ψ a) -∗ wp m Ψ.
Proof.
  apply bi.entails_wand, bi.wand_intro_r, hProp_entails. intros h (h1 & h2 & -> & Hd & H & HΨ) hf Hdf.
  apply map_disjoint_union_l in Hdf as [Hd1 Hd2].
  destruct (H (h2 ∪ hf)) as (a & h' & E & Hd' & H'). { by apply map_disjoint_union_r. }
  apply map_disjoint_union_r in Hd' as [Hd2' Hdf'].
  exists a, (h' ∪ h2). rewrite -!assoc_L. split_and!; [done|by apply map_disjoint_union_l|].
  rewrite (map_union_comm h' h2); [|done]. by apply HΨ.
Qed.

Lemma wp_lift (r : result A) a Φ : r = Ok a -> Φ a ⊢ wp (lift r) Φ.
Proof. intros ->. apply hProp_entails. intros h H hf Hd. by exists a, h. Qed.
End wp.

Lemma wp_check (c : bool) (Φ : unit -> hPropI V) : c = true -> Φ tt ⊢ wp (check c) Φ.
Proof. intros ->. by apply wp_lift. Qed.

Lemma wp_load p n (Φ : node V -> hPropI V) : p ↦ n -∗ (p ↦ n -∗ Φ n) -∗ wp (load p) Φ.
Proof.
  apply bi.entails_wand, bi.wand_intro_r, hProp_entails. intros h (h1 & h2 & -> & Hd & [Hp ->] & HΦ) hf Hdf.
  exists n, ({[p := n]} ∪ h2). split_and!; [|done|rewrite map_union_comm; [by apply HΦ|done]].
  unfold load. rewrite decide_False; [|done]. by rewrite -assoc_L lookup_union_l' ?lookup_singleton_eq //; eexists.
Qed.

Lemma wp_load_empty (Φ : node V -> hPropI V) : Φ empty_node ⊢ wp (load EmptyNode) Φ.
Proof. apply hProp_entails. intros h H hf Hd. by exists empty_node, h. Qed.

Lemma wp_store p n o (Φ : unit -> hPropI V) : p ↦ n -∗ (p ↦ o -∗ Φ tt) -∗ wp (store p o) Φ.
Proof.
  apply bi.entails_wand, bi.wand_intro_r, hProp_entails. intros h (h1 & h2 & -> & Hd & [Hp ->] & HΦ) hf Hdf.
  apply map_disjoint_union_l in Hdf as [Hdf1 Hdf2]. rewrite map_disjoint_singleton_l in Hd.
  rewrite map_disjoint_singleton_l in Hdf1.
  exists tt, (h2 ∪ {[p := o]}). split_and!.
  - unfold store. rewrite decide_False; [|done]. rewrite -assoc_L lookup_union_l' ?lookup_singleton_eq /=; [|by eexists].
    do 2 f_equal. rewrite insert_union_l insert_singleton_eq (map_union_comm h2 {[p := o]}); [by rewrite assoc_L|].
    by apply map_disjoint_singleton_r.
  - apply map_disjoint_union_l. split; [done|by apply map_disjoint_singleton_l].
  - apply HΦ; [by apply map_disjoint_singleton_r|done].
Qed.

Lemma wp_modify p n f (Φ : unit -> hPropI V) : p ↦ n -∗ (p ↦ f n -∗ Φ tt) -∗ wp (modify p f) Φ.
Proof.
  iIntros "Hp HΦ". iApply wp_bind. iApply (wp_load with "Hp"). iIntros "Hp". iApply (wp_store with "Hp HΦ").
Qed.

(** A bound on the number of nodes that are there. *)
Lemma wp_heap_fuel P k (Φ : nat -> hPropI V) :
  (P ⊢ at_least k) -> P -∗ (∀ f, ⟦(k < f)%nat⟧ -∗ P -∗ Φ f) -∗ wp btree_node.heap_fuel Φ.
Proof.
  intros Hk. apply bi.entails_wand, bi.wand_intro_r, hProp_entails.
  intros h (h1 & h2 & -> & Hd & HP & HΦ) hf Hdf. eexists _, (h2 ∪ h1). split_and!.
  - unfold btree_node.heap_fuel. by rewrite (map_union_comm h1 h2).
  - by rewrite map_union_comm.
  - assert (k <= size h1)%nat by by destruct Hk as [Hk]; apply Hk.
    rewrite (map_union_comm h2 h1); [|done]. set (f := S _).
    pose proof (HΦ f ∅ (map_disjoint_empty_r _)) as Hf. rewrite right_id_L in Hf.
    rewrite (map_union_comm h1 h2); [|done]. apply Hf; [|done|done].
    apply affine_pure_holds. split; [|done]. subst f.
    rewrite (map_size_disj_union (h1 ∪ h2)); [|done]. rewrite (map_size_disj_union h1); [lia|done].
Qed.

(** [wp_run]: from a proof to an execution. *)
Lemma wp_run {A} (m : M V A) Φ h : holds (wp m Φ) h -> exists a h', m h = Ok (a, h') /\ holds (Φ a) h'.
Proof.
  intros H. destruct (H ∅) as (a & h' & E & _ & H'). { apply map_disjoint_empty_r. }
  rewrite !right_id_L in E. by exists a, h'.
Qed.
End rules.

Section allocation.
Context {K V : Type} `{BtreeParams K V} `{Allocator} `{!AllocatorLaws}.
Implicit Types (p : loc) (n : node V).

Lemma wp_allocate a b (Φ : loc -> hPropI V) :
  (∀ p, p ↦ mkNode EmptyNode 0 0 0 1 (replicate (Z.to_nat a) Raw) (replicate (Z.to_nat b) None) -∗ Φ p) ⊢
  wp (btree_node.allocate a b) Φ.
Proof.
  apply hProp_entails. intros h HΦ hf Hd. unfold btree_node.allocate.
  set (p := new_address _). set (n := mkNode _ _ _ _ _ _ _).
  assert (p ∉ {[EmptyNode]} ∪ dom (h ∪ hf)) as Hp by apply new_address_fresh.
  apply not_elem_of_union in Hp as [Hp%not_elem_of_singleton Hh].
  apply not_elem_of_dom, lookup_union_None in Hh as [Hh Hhf].
  exists p, (h ∪ {[p := n]}). split_and!.
  - rewrite insert_union_singleton_l assoc_L (map_union_comm {[p := n]} h); [done|].
    by apply map_disjoint_singleton_l.
  - apply map_disjoint_union_l. split; [done|by apply map_disjoint_singleton_l].
  - apply HΦ; [by apply map_disjoint_singleton_r|done].
Qed.

Lemma wp_deallocate a b p n (Φ : unit -> hPropI V) :
  Forall (eq Raw) (values_ n) -> Z.of_nat (length (values_ n)) = a -> Z.of_nat (length (children_ n)) = b ->
  p ↦ n -∗ Φ tt -∗ wp (btree_node.deallocate a b p) Φ.
Proof.
  intros Hraw Ha Hb. iIntros "Hp HΦ". iApply wp_bind.
  iDestruct (points_to_not_empty with "Hp") as "[%Hp Hp]".
  iApply (wp_load with "Hp"). iIntros "Hp".
  rewrite bool_decide_false; [|done]. rewrite Ha Hb !Z.eqb_refl.
  assert (forallb btree_node.is_raw (values_ n) = true) as ->.
  { apply forallb_forall. intros s Hs. apply list_elem_of_In in Hs. by rewrite -(proj1 (Forall_forall _ _) Hraw s Hs). }
  cbn [negb andb]. iStopProof. apply hProp_entails.
  intros h (h2 & h1 & -> & Hd & HΦ & [_ ->]) hf Hdf. exists tt, h2.
  apply map_disjoint_union_l in Hdf as [Hd2 Hd1]. rewrite map_disjoint_singleton_r in Hd. rewrite map_disjoint_singleton_l in Hd1.
  split_and!; [|done|done]. do 2 f_equal. rewrite (map_union_comm h2); [|by apply map_disjoint_singleton_r].
  rewrite -assoc_L -insert_union_singleton_l delete_insert_id //. by apply lookup_union_None.
Qed.
End allocation.

(** * rules for the methods of a node (lemmas for BtreeNode.v)

    The rules give what each method does to the nodes it touches, in the logic
    of HeapLogic.v. *)

Import btree_node.
#[local] Open Scope Z_scope.

(** What btree.h asserts of the parameters at compile time, but that
    [field_type] has to hold the number of children as well. *)
Class BtreeLaws K V `{BtreeParams K V} := {
  kNodeSlots_min : 4 <= kNodeSlots;
  kNodeSlots_max : kNodeSlots + 1 < 2 ^ field_bits;
  kNodeSlots_int : kNodeSlots < 2 ^ 31;
  field_bits_pos : 0 < field_bits;
}.

Section rules.
Context {K V : Type} `{PB : BtreeParams K V} {LB : BtreeLaws K V} `{AL : Allocator} {FL : AllocatorLaws}.
Implicit Types (p q : loc) (n : node V) (Φ : Z -> hPropI V).

Definition slots_max : nat := Z.to_nat kNodeSlots.

Lemma field_id z : 0 <= z <= kNodeSlots + 1 -> field z = z.
Proof. intros Hz. pose proof kNodeSlots_max. apply Z.mod_small. lia. Qed.

Lemma slots_max_Z : Z.of_nat slots_max = kNodeSlots.
Proof. pose proof kNodeSlots_min. unfold slots_max. lia. Qed.

(** *** Loops *)

Lemma wp_for_loop {A} (i : nat -> A) (k fuel : nat) cond next body (I : nat -> hPropI V) :
  (k < fuel)%nat ->
  (forall j, (j < k)%nat -> next (i j) = i (S j)) ->
  (forall j, (j <= k)%nat -> I j ⊢ wp (cond (i j)) (λ b, ⟦b = bool_decide (j < k)%nat⟧ ∗ I j)) ->
  (forall j, (j < k)%nat -> I j ⊢ wp (body (i j)) (λ _, I (S j))) ->
  I O ⊢ wp (for_loop fuel cond next body (i O)) (λ _, I k).
Proof.
  intros Hfuel Hnext Hcond Hbody.
  assert (Hgen : forall d j, (d + j = k)%nat -> forall f, (d < f)%nat -> I j ⊢ wp (for_loop f cond next body (i j)) (λ _, I k)).
  { induction d as [|d IH]; intros j Hj f Hf; (destruct f as [|f]; [lia|]); cbn [for_loop];
      (iIntros "HI"; iApply wp_bind; iPoseProof (Hcond with "HI") as "Hc"; [lia|]; iApply (wp_wand with "Hc");
       iIntros (b) "[-> HI]").
    - rewrite bool_decide_false; [|lia]. cbn in Hj. subst j. by iApply wp_ret.
    - rewrite bool_decide_true; [|lia]. iApply wp_bind. iApply (wp_wand with "[HI]").
      + iApply (Hbody with "HI"). lia.
      + iIntros (_) "HI". rewrite Hnext; [|lia]. iApply (IH with "HI"); lia. }
  apply (Hgen k O); lia.
Qed.

(** *** Fields *)
Section fields.
Context (p par : loc) (pos fin cap : Z) (ss : list (slot V)) (cs : list (option loc)).
Let n := mkNode par pos 0 fin cap ss cs.

Lemma wp_finish Φ : p ↦ n -∗ (p ↦ n -∗ Φ fin) -∗ wp (finish p) Φ.
Proof using Type. iIntros "Hp HΦ". iApply wp_bind. iApply (wp_load with "Hp"). iIntros "Hp". iApply wp_ret. by iApply "HΦ". Qed.
Lemma wp_position Φ : p ↦ n -∗ (p ↦ n -∗ Φ pos) -∗ wp (position p) Φ.
Proof using Type. iIntros "Hp HΦ". iApply wp_bind. iApply (wp_load with "Hp"). iIntros "Hp". iApply wp_ret. by iApply "HΦ". Qed.
Lemma wp_parent (Ψ : loc -> hPropI V) : p ↦ n -∗ (p ↦ n -∗ Ψ par) -∗ wp (parent p) Ψ.
Proof using Type. iIntros "Hp HΦ". iApply wp_bind. iApply (wp_load with "Hp"). iIntros "Hp". iApply wp_ret. by iApply "HΦ". Qed.
Lemma wp_start Φ : p ↦ n -∗ (p ↦ n -∗ Φ 0) -∗ wp (start p) Φ.
Proof using Type.
  iIntros "Hp HΦ". iApply wp_bind. iApply (wp_load with "Hp"). iIntros "Hp". iApply wp_bind. iApply wp_check; [done|].
  iApply wp_ret. by iApply "HΦ".
Qed.
Lemma wp_count Φ : 0 <= fin <= kNodeSlots + 1 -> p ↦ n -∗ (p ↦ n -∗ Φ fin) -∗ wp (count p) Φ.
Proof.
  intros Hfin. iIntros "Hp HΦ". iApply wp_bind. iApply (wp_finish with "Hp"). iIntros "Hp".
  iApply wp_bind. iApply (wp_start with "Hp"). iIntros "Hp". iApply wp_bind. iApply wp_check; [by apply Z.leb_le; lia|].
  iApply wp_bind. iApply (wp_finish with "Hp"). iIntros "Hp".
  iApply wp_bind. iApply (wp_start with "Hp"). iIntros "Hp". iApply wp_ret.
  rewrite Z.sub_0_r field_id; [|done]. by iApply "HΦ".
Qed.
Lemma wp_is_leaf (Ψ : bool -> hPropI V) : p ↦ n -∗ (p ↦ n -∗ Ψ (negb (cap =? 0))) -∗ wp (is_leaf p) Ψ.
Proof using Type. iIntros "Hp HΦ". iApply wp_bind. iApply (wp_load with "Hp"). iIntros "Hp". iApply wp_ret. by iApply "HΦ". Qed.
Lemma wp_is_internal (Ψ : bool -> hPropI V) : p ↦ n -∗ (p ↦ n -∗ Ψ (cap =? 0)) -∗ wp (is_internal p) Ψ.
Proof using Type.
  iIntros "Hp HΦ". iApply wp_bind. iApply (wp_is_leaf with "Hp"). iIntros "Hp". iApply wp_ret.
  rewrite negb_involutive. by iApply "HΦ".
Qed.
Lemma wp_max_count Φ : p ↦ n -∗ (p ↦ n -∗ Φ (if cap =? 0 then kNodeSlots else cap)) -∗ wp (max_count p) Φ.
Proof.
  iIntros "Hp HΦ". iApply wp_bind. iApply (wp_load with "Hp"). iIntros "Hp". iApply wp_ret. cbn.
  pose proof kNodeSlots_min. rewrite (field_id kNodeSlots); [|lia]. unfold kInternalNodeMaxCount. rewrite field_id; [|lia].
  by iApply "HΦ".
Qed.

Lemma wp_set_parent par' (Ψ : unit -> hPropI V) :
  p ↦ n -∗ (p ↦ mkNode par' pos 0 fin cap ss cs -∗ Ψ tt) -∗ wp (set_parent p par') Ψ.
Proof using Type. iApply wp_modify. Qed.
Lemma wp_set_position pos' (Ψ : unit -> hPropI V) : 0 <= pos' <= kNodeSlots + 1 ->
  p ↦ n -∗ (p ↦ mkNode par pos' 0 fin cap ss cs -∗ Ψ tt) -∗ wp (set_position p pos') Ψ.
Proof. intros Hp. unfold set_position. rewrite field_id; [|done]. iApply wp_modify. Qed.
Lemma wp_set_finish fin' (Ψ : unit -> hPropI V) : 0 <= fin' <= kNodeSlots + 1 ->
  p ↦ n -∗ (p ↦ mkNode par pos 0 fin' cap ss cs -∗ Ψ tt) -∗ wp (set_finish p fin') Ψ.
Proof. intros Hp. unfold set_finish. rewrite field_id; [|done]. iApply wp_modify. Qed.

(** *** Children *)

Lemma wp_child i c (Ψ : loc -> hPropI V) :
  cap = 0 -> 0 <= i -> cs !! Z.to_nat i = Some (Some c) -> p ↦ n -∗ (p ↦ n -∗ Ψ c) -∗ wp (child p i) Ψ.
Proof using Type.
  intros -> Hi Hc. iIntros "Hp HΨ". iApply wp_bind. iApply (wp_load with "Hp"). iIntros "Hp".
  iApply wp_bind. iApply wp_check; [done|]. iApply wp_bind. iApply (wp_lift _ (Some c)).
  { unfold at_index. rewrite (proj2 (Z.leb_le 0 i)); [|done]. cbn. by rewrite Hc. }
  iApply wp_lift; [done|]. by iApply "HΨ".
Qed.

Lemma wp_set_mutable_child i o (Ψ : unit -> hPropI V) :
  cap = 0 -> 0 <= i < Z.of_nat (length cs) ->
  p ↦ n -∗ (p ↦ mkNode par pos 0 fin cap ss (<[Z.to_nat i := o]> cs) -∗ Ψ tt) -∗ wp (set_mutable_child p i o) Ψ.
Proof using Type.
  intros -> Hi. iIntros "Hp HΨ". iApply wp_bind. iApply (wp_load with "Hp"). iIntros "Hp".
  iApply wp_bind. iApply wp_check; [done|]. iApply wp_bind.
  destruct (at_index_ok cs i) as (c & Hc & _); [lia|]. iApply (wp_lift _ c); [done|].
  iApply (wp_store with "Hp"). iIntros "Hp". by iApply "HΨ".
Qed.
End fields.

(** *** Slots *)
Section slots.
Context (p par : loc) (pos fin cap : Z) (cs : list (option loc)).
Let nd (ss : list (slot V)) : node V := mkNode par pos 0 fin cap ss cs.
Implicit Types (A B R : list (slot V)) (v : V).

Lemma at_index_middle {X} (A B : list X) x i : i = Z.of_nat (length A) -> at_index (A ++ x :: B) i = Ok x.
Proof using Type.
  intros ->. unfold at_index. rewrite (proj2 (Z.leb_le 0 _)); [|lia]. by rewrite Nat2Z.id list_lookup_middle.
Qed.
Lemma insert_middle {X} (A B : list X) x y i : i = length A -> <[i := y]> (A ++ x :: B) = A ++ y :: B.
Proof using Type. intros ->. by rewrite -{1}(Nat.add_0_r (length A)) insert_app_r. Qed.

Lemma wp_value A B v i (Ψ : V -> hPropI V) : i = Z.of_nat (length A) ->
  p ↦ nd (A ++ Live v :: B) -∗ (p ↦ nd (A ++ Live v :: B) -∗ Ψ v) -∗ wp (value p i) Ψ.
Proof using Type.
  intros Hi. iIntros "Hp HΨ". iApply wp_bind. iApply (wp_load with "Hp"). iIntros "Hp". iApply wp_bind.
  iApply wp_lift; [by apply at_index_middle|]. iApply wp_ret. by iApply "HΨ".
Qed.

Lemma wp_set_slot A B s s' i (Ψ : unit -> hPropI V) : i = Z.of_nat (length A) ->
  p ↦ nd (A ++ s :: B) -∗ (p ↦ nd (A ++ s' :: B) -∗ Ψ tt) -∗ wp (set_slot p i s') Ψ.
Proof using Type.
  intros Hi. iIntros "Hp HΨ". iApply wp_bind. iApply (wp_load with "Hp"). iIntros "Hp". iApply wp_bind.
  iApply wp_lift; [by apply at_index_middle|]. iApply (wp_store with "Hp"). unfold with_values. cbn.
  rewrite insert_middle; [|lia]. iApply "HΨ".
Qed.

Lemma wp_construct A B v i (Ψ : unit -> hPropI V) : i = Z.of_nat (length A) ->
  p ↦ nd (A ++ Raw :: B) -∗ (p ↦ nd (A ++ Live v :: B) -∗ Ψ tt) -∗ wp (construct p i v) Ψ.
Proof using Type.
  intros Hi. iIntros "Hp HΨ". iApply wp_bind. iApply (wp_load with "Hp"). iIntros "Hp". iApply wp_bind.
  iApply wp_lift; [by apply at_index_middle|]. by iApply (wp_set_slot with "Hp HΨ").
Qed.

Lemma wp_destroy A B s i (Ψ : unit -> hPropI V) : i = Z.of_nat (length A) -> s ≠ Raw ->
  p ↦ nd (A ++ s :: B) -∗ (p ↦ nd (A ++ Raw :: B) -∗ Ψ tt) -∗ wp (destroy p i) Ψ.
Proof using Type.
  intros Hi Hs. iIntros "Hp HΨ". iApply wp_bind. iApply (wp_load with "Hp"). iIntros "Hp". iApply wp_bind.
  iApply wp_lift; [by apply at_index_middle|]. destruct s; [done|..]; by iApply (wp_set_slot with "Hp HΨ").
Qed.

Lemma wp_move_out A B v i (Ψ : V -> hPropI V) : i = Z.of_nat (length A) ->
  p ↦ nd (A ++ Live v :: B) -∗ (p ↦ nd (A ++ Moved :: B) -∗ Ψ v) -∗ wp (move_out p i) Ψ.
Proof using Type.
  intros Hi. iIntros "Hp HΨ". iApply wp_bind. iApply (wp_value with "Hp"); [done|]. iIntros "Hp".
  iApply wp_bind. iApply (wp_set_slot with "Hp"); [done|]. iIntros "Hp". iApply wp_ret. by iApply "HΨ".
Qed.

(** Within one node, down and up. *)
Lemma wp_transfer_down A R B v i j (Ψ : unit -> hPropI V) :
  i = Z.of_nat (length A) -> j = Z.of_nat (length A + S (length R)) ->
  p ↦ nd (A ++ Raw :: R ++ Live v :: B) -∗ (p ↦ nd (A ++ Live v :: R ++ Raw :: B) -∗ Ψ tt) -∗ wp (transfer p i p j) Ψ.
Proof using Type.
  intros Hi Hj. iIntros "Hp HΨ". iApply wp_bind. iApply wp_bind. iEval (rewrite app_comm_cons assoc) in "Hp".
  iApply (wp_move_out with "Hp"). { rewrite length_app /=. lia. }
  iIntros "Hp". iEval (rewrite -assoc -app_comm_cons) in "Hp". iApply (wp_construct with "Hp"); [done|]. iIntros "Hp".
  iEval (rewrite app_comm_cons assoc) in "Hp". iApply (wp_destroy with "Hp"); [rewrite length_app /=; lia|done|].
  iIntros "Hp". iEval (rewrite -assoc -app_comm_cons) in "Hp". by iApply "HΨ".
Qed.

Lemma wp_transfer_up A R B v i j (Ψ : unit -> hPropI V) :
  i = Z.of_nat (length A + S (length R)) -> j = Z.of_nat (length A) ->
  p ↦ nd (A ++ Live v :: R ++ Raw :: B) -∗ (p ↦ nd (A ++ Raw :: R ++ Live v :: B) -∗ Ψ tt) -∗ wp (transfer p i p j) Ψ.
Proof using Type.
  intros Hi Hj. iIntros "Hp HΨ". iApply wp_bind. iApply wp_bind.
  iApply (wp_move_out with "Hp"); [done|]. iIntros "Hp". iEval (rewrite app_comm_cons assoc) in "Hp".
  iApply (wp_construct with "Hp"). { rewrite length_app /=. lia. }
  iIntros "Hp". iEval (rewrite -assoc -app_comm_cons) in "Hp". by iApply (wp_destroy with "Hp").
Qed.

Lemma wp_slot_range ss i k (Ψ : unit -> hPropI V) : 0 <= i -> 0 <= k -> i + k <= Z.of_nat (length ss) ->
  p ↦ nd ss -∗ (p ↦ nd ss -∗ Ψ tt) -∗ wp (slot_range p i k) Ψ.
Proof using Type.
  intros Hi Hk Hik. iIntros "Hp HΨ". iApply wp_bind. iApply (wp_load with "Hp"). iIntros "Hp". cbn.
  rewrite (proj2 (Z.leb_le 0 i)) // (proj2 (Z.leb_le 0 k)) // (proj2 (Z.leb_le (i + k) _)) //. iApply wp_ret. by iApply "HΨ".
Qed.

(** Destroying a run of values. *)
Lemma wp_value_destroy_n A B (xs : list (slot V)) i k (Ψ : unit -> hPropI V) :
  i = Z.of_nat (length A) -> k = Z.of_nat (length xs) -> Raw ∉ xs ->
  p ↦ nd (A ++ xs ++ B) -∗ (p ↦ nd (A ++ replicate (length xs) Raw ++ B) -∗ Ψ tt) -∗ wp (value_destroy_n p i k) Ψ.
Proof using Type.
  intros -> -> Hxs. iIntros "Hp HΨ".
  iPoseProof (wp_for_loop (λ j, Z.of_nat (length A) + Z.of_nat j) (length xs) (S (Z.to_nat (Z.of_nat (length xs))))
    (λ j, ret (negb (j =? Z.of_nat (length A) + Z.of_nat (length xs)))) Z.succ (destroy p)
    (λ j, p ↦ nd (A ++ replicate j Raw ++ drop j xs ++ B))%I with "[Hp]") as "Hw"; [lia|lia| | |by iFrame|].
  - intros j Hj. iIntros "Hp". iApply wp_ret. iFrame. iPureIntro.
    destruct (Z.eqb_spec (Z.of_nat (length A) + Z.of_nat j) (Z.of_nat (length A) + Z.of_nat (length xs))); case_bool_decide; lia || done.
  - intros j Hj. iIntros "Hp". destruct (lookup_lt_is_Some_2 xs j Hj) as [x Hx].
    rewrite (drop_S _ _ _ Hx) -app_comm_cons. iEval (rewrite (assoc _ A)) in "Hp".
    iApply (wp_destroy with "Hp"). { rewrite length_app length_replicate. lia. }
    { intros ->. by apply Hxs, (list_elem_of_lookup_2 _ j). }
    iIntros "Hp". by rewrite replicate_S_end -!assoc.
  - rewrite Z.add_0_r. iApply (wp_wand with "Hw"). iIntros ([]) "Hp". rewrite drop_all. by iApply "HΨ".
Qed.
End slots.

(** *** Moving runs of values *)

Lemma replicate_raw g (B : list (slot V)) : replicate g Raw ++ Raw :: B = Raw :: replicate g Raw ++ B.
Proof using Type. by rewrite app_comm_cons replicate_cons_app -assoc. Qed.

(** Within one node: over a gap, down with [transfer_n] and up with
    [transfer_n_backward]. *)
Lemma wp_transfer_n_down p par pos fin cap cs (A B : list (slot V)) (xs : list V) g k i j (Ψ : unit -> hPropI V) :
  k = Z.of_nat (length xs) -> i = Z.of_nat (length A) -> j = Z.of_nat (length A + g) -> (0 < g)%nat ->
  p ↦ mkNode par pos 0 fin cap (A ++ replicate g Raw ++ (Live <$> xs) ++ B) cs -∗
  (p ↦ mkNode par pos 0 fin cap (A ++ (Live <$> xs) ++ replicate g Raw ++ B) cs -∗ Ψ tt) -∗
  wp (transfer_n p k i j p) Ψ.
Proof using Type.
  intros -> -> -> Hg. iIntros "Hp HΨ". iApply wp_bind. iApply (wp_slot_range with "Hp"); [lia|lia| |].
  { rewrite !length_app length_replicate length_fmap. lia. }
  iIntros "Hp". iApply wp_bind. iApply (wp_slot_range with "Hp"); [lia|lia| |].
  { rewrite !length_app length_replicate length_fmap. lia. }
  iIntros "Hp". set (I j := (p ↦ mkNode par pos 0 fin cap
    ((A ++ (Live <$> take j xs)) ++ replicate g Raw ++ (Live <$> drop j xs) ++ B) cs)%I).
  iPoseProof (wp_for_loop Z.of_nat (length xs) _ _ Z.succ _ I with "[Hp]") as "Hw"; [|lia| | |by rewrite /I /= app_nil_r|].
  4: { iApply (wp_wand with "Hw"). iIntros ([]) "Hp". rewrite /I take_ge // drop_ge //= -assoc. by iApply "HΨ". }
  - lia.
  - intros j Hj. iIntros "Hp". iApply wp_ret. iFrame. iPureIntro.
    destruct (Z.eqb_spec (Z.of_nat j) (Z.of_nat (length xs))); case_bool_decide; lia || done.
  - intros j Hj. rewrite /I. destruct (lookup_lt_is_Some_2 xs j Hj) as [x Hx].
    destruct g as [|g]; [lia|]. rewrite (drop_S _ _ _ Hx) (take_S_r _ _ _ Hx). cbn [replicate fmap list_fmap app].
    iIntros "Hp". iApply (wp_transfer_down with "Hp").
    + rewrite length_app length_fmap length_take. lia.
    + rewrite length_app length_fmap length_take length_replicate. lia.
    + rewrite replicate_raw. iIntros "Hp". by rewrite fmap_app -!assoc.
Qed.

Lemma wp_transfer_n_up p par pos fin cap cs (A B : list (slot V)) (xs : list V) g k i j (Ψ : unit -> hPropI V) :
  k = Z.of_nat (length xs) -> i = Z.of_nat (length A + g) -> j = Z.of_nat (length A) -> (0 < g)%nat ->
  p ↦ mkNode par pos 0 fin cap (A ++ (Live <$> xs) ++ replicate g Raw ++ B) cs -∗
  (p ↦ mkNode par pos 0 fin cap (A ++ replicate g Raw ++ (Live <$> xs) ++ B) cs -∗ Ψ tt) -∗
  wp (transfer_n_backward p k i j p) Ψ.
Proof using Type.
  intros -> -> -> Hg. iIntros "Hp HΨ". iApply wp_bind. iApply (wp_slot_range with "Hp"); [lia|lia| |].
  { rewrite !length_app length_replicate length_fmap. lia. }
  iIntros "Hp". iApply wp_bind. iApply (wp_slot_range with "Hp"); [lia|lia| |].
  { rewrite !length_app length_replicate length_fmap. lia. }
  iIntros "Hp". set (n := length xs). set (I j := (p ↦ mkNode par pos 0 fin cap
    ((A ++ (Live <$> take (n - j) xs)) ++ replicate g Raw ++ (Live <$> drop (n - j) xs) ++ B) cs)%I).
  iPoseProof (wp_for_loop (λ j, Z.of_nat (n - j)) n _ _ Z.pred _ I with "[Hp]") as "Hw"; [|lia| | | |].
  5: { rewrite Nat.sub_0_r. iApply (wp_wand with "Hw"). iIntros ([]) "Hp". rewrite /I Nat.sub_diag /= app_nil_r.
       by iApply "HΨ". }
  - subst n. lia.
  - intros j Hj. iIntros "Hp". iApply wp_ret. iFrame. iPureIntro.
    destruct (Z.eqb_spec (Z.of_nat (n - j)) 0); case_bool_decide; lia || done.
  - intros j Hj. rewrite /I. destruct (lookup_lt_is_Some_2 xs (n - S j)) as [x Hx]; [lia|].
    destruct g as [|g]; [lia|]. replace (n - j)%nat with (S (n - S j)) by lia.
    rewrite (drop_S _ _ _ Hx) (take_S_r _ _ _ Hx). cbn [replicate fmap list_fmap app].
    rewrite fmap_app -replicate_raw. iIntros "Hp". iEval (cbn [fmap list_fmap]; rewrite (assoc _ A) -(assoc _ _ [_])) in "Hp".
    iApply (wp_transfer_up with "Hp").
    + rewrite length_app length_fmap length_take length_replicate. lia.
    + rewrite length_app length_fmap length_take. lia.
    + iIntros "Hp". cbn. by rewrite -replicate_raw.
  - rewrite /I Nat.sub_0_r take_ge // drop_ge //= -assoc. iExact "Hp".
Qed.

(** From one node to another. *)
Section two_nodes.
Context (p par : loc) (pos fin cap : Z) (cs : list (option loc)) (q qpar : loc) (qpos qfin qcap : Z) (qcs : list (option loc)).
Let nd (ss : list (slot V)) : node V := mkNode par pos 0 fin cap ss cs.
Let nq (ss : list (slot V)) : node V := mkNode qpar qpos 0 qfin qcap ss qcs.
Implicit Types (A B C D : list (slot V)) (v : V) (xs : list V).

Lemma wp_value_init_from A B C D v i j (Ψ : unit -> hPropI V) :
  i = Z.of_nat (length C) -> j = Z.of_nat (length A) ->
  p ↦ nd (C ++ Raw :: D) -∗ q ↦ nq (A ++ Live v :: B) -∗
  (p ↦ nd (C ++ Live v :: D) -∗ q ↦ nq (A ++ Moved :: B) -∗ Ψ tt) -∗ wp (value_init_from p i q j) Ψ.
Proof using Type.
  intros Hi Hj. iIntros "Hp Hq HΨ". iApply wp_bind. iApply (wp_move_out with "Hq"); [done|]. iIntros "Hq".
  iApply (wp_construct with "Hp"); [done|]. iIntros "Hp". iApply ("HΨ" with "Hp Hq").
Qed.

Lemma wp_transfer A B C D v i j (Ψ : unit -> hPropI V) :
  i = Z.of_nat (length C) -> j = Z.of_nat (length A) ->
  p ↦ nd (C ++ Raw :: D) -∗ q ↦ nq (A ++ Live v :: B) -∗
  (p ↦ nd (C ++ Live v :: D) -∗ q ↦ nq (A ++ Raw :: B) -∗ Ψ tt) -∗ wp (transfer p i q j) Ψ.
Proof using Type.
  intros Hi Hj. iIntros "Hp Hq HΨ". iApply wp_bind. iApply (wp_value_init_from with "Hp Hq"); [done|done|].
  iIntros "Hp Hq". iApply (wp_destroy with "Hq"); [done|done|]. iApply ("HΨ" with "Hp").
Qed.

Lemma wp_transfer_n A B C D xs k i j (Ψ : unit -> hPropI V) :
  k = Z.of_nat (length xs) -> i = Z.of_nat (length C) -> j = Z.of_nat (length A) ->
  p ↦ nd (C ++ replicate (length xs) Raw ++ D) -∗ q ↦ nq (A ++ (Live <$> xs) ++ B) -∗
  (p ↦ nd (C ++ (Live <$> xs) ++ D) -∗ q ↦ nq (A ++ replicate (length xs) Raw ++ B) -∗ Ψ tt) -∗
  wp (transfer_n p k i j q) Ψ.
Proof using Type.
  intros -> -> ->. iIntros "Hp Hq HΨ". iApply wp_bind. iApply (wp_slot_range with "Hq"); [lia|lia| |].
  { rewrite !length_app length_fmap. lia. }
  iIntros "Hq". iApply wp_bind. iApply (wp_slot_range with "Hp"); [lia|lia| |].
  { rewrite !length_app length_replicate. lia. }
  iIntros "Hp". set (n := length xs).
  set (I j := (p ↦ nd ((C ++ (Live <$> take j xs)) ++ replicate (n - j) Raw ++ D) ∗
               q ↦ nq ((A ++ replicate j Raw) ++ (Live <$> drop j xs) ++ B))%I).
  iPoseProof (wp_for_loop Z.of_nat n _ _ Z.succ _ I with "[Hp Hq]") as "Hw"; [|lia| | | |].
  5: { iApply (wp_wand with "Hw"). iIntros ([]) "[Hp Hq]". rewrite Nat.sub_diag take_ge // drop_ge //= -!assoc.
       iApply ("HΨ" with "Hp Hq"). }
  - subst n. lia.
  - intros j Hj. iIntros "Hp". iApply wp_ret. iFrame. iPureIntro.
    destruct (Z.eqb_spec (Z.of_nat j) (Z.of_nat n)); case_bool_decide; lia || done.
  - intros j Hj. rewrite /I. destruct (lookup_lt_is_Some_2 xs j Hj) as [x Hx].
    rewrite (drop_S _ _ _ Hx) (take_S_r _ _ _ Hx). replace (n - j)%nat with (S (n - S j)) by lia.
    cbn [replicate fmap list_fmap app]. iIntros "[Hp Hq]". iApply (wp_transfer with "Hp Hq").
    + rewrite length_app length_fmap length_take. lia.
    + rewrite length_app length_replicate. lia.
    + iIntros "Hp Hq". rewrite fmap_app -!assoc /= replicate_raw. iFrame.
  - rewrite /I /= !app_nil_r Nat.sub_0_r. iFrame.
Qed.
End two_nodes.
End rules.
