(* ===== verification/BtreeTree.v ===== *)
(** * BtreeTree: nodes in order, and trees of them (lemmas for BtreeNode.v)

    [own_node p par pos cap vs cs]: at [p] is a node in order, with the values
    [vs] at the beginning of its slots and the children [cs]; [cap] is the
    capacity of a leaf and 0 for an internal node. [own_tree ht par pos t]: the
    nodes of the tree [t], all leaves at depth [ht], below the parent [par]
    at position [pos]. [values_of t] are its values in order. *)

From S2P Require Import Prelude.
From S2P Require Import BtreeNode.
From S2P Require Import HeapLogic.
From iris.proofmode Require Import proofmode.

Import btree_node.
#[local] Open Scope Z_scope.

Inductive tree (V : Type) := Tree (l : loc) (cap : Z) (vs : list V) (ts : list (tree V)).
Arguments Tree {V} l cap vs ts.

Definition root_loc {V} (t : tree V) : loc := match t with Tree l _ _ _ => l end.

(** The values of the children [ts] with those of the node between them. *)
Fixpoint weave {A} (es : list (list A)) (vs : list A) : list A :=
  match es with
  | [] => []
  | e :: es => e ++ match vs with [] => [] | v :: vs => v :: weave es vs end
  end.

Fixpoint values_of {V} (t : tree V) : list V :=
  match t with
  | Tree _ _ vs [] => vs
  | Tree _ _ vs ts => weave (values_of <$> ts) vs
  end.

(** The values at the beginning, the rest raw. *)
Definition slots_of {V} (n : nat) (vs : list V) : list (slot V) := (Live <$> vs) ++ replicate (n - length vs) Raw.

(** The children [cs] from index [i] on. *)
Definition children_at (i : nat) (cs : list loc) (arr : list (option loc)) : Prop :=
  forall j c, cs !! j = Some c -> arr !! (i + j)%nat = Some (Some c).

Section trees.
Context {K V : Type} `{PB : BtreeParams K V} {LB : BtreeLaws K V} `{AL : Allocator} {FL : AllocatorLaws}.
Implicit Types (p q : loc) (t : tree V) (ts : list (tree V)) (vs : list V) (arr : list (option loc)).

Definition capacity (cap : Z) : nat := if cap =? 0 then slots_max else Z.to_nat cap.
Definition child_slots (cap : Z) : nat := if cap =? 0 then S slots_max else O.

Definition own_node p (par : loc) (pos cap : Z) vs (cs : list loc) : hPropI V :=
  ∃ arr, ⟦children_at 0 cs arr /\ length arr = child_slots cap⟧ ∗
    p ↦ mkNode par pos 0 (Z.of_nat (length vs)) cap (slots_of (capacity cap) vs) arr.

Definition tree_ok (ht : nat) (cap : Z) vs ts : Prop :=
  (length vs <= capacity cap)%nat /\
  match ht with O => 0 < cap <= kNodeSlots /\ ts = [] | S _ => cap = 0 /\ length ts = S (length vs) end.

Fixpoint own_tree (ht : nat) (par : loc) (pos : Z) t : hPropI V :=
  match t with
  | Tree l cap vs ts =>
      ⟦tree_ok ht cap vs ts⟧ ∗ own_node l par pos cap vs (root_loc <$> ts) ∗
      match ht with O => emp | S ht => [∗ list] i ↦ t ∈ ts, own_tree ht l (Z.of_nat i) t end
  end.

(** The children of [l] from position [i] on. *)
Definition kids (ht : nat) (l : loc) (i : nat) ts : hPropI V := [∗ list] j ↦ t ∈ ts, own_tree ht l (Z.of_nat (i + j)) t.

Lemma kids_nil ht l i : kids ht l i [] ⊣⊢ emp.
Proof using Type. done. Qed.
Lemma kids_app ht l i ts1 ts2 : kids ht l i (ts1 ++ ts2) ⊣⊢ kids ht l i ts1 ∗ kids ht l (i + length ts1) ts2.
Proof using Type.
  unfold kids. rewrite big_sepL_app. apply bi.sep_proper; [done|]. apply big_sepL_proper. intros j t _.
  by rewrite Nat.add_assoc.
Qed.
Lemma kids_cons ht l i t ts : kids ht l i (t :: ts) ⊣⊢ own_tree ht l (Z.of_nat i) t ∗ kids ht l (S i) ts.
Proof using Type.
  rewrite -(app_nil_l (t :: ts)) (cons_middle t) app_nil_l kids_app {1}/kids /= Nat.add_0_r Nat.add_1_r. by rewrite right_id.
Qed.

(** *** Children in the array *)

Lemma children_at_nil i arr : children_at i [] arr.
Proof using Type. by intros j c Hj. Qed.
Lemma children_at_app i cs1 cs2 arr :
  children_at i (cs1 ++ cs2) arr <-> children_at i cs1 arr /\ children_at (i + length cs1) cs2 arr.
Proof using Type.
  split.
  - intros Hc. split; intros j c Hj.
    + apply Hc. by apply lookup_app_l_Some.
    + rewrite -Nat.add_assoc. apply Hc. rewrite lookup_app_r; [|lia]. by replace (length cs1 + j - length cs1)%nat with j by lia.
  - intros [H1 H2] j c [Hj|[Hl Hj]]%lookup_app_Some; [by apply H1|].
    apply H2 in Hj. by replace (i + length cs1 + (j - length cs1))%nat with (i + j)%nat in Hj by lia.
Qed.
Lemma children_at_cons i c cs arr :
  children_at i (c :: cs) arr <-> arr !! i = Some (Some c) /\ children_at (S i) cs arr.
Proof using Type.
  rewrite -(app_nil_l (c :: cs)) (cons_middle c) app_nil_l children_at_app /= Nat.add_1_r. split; intros [H1 H2]; (split; [|done]).
  - specialize (H1 O c eq_refl). by rewrite Nat.add_0_r in H1.
  - intros [|j] c' Hj; [|done]. injection Hj as <-. by rewrite Nat.add_0_r.
Qed.
Lemma children_at_lookup i cs arr j c : children_at i cs arr -> cs !! j = Some c -> arr !! (i + j)%nat = Some (Some c).
Proof using Type. intros Hc. apply Hc. Qed.
Lemma children_at_insert_ne i cs arr k o : (k < i \/ i + length cs <= k)%nat ->
  children_at i cs arr -> children_at i cs (<[k := o]> arr).
Proof using Type.
  intros Hk Hc j c Hj. rewrite list_lookup_insert_ne; [by apply Hc|]. apply lookup_lt_Some in Hj. lia.
Qed.
Lemma children_at_snoc i cs arr c : (i + length cs < length arr)%nat ->
  children_at i cs arr -> children_at i (cs ++ [c]) (<[(i + length cs)%nat := Some c]> arr).
Proof using Type.
  intros Hl Hc. apply children_at_app. split; [apply children_at_insert_ne; [lia|done]|].
  apply children_at_cons. split; [by apply list_lookup_insert_eq|apply children_at_nil].
Qed.

(** *** The node at the root of a tree *)

Definition kids_below (ht : nat) (l : loc) ts : hPropI V := match ht with O => emp%I | S ht => kids ht l 0 ts end.

Lemma own_tree_unfold ht par pos l cap vs ts :
  own_tree ht par pos (Tree l cap vs ts) ⊣⊢
  ⟦tree_ok ht cap vs ts⟧ ∗ own_node l par pos cap vs (root_loc <$> ts) ∗ kids_below ht l ts.
Proof using Type. by destruct ht. Qed.

Lemma own_tree_ok ht par pos l cap vs ts :
  own_tree ht par pos (Tree l cap vs ts) ⊢ ⟦tree_ok ht cap vs ts⟧ ∗ own_tree ht par pos (Tree l cap vs ts).
Proof using Type. rewrite own_tree_unfold. iIntros "(%Hok & Hl & Hk)". iFrame. by iSplit. Qed.

Fixpoint tree_wf (ht : nat) t : Prop :=
  match t with
  | Tree _ cap vs ts => tree_ok ht cap vs ts /\ match ht with O => True | S ht => Forall (tree_wf ht) ts end
  end.

Lemma kids_wf ht l i ts : (forall par pos t, own_tree ht par pos t ⊢ ⟦tree_wf ht t⟧ ∗ own_tree ht par pos t) ->
  kids ht l i ts ⊢ ⟦Forall (tree_wf ht) ts⟧ ∗ kids ht l i ts.
Proof using Type.
  intros IH. revert i. induction ts as [|t ts IHts]; intros i; [iIntros "Hk"; by iFrame|].
  rewrite kids_cons. iIntros "[Ht Hk]". iDestruct (IH with "Ht") as "[%Ht Ht]".
  iDestruct (IHts with "Hk") as "[%Hts Hk]". iFrame. iPureIntro. by constructor.
Qed.
Lemma own_tree_wf ht par pos t : own_tree ht par pos t ⊢ ⟦tree_wf ht t⟧ ∗ own_tree ht par pos t.
Proof using Type.
  revert par pos t. induction ht as [|ht IH]; intros par pos [l cap vs ts]; rewrite own_tree_unfold; iIntros "(%Hok & Hl & Hk)".
  - iFrame. iPureIntro. done.
  - cbn [kids_below tree_wf]. iFrame "Hl". iDestruct (kids_wf with "Hk") as "[%Hts Hk]"; [done|]. by iFrame.
Qed.

(** The cell of the root can be taken out, and put back with another parent
    and position. *)
Lemma own_tree_cell ht par pos t : own_tree ht par pos t -∗
  ∃ fin cap ss arr, ⟦0 <= fin <= kNodeSlots /\ (cap = 0 <-> ht ≠ O)⟧ ∗
    root_loc t ↦ mkNode par pos 0 fin cap ss arr ∗
    (∀ par' pos', root_loc t ↦ mkNode par' pos' 0 fin cap ss arr -∗ own_tree ht par' pos' t).
Proof.
  destruct t as [l cap vs ts]. rewrite own_tree_unfold. iIntros "(%Hok & (%arr & %Harr & Hl) & Hk)".
  iExists _, _, _, _. iFrame "Hl". iSplitR.
  - iPureIntro. destruct Hok as [Hc Hok]. pose proof kNodeSlots_min. pose proof slots_max_Z. unfold capacity in Hc.
    destruct ht, Hok as [? _]; destruct (Z.eqb_spec cap 0); lia.
  - iIntros (par' pos') "Hl". rewrite own_tree_unfold. iFrame. by iSplit.
Qed.

Section cell.
Context (ht : nat) (par : loc) (pos : Z) (t : tree V).

Lemma wp_tree_set_position pos' (Ψ : unit -> hPropI V) : 0 <= pos' <= kNodeSlots + 1 ->
  own_tree ht par pos t -∗ (own_tree ht par pos' t -∗ Ψ tt) -∗ wp (set_position (root_loc t) pos') Ψ.
Proof.
  intros Hp. iIntros "Ht HΨ". iDestruct (own_tree_cell with "Ht") as (fin cap ss arr) "(_ & Hl & Ht)".
  iApply (wp_set_position with "Hl"); [done|]. iIntros "Hl". iApply "HΨ". by iApply "Ht".
Qed.
Lemma wp_tree_set_parent par' (Ψ : unit -> hPropI V) :
  own_tree ht par pos t -∗ (own_tree ht par' pos t -∗ Ψ tt) -∗ wp (set_parent (root_loc t) par') Ψ.
Proof.
  iIntros "Ht HΨ". iDestruct (own_tree_cell with "Ht") as (fin cap ss arr) "(_ & Hl & Ht)".
  iApply (wp_set_parent with "Hl"). iIntros "Hl". iApply "HΨ". by iApply "Ht".
Qed.
Lemma wp_tree_position (Ψ : Z -> hPropI V) :
  own_tree ht par pos t -∗ (own_tree ht par pos t -∗ Ψ pos) -∗ wp (position (root_loc t)) Ψ.
Proof.
  iIntros "Ht HΨ". iDestruct (own_tree_cell with "Ht") as (fin cap ss arr) "(_ & Hl & Ht)".
  iApply (wp_position with "Hl"). iIntros "Hl". iApply "HΨ". by iApply "Ht".
Qed.
Lemma wp_tree_parent (Ψ : loc -> hPropI V) :
  own_tree ht par pos t -∗ (own_tree ht par pos t -∗ Ψ par) -∗ wp (parent (root_loc t)) Ψ.
Proof.
  iIntros "Ht HΨ". iDestruct (own_tree_cell with "Ht") as (fin cap ss arr) "(_ & Hl & Ht)".
  iApply (wp_parent with "Hl"). iIntros "Hl". iApply "HΨ". by iApply "Ht".
Qed.
Lemma wp_tree_is_leaf (Ψ : bool -> hPropI V) :
  own_tree ht par pos t -∗ (own_tree ht par pos t -∗ Ψ (bool_decide (ht = O))) -∗ wp (is_leaf (root_loc t)) Ψ.
Proof.
  iIntros "Ht HΨ". iDestruct (own_tree_cell with "Ht") as (fin cap ss arr) "(%Hc & Hl & Ht)".
  iApply (wp_is_leaf with "Hl"). iIntros "Hl".
  assert (negb (cap =? 0) = bool_decide (ht = O)) as ->.
  { destruct (Z.eqb_spec cap 0); case_bool_decide; cbn; (done || naive_solver). }
  iApply "HΨ". by iApply "Ht".
Qed.
Lemma wp_tree_is_internal (Ψ : bool -> hPropI V) :
  own_tree ht par pos t -∗ (own_tree ht par pos t -∗ Ψ (negb (ht =? 0)%nat)) -∗ wp (is_internal (root_loc t)) Ψ.
Proof.
  iIntros "Ht HΨ". iDestruct (own_tree_cell with "Ht") as (fin cap ss arr) "(%Hc & Hl & Ht)".
  iApply (wp_is_internal with "Hl"). iIntros "Hl". replace (cap =? 0) with (negb (ht =? 0)%nat).
  - iApply "HΨ". by iApply "Ht".
  - destruct (Z.eqb_spec cap 0), ht; cbn; (done || naive_solver).
Qed.
End cell.

(** *** Attaching a child *)
Section attach.
Context (p par : loc) (pos fin : Z) (ss : list (slot V)).
Let nd arr : node V := mkNode par pos 0 fin 0 ss arr.

Lemma wp_set_child arr i ht cp cpos t (Ψ : unit -> hPropI V) : (i < length arr)%nat -> (i <= S slots_max)%nat ->
  p ↦ nd arr -∗ own_tree ht cp cpos t -∗
  (p ↦ nd (<[i := Some (root_loc t)]> arr) -∗ own_tree ht cp (Z.of_nat i) t -∗ Ψ tt) -∗
  wp (set_child p (Z.of_nat i) (root_loc t)) Ψ.
Proof.
  intros Hi Hm. pose proof slots_max_Z. iIntros "Hp Ht HΨ". iApply wp_bind.
  iApply (wp_set_mutable_child with "Hp"); [done|lia|]. rewrite Nat2Z.id. iIntros "Hp".
  iApply (wp_tree_set_position with "Ht"); [lia|]. iApply ("HΨ" with "Hp").
Qed.
Lemma wp_init_child arr i ht cp cpos t (Ψ : unit -> hPropI V) : (i < length arr)%nat -> (i <= S slots_max)%nat ->
  p ↦ nd arr -∗ own_tree ht cp cpos t -∗
  (p ↦ nd (<[i := Some (root_loc t)]> arr) -∗ own_tree ht p (Z.of_nat i) t -∗ Ψ tt) -∗
  wp (init_child p (Z.of_nat i) (root_loc t)) Ψ.
Proof.
  intros Hi Hm. iIntros "Hp Ht HΨ". iApply wp_bind. iApply (wp_set_child with "Hp Ht"); [done|done|].
  iIntros "Hp Ht". iApply (wp_tree_set_parent with "Ht"). iApply ("HΨ" with "Hp").
Qed.
Lemma wp_clear_child arr i (Ψ : unit -> hPropI V) : (i < length arr)%nat ->
  p ↦ nd arr -∗ (p ↦ nd (<[i := None]> arr) -∗ Ψ tt) -∗ wp (clear_child p (Z.of_nat i)) Ψ.
Proof using Type.
  intros Hi. iIntros "Hp HΨ". iApply (wp_set_mutable_child with "Hp"); [done|lia|]. by rewrite Nat2Z.id.
Qed.
Lemma wp_child_at arr i c (Ψ : loc -> hPropI V) : arr !! i = Some (Some c) ->
  p ↦ nd arr -∗ (p ↦ nd arr -∗ Ψ c) -∗ wp (child p (Z.of_nat i)) Ψ.
Proof using Type. intros Hc. iApply wp_child; [done|lia|]. by rewrite Nat2Z.id. Qed.
End attach.
End trees.

(** * what the methods of a node do to trees (lemmas for BtreeNode.v) *)

Import btree_node.
#[local] Open Scope Z_scope.

Section ops.
Context {K V : Type} `{PB : BtreeParams K V} {LB : BtreeLaws K V} `{AL : Allocator} {FL : AllocatorLaws}.
Implicit Types (p q : loc) (t : tree V) (ts : list (tree V)) (vs A B : list V) (arr : list (option loc)).

Lemma slots_of_app n A B : (length A + length B <= n)%nat ->
  slots_of n (A ++ B) = (Live <$> A) ++ (Live <$> B) ++ replicate (n - length A - length B) Raw.
Proof using Type. intros Hn. unfold slots_of. by rewrite fmap_app -app_assoc length_app Nat.sub_add_distr. Qed.
Lemma slots_of_snoc_raw n A : (length A < n)%nat -> slots_of n A = (Live <$> A) ++ Raw :: replicate (n - length A - 1) Raw.
Proof using Type. intros Hn. unfold slots_of. destruct (n - length A)%nat eqn:E; [lia|]. cbn. by rewrite Nat.sub_0_r. Qed.

(** *** [emplace_value] *)

(** The slots with a gap in front of [B]. *)
Definition gap_slots n A B (s : slot V) : list (slot V) :=
  (Live <$> A) ++ s :: (Live <$> B) ++ replicate (n - length A - length B - 1) Raw.

Lemma gap_slots_filled n A B v : (length A + length B < n)%nat -> gap_slots n A B (Live v) = slots_of n (A ++ v :: B).
Proof using Type.
  intros Hn. rewrite slots_of_app /=; [|lia]. unfold gap_slots.
  replace (n - length A - S (length B))%nat with (n - length A - length B - 1)%nat by lia. done.
Qed.

Lemma wp_shift_up p par pos fin cap n arr A B (Ψ : unit -> hPropI V) : (length A + length B < n)%nat ->
  p ↦ mkNode par pos 0 fin cap (slots_of n (A ++ B)) arr -∗
  (p ↦ mkNode par pos 0 fin cap (gap_slots n A B Raw) arr -∗ Ψ tt) -∗
  wp (transfer_n_backward p (Z.of_nat (length B)) (Z.of_nat (length A) + 1) (Z.of_nat (length A)) p) Ψ.
Proof using Type.
  intros Hn. rewrite slots_of_app; [|lia].
  replace (n - length A - length B)%nat with (1 + (n - length A - length B - 1))%nat by lia. rewrite replicate_add.
  iIntros "Hp HΨ". iApply (wp_transfer_n_up with "Hp"); [done|rewrite length_fmap; lia|by rewrite length_fmap|lia|]. done.
Qed.

Lemma wp_make_gap p par pos cap n arr A B : (length A + length B < n)%nat ->
  p ↦ mkNode par pos 0 (Z.of_nat (length A + length B)) cap (slots_of n (A ++ B)) arr ⊢
  wp (if Z.of_nat (length A) <? Z.of_nat (length A + length B)
      then transfer_n_backward p (Z.of_nat (length A + length B) - Z.of_nat (length A)) (Z.of_nat (length A) + 1) (Z.of_nat (length A)) p
      else ret tt)
    (λ _, p ↦ mkNode par pos 0 (Z.of_nat (length A + length B)) cap (gap_slots n A B Raw) arr).
Proof using Type.
  intros Hn. iIntros "Hp". destruct (Z.ltb_spec (Z.of_nat (length A)) (Z.of_nat (length A + length B))).
  - replace (Z.of_nat (length A + length B) - Z.of_nat (length A)) with (Z.of_nat (length B)) by lia.
    iApply (wp_shift_up with "Hp"); [lia|]. by iIntros.
  - iApply wp_ret. destruct B; [|cbn in *; lia]. rewrite app_nil_r /= Nat.add_0_r slots_of_snoc_raw; [|cbn in *; lia].
    unfold gap_slots. cbn. by rewrite Nat.sub_0_r.
Qed.

(** *** Moving children

    The step of a loop puts the child at [j] to [i] and leaves what it likes at
    [j]. *)
Definition child_moved (i j : nat) (c : loc) arr arr' : Prop :=
  length arr' = length arr /\ arr' !! i = Some (Some c) /\ (forall k, k ≠ i -> k ≠ j -> arr' !! k = arr !! k).

Definition same_outside (lo hi : nat) arr arr' : Prop :=
  length arr' = length arr /\ (forall k, (k < lo \/ hi <= k)%nat -> arr' !! k = arr !! k).

Lemma children_at_same i (cs : list loc) arr arr' :
  (forall k, (i <= k < i + length cs)%nat -> arr' !! k = arr !! k) -> children_at i cs arr -> children_at i cs arr'.
Proof using Type. intros Hk Hc j c Hj. rewrite Hk; [by apply Hc|]. apply lookup_lt_Some in Hj. lia. Qed.

Lemma child_moved_clear i j c arr : (i < length arr)%nat -> i ≠ j -> child_moved i j c arr (<[j := None]> (<[i := Some c]> arr)).
Proof using Type.
  intros Hi Hij. split_and!; [by rewrite !length_insert| |].
  - rewrite list_lookup_insert_ne; [by apply list_lookup_insert_eq|done].
  - intros k Hk Hkj. by rewrite !list_lookup_insert_ne.
Qed.
Lemma child_moved_keep i j c arr : (i < length arr)%nat -> child_moved i j c arr (<[i := Some c]> arr).
Proof using Type.
  intros Hi. split_and!; [by rewrite length_insert|by apply list_lookup_insert_eq|].
  intros k Hk Hkj. by rewrite list_lookup_insert_ne.
Qed.

Section shift.
Context (ht : nat) (p : loc) (nd : list (option loc) -> node V) (ts0 : list (tree V)) (lo g : nat) (Hg : (0 < g)%nat).
Let n := length ts0.

(** The children [ts0] from [lo + g] down to [lo], the first one first. *)
Lemma wp_kids_down {X} (idx : nat -> X) fuel cond next body arr0 (I : hPropI V) :
  (n < fuel)%nat -> (lo + g + n <= length arr0)%nat -> children_at (lo + g) (root_loc <$> ts0) arr0 ->
  (forall j, (j < n)%nat -> next (idx j) = idx (S j)) ->
  (forall j arr, (j <= n)%nat -> p ↦ nd arr ∗ I ⊢ wp (cond (idx j)) (λ b, ⟦b = bool_decide (j < n)%nat⟧ ∗ p ↦ nd arr ∗ I)) ->
  (forall j arr t, (j < n)%nat -> length arr = length arr0 -> arr !! (lo + g + j)%nat = Some (Some (root_loc t)) ->
    p ↦ nd arr ∗ own_tree ht p (Z.of_nat (lo + g + j)) t ∗ I ⊢
    wp (body (idx j)) (λ _, ∃ arr', ⟦child_moved (lo + j) (lo + g + j) (root_loc t) arr arr'⟧ ∗
      p ↦ nd arr' ∗ own_tree ht p (Z.of_nat (lo + j)) t ∗ I)) ->
  p ↦ nd arr0 ∗ kids ht p (lo + g) ts0 ∗ I ⊢
  wp (for_loop fuel cond next body (idx O)) (λ _, ∃ arr, ⟦same_outside lo (lo + g + n) arr0 arr /\
    children_at lo (root_loc <$> ts0) arr⟧ ∗ p ↦ nd arr ∗ kids ht p lo ts0 ∗ I).
Proof using Hg.
  intros Hfuel Hlen Hat Hnext Hcond Hbody.
  set (J j := (∃ arr, ⟦same_outside lo (lo + g + n) arr0 arr /\ children_at lo (root_loc <$> take j ts0) arr /\
    children_at (lo + g + j) (root_loc <$> drop j ts0) arr⟧ ∗ p ↦ nd arr ∗ kids ht p lo (take j ts0) ∗
    kids ht p (lo + g + j) (drop j ts0) ∗ I)%I).
  iIntros "(Hp & Hk & HI)".
  iPoseProof (wp_for_loop idx n fuel cond next body J with "[Hp Hk HI]") as "Hw"; [done|done| | | |].
  4: { iApply (wp_wand with "Hw"). iIntros (_) "(%arr & (%Hs & %H1 & %H2) & Hp & Hk & Hn & HI)". iExists arr.
       rewrite take_ge in H1; [|done]. rewrite take_ge; [|done]. rewrite drop_ge; [|done]. rewrite kids_nil. by iFrame. }
  - intros j Hj. iIntros "(%arr & %Ha & Hp & Hk1 & Hk2 & HI)". iPoseProof (Hcond with "[$Hp $HI]") as "Hc"; [done|].
    iApply (wp_wand with "Hc"). iIntros (b) "(-> & Hp & HI)". iSplit; [done|]. iExists arr. by iFrame.
  - intros j Hj. iIntros "(%arr & (%Hs & %H1 & %H2) & Hp & Hk1 & Hk2 & HI)".
    destruct (lookup_lt_is_Some_2 ts0 j Hj) as [t Ht].
    rewrite (drop_S _ _ _ Ht) kids_cons. rewrite (drop_S _ _ _ Ht) fmap_cons in H2.
    apply children_at_cons in H2 as [Hc H2]. iDestruct "Hk2" as "[Ht Hk2]". destruct Hs as [Hl Hs].
    iPoseProof (Hbody with "[$Hp $Ht $HI]") as "Hb"; [done|done|done|]. iApply (wp_wand with "Hb").
    iIntros (_) "(%arr' & (%Hl' & %Hi & %Hk) & Hp & Ht & HI)". iExists arr'. iFrame "Hp HI".
    assert (length (take j ts0) = j) as Htk by (rewrite length_take; subst n; lia).
    rewrite (take_S_r _ _ _ Ht) kids_app Htk. iFrame "Hk1". rewrite kids_cons kids_nil. iFrame "Ht".
    replace (lo + g + S j)%nat with (S (lo + g + j)) by lia. iFrame "Hk2". iPureIntro. unfold same_outside. split_and!.
    + lia.
    + intros k Hko. rewrite Hk; [by apply Hs|lia|lia].
    + rewrite fmap_app children_at_app length_fmap Htk. split.
      * eapply children_at_same, H1. rewrite length_fmap Htk. intros k Hko. apply Hk; lia.
      * apply children_at_cons. split; [done|apply children_at_nil].
    + eapply children_at_same, H2. intros k Hko. apply Hk; lia.
  - iExists arr0. rewrite drop_0 Nat.add_0_r. iFrame. iSplit; [|by rewrite kids_nil].
    iPureIntro. split; [done|]. split; [apply children_at_nil|done].
Qed.

(** The other way, from [lo] up to [lo + g], the last one first. *)
Lemma wp_kids_up {X} (idx : nat -> X) fuel cond next body arr0 (I : hPropI V) :
  (n < fuel)%nat -> (lo + g + n <= length arr0)%nat -> children_at lo (root_loc <$> ts0) arr0 ->
  (forall j, (j < n)%nat -> next (idx j) = idx (S j)) ->
  (forall j arr, (j <= n)%nat -> p ↦ nd arr ∗ I ⊢ wp (cond (idx j)) (λ b, ⟦b = bool_decide (j < n)%nat⟧ ∗ p ↦ nd arr ∗ I)) ->
  (forall j arr t, (j < n)%nat -> length arr = length arr0 -> arr !! (lo + (n - S j))%nat = Some (Some (root_loc t)) ->
    p ↦ nd arr ∗ own_tree ht p (Z.of_nat (lo + (n - S j))) t ∗ I ⊢
    wp (body (idx j)) (λ _, ∃ arr', ⟦child_moved (lo + g + (n - S j)) (lo + (n - S j)) (root_loc t) arr arr'⟧ ∗
      p ↦ nd arr' ∗ own_tree ht p (Z.of_nat (lo + g + (n - S j))) t ∗ I)) ->
  p ↦ nd arr0 ∗ kids ht p lo ts0 ∗ I ⊢
  wp (for_loop fuel cond next body (idx O)) (λ _, ∃ arr, ⟦same_outside lo (lo + g + n) arr0 arr /\
    children_at (lo + g) (root_loc <$> ts0) arr⟧ ∗ p ↦ nd arr ∗ kids ht p (lo + g) ts0 ∗ I).
Proof using Hg.
  intros Hfuel Hlen Hat Hnext Hcond Hbody.
  set (J j := (∃ arr, ⟦same_outside lo (lo + g + n) arr0 arr /\ children_at lo (root_loc <$> take (n - j) ts0) arr /\
    children_at (lo + g + (n - j)) (root_loc <$> drop (n - j) ts0) arr⟧ ∗ p ↦ nd arr ∗ kids ht p lo (take (n - j) ts0) ∗
    kids ht p (lo + g + (n - j)) (drop (n - j) ts0) ∗ I)%I).
  iIntros "(Hp & Hk & HI)".
  iPoseProof (wp_for_loop idx n fuel cond next body J with "[Hp Hk HI]") as "Hw"; [done|done| | | |].
  4: { iApply (wp_wand with "Hw"). iIntros (_) "(%arr & (%Hs & %H1 & %H2) & Hp & Hn & Hk & HI)". iExists arr.
       rewrite Nat.sub_diag Nat.add_0_r in H2 |- *. rewrite kids_nil. by iFrame. }
  - intros j Hj. iIntros "(%arr & %Ha & Hp & Hk1 & Hk2 & HI)". iPoseProof (Hcond with "[$Hp $HI]") as "Hc"; [done|].
    iApply (wp_wand with "Hc"). iIntros (b) "(-> & Hp & HI)". iSplit; [done|]. iExists arr. by iFrame.
  - intros j Hj. iIntros "(%arr & (%Hs & %H1 & %H2) & Hp & Hk1 & Hk2 & HI)".
    destruct (lookup_lt_is_Some_2 ts0 (n - S j)) as [t Ht]; [subst n; lia|].
    replace (n - j)%nat with (S (n - S j)) in H1, H2 |- * by lia.
    assert (length (take (n - S j) ts0) = n - S j)%nat as Htk by (rewrite length_take; subst n; lia).
    rewrite (take_S_r _ _ _ Ht) kids_app Htk kids_cons kids_nil. iDestruct "Hk1" as "(Hk1 & Ht & _)".
    rewrite (take_S_r _ _ _ Ht) fmap_app children_at_app length_fmap Htk in H1.
    destruct H1 as [H1 [Hc _]%children_at_cons]. destruct Hs as [Hl Hs].
    iPoseProof (Hbody with "[$Hp $Ht $HI]") as "Hb"; [done|done|done|]. iApply (wp_wand with "Hb").
    iIntros (_) "(%arr' & (%Hl' & %Hi & %Hk) & Hp & Ht & HI)". iExists arr'. iFrame "Hp HI Hk1".
    rewrite (drop_S _ _ _ Ht) kids_cons. iFrame "Ht".
    replace (lo + g + S (n - S j))%nat with (S (lo + g + (n - S j))) in H2 |- * by lia. iFrame "Hk2".
    iPureIntro. unfold same_outside. split_and!.
    + lia.
    + intros k Hko. rewrite Hk; [by apply Hs|lia|lia].
    + eapply children_at_same, H1. rewrite length_fmap Htk. intros k Hko. apply Hk; lia.
    + rewrite fmap_cons. apply children_at_cons. split; [done|].
      eapply children_at_same, H2. intros k Hko. apply Hk; lia.
  - iExists arr0. rewrite Nat.sub_0_r take_ge ?drop_ge; [|done|done]. rewrite kids_nil. iFrame.
    iPureIntro. split; [done|]. split; [done|apply children_at_nil].
Qed.
End shift.

(** From one node to another, the first one first. *)
Section across.
Context (ht : nat) (p : loc) (nd : list (option loc) -> node V) (q : loc) (nq : list (option loc) -> node V)
  (ts0 : list (tree V)) (lo lo' : nat).
Let n := length ts0.

Lemma wp_kids_across {X} (idx : nat -> X) fuel cond next body arr0 brr0 :
  (n < fuel)%nat -> (lo' + n <= length arr0)%nat -> (lo + n <= length brr0)%nat ->
  children_at lo (root_loc <$> ts0) brr0 ->
  (forall j, (j < n)%nat -> next (idx j) = idx (S j)) ->
  (forall j arr brr, (j <= n)%nat -> p ↦ nd arr ∗ q ↦ nq brr ⊢
    wp (cond (idx j)) (λ b, ⟦b = bool_decide (j < n)%nat⟧ ∗ p ↦ nd arr ∗ q ↦ nq brr)) ->
  (forall j arr brr t, (j < n)%nat -> length arr = length arr0 -> length brr = length brr0 ->
    brr !! (lo + j)%nat = Some (Some (root_loc t)) ->
    p ↦ nd arr ∗ q ↦ nq brr ∗ own_tree ht q (Z.of_nat (lo + j)) t ⊢
    wp (body (idx j)) (λ _, ∃ brr', ⟦length brr' = length brr /\ (forall k, k ≠ (lo + j)%nat -> brr' !! k = brr !! k)⟧ ∗
      p ↦ nd (<[(lo' + j)%nat := Some (root_loc t)]> arr) ∗ q ↦ nq brr' ∗ own_tree ht p (Z.of_nat (lo' + j)) t)) ->
  p ↦ nd arr0 ∗ q ↦ nq brr0 ∗ kids ht q lo ts0 ⊢
  wp (for_loop fuel cond next body (idx O)) (λ _, ∃ arr brr, ⟦same_outside lo' (lo' + n) arr0 arr /\
    same_outside lo (lo + n) brr0 brr /\ children_at lo' (root_loc <$> ts0) arr⟧ ∗
    p ↦ nd arr ∗ q ↦ nq brr ∗ kids ht p lo' ts0).
Proof using Type.
  intros Hfuel Hlen Hlen' Hat Hnext Hcond Hbody.
  set (J j := (∃ arr brr, ⟦same_outside lo' (lo' + n) arr0 arr /\ same_outside lo (lo + n) brr0 brr /\
    children_at lo' (root_loc <$> take j ts0) arr /\ children_at (lo + j) (root_loc <$> drop j ts0) brr⟧ ∗
    p ↦ nd arr ∗ q ↦ nq brr ∗ kids ht p lo' (take j ts0) ∗ kids ht q (lo + j) (drop j ts0))%I).
  iIntros "(Hp & Hq & Hk)".
  iPoseProof (wp_for_loop idx n fuel cond next body J with "[Hp Hq Hk]") as "Hw"; [done|done| | | |].
  4: { iApply (wp_wand with "Hw"). iIntros (_) "(%arr & %brr & (%Hs & %Hs' & %H1 & %H2) & Hp & Hq & Hk & Hn)". iExists arr, brr.
       rewrite take_ge in H1; [|done]. rewrite take_ge; [|done]. rewrite drop_ge; [|done]. rewrite kids_nil. by iFrame. }
  - intros j Hj. iIntros "(%arr & %brr & %Ha & Hp & Hq & Hk1 & Hk2)".
    iPoseProof (Hcond with "[$Hp $Hq]") as "Hc"; [done|].
    iApply (wp_wand with "Hc"). iIntros (b) "(-> & Hp & Hq)". iSplit; [done|]. iExists arr, brr. by iFrame.
  - intros j Hj. iIntros "(%arr & %brr & (%Hs & %Hs' & %H1 & %H2) & Hp & Hq & Hk1 & Hk2)".
    destruct (lookup_lt_is_Some_2 ts0 j Hj) as [t Ht].
    rewrite (drop_S _ _ _ Ht) kids_cons. rewrite (drop_S _ _ _ Ht) fmap_cons in H2.
    apply children_at_cons in H2 as [Hc H2]. iDestruct "Hk2" as "[Ht Hk2]". destruct Hs as [Hl Hs], Hs' as [Hl' Hs'].
    iPoseProof (Hbody with "[$Hp $Hq $Ht]") as "Hb"; [done|done|done|done|]. iApply (wp_wand with "Hb").
    iIntros (_) "(%brr' & (%Hlb & %Hb) & Hp & Hq & Ht)". iExists _, brr'. iFrame "Hp Hq".
    assert (length (take j ts0) = j) as Htk by (rewrite length_take; subst n; lia).
    rewrite (take_S_r _ _ _ Ht) kids_app Htk. iFrame "Hk1". rewrite kids_cons kids_nil. iFrame "Ht".
    replace (lo + S j)%nat with (S (lo + j)) by lia. iFrame "Hk2". iPureIntro. unfold same_outside.
    rewrite length_insert. split_and!.
    + lia.
    + intros k Hko. rewrite list_lookup_insert_ne; [by apply Hs|lia].
    + lia.
    + intros k Hko. rewrite Hb; [by apply Hs'|lia].
    + rewrite fmap_app -{2}Htk -(length_fmap root_loc). apply children_at_snoc; [rewrite length_fmap Htk; subst n; lia|done].
    + eapply children_at_same, H2. intros k Hko. apply Hb; lia.
  - iExists arr0, brr0. rewrite drop_0 Nat.add_0_r. iFrame. iSplit; [|by rewrite kids_nil].
    iPureIntro. split; [done|]. split; [done|]. split; [apply children_at_nil|done].
Qed.
End across.

(** *** [emplace_value] *)

(** What is asked of [init] is the same in all uses: that it constructs [v] in
    the slot, which is raw then. *)
Lemma wp_emplace_value p par pos cap arr A B v i (init : M V unit) (R R' : hPropI V) ht ts2 (Ψ : unit -> hPropI V) :
  i = Z.of_nat (length A) -> (length A + length B < capacity cap)%nat -> (capacity cap <= slots_max)%nat ->
  length arr = child_slots cap -> length ts2 = (if cap =? 0 then length B else O) ->
  children_at (S (length A)) (root_loc <$> ts2) arr ->
  (p ↦ mkNode par pos 0 (Z.of_nat (length A + length B)) cap (gap_slots (capacity cap) A B Raw) arr ∗ R ⊢
   wp init (λ _, p ↦ mkNode par pos 0 (Z.of_nat (length A + length B)) cap (gap_slots (capacity cap) A B (Live v)) arr ∗ R')) ->
  p ↦ mkNode par pos 0 (Z.of_nat (length A + length B)) cap (slots_of (capacity cap) (A ++ B)) arr -∗ R -∗
  kids ht p (S (length A)) ts2 -∗
  (∀ arr', ⟦length arr' = length arr /\ (forall k, (k <= length A)%nat -> arr' !! k = arr !! k) /\
     children_at (S (S (length A))) (root_loc <$> ts2) arr'⟧ -∗
   p ↦ mkNode par pos 0 (Z.of_nat (length (A ++ v :: B))) cap (slots_of (capacity cap) (A ++ v :: B)) arr' -∗ R' -∗
   kids ht p (S (S (length A))) ts2 -∗ Ψ tt) -∗
  wp (emplace_value p i init) Ψ.
Proof.
  intros -> Hn Hmax Harr Hts Hat Hinit. pose proof slots_max_Z as Hm. iIntros "Hp HR Hk HΨ".
  iApply wp_bind. iApply (wp_start with "Hp"). iIntros "Hp". iApply wp_bind. iApply wp_check; [apply Z.leb_le; lia|].
  iApply wp_bind. iApply (wp_finish with "Hp"). iIntros "Hp". iApply wp_bind. iApply wp_check; [apply Z.leb_le; lia|].
  iApply wp_bind. iPoseProof (wp_make_gap with "Hp") as "Hw"; [done|].
  iApply (wp_wand with "Hw"). iIntros ([]) "Hp". iApply wp_bind. iApply (wp_wand with "[Hp HR]").
  { iApply Hinit. iFrame. }
  iIntros ([]) "[Hp HR]". iApply wp_bind. iApply (wp_finish with "Hp"). iIntros "Hp".
  iApply wp_bind. iApply (wp_set_finish with "Hp"); [lia|]. iIntros "Hp". rewrite gap_slots_filled; [|done].
  replace (Z.of_nat (length A + length B) + 1) with (Z.of_nat (length (A ++ v :: B))) by (rewrite length_app /=; lia).
  iApply wp_bind. iApply (wp_is_internal with "Hp"). iIntros "Hp". iApply wp_bind. iApply (wp_finish with "Hp"). iIntros "Hp".
  destruct (Z.eqb_spec cap 0) as [->|Hcap]; cbn [andb]; cycle 1.
  { apply nil_length_inv in Hts as ->. iApply wp_ret.
    iApply ("HΨ" with "[] Hp HR [Hk]"); [|by rewrite !kids_nil].
    iPureIntro. split; [done|]. split; [done|apply children_at_nil]. }
  cbn in Hts, Harr, Hn, Hmax. change (capacity 0) with slots_max in *.
  destruct (Z.ltb_spec (Z.of_nat (length A) + 1) (Z.of_nat (length (A ++ v :: B)))) as [HB|HB]; rewrite length_app /= in HB; cycle 1.
  { destruct ts2; [|simpl in Hts; lia]. iApply wp_ret. iApply ("HΨ" with "[] Hp HR [Hk]"); [|by rewrite !kids_nil].
    iPureIntro. split; [done|]. split; [done|apply children_at_nil]. }
  iApply wp_bind. set (nd arr := mkNode par pos 0 (Z.of_nat (length (A ++ v :: B))) 0 (slots_of slots_max (A ++ v :: B)) arr).
  iPoseProof (wp_kids_up ht p nd ts2 (S (length A)) 1 ltac:(lia) (λ j, Z.of_nat (length (A ++ v :: B)) - Z.of_nat j)
    children_fuel (λ j, ret (Z.of_nat (length A) + 1 <? j)) (λ j, field (j - 1))
    (λ j, let! c := child p (j - 1) in set_child p j c) arr emp%I with "[$Hp $Hk]") as "Hw".
  { unfold children_fuel. lia. } { rewrite Hts. lia. } { done. }
  { intros j Hj. rewrite length_app /= field_id; lia. }
  { intros j brr Hj. iIntros "[Hp _]". iApply wp_ret. iFrame. iPureIntro. rewrite length_app /=.
    destruct (Z.ltb_spec (Z.of_nat (length A) + 1) (Z.of_nat (length A + S (length B)) - Z.of_nat j)); case_bool_decide; lia || done. }
  { intros j brr t Hj Hl Hc. iIntros "(Hp & Ht & _)". iApply wp_bind. rewrite length_app /=.
    replace (Z.of_nat (length A + S (length B)) - Z.of_nat j - 1) with (Z.of_nat (S (length A) + (length ts2 - S j))) by lia.
    iApply (wp_child_at with "Hp"); [done|]. iIntros "Hp".
    replace (Z.of_nat (length A + S (length B)) - Z.of_nat j) with (Z.of_nat (S (length A) + 1 + (length ts2 - S j))) by lia.
    iApply (wp_set_child with "Hp Ht"); [lia|lia|]. iIntros "Hp Ht". iExists _. iFrame. iPureIntro.
    apply child_moved_keep. lia. }
  rewrite Z.sub_0_r. iApply (wp_wand with "Hw"). iIntros ([]) "(%brr & %Hb & Hp & Hk & _)". destruct Hb as [[Hl Hs] Hc].
  replace (Z.of_nat (length A) + 1) with (Z.of_nat (S (length A))) by lia. iApply (wp_clear_child with "Hp"); [lia|].
  iIntros "Hp". rewrite Nat.add_1_r in Hc |- *. iApply ("HΨ" with "[] Hp HR Hk"). iPureIntro. split_and!.
  - by rewrite length_insert.
  - intros k Hk. rewrite list_lookup_insert_ne; [|lia]. apply Hs. lia.
  - apply children_at_insert_ne; [lia|done].
Qed.
End ops.
