(* ===== verification/BtreeFree.v ===== *)
(** * BtreeFree: freeing the nodes of a tree (lemmas for BtreeNode.v)

    [clear_and_delete] visits the tree without recursion: it deletes the leaves
    below a node, then the node, and goes on with the sibling or the parent. What
    is left at each moment is a stack of nodes, each with those of its children
    that have not been deleted. The loops end: each step deletes a node. *)

From S2P Require Import Prelude.
From S2P Require Import BtreeNode.
From S2P Require Import HeapLogic.
From S2P Require Import BtreeTree.
From iris.proofmode Require Import proofmode.
Import btree_node.
#[local] Open Scope Z_scope.
#[local] Open Scope cpp_scope.

Fixpoint nodes_of {V} (t : tree V) : nat := match t with Tree _ _ _ ts => S (sum_list (nodes_of <$> ts)) end.

(** The leaf on the left; the internal nodes. *)
Fixpoint leftmost_loc {V} (t : tree V) : loc :=
  match t with Tree l _ _ [] => l | Tree _ _ _ (t :: _) => leftmost_loc t end.
Fixpoint internal_locs {V} (t : tree V) : list loc :=
  match t with Tree _ _ _ [] => [] | Tree l _ _ ts => l :: mjoin (internal_locs <$> ts) end.

Section free.
Context {K V : Type} `{PB : BtreeParams K V} {LB : BtreeLaws K V} `{AL : Allocator} {FL : AllocatorLaws}.
Implicit Types (p q : loc) (t : tree V) (ts : list (tree V)) (vs : list V) (arr : list (option loc)).

(** *** One node *)

Lemma leaf_capacity_bounds ht cap vs ts : tree_ok ht cap vs ts ->
  (length vs <= capacity cap)%nat /\ (capacity cap <= slots_max)%nat /\ (cap =? 0) = negb (ht =? 0)%nat.
Proof.
  pose proof slots_max_Z. intros [Hc Hok]. unfold capacity in *.
  destruct ht, Hok as [? _]; destruct (Z.eqb_spec cap 0); cbn; split_and!; lia || done.
Qed.

Lemma wp_destroy_all p par pos cap arr n vs (Ψ : unit -> hPropI V) : (length vs <= slots_max)%nat -> (length vs <= n)%nat ->
  p ↦ mkNode par pos 0 (Z.of_nat (length vs)) cap (slots_of n vs) arr -∗
  (p ↦ mkNode par pos 0 (Z.of_nat (length vs)) cap (replicate n Raw) arr -∗ Ψ tt) -∗ wp (destroy_all p) Ψ.
Proof.
  intros Hm Hn. pose proof slots_max_Z. iIntros "Hp HΨ". iApply wp_bind. iApply (wp_start with "Hp"). iIntros "Hp".
  iApply wp_bind. iApply (wp_count with "Hp"); [lia|]. iIntros "Hp".
  iApply (wp_value_destroy_n _ _ _ _ _ _ [] (replicate (n - length vs) Raw) (Live <$> vs) with "Hp").
  { done. } { by rewrite length_fmap. }
  { intros (v & Hv & _)%list_elem_of_fmap. done. }
  iIntros "Hp". rewrite length_fmap /= -replicate_add. replace (length vs + (n - length vs))%nat with n by lia.
  by iApply "HΨ".
Qed.

Lemma Forall_raw n : Forall (eq Raw) (replicate n (@Raw V)).
Proof using Type. by apply Forall_replicate. Qed.

Lemma wp_deallocate_leaf p par pos fin cap (Ψ : unit -> hPropI V) : 0 < cap ->
  p ↦ mkNode par pos 0 fin cap (replicate (capacity cap) Raw) [] -∗ Ψ tt -∗ wp (deallocate_leaf cap p) Ψ.
Proof using Type.
  intros Hc. iApply wp_deallocate; cbn; [apply Forall_raw| |done]. rewrite length_replicate. unfold capacity.
  destruct (Z.eqb_spec cap 0); lia.
Qed.
Lemma wp_deallocate_internal p par pos fin arr (Ψ : unit -> hPropI V) : length arr = S slots_max ->
  p ↦ mkNode par pos 0 fin 0 (replicate slots_max Raw) arr -∗ Ψ tt -∗ wp (deallocate_internal p) Ψ.
Proof.
  intros Ha. pose proof slots_max_Z. iApply wp_deallocate; cbn; [apply Forall_raw|rewrite length_replicate; lia|lia].
Qed.

(** A node without values, whatever its children were. *)
Definition husk p (par : loc) (pos cap : Z) : hPropI V :=
  ∃ arr, ⟦0 <= cap <= kNodeSlots /\ length arr = child_slots cap⟧ ∗
    p ↦ mkNode par pos 0 0 cap (replicate (capacity cap) Raw) arr.

Lemma wp_destroy_leaf {X} p par pos cap vs (k : Z -> M V X) (Ψ : X -> hPropI V) : tree_ok 0 cap vs [] ->
  own_node p par pos cap vs [] -∗
  (p ↦ mkNode par pos 0 (Z.of_nat (length vs)) cap (replicate (capacity cap) Raw) [] -∗ wp (k cap) Ψ) -∗
  wp (destroy_all p ;; let! m := max_count p in k m) Ψ.
Proof.
  intros Hok. destruct (leaf_capacity_bounds _ _ _ _ Hok) as (Hc & Hm & Hcap).
  iIntros "(%arr & (_ & %Harr) & Hp) HΨ". unfold child_slots in Harr. rewrite Hcap in Harr. destruct arr; [|done].
  iApply wp_bind. iApply (wp_destroy_all with "Hp"); [lia|done|]. iIntros "Hp". iApply wp_bind.
  iApply (wp_max_count with "Hp"). by rewrite Hcap.
Qed.

Lemma wp_free_leaf p par pos cap vs (Ψ : unit -> hPropI V) : tree_ok 0 cap vs [] ->
  own_node p par pos cap vs [] -∗ Ψ tt -∗
  wp (destroy_all p ;; let! m := max_count p in deallocate_leaf m p) Ψ.
Proof.
  intros Hok. iIntros "Hp HΨ". iApply (wp_destroy_leaf with "Hp"); [done|]. iIntros "Hp".
  iApply (wp_deallocate_leaf with "Hp HΨ"). destruct Hok as [_ [? _]]. lia.
Qed.

Lemma wp_free_husk p par pos cap (Ψ : unit -> hPropI V) : husk p par pos cap -∗ Ψ tt -∗ wp (clear_and_delete p) Ψ.
Proof.
  iIntros "(%arr & (%Hcap & %Harr) & Hp) HΨ". iApply wp_bind. iApply (wp_is_leaf with "Hp"). iIntros "Hp".
  destruct (Z.eqb_spec cap 0) as [->|Hc]; cbn [negb].
  - iApply wp_bind. iApply (wp_count with "Hp"); [pose proof kNodeSlots_min; lia|]. iIntros "Hp".
    iApply (wp_deallocate_internal with "Hp HΨ"). done.
  - iApply (wp_free_leaf p par pos cap [] with "[Hp] HΨ").
    { split; [apply Nat.le_0_l|]. cbn. split; [lia|done]. }
    iExists arr. cbn. unfold slots_of. cbn. rewrite Nat.sub_0_r. iFrame. iPureIntro. split; [apply children_at_nil|done].
Qed.

(** *** Counting nodes *)

Lemma kids_at_least ht l i ts : (forall par pos t, own_tree ht par pos t ⊢ at_least (nodes_of t)) ->
  kids ht l i ts ⊢ at_least (sum_list (nodes_of <$> ts)).
Proof using Type.
  intros IH. revert i. induction ts as [|t ts IHts]; intros i; [apply at_least_0|].
  rewrite kids_cons. iIntros "[Ht Hk]". iApply at_least_sep. iSplitL "Ht"; [by iApply IH|by iApply IHts].
Qed.
Lemma own_tree_at_least ht par pos t : own_tree ht par pos t ⊢ at_least (nodes_of t).
Proof using Type.
  revert par pos t. induction ht as [|ht IH]; intros par pos [l cap vs ts]; rewrite own_tree_unfold.
  - iIntros "(%Hok & (%arr & _ & Hl) & _)". destruct Hok as [_ [_ ->]]. by iApply points_to_at_least.
  - iIntros "(_ & (%arr & _ & Hl) & Hk)". iApply (at_least_sep 1). iSplitL "Hl"; [by iApply points_to_at_least|].
    by iApply kids_at_least.
Qed.

Lemma sum_nodes_cons t ts : sum_list (nodes_of <$> t :: ts) = (nodes_of t + sum_list (nodes_of <$> ts))%nat.
Proof using Type. done. Qed.
Lemma sum_nodes_nil : sum_list (nodes_of <$> ([] : list (tree V))) = O.
Proof using Type. done. Qed.
Lemma nodes_of_pos t : (0 < nodes_of t)%nat.
Proof using Type. destruct t. cbn. lia. Qed.
Lemma length_nodes ts : (length ts <= sum_list (nodes_of <$> ts))%nat.
Proof using Type. induction ts as [|[l cap vs ts'] ts IH]; cbn; lia. Qed.

(** *** What is left of a tree *)

Definition frame : Type := loc * list V * nat * list (tree V).
Definition frame_loc (f : frame) : loc := f.1.1.1.

Section stack.
Context (par0 : loc) (pos0 : Z).

Definition stack_parent (st : list frame) : loc := match st with [] => par0 | f :: _ => frame_loc f end.
Definition stack_pos (st : list frame) : Z := match st with [] => pos0 | (_, _, i, _) :: _ => Z.of_nat i - 1 end.
Definition stack_nodes (st : list frame) : nat := sum_list ((λ f, S (sum_list (nodes_of <$> f.2))) <$> st).

Definition own_frame (l : loc) (vs : list V) (i : nat) (ts : list (tree V)) (st : list frame) : hPropI V :=
  ∃ arr, ⟦length arr = S slots_max /\ (length vs <= slots_max)%nat /\ (i + length ts = S (length vs))%nat /\
    children_at i (root_loc <$> ts) arr⟧ ∗
    l ↦ mkNode (stack_parent st) (stack_pos st) 0 (Z.of_nat (length vs)) 0 (slots_of slots_max vs) arr.

Fixpoint own_stack (ht : nat) (st : list frame) : hPropI V :=
  match st with
  | [] => emp
  | (l, vs, i, ts) :: st => own_frame l vs i ts st ∗ kids ht l i ts ∗ own_stack (S ht) st
  end.

Lemma own_stack_at_least ht st : own_stack ht st ⊢ at_least (stack_nodes st).
Proof using Type.
  revert ht. induction st as [|[[[l vs] i] ts] st IH]; intros ht; cbn [own_stack].
  - iApply at_least_0.
  - iIntros "((%arr & _ & Hl) & Hk & Hst)". iApply (at_least_sep (S (sum_list (nodes_of <$> ts)))).
    iSplitR "Hst"; [|by iApply IH]. iApply (at_least_sep 1). iSplitL "Hl"; [by iApply points_to_at_least|].
    iApply (kids_at_least with "Hk"). apply own_tree_at_least.
Qed.

(** Down to the leftmost leaf. *)
Fixpoint spine t (st : list frame) : list frame :=
  match t with
  | Tree l _ vs (Tree _ _ _ (_ :: _) as t' :: ts) => spine t' ((l, vs, 1%nat, ts) :: st)
  | Tree l _ vs ts => (l, vs, O, ts) :: st
  end.

Lemma own_spine ht t st :
  own_tree (S ht) (stack_parent st) (stack_pos st) t ∗ own_stack (S ht) st ⊢ own_stack 0 (spine t st).
Proof using Type.
  revert t st. induction ht as [|ht IH]; intros [l cap vs ts] st; rewrite own_tree_unfold;
    iIntros "((%Hok & (%arr & %Harr & Hl) & Hk) & Hst)"; destruct Hok as (Hc & -> & Hlen), Harr as [Hat Harr]; cbn in *;
    (destruct ts as [|[l' cap' vs' ts'] ts]; [done|]).
  - rewrite kids_cons own_tree_unfold. iDestruct "Hk" as "[(%Hok & Hl' & Hk') Hk]". destruct Hok as (Hc' & ? & ->).
    cbn [spine own_stack]. iFrame "Hst". iSplitL "Hl".
    + iExists arr. iFrame. iPureIntro. cbn in *. split_and!; (done || lia).
    + rewrite kids_cons own_tree_unfold. iFrame. iPureIntro. by split.
  - rewrite kids_cons. iDestruct "Hk" as "[Ht Hk]". iDestruct (own_tree_ok with "Ht") as "[%Hok Ht]".
    destruct Hok as (_ & _ & Hts'). destruct ts' as [|t'' ts'']; [done|]. change (spine _ st) with (spine (Tree l' cap' vs' (t'' :: ts'')) ((l, vs, 1%nat, ts) :: st)).
    iApply IH. cbn [own_stack stack_parent stack_pos frame_loc fst]. iFrame. iPureIntro.
    apply children_at_cons in Hat as [_ Hat]. cbn in *. split_and!; (done || lia).
Qed.

Lemma stack_nodes_cons l vs i ts st :
  stack_nodes ((l, vs, i, ts) :: st) = (S (sum_list (nodes_of <$> ts)) + stack_nodes st)%nat.
Proof using Type. done. Qed.
Lemma nodes_of_cons l cap vs t ts :
  nodes_of (Tree l cap vs (t :: ts)) = (S (nodes_of t) + sum_list (nodes_of <$> ts))%nat.
Proof using Type. done. Qed.

Lemma spine_step ht l cap vs t ts st : tree_wf (S ht) t ->
  spine (Tree l cap vs (t :: ts)) st = spine t ((l, vs, 1%nat, ts) :: st).
Proof using Type. destruct t as [l' cap' vs' [|t' ts']]; [|done]. by intros [(_ & _ & ?) _]. Qed.

Lemma spine_nodes ht t st : tree_wf (S ht) t -> stack_nodes (spine t st) = (nodes_of t + stack_nodes st)%nat.
Proof using Type.
  revert t st. induction ht as [|ht IH]; intros [l cap vs [|t ts]] st [(_ & _ & Hlen) Hts]; try done; apply Forall_cons in Hts as [Ht Hts].
  - destruct t as [l' cap' vs' ts']. destruct Ht as [(_ & _ & ->) _].
    cbn [spine]. by rewrite stack_nodes_cons.
  - rewrite (spine_step ht) //. rewrite IH; [|done]. rewrite stack_nodes_cons nodes_of_cons. lia.
Qed.
Lemma spine_leaf ht t st : tree_wf (S ht) t -> exists l vs t' ts st', spine t st = (l, vs, O, t' :: ts) :: st' /\ root_loc t' = leftmost_loc t.
Proof using Type.
  revert t st. induction ht as [|ht IH]; intros [l cap vs [|t ts]] st [(_ & _ & Hlen) Hts]; try done; apply Forall_cons in Hts as [Ht Hts].
  - destruct t as [l' cap' vs' ts']. destruct Ht as [(_ & _ & ->) _]. by eexists _, _, _, _, _.
  - rewrite (spine_step ht) //. by apply (IH t).
Qed.

Definition stack_locs (st : list frame) : list loc := mjoin ((λ f, frame_loc f :: mjoin (internal_locs <$> f.2)) <$> st).

Lemma spine_locs P ht t st : tree_wf (S ht) t -> Forall P (internal_locs t) -> Forall P (stack_locs st) ->
  Forall P (stack_locs (spine t st)).
Proof using Type.
  revert t st. induction ht as [|ht IH]; intros [l cap vs [|t ts]] st [(_ & _ & Hlen) Hts] HP Hst; try done;
    apply Forall_cons in Hts as [Ht Hts]; cbn [internal_locs] in HP.
  - destruct t as [l' cap' vs' ts']. destruct Ht as [(_ & _ & ->) _]. by apply Forall_app.
  - rewrite (spine_step ht) //. apply Forall_cons in HP as [Hl HP]. cbn in HP. apply Forall_app in HP as [HP1 HP2].
    apply IH; [done|done|]. apply (Forall_app _ (_ :: _)). split; [|done]. by constructor.
Qed.
Lemma spine_not_in p ht t st : tree_wf (S ht) t -> p ∉ internal_locs t -> p ∉ stack_locs st -> p ∉ stack_locs (spine t st).
Proof using Type.
  intros Hwf Ht Hst Hp. refine (proj1 (Forall_forall (λ q, q ≠ p) _) (spine_locs _ _ _ _ Hwf _ _) _ Hp eq_refl);
    apply Forall_forall; intros q Hq ->; done.
Qed.
End stack.

(** *** The leftmost leaf *)

Lemma wf_nodes ht t : tree_wf ht t -> (ht < nodes_of t)%nat.
Proof using Type.
  revert t. induction ht as [|ht IH]; intros [l cap vs ts] [Hok Hts]; [cbn; lia|].
  destruct Hok as (_ & _ & Hlen). destruct ts as [|t ts]; [done|]. apply Forall_cons in Hts as [Ht _].
  rewrite nodes_of_cons. apply IH in Ht. lia.
Qed.

Lemma wp_start_child ht l par pos cap vs t ts (Ψ : loc -> hPropI V) :
  own_tree (S ht) par pos (Tree l cap vs (t :: ts)) -∗
  (own_tree (S ht) par pos (Tree l cap vs (t :: ts)) -∗ Ψ (root_loc t)) -∗ wp (start_child l) Ψ.
Proof using Type.
  rewrite own_tree_unfold. iIntros "(%Hok & (%arr & %Harr & Hl) & Hk) HΨ". iApply wp_bind.
  iApply (wp_start with "Hl"). iIntros "Hl". destruct Harr as [Hat Harr].
  iApply (wp_child with "Hl"); [apply Hok|lia|by apply (children_at_lookup _ _ _ 0 _ Hat)|].
  iIntros "Hl". iApply "HΨ". iFrame. iPureIntro. by split_and!.
Qed.

Lemma wp_leftmost_leaf ht par pos t fuel (Ψ : loc -> hPropI V) : (ht < fuel)%nat ->
  own_tree ht par pos t -∗ (own_tree ht par pos t -∗ Ψ (leftmost_loc t)) -∗ wp (leftmost_leaf fuel (root_loc t)) Ψ.
Proof.
  revert par pos t fuel Ψ. induction ht as [|ht IH]; intros par pos [l cap vs ts] [|fuel] Ψ Hf; try lia; cbn [leftmost_leaf];
    iIntros "Ht HΨ"; iDestruct (own_tree_ok with "Ht") as "[%Hok Ht]"; destruct Hok as (_ & ? & Hts);
    iApply wp_bind; iApply (wp_tree_is_internal with "Ht"); iIntros "Ht"; cbn [negb Nat.eqb].
  - iApply wp_ret. subst ts. by iApply "HΨ".
  - destruct ts as [|t ts]; [done|]. iApply wp_bind. iApply (wp_start_child with "Ht"). iIntros "Ht".
    rewrite own_tree_unfold. iDestruct "Ht" as "(%Hok & Hl & Hk)". cbn [kids_below]. rewrite kids_cons.
    iDestruct "Hk" as "[Ht Hk]". iApply (IH with "Ht"); [lia|]. iIntros "Ht". iApply "HΨ".
    iFrame. by iPureIntro.
Qed.

(** *** The loops *)
Section loops.
Context (par0 : loc) (pos0 : Z).
Let own_st := own_stack par0 pos0.

(** The end of the body of the first inner loop. *)
Definition delete_leaf (fuel : nat) (node : loc) (pos : Z) (q : loc) : M V (Z * loc) :=
  destroy_all node ;;
  let! m := max_count node in
  deallocate_leaf m node ;;
  let! f := finish q in
  if pos + 1 <=? f then delete_leaves fuel (pos + 1) q else ret (pos + 1, q).

Lemma wp_delete_leaf ts l vs i t st fuel (Ψ : Z * loc -> hPropI V) : (length ts <= fuel)%nat ->
  own_st 0 ((l, vs, i, t :: ts) :: st) -∗
  (own_st 0 ((l, vs, S (length vs), []) :: st) -∗ Ψ (Z.of_nat (S (length vs)), l)) -∗
  wp (delete_leaf fuel (root_loc t) (Z.of_nat i) l) Ψ.
Proof.
  pose proof slots_max_Z. revert i t fuel. induction ts as [|t' ts IH]; intros i [l' cap' vs' ts'] fuel Hf; cbn [own_stack own_st];
    iIntros "((%arr & (%Ha & %Hm & %Hi & %Hat) & Hl) & Hk & Hst) HΨ"; rewrite kids_cons own_tree_unfold;
    iDestruct "Hk" as "((%Hok & Ht & _) & Hk)"; assert (ts' = []) as -> by apply Hok; cbn in Hi;
    (iApply (wp_destroy_leaf with "Ht"); [done|]); iIntros "Ht"; iApply wp_bind;
    (iApply (wp_deallocate_leaf with "Ht"); [destruct Hok as [_ [? _]]; lia|]);
    iApply wp_bind; iApply (wp_finish with "Hl"); iIntros "Hl"; apply children_at_cons in Hat as [_ Hat].
  - rewrite (proj2 (Z.leb_gt _ _)); [|lia]. iApply wp_ret. replace (Z.of_nat i + 1) with (Z.of_nat (S (length vs))) by lia.
    iApply "HΨ". rewrite !kids_nil. iFrame. iPureIntro. split_and!; (done || cbn; lia).
  - rewrite (proj2 (Z.leb_le _ _)); [|lia]. replace (Z.of_nat i + 1) with (Z.of_nat (S i)) by lia.
    destruct fuel as [|fuel]; [cbn in Hf; lia|]. cbn [delete_leaves]. iApply wp_bind. rewrite field_id; [|lia].
    cbn in Hat. apply children_at_cons in Hat as [Hc Hat].
    iApply (wp_child_at with "Hl"); [done|]. iIntros "Hl". rewrite kids_cons. iDestruct "Hk" as "[Ht Hk]".
    iApply wp_bind. iApply (wp_tree_is_internal with "Ht"). iIntros "Ht". cbn [negb Nat.eqb].
    iApply wp_bind. iApply wp_ret. iApply (IH with "[Hl Ht Hk Hst] HΨ"); [cbn in Hf; lia|].
    cbn [own_stack own_st]. rewrite kids_cons. iFrame. iPureIntro. cbn. split_and!; (done || lia || idtac).
    by apply children_at_cons.
Qed.

(** The stack after the first inner loop. *)
Definition leaves_gone (n : nat) (r : Z * loc) : hPropI V :=
  ∃ l vs st, ⟦r = (Z.of_nat (S (length vs)), l) /\ par0 ∉ stack_locs ((l, vs, S (length vs), []) :: st) /\
    (stack_nodes ((l, vs, S (length vs), []) :: st) < n)%nat⟧ ∗ own_st 0 ((l, vs, S (length vs), []) :: st).

(** Going to the leftmost leaf of a tree on the stack. *)
Lemma wp_to_leaf {X} ht t st (k : nat -> loc -> Z -> loc -> M V X) (Ψ : X -> hPropI V) :
  own_tree (S ht) (stack_parent par0 st) (stack_pos pos0 st) t -∗ own_st (S ht) st -∗
  (∀ n l vs t' ts st', ⟦spine t st = (l, vs, O, t' :: ts) :: st' /\ tree_wf (S ht) t /\ (nodes_of t + stack_nodes st < n)%nat⟧ -∗
     own_st 0 ((l, vs, O, t' :: ts) :: st') -∗ wp (k n (root_loc t') 0 l) Ψ) -∗
  wp (let! n := heap_fuel in let! node := leftmost_leaf n (root_loc t) in
      let! pos := position node in let! q := parent node in k n node pos q) Ψ.
Proof.
  iIntros "Ht Hst HΨ". iApply wp_bind.
  iApply (wp_heap_fuel (own_tree (S ht) (stack_parent par0 st) (stack_pos pos0 st) t ∗ own_st (S ht) st) (nodes_of t + stack_nodes st)
    with "[$Ht $Hst]").
  { iIntros "[Ht Hst]". iApply at_least_sep. iSplitL "Ht"; [by iApply own_tree_at_least|by iApply own_stack_at_least]. }
  iIntros (n) "%Hn [Ht Hst]". iDestruct (own_tree_wf with "Ht") as "[%Hwf Ht]". pose proof (wf_nodes _ _ Hwf).
  iApply wp_bind. iApply (wp_leftmost_leaf with "Ht"); [lia|]. iIntros "Ht".
  destruct (spine_leaf _ _ st Hwf) as (l & vs & t' & ts & st' & Hsp & <-).
  iPoseProof (own_spine with "[$Ht $Hst]") as "Hst". rewrite Hsp. cbn [own_stack]. rewrite kids_cons.
  iDestruct "Hst" as "(Hl & [Ht Hk] & Hst)". iApply wp_bind. iApply (wp_tree_position with "Ht"). iIntros "Ht".
  iApply wp_bind. iApply (wp_tree_parent with "Ht"). iIntros "Ht".
  iApply ("HΨ" with "[] [Hl Ht Hk Hst]"); [by iPureIntro|]. cbn [own_st own_stack]. rewrite kids_cons. iFrame.
Qed.

Lemma wp_delete_leaves ht l vs i t ts st fuel :
  (stack_nodes ((l, vs, i, t :: ts) :: st) < fuel)%nat -> par0 ∉ stack_locs ((l, vs, i, t :: ts) :: st) ->
  own_st ht ((l, vs, i, t :: ts) :: st) ⊢
  wp (delete_leaves fuel (Z.of_nat i) l) (leaves_gone (stack_nodes ((l, vs, i, t :: ts) :: st))).
Proof.
  intros Hf Hp. pose proof slots_max_Z. destruct fuel as [|fuel]; [lia|]. rewrite stack_nodes_cons in Hf |- *.
  rewrite sum_nodes_cons in Hf |- *. pose proof (length_nodes ts) as Hlts.
  cbn [delete_leaves own_st own_stack]. iIntros "((%arr & (%Ha & %Hm & %Hi & %Hat) & Hl) & Hk & Hst)".
  cbn in Hi. apply children_at_cons in Hat as [Hc Hat]. iApply wp_bind. rewrite field_id; [|lia].
  iApply (wp_child_at with "Hl"); [done|]. iIntros "Hl". rewrite kids_cons. iDestruct "Hk" as "[Ht Hk]".
  iApply wp_bind. iApply (wp_tree_is_internal with "Ht"). iIntros "Ht". iApply wp_bind.
  iDestruct (own_tree_wf with "Ht") as "[%Hwf Ht]". pose proof (wf_nodes _ _ Hwf).
  destruct ht as [|ht]; cbn [negb Nat.eqb].
  - iApply wp_ret. iApply (wp_delete_leaf ts _ _ _ _ st with "[Hl Ht Hk Hst]"); [lia| |].
    + cbn [own_st own_stack]. rewrite kids_cons. iFrame. iPureIntro. split_and!; (done || cbn; lia || idtac). by apply children_at_cons.
    + iIntros "Hst". iExists _, _, _. iFrame. iPureIntro. split; [done|]. rewrite stack_nodes_cons sum_nodes_nil. split; [|lia].
      unfold stack_locs in *. cbn in *. set_solver.
  - iApply (wp_to_leaf ht t ((l, vs, S i, ts) :: st) with "[Ht] [Hl Hk Hst]").
    + cbn. replace (Z.of_nat (S i) - 1) with (Z.of_nat i) by lia. iFrame.
    + cbn [own_st own_stack]. iFrame. iPureIntro. split_and!; (done || lia).
    + iIntros (n l' vs' t' ts' st') "(%Hsp & _ & %Hn) Hst". iApply wp_ret.
      pose proof (spine_nodes _ _ ((l, vs, S i, ts) :: st) Hwf) as Hno.
      assert (par0 ∉ stack_locs (spine t ((l, vs, S i, ts) :: st))) as Hno'.
      { apply (spine_not_in _ ht); [done|..]; unfold stack_locs in *; cbn in *; set_solver. }
      rewrite Hsp !stack_nodes_cons sum_nodes_cons in Hno. rewrite Hsp in Hno'.
      iApply (wp_delete_leaf ts' _ _ _ _ st' with "Hst"); [pose proof (length_nodes ts'); lia|]. pose proof (nodes_of_pos t').
      iIntros "Hst". iExists _, _, _. iFrame. iPureIntro. split; [done|]. rewrite stack_nodes_cons sum_nodes_nil. split; [|lia].
      unfold stack_locs in *. cbn in *. set_solver.
Qed.

(** And after the second. *)
Definition internals_gone (n : nat) (r : option (Z * loc)) : hPropI V :=
  match r with
  | None => emp
  | Some r => ∃ ht l vs i t ts st, ⟦r = (Z.of_nat i, l) /\ par0 ∉ stack_locs ((l, vs, i, t :: ts) :: st) /\
      (stack_nodes ((l, vs, i, t :: ts) :: st) < n)%nat⟧ ∗ own_st ht ((l, vs, i, t :: ts) :: st)
  end.

Lemma wp_delete_internals n ht l vs i st fuel :
  (length st < fuel)%nat -> par0 ∉ stack_locs ((l, vs, i, []) :: st) -> (stack_nodes ((l, vs, i, []) :: st) <= n)%nat ->
  own_st ht ((l, vs, i, []) :: st) ⊢ wp (delete_internals fuel par0 l) (internals_gone n).
Proof.
  pose proof slots_max_Z. revert ht l vs i fuel. induction st as [|[[[l' vs'] i'] ts'] st IH]; intros ht l vs i [|fuel] Hf Hp Hn;
    try (cbn in Hf; lia); rewrite stack_nodes_cons sum_nodes_nil in Hn; cbn [delete_internals own_st own_stack];
    iIntros "((%arr & (%Ha & %Hm & %Hi & %Hat) & Hl) & _ & Hst)";
    iApply wp_bind; iApply (wp_position with "Hl"); iIntros "Hl"; iApply wp_bind; iApply (wp_parent with "Hl"); iIntros "Hl";
    iApply wp_bind; (iApply (wp_destroy_all with "Hl"); [done|done|]); iIntros "Hl";
    iApply wp_bind; (iApply (wp_deallocate_internal with "Hl"); [done|]); cbn [stack_parent stack_pos frame_loc fst].
  - rewrite decide_True //. by iApply wp_ret.
  - rewrite decide_False; last first. { intros ->. unfold stack_locs in Hp. cbn in Hp. set_solver. }
    rewrite stack_nodes_cons in Hn. iDestruct "Hst" as "((%arr' & (%Ha' & %Hm' & %Hi' & %Hat') & Hl') & Hk & Hst)".
    iApply wp_bind. iApply (wp_finish with "Hl'"). iIntros "Hl'". destruct ts' as [|t' ts']; cbn in Hi'.
    + rewrite (proj2 (Z.ltb_lt _ _)); [|lia]. iApply (IH with "[Hl' Hk Hst]"); [cbn in Hf; lia| | |].
      * unfold stack_locs in *. cbn in *. set_solver.
      * rewrite stack_nodes_cons. lia.
      * cbn [own_st own_stack]. iFrame. iPureIntro. split_and!; (done || cbn; lia).
    + rewrite (proj2 (Z.ltb_ge _ _)); [|lia]. iApply wp_ret. iExists (S ht), l', vs', i', t', ts', st. iSplitR.
      * iPureIntro. rewrite stack_nodes_cons. split; [f_equal; lia|]. split; [|lia]. unfold stack_locs in *. cbn in *. set_solver.
      * cbn [own_st own_stack]. iFrame. iPureIntro. split_and!; (done || cbn; lia).
Qed.

Lemma stack_nodes_length st : (length st <= stack_nodes st)%nat.
Proof using Type. induction st as [|[[[l vs] i] ts] st IH]; [done|]. rewrite stack_nodes_cons. cbn [length]. lia. Qed.

Lemma wp_delete_loop ht l vs i t ts st fuel :
  (stack_nodes ((l, vs, i, t :: ts) :: st) < fuel)%nat -> par0 ∉ stack_locs ((l, vs, i, t :: ts) :: st) ->
  own_st ht ((l, vs, i, t :: ts) :: st) ⊢ wp (delete_loop fuel par0 (Z.of_nat i) l) (λ _, emp).
Proof.
  revert ht l vs i t ts st. induction fuel as [|fuel IH]; intros ht l vs i t ts st Hf Hp; [lia|].
  cbn [delete_loop]. iIntros "Hst". iEval (cbn [own_st own_stack]) in "Hst".
  iDestruct "Hst" as "((%arr & %Ha & Hl) & Hk & Hst)". iApply wp_bind. iApply (wp_finish with "Hl"). iIntros "Hl".
  iApply wp_bind. iApply wp_check. { apply Z.leb_le. destruct Ha as (_ & _ & Hi & _). cbn in Hi. lia. }
  iAssert (own_st ht ((l, vs, i, t :: ts) :: st)) with "[Hl Hk Hst]" as "Hst". { cbn [own_st own_stack]. by iFrame. }
  iApply wp_bind. iApply (wp_heap_fuel with "Hst"); [apply own_stack_at_least|]. iIntros (n) "%Hn Hst". iApply wp_bind.
  iPoseProof (wp_delete_leaves with "Hst") as "Hw"; [done|done|]. iApply (wp_wand with "Hw").
  iIntros (r) "(%l1 & %vs1 & %st1 & %H1 & Hst)". destruct H1 as (-> & Hp1 & Hn1).
  iEval (cbn [own_st own_stack]) in "Hst". iDestruct "Hst" as "((%arr1 & %Ha1 & Hl) & Hk & Hst)".
  iApply wp_bind. iApply (wp_finish with "Hl"). iIntros "Hl". iApply wp_bind. iApply wp_check; [apply Z.ltb_lt; lia|].
  iApply wp_bind. iPoseProof (wp_delete_internals with "[Hl Hk Hst]") as "Hw"; [| |reflexivity| |].
  4: { iApply (wp_wand with "Hw"). iIntros ([[pos q]|]) "Hr"; [|by iApply wp_ret].
       iDestruct "Hr" as (ht2 l2 vs2 i2 t2 ts2 st2) "[%H2 Hst]". destruct H2 as (Hr & Hp2 & Hn2). injection Hr as -> ->.
       iApply (IH with "Hst"); [pose proof (Nat.lt_trans _ _ _ Hn2 Hn1); lia|done]. }
  - rewrite (stack_nodes_cons l1) in Hn1. pose proof (stack_nodes_length st1). unfold frame in *. lia.
  - done.
  - cbn [own_st own_stack]. by iFrame.
Qed.
End loops.

Lemma wp_clear_and_delete ht par pos l cap vs ts (Ψ : unit -> hPropI V) :
  par ∉ internal_locs (Tree l cap vs ts) -> (ht = O \/ vs ≠ []) ->
  own_tree ht par pos (Tree l cap vs ts) -∗ Ψ tt -∗ wp (clear_and_delete l) Ψ.
Proof.
  intros Hp Hne. iIntros "Ht HΨ". iDestruct (own_tree_ok with "Ht") as "[%Hok Ht]".
  destruct (leaf_capacity_bounds _ _ _ _ Hok) as (Hc & Hm & Hcap). pose proof slots_max_Z.
  unfold clear_and_delete. iApply wp_bind. iApply (wp_tree_is_leaf _ _ _ (Tree l cap vs ts) with "Ht"). iIntros "Ht".
  destruct ht as [|ht]; [rewrite bool_decide_true // |rewrite bool_decide_false //].
  - iEval (rewrite own_tree_unfold) in "Ht". iDestruct "Ht" as "(_ & Ht & _)".
    assert (ts = []) as -> by apply Hok. by iApply (wp_free_leaf with "Ht").
  - destruct Hne as [|Hne]; [done|]. iEval (rewrite own_tree_unfold) in "Ht".
    iDestruct "Ht" as "(_ & (%arr & %Ha & Hl) & Hk)". iApply wp_bind. iApply (wp_count with "Hl"); [lia|]. iIntros "Hl".
    assert (length vs ≠ O) by by destruct vs. rewrite (proj2 (Z.eqb_neq _ _)); [|lia].
    iApply wp_bind. iApply (wp_parent with "Hl"). iIntros "Hl".
    iApply (wp_to_leaf par pos ht (Tree l cap vs ts) [] with "[Hl Hk]").
    + rewrite own_tree_unfold. iFrame. by iPureIntro.
    + done.
    + iIntros (n l' vs' t' ts' st') "%Hsp Hst". destruct Hsp as (Hsp & Hwf & Hn). iPoseProof (wp_delete_loop with "Hst") as "Hw".
      3: { iApply (wp_wand with "Hw"). by iIntros ([]) "_". }
      * rewrite -Hsp (spine_nodes ht) //.
      * rewrite -Hsp. apply (spine_not_in _ ht); [done|done|]. set_solver.
Qed.

(** *** The nodes of a tree *)

Fixpoint locs t : list loc := match t with Tree l _ _ ts => l :: mjoin (locs <$> ts) end.

Lemma covers_kids ht l i ts : (forall par pos t, covers (own_tree ht par pos t) (locs t)) ->
  covers (kids ht l i ts) (mjoin (locs <$> ts)).
Proof using Type.
  intros IH. revert i. induction ts as [|t ts IHts]; intros i; [apply covers_emp|].
  eapply covers_equiv; [apply kids_cons|]. apply covers_sep; [apply IH|apply IHts].
Qed.
Lemma covers_tree ht par pos t : covers (own_tree ht par pos t) (locs t).
Proof using Type.
  revert par pos t. induction ht as [|ht IH]; intros par pos [l cap vs ts]; (eapply covers_equiv; [apply own_tree_unfold|]).
  - intros h (h1 & h2 & -> & Hd & [Hok ->]%affine_pure_holds & H2). rewrite left_id_L. assert (ts = []) as -> by apply Hok.
    clear Hd. revert h2 H2. change (covers (own_node l par pos cap vs [] ∗ emp) [l]). apply (covers_sep _ _ [l] []); [|apply covers_emp].
    apply covers_exist. intros arr. apply covers_pure, covers_points_to.
  - apply covers_pure, (covers_sep _ _ [l]); [|by apply covers_kids].
    apply covers_exist. intros arr. apply covers_pure, covers_points_to.
Qed.

Lemma internal_locs_sub ht t : tree_wf ht t -> internal_locs t ⊆ locs t.
Proof.
  revert t. induction ht as [|ht IH]; intros [l cap vs [|t ts]] [Hok Hts]; try (intros q Hq; set_solver).
  { by destruct Hok as (_ & _ & ?). }
  intros q Hq. cbn [internal_locs locs] in *. apply elem_of_cons in Hq as [->|Hq]; [set_solver|]. apply elem_of_cons. right.
  apply list_elem_of_join in Hq as (k & Hk & (t' & -> & Ht')%list_elem_of_fmap). apply list_elem_of_join.
  exists (locs t'). split; [|by apply list_elem_of_fmap_2]. apply (IH t'); [|done]. by eapply Forall_forall in Hts.
Qed.

Lemma own_tree_not_in ht par pos t p n : own_tree ht par pos t ∗ p ↦ n ⊢ ⟦p ∉ internal_locs t⟧ ∗ own_tree ht par pos t ∗ p ↦ n.
Proof.
  iIntros "[Ht Hp]". iDestruct (own_tree_wf with "Ht") as "[%Hwf Ht]".
  iDestruct (covers_nodup _ _ (covers_sep _ _ _ _ (covers_tree ht par pos t) (covers_points_to p n)) with "[$Ht $Hp]") as "[%Hnd [Ht Hp]]".
  iFrame. iPureIntro. intros Hin%(internal_locs_sub ht); [|done]. apply NoDup_app in Hnd as (_ & Hnd & _). set_solver.
Qed.

Lemma leftmost_loc_in t : leftmost_loc t ∈ locs t.
Proof.
  revert t. fix IH 1. intros [l cap vs [|t ts]]; cbn; [set_solver|]. apply elem_of_cons. right. apply elem_of_app. left. apply IH.
Qed.
Lemma leftmost_not_internal ht t : tree_wf ht t -> NoDup (locs t) -> leftmost_loc t ∉ internal_locs t.
Proof.
  revert t. induction ht as [|ht IH]; intros [l cap vs [|t ts]] [Hok Hts] Hnd; try (cbn; set_solver).
  { by destruct Hok as (_ & _ & ?). }
  apply Forall_cons in Hts as [Ht Hts]. cbn [leftmost_loc internal_locs locs] in *. cbn in Hnd.
  apply NoDup_cons in Hnd as [Hl Hnd]. apply NoDup_app in Hnd as (Hnd & Hdis & _). pose proof (leftmost_loc_in t).
  apply not_elem_of_cons. split; [set_solver|]. cbn. apply not_elem_of_app. split; [by apply IH|].
  intros (k & Hk & (t' & -> & Ht')%list_elem_of_fmap)%list_elem_of_join. apply (Hdis (leftmost_loc t)); [done|].
  apply list_elem_of_join. exists (locs t'). split; [|by apply list_elem_of_fmap_2]. apply (internal_locs_sub ht); [|done].
  by eapply Forall_forall in Hts.
Qed.

(** *** What a parent can delete *)

Definition has_values (ht : nat) t : Prop := match t with Tree _ _ vs _ => ht = O \/ vs ≠ [] end.
Definition disposable (ht : nat) (p : loc) (i : nat) (c : loc) : hPropI V :=
  (∃ t, ⟦root_loc t = c /\ has_values ht t⟧ ∗ own_tree ht p (Z.of_nat i) t) ∨ (∃ cap, husk c p (Z.of_nat i) cap).

Lemma wp_dispose ht p i c n (Ψ : unit -> hPropI V) :
  disposable ht p i c -∗ p ↦ n -∗ (p ↦ n -∗ Ψ tt) -∗ wp (clear_and_delete c) Ψ.
Proof.
  iIntros "[(%t & %Ht & Ht)|(%cap & Hc)] Hp HΨ".
  - destruct t as [l cap vs ts], Ht as [<- Hv]. iDestruct (own_tree_not_in with "[$Ht $Hp]") as "(%Hin & Ht & Hp)".
    iApply (wp_clear_and_delete with "Ht [Hp HΨ]"); [done|done|]. by iApply "HΨ".
  - iApply (wp_free_husk with "Hc"). by iApply "HΨ".
Qed.
End free.
