(* ===== verification/BtreeMove.v ===== *)
(** * BtreeMove: moving values and children between siblings (lemmas for BtreeNode.v)

    What [remove_values], [rebalance_right_to_left], [rebalance_left_to_right],
    [split] and [merge] do to the trees they are called on. *)

From S2P Require Import Prelude.
From S2P Require Import BtreeNode.
From S2P Require Import HeapLogic.
From S2P Require Import BtreeTree.
From S2P Require Import BtreeFree.
From iris.proofmode Require Import proofmode.

Import btree_node.
#[local] Open Scope Z_scope.
#[local] Open Scope cpp_scope.

Lemma raw_replicate {V} k : Raw :: replicate k (@Raw V) = replicate (S k) Raw.
Proof. done. Qed.

(** Equalities between lists of slots. *)
Ltac solve_slots :=
  unfold slots_of; rewrite ?fmap_app ?fmap_cons ?length_app ?length_cons ?length_fmap;
  cbn [app length fmap list_fmap]; rewrite -?app_assoc -?replicate_add ?raw_replicate; cbn [app]; repeat first [reflexivity | lia | progress f_equal].

Section move.
Context {K V : Type} `{PB : BtreeParams K V} {LB : BtreeLaws K V} `{AL : Allocator} {FL : AllocatorLaws}.
Implicit Types (p q : loc) (t : tree V) (ts : list (tree V)) (vs A B xs ys : list V) (arr : list (option loc)) (w v : V).

Lemma slots_raw n vs k : (length vs + k <= n)%nat ->
  slots_of n vs = (Live <$> vs) ++ replicate k Raw ++ replicate (n - length vs - k) Raw.
Proof using Type. intros Hn. solve_slots. Qed.
Lemma slots_raw_cons n vs k : (length vs + S k <= n)%nat ->
  slots_of n vs = (Live <$> vs) ++ Raw :: replicate k Raw ++ replicate (n - length vs - S k) Raw.
Proof using Type. intros Hn. by rewrite (slots_raw n vs (S k)). Qed.
Lemma slots_app n xs ys : (length xs + length ys <= n)%nat ->
  slots_of n (xs ++ ys) = (Live <$> xs) ++ (Live <$> ys) ++ replicate (n - length xs - length ys) Raw.
Proof using Type. intros Hn. solve_slots. Qed.
Lemma slots_middle n xs v ys : (length xs + S (length ys) <= n)%nat ->
  slots_of n (xs ++ v :: ys) = (Live <$> xs) ++ Live v :: (Live <$> ys) ++ replicate (n - length xs - S (length ys)) Raw.
Proof using Type. intros Hn. solve_slots. Qed.

Lemma points_to_eq p (n n' : node V) : n = n' -> p ↦ n ⊢ p ↦ n'.
Proof using Type. by intros ->. Qed.

(** *** [remove_values] *)

Lemma wp_remove_values p par pos cap arr A B (es : list (slot V)) i k ht gone ts2 (Ψ : unit -> hPropI V) :
  i = Z.of_nat (length A) -> k = Z.of_nat (length es) -> (0 < length es)%nat -> Raw ∉ es ->
  (length A + length es + length B <= capacity cap)%nat -> (capacity cap <= slots_max)%nat -> length arr = child_slots cap ->
  length gone = (if cap =? 0 then length es else O) -> length ts2 = (if cap =? 0 then length B else O) ->
  children_at (S (length A)) gone arr -> children_at (S (length A) + length es) (root_loc <$> ts2) arr ->
  p ↦ mkNode par pos 0 (Z.of_nat (length A + length es + length B)) cap
      ((Live <$> A) ++ es ++ (Live <$> B) ++ replicate (capacity cap - length A - length es - length B) Raw) arr -∗
  ([∗ list] j ↦ c ∈ gone, disposable ht p (S (length A) + j) c) -∗ kids ht p (S (length A) + length es) ts2 -∗
  (∀ arr', ⟦length arr' = length arr /\ (forall k, (k <= length A)%nat -> arr' !! k = arr !! k) /\
     children_at (S (length A)) (root_loc <$> ts2) arr'⟧ -∗
   p ↦ mkNode par pos 0 (Z.of_nat (length (A ++ B))) cap (slots_of (capacity cap) (A ++ B)) arr' -∗
   kids ht p (S (length A)) ts2 -∗ Ψ tt) -∗
  wp (remove_values p i k) Ψ.
Proof.
  intros -> -> Hpos Hraw Hn Hmax Harr Hgone Hts Hc1 Hc2. pose proof slots_max_Z as Hm. iIntros "Hp Hg Hk HΨ".
  iApply wp_bind. iApply (wp_value_destroy_n with "Hp"); [by rewrite length_fmap|done|done|]. iIntros "Hp".
  iApply wp_bind. iApply (wp_finish with "Hp"). iIntros "Hp". rewrite field_id; [|lia].
  iApply wp_bind. replace (Z.of_nat (length A + length es + length B) - (Z.of_nat (length A) + Z.of_nat (length es)))
    with (Z.of_nat (length B)) by lia.
  iApply (wp_transfer_n_down with "Hp"); [done|by rewrite length_fmap|rewrite length_fmap; lia|done|]. iIntros "Hp".
  iApply wp_bind. iApply (wp_is_internal with "Hp"). iIntros "Hp".
  set (f := Z.of_nat (length A + length es + length B)).
  iEval (rewrite (_ : (Live <$> A) ++ (Live <$> B) ++ _ = slots_of (capacity cap) (A ++ B)); [|solve_slots]) in "Hp".
  iAssert (wp (if cap =? 0 then _ else ret tt) (λ _, ∃ arr', ⟦length arr' = length arr /\
     (forall k, (k <= length A)%nat -> arr' !! k = arr !! k) /\ children_at (S (length A)) (root_loc <$> ts2) arr'⟧ ∗
     p ↦ mkNode par pos 0 f cap (slots_of (capacity cap) (A ++ B)) arr' ∗ kids ht p (S (length A)) ts2))%I
    with "[Hp Hg Hk]" as "Hw"; last first.
  { iApply wp_bind. iApply (wp_wand with "Hw"). iIntros ([]) "(%arr' & %Ha & Hp & Hk)".
    iApply (wp_set_finish with "Hp"); [lia|]. iIntros "Hp". subst f. iApply ("HΨ" with "[] [Hp] Hk"); [by iPureIntro|].
    replace (Z.of_nat (length (A ++ B))) with (Z.of_nat (length A + length es + length B) - Z.of_nat (length es));
      [done|rewrite length_app; lia]. }
  subst f. destruct (Z.eqb_spec cap 0) as [->|Hcap]; cycle 1.
  { apply nil_length_inv in Hts as ->, Hgone as ->. iApply wp_ret. iExists arr. rewrite !kids_nil. iFrame.
    iPureIntro. split; [done|]. split; [done|apply children_at_nil]. }
  change (capacity 0) with slots_max in *. cbn in Harr.
  iApply wp_bind. set (nd arr := mkNode par pos 0 (Z.of_nat (length A + length es + length B)) 0 (slots_of slots_max (A ++ B)) arr).
  iPoseProof (wp_for_loop Z.of_nat (length gone) children_fuel (λ j, ret (j <? Z.of_nat (length es))) (λ j, field (j + 1))
    (λ j, let! c := child p (field (Z.of_nat (length A) + j + 1)) in clear_and_delete c)
    (λ j, p ↦ nd arr ∗ [∗ list] j' ↦ c ∈ drop j gone, disposable ht p (S (length A) + (j + j')) c)%I with "[$Hp $Hg]") as "Hw".
  { unfold children_fuel. lia. } { intros j Hj. rewrite field_id; lia. }
  { intros j Hj. iIntros "Hp". iApply wp_ret. iFrame. iPureIntro.
    destruct (Z.ltb_spec (Z.of_nat j) (Z.of_nat (length es))); case_bool_decide; lia || done. }
  { intros j Hj. iIntros "[Hp Hg]". destruct (lookup_lt_is_Some_2 gone j) as [c Hc]; [lia|]. rewrite (drop_S _ _ _ Hc).
    iDestruct "Hg" as "[Hd Hg]". iApply wp_bind. rewrite field_id; [|lia].
    replace (Z.of_nat (length A) + Z.of_nat j + 1) with (Z.of_nat (S (length A) + j)) by lia.
    iApply (wp_child_at with "Hp"); [by apply Hc1|]. iIntros "Hp". rewrite Nat.add_0_r.
    iApply (wp_dispose with "Hd Hp"). iIntros "Hp". iFrame. iApply (big_sepL_mono with "Hg"). intros k c' _.
    by replace (j + S k)%nat with (S j + k)%nat by lia. }
  iApply (wp_wand with "Hw"). iIntros ([]) "[Hp Hn]". rewrite drop_all. iClear "Hn".
  iPoseProof (wp_kids_down ht p nd ts2 (S (length A)) (length es) Hpos (λ j, Z.of_nat (length A + length es + 1 + j))
    children_fuel (λ j, ret (j <=? Z.of_nat (length A + length es + length B))) (λ j, field (j + 1))
    (λ j, let! c := child p j in set_child p (field (j - Z.of_nat (length es))) c ;; clear_child p j) arr emp%I with "[$Hp $Hk]") as "Hw".
  { unfold children_fuel. lia. } { lia. } { done. } { intros j Hj. rewrite field_id; lia. }
  { intros j brr Hj. iIntros "[Hp _]". iApply wp_ret. iFrame. iPureIntro.
    destruct (Z.leb_spec (Z.of_nat (length A + length es + 1 + j)) (Z.of_nat (length A + length es + length B)));
      case_bool_decide; lia || done. }
  { intros j brr t Hj Hl Hc. iIntros "(Hp & Ht & _)". iApply wp_bind. rewrite field_id; [|lia].
    replace (Z.of_nat (length A + length es + 1 + j) - Z.of_nat (length es)) with (Z.of_nat (S (length A) + j)) by lia.
    replace (Z.of_nat (length A + length es + 1 + j)) with (Z.of_nat (S (length A) + length es + j)) by lia.
    iApply (wp_child_at with "Hp"); [done|]. iIntros "Hp". iApply wp_bind.
    iApply (wp_set_child with "Hp Ht"); [lia|lia|]. iIntros "Hp Ht". iApply (wp_clear_child with "Hp"); [rewrite length_insert; lia|].
    iIntros "Hp". iExists _. iFrame. iPureIntro. apply child_moved_clear; lia. }
  iEval (rewrite (_ : field (Z.of_nat (length A) + Z.of_nat (length es) + 1) = Z.of_nat (length A + length es + 1 + 0)); [|rewrite field_id; lia]).
  iApply (wp_wand with "Hw"). iIntros ([]) "(%brr & %Hb & Hp & Hk & _)". destruct Hb as [[Hl Hs] Hc].
  iExists brr. iFrame. iPureIntro. split_and!; [lia| |done]. intros k Hk. apply Hs. lia.
Qed.

(** *** Rebalancing *)

(** The cell of an internal node. *)
Definition inner q (qpar : loc) (qpos : Z) vs arr : hPropI V :=
  q ↦ mkNode qpar qpos 0 (Z.of_nat (length vs)) 0 (slots_of slots_max vs) arr.

Lemma wp_check_siblings p q pos fin cap ss arr r fin' cap' ss' arr' pos' (Ψ : unit -> hPropI V) : pos' = pos + 1 ->
  p ↦ mkNode q pos 0 fin cap ss arr -∗ r ↦ mkNode q pos' 0 fin' cap' ss' arr' -∗
  (p ↦ mkNode q pos 0 fin cap ss arr -∗ r ↦ mkNode q pos' 0 fin' cap' ss' arr' -∗ Ψ tt) -∗ wp (check_siblings p r) Ψ.
Proof using Type.
  intros ->. iIntros "Hp Hr HΨ". iApply wp_bind. iApply (wp_parent with "Hp"). iIntros "Hp".
  iApply wp_bind. iApply (wp_parent with "Hr"). iIntros "Hr". iApply wp_bind. iApply wp_check; [by apply bool_decide_eq_true|].
  iApply wp_bind. iApply (wp_position with "Hp"). iIntros "Hp". iApply wp_bind. iApply (wp_position with "Hr"). iIntros "Hr".
  iApply wp_check; [apply Z.eqb_refl|]. iApply ("HΨ" with "Hp Hr").
Qed.

(** The children of [rebalance_right_to_left]. *)
Lemma wp_children_right_to_left ht p par pos fin ss arr r rpar rpos rfin rss rarr ts1 ts2 m lo (Ψ : unit -> hPropI V) :
  m = Z.of_nat (length ts1) -> (0 < length ts1)%nat -> fin + 1 = Z.of_nat lo -> rfin + 1 = Z.of_nat (length ts1 + length ts2) ->
  (lo + length ts1 <= S slots_max)%nat -> (length ts1 + length ts2 <= S slots_max)%nat ->
  length arr = S slots_max -> length rarr = S slots_max ->
  children_at 0 (root_loc <$> ts1 ++ ts2) rarr ->
  p ↦ mkNode par pos 0 fin 0 ss arr -∗ r ↦ mkNode rpar rpos 0 rfin 0 rss rarr -∗ kids ht r 0 (ts1 ++ ts2) -∗
  (∀ arr' rarr', ⟦same_outside lo (lo + length ts1) arr arr' /\ length rarr' = length rarr /\
     children_at lo (root_loc <$> ts1) arr' /\ children_at 0 (root_loc <$> ts2) rarr'⟧ -∗
   p ↦ mkNode par pos 0 fin 0 ss arr' -∗ r ↦ mkNode rpar rpos 0 rfin 0 rss rarr' -∗
   kids ht p lo ts1 -∗ kids ht r 0 ts2 -∗ Ψ tt) -∗
  wp (for_loop children_fuel (fun i => ret (i <? m)) (fun i => field (i + 1))
       (fun i => let! f := finish p in let! c := child r i in init_child p (field (f + i + 1)) c) 0 ;;
     for_loop children_fuel (fun i => let! rf := finish r in ret (i <=? rf - m)) (fun i => field (i + 1))
       (fun i =>
          let! rm := max_count r in
          check (i + m <=? rm) ;;
          let! c := child r (field (i + m)) in
          init_child r i c ;;
          clear_child r (field (i + m))) 0) Ψ.
Proof.
  intros -> Hpos Hfin Hrfin Hlo Hlen Ha Hra Hat. pose proof slots_max_Z as Hm. iIntros "Hp Hr Hk HΨ".
  rewrite fmap_app children_at_app length_fmap in Hat. destruct Hat as [Hat1 Hat2].
  rewrite kids_app. iDestruct "Hk" as "[Hk1 Hk2]". iApply wp_bind.
  iPoseProof (wp_kids_across ht p (mkNode par pos 0 fin 0 ss) r (mkNode rpar rpos 0 rfin 0 rss) ts1 0 lo Z.of_nat
    children_fuel (λ i, ret (i <? Z.of_nat (length ts1))) (λ i, field (i + 1))
    (λ i, let! f := finish p in let! c := child r i in init_child p (field (f + i + 1)) c) arr rarr with "[$Hp $Hr $Hk1]") as "Hw".
  { unfold children_fuel. lia. } { lia. } { lia. } { done. } { intros j Hj. rewrite field_id; lia. }
  { intros j brr brr' Hj. iIntros "Hp". iApply wp_ret. iFrame. iPureIntro.
    destruct (Z.ltb_spec (Z.of_nat j) (Z.of_nat (length ts1))); case_bool_decide; lia || done. }
  { intros j brr brr' t Hj Hl Hl' Hc. iIntros "(Hp & Hr & Ht)". iApply wp_bind. iApply (wp_finish with "Hp"). iIntros "Hp".
    iApply wp_bind. iApply (wp_child_at with "Hr"); [done|]. iIntros "Hr". rewrite field_id; [|lia].
    replace (fin + Z.of_nat j + 1) with (Z.of_nat (lo + j)) by lia.
    iApply (wp_init_child with "Hp Ht"); [lia|lia|]. iIntros "Hp Ht". iExists brr'. by iFrame. }
  iApply (wp_wand with "Hw"). iIntros ([]) "(%arr' & %rarr' & %H1 & Hp & Hr & Hk1)". destruct H1 as (Hs & Hrs & Hat').
  destruct Hrs as [Hrl Hrs].
  iPoseProof (wp_kids_down ht r (mkNode rpar rpos 0 rfin 0 rss) ts2 0 (length ts1) Hpos Z.of_nat children_fuel
    (λ i, let! rf := finish r in ret (i <=? rf - Z.of_nat (length ts1))) (λ i, field (i + 1))
    (λ i, let! rm := max_count r in check (i + Z.of_nat (length ts1) <=? rm) ;;
          let! c := child r (field (i + Z.of_nat (length ts1))) in init_child r i c ;; clear_child r (field (i + Z.of_nat (length ts1))))
    rarr' emp%I with "[$Hr $Hk2]") as "Hw".
  { unfold children_fuel. lia. } { lia. }
  { eapply children_at_same, Hat2. intros k Hk. apply Hrs. lia. }
  { intros j Hj. rewrite field_id; lia. }
  { intros j brr Hj. iIntros "[Hr _]". iApply wp_bind. iApply (wp_finish with "Hr"). iIntros "Hr". iApply wp_ret. iFrame. iPureIntro.
    destruct (Z.leb_spec (Z.of_nat j) (rfin - Z.of_nat (length ts1))); case_bool_decide; lia || done. }
  { intros j brr t Hj Hl Hc. iIntros "(Hr & Ht & _)". iApply wp_bind. iApply (wp_max_count with "Hr"). iIntros "Hr".
    iApply wp_bind. iApply wp_check; [apply Z.leb_le; cbn; lia|]. rewrite field_id; [|lia].
    replace (Z.of_nat j + Z.of_nat (length ts1)) with (Z.of_nat (0 + length ts1 + j)) by lia.
    iApply wp_bind. iApply (wp_child_at with "Hr"); [done|]. iIntros "Hr". iApply wp_bind.
    iApply (wp_init_child with "Hr Ht"); [lia|lia|]. iIntros "Hr Ht". iApply (wp_clear_child with "Hr"); [rewrite length_insert; lia|].
    iIntros "Hr". iExists _. iFrame. iPureIntro. apply child_moved_clear; lia. }
  iApply (wp_wand with "Hw"). iIntros ([]) "(%rarr2 & %H2 & Hr & Hk2 & _)". destruct H2 as [[Hl2 Hs2] Hat2'].
  iApply ("HΨ" with "[] Hp Hr Hk1 Hk2"). iPureIntro. split_and!; (done || lia || apply Hs).
Qed.

Lemma wp_rebalance_right_to_left ht q qpar qpos A B v w qarr l capl vsl tsl r capr xs ys tsr i tm (Ψ : unit -> hPropI V) :
  i = length A -> tm = Z.of_nat (S (length xs)) -> (length vsl <= length (xs ++ w :: ys))%nat ->
  (length vsl + S (length xs) <= capacity capl)%nat -> (length (A ++ v :: B) <= slots_max)%nat ->
  inner q qpar qpos (A ++ v :: B) qarr -∗ own_tree ht q (Z.of_nat i) (Tree l capl vsl tsl) -∗
  own_tree ht q (Z.of_nat (S i)) (Tree r capr (xs ++ w :: ys) tsr) -∗
  (inner q qpar qpos (A ++ w :: B) qarr -∗
   own_tree ht q (Z.of_nat i) (Tree l capl (vsl ++ v :: xs) (tsl ++ take (S (length xs)) tsr)) -∗
   own_tree ht q (Z.of_nat (S i)) (Tree r capr ys (drop (S (length xs)) tsr)) -∗ Ψ tt) -∗
  wp (rebalance_right_to_left l tm r) Ψ.
Proof.
  intros -> -> Hle Hcap HA. rewrite !own_tree_unfold. pose proof slots_max_Z as Hm.
  iIntros "Hq (%Hokl & (%arr & %Harr & Hl) & Hkl) (%Hokr & (%rarr & %Hrarr & Hr) & Hkr) HΨ".
  destruct (leaf_capacity_bounds _ _ _ _ Hokl) as (Hcl & Hml & Hil), (leaf_capacity_bounds _ _ _ _ Hokr) as (Hcr & Hmr & Hir).
  rewrite !length_app /= in HA, Hle, Hcr. unfold inner. rewrite !length_app /=.
  iApply wp_bind. iApply (wp_check_siblings with "Hl Hr"); [lia|]. iIntros "Hl Hr".
  iApply wp_bind. iApply (wp_count with "Hr"); [lia|]. iIntros "Hr". iApply wp_bind. iApply (wp_count with "Hl"); [lia|]. iIntros "Hl".
  do 3 (iApply wp_bind; iApply wp_check; [apply Z.leb_le; lia|]).
  iApply wp_bind. iApply (wp_finish with "Hl"). iIntros "Hl". iApply wp_bind. iApply (wp_position with "Hl"). iIntros "Hl".
  iApply wp_bind. iApply (wp_parent with "Hl"). iIntros "Hl".
  (* 1) *)
  iApply wp_bind. iEval (rewrite (slots_raw_cons _ vsl (length xs)) //) in "Hl". iEval (rewrite slots_middle //) in "Hq".
  iApply (wp_transfer with "Hl Hq"); [by rewrite length_fmap|by rewrite length_fmap|]. iIntros "Hl Hq".
  (* 2) *)
  iApply wp_bind. iApply (wp_start with "Hr"). iIntros "Hr". iApply wp_bind.
  iEval (rewrite slots_middle //) in "Hr". iEval (rewrite cons_middle assoc) in "Hl".
  iApply (wp_transfer_n _ _ _ _ _ _ _ _ _ _ _ _ [] _ ((Live <$> vsl) ++ [Live v]) _ xs with "Hl Hr"); [lia|rewrite length_app length_fmap /=; lia|done|].
  iIntros "Hl Hr".
  (* 3) *)
  iApply wp_bind. iApply (wp_transfer with "Hq Hr"); [by rewrite length_fmap|rewrite ?length_app length_replicate /=; lia|].
  iIntros "Hq Hr".
  (* 4) *)
  iEval (rewrite replicate_raw) in "Hr". iApply wp_bind.
  iApply (wp_transfer_n_down _ _ _ _ _ _ [] _ ys (S (length xs)) with "Hr"); [lia|done|cbn; lia|lia|]. iIntros "Hr".
  iEval (rewrite app_nil_l) in "Hr". iApply wp_bind. iApply (wp_is_internal with "Hl"). iIntros "Hl". rewrite Hil.
  iDestruct (points_to_eq _ _ (mkNode q (length A) 0 (length vsl) capl (slots_of (capacity capl) (vsl ++ v :: xs)) arr) with "Hl") as "Hl".
  { f_equal. solve_slots. }
  iDestruct (points_to_eq _ _ (mkNode q (S (length A)) 0 (length xs + S (length ys))%nat capr (slots_of (capacity capr) ys) rarr) with "Hr") as "Hr".
  { f_equal. solve_slots. }
  iApply wp_bind. set (m := S (length xs)).
  iAssert (wp (if negb (ht =? 0)%nat then _ else ret tt) (λ _, ∃ arr' rarr',
      ⟦children_at 0 (root_loc <$> tsl ++ take m tsr) arr' /\ length arr' = child_slots capl /\
       children_at 0 (root_loc <$> drop m tsr) rarr' /\ length rarr' = child_slots capr⟧ ∗
      l ↦ mkNode q (length A) 0 (length vsl) capl (slots_of (capacity capl) (vsl ++ v :: xs)) arr' ∗
      r ↦ mkNode q (S (length A)) 0 (length xs + S (length ys))%nat capr (slots_of (capacity capr) ys) rarr' ∗
      kids_below ht l (tsl ++ take m tsr) ∗ kids_below ht r (drop m tsr)))%I with "[Hl Hr Hkl Hkr]" as "Hw"; last first.
  { iApply (wp_wand with "Hw"). iIntros ([]) "(%arr' & %rarr' & %Ha & Hl & Hr & Hkl & Hkr)".
    iApply wp_bind. iApply (wp_finish with "Hl"). iIntros "Hl". iApply wp_bind. iApply (wp_set_finish with "Hl"); [lia|]. iIntros "Hl".
    iApply wp_bind. iApply (wp_finish with "Hr"). iIntros "Hr". iApply (wp_set_finish with "Hr"); [lia|]. iIntros "Hr".
    destruct Ha as (H1 & H2 & H3 & H4). iApply ("HΨ" with "[Hq] [Hl Hkl] [Hr Hkr]").
    - iApply (points_to_eq with "Hq"). f_equal. solve_slots.
    - iFrame "Hkl". iSplitR; [|iExists arr'; iSplitR; [by iPureIntro|]; iApply (points_to_eq with "Hl"); f_equal; rewrite length_app /=; lia].
      iPureIntro. destruct Hokl as [_ Hokl], Hokr as [_ Hokr]. split; [rewrite length_app /=; lia|]. destruct ht.
      + destruct Hokl as [? ->], Hokr as [? ->]. by rewrite take_nil.
      + destruct Hokl as [-> Hokl], Hokr as [-> Hokr]. rewrite length_app /= in Hokr. split; [done|]. rewrite !length_app length_take length_cons. subst m. lia.
    - iFrame "Hkr". iSplitR; [|iExists rarr'; iSplitR; [by iPureIntro|]; iApply (points_to_eq with "Hr"); f_equal; lia].
      iPureIntro. destruct Hokr as [_ Hokr]. split; [lia|]. destruct ht.
      + destruct Hokr as [? ->]. by rewrite drop_nil.
      + destruct Hokr as [-> Hokr]. rewrite length_app /= in Hokr. split; [done|]. rewrite length_drop. subst m. lia. }
  destruct Hokl as [_ Hokl], Hokr as [_ Hokr], Harr as [Hat Harr], Hrarr as [Hrat Hrarr]. destruct ht as [|ht]; cbn [negb Nat.eqb].
  - iApply wp_ret. iExists arr, rarr. iFrame. destruct Hokl as [? ->], Hokr as [? ->]. rewrite take_nil drop_nil. by iPureIntro.
  - destruct Hokl as [-> Hokl], Hokr as [-> Hokr]. rewrite length_app /= in Hokr. cbn [child_slots Z.eqb] in Harr, Hrarr.
    iEval (rewrite -{1}(take_drop m tsr)) in "Hkr". rewrite -{1}(take_drop m tsr) in Hrat.
    assert (length (take m tsr) = m) as Htk by (rewrite length_take; lia).
    assert (length (drop m tsr) = S (length ys)) as Hdr by (rewrite length_drop; lia).
    iApply (wp_children_right_to_left ht l _ _ _ _ _ r _ _ _ _ _ (take m tsr) (drop m tsr) _ (length tsl) with "Hl Hr Hkr");
      rewrite ?Htk ?Hdr; try lia; try done.
    iIntros (arr' rarr') "%H1 Hl Hr Hk1 Hk2". destruct H1 as ([Hl1 Hs] & Hrl & H1 & H2). iExists arr', rarr'. iFrame "Hl Hr".
    cbn [kids_below]. rewrite kids_app. iFrame. iPureIntro. split_and!; [|cbn; lia|done|cbn; lia].
    rewrite fmap_app. apply children_at_app. rewrite length_fmap. split; [|done].
    eapply children_at_same, Hat. rewrite length_fmap. intros k Hk. apply Hs. lia.
Qed.

Lemma wp_children_left_to_right ht p par pos fin ss arr r rpar rpos rfin rss rarr ts1 ts2 tsr m (Ψ : unit -> hPropI V) :
  m = Z.of_nat (length ts2) -> (0 < length ts2)%nat -> (0 < length tsr)%nat -> fin + 1 = Z.of_nat (length ts1 + length ts2) -> rfin + 1 = Z.of_nat (length tsr) ->
  (length ts1 + length ts2 <= S slots_max)%nat -> (length ts2 + length tsr <= S slots_max)%nat ->
  length arr = S slots_max -> length rarr = S slots_max ->
  children_at 0 (root_loc <$> ts1 ++ ts2) arr -> children_at 0 (root_loc <$> tsr) rarr ->
  p ↦ mkNode par pos 0 fin 0 ss arr -∗ r ↦ mkNode rpar rpos 0 rfin 0 rss rarr -∗ kids ht p 0 (ts1 ++ ts2) -∗ kids ht r 0 tsr -∗
  (∀ arr' rarr', ⟦length arr' = length arr /\ length rarr' = length rarr /\
     children_at 0 (root_loc <$> ts1) arr' /\ children_at 0 (root_loc <$> ts2 ++ tsr) rarr'⟧ -∗
   p ↦ mkNode par pos 0 fin 0 ss arr' -∗ r ↦ mkNode rpar rpos 0 rfin 0 rss rarr' -∗
   kids ht p 0 ts1 -∗ kids ht r 0 (ts2 ++ tsr) -∗ Ψ tt) -∗
  wp (let! rf := finish r in
      for_loop children_fuel (fun i => ret (0 <? i)) (fun i => field (i - 1))
       (fun i => let! c := child r (field (i - 1)) in
                 init_child r (field (i - 1 + m)) c ;;
                 clear_child r (field (i - 1))) (field (rf + 1)) ;;
      for_loop children_fuel (fun i => ret (i <=? m)) (fun i => field (i + 1))
       (fun i => let! f := finish p in
                 let! c := child p (field (f - m + i)) in
                 init_child r (field (i - 1)) c ;;
                 clear_child p (field (f - m + i))) 1) Ψ.
Proof.
  intros -> Hpos Hpos' Hfin Hrfin Hlen Hrlen Ha Hra Hat Hrat. pose proof slots_max_Z as Hm. iIntros "Hp Hr Hk Hkr HΨ".
  rewrite fmap_app children_at_app length_fmap in Hat. destruct Hat as [Hat1 Hat2].
  rewrite kids_app. iDestruct "Hk" as "[Hk1 Hk2]". iApply wp_bind. iApply (wp_finish with "Hr"). iIntros "Hr". iApply wp_bind.
  iPoseProof (wp_kids_up ht r (mkNode rpar rpos 0 rfin 0 rss) tsr 0 (length ts2) Hpos (λ j, Z.of_nat (length tsr) - Z.of_nat j)
    children_fuel (λ i, ret (0 <? i)) (λ i, field (i - 1))
    (λ i, let! c := child r (field (i - 1)) in init_child r (field (i - 1 + Z.of_nat (length ts2))) c ;; clear_child r (field (i - 1)))
    rarr emp%I with "[$Hr $Hkr]") as "Hw".
  { unfold children_fuel. lia. } { lia. } { done. } { intros j Hj. rewrite field_id; lia. }
  { intros j brr Hj. iIntros "[Hr _]". iApply wp_ret. iFrame. iPureIntro.
    destruct (Z.ltb_spec 0 (Z.of_nat (length tsr) - Z.of_nat j)); case_bool_decide; lia || done. }
  { intros j brr t Hj Hl Hc. iIntros "(Hr & Ht & _)". rewrite !field_id; [|lia|lia].
    replace (Z.of_nat (length tsr) - Z.of_nat j - 1 + Z.of_nat (length ts2))
      with (Z.of_nat (0 + length ts2 + (length tsr - S j))) by lia.
    replace (Z.of_nat (length tsr) - Z.of_nat j - 1) with (Z.of_nat (0 + (length tsr - S j))) by lia.
    iApply wp_bind. iApply (wp_child_at with "Hr"); [done|]. iIntros "Hr". iApply wp_bind.
    iApply (wp_init_child with "Hr Ht"); [lia|lia|]. iIntros "Hr Ht". iApply (wp_clear_child with "Hr"); [rewrite length_insert; lia|].
    iIntros "Hr". iExists _. iFrame. iPureIntro. apply child_moved_clear; lia. }
  rewrite Hrfin field_id; [|lia]. rewrite Z.sub_0_r.
  iApply (wp_wand with "Hw"). iIntros ([]) "(%rarr' & %H1 & Hr & Hkr & _)". destruct H1 as [[Hrl Hrs] Hrat'].
  iPoseProof (wp_kids_across ht r (mkNode rpar rpos 0 rfin 0 rss) p (mkNode par pos 0 fin 0 ss) ts2 (length ts1) 0
    (λ j, Z.of_nat (S j)) children_fuel (λ i, ret (i <=? Z.of_nat (length ts2))) (λ i, field (i + 1))
    (λ i, let! f := finish p in let! c := child p (field (f - Z.of_nat (length ts2) + i)) in
          init_child r (field (i - 1)) c ;; clear_child p (field (f - Z.of_nat (length ts2) + i))) rarr' arr with "[$Hp $Hr $Hk2]") as "Hw".
  { unfold children_fuel. lia. } { lia. } { lia. } { done. } { intros j Hj. rewrite field_id; lia. }
  { intros j brr brr' Hj. iIntros "Hp". iApply wp_ret. iFrame. iPureIntro.
    destruct (Z.leb_spec (Z.of_nat (S j)) (Z.of_nat (length ts2))); case_bool_decide; lia || done. }
  { intros j brr brr' t Hj Hl Hl' Hc. iIntros "(Hr & Hp & Ht)". iApply wp_bind. iApply (wp_finish with "Hp"). iIntros "Hp".
    rewrite !field_id; [|lia|lia]. replace (fin - Z.of_nat (length ts2) + Z.of_nat (S j)) with (Z.of_nat (length ts1 + j)) by lia.
    replace (Z.of_nat (S j) - 1) with (Z.of_nat (0 + j)) by lia.
    iApply wp_bind. iApply (wp_child_at with "Hp"); [done|]. iIntros "Hp". iApply wp_bind.
    iApply (wp_init_child with "Hr Ht"); [lia|lia|]. iIntros "Hr Ht". iApply (wp_clear_child with "Hp"); [lia|]. iIntros "Hp".
    iExists _. iFrame. iPureIntro. rewrite length_insert. split; [done|]. intros k Hk. by rewrite list_lookup_insert_ne. }
  iApply (wp_wand with "Hw"). iIntros ([]) "(%rarr2 & %arr2 & %H2 & Hr & Hp & Hk2)". destruct H2 as ([Hrl2 Hrs2] & [Hl2 Hs2] & Hrat2).
  iApply ("HΨ" with "[] Hp Hr Hk1 [Hk2 Hkr]"); [|by rewrite kids_app; iFrame]. iPureIntro. split_and!; [lia|lia| |].
  - eapply children_at_same, Hat1. rewrite length_fmap. intros k Hk. apply Hs2. lia.
  - rewrite fmap_app. apply children_at_app. split; [done|]. rewrite length_fmap. eapply children_at_same, Hrat'.
    rewrite length_fmap. intros k Hk. apply Hrs2. lia.
Qed.

Lemma wp_rebalance_left_to_right ht q qpar qpos A B v w qarr l capl xs ys tsl r capr vsr tsr i tm (Ψ : unit -> hPropI V) :
  i = length A -> tm = Z.of_nat (S (length ys)) -> (length vsr <= length (xs ++ w :: ys))%nat ->
  (length vsr + S (length ys) <= capacity capr)%nat -> (length (A ++ v :: B) <= slots_max)%nat ->
  inner q qpar qpos (A ++ v :: B) qarr -∗ own_tree ht q (Z.of_nat i) (Tree l capl (xs ++ w :: ys) tsl) -∗
  own_tree ht q (Z.of_nat (S i)) (Tree r capr vsr tsr) -∗
  (inner q qpar qpos (A ++ w :: B) qarr -∗
   own_tree ht q (Z.of_nat i) (Tree l capl xs (take (S (length xs)) tsl)) -∗
   own_tree ht q (Z.of_nat (S i)) (Tree r capr (ys ++ v :: vsr) (drop (S (length xs)) tsl ++ tsr)) -∗ Ψ tt) -∗
  wp (rebalance_left_to_right l tm r) Ψ.
Proof.
  intros -> -> Hle Hcap HA. rewrite !own_tree_unfold. pose proof slots_max_Z as Hm.
  iIntros "Hq (%Hokl & (%arr & %Harr & Hl) & Hkl) (%Hokr & (%rarr & %Hrarr & Hr) & Hkr) HΨ".
  destruct (leaf_capacity_bounds _ _ _ _ Hokl) as (Hcl & Hml & Hil), (leaf_capacity_bounds _ _ _ _ Hokr) as (Hcr & Hmr & Hir).
  rewrite !length_app /= in HA, Hle, Hcl. unfold inner. rewrite !length_app /=.
  iApply wp_bind. iApply (wp_check_siblings with "Hl Hr"); [lia|]. iIntros "Hl Hr".
  iApply wp_bind. iApply (wp_count with "Hl"); [lia|]. iIntros "Hl". iApply wp_bind. iApply (wp_count with "Hr"); [lia|]. iIntros "Hr".
  do 3 (iApply wp_bind; iApply wp_check; [apply Z.leb_le; lia|]).
  iApply wp_bind. iApply (wp_start with "Hr"). iIntros "Hr".
  (* 1) *)
  iApply wp_bind. iEval (rewrite (slots_raw _ vsr (S (length ys))) //) in "Hr".
  iApply (wp_transfer_n_up _ _ _ _ _ _ [] _ vsr (S (length ys)) with "Hr"); [done|cbn; lia|done|lia|]. iIntros "Hr".
  (* 2) *)
  iApply wp_bind. iApply (wp_position with "Hl"). iIntros "Hl". iApply wp_bind. iApply (wp_parent with "Hl"). iIntros "Hl".
  iEval (rewrite slots_middle //) in "Hq". iEval (cbn [app replicate]; rewrite -replicate_raw) in "Hr".
  iApply wp_bind. iApply (wp_transfer with "Hr Hq"); [rewrite length_replicate; lia|by rewrite length_fmap|]. iIntros "Hr Hq".
  (* 3) *)
  iApply wp_bind. iApply (wp_finish with "Hl"). iIntros "Hl". iApply wp_bind.
  iEval (rewrite slots_middle //) in "Hl". iEval (rewrite cons_middle assoc) in "Hl".
  iApply (wp_transfer_n _ _ _ _ _ _ _ _ _ _ _ _ ((Live <$> xs) ++ [Live w]) _ [] _ ys with "Hr Hl");
    [lia|done|rewrite length_app length_fmap /=; lia|]. iIntros "Hr Hl".
  (* 4) *)
  iApply wp_bind. iEval (rewrite -assoc -cons_middle) in "Hl".
  iApply (wp_transfer with "Hq Hl"); [by rewrite length_fmap|rewrite length_fmap; lia|]. iIntros "Hq Hl".
  iApply wp_bind. iApply (wp_is_internal with "Hl"). iIntros "Hl". rewrite Hil.
  iDestruct (points_to_eq _ _ (mkNode q (length A) 0 (length xs + S (length ys))%nat capl (slots_of (capacity capl) xs) arr) with "Hl") as "Hl".
  { f_equal. solve_slots. }
  iDestruct (points_to_eq _ _ (mkNode q (S (length A)) 0 (length vsr) capr (slots_of (capacity capr) (ys ++ v :: vsr)) rarr) with "Hr") as "Hr".
  { f_equal. solve_slots. }
  iApply wp_bind. set (m := S (length xs)).
  iAssert (wp (if negb (ht =? 0)%nat then _ else ret tt) (λ _, ∃ arr' rarr',
      ⟦children_at 0 (root_loc <$> take m tsl) arr' /\ length arr' = child_slots capl /\
       children_at 0 (root_loc <$> drop m tsl ++ tsr) rarr' /\ length rarr' = child_slots capr⟧ ∗
      l ↦ mkNode q (length A) 0 (length xs + S (length ys))%nat capl (slots_of (capacity capl) xs) arr' ∗
      r ↦ mkNode q (S (length A)) 0 (length vsr) capr (slots_of (capacity capr) (ys ++ v :: vsr)) rarr' ∗
      kids_below ht l (take m tsl) ∗ kids_below ht r (drop m tsl ++ tsr)))%I with "[Hl Hr Hkl Hkr]" as "Hw"; last first.
  { iApply (wp_wand with "Hw"). iIntros ([]) "(%arr' & %rarr' & %Ha & Hl & Hr & Hkl & Hkr)".
    iApply wp_bind. iApply (wp_finish with "Hl"). iIntros "Hl". iApply wp_bind. iApply (wp_set_finish with "Hl"); [lia|]. iIntros "Hl".
    iApply wp_bind. iApply (wp_finish with "Hr"). iIntros "Hr". iApply (wp_set_finish with "Hr"); [lia|]. iIntros "Hr".
    destruct Ha as (H1 & H2 & H3 & H4). iApply ("HΨ" with "[Hq] [Hl Hkl] [Hr Hkr]").
    - iApply (points_to_eq with "Hq"). f_equal. solve_slots.
    - iFrame "Hkl". iSplitR; [|iExists arr'; iSplitR; [by iPureIntro|]; iApply (points_to_eq with "Hl"); f_equal; lia].
      iPureIntro. destruct Hokl as [_ Hokl]. split; [lia|]. destruct ht.
      + destruct Hokl as [? ->]. by rewrite take_nil.
      + destruct Hokl as [-> Hokl]. rewrite length_app /= in Hokl. split; [done|]. rewrite length_take. subst m. lia.
    - iFrame "Hkr". iSplitR; [|iExists rarr'; iSplitR; [by iPureIntro|]; iApply (points_to_eq with "Hr"); f_equal; rewrite length_app /=; lia].
      iPureIntro. destruct Hokl as [_ Hokl], Hokr as [_ Hokr]. split; [rewrite length_app /=; lia|]. destruct ht.
      + destruct Hokl as [? ->], Hokr as [? ->]. by rewrite drop_nil.
      + destruct Hokl as [-> Hokl], Hokr as [-> Hokr]. rewrite length_app /= in Hokl. split; [done|].
        rewrite !length_app length_drop length_cons. subst m. lia. }
  destruct Hokl as [_ Hokl], Hokr as [_ Hokr], Harr as [Hat Harr], Hrarr as [Hrat Hrarr]. destruct ht as [|ht]; cbn [negb Nat.eqb].
  - iApply wp_ret. iExists arr, rarr. iFrame. destruct Hokl as [? ->], Hokr as [? ->]. rewrite take_nil drop_nil. by iPureIntro.
  - destruct Hokl as [-> Hokl], Hokr as [-> Hokr]. rewrite length_app /= in Hokl. cbn [child_slots Z.eqb] in Harr, Hrarr.
    change (capacity 0) with slots_max in Hcap.
    iEval (rewrite -{1}(take_drop m tsl)) in "Hkl". rewrite -{1}(take_drop m tsl) in Hat.
    assert (length (take m tsl) = m) as Htk by (rewrite length_take; lia).
    assert (length (drop m tsl) = S (length ys)) as Hdr by (rewrite length_drop; lia).
    iApply (wp_children_left_to_right ht l _ _ _ _ _ r _ _ _ _ _ (take m tsl) (drop m tsl) tsr with "Hl Hr Hkl Hkr");
      rewrite ?Htk ?Hdr; try (unfold m; lia); try done.
    iIntros (arr' rarr') "%H1 Hl Hr Hk1 Hk2". destruct H1 as (Hl1 & Hrl & H1 & H2). iExists arr', rarr'. iFrame.
    iPureIntro. split_and!; [done|cbn; lia|done|cbn; lia].
Qed.
End move.

(** * splitting and merging nodes (lemmas for BtreeNode.v)

    [split] takes the upper part of a full node to a new sibling and the value
    between them to the parent; [merge] undoes this. *)

Import btree_node.
#[local] Open Scope Z_scope.
#[local] Open Scope cpp_scope.

Section split.
Context {K V : Type} `{PB : BtreeParams K V} {LB : BtreeLaws K V} `{AL : Allocator} {FL : AllocatorLaws}.
Implicit Types (p q : loc) (t : tree V) (ts : list (tree V)) (vs A B xs ys : list V) (arr : list (option loc)) (w v : V).

(** *** [merge] *)

Lemma wp_merge ht q qpar qpos A B v qarr ts2 l capl vsl tsl r capr vsr tsr (Ψ : unit -> hPropI V) :
  (length (A ++ v :: B) <= slots_max)%nat -> (length vsl + S (length vsr) <= capacity capl)%nat ->
  length qarr = S slots_max -> length ts2 = length B -> children_at (S (length A)) (r :: (root_loc <$> ts2)) qarr ->
  inner q qpar qpos (A ++ v :: B) qarr -∗ own_tree ht q (Z.of_nat (length A)) (Tree l capl vsl tsl) -∗
  own_tree ht q (Z.of_nat (S (length A))) (Tree r capr vsr tsr) -∗ kids ht q (S (S (length A))) ts2 -∗
  (∀ qarr', ⟦length qarr' = length qarr /\ (forall k, (k <= length A)%nat -> qarr' !! k = qarr !! k) /\
     children_at (S (length A)) (root_loc <$> ts2) qarr'⟧ -∗
   inner q qpar qpos (A ++ B) qarr' -∗ own_tree ht q (Z.of_nat (length A)) (Tree l capl (vsl ++ v :: vsr) (tsl ++ tsr)) -∗
   kids ht q (S (length A)) ts2 -∗ Ψ tt) -∗
  wp (merge l r) Ψ.
Proof.
  intros HA Hcap Hqarr Hts2 Hqat. rewrite !own_tree_unfold. pose proof slots_max_Z as Hm. pose proof kNodeSlots_min.
  iIntros "Hq (%Hokl & (%arr & %Harr & Hl) & Hkl) (%Hokr & (%rarr & %Hrarr & Hr) & Hkr) Hk2 HΨ".
  destruct (leaf_capacity_bounds _ _ _ _ Hokl) as (Hcl & Hml & Hil), (leaf_capacity_bounds _ _ _ _ Hokr) as (Hcr & Hmr & Hir).
  unfold inner. rewrite !length_app /= in HA |- *.
  iApply wp_bind. iApply (wp_check_siblings with "Hl Hr"); [lia|]. iIntros "Hl Hr".
  iApply wp_bind. iApply (wp_finish with "Hl"). iIntros "Hl". iApply wp_bind. iApply (wp_position with "Hl"). iIntros "Hl".
  iApply wp_bind. iApply (wp_parent with "Hl"). iIntros "Hl".
  iApply wp_bind. iEval (rewrite (slots_raw_cons _ vsl (length vsr)) //) in "Hl". iEval (rewrite slots_middle //) in "Hq".
  iApply (wp_value_init_from with "Hl Hq"); [by rewrite length_fmap|by rewrite length_fmap|]. iIntros "Hl Hq".
  iApply wp_bind. iApply (wp_count with "Hr"); [lia|]. iIntros "Hr". iApply wp_bind. iApply (wp_start with "Hr"). iIntros "Hr".
  iApply wp_bind. iEval (rewrite cons_middle assoc) in "Hl".
  iApply (wp_transfer_n _ _ _ _ _ _ _ _ _ _ _ _ [] _ ((Live <$> vsl) ++ [Live v]) _ vsr with "Hl Hr");
    [done|rewrite length_app length_fmap /=; lia|done|]. iIntros "Hl Hr".
  iApply wp_bind. iApply (wp_is_internal with "Hl"). iIntros "Hl". rewrite Hil.
  iDestruct (points_to_eq _ _ (mkNode q (length A) 0 (length vsl) capl (slots_of (capacity capl) (vsl ++ v :: vsr)) arr) with "Hl") as "Hl".
  { f_equal. solve_slots. }
  iDestruct (points_to_eq _ _ (mkNode q (S (length A)) 0 (length vsr) capr (replicate (capacity capr) Raw) rarr) with "Hr") as "Hr".
  { f_equal. cbn [app]. rewrite -replicate_add. f_equal. lia. }
  iApply wp_bind.
  iAssert (wp (if negb (ht =? 0)%nat then _ else ret tt) (λ _, ∃ arr' rarr',
      ⟦children_at 0 (root_loc <$> tsl ++ tsr) arr' /\ length arr' = child_slots capl /\ length rarr' = child_slots capr⟧ ∗
      l ↦ mkNode q (length A) 0 (length vsl) capl (slots_of (capacity capl) (vsl ++ v :: vsr)) arr' ∗
      r ↦ mkNode q (S (length A)) 0 (length vsr) capr (replicate (capacity capr) Raw) rarr' ∗
      kids_below ht l (tsl ++ tsr)))%I with "[Hl Hr Hkl Hkr]" as "Hw"; last first.
  { iApply (wp_wand with "Hw"). iIntros ([]) "(%arr' & %rarr' & %Ha & Hl & Hr & Hkl)". destruct Ha as (H1 & H2 & H3).
    iApply wp_bind. iApply (wp_start with "Hl"). iIntros "Hl". iApply wp_bind. iApply (wp_count with "Hl"); [lia|]. iIntros "Hl".
    iApply wp_bind. iApply (wp_count with "Hr"); [lia|]. iIntros "Hr". iApply wp_bind. iApply (wp_set_finish with "Hl"); [lia|].
    iIntros "Hl". iApply wp_bind. iApply (wp_set_finish with "Hr"); [lia|]. iIntros "Hr".
    iApply wp_bind. iApply (wp_position with "Hl"). iIntros "Hl".
    iApply (wp_remove_values q qpar qpos 0 qarr A B [Moved] _ 1 ht [r] ts2 with "[Hq] [Hr] [Hk2]"); try done.
    { cbn. lia. } { by intros ?%list_elem_of_singleton. } { cbn [length]. change (capacity 0) with slots_max. lia. } { by apply children_at_cons in Hqat as [? _]; apply children_at_cons; split; [|apply children_at_nil]. }
    { apply children_at_cons in Hqat as [_ ?]. by rewrite Nat.add_1_r. }
    { iApply (points_to_eq with "Hq"). f_equal; [cbn; lia|]. change (capacity 0) with slots_max. solve_slots. }
    { cbn. rewrite Nat.add_0_r. iSplitL; [|done]. iRight. iExists capr, rarr'. iFrame. iPureIntro. split; [|done].
      destruct Hokr as [_ Hokr]. destruct ht, Hokr as [? _]; lia. }
    { by rewrite Nat.add_1_r. }
    iIntros (qarr') "%Hqa Hq Hk2". iApply ("HΨ" with "[] [Hq] [Hl Hkl] Hk2").
    { by iPureIntro. }
    { by rewrite -length_app. }
    rewrite own_tree_unfold. iFrame "Hkl". iSplitR; [|iExists arr'; iSplitR; [by iPureIntro|]; iApply (points_to_eq with "Hl"); f_equal; rewrite length_app /=; lia].
    iPureIntro. destruct Hokl as [_ Hokl], Hokr as [_ Hokr]. split; [rewrite length_app /=; lia|]. destruct ht.
    + destruct Hokl as [? ->], Hokr as [? ->]. done.
    + destruct Hokl as [-> Hokl], Hokr as [-> Hokr]. split; [done|]. rewrite !length_app length_cons. lia. }
  destruct Hokl as [_ Hokl], Hokr as [_ Hokr], Harr as [Hat Harr], Hrarr as [Hrat Hrarr]. destruct ht as [|ht]; cbn [negb Nat.eqb].
  { iApply wp_ret. iExists arr, rarr. destruct Hokl as [? ->], Hokr as [? ->]. iFrame.
    by iPureIntro. }
  destruct Hokl as [-> Hokl], Hokr as [-> Hokr]. cbn [child_slots Z.eqb] in Harr, Hrarr. change (capacity 0) with slots_max in *.
  iPoseProof (wp_kids_across ht l (mkNode q (length A) 0 (length vsl) 0 (slots_of slots_max (vsl ++ v :: vsr)))
    r (mkNode q (S (length A)) 0 (length vsr) 0 (replicate slots_max Raw)) tsr 0 (length tsl)
    (λ j, (Z.of_nat j, Z.of_nat (length tsl + j))) children_fuel
    (λ ij, let! sf := finish r in ret (fst ij <=? sf)) next_child
    (λ '(i, j), let! c := child r i in init_child l j c ;; clear_child r i) arr rarr with "[$Hl $Hr $Hkr]") as "Hw".
  { unfold children_fuel. lia. } { lia. } { lia. } { done. }
  { intros j Hj. unfold next_child. cbn [fst snd]. rewrite !field_id; [f_equal; lia|lia|lia]. }
  { intros j brr brr' Hj. iIntros "[Hl Hr]". iApply wp_bind. iApply (wp_finish with "Hr"). iIntros "Hr". iApply wp_ret. iFrame. iPureIntro.
    cbn [fst]. destruct (Z.leb_spec (Z.of_nat j) (Z.of_nat (length vsr))); case_bool_decide; lia || done. }
  { intros j brr brr' t Hj Hl Hl' Hc. iIntros "(Hl & Hr & Ht)". iApply wp_bind. iApply (wp_child_at with "Hr"); [done|]. iIntros "Hr".
    iApply wp_bind. iApply (wp_init_child with "Hl Ht"); [lia|lia|]. iIntros "Hl Ht". iApply (wp_clear_child with "Hr"); [lia|]. iIntros "Hr".
    iExists _. iFrame. iPureIntro. rewrite length_insert. split; [done|]. intros k Hk. by rewrite list_lookup_insert_ne. }
  iEval (rewrite (_ : field (length vsl + 1) = Z.of_nat (length tsl + 0)); [|rewrite field_id; lia]).
  iApply (wp_wand with "Hw"). iIntros ([]) "(%arr2 & %rarr2 & %H1 & Hl & Hr & Hk)". destruct H1 as ([Hl2 Hs2] & [Hrl2 Hrs2] & H1).
  iExists arr2, rarr2. iFrame "Hl Hr". cbn [kids_below]. rewrite kids_app. iFrame. iPureIntro. split_and!; [|cbn; lia|cbn; lia].
  rewrite fmap_app. apply children_at_app. rewrite length_fmap. split; [|done].
  eapply children_at_same, Hat. rewrite length_fmap. intros k Hk. apply Hs2. lia.
Qed.

(** *** [split] *)

(** How many values go to the new node. *)
Definition split_count (insert_position f : Z) : Z :=
  if insert_position =? 0 then f - 1 else if insert_position =? kNodeSlots then 0 else Z.quot f 2.

Lemma split_count_bounds ins f : 1 <= f -> 0 <= split_count ins f < f.
Proof using Type.
  intros Hf. unfold split_count. rewrite Z.quot_div_nonneg; [|lia|lia]. pose proof (Z.div_lt_upper_bound f 2 f).
  pose proof (Z.div_pos f 2). repeat case_match; lia.
Qed.

Lemma wp_split_finish p par pos fin cap ss arr r rpar rpos rfin rcap rss rarr ins (Ψ : unit -> hPropI V) :
  1 <= fin <= kNodeSlots ->
  p ↦ mkNode par pos 0 fin cap ss arr -∗ r ↦ mkNode rpar rpos 0 rfin rcap rss rarr -∗
  (p ↦ mkNode par pos 0 fin cap ss arr -∗ r ↦ mkNode rpar rpos 0 (split_count ins fin) rcap rss rarr -∗ Ψ tt) -∗
  wp (if ins =? 0 then set_finish r (0 + fin - 1)
      else if ins =? kNodeSlots then set_finish r 0
      else let! c := count p in set_finish r (0 + Z.quot c 2)) Ψ.
Proof.
  intros Hfin. pose proof (split_count_bounds ins fin) as Hb. unfold split_count in *. iIntros "Hp Hr HΨ".
  destruct (ins =? 0); [|destruct (ins =? kNodeSlots)].
  - iApply (wp_set_finish with "Hr"); [lia|]. by iApply "HΨ".
  - iApply (wp_set_finish with "Hr"); [lia|]. by iApply "HΨ".
  - iApply wp_bind. iApply (wp_count with "Hp"); [lia|]. iIntros "Hp". iApply (wp_set_finish with "Hr"); [lia|]. by iApply "HΨ".
Qed.

Lemma wp_split ht q qpar qpos A B qarr ts2 p cap xs w ys ts r rarr ins (Ψ : unit -> hPropI V) :
  (length A + length B < slots_max)%nat -> length qarr = S slots_max -> length ts2 = length B ->
  children_at (S (length A)) (root_loc <$> ts2) qarr -> length (xs ++ w :: ys) = slots_max -> capacity cap = slots_max ->
  Z.of_nat (length ys) = split_count ins kNodeSlots -> length rarr = child_slots cap ->
  inner q qpar qpos (A ++ B) qarr -∗ own_tree ht q (Z.of_nat (length A)) (Tree p cap (xs ++ w :: ys) ts) -∗
  r ↦ mkNode q (Z.of_nat (S (length A))) 0 0 cap (replicate slots_max Raw) rarr -∗ kids ht q (S (length A)) ts2 -∗
  (∀ qarr', ⟦length qarr' = length qarr /\ (forall k, (k <= length A)%nat -> qarr' !! k = qarr !! k) /\
     children_at (S (length A)) (r :: (root_loc <$> ts2)) qarr'⟧ -∗
   inner q qpar qpos (A ++ w :: B) qarr' -∗ own_tree ht q (Z.of_nat (length A)) (Tree p cap xs (take (S (length xs)) ts)) -∗
   own_tree ht q (Z.of_nat (S (length A))) (Tree r cap ys (drop (S (length xs)) ts)) -∗ kids ht q (S (S (length A))) ts2 -∗ Ψ tt) -∗
  wp (split p ins r) Ψ.
Proof.
  intros HA Hqarr Hts2 Hqat Hfull Hcap Hys Hrarr. rewrite own_tree_unfold. pose proof slots_max_Z as Hm. pose proof kNodeSlots_min.
  iIntros "Hq (%Hok & (%arr & %Harr & Hp) & Hk) Hr Hk2 HΨ".
  destruct (leaf_capacity_bounds _ _ _ _ Hok) as (_ & _ & Hi). rewrite length_app /= in Hfull.
  assert ((if cap =? 0 then kNodeSlots else cap) = kNodeSlots) as Hmc.
  { unfold capacity in Hcap. destruct (Z.eqb_spec cap 0); [done|]. destruct Hok as [_ Hok]. destruct ht, Hok as [? _]; lia. }
  unfold inner. rewrite !length_app /=.
  iApply wp_bind. iApply (wp_count with "Hr"); [lia|]. iIntros "Hr". iApply wp_bind. iApply wp_check; [done|].
  iApply wp_bind. iApply (wp_max_count with "Hp"). rewrite Hmc. iIntros "Hp". iApply wp_bind. iApply wp_check; [by apply Z.eqb_eq|].
  iApply wp_bind. iApply (wp_check_siblings with "Hp Hr"); [lia|]. iIntros "Hp Hr".
  iApply wp_bind. iApply (wp_start with "Hp"). iIntros "Hp". iApply wp_bind. iApply (wp_start with "Hr"). iIntros "Hr".
  iApply wp_bind. iApply (wp_finish with "Hp"). iIntros "Hp".
  replace (Z.of_nat (length xs + S (length ys))) with kNodeSlots by lia.
  iApply wp_bind. iApply (wp_split_finish with "Hp Hr"); [lia|]. iIntros "Hp Hr". rewrite -Hys.
  iApply wp_bind. iApply (wp_count with "Hr"); [lia|]. iIntros "Hr".
  iApply wp_bind. iApply (wp_set_finish with "Hp"); [lia|]. iIntros "Hp". replace (kNodeSlots - Z.of_nat (length ys)) with (Z.of_nat (S (length xs))) by lia.
  iApply wp_bind. iApply (wp_count with "Hp"); [lia|]. iIntros "Hp". iApply wp_bind. iApply wp_check; [apply Z.leb_le; lia|].
  iApply wp_bind. iApply (wp_finish with "Hp"). iIntros "Hp". iApply wp_bind.
  iEval (rewrite Hcap slots_middle; [|lia]) in "Hp". iEval (rewrite cons_middle assoc) in "Hp".
  iDestruct (points_to_eq _ _ (mkNode q (S (length A)) 0 (length ys) cap ([] ++ replicate (length ys) Raw ++ replicate (slots_max - length ys) Raw) rarr) with "Hr") as "Hr".
  { f_equal. cbn [app]. rewrite -replicate_add. f_equal. lia. }
  iApply (wp_transfer_n _ _ _ _ _ _ _ _ _ _ _ _ ((Live <$> xs) ++ [Live w]) _ [] _ ys with "Hr Hp");
    [done|done|rewrite length_app length_fmap /=; lia|]. iIntros "Hr Hp".
  iApply wp_bind. iApply (wp_set_finish with "Hp"); [lia|]. iIntros "Hp".
  iApply wp_bind. iApply (wp_position with "Hp"). iIntros "Hp". iApply wp_bind. iApply (wp_parent with "Hp"). iIntros "Hp".
  iApply wp_bind. iApply (wp_finish with "Hp"). iIntros "Hp". replace (Z.of_nat (S (length xs)) - 1) with (Z.of_nat (length xs)) by lia.
  iEval (rewrite -assoc -cons_middle) in "Hp". iApply wp_bind.
  set (rest := replicate (length ys) Raw ++ _).
  iApply (wp_emplace_value q qpar qpos 0 qarr A B w _ _
    (p ↦ mkNode q (length A) 0 (length xs) cap ((Live <$> xs) ++ Live w :: rest) arr)
    (p ↦ mkNode q (length A) 0 (length xs) cap ((Live <$> xs) ++ Moved :: rest) arr) ht ts2 with "Hq Hp Hk2"); try done.
  { iIntros "[Hq Hp]". iApply (wp_value_init_from with "Hq Hp"); [by rewrite length_fmap|by rewrite length_fmap|].
    iIntros "Hq Hp". iFrame. }
  iIntros (qarr') "%Hqa Hq Hp Hk2". destruct Hqa as (Hql & Hqs & Hqat').
  iApply wp_bind. iApply (wp_destroy with "Hp"); [by rewrite length_fmap|done|]. iIntros "Hp".
  iApply wp_bind. rewrite field_id; [|lia].
  iApply (wp_set_mutable_child with "Hq"); [done|lia|]. iIntros "Hq". replace (Z.to_nat (Z.of_nat (length A) + 1)) with (S (length A)) by lia.
  iDestruct (points_to_eq _ _ (mkNode q (length A) 0 (length xs) cap (slots_of (capacity cap) xs) arr) with "Hp") as "Hp".
  { f_equal. subst rest. rewrite Hcap. solve_slots. }
  iDestruct (points_to_eq _ _ (mkNode q (S (length A)) 0 (length ys) cap (slots_of (capacity cap) ys) rarr) with "Hr") as "Hr".
  { f_equal. rewrite Hcap. solve_slots. }
  iApply wp_bind. iApply (wp_is_internal with "Hp"). iIntros "Hp". rewrite Hi. set (m := S (length xs)).
  iAssert (wp (if negb (ht =? 0)%nat then _ else ret tt) (λ _, ∃ arr' rarr',
      ⟦children_at 0 (root_loc <$> take m ts) arr' /\ length arr' = child_slots cap /\
       children_at 0 (root_loc <$> drop m ts) rarr' /\ length rarr' = child_slots cap⟧ ∗
      p ↦ mkNode q (length A) 0 (length xs) cap (slots_of (capacity cap) xs) arr' ∗
      r ↦ mkNode q (S (length A)) 0 (length ys) cap (slots_of (capacity cap) ys) rarr' ∗
      kids_below ht p (take m ts) ∗ kids_below ht r (drop m ts)))%I with "[Hp Hr Hk]" as "Hw"; last first.
  { iApply (wp_wand with "Hw"). iIntros ([]) "(%arr' & %rarr' & %Ha & Hp & Hr & Hkp & Hkr)". destruct Ha as (H1 & H2 & H3 & H4).
    iEval (rewrite length_app length_cons) in "Hq". iApply ("HΨ" with "[] Hq [Hp Hkp] [Hr Hkr] Hk2"); rewrite ?own_tree_unfold.
    - iPureIntro. rewrite length_insert. split_and!; [done|intros k Hk; rewrite list_lookup_insert_ne; [by apply Hqs|lia]|].
      apply children_at_cons. split; [apply list_lookup_insert_eq; lia|]. apply children_at_insert_ne; [lia|done].
    - iFrame. iPureIntro. split; [|by split]. destruct Hok as [_ Hok]. split; [lia|]. destruct ht.
      + destruct Hok as [? ->]. by rewrite take_nil.
      + destruct Hok as [-> Hok]. rewrite length_app length_cons in Hok. split; [done|]. rewrite length_take. subst m. lia.
    - iFrame. iPureIntro. split; [|by split]. destruct Hok as [_ Hok]. split; [lia|]. destruct ht.
      + destruct Hok as [? ->]. by rewrite drop_nil.
      + destruct Hok as [-> Hok]. rewrite length_app length_cons in Hok. split; [done|]. rewrite length_drop. subst m. lia. }
  destruct Hok as [_ Hok], Harr as [Hat Harr]. destruct ht as [|ht]; cbn [negb Nat.eqb].
  { iApply wp_ret. iExists arr, rarr. destruct Hok as [? ->]. rewrite take_nil drop_nil. iFrame. iPureIntro.
    split_and!; (done || apply children_at_nil). }
  destruct Hok as [-> Hok]. rewrite length_app length_cons in Hok. cbn [child_slots Z.eqb] in Harr, Hrarr. change (capacity 0) with slots_max in *.
  assert (length (take m ts) = m) as Htk by (rewrite length_take; lia).
  assert (length (drop m ts) = S (length ys)) as Hdr by (rewrite length_drop; unfold m; lia).
  cbn [kids_below]. iEval (rewrite -{1}(take_drop m ts) kids_app Htk) in "Hk". iDestruct "Hk" as "[Hk1 Hk]".
  rewrite -{1}(take_drop m ts) fmap_app children_at_app length_fmap Htk in Hat. destruct Hat as [Hat1 Hat2].
  iPoseProof (wp_kids_across ht r (mkNode q (S (length A)) 0 (length ys) 0 (slots_of slots_max ys))
    p (mkNode q (length A) 0 (length xs) 0 (slots_of slots_max xs)) (drop m ts) m 0
    (λ j, (Z.of_nat j, Z.of_nat (m + j))) children_fuel
    (λ ij, let! df := finish r in ret (fst ij <=? df)) next_child
    (λ '(i, j), let! c := child p j in init_child r i c ;; clear_child p j) rarr arr with "[$Hp $Hr $Hk]") as "Hw";
    rewrite ?Hdr.
  { unfold children_fuel. lia. } { lia. } { unfold m. lia. } { done. }
  { intros j Hj. unfold next_child, m. cbn [fst snd]. rewrite !field_id; [f_equal; lia|lia|lia]. }
  { intros j brr brr' Hj. iIntros "[Hr Hp]". iApply wp_bind. iApply (wp_finish with "Hr"). iIntros "Hr". iApply wp_ret. iFrame. iPureIntro.
    cbn [fst]. destruct (Z.leb_spec (Z.of_nat j) (Z.of_nat (length ys))); case_bool_decide; lia || done. }
  { intros j brr brr' t Hj Hl Hl' Hc. iIntros "(Hr & Hp & Ht)". iApply wp_bind. iApply (wp_child_at with "Hp"); [done|]. iIntros "Hp".
    iApply wp_bind. iApply (wp_init_child _ _ _ _ _ _ j with "Hr Ht"); [lia|lia|]. iIntros "Hr Ht". iApply (wp_clear_child with "Hp"); [unfold m; lia|]. iIntros "Hp".
    iExists _. iFrame. iPureIntro. rewrite length_insert. split; [done|]. intros k Hk. by rewrite list_lookup_insert_ne. }
  iEval (rewrite (_ : field (length xs + 1) = Z.of_nat (m + 0)); [|unfold m; rewrite field_id; lia]).
  iApply (wp_wand with "Hw"). iIntros ([]) "(%rarr2 & %arr2 & %H1 & Hr & Hp & Hk)". destruct H1 as ([Hrl2 Hrs2] & [Hl2 Hs2] & H1).
  iExists arr2, rarr2. iFrame. iPureIntro. split_and!; [|cbn; lia|done|cbn; lia].
  eapply children_at_same, Hat1. rewrite length_fmap Htk. intros k Hk. apply Hs2. lia.
Qed.
End split.
