(* ===== verification/BtreeZip.v ===== *)
(** * BtreeZip: a node and the way to it (lemmas for Btree.v)

    An iterator points into a node of the tree. [focus lm ht t ctx] owns the tree
    whose subtree [t] is in the context [ctx], a list of the nodes above it with
    what is on the left and on the right of the way; [lm] is the leftmost leaf,
    to which the parent pointer of the root points. [cursor ctx t i xs ys]: the
    position [i] in the node at the root of [t] is the one after the values [xs]
    and before [ys] of the whole tree. *)

From S2P Require Import Prelude.
From S2P Require Import BtreeNode.
From S2P Require Import HeapLogic.
From S2P Require Import BtreeTree.
From S2P Require Import BtreeFree.
From S2P Require Import BtreeMove.
From iris.proofmode Require Import proofmode.
From S2P Require Import Btree.

Import btree_node.
#[local] Open Scope Z_scope.
#[local] Open Scope cpp_scope.

(** ** Values on the left and on the right *)

Record crumb (V : Type) := Crumb { c_loc : loc; c_left : list V; c_right : list V; t_left : list (tree V); t_right : list (tree V) }.
Arguments Crumb {V}. Arguments c_loc {V}. Arguments c_left {V}. Arguments c_right {V}. Arguments t_left {V}. Arguments t_right {V}.

Section zip.
Context {V : Type}.
Implicit Types (t : tree V) (ts : list (tree V)) (vs A B xs ys : list V) (ctx : list (crumb V)).

Definition lpart ts A : list V := mjoin (zip_with (λ t a, values_of t ++ [a]) ts A).
Definition rpart B ts : list V := mjoin (zip_with (λ b t, b :: values_of t) B ts).

Lemma weave_split (es1 es2 : list (list V)) e A B : length es1 = length A ->
  weave (es1 ++ e :: es2) (A ++ B) =
  mjoin (zip_with (λ e a, e ++ [a]) es1 A) ++ e ++ match B with [] => [] | b :: B => b :: weave es2 B end.
Proof.
  revert A. induction es1 as [|e1 es1 IH]; intros [|a A] Hl; try done; cbn in *.
  rewrite IH; [|lia]. by rewrite -!assoc.
Qed.
Lemma weave_rpart (es : list (list V)) B : length es = length B ->
  match B with [] => [] | b :: B => b :: weave es B end = mjoin (zip_with (λ b e, b :: e) B es).
Proof.
  revert es. induction B as [|b B IH]; intros [|e es] Hl; try done. cbn in *. rewrite -IH; [|lia]. by destruct es, B.
Qed.
Lemma elements_split l cap A B TA t TB : length TA = length A -> length TB = length B ->
  values_of (Tree l cap (A ++ B) (TA ++ t :: TB)) = lpart TA A ++ values_of t ++ rpart B TB.
Proof.
  intros HA HB. assert (values_of (Tree l cap (A ++ B) (TA ++ t :: TB)) = weave (values_of <$> TA ++ t :: TB) (A ++ B)) as ->.
  { by destruct TA. }
  rewrite fmap_app fmap_cons weave_split; [|by rewrite length_fmap]. rewrite weave_rpart; [|by rewrite length_fmap].
  unfold lpart, rpart. by rewrite zip_with_fmap_l zip_with_fmap_r.
Qed.
Lemma lpart_app TA TA' A A' : length TA = length A -> lpart (TA ++ TA') (A ++ A') = lpart TA A ++ lpart TA' A'.
Proof. intros Hl. unfold lpart. by rewrite zip_with_app // join_app. Qed.
Lemma rpart_app TA TA' A A' : length TA = length A -> rpart (A ++ A') (TA ++ TA') = rpart A TA ++ rpart A' TA'.
Proof. intros Hl. unfold rpart. by rewrite zip_with_app // join_app. Qed.
Lemma lpart_rpart TA t A v : lpart (t :: TA) (v :: A) = values_of t ++ v :: lpart TA A.
Proof. unfold lpart. cbn. by rewrite -assoc. Qed.
Lemma rpart_cons TA t A v : rpart (v :: A) (t :: TA) = v :: values_of t ++ rpart A TA.
Proof. done. Qed.

Definition before ctx : list V := mjoin (reverse ((λ c, lpart (t_left c) (c_left c)) <$> ctx)).
Definition after ctx : list V := mjoin ((λ c, rpart (c_right c) (t_right c)) <$> ctx).

Lemma before_cons c ctx : before (c :: ctx) = before ctx ++ lpart (t_left c) (c_left c).
Proof. unfold before. rewrite fmap_cons reverse_cons join_app /=. by rewrite right_id_L. Qed.
Lemma after_cons c ctx : after (c :: ctx) = rpart (c_right c) (t_right c) ++ after ctx.
Proof. done. Qed.

Fixpoint plug t ctx : tree V :=
  match ctx with
  | [] => t
  | c :: ctx => plug (Tree (c_loc c) 0 (c_left c ++ c_right c) (t_left c ++ t :: t_right c)) ctx
  end.

Definition crumb_ok (c : crumb V) : Prop := length (t_left c) = length (c_left c) /\ length (t_right c) = length (c_right c).

Lemma elements_plug t ctx : Forall crumb_ok ctx -> values_of (plug t ctx) = before ctx ++ values_of t ++ after ctx.
Proof.
  revert t. induction ctx as [|c ctx IH]; intros t Hok; cbn [plug]; [by rewrite right_id_L|].
  apply Forall_cons in Hok as [[Hl Hr] Hok]. rewrite IH // before_cons after_cons elements_split //. by rewrite -!assoc_L.
Qed.

Inductive cursor ctx : tree V -> nat -> list V -> list V -> Prop :=
  | cursor_leaf l cap A B : cursor ctx (Tree l cap (A ++ B) []) (length A) (before ctx ++ A) (B ++ after ctx)
  | cursor_inner l cap A v B TA tl tr TB : length TA = length A -> length TB = length B ->
      cursor ctx (Tree l cap (A ++ v :: B) (TA ++ tl :: tr :: TB)) (length A)
        (before ctx ++ lpart TA A ++ values_of tl) (v :: values_of tr ++ rpart B TB ++ after ctx).

Lemma cursor_elements ctx t i xs ys : Forall crumb_ok ctx -> cursor ctx t i xs ys -> values_of (plug t ctx) = xs ++ ys.
Proof.
  intros Hctx Hc. rewrite elements_plug //. destruct Hc as [l cap A B|l cap A v B TA tl tr TB HA HB].
  - cbn [values_of]. by rewrite -!assoc_L.
  - rewrite elements_split; [|done|cbn; lia]. rewrite rpart_cons. by rewrite -!app_assoc /= -!app_assoc.
Qed.
End zip.

(** ** Ownership *)

Section focus.
Context {K V : Type} `{PB : BtreeParams K V} {LB : BtreeLaws K V} `{AL : Allocator} {FL : AllocatorLaws}.
Implicit Types (p q : loc) (t : tree V) (ts : list (tree V)) (vs A B xs ys : list V) (ctx : list (crumb V)) (arr : list (option loc)).

Definition ctx_parent (lm : loc) ctx : loc := match ctx with [] => lm | c :: _ => c_loc c end.
Definition ctx_pos ctx : Z := match ctx with [] => 0 | c :: _ => Z.of_nat (length (c_left c)) end.

Definition own_crumb (ht : nat) (hole : loc) (c : crumb V) (par : loc) (pos : Z) : hPropI V :=
  ∃ arr, ⟦length arr = S slots_max /\ (length (c_left c ++ c_right c) <= slots_max)%nat /\ crumb_ok c /\
      children_at 0 ((root_loc <$> t_left c) ++ hole :: (root_loc <$> t_right c)) arr⟧ ∗
    inner (c_loc c) par pos (c_left c ++ c_right c) arr ∗
    kids ht (c_loc c) 0 (t_left c) ∗ kids ht (c_loc c) (S (length (c_left c))) (t_right c).

Fixpoint own_ctx (lm : loc) (ht : nat) (hole : loc) ctx : hPropI V :=
  match ctx with
  | [] => emp
  | c :: ctx => own_crumb ht hole c (ctx_parent lm ctx) (ctx_pos ctx) ∗ own_ctx lm (S ht) (c_loc c) ctx
  end.

Definition focus (lm : loc) (ht : nat) t ctx : hPropI V :=
  own_tree ht (ctx_parent lm ctx) (ctx_pos ctx) t ∗ own_ctx lm ht (root_loc t) ctx.

Lemma own_tree_crumb ht par pos t c : crumb_ok c ->
  own_tree (S ht) par pos (Tree (c_loc c) 0 (c_left c ++ c_right c) (t_left c ++ t :: t_right c)) ⊣⊢
  own_tree ht (c_loc c) (Z.of_nat (length (c_left c))) t ∗ own_crumb ht (root_loc t) c par pos.
Proof using Type.
  intros [Hl Hr]. rewrite own_tree_unfold. cbn [kids_below]. rewrite kids_app kids_cons Hl Nat.add_0_l. iSplit.
  - iIntros "(%Hok & (%arr & %Ha & Hp) & Hk1 & Ht & Hk2)". iFrame. iPureIntro. destruct Ha as [Hat Ha], Hok as [Hc _].
    split_and!; [done|done|done|]. by rewrite fmap_app fmap_cons in Hat.
  - iIntros "[Ht (%arr & %Ha & Hp & Hk1 & Hk2)]". iFrame. iPureIntro. destruct Ha as (Ha & Hle & _ & Hat). split.
    + split; [done|]. split; [done|]. rewrite !length_app length_cons. lia.
    + split; [|done]. by rewrite fmap_app fmap_cons.
Qed.

Lemma focus_crumb_ok lm ht t ctx : focus lm ht t ctx ⊢ ⟦Forall crumb_ok ctx /\ tree_wf ht t⟧ ∗ focus lm ht t ctx.
Proof using Type.
  iIntros "[Ht Hc]". iDestruct (own_tree_wf with "Ht") as "[%Hwf Ht]". iFrame "Ht".
  iAssert (⟦Forall crumb_ok ctx⟧ ∗ own_ctx lm ht (root_loc t) ctx)%I with "[Hc]" as "[%Hok Hc]"; [|by iFrame].
  clear Hwf. generalize (root_loc t) as hole. intros hole. iInduction ctx as [|c ctx] "IH" forall (ht hole); [by iFrame|].
  cbn [own_ctx]. iDestruct "Hc" as "[(%arr & %Ha & Hp & Hk) Hc]". iDestruct ("IH" with "Hc") as "[%Hctx Hc]".
  iFrame. iPureIntro. split; [|by destruct Ha]. by constructor; [apply Ha|].
Qed.

Lemma focus_up lm ht t c ctx :
  focus lm ht t (c :: ctx) ⊢ focus lm (S ht) (Tree (c_loc c) 0 (c_left c ++ c_right c) (t_left c ++ t :: t_right c)) ctx.
Proof using Type.
  iIntros "H". iDestruct (focus_crumb_ok with "H") as "[%Hok [Ht [Hc Hctx]]]". destruct Hok as [[Hok _]%Forall_cons _].
  iFrame "Hctx". rewrite own_tree_crumb //. iFrame.
Qed.
Lemma focus_down lm ht t c ctx : crumb_ok c ->
  focus lm (S ht) (Tree (c_loc c) 0 (c_left c ++ c_right c) (t_left c ++ t :: t_right c)) ctx ⊢ focus lm ht t (c :: ctx).
Proof using Type.
  intros Hok. iIntros "[Ht Hctx]". rewrite own_tree_crumb //. iDestruct "Ht" as "[Ht Hc]". iFrame.
Qed.

Lemma focus_plug lm ht t ctx : focus lm ht t ctx ⊢ own_tree (length ctx + ht) lm 0 (plug t ctx).
Proof using Type.
  revert ht t. induction ctx as [|c ctx IH]; intros ht t.
  - iIntros "[Ht _]". by iApply "Ht".
  - rewrite focus_up. iIntros "H". iPoseProof (IH with "H") as "H". cbn [length plug]. by rewrite Nat.add_succ_r.
Qed.
Lemma focus_unplug lm ht t ctx : Forall crumb_ok ctx -> own_tree (length ctx + ht) lm 0 (plug t ctx) ⊢ focus lm ht t ctx.
Proof using Type.
  revert ht t. induction ctx as [|c ctx IH]; intros ht t Hok.
  - iIntros "Ht". by iFrame.
  - apply Forall_cons in Hok as [Hc Hok]. rewrite -focus_down // -IH //. cbn [length plug]. by rewrite Nat.add_succ_r.
Qed.

Lemma focus_at_least lm ht t ctx : focus lm ht t ctx ⊢ at_least (length ctx + nodes_of t).
Proof using Type.
  iIntros "[Ht Hc]". iApply at_least_sep. iSplitR "Ht"; [|by iApply own_tree_at_least].
  generalize (root_loc t) as hole. intros hole. iInduction ctx as [|c ctx] "IH" forall (ht hole); [iApply (at_least_0 with "Hc")|].
  cbn [own_ctx length]. iDestruct "Hc" as "[(%arr & %Ha & Hp & Hk) Hc]". iApply (at_least_sep 1).
  iSplitR "Hc"; [|by iApply "IH"]. iApply (at_least_sep 1 0). iSplitL "Hp"; [by iApply points_to_at_least|]. iApply (at_least_0 with "Hk").
Qed.
End focus.

(** * iterators and the values they point to (lemmas for Btree.v)

    [iter_at ht T it xs ys]: in the tree [T] with its leaves at depth [ht], the
    iterator [it] is after the values [xs] and before [ys]. [increment] and
    [decrement] move it by one value, whatever nodes they climb through. *)

Import btree_node.
Import btree_iterator.
#[local] Open Scope Z_scope.
#[local] Open Scope cpp_scope.

(** ** Ways through a tree *)

Definition node_values {V} (t : tree V) : list V := match t with Tree _ _ vs _ => vs end.
Definition count_of {V} (t : tree V) : Z := Z.of_nat (length (node_values t)).
Definition left_end {V} (c : crumb V) : Prop := c_left c = [] /\ t_left c = [].
Definition right_end {V} (c : crumb V) : Prop := c_right c = [] /\ t_right c = [].

Section ways.
Context {V : Type} `{PB : BtreeParams K V}.
Implicit Types (t : tree V) (ts : list (tree V)) (ctx : list (crumb V)) (xs ys : list V).

Lemma plug_app t ctx1 ctx2 : plug t (ctx1 ++ ctx2) = plug (plug t ctx1) ctx2.
Proof using Type. revert t. induction ctx1 as [|c ctx1 IH]; intros t; [done|]. apply IH. Qed.
Lemma before_app ctx1 ctx2 : before (ctx1 ++ ctx2) = before ctx2 ++ before ctx1.
Proof using Type. induction ctx1 as [|c ctx1 IH]; [by rewrite app_nil_r|]. cbn [app]. by rewrite !before_cons IH app_assoc. Qed.
Lemma after_app ctx1 ctx2 : after (ctx1 ++ ctx2) = after ctx1 ++ after ctx2.
Proof using Type. induction ctx1 as [|c ctx1 IH]; [done|]. cbn [app]. by rewrite !after_cons IH app_assoc. Qed.
Lemma before_left_end ctx : Forall left_end ctx -> before ctx = [].
Proof using Type.
  induction 1 as [|c ctx [Hc Ht] _ IH]; [done|]. by rewrite before_cons IH Hc Ht.
Qed.
Lemma after_right_end ctx : Forall right_end ctx -> after ctx = [].
Proof using Type.
  induction 1 as [|c ctx [Hc Ht] _ IH]; [done|]. by rewrite after_cons IH Hc Ht.
Qed.

Fixpoint rightmost_loc t : loc :=
  match t with
  | Tree l _ _ ts => (fix go (l : loc) ts := match ts with [] => l | t :: ts => go (rightmost_loc t) ts end) l ts
  end.
Lemma rightmost_loc_snoc l cap vs ts t : rightmost_loc (Tree l cap vs (ts ++ [t])) = rightmost_loc t.
Proof using Type.
  cbn. generalize l. induction ts as [|t' ts IH]; intros l'; [done|]. apply IH.
Qed.

(** The way to the leaf on the left, and on the right. *)
Lemma leftmost_way ht t : tree_wf ht t -> exists ctx t', plug t' ctx = t /\ length ctx = ht /\ Forall crumb_ok ctx /\
  Forall left_end ctx /\ root_loc t' = leftmost_loc t /\ tree_wf 0 t'.
Proof using Type.
  revert t. induction ht as [|ht IH]; intros [l cap vs ts] [Hok Hts].
  - exists [], (Tree l cap vs ts). destruct Hok as (Hc & Hcap & ->). by split_and!.
  - destruct Hok as (Hc & -> & Hlen). destruct ts as [|t ts]; [done|]. apply Forall_cons in Hts as [Ht Hts].
    destruct (IH t Ht) as (ctx & t' & Hp & Hl & Hctx & Hend & Hlm & Hwf).
    exists (ctx ++ [Crumb l [] vs [] ts]), t'. rewrite plug_app Hp length_app /=. split_and!; try done.
    + lia.
    + apply Forall_app. split; [done|]. constructor; [|done]. cbn in Hlen. split; [done|cbn; lia].
    + apply Forall_app. split; [done|]. by constructor.
Qed.
Lemma rightmost_way ht t : tree_wf ht t -> exists ctx t', plug t' ctx = t /\ length ctx = ht /\ Forall crumb_ok ctx /\
  Forall right_end ctx /\ root_loc t' = rightmost_loc t /\ tree_wf 0 t'.
Proof using Type.
  revert t. induction ht as [|ht IH]; intros [l cap vs ts] [Hok Hts].
  - exists [], (Tree l cap vs ts). destruct Hok as (Hc & Hcap & ->). by split_and!.
  - destruct Hok as (Hc & -> & Hlen). destruct ts as [|t ts _] using rev_ind; [done|].
    apply Forall_app in Hts as [Hts Ht]. apply Forall_cons in Ht as [Ht _]. rewrite rightmost_loc_snoc.
    destruct (IH t Ht) as (ctx & t' & Hp & Hl & Hctx & Hend & Hlm & Hwf).
    exists (ctx ++ [Crumb l vs [] ts []]), t'. rewrite plug_app Hp length_app /= app_nil_r. split_and!; try done.
    + lia.
    + apply Forall_app. split; [done|]. constructor; [|done]. rewrite length_app /= in Hlen. split; [cbn; lia|done].
    + apply Forall_app. split; [done|]. by constructor.
Qed.

(** Where climbing ends. *)
Lemma right_turn ctx : Forall crumb_ok ctx ->
  Forall right_end ctx \/ exists ctx1 c ctx2 v B t ts, ctx = ctx1 ++ c :: ctx2 /\ Forall right_end ctx1 /\ c_right c = v :: B /\ t_right c = t :: ts.
Proof using Type.
  induction 1 as [|c ctx [_ Hc] _ IH]; [by left|]. destruct (c_right c) as [|v B] eqn:Ec, (t_right c) as [|t ts] eqn:Et; try done.
  - destruct IH as [IH|(ctx1 & c' & ctx2 & v & B & t & ts & -> & H1 & Hv & Ht)]; [left; by constructor|].
    right. exists (c :: ctx1), c', ctx2, v, B, t, ts. split_and!; try done. by constructor.
  - right. by exists [], c, ctx, v, B, t, ts.
Qed.
Lemma left_turn ctx : Forall crumb_ok ctx ->
  Forall left_end ctx \/ exists ctx1 c ctx2 A v ts t, ctx = ctx1 ++ c :: ctx2 /\ Forall left_end ctx1 /\ c_left c = A ++ [v] /\ t_left c = ts ++ [t].
Proof using Type.
  induction 1 as [|c ctx [Hc _] _ IH]; [by left|]. destruct (c_left c) as [|v A _] eqn:Ec using rev_ind; destruct (t_left c) as [|t ts _] eqn:Et using rev_ind;
    try (rewrite ?length_app /= in Hc; lia).
  - destruct IH as [IH|(ctx1 & c' & ctx2 & A & v & ts & t & -> & H1 & Hv & Ht)]; [left; by constructor|].
    right. exists (c :: ctx1), c', ctx2, A, v, ts, t. split_and!; try done. by constructor.
  - right. by exists [], c, ctx, A, v, ts, t.
Qed.
End ways.

(** ** Reading nodes *)
Section read.
Context {K V : Type} `{PB : BtreeParams K V} {LB : BtreeLaws K V} `{AL : Allocator} {FL : AllocatorLaws}.
Implicit Types (p q : loc) (t : tree V) (ts : list (tree V)) (vs A B xs ys : list V) (ctx : list (crumb V)) (arr : list (option loc)).

Lemma focus_node lm ht l cap vs ts ctx : focus lm ht (Tree l cap vs ts) ctx -∗
  ∃ arr, ⟦tree_ok ht cap vs ts /\ children_at 0 (root_loc <$> ts) arr /\ length arr = child_slots cap⟧ ∗
    l ↦ mkNode (ctx_parent lm ctx) (ctx_pos ctx) 0 (Z.of_nat (length vs)) cap (slots_of (capacity cap) vs) arr ∗
    (l ↦ mkNode (ctx_parent lm ctx) (ctx_pos ctx) 0 (Z.of_nat (length vs)) cap (slots_of (capacity cap) vs) arr -∗
     focus lm ht (Tree l cap vs ts) ctx).
Proof using Type.
  iIntros "[Ht Hctx]". iEval (rewrite own_tree_unfold) in "Ht". iDestruct "Ht" as "(%Hok & (%arr & %Ha & Hl) & Hk)".
  iExists arr. iFrame "Hl". iSplitR; [by iPureIntro|]. iIntros "Hl". iFrame "Hctx". rewrite own_tree_unfold. iFrame. by iPureIntro.
Qed.

Section getters.
Context (lm : loc) (ht : nat) (t : tree V) (ctx : list (crumb V)).
Let F := focus lm ht t ctx.

#[local] Ltac get r := iIntros "H HΦ"; destruct t as [l cap vs ts]; iDestruct (focus_node with "H") as (arr) "(%Hok & Hp & H)";
  iApply (r with "Hp"); iIntros "Hp"; iApply "HΦ"; by iApply "H".

Lemma wp_at_finish Φ : F -∗ (F -∗ Φ (count_of t)) -∗ wp (finish (root_loc t)) Φ.
Proof. get (wp_finish (V:=V)). Qed.
Lemma wp_at_start Φ : F -∗ (F -∗ Φ 0) -∗ wp (start (root_loc t)) Φ.
Proof. get (wp_start (V:=V)). Qed.
Lemma wp_at_position Φ : F -∗ (F -∗ Φ (ctx_pos ctx)) -∗ wp (position (root_loc t)) Φ.
Proof. get (wp_position (V:=V)). Qed.
Lemma wp_at_parent (Φ : loc -> hPropI V) : F -∗ (F -∗ Φ (ctx_parent lm ctx)) -∗ wp (parent (root_loc t)) Φ.
Proof. get (wp_parent (V:=V)). Qed.
Lemma wp_at_is_leaf (Φ : bool -> hPropI V) : F -∗ (F -∗ Φ (ht =? 0)%nat) -∗ wp (is_leaf (root_loc t)) Φ.
Proof.
  iIntros "[Ht Hc] HΦ". iApply (wp_tree_is_leaf with "Ht"). iIntros "Ht".
  replace (bool_decide (ht = O)) with (ht =? 0)%nat by by destruct ht. iApply "HΦ". iFrame.
Qed.
Lemma wp_at_is_internal (Φ : bool -> hPropI V) : F -∗ (F -∗ Φ (negb (ht =? 0)%nat)) -∗ wp (is_internal (root_loc t)) Φ.
Proof.
  iIntros "[Ht Hc] HΦ". iApply (wp_tree_is_internal with "Ht"). iIntros "Ht". iApply "HΦ". iFrame.
Qed.
Lemma wp_at_count Φ : F -∗ (F -∗ Φ (count_of t)) -∗ wp (count (root_loc t)) Φ.
Proof.
  iIntros "H HΦ". destruct t as [l cap vs ts]. iDestruct (focus_node with "H") as (arr) "(%Hok & Hp & H)". pose proof slots_max_Z.
  destruct Hok as [Hok _]. destruct (leaf_capacity_bounds _ _ _ _ Hok) as (Hc & Hm & _).
  iApply (wp_count with "Hp"); [lia|]. iIntros "Hp". iApply "HΦ". by iApply "H".
Qed.
Lemma wp_at_value A v B i (Φ : V -> hPropI V) : node_values t = A ++ v :: B -> i = Z.of_nat (length A) ->
  F -∗ (F -∗ Φ v) -∗ wp (value (root_loc t) i) Φ.
Proof.
  intros Ht Hi. iIntros "H HΦ". subst F. destruct t as [l cap vs ts]. cbn in Ht. subst vs.
  iDestruct (focus_node with "H") as (arr) "(%Hok & Hp & H)". iEval (rewrite slots_middle; [|destruct Hok as [[Hok _] _]; rewrite length_app /= in Hok; lia]) in "Hp H".
  iApply (wp_value with "Hp"); [by rewrite length_fmap|]. iIntros "Hp". iApply "HΦ". by iApply "H".
Qed.
Lemma wp_at_child i (Φ : loc -> hPropI V) t' : (0 < ht)%nat -> (match t with Tree _ _ _ ts => ts !! i end) = Some t' ->
  F -∗ (F -∗ Φ (root_loc t')) -∗ wp (child (root_loc t) (Z.of_nat i)) Φ.
Proof.
  intros Hht Hi. iIntros "H HΦ". subst F. destruct t as [l cap vs ts]. iDestruct (focus_node with "H") as (arr) "(%Hok & Hp & H)".
  destruct Hok as ([_ Hok] & Hat & _). destruct ht; [lia|]. destruct Hok as [-> _].
  iApply (wp_child with "Hp"); [done|lia| |].
  { rewrite Nat2Z.id. apply (Hat i). by rewrite list_lookup_fmap Hi. }
  iIntros "Hp". iApply "HΦ". by iApply "H".
Qed.
End getters.
End read.

(** ** Climbing *)

Definition graft {V} (t : tree V) (c : crumb V) : tree V :=
  Tree (c_loc c) 0 (c_left c ++ c_right c) (t_left c ++ t :: t_right c).

Section climb.
Context {K V : Type} `{PB : BtreeParams K V} {LB : BtreeLaws K V} `{AL : Allocator} {FL : AllocatorLaws}.
Implicit Types (p q : loc) (t T : tree V) (ts : list (tree V)) (vs A B xs ys : list V) (ctx : list (crumb V)).

Lemma focus_move lm ht t ctx ht' t' ctx' : plug t ctx = plug t' ctx' -> (length ctx + ht = length ctx' + ht')%nat ->
  Forall crumb_ok ctx' -> focus lm ht t ctx ⊢ focus lm ht' t' ctx'.
Proof using Type. intros Hp Hl Hok. rewrite focus_plug Hp Hl. by apply focus_unplug. Qed.

Lemma focus_step lm ht t c ctx : focus lm ht t (c :: ctx) ⊢ ⟦crumb_ok c⟧ ∗ focus lm (S ht) (graft t c) ctx.
Proof using Type.
  iIntros "H". iDestruct (focus_crumb_ok with "H") as "[%Hok H]". destruct Hok as [[Hok _]%Forall_cons _].
  iSplitR; [by iPureIntro|]. by iApply focus_up.
Qed.
Lemma focus_down' lm ht t c ctx : crumb_ok c -> focus lm (S ht) (graft t c) ctx ⊢ focus lm ht t (c :: ctx).
Proof using Type. apply focus_down. Qed.

(** The parent of the root is a leaf, and the only one that is. *)
Lemma wp_at_parent_is_leaf lm ht t ctx (Φ : bool -> hPropI V) : lm = leftmost_loc (plug t ctx) ->
  focus lm ht t ctx -∗ (focus lm ht t ctx -∗ Φ (bool_decide (ctx = []))) -∗ wp (is_leaf (ctx_parent lm ctx)) Φ.
Proof.
  intros Hlm. iIntros "H HΦ". destruct ctx as [|c ctx]; cbn [ctx_parent].
  - iDestruct (focus_crumb_ok with "H") as "[%Hok H]". destruct Hok as [_ Hwf].
    destruct (leftmost_way _ _ Hwf) as (ctx' & t' & Hp & Hl & Hctx & _ & Hr & _). cbn in Hlm. rewrite Hlm -Hr.
    iDestruct (focus_move _ _ _ _ 0 t' ctx' with "H") as "H"; [by rewrite Hp|cbn; lia|done|].
    iApply (wp_at_is_leaf with "H"). iIntros "H". rewrite bool_decide_true //. iApply "HΦ".
    iApply (focus_move with "H"); [by rewrite Hp|cbn; lia|done].
  - iDestruct (focus_step with "H") as "[%Hc H]". iApply (wp_at_is_leaf _ _ (graft t c) with "H"). iIntros "H".
    rewrite bool_decide_false //. iApply "HΦ". by iApply focus_down'.
Qed.
Lemma wp_at_is_root lm ht t ctx (Φ : bool -> hPropI V) : lm = leftmost_loc (plug t ctx) ->
  focus lm ht t ctx -∗ (focus lm ht t ctx -∗ Φ (bool_decide (ctx = []))) -∗ wp (is_root (root_loc t)) Φ.
Proof.
  intros Hlm. iIntros "H HΦ". iApply wp_bind. iApply (wp_at_parent with "H"). iIntros "H".
  by iApply (wp_at_parent_is_leaf with "H").
Qed.

(** The child to which a node points in its parent. *)
Lemma wp_at_parent_child lm ht t c ctx (Φ : loc -> hPropI V) :
  focus lm ht t (c :: ctx) -∗ (focus lm ht t (c :: ctx) -∗ Φ (root_loc t)) -∗
  wp (child (c_loc c) (Z.of_nat (length (c_left c)))) Φ.
Proof.
  iIntros "H HΦ". iDestruct (focus_step with "H") as "[%Hc H]". iApply (wp_at_child _ _ (graft t c) with "H"); [lia| |].
  { cbn. apply list_lookup_middle. by destruct Hc. }
  iIntros "H". iApply "HΦ". by iApply focus_down'.
Qed.

Lemma wp_climb_right_step lm ht t c ctx fuel (Φ : loc * Z -> hPropI V) : lm = leftmost_loc (plug t (c :: ctx)) ->
  focus lm ht t (c :: ctx) -∗
  (focus lm (S ht) (graft t c) ctx -∗ wp (climb_right fuel (c_loc c) (Z.of_nat (length (c_left c)))) Φ) -∗
  wp (climb_right (S fuel) (root_loc t) (count_of t)) Φ.
Proof.
  intros Hlm. iIntros "H HΦ". cbn [climb_right]. iApply wp_bind. iApply (wp_at_finish with "H"). iIntros "H".
  rewrite Z.eqb_refl. iApply wp_bind. iApply (wp_at_is_root with "H"); [done|]. iIntros "H". rewrite bool_decide_false //.
  iApply wp_bind. iApply (wp_at_parent with "H"). iIntros "H". iApply wp_bind. iApply (wp_at_position with "H"). iIntros "H".
  cbn [ctx_parent ctx_pos]. iApply wp_bind. iApply (wp_at_parent_child with "H"). iIntros "H". iApply wp_bind.
  iApply wp_check; [by apply bool_decide_eq_true|]. iApply "HΦ". iDestruct (focus_step with "H") as "[_ H]". done.
Qed.

Lemma wp_climb_right_through lm ht t ctx1 ctx2 fuel (Φ : loc * Z -> hPropI V) : lm = leftmost_loc (plug t (ctx1 ++ ctx2)) ->
  Forall right_end ctx1 ->
  focus lm ht t (ctx1 ++ ctx2) -∗
  (focus lm (length ctx1 + ht) (plug t ctx1) ctx2 -∗ wp (climb_right fuel (root_loc (plug t ctx1)) (count_of (plug t ctx1))) Φ) -∗
  wp (climb_right (length ctx1 + fuel) (root_loc t) (count_of t)) Φ.
Proof.
  intros Hlm Hend. iIntros "H HΦ". iInduction Hend as [|c ctx1 [Hc Ht] Hend IH] "IH" forall (ht t Hlm); [by iApply "HΦ"|].
  cbn [app length Nat.add]. iApply (wp_climb_right_step with "H"); [done|]. iIntros "H".
  replace (Z.of_nat (length (c_left c))) with (count_of (graft t c)) by (unfold count_of; cbn; by rewrite Hc app_nil_r).
  iApply ("IH" $! (S ht) (graft t c) with "[] H"); [by iPureIntro|]. by rewrite Nat.add_succ_r.
Qed.

(** To the root, when there is nothing on the right; else to the node with the
    next value. *)
Lemma wp_climb_right_end lm ht t ctx fuel (Φ : loc * Z -> hPropI V) : lm = leftmost_loc (plug t ctx) ->
  Forall right_end ctx -> (length ctx < fuel)%nat -> focus lm ht t ctx -∗
  (focus lm (length ctx + ht) (plug t ctx) [] -∗ Φ (root_loc (plug t ctx), count_of (plug t ctx))) -∗
  wp (climb_right fuel (root_loc t) (count_of t)) Φ.
Proof.
  intros Hlm Hend Hf. iIntros "H HΦ". replace fuel with (length ctx + S (fuel - S (length ctx)))%nat by lia.
  iApply (wp_climb_right_through _ _ _ ctx [] with "[H]"); rewrite ?app_nil_r //. iIntros "H". cbn [climb_right].
  iApply wp_bind. iApply (wp_at_finish with "H"). iIntros "H". rewrite Z.eqb_refl. iApply wp_bind.
  iApply (wp_at_is_root with "H"); [done|]. iIntros "H". rewrite bool_decide_true //. iApply wp_ret. by iApply "HΦ".
Qed.
Lemma wp_climb_right_turn lm ht t ctx1 c ctx2 fuel (Φ : loc * Z -> hPropI V) : lm = leftmost_loc (plug t (ctx1 ++ c :: ctx2)) ->
  Forall right_end ctx1 -> c_right c ≠ [] -> (S (length ctx1) < fuel)%nat -> focus lm ht t (ctx1 ++ c :: ctx2) -∗
  (focus lm (S (length ctx1) + ht) (graft (plug t ctx1) c) ctx2 -∗ Φ (c_loc c, Z.of_nat (length (c_left c)))) -∗
  wp (climb_right fuel (root_loc t) (count_of t)) Φ.
Proof.
  intros Hlm Hend Hc Hf. iIntros "H HΦ". replace fuel with (length ctx1 + S (S (fuel - S (S (length ctx1)))))%nat by lia.
  iApply (wp_climb_right_through with "H"); [done|done|]. iIntros "H".
  iApply (wp_climb_right_step with "H"); [by rewrite Hlm plug_app|]. iIntros "H". cbn [climb_right]. iApply wp_bind.
  iApply (wp_at_finish _ _ (graft _ c) with "H"). iIntros "H". rewrite (proj2 (Z.eqb_neq _ _)).
  - iApply wp_ret. by iApply "HΦ".
  - unfold count_of. cbn. rewrite length_app. destruct (c_right c); [done|]. cbn. lia.
Qed.

Lemma wp_climb_left_step lm ht t c ctx fuel (Φ : loc * Z -> hPropI V) : lm = leftmost_loc (plug t (c :: ctx)) ->
  focus lm ht t (c :: ctx) -∗
  (focus lm (S ht) (graft t c) ctx -∗ wp (climb_left fuel (c_loc c) (Z.of_nat (length (c_left c)) - 1)) Φ) -∗
  wp (climb_left (S fuel) (root_loc t) (-1)) Φ.
Proof.
  intros Hlm. iIntros "H HΦ". cbn [climb_left]. iApply wp_bind. iApply (wp_at_start with "H"). iIntros "H".
  iApply wp_bind. iApply (wp_at_is_root with "H"); [done|]. iIntros "H". rewrite bool_decide_false //.
  iApply wp_bind. iApply (wp_at_parent with "H"). iIntros "H". iApply wp_bind. iApply (wp_at_position with "H"). iIntros "H".
  cbn [ctx_parent ctx_pos]. iApply wp_bind. iApply (wp_at_parent_child with "H"). iIntros "H". iApply wp_bind.
  iApply wp_check; [by apply bool_decide_eq_true|]. iApply "HΦ". iDestruct (focus_step with "H") as "[_ H]". done.
Qed.
Lemma wp_climb_left_through lm ht t ctx1 ctx2 fuel (Φ : loc * Z -> hPropI V) : lm = leftmost_loc (plug t (ctx1 ++ ctx2)) ->
  Forall left_end ctx1 ->
  focus lm ht t (ctx1 ++ ctx2) -∗
  (focus lm (length ctx1 + ht) (plug t ctx1) ctx2 -∗ wp (climb_left fuel (root_loc (plug t ctx1)) (-1)) Φ) -∗
  wp (climb_left (length ctx1 + fuel) (root_loc t) (-1)) Φ.
Proof.
  intros Hlm Hend. iIntros "H HΦ". iInduction Hend as [|c ctx1 [Hc Ht] Hend IH] "IH" forall (ht t Hlm); [by iApply "HΦ"|].
  cbn [app length Nat.add]. iApply (wp_climb_left_step with "H"); [done|]. iIntros "H". rewrite Hc.
  iApply ("IH" $! (S ht) (graft t c) with "[] H"); [by iPureIntro|]. by rewrite Nat.add_succ_r.
Qed.
Lemma wp_climb_left_turn lm ht t ctx1 c ctx2 fuel (Φ : loc * Z -> hPropI V) : lm = leftmost_loc (plug t (ctx1 ++ c :: ctx2)) ->
  Forall left_end ctx1 -> c_left c ≠ [] -> (S (length ctx1) < fuel)%nat -> focus lm ht t (ctx1 ++ c :: ctx2) -∗
  (focus lm (S (length ctx1) + ht) (graft (plug t ctx1) c) ctx2 -∗ Φ (c_loc c, Z.of_nat (length (c_left c)) - 1)) -∗
  wp (climb_left fuel (root_loc t) (-1)) Φ.
Proof.
  intros Hlm Hend Hc Hf. iIntros "H HΦ". replace fuel with (length ctx1 + S (S (fuel - S (S (length ctx1)))))%nat by lia.
  iApply (wp_climb_left_through with "H"); [done|done|]. iIntros "H".
  iApply (wp_climb_left_step with "H"); [by rewrite Hlm plug_app|]. iIntros "H". cbn [climb_left]. iApply wp_bind.
  iApply (wp_at_start _ _ (graft _ c) with "H"). iIntros "H". rewrite (proj2 (Z.ltb_ge _ _)).
  - iApply wp_ret. by iApply "HΦ".
  - destruct (c_left c); [done|]. cbn [length]. lia.
Qed.
End climb.

(** ** Iterators *)

Inductive full {V} : tree V -> Prop :=
  | Full l cap vs ts : vs ≠ [] -> Forall full ts -> full (Tree l cap vs ts).
Lemma full_inv {V} l cap vs (ts : list (tree V)) : full (Tree l cap vs ts) -> vs ≠ [] /\ Forall full ts.
Proof. by inversion 1. Qed.

Definition iter_at {V} (ht : nat) (T : tree V) (it : iterator) (xs ys : list V) : Prop :=
  exists ctx t i h, plug t ctx = T /\ (length ctx + h)%nat = ht /\ Forall crumb_ok ctx /\ cursor ctx t i xs ys /\
    it = mkIterator (Some (root_loc t)) (Z.of_nat i) /\ (ys ≠ [] -> (i < length (node_values t))%nat).

Section iterators.
Context {K V : Type} `{PB : BtreeParams K V} {LB : BtreeLaws K V} `{AL : Allocator} {FL : AllocatorLaws}.
Implicit Types (p q : loc) (t T : tree V) (ts : list (tree V)) (vs A B xs ys : list V) (ctx : list (crumb V)).

Definition own (ht : nat) T : hPropI V := own_tree ht (leftmost_loc T) 0 T.

Lemma full_plug t ctx : full (plug t ctx) -> full t.
Proof using Type.
  revert t. induction ctx as [|c ctx IH]; intros t Hf; [done|]. apply IH, full_inv in Hf as [_ Hf].
  apply Forall_app in Hf as [_ Hf]. by apply Forall_cons in Hf as [Hf _].
Qed.
Lemma iter_at_values ht T it xs ys : iter_at ht T it xs ys -> values_of T = xs ++ ys.
Proof using Type. intros (ctx & t & i & h & <- & _ & Hok & Hc & _). by apply (cursor_elements _ _ i). Qed.

Lemma own_focus ht h t ctx : (length ctx + h)%nat = ht -> Forall crumb_ok ctx ->
  own ht (plug t ctx) ⊣⊢ focus (leftmost_loc (plug t ctx)) h t ctx.
Proof using Type.
  intros <- Hok. unfold own. iSplit; iIntros "H"; [by iApply focus_unplug|by iApply focus_plug].
Qed.

Lemma nodes_graft t c : (nodes_of t < nodes_of (graft t c))%nat.
Proof using Type. unfold graft. cbn [nodes_of]. rewrite fmap_app sum_list_with_app fmap_cons. cbn. lia. Qed.

Lemma focus_own ht h t ctx T lm : plug t ctx = T -> (length ctx + h)%nat = ht -> lm = leftmost_loc T -> focus lm h t ctx ⊢ own ht T.
Proof using Type. intros <- <- ->. apply focus_plug. Qed.

(** To the leftmost leaf of the subtree, and the rightmost. *)
Lemma focus_leftmost lm ht t ctx : focus lm ht t ctx ⊢
  ∃ t' ctx', ⟦plug t' ctx' = plug t ctx /\ length ctx' = (length ctx + ht)%nat /\ Forall crumb_ok ctx' /\ tree_wf 0 t' /\
    root_loc t' = leftmost_loc t /\ before ctx' = before ctx /\ node_values t' ++ after ctx' = values_of t ++ after ctx⟧ ∗
    focus lm 0 t' ctx'.
Proof.
  iIntros "H". iDestruct (focus_crumb_ok with "H") as "[%Hok H]". destruct Hok as [Hok Hwf].
  destruct (leftmost_way _ _ Hwf) as (ctx1 & t' & Hp & Hl & Hctx & Hend & Hr & Hwf').
  iExists t', (ctx1 ++ ctx). iDestruct (focus_move _ _ _ _ 0 t' (ctx1 ++ ctx) with "H") as "$".
  { by rewrite plug_app Hp. } { rewrite length_app. lia. } { by apply Forall_app. }
  iPureIntro. rewrite plug_app length_app before_app after_app (before_left_end ctx1) // app_nil_r Hp.
  split_and!; [done|lia|by apply Forall_app|done|done|done|]. rewrite -Hp elements_plug // (before_left_end ctx1) //=.
  destruct t' as [l' cap' vs' ts'], Hwf' as [(_ & _ & ->) _]. by rewrite -assoc_L.
Qed.
Lemma focus_rightmost lm ht t ctx : focus lm ht t ctx ⊢
  ∃ t' ctx', ⟦plug t' ctx' = plug t ctx /\ length ctx' = (length ctx + ht)%nat /\ Forall crumb_ok ctx' /\ tree_wf 0 t' /\
    root_loc t' = rightmost_loc t /\ after ctx' = after ctx /\ before ctx' ++ node_values t' = before ctx ++ values_of t⟧ ∗
    focus lm 0 t' ctx'.
Proof.
  iIntros "H". iDestruct (focus_crumb_ok with "H") as "[%Hok H]". destruct Hok as [Hok Hwf].
  destruct (rightmost_way _ _ Hwf) as (ctx1 & t' & Hp & Hl & Hctx & Hend & Hr & Hwf').
  iExists t', (ctx1 ++ ctx). iDestruct (focus_move _ _ _ _ 0 t' (ctx1 ++ ctx) with "H") as "$".
  { by rewrite plug_app Hp. } { rewrite length_app. lia. } { by apply Forall_app. }
  iPureIntro. rewrite plug_app length_app before_app after_app (after_right_end ctx1) // Hp.
  split_and!; [done|lia|by apply Forall_app|done|done|done|]. rewrite -Hp elements_plug // (after_right_end ctx1) //.
  destruct t' as [l' cap' vs' ts'], Hwf' as [(_ & _ & ->) _]. cbn. by rewrite app_nil_r -assoc_L.
Qed.

(** The same for the code. *)
Lemma wp_focus_leftmost lm ht t ctx fuel (Φ : loc -> hPropI V) : (ht < fuel)%nat ->
  focus lm ht t ctx -∗ (focus lm ht t ctx -∗ Φ (leftmost_loc t)) -∗ wp (leftmost_leaf fuel (root_loc t)) Φ.
Proof.
  intros Hf. iIntros "[Ht Hc] HΦ". iApply (wp_leftmost_leaf with "Ht"); [done|]. iIntros "Ht". iApply "HΦ". iFrame.
Qed.

Lemma wp_rightmost_leaf lm ht t ctx fuel (Φ : loc -> hPropI V) : (ht < fuel)%nat ->
  focus lm ht t ctx -∗ (focus lm ht t ctx -∗ Φ (rightmost_loc t)) -∗ wp (rightmost_leaf fuel (root_loc t)) Φ.
Proof.
  revert t ctx fuel Φ. induction ht as [|ht IH]; intros [l cap vs ts] ctx [|fuel] Φ Hf; try lia; cbn [rightmost_leaf];
    iIntros "H HΦ"; iDestruct (focus_crumb_ok with "H") as "[%Hok H]"; destruct Hok as [Hctx [Hok Hwf]];
    iApply wp_bind; iApply (wp_at_is_internal with "H"); iIntros "H"; cbn [negb Nat.eqb].
  - iApply wp_ret. destruct Hok as (_ & _ & ->). by iApply "HΦ".
  - iApply wp_bind. iApply (wp_at_finish with "H"). iIntros "H". iApply wp_bind. destruct Hok as (_ & -> & Hlen).
    destruct ts as [|t ts _] using rev_ind; [done|]. rewrite length_app /= in Hlen. unfold count_of. cbn [node_values root_loc].
    iApply (wp_at_child _ _ (Tree l 0 vs (ts ++ [t])) with "H"); [lia|by apply list_lookup_middle; lia|]. iIntros "H".
    rewrite rightmost_loc_snoc.
    assert (Tree l 0 vs (ts ++ [t]) = graft t (Crumb l vs [] ts [])) as Hg by (unfold graft; cbn; by rewrite app_nil_r).
    rewrite Hg. iDestruct (focus_down' with "H") as "H"; [split; cbn; lia|].
    iApply (IH with "H"); [lia|]. iIntros "H". iApply "HΦ". by iDestruct (focus_step with "H") as "[_ $]".
Qed.

Lemma cursor_leaf_inv ctx t xs ys i : tree_wf 0 t -> cursor ctx t i xs ys ->
  exists l cap A B, t = Tree l cap (A ++ B) [] /\ i = length A /\ xs = before ctx ++ A /\ ys = B ++ after ctx.
Proof using Type.
  intros Hwf Hc. destruct Hc as [l cap A B|l cap A v B TA tl tr TB HA HB]; [by eexists _, _, _, _|].
  destruct Hwf as [(_ & _ & Hts) _]. by destruct TA.
Qed.
Lemma cursor_inner_inv ctx ht t xs ys i : tree_wf (S ht) t -> cursor ctx t i xs ys ->
  exists l A v B TA tl tr TB, t = Tree l 0 (A ++ v :: B) (TA ++ tl :: tr :: TB) /\ length TA = length A /\ length TB = length B /\
    i = length A /\ xs = before ctx ++ lpart TA A ++ values_of tl /\ ys = v :: values_of tr ++ rpart B TB ++ after ctx.
Proof using Type.
  intros Hwf Hc. destruct Hc as [l cap A B|l cap A v B TA tl tr TB HA HB]; [by destruct Hwf as [(_ & _ & Hts) _]|].
  destruct Hwf as [(_ & -> & _) _]. by exists l, A, v, B, TA, tl, tr, TB.
Qed.

(** *** [increment] *)

Lemma wp_increment ht T it xs y ys (Φ : iterator -> hPropI V) : full T -> iter_at ht T it xs (y :: ys) ->
  own ht T -∗ (∀ it', ⟦iter_at ht T it' (xs ++ [y]) ys⟧ -∗ own ht T -∗ Φ it') -∗ wp (increment it) Φ.
Proof.
  intros Hfull (ctx & t & i & h & <- & Hht & Hctx & Hc & -> & Hi). specialize (Hi ltac:(done)). pose proof slots_max_Z as Hm.
  iIntros "H HΦ". iEval (rewrite (own_focus _ h) //) in "H". set (lm := leftmost_loc (plug t ctx)).
  iDestruct (focus_crumb_ok with "H") as "[%Hok H]". destruct Hok as [_ Hwf].
  iApply wp_bind. iApply wp_lift; [done|]. iApply wp_bind. iApply (wp_at_is_leaf with "H"). iIntros "H".
  destruct h as [|h]; cbn [Nat.eqb].
  - apply cursor_leaf_inv in Hc as (l & cap & A & B & -> & -> & -> & Hys); [|done]. cbn in Hi.
    destruct B as [|y' B]; [rewrite app_nil_r in Hi; lia|]. injection Hys as <- ->.
    iApply wp_bind. iApply (wp_at_finish with "H"). iIntros "H". unfold count_of. cbn [node_values pos_].
    assert (cursor ctx (Tree l cap (A ++ y :: B) []) (S (length A)) ((before ctx ++ A) ++ [y]) (B ++ after ctx)) as Hcur.
    { rewrite (cons_middle y) assoc_L. replace (S (length A)) with (length (A ++ [y])) by (rewrite length_app /=; lia).
      rewrite -(assoc_L (++) (before ctx)). constructor. }
    replace (Z.of_nat (length A) + 1) with (Z.of_nat (S (length A))) by lia.
    destruct (Z.ltb_spec (Z.of_nat (S (length A))) (Z.of_nat (length (A ++ y :: B)))) as [Hlt|Hge]; rewrite length_app /= in Hi.
    + iApply wp_ret. iApply ("HΦ" with "[] [H]"); [|by iApply (focus_own with "H")]. iPureIntro. exists ctx, (Tree l cap (A ++ y :: B) []), (S (length A)), O.
      split_and!; try done. intros _. cbn. lia.
    + rewrite length_app /= in Hge. destruct B; [|cbn in Hge; lia].
      iApply wp_bind. iApply wp_lift; [done|]. iApply wp_bind. iApply (wp_at_is_leaf with "H"). iIntros "H". cbn [Nat.eqb].
      iApply wp_bind. iApply (wp_at_finish with "H"). iIntros "H". unfold count_of. cbn [node_values pos_].
      iApply wp_bind. iApply wp_check; [apply Z.leb_le; rewrite length_app /=; lia|].
      iApply wp_bind. iApply (wp_heap_fuel with "H"); [apply focus_at_least|]. iIntros (fuel) "%Hf H".
      iApply wp_bind. replace (Z.of_nat (S (length A))) with (count_of (Tree l cap (A ++ [y]) [])) by (unfold count_of; cbn; rewrite length_app /=; lia).
      destruct (right_turn ctx Hctx) as [Hend|(ctx1 & c & ctx2 & v & B & tr & ts & -> & Hend & Hv & Ht)].
      * iApply (wp_climb_right_end with "H"); [done|done|lia|]. iIntros "H". iApply wp_bind.
        iApply (wp_at_finish with "H"). iIntros "H". rewrite Z.eqb_refl. iApply wp_ret.
        iApply ("HΦ" with "[] [H]"); [|by iApply (focus_own with "H"); [|cbn; lia|]]. iPureIntro.
        exists ctx, (Tree l cap (A ++ [y]) []), (S (length A)), O. split_and!; try done.
        { by unfold count_of; cbn; rewrite length_app /= Nat.add_1_r. }
        rewrite after_right_end //.
      * iApply (wp_climb_right_turn with "H"); [done|done|by rewrite Hv|rewrite length_app /= in Hf; lia|]. iIntros "H". iApply wp_bind.
        iApply (wp_at_finish _ _ (graft _ c) with "H"). iIntros "H". unfold count_of. cbn [node_values graft]. rewrite length_app Hv /=.
        rewrite (proj2 (Z.eqb_neq _ _)); [|lia]. iApply wp_ret.
        apply Forall_app in Hctx as [Hctx1 [Hc Hctx2]%Forall_cons].
        iApply ("HΦ" with "[] [H]"); [|iApply (focus_own with "H"); [by rewrite plug_app|rewrite length_app /= in Hht; lia|done]].
        iPureIntro. exists ctx2, (graft (plug (Tree l cap (A ++ [y]) []) ctx1) c), (length (c_left c)), (S (length ctx1)).
        destruct Hc as [Hcl Hcr]. rewrite Hv Ht /= in Hcr.
        split_and!; [by rewrite plug_app|rewrite -Hht length_app /=; lia|done| |done|by rewrite /= length_app Hv /=; lia].
        unfold graft. rewrite Hv Ht. rewrite (_ : (before _ ++ A) ++ [y] =
          before ctx2 ++ lpart (t_left c) (c_left c) ++ values_of (plug (Tree l cap (A ++ [y]) []) ctx1)).
        { rewrite ?app_nil_l after_app after_cons after_right_end // Hv Ht rpart_cons /= -!assoc_L. constructor; lia. }
        rewrite elements_plug // after_right_end // before_app before_cons app_nil_r. cbn [values_of]. by rewrite -!assoc_L.
  - apply (cursor_inner_inv _ h) in Hc as (l & A & v & B & TA & tl & tr & TB & -> & HTA & HTB & -> & -> & Hys); [|done].
    injection Hys as <- ->. iApply wp_bind. iApply wp_lift; [done|]. iApply wp_bind. iApply (wp_at_is_leaf with "H"). iIntros "H".
    cbn [Nat.eqb]. iApply wp_bind. iApply (wp_at_finish with "H"). iIntros "H". unfold count_of. cbn [node_values pos_].
    destruct Hwf as [[Hcap _] Hts]. unfold capacity in Hcap. rewrite length_app /= in Hcap, Hi |- *.
    iApply wp_bind. iApply wp_check; [apply Z.ltb_lt; lia|]. rewrite field_id; [|lia]. iApply wp_bind.
    replace (Z.of_nat (length A) + 1) with (Z.of_nat (S (length A))) by lia.
    iApply (wp_at_child _ _ _ _ _ _ tr with "H"); [lia|rewrite (cons_middle tl) assoc_L; apply list_lookup_middle; rewrite length_app /=; lia|]. iIntros "H".
    iApply wp_bind. iApply (wp_heap_fuel with "H"); [apply focus_at_least|]. iIntros (fuel) "%Hf H".
    set (c := Crumb l (A ++ [y]) B (TA ++ [tl]) TB).
    assert (crumb_ok c) as Hc by (split; cbn; rewrite ?length_app /=; lia).
    assert (Tree l 0 (A ++ y :: B) (TA ++ tl :: tr :: TB) = graft tr c) as Hg by (unfold graft; cbn; by rewrite -!assoc_L).
    rewrite Hg. iDestruct (focus_down' with "H") as "H"; [done|].
    assert (h < fuel)%nat as Hfuel.
    { apply Forall_app in Hts as [_ Hts]. apply Forall_cons in Hts as [_ Hts]. apply Forall_cons in Hts as [Hts _].
      apply wf_nodes in Hts. pose proof (nodes_graft tr c). rewrite Hg in Hf. lia. }
    iApply wp_bind. iApply (wp_focus_leftmost with "H"); [done|]. iIntros "H".
    iDestruct (focus_leftmost with "H") as (t' ctx') "[%Hway H]". destruct Hway as (Hp & Hl & Hctx' & Hwf' & <- & Hbef & Haft).
    iApply wp_bind. iApply (wp_at_start with "H"). iIntros "H". iApply wp_ret.
    assert (plug t' ctx' = plug (graft tr c) ctx) as Hp' by done.
    iApply ("HΦ" with "[] [H]"); [|by iApply (focus_own with "H"); [by rewrite Hp' -Hg|cbn in *; lia|rewrite -Hg]].
    iPureIntro. exists ctx', t', O, O. split_and!; [done|cbn in *; lia|done| |done|].
    + destruct t' as [l' cap' vs' ts']. destruct Hwf' as [(_ & _ & ->) _]. cbn in Haft.
      replace ((before ctx ++ lpart TA A ++ values_of tl) ++ [y]) with (before ctx' ++ []).
      * rewrite (_ : values_of tr ++ rpart B TB ++ after ctx = vs' ++ after ctx'); [apply (cursor_leaf _ _ _ [] vs')|].
        by rewrite Haft.
      * rewrite app_nil_r Hbef before_cons. cbn [c t_left c_left]. rewrite lpart_app // -!assoc_L. by rewrite /lpart /= right_id_L.
    + intros _. assert (full t') as Hf' by (apply (full_plug t' ctx'); by rewrite Hp' -Hg).
      destruct t' as [l' cap' vs' ts']. apply full_inv in Hf' as [Hf' _]. cbn. destruct vs'; [done|cbn; lia].
Qed.

(** *** [decrement] *)

(** From a value of an internal node, to the last value of the subtree on its
    left. *)
Lemma wp_decrement_inner lm h l A v B TA tl tr TB ctx (Φ : iterator -> hPropI V) :
  length TA = length A -> length TB = length B ->
  focus lm (S h) (Tree l 0 (A ++ v :: B) (TA ++ tl :: tr :: TB)) ctx -∗
  (∀ t' ctx', ⟦plug t' ctx' = plug (Tree l 0 (A ++ v :: B) (TA ++ tl :: tr :: TB)) ctx /\ length ctx' = (length ctx + S h)%nat /\
     Forall crumb_ok ctx' /\ tree_wf 0 t' /\ before ctx' ++ node_values t' = before ctx ++ lpart TA A ++ values_of tl /\
     after ctx' = v :: values_of tr ++ rpart B TB ++ after ctx⟧ -∗
   focus lm 0 t' ctx' -∗ Φ (mkIterator (Some (root_loc t')) (count_of t' - 1))) -∗
  wp (decrement (mkIterator (Some l) (Z.of_nat (length A)))) Φ.
Proof.
  intros HTA HTB. iIntros "H HΦ". pose proof slots_max_Z as Hm. set (t := Tree l 0 _ _). change (mkIterator (Some l)) with (mkIterator (Some (root_loc t))).
  iDestruct (focus_crumb_ok with "H") as "[%Hok H]". destruct Hok as [_ [[Hcap _] Hts]]. unfold capacity in Hcap. rewrite length_app /= in Hcap.
  iApply wp_bind. iApply wp_lift; [done|]. iApply wp_bind. iApply (wp_at_is_leaf with "H"). iIntros "H". cbn [Nat.eqb].
  iApply wp_bind. iApply wp_lift; [done|]. iApply wp_bind. iApply (wp_at_is_leaf with "H"). iIntros "H". cbn [Nat.eqb].
  iApply wp_bind. iApply (wp_at_start with "H"). iIntros "H". cbn [pos_]. iApply wp_bind. iApply wp_check; [apply Z.leb_le; lia|].
  rewrite field_id; [|lia]. iApply wp_bind.
  iApply (wp_at_child _ _ t _ (length A) _ tl with "H"); [lia|by apply list_lookup_middle|]. iIntros "H".
  iApply wp_bind. iApply (wp_heap_fuel with "H"); [apply focus_at_least|]. iIntros (fuel) "%Hf H".
  set (c := Crumb l A (v :: B) TA (tr :: TB)). assert (crumb_ok c) as Hc by (split; cbn; lia).
  change t with (graft tl c) in Hf |- *. iDestruct (focus_down' with "H") as "H"; [done|].
  assert (h < fuel)%nat as Hfuel.
  { apply Forall_app in Hts as [_ Hts]. apply Forall_cons in Hts as [Hts _]. apply wf_nodes in Hts. pose proof (nodes_graft tl c). lia. }
  iApply wp_bind. iApply (wp_rightmost_leaf with "H"); [done|]. iIntros "H".
  iDestruct (focus_rightmost with "H") as (t' ctx') "[%Hway H]". destruct Hway as (Hp & Hl & Hctx' & Hwf' & <- & Haft & Hbef).
  iApply wp_bind. iApply (wp_at_finish with "H"). iIntros "H". iApply wp_ret. iApply ("HΦ" with "[] H"). iPureIntro.
  split_and!; [done|cbn in *; lia|done|done| |].
  - by rewrite Hbef before_cons -assoc_L.
  - by rewrite Haft after_cons rpart_cons /= -!assoc_L.
Qed.

Lemma wp_decrement ht T it xs x ys (Φ : iterator -> hPropI V) : full T -> iter_at ht T it (xs ++ [x]) ys ->
  own ht T -∗ (∀ it', ⟦iter_at ht T it' xs (x :: ys)⟧ -∗ own ht T -∗ Φ it') -∗ wp (decrement it) Φ.
Proof.
  intros Hfull (ctx & t & i & h & <- & Hht & Hctx & Hc & -> & Hi). pose proof slots_max_Z as Hm.
  iIntros "H HΦ". iEval (rewrite (own_focus _ h) //) in "H". set (lm := leftmost_loc (plug t ctx)).
  iDestruct (focus_crumb_ok with "H") as "[%Hok H]". destruct Hok as [_ Hwf]. destruct h as [|h].
  - apply cursor_leaf_inv in Hc as (l & cap & A & B & -> & -> & Hxs & ->); [|done].
    iApply wp_bind. iApply wp_lift; [done|]. iApply wp_bind. iApply (wp_at_is_leaf with "H"). iIntros "H". cbn [Nat.eqb].
    iApply wp_bind. iApply (wp_at_start with "H"). iIntros "H". cbn [pos_].
    destruct A as [|x' A _] using rev_ind.
    + rewrite (proj2 (Z.leb_gt _ _)); [|cbn; lia]. iApply wp_bind. iApply wp_lift; [done|].
      iApply wp_bind. iApply (wp_at_is_leaf with "H"). iIntros "H". cbn [Nat.eqb]. iApply wp_bind. iApply wp_check; [done|].
      iApply wp_bind. iApply (wp_heap_fuel with "H"); [apply focus_at_least|]. iIntros (fuel) "%Hf H". iApply wp_bind.
      rewrite app_nil_r in Hxs. destruct (left_turn ctx Hctx) as [Hend|(ctx1 & c & ctx2 & A & v & ts & tl & -> & Hend & Hv & Ht)].
      { rewrite before_left_end // in Hxs. by destruct xs. }
      iApply (wp_climb_left_turn with "H"); [done|done|by rewrite Hv; destruct A|rewrite length_app /= in Hf; lia|]. iIntros "H".
      iApply wp_bind. iApply (wp_at_start _ _ (graft _ c) with "H"). iIntros "H". rewrite Hv length_app /=.
      rewrite (proj2 (Z.ltb_ge _ _)); [|lia]. iApply wp_ret. apply Forall_app in Hctx as [Hctx1 [Hc Hctx2]%Forall_cons].
      iApply ("HΦ" with "[] [H]"); [|iApply (focus_own with "H"); [by rewrite plug_app|rewrite length_app /= in Hht; lia|done]].
      iPureIntro. exists ctx2, (graft (plug (Tree l cap B []) ctx1) c), (length A), (S (length ctx1)).
      destruct Hc as [Hcl Hcr]. rewrite Hv Ht !length_app /= in Hcl.
      split_and!; [by rewrite plug_app|rewrite -Hht length_app /=; lia|done| |f_equal; lia|by rewrite /= Hv !length_app /=; lia].
      rewrite before_app before_cons (before_left_end ctx1) // app_nil_r Hv Ht lpart_app in Hxs; [|lia].
      rewrite /lpart /= right_id_L -/(lpart ts A) !assoc_L in Hxs. apply app_inj_tail in Hxs as [-> ->].
      unfold graft. rewrite Hv Ht -!app_assoc /= after_app after_cons.
      rewrite (_ : B ++ after ctx1 ++ rpart (c_right c) (t_right c) ++ after ctx2 =
        values_of (plug (Tree l cap B []) ctx1) ++ rpart (c_right c) (t_right c) ++ after ctx2); [constructor; lia|].
      rewrite elements_plug // (before_left_end ctx1) //. by rewrite /= -!assoc_L.
    + rewrite assoc_L in Hxs. apply app_inj_tail in Hxs as [-> ->].
      rewrite (proj2 (Z.leb_le _ _)); [|rewrite length_app /=; lia]. iApply wp_ret.
      iApply ("HΦ" with "[] [H]"); [|by iApply (focus_own with "H")]. iPureIntro. eexists ctx, _, (length A), O.
      split_and!; try done; [|f_equal; rewrite length_app /=; lia|intros _; cbn; rewrite !length_app /=; lia].
      rewrite -assoc_L. apply (cursor_leaf ctx l cap A (x' :: B)).
  - apply (cursor_inner_inv _ h) in Hc as (l & A & v & B & TA & tl & tr & TB & -> & HTA & HTB & -> & Hxs & ->); [|done].
    iApply (wp_decrement_inner with "H"); [done|done|]. iIntros (t' ctx') "%Hway H". destruct Hway as (Hp & Hl & Hctx' & Hwf' & Hbef & Haft).
    rewrite -Hxs in Hbef. assert (full t') as Hf' by by (apply (full_plug t' ctx'); rewrite Hp).
    destruct t' as [l' cap' vs' ts'], Hwf' as [(_ & _ & ->) _]. apply full_inv in Hf' as [Hne _]. cbn in Hbef.
    destruct vs' as [|x' A' _] using rev_ind; [done|]. rewrite assoc_L in Hbef. apply app_inj_tail in Hbef as [<- ->].
    iApply ("HΦ" with "[] [H]"); [|iApply (focus_own with "H"); [done|lia|done]]. iPureIntro. eexists ctx', _, (length A'), O.
    split_and!; [done|lia|done| |unfold count_of; cbn; f_equal; rewrite length_app /=; lia|intros _; cbn; rewrite length_app /=; lia].
    rewrite -Haft. apply (cursor_leaf ctx' l' cap' A' [x]).
Qed.
End iterators.
