(* ===== verification/BtreeSearch.v ===== *)
(** * BtreeSearch: looking for a key (lemmas for Btree.v)

    The comparison is a strict weak order, given by a [bool] or by an ordering.
    A node is searched linearly or by bisection, for the number of its values
    that lie before the key: [prefix_len]. On the way down, all values on the
    left lie before the key and none on the right does. *)

From S2P Require Import Prelude.
From S2P Require Import BtreeNode.
From S2P Require Import Btree.
From S2P Require Import HeapLogic.
From S2P Require Import BtreeTree.
From S2P Require Import BtreeFree.
From S2P Require Import BtreeMove.
From S2P Require Import BtreeZip.
From Stdlib Require Import Sorting.Sorted.
From iris.proofmode Require Import proofmode.

Import btree_node.
Import btree_iterator.
#[local] Open Scope Z_scope.
#[local] Open Scope cpp_scope.

(** ** The order *)

Section order.
Context {K V : Type} `{PB : BtreeParams K V}.

Definition key_lt (a b : K) : bool := match key_compare with ByLess lt => lt a b | ByOrder cmp => is_lt (cmp a b) end.
End order.

Class KeyLaws K V `{BtreeParams K V} := {
  key_lt_irrefl a : key_lt a a = false;
  key_lt_trans a b c : key_lt a b = true -> key_lt b c = true -> key_lt a c = true;
  key_lt_cotrans a b c : key_lt a b = true -> key_lt a c = true \/ key_lt c b = true;
  key_order_opp : match key_compare with ByLess _ => True | ByOrder cmp => forall a b, cmp b a = CompOpp (cmp a b) end;
}.

(** The number of values at the beginning for which [P] holds. *)
Fixpoint prefix_len {A} (P : A -> bool) (l : list A) : nat :=
  match l with [] => O | a :: l => if P a then S (prefix_len P l) else O end.
Definition downward {A} (P : A -> bool) : list A -> Prop := StronglySorted (fun a b => P b = true -> P a = true).

Lemma prefix_len_le {A} P (l : list A) : (prefix_len P l <= length l)%nat.
Proof. induction l as [|a l IH]; cbn; [done|]. destruct (P a); lia. Qed.
Lemma prefix_len_lookup {A} P (l : list A) i a : downward P l -> l !! i = Some a -> P a = bool_decide (i < prefix_len P l)%nat.
Proof.
  intros Hl. revert i. induction Hl as [|b l Hl IH Hb]; intros [|i] Hi; try done; cbn in *.
  - injection Hi as ->. destruct (P a); [by rewrite bool_decide_true; [|lia]|by rewrite bool_decide_false; [|lia]].
  - destruct (P b) eqn:E.
    + rewrite (IH _ Hi). repeat case_bool_decide; (done || lia).
    + rewrite bool_decide_false; [|lia]. destruct (P a) eqn:Ea; [|done].
      assert (a ∈ l) as Hin by by apply (list_elem_of_lookup_2 _ i).
      pose proof (proj1 (Forall_forall _ _) Hb a Hin Ea) as Hx. cbn in Hx. congruence.
Qed.
Lemma prefix_len_split {A} P (l : list A) : downward P l ->
  Forall (fun a => P a = true) (take (prefix_len P l) l) /\ Forall (fun a => P a = false) (drop (prefix_len P l) l).
Proof.
  intros Hl. induction Hl as [|b l Hl IH Hb]; [done|]. cbn. destruct (P b) eqn:E; cbn.
  - destruct IH as [IH1 IH2]. by split; [constructor|].
  - split; [done|]. constructor; [done|]. eapply Forall_impl; [exact Hb|]. intros a Ha. cbn in Ha. destruct (P a); [|done].
    specialize (Ha eq_refl). congruence.
Qed.
Lemma prefix_len_unique {A} P (l : list A) n : (n <= length l)%nat ->
  (forall i a, l !! i = Some a -> P a = bool_decide (i < n)%nat) -> n = prefix_len P l.
Proof.
  revert n. induction l as [|a l IH]; intros n Hn HP; cbn in *; [lia|].
  pose proof (HP O a eq_refl) as Ha. destruct n as [|n].
  - by rewrite Ha.
  - rewrite Ha bool_decide_true; [|lia]. f_equal. apply IH; [lia|]. intros i b Hi. rewrite (HP (S i) b Hi). repeat case_bool_decide; (done || lia).
Qed.

Section keys.
Context {K V : Type} `{PB : BtreeParams K V} {LK : KeyLaws K V}.
Implicit Types (a b k : K) (v w : V) (xs ys : list V).

Lemma key_lt_asym a b : key_lt a b = true -> key_lt b a = false.
Proof. intros H. destruct (key_lt b a) eqn:E; [|done]. by rewrite -(key_lt_irrefl a) (key_lt_trans a b a). Qed.

Lemma checked_less_ok lt a b : key_compare = ByLess lt -> checked_less lt a b = Ok (key_lt a b).
Proof.
  intros E. pose proof (key_lt_irrefl a) as Ha. pose proof (key_lt_irrefl b) as Hb. pose proof (key_lt_asym a b) as Hab.
  unfold checked_less, key_lt in *. rewrite E in Ha, Hb, Hab |- *. rewrite Ha Hb /=. destruct (lt a b); cbn; [|done]. by rewrite Hab.
Qed.
Lemma checked_order_ok cmp a b : key_compare = ByOrder cmp -> checked_order cmp a b = Ok (cmp a b).
Proof.
  intros E. pose proof key_order_opp as Ho. rewrite E in Ho. unfold checked_order. destruct kIsKeyCompareStringAdapted; [done|].
  assert (forall a, cmp a a = Eq) as Hr by (intros c; pose proof (Ho c c); by destruct (cmp c c)).
  rewrite !Hr (Ho a b) /=. by destruct (cmp a b).
Qed.
Lemma compare_keys_ok a b : compare_keys a b = Ok (key_lt a b).
Proof.
  unfold compare_keys. destruct key_compare as [lt|cmp] eqn:E; [by apply checked_less_ok|].
  rewrite (checked_order_ok cmp) //. unfold key_lt. by rewrite E.
Qed.

Definition before_key k v : bool := key_lt (params_key v) k.
Definition after_key k v : bool := key_lt k (params_key v).
Definition same_key k v : Prop := before_key k v = false /\ after_key k v = false.

(** The values of the container are in order, strictly when keys are unique. *)
Definition in_order xs : Prop :=
  if can_have_multiple_equivalent_keys then StronglySorted (fun v w => key_lt (params_key w) (params_key v) = false) xs
  else StronglySorted (fun v w => key_lt (params_key v) (params_key w) = true) xs.

Lemma StronglySorted_weaken {X} (R S : X -> X -> Prop) l : (forall x y, R x y -> S x y) -> StronglySorted R l -> StronglySorted S l.
Proof using Type. intros HRS. induction 1 as [|a l Hl IH Ha]; constructor; [done|]. eapply Forall_impl; [exact Ha|]. intros b. apply HRS. Qed.

Lemma in_order_weak xs : in_order xs -> StronglySorted (fun v w => key_lt (params_key w) (params_key v) = false) xs.
Proof.
  unfold in_order. destruct can_have_multiple_equivalent_keys; [done|]. apply StronglySorted_weaken. intros v w. apply key_lt_asym.
Qed.
Lemma downward_before k xs : in_order xs -> downward (before_key k) xs.
Proof.
  intros Hx%in_order_weak. eapply StronglySorted_weaken, Hx. intros v w Hvw Hw. unfold before_key in *.
  destruct (key_lt_cotrans _ _ (params_key v) Hw) as [H|H]; [by rewrite H in Hvw|done].
Qed.
Lemma downward_not_after k xs : in_order xs -> downward (λ v, negb (after_key k v)) xs.
Proof.
  intros Hx%in_order_weak. eapply StronglySorted_weaken, Hx. intros v w Hvw Hw. unfold after_key in *.
  destruct (key_lt k (params_key v)) eqn:E; [|done]. destruct (key_lt_cotrans _ _ (params_key w) E) as [H|H]; [by rewrite H in Hw|by rewrite H in Hvw].
Qed.
Lemma SS_app {X} (R : X -> X -> Prop) l1 l2 : StronglySorted R (l1 ++ l2) <->
  StronglySorted R l1 /\ StronglySorted R l2 /\ Forall (fun x => Forall (R x) l2) l1.
Proof using Type.
  induction l1 as [|a l1 IH]; cbn.
  - split; [intros H; by split_and!; [constructor| |]|by intros (_ & H & _)].
  - split.
    + intros H. apply StronglySorted_inv in H as [H Ha]. apply IH in H as (H1 & H2 & H3). apply Forall_app in Ha as [Ha1 Ha2].
      split_and!; [by constructor|done|by constructor].
    + intros (H1 & H2 & H3). apply StronglySorted_inv in H1 as [H1 Ha]. apply Forall_cons in H3 as [H3 H4].
      constructor; [by apply IH|by apply Forall_app].
Qed.
Lemma in_order_app xs ys : in_order (xs ++ ys) -> in_order xs /\ in_order ys.
Proof using Type. unfold in_order. destruct can_have_multiple_equivalent_keys; intros (H1 & H2 & _)%SS_app; done. Qed.
End keys.

(** ** Searching a node *)
Lemma mid_bounds s e : (s < e)%nat -> exists m, Z.shiftr (Z.of_nat s + Z.of_nat e) 1 = Z.of_nat m /\ (s <= m < e)%nat.
Proof.
  intros Hse. exists ((s + e) / 2)%nat. rewrite Z.shiftr_div_pow2; [|lia]. change (2 ^ 1) with 2.
  pose proof (Nat.div_mod_eq (s + e) 2). pose proof (Nat.mod_upper_bound (s + e) 2). rewrite -Nat2Z.inj_add Nat2Z.inj_div. split; [done|lia].
Qed.

Section node_search.
Context {K V : Type} `{PB : BtreeParams K V} {LB : BtreeLaws K V} {LK : KeyLaws K V}.
Context (p : loc) (F : hPropI V) (vs : list V) (Hvs : (length vs <= slots_max)%nat).
Context (wp_key : forall i v (Φ : K -> hPropI V), vs !! i = Some v -> F -∗ (F -∗ Φ (params_key v)) -∗ wp (key p (Z.of_nat i)) Φ).
Implicit Types (k : K) (v : V).

Section plain.
Context (before : K -> result bool) (P : V -> bool) (HP : forall v, before (params_key v) = Ok (P v)) (Hdown : downward P vs).

Lemma wp_linear_search_plain s fuel (Φ : SearchResult Z -> hPropI V) : (s <= prefix_len P vs)%nat -> (length vs - s < fuel)%nat ->
  F -∗ (F -∗ Φ (none_match (Z.of_nat (prefix_len P vs)))) -∗
  wp (linear_search_plain fuel p before (Z.of_nat s) (Z.of_nat (length vs))) Φ.
Proof.
  revert s. induction fuel as [|fuel IH]; intros s Hs Hf; [lia|]. cbn [linear_search_plain]. iIntros "HF HΦ".
  pose proof (prefix_len_le P vs). destruct (Z.ltb_spec (Z.of_nat s) (Z.of_nat (length vs))).
  - destruct (lookup_lt_is_Some_2 vs s) as [v Hv]; [lia|]. iApply wp_bind. iApply (wp_key with "HF"); [done|]. iIntros "HF".
    iApply wp_bind. iApply wp_lift; [apply HP|]. rewrite (prefix_len_lookup _ _ _ _ Hdown Hv). case_bool_decide; cbn [negb].
    + replace (Z.of_nat s + 1) with (Z.of_nat (S s)) by lia. iApply (IH with "HF"); [lia|lia|done].
    + iApply wp_ret. replace s with (prefix_len P vs) by lia. by iApply "HΦ".
  - iApply wp_ret. replace s with (prefix_len P vs) by lia. by iApply "HΦ".
Qed.

Lemma wp_binary_search_plain s e fuel (Φ : SearchResult Z -> hPropI V) :
  (s <= prefix_len P vs <= e)%nat -> (e <= length vs)%nat -> (e - s < fuel)%nat ->
  F -∗ (F -∗ Φ (none_match (Z.of_nat (prefix_len P vs)))) -∗
  wp (binary_search_plain fuel p before (Z.of_nat s) (Z.of_nat e)) Φ.
Proof.
  revert s e. induction fuel as [|fuel IH]; intros s e Hs He Hf; [lia|]. cbn [binary_search_plain]. iIntros "HF HΦ".
  destruct (Z.eqb_spec (Z.of_nat s) (Z.of_nat e)); cbn [negb].
  - iApply wp_ret. replace s with (prefix_len P vs) by lia. by iApply "HΦ".
  - destruct (mid_bounds s e) as (m & -> & Hm); [lia|]. destruct (lookup_lt_is_Some_2 vs m) as [v Hv]; [lia|].
    iApply wp_bind. iApply (wp_key with "HF"); [done|]. iIntros "HF". iApply wp_bind. iApply wp_lift; [apply HP|].
    rewrite (prefix_len_lookup _ _ _ _ Hdown Hv). case_bool_decide.
    + replace (Z.of_nat m + 1) with (Z.of_nat (S m)) by lia. iApply (IH with "HF HΦ"); lia.
    + iApply (IH with "HF HΦ"); lia.
Qed.
End plain.

Section ordered.
Context (cmp : K -> K -> comparison) (Hcmp : key_compare = ByOrder cmp) (k : K) (Hdown : downward (before_key k) vs)
  (Hdown' : downward (λ v, negb (after_key k v)) vs).

Lemma order_before v : cmp (params_key v) k = Lt <-> before_key k v = true.
Proof using Hcmp. unfold before_key, key_lt. rewrite Hcmp. by destruct (cmp _ k). Qed.
Lemma order_after v : cmp (params_key v) k = Gt <-> after_key k v = true.
Proof using Hcmp LK.
  unfold after_key, key_lt. pose proof key_order_opp as Ho. rewrite Hcmp in Ho |- *. rewrite (Ho (params_key v) k). by destruct (cmp _ k).
Qed.

(** What the search says of the value it stops at. *)
Definition match_at (n : nat) : MatchKind :=
  match vs !! n with Some v => if is_eq (cmp (params_key v) k) then kEq else kNe | None => kNe end.
Let n := prefix_len (before_key k) vs.

Lemma wp_linear_search_order s fuel (Φ : SearchResult Z -> hPropI V) : (s <= n)%nat -> (length vs - s < fuel)%nat ->
  F -∗ (F -∗ Φ (mkSearchResult (Z.of_nat n) (Some (match_at n)))) -∗
  wp (linear_search_order fuel p (fun x => checked_order cmp x k) (Z.of_nat s) (Z.of_nat (length vs))) Φ.
Proof.
  subst n. revert s. induction fuel as [|fuel IH]; intros s Hs Hf; [lia|]. cbn [linear_search_order]. iIntros "HF HΦ".
  pose proof (prefix_len_le (before_key k) vs). destruct (Z.ltb_spec (Z.of_nat s) (Z.of_nat (length vs))).
  - destruct (lookup_lt_is_Some_2 vs s) as [v Hv]; [lia|]. iApply wp_bind. iApply (wp_key with "HF"); [done|]. iIntros "HF".
    iApply wp_bind. iApply wp_lift; [by apply checked_order_ok|]. pose proof (prefix_len_lookup _ _ _ _ Hdown Hv) as Hb.
    pose proof (order_before v) as Hob. destruct (cmp (params_key v) k) eqn:E.
    2: { rewrite (proj1 Hob eq_refl) in Hb. symmetry in Hb. apply bool_decide_eq_true in Hb.
         replace (Z.of_nat s + 1) with (Z.of_nat (S s)) by lia. iApply (IH with "HF HΦ"); lia. }
    all: assert (before_key k v = false) as Hv' by (apply not_true_is_false; intros Hx; by apply Hob in Hx);
      rewrite Hv' in Hb; symmetry in Hb; apply bool_decide_eq_false in Hb; assert (s = prefix_len (before_key k) vs) as Hsn by lia;
      iApply wp_ret; iSpecialize ("HΦ" with "HF"); unfold match_at; rewrite -Hsn Hv E; done.
  - iApply wp_ret. iSpecialize ("HΦ" with "HF"). unfold match_at. rewrite lookup_ge_None_2; [|lia].
    by replace s with (prefix_len (before_key k) vs) by lia.
Qed.

Lemma wp_binary_search_multi s e m fuel (Φ : SearchResult Z -> hPropI V) :
  (s <= n <= e)%nat -> (e <= length vs)%nat -> (e - s < fuel)%nat -> (m = match_at e) ->
  F -∗ (F -∗ Φ (mkSearchResult (Z.of_nat n) (Some (match_at n)))) -∗
  wp (binary_search_multi fuel p (fun x => checked_order cmp x k) (Z.of_nat s) (Z.of_nat e) m) Φ.
Proof.
  subst n. revert s e m. induction fuel as [|fuel IH]; intros s e m Hs He Hf ->; [lia|]. cbn [binary_search_multi]. iIntros "HF HΦ".
  destruct (Z.eqb_spec (Z.of_nat s) (Z.of_nat e)); cbn [negb].
  - iApply wp_ret. replace e with (prefix_len (before_key k) vs) by lia. replace s with (prefix_len (before_key k) vs) by lia. by iApply "HΦ".
  - destruct (mid_bounds s e) as (mid & -> & Hm); [lia|]. destruct (lookup_lt_is_Some_2 vs mid) as [v Hv]; [lia|].
    iApply wp_bind. iApply (wp_key with "HF"); [done|]. iIntros "HF". iApply wp_bind. iApply wp_lift; [by apply checked_order_ok|].
    pose proof (prefix_len_lookup _ _ _ _ Hdown Hv) as Hb. pose proof (order_before v) as Hob. destruct (cmp (params_key v) k) eqn:E.
    2: { rewrite (proj1 Hob eq_refl) in Hb. symmetry in Hb. apply bool_decide_eq_true in Hb.
         replace (Z.of_nat mid + 1) with (Z.of_nat (S mid)) by lia. iApply (IH with "HF HΦ"); [lia|lia|lia|done]. }
    all: assert (before_key k v = false) as Hv' by (apply not_true_is_false; intros Hx; by apply Hob in Hx);
      rewrite Hv' in Hb; symmetry in Hb; apply bool_decide_eq_false in Hb.
    + iApply (IH with "HF HΦ"); [lia|lia|lia|by unfold match_at; rewrite Hv E].
    + iApply (IH with "HF HΦ"); [lia|lia|lia|]. unfold match_at. rewrite Hv E. destruct (vs !! e) as [w|] eqn:Hw; [|done].
      pose proof (prefix_len_lookup _ _ _ _ Hdown' Hv) as Hb1. pose proof (prefix_len_lookup _ _ _ _ Hdown' Hw) as Hb2.
      cbn in Hb1, Hb2. rewrite (proj1 (order_after v) E) in Hb1. symmetry in Hb1. apply bool_decide_eq_false in Hb1.
      rewrite bool_decide_false in Hb2; [|lia]. apply negb_false_iff, order_after in Hb2. by rewrite Hb2.
Qed.

Lemma wp_binary_search_unique s e fuel (Φ : SearchResult Z -> hPropI V) : in_order vs -> can_have_multiple_equivalent_keys = false ->
  (s <= n <= e)%nat -> (e <= length vs)%nat -> (e - s < fuel)%nat -> (match_at e = kNe) ->
  F -∗ (F -∗ Φ (mkSearchResult (Z.of_nat n) (Some (match_at n)))) -∗
  wp (binary_search_unique fuel p (fun x => checked_order cmp x k) (Z.of_nat s) (Z.of_nat e)) Φ.
Proof.
  subst n. intros Hord Huniq. revert s e. induction fuel as [|fuel IH]; intros s e Hs He Hf Hme; [lia|].
  cbn [binary_search_unique]. iIntros "HF HΦ". destruct (Z.eqb_spec (Z.of_nat s) (Z.of_nat e)); cbn [negb].
  - iApply wp_ret. iSpecialize ("HΦ" with "HF"). replace e with (prefix_len (before_key k) vs) in Hme by lia. rewrite Hme.
    by replace s with (prefix_len (before_key k) vs) by lia.
  - destruct (mid_bounds s e) as (mid & -> & Hm); [lia|]. destruct (lookup_lt_is_Some_2 vs mid) as [v Hv]; [lia|].
    iApply wp_bind. iApply (wp_key with "HF"); [done|]. iIntros "HF". iApply wp_bind. iApply wp_lift; [by apply checked_order_ok|].
    pose proof (prefix_len_lookup _ _ _ _ Hdown Hv) as Hb. pose proof (order_before v) as Hob. destruct (cmp (params_key v) k) eqn:E.
    2: { rewrite (proj1 Hob eq_refl) in Hb. symmetry in Hb. apply bool_decide_eq_true in Hb.
         replace (Z.of_nat mid + 1) with (Z.of_nat (S mid)) by lia. iApply (IH with "HF HΦ"); [lia|lia|lia|done]. }
    all: assert (before_key k v = false) as Hv' by (apply not_true_is_false; intros Hx; by apply Hob in Hx);
      rewrite Hv' in Hb; symmetry in Hb; apply bool_decide_eq_false in Hb.
    + iApply wp_ret. iSpecialize ("HΦ" with "HF").
      assert (mid = prefix_len (before_key k) vs) as <-; [|unfold match_at; by rewrite Hv E].
      destruct (decide (mid = prefix_len (before_key k) vs)) as [|Hne]; [done|]. exfalso.
      destruct (lookup_lt_is_Some_2 vs (prefix_len (before_key k) vs)) as [w Hw]; [lia|].
      pose proof (prefix_len_lookup _ _ _ _ Hdown Hw) as Hbw. rewrite bool_decide_false in Hbw; [|lia].
      unfold in_order in Hord. rewrite Huniq in Hord.
      rewrite -(take_drop (S (prefix_len (before_key k) vs)) vs) in Hord. apply SS_app in Hord as (_ & _ & Hord).
      eapply Forall_forall in Hord; [|apply (list_elem_of_lookup_2 _ (prefix_len (before_key k) vs)); by rewrite lookup_take_lt; [|lia]].
      eapply Forall_forall in Hord; [|apply (list_elem_of_lookup_2 _ (mid - S (prefix_len (before_key k) vs))); rewrite lookup_drop;
        replace (S (prefix_len (before_key k) vs) + (mid - S (prefix_len (before_key k) vs)))%nat with mid by lia; exact Hv].
      cbn in Hord. assert (after_key k v = false) as Hav by (apply not_true_is_false; intros Hx%order_after; by rewrite E in Hx).
      unfold before_key, after_key in *. destruct (key_lt_cotrans _ _ k Hord) as [Hx|Hx]; congruence.
    + iApply (IH with "HF HΦ"); [lia|lia|lia|]. unfold match_at. by rewrite Hv E.
Qed.
End ordered.

(** *** The search of a node, either way *)

Definition lower_match (k : K) (n : nat) : option MatchKind :=
  match key_compare with ByLess _ => None | ByOrder cmp => Some (match_at cmp k n) end.

Lemma wp_lower_bound k (Φ : SearchResult Z -> hPropI V) : in_order vs ->
  (forall Ψ : Z -> hPropI V, F -∗ (F -∗ Ψ 0) -∗ wp (start p) Ψ) ->
  (forall Ψ : Z -> hPropI V, F -∗ (F -∗ Ψ (Z.of_nat (length vs))) -∗ wp (finish p) Ψ) ->
  let n := prefix_len (before_key k) vs in
  F -∗ (F -∗ Φ (mkSearchResult (Z.of_nat n) (lower_match k n))) -∗ wp (lower_bound p k) Φ.
Proof.
  intros Hord Hstart Hfinish n. pose proof (downward_before k vs Hord) as Hd. pose proof (downward_not_after k vs Hord) as Hd'.
  pose proof (prefix_len_le (before_key k) vs). pose proof slots_max_Z.
  assert (length vs < search_fuel)%nat as Hf by (unfold search_fuel; lia).
  iIntros "HF HΦ". iApply wp_bind. iApply (Hstart with "HF"). iIntros "HF". iApply wp_bind. iApply (Hfinish with "HF"). iIntros "HF".
  unfold lower_match, linear_search_impl, binary_search_impl. destruct key_compare as [lt|cmp] eqn:Hc.
  - assert (forall v, checked_less lt (params_key v) k = Ok (before_key k v)) as HP by (intros v; by apply checked_less_ok).
    destruct use_linear_search.
    + iApply (wp_linear_search_plain (λ x, checked_less lt x k) (before_key k) HP Hd O with "HF HΦ"); lia.
    + iApply (wp_binary_search_plain (λ x, checked_less lt x k) (before_key k) HP Hd O with "HF HΦ"); lia.
  - assert (match_at cmp k (length vs) = kNe) as Hend by (unfold match_at; by rewrite lookup_ge_None_2).
    destruct use_linear_search; [|destruct can_have_multiple_equivalent_keys eqn:Hu].
    + iApply (wp_linear_search_order cmp Hc k Hd O with "HF HΦ"); lia.
    + iApply (wp_binary_search_multi cmp Hc k Hd Hd' O with "HF HΦ"); [lia|lia|lia|done].
    + iApply (wp_binary_search_unique cmp Hc k Hd O with "HF HΦ"); [done|done|lia|lia|lia|done].
Qed.

Lemma wp_upper_bound k (Φ : Z -> hPropI V) : in_order vs ->
  (forall Ψ : Z -> hPropI V, F -∗ (F -∗ Ψ 0) -∗ wp (start p) Ψ) ->
  (forall Ψ : Z -> hPropI V, F -∗ (F -∗ Ψ (Z.of_nat (length vs))) -∗ wp (finish p) Ψ) ->
  let n := prefix_len (λ v, negb (after_key k v)) vs in
  F -∗ (F -∗ Φ (Z.of_nat n)) -∗ wp (upper_bound p k) Φ.
Proof.
  intros Hord Hstart Hfinish n. pose proof (downward_not_after k vs Hord) as Hd. pose proof slots_max_Z.
  pose proof (prefix_len_le (λ v, negb (after_key k v)) vs).
  assert (length vs < search_fuel)%nat as Hf by (unfold search_fuel; lia).
  assert (forall v, upper_bound_adapter k (params_key v) = Ok (negb (after_key k v))) as HP.
  { intros v. unfold upper_bound_adapter. by rewrite compare_keys_ok. }
  iIntros "HF HΦ". iApply wp_bind. iApply (Hstart with "HF"). iIntros "HF". iApply wp_bind. iApply (Hfinish with "HF"). iIntros "HF".
  iApply wp_bind. destruct use_linear_search.
  - iApply (wp_linear_search_plain (upper_bound_adapter k) _ HP Hd O with "HF"); [lia|lia|]. iIntros "HF". iApply wp_ret. by iApply "HΦ".
  - iApply (wp_binary_search_plain (upper_bound_adapter k) _ HP Hd O with "HF"); [lia|lia|lia|]. iIntros "HF". iApply wp_ret. by iApply "HΦ".
Qed.
End node_search.

(** * the functions that look for a key (lemmas for Btree.v) *)

Import btree_node.
Import btree_iterator.
Import btree.
#[local] Open Scope Z_scope.
#[local] Open Scope cpp_scope.

(** A position in a leaf, also at its end. *)
Definition leaf_at {V} (ht : nat) (T : tree V) (it : iterator) (xs ys : list V) : Prop :=
  exists ctx l cap A B, plug (Tree l cap (A ++ B) []) ctx = T /\ length ctx = ht /\ Forall crumb_ok ctx /\
    it = mkIterator (Some l) (Z.of_nat (length A)) /\ xs = before ctx ++ A /\ ys = B ++ after ctx.

Section find.
Context {K V : Type} `{PB : BtreeParams K V} {LB : BtreeLaws K V} `{AL : Allocator} {FL : AllocatorLaws} {LK : KeyLaws K V}.
Implicit Types (t T : tree V) (ts : list (tree V)) (vs A B xs ys : list V) (ctx : list (crumb V)) (k : K) (v : V).

(** *** Order in the tree and in a node *)

Lemma in_order_sublist xs ys : sublist xs ys -> in_order ys -> in_order xs.
Proof using Type.
  intros Hs. unfold in_order.
  assert (forall R : V -> V -> Prop, StronglySorted R ys -> StronglySorted R xs) as Hss; [|destruct can_have_multiple_equivalent_keys; apply Hss].
  intros R. induction Hs as [|x l1 l2 Hs IH|x l1 l2 Hs IH]; [done| |].
  - intros [H1 H2]%StronglySorted_inv. constructor; [by apply IH|].
    apply Forall_forall. intros y Hy. eapply Forall_forall; [exact H2|]. by eapply elem_of_sublist.
  - intros [H1 H2]%StronglySorted_inv. by apply IH.
Qed.
Lemma weave_sublist (es : list (list V)) vs : length es = S (length vs) -> sublist vs (weave es vs).
Proof using Type.
  revert es. induction vs as [|v vs IH]; intros [|e es] Hl; try done; cbn [weave]; [apply sublist_nil_l|].
  apply sublist_inserts_l. apply sublist_skip. apply IH. cbn in Hl. lia.
Qed.
Lemma node_values_sublist ht t : tree_wf ht t -> sublist (node_values t) (values_of t).
Proof using Type.
  destruct t as [l cap vs ts], ht; intros [(_ & _ & Hts) _]; [by subst|]. destruct ts as [|t ts]; [done|].
  apply weave_sublist. rewrite length_fmap. done.
Qed.
Lemma in_order_node ht t ctx : tree_wf ht t -> Forall crumb_ok ctx -> in_order (values_of (plug t ctx)) -> in_order (node_values t).
Proof using Type.
  intros Hwf Hctx. apply in_order_sublist. rewrite elements_plug //. apply sublist_inserts_l, sublist_inserts_r.
  by apply (node_values_sublist ht).
Qed.

Lemma tree_wf_ok ht l cap vs ts : tree_wf ht (Tree l cap vs ts) -> tree_ok ht cap vs ts.
Proof using Type. by destruct ht; intros [? _]. Qed.

(** *** Searching the node at the focus *)

Section node.
Context (lm : loc) (ht : nat) (t : tree V) (ctx : list (crumb V)).
Let F := focus lm ht t ctx.

Lemma wp_at_key i v (Φ : K -> hPropI V) : node_values t !! i = Some v ->
  F -∗ (F -∗ Φ (params_key v)) -∗ wp (key (root_loc t) (Z.of_nat i)) Φ.
Proof using Type.
  intros Hi. iIntros "H HΦ". iApply wp_bind. apply list_elem_of_split_length in Hi as (A & B & HAB & ->).
  iApply (wp_at_value with "H"); [done|done|]. iIntros "H". iApply wp_ret. by iApply "HΦ".
Qed.

Lemma focus_count : F ⊢ ⟦(length (node_values t) <= slots_max)%nat /\ tree_wf ht t /\ Forall crumb_ok ctx⟧ ∗ F.
Proof.
  iIntros "H". iDestruct (focus_crumb_ok with "H") as "[%Hok $]". iPureIntro. destruct Hok as [Hctx Hwf]. split; [|done].
  destruct t as [l cap vs ts]. destruct (leaf_capacity_bounds _ _ _ _ (tree_wf_ok _ _ _ _ _ Hwf)) as (? & ? & _). cbn. lia.
Qed.

Lemma wp_at_lower_bound k (Φ : SearchResult Z -> hPropI V) : in_order (node_values t) ->
  let n := prefix_len (before_key k) (node_values t) in
  F -∗ (F -∗ Φ (mkSearchResult (Z.of_nat n) (lower_match (node_values t) k n))) -∗ wp (btree_node.lower_bound (root_loc t) k) Φ.
Proof.
  intros Hord n. iIntros "H HΦ". iDestruct (focus_count with "H") as "[%Hc H]". destruct Hc as (Hc & _ & _).
  iApply (wp_lower_bound with "H HΦ"); [done| |done| |].
  - intros i v Ψ. apply wp_at_key.
  - intros Ψ. apply wp_at_start.
  - intros Ψ. apply wp_at_finish.
Qed.
Lemma wp_at_upper_bound k (Φ : Z -> hPropI V) : in_order (node_values t) ->
  F -∗ (F -∗ Φ (Z.of_nat (prefix_len (λ v, negb (after_key k v)) (node_values t)))) -∗ wp (btree_node.upper_bound (root_loc t) k) Φ.
Proof.
  intros Hord. iIntros "H HΦ". iDestruct (focus_count with "H") as "[%Hc H]". destruct Hc as (Hc & _ & _).
  iApply (wp_upper_bound with "H HΦ"); [done| |done| |].
  - intros i v Ψ. apply wp_at_key.
  - intros Ψ. apply wp_at_start.
  - intros Ψ. apply wp_at_finish.
Qed.
End node.

(** *** Going down *)

(** The crumb when the way goes through the [n]th child. *)
Lemma inner_child ht l cap vs ts n : tree_wf (S ht) (Tree l cap vs ts) -> (n <= length vs)%nat ->
  exists t c, ts !! n = Some t /\ Tree l cap vs ts = graft t c /\ crumb_ok c /\ c_loc c = l /\ c_left c = take n vs /\ c_right c = drop n vs /\
    length (c_left c) = n.
Proof using Type.
  intros [(_ & -> & Hlen) _] Hn. destruct (lookup_lt_is_Some_2 ts n) as [t Ht]; [lia|].
  exists t, (Crumb l (take n vs) (drop n vs) (take n ts) (drop (S n) ts)).
  split_and!; try done.
  - unfold graft. cbn. rewrite take_drop. f_equal. by rewrite take_drop_middle.
  - split; cbn; rewrite ?length_take ?length_drop; lia.
  - cbn. rewrite length_take. lia.
Qed.

Lemma descend (P : V -> bool) t c ctx : crumb_ok c -> Forall crumb_ok ctx ->
  downward P (values_of (plug (graft t c) ctx)) ->
  Forall (λ v, P v = true) (c_left c) -> Forall (λ v, P v = false) (c_right c) ->
  Forall (λ v, P v = true) (before ctx) -> Forall (λ v, P v = false) (after ctx) ->
  Forall (λ v, P v = true) (before (c :: ctx)) /\ Forall (λ v, P v = false) (after (c :: ctx)).
Proof using Type.
  intros Hc Hctx Hd HA HB Hbef Haft. rewrite elements_plug // elements_split in Hd; [|apply Hc|apply Hc].
  unfold downward in Hd. rewrite !SS_app in Hd. destruct Hd as (_ & ((Hl & (_ & Hr & _) & _) & _) & _).
  rewrite before_cons after_cons. destruct Hc as [Hcl Hcr]. split; apply Forall_app; (split; [done|]) || (split; [|done]).
  - destruct (c_left c) as [|a A _] using rev_ind; destruct (t_left c) as [|ti TA _] using rev_ind;
      try (rewrite ?length_app /= in Hcl; lia); [by constructor|].
    rewrite !length_app /= in Hcl. rewrite lpart_app in Hl |- *; [|lia]. rewrite /lpart /= right_id_L -/(lpart TA A) assoc_L in Hl |- *.
    apply SS_app in Hl as (_ & _ & Hl). apply Forall_app in HA as [_ [Ha _]%Forall_cons]. apply Forall_app. split; [|by constructor].
    eapply Forall_impl; [exact Hl|]. intros v [Hv _]%Forall_cons. by apply Hv.
  - destruct (c_right c) as [|b B], (t_right c) as [|ti TB]; try done. rewrite rpart_cons in Hr |- *.
    apply StronglySorted_inv in Hr as [_ Hr]. apply Forall_cons in HB as [Hb _]. constructor; [done|].
    eapply Forall_impl; [exact Hr|]. intros v Hv. cbn in Hv. destruct (P v); [|done]. specialize (Hv eq_refl). congruence.
Qed.

Lemma leaf_at_values ht T it xs ys : leaf_at ht T it xs ys -> values_of T = xs ++ ys.
Proof using Type.
  intros (ctx & l & cap & A & B & <- & _ & Hok & _ & -> & ->). rewrite elements_plug //. cbn. by rewrite -!assoc_L.
Qed.

(** *** [internal_locate] *)

Definition located k (ht : nat) T (r : SearchResult iterator) : Prop :=
  (exists xs y ys, result_match r = Some kEq /\ iter_at ht T (result_value r) xs (y :: ys) /\ same_key k y) \/
  (exists xs ys, result_match r ≠ Some kEq /\ leaf_at ht T (result_value r) xs ys /\ Forall (λ v, before_key k v = true) xs /\
     Forall (λ v, before_key k v = false) ys /\ (result_match r = Some kNe -> Forall (λ v, after_key k v = true) ys)).

(** The first value on the right is not the one, as seen on the way. *)
Definition head_after k ctx : Prop :=
  match key_compare with ByLess _ => True | ByOrder _ => forall y ys, after ctx = y :: ys -> after_key k y = true end.

Lemma lower_match_after k vs n v : lower_match vs k n ≠ Some kEq -> vs !! n = Some v -> before_key k v = false ->
  match key_compare with ByLess _ => True | ByOrder _ => after_key k v = true end.
Proof.
  unfold lower_match. destruct key_compare as [lt|cmp] eqn:E; [done|]. intros Hm Hv Hb. unfold match_at in Hm. rewrite Hv in Hm.
  pose proof (order_before cmp E k v) as H1. pose proof (order_after cmp E k v) as H2. destruct (cmp (params_key v) k); [done| |by apply H2].
  rewrite (proj1 H1 eq_refl) in Hb. done.
Qed.
Lemma lower_match_same k vs n : lower_match vs k n = Some kEq -> exists v, vs !! n = Some v /\ same_key k v.
Proof.
  unfold lower_match. destruct key_compare as [lt|cmp] eqn:E; [done|]. intros Hm. unfold match_at in Hm.
  destruct (vs !! n) as [v|] eqn:Hv; [|done]. exists v. split; [done|].
  pose proof (order_before cmp E k v) as H1. pose proof (order_after cmp E k v) as H2.
  destruct (cmp (params_key v) k); [|done|done]. split; apply not_true_is_false; intros Hx; [by apply H1 in Hx|by apply H2 in Hx].
Qed.
Lemma head_all_after k xs y ys : in_order (xs ++ y :: ys) -> after_key k y = true -> Forall (λ v, after_key k v = true) (y :: ys).
Proof.
  intros Hord Hy. apply (downward_not_after k) in Hord. apply SS_app in Hord as (_ & Hord & _).
  apply StronglySorted_inv in Hord as [_ Hord]. constructor; [done|]. eapply Forall_impl; [exact Hord|].
  intros v Hv. cbn in Hv. destruct (after_key k v); [done|]. specialize (Hv eq_refl). by rewrite Hy in Hv.
Qed.

Lemma head_after_down k lm t c ctx : crumb_ok c -> Forall crumb_ok ctx -> in_order (values_of (plug t (c :: ctx))) ->
  Forall (λ v, before_key k v = false) (c_right c) -> lower_match (c_left c ++ c_right c) k (length (c_left c)) ≠ Some kEq ->
  head_after k ctx -> lm = c_loc c -> head_after k (c :: ctx).
Proof.
  intros [_ Hcr] Hctx Hord HB Hm Hhd _. unfold head_after in *. pose proof (lower_match_after k (c_left c ++ c_right c) (length (c_left c))) as Hla.
  destruct key_compare; [done|]. intros y ys. rewrite after_cons. destruct (c_right c) as [|b B], (t_right c) as [|t' ts]; try done.
  - intros Hy. by eapply Hhd.
  - intros [= <- _]. apply Hla; [done|by apply list_lookup_middle|]. by apply Forall_cons in HB as [? _].
Qed.

(** What has been found in a leaf, or in an internal node. *)
Lemma located_leaf k ctx l cap vs (n := prefix_len (before_key k) vs) m :
  in_order (values_of (plug (Tree l cap vs []) ctx)) -> in_order vs -> Forall crumb_ok ctx ->
  Forall (λ v, before_key k v = true) (before ctx) -> Forall (λ v, before_key k v = false) (after ctx) -> head_after k ctx ->
  lower_match vs k n = m -> m ≠ Some kEq ->
  located k (length ctx + 0) (plug (Tree l cap vs []) ctx) (mkSearchResult (mkIterator (Some l) (Z.of_nat n)) m).
Proof.
  intros Hord Hnode Hctx Hbef Haft Hhd Hm Hne. pose proof (downward_before k _ Hnode) as Hd.
  pose proof (prefix_len_le (before_key k) vs) as Hn. destruct (prefix_len_split _ _ Hd) as [Htake Hdrop].
  right. exists (before ctx ++ take n vs), (drop n vs ++ after ctx). cbn [result_match result_value]. split_and!; [done| |by apply Forall_app..|].
  - exists ctx, l, cap, (take n vs), (drop n vs). rewrite take_drop length_take. split_and!; rewrite ?Nat.min_l //; lia.
  - intros ->. destruct (drop n vs ++ after ctx) as [|y ys] eqn:Eys; [by constructor|].
    assert (values_of (plug (Tree l cap vs []) ctx) = (before ctx ++ take n vs) ++ y :: ys) as Hval.
    { rewrite -Eys elements_plug //. cbn. by rewrite -{1}(take_drop n vs) -!assoc_L. }
    rewrite Hval in Hord. eapply head_all_after; [exact Hord|]. pose proof (lower_match_after k vs n y) as Hla. rewrite Hm in Hla.
    unfold head_after in Hhd. unfold lower_match in Hm. destruct key_compare; [done|]. destruct (drop n vs) as [|w ws] eqn:Ew; cbn in Eys.
    + by eapply Hhd.
    + injection Eys as -> <-. apply Hla; [done| |fold n in Hdrop; rewrite Ew in Hdrop; by apply Forall_cons in Hdrop as [? _]].
      by rewrite -(Nat.add_0_r n) -lookup_drop Ew.
Qed.

Lemma located_eq k ht t ctx n : tree_wf ht t -> Forall crumb_ok ctx ->
  lower_match (node_values t) k n = Some kEq ->
  located k (length ctx + ht) (plug t ctx) (mkSearchResult (mkIterator (Some (root_loc t)) (Z.of_nat n)) (Some kEq)).
Proof.
  intros Hwf Hctx (v & Hv & Hsame)%lower_match_same. left. apply list_elem_of_split_length in Hv as (A & B & HAB & ->).
  destruct t as [l cap vs ts]. cbn in HAB. subst vs. destruct ht as [|ht].
  - assert (ts = []) as -> by apply Hwf. exists (before ctx ++ A), v, (B ++ after ctx). split; [done|]. split; [|done].
    exists ctx, (Tree l cap (A ++ v :: B) []), (length A), O. split_and!; try done; [|intros _; cbn; rewrite length_app /=; lia].
    apply (cursor_leaf ctx l cap A (v :: B)).
  - assert (length A <= length (A ++ v :: B))%nat as Hn by (rewrite length_app; lia).
    destruct (inner_child ht l cap (A ++ v :: B) ts (length A) Hwf Hn) as (tl & c & Htl & Hg & Hc & _ & HA & HB & _).
    rewrite take_app_length in HA. rewrite drop_app_length in HB. destruct c as [cl cA cB cTA cTB], Hc as [Hcl Hcr]. cbn in *. subst cA cB.
    destruct cTB as [|tr TB]; [done|]. injection Hg as -> -> ->. cbn in Hcr.
    eexists _, v, _. split; [done|]. split; [|done]. eexists ctx, _, (length A), (S ht).
    split_and!; [done|done|done|by apply cursor_inner; lia|done|intros _; cbn; rewrite length_app /=; lia].
Qed.

Lemma wp_locate_loop k lm ht t ctx fuel (Φ : SearchResult iterator -> hPropI V) :
  (ht < fuel)%nat -> in_order (values_of (plug t ctx)) ->
  Forall (λ v, before_key k v = true) (before ctx) -> Forall (λ v, before_key k v = false) (after ctx) -> head_after k ctx ->
  focus lm ht t ctx -∗
  (∀ r, ⟦located k (length ctx + ht) (plug t ctx) r⟧ -∗ focus lm ht t ctx -∗ Φ r) -∗ wp (locate_loop fuel k (root_loc t)) Φ.
Proof.
  revert t ctx fuel Φ. induction ht as [|ht IH]; intros t ctx [|fuel] Φ Hf Hord Hbef Haft Hhd; try lia; cbn [locate_loop];
    iIntros "H HΦ"; iDestruct (focus_count with "H") as "[%Hc H]"; destruct Hc as (Hmax & Hwf & Hctx);
    pose proof (in_order_node _ _ _ Hwf Hctx Hord) as Hnode; pose proof (downward_before k _ Hnode) as Hd;
    pose proof slots_max_Z as Hm; iApply wp_bind; (iApply (wp_at_lower_bound with "H"); [done|]); iIntros "H";
    unfold IsEq, HasMatch; cbn [result_match result_value];
    destruct (decide (lower_match (node_values t) k (prefix_len (before_key k) (node_values t)) = Some kEq)) as [Heq|Hne].
  1, 3: rewrite Heq; iApply wp_ret; iApply ("HΦ" with "[] H"); iPureIntro; by apply located_eq.
  - destruct (lower_match _ _ _) as [[]|] eqn:Em; [done|..]; iApply wp_bind; iApply (wp_at_is_leaf with "H"); iIntros "H"; cbn [Nat.eqb];
      iApply wp_ret; (iApply ("HΦ" with "[] H")); iPureIntro; destruct t as [l cap vs ts]; assert (ts = []) as -> by apply Hwf; by apply located_leaf.
  - destruct t as [l cap vs ts]. cbn [node_values root_loc] in *. pose proof (prefix_len_le (before_key k) vs) as Hn.
    destruct (prefix_len_split _ _ Hd) as [Htake Hdrop].
    destruct (inner_child ht l cap vs ts _ Hwf Hn) as (tc & c & Htc & Hg & Hc & Hl & HA & HB & HlA). rewrite -HA in Htake. rewrite -HB in Hdrop.
    assert (c_left c ++ c_right c = vs) as Hvs by by rewrite HA HB take_drop.
    rewrite Hg in Hord. destruct (descend _ _ _ _ Hc Hctx (downward_before k _ Hord) Htake Hdrop Hbef Haft) as [Hbef' Haft'].
    assert (head_after k (c :: ctx)) as Hhd'.
    { apply (head_after_down k l tc); try done. by rewrite Hvs HlA. }
    destruct (lower_match _ _ _) as [[]|] eqn:Em; [done|..]; iApply wp_bind; iApply (wp_at_is_leaf _ _ (Tree l cap vs ts) with "H"); iIntros "H"; cbn [Nat.eqb]; iApply wp_bind; (rewrite field_id; [|lia]);
      (iApply (wp_at_child _ _ (Tree l cap vs ts) with "H"); [lia|done|]); iIntros "H"; rewrite Hg;
      (iDestruct (focus_down' with "H") as "H"; [done|]); (iApply (IH with "H"); [lia|done|done|done|done|]);
      iIntros (r) "%Hr H"; iDestruct (focus_step with "H") as "[_ H]"; iApply ("HΦ" with "[] H"); iPureIntro; by rewrite Nat.add_succ_r.
Qed.

(** *** [internal_last] *)

(** The same position in an internal node, or no node at the end. *)
Definition last_of (ht : nat) T (r : iterator) xs ys : Prop :=
  (ys = [] /\ node_ r = None) \/ (ys ≠ [] /\ iter_at ht T r xs ys).

Lemma wp_last_loop_step lm ht t c ctx fuel (Φ : iterator -> hPropI V) : lm = leftmost_loc (plug t (c :: ctx)) ->
  focus lm ht t (c :: ctx) -∗
  (focus lm (S ht) (graft t c) ctx -∗ wp (last_loop fuel (c_loc c) (Z.of_nat (length (c_left c)))) Φ) -∗
  wp (last_loop (S fuel) (root_loc t) (count_of t)) Φ.
Proof.
  intros Hlm. iIntros "H HΦ". cbn [last_loop]. iApply wp_bind. iApply (wp_at_finish with "H"). iIntros "H".
  rewrite Z.eqb_refl. iApply wp_bind. iApply (wp_at_position with "H"). iIntros "H".
  iApply wp_bind. iApply (wp_at_parent with "H"). iIntros "H".
  iApply wp_bind. iApply (wp_at_parent_is_leaf with "H"); [done|]. iIntros "H". rewrite bool_decide_false //.
  iApply "HΦ". by iDestruct (focus_step with "H") as "[_ H]".
Qed.
Lemma wp_last_loop_through lm ht t ctx1 ctx2 fuel (Φ : iterator -> hPropI V) : lm = leftmost_loc (plug t (ctx1 ++ ctx2)) ->
  Forall right_end ctx1 ->
  focus lm ht t (ctx1 ++ ctx2) -∗
  (focus lm (length ctx1 + ht) (plug t ctx1) ctx2 -∗ wp (last_loop fuel (root_loc (plug t ctx1)) (count_of (plug t ctx1))) Φ) -∗
  wp (last_loop (length ctx1 + fuel) (root_loc t) (count_of t)) Φ.
Proof.
  intros Hlm Hend. iIntros "H HΦ". iInduction Hend as [|c ctx1 [Hc Ht] Hend IH] "IH" forall (ht t Hlm); [by iApply "HΦ"|].
  cbn [app length Nat.add]. iApply (wp_last_loop_step with "H"); [done|]. iIntros "H".
  replace (Z.of_nat (length (c_left c))) with (count_of (graft t c)) by (unfold count_of; cbn; by rewrite Hc app_nil_r).
  iApply ("IH" $! (S ht) (graft t c) with "[] H"); [by iPureIntro|]. by rewrite Nat.add_succ_r.
Qed.

(** Nothing is to be done when the position is before a value. *)
Lemma wp_internal_last_iter ht T it xs y ys (Φ : iterator -> hPropI V) : iter_at ht T it xs (y :: ys) ->
  own ht T -∗ (own ht T -∗ Φ it) -∗ wp (internal_last it) Φ.
Proof.
  intros (ctx & t & i & h & <- & Hht & Hctx & Hc & -> & Hi). specialize (Hi ltac:(done)). iIntros "H HΦ".
  iEval (rewrite (own_focus _ h) //) in "H". iApply wp_bind. iApply wp_check; [by apply bool_decide_eq_true|].
  iApply wp_bind. iApply wp_lift; [done|]. iApply wp_bind. iApply (wp_heap_fuel with "H"); [apply focus_at_least|].
  iIntros (fuel) "%Hf H". destruct fuel as [|fuel]; [lia|]. cbn [last_loop pos_]. iApply wp_bind.
  iApply (wp_at_finish with "H"). iIntros "H". unfold count_of. rewrite (proj2 (Z.eqb_neq _ _)); [|lia]. iApply wp_ret.
  iApply "HΦ". by iApply (focus_own with "H").
Qed.

Lemma wp_internal_last ht T it xs ys (Φ : iterator -> hPropI V) : leaf_at ht T it xs ys ->
  own ht T -∗ (∀ r, ⟦last_of ht T r xs ys⟧ -∗ own ht T -∗ Φ r) -∗ wp (internal_last it) Φ.
Proof.
  intros (ctx & l & cap & A & B & <- & Hht & Hctx & -> & -> & ->). iIntros "H HΦ". destruct B as [|b B]; cycle 1.
  { assert (iter_at ht (plug (Tree l cap (A ++ b :: B) []) ctx) (mkIterator (Some l) (Z.of_nat (length A))) (before ctx ++ A) ((b :: B) ++ after ctx)) as Hit.
    { exists ctx, (Tree l cap (A ++ b :: B) []), (length A), O. split_and!; try done; [lia|apply cursor_leaf|].
      intros _. cbn. rewrite length_app /=. lia. }
    iApply (wp_internal_last_iter with "H"); [exact Hit|]. iIntros "H". iApply ("HΦ" with "[] H"). iPureIntro. by right. }
  iEval (rewrite (own_focus _ O); [|lia|done]) in "H". set (lm := leftmost_loc (plug (Tree l cap (A ++ []) []) ctx)).
  iApply wp_bind. iApply wp_check; [by apply bool_decide_eq_true|].
  iApply wp_bind. iApply wp_lift; [done|]. iApply wp_bind. iApply (wp_heap_fuel with "H"); [apply focus_at_least|].
  iIntros (fuel) "%Hf H". cbn [pos_]. replace (Z.of_nat (length A)) with (count_of (Tree l cap (A ++ []) [])) by (unfold count_of; cbn; by rewrite app_nil_r).
  destruct (right_turn ctx Hctx) as [Hend|(ctx1 & c & ctx2 & v & B & tr & ts & -> & Hend & Hv & Ht)].
  - replace fuel with (length ctx + S (fuel - S (length ctx)))%nat by lia.
    iApply (wp_last_loop_through _ _ (Tree l cap (A ++ []) []) ctx [] with "[H]"); [by rewrite (app_nil_r ctx)|done|by rewrite (app_nil_r ctx)|]. iIntros "H". cbn [last_loop].
    iApply wp_bind. iApply (wp_at_finish with "H"). iIntros "H". rewrite Z.eqb_refl. iApply wp_bind.
    iApply (wp_at_position with "H"). iIntros "H". iApply wp_bind. iApply (wp_at_parent with "H"). iIntros "H".
    iApply wp_bind. iApply (wp_at_parent_is_leaf _ _ (plug _ ctx) [] with "H"); [done|]. iIntros "H".
    rewrite bool_decide_true //. iApply wp_ret.
    iApply ("HΦ" with "[] [H]"); [iPureIntro; left; by rewrite after_right_end|].
    iApply (focus_own with "H"); [done|cbn; lia|by rewrite /lm app_nil_r].
  - rewrite length_app /= in Hf. replace fuel with (length ctx1 + S (S (fuel - S (S (length ctx1)))))%nat by lia.
    iApply (wp_last_loop_through _ _ (Tree l cap (A ++ []) []) ctx1 with "H"); [done|done|]. iIntros "H".
    iApply (wp_last_loop_step with "H"); [by rewrite /lm plug_app|]. iIntros "H". cbn [last_loop]. iApply wp_bind.
    iApply (wp_at_finish _ _ (graft _ c) with "H"). iIntros "H". unfold count_of. cbn [node_values graft]. rewrite length_app Hv /=.
    rewrite (proj2 (Z.eqb_neq _ _)); [|lia]. iApply wp_ret. apply Forall_app in Hctx as [Hctx1 [Hc Hctx2]%Forall_cons].
    iApply ("HΦ" with "[] [H]"); [|iApply (focus_own with "H"); [by rewrite plug_app|rewrite length_app /= in Hht; lia|done]].
    iPureIntro. right. rewrite after_app after_cons (after_right_end ctx1) // Hv Ht. split; [by destruct B|].
    exists ctx2, (graft (plug (Tree l cap (A ++ []) []) ctx1) c), (length (c_left c)), (S (length ctx1)).
    destruct Hc as [Hcl Hcr]. rewrite Hv Ht /= in Hcr.
    split_and!; [by rewrite plug_app|rewrite -Hht length_app /=; lia|done| |done|by rewrite /= length_app Hv /=; lia].
    unfold graft. rewrite Hv Ht. rewrite (_ : before _ ++ A =
      before ctx2 ++ lpart (t_left c) (c_left c) ++ values_of (plug (Tree l cap (A ++ []) []) ctx1)).
    { rewrite rpart_cons /= -!assoc_L. constructor; lia. }
    rewrite elements_plug // (after_right_end ctx1) // before_app before_cons. cbn [values_of]. by rewrite !app_nil_r -!assoc_L.
Qed.

(** *** Reading through an iterator *)

Lemma wp_iter_value ht T it xs y ys (Φ : V -> hPropI V) : iter_at ht T it xs (y :: ys) ->
  own ht T -∗ (own ht T -∗ Φ y) -∗ wp (iter_value it) Φ.
Proof.
  intros (ctx & t & i & h & <- & Hht & Hctx & Hc & -> & Hi). specialize (Hi ltac:(done)). iIntros "H HΦ".
  iEval (rewrite (own_focus _ h) //) in "H". pose proof slots_max_Z. iDestruct (focus_count with "H") as "[%Hm H]". destruct Hm as [Hm _].
  iApply wp_bind. iApply wp_check; [by apply bool_decide_eq_true|]. iApply wp_bind. iApply wp_lift; [done|].
  iApply wp_bind. iApply (wp_at_start with "H"). iIntros "H". iApply wp_bind. cbn [pos_]. iApply wp_check; [apply Z.leb_le; lia|].
  iApply wp_bind. iApply (wp_at_finish with "H"). iIntros "H". unfold count_of. rewrite (proj2 (Z.leb_gt _ _)); [|lia].
  iApply wp_bind. iApply wp_ret. rewrite field_id; [|lia].
  assert (exists A B, node_values t = A ++ y :: B /\ i = length A) as (A & B & HAB & ->).
  { remember (y :: ys) as zs eqn:Hzs. destruct Hc as [l cap A B|l cap A v B TA tl tr TB HA HB]; cbn in *.
    - destruct B as [|b B]; [rewrite app_nil_r in Hi; lia|]. injection Hzs as -> _. by eexists A, _.
    - injection Hzs as -> _. by eexists A, _. }
  iApply (wp_at_value with "H"); [done|done|]. iIntros "H". iApply "HΦ". by iApply (focus_own with "H").
Qed.
Lemma wp_iter_key ht T it xs y ys (Φ : K -> hPropI V) : iter_at ht T it xs (y :: ys) ->
  own ht T -∗ (own ht T -∗ Φ (params_key y)) -∗ wp (iter_key it) Φ.
Proof.
  intros (ctx & t & i & h & <- & Hht & Hctx & Hc & -> & Hi). specialize (Hi ltac:(done)). iIntros "H HΦ".
  iEval (rewrite (own_focus _ h) //) in "H". iApply wp_bind. iApply wp_lift; [done|]. cbn [pos_].
  assert (node_values t !! i = Some y) as Hy.
  { remember (y :: ys) as zs eqn:Hzs. destruct Hc as [l cap A B|l cap A v B TA tl tr TB HA HB]; cbn in *.
    - destruct B as [|b B]; [rewrite app_nil_r in Hi; lia|]. injection Hzs as -> _. by apply list_lookup_middle.
    - injection Hzs as -> _. by apply list_lookup_middle. }
  iApply (wp_at_key with "H"); [done|]. iIntros "H". iApply "HΦ". by iApply (focus_own with "H").
Qed.
Lemma wp_holds_key ht T r xs ys k (Φ : bool -> hPropI V) : last_of ht T r xs ys ->
  own ht T -∗ (own ht T -∗ Φ (match ys with [] => false | y :: _ => negb (after_key k y) end)) -∗ wp (holds_key k r) Φ.
Proof.
  intros [[-> Hn]|[Hne Hit]]; iIntros "H HΦ"; unfold holds_key.
  - rewrite Hn. iApply wp_ret. by iApply "HΦ".
  - destruct ys as [|y ys]; [done|]. assert (exists p, node_ r = Some p) as [p ->] by (destruct Hit as (? & ? & ? & ? & _ & _ & _ & _ & -> & _); by eexists).
    iApply wp_bind. iApply (wp_iter_key with "H"); [done|]. iIntros "H". iApply wp_bind.
    iApply wp_lift; [apply compare_keys_ok|]. iApply wp_ret. by iApply "HΦ".
Qed.
End find.
