(* ===== verification/BtreeLookup.v ===== *)
(** * BtreeLookup: a B-tree as a list in order (lemmas for Btree.v)

    [btree_own bt S] owns the object [bt]; its shape [S] is [None] when it is
    empty, and else the height and the tree. [contents S] are the values;
    [points S it xs ys]: the iterator [it] is after the values [xs] and before
    [ys]. Here are the operations that do not change the container. *)

From S2P Require Import Prelude.
From S2P Require Import BtreeNode.
From S2P Require Import Btree.
From S2P Require Import HeapLogic.
From S2P Require Import BtreeTree.
From S2P Require Import BtreeFree.
From S2P Require Import BtreeMove.
From S2P Require Import BtreeZip.
From S2P Require Import BtreeSearch.
From Stdlib Require Import Sorting.Sorted.
From iris.proofmode Require Import proofmode.
Import btree_node.
Import btree_iterator.
Import btree.
#[local] Open Scope Z_scope.
#[local] Open Scope cpp_scope.

Section lookup.
Context {K V : Type} `{PB : BtreeParams K V} {LB : BtreeLaws K V} `{AL : Allocator} {FL : AllocatorLaws} {LK : KeyLaws K V}.
Implicit Types (t T : tree V) (ts : list (tree V)) (vs A B xs ys : list V) (ctx : list (crumb V)) (k : K) (v : V) (bt : Btree.btree).

(** All nodes have the full number of slots. *)
Inductive roomy : tree V -> Prop :=
  | Roomy l cap vs ts : capacity cap = slots_max -> Forall roomy ts -> roomy (Tree l cap vs ts).

Definition shape : Type := option (nat * tree V).
Definition contents (S : shape) : list V := match S with None => [] | Some (_, T) => values_of T end.

(** The root can be a leaf with fewer slots. *)
Definition btree_ok bt (ht : nat) T : Prop :=
  root_ bt = root_loc T /\ rightmost_ bt = rightmost_loc T /\ size_ bt = Z.of_nat (length (values_of T)) /\
  full T /\ (ht = O \/ roomy T).
Definition btree_own bt (S : shape) : hPropI V :=
  match S with
  | None => ⟦bt = btree_new⟧
  | Some (ht, T) => ⟦btree_ok bt ht T⟧ ∗ own ht T
  end.
Definition points (S : shape) (it : iterator) xs ys : Prop :=
  match S with
  | None => it = mkIterator (Some EmptyNode) 0 /\ xs = [] /\ ys = []
  | Some (ht, T) => iter_at ht T it xs ys
  end.

Lemma points_contents S it xs ys : points S it xs ys -> contents S = xs ++ ys.
Proof using Type. destruct S as [[ht T]|]; [apply iter_at_values|by intros (_ & -> & ->)]. Qed.

(** *** The ends *)

Lemma iter_at_end ht T t ctx : plug t ctx = T -> length ctx = ht -> Forall crumb_ok ctx -> tree_wf 0 t ->
  after ctx = [] -> iter_at ht T (mkIterator (Some (root_loc t)) (count_of t)) (values_of T) [].
Proof using Type.
  intros <- <- Hctx Hwf Haft. destruct t as [l cap vs ts]. assert (ts = []) as -> by apply Hwf.
  exists ctx, (Tree l cap vs []), (length vs), O. split_and!; try (done || lia).
  rewrite elements_plug // Haft. cbn. pose proof (cursor_leaf ctx l cap vs []) as Hc. rewrite app_nil_r Haft in Hc. by rewrite app_nil_r.
Qed.

Lemma wp_end_at bt ht T (Φ : iterator -> hPropI V) : rightmost_ bt = rightmost_loc T ->
  own ht T -∗ (∀ it, ⟦iter_at ht T it (values_of T) []⟧ -∗ own ht T -∗ Φ it) -∗ wp (end_ bt) Φ.
Proof.
  intros Hright. iIntros "H HΦ". unfold end_. iApply wp_bind. rewrite Hright. unfold own.
  iPoseProof (focus_rightmost _ _ T [] with "[H]") as "H"; [by iFrame|].
  iDestruct "H" as (t' ctx') "[%Hway H]". destruct Hway as (Hp & Hl & Hctx & Hwf & Hr & Haft & _). cbn in Hp, Haft. rewrite -Hr.
  iApply (wp_at_finish with "H"). iIntros "H". iApply wp_ret. iApply ("HΦ" with "[] [H]").
  - iPureIntro. by apply (iter_at_end ht T t' ctx').
  - iApply (focus_own with "H"); [done|cbn in Hl; lia|done].
Qed.

Lemma wp_end bt S (Φ : iterator -> hPropI V) :
  btree_own bt S -∗ (∀ it, ⟦points S it (contents S) []⟧ -∗ btree_own bt S -∗ Φ it) -∗ wp (end_ bt) Φ.
Proof.
  destruct S as [[ht T]|]; iIntros "H HΦ"; cbn [btree_own].
  - iDestruct "H" as "[%Hok H]". iApply (wp_end_at with "H"); [apply Hok|]. iIntros (it) "%Hit H". iApply ("HΦ" with "[//]"). by iFrame.
  - iDestruct "H" as "->". unfold end_, finish. iApply wp_bind. iApply wp_bind. iApply wp_load_empty. iApply wp_ret. iApply wp_ret.
    iApply "HΦ"; by iPureIntro.
Qed.

Lemma wp_begin bt S (Φ : iterator -> hPropI V) :
  btree_own bt S -∗ (∀ it, ⟦points S it [] (contents S)⟧ -∗ btree_own bt S -∗ Φ it) -∗ wp (begin_ bt) Φ.
Proof.
  destruct S as [[ht T]|]; iIntros "H HΦ"; cbn [btree_own].
  - iDestruct "H" as "[%Hok H]". unfold begin_, leftmost. iApply wp_bind. rewrite (proj1 Hok). unfold own.
    iAssert (focus (leftmost_loc T) ht T []) with "[H]" as "H"; [by iFrame|].
    iApply (wp_at_parent with "H"). iIntros "H". cbn [ctx_parent].
    iDestruct (focus_leftmost with "H") as (t' ctx') "[%Hway H]". destruct Hway as (Hp & Hl & Hctx & Hwf & Hr & Hbef & Haft).
    cbn in Hp, Haft. rewrite app_nil_r in Haft. rewrite -Hr. iApply wp_bind. iApply (wp_at_start with "H"). iIntros "H". iApply wp_ret.
    iApply ("HΦ" with "[] [H]").
    + iPureIntro. exists ctx', t', O, O. split_and!; try done; [cbn in Hl; lia| |].
      * destruct t' as [l cap vs ts]. assert (ts = []) as -> by apply Hwf. cbn in Haft |- *. rewrite -Haft.
        pose proof (cursor_leaf ctx' l cap [] vs) as Hc. by rewrite Hbef in Hc.
      * intros _. destruct Hok as (_ & _ & _ & Hfull & _). rewrite -Hp in Hfull. apply full_plug in Hfull.
        destruct t' as [l cap vs ts]. apply full_inv in Hfull as [Hne _]. destruct vs; [done|]. cbn. lia.
    + iSplitR; [by iPureIntro|]. rewrite Hr. iApply (focus_own with "H"); [done|cbn in Hl; lia|done].
  - iDestruct "H" as "->". unfold begin_, leftmost, parent, iterator_of, start. iApply wp_bind. iApply wp_bind. iApply wp_load_empty.
    iApply wp_ret. iApply wp_bind. iApply wp_bind. iApply wp_load_empty. iApply wp_bind. iApply wp_check; [done|].
    iApply wp_ret. iApply wp_ret. iApply "HΦ"; by iPureIntro.
Qed.

Lemma wp_internal_end bt ht T r xs ys (Φ : iterator -> hPropI V) : last_of ht T r xs ys -> values_of T = xs ++ ys ->
  btree_own bt (Some (ht, T)) -∗ (∀ it, ⟦points (Some (ht, T)) it xs ys⟧ -∗ btree_own bt (Some (ht, T)) -∗ Φ it) -∗ wp (internal_end bt r) Φ.
Proof.
  intros [[-> Hn]|[Hne Hit]] Hval; iIntros "H HΦ"; unfold internal_end.
  - rewrite Hn. iApply (wp_end with "H"). iIntros (it) "%Hit H". iApply ("HΦ" with "[] H"). iPureIntro. cbn in *.
    by rewrite Hval app_nil_r in Hit.
  - assert (exists p, node_ r = Some p) as [p ->] by (destruct Hit as (? & ? & ? & ? & _ & _ & _ & _ & -> & _); by eexists).
    iApply wp_ret. by iApply ("HΦ" with "[] H").
Qed.

(** *** Looking for a key *)

Lemma own_fuel ht T (Φ : nat -> hPropI V) : own ht T -∗ (∀ f, ⟦(ht < f)%nat⟧ -∗ own ht T -∗ Φ f) -∗ wp heap_fuel Φ.
Proof.
  iIntros "H HΦ". unfold own. iDestruct (own_tree_wf with "H") as "[%Hwf H]". apply wf_nodes in Hwf.
  iApply (wp_heap_fuel with "H"); [apply own_tree_at_least|]. iIntros (f) "%Hf H". iApply ("HΦ" with "[] H"). iPureIntro. lia.
Qed.
Lemma own_root ht T : own ht T ⊣⊢ focus (leftmost_loc T) ht T [].
Proof using Type. unfold own, focus. cbn. by rewrite right_id. Qed.

Lemma wp_internal_locate bt ht T k (Φ : SearchResult iterator -> hPropI V) : in_order (values_of T) -> root_ bt = root_loc T ->
  own ht T -∗ (∀ r, ⟦located k ht T r⟧ -∗ own ht T -∗ Φ r) -∗ wp (internal_locate bt k) Φ.
Proof.
  intros Hord Hroot. iIntros "H HΦ". iApply wp_bind. iApply (own_fuel with "H"). iIntros (f) "%Hf H". rewrite Hroot.
  iEval (rewrite own_root) in "H". iApply (wp_locate_loop with "H"); [done|done|done|done| |].
  { unfold head_after. by destruct key_compare. }
  iIntros (r) "%Hr H". iApply ("HΦ" with "[] [H]"); [by iPureIntro|by rewrite own_root].
Qed.

(** Where the key is not, and where it is. *)
Lemma after_not_same k ys : Forall (λ v, after_key k v = true) ys -> Forall (λ v, ¬ same_key k v) ys.
Proof using Type. intros H. eapply Forall_impl; [exact H|]. intros v Hv [_ H']. cbn in Hv. congruence. Qed.
Lemma before_not_same k ys : Forall (λ v, before_key k v = true) ys -> Forall (λ v, ¬ same_key k v) ys.
Proof using Type. intros H. eapply Forall_impl; [exact H|]. intros v Hv [H' _]. cbn in Hv. congruence. Qed.

Lemma in_order_around k xs y ys : can_have_multiple_equivalent_keys = false -> in_order (xs ++ y :: ys) -> same_key k y ->
  Forall (λ v, before_key k v = true) xs /\ Forall (λ v, before_key k v = false) (y :: ys).
Proof.
  intros Hu Hord [Hb Ha]. unfold in_order, before_key, after_key in *. rewrite Hu in Hord. apply SS_app in Hord as (_ & Hord & Hx).
  apply StronglySorted_inv in Hord as [_ Hys]. split.
  - eapply Forall_impl; [exact Hx|]. intros v [Hv _]%Forall_cons. destruct (key_lt_cotrans _ _ k Hv) as [H|H]; congruence.
  - constructor; [done|]. eapply Forall_impl; [exact Hys|]. intros v Hv. cbn in Hv. apply not_true_is_false. intros Hk.
    rewrite (key_lt_trans _ _ _ Hv Hk) in Hb. done.
Qed.

(** The end of [internal_find]. *)
Definition found k (ht : nat) T (r : iterator) : Prop :=
  (node_ r = None /\ Forall (λ v, ¬ same_key k v) (values_of T)) \/
  (exists xs y ys, iter_at ht T r xs (y :: ys) /\ same_key k y).

Lemma wp_internal_find bt ht T k (Φ : iterator -> hPropI V) : in_order (values_of T) -> root_ bt = root_loc T ->
  own ht T -∗ (∀ r, ⟦found k ht T r⟧ -∗ own ht T -∗ Φ r) -∗ wp (internal_find bt k) Φ.
Proof.
  intros Hord Hroot. iIntros "H HΦ". iApply wp_bind. iApply (wp_internal_locate with "H"); [done|done|].
  iIntros ([it m]) "%Hr H". unfold HasMatch, IsEq. cbn [result_match result_value].
  destruct Hr as [(xs & y & ys & Hm & Hit & Hsame)|(xs & ys & Hm & Hit & Hxs & Hys & Hkne)]; cbn [result_match result_value] in *.
  - rewrite Hm. iApply wp_ret. iApply ("HΦ" with "[] H"). iPureIntro. right. by exists xs, y, ys.
  - destruct m as [[]|]; [done| |].
    + iApply wp_ret. iApply ("HΦ" with "[] H"). iPureIntro. left. split; [done|]. rewrite (leaf_at_values _ _ _ _ _ Hit).
      apply Forall_app. split; [by apply before_not_same|by apply after_not_same, Hkne].
    + iApply wp_bind. iApply (wp_internal_last with "H"); [done|]. iIntros (r) "%Hlast H".
      iApply wp_bind. iApply (wp_holds_key with "H"); [done|]. iIntros "H". iApply wp_ret. iApply ("HΦ" with "[] H"). iPureIntro.
      pose proof (leaf_at_values _ _ _ _ _ Hit) as Hval. destruct ys as [|y ys].
      * left. split; [done|]. rewrite Hval app_nil_r. by apply before_not_same.
      * destruct (after_key k y) eqn:Ey; cbn [negb].
        -- left. split; [done|]. rewrite Hval. apply Forall_app. split; [by apply before_not_same|].
           apply after_not_same. rewrite Hval in Hord. by eapply head_all_after.
        -- right. destruct Hlast as [[? _]|[_ Hlast]]; [done|]. exists xs, y, ys. split; [done|].
           split; [by apply Forall_cons in Hys as [? _]|done].
Qed.

(** *** The descents to a bound *)

Lemma wp_lower_loop k lm ht t ctx fuel b (Φ : SearchResult iterator -> hPropI V) : lm = leftmost_loc (plug t ctx) ->
  (ht < fuel)%nat -> in_order (values_of (plug t ctx)) ->
  Forall (λ v, before_key k v = true) (before ctx) -> Forall (λ v, before_key k v = false) (after ctx) ->
  focus lm ht t ctx -∗
  (∀ r xs ys, ⟦last_of (length ctx + ht) (plug t ctx) (result_value r) xs ys /\ values_of (plug t ctx) = xs ++ ys /\
     Forall (λ v, before_key k v = true) xs /\ Forall (λ v, before_key k v = false) ys⟧ -∗
   own (length ctx + ht) (plug t ctx) -∗ Φ r) -∗ wp (lower_loop fuel k (root_loc t) b) Φ.
Proof.
  intros ->. revert t ctx fuel b Φ. induction ht as [|ht IH]; intros t ctx [|fuel] b Φ Hf Hord Hbef Haft; try lia; cbn [lower_loop];
    iIntros "H HΦ"; iDestruct (focus_count with "H") as "[%Hc H]"; destruct Hc as (Hmax & Hwf & Hctx);
    pose proof (in_order_node _ _ _ Hwf Hctx Hord) as Hnode; pose proof (downward_before k _ Hnode) as Hd;
    pose proof slots_max_Z as Hm; iApply wp_bind; (iApply (wp_at_lower_bound with "H"); [done|]); iIntros "H";
    unfold IsEq, HasMatch; cbn [result_match result_value]; iApply wp_bind; iApply (wp_at_is_leaf with "H"); iIntros "H"; cbn [Nat.eqb];
    destruct t as [l cap vs ts]; cbn [node_values root_loc] in *; pose proof (prefix_len_le (before_key k) vs) as Hn;
    destruct (prefix_len_split _ _ Hd) as [Htake Hdrop].
  - assert (ts = []) as -> by apply Hwf. set (n := prefix_len (before_key k) vs) in *.
    iDestruct (focus_own (length ctx + 0) with "H") as "H"; [done|done|done|].
    assert (leaf_at (length ctx + 0) (plug (Tree l cap vs []) ctx) (mkIterator (Some l) (Z.of_nat n)) (before ctx ++ take n vs) (drop n vs ++ after ctx)) as Hleaf.
    { exists ctx, l, cap, (take n vs), (drop n vs). rewrite take_drop length_take Nat.min_l; [|done]. split_and!; try done; lia. }
    assert (forall m, (∀ r xs ys, ⟦last_of (length ctx + 0) (plug (Tree l cap vs []) ctx) (result_value r) xs ys /\
       values_of (plug (Tree l cap vs []) ctx) = xs ++ ys /\ Forall (λ v, before_key k v = true) xs /\ Forall (λ v, before_key k v = false) ys⟧ -∗
       own (length ctx + 0) (plug (Tree l cap vs []) ctx) -∗ Φ r) -∗ own (length ctx + 0) (plug (Tree l cap vs []) ctx) -∗
       wp (let! it := internal_last (mkIterator (Some l) (Z.of_nat n)) in ret (mkSearchResult it m)) Φ) as Hlast.
    { intros m. iIntros "HΦ H". iApply wp_bind. iApply (wp_internal_last with "H"); [done|]. iIntros (r) "%Hr H". iApply wp_ret.
      iApply ("HΦ" with "[] H"). iPureIntro. split_and!; [done|by apply (leaf_at_values _ _ _ _ _ Hleaf)|by apply Forall_app..]. }
    destruct (lower_match vs k n) as [[]|] eqn:Em; [|by iApply (Hlast with "HΦ H")..].
    apply lower_match_same in Em as (v & Hv & Hsame). iApply wp_ret. iApply ("HΦ" $! _ (before ctx ++ take n vs) (drop n vs ++ after ctx) with "[] H"). iPureIntro.
    split_and!; [|by apply (leaf_at_values _ _ _ _ _ Hleaf)|by apply Forall_app..]. right. rewrite (drop_S _ _ _ Hv). split; [done|].
    exists ctx, (Tree l cap (take n vs ++ drop n vs) []), n, O. rewrite -(drop_S _ _ _ Hv). pose proof (cursor_leaf ctx l cap (take n vs) (drop n vs)) as Hcur.
    rewrite length_take Nat.min_l in Hcur; [|done]. split_and!; [by rewrite take_drop|done|done|done|done|].
    intros _. cbn. rewrite take_drop. by apply lookup_lt_Some in Hv.
  - destruct (inner_child ht l cap vs ts _ Hwf Hn) as (tc & c & Htc & Hg & Hc & Hl & HA & HB & HlA). rewrite -HA in Htake. rewrite -HB in Hdrop.
    iApply wp_bind. rewrite field_id; [|lia]. iApply (wp_at_child _ _ (Tree l cap vs ts) with "H"); [lia|done|]. iIntros "H".
    rewrite Hg in Hord |- *. destruct (descend _ _ _ _ Hc Hctx (downward_before k _ Hord) Htake Hdrop Hbef Haft) as [Hbef' Haft'].
    iDestruct (focus_down' with "H") as "H"; [done|]. rewrite Nat.add_succ_r.
    iApply (IH tc (c :: ctx) with "H HΦ"); [lia|done|done|done].
Qed.

Lemma wp_upper_loop k lm ht t ctx fuel (P := λ v, negb (after_key k v)) (Φ : iterator -> hPropI V) : lm = leftmost_loc (plug t ctx) ->
  (ht < fuel)%nat -> in_order (values_of (plug t ctx)) ->
  Forall (λ v, P v = true) (before ctx) -> Forall (λ v, P v = false) (after ctx) ->
  focus lm ht t ctx -∗
  (∀ r xs ys, ⟦last_of (length ctx + ht) (plug t ctx) r xs ys /\ values_of (plug t ctx) = xs ++ ys /\
     Forall (λ v, P v = true) xs /\ Forall (λ v, P v = false) ys⟧ -∗
   own (length ctx + ht) (plug t ctx) -∗ Φ r) -∗ wp (upper_loop fuel k (root_loc t)) Φ.
Proof.
  intros ->. revert t ctx fuel Φ. induction ht as [|ht IH]; intros t ctx [|fuel] Φ Hf Hord Hbef Haft; try lia; cbn [upper_loop];
    iIntros "H HΦ"; iDestruct (focus_count with "H") as "[%Hc H]"; destruct Hc as (Hmax & Hwf & Hctx);
    pose proof (in_order_node _ _ _ Hwf Hctx Hord) as Hnode; pose proof (downward_not_after k _ Hnode) as Hd;
    pose proof slots_max_Z as Hm; iApply wp_bind; (iApply (wp_at_upper_bound with "H"); [done|]); iIntros "H"; fold P in Hd |- *;
    iApply wp_bind; iApply (wp_at_is_leaf with "H"); iIntros "H"; cbn [Nat.eqb];
    destruct t as [l cap vs ts]; cbn [node_values root_loc] in *; pose proof (prefix_len_le P vs) as Hn;
    destruct (prefix_len_split _ _ Hd) as [Htake Hdrop].
  - assert (ts = []) as -> by apply Hwf. set (n := prefix_len P vs) in *.
    iDestruct (focus_own (length ctx + 0) with "H") as "H"; [done|done|done|].
    assert (leaf_at (length ctx + 0) (plug (Tree l cap vs []) ctx) (mkIterator (Some l) (Z.of_nat n)) (before ctx ++ take n vs) (drop n vs ++ after ctx)) as Hleaf.
    { exists ctx, l, cap, (take n vs), (drop n vs). rewrite take_drop length_take Nat.min_l; [|done]. split_and!; try done; lia. }
    iApply (wp_internal_last with "H"); [done|]. iIntros (r) "%Hr H".
    iApply ("HΦ" with "[] H"). iPureIntro. split_and!; [done|by apply (leaf_at_values _ _ _ _ _ Hleaf)|by apply Forall_app..].
  - destruct (inner_child ht l cap vs ts _ Hwf Hn) as (tc & c & Htc & Hg & Hc & Hl & HA & HB & HlA). rewrite -HA in Htake. rewrite -HB in Hdrop.
    iApply wp_bind. rewrite field_id; [|lia]. iApply (wp_at_child _ _ (Tree l cap vs ts) with "H"); [lia|done|]. iIntros "H".
    rewrite Hg in Hord |- *. destruct (descend P _ _ _ Hc Hctx (downward_not_after k _ Hord) Htake Hdrop Hbef Haft) as [Hbef' Haft'].
    iDestruct (focus_down' with "H") as "H"; [done|]. rewrite Nat.add_succ_r.
    iApply (IH tc (c :: ctx) with "H HΦ"); [lia|done|done|done].
Qed.
End lookup.
