(* ===== verification/BtreePair.v ===== *)
(** * BtreePair: two siblings (lemmas for Btree.v)

    Rebalancing, splitting and merging keep the order of the values, hence also
    the position of an iterator, when it is counted through the two siblings and
    the value between them: [pre] and [post] are what is before and after a
    position of a node. *)

From S2P Require Import Prelude.
From S2P Require Import BtreeNode.
From S2P Require Import Btree.
From S2P Require Import HeapLogic.
From S2P Require Import BtreeTree.
From S2P Require Import BtreeFree.
From S2P Require Import BtreeMove.
From S2P Require Import BtreeZip.
From S2P Require Import BtreeSearch.
From S2P Require Import BtreeLookup.
From iris.proofmode Require Import proofmode.

Import btree_node.
Import btree_iterator.
Import btree.
#[local] Open Scope Z_scope.
#[local] Open Scope cpp_scope.

Lemma tree_list_ind {V} (P : tree V -> Prop) : (forall l cap vs ts, Forall P ts -> P (Tree l cap vs ts)) -> forall t, P t.
Proof. intros HP. fix IH 1. intros [l cap vs ts]. apply HP. induction ts as [|t ts IHts]; constructor; [apply IH|done]. Qed.

Section positions.
Context {K V : Type} `{PB : BtreeParams K V} {LB : BtreeLaws K V} `{AL : Allocator} {FL : AllocatorLaws} {LK : KeyLaws K V}.
Implicit Types (t : tree V) (ts : list (tree V)) (vs A B xs ys : list V) (ctx : list (crumb V)) (v : V).

(** Around the position [i] of a leaf, or the [i]th child of an internal node. *)
Definition pre vs ts (i : nat) : list V := match ts with [] => take i vs | _ => lpart (take i ts) (take i vs) end.
Definition post vs ts (i : nat) : list V := match ts with [] => drop i vs | _ => rpart (drop i vs) (drop (S i) ts) end.

(** The node at height [ht] has as many children as it should. *)
Definition arity (ht : nat) vs ts : Prop := match ht with O => ts = [] | S _ => length ts = S (length vs) end.

Lemma lpart_full l cap vs ts v : length ts = S (length vs) -> lpart ts (vs ++ [v]) = values_of (Tree l cap vs ts) ++ [v].
Proof using Type.
  intros Hl. destruct ts as [|t ts _] using rev_ind; [done|]. rewrite length_app /= in Hl.
  rewrite lpart_app; [|lia]. rewrite -{2}(app_nil_r vs) elements_split; [|lia|done]. rewrite /lpart /rpart /=. by rewrite !app_nil_r assoc_L.
Qed.
Lemma rpart_full l cap vs ts v : length ts = S (length vs) -> rpart (v :: vs) ts = v :: values_of (Tree l cap vs ts).
Proof using Type.
  intros Hl. destruct ts as [|t ts]; [done|]. cbn in Hl. by rewrite -(app_nil_l vs) -(app_nil_l (t :: ts)) elements_split; [|done|cbn; lia].
Qed.

Lemma pre_inner vs ts i : ts ≠ [] -> pre vs ts i = lpart (take i ts) (take i vs).
Proof using Type. by destruct ts. Qed.
Lemma post_inner vs ts i : ts ≠ [] -> post vs ts i = rpart (drop i vs) (drop (S i) ts).
Proof using Type. by destruct ts. Qed.
Lemma arity_S ht vs ts : arity (S ht) vs ts -> ts ≠ [].
Proof using Type. by destruct ts. Qed.

(** Two siblings as one node, the value between them in the middle. *)
Lemma pre_left ht vsl tsl v vsr tsr i : arity ht vsl tsl -> arity ht vsr tsr -> (i <= length vsl)%nat ->
  pre (vsl ++ v :: vsr) (tsl ++ tsr) i = pre vsl tsl i.
Proof using Type.
  intros Hl Hr Hi. destruct ht as [|ht]; [cbn in Hl, Hr; subst; cbn; by rewrite take_app_le|].
  pose proof (arity_S _ _ _ Hl). cbn in Hl, Hr. rewrite !pre_inner //; [|by destruct tsl]. rewrite !take_app_le; [done|lia|lia].
Qed.
Lemma post_left ht vsl tsl v r capr vsr tsr i : arity ht vsl tsl -> arity ht vsr tsr -> (i <= length vsl)%nat ->
  post (vsl ++ v :: vsr) (tsl ++ tsr) i = post vsl tsl i ++ v :: values_of (Tree r capr vsr tsr).
Proof using Type.
  intros Hl Hr Hi. destruct ht as [|ht]; [cbn in Hl, Hr; subst; cbn; by rewrite drop_app_le|].
  pose proof (arity_S _ _ _ Hl). cbn in Hl, Hr. rewrite !post_inner //; [|by destruct tsl]. rewrite !drop_app_le; [|lia|lia].
  rewrite rpart_app; [|rewrite !length_drop; lia]. by rewrite (rpart_full r capr).
Qed.
Lemma pre_right ht l capl vsl tsl v vsr tsr j : arity ht vsl tsl -> arity ht vsr tsr -> (j <= length vsr)%nat ->
  pre (vsl ++ v :: vsr) (tsl ++ tsr) (S (length vsl) + j) = values_of (Tree l capl vsl tsl) ++ v :: pre vsr tsr j.
Proof using Type.
  intros Hl Hr Hj. rewrite (cons_middle v) assoc_L.
  assert (take (S (length vsl) + j) ((vsl ++ [v]) ++ vsr) = (vsl ++ [v]) ++ take j vsr) as Htk.
  { rewrite take_app_add'; [done|rewrite length_app /=; lia]. }
  destruct ht as [|ht]; [cbn in Hl, Hr; subst; unfold pre; cbn [app]; rewrite Htk; cbn; by rewrite -assoc_L|].
  pose proof (arity_S _ _ _ Hl). pose proof (arity_S _ _ _ Hr). cbn in Hl, Hr. rewrite !pre_inner //; [|by destruct tsl].
  rewrite Htk take_app_add'; [|lia]. rewrite lpart_app; [|rewrite length_app /=; lia]. rewrite (lpart_full l capl) // -assoc_L. done.
Qed.
Lemma post_right ht vsl tsl v vsr tsr j : arity ht vsl tsl -> arity ht vsr tsr -> (j <= length vsr)%nat ->
  post (vsl ++ v :: vsr) (tsl ++ tsr) (S (length vsl) + j) = post vsr tsr j.
Proof using Type.
  intros Hl Hr Hj. rewrite (cons_middle v) assoc_L.
  assert (drop (S (length vsl) + j) ((vsl ++ [v]) ++ vsr) = drop j vsr) as Hdr.
  { rewrite drop_app_add'; [done|rewrite length_app /=; lia]. }
  destruct ht as [|ht]; [cbn in Hl, Hr; subst; unfold post; cbn [app]; by rewrite Hdr|].
  pose proof (arity_S _ _ _ Hl). pose proof (arity_S _ _ _ Hr). cbn in Hl, Hr. rewrite !post_inner //; [|by destruct tsl].
  rewrite Hdr. replace (S (S (length vsl) + j)) with (S (length vsl) + S j)%nat by lia. by rewrite drop_app_add'; [|lia].
Qed.

(** The position [i] of the node [t] is between [xs] and [ys] of the whole tree,
    at the child [o]. *)
Definition spot t (i : nat) ctx xs ys (o : option (tree V)) : Prop :=
  match t with Tree _ _ vs ts =>
    before ctx ++ pre vs ts i = xs /\ post vs ts i ++ after ctx = ys /\ ts !! i = o /\ (i <= length vs)%nat
  end.

Lemma spot_left ht q A B TA TB ctx m cap l capl vsl tsl v r capr vsr tsr i xs ys o : arity ht vsl tsl -> arity ht vsr tsr ->
  (i <= length vsl)%nat ->
  spot (Tree m cap (vsl ++ v :: vsr) (tsl ++ tsr)) i (Crumb q A B TA TB :: ctx) xs ys o <->
  spot (Tree l capl vsl tsl) i (Crumb q A (v :: B) TA (Tree r capr vsr tsr :: TB) :: ctx) xs ys o.
Proof using Type.
  intros Hl Hr Hi. unfold spot. rewrite (pre_left ht) // (post_left ht _ _ _ r capr) // !before_cons !after_cons. cbn [c_left c_right t_left t_right].
  rewrite rpart_cons -!app_assoc /= -!app_assoc. assert ((tsl ++ tsr) !! i = tsl !! i) as ->.
  { destruct ht; cbn in Hl, Hr; [by subst|]. apply lookup_app_l. lia. }
  rewrite length_app /=. by repeat split; intros; destruct_and?; try lia.
Qed.
Lemma spot_right ht q A B TA TB ctx m cap l capl vsl tsl v r capr vsr tsr j xs ys o : arity ht vsl tsl -> arity ht vsr tsr ->
  (j <= length vsr)%nat -> length TA = length A ->
  spot (Tree m cap (vsl ++ v :: vsr) (tsl ++ tsr)) (S (length vsl) + j) (Crumb q A B TA TB :: ctx) xs ys o <->
  spot (Tree r capr vsr tsr) j (Crumb q (A ++ [v]) B (TA ++ [Tree l capl vsl tsl]) TB :: ctx) xs ys o.
Proof using Type.
  intros Hl Hr Hj HA. unfold spot. rewrite (pre_right ht l capl) // (post_right ht) // !before_cons !after_cons. cbn [c_left c_right t_left t_right].
  rewrite lpart_app // lpart_rpart -!app_assoc /=. assert (forall k, (tsl ++ tsr) !! (S (length vsl) + k)%nat = tsr !! k) as Hk.
  { intros k. destruct ht; cbn in Hl, Hr; [by subst|]. rewrite lookup_app_r; [|lia]. by replace (S (length vsl) + k - length tsl)%nat with k by lia. }
  rewrite Hk length_app /=. by repeat split; intros; destruct_and?; try lia.
Qed.
Lemma spot_graft t c ctx : crumb_ok c -> spot (graft t c) (length (c_left c)) ctx (before (c :: ctx)) (after (c :: ctx)) (Some t).
Proof using Type.
  intros [Hl Hr]. unfold graft, spot. rewrite pre_inner; [|by destruct (t_left c)]. rewrite post_inner; [|by destruct (t_left c)].
  assert (drop (S (length (c_left c))) (t_left c ++ t :: t_right c) = t_right c) as ->.
  { rewrite (cons_middle t) assoc_L. apply drop_app_length'. rewrite length_app /=. lia. }
  rewrite take_app_length (take_app_length' (t_left c)) // drop_app_length before_cons after_cons.
  split_and!; [done|done|by apply list_lookup_middle|rewrite length_app; lia].
Qed.
(** Back to the child. *)
Lemma spot_child ht t i ctx xs ys t' : tree_wf (S ht) t -> spot t i ctx xs ys (Some t') ->
  exists c, crumb_ok c /\ graft t' c = t /\ length (c_left c) = i /\ before (c :: ctx) = xs /\ after (c :: ctx) = ys.
Proof.
  destruct t as [l cap vs ts]. intros Hwf (Hx & Hy & Hi & Hle). destruct (tree_wf_ok _ _ _ _ _ Hwf) as (_ & -> & Hlen).
  assert (ts ≠ []) as Hts by by destruct ts. rewrite pre_inner // in Hx. rewrite post_inner // in Hy.
  exists (Crumb l (take i vs) (drop i vs) (take i ts) (drop (S i) ts)). unfold graft, crumb_ok. cbn [c_loc c_left c_right t_left t_right].
  rewrite before_cons after_cons /= take_drop (take_drop_middle _ _ _ Hi) !length_take !length_drop. split_and!; try done; lia.
Qed.

(** *** The ends of the tree *)

Lemma leftmost_loc_head l cap vs ts : leftmost_loc (Tree l cap vs ts) = match head ts with Some t => leftmost_loc t | None => l end.
Proof using Type. by destruct ts. Qed.
Lemma rightmost_loc_last l cap vs ts : rightmost_loc (Tree l cap vs ts) = match last ts with Some t => rightmost_loc t | None => l end.
Proof using Type. destruct ts as [|t ts _] using rev_ind; [done|]. by rewrite rightmost_loc_snoc last_snoc. Qed.

(** The root, the leftmost and the rightmost leaf are the same. *)
Definition same_ends t t' : Prop := root_loc t = root_loc t' /\ leftmost_loc t = leftmost_loc t' /\ rightmost_loc t = rightmost_loc t'.

Lemma last_app_cons {X} (l k : list X) x : last (l ++ x :: k) = last (x :: k).
Proof using Type. by rewrite last_app last_cons; destruct (last k). Qed.
Lemma head_app_cons {X} (l k k' : list X) x : head (l ++ x :: k) = head (l ++ x :: k').
Proof using Type. by destruct l. Qed.
Lemma last_drop_lt {X} (l : list X) n : (n < length l)%nat -> last (drop n l) = last l.
Proof using Type.
  intros Hn. rewrite -{2}(take_drop n l). destruct (drop n l) as [|x k] eqn:E; [|by rewrite last_app_cons].
  apply (f_equal length) in E. rewrite length_drop in E. cbn in E. lia.
Qed.

Lemma same_ends_plug t t' ctx : same_ends t t' -> same_ends (plug t ctx) (plug t' ctx).
Proof using Type.
  revert t t'. induction ctx as [|c ctx IH]; intros t t' (Ht & Hl & Hr); [by split_and!|]. cbn [plug]. apply IH. split_and!; [done| |].
  - rewrite !leftmost_loc_head. by destruct (t_left c).
  - rewrite !rightmost_loc_last !last_app_cons !last_cons. by destruct (last (t_right c)).
Qed.
Lemma same_ends_siblings q cap vs cap' vs' TA TB l capl vsl tsl r capr vsr tsr capl' vsl' tsl' capr' vsr' tsr' :
  head tsl = head tsl' -> last tsr = last tsr' ->
  same_ends (Tree q cap vs (TA ++ Tree l capl vsl tsl :: Tree r capr vsr tsr :: TB)) (Tree q cap' vs' (TA ++ Tree l capl' vsl' tsl' :: Tree r capr' vsr' tsr' :: TB)).
Proof using Type.
  intros Hl Hr. split_and!; [done| |].
  - rewrite !(leftmost_loc_head q). destruct TA; [|done]. cbn [head app]. by rewrite !leftmost_loc_head Hl.
  - rewrite !(rightmost_loc_last q) !last_app_cons !last_cons. destruct (last TB); [done|]. by rewrite !rightmost_loc_last Hr.
Qed.
(** One node becomes two, or two one. *)
Lemma same_ends_split q cap vs cap' vs' TA TB l capl vsl tsl capm vsm tsm r capr vsr tsr : head tsl = head tsm ->
  (TB = [] -> rightmost_loc (Tree l capm vsm tsm) = rightmost_loc (Tree r capr vsr tsr)) ->
  same_ends (Tree q cap vs (TA ++ Tree l capm vsm tsm :: TB)) (Tree q cap' vs' (TA ++ Tree l capl vsl tsl :: Tree r capr vsr tsr :: TB)).
Proof using Type.
  intros Hl Hr. split_and!; [done| |].
  - rewrite !(leftmost_loc_head q). destruct TA; [|done]. cbn [head app]. by rewrite !leftmost_loc_head Hl.
  - rewrite !(rightmost_loc_last q) !last_app_cons !last_cons. destruct TB as [|t TB _] using rev_ind; [by apply Hr|]. by rewrite last_snoc.
Qed.
Lemma rightmost_plug_end t ctx : Forall right_end ctx -> rightmost_loc (plug t ctx) = rightmost_loc t.
Proof using Type.
  intros H. revert t. induction H as [|c ctx [Hc Ht] _ IH]; intros t; [done|]. cbn [plug]. by rewrite IH Ht rightmost_loc_snoc.
Qed.

(** The addresses above a node. *)
Definition ctx_locs ctx : list loc := mjoin ((λ c, c_loc c :: mjoin (locs <$> t_left c) ++ mjoin (locs <$> t_right c)) <$> ctx).
Lemma locs_plug t ctx : locs (plug t ctx) ≡ₚ locs t ++ ctx_locs ctx.
Proof using Type.
  revert t. induction ctx as [|c ctx IH]; intros t; [by rewrite right_id_L|]. cbn [plug]. rewrite IH. cbn [locs].
  rewrite fmap_app fmap_cons join_app /=. unfold ctx_locs. cbn. solve_Permutation.
Qed.
Lemma root_plug_in t c ctx : root_loc (plug t (c :: ctx)) ∈ ctx_locs (c :: ctx).
Proof using Type.
  revert t c. induction ctx as [|c' ctx IH]; intros t c; [by apply list_elem_of_here|]. cbn [plug]. specialize (IH (graft t c) c').
  unfold graft in IH. cbn [plug] in IH. unfold ctx_locs in *. rewrite fmap_cons. cbn [mjoin list_join]. apply elem_of_app. by right.
Qed.
Lemma rightmost_loc_in t : rightmost_loc t ∈ locs t.
Proof using Type.
  induction t as [l cap vs ts IH] using tree_list_ind. cbn [locs]. rewrite rightmost_loc_last. apply elem_of_cons.
  destruct (last ts) as [t|] eqn:E; [right|by left]. apply last_Some_elem_of in E. apply list_elem_of_join.
  exists (locs t). split; [by eapply Forall_forall in IH|]. by apply list_elem_of_fmap_2.
Qed.
Lemma rightmost_plug_in t ctx : Forall crumb_ok ctx -> ~ Forall right_end ctx -> rightmost_loc (plug t ctx) ∈ ctx_locs ctx.
Proof using Type.
  revert t. induction ctx as [|c ctx IH]; intros t Hok Hend; [by destruct Hend|]. apply Forall_cons in Hok as [[_ Hc] Hok].
  cbn [plug]. unfold ctx_locs. rewrite fmap_cons. cbn [mjoin list_join]. apply elem_of_app.
  destruct (decide (t_right c = [])) as [Ht|Ht].
  - right. apply IH; [done|]. intros H. apply Hend. constructor; [|done]. split; [|done]. rewrite Ht in Hc. by destruct (c_right c).
  - destruct (decide (Forall right_end ctx)) as [He|He].
    + left. rewrite rightmost_plug_end // rightmost_loc_last last_app_cons last_cons. destruct (last (t_right c)) as [t'|] eqn:E.
      * apply list_elem_of_further, elem_of_app. right. apply list_elem_of_join. exists (locs t'). split; [apply rightmost_loc_in|].
        apply list_elem_of_fmap_2. by apply last_Some_elem_of.
      * by apply last_None in E.
    + right. by apply IH.
Qed.

(** *** Nodes with values and all their slots *)

Inductive good : tree V -> Prop :=
  | Good l cap vs ts : vs ≠ [] -> capacity cap = slots_max -> Forall good ts -> good (Tree l cap vs ts).
Definition crumb_good (c : crumb V) : Prop := c_left c ++ c_right c ≠ [] /\ Forall good (t_left c ++ t_right c).

Lemma good_inv l cap vs ts : good (Tree l cap vs ts) -> vs ≠ [] /\ capacity cap = slots_max /\ Forall good ts.
Proof using Type. by inversion 1. Qed.
Lemma good_iff t : good t <-> full t /\ roomy t.
Proof using Type.
  induction t as [l cap vs ts IH] using tree_list_ind.
  assert (Forall good ts <-> Forall full ts /\ Forall roomy ts) as Hts.
  { induction IH as [|t ts Ht _ IHts]; [done|]. rewrite !Forall_cons IHts Ht. naive_solver. }
  split.
  - intros (Hv & Hc & Ht)%good_inv. apply Hts in Ht as [H1 H2]. by split; constructor.
  - intros [Hf Hr]. inversion Hf; subst. inversion Hr; subst. constructor; [done|done|]. by apply Hts.
Qed.
Lemma good_plug t ctx : good (plug t ctx) <-> good t /\ Forall crumb_good ctx.
Proof using Type.
  revert t. induction ctx as [|c ctx IH]; intros t; [by split; [|intros []]|]. cbn [plug]. rewrite IH Forall_cons. unfold crumb_good.
  rewrite Forall_app. split.
  - intros [(Hv & _ & [Hl [Ht Hr]%Forall_cons]%Forall_app)%good_inv Hctx]. by split_and!.
  - intros (Ht & (Hv & Hl & Hr) & Hctx). split; [|done]. constructor; [done|done|]. apply Forall_app. split; [done|]. by constructor.
Qed.
End positions.

(** ** Moving values between siblings *)

Section pair.
Context {K V : Type} `{PB : BtreeParams K V} {LB : BtreeLaws K V} `{AL : Allocator} {FL : AllocatorLaws}.
Implicit Types (t L R : tree V) (ts TA TB : list (tree V)) (vs A B xs ys : list V) (ctx : list (crumb V)) (v w : V).

Definition pair_ok ht (l r : loc) A v B TA TB (qarr : list (option loc)) : Prop :=
  length TA = length A /\ length TB = length B /\ length qarr = S slots_max /\ (length (A ++ v :: B) <= slots_max)%nat /\
  children_at 0 ((root_loc <$> TA) ++ l :: r :: (root_loc <$> TB)) qarr /\ (0 <= ht)%nat.

Lemma focus_siblings lm ht L R q A v B TA TB ctx :
  focus lm ht L (Crumb q A (v :: B) TA (R :: TB) :: ctx) ⊣⊢
  ∃ qarr, ⟦pair_ok ht (root_loc L) (root_loc R) A v B TA TB qarr⟧ ∗
    inner q (ctx_parent lm ctx) (ctx_pos ctx) (A ++ v :: B) qarr ∗ kids ht q 0 TA ∗
    own_tree ht q (Z.of_nat (length A)) L ∗ own_tree ht q (Z.of_nat (S (length A))) R ∗ kids ht q (S (S (length A))) TB ∗
    own_ctx lm (S ht) q ctx.
Proof using Type.
  unfold focus. cbn [own_ctx ctx_parent ctx_pos c_loc c_left]. unfold own_crumb. cbn [c_loc c_left c_right t_left t_right]. iSplit.
  - iIntros "(HL & (%qarr & %Hq & Hi & HA & HB) & Hctx)". rewrite kids_cons. iDestruct "HB" as "[HR HB]". iExists qarr. iFrame.
    iPureIntro. destruct Hq as (Hq & Hm & [H1 H2] & Hat). cbn in *. split_and!; try done; lia.
  - iIntros "(%qarr & %Hq & Hi & HA & HL & HR & HB & Hctx)". iFrame "HL Hctx". iExists qarr. rewrite kids_cons. iFrame.
    iPureIntro. destruct Hq as (H1 & H2 & Hq & Hm & Hat & _). split_and!; try done. split; cbn; lia.
Qed.

Lemma focus_other lm ht L R q A v B TA TB ctx :
  focus lm ht R (Crumb q (A ++ [v]) B (TA ++ [L]) TB :: ctx) ⊣⊢ focus lm ht L (Crumb q A (v :: B) TA (R :: TB) :: ctx).
Proof using Type.
  assert (plug R (Crumb q (A ++ [v]) B (TA ++ [L]) TB :: ctx) = plug L (Crumb q A (v :: B) TA (R :: TB) :: ctx)) as Hp.
  { cbn [plug c_loc c_left c_right t_left t_right]. by rewrite -!assoc_L. }
  iSplit; iIntros "H"; iDestruct (focus_crumb_ok with "H") as "[%Hok H]"; destruct Hok as [[[Hl Hr] Hctx]%Forall_cons _]; cbn in Hl, Hr;
    (iApply (focus_move with "H"); [done|done|]); (constructor; [|done]); split; cbn in *; rewrite ?length_app /= in Hl |- *; lia.
Qed.

Lemma wp_at_right_to_left lm ht q A v B TA TB ctx l capl vsl tsl r capr xs w ys tsr tm (Φ : unit -> hPropI V) :
  tm = Z.of_nat (S (length xs)) -> (length vsl <= length (xs ++ w :: ys))%nat -> (length vsl + S (length xs) <= capacity capl)%nat ->
  focus lm ht (Tree l capl vsl tsl) (Crumb q A (v :: B) TA (Tree r capr (xs ++ w :: ys) tsr :: TB) :: ctx) -∗
  (focus lm ht (Tree l capl (vsl ++ v :: xs) (tsl ++ take (S (length xs)) tsr))
     (Crumb q A (w :: B) TA (Tree r capr ys (drop (S (length xs)) tsr) :: TB) :: ctx) -∗ Φ tt) -∗
  wp (rebalance_right_to_left l tm r) Φ.
Proof.
  intros Htm Hle Hcap. rewrite !focus_siblings. iIntros "(%qarr & %Hq & Hi & HA & HL & HR & HB & Hctx) HΦ".
  destruct Hq as (H1 & H2 & Hq & Hm & Hat & H0).
  iApply (wp_rebalance_right_to_left with "Hi HL HR"); [done|done|done|done|done|]. iIntros "Hi HL HR". iApply "HΦ".
  iExists qarr. iFrame. iPureIntro. unfold pair_ok. rewrite !length_app /= in Hm |- *. split_and!; done || lia.
Qed.

Lemma wp_at_left_to_right lm ht q A v B TA TB ctx l capl xs w ys tsl r capr vsr tsr tm (Φ : unit -> hPropI V) :
  tm = Z.of_nat (S (length ys)) -> (length vsr <= length (xs ++ w :: ys))%nat -> (length vsr + S (length ys) <= capacity capr)%nat ->
  focus lm ht (Tree l capl (xs ++ w :: ys) tsl) (Crumb q A (v :: B) TA (Tree r capr vsr tsr :: TB) :: ctx) -∗
  (focus lm ht (Tree l capl xs (take (S (length xs)) tsl))
     (Crumb q A (w :: B) TA (Tree r capr (ys ++ v :: vsr) (drop (S (length xs)) tsl ++ tsr) :: TB) :: ctx) -∗ Φ tt) -∗
  wp (rebalance_left_to_right l tm r) Φ.
Proof.
  intros Htm Hle Hcap. rewrite !focus_siblings. iIntros "(%qarr & %Hq & Hi & HA & HL & HR & HB & Hctx) HΦ".
  destruct Hq as (H1 & H2 & Hq & Hm & Hat & H0).
  iApply (wp_rebalance_left_to_right with "Hi HL HR"); [done|done|done|done|done|]. iIntros "Hi HL HR". iApply "HΦ".
  iExists qarr. iFrame. iPureIntro. unfold pair_ok. rewrite !length_app /= in Hm |- *. split_and!; done || lia.
Qed.

Lemma wp_at_split lm ht q A B TA TB ctx p cap xs w ys ts r rarr ins (Φ : unit -> hPropI V) :
  (length A + length B < slots_max)%nat -> length (xs ++ w :: ys) = slots_max -> capacity cap = slots_max ->
  Z.of_nat (length ys) = split_count ins kNodeSlots -> length rarr = child_slots cap ->
  focus lm ht (Tree p cap (xs ++ w :: ys) ts) (Crumb q A B TA TB :: ctx) -∗
  r ↦ mkNode q (Z.of_nat (S (length A))) 0 0 cap (replicate slots_max Raw) rarr -∗
  (focus lm ht (Tree p cap xs (take (S (length xs)) ts)) (Crumb q A (w :: B) TA (Tree r cap ys (drop (S (length xs)) ts) :: TB) :: ctx) -∗ Φ tt) -∗
  wp (split p ins r) Φ.
Proof.
  intros HA Hfull Hcap Hys Hrarr. rewrite focus_siblings. unfold focus at 1. cbn [own_ctx ctx_parent ctx_pos c_loc c_left root_loc].
  unfold own_crumb. cbn [c_loc c_left c_right t_left t_right]. iIntros "(Ht & (%qarr & %Hq & Hi & HA & HB) & Hctx) Hr HΦ".
  destruct Hq as (Hq & Hm & [H1 H2] & Hat). cbn in H1, H2. apply children_at_app in Hat as [HatA [Hatp HatB]%children_at_cons].
  rewrite length_fmap H1 in Hatp HatB.
  iApply (wp_split with "Hi Ht Hr HB"); [done|done|done|done|done|done|done|done|]. iIntros (qarr') "%Hq' Hi HL HR HB". iApply "HΦ".
  destruct Hq' as (Hlen & Hsame & HatB').
  iExists qarr'. iFrame. iPureIntro. unfold pair_ok. rewrite Hlen !length_app /=. split_and!; try (done || lia).
  apply children_at_app. rewrite length_fmap H1 /=. split.
  - intros j c Hj. rewrite Hsame; [by apply HatA|]. apply lookup_lt_Some in Hj. rewrite length_fmap in Hj. lia.
  - apply children_at_cons. split; [rewrite Hsame; [done|lia]|done].
Qed.

Lemma wp_at_merge lm ht q A v B TA TB ctx l capl vsl tsl r capr vsr tsr (Φ : unit -> hPropI V) :
  (length vsl + S (length vsr) <= capacity capl)%nat ->
  focus lm ht (Tree l capl vsl tsl) (Crumb q A (v :: B) TA (Tree r capr vsr tsr :: TB) :: ctx) -∗
  (focus lm ht (Tree l capl (vsl ++ v :: vsr) (tsl ++ tsr)) (Crumb q A B TA TB :: ctx) -∗ Φ tt) -∗
  wp (merge l r) Φ.
Proof.
  intros Hcap. rewrite focus_siblings. unfold focus. cbn [own_ctx ctx_parent ctx_pos c_loc c_left root_loc].
  unfold own_crumb. cbn [c_loc c_left c_right t_left t_right]. iIntros "(%qarr & %Hq & Hi & HA & HL & HR & HB & Hctx) HΦ".
  destruct Hq as (H1 & H2 & Hq & Hm & Hat & _). apply children_at_app in Hat as [HatA [Hatp HatB]%children_at_cons].
  rewrite length_fmap H1 in Hatp HatB.
  iApply (wp_merge with "Hi HL HR HB"); [done|done|done|done|done|]. iIntros (qarr') "%Hq' Hi HL HB". iApply "HΦ".
  destruct Hq' as (Hlen & Hsame & HatB'). iFrame. iPureIntro.
  rewrite Hlen. rewrite !length_app /= in Hm |- *. split_and!; try (done || lia).
  apply children_at_app. rewrite length_fmap H1 /=. split.
  - intros j c Hj. rewrite Hsame; [by apply HatA|]. apply lookup_lt_Some in Hj. rewrite length_fmap in Hj. lia.
  - apply children_at_cons. split; [rewrite Hsame; [done|lia]|done].
Qed.
End pair.

(** * making room in a full node (lemmas for Btree.v)

    [rebalance_or_split] keeps the sequence of the values and the position in
    it, and ends at a node with a free slot: [made_room]. Other nodes keep at
    least one value. *)

Import btree_node.
Import btree_iterator.
Import btree.
#[local] Open Scope Z_scope.
#[local] Open Scope cpp_scope.

Section grow.
Context {K V : Type} `{PB : BtreeParams K V} {LB : BtreeLaws K V} `{AL : Allocator} {FL : AllocatorLaws}.
Implicit Types (t T L R : tree V) (ts TA TB : list (tree V)) (vs A B xs ys : list V) (ctx : list (crumb V)) (v w : V) (bt : Btree.btree).

(** *** What is kept *)

(** The pointers of the container. *)
Definition tied bt (lm : loc) T : Prop := root_ bt = root_loc T /\ rightmost_ bt = rightmost_loc T /\ lm = leftmost_loc T.
Lemma tied_same bt lm T T' : same_ends T T' -> tied bt lm T -> tied bt lm T'.
Proof using Type. intros (H1 & H2 & H3) (E1 & E2 & E3). split_and!; congruence. Qed.

Definition node_ok t : Prop := match t with Tree _ cap _ ts => capacity cap = slots_max /\ Forall good ts end.
Lemma good_node_ok t : good t <-> node_values t ≠ [] /\ node_ok t.
Proof using Type.
  destruct t as [l cap vs ts]. split; [by intros (H1 & H2 & H3)%good_inv|]. intros (H1 & H2 & H3). by constructor.
Qed.

Definition made_room bt lm xs ys (o : option (tree V)) bt' t' ctx' (i' : nat) : Prop :=
  spot t' i' ctx' xs ys o /\ (length (node_values t') < slots_max)%nat /\ node_ok t' /\ Forall crumb_good ctx' /\
  tied bt' lm (plug t' ctx') /\ size_ bt' = size_ bt.

Lemma wf_arity ht l cap vs ts : tree_wf ht (Tree l cap vs ts) -> arity ht vs ts.
Proof using Type. intros Hwf. destruct ht, Hwf as [[_ Hok] _]; apply Hok. Qed.

Lemma pair_room ht bt bt' lm q A w B TA TB ctx l capl vsl tsl r capr vsr tsr m cap p xs ys o :
  arity ht vsl tsl -> arity ht vsr tsr -> length TA = length A ->
  spot (Tree m cap (vsl ++ w :: vsr) (tsl ++ tsr)) p (Crumb q A B TA TB :: ctx) xs ys o ->
  node_ok (Tree l capl vsl tsl) -> node_ok (Tree r capr vsr tsr) -> Forall good (TA ++ TB) -> Forall crumb_good ctx ->
  tied bt' lm (plug (Tree q 0 (A ++ w :: B) (TA ++ Tree l capl vsl tsl :: Tree r capr vsr tsr :: TB)) ctx) -> size_ bt' = size_ bt ->
  ((p <= length vsl)%nat -> vsr ≠ [] -> (length vsl < slots_max)%nat ->
     made_room bt lm xs ys o bt' (Tree l capl vsl tsl) (Crumb q A (w :: B) TA (Tree r capr vsr tsr :: TB) :: ctx) p) /\
  ((length vsl < p)%nat -> vsl ≠ [] -> (length vsr < slots_max)%nat ->
     made_room bt lm xs ys o bt' (Tree r capr vsr tsr) (Crumb q (A ++ [w]) B (TA ++ [Tree l capl vsl tsl]) TB :: ctx) (p - S (length vsl))).
Proof using Type.
  intros Hl Hr HA Hspot Hok1 Hok2 [HTA HTB]%Forall_app Hctx Htied Hsize. split; intros Hp Hne Hlen.
  - apply (spot_left ht _ _ _ _ _ _ _ _ l capl _ _ _ r capr) in Hspot; [|done..]. split_and!; try done.
    constructor; [|done]. split; [cbn; by destruct A|]. cbn. apply Forall_app. split; [done|]. constructor; [|done]. by apply good_node_ok.
  - pose proof (proj2 (proj2 (proj2 Hspot))) as Hle. rewrite length_app /= in Hle.
    replace p with (S (length vsl) + (p - S (length vsl)))%nat in Hspot by lia.
    apply (spot_right ht _ _ _ _ _ _ _ _ l capl _ _ _ r capr) in Hspot; [|done|done|lia|done]. split_and!; try done.
    + constructor; [|done]. split; [cbn; by destruct A|]. cbn. rewrite -assoc_L. apply Forall_app. split; [done|]. constructor; [|done]. by apply good_node_ok.
    + cbn [plug c_loc c_left c_right t_left t_right]. by rewrite -!assoc_L.
Qed.

(** *** Reading the parent *)
Section parent.
Context (lm : loc) (ht : nat) (t : tree V) (c : crumb V) (ctx : list (crumb V)).
Let F := focus lm ht t (c :: ctx).

#[local] Ltac up r := iIntros "H HΦ"; iDestruct (focus_step with "H") as "[%Hc H]"; iApply (r _ _ (graft t c) with "H"); iIntros "H"; iApply "HΦ"; by iApply focus_down'.
Lemma wp_up_start (Φ : Z -> hPropI V) : F -∗ (F -∗ Φ 0) -∗ wp (start (c_loc c)) Φ.
Proof. up wp_at_start. Qed.
Lemma wp_up_finish (Φ : Z -> hPropI V) : F -∗ (F -∗ Φ (count_of (graft t c))) -∗ wp (finish (c_loc c)) Φ.
Proof. up wp_at_finish. Qed.
Lemma wp_up_count (Φ : Z -> hPropI V) : F -∗ (F -∗ Φ (count_of (graft t c))) -∗ wp (count (c_loc c)) Φ.
Proof. up wp_at_count. Qed.

Lemma focus_bound : F ⊢ ⟦(length (c_left c) + length (c_right c) <= slots_max)%nat /\ crumb_ok c⟧ ∗ F.
Proof.
  iIntros "H". iDestruct (focus_step with "H") as "[%Hc H]". iDestruct (focus_count _ _ (graft t c) with "H") as "[%Hn H]".
  iSplitR; [|by iApply focus_down']. iPureIntro. destruct Hn as (Hn & _). cbn in Hn. by rewrite length_app in Hn.
Qed.
End parent.

Lemma wp_at_max_count lm ht t ctx (Φ : Z -> hPropI V) : node_ok t ->
  focus lm ht t ctx -∗ (focus lm ht t ctx -∗ Φ kNodeSlots) -∗ wp (max_count (root_loc t)) Φ.
Proof.
  intros Hok. iIntros "H HΦ". destruct t as [l cap vs ts], Hok as [Hcap _]. iDestruct (focus_node with "H") as (arr) "(%Hok & Hp & H)".
  destruct Hok as [Hok _]. iApply (wp_max_count with "Hp"). iIntros "Hp".
  assert ((if cap =? 0 then kNodeSlots else cap) = kNodeSlots) as ->.
  { pose proof slots_max_Z. unfold capacity in Hcap. destruct (Z.eqb_spec cap 0); [done|]. destruct Hok as [_ Hok]. destruct ht, Hok as [? _]; lia. }
  iApply "HΦ". by iApply "H".
Qed.

(** What the attempts to move values to a sibling give. *)
Definition attempt bt lm ht t c ctx xs ys o (r : option (loc * Z)) : hPropI V :=
  (⟦r = None⟧ ∗ focus lm ht t (c :: ctx)) ∨
  (∃ t' ctx' (i' : nat), ⟦r = Some (root_loc t', Z.of_nat i') /\ made_room bt lm xs ys o bt t' ctx' i'⟧ ∗ focus lm ht t' ctx').

Lemma split_at {X} (l : list X) n : (n < length l)%nat -> exists k x k', l = k ++ x :: k' /\ length k = n.
Proof using Type.
  intros Hn. destruct (lookup_lt_is_Some_2 l n Hn) as [x Hx]. exists (take n l), x, (drop (S n) l).
  rewrite take_drop_middle // length_take. split; [done|lia].
Qed.
Lemma snoc_crumb (c : crumb V) : crumb_ok c -> c_left c ≠ [] ->
  exists q A v B TA L TB, c = Crumb q (A ++ [v]) B (TA ++ [L]) TB /\ length TA = length A /\ length TB = length B.
Proof using Type.
  destruct c as [q cl B tl TB]. intros [Hl Hr] Hne. cbn in *. destruct cl as [|v A _] using rev_ind; [done|].
  destruct tl as [|L TA _] using rev_ind; rewrite !length_app /= in Hl; [lia|]. exists q, A, v, B, TA, L, TB. split_and!; [done|lia|lia].
Qed.
Lemma cons_crumb (c : crumb V) : crumb_ok c -> c_right c ≠ [] ->
  exists q A v B TA R TB, c = Crumb q A (v :: B) TA (R :: TB) /\ length TA = length A /\ length TB = length B.
Proof using Type.
  destruct c as [q A cr TA tr]. intros [Hl Hr] Hne. cbn in *. destruct cr as [|v B]; [done|]. destruct tr as [|R TB]; [done|].
  injection Hr as Hr. by exists q, A, v, B, TA, R, TB.
Qed.

(** The number of values to move, in [field_type]. *)
Lemma to_move_bounds c b : 0 <= c < kNodeSlots ->
  1 <= Z.max 1 (field ((kNodeSlots - c) / (1 + (if b : bool then 1 else 0)))) <= kNodeSlots - c.
Proof.
  intros Hc. assert (0 <= (kNodeSlots - c) / (1 + (if b then 1 else 0)) <= kNodeSlots - c) as Hd.
  { split; [apply Z.div_pos; destruct b; lia|]. apply Z.div_le_upper_bound; destruct b; lia. }
  rewrite field_id; [lia|]. lia.
Qed.

(** The children of [q] at two neighbouring positions. *)
Lemma wp_child_left lm ht L R q A v B TA TB ctx (Φ : loc -> hPropI V) :
  focus lm ht L (Crumb q A (v :: B) TA (R :: TB) :: ctx) -∗
  (focus lm ht L (Crumb q A (v :: B) TA (R :: TB) :: ctx) -∗ Φ (root_loc L)) -∗ wp (child q (Z.of_nat (length A))) Φ.
Proof. apply (wp_at_parent_child _ _ _ (Crumb q A (v :: B) TA (R :: TB))). Qed.
Lemma wp_child_right lm ht L R q A v B TA TB ctx (Φ : loc -> hPropI V) :
  focus lm ht L (Crumb q A (v :: B) TA (R :: TB) :: ctx) -∗
  (focus lm ht L (Crumb q A (v :: B) TA (R :: TB) :: ctx) -∗ Φ (root_loc R)) -∗ wp (child q (Z.of_nat (S (length A)))) Φ.
Proof.
  iIntros "H HΦ". iEval (rewrite -focus_other) in "H". replace (S (length A)) with (length (A ++ [v])) by (rewrite length_app /=; lia).
  iApply (wp_at_parent_child _ _ _ (Crumb q (A ++ [v]) B (TA ++ [L]) TB) with "H"). iIntros "H". iApply "HΦ". by rewrite focus_other.
Qed.

Lemma wp_rebalance_with_left lm ht t i c ctx xs ys o bt (Φ : option (loc * Z) -> hPropI V) :
  spot t i (c :: ctx) xs ys o -> length (node_values t) = slots_max -> good t -> Forall crumb_good (c :: ctx) ->
  tied bt lm (plug t (c :: ctx)) ->
  focus lm ht t (c :: ctx) -∗ (∀ r, attempt bt lm ht t c ctx xs ys o r -∗ Φ r) -∗
  wp (rebalance_with_left (root_loc t) (c_loc c) (Z.of_nat i)) Φ.
Proof.
  intros Hspot Hfull Hgood Hcg Htied. pose proof slots_max_Z as Hm. iIntros "H HΦ".
  assert (i <= slots_max)%nat as Hi by (destruct t; destruct Hspot as (_ & _ & _ & ?); cbn in *; lia).
  iDestruct (focus_bound with "H") as "[%Hb H]". destruct Hb as [Hb Hc].
  iApply wp_bind. iApply (wp_at_position with "H"). iIntros "H". cbn [ctx_pos]. iApply wp_bind. iApply (wp_up_start with "H"). iIntros "H".
  destruct (decide (c_left c = [])) as [Hl|Hl].
  { rewrite Hl /=. iApply wp_ret. iApply "HΦ". iLeft. by iFrame. }
  rewrite (proj2 (Z.ltb_lt _ _)); [|destruct (c_left c); [done|cbn; lia]].
  destruct (snoc_crumb c Hc Hl) as (q & A & v & B & TA & L & TB & -> & HA & HB). cbn [c_left c_right c_loc] in *.
  rewrite length_app /= in Hb. destruct t as [r capr vsr tsr], L as [l capl vsl tsl]. cbn [node_values] in Hfull.
  apply Forall_cons in Hcg as [[_ Hsib] Hcg]. cbn in Hsib. rewrite -assoc_L in Hsib. apply Forall_app in Hsib as [HTA [HL HTB]%Forall_cons].
  pose proof (proj1 (good_node_ok _) HL) as [HLne HLok]. pose proof (proj1 (good_node_ok _) Hgood) as [_ HRok].
  iEval (rewrite focus_other) in "H". rewrite length_app /=. replace (Z.of_nat (length A + 1) - 1) with (Z.of_nat (length A)) by lia. rewrite field_id; [|lia].
  iApply wp_bind. iApply (wp_child_left with "H"). iIntros "H". iApply wp_bind. iApply (wp_at_max_count with "H"); [done|]. iIntros "H".
  iApply wp_bind. iApply wp_check; [apply Z.eqb_refl|]. iApply wp_bind. iApply (wp_at_count with "H"). iIntros "H".
  unfold count_of. cbn [node_values]. cbn in HLne. iDestruct (focus_count with "H") as "[%Hcnt H]". destruct Hcnt as (HLm & HLwf & _). cbn in HLm.
  destruct (Z.ltb_spec (Z.of_nat (length vsl)) kNodeSlots) as [Hlt|Hge]; cycle 1.
  { iApply wp_ret. iApply "HΦ". iLeft. iEval (rewrite focus_other). by iFrame. }
  rewrite (field_id (Z.of_nat i)); [|lia]. set (tm := Z.max 1 _). pose proof (to_move_bounds (Z.of_nat (length vsl)) (Z.of_nat i <? kNodeSlots) ltac:(lia)) as Htm. fold tm in Htm.
  iEval (rewrite -focus_other) in "H". iApply wp_bind. iApply (wp_at_start _ _ (Tree r capr vsr tsr) with "H"). iIntros "H".
  iDestruct (focus_count with "H") as "[%Hcnt H]". destruct Hcnt as (_ & HRwf & _).
  destruct ((0 <=? Z.of_nat i - tm) || (Z.of_nat (length vsl) + tm <? kNodeSlots)) eqn:Ecase; cycle 1.
  { iApply wp_ret. iApply "HΦ". iLeft. by iFrame. }
  destruct (split_at vsr (Z.to_nat tm - 1)) as (xs' & w & ys' & -> & Hxs'); [lia|]. rewrite length_app /= in Hfull.
  assert (1 <= length vsl)%nat by (destruct vsl; [done|cbn; lia]).
  iEval (rewrite focus_other) in "H". iApply wp_bind. destruct HLok as [HcapL HgL], HRok as [HcapR HgR].
  iApply (wp_at_right_to_left with "H"); [lia|rewrite length_app /=; lia|lia|]. iIntros "H".
  (* the two nodes afterwards *)
  set (L' := Tree l capl (vsl ++ v :: xs') (tsl ++ take (S (length xs')) tsr)). set (R' := Tree r capr ys' (drop (S (length xs')) tsr)).
  iDestruct (focus_count with "H") as "[%Hcnt H]". destruct Hcnt as (_ & HLwf' & Hctxok).
  iEval (rewrite -focus_other) in "H". iDestruct (focus_count with "H") as "[%Hcnt H]". destruct Hcnt as (_ & HRwf' & _).
  apply (spot_right ht _ _ _ _ _ _ 1%positive 0 l capl vsl tsl v r capr) in Hspot; [|by eapply wf_arity|by eapply wf_arity|rewrite length_app /=; lia|done].
  rewrite (app_comm_cons xs') assoc_L -{1}(take_drop (S (length xs')) tsr) assoc_L in Hspot.
  assert (Forall good (TA ++ TB)) as HT by by apply Forall_app.
  edestruct (pair_room ht bt bt lm q A w B TA TB ctx l capl _ _ r capr _ _ _ _ _ _ _ _ (wf_arity _ _ _ _ _ HLwf') (wf_arity _ _ _ _ _ HRwf') HA Hspot) as [HroomL HroomR]; try done.
  { split; [done|]. apply Forall_app. split; [done|by apply Forall_take]. } { split; [done|by apply Forall_drop]. }
  { cbn [plug c_loc c_left c_right t_left t_right] in Htied. rewrite -!assoc_L in Htied. eapply tied_same, Htied. apply same_ends_plug, same_ends_siblings.
    - pose proof (wf_arity _ _ _ _ _ HLwf) as Ha1. destruct ht; cbn in Ha1; [|by destruct tsl].
      pose proof (wf_arity _ _ _ _ _ HRwf) as Ha2. cbn in Ha2. by subst.
    - pose proof (wf_arity _ _ _ _ _ HRwf) as Ha2. destruct ht; cbn in Ha2; [by subst; rewrite drop_nil|]. symmetry. apply last_drop_lt.
      rewrite length_app /= in Ha2. lia. }
  rewrite length_app /= in HroomL HroomR. assert (ys' ≠ []) as Hys by (intros ->; cbn in *; lia).
  iApply wp_bind. iApply (wp_at_max_count _ _ R' with "H"); [split; [done|by apply Forall_drop]|]. iIntros "H".
  iApply wp_bind. iApply (wp_at_count _ _ R' with "H"). iIntros "H". unfold count_of. cbn [node_values R'].
  iApply wp_bind. iApply wp_check; [apply Z.eqb_eq; lia|]. iApply wp_bind. iApply (wp_at_start _ _ R' with "H"). iIntros "H". iApply wp_bind.
  destruct (Z.ltb_spec (Z.of_nat i - tm) 0) as [Hneg|Hpos].
  - iEval (rewrite focus_other) in "H". iApply wp_bind. iApply (wp_at_count _ _ L' with "H"). iIntros "H". iApply wp_ret.
    unfold count_of. cbn [node_values L']. apply orb_prop in Ecase as [Ecase%Z.leb_le|Ecase%Z.ltb_lt]; [lia|].
    iApply wp_bind. iApply (wp_at_count _ _ L' with "H"). iIntros "H".
    iApply wp_bind. iApply (wp_at_max_count _ _ L' with "H"); [split; [done|]; apply Forall_app; split; [done|by apply Forall_take]|]. iIntros "H".
    unfold count_of. cbn [node_values L']. iApply wp_bind. iApply wp_check; [apply Z.ltb_lt; rewrite length_app /=; lia|]. iApply wp_ret. iApply "HΦ". iRight.
    iExists L', _, (S (length vsl) + i)%nat. iFrame. iPureIntro. split; [|apply HroomL; [lia|done|lia]]. do 2 f_equal. rewrite length_app /=. lia.
  - iApply wp_ret. iApply wp_bind. iApply (wp_at_count _ _ R' with "H"). iIntros "H".
    iApply wp_bind. iApply (wp_at_max_count _ _ R' with "H"); [split; [done|by apply Forall_drop]|]. iIntros "H".
    unfold count_of. cbn [node_values R']. iApply wp_bind. iApply wp_check; [apply Z.ltb_lt; lia|]. iApply wp_ret. iApply "HΦ". iRight.
    iExists R', _, _. iFrame "H". iPureIntro. split; [|apply HroomR; [lia|by destruct vsl|lia]]. do 2 f_equal. lia.
Qed.

Lemma wp_rebalance_with_right lm ht t i c ctx xs ys o bt (Φ : option (loc * Z) -> hPropI V) :
  spot t i (c :: ctx) xs ys o -> length (node_values t) = slots_max -> good t -> Forall crumb_good (c :: ctx) ->
  tied bt lm (plug t (c :: ctx)) ->
  focus lm ht t (c :: ctx) -∗ (∀ r, attempt bt lm ht t c ctx xs ys o r -∗ Φ r) -∗
  wp (rebalance_with_right (root_loc t) (c_loc c) (Z.of_nat i)) Φ.
Proof.
  intros Hspot Hfull Hgood Hcg Htied. pose proof slots_max_Z as Hm. iIntros "H HΦ".
  assert (i <= slots_max)%nat as Hi by (destruct t; destruct Hspot as (_ & _ & _ & ?); cbn in *; lia).
  iDestruct (focus_bound with "H") as "[%Hb H]". destruct Hb as [Hb Hc].
  iApply wp_bind. iApply (wp_at_position with "H"). iIntros "H". cbn [ctx_pos]. iApply wp_bind. iApply (wp_up_finish with "H"). iIntros "H".
  unfold count_of, graft. cbn [node_values]. rewrite length_app.
  destruct (decide (c_right c = [])) as [Hl|Hl].
  { rewrite Hl /= Nat.add_0_r Z.ltb_irrefl. iApply wp_ret. iApply "HΦ". iLeft. by iFrame. }
  rewrite (proj2 (Z.ltb_lt _ _)); [|destruct (c_right c); [done|cbn; lia]].
  destruct (cons_crumb c Hc Hl) as (q & A & v & B & TA & R & TB & -> & HA & HB). cbn [c_left c_right c_loc] in *.
  cbn in Hb. destruct t as [l capl vsl tsl], R as [r capr vsr tsr]. cbn [node_values] in Hfull.
  apply Forall_cons in Hcg as [[_ Hsib] Hcg]. cbn in Hsib. apply Forall_app in Hsib as [HTA [HR HTB]%Forall_cons].
  pose proof (proj1 (good_node_ok _) HR) as [HRne HRok]. pose proof (proj1 (good_node_ok _) Hgood) as [_ HLok].
  rewrite field_id; [|lia]. replace (Z.of_nat (length A) + 1) with (Z.of_nat (S (length A))) by lia.
  iApply wp_bind. iApply (wp_child_right with "H"). iIntros "H". iEval (rewrite -focus_other) in "H".
  iApply wp_bind. iApply (wp_at_max_count with "H"); [done|]. iIntros "H".
  iApply wp_bind. iApply wp_check; [apply Z.eqb_refl|]. iApply wp_bind. iApply (wp_at_count with "H"). iIntros "H".
  unfold count_of. cbn [node_values]. cbn in HRne. iDestruct (focus_count with "H") as "[%Hcnt H]". destruct Hcnt as (HRm & HRwf & _). cbn in HRm.
  iEval (rewrite focus_other) in "H". destruct (Z.ltb_spec (Z.of_nat (length vsr)) kNodeSlots) as [Hlt|Hge]; cycle 1.
  { iApply wp_ret. iApply "HΦ". iLeft. by iFrame. }
  iApply wp_bind. iApply (wp_at_start _ _ (Tree l capl vsl tsl) with "H"). iIntros "H".
  rewrite (field_id (Z.of_nat i)); [|lia]. set (tm := Z.max 1 _). pose proof (to_move_bounds (Z.of_nat (length vsr)) (0 <? Z.of_nat i) ltac:(lia)) as Htm. fold tm in Htm.
  iApply wp_bind. iApply (wp_at_finish _ _ (Tree l capl vsl tsl) with "H"). iIntros "H". unfold count_of. cbn [node_values]. rewrite Hfull Hm.
  iDestruct (focus_count with "H") as "[%Hcnt H]". destruct Hcnt as (_ & HLwf & _).
  destruct ((Z.of_nat i <=? kNodeSlots - tm) || (Z.of_nat (length vsr) + tm <? kNodeSlots)) eqn:Ecase; cycle 1.
  { iApply wp_ret. iApply "HΦ". iLeft. by iFrame. }
  destruct (split_at vsl (slots_max - Z.to_nat tm)) as (xs' & w & ys' & -> & Hxs'); [lia|]. rewrite length_app /= in Hfull.
  assert (1 <= length vsr)%nat by (destruct vsr; [done|cbn; lia]).
  iApply wp_bind. destruct HLok as [HcapL HgL], HRok as [HcapR HgR].
  iApply (wp_at_left_to_right with "H"); [lia|rewrite length_app /=; lia|lia|]. iIntros "H".
  (* the two nodes afterwards *)
  set (L' := Tree l capl xs' (take (S (length xs')) tsl)). set (R' := Tree r capr (ys' ++ v :: vsr) (drop (S (length xs')) tsl ++ tsr)).
  iEval (rewrite -focus_other) in "H". iDestruct (focus_count with "H") as "[%Hcnt H]". destruct Hcnt as (_ & HRwf' & _).
  iEval (rewrite focus_other) in "H". iDestruct (focus_count with "H") as "[%Hcnt H]". destruct Hcnt as (_ & HLwf' & Hctxok).
  apply (spot_left ht _ _ _ _ _ _ 1%positive 0 l capl _ _ v r capr) in Hspot; [|by eapply wf_arity|by eapply wf_arity|rewrite length_app /=; lia].
  rewrite -assoc_L -app_comm_cons -{1}(take_drop (S (length xs')) tsl) -assoc_L in Hspot.
  assert (Forall good (TA ++ TB)) as HT by by apply Forall_app.
  edestruct (pair_room ht bt bt lm q A w B TA TB ctx l capl _ _ r capr _ _ _ _ _ _ _ _ (wf_arity _ _ _ _ _ HLwf') (wf_arity _ _ _ _ _ HRwf') HA Hspot) as [HroomL HroomR]; try done.
  { split; [done|by apply Forall_take]. } { split; [done|]. apply Forall_app. split; [by apply Forall_drop|done]. }
  { cbn [plug c_loc c_left c_right t_left t_right] in Htied. eapply tied_same, Htied. apply same_ends_plug, same_ends_siblings.
    - by destruct tsl.
    - pose proof (wf_arity _ _ _ _ _ HRwf) as Ha1. destruct ht; cbn in Ha1.
      + pose proof (wf_arity _ _ _ _ _ HLwf) as Ha2. cbn in Ha2. by subst.
      + destruct tsr; [done|]. by rewrite last_app_cons. }
  rewrite length_app /= in HroomR.
  iApply wp_bind. iApply (wp_at_finish _ _ L' with "H"). iIntros "H". unfold count_of. cbn [node_values L']. iApply wp_bind.
  destruct (Z.ltb_spec (Z.of_nat (length xs')) (Z.of_nat i)) as [Hr|Hr].
  - iApply wp_bind. iApply (wp_at_count _ _ L' with "H"). iIntros "H". unfold count_of. cbn [node_values L']. iApply wp_ret. iEval (rewrite -focus_other) in "H".
    apply orb_prop in Ecase as [Ecase%Z.leb_le|Ecase%Z.ltb_lt]; [lia|].
    iApply wp_bind. iApply (wp_at_count _ _ R' with "H"). iIntros "H".
    iApply wp_bind. iApply (wp_at_max_count _ _ R' with "H"); [split; [done|]; apply Forall_app; split; [by apply Forall_drop|done]|]. iIntros "H".
    unfold count_of. cbn [node_values R']. iApply wp_bind. iApply wp_check; [apply Z.ltb_lt; rewrite length_app /=; lia|]. iApply wp_ret. iApply "HΦ". iRight.
    iExists R', _, _. iFrame "H". iPureIntro. split; [|apply HroomR; [lia|destruct xs'; [cbn in *; lia|done]|lia]]. do 2 f_equal. lia.
  - iApply wp_ret. iApply wp_bind. iApply (wp_at_count _ _ L' with "H"). iIntros "H".
    iApply wp_bind. iApply (wp_at_max_count _ _ L' with "H"); [split; [done|by apply Forall_take]|]. iIntros "H".
    unfold count_of. cbn [node_values L']. iApply wp_bind. iApply wp_check; [apply Z.ltb_lt; lia|]. iApply wp_ret. iApply "HΦ". iRight.
    iExists L', _, i. iFrame. iPureIntro. split; [done|]. apply HroomL; [lia|by destruct ys'|lia].
Qed.

(** *** New nodes *)

Lemma wp_init_leaf p par0 pos0 s0 fin0 cap0 ss arr pos cap par (Φ : unit -> hPropI V) : 0 <= pos <= kNodeSlots + 1 -> 0 <= cap <= kNodeSlots ->
  p ↦ mkNode par0 pos0 s0 fin0 cap0 ss arr -∗ (p ↦ mkNode par pos 0 0 cap ss arr -∗ Φ tt) -∗ wp (init_leaf p pos cap par) Φ.
Proof.
  intros Hp Hc. iIntros "H HΦ". pose proof kNodeSlots_min. unfold init_leaf, set_parent, set_position, set_start, set_finish, set_max_count. rewrite !field_id; [|lia..].
  do 4 (iApply wp_bind; iApply (wp_modify with "H"); iIntros "H"). by iApply (wp_modify with "H").
Qed.
Lemma wp_new_leaf_node pos par (Φ : loc -> hPropI V) : 0 <= pos <= kNodeSlots + 1 ->
  (∀ p, p ↦ mkNode par pos 0 0 kNodeSlots (replicate slots_max Raw) [] -∗ Φ p) -∗ wp (new_leaf_node pos par) Φ.
Proof.
  intros Hp. pose proof kNodeSlots_min. iIntros "HΦ". iApply wp_bind. iApply wp_allocate. iIntros (p) "H". iApply wp_bind. iApply (wp_init_leaf with "H"); [lia|lia|].
  iIntros "H". iApply wp_ret. by iApply "HΦ".
Qed.
Lemma wp_new_internal_node pos par (Φ : loc -> hPropI V) : 0 <= pos <= kNodeSlots + 1 ->
  (∀ p, p ↦ mkNode par pos 0 0 0 (replicate slots_max Raw) (replicate (S slots_max) None) -∗ Φ p) -∗ wp (new_internal_node pos par) Φ.
Proof.
  intros Hp. pose proof kNodeSlots_min. iIntros "HΦ". iApply wp_bind. iApply wp_allocate. iIntros (p) "H". iApply wp_bind. iApply wp_bind.
  iApply (wp_init_leaf with "H"); [lia|lia|]. iIntros "H". unfold set_max_count, kInternalNodeMaxCount. rewrite field_id; [|lia]. iApply (wp_modify with "H"). iIntros "H". iApply wp_ret.
  replace (Z.to_nat (kNodeSlots + 1)) with (S slots_max) by (unfold slots_max; lia). by iApply "HΦ".
Qed.

(** *** A new root *)

Lemma wp_new_root lm ht t bt (Φ : Btree.btree * loc -> hPropI V) : rightmost_ bt = rightmost_loc t ->
  focus lm ht t [] -∗ (∀ q, focus lm ht t [Crumb q [] [] [] []] -∗ Φ (mkBtree q (rightmost_ bt) (size_ bt), q)) -∗
  wp (new_root bt (root_loc t) lm) Φ.
Proof.
  intros Hr. pose proof kNodeSlots_min. iIntros "H HΦ". iDestruct (focus_count with "H") as "[%Hwf H]". destruct Hwf as (_ & Hwf & _).
  iApply wp_bind. iApply wp_new_internal_node; [lia|]. iIntros (q) "Hq".
  iApply wp_bind. iApply (wp_start with "Hq"). iIntros "Hq". iApply wp_bind. iDestruct "H" as "[Ht _]". cbn [ctx_parent ctx_pos].
  iApply (wp_init_child _ _ _ _ _ _ O with "Hq Ht"); [rewrite length_replicate; lia|lia|]. iIntros "Hq Ht".
  iAssert (focus lm ht t [Crumb q [] [] [] []]) with "[Hq Ht]" as "H".
  { unfold focus. cbn [own_ctx ctx_parent ctx_pos c_loc c_left length]. iFrame "Ht". iSplitL; [|done]. iExists _. unfold inner. cbn [c_left c_right t_left t_right c_loc app length].
    rewrite /slots_of /= Nat.sub_0_r. iFrame "Hq". rewrite !kids_nil. iPureIntro. split_and!; try done; [cbn; by rewrite length_replicate|cbn; lia|].
    apply children_at_cons. split; [done|apply children_at_nil]. }
  unfold start_child. cbn [root_]. iApply wp_bind. iApply wp_bind. iApply (wp_up_start with "H"). iIntros "H".
  iApply (wp_at_parent_child with "H"). iIntros "H". cbn [c_loc c_left length]. iApply wp_bind. iApply (wp_at_is_internal with "H"). iIntros "H". iApply wp_bind.
  destruct ht as [|ht]; cbn [Nat.eqb negb].
  - iApply wp_bind. iApply wp_bind. iApply (wp_up_start with "H"). iIntros "H". iApply (wp_at_parent_child with "H"). iIntros "H".
    iApply wp_check; [apply bool_decide_eq_true; cbn [rightmost_]; rewrite Hr; by destruct t as [l cap vs ts], Hwf as [(_ & _ & ->) _]|].
    iApply wp_ret. by iApply "HΦ".
  - iApply wp_ret. iApply wp_ret. by iApply "HΦ".
Qed.

(** *** Splitting *)

Lemma rightmost_plug_other t t' ctx : Forall crumb_ok ctx -> ~ Forall right_end ctx -> rightmost_loc (plug t ctx) = rightmost_loc (plug t' ctx).
Proof using Type.
  revert t t'. induction ctx as [|c ctx IH]; intros t t' Hok Hend; [by destruct Hend|]. apply Forall_cons in Hok as [[_ Hc] Hok]. cbn [plug].
  destruct (decide (Forall right_end ctx)) as [He|He]; [|by apply IH]. rewrite !rightmost_plug_end // !rightmost_loc_last !last_app_cons !last_cons.
  destruct (t_right c) as [|t0 ts _] eqn:E using rev_ind; [|by rewrite last_snoc]. destruct Hend. constructor; [|done]. split; [|done]. by destruct (c_right c).
Qed.

Lemma tied_split_leaf bt lm q A w B TA TB ctx l cap vs vsl r capr vsr (c := Crumb q A B TA TB) :
  NoDup (locs (plug (Tree l cap vs []) (c :: ctx))) -> Forall crumb_ok (c :: ctx) -> tied bt lm (plug (Tree l cap vs []) (c :: ctx)) ->
  tied (if decide (rightmost_ bt = l) then mkBtree (root_ bt) r (size_ bt) else bt) lm
    (plug (Tree q 0 (A ++ w :: B) (TA ++ Tree l cap vsl [] :: Tree r capr vsr [] :: TB)) ctx).
Proof using Type.
  intros Hnd Hok (Hroot & Hright & Hleft). rewrite locs_plug in Hnd. apply NoDup_app in Hnd as (_ & Hdis & _). specialize (Hdis l (list_elem_of_here _ _)).
  set (T' := plug (Tree q 0 (A ++ w :: B) _) ctx).
  assert (forall Rr, rightmost_loc (Tree l cap vs []) = rightmost_loc Rr -> same_ends (plug (Tree l cap vs []) (c :: ctx))
     (plug (Tree q 0 (A ++ w :: B) (TA ++ Tree l cap vsl [] :: Rr :: TB)) ctx)) as Hends.
  { intros [l' cap' vs' ts'] Hl'. cbn [plug]. by apply same_ends_plug, same_ends_split. }
  assert (root_loc T' = root_ bt /\ leftmost_loc T' = lm) as [Hr' Hl'].
  { destruct (Hends (Tree l capr vsr []) eq_refl) as (H1 & H2 & _). rewrite Hroot Hleft H1 H2. unfold T'. clear.
    revert TA. induction ctx as [|c' ctx IH] using rev_ind; intros TA; [by destruct TA|]. rewrite !plug_app. split; [done|]. cbn [plug]. rewrite !leftmost_loc_head.
    destruct (t_left c'); [apply IH|done]. }
  destruct (decide (Forall right_end (c :: ctx))) as [He|He].
  - rewrite rightmost_plug_end // in Hright. rewrite decide_True //. split_and!; [done| |done]. cbn. apply Forall_cons in He as [[_ HTB] He].
    cbn in HTB. unfold T'. rewrite rightmost_plug_end // HTB. rewrite (cons_middle (Tree l cap vsl [])) assoc_L. by rewrite rightmost_loc_snoc.
  - pose proof (rightmost_plug_in (Tree l cap vs []) _ Hok He) as Hin. rewrite decide_False; [|rewrite Hright; intros E; rewrite E in Hin; by apply Hdis].
    split_and!; [done| |done]. rewrite Hright. unfold T'. cbn [plug]. apply Forall_cons in Hok as [[_ Hc] Hok]. cbn in Hc.
    destruct TB as [|t0 TB].
    + apply rightmost_plug_other; [done|]. intros He'. apply He. constructor; [|done]. split; [by destruct B|done].
    + apply (same_ends_plug _ _ ctx), same_ends_split; done.
Qed.

Lemma focus_nodup lm ht t ctx : focus lm ht t ctx ⊢ ⟦NoDup (locs (plug t ctx))⟧ ∗ focus lm ht t ctx.
Proof using Type.
  iIntros "H". iDestruct (focus_crumb_ok with "H") as "[%Hok H]". destruct Hok as [Hok _]. iDestruct (focus_plug with "H") as "H".
  iDestruct (covers_nodup _ _ (covers_tree _ _ _ _) with "H") as "[$ H]". by iApply focus_unplug.
Qed.

(** How the values are divided. *)
Lemma split_point (vs : list V) ins : length vs = slots_max -> 0 <= ins <= kNodeSlots ->
  exists xs w ys, vs = xs ++ w :: ys /\ Z.of_nat (length ys) = split_count ins kNodeSlots /\
    (ins <= Z.of_nat (length xs) -> ys ≠ []) /\ (Z.of_nat (length xs) < ins -> xs ≠ []).
Proof.
  intros Hvs Hins. pose proof slots_max_Z. pose proof kNodeSlots_min. assert (0 <= split_count ins kNodeSlots < kNodeSlots) as Hb by (apply split_count_bounds; lia).
  assert (2 <= kNodeSlots / 2 < kNodeSlots - 1) as Hh.
  { pose proof (Z.div_mod kNodeSlots 2 ltac:(lia)). pose proof (Z.mod_pos_bound kNodeSlots 2 ltac:(lia)). lia. }
  destruct (split_at vs (slots_max - 1 - Z.to_nat (split_count ins kNodeSlots))) as (xs & w & ys & -> & Hxs); [lia|].
  rewrite length_app /= in Hvs. exists xs, w, ys. assert (Z.of_nat (length ys) = split_count ins kNodeSlots) as Hys by lia.
  split_and!; [done|done| |]; intros Hi ->; unfold split_count in Hys; rewrite Z.quot_div_nonneg in Hys; [|lia|lia| |lia|lia]; cbn [length] in *;
    destruct (Z.eqb_spec ins 0); [lia| |lia|]; (destruct (Z.eqb_spec ins kNodeSlots); lia).
Qed.

Section split_node.
Context (lm : loc) (ht : nat) (bt : Btree.btree) (q : loc) (A B : list V) (TA TB : list (tree V)) (ctx : list (crumb V)).
Context (l : loc) (cap : Z) (xs' : list V) (w : V) (ys' : list V) (ts : list (tree V)) (i : nat) (xs ys : list V) (o : option (tree V)).
Let t := Tree l cap (xs' ++ w :: ys') ts.
Let c := Crumb q A B TA TB.

(** After the split. *)
Lemma wp_split_done r bt' (Φ : Btree.btree * loc * Z -> hPropI V) (lt := Tree l cap xs' (take (S (length xs')) ts)) (rt := Tree r cap ys' (drop (S (length xs')) ts)) :
  length (xs' ++ w :: ys') = slots_max -> (i <= slots_max)%nat -> length TA = length A ->
  (Z.of_nat i <= Z.of_nat (length xs') -> ys' ≠ []) -> (Z.of_nat (length xs') < Z.of_nat i -> xs' ≠ []) ->
  spot t i (c :: ctx) xs ys o -> node_ok t -> Forall good (TA ++ TB) -> Forall crumb_good ctx ->
  tied bt' lm (plug (Tree q 0 (A ++ w :: B) (TA ++ lt :: rt :: TB)) ctx) -> size_ bt' = size_ bt ->
  focus lm ht lt (Crumb q A (w :: B) TA (rt :: TB) :: ctx) -∗
  (∀ bt' t' ctx' i', ⟦made_room bt lm xs ys o bt' t' ctx' i'⟧ -∗ focus lm ht t' ctx' -∗ Φ (bt', root_loc t', Z.of_nat i')) -∗
  wp (let! f := finish l in
      if f <? Z.of_nat i then let! k := count l in ret (bt', r, Z.of_nat i - k - 1) else ret (bt', l, Z.of_nat i)) Φ.
Proof.
  intros Hfull Hi HA Hys Hxs Hspot [Hcap Hts] HT Hctx Htied Hsize. iIntros "H HΦ". rewrite length_app /= in Hfull.
  iDestruct (focus_count with "H") as "[%Hwf H]". destruct Hwf as (_ & Hwfl & _). iEval (rewrite -focus_other) in "H".
  iDestruct (focus_count with "H") as "[%Hwf H]". destruct Hwf as (_ & Hwfr & _). iEval (rewrite focus_other) in "H".
  subst t. rewrite -{1}(take_drop (S (length xs')) ts) in Hspot.
  destruct (pair_room ht bt bt' lm q A w B TA TB ctx l cap _ _ r cap _ _ _ _ _ _ _ _ (wf_arity _ _ _ _ _ Hwfl) (wf_arity _ _ _ _ _ Hwfr) HA Hspot) as [HroomL HroomR]; try done.
  { split; [done|by apply Forall_take]. } { split; [done|by apply Forall_drop]. }
  iApply wp_bind. iApply (wp_at_finish _ _ lt with "H"). iIntros "H". unfold count_of. cbn [node_values lt].
  destruct (Z.ltb_spec (Z.of_nat (length xs')) (Z.of_nat i)) as [Hr|Hr].
  - iApply wp_bind. iApply (wp_at_count _ _ lt with "H"). iIntros "H". unfold count_of. cbn [node_values lt]. iApply wp_ret.
    replace (Z.of_nat i - Z.of_nat (length xs') - 1) with (Z.of_nat (i - S (length xs'))) by lia. iEval (rewrite -focus_other) in "H".
    iApply ("HΦ" $! _ rt with "[] H"). iPureIntro. apply HroomR; [lia|by apply Hxs|lia].
  - iApply wp_ret. iApply ("HΦ" $! _ lt with "[] H"). iPureIntro. apply HroomL; [lia|by apply Hys|lia].
Qed.

End split_node.

Lemma wp_split_node lm ht bt q A B TA TB ctx l cap xs' w ys' ts i xs ys o (t := Tree l cap (xs' ++ w :: ys') ts) (c := Crumb q A B TA TB)
    (Φ : Btree.btree * loc * Z -> hPropI V) :
  length (xs' ++ w :: ys') = slots_max -> (i <= slots_max)%nat -> (length A + length B < slots_max)%nat ->
  Z.of_nat (length ys') = split_count (Z.of_nat i) kNodeSlots ->
  (Z.of_nat i <= Z.of_nat (length xs') -> ys' ≠ []) -> (Z.of_nat (length xs') < Z.of_nat i -> xs' ≠ []) ->
  spot t i (c :: ctx) xs ys o -> node_ok t -> Forall good (TA ++ TB) -> Forall crumb_good ctx -> tied bt lm (plug t (c :: ctx)) ->
  focus lm ht t (c :: ctx) -∗
  (∀ bt' t' ctx' i', ⟦made_room bt lm xs ys o bt' t' ctx' i'⟧ -∗ focus lm ht t' ctx' -∗ Φ (bt', root_loc t', Z.of_nat i')) -∗
  wp (split_node bt l q (Z.of_nat i)) Φ.
Proof.
  intros Hfull Hi HAB Hys Hne1 Hne2 Hspot Hok HT Hctx Htied. pose proof slots_max_Z as Hm. iIntros "H HΦ".
  iDestruct (focus_count with "H") as "[%Hcnt H]". destruct Hcnt as (_ & Hwf & Hctxok). iDestruct (focus_nodup with "H") as "[%Hnd H]".
  assert (length TA = length A) as HA by by apply Forall_cons in Hctxok as [[? _] _].
  pose proof (wf_arity _ _ _ _ _ Hwf) as Har. destruct Hok as [Hcap Hts].
  iApply wp_bind. iApply (wp_at_is_leaf _ _ t with "H"). iIntros "H". iApply wp_bind. iApply (wp_at_position _ _ t with "H"). iIntros "H". cbn [ctx_pos c c_left].
  rewrite field_id; [|lia]. replace (Z.of_nat (length A) + 1) with (Z.of_nat (S (length A))) by lia. iApply wp_bind.
  destruct ht as [|ht']; cbn [Nat.eqb].
  - iApply wp_bind. iApply wp_new_leaf_node; [lia|]. iIntros (r) "Hr". iApply wp_bind. cbn in Har. subst ts.
    assert (cap = kNodeSlots) as ->.
    { destruct Hwf as [(_ & Hc & _) _]. unfold capacity in Hcap. destruct (Z.eqb_spec cap 0); lia. }
    iApply (wp_at_split with "H Hr"); [done|done|done|done|by rewrite /child_slots; destruct (Z.eqb_spec kNodeSlots 0); [lia|]|]. iIntros "H". iApply wp_ret.
    iApply (wp_split_done with "H"); try done.
    + rewrite take_nil drop_nil. by apply (tied_split_leaf bt lm q A w B TA TB ctx l kNodeSlots (xs' ++ w :: ys')).
    + by destruct (decide _).
  - iApply wp_bind. iApply wp_new_internal_node; [lia|]. iIntros (r) "Hr". iApply wp_bind.
    assert (cap = 0) as -> by apply Hwf. cbn in Har. rewrite length_app /= in Har.
    iApply (wp_at_split with "H Hr"); [done|done|done|done|by rewrite length_replicate|]. iIntros "H". iApply wp_ret.
    iApply (wp_split_done with "H"); try done.
    cbn [plug c t c_loc c_left c_right t_left t_right] in Htied. eapply tied_same, Htied. apply same_ends_plug, same_ends_split; [by destruct ts|].
    intros _. rewrite !rightmost_loc_last last_drop_lt; [|lia]. by destruct ts using rev_ind; [|rewrite last_snoc].
Qed.

(** *** [rebalance_or_split] *)

Lemma wp_rebalance_or_split fuel : forall lm ht t i ctx bt xs ys o (Φ : Btree.btree * loc * Z -> hPropI V), (length ctx < fuel)%nat ->
  spot t i ctx xs ys o -> length (node_values t) = slots_max -> good t -> Forall crumb_good ctx -> tied bt lm (plug t ctx) ->
  focus lm ht t ctx -∗
  (∀ bt' t' ctx' i', ⟦made_room bt lm xs ys o bt' t' ctx' i'⟧ -∗ focus lm ht t' ctx' -∗ Φ (bt', root_loc t', Z.of_nat i')) -∗
  wp (rebalance_or_split fuel bt (root_loc t) (Z.of_nat i)) Φ.
Proof.
  induction fuel as [|fuel IH]; intros lm ht t i ctx bt xs ys o Φ Hf Hspot Hfull Hgood Hcg Htied; [lia|]. pose proof slots_max_Z as Hm.
  pose proof (proj1 (good_node_ok _) Hgood) as [_ Hok].
  assert (i <= slots_max)%nat as Hi by (destruct t; destruct Hspot as (_ & _ & _ & ?); cbn in *; lia).
  destruct (split_point (node_values t) (Z.of_nat i) Hfull ltac:(lia)) as (xs' & w & ys' & Hvs & Hys & Hne1 & Hne2).
  cbn [rebalance_or_split]. iIntros "H HΦ". iDestruct (focus_nodup with "H") as "[%Hnd H]".
  iApply wp_bind. iApply (wp_at_count with "H"). iIntros "H". iApply wp_bind. iApply (wp_at_max_count with "H"); [done|]. iIntros "H".
  do 2 (iApply wp_bind; iApply wp_check; [apply Z.eqb_eq; unfold count_of; lia|]). iApply wp_bind. iApply (wp_at_parent with "H"). iIntros "H".
  destruct ctx as [|c ctx]; cbn [ctx_parent].
  - rewrite decide_True; [|by rewrite (proj1 Htied)]. iApply wp_bind. iApply (wp_new_root with "H"); [by apply Htied|]. iIntros (q) "H". cbn [fst snd].
    destruct t as [l cap vs ts]. cbn [node_values root_loc] in *. subst vs.
    iApply (wp_split_node with "H"); try done; [pose proof kNodeSlots_min; cbn; lia|].
    destruct Htied as (H1 & H2 & H3). by split_and!.
  - destruct Htied as (Hroot & Hright & Hleft). rewrite decide_False; cycle 1.
    { rewrite Hroot. rewrite locs_plug in Hnd. apply NoDup_app in Hnd as (_ & Hdis & _). intros Heq. apply (Hdis (root_loc t)).
      - by destruct t; apply list_elem_of_here.
      - rewrite Heq. apply root_plug_in. }
    assert (tied bt lm (plug t (c :: ctx))) as Htied by done. clear Hroot Hright Hleft.
    iApply wp_bind. iApply (wp_rebalance_with_left with "H"); [done..|]. iIntros (r) "[[-> H]|(%t' & %ctx' & %i' & %Hr & H)]"; cycle 1.
    { destruct Hr as [-> Hroom]. iApply wp_ret. by iApply ("HΦ" with "[] H"). }
    iApply wp_bind. iApply (wp_rebalance_with_right with "H"); [done..|]. iIntros (r) "[[-> H]|(%t' & %ctx' & %i' & %Hr & H)]"; cycle 1.
    { destruct Hr as [-> Hroom]. iApply wp_ret. by iApply ("HΦ" with "[] H"). }
    iDestruct (focus_bound with "H") as "[%Hb H]". destruct Hb as [Hb Hc]. apply Forall_cons in Hcg as [[Hcne Hcg] Hctxg].
    assert (good (graft t c)) as Hgg.
    { constructor; [done|done|]. apply Forall_app in Hcg as [? ?]. apply Forall_app. split; [done|by constructor]. }
    iDestruct (focus_step with "H") as "[_ H]". iApply wp_bind. iApply (wp_at_max_count _ _ (graft t c) with "H"); [by apply good_node_ok|]. iIntros "H".
    iApply wp_bind. iApply wp_check; [apply Z.eqb_refl|]. iApply wp_bind. iApply (wp_at_count _ _ (graft t c) with "H"). iIntros "H".
    unfold count_of. cbn [node_values graft]. rewrite length_app. iApply wp_bind.
    destruct (Z.eqb_spec (Z.of_nat (length (c_left c) + length (c_right c))) kNodeSlots) as [Hpf|Hpf].
    + iEval (rewrite focus_down' //) in "H". iApply wp_bind. iApply (wp_at_position with "H"). iIntros "H". cbn [ctx_pos].
      iDestruct (focus_step with "H") as "[_ H]". iApply wp_bind. cbn [length] in Hf.
      iApply (IH _ _ (graft t c) (length (c_left c)) with "H"); [lia|by apply spot_graft|cbn; rewrite length_app; lia|done|done|done|].
      iIntros (bt' t' ctx' i') "%Hroom H". destruct Hroom as (Hspot' & Hlen & Hok' & Hctx' & Htied' & Hsize).
      iDestruct (focus_count with "H") as "[%Hcnt H]". destruct Hcnt as (_ & Hwf' & _).
      destruct (spot_child _ _ _ _ _ _ _ Hwf' Hspot') as (c' & Hc' & <- & <- & Hbef & Haft).
      iEval (rewrite focus_down' //) in "H". iApply wp_bind. iApply (wp_at_parent with "H"). iIntros "H". iApply wp_ret. cbn [fst snd ctx_parent].
      destruct t as [l cap vs ts]. cbn [node_values root_loc] in *. subst vs. rewrite length_app in Hlen.
      destruct c' as [q A B TA TB]. cbn [c_loc c_left c_right] in *. destruct Hok' as [_ Hok']. cbn in Hok'.
      iApply (wp_split_node with "H"); try done.
      * unfold spot in *. by rewrite Hbef Haft.
      * apply Forall_app in Hok' as [? [_ ?]%Forall_cons]. by apply Forall_app.
      * iIntros (bt2 t2 ctx2 i2) "%Hroom2 H". iApply ("HΦ" with "[] H"). iPureIntro. destruct Hroom2 as (? & ? & ? & ? & ? & ?). split_and!; try done. congruence.
    + iApply wp_ret. cbn [fst snd]. iEval (rewrite focus_down' //) in "H". destruct t as [l cap vs ts]. cbn [node_values root_loc] in *. subst vs.
      destruct c as [q A B TA TB]. cbn [c_loc c_left c_right] in *. iApply (wp_split_node with "H"); try done. lia.
Qed.
End grow.
