(* ===== verification/BtreeInsert.v ===== *)
(** * BtreeInsert: insertion (lemmas for Btree.v)

    [internal_emplace] puts a value at a position of the sequence, whatever it
    takes to make room; [insert_unique] and [insert_multi] find the position by
    the key. *)

From S2P Require Import Prelude.
From S2P Require Import BtreeNode.
From S2P Require Import Btree.
From S2P Require Import HeapLogic.
From S2P Require Import BtreeTree.
From S2P Require Import BtreeFree.
From S2P Require Import BtreeMove.
From S2P Require Import BtreeZip.
From S2P Require Import BtreeSearch.
From S2P Require Import BtreeLookup.
From S2P Require Import BtreePair.
From Stdlib Require Import Sorting.Sorted.
From iris.proofmode Require Import proofmode.
Import btree_node.
Import btree_iterator.
Import btree.
#[local] Open Scope Z_scope.
#[local] Open Scope cpp_scope.

(** ** The order of a node *)

Section ordered.
Context {K V : Type} `{PB : BtreeParams K V} {LB : BtreeLaws K V} `{AL : Allocator} {FL : AllocatorLaws} {LK : KeyLaws K V}.
Implicit Types (t : tree V) (vs xs ys : list V) (ctx : list (crumb V)) (a b k : K) (v w : V).

Lemma three_way_spec a b : do_three_way_comparison a b = if key_lt a b then -1 else if key_lt b a then 1 else 0.
Proof.
  pose proof key_order_opp as Ho. unfold do_three_way_comparison, key_lt. destruct key_compare as [lt|cmp]; [done|].
  rewrite (Ho a b). by destruct (cmp a b).
Qed.
Lemma three_way_mono a b k : key_lt b a = false -> do_three_way_comparison a k <= do_three_way_comparison b k.
Proof.
  intros Hab. rewrite !three_way_spec. destruct (key_lt a k) eqn:Eak.
  - repeat case_match; lia.
  - destruct (key_lt b k) eqn:Ebk.
    + destruct (key_lt_cotrans _ _ a Ebk); congruence.
    + destruct (key_lt k a) eqn:Eka; [|repeat case_match; lia]. destruct (key_lt_cotrans _ _ b Eka) as [H|H]; rewrite ?H; (lia || congruence).
Qed.

Lemma SS_lookup {X} (R : X -> X -> Prop) l i j x y : StronglySorted R l -> (i < j)%nat -> l !! i = Some x -> l !! j = Some y -> R x y.
Proof using Type.
  intros Hl. revert i j. induction Hl as [|a l Hl IH Ha]; intros i j Hij Hx Hy; [done|]. destruct j as [|j]; [lia|]. destruct i as [|i]; cbn in *.
  - injection Hx as ->. apply (proj1 (Forall_forall _ _) Ha). by apply list_elem_of_lookup_2 in Hy.
  - apply (IH i j); [lia|done|done].
Qed.

(** Comparisons along a node in order. *)
Definition compare_to v w : Z := do_three_way_comparison (params_key w) (params_key v).

Lemma compare_to_mono vs v j j' w w' : in_order vs -> (j < j')%nat -> vs !! j = Some w -> vs !! j' = Some w' -> compare_to v w <= compare_to v w'.
Proof. intros Hvs%in_order_weak Hj Hw Hw'. apply three_way_mono. exact (SS_lookup _ _ _ _ _ _ Hvs Hj Hw Hw'). Qed.
Lemma compare_to_left vs i v j w : in_order vs -> (j < i)%nat -> vs !! j = Some w -> vs !! i = Some v -> compare_to v w <= 0.
Proof. intros Hvs%in_order_weak Hj Hw Hv. unfold compare_to. rewrite three_way_spec (SS_lookup _ _ _ _ _ _ Hvs Hj Hw Hv). by case_match. Qed.
Lemma compare_to_unique vs i v j w : in_order vs -> can_have_multiple_equivalent_keys = false -> j ≠ i -> vs !! j = Some w -> vs !! i = Some v -> compare_to v w ≠ 0.
Proof.
  intros Hvs Hu Hj Hw Hv. unfold in_order in Hvs. rewrite Hu in Hvs. unfold compare_to. rewrite three_way_spec. destruct (decide (j < i)%nat) as [Hlt|Hge].
  - by rewrite (SS_lookup _ _ _ _ _ _ Hvs Hlt Hw Hv).
  - assert (i < j)%nat as Hlt by lia. pose proof (SS_lookup _ _ _ _ _ _ Hvs Hlt Hv Hw) as H. cbn in H. by rewrite (key_lt_asym _ _ H) H.
Qed.

Section loop.
Context (lm : loc) (ht : nat) (t : tree V) (ctx : list (crumb V)) (i : nat) (v : V) (Hv : node_values t !! i = Some v) (Hvs : in_order (node_values t)).
Let F := focus lm ht t ctx.

Lemma wp_ordered_loop fuel j cmp (Φ : bool -> hPropI V) : (j <= length (node_values t))%nat -> (length (node_values t) - j < fuel)%nat ->
  (length (node_values t) <= slots_max)%nat ->
  (forall j' w, (j <= j')%nat -> j' ≠ i -> node_values t !! j' = Some w -> cmp <= compare_to v w) -> ((j <= i)%nat -> cmp <= 0) ->
  F -∗ (F -∗ Φ true) -∗ wp (ordered_loop fuel (root_loc t) (Z.of_nat i) (Z.of_nat j) cmp) Φ.
Proof using LB LK Hv Hvs.
  pose proof slots_max_Z as Hm. revert j cmp Φ. induction fuel as [|fuel IH]; intros j cmp Φ Hj Hf Hlen Hcmp Hle; [lia|]. cbn [ordered_loop].
  iIntros "H HΦ". iApply wp_bind. iApply (wp_at_finish with "H"). iIntros "H". unfold count_of.
  destruct (Z.ltb_spec (Z.of_nat j) (Z.of_nat (length (node_values t)))) as [Hlt|Hge]; [|iApply wp_ret; by iApply "HΦ"].
  rewrite field_id; [|lia]. replace (Z.of_nat j + 1) with (Z.of_nat (S j)) by lia.
  destruct (Z.eqb_spec (Z.of_nat j) (Z.of_nat i)) as [Hji|Hji].
  - rewrite (proj2 (Z.ltb_ge _ _)); [|apply Hle; lia]. iApply (IH with "H HΦ"); [lia|lia|done| |lia]. intros j' w Hj' Hne Hw. apply (Hcmp j'); [lia|done|done].
  - destruct (lookup_lt_is_Some_2 (node_values t) j) as [w Hw]; [lia|]. iApply wp_bind. iApply (wp_at_key with "H"); [done|]. iIntros "H".
    iApply wp_bind. iApply (wp_at_key with "H"); [done|]. iIntros "H". fold (compare_to v w).
    assert (compare_to v w <? cmp = false) as -> by (apply Z.ltb_ge, (Hcmp j); [done|lia|done]).
    assert (negb can_have_multiple_equivalent_keys && (compare_to v w =? 0) = false) as ->.
    { destruct can_have_multiple_equivalent_keys eqn:Eu; [done|]. cbn. apply Z.eqb_neq, (compare_to_unique (node_values t) i v j w); [done|done|lia|done|done]. }
    cbn [orb]. iApply (IH with "H HΦ"); [lia|lia|done| |].
    + intros j' w' Hj' _ Hw'. apply (compare_to_mono (node_values t) v j j'); [done|lia|done|done].
    + intros Hi. apply (compare_to_left (node_values t) i v j w); [done|lia|done|done].
Qed.

Lemma wp_is_ordered_correctly (Φ : bool -> hPropI V) : F -∗ (F -∗ Φ true) -∗ wp (is_ordered_correctly (root_loc t) (Z.of_nat i)) Φ.
Proof using LB LK Hv Hvs.
  iIntros "H HΦ". unfold is_ordered_correctly. destruct kIsKeyCompareStringAdapted; [iApply wp_ret; by iApply "HΦ"|].
  iDestruct (focus_count with "H") as "[%Hc H]". destruct Hc as (Hc & _ & _). iApply wp_bind. iApply (wp_at_start with "H"). iIntros "H".
  iApply (wp_ordered_loop _ O with "H HΦ"); [lia|unfold search_fuel, slots_max in *; lia|done| |lia].
  intros j w _ _ _. unfold compare_to. rewrite three_way_spec. repeat case_match; lia.
Qed.
End loop.
End ordered.

(** ** [internal_emplace] *)

Section emplace.
Context {K V : Type} `{PB : BtreeParams K V} {LB : BtreeLaws K V} `{AL : Allocator} {FL : AllocatorLaws} {LK : KeyLaws K V}.
Implicit Types (t T : tree V) (ts : list (tree V)) (vs A B xs ys : list V) (ctx : list (crumb V)) (k : K) (v : V) (bt : Btree.btree).

Lemma wp_new_leaf_root_node m (Φ : loc -> hPropI V) : 0 <= m <= kNodeSlots ->
  (∀ p, p ↦ mkNode p 0 0 0 m (replicate (Z.to_nat m) Raw) [] -∗ Φ p) -∗ wp (new_leaf_root_node m) Φ.
Proof.
  intros Hm. iIntros "HΦ". iApply wp_bind. iApply wp_allocate. iIntros (p) "H". iApply wp_bind. iApply (wp_init_leaf with "H"); [lia|lia|].
  iIntros "H". iApply wp_ret. by iApply "HΦ".
Qed.

Lemma leaf_focus lm ht l cap vs ctx : tree_ok ht cap vs [] -> ht = O ->
  focus lm ht (Tree l cap vs []) ctx ⊣⊢
  own_node l (ctx_parent lm ctx) (ctx_pos ctx) cap vs [] ∗ own_ctx lm O l ctx.
Proof using Type.
  intros Hok ->. unfold focus. rewrite own_tree_unfold. cbn [kids_below root_loc fmap list_fmap]. iSplit.
  - iIntros "[(_ & $ & _) $]".
  - iIntros "[$ $]". by iPureIntro.
Qed.

Lemma wp_at_emplace lm l cap A B ctx v (Φ : unit -> hPropI V) : (length A + length B < capacity cap)%nat ->
  focus lm 0 (Tree l cap (A ++ B) []) ctx -∗ (focus lm 0 (Tree l cap (A ++ v :: B) []) ctx -∗ Φ tt) -∗
  wp (emplace_value l (Z.of_nat (length A)) (value_init l (Z.of_nat (length A)) v)) Φ.
Proof.
  intros Hn. iIntros "H HΦ". iDestruct (focus_count with "H") as "[%Hwf H]". destruct Hwf as (_ & Hwf & _).
  pose proof (tree_wf_ok _ _ _ _ _ Hwf) as Hok. destruct (leaf_capacity_bounds _ _ _ _ Hok) as (_ & Hmax & _).
  assert (tree_ok 0 cap (A ++ v :: B) []) as Hok'. { destruct Hok as [_ Hok]. split; [rewrite length_app /=; lia|done]. }
  rewrite (leaf_focus _ _ _ _ _ _ Hok') // (leaf_focus _ _ _ _ _ _ Hok) //. iDestruct "H" as "[(%arr & %Harr & Hl) Hctx]". destruct Harr as [_ Harr].
  assert (cap ≠ 0) as Hcap by (destruct Hok as (_ & ? & _); lia). rewrite length_app.
  iApply (wp_emplace_value _ _ _ _ _ A B v _ _ emp emp 0%nat [] with "Hl [//] [] [Hctx HΦ]"); try done.
  - by rewrite (proj2 (Z.eqb_neq _ _) Hcap).
  - iIntros "[Hl _]". unfold gap_slots. iApply (wp_construct with "Hl"); [by rewrite length_fmap|]. iIntros "Hl". by iFrame.
  - by rewrite kids_nil.
  - iIntros (arr') "%Harr' Hl _ _". iApply "HΦ". iFrame "Hctx". iExists arr'. iFrame. iPureIntro. split; [apply children_at_nil|]. by rewrite (proj1 Harr').
Qed.

Lemma wp_replace_leaf_root_node lm n cap vs cap' bt (Φ : Btree.btree -> hPropI V) : root_ bt = n -> lm = n ->
  (length vs <= Z.to_nat cap')%nat -> 0 < cap' <= kNodeSlots ->
  focus lm 0 (Tree n cap vs []) [] -∗ (∀ p, focus p 0 (Tree p cap' vs []) [] -∗ Φ (mkBtree p p (size_ bt))) -∗
  wp (replace_leaf_root_node bt n cap') Φ.
Proof.
  intros Hroot -> Hvs Hcap'. iIntros "H HΦ". iDestruct (focus_count with "H") as "[%Hwf H]". destruct Hwf as (_ & Hwf & _).
  pose proof (tree_wf_ok _ _ _ _ _ Hwf) as Hok. destruct (leaf_capacity_bounds _ _ _ _ Hok) as (Hc & Hmax & _).
  assert (cap ≠ 0) as Hcap by (destruct Hok as (_ & ? & _); lia). pose proof slots_max_Z as Hm.
  rewrite (leaf_focus _ _ _ _ _ _ Hok) //. iDestruct "H" as "[(%arr & %Harr & Hn) Hctx]". destruct Harr as [_ Harr].
  iApply wp_bind. iApply wp_check; [by apply bool_decide_eq_true|]. iApply wp_bind. iApply wp_new_leaf_root_node; [lia|]. iIntros (p) "Hp".
  iApply wp_bind. iApply wp_bind. iApply (wp_count with "Hn"); [lia|]. iIntros "Hn". iApply wp_bind. iApply (wp_start with "Hp"). iIntros "Hp".
  iApply wp_bind. iApply (wp_start with "Hn"). iIntros "Hn". iApply wp_bind.
  replace (Z.to_nat cap') with (length vs + (Z.to_nat cap' - length vs))%nat by lia. rewrite replicate_add. unfold slots_of.
  iApply (wp_transfer_n _ _ _ _ _ _ _ _ _ _ _ _ [] _ [] _ vs with "Hp Hn"); [done|done|done|]. iIntros "Hp Hn".
  iApply wp_bind. iApply (wp_finish with "Hn"). iIntros "Hn". iApply wp_bind. iApply (wp_set_finish with "Hp"); [lia|]. iIntros "Hp".
  iApply wp_bind. iApply (wp_set_finish with "Hn"); [lia|]. iIntros "Hn".
  iApply (wp_free_husk _ _ _ cap with "[Hn]").
  { iExists arr. cbn [app]. rewrite -replicate_add. replace (length vs + (capacity cap - length vs))%nat with (capacity cap) by lia.
    iFrame. iPureIntro. split; [|done]. destruct Hok as (_ & ? & _). lia. }
  iApply wp_ret. iApply "HΦ". iDestruct "Hctx" as "_".
  assert (tree_ok 0 cap' vs []) as Hok'. { split; [|by split; [lia|]]. unfold capacity. destruct (Z.eqb_spec cap' 0); lia. }
  rewrite (leaf_focus _ _ _ _ _ _ Hok') //. iSplitL; [|done]. iExists []. iSplitR.
  - iPureIntro. split; [apply children_at_nil|]. unfold child_slots. by rewrite (proj2 (Z.eqb_neq _ _)); [|lia].
  - unfold slots_of, capacity. rewrite (proj2 (Z.eqb_neq cap' 0)); [done|lia].
Qed.

(** A container that is about to get a value: it may be one empty leaf. *)
Definition btree_pre bt (ht : nat) T : Prop :=
  root_ bt = root_loc T /\ rightmost_ bt = rightmost_loc T /\ size_ bt = Z.of_nat (length (values_of T)) /\ (ht = O \/ good T).

Lemma btree_ok_pre bt ht T : btree_ok bt ht T -> btree_pre bt ht T.
Proof using Type. intros (H1 & H2 & H3 & H4 & H5). split_and!; try done. destruct H5; [by left|right]. by apply good_iff. Qed.

(** A leaf with room at the position. *)
Definition ready bt lm xs ys bt' lm' l cap A B ctx : Prop :=
  before ctx ++ A = xs /\ B ++ after ctx = ys /\ (length A + length B < capacity cap)%nat /\ tied bt' lm' (plug (Tree l cap (A ++ B) []) ctx) /\
  size_ bt' = size_ bt /\ (ctx = [] \/ (capacity cap = slots_max /\ Forall crumb_good ctx)) /\ (lm = lm' \/ ctx = []).

Lemma wp_make_ready bt ht T it xs ys (k : Btree.btree * loc * Z -> M V (Btree.btree * iterator)) (Φ : Btree.btree * iterator -> hPropI V) :
  btree_pre bt ht T -> leaf_at ht T it xs ys -> own ht T -∗
  (∀ bt' lm l cap A B ctx, ⟦ready bt (leftmost_loc T) xs ys bt' lm l cap A B ctx⟧ -∗ focus lm 0 (Tree l cap (A ++ B) []) ctx -∗
     wp (k (bt', l, Z.of_nat (length A))) Φ) -∗
  wp (let! n := the_node it in
      let! m := max_count n in
      let! c := count n in
      let! r :=
        (if c =? m then
           if m <? kNodeSlots then
             let! bt' := replace_leaf_root_node bt n (field (Z.min (i32 kNodeSlots) (2 * m))) in
             ret (bt', root_ bt', pos_ it)
           else let! f := heap_fuel in rebalance_or_split f bt n (pos_ it)
         else ret (bt, n, pos_ it)) in
      k r) Φ.
Proof.
  intros (Hroot & Hright & Hsize & Hgood) (ctx & l & cap & A & B & <- & Hht & Hctx & -> & -> & ->). pose proof slots_max_Z as Hm.
  iIntros "H HΦ". iEval (rewrite (own_focus _ O); [|lia|done]) in "H". set (t := Tree l cap (A ++ B) []). set (lm := leftmost_loc (plug t ctx)).
  iDestruct (focus_count with "H") as "[%Hwf H]". destruct Hwf as (_ & Hwf & _). pose proof (tree_wf_ok _ _ _ _ _ Hwf) as Hok.
  destruct (leaf_capacity_bounds _ _ _ _ Hok) as (Hc & Hmax & _). destruct Hok as (_ & Hcap & _). rewrite length_app in Hc.
  assert (capacity cap = Z.to_nat cap) as Hcz by (unfold capacity; destruct (Z.eqb_spec cap 0); lia).
  assert (ctx = [] \/ (capacity cap = slots_max /\ Forall crumb_good ctx)) as Hg.
  { destruct Hgood as [->|Hg]; [left; by destruct ctx|]. right. apply good_plug in Hg as [(_ & ? & _)%good_inv ?]. done. }
  assert (tied bt lm (plug t ctx)) as Htied by done.
  iApply wp_bind. iApply wp_lift; [done|]. iApply wp_bind. iDestruct (focus_node with "H") as (arr) "(%Harr & Hp & H)".
  iApply (wp_max_count with "Hp"). iIntros "Hp". rewrite (proj2 (Z.eqb_neq cap 0)); [|lia]. iDestruct ("H" with "Hp") as "H".
  iApply wp_bind. iApply (wp_at_count _ _ t with "H"). iIntros "H". unfold count_of. cbn [node_values t]. rewrite length_app. cbn [pos_].
  iApply wp_bind. destruct (Z.eqb_spec (Z.of_nat (length A + length B)) cap) as [Hfull|Hfull]; cycle 1.
  { iApply wp_ret. iApply ("HΦ" with "[] H"). iPureIntro. split_and!; try done; [lia|by left]. }
  destruct (Z.ltb_spec cap kNodeSlots) as [Hlt|Hge].
  - destruct Hg as [->|[Hg _]]; [|lia]. iApply wp_bind. unfold i32. rewrite (Z.mod_small (kNodeSlots + 2 ^ 31)); cycle 1.
    { pose proof kNodeSlots_int. pose proof kNodeSlots_min. lia. }
    replace (kNodeSlots + 2 ^ 31 - 2 ^ 31) with kNodeSlots by lia. rewrite field_id; [|lia].
    iApply (wp_replace_leaf_root_node with "H"); [done|done|rewrite length_app; lia|lia|]. iIntros (p) "H". iApply wp_ret. cbn [root_].
    iApply ("HΦ" with "[] H"). iPureIntro. split_and!; try done; [|by left|by right]. unfold capacity. destruct (Z.eqb_spec (Z.min kNodeSlots (2 * cap)) 0); lia.
  - assert (good t /\ Forall crumb_good ctx) as [Hgt Hgc].
    { assert (A ++ B ≠ []) as Hne by (intros Hab; apply (f_equal length) in Hab; rewrite length_app in Hab; cbn in Hab; lia).
      destruct Hg as [->|[Hg1 Hg2]]; (split; [constructor; [done|lia|done]|done]). }
    iApply wp_bind. iApply (wp_heap_fuel with "H"); [apply focus_at_least|]. iIntros (f) "%Hf H". change l with (root_loc t).
    assert (length (node_values t) = slots_max) as Hft by (cbn; rewrite length_app; lia).
    iApply (wp_rebalance_or_split f lm 0 t (length A) ctx bt (before ctx ++ A) (B ++ after ctx) None with "H"); [lia| |done|done|done|done|].
    { split_and!; [cbn; by rewrite take_app_length|cbn; by rewrite drop_app_length|done|rewrite length_app; lia]. }
    iIntros (bt' t' ctx' i') "%Hroom H". destruct t' as [l' cap' vs' ts'], Hroom as ((Hx & Hy & _ & Hi) & Hlen & [Hcap' Hts'] & Hctx' & Htied' & Hsize').
    iDestruct (focus_count with "H") as "[%Hwf' H]". destruct Hwf' as (_ & Hwf' & _). pose proof (wf_arity _ _ _ _ _ Hwf') as Har. cbn in Har. subst ts'. cbn in Hx, Hy, Hlen.
    assert (exists A' B', vs' = A' ++ B' /\ A' = take i' vs' /\ B' = drop i' vs') as (A' & B' & Hvs & HA' & HB') by (exists (take i' vs'), (drop i' vs'); by rewrite take_drop).
    rewrite -HA' in Hx. rewrite -HB' in Hy. assert (length A' = i') as <- by (rewrite HA' length_take; lia). clear HA' HB'. subst vs'. cbn [root_loc].
    iApply ("HΦ" with "[] H"). iPureIntro. rewrite length_app in Hlen. split_and!; try done; [lia|by right|by left].
Qed.

Lemma values_of_leaf l cap vs ctx : Forall crumb_ok ctx -> values_of (plug (Tree l cap vs []) ctx) = before ctx ++ vs ++ after ctx.
Proof using Type. intros Hctx. by rewrite elements_plug. Qed.

(** After the value has been put in. *)
Lemma ready_done bt lm0 xs ys bt' lm l cap A B ctx v : ready bt lm0 xs ys bt' lm l cap A B ctx -> Forall crumb_ok ctx ->
  size_ bt = Z.of_nat (length (xs ++ ys)) -> tree_wf 0 (Tree l cap (A ++ v :: B) []) ->
  let T' := plug (Tree l cap (A ++ v :: B) []) ctx in
  btree_ok (mkBtree (root_ bt') (rightmost_ bt') (size_ bt' + 1)) (length ctx) T' /\ lm = leftmost_loc T' /\
  iter_at (length ctx) T' (mkIterator (Some l) (Z.of_nat (length A))) xs (v :: ys).
Proof using Type.
  intros (<- & <- & Hn & Htied & Hsize' & Hg & _) Hctx Hsize Hwf T'.
  assert (tied bt' lm T') as (H1 & H2 & H3). { eapply tied_same, Htied. by apply same_ends_plug. }
  split_and!; [|done|].
  - split_and!; try done; cbn [size_ root_ rightmost_].
    + rewrite Hsize' Hsize. unfold T'. rewrite values_of_leaf // !length_app /=. lia.
    + destruct Hg as [->|[Hcap Hg]]; [constructor; [by destruct A|done]|]. apply good_iff, good_plug. split; [|done]. constructor; [by destruct A|done|done].
    + destruct Hg as [->|[Hcap Hg]]; [by left|right]. apply good_iff, good_plug. split; [|done]. constructor; [by destruct A|done|done].
  - exists ctx, (Tree l cap (A ++ v :: B) []), (length A), O. split_and!; try done; [apply (cursor_leaf ctx l cap A (v :: B))|].
    intros _. cbn. rewrite length_app /=. lia.
Qed.

Lemma wp_emplace_leaf bt ht T it xs ys v (Φ : Btree.btree * iterator -> hPropI V) : btree_pre bt ht T -> in_order (xs ++ v :: ys) ->
  leaf_at ht T it xs ys -> own ht T -∗
  (∀ bt' ht' T' it', ⟦btree_ok bt' ht' T' /\ iter_at ht' T' it' xs (v :: ys)⟧ -∗ own ht' T' -∗ Φ (bt', it')) -∗
  wp (let! n := the_node it in
      let! m := max_count n in
      let! c := count n in
      let! r :=
        (if c =? m then
           if m <? kNodeSlots then
             let! bt' := replace_leaf_root_node bt n (field (Z.min (i32 kNodeSlots) (2 * m))) in
             ret (bt', root_ bt', pos_ it)
           else let! f := heap_fuel in rebalance_or_split f bt n (pos_ it)
         else ret (bt, n, pos_ it)) in
      let '(t, n, pos) := r in
      emplace_value n (field pos) (value_init n (field pos) v) ;;
      let! o := is_ordered_correctly n (field pos) in
      check o ;;
      ret (mkBtree (root_ t) (rightmost_ t) (size_ t + 1), mkIterator (Some n) pos)) Φ.
Proof.
  intros Hpre Hord Hleaf. iIntros "H HΦ". iApply (wp_make_ready with "H"); [done|done|].
  iIntros (bt' lm l cap A B ctx) "%Hready H". pose proof Hready as (Hxs & Hys & Hn & _). pose proof slots_max_Z as Hm.
  iDestruct (focus_count with "H") as "[%Hc H]". destruct Hc as (Hc & _ & Hctx). cbn in Hc. rewrite length_app in Hc.
  rewrite field_id; [|lia]. iApply wp_bind. iApply (wp_at_emplace with "H"); [done|]. iIntros "H".
  iDestruct (focus_count with "H") as "[%Hc' H]". destruct Hc' as (_ & Hwf & _).
  assert (size_ bt = Z.of_nat (length (xs ++ ys))) as Hsize.
  { destruct Hpre as (_ & _ & -> & _). by rewrite (leaf_at_values _ _ _ _ _ Hleaf). }
  destruct (ready_done _ _ _ _ _ _ _ _ _ _ _ v Hready Hctx Hsize Hwf) as (Hok & Hlm & Hit).
  iApply wp_bind. iApply (wp_is_ordered_correctly _ _ (Tree l cap (A ++ v :: B) []) _ (length A) v with "H").
  { cbn. by apply list_lookup_middle. }
  { apply (in_order_node 0 (Tree l cap (A ++ v :: B) []) ctx Hwf Hctx). rewrite values_of_leaf // -assoc_L assoc_L Hxs /= Hys. done. }
  iIntros "H". iApply wp_bind. iApply wp_check; [done|]. iApply wp_ret. iApply ("HΦ" with "[] [H]"); [by iPureIntro|].
  rewrite Hlm. iApply (focus_own with "H"); [done|lia|done].
Qed.

Lemma wp_internal_emplace bt ht T it xs ys v (Φ : Btree.btree * iterator -> hPropI V) : btree_pre bt ht T -> in_order (xs ++ v :: ys) ->
  leaf_at ht T it xs ys \/ iter_at ht T it xs ys -> own ht T -∗
  (∀ bt' ht' T' it', ⟦btree_ok bt' ht' T' /\ iter_at ht' T' it' xs (v :: ys)⟧ -∗ own ht' T' -∗ Φ (bt', it')) -∗
  wp (internal_emplace bt it v) Φ.
Proof.
  intros Hpre Hord Hat. iIntros "H HΦ". unfold internal_emplace.
  destruct Hat as [Hat|(ctx & t & i & h & Hp & Hl & Hctx & Hcur & -> & _)]; cycle 1.
  - subst T. subst ht. iEval (rewrite (own_focus _ h) //) in "H".
    iDestruct (focus_count with "H") as "[%Hwf H]". destruct Hwf as (_ & Hwf & _).
    iApply wp_bind. iApply wp_lift; [done|]. iApply wp_bind. iApply (wp_at_is_internal with "H"). iIntros "H". iApply wp_bind. destruct h as [|h]; cbn [Nat.eqb negb].
    + apply cursor_leaf_inv in Hcur as (l & cap & A & B & -> & -> & -> & ->); [|done]. iApply wp_ret.
      iDestruct (focus_own (length ctx + 0) with "H") as "H"; [done|done|done|].
      iApply (wp_emplace_leaf with "H HΦ"); [done|done|]. exists ctx, l, cap, A, B. split_and!; (done || lia).
    + apply (cursor_inner_inv _ h) in Hcur as (l & A & x & B & TA & tl & tr & TB & -> & HTA & HTB & -> & -> & ->); [|done].
      iApply wp_bind. iApply (wp_decrement_inner with "H"); [done|done|].
      iIntros (t' ctx') "%Hway H". destruct Hway as (Hp & Hlen & Hctx' & Hwf' & Hbef & Haft). iApply wp_ret. cbn [node_ pos_].
      rewrite -Hp in Hpre |- *. rewrite -Hlen in Hpre |- *. destruct t' as [l' cap' vs' ts']. assert (ts' = []) as -> by apply Hwf'. cbn in Hbef.
      unfold count_of. cbn [node_values root_loc]. replace (Z.of_nat (length vs') - 1 + 1) with (Z.of_nat (length vs')) by lia.
      iDestruct (focus_own (length ctx') _ _ _ (plug (Tree l' cap' vs' []) ctx') with "H") as "H"; [done|lia|by rewrite Hp|].
      iApply (wp_emplace_leaf with "H HΦ"); [exact Hpre|done|]. exists ctx', l', cap', vs', []. rewrite app_nil_r. split_and!; done.
  - destruct Hat as (ctx & l & cap & A & B & Hp & Hl & Hctx & -> & Hx & Hy). rewrite -Hp in Hpre |- *. rewrite -Hl in Hpre |- *. iEval (rewrite (own_focus _ O); [|lia|done]) in "H".
    iApply wp_bind. iApply wp_lift; [done|]. iApply wp_bind. iApply (wp_at_is_internal _ _ (Tree l cap (A ++ B) []) with "H"). iIntros "H". iApply wp_bind. iApply wp_ret.
    iDestruct (focus_own (length ctx) _ _ _ (plug (Tree l cap (A ++ B) []) ctx) with "H") as "H"; [done|lia|by rewrite Hp|].
    iApply (wp_emplace_leaf with "H HΦ"); [done|done|]. by exists ctx, l, cap, A, B.
Qed.
End emplace.

(** ** [insert_unique] and [insert_multi] *)

Section insert.
Context {K V : Type} `{PB : BtreeParams K V} {LB : BtreeLaws K V} `{AL : Allocator} {FL : AllocatorLaws} {LK : KeyLaws K V}.
Implicit Types (T : tree V) (xs ys : list V) (k : K) (v y : V) (bt : Btree.btree) (S : shape (V := V)).

Lemma SS_insert (R : V -> V -> Prop) xs ys v : StronglySorted R (xs ++ ys) -> Forall (λ x, R x v) xs -> Forall (R v) ys ->
  StronglySorted R (xs ++ v :: ys).
Proof using Type.
  intros (Hxs & Hys & Hxy)%SS_app Hx Hy. apply SS_app. split_and!; [done|by constructor|].
  apply Forall_forall. intros x Hin. constructor; [by apply (proj1 (Forall_forall _ _) Hx)|by apply (proj1 (Forall_forall _ _) Hxy)].
Qed.
Lemma in_order_insert_unique xs ys v : in_order (xs ++ ys) -> can_have_multiple_equivalent_keys = false ->
  Forall (λ w, before_key (params_key v) w = true) xs -> Forall (λ w, after_key (params_key v) w = true) ys -> in_order (xs ++ v :: ys).
Proof using Type. unfold in_order, before_key, after_key. intros H Hu. rewrite Hu in H |- *. intros Hxs Hys. exact (SS_insert _ _ _ _ H Hxs Hys). Qed.
Lemma in_order_insert_multi xs ys v : in_order (xs ++ ys) -> can_have_multiple_equivalent_keys = true ->
  Forall (λ w, after_key (params_key v) w = false) xs -> Forall (λ w, after_key (params_key v) w = true) ys -> in_order (xs ++ v :: ys).
Proof.
  unfold in_order, after_key. intros H Hu Hxs Hys. rewrite Hu in H |- *. refine (SS_insert _ _ _ _ H Hxs _). eapply Forall_impl; [exact Hys|]. intros w Hw. by apply key_lt_asym.
Qed.

(** What insertion with unique keys does: the value stops at an equivalent key,
    or goes between the smaller ones and the greater ones. *)
Definition inserted_unique k v S (it : iterator) (b : bool) S' : Prop :=
  (exists xs y ys, b = false /\ S' = S /\ points S it xs (y :: ys) /\ same_key k y) \/
  (exists xs ys, b = true /\ contents S = xs ++ ys /\ Forall (λ w, before_key k w = true) xs /\ Forall (λ w, after_key k w = true) ys /\
     points S' it xs (v :: ys)).
(** With equivalent keys it goes behind all of them. *)
Definition inserted_multi k v S (it : iterator) S' : Prop :=
  exists xs ys, contents S = xs ++ ys /\ Forall (λ w, after_key k w = false) xs /\ Forall (λ w, after_key k w = true) ys /\
    points S' it xs (v :: ys).

Lemma wp_internal_end_pre bt ht T r xs ys (Φ : iterator -> hPropI V) : rightmost_ bt = rightmost_loc T -> last_of ht T r xs ys -> values_of T = xs ++ ys ->
  own ht T -∗ (∀ it, ⟦iter_at ht T it xs ys⟧ -∗ own ht T -∗ Φ it) -∗ wp (internal_end bt r) Φ.
Proof.
  intros Hright [[-> Hn]|[Hne Hit]] Hval; iIntros "H HΦ"; unfold internal_end.
  - rewrite Hn. rewrite app_nil_r in Hval. subst xs. by iApply (wp_end_at with "H HΦ").
  - assert (exists p, node_ r = Some p) as [p ->] by (destruct Hit as (? & ? & ? & ? & _ & _ & _ & _ & -> & _); by eexists).
    iApply wp_ret. by iApply ("HΦ" with "[] H").
Qed.

(** The container with a root. *)
Lemma wp_ensure_root bt S (Φ : Btree.btree -> hPropI V) : btree_own bt S -∗
  (∀ bt' ht T, ⟦btree_pre bt' ht T /\ values_of T = contents S /\ (values_of T ≠ [] -> bt' = bt /\ S = Some (ht, T) /\ btree_ok bt ht T)⟧ -∗ own ht T -∗ Φ bt') -∗
  wp (ensure_root bt) Φ.
Proof.
  iIntros "H HΦ". unfold ensure_root, empty. destruct S as [[ht T]|]; cbn [btree_own contents].
  - iDestruct "H" as "[%Hok H]". pose proof (btree_ok_pre _ _ _ Hok) as Hpre. pose proof Hok as (_ & _ & Hsize & Hfull & _).
    assert (size_ bt =? 0 = false) as ->.
    { rewrite Hsize. apply Z.eqb_neq. destruct T as [l cap vs ts]. apply full_inv in Hfull as [Hne _].
      destruct vs as [|v vs]; [done|]. destruct ts as [|t [|t' ts]]; cbn; rewrite ?length_app; cbn; lia. }
    iApply wp_ret. iApply ("HΦ" with "[] H"). by iPureIntro.
  - iDestruct "H" as "->". cbn [size_ btree_new Z.eqb]. iApply wp_bind. pose proof kNodeSlots_min. iApply wp_new_leaf_root_node; [lia|]. iIntros (p) "Hp". iApply wp_ret.
    iApply ("HΦ" $! _ O (Tree p 1 [] [])); [iPureIntro; split; [by split_and!; [..|left]|done]|].
    unfold own. rewrite own_tree_unfold. cbn [kids_below leftmost_loc]. iSplitR; [iPureIntro; split; [cbn; lia|split; [lia|done]]|].
    iSplitL; [|done]. iExists []. iFrame. iPureIntro. split; [apply children_at_nil|done].
Qed.

Lemma wp_insert_at bt ht T it xs ys v (Φ : Btree.btree * (iterator * bool) -> hPropI V) : btree_pre bt ht T -> in_order (xs ++ v :: ys) ->
  leaf_at ht T it xs ys -> own ht T -∗
  (∀ bt' S' it', ⟦points S' it' xs (v :: ys)⟧ -∗ btree_own bt' S' -∗ Φ (bt', (it', true))) -∗
  wp (let! r := internal_emplace bt it v in ret (fst r, (snd r, true))) Φ.
Proof.
  intros Hpre Hord Hleaf. iIntros "H HΦ". iApply wp_bind. iApply (wp_internal_emplace with "H"); [done|done|by left|].
  iIntros (bt' ht' T' it') "%Hr H". destruct Hr as [Hok Hit]. iApply wp_ret. cbn [fst snd].
  iApply ("HΦ" $! bt' (Some (ht', T'))); [by iPureIntro|]. cbn [btree_own]. by iFrame.
Qed.

Lemma wp_insert_unique bt S k v (Φ : Btree.btree * (iterator * bool) -> hPropI V) : in_order (contents S) ->
  can_have_multiple_equivalent_keys = false -> params_key v = k -> btree_own bt S -∗
  (∀ bt' S' it b, ⟦inserted_unique k v S it b S' /\ in_order (contents S')⟧ -∗ btree_own bt' S' -∗ Φ (bt', (it, b))) -∗
  wp (insert_unique bt k v) Φ.
Proof.
  intros Hord Huniq Hk. iIntros "H HΦ". iApply wp_bind. iApply (wp_ensure_root with "H"). iIntros (bt' ht T) "%Hpre H".
  destruct Hpre as (Hpre & Hval & Hsame). rewrite -Hval in Hord. iApply wp_bind.
  iApply (wp_internal_locate with "H"); [done|apply Hpre|]. iIntros ([it m]) "%Hr H". unfold HasMatch, IsEq. cbn [result_match result_value].
  assert (forall r xs y ys, iter_at ht T r xs (y :: ys) -> same_key k y ->
    own ht T ∗ (∀ bt' S' it b, ⟦inserted_unique k v S it b S' /\ in_order (contents S')⟧ -∗ btree_own bt' S' -∗ Φ (bt', (it, b))) ⊢ Φ (bt', (r, false))) as Hfound.
  { intros r xs y ys Hit Hy. iIntros "[H HΦ]". pose proof (iter_at_values _ _ _ _ _ Hit) as Hxy.
    destruct Hsame as (-> & HS & Hok); [by rewrite Hxy; destruct xs|]. iApply ("HΦ" $! bt S); [iPureIntro|].
    - split; [left; exists xs, y, ys; subst S; by split_and!|by rewrite -Hval].
    - subst S. cbn [btree_own]. by iFrame. }
  assert (forall xs ys, leaf_at ht T it xs ys -> Forall (λ w, before_key k w = true) xs -> Forall (λ w, after_key k w = true) ys ->
    own ht T ∗ (∀ bt' S' it b, ⟦inserted_unique k v S it b S' /\ in_order (contents S')⟧ -∗ btree_own bt' S' -∗ Φ (bt', (it, b))) ⊢
    wp (let! r := internal_emplace bt' it v in ret (fst r, (snd r, true))) Φ) as Hinsert.
  { intros xs ys Hleaf Hxs Hys. iIntros "[H HΦ]". pose proof (leaf_at_values _ _ _ _ _ Hleaf) as Hxy. rewrite Hxy in Hord. subst k.
    pose proof (in_order_insert_unique xs ys v Hord Huniq Hxs Hys) as Hord'.
    iApply (wp_insert_at with "H"); [done|done|done|]. iIntros (bt2 S' it') "%Hit H". iApply ("HΦ" with "[] H"). iPureIntro. split.
    - right. exists xs, ys. rewrite -Hval. by split_and!.
    - by rewrite (points_contents _ _ _ _ Hit). }
  destruct Hr as [(xs & y & ys & Hm & Hit & Hy)|(xs & ys & Hm & Hit & Hxs & Hys & Hkne)]; cbn [result_match result_value] in *.
  - rewrite Hm. iApply wp_ret. iApply (Hfound with "[$]"); done.
  - destruct m as [[]|]; [done|iApply Hinsert; [done|done|by apply Hkne|iFrame]|].
    iApply wp_bind. iApply (wp_internal_last with "H"); [done|]. iIntros (r) "%Hlast H".
    iApply wp_bind. iApply (wp_holds_key with "H"); [done|]. iIntros "H". pose proof (leaf_at_values _ _ _ _ _ Hit) as Hxy.
    destruct ys as [|y ys]; [iApply Hinsert; [done|done|done|iFrame]|]. destruct (after_key k y) eqn:Ey; cbn [negb].
    + iApply Hinsert; [done|done| |iFrame]. rewrite Hxy in Hord. by eapply head_all_after.
    + iApply wp_ret. destruct Hlast as [[? _]|[_ Hlast]]; [done|]. iApply (Hfound with "[$]"); [done|].
      split; [by apply Forall_cons in Hys as [? _]|done].
Qed.

Lemma wp_insert_multi bt S k v (Φ : Btree.btree * iterator -> hPropI V) : in_order (contents S) ->
  can_have_multiple_equivalent_keys = true -> params_key v = k -> btree_own bt S -∗
  (∀ bt' S' it, ⟦inserted_multi k v S it S' /\ in_order (contents S')⟧ -∗ btree_own bt' S' -∗ Φ (bt', it)) -∗
  wp (insert_multi bt k v) Φ.
Proof.
  intros Hord Hmul Hk. iIntros "H HΦ". iApply wp_bind. iApply (wp_ensure_root with "H"). iIntros (bt' ht T) "%Hpre H".
  destruct Hpre as (Hpre & Hval & _). rewrite -Hval in Hord. iApply wp_bind. iApply wp_bind. iApply (own_fuel with "H"). iIntros (f) "%Hf H".
  rewrite (proj1 Hpre). iEval (rewrite own_root) in "H".
  iApply (wp_upper_loop with "H"); [done|done|done|done|done|]. iIntros (r xs ys) "%Hr H". destruct Hr as (Hlast & Hxy & Hxs & Hys).
  cbn [length plug Nat.add] in *. rewrite Hxy in Hord. subst k.
  assert (Forall (λ w, after_key (params_key v) w = false) xs) as Hxs' by (eapply Forall_impl; [exact Hxs|]; intros w Hw; cbn in Hw; by destruct (after_key _ w)).
  assert (Forall (λ w, after_key (params_key v) w = true) ys) as Hys' by (eapply Forall_impl; [exact Hys|]; intros w Hw; cbn in Hw; by destruct (after_key _ w)).
  pose proof (in_order_insert_multi xs ys v Hord Hmul Hxs' Hys') as Hord'.
  iApply wp_bind. iApply (wp_internal_end_pre with "H"); [apply Hpre|done|done|]. iIntros (it) "%Hit H".
  iApply (wp_internal_emplace with "H"); [done|done|by right|]. iIntros (bt2 ht' T' it') "%Hr H". destruct Hr as [Hok Hit'].
  iApply ("HΦ" $! bt2 (Some (ht', T'))); [iPureIntro|cbn [btree_own]; by iFrame]. split.
  - exists xs, ys. rewrite -Hval. by split_and!.
  - cbn. by rewrite (iter_at_values _ _ _ _ _ Hit').
Qed.
End insert.
