(* ===== verification/BtreeHint.v ===== *)
(** * BtreeHint: comparing iterators, and insertion by a hint (lemmas for Btree.v)

    An iterator determines its position in the sequence, since the nodes of a
    tree have different addresses. *)

From S2P Require Import Prelude.
From S2P Require Import BtreeNode.
From S2P Require Import Btree.
From S2P Require Import HeapLogic.
From S2P Require Import BtreeTree.
From S2P Require Import BtreeFree.
From S2P Require Import BtreeMove.
From S2P Require Import BtreeZip.
From S2P Require Import BtreeSearch.
From S2P Require Import BtreeLookup.
From S2P Require Import BtreePair.
From S2P Require Import BtreeInsert.
From Stdlib Require Import Sorting.Sorted.
From iris.proofmode Require Import proofmode.
Import btree_node.
Import btree_iterator.
Import btree.
#[local] Open Scope Z_scope.
#[local] Open Scope cpp_scope.

(** ** A node is in one place *)

Section unique.
Context {K V : Type} `{PB : BtreeParams K V}.
Implicit Types (t u T : tree V) (ts : list (tree V)) (ctx : list (crumb V)) (xs ys : list V).

Lemma nodup_join {X} (f : X -> list loc) (l : list X) i j a b p : NoDup (mjoin (f <$> l)) -> l !! i = Some a -> l !! j = Some b ->
  p ∈ f a -> p ∈ f b -> i = j.
Proof using Type.
  revert i j. induction l as [|x l IH]; intros i j Hnd Ha Hb Hpa Hpb; [done|]. cbn in Hnd. apply NoDup_app in Hnd as (_ & Hdis & Hnd).
  assert (forall k c, l !! k = Some c -> p ∈ f c -> p ∈ mjoin (f <$> l)) as Hin.
  { intros k c Hk Hp. apply list_elem_of_join. exists (f c). split; [done|]. by eapply list_elem_of_fmap_2, list_elem_of_lookup_2. }
  destruct i as [|i], j as [|j]; cbn in Ha, Hb; [done| | |f_equal; by apply IH].
  - injection Ha as ->. destruct (Hdis p); [done|by eapply Hin].
  - injection Hb as ->. destruct (Hdis p); [done|by eapply Hin].
Qed.
Lemma root_loc_in t : root_loc t ∈ locs t.
Proof using Type. destruct t. apply list_elem_of_here. Qed.
Lemma root_in_plug t ctx : root_loc t ∈ locs (plug t ctx).
Proof using Type. rewrite locs_plug. apply elem_of_app. left. apply root_loc_in. Qed.
Lemma root_not_plug t c ctx : NoDup (locs (plug t (c :: ctx))) -> root_loc t ≠ root_loc (plug t (c :: ctx)).
Proof using Type.
  rewrite locs_plug. intros (_ & Hdis & _)%NoDup_app Heq. apply (Hdis (root_loc t)); [apply root_loc_in|]. rewrite Heq. apply root_plug_in.
Qed.

Lemma focus_unique t ctx t' ctx' : NoDup (locs (plug t ctx)) -> Forall crumb_ok ctx -> Forall crumb_ok ctx' ->
  plug t ctx = plug t' ctx' -> root_loc t = root_loc t' -> t = t' /\ ctx = ctx'.
Proof using Type.
  revert ctx'. induction ctx as [|c ctx IH] using rev_ind; intros ctx' Hnd Hok Hok' Hp Hr.
  - cbn in Hp, Hnd. destruct ctx' as [|c' ctx']; [done|]. rewrite Hp in Hnd. apply root_not_plug in Hnd. by rewrite -Hp in Hnd.
  - destruct ctx' as [|c' ctx' _] using rev_ind.
    { cbn in Hp. destruct (ctx ++ [c]) as [|c' ctx'] eqn:E; [by destruct ctx|]. apply root_not_plug in Hnd. by rewrite Hp in Hnd. }
    rewrite !plug_app /= in Hp, Hnd |- *. apply Forall_app in Hok as [Hok [[Hcl Hcr] _]%Forall_cons]. apply Forall_app in Hok' as [Hok' [[Hcl' Hcr'] _]%Forall_cons].
    destruct c as [l A B TA TB], c' as [l' A' B' TA' TB']. cbn in *. injection Hp as <- Hvs Hts. apply NoDup_cons in Hnd as [_ Hnd].
    assert (length TA = length TA') as Hlen.
    { apply (nodup_join locs _ _ _ (plug t ctx) (plug t' ctx') (root_loc t) Hnd); [by apply list_lookup_middle|by rewrite Hts; apply list_lookup_middle|apply root_in_plug|].
      rewrite Hr. apply root_in_plug. }
    apply app_inj_1 in Hts as [<- Hts]; [|done]. injection Hts as Hu <-. apply app_inj_1 in Hvs as [<- <-]; [|lia].
    assert (NoDup (locs (plug t ctx))) as Hnd'. { rewrite fmap_app join_app /= in Hnd. apply NoDup_app in Hnd as (_ & _ & Hnd). by apply NoDup_app in Hnd as (Hnd & _ & _). }
    by destruct (IH ctx' Hnd' Hok Hok' Hu Hr) as [-> ->].
Qed.

Lemma cursor_unique ctx t i xs ys xs' ys' : cursor ctx t i xs ys -> cursor ctx t i xs' ys' -> xs = xs' /\ ys = ys'.
Proof using Type.
  intros Hc Hc'. destruct Hc as [l cap A B|l cap A v B TA tl tr TB HA HB].
  - remember (Tree l cap (A ++ B) []) as t eqn:Et. remember (length A) as i eqn:Ei. destruct Hc' as [l' cap' A' B'|l' cap' A' v' B' TA' tl' tr' TB' HA' HB'].
    + injection Et as -> -> Hv. by apply app_inj_1 in Hv as [-> ->].
    + by destruct TA'.
  - remember (Tree l cap (A ++ v :: B) (TA ++ tl :: tr :: TB)) as t eqn:Et. remember (length A) as i eqn:Ei.
    destruct Hc' as [l' cap' A' B'|l' cap' A' v' B' TA' tl' tr' TB' HA' HB']; [by destruct TA|].
    injection Et as -> -> Hv Ht. apply app_inj_1 in Hv as [-> [= -> ->]]; [|done]. apply app_inj_1 in Ht as [-> [= -> -> ->]]; [done|lia].
Qed.
Lemma iter_at_unique ht T it xs ys xs' ys' : NoDup (locs T) -> iter_at ht T it xs ys -> iter_at ht T it xs' ys' -> xs = xs' /\ ys = ys'.
Proof using Type.
  intros Hnd (ctx & t & i & h & Hp & _ & Hok & Hc & -> & _) (ctx' & t' & i' & h' & Hp' & _ & Hok' & Hc' & Hit & _).
  injection Hit as Hr Hi. apply Nat2Z.inj in Hi. subst i'. rewrite -Hp in Hnd. rewrite -Hp in Hp'.
  destruct (focus_unique _ _ _ _ Hnd Hok Hok' (eq_sym Hp') Hr) as [<- <-]. by eapply cursor_unique.
Qed.

(** The two ends. *)
Lemma iter_at_rightmost ht T it xs : iter_at ht T it xs [] ->
  exists ctx t, plug t ctx = T /\ Forall crumb_ok ctx /\ root_loc t = rightmost_loc T /\ it = mkIterator (Some (root_loc t)) (count_of t).
Proof using Type.
  intros (ctx & t & i & h & <- & _ & Hok & Hc & -> & _). remember [] as ys eqn:Hys.
  destruct Hc as [l cap A B|l cap A v B TA tl tr TB HA HB]; [|done]. apply app_nil in Hys as [-> Haft].
  exists ctx, (Tree l cap (A ++ []) []). rewrite app_nil_r. split_and!; [done|done| |done].
  destruct (right_turn ctx Hok) as [Hend|(ctx1 & c & ctx2 & v & B & t & ts & -> & _ & Hv & Ht)].
  - by rewrite rightmost_plug_end.
  - rewrite after_app after_cons Hv Ht rpart_cons in Haft. by destruct (after ctx1).
Qed.
Lemma end_unique ht T it it' xs xs' : NoDup (locs T) -> iter_at ht T it xs [] -> iter_at ht T it' xs' [] -> it = it'.
Proof using Type.
  intros Hnd H1 H2. destruct (iter_at_rightmost _ _ _ _ H1) as (ctx & t & Hp & Hok & Hr & ->).
  destruct (iter_at_rightmost _ _ _ _ H2) as (ctx' & t' & Hp' & Hok' & Hr' & ->). rewrite -Hp in Hnd.
  by destruct (focus_unique t ctx t' ctx' Hnd Hok Hok') as [-> _]; [congruence..|].
Qed.
Lemma leftmost_plug_end t ctx : Forall left_end ctx -> leftmost_loc (plug t ctx) = leftmost_loc t.
Proof using Type.
  intros H. revert t. induction H as [|c ctx [Hc Ht] _ IH]; intros t; [done|]. cbn [plug]. by rewrite IH Ht leftmost_loc_head.
Qed.
Lemma full_values t : full t -> values_of t ≠ [].
Proof using Type.
  destruct t as [l cap vs ts]. intros [Hne _]%full_inv. destruct vs as [|v vs]; [done|]. destruct ts as [|t [|t' ts]]; [done|..]; intros H.
  - cbn in H. by apply app_nil in H as [_ ?].
  - cbn in H. by apply app_nil in H as [_ ?].
Qed.
Lemma iter_at_leftmost ht T it ys : full T -> iter_at ht T it [] ys -> it = mkIterator (Some (leftmost_loc T)) 0.
Proof using Type.
  intros Hfull (ctx & t & i & h & <- & _ & Hok & Hc & -> & _). apply full_plug in Hfull. remember [] as xs eqn:Hxs.
  destruct Hc as [l cap A B|l cap A v B TA tl tr TB HA HB].
  - apply app_nil in Hxs as [Hbef ->]. f_equal. f_equal. destruct (left_turn ctx Hok) as [Hend|(ctx1 & c & ctx2 & A & v & ts & t & -> & _ & Hv & Ht)].
    + by rewrite leftmost_plug_end.
    + apply Forall_app in Hok as [_ [[Hc _] _]%Forall_cons]. rewrite Hv Ht !length_app /= in Hc.
      rewrite before_app before_cons Hv Ht lpart_app in Hbef; [|lia]. assert (lpart [t] [v] = values_of t ++ [v]) as Hl by by rewrite /lpart /= right_id_L.
      apply (f_equal length) in Hbef. rewrite Hl !length_app /= in Hbef. lia.
  - apply full_inv in Hfull as [_ Hfull]. apply Forall_app in Hfull as [_ Hfull]. apply Forall_cons in Hfull as [Htl _].
    apply app_nil in Hxs as [_ Hxs]. apply app_nil in Hxs as [_ Hxs]. by apply full_values in Htl.
Qed.
End unique.

(** ** [Equals] *)

Section equals.
Context {K V : Type} `{PB : BtreeParams K V} {LB : BtreeLaws K V} `{AL : Allocator} {FL : AllocatorLaws} {LK : KeyLaws K V}.
Implicit Types (t T : tree V) (ctx : list (crumb V)) (xs ys : list V) (bt : Btree.btree) (k : K) (v y : V) (S : shape (V := V)).

Lemma wp_root_of lm ht t ctx fuel (Φ : loc -> hPropI V) : lm = leftmost_loc (plug t ctx) -> (length ctx < fuel)%nat ->
  focus lm ht t ctx -∗ (own (length ctx + ht) (plug t ctx) -∗ Φ (root_loc (plug t ctx))) -∗ wp (root_of fuel (root_loc t)) Φ.
Proof.
  intros ->. revert ht t fuel. induction ctx as [|c ctx IH]; intros ht t [|fuel] Hf; cbn in Hf; try lia; cbn [root_of]; iIntros "H HΦ";
    iApply wp_bind; (iApply (wp_at_is_root with "H"); [done|]); iIntros "H".
  - rewrite bool_decide_true //. iApply wp_ret. iApply "HΦ". by rewrite own_root.
  - rewrite bool_decide_false //. iApply wp_bind. iApply (wp_at_parent with "H"). iIntros "H". cbn [ctx_parent].
    iDestruct (focus_step with "H") as "[%Hc H]". iApply (IH (S ht) (graft t c) with "H"); [lia|]. iIntros "H".
    iApply "HΦ". cbn [length plug]. by rewrite Nat.add_succ_r.
Qed.

Lemma own_nodup ht T : own ht T ⊢ ⟦NoDup (locs T) /\ tree_wf ht T⟧ ∗ own ht T.
Proof using Type.
  iIntros "H". unfold own. iDestruct (own_tree_wf with "H") as "[%Hwf H]".
  iDestruct (covers_nodup _ _ (covers_tree _ _ _ _) with "H") as "[%Hnd $]". by iPureIntro.
Qed.

Lemma wp_root_of_iter ht T it xs ys f p (Φ : loc -> hPropI V) : iter_at ht T it xs ys -> node_ it = Some p -> (ht < f)%nat ->
  own ht T -∗ (own ht T -∗ Φ (root_loc T)) -∗ wp (root_of f p) Φ.
Proof.
  intros (ctx & t & i & h & <- & <- & Hctx & _ & -> & _) [= <-] Hf. iIntros "H HΦ". iEval (rewrite (own_focus _ h) //) in "H".
  iApply (wp_root_of with "H HΦ"); [done|lia].
Qed.

Lemma wp_Equals ht T it it' xs ys xs' ys' (Φ : bool -> hPropI V) : iter_at ht T it xs ys -> iter_at ht T it' xs' ys' ->
  own ht T -∗ (own ht T -∗ Φ (bool_decide (it = it'))) -∗ wp (Equals it it') Φ.
Proof.
  intros Hit Hit'. iIntros "H HΦ".
  assert (exists p, node_ it = Some p) as [p Hp] by (destruct Hit as (? & ? & ? & ? & _ & _ & _ & _ & -> & _); by eexists).
  assert (exists p, node_ it' = Some p) as [p' Hp'] by (destruct Hit' as (? & ? & ? & ? & _ & _ & _ & _ & -> & _); by eexists).
  iApply wp_bind. iApply wp_check; [apply bool_decide_eq_true; by rewrite Hp Hp'|]. iApply wp_bind. rewrite Hp Hp'. cbn [AreNodesFromSameContainer].
  iApply wp_bind. iApply (own_fuel with "H"). iIntros (f) "%Hf H".
  iApply wp_bind. iApply (wp_root_of_iter with "H"); [exact Hit|done|done|]. iIntros "H".
  iApply wp_bind. iApply (wp_root_of_iter with "H"); [exact Hit'|done|done|]. iIntros "H".
  iApply wp_ret. iApply wp_bind. iApply wp_check; [by apply bool_decide_eq_true|]. iApply wp_ret. by iApply "HΦ".
Qed.

(** Whether a position is an end. *)
Lemma wp_Equals_end ht T it e xs ys (Φ : bool -> hPropI V) : iter_at ht T it xs ys -> iter_at ht T e (values_of T) [] ->
  own ht T -∗ (own ht T -∗ Φ (bool_decide (ys = []))) -∗ wp (Equals it e) Φ.
Proof.
  intros Hit He. iIntros "H HΦ". iDestruct (own_nodup with "H") as "[%Hnd H]". destruct Hnd as [Hnd _].
  iApply (wp_Equals with "H"); [done|done|]. rewrite (bool_decide_ext (it = e) (ys = [])); [done|]. split.
  - intros ->. by destruct (iter_at_unique _ _ _ _ _ _ _ Hnd Hit He).
  - intros ->. by eapply end_unique.
Qed.
Lemma wp_Equals_begin ht T it b xs ys (Φ : bool -> hPropI V) : full T -> iter_at ht T it xs ys -> iter_at ht T b [] (values_of T) ->
  own ht T -∗ (own ht T -∗ Φ (bool_decide (xs = []))) -∗ wp (Equals it b) Φ.
Proof.
  intros Hfull Hit Hb. iIntros "H HΦ". iDestruct (own_nodup with "H") as "[%Hnd H]". destruct Hnd as [Hnd _].
  iApply (wp_Equals with "H"); [done|done|]. rewrite (bool_decide_ext (it = b) (xs = [])); [done|]. split.
  - intros ->. by destruct (iter_at_unique _ _ _ _ _ _ _ Hnd Hit Hb).
  - intros ->. by rewrite (iter_at_leftmost _ _ _ _ Hfull Hit) (iter_at_leftmost _ _ _ _ Hfull Hb).
Qed.

Lemma wp_key_before ht T it xs y ys k (Φ : bool -> hPropI V) : iter_at ht T it xs (y :: ys) ->
  own ht T -∗ (own ht T -∗ Φ (after_key k y)) -∗ wp (key_before k it) Φ.
Proof. intros Hit. iIntros "H HΦ". iApply wp_bind. iApply (wp_iter_key with "H"); [done|]. iIntros "H". iApply wp_lift; [apply compare_keys_ok|]. by iApply "HΦ". Qed.
Lemma wp_key_after ht T it xs y ys k (Φ : bool -> hPropI V) : iter_at ht T it xs (y :: ys) ->
  own ht T -∗ (own ht T -∗ Φ (before_key k y)) -∗ wp (key_after k it) Φ.
Proof. intros Hit. iIntros "H HΦ". iApply wp_bind. iApply (wp_iter_key with "H"); [done|]. iIntros "H". iApply wp_lift; [apply compare_keys_ok|]. by iApply "HΦ". Qed.

(** The tests of a position against its neighbours. *)
Definition head_ok (P : V -> bool) xs : bool := match xs with [] => true | x :: _ => P x end.
Definition last_ok (P : V -> bool) xs : bool := match last xs with None => true | Some x => P x end.

Lemma wp_end_or {X} ht T it e xs ys P (m : M V bool) (kk : bool -> M V X) (Φ : X -> hPropI V) :
  iter_at ht T it xs ys -> iter_at ht T e (values_of T) [] ->
  (forall y ys' (Ψ : bool -> hPropI V), ys = y :: ys' -> own ht T -∗ (own ht T -∗ Ψ (P y)) -∗ wp m Ψ) ->
  own ht T -∗ (own ht T -∗ wp (kk (head_ok P ys)) Φ) -∗
  wp (let! a := Equals it e in let! b := (if a then ret true else m) in kk b) Φ.
Proof.
  intros Hit He Hm. iIntros "H HΦ". iApply wp_bind. iApply (wp_Equals_end with "H"); [done|done|]. iIntros "H". iApply wp_bind.
  destruct ys as [|y ys]; [rewrite bool_decide_true //; iApply wp_ret; by iApply "HΦ"|]. rewrite bool_decide_false //.
  by iApply (Hm with "H").
Qed.
Lemma wp_begin_or {X} ht T it b xs ys P (f : iterator -> M V bool) (kk : bool -> M V X) (Φ : X -> hPropI V) :
  full T -> iter_at ht T it xs ys -> iter_at ht T b [] (values_of T) ->
  (forall it' xs' y ys' (Ψ : bool -> hPropI V), iter_at ht T it' xs' (y :: ys') -> own ht T -∗ (own ht T -∗ Ψ (P y)) -∗ wp (f it') Ψ) ->
  own ht T -∗ (own ht T -∗ wp (kk (last_ok P xs)) Φ) -∗
  wp (let! a := Equals it b in let! c := (if a then ret true else let! p := decrement it in f p) in kk c) Φ.
Proof.
  intros Hfull Hit Hb Hf. iIntros "H HΦ". iApply wp_bind. iApply (wp_Equals_begin with "H"); [done|done|done|]. iIntros "H". iApply wp_bind.
  destruct xs as [|x xs _] using rev_ind; [rewrite bool_decide_true //; iApply wp_ret; by iApply "HΦ"|].
  rewrite bool_decide_false; [|by destruct xs]. unfold last_ok. rewrite last_snoc. iApply wp_bind. iApply (wp_decrement with "H"); [done|done|].
  iIntros (p) "%Hp H". by iApply (Hf with "H").
Qed.

Lemma last_ok_all P xs ys : downward P (xs ++ ys) -> last_ok P xs = true -> Forall (λ v, P v = true) xs.
Proof using Type.
  intros (Hd & _ & _)%SS_app Hl. destruct xs as [|x xs _] using rev_ind; [done|]. unfold last_ok in Hl. rewrite last_snoc in Hl.
  apply SS_app in Hd as (_ & _ & Hd). apply Forall_app. split; [|by constructor]. eapply Forall_impl; [exact Hd|]. intros v Hv.
  apply Forall_cons in Hv as [Hv _]. by apply Hv.
Qed.
Lemma head_ok_all P xs ys : downward P (xs ++ ys) -> head_ok (λ v, negb (P v)) ys = true -> Forall (λ v, P v = false) ys.
Proof using Type.
  intros (_ & Hd & _)%SS_app Hl. destruct ys as [|y ys]; [done|]. cbn in Hl. apply negb_true_iff in Hl.
  apply StronglySorted_inv in Hd as [_ Hd]. constructor; [done|]. eapply Forall_impl; [exact Hd|]. intros v Hv. cbn in Hv.
  destruct (P v); [|done]. rewrite Hv in Hl; done.
Qed.
End equals.

(** ** [insert_hint_unique] and [insert_hint_multi] *)

Section hint.
Context {K V : Type} `{PB : BtreeParams K V} {LB : BtreeLaws K V} `{AL : Allocator} {FL : AllocatorLaws} {LK : KeyLaws K V}.
Implicit Types (T : tree V) (xs ys : list V) (bt : Btree.btree) (k : K) (v y : V) (S : shape (V := V)).

Lemma btree_ok_nonempty bt ht T : btree_ok bt ht T -> empty bt = false.
Proof using Type.
  intros (_ & _ & Hsize & Hfull & _). unfold empty. rewrite Hsize. apply Z.eqb_neq. apply full_values in Hfull. by destruct (values_of T).
Qed.
Lemma wp_begin_at bt ht T (Φ : iterator -> hPropI V) : btree_ok bt ht T ->
  own ht T -∗ (∀ it, ⟦iter_at ht T it [] (values_of T)⟧ -∗ own ht T -∗ Φ it) -∗ wp (begin_ bt) Φ.
Proof.
  intros Hok. iIntros "H HΦ". iApply (wp_begin _ (Some (ht, T)) with "[H]"); [cbn [btree_own]; by iFrame|]. iIntros (it) "%Hit [_ H]". by iApply ("HΦ" with "[] H").
Qed.

(** The value goes to a position whose neighbours allow it. *)
Lemma wp_hint_emplace bt ht T it xs ys k v (Φ : Btree.btree * (iterator * bool) -> hPropI V) :
  in_order (values_of T) -> can_have_multiple_equivalent_keys = false -> params_key v = k -> btree_ok bt ht T -> iter_at ht T it xs ys ->
  last_ok (before_key k) xs = true -> head_ok (after_key k) ys = true ->
  own ht T -∗
  (∀ bt' S' it b, ⟦inserted_unique k v (Some (ht, T)) it b S' /\ in_order (contents S')⟧ -∗ btree_own bt' S' -∗ Φ (bt', (it, b))) -∗
  wp (let! r := internal_emplace bt it v in ret (fst r, (snd r, true))) Φ.
Proof.
  intros Hord Huniq <- Hok Hit Hl Hr. iIntros "H HΦ". pose proof (iter_at_values _ _ _ _ _ Hit) as Hval. rewrite Hval in Hord.
  pose proof (last_ok_all _ _ _ (downward_before (params_key v) _ Hord) Hl) as Hxs.
  assert (Forall (λ w, after_key (params_key v) w = true) ys) as Hys.
  { eapply Forall_impl; [apply (head_ok_all _ xs ys (downward_not_after (params_key v) _ Hord))|intros w Hw; by apply negb_false_iff in Hw].
    unfold head_ok in *. by destruct ys; [|rewrite negb_involutive]. }
  pose proof (in_order_insert_unique xs ys v Hord Huniq Hxs Hys) as Hord'.
  iApply wp_bind. iApply (wp_internal_emplace with "H"); [by apply btree_ok_pre|done|by right|].
  iIntros (bt' ht' T' it') "%Hr' H". destruct Hr' as [Hok' Hit']. iApply wp_ret. cbn [fst snd].
  iApply ("HΦ" $! bt' (Some (ht', T'))); [iPureIntro|cbn [btree_own]; by iFrame]. split.
  - right. exists xs, ys. by split_and!.
  - cbn. by rewrite (iter_at_values _ _ _ _ _ Hit').
Qed.

Lemma wp_insert_hint_unique bt S p xs ys k v (Φ : Btree.btree * (iterator * bool) -> hPropI V) : in_order (contents S) ->
  can_have_multiple_equivalent_keys = false -> params_key v = k -> points S p xs ys -> btree_own bt S -∗
  (∀ bt' S' it b, ⟦inserted_unique k v S it b S' /\ in_order (contents S')⟧ -∗ btree_own bt' S' -∗ Φ (bt', (it, b))) -∗
  wp (insert_hint_unique bt p k v) Φ.
Proof.
  intros Hord Huniq Hk Hp. destruct S as [[ht T]|]; cycle 1.
  { iIntros "H HΦ". iEval (cbn [btree_own]) in "H". iDestruct "H" as "->". unfold insert_hint_unique. cbn [empty btree_new size_ Z.eqb negb].
    iApply (wp_insert_unique _ None with "[] HΦ"); by try iPureIntro. }
  iIntros "[%Hok H] HΦ". cbn [points contents] in *. unfold insert_hint_unique. rewrite (btree_ok_nonempty _ _ _ Hok). cbn [negb].
  pose proof Hok as (_ & Hright & _ & Hfull & _).
  iAssert (∀ Φ, own ht T -∗ (∀ bt' S' it b, ⟦inserted_unique k v (Some (ht, T)) it b S' /\ in_order (contents S')⟧ -∗ btree_own bt' S' -∗ Φ (bt', (it, b))) -∗ wp (insert_unique bt k v) Φ)%I as "Hplain".
  { iIntros (Ψ) "H HΨ". iApply (wp_insert_unique _ (Some (ht, T)) with "[H] HΨ"); [done|done|done|]. cbn [btree_own]. by iFrame. }
  iApply wp_bind. iApply (wp_end_at with "H"); [done|]. iIntros (e) "%He H".
  iApply (wp_end_or _ _ _ _ _ _ (after_key k) with "H"); [done|done| |].
  { intros y ys' Ψ ->. by apply wp_key_before with (xs := xs) (ys := ys'). }
  iIntros "H". destruct (head_ok (after_key k) ys) eqn:Ehead.
  - iApply wp_bind. iApply (wp_begin_at with "H"); [done|]. iIntros (b) "%Hb H".
    iApply (wp_begin_or _ _ _ _ _ _ (before_key k) with "H"); [done|done|done| |].
    { intros it' xs' y ys' Ψ Hit'. by apply wp_key_after with (xs := xs') (ys := ys'). }
    iIntros "H". destruct (last_ok (before_key k) xs) eqn:Elast; [|by iApply ("Hplain" with "H HΦ")].
    by iApply (wp_hint_emplace with "H HΦ").
  - destruct ys as [|y ys]; [done|]. cbn in Ehead. iApply wp_bind. iApply (wp_key_after with "H"); [done|]. iIntros "H".
    destruct (before_key k y) eqn:Ey; cycle 1.
    { iApply wp_ret. iApply ("HΦ" $! bt (Some (ht, T))); [iPureIntro|cbn [btree_own]; by iFrame]. split; [|done].
      left. by exists xs, y, ys. }
    iApply wp_bind. iApply (wp_increment with "H"); [done|done|]. iIntros (p') "%Hp' H".
    iApply (wp_end_or _ _ _ _ _ _ (after_key k) with "H"); [done|done| |].
    { intros y' ys' Ψ ->. by apply wp_key_before with (xs := xs ++ [y]) (ys := ys'). }
    iIntros "H". destruct (head_ok (after_key k) ys) eqn:Ehead'; [|by iApply ("Hplain" with "H HΦ")].
    iApply (wp_hint_emplace with "H HΦ"); [done|done|done|done|done| |done]. unfold last_ok. by rewrite last_snoc.
Qed.

(** A position that takes a value with the key: what is in front of it is not
    larger, what is behind it not smaller. *)
Definition takes k xs ys : Prop := Forall (λ w, after_key k w = false) xs /\ Forall (λ w, before_key k w = false) ys.

(** What a hint between [xs] and [ys] does with equivalent keys: the value goes
    exactly there if the position takes it; right behind the next value if that
    is smaller and the position there takes it; and otherwise where an
    insertion without a hint puts it. *)
Definition inserted_hint k v S xs ys (it : iterator) S' : Prop :=
  (takes k xs ys -> points S' it xs (v :: ys)) /\
  (forall y ys', ys = y :: ys' -> before_key k y = true -> takes k (xs ++ [y]) ys' -> points S' it (xs ++ [y]) (v :: ys')) /\
  (~ takes k xs ys -> (forall y ys', ys = y :: ys' -> before_key k y = true -> ~ takes k (xs ++ [y]) ys') -> inserted_multi k v S it S').

(** At the end, the value goes behind all equivalent ones. *)
Lemma inserted_hint_end k v S xs it S' : contents S = xs -> in_order xs -> inserted_hint k v S xs [] it S' -> inserted_multi k v S it S'.
Proof.
  intros Hval Hord (H1 & _ & H3). destruct (decide (Forall (λ w, after_key k w = false) xs)) as [Hxs|Hxs].
  - exists xs, []. split; [by rewrite Hval app_nil_r|]. split; [done|]. split; [done|]. by apply H1.
  - apply H3; [by intros [? _]|done].
Qed.

Lemma takes_ok k xs ys : in_order (xs ++ ys) ->
  last_ok (λ w, negb (after_key k w)) xs && head_ok (λ w, negb (before_key k w)) ys = true <-> takes k xs ys.
Proof.
  intros Hord. rewrite andb_true_iff. split.
  - intros [Hl Hr]. split; [|exact (head_ok_all _ _ _ (downward_before k _ Hord) Hr)].
    eapply Forall_impl; [exact (last_ok_all _ _ _ (downward_not_after k _ Hord) Hl)|]. intros w Hw. by apply negb_true_iff in Hw.
  - intros [Hxs Hys]. split.
    + destruct xs as [|x xs _] using rev_ind; [done|]. unfold last_ok. rewrite last_snoc. apply Forall_app in Hxs as [_ [Hx _]%Forall_cons]. by rewrite Hx.
    + destruct ys as [|y ys]; [done|]. apply Forall_cons in Hys as [Hy _]. cbn. by rewrite Hy.
Qed.

Lemma wp_hint_multi_emplace bt ht T it xs ys v (Φ : Btree.btree * iterator -> hPropI V) (k := params_key v) :
  in_order (values_of T) -> can_have_multiple_equivalent_keys = true -> btree_ok bt ht T -> iter_at ht T it xs ys -> takes k xs ys ->
  own ht T -∗
  (∀ bt' S' it, ⟦points S' it xs (v :: ys) /\ in_order (contents S')⟧ -∗ btree_own bt' S' -∗ Φ (bt', it)) -∗
  wp (internal_emplace bt it v) Φ.
Proof.
  intros Hord Hmul Hok Hit [Hxs Hys]. iIntros "H HΦ". pose proof (iter_at_values _ _ _ _ _ Hit) as Hval. rewrite Hval in Hord.
  assert (in_order (xs ++ v :: ys)) as Hord'.
  { unfold in_order in *. rewrite Hmul in Hord |- *. exact (SS_insert _ _ _ _ Hord Hxs Hys). }
  iApply (wp_internal_emplace with "H"); [by apply btree_ok_pre|done|by right|].
  iIntros (bt' ht' T' it') "%Hr' H". destruct Hr' as [Hok' Hit'].
  iApply ("HΦ" $! bt' (Some (ht', T'))); [iPureIntro|cbn [btree_own]; by iFrame]. split; [done|].
  cbn. by rewrite (iter_at_values _ _ _ _ _ Hit').
Qed.

Lemma wp_insert_hint_multi bt S p xs ys v (Φ : Btree.btree * iterator -> hPropI V) (k := params_key v) : in_order (contents S) ->
  can_have_multiple_equivalent_keys = true -> points S p xs ys -> btree_own bt S -∗
  (∀ bt' S' it, ⟦inserted_hint k v S xs ys it S' /\ in_order (contents S')⟧ -∗ btree_own bt' S' -∗ Φ (bt', it)) -∗
  wp (insert_hint_multi bt p v) Φ.
Proof.
  intros Hord Hmul Hp. destruct S as [[ht T]|]; cycle 1.
  { iIntros "H HΦ". iEval (cbn [btree_own]) in "H". iDestruct "H" as "->". unfold insert_hint_multi. cbn [empty btree_new size_ Z.eqb negb].
    iApply (wp_insert_multi _ None with "[]"); [done|done|done|by iPureIntro|]. iIntros (bt' S' it) "%Hr H". destruct Hr as [Hr Hord'].
    iApply ("HΦ" with "[] H"). iPureIntro. destruct Hp as (_ & -> & ->). split; [|done]. split; [|split; [done|by intros _ _]].
    intros _. destruct Hr as (xs & ys & Hval & _ & _ & Hr). symmetry in Hval. apply app_nil in Hval as [-> ->]. exact Hr. }
  iIntros "[%Hok H] HΦ". cbn [points contents] in *. unfold insert_hint_multi. rewrite (btree_ok_nonempty _ _ _ Hok). cbn [negb].
  pose proof Hok as (_ & Hright & _ & Hfull & _). fold k. pose proof (iter_at_values _ _ _ _ _ Hp) as Hval.
  pose proof (takes_ok k xs ys ltac:(by rewrite <- Hval)) as Htakes.
  iAssert (∀ Φ, ⟦~ takes k xs ys /\ forall y ys', ys = y :: ys' -> before_key k y = true -> ~ takes k (xs ++ [y]) ys'⟧ -∗ own ht T -∗
    (∀ bt' S' it, ⟦inserted_hint k v (Some (ht, T)) xs ys it S' /\ in_order (contents S')⟧ -∗ btree_own bt' S' -∗ Φ (bt', it)) -∗ wp (insert_multi bt k v) Φ)%I as "Hplain".
  { iIntros (Ψ) "%Hno H HΨ". destruct Hno as [Hno1 Hno2]. iApply (wp_insert_multi _ (Some (ht, T)) with "[H]"); [done|done|done|cbn [btree_own]; by iFrame|].
    iIntros (bt' S' it) "%Hr H". destruct Hr as [Hr Hord']. iApply ("HΨ" with "[] H"). iPureIntro. split; [|done].
    split; [by intros ?%Hno1|]. split; [by intros y ys' -> Hy ?%Hno2|done]. }
  iApply wp_bind. iApply (wp_end_at with "H"); [done|]. iIntros (e) "%He H".
  iApply (wp_end_or _ _ _ _ _ _ (λ w, negb (before_key k w)) with "H"); [done|done| |].
  { intros y ys' Ψ ->. iIntros "H HΨ". iApply wp_bind. iApply (wp_key_after with "H"); [done|]. iIntros "H". iApply wp_ret. by iApply "HΨ". }
  iIntros "H". destruct (head_ok (λ w, negb (before_key k w)) ys) eqn:Ehead; rewrite ?andb_true_r ?andb_false_r in Htakes.
  - iApply wp_bind. iApply (wp_begin_at with "H"); [done|]. iIntros (b) "%Hb H".
    iApply (wp_begin_or _ _ _ _ _ _ (λ w, negb (after_key k w)) with "H"); [done|done|done| |].
    { intros it' xs' y ys' Ψ Hit'. iIntros "H HΨ". iApply wp_bind. iApply (wp_key_before with "H"); [done|]. iIntros "H". iApply wp_ret. by iApply "HΨ". }
    assert (forall y ys', ys = y :: ys' -> before_key k y = false) as Hhead.
    { intros y ys' ->. cbn in Ehead. by apply negb_true_iff in Ehead. }
    iIntros "H". destruct (last_ok (λ w, negb (after_key k w)) xs) eqn:Elast; cycle 1.
    { iApply ("Hplain" with "[] H HΦ"). iPureIntro. split; [by intros ?%Htakes|]. intros y ys' Hys Hy. by rewrite (Hhead y ys') in Hy. }
    pose proof (proj1 Htakes eq_refl) as Ht. iApply (wp_hint_multi_emplace with "H"); [done..|]. iIntros (bt' S' it) "%Hr H". destruct Hr as [Hr Hord'].
    iApply ("HΦ" with "[] H"). iPureIntro. split; [|done]. split; [done|]. split; [|by intros []].
    intros y ys' Hys Hy. by rewrite (Hhead y ys') in Hy.
  - destruct ys as [|y ys]; [done|]. cbn in Ehead. apply negb_false_iff in Ehead.
    assert (~ takes k xs (y :: ys)) as Hno by (by intros ?%Htakes).
    rewrite (cons_middle y xs ys) app_assoc in Hval. pose proof (takes_ok k (xs ++ [y]) ys ltac:(by rewrite <- Hval)) as Htakes'.
    assert (after_key k y = false) as Hy by by apply key_lt_asym.
    unfold last_ok in Htakes'. rewrite last_snoc Hy in Htakes'. cbn [negb andb] in Htakes'.
    iApply wp_bind. iApply (wp_increment with "H"); [done|done|]. iIntros (p') "%Hp' H".
    iApply (wp_end_or _ _ _ _ _ _ (λ w, negb (before_key k w)) with "H"); [done|done| |].
    { intros y' ys' Ψ ->. iIntros "H HΨ". iApply wp_bind. iApply (wp_key_after with "H"); [done|]. iIntros "H". iApply wp_ret. by iApply "HΨ". }
    iIntros "H". destruct (head_ok (λ w, negb (before_key k w)) ys) eqn:Ehead'; cycle 1.
    { iApply ("Hplain" with "[] H HΦ"). iPureIntro. split; [done|]. by intros y' ys' [= <- <-] _ ?%Htakes'. }
    pose proof (proj1 Htakes' eq_refl) as Ht. iApply (wp_hint_multi_emplace with "H"); [done..|]. iIntros (bt' S' it) "%Hr H". destruct Hr as [Hr Hord'].
    iApply ("HΦ" with "[] H"). iPureIntro. split; [|done]. split; [by intros ?%Hno|]. split; [by intros y' ys' [= <- <-]|].
    intros _ Hno'. by destruct (Hno' y ys).
Qed.
End hint.
