(* ===== verification/BtreeErase.v ===== *)
(** * BtreeErase: erasure (lemmas for Btree.v)

    A node that has lost a value is merged with a sibling or gets values from
    one, its parent after it, up to the root. *)

From S2P Require Import Prelude.
From S2P Require Import BtreeNode.
From S2P Require Import Btree.
From S2P Require Import HeapLogic.
From S2P Require Import BtreeTree.
From S2P Require Import BtreeFree.
From S2P Require Import BtreeMove.
From S2P Require Import BtreeZip.
From S2P Require Import BtreeSearch.
From S2P Require Import BtreeLookup.
From S2P Require Import BtreePair.
From S2P Require Import BtreeInsert.
From S2P Require Import BtreeHint.
From Stdlib Require Import Sorting.Sorted.
From iris.proofmode Require Import proofmode.
Import btree_node.
Import btree_iterator.
Import btree.
#[local] Open Scope Z_scope.
#[local] Open Scope cpp_scope.

(** ** The ends of the tree after a merge *)

Section ends.
Context {K V : Type} `{PB : BtreeParams K V} {LB : BtreeLaws K V} `{AL : Allocator} {FL : AllocatorLaws}.
Implicit Types (t T L R : tree V) (ts TA TB : list (tree V)) (vs A B xs ys : list V) (ctx : list (crumb V)) (v w : V) (bt : Btree.btree).

Definition same_start t t' : Prop := root_loc t = root_loc t' /\ leftmost_loc t = leftmost_loc t'.
Lemma same_start_plug t t' ctx : same_start t t' -> same_start (plug t ctx) (plug t' ctx).
Proof using Type.
  revert t t'. induction ctx as [|c ctx IH]; intros t t' (Ht & Hl); [by split|]. cbn [plug]. apply IH. split; [done|].
  rewrite !leftmost_loc_head. by destruct (t_left c).
Qed.

(** Where the rightmost leaf is. *)
Lemma rightmost_focus ht t ctx : tree_wf ht t -> NoDup (locs (plug t ctx)) -> Forall crumb_ok ctx -> tree_wf (length ctx + ht) (plug t ctx) ->
  root_loc t = rightmost_loc (plug t ctx) -> ht = O /\ Forall right_end ctx.
Proof.
  intros Hwf Hnd Hctx HT Hr. destruct (rightmost_way _ _ HT) as (ctx' & t' & Hp & _ & Hctx' & Hend & Hr' & Hwf').
  destruct (focus_unique t ctx t' ctx' Hnd Hctx Hctx' (eq_sym Hp)) as [-> ->]; [by rewrite Hr' Hr|]. split; [|done].
  destruct ht as [|ht]; [done|]. destruct t' as [l cap vs ts], Hwf as [(_ & _ & Hl) _], Hwf' as [(_ & _ & ->) _]. done.
Qed.

Lemma tied_merge ht bt lm q A v B TA TB ctx l capl vsl tsl r capr vsr tsr (T := plug (Tree q 0 (A ++ v :: B) (TA ++ Tree l capl vsl tsl :: Tree r capr vsr tsr :: TB)) ctx) :
  tree_wf ht (Tree l capl vsl tsl) -> tree_wf ht (Tree r capr vsr tsr) -> NoDup (locs T) ->
  Forall crumb_ok (Crumb q (A ++ [v]) B (TA ++ [Tree l capl vsl tsl]) TB :: ctx) -> tree_wf (S (length ctx) + ht) T ->
  tied bt lm T ->
  tied (if decide (rightmost_ bt = r) then mkBtree (root_ bt) l (size_ bt) else bt) lm
    (plug (Tree q 0 (A ++ B) (TA ++ Tree l capl (vsl ++ v :: vsr) (tsl ++ tsr) :: TB)) ctx).
Proof.
  intros HL HR Hnd Hctx HT (Hroot & Hright & Hleft). set (c := Crumb q (A ++ [v]) B _ TB) in *. set (M := Tree l capl (vsl ++ v :: vsr) (tsl ++ tsr)).
  assert (plug (Tree r capr vsr tsr) (c :: ctx) = T) as Hp by (unfold T; cbn [plug c c_loc c_left c_right t_left t_right]; by rewrite -!assoc_L).
  assert (head tsl = head (tsl ++ tsr)) as Hhead.
  { apply wf_arity in HL, HR. destruct ht; cbn in HL, HR; [by subst|by destruct tsl]. }
  assert (same_start T (plug (Tree q 0 (A ++ B) (TA ++ M :: TB)) ctx)) as [Hr1 Hl1].
  { apply same_start_plug. split; [done|]. rewrite !(leftmost_loc_head q). destruct TA; [|done]. cbn [head app]. by rewrite !leftmost_loc_head Hhead. }
  destruct (decide (rightmost_ bt = r)) as [Er|Er].
  - destruct (rightmost_focus ht (Tree r capr vsr tsr) (c :: ctx)) as [-> Hend]; [done|by rewrite Hp|done|by rewrite Hp|by rewrite Hp -Hright Er|].
    split_and!; [by rewrite -Hr1| |by rewrite -Hl1]. cbn [rightmost_]. apply Forall_cons in Hend as [[_ HTB] Hend]. cbn in HTB. subst TB.
    rewrite rightmost_plug_end // rightmost_loc_snoc. unfold M. apply wf_arity in HL, HR. cbn in HL, HR. by subst.
  - split_and!; [by rewrite -Hr1| |by rewrite -Hl1]. rewrite Hright. destruct TB as [|t0 TB].
    + destruct ht as [|ht].
      * unfold T. apply rightmost_plug_other; [by apply Forall_cons in Hctx as [_ ?]|]. intros Hend. apply Er. rewrite Hright. unfold T. rewrite rightmost_plug_end //.
        rewrite (cons_middle (Tree l capl vsl tsl)) assoc_L rightmost_loc_snoc. apply wf_arity in HR. cbn in HR. by subst.
      * apply (same_ends_plug _ _ ctx). destruct (same_ends_split q 0 (A ++ B) 0 (A ++ v :: B) TA [] l capl vsl tsl capl (vsl ++ v :: vsr) (tsl ++ tsr) r capr vsr tsr) as (H1 & H2 & H3); [done| |by split_and!].
        intros _. rewrite !rightmost_loc_last. apply wf_arity in HR. destruct tsr as [|t1 tsr]; [cbn in HR; lia|]. rewrite last_app_cons last_cons. by destruct (last tsr).
    + apply (same_ends_plug _ _ ctx). destruct (same_ends_split q 0 (A ++ B) 0 (A ++ v :: B) TA (t0 :: TB) l capl vsl tsl capl (vsl ++ v :: vsr) (tsl ++ tsr) r capr vsr tsr) as (H1 & H2 & H3); [done|done|by split_and!].
Qed.
End ends.

(** ** [try_merge_or_rebalance] *)

Section settle.
Context {K V : Type} `{PB : BtreeParams K V} {LB : BtreeLaws K V} `{AL : Allocator} {FL : AllocatorLaws}.
Implicit Types (t T L R : tree V) (ts TA TB : list (tree V)) (vs A B xs ys : list V) (c : crumb V) (ctx : list (crumb V)) (v w : V) (bt : Btree.btree).

Lemma focus_wf lm ht t ctx : focus lm ht t ctx ⊢ ⟦tree_wf (length ctx + ht) (plug t ctx)⟧ ∗ focus lm ht t ctx.
Proof using Type.
  iIntros "H". iDestruct (focus_crumb_ok with "H") as "[%Hok H]". destruct Hok as [Hctx _]. iDestruct (focus_plug with "H") as "H".
  iDestruct (own_tree_wf with "H") as "[$ H]". by iApply focus_unplug.
Qed.

Lemma wp_merge_nodes lm ht q A v B TA TB ctx l capl vsl tsl r capr vsr tsr bt (Φ : Btree.btree -> hPropI V) :
  (length vsl + S (length vsr) <= capacity capl)%nat ->
  tied bt lm (plug (Tree l capl vsl tsl) (Crumb q A (v :: B) TA (Tree r capr vsr tsr :: TB) :: ctx)) ->
  focus lm ht (Tree l capl vsl tsl) (Crumb q A (v :: B) TA (Tree r capr vsr tsr :: TB) :: ctx) -∗
  (∀ bt', ⟦tied bt' lm (plug (Tree l capl (vsl ++ v :: vsr) (tsl ++ tsr)) (Crumb q A B TA TB :: ctx)) /\ size_ bt' = size_ bt⟧ -∗
    focus lm ht (Tree l capl (vsl ++ v :: vsr) (tsl ++ tsr)) (Crumb q A B TA TB :: ctx) -∗ Φ bt') -∗
  wp (merge_nodes bt l r) Φ.
Proof.
  intros Hcap Htied. iIntros "H HΦ". iDestruct (focus_nodup with "H") as "[%Hnd H]". iDestruct (focus_wf with "H") as "[%HT H]".
  iDestruct (focus_count with "H") as "[%HL H]". destruct HL as (_ & HL & _). iEval (rewrite -focus_other) in "H".
  iDestruct (focus_count with "H") as "[%HR H]". destruct HR as (_ & HR & Hctx). iEval (rewrite focus_other) in "H".
  iApply wp_bind. iApply (wp_at_merge with "H"); [done|]. iIntros "H". iApply wp_ret. iApply ("HΦ" with "[] H"). iPureIntro. split.
  - by apply (tied_merge ht bt lm q A v B TA TB ctx l capl vsl tsl r capr vsr tsr).
  - by destruct (decide _).
Qed.

(** The node afterwards: it has values, and all other nodes too but for the
    parent after a merge. *)
Definition settled (d : nat) bt lm xs ys o bt' t' ctx' (i' : nat) (merged : bool) : Prop :=
  spot t' i' ctx' xs ys o /\ good t' /\ tied bt' lm (plug t' ctx') /\ size_ bt' = size_ bt /\
  exists c ctx1, ctx' = c :: ctx1 /\ length ctx1 = d /\ Forall good (t_left c ++ t_right c) /\ Forall crumb_good ctx1 /\ (merged = false -> c_left c ++ c_right c ≠ []).

Lemma settled_merge ht bt bt' lm q A B TA TB ctx l capl vs ts xs ys o i : Forall good (TA ++ TB) -> Forall crumb_good ctx ->
  tree_wf ht (Tree l capl vs ts) -> spot (Tree l capl vs ts) i (Crumb q A B TA TB :: ctx) xs ys o -> vs ≠ [] -> capacity capl = slots_max -> Forall good ts ->
  tied bt' lm (plug (Tree l capl vs ts) (Crumb q A B TA TB :: ctx)) -> size_ bt' = size_ bt ->
  settled (length ctx) bt lm xs ys o bt' (Tree l capl vs ts) (Crumb q A B TA TB :: ctx) i true.
Proof using Type.
  intros HT Hctx Hwf Hspot Hne Hcap Hts Htied Hsize. split_and!; try done. eexists _, _. by split_and!.
Qed.

Lemma wp_merge_with_left lm ht t i c ctx xs ys o bt (Φ : option (Btree.btree * loc * Z) -> hPropI V) :
  spot t i (c :: ctx) xs ys o -> node_ok t -> Forall crumb_good (c :: ctx) -> tied bt lm (plug t (c :: ctx)) ->
  focus lm ht t (c :: ctx) -∗
  (⟦forall q A v B TA L TB, c = Crumb q (A ++ [v]) B (TA ++ [L]) TB -> kNodeSlots < 1 + count_of L + count_of t⟧ -∗ focus lm ht t (c :: ctx) -∗ Φ None) ∧
  (∀ bt' t' ctx' i', ⟦settled (length ctx) bt lm xs ys o bt' t' ctx' i' true⟧ -∗ focus lm ht t' ctx' -∗ Φ (Some (bt', root_loc t', Z.of_nat i'))) -∗
  wp (merge_with_left bt (root_loc t) (c_loc c) (Z.of_nat i)) Φ.
Proof.
  intros Hspot Hok Hcg Htied. pose proof slots_max_Z as Hm. iIntros "H HΦ".
  iDestruct (focus_bound with "H") as "[%Hb H]". destruct Hb as [Hb Hc].
  iApply wp_bind. iApply (wp_at_position with "H"). iIntros "H". cbn [ctx_pos]. iApply wp_bind. iApply (wp_up_start with "H"). iIntros "H".
  destruct (decide (c_left c = [])) as [Hl|Hl].
  { rewrite Hl /=. iApply wp_ret. iDestruct "HΦ" as "[HΦ _]". iApply ("HΦ" with "[] H"). iPureIntro. intros q A v B TA L TB ->. by destruct A. }
  rewrite (proj2 (Z.ltb_lt _ _)); [|destruct (c_left c); [done|cbn; lia]].
  destruct (snoc_crumb c Hc Hl) as (q & A & v & B & TA & L & TB & -> & HA & HB). cbn [c_left c_right c_loc] in *.
  rewrite length_app /= in Hb. destruct t as [r capr vsr tsr], L as [l capl vsl tsl].
  apply Forall_cons in Hcg as [[_ Hsib] Hcg]. cbn in Hsib. rewrite -assoc_L in Hsib. apply Forall_app in Hsib as [HTA [HL HTB]%Forall_cons].
  pose proof (proj1 (good_node_ok _) HL) as [HLne HLok].
  iEval (rewrite focus_other) in "H". rewrite length_app /=. replace (Z.of_nat (length A + 1) - 1) with (Z.of_nat (length A)) by lia. rewrite field_id; [|lia].
  iApply wp_bind. iApply (wp_child_left with "H"). iIntros "H". iApply wp_bind. iApply (wp_at_max_count with "H"); [done|]. iIntros "H".
  iApply wp_bind. iApply wp_check; [apply Z.eqb_refl|]. iApply wp_bind. iApply (wp_at_count with "H"). iIntros "H".
  iDestruct (focus_count with "H") as "[%Hcnt H]". destruct Hcnt as (_ & HLwf & _).
  iEval (rewrite -focus_other) in "H". iApply wp_bind. iApply (wp_at_count _ _ (Tree r capr vsr tsr) with "H"). iIntros "H".
  iDestruct (focus_count with "H") as "[%Hcnt H]". destruct Hcnt as (_ & HRwf & _).
  destruct (Z.leb_spec (1 + count_of (Tree l capl vsl tsl) + count_of (Tree r capr vsr tsr)) kNodeSlots) as [Hle|Hgt]; cycle 1.
  { iApply wp_ret. iDestruct "HΦ" as "[HΦ _]". iApply ("HΦ" with "[] H"). iPureIntro. intros q' A' v' B' TA' L' TB' [= -> Hv _ Ht _].
    apply app_inj_2 in Ht as [_ [= <-]]; [lia|done]. }
  unfold count_of in Hle. cbn [node_values] in Hle. destruct Hok as [HcapR HgR], HLok as [HcapL HgL].
  apply (spot_right ht _ _ _ _ _ _ l capl l capl vsl tsl v r capr) in Hspot; [|by eapply wf_arity|by eapply wf_arity|apply Hspot|done].
  iEval (rewrite focus_other) in "H". iApply wp_bind. iApply (wp_merge_nodes with "H"); [lia|cbn [plug c_loc c_left c_right t_left t_right] in Htied |- *; by rewrite -!assoc_L in Htied|].
  iIntros (bt') "%Hbt H". destruct Hbt as [Htied' Hsize]. iDestruct (focus_count with "H") as "[%Hcnt H]". destruct Hcnt as (_ & HMwf & _).
  iApply wp_ret. iDestruct "HΦ" as "[_ HΦ]". cbn [root_loc].
  replace (Z.of_nat i + (1 + count_of (Tree l capl vsl tsl))) with (Z.of_nat (S (length vsl) + i)) by (unfold count_of; cbn [node_values]; lia).
  iApply ("HΦ" $! bt' (Tree l capl (vsl ++ v :: vsr) (tsl ++ tsr)) with "[] H"). iPureIntro.
  apply (settled_merge ht); try done; [by apply Forall_app|by destruct vsl|by apply Forall_app].
Qed.

(** How many values move, and that there is room for them. *)
Lemma kMinNodeValues_bounds : 1 <= kMinNodeValues /\ 2 * kMinNodeValues <= kNodeSlots.
Proof.
  pose proof kNodeSlots_min. unfold kMinNodeValues. split; [apply Z.div_le_lower_bound; lia|apply Z.mul_div_le; lia].
Qed.
Lemma steal_bounds (n sn : Z) : 0 <= n < kMinNodeValues -> kNodeSlots <= n + sn -> 0 <= sn <= kNodeSlots ->
  let tm := Z.min (field (Z.quot (sn - n) 2)) (field (sn - 1)) in 1 <= tm <= sn - 1 /\ n + tm < kNodeSlots /\ n < sn.
Proof.
  intros Hn Hs Hb. pose proof kMinNodeValues_bounds. pose proof kNodeSlots_min.
  rewrite Z.quot_div_nonneg; [|lia|lia]. assert (1 <= (sn - n) / 2) by (apply Z.div_le_lower_bound; lia).
  assert (2 * ((sn - n) / 2) <= sn - n) by (apply Z.mul_div_le; lia).
  rewrite !field_id; [|lia|lia]. cbn zeta. lia.
Qed.

Lemma settled_room bt bt' lm xs ys o t' c ctx i : made_room bt lm xs ys o bt' t' (c :: ctx) i -> node_values t' ≠ [] ->
  settled (length ctx) bt lm xs ys o bt' t' (c :: ctx) i false.
Proof using Type.
  intros (Hspot & _ & Hok & [[Hne Hg] Hctx]%Forall_cons & Htied & Hsize) Hv. split_and!; try done; [by apply good_node_ok|]. exists c, ctx. by split_and!.
Qed.

Lemma wp_merge_or_rebalance_right lm ht t i c ctx xs ys o bt (Φ : option (Btree.btree * bool) -> hPropI V) :
  spot t i (c :: ctx) xs ys o -> node_ok t -> Forall crumb_good (c :: ctx) -> tied bt lm (plug t (c :: ctx)) -> count_of t < kMinNodeValues ->
  focus lm ht t (c :: ctx) -∗
  (⟦c_right c ≠ [] -> node_values t ≠ []⟧ -∗ focus lm ht t (c :: ctx) -∗ Φ None) ∧
  (∀ bt' t' ctx' m, ⟦settled (length ctx) bt lm xs ys o bt' t' ctx' i m /\ root_loc t' = root_loc t⟧ -∗ focus lm ht t' ctx' -∗ Φ (Some (bt', m))) -∗
  wp (merge_or_rebalance_right bt (root_loc t) (c_loc c) (Z.of_nat i)) Φ.
Proof.
  intros Hspot Hok Hcg Htied Hcount. pose proof slots_max_Z as Hm. iIntros "H HΦ".
  iDestruct (focus_bound with "H") as "[%Hb H]". destruct Hb as [Hb Hc].
  iApply wp_bind. iApply (wp_at_position with "H"). iIntros "H". cbn [ctx_pos]. iApply wp_bind. iApply (wp_up_finish with "H"). iIntros "H".
  unfold count_of at 1, graft. cbn [node_values]. rewrite length_app.
  destruct (decide (c_right c = [])) as [Hl|Hl].
  { rewrite Hl /= Nat.add_0_r Z.ltb_irrefl. iApply wp_ret. iDestruct "HΦ" as "[HΦ _]". by iApply ("HΦ" with "[] H"). }
  rewrite (proj2 (Z.ltb_lt _ _)); [|destruct (c_right c); [done|cbn; lia]].
  destruct (cons_crumb c Hc Hl) as (q & A & v & B & TA & R & TB & -> & HA & HB). cbn [c_left c_right c_loc] in *.
  cbn in Hb. destruct t as [l capl vsl tsl], R as [r capr vsr tsr].
  apply Forall_cons in Hcg as [[_ Hsib] Hcg]. cbn in Hsib. apply Forall_app in Hsib as [HTA [HR HTB]%Forall_cons].
  pose proof (proj1 (good_node_ok _) HR) as [HRne HRok]. destruct Hok as [HcapL HgL], HRok as [HcapR HgR].
  rewrite field_id; [|lia]. replace (Z.of_nat (length A) + 1) with (Z.of_nat (S (length A))) by lia.
  iApply wp_bind. iApply (wp_child_right with "H"). iIntros "H". iEval (rewrite -focus_other) in "H".
  iApply wp_bind. iApply (wp_at_max_count with "H"); [by split|]. iIntros "H".
  iApply wp_bind. iApply wp_check; [apply Z.eqb_refl|].
  iDestruct (focus_count with "H") as "[%Hcnt H]". destruct Hcnt as (HRm & HRwf & _). cbn in HRm, HRne.
  iEval (rewrite focus_other) in "H". iApply wp_bind. iApply (wp_at_count _ _ (Tree l capl vsl tsl) with "H"). iIntros "H".
  iDestruct (focus_count with "H") as "[%Hcnt H]". destruct Hcnt as (_ & HLwf & _).
  iEval (rewrite -focus_other) in "H". iApply wp_bind. iApply (wp_at_count _ _ (Tree r capr vsr tsr) with "H"). iIntros "H". iEval (rewrite focus_other) in "H".
  unfold count_of in Hcount |- *. cbn [node_values] in Hcount |- *.
  assert (i <= length vsl)%nat as Hi by apply Hspot.
  apply (spot_left ht _ _ _ _ _ _ l capl l capl _ _ v r capr) in Hspot; [|by eapply wf_arity|by eapply wf_arity|done].
  destruct (Z.leb_spec (1 + Z.of_nat (length vsl) + Z.of_nat (length vsr)) kNodeSlots) as [Hle|Hgt].
  - iApply wp_bind. iApply (wp_merge_nodes with "H"); [lia|done|]. iIntros (bt') "%Hbt H". destruct Hbt as [Htied' Hsize].
    iDestruct (focus_count with "H") as "[%Hcnt H]". destruct Hcnt as (_ & HMwf & _). iApply wp_ret. iDestruct "HΦ" as "[_ HΦ]".
    iApply ("HΦ" $! bt' (Tree l capl (vsl ++ v :: vsr) (tsl ++ tsr)) with "[] H"). iPureIntro. split; [|done].
    apply (settled_merge ht); try done; [by apply Forall_app|by destruct vsl|by apply Forall_app].
  - iApply wp_bind. iApply (wp_at_start _ _ (Tree l capl vsl tsl) with "H"). iIntros "H".
    destruct ((kMinNodeValues <? Z.of_nat (length vsr)) && ((Z.of_nat (length vsl) =? 0) || (0 <? Z.of_nat i))) eqn:Ecase; cycle 1.
    { iApply wp_ret. iDestruct "HΦ" as "[HΦ _]". iApply ("HΦ" with "[] H"). iPureIntro. cbn. intros _ ->. cbn in Ecase, Hgt. pose proof kMinNodeValues_bounds.
      rewrite (proj2 (Z.ltb_lt _ _)) in Ecase; [done|lia]. }
    pose proof (steal_bounds (Z.of_nat (length vsl)) (Z.of_nat (length vsr)) ltac:(lia) ltac:(lia) ltac:(lia)) as (Htm & Hroom & Hlt). set (tm := Z.min _ _) in *.
    destruct (split_at vsr (Z.to_nat tm - 1)) as (xs' & w & ys' & -> & Hxs'); [lia|]. rewrite length_app /= in Hlt, Htm, HRm.
    iApply wp_bind. iApply (wp_at_right_to_left with "H"); [lia|rewrite length_app /=; lia|lia|]. iIntros "H". iApply wp_ret.
    set (L' := Tree l capl (vsl ++ v :: xs') (tsl ++ take (S (length xs')) tsr)). set (R' := Tree r capr ys' (drop (S (length xs')) tsr)).
    iDestruct (focus_count with "H") as "[%Hcnt H]". destruct Hcnt as (_ & HLwf' & _).
    iEval (rewrite -focus_other) in "H". iDestruct (focus_count with "H") as "[%Hcnt H]". destruct Hcnt as (_ & HRwf' & _). iEval (rewrite focus_other) in "H".
    rewrite (app_comm_cons xs') assoc_L -{1}(take_drop (S (length xs')) tsr) assoc_L in Hspot.
    edestruct (pair_room ht bt bt lm q A w B TA TB ctx l capl _ _ r capr _ _ _ _ _ _ _ _ (wf_arity _ _ _ _ _ HLwf') (wf_arity _ _ _ _ _ HRwf') HA Hspot) as [HroomL _]; try done.
    { split; [done|]. apply Forall_app. split; [done|by apply Forall_take]. } { split; [done|by apply Forall_drop]. } { by apply Forall_app. }
    { cbn [plug c_loc c_left c_right t_left t_right] in Htied. eapply tied_same, Htied. apply same_ends_plug, same_ends_siblings.
      - pose proof (wf_arity _ _ _ _ _ HLwf) as Ha1. destruct ht; cbn in Ha1; [|by destruct tsl].
        pose proof (wf_arity _ _ _ _ _ HRwf) as Ha2. cbn in Ha2. by subst.
      - pose proof (wf_arity _ _ _ _ _ HRwf) as Ha2. destruct ht; cbn in Ha2; [by subst; rewrite drop_nil|]. symmetry. apply last_drop_lt.
        rewrite length_app /= in Ha2. lia. }
    rewrite length_app /= in HroomL. iDestruct "HΦ" as "[_ HΦ]". iApply ("HΦ" $! bt L' with "[] H"). iPureIntro. split; [|done].
    apply settled_room; [|by destruct vsl]. apply HroomL; [lia|intros ->; cbn in *; lia|lia].
Qed.

Lemma settled_same bt lm xs ys o t c ctx i : spot t i (c :: ctx) xs ys o -> node_ok t -> node_values t ≠ [] -> Forall crumb_good (c :: ctx) ->
  tied bt lm (plug t (c :: ctx)) -> settled (length ctx) bt lm xs ys o bt t (c :: ctx) i false.
Proof using Type.
  intros Hspot Hok Hne [[Hc Hg] Hctx]%Forall_cons Htied. split_and!; try done; [by apply good_node_ok|]. exists c, ctx. by split_and!.
Qed.

Lemma wp_rebalance_from_left lm ht t i c ctx xs ys o bt (Φ : Z -> hPropI V) :
  spot t i (c :: ctx) xs ys o -> node_ok t -> Forall crumb_good (c :: ctx) -> tied bt lm (plug t (c :: ctx)) -> count_of t < kMinNodeValues ->
  (forall q A v B TA L TB, c = Crumb q (A ++ [v]) B (TA ++ [L]) TB -> kNodeSlots < 1 + count_of L + count_of t) ->
  (c_right c ≠ [] -> node_values t ≠ []) ->
  focus lm ht t (c :: ctx) -∗
  (∀ t' ctx' i', ⟦settled (length ctx) bt lm xs ys o bt t' ctx' i' false /\ root_loc t' = root_loc t⟧ -∗ focus lm ht t' ctx' -∗ Φ (Z.of_nat i')) -∗
  wp (rebalance_from_left (root_loc t) (c_loc c) (Z.of_nat i)) Φ.
Proof.
  intros Hspot Hok Hcg Htied Hcount Hleft Hright. pose proof slots_max_Z as Hm. pose proof kMinNodeValues_bounds as Hk. iIntros "H HΦ".
  iDestruct (focus_bound with "H") as "[%Hb H]". destruct Hb as [Hb Hc].
  pose proof Hcg as [[Hcne _] _]%Forall_cons.
  iApply wp_bind. iApply (wp_at_position with "H"). iIntros "H". cbn [ctx_pos]. iApply wp_bind. iApply (wp_up_start with "H"). iIntros "H".
  destruct (decide (c_left c = [])) as [Hl|Hl].
  { rewrite Hl /=. iApply wp_ret. iApply ("HΦ" with "[] H"). iPureIntro. split; [|done]. apply settled_same; try done. apply Hright. intros Hr.
    by rewrite Hl Hr in Hcne. }
  rewrite (proj2 (Z.ltb_lt _ _)); [|destruct (c_left c); [done|cbn; lia]].
  destruct (snoc_crumb c Hc Hl) as (q & A & v & B & TA & L & TB & -> & HA & HB). specialize (Hleft _ _ _ _ _ _ _ eq_refl). cbn [c_left c_right c_loc] in *.
  rewrite length_app /= in Hb. destruct t as [r capr vsr tsr], L as [l capl vsl tsl].
  pose proof Hcg as [[_ Hsib] Hcg']%Forall_cons. cbn in Hsib. rewrite -assoc_L in Hsib. apply Forall_app in Hsib as [HTA [HL HTB]%Forall_cons].
  pose proof (proj1 (good_node_ok _) HL) as [HLne [HcapL HgL]].
  iEval (rewrite focus_other) in "H". rewrite length_app /=. replace (Z.of_nat (length A + 1) - 1) with (Z.of_nat (length A)) by lia. rewrite field_id; [|lia].
  iApply wp_bind. iApply (wp_child_left with "H"). iIntros "H". iApply wp_bind. iApply (wp_at_count with "H"). iIntros "H".
  iDestruct (focus_count with "H") as "[%Hcnt H]". destruct Hcnt as (HLm & HLwf & _). cbn in HLm, HLne.
  iEval (rewrite -focus_other) in "H". iApply wp_bind. iApply (wp_at_count _ _ (Tree r capr vsr tsr) with "H"). iIntros "H".
  iApply wp_bind. iApply (wp_at_finish _ _ (Tree r capr vsr tsr) with "H"). iIntros "H".
  iDestruct (focus_count with "H") as "[%Hcnt H]". destruct Hcnt as (HRm & HRwf & _).
  unfold count_of in Hcount, Hleft |- *. cbn [node_values] in *.
  destruct ((kMinNodeValues <? Z.of_nat (length vsl)) && ((Z.of_nat (length vsr) =? 0) || (Z.of_nat i <? Z.of_nat (length vsr)))) eqn:Ecase; cycle 1.
  { iApply wp_ret. iApply ("HΦ" with "[] H"). iPureIntro. split; [|done]. apply settled_same; try done. cbn. intros ->. cbn in Ecase, Hleft.
    rewrite (proj2 (Z.ltb_lt _ _)) in Ecase; [done|lia]. }
  assert (i <= length vsr)%nat as Hi by apply Hspot. destruct Hok as [HcapR HgR].
  pose proof (steal_bounds (Z.of_nat (length vsr)) (Z.of_nat (length vsl)) ltac:(lia) ltac:(lia) ltac:(lia)) as (Htm & Hroom & Hlt). set (tm := Z.min _ _) in *.
  apply (spot_right ht _ _ _ _ _ _ l capl l capl vsl tsl v r capr) in Hspot; [|by eapply wf_arity|by eapply wf_arity|done|done].
  destruct (split_at vsl (length vsl - Z.to_nat tm)) as (xs' & w & ys' & -> & Hxs'); [lia|]. rewrite length_app /= in Hlt, Htm, HLm, Hxs'.
  iEval (rewrite focus_other) in "H". iApply wp_bind. iApply (wp_at_left_to_right with "H"); [lia|rewrite length_app /=; lia|lia|]. iIntros "H". iApply wp_ret.
  set (L' := Tree l capl xs' (take (S (length xs')) tsl)). set (R' := Tree r capr (ys' ++ v :: vsr) (drop (S (length xs')) tsl ++ tsr)).
  iDestruct (focus_count with "H") as "[%Hcnt H]". destruct Hcnt as (_ & HLwf' & _).
  iEval (rewrite -focus_other) in "H". iDestruct (focus_count with "H") as "[%Hcnt H]". destruct Hcnt as (_ & HRwf' & _).
  rewrite -(assoc_L _ xs') -app_comm_cons -{1}(take_drop (S (length xs')) tsl) -assoc_L in Hspot.
  edestruct (pair_room ht bt bt lm q A w B TA TB ctx l capl _ _ r capr _ _ _ _ _ _ _ _ (wf_arity _ _ _ _ _ HLwf') (wf_arity _ _ _ _ _ HRwf') HA Hspot) as [_ HroomR]; try done.
  { split; [done|by apply Forall_take]. } { split; [done|]. apply Forall_app. split; [by apply Forall_drop|done]. } { by apply Forall_app. }
  { cbn [plug c_loc c_left c_right t_left t_right] in Htied. rewrite -!assoc_L in Htied. eapply tied_same, Htied. apply same_ends_plug, same_ends_siblings.
    - by destruct tsl.
    - pose proof (wf_arity _ _ _ _ _ HRwf) as Ha1. destruct ht; cbn in Ha1.
      + pose proof (wf_arity _ _ _ _ _ HLwf) as Ha2. cbn in Ha2. by subst.
      + destruct tsr; [done|]. by rewrite last_app_cons. }
  rewrite !length_app /= in HroomR.
  replace (Z.of_nat i + tm) with (Z.of_nat (S (length xs' + S (length ys')) + i - S (length xs'))) by lia.
  iApply ("HΦ" $! R' with "[] H"). iPureIntro. split; [|done]. apply settled_room; [|by destruct ys'].
  apply HroomR; [lia|intros ->; cbn in *; lia|lia].
Qed.

Lemma wp_try_merge_or_rebalance lm ht t i c ctx xs ys o bt (Φ : Btree.btree * loc * Z * bool -> hPropI V) :
  spot t i (c :: ctx) xs ys o -> node_ok t -> Forall crumb_good (c :: ctx) -> tied bt lm (plug t (c :: ctx)) -> count_of t < kMinNodeValues ->
  focus lm ht t (c :: ctx) -∗
  (∀ bt' t' ctx' i' m, ⟦settled (length ctx) bt lm xs ys o bt' t' ctx' i' m⟧ -∗ focus lm ht t' ctx' -∗ Φ (bt', root_loc t', Z.of_nat i', m)) -∗
  wp (try_merge_or_rebalance bt (root_loc t) (Z.of_nat i)) Φ.
Proof.
  intros Hspot Hok Hcg Htied Hcount. iIntros "H HΦ". iApply wp_bind. iApply (wp_at_parent with "H"). iIntros "H". cbn [ctx_parent]. iApply wp_bind.
  iApply (wp_merge_with_left with "H"); [done|done|done|done|]. iSplit.
  - iIntros "%Hleft H". iApply wp_bind. iApply (wp_merge_or_rebalance_right with "H"); [done|done|done|done|done|]. iSplit.
    + iIntros "%Hright H". iApply wp_bind. iApply (wp_rebalance_from_left with "H"); [done..|].
      iIntros (t' ctx' i') "%Hs H". destruct Hs as [Hs <-]. iApply wp_ret. by iApply ("HΦ" with "[] H").
    + iIntros (bt' t' ctx' m) "%Hs H". destruct Hs as [Hs <-]. iApply wp_ret. by iApply ("HΦ" with "[] H").
  - iIntros (bt' t' ctx' i') "%Hs H". iApply wp_ret. by iApply ("HΦ" with "[] H").
Qed.
End settle.

(** ** [try_shrink] *)

Section shrink.
Context {K V : Type} `{PB : BtreeParams K V} {LB : BtreeLaws K V} `{AL : Allocator} {FL : AllocatorLaws}.
Implicit Types (t u T : tree V) (ts : list (tree V)) (vs A B xs ys : list V) (c : crumb V) (ctx : list (crumb V)) (v w : V) (bt : Btree.btree).

Lemma single_root lm h q u : focus lm (S h) (Tree q 0 [] [u]) [] ⊣⊢ focus lm h u [Crumb q [] [] [] []].
Proof using Type.
  iSplit; iIntros "H"; [|by iDestruct (focus_step with "H") as "[_ $]"].
  iApply (focus_down' lm h u (Crumb q [] [] [] []) []); [by split|done].
Qed.

Lemma wp_try_shrink lm ht t bt (Φ : Btree.btree -> hPropI V) : tied bt lm t -> size_ bt = Z.of_nat (length (values_of t)) ->
  focus lm ht t [] -∗
  (⟦node_values t ≠ []⟧ -∗ focus lm ht t [] -∗ Φ bt) ∧ (⟦values_of t = []⟧ -∗ Φ btree_new) ∧
  (∀ h u q, ⟦ht = S h /\ t = Tree q 0 [] [u]⟧ -∗ focus lm h u [] -∗ Φ (mkBtree (root_loc u) (rightmost_ bt) (size_ bt))) -∗
  wp (try_shrink bt) Φ.
Proof.
  intros (Hroot & Hright & Hleft) Hsize. iIntros "H HΦ". unfold try_shrink. rewrite Hroot. iApply wp_bind. iApply (wp_at_count with "H"). iIntros "H".
  destruct (Z.ltb_spec 0 (count_of t)) as [Hlt|Hge].
  { iApply wp_ret. iDestruct "HΦ" as "[HΦ _]". iApply ("HΦ" with "[] H"). iPureIntro. intros Hn. unfold count_of in Hlt. by rewrite Hn in Hlt. }
  iDestruct (focus_count with "H") as "[%Hcnt H]". destruct Hcnt as (_ & Hwf & _). destruct t as [q cap vs ts]. unfold count_of in Hge. cbn in Hge.
  assert (vs = []) as -> by (destruct vs; [done|cbn in Hge; lia]). pose proof (wf_arity _ _ _ _ _ Hwf) as Har.
  iApply wp_bind. iApply (wp_at_is_leaf with "H"). iIntros "H". destruct ht as [|h]; cbn [Nat.eqb]; cbn in Har.
  - subst ts. iApply wp_bind. cbn in Hsize. iApply wp_bind. iApply wp_check; [by apply Z.eqb_eq|]. iApply wp_ret. iApply wp_bind.
    iDestruct "H" as "[H _]". iApply (wp_clear_and_delete with "H"); [set_solver|by left|]. iApply wp_ret.
    iDestruct "HΦ" as "[_ [HΦ _]]". rewrite Hsize. iApply "HΦ". by iPureIntro.
  - destruct ts as [|u [|]]; [done| |done]. destruct (tree_wf_ok _ _ _ _ _ Hwf) as (_ & -> & _). cbn in Hleft.
    iEval (rewrite single_root) in "H". iApply wp_bind. iApply wp_bind. iApply wp_bind. iApply (wp_up_start with "H"). iIntros "H".
    iApply (wp_at_parent_child with "H"). iIntros "H". iApply wp_bind.
    (* make_root *)
    iApply wp_bind. iApply (wp_at_parent with "H"). iIntros "H". cbn [ctx_parent c_loc]. iEval (rewrite -single_root) in "H".
    iApply wp_bind. iApply (wp_at_is_root _ _ (Tree q 0 [] [u]) with "H"); [done|]. iIntros "H".
    iApply wp_bind. iApply wp_check; [done|]. iEval (rewrite single_root) in "H".
    iApply wp_bind. iApply (wp_at_parent with "H"). iIntros "H". cbn [ctx_parent c_loc]. iEval (rewrite -single_root) in "H".
    iApply wp_bind. iApply (wp_at_parent _ _ (Tree q 0 [] [u]) with "H"). iIntros "H". cbn [ctx_parent]. iEval (rewrite single_root) in "H".
    iDestruct "H" as "[Hu [(%arr & %Harr & Hq & _) _]]". cbn [ctx_parent ctx_pos c_left c_right c_loc app length].
    iApply (wp_tree_set_parent with "Hu"). iIntros "Hu". iApply wp_ret. iApply wp_bind.
    iApply (wp_free_husk q lm 0 0 with "[Hq]").
    { iExists arr. unfold inner, slots_of. cbn. rewrite Nat.sub_0_r. iFrame. iPureIntro. split; [pose proof kNodeSlots_min; lia|apply Harr]. }
    iApply wp_ret. iDestruct "HΦ" as "[_ [_ HΦ]]". iApply ("HΦ" $! h u q); [by iPureIntro|]. by iFrame.
Qed.
End shrink.

(** ** [rebalance_after_delete] *)

Section rebalance.
Context {K V : Type} `{PB : BtreeParams K V} {LB : BtreeLaws K V} `{AL : Allocator} {FL : AllocatorLaws} {LK : KeyLaws K V}.
Implicit Types (t u T : tree V) (ts : list (tree V)) (vs A B xs ys : list V) (c : crumb V) (ctx : list (crumb V)) (v w : V) (bt : Btree.btree).

Lemma leaf_at_plug h t ctx it xs ys : Forall crumb_ok ctx -> leaf_at h t it xs ys ->
  leaf_at (length ctx + h) (plug t ctx) it (before ctx ++ xs) (ys ++ after ctx).
Proof using Type.
  intros Hctx (ctx1 & l & cap & A & B & <- & <- & Hctx1 & -> & -> & ->). exists (ctx1 ++ ctx), l, cap, A, B.
  rewrite plug_app length_app before_app after_app -!assoc_L. split_and!; try done; [lia|by apply Forall_app].
Qed.

(** The position that the erasure returns, in the leaf, while the nodes above it
    are settled: below the node at the focus. *)
Definition sits (ht : nat) t (i : nat) ctx (res : iterator) xs ys : Prop :=
  match ht with
  | O => spot t i ctx xs ys None /\ res = mkIterator (Some (root_loc t)) (Z.of_nat i)
  | S h => exists u xs0 ys0 xsu ysu, spot t i ctx xs0 ys0 (Some u) /\ leaf_at h u res xsu ysu /\ xs = xs0 ++ xsu /\ ys = ysu ++ ys0
  end.

Lemma sits_local ht t i ctx res xs ys : tree_wf ht t -> sits ht t i ctx res xs ys ->
  exists xsu ysu, leaf_at ht t res xsu ysu /\ xs = before ctx ++ xsu /\ ys = ysu ++ after ctx.
Proof.
  intros Hwf Hs. destruct ht as [|h].
  - destruct t as [l cap vs ts]. assert (ts = []) as -> by apply Hwf. destruct Hs as [(<- & <- & _ & Hi) ->].
    exists (take i vs), (drop i vs). split_and!; [|done|done]. exists [], l, cap, (take i vs), (drop i vs).
    rewrite take_drop length_take Nat.min_l // app_nil_r. by split_and!.
  - destruct Hs as (u & xs0 & ys0 & xsu & ysu & Hspot & Hleaf & -> & ->). destruct (spot_child h t i ctx xs0 ys0 u Hwf Hspot) as (c & Hc & <- & _ & <- & <-).
    exists (before [c] ++ xsu), (ysu ++ after [c]). split_and!.
    + by apply (leaf_at_plug h u [c]); [constructor|].
    + by rewrite !before_cons -!assoc_L.
    + by rewrite !after_cons -!assoc_L.
Qed.
Lemma sits_leaf_at ht t i ctx res xs ys : tree_wf ht t -> Forall crumb_ok ctx -> sits ht t i ctx res xs ys ->
  leaf_at (length ctx + ht) (plug t ctx) res xs ys.
Proof. intros Hwf Hctx Hs. destruct (sits_local _ _ _ _ _ _ _ Hwf Hs) as (xsu & ysu & Hl & -> & ->). by apply leaf_at_plug. Qed.

(** One level up. *)
Lemma sits_up ht t i c ctx res xs ys : tree_wf ht t -> crumb_ok c -> sits ht t i (c :: ctx) res xs ys ->
  sits (S ht) (graft t c) (length (c_left c)) ctx res xs ys.
Proof.
  intros Hwf Hc Hs. destruct (sits_local _ _ _ _ _ _ _ Hwf Hs) as (xsu & ysu & Hl & -> & ->).
  exists t, (before (c :: ctx)), (after (c :: ctx)), xsu, ysu. split_and!; [by apply spot_graft|done|done|done].
Qed.

(** Settling keeps it: what changes is the node at the focus. *)
Lemma sits_spot ht t i ctx res xs ys : sits ht t i ctx res xs ys -> exists o xs0 ys0, spot t i ctx xs0 ys0 o /\
  forall t' i' ctx', spot t' i' ctx' xs0 ys0 o ->
    sits ht t' i' ctx' (match ht with O => mkIterator (Some (root_loc t')) (Z.of_nat i') | S _ => res end) xs ys.
Proof using Type.
  destruct ht as [|h]; cbn.
  - intros [Hspot _]. exists None, xs, ys. split; [done|]. by intros t' i' ctx' Hs'.
  - intros (u & xs0 & ys0 & xsu & ysu & Hspot & Hl & -> & ->). exists (Some u), xs0, ys0. split; [done|]. intros t' i' ctx' Hs'.
    by exists u, xs0, ys0, xsu, ysu.
Qed.

(** The tree without a root that has lost its last value. *)
Lemma sits_shrink h q u i res xs ys : sits (S h) (Tree q 0 [] [u]) i [] res xs ys -> leaf_at h u res xs ys.
Proof using Type.
  intros (u' & xs0 & ys0 & xsu & ysu & (Hx & Hy & Hu & Hi) & Hl & -> & ->). cbn in Hi. assert (i = O) as -> by lia. cbn in *.
  injection Hu as <-. by rewrite -Hx -Hy app_nil_r.
Qed.

Definition near bt lm (ht : nat) t i ctx res xs ys : Prop :=
  sits ht t i ctx res xs ys /\ (node_ok t \/ (ctx = [] /\ ht = O)) /\ Forall crumb_good ctx /\
  tied bt lm (plug t ctx) /\ size_ bt = Z.of_nat (length (xs ++ ys)).

(** The container afterwards, with the position in a leaf. *)
Definition rebalanced xs ys (r : Btree.btree * option iterator) : hPropI V :=
  ⟦xs = [] /\ ys = [] /\ r = (btree_new, None)⟧ ∨
  (∃ bt ht T res, ⟦r = (bt, Some res) /\ btree_ok bt ht T /\ leaf_at ht T res xs ys⟧ ∗ own ht T).

Lemma values_nonempty ht l cap vs ts : tree_wf ht (Tree l cap vs ts) -> vs ≠ [] -> values_of (Tree l cap vs ts) ≠ [].
Proof using Type.
  intros Hwf Hvs Hn. pose proof (node_values_sublist ht _ Hwf) as Hs. cbn [node_values] in Hs. rewrite Hn in Hs. by apply sublist_nil_r in Hs.
Qed.

Lemma near_good bt lm ht t i ctx res xs ys : near bt lm ht t i ctx res xs ys -> good t -> tree_wf ht t -> Forall crumb_ok ctx ->
  btree_ok bt (length ctx + ht) (plug t ctx) /\ leaf_at (length ctx + ht) (plug t ctx) res xs ys.
Proof.
  intros (Hs & _ & Hctx & (Hroot & Hright & _) & Hsize) Hg Hwf Hok. pose proof (sits_leaf_at _ _ _ _ _ _ _ Hwf Hok Hs) as Hl. split; [|done].
  assert (full (plug t ctx) /\ roomy (plug t ctx)) as [Hf Hr] by by apply good_iff, good_plug.
  split_and!; [done|done| |done|by right]. by rewrite Hsize (leaf_at_values _ _ _ _ _ Hl).
Qed.

Lemma near_up d bt0 bt lm ht t i ctx res xs ys xs0 ys0 o : settled d bt0 lm xs0 ys0 o bt t ctx i true -> tree_wf ht t -> Forall crumb_ok ctx ->
  sits ht t i ctx res xs ys -> size_ bt = Z.of_nat (length (xs ++ ys)) ->
  exists c ctx1, ctx = c :: ctx1 /\ length ctx1 = d /\ near bt lm (S ht) (graft t c) (length (c_left c)) ctx1 res xs ys.
Proof.
  intros (_ & Hg & Htied & _ & c & ctx1 & -> & Hd & [Hgl Hgr]%Forall_app & Hctx1 & _) Hwf [Hc Hok]%Forall_cons Hs Hsize.
  exists c, ctx1. split_and!; [done|done|]. split_and!; [by eapply sits_up|left|done|done|done].
  split; [done|]. apply Forall_app. split; [done|]. by constructor.
Qed.

(** The root. *)
Lemma wp_rebalance_root lm ht t i bt res xs ys (Φ : Btree.btree * option iterator -> hPropI V) : near bt lm ht t i [] res xs ys ->
  focus lm ht t [] -∗ (∀ r, rebalanced xs ys r -∗ Φ r) -∗
  wp (let! bt := try_shrink bt in ret (bt, if empty bt then None else Some res)) Φ.
Proof.
  intros (Hs & Hok & _ & Htied & Hsize). iIntros "H HΦ". iDestruct (focus_count with "H") as "[%Hcnt H]". destruct Hcnt as (_ & Hwf & _).
  pose proof (sits_leaf_at ht t i [] res xs ys Hwf (Forall_nil_2 _) Hs) as Hl. cbn [length plug Nat.add] in Hl, Htied.
  pose proof (leaf_at_values _ _ _ _ _ Hl) as Hval. rewrite -Hval in Hsize. pose proof Htied as (Hroot & Hright & Hleft).
  iApply wp_bind. iApply (wp_try_shrink with "H"); [done|done|]. iSplit; [|iSplit].
  - iIntros "%Hne H". iApply wp_ret. iApply "HΦ". iRight. iExists bt, ht, t, res.
    assert (full t) as Hfull. { destruct t as [l cap vs ts]. destruct Hok as [[_ Hg]|[_ ->]].
      - constructor; [done|]. eapply Forall_impl; [exact Hg|]. intros u. by intros [? _]%good_iff.
      - assert (ts = []) as -> by apply Hwf. by constructor. }
    assert (empty bt = false) as ->. { unfold empty. rewrite Hsize. apply Z.eqb_neq. apply full_values in Hfull. by destruct (values_of t). }
    iDestruct (focus_own ht with "H") as "$"; [done|done|done|]. iPureIntro. split; [done|]. split; [|done]. split_and!; try done.
    destruct Hok as [Hok|[_ ->]]; [right|by left]. apply good_iff. by apply good_node_ok.
  - iIntros "%Hn". iApply wp_ret. cbn [empty btree_new size_ Z.eqb]. iApply "HΦ". iLeft. iPureIntro. rewrite Hval in Hn. by apply app_nil in Hn as [-> ->].
  - iIntros (h u q) "%Hu H". destruct Hu as [-> ->]. iApply wp_ret. iApply "HΦ". iRight. iExists _, h, u, res.
    destruct Hok as [[_ Hg]|[_ ?]]; [|done]. apply Forall_cons in Hg as [Hg _]. apply good_iff in Hg as [Hf Hr].
    assert (values_of (Tree q 0 [] [u]) = values_of u) as Hvu by (cbn; by rewrite app_nil_r). rewrite Hvu in Hsize.
    assert (empty (mkBtree (root_loc u) (rightmost_ bt) (size_ bt)) = false) as ->.
    { unfold empty. cbn [size_]. rewrite Hsize. apply Z.eqb_neq. pose proof (full_values _ Hf). by destruct (values_of u). }
    iDestruct (focus_own h with "H") as "$"; [done|done|by rewrite Hleft|]. iPureIntro. split; [done|]. split; [|by eapply sits_shrink].
    split_and!; [done|by rewrite /= Hright|done|done|by right].
Qed.

Lemma wp_rebalance_loop fuel lm ht t i ctx bt res xs ys (Φ : Btree.btree * option iterator -> hPropI V) :
  near bt lm ht t i ctx res xs ys -> (length ctx < fuel)%nat ->
  focus lm ht t ctx -∗ (∀ r, rebalanced xs ys r -∗ Φ r) -∗
  wp (rebalance_loop fuel bt (mkIterator (Some (root_loc t)) (Z.of_nat i)) (match ht with O => None | S _ => Some res end)) Φ.
Proof.
  revert ht t i ctx bt res. induction fuel as [|fuel IH]; intros ht t i ctx bt res Hnear Hf; [lia|]. iIntros "H HΦ". cbn [rebalance_loop].
  pose proof Hnear as (Hs & Hok & Hctx & Htied & Hsize).
  assert (default (mkIterator (Some (root_loc t)) (Z.of_nat i)) (match ht with O => None | S _ => Some res end) = res) as Hres.
  { destruct ht; [|done]. cbn. symmetry. apply Hs. }
  iApply wp_bind. iApply wp_lift; [done|]. iDestruct (focus_nodup with "H") as "[%Hnd H]".
  iDestruct (focus_count with "H") as "[%Hcnt H]". destruct Hcnt as (_ & Hwf & Hctxok).
  destruct ctx as [|c ctx].
  { rewrite decide_True; [|by rewrite (proj1 Htied)]. rewrite Hres. by iApply (wp_rebalance_root with "H HΦ"). }
  rewrite decide_False; [|rewrite (proj1 Htied); by apply root_not_plug]. destruct Hok as [Hok|[? _]]; [|done].
  assert (forall bt' t' i' ctx' res', near bt' lm ht t' i' ctx' res' xs ys -> good t' -> focus lm ht t' ctx' -∗ (∀ r, rebalanced xs ys r -∗ Φ r) -∗ Φ (bt', Some res')) as Hdone.
  { intros bt' t' i' ctx' res' Hn' Hg'. iIntros "H HΦ". iDestruct (focus_count with "H") as "[%Hcnt H]". destruct Hcnt as (_ & Hwf' & Hok').
    destruct (near_good _ _ _ _ _ _ _ _ _ Hn' Hg' Hwf' Hok') as [Hbt Hl]. iApply "HΦ". iRight. iExists bt', _, _, res'.
    iDestruct (focus_own with "H") as "$"; [done|done|apply Hn'|]. by iPureIntro. }
  iApply wp_bind. iApply (wp_at_count with "H"). iIntros "H". destruct (Z.leb_spec kMinNodeValues (count_of t)) as [Hle|Hlt].
  { rewrite Hres. iApply wp_ret. iApply (Hdone with "H HΦ"); [done|]. apply good_node_ok. split; [|done].
    pose proof kMinNodeValues_bounds. unfold count_of in Hle. intros Hn. rewrite Hn in Hle. cbn in Hle. lia. }
  destruct (sits_spot _ _ _ _ _ _ _ Hs) as (o & xs0 & ys0 & Hspot & Hkeep).
  iApply wp_bind. cbn [pos_]. iApply (wp_try_merge_or_rebalance with "H"); [done|done|done|done|done|].
  iIntros (bt' t' ctx' i' m) "%Hset H". iDestruct (focus_count with "H") as "[%Hcnt H]". destruct Hcnt as (_ & Hwf' & Hok').
  pose proof Hset as (Hspot' & Hg' & Htied' & Hsize' & c1 & ctx1 & Hc1 & Hd & Hsib & Hctx1 & Hne). specialize (Hkeep _ _ _ Hspot').
  rewrite Hsize in Hsize'.
  assert (default (mkIterator (Some (root_loc t')) (Z.of_nat i')) (match ht with O => None | S _ => Some res end) =
    match ht with O => mkIterator (Some (root_loc t')) (Z.of_nat i') | S _ => res end) as -> by by destruct ht.
  destruct m; cbn [negb].
  - destruct (near_up _ _ _ _ _ _ _ _ _ _ _ _ _ _ Hset Hwf' Hok' Hkeep Hsize') as (c2 & ctx2 & -> & Hd2 & Hup).
    iApply wp_bind. iApply (wp_at_position with "H"). iIntros "H". iApply wp_bind. iApply (wp_at_parent with "H"). iIntros "H". cbn [ctx_parent ctx_pos].
    iDestruct (focus_step with "H") as "[_ H]". iApply (IH (S ht) (graft t' c2) with "H HΦ"); [exact Hup|]. cbn in Hf. lia.
  - iApply wp_ret. iApply (Hdone with "H HΦ"); [|done]. split_and!; [done|left; by apply good_node_ok| |done|done].
    subst ctx'. constructor; [|done]. split; [by apply Hne|done].
Qed.

Lemma wp_rebalance_after_delete lm t i ctx bt xs ys (Φ : Btree.btree * iterator -> hPropI V) :
  near bt lm 0 t i ctx (mkIterator (Some (root_loc t)) (Z.of_nat i)) xs ys ->
  focus lm 0 t ctx -∗ (∀ bt' S' it, ⟦points S' it xs ys⟧ -∗ btree_own bt' S' -∗ Φ (bt', it)) -∗
  wp (rebalance_after_delete bt (mkIterator (Some (root_loc t)) (Z.of_nat i))) Φ.
Proof.
  intros Hnear. iIntros "H HΦ". iDestruct (focus_count with "H") as "[%Hcnt H]". destruct Hcnt as (_ & _ & Hok).
  iApply wp_bind. iApply (wp_heap_fuel with "H"); [apply focus_at_least|]. iIntros (f) "%Hf H".
  iApply wp_bind. iApply (wp_rebalance_loop with "H"); [exact Hnear|lia|]. iIntros (r) "[%Hr|(%bt' & %ht & %T & %res & %Hr & H)]".
  - destruct Hr as (-> & -> & ->). iApply wp_bind. iApply (wp_end _ None with "[]"); [done|]. iIntros (it) "%Hit H". iApply wp_ret.
    iApply ("HΦ" $! _ None with "[] H"). by iPureIntro.
  - destruct Hr as (-> & Hbt & (ctx' & l & cap & A & B & <- & <- & Hctx' & -> & -> & ->)). iEval (rewrite (own_focus _ O); [|lia|done]) in "H".
    iApply wp_bind. iApply wp_lift; [done|]. iApply wp_bind. iApply (wp_at_finish _ _ (Tree l cap (A ++ B) []) with "H"). iIntros "H".
    iDestruct (focus_own (length ctx') with "H") as "H"; [done|lia|done|].
    unfold count_of. cbn [node_values pos_]. rewrite length_app. pose proof Hbt as (_ & _ & _ & Hfull & _).
    destruct (Z.eqb_spec (Z.of_nat (length A)) (Z.of_nat (length A + length B))) as [He|Hne].
    + destruct B as [|b B]; [|cbn in He; lia]. destruct A as [|x A _] using rev_ind.
      { apply full_plug, full_inv in Hfull as [? _]. done. }
      iApply wp_bind. rewrite length_app /=. replace (Z.of_nat (length A + 1 + 0) - 1) with (Z.of_nat (length A)) by lia.
      iApply (wp_increment _ _ _ (before ctx' ++ A) x (after ctx') with "H"); [done| |].
      { exists ctx', (Tree l cap ((A ++ [x]) ++ []) []), (length A), O. split_and!; try done.
        - rewrite app_nil_r. apply (cursor_leaf ctx' l cap A [x]).
        - intros _. cbn. rewrite !length_app /=. lia. }
      iIntros (it) "%Hit H". iApply wp_ret. rewrite -(assoc_L _ (before ctx')) in Hit. iApply ("HΦ" $! bt' (Some (length ctx', plug (Tree l cap ((A ++ [x]) ++ []) []) ctx')) with "[]"); [iPureIntro; exact Hit|].
      cbn [btree_own]. by iFrame.
    + iApply wp_ret. iApply ("HΦ" $! bt' (Some (length ctx', plug (Tree l cap (A ++ B) []) ctx')) with "[]"); [iPureIntro|cbn [btree_own]; by iFrame].
      exists ctx', (Tree l cap (A ++ B) []), (length A), O. split_and!; try done; [apply cursor_leaf|].
      intros _. cbn. rewrite length_app. lia.
Qed.
End rebalance.

(** ** [erase] *)

Section subtree.
Context {K V : Type} `{PB : BtreeParams K V} {LB : BtreeLaws K V} `{AL : Allocator} {FL : AllocatorLaws}.
Implicit Types (t u T : tree V) (ts : list (tree V)) (vs A B xs ys : list V) (c : crumb V) (ctx : list (crumb V)) (v w : V).

(** The nodes between a node and the crumb [c] above it, without that of [c]. *)
Fixpoint own_seg (ht : nat) (hole : loc) ctx c : hPropI V :=
  match ctx with
  | [] => emp
  | c0 :: ctx => own_crumb ht hole c0 (ctx_parent 1%positive (ctx ++ [c])) (ctx_pos (ctx ++ [c])) ∗ own_seg (S ht) (c_loc c0) ctx c
  end.

Lemma own_seg_plug ht t ctx c : Forall crumb_ok ctx ->
  own_tree (length ctx + ht) (c_loc c) (Z.of_nat (length (c_left c))) (plug t ctx) ⊣⊢
  own_tree ht (ctx_parent 1%positive (ctx ++ [c])) (ctx_pos (ctx ++ [c])) t ∗ own_seg ht (root_loc t) ctx c.
Proof using Type.
  intros Hok. revert ht t. induction Hok as [|c0 ctx Hc _ IH]; intros ht t; cbn [own_seg length plug app].
  - by rewrite right_id.
  - replace (S (length ctx) + ht)%nat with (length ctx + S ht)%nat by lia. rewrite IH own_tree_crumb //. cbn [root_loc ctx_parent ctx_pos].
    by rewrite (assoc bi_sep).
Qed.

(** The last leaf of a subtree. *)
Lemma wp_tree_rightmost_leaf ht par pos t fuel (Ψ : loc -> hPropI V) : (ht < fuel)%nat ->
  own_tree ht par pos t -∗ (own_tree ht par pos t -∗ Ψ (rightmost_loc t)) -∗ wp (rightmost_leaf fuel (root_loc t)) Ψ.
Proof.
  revert par pos t fuel Ψ. induction ht as [|ht IH]; intros par pos [l cap vs ts] [|fuel] Ψ Hf; try lia; cbn [rightmost_leaf];
    iIntros "Ht HΨ"; iDestruct (own_tree_ok with "Ht") as "[%Hok Ht]"; destruct Hok as (Hc & Hcap & Hts);
    iApply wp_bind; iApply (wp_tree_is_internal with "Ht"); iIntros "Ht"; cbn [negb Nat.eqb].
  - iApply wp_ret. subst ts. by iApply "HΨ".
  - destruct ts as [|t ts _] using rev_ind; [done|]. rewrite length_app /= in Hts. subst cap. rewrite rightmost_loc_snoc.
    set (c := Crumb l vs [] ts []). assert (crumb_ok c) as Hcok by (split; cbn; lia).
    assert (Tree l 0 vs (ts ++ [t]) = Tree (c_loc c) 0 (c_left c ++ c_right c) (t_left c ++ t :: t_right c)) as Hg by (cbn; by rewrite app_nil_r).
    rewrite Hg. iEval (rewrite own_tree_crumb //) in "Ht". iDestruct "Ht" as "[Ht (%arr & %Harr & Hl & Hk)]". destruct Harr as (Hlen & Hle & Hcr & Hat).
    unfold inner. cbn [c_loc c_left c_right t_left t_right c root_loc] in *. rewrite app_nil_r in Hle |- *.
    iApply wp_bind. iApply (wp_finish with "Hl"). iIntros "Hl". iApply wp_bind.
    assert (arr !! length vs = Some (Some (root_loc t))) as Hc'.
    { apply children_at_app in Hat as [_ [Hat _]%children_at_cons]. by rewrite length_fmap (proj1 Hcok) in Hat. }
    iApply (wp_child_at with "Hl"); [done|]. iIntros "Hl". iApply (IH with "Ht"); [lia|]. iIntros "Ht". iApply "HΨ".
    pose proof (own_tree_crumb ht par pos t c Hcok) as Hjoin. cbn in Hjoin. rewrite app_nil_r in Hjoin. iEval (cbn; rewrite ?app_nil_r). rewrite Hjoin. iFrame "Ht". iExists arr.
    unfold inner. cbn [c_loc c_left c_right t_left t_right c]. rewrite app_nil_r. iFrame. by iPureIntro.
Qed.
End subtree.

Section erase.
Context {K V : Type} `{PB : BtreeParams K V} {LB : BtreeLaws K V} `{AL : Allocator} {FL : AllocatorLaws} {LK : KeyLaws K V}.
Implicit Types (t u T : tree V) (ts : list (tree V)) (vs A B xs ys : list V) (c : crumb V) (ctx : list (crumb V)) (v w x y : V) (bt : Btree.btree).

(** What erasure leaves: the values around the erased one, and the position
    between them. *)
Definition erased xs ys (Φ : Btree.btree * iterator -> hPropI V) : hPropI V :=
  (∀ bt' S' it, ⟦points S' it xs ys⟧ -∗ btree_own bt' S' -∗ Φ (bt', it))%I.

Lemma wp_erase_leaf bt ht T l cap A y B ctx (Φ : Btree.btree * iterator -> hPropI V) : btree_ok bt ht T ->
  plug (Tree l cap (A ++ y :: B) []) ctx = T -> (length ctx + 0)%nat = ht -> Forall crumb_ok ctx ->
  own ht T -∗ erased (before ctx ++ A) (B ++ after ctx) Φ -∗ wp (erase bt (mkIterator (Some l) (Z.of_nat (length A)))) Φ.
Proof.
  intros (Hroot & Hright & Hsize & Hfull & Hroomy) <- <- Hctx. pose proof slots_max_Z as Hm. pose proof kNodeSlots_min as Hk.
  iIntros "H HΦ". iEval (rewrite (own_focus _ O) //) in "H". set (lm := leftmost_loc _).
  iDestruct (focus_count with "H") as "[%Hcnt H]". destruct Hcnt as (Hle & Hwf & _). cbn in Hle. pose proof (tree_wf_ok _ _ _ _ _ Hwf) as Hok.
  destruct (leaf_capacity_bounds _ _ _ _ Hok) as (Hc & Hmax & _). rewrite length_app /= in Hle, Hc.
  assert (cap ≠ 0) as Hcap by (destruct Hok as (_ & ? & _); lia).
  iEval (rewrite (leaf_focus _ _ _ _ _ _ Hok) //) in "H". iDestruct "H" as "[(%arr & %Harr & Hl) Hctx]".
  iEval (rewrite slots_middle; [|lia]) in "Hl". unfold erase.
  iApply wp_bind. iApply wp_lift; [done|]. cbn [pos_]. rewrite field_id; [|lia]. iApply wp_bind.
  iApply (wp_destroy with "Hl"); [by rewrite length_fmap|done|]. iIntros "Hl".
  iApply wp_bind. iApply (wp_is_internal with "Hl"). iIntros "Hl". rewrite (proj2 (Z.eqb_neq cap 0)) //.
  iApply wp_bind. iApply wp_bind. iApply (wp_finish with "Hl"). iIntros "Hl". iApply wp_bind. rewrite length_app /=.
  rewrite (field_id (Z.of_nat (length A) + 1)); [|lia]. rewrite field_id; [|lia].
  iApply (wp_transfer_n_down _ _ _ _ _ _ (Live <$> A) _ B 1 with "[Hl]"); [lia|by rewrite length_fmap|rewrite length_fmap; lia|lia|done|]. iIntros "Hl".
  iApply wp_ret. iApply wp_bind. iApply wp_lift; [done|]. iApply wp_bind. iApply (wp_finish with "Hl"). iIntros "Hl".
  iApply wp_bind. iApply (wp_set_finish with "Hl"); [lia|]. iIntros "Hl". iApply wp_bind.
  set (t' := Tree l cap (A ++ B) []). change l with (root_loc t').
  assert (tree_ok 0 cap (A ++ B) []) as Hok' by (destruct Hok as [_ Hok]; split; [rewrite length_app; lia|done]).
  iApply (wp_rebalance_after_delete lm t' (length A) ctx _ (before ctx ++ A) (B ++ after ctx) with "[Hl Hctx]").
  - split_and!.
    + split; [|done]. split_and!; [cbn; by rewrite take_app_length|cbn; by rewrite drop_app_length|done|rewrite length_app; lia].
    + destruct ctx as [|c ctx]; [by right|left]. destruct Hroomy as [?|Hroomy]; [done|]. by pose proof (proj1 (good_plug _ _) (proj2 (good_iff _) (conj Hfull Hroomy))) as [[_ Hg]%good_node_ok _].
    + destruct ctx as [|c ctx]; [done|]. destruct Hroomy as [?|Hroomy]; [done|]. apply (proj1 (good_plug _ _) (proj2 (good_iff _) (conj Hfull Hroomy))).
    + eapply tied_same; [|split_and!; [exact Hroot|exact Hright|reflexivity]]. apply same_ends_plug. by split_and!.
    + cbn [size_]. rewrite Hsize values_of_leaf // !length_app. cbn [length]. lia.
  - rewrite (leaf_focus _ _ _ _ _ _ Hok') //. iFrame "Hctx". iExists arr. iSplitR; [by iPureIntro|].
    iApply (points_to_eq with "Hl"). f_equal; [rewrite ?length_app; lia|]. cbn [replicate app]. rewrite slots_app; [|lia]. do 2 f_equal. by replace (capacity cap - length A - length B)%nat with (S (capacity cap - length A - S (length B))) by lia.
  - iIntros (bt' S' it) "%Hp H". iApply wp_ret. by iApply ("HΦ" with "[] H").
Qed.

(** A value of an internal node is replaced by the last one of the subtree on
    its left. *)
Lemma same_ends_replace q A y x B TA tl tl' TB ctx : same_ends tl tl' ->
  same_ends (plug tl (Crumb q A (y :: B) TA TB :: ctx)) (plug tl' (Crumb q A (x :: B) TA TB :: ctx)).
Proof using Type.
  intros (H1 & H2 & H3). cbn [plug c_loc c_left c_right t_left t_right]. apply same_ends_plug. split_and!; [done| |].
  - rewrite !leftmost_loc_head. by destruct TA.
  - rewrite !rightmost_loc_last !last_app_cons !last_cons. by destruct (last TB).
Qed.

(** The tree after the replacement, and the position behind the value moved. *)
Lemma near_replaced bt lm q A y x B TA tr TB l cap A0 ctx1 ctx :
  length TA = length A -> length (tr :: TB) = length (y :: B) -> Forall crumb_ok ctx1 -> Forall right_end ctx1 -> Forall crumb_ok ctx ->
  good (plug (Tree l cap (A0 ++ [x]) []) (ctx1 ++ Crumb q A (y :: B) TA (tr :: TB) :: ctx)) ->
  tied bt lm (plug (Tree l cap (A0 ++ [x]) []) (ctx1 ++ Crumb q A (y :: B) TA (tr :: TB) :: ctx)) ->
  size_ bt = Z.of_nat (length (values_of (plug (Tree l cap (A0 ++ [x]) []) (ctx1 ++ Crumb q A (y :: B) TA (tr :: TB) :: ctx)))) ->
  near (mkBtree (root_ bt) (rightmost_ bt) (size_ bt - 1)) lm 0 (Tree l cap A0 []) (length A0)
    (ctx1 ++ Crumb q A (x :: B) TA (tr :: TB) :: ctx) (mkIterator (Some l) (Z.of_nat (length A0)))
    (before ctx ++ lpart TA A ++ before ctx1 ++ A0) (x :: values_of tr ++ rpart B TB ++ after ctx).
Proof using Type.
  intros HTA HTB Hctx1 Hend Hctx Hg Htied Hsize. apply good_plug in Hg as [[_ Hg]%good_node_ok [Hg1 [[_ Hg2] Hg3]%Forall_cons]%Forall_app]. split_and!.
  - split; [|done]. split_and!; [|rewrite /= drop_all after_app (after_right_end ctx1) // after_cons; cbn [c_right t_right]; by rewrite rpart_cons /= -!assoc_L|done|done].
    cbn. by rewrite firstn_all before_app before_cons -!assoc_L.
  - by left.
  - apply Forall_app. split; [done|]. constructor; [|done]. split; [by destruct A|done].
  - eapply tied_same; [|destruct Htied as (H1 & H2 & H3); split_and!; [exact H1|exact H2|exact H3]]. rewrite !plug_app.
    apply same_ends_replace, same_ends_plug. by split_and!.
  - cbn [size_]. rewrite Hsize elements_plug; cycle 1.
    { apply Forall_app. split; [done|]. constructor; [|done]. split; cbn; [done|]. cbn in HTB. lia. }
    rewrite !before_app !after_app !before_cons !after_cons (after_right_end ctx1) // rpart_cons. cbn [values_of t_left c_left].
    rewrite !length_app /= !length_app /=. lia.
Qed.

Lemma wp_erase_inner bt ht T h q A y B TA tl tr TB ctx (Φ : Btree.btree * iterator -> hPropI V) : btree_ok bt ht T ->
  plug (Tree q 0 (A ++ y :: B) (TA ++ tl :: tr :: TB)) ctx = T -> (length ctx + S h)%nat = ht -> Forall crumb_ok ctx ->
  length TA = length A -> length TB = length B ->
  own ht T -∗ erased (before ctx ++ lpart TA A ++ values_of tl) (values_of tr ++ rpart B TB ++ after ctx) Φ -∗
  wp (erase bt (mkIterator (Some q) (Z.of_nat (length A)))) Φ.
Proof.
  intros (Hroot & Hright & Hsize & Hfull & Hroomy) <- <- Hctx HTA HTB. pose proof slots_max_Z as Hm. pose proof kNodeSlots_min as Hk.
  assert (good (plug (Tree q 0 (A ++ y :: B) (TA ++ tl :: tr :: TB)) ctx)) as Hgood by (apply good_iff; split; [done|destruct Hroomy; [lia|done]]).
  iIntros "H HΦ". iEval (rewrite (own_focus _ (S h)) //) in "H".
  set (c := Crumb q A (y :: B) TA (tr :: TB)). set (c' x := Crumb q A (x :: B) TA (tr :: TB)).
  assert (crumb_ok c) as Hc by (split; cbn; lia). set (lm := leftmost_loc _). change (Tree q 0 (A ++ y :: B) (TA ++ tl :: tr :: TB)) with (graft tl c) in *.
  iEval (rewrite focus_down' //) in "H". iDestruct (focus_count with "H") as "[%Hcnt H]". destruct Hcnt as (_ & Hwf & _).
  destruct (rightmost_way _ _ Hwf) as (ctx1 & t0 & Hp & Hlen & Hctx1 & Hend & Hr0 & Hwf0). destruct t0 as [l cap vs0 ts0].
  pose proof (tree_wf_ok _ _ _ _ _ Hwf0) as Hok0. assert (ts0 = []) as -> by apply Hok0. rewrite -Hp in Hgood.
  change (plug (graft (plug ?t ctx1) c) ctx) with (plug (plug t ctx1) (c :: ctx)) in Hgood.
  destruct vs0 as [|x A0 _] using rev_ind.
  { rewrite -plug_app in Hgood. apply good_plug in Hgood as [Hgood _]. by apply good_inv in Hgood as [? _]. }
  assert (values_of tl = before ctx1 ++ A0 ++ [x]) as Hvtl by by rewrite -Hp elements_plug // after_right_end // app_nil_r.
  iDestruct "H" as "[Htl [(%arr & %Harr & Hq & HTA & HTB) Hctx]]". unfold inner. cbn [c c_loc c_left c_right t_left t_right ctx_parent ctx_pos] in *.
  destruct Harr as (Harr & Hle & _ & Hat). rewrite length_app /= in Hle. iEval (rewrite slots_middle; [|lia]) in "Hq". unfold erase.
  assert (arr !! length A = Some (Some (root_loc tl))) as Hchild.
  { apply children_at_app in Hat as [_ [Hat _]%children_at_cons]. by rewrite length_fmap HTA in Hat. }
  iApply wp_bind. iApply wp_lift; [done|]. cbn [pos_ node_]. rewrite field_id; [|lia]. iApply wp_bind.
  iApply (wp_destroy with "Hq"); [by rewrite length_fmap|done|]. iIntros "Hq".
  iApply wp_bind. iApply (wp_is_internal with "Hq"). iIntros "Hq". cbn [Z.eqb]. iApply wp_bind.
  (* operator-- *)
  iApply wp_bind. iApply wp_bind. iApply wp_lift; [done|]. iApply wp_bind. iApply (wp_is_leaf with "Hq"). iIntros "Hq". cbn [negb Z.eqb].
  iApply wp_bind. iApply wp_lift; [done|]. iApply wp_bind. iApply (wp_is_leaf with "Hq"). iIntros "Hq". cbn [negb Z.eqb].
  iApply wp_bind. iApply (wp_start with "Hq"). iIntros "Hq". cbn [pos_]. iApply wp_bind. iApply wp_check; [apply Z.leb_le; lia|].
  rewrite field_id; [|lia]. iApply wp_bind. iApply (wp_child_at with "Hq"); [done|]. iIntros "Hq".
  iApply wp_bind. iApply (wp_heap_fuel with "Htl"); [apply own_tree_at_least|]. iIntros (f) "%Hf Htl". pose proof (wf_nodes _ _ Hwf).
  iApply wp_bind. iApply (wp_tree_rightmost_leaf with "Htl"); [lia|]. iIntros "Htl". rewrite -Hr0. cbn [root_loc].
  (* the last leaf of the subtree *)
  iEval (rewrite -Hp -Hlen -(Nat.add_0_r (length ctx1)) (own_seg_plug O _ ctx1 c Hctx1)) in "Htl". iDestruct "Htl" as "[Hl Hseg]".
  iEval (rewrite own_tree_unfold) in "Hl". iDestruct "Hl" as "(_ & (%larr & %Hlarr & Hl) & _)".
  destruct (leaf_capacity_bounds _ _ _ _ Hok0) as (Hc0 & Hmax0 & _). rewrite length_app /= in Hc0.
  iEval (rewrite slots_middle; [|cbn; lia]) in "Hl". cbn [root_loc].
  iApply wp_bind. iApply (wp_finish with "Hl"). iIntros "Hl". iApply wp_ret.
  iApply wp_bind. iApply wp_lift; [done|]. iApply wp_bind. iApply (wp_is_leaf with "Hl"). iIntros "Hl".
  rewrite (proj2 (Z.eqb_neq cap 0)); [|destruct Hok0 as (_ & ? & _); lia]. iApply wp_bind. iApply wp_check; [done|]. cbn [pos_].
  assert (Z.of_nat (length (A0 ++ [x])) - 1 = Z.of_nat (length A0)) as Hlast by (rewrite length_app /=; lia). rewrite Hlast.
  iApply wp_bind. iApply (wp_transfer with "Hq Hl"); [by rewrite length_fmap|by rewrite length_fmap|]. iIntros "Hq Hl". iApply wp_ret.
  iApply wp_bind. iApply wp_lift; [done|]. iApply wp_bind. iApply (wp_finish with "Hl"). iIntros "Hl".
  iApply wp_bind. iApply (wp_set_finish with "Hl"); [lia|]. iIntros "Hl". iApply wp_bind.
  (* the tree again *)
  set (t' := Tree l cap A0 []).
  iAssert (own_tree 0 (ctx_parent 1%positive (ctx1 ++ [c])) (ctx_pos (ctx1 ++ [c])) t') with "[Hl]" as "Hl".
  { unfold t'. rewrite own_tree_unfold. cbn [kids_below]. iSplitR; [iPureIntro; destruct Hok0 as [_ Hok0]; split; [lia|done]|]. iSplitL; [|done].
    iExists larr. iSplitR; [iPureIntro; split; [apply children_at_nil|apply Hlarr]|]. iApply (points_to_eq with "Hl"). f_equal; [lia|]. cbn [app fmap list_fmap length].
    unfold slots_of. f_equal. rewrite -replicate_S. f_equal. lia. }
  iAssert (own_tree h q (Z.of_nat (length A)) (plug t' ctx1)) with "[Hl Hseg]" as "Htl".
  { rewrite -Hlen -(Nat.add_0_r (length ctx1)). iApply (bi.equiv_entails_1_2 _ _ (own_seg_plug O t' ctx1 c Hctx1)). iFrame. }
  assert (same_ends tl (plug t' ctx1)) as Hends by (rewrite -Hp; apply same_ends_plug; by split_and!).
  iAssert (focus lm h (plug t' ctx1) (c' x :: ctx)) with "[Htl Hq HTA HTB Hctx]" as "H".
  { iFrame "Htl Hctx". iExists arr. unfold inner. cbn [c' c_loc c_left c_right t_left t_right]. rewrite -(proj1 Hends). iFrame "HTA HTB".
    rewrite !length_app /= in Hle |- *. iSplitR; [by iPureIntro|]. iApply (points_to_eq with "Hq"). f_equal. rewrite slots_middle; [done|lia]. }
  assert (crumb_ok (c' x)) as Hc' by done. assert (Forall crumb_ok (ctx1 ++ c' x :: ctx)) as Hok' by (apply Forall_app; split; [done|by constructor]).
  iApply (wp_rebalance_after_delete lm t' (length A0) (ctx1 ++ c' x :: ctx) _ (before ctx ++ lpart TA A ++ before ctx1 ++ A0) (x :: values_of tr ++ rpart B TB ++ after ctx) with "[H]").
  - assert (plug (Tree l cap (A0 ++ [x]) []) (ctx1 ++ c :: ctx) = plug (graft tl c) ctx) as HT by by rewrite plug_app Hp.
    apply near_replaced with (y := y); [done|cbn; lia|done|done|done|fold c; by rewrite plug_app|fold c; by rewrite HT|fold c; by rewrite HT].
  - iApply (focus_move with "H"); [by rewrite plug_app|rewrite length_app /=; lia|done].
  - iIntros (bt' S' it) "%Hpt H". iApply wp_bind. destruct S' as [[ht' T']|]; [|by destruct Hpt as (_ & _ & ?)]. iDestruct "H" as "[%Hbt' H]".
    iApply (wp_increment with "H"); [apply Hbt'|exact Hpt|]. iIntros (it') "%Hit H". iApply wp_ret.
    iApply ("HΦ" $! bt' (Some (ht', T')) with "[]"); [iPureIntro|cbn [btree_own]; by iFrame]. cbn [points]. by rewrite Hvtl (assoc_L _ (lpart _ _)) !assoc_L in Hit |- *.
Qed.

Lemma wp_erase bt S it xs y ys (Φ : Btree.btree * iterator -> hPropI V) : points S it xs (y :: ys) ->
  btree_own bt S -∗ erased xs ys Φ -∗ wp (erase bt it) Φ.
Proof.
  intros Hp. destruct S as [[ht T]|]; [|by destruct Hp as (_ & _ & ?)]. iIntros "[%Hok H] HΦ". unfold own. iDestruct (own_tree_wf with "H") as "[%HT H]".
  destruct Hp as (ctx & t & i & h & Hp & Hl & Hctx & Hc & -> & Hi). specialize (Hi ltac:(done)).
  fold (own ht T). iAssert (⟦tree_wf h t⟧ ∗ own ht T)%I with "[H]" as "[%Hwf H]".
  { subst ht. subst T. rewrite (own_focus _ h) //. by iDestruct (focus_count with "H") as "[(_ & % & _) $]". }
  destruct h as [|h].
  - apply cursor_leaf_inv in Hc as (l & cap & A & B & -> & -> & -> & Hys); [|done]. cbn in Hi. destruct B as [|b B]; [rewrite app_nil_r in Hi; lia|].
    injection Hys as -> ->. by iApply (wp_erase_leaf with "H HΦ").
  - apply (cursor_inner_inv _ h) in Hc as (l & A & v & B & TA & tl & tr & TB & -> & HTA & HTB & -> & -> & Hys); [|done].
    injection Hys as -> ->. by iApply (wp_erase_inner with "H HΦ").
Qed.
End erase.
