(* ===== verification/BtreeSpec.v ===== *)
(** * BtreeSpec: the theorems about the B-trees of Btree.v

    [holds (btree_own bt S) h]: the heap [h] consists of the nodes of the
    container [bt], of shape [S]; [contents S] are its values in order, and
    [points S it xs ys] says which values are before and after an iterator. *)

From S2P Require Import Prelude.
From S2P Require Import BtreeNode.
From S2P Require Import Btree.
From S2P Require Import HeapLogic.
From S2P Require Import BtreeTree.
From S2P Require Import BtreeFree.
From S2P Require Import BtreeMove.
From S2P Require Import BtreeZip.
From S2P Require Import BtreeSearch.
From S2P Require Import BtreeLookup.
From S2P Require Import BtreePair.
From S2P Require Import BtreeInsert.
From S2P Require Import BtreeHint.
From S2P Require Import BtreeErase.
From Stdlib Require Import Sorting.Sorted.
From iris.proofmode Require Import proofmode.
Import btree_node.
Import btree_iterator.
Import btree.
#[local] Open Scope Z_scope.
#[local] Open Scope cpp_scope.

Section spec.
Context {K V : Type} `{PB : BtreeParams K V} {LB : BtreeLaws K V} `{AL : Allocator} {FL : AllocatorLaws} {LK : KeyLaws K V}.
Implicit Types (t T : tree V) (xs ys : list V) (k : K) (v : V) (bt : Btree.btree) (h : heap V).

(** Where [find] is to stop, and the bounds of a key. *)
Definition finds k (S : shape) (it : iterator) : Prop :=
  (exists xs y ys, points S it xs (y :: ys) /\ same_key k y) \/
  (points S it (contents S) [] /\ Forall (λ v, ¬ same_key k v) (contents S)).
Definition lower k (S : shape) (it : iterator) : Prop :=
  exists xs ys, points S it xs ys /\ Forall (λ v, before_key k v = true) xs /\ Forall (λ v, before_key k v = false) ys.
Definition upper k (S : shape) (it : iterator) : Prop :=
  exists xs ys, points S it xs ys /\ Forall (λ v, after_key k v = false) xs /\ Forall (λ v, after_key k v = true) ys.

(** *** The empty tree *)

Lemma wp_start_empty (Φ : Z -> hPropI V) : Φ 0 ⊢ wp (start EmptyNode) Φ.
Proof using Type. iIntros "HΦ". iApply wp_bind. iApply wp_load_empty. iApply wp_bind. iApply wp_check; [done|]. by iApply wp_ret. Qed.
Lemma wp_finish_empty (Φ : Z -> hPropI V) : Φ 0 ⊢ wp (finish EmptyNode) Φ.
Proof using Type. iIntros "HΦ". iApply wp_bind. iApply wp_load_empty. by iApply wp_ret. Qed.
Lemma wp_is_leaf_empty (Φ : bool -> hPropI V) : Φ true ⊢ wp (is_leaf EmptyNode) Φ.
Proof using Type. iIntros "HΦ". iApply wp_bind. iApply wp_load_empty. by iApply wp_ret. Qed.
Lemma wp_position_empty (Φ : Z -> hPropI V) : Φ 0 ⊢ wp (position EmptyNode) Φ.
Proof using Type. iIntros "HΦ". iApply wp_bind. iApply wp_load_empty. by iApply wp_ret. Qed.
Lemma wp_parent_empty (Φ : loc -> hPropI V) : Φ EmptyNode ⊢ wp (parent EmptyNode) Φ.
Proof using Type. iIntros "HΦ". iApply wp_bind. iApply wp_load_empty. by iApply wp_ret. Qed.

Definition no_match : option MatchKind := match key_compare with ByLess _ => None | ByOrder _ => Some kNe end.

Lemma wp_lower_bound_empty k (Φ : SearchResult Z -> hPropI V) : Φ (mkSearchResult 0 no_match) ⊢ wp (btree_node.lower_bound EmptyNode k) Φ.
Proof using Type.
  iIntros "HΦ". iApply wp_bind. iApply wp_start_empty. iApply wp_bind. iApply wp_finish_empty.
  unfold linear_search_impl, binary_search_impl, no_match.
  destruct use_linear_search, key_compare; [| | |destruct can_have_multiple_equivalent_keys]; by iApply wp_ret.
Qed.
Lemma wp_upper_bound_empty k (Φ : Z -> hPropI V) : Φ 0 ⊢ wp (btree_node.upper_bound EmptyNode k) Φ.
Proof using Type.
  iIntros "HΦ". iApply wp_bind. iApply wp_start_empty. iApply wp_bind. iApply wp_finish_empty. iApply wp_bind.
  destruct use_linear_search; iApply wp_ret; by iApply wp_ret.
Qed.
Lemma wp_internal_last_empty (Φ : iterator -> hPropI V) : Φ (mkIterator None 0) ⊢ wp (internal_last (mkIterator (Some EmptyNode) 0)) Φ.
Proof using Type.
  iIntros "HΦ". iApply wp_bind. iApply wp_check; [by apply bool_decide_eq_true|]. iApply wp_bind. iApply wp_lift; [done|].
  iApply wp_bind. iApply (wp_heap_fuel (emp)%I 0 _ (at_least_0 _)); [done|]. iIntros ([|f]) "%Hf _"; [lia|]. cbn [last_loop pos_].
  iApply wp_bind. iApply wp_finish_empty. cbn. iApply wp_bind. iApply wp_position_empty. iApply wp_bind. iApply wp_parent_empty.
  iApply wp_bind. iApply wp_is_leaf_empty. by iApply wp_ret.
Qed.
Lemma wp_fuel (Φ : nat -> hPropI V) : (∀ f, Φ (S f)) ⊢ wp heap_fuel Φ.
Proof using Type.
  iIntros "HΦ". iApply (wp_heap_fuel (emp)%I 0 _ (at_least_0 _)); [done|]. iIntros ([|f]) "%Hf _"; [lia|]. iApply "HΦ".
Qed.
Lemma wp_internal_locate_empty k (Φ : SearchResult iterator -> hPropI V) :
  Φ (mkSearchResult (mkIterator (Some EmptyNode) 0) no_match) ⊢ wp (internal_locate btree_new k) Φ.
Proof using Type.
  iIntros "HΦ". iApply wp_bind. iApply wp_fuel. iIntros (f). cbn [locate_loop root_ btree_new].
  iApply wp_bind. iApply wp_lower_bound_empty. unfold IsEq, HasMatch, no_match. destruct key_compare; cbn; iApply wp_bind; iApply wp_is_leaf_empty; by iApply wp_ret.
Qed.

(** *** The operations *)

Lemma wp_find bt S k (Φ : iterator -> hPropI V) : in_order (contents S) ->
  btree_own bt S -∗ (∀ it, ⟦finds k S it⟧ -∗ btree_own bt S -∗ Φ it) -∗ wp (find bt k) Φ.
Proof.
  intros Hord. iIntros "H HΦ". iApply wp_bind. destruct S as [[ht T]|]; cbn [btree_own].
  - iDestruct "H" as "[%Hok H]". iApply (wp_internal_find with "H"); [done|apply Hok|]. iIntros (r) "%Hr H".
    iAssert (btree_own bt (Some (ht, T))) with "[H]" as "H"; [cbn [btree_own]; by iFrame|].
    destruct Hr as [[Hn Hno]|(xs & y & ys & Hit & Hsame)].
    + unfold internal_end. rewrite Hn. iApply (wp_end with "H"). iIntros (it) "%Hit H". iApply ("HΦ" with "[] H"). iPureIntro. by right.
    + iApply (wp_internal_end _ _ _ _ xs (y :: ys) with "H"); [by right|exact (iter_at_values _ _ _ _ _ Hit)|].
      iIntros (it) "%Hp H". iApply ("HΦ" with "[] H"). iPureIntro. left. by exists xs, y, ys.
  - iDestruct "H" as "->". iApply wp_bind. iApply wp_internal_locate_empty. unfold HasMatch, IsEq, no_match.
    destruct key_compare; cbn [result_match result_value].
    + iApply wp_bind. iApply wp_internal_last_empty. iApply wp_bind. iApply wp_ret. iApply wp_ret. cbn [internal_end node_].
      iApply (wp_end _ None with "[]"); [done|]. iIntros (it) "%Hit H". iApply ("HΦ" with "[] H"). iPureIntro. by right.
    + iApply wp_ret. cbn [internal_end node_].
      iApply (wp_end _ None with "[]"); [done|]. iIntros (it) "%Hit H". iApply ("HΦ" with "[] H"). iPureIntro. by right.
Qed.

Lemma wp_tree_lower_bound bt S k (Φ : iterator -> hPropI V) : in_order (contents S) ->
  btree_own bt S -∗ (∀ it, ⟦lower k S it⟧ -∗ btree_own bt S -∗ Φ it) -∗ wp (lower_bound bt k) Φ.
Proof.
  intros Hord. iIntros "H HΦ". iApply wp_bind. unfold internal_lower_bound. destruct S as [[ht T]|]; cbn [btree_own].
  - iDestruct "H" as "[%Hok H]". pose proof (proj1 Hok) as Hroot. destruct can_have_multiple_equivalent_keys eqn:Emul; cbn [negb].
    + iApply wp_bind. iApply (own_fuel with "H"). iIntros (f) "%Hf H". rewrite Hroot. iEval (rewrite own_root) in "H".
      iApply (wp_lower_loop with "H"); [done|done|done|done|done|]. iIntros (r xs ys) "%Hr H". destruct Hr as (Hlast & Hval & Hxs & Hys).
      cbn [length plug Nat.add] in *.
      iApply (wp_internal_end with "[H]"); [done|done|cbn [btree_own]; by iFrame|]. iIntros (it) "%Hit H". iApply ("HΦ" with "[] H").
      iPureIntro. exists xs, ys. by split_and!.
    + iApply wp_bind. iApply (wp_internal_locate with "H"); [done|done|]. iIntros (r) "%Hr H". iApply wp_bind.
      destruct Hr as [(xs & y & ys & _ & Hit & Hsame)|(xs & ys & _ & Hit & Hxs & Hys & _)].
      * iApply (wp_internal_last_iter with "H"); [done|]. iIntros "H". iApply wp_ret. cbn [result_value].
        pose proof (iter_at_values _ _ _ _ _ Hit) as Hval. cbn in Hord. rewrite Hval in Hord. destruct (in_order_around k xs y ys Emul Hord Hsame) as [Hxs Hys].
        iApply (wp_internal_end _ _ _ _ xs (y :: ys) with "[H]"); [by right|done|cbn [btree_own]; by iFrame|].
        iIntros (it) "%Hp H". iApply ("HΦ" with "[] H"). iPureIntro. exists xs, (y :: ys). by split_and!.
      * iApply (wp_internal_last with "H"); [done|]. iIntros (r') "%Hlast H". iApply wp_ret. cbn [result_value].
        iApply (wp_internal_end _ _ _ _ xs ys with "[H]"); [done|by apply (leaf_at_values _ _ _ _ _ Hit)|cbn [btree_own]; by iFrame|].
        iIntros (it) "%Hp H". iApply ("HΦ" with "[] H"). iPureIntro. exists xs, ys. by split_and!.
  - iDestruct "H" as "->". iAssert (wp (end_ btree_new) Φ)%I with "[HΦ]" as "HΦ".
    { iApply (wp_end _ None with "[]"); [done|]. iIntros (it) "%Hit H". iApply ("HΦ" with "[] H"). iPureIntro. exists [], []. split_and!; (done || apply Hit). }
    destruct can_have_multiple_equivalent_keys; cbn [negb].
    + iApply wp_bind. iApply wp_fuel. iIntros (f). cbn [lower_loop root_ btree_new]. iApply wp_bind. iApply wp_lower_bound_empty.
      iApply wp_bind. iApply wp_is_leaf_empty. cbn [result_value]. unfold IsEq, no_match.
      destruct key_compare; cbn; iApply wp_bind; iApply wp_internal_last_empty; iApply wp_ret; cbn [internal_end node_ result_value]; done.
    + iApply wp_bind. iApply wp_internal_locate_empty. iApply wp_bind. cbn [result_value]. iApply wp_internal_last_empty. iApply wp_ret. done.
Qed.

Lemma wp_tree_upper_bound bt S k (Φ : iterator -> hPropI V) : in_order (contents S) ->
  btree_own bt S -∗ (∀ it, ⟦upper k S it⟧ -∗ btree_own bt S -∗ Φ it) -∗ wp (upper_bound bt k) Φ.
Proof.
  intros Hord. iIntros "H HΦ". iApply wp_bind. iApply wp_bind. destruct S as [[ht T]|]; cbn [btree_own].
  - iDestruct "H" as "[%Hok H]". iApply (own_fuel with "H"). iIntros (f) "%Hf H". rewrite (proj1 Hok). iEval (rewrite own_root) in "H".
    iApply (wp_upper_loop with "H"); [done|done|done|done|done|]. iIntros (r xs ys) "%Hr H". destruct Hr as (Hlast & Hval & Hxs & Hys).
    cbn [length plug Nat.add] in *.
    iApply (wp_internal_end with "[H]"); [done|done|cbn [btree_own]; by iFrame|]. iIntros (it) "%Hit H". iApply ("HΦ" with "[] H").
    iPureIntro. exists xs, ys. split_and!; [done| |]; (eapply Forall_impl; [eassumption|]); intros v Hv; cbn in Hv.
    + by destruct (after_key k v).
    + by destruct (after_key k v).
  - iDestruct "H" as "->". iApply wp_fuel. iIntros (f). cbn [upper_loop root_ btree_new]. iApply wp_bind. iApply wp_upper_bound_empty.
    iApply wp_bind. iApply wp_is_leaf_empty. iApply wp_internal_last_empty. cbn [internal_end node_].
    iApply (wp_end _ None with "[]"); [done|]. iIntros (it) "%Hit H". iApply ("HΦ" with "[] H"). iPureIntro. exists [], []. split_and!; (done || apply Hit).
Qed.

Lemma wp_clear bt S (Φ : Btree.btree -> hPropI V) : btree_own bt S -∗ Φ btree_new -∗ wp (clear bt) Φ.
Proof.
  iIntros "H HΦ". iApply wp_bind. destruct S as [[ht T]|]; cbn [btree_own].
  - iDestruct "H" as "[%Hok H]". destruct Hok as (Hroot & _ & Hsize & Hfull & _). unfold own.
    iDestruct (own_tree_wf with "H") as "[%Hwf H]". iDestruct (covers_nodup _ _ (covers_tree _ _ _ _) with "H") as "[%Hnd H]".
    pose proof (leftmost_not_internal _ _ Hwf Hnd) as Hlm. destruct T as [l cap vs ts]. apply full_inv in Hfull as [Hne _].
    unfold empty. rewrite Hsize (proj2 (Z.eqb_neq _ _)); cycle 1.
    { destruct vs as [|v vs]; [done|]. destruct ts as [|t [|t' ts]]; cbn; rewrite ?length_app; cbn; lia. }
    cbn [negb]. rewrite Hroot. iApply (wp_clear_and_delete with "H"); [done|by right|]. by iApply wp_ret.
  - iDestruct "H" as "->". cbn. iApply wp_ret. by iApply wp_ret.
Qed.
End spec.

(** ** Ordinary executions *)

(** [m] succeeds on [h], with a result and a heap that satisfy [Q]. *)
Definition runs {V A} (m : M V A) (h : heap V) (Q : A -> heap V -> Prop) : Prop :=
  exists a h', m h = Ok (a, h') /\ Q a h'.

Lemma runs_wp {V A} (m : M V A) (P : hPropI V) (Q : A -> Prop) (R : A -> hPropI V) h :
  (P -∗ wp m (λ a, ⟦Q a⟧ ∗ R a)) -> holds P h -> runs m h (λ a h', Q a /\ holds (R a) h').
Proof.
  intros Hwp%bi.wand_entails Hh. apply (proj1 (hProp_entails _ _) Hwp) in Hh. apply wp_run in Hh as (a & h' & E & h1 & h2 & -> & _ & [HQ ->]%affine_pure_holds & HR).
  exists a, h2. rewrite left_id_L in E. by rewrite E.
Qed.

Lemma sep_pure_inv {V} φ (P : hPropI V) h : holds (⟦φ⟧ ∗ P)%I h -> φ /\ holds P h.
Proof. intros (h1 & h2 & -> & _ & [Hφ ->]%affine_pure_holds & HP). by rewrite left_id_L. Qed.

Section theorems.
Context {K V : Type} `{PB : BtreeParams K V} {LB : BtreeLaws K V} `{AL : Allocator} {FL : AllocatorLaws} {LK : KeyLaws K V}.
Implicit Types (xs ys : list V) (k : K) (v : V) (bt : Btree.btree) (h : heap V).

(** C19: [find], [lower_bound] and [upper_bound] of a B-tree whose values are in
    order succeed, whatever the kind of comparison and of search in a node, and
    leave the container as it is. [find] stops at a value with an equivalent
    key, or at the end when there is none; the bounds separate the values before
    the key, or not after it, from the others. *)
Theorem btree_search bt S k h : in_order (contents S) -> holds (btree_own bt S) h ->
  runs (find bt k) h (λ it h', finds k S it /\ holds (btree_own bt S) h') /\
  runs (lower_bound bt k) h (λ it h', lower k S it /\ holds (btree_own bt S) h') /\
  runs (upper_bound bt k) h (λ it h', upper k S it /\ holds (btree_own bt S) h').
Proof.
  intros Hord Hh. split_and!; (eapply runs_wp, Hh); iIntros "H".
  - iApply (wp_find with "H"); [done|]. iIntros (it) "%Hit H". by iFrame.
  - iApply (wp_tree_lower_bound with "H"); [done|]. iIntros (it) "%Hit H". by iFrame.
  - iApply (wp_tree_upper_bound with "H"); [done|]. iIntros (it) "%Hit H". by iFrame.
Qed.

(** C21: [begin] is before all values and [end] after them. [operator++] moves an
    iterator behind the value it points to, through leaves and internal nodes,
    [operator--] moves it back, and [operator*] reads the value. *)
Theorem btree_iteration bt S h : holds (btree_own bt S) h ->
  runs (begin_ bt) h (λ it h', points S it [] (contents S) /\ holds (btree_own bt S) h') /\
  runs (end_ bt) h (λ it h', points S it (contents S) [] /\ holds (btree_own bt S) h') /\
  (forall it xs y ys, points S it xs (y :: ys) ->
    runs (iter_value it) h (λ v h', v = y /\ holds (btree_own bt S) h') /\
    runs (increment it) h (λ it' h', points S it' (xs ++ [y]) ys /\ holds (btree_own bt S) h')) /\
  (forall it xs y ys, points S it (xs ++ [y]) ys ->
    runs (decrement it) h (λ it' h', points S it' xs (y :: ys) /\ holds (btree_own bt S) h')).
Proof.
  intros Hh. split_and!; [| |intros it xs y ys Hp; split|intros it xs y ys Hp]; (eapply runs_wp, Hh); iIntros "H".
  - iApply (wp_begin with "H"). iIntros (it) "%Hit H". by iFrame.
  - iApply (wp_end with "H"). iIntros (it) "%Hit H". by iFrame.
  - destruct S as [[ht T]|]; [|by destruct Hp as (_ & _ & ?)]. iDestruct "H" as "[%Hok H]".
    iApply (wp_iter_value with "H"); [done|]. iIntros "H". by iFrame.
  - destruct S as [[ht T]|]; [|by destruct Hp as (_ & _ & ?)]. iDestruct "H" as "[%Hok H]".
    iApply (wp_increment with "H"); [apply Hok|done|]. iIntros (it') "%Hit H". by iFrame.
  - destruct S as [[ht T]|]; [|by destruct Hp as (_ & [_ ?]%app_nil & _)]. iDestruct "H" as "[%Hok H]".
    iApply (wp_decrement with "H"); [apply Hok|done|]. iIntros (it') "%Hit H". by iFrame.
Qed.

(** C22: [clear] destroys every value, gives back every node and leaves an empty
    container and an empty heap. *)
Theorem btree_clear bt S h : holds (btree_own bt S) h -> clear bt h = Ok (btree_new, ∅).
Proof.
  intros Hh. destruct (runs_wp (clear bt) (btree_own bt S) (λ bt', bt' = btree_new) (λ _, emp%I) h) as (bt' & h' & E & -> & ->); [|done|done].
  iIntros "H". iApply (wp_clear with "H"). by iSplit.
Qed.
End theorems.

(** ** Insertion *)

Section insertion.
Context {K V : Type} `{PB : BtreeParams K V} {LB : BtreeLaws K V} `{AL : Allocator} {FL : AllocatorLaws} {LK : KeyLaws K V}.
Implicit Types (xs ys : list V) (k : K) (v : V) (bt : Btree.btree) (h : heap V) (S : shape (V := V)).

(** What insertion means for a sorted list: of a value whose key is new, and of
    a value behind those with an equivalent key. *)
Fixpoint set_insert v xs : list V :=
  match xs with
  | [] => [v]
  | x :: xs' => if before_key (params_key v) x then x :: set_insert v xs' else if after_key (params_key v) x then v :: xs else xs
  end.
Fixpoint multi_insert v xs : list V :=
  match xs with [] => [v] | x :: xs' => if after_key (params_key v) x then v :: xs else x :: multi_insert v xs' end.

Lemma set_insert_new v xs ys : Forall (λ w, before_key (params_key v) w = true) xs -> Forall (λ w, after_key (params_key v) w = true) ys ->
  set_insert v (xs ++ ys) = xs ++ v :: ys.
Proof.
  intros Hxs Hys. induction Hxs as [|x xs Hx _ IH]; cbn; [|by rewrite Hx IH]. destruct Hys as [|y ys Hy _]; [done|]. cbn. rewrite Hy.
  unfold before_key, after_key in *. by rewrite (key_lt_asym _ _ Hy).
Qed.
Lemma set_insert_same v xs y ys : Forall (λ w, before_key (params_key v) w = true) xs -> same_key (params_key v) y ->
  set_insert v (xs ++ y :: ys) = xs ++ y :: ys.
Proof using Type. intros Hxs [Hb Ha]. induction Hxs as [|x xs Hx _ IH]; cbn; [by rewrite Hb Ha|by rewrite Hx IH]. Qed.
Lemma multi_insert_app v xs ys : Forall (λ w, after_key (params_key v) w = false) xs -> Forall (λ w, after_key (params_key v) w = true) ys ->
  multi_insert v (xs ++ ys) = xs ++ v :: ys.
Proof using Type. intros Hxs Hys. induction Hxs as [|x xs Hx _ IH]; cbn; [|by rewrite Hx IH]. by destruct Hys as [|y ys Hy _]; [|cbn; rewrite Hy]. Qed.

(** What [insert_unique] returns. *)
Definition insert_result v S (r : Btree.btree * (iterator * bool)) S' : Prop :=
  contents S' = set_insert v (contents S) /\ in_order (contents S') /\
  (r.2.2 = true <-> Forall (λ w, ¬ same_key (params_key v) w) (contents S)) /\
  exists xs y ys, points S' r.2.1 xs (y :: ys) /\ same_key (params_key v) y.

Lemma insert_result_unique v S bt it b S' : can_have_multiple_equivalent_keys = false -> in_order (contents S) ->
  inserted_unique (params_key v) v S it b S' -> in_order (contents S') -> insert_result v S (bt, (it, b)) S'.
Proof.
  intros Hu Hord Hins Hord'. assert (same_key (params_key v) v) as Hv by (split; apply key_lt_irrefl).
  destruct Hins as [(xs & y & ys & -> & -> & Hp & Hy)|(xs & ys & -> & Hval & Hxs & Hys & Hp)].
  - pose proof (points_contents _ _ _ _ Hp) as Hval. rewrite Hval in Hord. destruct (in_order_around _ _ _ _ Hu Hord Hy) as [Hxs _].
    split_and!; [by rewrite Hval set_insert_same|done| |by exists xs, y, ys]. cbn [snd]. split; [done|].
    intros Hno. rewrite Hval in Hno. apply Forall_app in Hno as [_ Hno]. by apply Forall_cons in Hno as [Hno _].
  - split_and!; [|done| |by exists xs, v, ys].
    + by rewrite Hval (points_contents _ _ _ _ Hp) set_insert_new.
    + split; [|done]. intros _. rewrite Hval. apply Forall_app. split; [by apply before_not_same|by apply after_not_same].
Qed.

(** The insertions of a range, each with the end as a hint. *)
Definition insert_sorted : V -> list V -> list V := if can_have_multiple_equivalent_keys then multi_insert else set_insert.
Definition insert_range (bt : Btree.btree) (vs : list V) : M V Btree.btree :=
  if can_have_multiple_equivalent_keys then insert_iterator_multi bt vs else insert_iterator_unique bt vs.

Lemma wp_insert_range bt S vs (Φ : Btree.btree -> hPropI V) : in_order (contents S) ->
  btree_own bt S -∗ (∀ bt' S', ⟦contents S' = foldl (flip insert_sorted) (contents S) vs /\ in_order (contents S')⟧ -∗ btree_own bt' S' -∗ Φ bt') -∗
  wp (insert_range bt vs) Φ.
Proof.
  intros Hord. unfold insert_range, insert_sorted. destruct can_have_multiple_equivalent_keys eqn:Hu; revert bt S Hord;
    (induction vs as [|v vs IH]; intros bt S Hord; iIntros "H HΦ"; cbn [insert_iterator_multi insert_iterator_unique];
      [iApply wp_ret; iApply ("HΦ" with "[] H"); by iPureIntro|]);
    iApply wp_bind; (iApply (wp_end with "H")); iIntros (e) "%He H"; iApply wp_bind.
  - iApply (wp_insert_hint_multi with "H"); [done|done|done|]. iIntros (bt' S' it) "%Hr H".
    destruct Hr as [(xs & ys & Hval & Hxs & Hys & Hp)%inserted_hint_end Hord']; [|done|done].
    iApply (IH with "H"); [done|]. iIntros (bt2 S2) "%Hr2 H". iApply ("HΦ" with "[] H"). cbn. rewrite Hval multi_insert_app //.
    by rewrite -(points_contents _ _ _ _ Hp).
  - iApply (wp_insert_hint_unique with "H"); [done|done|done|done|]. iIntros (bt' S' it b) "%Hr H". destruct Hr as [Hins Hord'].
    destruct (insert_result_unique v S bt' it b S' Hu Hord Hins Hord') as (Hval & _).
    iApply (IH with "H"); [done|]. iIntros (bt2 S2) "%Hr2 H". iApply ("HΦ" with "[] H"). cbn. by rewrite -Hval.
Qed.

(** C16: [insert_unique] succeeds on every B-tree with unique keys in order,
    whatever it takes to make room: the new values are those of the insertion in
    the sorted list, the flag says whether the key is new, the iterator points to
    the value with the key, and all invariants of the tree hold again. *)
Theorem btree_insert_unique bt S v h : can_have_multiple_equivalent_keys = false -> in_order (contents S) -> holds (btree_own bt S) h ->
  exists r h' S', insert_unique bt (params_key v) v h = Ok (r, h') /\ holds (btree_own (fst r) S') h' /\ insert_result v S r S'.
Proof.
  intros Hu Hord Hh. destruct (runs_wp (insert_unique bt (params_key v) v) (btree_own bt S) (λ _, True)
    (λ r, ∃ S', ⟦insert_result v S r S'⟧ ∗ btree_own (fst r) S')%I h) as (r & h' & E & _ & S' & Hr); [|done|].
  - iIntros "H". iApply (wp_insert_unique with "H"); [done|done|done|]. iIntros (bt' S' it b) "%Hr H". destruct Hr as [Hins Hord'].
    iSplitR; [done|]. iExists S'. iFrame. iPureIntro. by apply insert_result_unique.
  - exists r, h', S'. apply sep_pure_inv in Hr as [Hr Hown]. by split_and!.
Qed.

(** [insert_multi] succeeds on every B-tree in order that may hold
    equivalent keys, and puts the value behind the values with the same key; the
    iterator points to it. *)
Theorem btree_insert_multi bt S v h : can_have_multiple_equivalent_keys = true -> in_order (contents S) -> holds (btree_own bt S) h ->
  exists r h' S', insert_multi bt (params_key v) v h = Ok (r, h') /\ holds (btree_own (fst r) S') h' /\
    contents S' = multi_insert v (contents S) /\ in_order (contents S') /\ exists xs ys, points S' (snd r) xs (v :: ys).
Proof.
  intros Hu Hord Hh. destruct (runs_wp (insert_multi bt (params_key v) v) (btree_own bt S) (λ _, True)
    (λ r, ∃ S', ⟦contents S' = multi_insert v (contents S) /\ in_order (contents S') /\ exists xs ys, points S' (snd r) xs (v :: ys)⟧ ∗
       btree_own (fst r) S')%I h) as (r & h' & E & _ & S' & Hr); [|done|].
  - iIntros "H". iApply (wp_insert_multi with "H"); [done|done|done|]. iIntros (bt' S' it) "%Hr H".
    destruct Hr as [(xs & ys & Hval & Hxs & Hys & Hp) Hord'].
    iSplitR; [done|]. iExists S'. iFrame. iPureIntro. split_and!; [|done|by exists xs, ys].
    by rewrite Hval multi_insert_app // (points_contents _ _ _ _ Hp).
  - exists r, h', S'. apply sep_pure_inv in Hr as [(Hv & Ho & Hp) Hown]. by split_and!.
Qed.

(** C20: what a hint at any position, between [xs] and [ys], does. With unique
    keys it changes the cost of an insertion, not its meaning:
    [insert_hint_unique] does what [insert_unique] does. With equivalent keys
    [insert_hint_multi] puts the value exactly at the hint if no value in front
    of it is larger and none behind it smaller ([takes]); right behind the next
    value if that is smaller and the position behind it takes the value; and in
    every other case behind all values that are not larger, where
    [insert_multi] puts it. *)
Theorem btree_insert_hint bt S p xs ys v h : in_order (contents S) -> points S p xs ys -> holds (btree_own bt S) h ->
  if can_have_multiple_equivalent_keys then
    exists r h' S', insert_hint_multi bt p v h = Ok (r, h') /\ holds (btree_own (fst r) S') h' /\ in_order (contents S') /\
      (takes (params_key v) xs ys -> points S' (snd r) xs (v :: ys)) /\
      (forall y ys', ys = y :: ys' -> before_key (params_key v) y = true -> takes (params_key v) (xs ++ [y]) ys' ->
         points S' (snd r) (xs ++ [y]) (v :: ys')) /\
      (~ takes (params_key v) xs ys ->
       (forall y ys', ys = y :: ys' -> before_key (params_key v) y = true -> ~ takes (params_key v) (xs ++ [y]) ys') ->
         inserted_multi (params_key v) v S (snd r) S')
  else
    exists r h' S', insert_hint_unique bt p (params_key v) v h = Ok (r, h') /\ holds (btree_own (fst r) S') h' /\ insert_result v S r S'.
Proof.
  intros Hord Hp Hh. destruct can_have_multiple_equivalent_keys eqn:Hu.
  - destruct (runs_wp (insert_hint_multi bt p v) (btree_own bt S) (λ _, True)
      (λ r, ∃ S', ⟦in_order (contents S') /\ inserted_hint (params_key v) v S xs ys (snd r) S'⟧ ∗ btree_own (fst r) S')%I h) as (r & h' & E & _ & S' & Hr); [|done|].
    + iIntros "H". iApply (wp_insert_hint_multi with "H"); [done|done|done|]. iIntros (bt' S' it) "%Hr H".
      iSplitR; [done|]. iExists S'. iFrame. iPureIntro. by destruct Hr.
    + exists r, h', S'. apply sep_pure_inv in Hr as [(Ho & H1 & H2 & H3) Hown]. by split_and!.
  - destruct (runs_wp (insert_hint_unique bt p (params_key v) v) (btree_own bt S) (λ _, True)
      (λ r, ∃ S', ⟦insert_result v S r S'⟧ ∗ btree_own (fst r) S')%I h) as (r & h' & E & _ & S' & Hr); [|done|].
    + iIntros "H". iApply (wp_insert_hint_unique with "H"); [done|done|done|done|]. iIntros (bt' S' it b) "%Hr H". destruct Hr as [Hins Hord'].
      iSplitR; [done|]. iExists S'. iFrame. iPureIntro. by apply insert_result_unique.
    + exists r, h', S'. apply sep_pure_inv in Hr as [Hr Hown]. by split_and!.
Qed.

(** C18: the life of a container: a range of any values in any order is inserted
    into a new one, with the sorted list that the same insertions make and all
    invariants of the tree, and [clear] then gives every node back. *)
Theorem btree_built vs : exists bt h S, insert_range btree_new vs ∅ = Ok (bt, h) /\ holds (btree_own bt S) h /\
    contents S = foldl (flip insert_sorted) [] vs /\ in_order (contents S) /\ clear bt h = Ok (btree_new, ∅).
Proof.
  destruct (runs_wp (insert_range btree_new vs) (btree_own btree_new None) (λ _, True)
    (λ bt, ∃ S, ⟦contents S = foldl (flip insert_sorted) [] vs /\ in_order (contents S)⟧ ∗ btree_own bt S)%I ∅) as (bt & h & E & _ & S & Hr).
  - iIntros "H". iApply (wp_insert_range _ None with "H"); [unfold in_order; by destruct can_have_multiple_equivalent_keys; constructor|].
    iIntros (bt' S') "%Hr H". iSplitR; [done|]. iExists S'. by iFrame.
  - by apply affine_pure_holds.
  - apply sep_pure_inv in Hr as [[Hval Hord] Hown]. exists bt, h, S. split_and!; [done|done|done|done|].
    destruct (runs_wp (clear bt) (btree_own bt S) (λ bt', bt' = btree_new) (λ _, emp%I) h) as (bt' & h' & E' & -> & ->); [|done|done].
    iIntros "H". iApply (wp_clear with "H"). by iSplit.
Qed.

(** C17: [erase] of the value at an iterator succeeds on every B-tree, whether the
    value is in a leaf or in an internal node and however far up nodes are merged
    or rebalanced: the other values stay in order, the iterator returned points
    behind the erased value, and all invariants of the tree hold again. *)
Theorem btree_erase bt S it xs y ys h : points S it xs (y :: ys) -> holds (btree_own bt S) h ->
  exists bt' it' h' S', erase bt it h = Ok ((bt', it'), h') /\ holds (btree_own bt' S') h' /\ points S' it' xs ys /\ contents S' = xs ++ ys.
Proof.
  intros Hp Hh. destruct (runs_wp (erase bt it) (btree_own bt S) (λ _, True)
    (λ r, ∃ S', ⟦points S' (snd r) xs ys⟧ ∗ btree_own (fst r) S')%I h) as ([bt' it'] & h' & E & _ & S' & Hr); [|done|].
  - iIntros "H". iApply (wp_erase with "H"); [done|]. iIntros (bt' S' it') "%Hp' H". iSplitR; [done|]. iExists S'. by iFrame.
  - apply sep_pure_inv in Hr as [Hr Hown]. exists bt', it', h', S'. split_and!; [done|done|done|by apply (points_contents _ it')].
Qed.
End insertion.

(** ** Any sequence of operations *)

Section session.
Context {K V : Type} `{PB : BtreeParams K V} {LB : BtreeLaws K V} `{AL : Allocator} {FL : AllocatorLaws} {LK : KeyLaws K V}.
Implicit Types (xs ys : list V) (k : K) (v y : V) (bt : Btree.btree) (h : heap V) (S : shape (V := V)).

Inductive op := OInsert (v : V) | OFind (k : K) | OErase (k : K) | OClear.
Inductive answer := AInserted (b : bool) | AFound (v : option V) | AErased (b : bool) | ACleared.

(** A client of a container with unique keys; it compares with [end()] before it
    uses an iterator. *)
Definition run_op bt (o : op) : M V (Btree.btree * answer) :=
  match o with
  | OInsert v => let! r := insert_unique bt (params_key v) v in ret (fst r, AInserted (snd (snd r)))
  | OFind k =>
      let! it := find bt k in
      let! e := end_ bt in
      let! none := Equals it e in
      if none then ret (bt, AFound None) else let! v := iter_value it in ret (bt, AFound (Some v))
  | OErase k =>
      let! it := find bt k in
      let! e := end_ bt in
      let! none := Equals it e in
      if none then ret (bt, AErased false) else let! r := erase bt it in ret (fst r, AErased true)
  | OClear => let! bt := clear bt in ret (bt, ACleared)
  end.
Fixpoint run_ops bt (os : list op) : M V (Btree.btree * list answer) :=
  match os with
  | [] => ret (bt, [])
  | o :: os => let! r := run_op bt o in let! rs := run_ops (fst r) os in ret (fst rs, snd r :: snd rs)
  end.

(** The same on a sorted list. *)
Definition is_same k v : bool := negb (before_key k v) && negb (after_key k v).
Fixpoint set_find k xs : option V := match xs with [] => None | x :: xs => if is_same k x then Some x else set_find k xs end.
Fixpoint set_erase k xs : list V := match xs with [] => [] | x :: xs => if is_same k x then xs else x :: set_erase k xs end.
Definition list_op xs (o : op) : list V * answer :=
  match o with
  | OInsert v => (set_insert v xs, AInserted (bool_decide (set_find (params_key v) xs = None)))
  | OFind k => (xs, AFound (set_find k xs))
  | OErase k => (set_erase k xs, AErased (bool_decide (set_find k xs <> None)))
  | OClear => ([], ACleared)
  end.
Fixpoint list_ops xs (os : list op) : list V * list answer :=
  match os with
  | [] => (xs, [])
  | o :: os => let r := list_op xs o in let rs := list_ops (fst r) os in (fst rs, snd r :: snd rs)
  end.

Lemma is_same_true k v : is_same k v = true <-> same_key k v.
Proof using Type. unfold is_same, same_key. rewrite andb_true_iff !negb_true_iff. done. Qed.
Lemma set_find_none k xs : Forall (λ v, ¬ same_key k v) xs -> set_find k xs = None /\ set_erase k xs = xs.
Proof using Type.
  induction 1 as [|x xs Hx _ [IH1 IH2]]; [done|]. cbn. destruct (is_same k x) eqn:E; [by apply is_same_true in E|]. by rewrite IH1 IH2.
Qed.
Lemma set_find_some k xs y ys : Forall (λ v, ¬ same_key k v) xs -> same_key k y ->
  set_find k (xs ++ y :: ys) = Some y /\ set_erase k (xs ++ y :: ys) = xs ++ ys.
Proof using Type.
  intros Hxs Hy. induction Hxs as [|x xs Hx _ [IH1 IH2]]; cbn; [by rewrite (proj2 (is_same_true k y) Hy)|].
  destruct (is_same k x) eqn:E; [by apply is_same_true in E|]. by rewrite IH1 IH2.
Qed.
Lemma set_find_none_inv k xs : set_find k xs = None <-> Forall (λ v, ¬ same_key k v) xs.
Proof using Type.
  split; [|by intros [? _]%set_find_none]. induction xs as [|x xs IH]; cbn; [by constructor|]. destruct (is_same k x) eqn:E; [done|].
  intros Hn. constructor; [by intros Hs%is_same_true; rewrite E in Hs|by apply IH].
Qed.

Lemma wp_Equals_points bt S it e xs ys (Φ : bool -> hPropI V) : points S it xs ys -> points S e (contents S) [] ->
  btree_own bt S -∗ (btree_own bt S -∗ Φ (bool_decide (ys = []))) -∗ wp (Equals it e) Φ.
Proof.
  destruct S as [[ht T]|]; intros Hit He.
  - iIntros "[%Hok H] HΦ". iApply (wp_Equals_end with "H"); [done|done|]. iIntros "H". iApply "HΦ". cbn [btree_own]. by iFrame.
  - destruct Hit as (-> & -> & ->), He as (-> & _ & _). iIntros "H HΦ". iApply wp_bind. iApply wp_check; [done|]. iApply wp_bind.
    iApply wp_bind. iApply wp_fuel. iIntros (f).
    assert (forall Ψ : loc -> hPropI V, Ψ EmptyNode ⊢ wp (root_of (S f) EmptyNode) Ψ) as Hroot.
    { intros Ψ. iIntros "HΨ". cbn [root_of]. iApply wp_bind. iApply wp_bind. iApply wp_parent_empty. iApply wp_is_leaf_empty. by iApply wp_ret. }
    iApply wp_bind. iApply Hroot. iApply wp_bind. iApply Hroot. iApply wp_ret. iApply wp_bind. iApply wp_check; [by apply bool_decide_eq_true|].
    iApply wp_ret. rewrite !bool_decide_true //. by iApply "HΦ".
Qed.

Lemma wp_find_or_end {X} bt S k (kk : iterator -> bool -> M V X) (Φ : X -> hPropI V) : in_order (contents S) -> can_have_multiple_equivalent_keys = false ->
  btree_own bt S -∗
  (∀ it xs y ys, ⟦points S it xs (y :: ys) /\ set_find k (contents S) = Some y /\ set_erase k (contents S) = xs ++ ys⟧ -∗ btree_own bt S -∗ wp (kk it false) Φ) ∧
  (∀ it, ⟦set_find k (contents S) = None /\ set_erase k (contents S) = contents S⟧ -∗ btree_own bt S -∗ wp (kk it true) Φ) -∗
  wp (let! it := find bt k in let! e := end_ bt in let! none := Equals it e in kk it none) Φ.
Proof.
  intros Hord Hu. iIntros "H HΦ". iApply wp_bind. iApply (wp_find with "H"); [done|]. iIntros (it) "%Hit H".
  iApply wp_bind. iApply (wp_end with "H"). iIntros (e) "%He H". iApply wp_bind. destruct Hit as [(xs & y & ys & Hp & Hy)|[Hp Hno]].
  - iApply (wp_Equals_points with "H"); [done|done|]. iIntros "H". rewrite bool_decide_false //. iDestruct "HΦ" as "[HΦ _]".
    iApply ("HΦ" with "[] H"). iPureIntro. pose proof (points_contents _ _ _ _ Hp) as Hval. rewrite Hval in Hord |- *.
    destruct (in_order_around k xs y ys Hu Hord Hy) as [Hxs _]. by destruct (set_find_some k xs y ys (before_not_same k xs Hxs) Hy).
  - iApply (wp_Equals_points with "H"); [done|done|]. iIntros "H". rewrite bool_decide_true //. iDestruct "HΦ" as "[_ HΦ]".
    iApply ("HΦ" with "[] H"). iPureIntro. by apply set_find_none.
Qed.

Lemma wp_run_op bt S o (Φ : Btree.btree * answer -> hPropI V) : in_order (contents S) -> can_have_multiple_equivalent_keys = false ->
  btree_own bt S -∗
  (∀ bt' S' a, ⟦(contents S', a) = list_op (contents S) o /\ in_order (contents S')⟧ -∗ btree_own bt' S' -∗ Φ (bt', a)) -∗
  wp (run_op bt o) Φ.
Proof.
  intros Hord Hu. iIntros "H HΦ". destruct o as [v|k|k|]; cbn [run_op].
  - iApply wp_bind. iApply (wp_insert_unique with "H"); [done|done|done|]. iIntros (bt' S' it b) "%Hr H". destruct Hr as [Hins Hord'].
    destruct (insert_result_unique v S bt' it b S' Hu Hord Hins Hord') as (Hval & _ & Hb & _). cbn [fst snd] in *.
    iApply wp_ret. iApply ("HΦ" with "[] H"). iPureIntro. split; [|done]. cbn. rewrite Hval. f_equal. f_equal.
    destruct b; symmetry; [apply bool_decide_eq_true|apply bool_decide_eq_false]; rewrite set_find_none_inv -Hb; done.
  - iApply (wp_find_or_end with "H"); [done|done|]. iSplit.
    + iIntros (it xs y ys) "%Hr H". destruct Hr as (Hp & Hf & _). iApply wp_bind. destruct S as [[ht T]|]; [|by destruct Hp as (_ & _ & ?)].
      iDestruct "H" as "[%Hok H]". iApply (wp_iter_value with "H"); [done|]. iIntros "H". iApply wp_ret.
      iApply ("HΦ" $! bt (Some (ht, T)) with "[]"); [iPureIntro; cbn [list_op]; by rewrite Hf|]. cbn [btree_own]. by iFrame.
    + iIntros (it) "%Hr H". destruct Hr as (Hf & _). iApply wp_ret. iApply ("HΦ" with "[] H"). iPureIntro. cbn [list_op]. by rewrite Hf.
  - iApply (wp_find_or_end with "H"); [done|done|]. iSplit.
    + iIntros (it xs y ys) "%Hr H". destruct Hr as (Hp & Hf & He). iApply wp_bind. iApply (wp_erase with "H"); [done|]. iIntros (bt' S' it') "%Hp' H".
      iApply wp_ret. cbn [fst]. iApply ("HΦ" with "[] H"). iPureIntro. pose proof (points_contents _ _ _ _ Hp) as Hval. pose proof (points_contents _ _ _ _ Hp') as Hval'.
      split; [cbn [list_op]; rewrite He Hf Hval'; by rewrite bool_decide_true|]. rewrite Hval'. rewrite Hval in Hord. eapply in_order_sublist, Hord.
      apply sublist_app; [done|by apply sublist_cons].
    + iIntros (it) "%Hr H". destruct Hr as (Hf & He). iApply wp_ret. iApply ("HΦ" with "[] H"). iPureIntro. cbn [list_op]. split; [|done].
      rewrite He Hf bool_decide_false; [done|]. by intros [].
  - iApply wp_bind. iApply (wp_clear with "H"). iApply wp_ret. iApply ("HΦ" $! _ None with "[]"); [iPureIntro|done]. split; [done|].
    unfold in_order. by destruct can_have_multiple_equivalent_keys; constructor.
Qed.

Lemma wp_run_ops bt S os (Φ : Btree.btree * list answer -> hPropI V) : in_order (contents S) -> can_have_multiple_equivalent_keys = false ->
  btree_own bt S -∗
  (∀ bt' S' a, ⟦(contents S', a) = list_ops (contents S) os /\ in_order (contents S')⟧ -∗ btree_own bt' S' -∗ Φ (bt', a)) -∗
  wp (run_ops bt os) Φ.
Proof.
  intros Hord Hu. iInduction os as [|o os] "IH" forall (bt S Φ Hord); iIntros "H HΦ"; cbn [run_ops].
  - iApply wp_ret. iApply ("HΦ" with "[] H"). by iPureIntro.
  - iApply wp_bind. iApply (wp_run_op with "H"); [done|done|]. iIntros (bt' S' a) "%Hr H". destruct Hr as [Ho Hord'].
    iApply wp_bind. iApply ("IH" with "[//] H"). iIntros (bt2 S2 a2) "%Hr2 H". destruct Hr2 as [Ho2 Hord2]. iApply wp_ret. cbn [fst snd].
    iApply ("HΦ" with "[] H"). iPureIntro. split; [|done]. cbn [list_ops]. by rewrite -Ho /= -Ho2.
Qed.

(** C15: a B-tree with unique keys refines the sorted list: any sequence of
    insertions, look-ups, erasures by key and [clear] on a new container runs
    without a failed assertion, an undefined operation or an access outside the
    heap, gives the answers of the list, leaves the values of the list in order,
    and [clear] then gives every node back. *)
Theorem btree_refines os : can_have_multiple_equivalent_keys = false ->
  exists bt h S answers, run_ops btree_new os ∅ = Ok ((bt, answers), h) /\ holds (btree_own bt S) h /\
    (contents S, answers) = list_ops [] os /\ in_order (contents S) /\ clear bt h = Ok (btree_new, ∅).
Proof.
  intros Hu. destruct (runs_wp (run_ops btree_new os) (btree_own btree_new None) (λ _, True)
    (λ r, ∃ S, ⟦(contents S, snd r) = list_ops [] os /\ in_order (contents S)⟧ ∗ btree_own (fst r) S)%I ∅) as ([bt a] & h & E & _ & S & Hr).
  - iIntros "H". iApply (wp_run_ops _ None with "H"); [unfold in_order; by destruct can_have_multiple_equivalent_keys; constructor|done|].
    iIntros (bt' S' a) "%Hr H". iSplitR; [done|]. iExists S'. by iFrame.
  - by apply affine_pure_holds.
  - apply sep_pure_inv in Hr as [[Hval Hord] Hown]. exists bt, h, S, a. split_and!; [done|done|done|done|].
    destruct (runs_wp (clear bt) (btree_own bt S) (λ bt', bt' = btree_new) (λ _, emp%I) h) as (bt' & h' & E' & -> & ->); [|done|done].
    iIntros "H". iApply (wp_clear with "H"). by iSplit.
Qed.
End session.

(** ** A tree of two levels *)

Module example.
#[export] Instance params : BtreeParams Z Z := {|
  params_key := id; key_compare := ByOrder Z.compare; kIsKeyCompareStringAdapted := false;
  can_have_multiple_equivalent_keys := false; use_linear_search := false; kNodeSlots := 4; field_bits := 8 |}.
#[export] Instance laws : BtreeLaws Z Z.
Proof. split; vm_compute; reflexivity || discriminate. Qed.
#[export] Instance keys : KeyLaws Z Z.
Proof.
  split; unfold key_lt; cbn; intros; repeat match goal with |- context [?a ?= ?b] => destruct (Z.compare_spec a b) | H : context [?a ?= ?b] |- _ => destruct (Z.compare_spec a b) end; cbn in *; try (done || lia || naive_solver lia).
Qed.
#[export] Instance allocator : Allocator := {| new_address X := Pos.succ (set_fold Pos.max 1%positive X) |}.
#[export] Instance allocator_laws : AllocatorLaws.
Proof.
  split. intros X HX. enough (new_address X <= set_fold Pos.max 1%positive X)%positive by (cbn in *; lia).
  revert HX. generalize (new_address X). intros p. apply (set_fold_ind_L (λ m X, p ∈ X -> (p <= m)%positive)); [set_solver|].
  intros x Y m _ IH [->%elem_of_singleton|Hp]%elem_of_union; [lia|]. specialize (IH Hp). lia.
Qed.

(** What insertion of 10, 50, 30, 40 and 20 makes. *)
Definition sample_tree : tree Z := Tree 5%positive 0 [30] [Tree 4%positive 4 [10; 20] []; Tree 6%positive 4 [40; 50] []].
Definition sample : Btree.btree := mkBtree 5%positive 6%positive 5.
Definition sample_root : node Z := mkNode 4%positive 0 0 1 0 [Live 30; Raw; Raw; Raw] [Some 4%positive; Some 6%positive; None; None; None].
Definition sample_left : node Z := mkNode 5%positive 0 0 2 4 [Live 10; Live 20; Raw; Raw] [].
Definition sample_right : node Z := mkNode 5%positive 1 0 2 4 [Live 40; Live 50; Raw; Raw] [].
Definition sample_heap : heap Z := {[5%positive := sample_root]} ∪ ({[4%positive := sample_left]} ∪ {[6%positive := sample_right]}).

Lemma sample_inserted : insert_iterator_unique btree_new [10; 50; 30; 40; 20] ∅ = Ok (sample, sample_heap).
Proof. by vm_compute. Qed.

Lemma sample_full : full sample_tree.
Proof. repeat (constructor; try done). Qed.
Lemma sample_tree_ok : btree_ok sample 1 sample_tree.
Proof. split_and!; try done; [apply sample_full|]. right. repeat constructor. Qed.

Lemma sep_union {V} (P Q : hPropI V) h1 h2 : h1 ##ₘ h2 -> holds P h1 -> holds Q h2 -> holds (P ∗ Q)%I (h1 ∪ h2).
Proof. intros Hd HP HQ. by exists h1, h2. Qed.
Lemma sep_pure {V} φ (P : hPropI V) h : φ -> holds P h -> holds (⟦φ⟧ ∗ P)%I h.
Proof. intros Hφ HP. exists ∅, h. rewrite left_id_L. split_and!; [done|apply map_disjoint_empty_l| |done]. by apply affine_pure_holds. Qed.
Lemma sep_emp {V} (P : hPropI V) h : holds P h -> holds (P ∗ emp)%I h.
Proof. intros HP. rewrite -(right_id_L ∅ (∪) h). apply sep_union; [apply map_disjoint_empty_r|done|done]. Qed.

Lemma sample_node p par pos cap vs cs arr : p ≠ EmptyNode -> children_at 0 cs arr -> length arr = child_slots cap ->
  holds (own_node p par pos cap vs cs) {[p := mkNode par pos 0 (Z.of_nat (length vs)) cap (slots_of (capacity cap) vs) arr]}.
Proof. intros Hp Hc Hl. exists arr. by apply sep_pure. Qed.

Lemma sample_own : holds (btree_own sample (Some (1%nat, sample_tree))) sample_heap.
Proof.
  apply sep_pure; [apply sample_tree_ok|]. unfold own. cbn -[sample_heap own_node].
  apply sep_pure; [split; vm_compute; [lia|by repeat split]|]. apply sep_union.
  - apply map_disjoint_dom. set_solver.
  - apply (sample_node 5%positive 4%positive 0 0 [30] [4%positive; 6%positive] [Some 4%positive; Some 6%positive; None; None; None]); [done| |done].
    by intros [|[|[]]] c; cbn; intros [= <-].
  - apply sep_union; [apply map_disjoint_dom; set_solver| |apply sep_emp].
    + apply sep_pure; [split; vm_compute; [lia|by repeat split]|]. apply sep_emp. by apply (sample_node 4%positive 5%positive 0 4 [10; 20] [] []).
    + apply sep_pure; [split; vm_compute; [lia|by repeat split]|]. apply sep_emp. by apply (sample_node 6%positive 5%positive 1 4 [40; 50] [] []).
Qed.
Lemma sample_order : in_order (values_of sample_tree).
Proof. repeat (constructor; try done). Qed.
Lemma sample_at_30 : points (Some (1%nat, sample_tree)) (mkIterator (Some 5%positive) 0) ([10] ++ [20]) [30; 40; 50].
Proof. exists [], sample_tree, O, 1%nat. split_and!; [done|done|constructor|apply (cursor_inner [] 5%positive 0 [] 30 [] [] (Tree 4%positive 4 [10; 20] []) (Tree 6%positive 4 [40; 50] []) []); done|done|cbn; lia]. Qed.
End example.
Import example.


Lemma btree_search_witness :
  runs (find example.sample 40) example.sample_heap (λ it h', finds 40 (Some (1%nat, example.sample_tree)) it /\ holds (btree_own example.sample (Some (1%nat, example.sample_tree))) h') /\
  (forall it, find example.sample 40 example.sample_heap = Ok (it, example.sample_heap) -> it = mkIterator (Some 6%positive) 0).
Proof.
  split.
  - exact (proj1 (btree_search example.sample (Some (1%nat, example.sample_tree)) 40 example.sample_heap example.sample_order example.sample_own)).
  - vm_compute. by intros it [= <-].
Defined.
Lemma btree_iteration_witness :
  runs (increment (mkIterator (Some 5%positive) 0)) example.sample_heap
    (λ it h', points (Some (1%nat, example.sample_tree)) it [10; 20; 30] [40; 50] /\ holds (btree_own example.sample (Some (1%nat, example.sample_tree))) h') /\
  runs (decrement (mkIterator (Some 5%positive) 0)) example.sample_heap
    (λ it h', points (Some (1%nat, example.sample_tree)) it [10] [20; 30; 40; 50] /\ holds (btree_own example.sample (Some (1%nat, example.sample_tree))) h').
Proof.
  destruct (btree_iteration example.sample (Some (1%nat, example.sample_tree)) example.sample_heap example.sample_own) as (_ & _ & Hn & Hp). split.
  - exact (proj2 (Hn _ _ _ _ example.sample_at_30)).
  - exact (Hp _ _ _ _ example.sample_at_30).
Defined.
Lemma btree_clear_witness : clear example.sample example.sample_heap = Ok (btree_new, ∅).
Proof. exact (btree_clear example.sample (Some (1%nat, example.sample_tree)) example.sample_heap example.sample_own). Defined.

(** A multimap with linear search and [std::less]. *)
Module multi_example.
#[export] Instance params : BtreeParams Z (Z * Z) := {|
  params_key := fst; key_compare := ByLess Z.ltb; kIsKeyCompareStringAdapted := false;
  can_have_multiple_equivalent_keys := true; use_linear_search := true; kNodeSlots := 4; field_bits := 8 |}.
#[export] Instance laws : BtreeLaws Z (Z * Z).
Proof. split; vm_compute; reflexivity || discriminate. Qed.
#[export] Instance keys : KeyLaws Z (Z * Z).
Proof. split; unfold key_lt; cbn; intros; repeat match goal with |- context [?a <? ?b] => destruct (Z.ltb_spec a b) | H : context [?a <? ?b] |- _ => destruct (Z.ltb_spec a b) end; done || lia || naive_solver lia. Qed.
End multi_example.
Import multi_example.

Lemma btree_insert_unique_witness : exists r h' S',
  insert_unique example.sample 35 35 example.sample_heap = Ok (r, h') /\ holds (btree_own (fst r) S') h' /\
  contents S' = [10; 20; 30; 35; 40; 50] /\ insert_result 35 (Some (1%nat, example.sample_tree)) r S'.
Proof.
  destruct (btree_insert_unique (PB := example.params) example.sample (Some (1%nat, example.sample_tree)) 35 example.sample_heap eq_refl example.sample_order example.sample_own)
    as (r & h' & S' & E & Hown & Hr).
  exists r, h', S'. split; [exact E|]. split; [exact Hown|]. split; [|exact Hr]. destruct Hr as [-> _]. reflexivity.
Defined.
Lemma btree_insert_multi_witness : exists r1 h1 r2 h2 S2,
  insert_multi btree_new 1 (1, 7) ∅ = Ok (r1, h1) /\ insert_multi (fst r1) 1 (1, 8) h1 = Ok (r2, h2) /\
  holds (btree_own (fst r2) S2) h2 /\ contents S2 = [(1, 7); (1, 8)].
Proof.
  destruct (btree_insert_multi (PB := multi_example.params) btree_new None (1, 7) ∅ eq_refl (SSorted_nil _)) as (r1 & h1 & S1 & E1 & H1 & V1 & O1 & _); [by apply affine_pure_holds|].
  destruct (btree_insert_multi (PB := multi_example.params) (fst r1) S1 (1, 8) h1 eq_refl O1 H1) as (r2 & h2 & S2 & E2 & H2 & V2 & _).
  exists r1, h1, r2, h2, S2. split; [exact E1|]. split; [exact E2|]. split; [exact H2|]. rewrite V2 V1. reflexivity.
Defined.
Lemma btree_insert_hint_witness : exists r h' S',
  insert_hint_unique example.sample (mkIterator (Some 5%positive) 0) 25 25 example.sample_heap = Ok (r, h') /\
  holds (btree_own (fst r) S') h' /\ contents S' = [10; 20; 25; 30; 40; 50].
Proof.
  destruct (btree_insert_hint (PB := example.params) example.sample (Some (1%nat, example.sample_tree)) _ _ _ 25 example.sample_heap
    example.sample_order example.sample_at_30 example.sample_own) as (r & h' & S' & E & Hown & Hr).
  exists r, h', S'. split; [exact E|]. split; [exact Hown|]. destruct Hr as [-> _]. reflexivity.
Defined.
Lemma btree_built_witness : exists bt h S, insert_range (PB := example.params) btree_new [10; 50; 30; 40; 20; 60; 30; 5; 15; 25; 35] ∅ = Ok (bt, h) /\
  holds (btree_own bt S) h /\ contents S = [5; 10; 15; 20; 25; 30; 35; 40; 50; 60] /\ in_order (contents S) /\ clear bt h = Ok (btree_new, ∅).
Proof. exact (btree_built (PB := example.params) [10; 50; 30; 40; 20; 60; 30; 5; 15; 25; 35]). Defined.
Lemma btree_erase_witness : exists bt' it' h' S', erase example.sample (mkIterator (Some 5%positive) 0) example.sample_heap = Ok ((bt', it'), h') /\
  holds (btree_own bt' S') h' /\ points S' it' [10; 20] [40; 50] /\ contents S' = [10; 20; 40; 50].
Proof.
  exact (btree_erase (PB := example.params) example.sample (Some (1%nat, example.sample_tree)) _ _ _ _ example.sample_heap example.sample_at_30 example.sample_own).
Defined.
Lemma btree_refines_witness : exists bt h S answers,
  run_ops btree_new [OInsert 10; OInsert 50; OInsert 30; OInsert 10; OErase 40; OInsert 20; OFind 30; OErase 30; OFind 30; OInsert 60; OErase 10; OClear; OInsert 5] ∅ = Ok ((bt, answers), h) /\
  holds (btree_own bt S) h /\
  (contents S, answers) = ([5], [AInserted true; AInserted true; AInserted true; AInserted false; AErased false; AInserted true; AFound (Some 30); AErased true;
     AFound None; AInserted true; AErased true; ACleared; AInserted true]) /\ in_order (contents S) /\ clear bt h = Ok (btree_new, ∅).
Proof. exact (btree_refines (PB := example.params) _ eq_refl). Defined.
